(* ===== verification/_CoqProject ===== *)
-Q . S2P
Prelude.v
Types.v
Asmap.v
Script.v
Muhash.v
Merkle.v
MerkleProof.v
UtxoCodec.v
UtxoCache.v
UtxoStore.v
UtxoDisk.v
UtxoFlush.v
RecordStore.v
WireReader.v
WireMessage.v
WireFrame.v
VersionBits.v
BlockChecks.v
ChainIndex.v
ConnectBlock.v
Ledger.v
HeaderChecks.v
ChainManager.v
ChainReplay.v
ChainInvariant.v
ChainConnect.v
ChainActivate.v
ChainIntake.v
ChainTheorems.v
ChainExamples.v
Locator.v
HeadersSync.v
HeadersSession.v
HeadersPeer.v
HeadersTheorems.v
HeadersRounds.v
HeadersLiveness.v
HeadersExamples.v
UtxoBatch.v
UtxoScan.v
UtxoLife.v
UtxoTheorems.v
UtxoExamples.v
FeeRate.v
Mempool.v
MempoolIndex.v
MempoolGraph.v
MempoolSafety.v
MempoolAccept.v
MempoolChain.v
MempoolMining.v
MempoolTheorems.v
