(* ===== verification/Prelude.v ===== *)
(** * bitcoind-rs: a verification library

    A model of the bitcoind-rs node ([src/src/*.rs]) and theorems about it.
    Functions of the source are functions here, under the same names where
    possible; loops that are not structural take fuel; fallible code returns
    [result]; state is passed explicitly.  Machine integers are [Z] with the
    saturating, checked and wrapping operations of the source written out
    ([sat_add], [checked_add], [of_signed], ...); byte strings are lists of
    [Z]; hash maps and sets are [gmap] and [gset].

    ** The program and its model

    The node receives messages from peers, validates headers and blocks,
    keeps the chain with the most work and its set of unspent outputs on disk,
    and keeps a pool of transactions from which block templates are built.

    - Messages ([wire.rs]): [WireReader] has the payload primitives,
      [WireMessage] the messages and their codec, [WireFrame] the v1 and
      BIP324 framing and the reader that survives cancelled reads.
    - Addresses ([asmap.rs]): [Asmap] has the map from addresses to
      autonomous systems.
    - Scripts and commitments ([script.rs], [muhash.rs], [validation.rs],
      [rpc.rs], [chain.rs]): [Script] has the parser and the multisig matcher,
      [Muhash] the set hash, [Merkle] the transaction and header trees,
      [MerkleProof] the inclusion proofs of [gettxoutproof].
    - Storage ([storage.rs]): [UtxoCodec] has the encoding of a coin,
      [UtxoCache] the cache of decoded coins, [UtxoStore] the disk-backed set
      of unspent outputs (partitions, overlay, batches, flushes, bulk
      ingestion, scans, opening after a crash), [RecordStore] the append-only
      block file and the scan that rebuilds its index.
    - Consensus rules ([validation.rs], [chain.rs]): [VersionBits] has the
      deployments, [BlockChecks] the context-free checks of a block,
      [ConnectBlock] the checks of its transactions against the set of
      unspent outputs with the undo data, [HeaderChecks] the checks of a
      header against its parent.
    - The chain ([chain.rs], [p2p.rs]): [ChainIndex] has the tree of headers
      and the choice of the tip; [ChainManager] has the whole state of the
      chain and the operations that change it: [connect_block] and
      [connect_block_from_peer] with the orphans and stored children they
      drain, [activate_chain] with the reorganisation by suffix and the replay
      from a checkpoint, [utxos_for_block], [invalidate_block],
      [reconsider_block], [precious_block], and the self check
      [check_consistency].
    - Header synchronisation ([p2p.rs], [chain.rs]): [Locator] has the
      locators and their answers, [HeadersSync] the synchroniser that keeps
      one bit per header until a peer has shown enough work, [HeadersPeer] the
      handlers of [getheaders] and [headers].
    - The pool ([mempool.rs], [lib.rs]): [FeeRate] has fee rates and
      diagrams, [Mempool] the entries and indexes, [MempoolGraph] the graph
      operations, [MempoolAccept] admission, [MempoolChain] what blocks and
      reorganisations do to the pool, [MempoolMining] template selection.

    [Ledger] and [ChainReplay] are specifications: the ledger applies the
    transactions of a block one after the other to the set of unspent
    outputs, and a chain is its blocks' ledgers in sequence.

    ** What the theorems show

    - The chain: [ChainTheorems.chainstate_is_ledger] says that after any
      history of blocks, headers and operator commands the durable set is the
      ledger of the active chain and the self check passes;
      [activation_atomic] that a switch of branches succeeds as a whole or
      changes nothing; [valid_block_connects] that a valid block on the tip is
      connected; [invalidate_deactivates] and [side_set_is_ledger] what the
      commands and the validation off the tip compute.  They rest on
      [Ledger.connect_refines_ledger], [connect_no_inflation] and
      [connect_disconnect_roundtrip] for one block, and on
      [ChainIndex.best_valid_tip_correct] for the choice of the tip.
      [ChainInvariant], [ChainConnect], [ChainActivate] and [ChainIntake]
      carry the invariant; [ChainExamples] evaluates a small node, and
      [reconsider_tears_chainstate] shows the one command that can break the
      invariant.
    - The coin store: [UtxoTheorems.coin_store_refines] says that the
      disk-backed store implements the set that the chain manager's theorems
      are about, [crash_recovers] that a crash at any durable state leaves one
      of the sets that the store stood for or a store that is discarded,
      [generation_identifies] and [synced_survives] that the generation names
      the set and that a synced operation is durable, and [block_reaches_disk]
      that an accepted block takes the stored set to the ledger's next set.
      [UtxoDisk], [UtxoFlush], [UtxoBatch], [UtxoScan] and [UtxoLife] carry the
      invariant; [UtxoExamples] evaluates a small store and shows three
      hazards: a crash during [replace_all], a read that misses a coin, and a
      removal that is forgotten.
    - Header synchronisation: [HeadersTheorems.low_work_headers_stay_out] says
      that whatever a peer sends, its headers reach the index only with the
      required work behind them, and what is kept for the peer is bounded;
      [HeadersLiveness.header_sync_completes] that a node learns the tip of an
      honest peer, and [Locator.getheaders_connects] that every answer to a
      locator connects.  [HeadersSession] describes a run of the synchroniser,
      [HeadersRounds] the exchange with an honest peer, and [HeadersExamples]
      evaluates one.
    - The pool: [MempoolTheorems.mempool_safe] and [block_keeps_pool_valid]
      say that the pool always extends the chain's coins; the others describe
      admission, eviction, cleanup after a reorganisation, the audit, the
      graph queries and the template.
    - The codecs: round trips, and that decoding untrusted bytes respects the
      protocol limits and terminates.
    - The remaining files: the theorems of a component are in its file and
      stated over its operations.

    ** Parameters

    What the node takes from other crates is a parameter with named laws:
    [BitcoinOps], [HeaderOps], [ScriptOps], [PowOps] and [SyncOps] for the
    [bitcoin] crate and the script verifier, [Consensus] for its encodings, the hash
    functions, zstd, [Keyspace] for the key-value store ([fjall]) with
    [KeyspaceLaws] for its batches and for what a crash may lose, [CurveOps]
    for public keys, and [HashOrder] and [CoinOrder] for the iteration order
    of hash maps.
    Every theorem with such a law has a witness at a concrete instance.

    ** Fuel and bounds

    Walks along the index take [walk_fuel], the height of the start plus one,
    and every step lowers the height.  [ready_fuel] counts the waiting bodies,
    each of which enters the queue once.  [header_sync_completes] gives the number
    of questions, [2 * (n / 2000) + 3] for [n] headers.  The intake of a block takes any
    fuel: the safety theorems hold for every amount, and
    [valid_block_connects] shows that three levels connect a block that
    nothing waits for.  Scans of files and graph traversals take the length
    of their input; their totality lemmas are beside them.  The chain theorems
    ask for fewer than 2^32 index entries ([small]), so that heights and the
    count of coins stay within their widths.

    ** Not modelled

    The chain manager is that of a node without pruning, assumeutxo, reindex
    and optional service indexes, on networks where BIP34 holds from the
    start, whose storage calls succeed; the handler of [headers] is modelled
    without the requests for bodies that follow; the coin store's [crash_recovers] is
    about crashes outside [replace_all]; the clock is one value per operation
    and does not go back; a block is the one its hash commits to, and a peer's
    header is accepted before its body.  Checks of the reduced-data deployment
    are left out.  Script execution, signature checks and proof of work are
    the parameters above.  The JSON-RPC and Electrum servers, configuration,
    process startup, sockets, the command-line tools, notifications and the
    fee estimator's floating-point statistics are not modelled: they are
    input and output around the components above, or depend on floating-point
    arithmetic and wall-clock scheduling. *)

From Stdlib Require Import ZArith Lia.
From stdpp Require Import base list strings gmap.

Declare Scope res_scope.
Delimit Scope res_scope with res.
Local Open Scope Z_scope.

(** [lia] with the Euclidean equations of the divisions in the goal. *)
Ltac dlia := Z.div_mod_to_equations; lia.

(** ** Results *)

(** Rust's [Result<A, E>].  The error comes first so that [result E] is the
    monad the [?] operator works in. *)
Inductive result (E A : Type) : Type :=
| Ok (a : A)
| Err (e : E).
Arguments Ok {E A} a.
Arguments Err {E A} e.

(** The [?] operator. *)
Definition rbind {E A B} (c : result E A) (k : A -> result E B) : result E B :=
  match c with
  | Ok a => k a
  | Err e => Err e
  end.

Notation "'let?' x ':=' c 'in' k" := (rbind c (fun x => k))
  (at level 10, x name, c at level 100, k at level 200) : res_scope.
Notation "'let?' ' p ':=' c 'in' k" := (rbind c (fun x => match x with p => k end))
  (at level 10, p pattern, c at level 100, k at level 200) : res_scope.
Notation "'check?' b 'else' e 'in' k" := (if b then k else Err e)
  (at level 10, b at level 100, e at level 100, k at level 200) : res_scope.
Open Scope res_scope.

(** [Result::map_err], [Result::ok], [Result::is_ok] and [Option::ok_or]. *)
Definition map_err {E F A} (f : E -> F) (c : result E A) : result F A :=
  match c with Ok a => Ok a | Err e => Err (f e) end.
Definition res_ok {E A} (c : result E A) : option A :=
  match c with Ok a => Some a | Err _ => None end.
Definition is_ok {E A} (c : result E A) : bool :=
  match c with Ok _ => true | Err _ => false end.
Definition res_get {E A} (c : result E A) (d : A) : A :=
  match c with Ok a => a | Err _ => d end.
Definition ok_or {E A} (o : option A) (e : E) : result E A :=
  match o with Some a => Ok a | None => Err e end.

Lemma Ok_inj {E A} (a b : A) : @Ok E A a = Ok b -> a = b.
Proof. congruence. Qed.

Lemma res_ok_get {E A} (c : result E A) (d : A) : is_ok c = true -> c = Ok (res_get c d).
Proof. by destruct c. Qed.

Lemma rbind_Ok {E A B} (c : result E A) (k : A -> result E B) b :
  rbind c k = Ok b <-> exists a, c = Ok a /\ k a = Ok b.
Proof.
  split; [destruct c; simpl; [eauto|discriminate] | intros (a & -> & H); exact H].
Qed.

Lemma ok_or_Ok {E A} (o : option A) (e : E) a : ok_or o e = Ok a <-> o = Some a.
Proof. destruct o; simpl; split; congruence. Qed.

Lemma res_ok_Some {E A} (c : result E A) a : res_ok c = Some a <-> c = Ok a.
Proof. destruct c; simpl; split; congruence. Qed.

Lemma map_err_Ok {E F A} (f : E -> F) (c : result E A) a :
  map_err f c = Ok a <-> c = Ok a.
Proof. destruct c; simpl; split; congruence. Qed.

(** ** Operations that may fail half way *)

(** An operation on a state that keeps the changes it made before an error. *)
Definition op (S E A : Type) : Type := S -> S * result E A.
Definition ret {S E A} (x : A) : op S E A := fun s => (s, Ok x).
Definition lift {S E A} (r : result E A) : op S E A := fun s => (s, r).
Definition modify {S E} (f : S -> S) : op S E () := fun s => (f s, Ok ()).
Definition bind {S E A B} (m : op S E A) (k : A -> op S E B) : op S E B := fun s =>
  match m s with
  | (s, Ok x) => k x s
  | (s, Err e) => (s, Err e)
  end.
(** [let _ = operation;] *)
Definition ignore {S E A} (m : op S E A) : op S E () := fun s => ((m s).1, Ok ()).

Declare Scope op_scope.
Delimit Scope op_scope with op.
Notation "'let!' x := m 'in' k" := (bind m (fun x => k))
  (at level 10, x pattern, m at level 100, k at level 200) : op_scope.
Notation "'do!' m 'in' k" := (bind m (fun _ => k)) (at level 10, m at level 100, k at level 200) : op_scope.

Fixpoint for_each {S E A} (f : A -> op S E ()) (l : list A) : op S E () :=
  match l with
  | [] => ret ()
  | x :: l => (do! f x in for_each f l)%op
  end.

Fixpoint fold_m {S E A T} (f : A -> T -> op S E T) (l : list A) (s : T) : op S E T :=
  match l with
  | [] => ret s
  | x :: l => (let! s := f x s in fold_m f l s)%op
  end.

Lemma bind_read {S E A B} (f : S -> A) (k : A -> op S E B) s : bind (fun s => (s, Ok (f s))) k s = k (f s) s.
Proof. done. Qed.
Lemma bind_run {S E A B} (m : op S E A) (k : A -> op S E B) s :
  bind m k s = match m s with (s', Ok x) => k x s' | (s', Err e) => (s', Err e) end.
Proof. done. Qed.
Lemma bind_modify {S E B} f (k : () -> op S E B) s : bind (modify f) k s = k () (f s).
Proof. done. Qed.
Lemma bind_assoc {S E A B C} (m : op S E A) (f : A -> op S E B) (k : B -> op S E C) s :
  bind (bind m f) k s = bind m (fun x => bind (f x) k) s.
Proof. unfold bind. by destruct (m s) as [? []]. Qed.

(** ** Machine integers

    A [w]-bit unsigned integer is a [Z] in [0 .. 2^w - 1]; the wrap-around,
    saturating and checked operations of the standard library are written
    out at their width. *)

Definition in_u (w z : Z) : Prop := 0 <= z < 2 ^ w.
Definition umax (w : Z) : Z := 2 ^ w - 1.
Definition sat_add (w a b : Z) : Z := Z.min (a + b) (umax w).
Definition sat_sub (a b : Z) : Z := Z.max 0 (a - b).
Definition sat_mul (w a b : Z) : Z := Z.min (a * b) (umax w).
Definition checked_add (w a b : Z) : option Z :=
  if a + b <=? umax w then Some (a + b) else None.
Definition checked_mul (w a b : Z) : option Z :=
  if a * b <=? umax w then Some (a * b) else None.
(** [usize] and [u64] saturating arithmetic. *)
Declare Scope sat_scope.
Delimit Scope sat_scope with sat.
Notation "a +^ b" := (sat_add 64 a b) (at level 50, left associativity) : sat_scope.
Notation "a *^ b" := (sat_mul 64 a b) (at level 40, left associativity) : sat_scope.
(** [uW::try_from] of a value of a wider type. *)
Definition try_u (w z : Z) : option Z :=
  if (0 <=? z) && (z <=? umax w) then Some z else None.
(** Two's complement reading of a [w]-bit word, and the cast back. *)
Definition to_signed (w z : Z) : Z := if z <? 2 ^ (w - 1) then z else z - 2 ^ w.
Definition of_signed (w z : Z) : Z := z mod 2 ^ w.
Definition in_i (w z : Z) : Prop := - 2 ^ (w - 1) <= z < 2 ^ (w - 1).

Lemma to_of_signed w z : 0 < w -> in_i w z -> to_signed w (of_signed w z) = z.
Proof.
  unfold in_i, to_signed, of_signed. intros Hw H.
  assert (2 ^ w = 2 * 2 ^ (w - 1)) as E.
  { rewrite <- Z.pow_succ_r by lia. f_equal. lia. }
  assert (0 < 2 ^ (w - 1)) by (apply Z.pow_pos_nonneg; lia).
  rewrite E. destruct (Z.ltb_spec z 0).
  - rewrite <- (Z_mod_plus_full z 1), Z.mod_small by lia.
    rewrite (proj2 (Z.ltb_ge _ _)) by lia. lia.
  - rewrite Z.mod_small by lia. rewrite (proj2 (Z.ltb_lt _ _)) by lia. reflexivity.
Qed.

Lemma of_signed_range w z : 0 <= w -> in_u w (of_signed w z).
Proof. intros. apply Z.mod_pos_bound, Z.pow_pos_nonneg; lia. Qed.

(** ** Bytes *)

Abbreviation bytes := (list Z).
Definition is_byte (b : Z) : Prop := 0 <= b < 256.
Abbreviation all_bytes l := (Forall is_byte l).

Lemma all_bytes_check l : forallb (fun b => (0 <=? b) && (b <? 256)) l = true -> all_bytes l.
Proof.
  intros H. apply Forall_forall. intros b Hb. rewrite forallb_forall in H.
  specialize (H b (proj1 (list_elem_of_In _ _) Hb)). unfold is_byte.
  rewrite andb_true_iff, Z.leb_le, Z.ltb_lt in H. exact H.
Qed.
(** Concrete bytes. *)
Ltac all_bytes := apply all_bytes_check; vm_compute; reflexivity.

(** The bytes of a string literal, [b"..."]. *)
Fixpoint str (s : string) : bytes :=
  match s with
  | EmptyString => []
  | String c s => Z.of_N (Ascii.N_of_ascii c) :: str s
  end.
Arguments str s%_string.

Definition zlen {A} (l : list A) : Z := Z.of_nat (length l).
Definition ztake {A} (n : Z) (l : list A) : list A := take (Z.to_nat n) l.
Definition zdrop {A} (n : Z) (l : list A) : list A := drop (Z.to_nat n) l.
(** [l.get(i)] *)
Definition zget {A} (l : list A) (i : Z) : option A :=
  if i <? 0 then None else l !! Z.to_nat i.
(** [l[i]] where the code has established that [i] is in range. *)
Definition zat (l : bytes) (i : Z) : Z := default 0 (zget l i).
(** [l[a..b]] where the code has established that the range is valid, and
    [l.get(a..b)]. *)
Definition slice {A} (l : list A) (a b : Z) : list A := ztake (b - a) (zdrop a l).
Definition get_range {A} (l : list A) (a b : Z) : option (list A) :=
  if (0 <=? a) && (a <=? b) && (b <=? zlen l) then Some (slice l a b) else None.
(** [l.starts_with(p)] *)
Definition starts_with (l p : bytes) : bool := bool_decide (take (length p) l = p).

(** [std::str::from_utf8(l).is_ok()]: the well-formed byte sequences of the
    Unicode standard (shortest form, no surrogates, at most [U+10FFFF]). *)
Definition continuation (b : Z) : bool := (0x80 <=? b) && (b <=? 0xbf).
Fixpoint utf8_valid (l : bytes) : bool :=
  match l with
  | [] => true
  | b :: l =>
      if b <=? 0x7f then utf8_valid l
      else if (0xc2 <=? b) && (b <=? 0xdf) then
        match l with
        | c :: l => continuation c && utf8_valid l
        | _ => false
        end
      else if (0xe0 <=? b) && (b <=? 0xef) then
        match l with
        | c :: d :: l =>
            (if b =? 0xe0 then 0xa0 <=? c else true) && (if b =? 0xed then c <=? 0x9f else true)
            && continuation c && continuation d && utf8_valid l
        | _ => false
        end
      else if (0xf0 <=? b) && (b <=? 0xf4) then
        match l with
        | c :: d :: e :: l =>
            (if b =? 0xf0 then 0x90 <=? c else true) && (if b =? 0xf4 then c <=? 0x8f else true)
            && continuation c && continuation d && continuation e && utf8_valid l
        | _ => false
        end
      else false
  end%bool.

Lemma zlen_nonneg {A} (l : list A) : 0 <= zlen l.
Proof. unfold zlen. lia. Qed.
Lemma zlen_nil {A} : zlen (@nil A) = 0.
Proof. reflexivity. Qed.
Lemma zlen_cons {A} (x : A) l : zlen (x :: l) = 1 + zlen l.
Proof. unfold zlen. simpl. lia. Qed.
Lemma zlen_app {A} (l1 l2 : list A) : zlen (l1 ++ l2) = zlen l1 + zlen l2.
Proof. unfold zlen. rewrite length_app. lia. Qed.

Lemma ztake_app_eq {A} (l1 l2 : list A) n : n = zlen l1 -> ztake n (l1 ++ l2) = l1.
Proof. intros ->. unfold ztake, zlen. rewrite Nat2Z.id. apply take_app_length. Qed.
Lemma zdrop_app_eq {A} (l1 l2 : list A) n : n = zlen l1 -> zdrop n (l1 ++ l2) = l2.
Proof. intros ->. unfold zdrop, zlen. rewrite Nat2Z.id. apply drop_app_length. Qed.

Lemma ztake_all {A} (l : list A) n : zlen l <= n -> ztake n l = l.
Proof. unfold zlen, ztake. intros. apply take_ge. lia. Qed.

Lemma slice_app {A} (pre x post : list A) a b :
  a = zlen pre -> b = zlen pre + zlen x -> slice (pre ++ x ++ post) a b = x.
Proof.
  intros -> ->. unfold slice. rewrite zdrop_app_eq by reflexivity.
  apply ztake_app_eq. lia.
Qed.

Lemma get_range_app {A} (pre x post : list A) a b :
  a = zlen pre -> b = zlen pre + zlen x -> get_range (pre ++ x ++ post) a b = Some x.
Proof.
  intros Ha Hb. unfold get_range. rewrite (slice_app pre x post a b Ha Hb).
  rewrite !zlen_app. pose proof (zlen_nonneg pre). pose proof (zlen_nonneg x).
  pose proof (zlen_nonneg post).
  replace ((0 <=? a) && (a <=? b) && (b <=? zlen pre + (zlen x + zlen post)))%bool
    with true; [done|]. symmetry. rewrite !andb_true_iff, !Z.leb_le. lia.
Qed.

Lemma starts_with_app l p : starts_with (p ++ l) p = true.
Proof. unfold starts_with. rewrite take_app_length. apply bool_decide_eq_true. reflexivity. Qed.

Lemma get_range_Some {A} (l : list A) a b x :
  get_range l a b = Some x ->
  0 <= a <= b /\ b <= zlen l /\ x = slice l a b /\ zlen x = b - a /\
  zdrop a l = x ++ zdrop b l.
Proof.
  unfold get_range. destruct (_ && _) eqn:E; [|done]. intros [= <-]. rewrite !andb_true_iff, !Z.leb_le in E.
  split; [lia|]. split; [lia|]. split; [done|]. unfold zlen, slice, ztake, zdrop in *. split.
  - rewrite length_take, length_drop. lia.
  - rewrite <- (take_drop (Z.to_nat (b - a)) (drop (Z.to_nat a) l)) at 1. f_equal.
    rewrite drop_drop. f_equal. lia.
Qed.

Lemma zget_Some {A} (l : list A) i x :
  0 <= i -> zget l i = Some x -> i < zlen l /\ zdrop i l = x :: zdrop (i + 1) l.
Proof.
  unfold zget. intros Hi. rewrite (proj2 (Z.ltb_ge i 0)) by lia. intros H. split.
  - apply lookup_lt_Some in H. unfold zlen. lia.
  - unfold zdrop. rewrite (drop_S _ _ _ H). do 2 f_equal. lia.
Qed.

Lemma zdrop_bytes i l : all_bytes l -> all_bytes (zdrop i l).
Proof. apply Forall_drop. Qed.

Lemma zget_app {A} (pre : list A) x post i : i = zlen pre -> zget (pre ++ x :: post) i = Some x.
Proof.
  intros ->. unfold zget, zlen. rewrite (proj2 (Z.ltb_ge _ _)), Nat2Z.id by lia.
  rewrite lookup_app_r, Nat.sub_diag by lia. reflexivity.
Qed.

Lemma zget_range {A} (l : list A) i x : zget l i = Some x -> 0 <= i < zlen l.
Proof.
  unfold zget. destruct (Z.ltb_spec i 0) as [Hi|Hi]; [done|]. intros H.
  apply lookup_lt_Some in H. unfold zlen. lia.
Qed.

Lemma zlen_ztake {A} (l : list A) n : 0 <= n <= zlen l -> zlen (ztake n l) = n.
Proof. unfold zlen, ztake. rewrite length_take. lia. Qed.

Lemma ztake_snoc {A} (l : list A) n x : zget l n = Some x -> ztake (n + 1) l = ztake n l ++ [x].
Proof.
  intros H. pose proof (zget_range l n x H). unfold zget in H. rewrite (proj2 (Z.ltb_ge n 0)) in H by lia.
  unfold ztake. replace (Z.to_nat (n + 1)) with (S (Z.to_nat n)) by lia. by apply take_S_r.
Qed.

Lemma slice_decompose {A} (l : list A) a b :
  0 <= a <= b -> b <= zlen l -> l = slice l 0 a ++ slice l a b ++ zdrop b l.
Proof.
  intros Ha Hb. unfold slice, ztake, zdrop, zlen in *. rewrite Z.sub_0_r, drop_0.
  rewrite <- (take_drop (Z.to_nat a) l) at 1. f_equal.
  rewrite <- (take_drop (Z.to_nat (b - a)) (drop (Z.to_nat a) l)) at 1. f_equal.
  rewrite drop_drop. f_equal. lia.
Qed.

Lemma slice_split {A} (l : list A) a b c :
  0 <= a <= b -> b <= c -> slice l a c = slice l a b ++ slice l b c.
Proof.
  intros Ha Hb. unfold slice, ztake, zdrop.
  replace (drop (Z.to_nat b) l) with (drop (Z.to_nat (b - a)) (drop (Z.to_nat a) l))
    by (rewrite drop_drop; f_equal; lia).
  rewrite take_take_drop. f_equal. lia.
Qed.

Lemma zlen_slice {A} (l : list A) a b : 0 <= a <= b -> b <= zlen l -> zlen (slice l a b) = b - a.
Proof. unfold slice, ztake, zdrop, zlen. rewrite length_take, length_drop. lia. Qed.

Lemma zlen_zdrop {A} (l : list A) n : 0 <= n <= zlen l -> zlen (zdrop n l) = zlen l - n.
Proof. unfold zdrop, zlen. rewrite length_drop. lia. Qed.

Lemma slice_one (l : bytes) i j : j = i + 1 -> 0 <= i < zlen l -> slice l i j = [zat l i].
Proof.
  intros -> Hi. unfold slice, zat, zget, ztake, zdrop, zlen in *.
  rewrite (proj2 (Z.ltb_ge i 0)) by lia.
  destruct (l !! Z.to_nat i) as [x|] eqn:E; [|apply lookup_ge_None in E; lia].
  rewrite (drop_S _ _ _ E). replace (Z.to_nat (i + 1 - i)) with 1%nat by lia. done.
Qed.

Lemma zdrop_one (l : bytes) i : 0 <= i -> zlen l = i + 1 -> zdrop i l = [zat l i].
Proof.
  intros Hi Hl. rewrite <- (slice_one l i (i + 1)) by lia. unfold slice. rewrite ztake_all; [done|].
  rewrite zlen_zdrop; lia.
Qed.

(** Induction by pairs, for [chunks(2)]. *)
Lemma list_pair_ind {A} (P : list A -> Prop) :
  P [] -> (forall a, P [a]) -> (forall a b l, P l -> P (a :: b :: l)) -> forall l, P l.
Proof.
  intros H0 H1 H2 l. enough (P l /\ forall a, P (a :: l)) as [? _]; [done|].
  induction l as [|b l [IHl IHc]]; split; auto.
Qed.

(** *** Fixed-width encodings: [to_le_bytes], [from_le_bytes] and the
    big-endian pair. *)
Fixpoint to_le (n : nat) (z : Z) : bytes :=
  match n with
  | O => []
  | S n => z mod 256 :: to_le n (z / 256)
  end.
Fixpoint from_le (l : bytes) : Z :=
  match l with
  | [] => 0
  | b :: l => b + 256 * from_le l
  end.
Definition to_be (n : nat) (z : Z) : bytes := reverse (to_le n z).
Definition from_be (l : bytes) : Z := from_le (reverse l).

Lemma length_to_le n z : length (to_le n z) = n.
Proof. revert z. induction n; intros; simpl; auto. Qed.
Lemma length_to_be n z : length (to_be n z) = n.
Proof. unfold to_be. rewrite length_reverse. apply length_to_le. Qed.
Lemma zlen_to_le n z : zlen (to_le n z) = Z.of_nat n.
Proof. unfold zlen. rewrite length_to_le. reflexivity. Qed.
Lemma zlen_to_be n z : zlen (to_be n z) = Z.of_nat n.
Proof. unfold zlen. rewrite length_to_be. reflexivity. Qed.

Lemma to_le_bytes n z : all_bytes (to_le n z).
Proof.
  revert z. induction n; intros; simpl; constructor; auto.
  apply Z.mod_pos_bound. lia.
Qed.
Lemma to_be_bytes n z : all_bytes (to_be n z).
Proof. apply Forall_reverse, to_le_bytes. Qed.

Lemma pow256_succ n : 2 ^ (8 * Z.of_nat (S n)) = 256 * 2 ^ (8 * Z.of_nat n).
Proof.
  replace (8 * Z.of_nat (S n)) with (8 + 8 * Z.of_nat n) by lia.
  rewrite Z.pow_add_r by lia. reflexivity.
Qed.

Lemma lookup_to_le n z i :
  (i < n)%nat -> to_le n z !! i = Some ((z / 2 ^ (8 * Z.of_nat i)) mod 256).
Proof.
  revert n z. induction i as [|i IH]; intros [|n] z Hi; try lia.
  - simpl. by rewrite Z.div_1_r.
  - cbn [to_le]. rewrite lookup_cons_ne_0 by lia. cbn [Nat.pred]. rewrite IH by lia.
    rewrite pow256_succ, Z.div_div by (try apply Z.pow_pos_nonneg; lia). done.
Qed.

Lemma from_to_le n z : from_le (to_le n z) = z mod 2 ^ (8 * Z.of_nat n).
Proof.
  revert z. induction n; intros z.
  - simpl. rewrite Z.mod_1_r. reflexivity.
  - rewrite pow256_succ. cbn [to_le from_le]. rewrite IHn.
    rewrite Z.rem_mul_r by (try apply Z.pow_nonzero; lia). lia.
Qed.

Lemma from_le_bound l : all_bytes l -> 0 <= from_le l < 2 ^ (8 * zlen l).
Proof.
  unfold zlen. induction 1 as [|b l Hb Hl IH]; [simpl; lia|].
  cbn [from_le length]. rewrite pow256_succ. unfold is_byte in Hb. lia.
Qed.

Lemma to_from_le l : all_bytes l -> to_le (length l) (from_le l) = l.
Proof.
  induction 1 as [|b l Hb Hl IH]; [done|]. cbn [from_le length to_le].
  unfold is_byte in Hb. replace ((b + 256 * from_le l) mod 256) with b.
  - replace ((b + 256 * from_le l) / 256) with (from_le l) by dlia. rewrite IH. reflexivity.
  - dlia.
Qed.

Lemma from_le_app l1 l2 : from_le (l1 ++ l2) = from_le l1 + 2 ^ (8 * zlen l1) * from_le l2.
Proof.
  induction l1 as [|b l1 IH]; [unfold zlen; simpl; lia|].
  cbn [app from_le]. rewrite IH. unfold zlen in *. cbn [length]. rewrite pow256_succ. lia.
Qed.

Lemma from_to_le_small n w z :
  w = 8 * Z.of_nat n -> in_u w z -> from_le (to_le n z) = z.
Proof. intros -> H. rewrite from_to_le. apply Z.mod_small, H. Qed.

Lemma from_to_be_small n w z :
  w = 8 * Z.of_nat n -> in_u w z -> from_be (to_be n z) = z.
Proof. unfold from_be, to_be. rewrite reverse_involutive. apply from_to_le_small. Qed.

Lemma from_be_bound l : all_bytes l -> 0 <= from_be l < 2 ^ (8 * zlen l).
Proof.
  intros H. unfold from_be. replace (zlen l) with (zlen (reverse l)).
  - apply from_le_bound, Forall_reverse, H.
  - unfold zlen. rewrite length_reverse. reflexivity.
Qed.

(** The order of byte strings, [<[u8]>::cmp]. *)
Fixpoint bytes_leb (a b : bytes) : bool :=
  match a, b with
  | [], _ => true
  | _ :: _, [] => false
  | x :: a, y :: b => (x <? y) || ((x =? y) && bytes_leb a b)
  end.
Definition bytes_le (a b : bytes) : Prop := bytes_leb a b = true.
Definition bytes_ltb (a b : bytes) : bool := bytes_leb a b && negb (bool_decide (a = b)).
#[export] Instance bytes_le_dec : RelDecision bytes_le.
Proof. intros a b. unfold bytes_le. apply _. Defined.

Lemma bytes_leb_refl a : bytes_leb a a = true.
Proof. induction a as [|x a IH]; cbn [bytes_leb]; [done|]. rewrite Z.eqb_refl, IH. by rewrite orb_true_r. Qed.
Lemma bytes_leb_total a b : bytes_leb a b = true \/ bytes_leb b a = true.
Proof.
  revert b. induction a as [|x a IH]; intros [|y b]; cbn [bytes_leb]; [by left..|by right|].
  destruct (Z.lt_trichotomy x y) as [H|[->|H]]; [rewrite (proj2 (Z.ltb_lt x y) H); by left| |rewrite (proj2 (Z.ltb_lt y x) H); by right].
  rewrite Z.ltb_irrefl, Z.eqb_refl. apply IH.
Qed.
Lemma bytes_leb_antisym a b : bytes_leb a b = true -> bytes_leb b a = true -> a = b.
Proof.
  revert b. induction a as [|x a IH]; intros [|y b]; cbn [bytes_leb]; [done..|].
  rewrite !orb_true_iff, !andb_true_iff, !Z.ltb_lt, !Z.eqb_eq. intros [H|[-> H]] [H'|[? H']]; try lia. f_equal. by apply IH.
Qed.
Lemma bytes_leb_trans a b c : bytes_leb a b = true -> bytes_leb b c = true -> bytes_leb a c = true.
Proof.
  revert b c. induction a as [|x a IH]; intros [|y b] [|z c]; cbn [bytes_leb]; [done..|].
  rewrite !orb_true_iff, !andb_true_iff, !Z.ltb_lt, !Z.eqb_eq. intros [H|[-> H]] [H'|[-> H']]; [left; lia|by left|by left|right; eauto].
Qed.
(** Strings of the same length are compared piece by piece. *)
Lemma bytes_leb_app a b c d :
  length a = length b ->
  bytes_leb (a ++ c) (b ++ d) = if bool_decide (a = b) then bytes_leb c d else bytes_leb a b.
Proof.
  revert b. induction a as [|x a IH]; intros [|y b] E; try done. injection E as E. cbn [app bytes_leb]. rewrite (IH b E).
  destruct (Z.eqb_spec x y) as [->|Hne].
  - rewrite Z.ltb_irrefl. cbn [orb andb]. repeat case_bool_decide; congruence.
  - cbn [andb]. rewrite !orb_false_r. by rewrite bool_decide_eq_false_2 by congruence.
Qed.

(** ** Bits *)

Lemma land_ones_mod a n : 0 <= n -> Z.land a (Z.ones n) = a mod 2 ^ n.
Proof. apply Z.land_ones. Qed.

(** A disjoint [|] is an addition. *)
Lemma lor_shiftl_add a b n : 0 <= n -> 0 <= b < 2 ^ n -> Z.lor (Z.shiftl a n) b = Z.shiftl a n + b.
Proof.
  intros Hn Hb. rewrite Z.add_nocarry_lxor, Z.lxor_lor; [done| |];
    apply Z.bits_inj'; intros i Hi; rewrite Z.land_spec, Z.bits_0.
  all: destruct (Z.ltb_spec i n).
  1,3: rewrite Z.shiftl_spec_low by lia; reflexivity.
  all: replace (Z.testbit b i) with false; [apply andb_false_r|];
    symmetry; rewrite <- (Z.mod_small b (2 ^ n)) by lia; apply Z.mod_pow2_bits_high; lia.
Qed.

(** [v & (1 << i) != 0] reads bit [i]. *)
Lemma land_bit_test v i : 0 <= i -> negb (Z.land v (Z.shiftl 1 i) =? 0) = Z.testbit v i.
Proof.
  intros Hi. rewrite Z.shiftl_1_l. destruct (Z.eqb_spec (Z.land v (2 ^ i)) 0) as [E|E]; simpl.
  - symmetry. apply (f_equal (fun x => Z.testbit x i)) in E.
    by rewrite Z.land_spec, Z.pow2_bits_true, andb_true_r, Z.bits_0 in E by lia.
  - destruct (Z.testbit v i) eqn:Ev; [done|]. exfalso. apply E. apply Z.bits_inj'. intros k Hk.
    rewrite Z.land_spec, Z.bits_0. destruct (Z.eqb_spec i k) as [<-|Hne]; [by rewrite Ev|].
    by rewrite Z.pow2_bits_false, andb_false_r.
Qed.

(** [i ^ 1] is the other member of the pair of [i]. *)
Lemma lxor_1_even k : Z.lxor (2 * k) 1 = 2 * k + 1.
Proof.
  symmetry. apply Z.add_nocarry_lxor. rewrite (Z.land_ones _ 1) by lia.
  rewrite Z.mul_comm. apply Z_mod_mult.
Qed.
Lemma lxor_1_odd k : Z.lxor (2 * k + 1) 1 = 2 * k.
Proof. rewrite <- lxor_1_even, Z.lxor_assoc, Z.lxor_nilpotent. apply Z.lxor_0_r. Qed.

(** A boolean fact about bytes is decided by enumeration. *)
Lemma byte_forall (P : Z -> bool) :
  forallb P (map Z.of_nat (seq 0 256)) = true -> forall b, is_byte b -> P b = true.
Proof.
  intros H b Hb. rewrite forallb_forall in H. apply H. apply in_map_iff.
  exists (Z.to_nat b). unfold is_byte in Hb. split; [lia|]. apply in_seq. lia.
Qed.

Lemma byte_land_7f b : is_byte b -> Z.land b 0x7f = b mod 128.
Proof. intros _. apply (Z.land_ones b 7). lia. Qed.

Lemma byte_land_80 b : is_byte b -> Z.land b 0x80 = 128 * (b / 128).
Proof.
  intros H. apply Z.eqb_eq. revert b H. apply byte_forall. vm_compute. reflexivity.
Qed.

(** Clearing a set bit subtracts it. *)
Lemma land_lnot_bit a n : 0 <= n -> Z.testbit a n = true -> Z.land a (Z.lnot (2 ^ n)) = a - 2 ^ n.
Proof.
  intros Hn H. rewrite Z.sub_nocarry_ldiff; [symmetry; apply Z.ldiff_land|].
  apply Z.bits_inj'. intros i Hi. rewrite Z.ldiff_spec, Z.bits_0.
  destruct (Z.eqb_spec n i) as [<-|]; [by rewrite H, andb_false_r|].
  by rewrite Z.pow2_bits_false.
Qed.

(** ** Automation *)

(** Turn boolean comparisons in hypotheses and goal into propositions that
    [lia] reads. *)
Ltac bool_to_prop :=
  repeat match goal with
  | H : (_ && _)%bool = true |- _ => apply andb_true_iff in H; destruct H
  | H : (_ || _)%bool = false |- _ => apply orb_false_iff in H; destruct H
  | H : negb _ = true |- _ => apply negb_true_iff in H
  | H : negb _ = false |- _ => apply negb_false_iff in H
  | H : (_ <? _) = true |- _ => apply Z.ltb_lt in H
  | H : (_ <? _) = false |- _ => apply Z.ltb_ge in H
  | H : (_ <=? _) = true |- _ => apply Z.leb_le in H
  | H : (_ <=? _) = false |- _ => apply Z.leb_gt in H
  | H : (_ =? _) = true |- _ => apply Z.eqb_eq in H
  | H : (_ =? _) = false |- _ => apply Z.eqb_neq in H
  | H : bool_decide _ = true |- _ => apply bool_decide_eq_true in H
  | H : bool_decide _ = false |- _ => apply bool_decide_eq_false in H
  end.

(** Decide a closed or linear boolean condition in the goal. *)
Tactic Notation "btrue" constr(b) := replace b with true by
  (symmetry; repeat rewrite ?andb_true_iff, ?Z.leb_le, ?Z.ltb_lt, ?Z.eqb_eq; first [lia | dlia]).
Tactic Notation "bfalse" constr(b) := replace b with false by
  (symmetry; rewrite ?Z.leb_gt, ?Z.ltb_ge, ?Z.eqb_neq; first [lia | dlia]).
Tactic Notation "btrue" constr(b) "in" hyp(H) := replace b with true in H by
  (symmetry; repeat rewrite ?andb_true_iff, ?Z.leb_le, ?Z.ltb_lt, ?Z.eqb_eq; first [lia | dlia]).
Tactic Notation "bfalse" constr(b) "in" hyp(H) := replace b with false in H by
  (symmetry; rewrite ?Z.leb_gt, ?Z.ltb_ge, ?Z.eqb_neq; first [lia | dlia]).

(** Invert successful monadic computations in the context. *)
Ltac res_inv :=
  repeat match goal with
  | H : rbind _ _ = Ok _ |- _ => apply rbind_Ok in H; destruct H as (? & ? & ?)
  | H : ok_or _ _ = Ok _ |- _ => apply ok_or_Ok in H
  | H : map_err _ _ = Ok _ |- _ => apply map_err_Ok in H
  | H : (if ?b then _ else Err _) = Ok _ |- _ => destruct b eqn:?; [|discriminate H]
  | H : (if ?b then Err _ else _) = Ok _ |- _ => destruct b eqn:?; [discriminate H|]
  | H : Ok ?a = Ok ?b |- _ =>
      first [is_var b; apply Ok_inj in H; subst b | is_var a; apply Ok_inj in H; subst a
            |injection H; clear H; intros; subst]
  | H : Err _ = Ok _ |- _ => discriminate H
  | p : (_ * _)%type |- _ => destruct p
  end.

Create HintDb bytes.
Create Rewrite HintDb zlen.
#[export] Hint Resolve to_le_bytes to_be_bytes Forall_app_2 zlen_nonneg : bytes.
#[export] Hint Rewrite @zlen_app @zlen_cons @zlen_nil zlen_to_le zlen_to_be : zlen.
Ltac zlen := autorewrite with zlen in *.
