(* ===== verification/Types.v ===== *)
(** * Chain data ([bitcoin] crate, version 0.32)

    The public fields of the transaction and block types that the node takes
    from the [bitcoin] crate, and the interface of the crate's consensus
    encoding.  The encoding itself is third-party code: the node's components
    are stated over the class [Consensus], and the theorems that depend on
    what the encoding does take the class of its documented laws. *)

From Stdlib Require Import ZArith Lia.
From stdpp Require Import base list option strings gmap.
From S2P Require Import Prelude.
Local Open Scope Z_scope.

Definition MAX_MONEY : Z := 2100000000000000.

Record OutPoint := { txid : bytes; vout : Z }.

(** Amounts are the satoshis of [Amount]; scripts are their bytes. *)
Record TxOut := { value : Z; script_pubkey : bytes }.

Record TxIn := {
  previous_output : OutPoint;
  script_sig : bytes;
  sequence : Z;
  witness : list bytes;
}.

Record Transaction := {
  tx_version : Z;
  tx_lock_time : Z;
  tx_input : list TxIn;
  tx_output : list TxOut;
}.

Record Header := {
  hd_version : Z;
  prev_blockhash : bytes;
  merkle_root : bytes;
  hd_time : Z;
  hd_bits : Z;
  hd_nonce : Z;
}.

Record Block := { blk_header : Header; txdata : list Transaction }.

#[export] Instance OutPoint_eq_dec : EqDecision OutPoint.
Proof. solve_decision. Defined.
#[export] Instance TxOut_eq_dec : EqDecision TxOut.
Proof. solve_decision. Defined.
#[export] Instance TxIn_eq_dec : EqDecision TxIn.
Proof. solve_decision. Defined.
#[export] Instance Transaction_eq_dec : EqDecision Transaction.
Proof. solve_decision. Defined.
#[export] Instance Header_eq_dec : EqDecision Header.
Proof. solve_decision. Defined.
#[export] Instance Block_eq_dec : EqDecision Block.
Proof. solve_decision. Defined.

#[export] Instance OutPoint_countable : Countable OutPoint.
Proof.
  apply (inj_countable' (fun o => (txid o, vout o)) (fun p => {| txid := p.1; vout := p.2 |})).
  by intros [].
Defined.

(** ** The consensus encoding

    [serialize], [deserialize] and [deserialize_partial] of
    [bitcoin::consensus::encode], with the error as its message. *)
Class Consensus (A : Type) := {
  serialize : A -> bytes;
  deserialize : bytes -> result string A;
  deserialize_partial : bytes -> result string (A * Z);
}.

(** The values the crate can encode (fields within their width), and the
    round trip it documents for them. *)
Class ConsensusLaws (A : Type) `{Consensus A} := {
  encodable : A -> Prop;
  deserialize_serialize x : encodable x -> deserialize (serialize x) = Ok x;
}.

(** The same from the front of a longer buffer, with the number of bytes
    consumed. *)
Class PartialLaws (A : Type) `{ConsensusLaws A} := {
  deserialize_partial_serialize x rest :
    encodable x -> deserialize_partial (serialize x ++ rest) = Ok (x, zlen (serialize x));
}.
