(* ===== verification/Asmap.v ===== *)
(** * The compressed IP-to-ASN map ([src/asmap.rs])

    The bit reader, the variable-length instruction decoder, the trie
    interpreter [interpret] and the structural validator [sanity_check] that
    [AsMap::from_bytes] runs before a map is used.  The double SHA-256 of the
    file (the [bitcoin] crate) is a parameter.

    Positions are bit offsets kept as [Z]: they never exceed the bit length of
    the data, so the [usize] additions of the source cannot wrap.  The two
    [while] loops take fuel and answer [None] when it runs out; the loops read
    at least one bit per round, and [interpret_fuel] and [sanity_fuel] show
    that the fuel given at the call is enough. *)

From Stdlib Require Import ZArith Lia.
From stdpp Require Import base list option.
From S2P Require Import Prelude.
Local Open Scope Z_scope.

(** ** Bit reader and instruction decoder *)

Definition read_bit_le (data : bytes) (position : Z) : option (bool * Z) :=
  byte ← zget data (position / 8);
  Some (negb (Z.land (Z.shiftr byte (position mod 8)) 1 =? 0), position + 1).

Definition read_bit_be (data : bytes) (position : Z) : option (bool * Z) :=
  byte ← zget data (position / 8);
  Some (negb (Z.land (Z.shiftr byte (7 - position mod 8)) 1 =? 0), position + 1).

(** [1u32.checked_shl(n)] *)
Definition checked_shl_one (n : Z) : option Z :=
  if n <? 32 then Some (Z.shiftl 1 n) else None.

(** The inner [for bit in 0..bit_size] loop of [decode_bits]; [n] rounds are
    left and [bit] is the loop variable. *)
Fixpoint decode_bits_value (data : bytes) (bit_size : Z) (n : nat) (bit value position : Z)
  : option (Z * Z) :=
  match n with
  | O => Some (value, position)
  | S n =>
      '(set, position) ← read_bit_le data position;
      value ← (if set : bool then checked_add 32 value (Z.shiftl 1 (bit_size - 1 - bit))
               else Some value);
      decode_bits_value data bit_size n (bit + 1) value position
  end.

Fixpoint decode_bits (data : bytes) (position value : Z) (bit_sizes : list Z)
  : option (Z * Z) :=
  match bit_sizes with
  | [] => None
  | bit_size :: rest =>
      '(continuation, position) ←
        (match rest with
         | [] => Some (false, position)
         | _ => read_bit_le data position
         end);
      if continuation : bool then
        step ← checked_shl_one bit_size;
        value ← checked_add 32 value step;
        decode_bits data position value rest
      else decode_bits_value data bit_size (Z.to_nat bit_size) 0 value position
  end.

Definition decode_type (data : bytes) (position : Z) : option (Z * Z) :=
  decode_bits data position 0 [0; 0; 1].
Definition decode_asn (data : bytes) (position : Z) : option (Z * Z) :=
  decode_bits data position 1 [15; 16; 17; 18; 19; 20; 21; 22; 23; 24].
Definition decode_match (data : bytes) (position : Z) : option (Z * Z) :=
  decode_bits data position 2 [1; 2; 3; 4; 5; 6; 7; 8].
Definition decode_jump (data : bytes) (position : Z) : option (Z * Z) :=
  decode_bits data position 17
    [5; 6; 7; 8; 9; 10; 11; 12; 13; 14; 15; 16; 17; 18; 19; 20; 21; 22; 23; 24; 25; 26; 27;
     28; 29; 30].

Definition leading_zeros (value : Z) : Z := if value =? 0 then 32 else 31 - Z.log2 value.

(** [data.len().saturating_mul(8)] on a 64-bit target. *)
Definition bit_end (data : bytes) : Z := sat_mul 64 (zlen data) 8.

(** ** The interpreter *)

(** The comparison loop of the MATCH instruction: [None] when the address runs
    out, [Some None] on a mismatch, otherwise the advanced address bit. *)
Fixpoint match_bits (address : bytes) (value match_length : Z) (n : nat) (bit address_bit : Z)
  : option (option Z) :=
  match n with
  | O => Some (Some address_bit)
  | S n =>
      let expected := negb (Z.land (Z.shiftr value (match_length - 1 - bit)) 1 =? 0) in
      '(actual, address_bit) ← read_bit_be address address_bit;
      if Bool.eqb actual expected
      then match_bits address value match_length n (bit + 1) address_bit
      else Some None
  end.

Fixpoint interpret_loop (fuel : nat) (data address : bytes)
    (position address_bit default_asn : Z) : option (option Z) :=
  match fuel with
  | O => None
  | S fuel =>
      let end_ := bit_end data in
      if position <? end_ then
        match decode_type data position with
        | None => Some None
        | Some (opcode, position) =>
            if opcode =? 0 then Some (fst <$> decode_asn data position)
            else if opcode =? 1 then
              match decode_jump data position with
              | None => Some None
              | Some (jump, position) =>
                  if (address_bit =? 128) || (sat_sub end_ position <=? jump) then Some None
                  else match read_bit_be address address_bit with
                  | None => Some None
                  | Some (true, address_bit) =>
                      match checked_add 64 position jump with
                      | None => Some None
                      | Some position =>
                          interpret_loop fuel data address position address_bit default_asn
                      end
                  | Some (false, address_bit) =>
                      interpret_loop fuel data address position address_bit default_asn
                  end
              end
            else if opcode =? 2 then
              match decode_match data position with
              | None => Some None
              | Some (value, position) =>
                  let match_length := 32 - leading_zeros value - 1 in
                  if sat_sub 128 address_bit <? match_length then Some None
                  else match match_bits address value match_length
                               (Z.to_nat match_length) 0 address_bit with
                  | None => Some None
                  | Some None => Some (Some default_asn)
                  | Some (Some address_bit) =>
                      interpret_loop fuel data address position address_bit default_asn
                  end
              end
            else if opcode =? 3 then
              match decode_asn data position with
              | None => Some None
              | Some (asn, position) =>
                  interpret_loop fuel data address position address_bit asn
              end
            else Some None
        end
      else Some None
  end.

Definition interpret (data address : bytes) : option Z :=
  default None (interpret_loop (S (Z.to_nat (bit_end data))) data address 0 0 0).

(** ** The validator *)

(** The padding loop after the last RETURN: every remaining bit is zero. *)
Fixpoint zero_padding (fuel : nat) (data : bytes) (position : Z) : bool :=
  match fuel with
  | O => false
  | S fuel =>
      if position =? bit_end data then true
      else match read_bit_le data position with
      | Some (false, position) => zero_padding fuel data position
      | _ => false
      end
  end.

Fixpoint sanity_loop (fuel : nat) (data : bytes) (position bits : Z)
    (jumps : list (Z * Z)) (previous : Z) (had_incomplete_match : bool) : option bool :=
  match fuel with
  | O => None
  | S fuel =>
      let end_ := bit_end data in
      if position =? end_ then Some false
      else if match jumps with (target, _) :: _ => target <=? position | [] => false end
      then Some false
      else match decode_type data position with
      | None => Some false
      | Some (opcode, position) =>
          if opcode =? 0 then
            match (if previous =? 3 then None else decode_asn data position) with
            | None => Some false
            | Some (_, position) =>
                match jumps with
                | [] =>
                    if 7 <? sat_sub end_ position then Some false
                    else Some (zero_padding 8 data position)
                | (target, remaining_bits) :: jumps =>
                    if position =? target
                    then sanity_loop fuel data position remaining_bits jumps 1
                           had_incomplete_match
                    else Some false
                end
            end
          else if opcode =? 1 then
            match decode_jump data position with
            | None => Some false
            | Some (jump, position) =>
                if (sat_sub end_ position <? jump) || (bits =? 0) then Some false
                else
                  let bits := bits - 1 in
                  let target := sat_add 64 position jump in
                  if match jumps with (old, _) :: _ => old <=? target | [] => false end
                  then Some false
                  else sanity_loop fuel data position bits ((target, bits) :: jumps) 1
                         had_incomplete_match
            end
          else if opcode =? 2 then
            match decode_match data position with
            | None => Some false
            | Some (value, position) =>
                let match_length := 32 - leading_zeros value - 1 in
                let had_incomplete_match :=
                  if previous =? 2 then had_incomplete_match else false in
                if (match_length <? 8) && had_incomplete_match then Some false
                else if bits <? match_length then Some false
                else sanity_loop fuel data position (bits - match_length) jumps 2
                       (match_length <? 8)
            end
          else if opcode =? 3 then
            match (if previous =? 3 then None else decode_asn data position) with
            | None => Some false
            | Some (_, position) =>
                sanity_loop fuel data position bits jumps 3 had_incomplete_match
            end
          else Some false
      end
  end.

Definition sanity_check (data : bytes) (bits : Z) : bool :=
  default false (sanity_loop (S (Z.to_nat (bit_end data))) data 0 bits [] 1 false).

(** ** [AsMap] *)

Record AsMap := { data : bytes; version : bytes }.

Inductive AsMapError := SanityCheckFailed.

Section AsMap.
(** [sha256d::Hash::hash] *)
Variable sha256d : bytes -> bytes.

Definition from_bytes (d : bytes) : result AsMapError AsMap :=
  if bool_decide (d = []) || negb (sanity_check d 128) then Err SanityCheckFailed
  else Ok {| data := d; version := reverse (sha256d d) |}.
End AsMap.

Inductive IpAddr :=
| V4 (octets : bytes)
| V6 (octets : bytes).

Definition ip_wf (address : IpAddr) : Prop :=
  match address with
  | V4 o => length o = 4%nat /\ all_bytes o
  | V6 o => length o = 16%nat /\ all_bytes o
  end.

Definition ip_octets (address : IpAddr) : bytes :=
  match address with
  | V4 o => [0; 0; 0; 0; 0; 0; 0; 0; 0; 0; 255; 255] ++ o
  | V6 o => o
  end.

Definition mapped_as_ip (m : AsMap) (address : IpAddr) : option Z :=
  match interpret (data m) (ip_octets address) with
  | Some asn => if asn =? 0 then None else Some asn
  | None => None
  end.

(** ** Decoder bounds *)

Lemma read_bit_le_pos d p b p' :
  0 <= p -> read_bit_le d p = Some (b, p') -> p' = p + 1 /\ p' <= 8 * zlen d.
Proof.
  intros Hp H. apply bind_Some in H as (x & Hx & [= <- <-]). split; [done|].
  unfold zget in Hx. destruct (p / 8 <? 0); [done|].
  apply lookup_lt_Some in Hx. unfold zlen. pose proof (Z.div_pos p 8). dlia.
Qed.

Lemma decode_bits_value_bounds d bs n bit v p v' p' :
  0 <= p -> bit + Z.of_nat n = bs -> 0 <= bit ->
  decode_bits_value d bs n bit v p = Some (v', p') ->
  p <= p' /\ (p <= 8 * zlen d -> p' <= 8 * zlen d) /\ v <= v' < v + 2 ^ Z.of_nat n.
Proof.
  revert bit v p. induction n as [|n IH]; intros bit v p Hp Hn Hb H.
  { injection H as <- <-. lia. }
  apply bind_Some in H as ([s q] & Hs & H). apply bind_Some in H as (w & Hw & H).
  apply read_bit_le_pos in Hs as [-> Hq]; [|done].
  apply IH in H; [|lia..]. rewrite Nat2Z.inj_succ, Z.pow_succ_r by lia.
  assert (v <= w <= v + 2 ^ Z.of_nat n); [|lia].
  assert (0 < 2 ^ Z.of_nat n) by (apply Z.pow_pos_nonneg; lia).
  destruct s; [|injection Hw as <-; lia]. unfold checked_add in Hw.
  destruct (_ <=? _); [|done]. injection Hw as <-.
  rewrite Z.shiftl_1_l. replace (bs - 1 - bit) with (Z.of_nat n) by lia. lia.
Qed.

(** The largest increment a list of bit sizes can encode. *)
Definition span (bit_sizes : list Z) : Z := foldr (fun b acc => 2 ^ b + acc) 0 bit_sizes.

Lemma span_nonneg l : 0 <= span l.
Proof. induction l; simpl; [lia|]. pose proof (Z.pow_nonneg 2 a). lia. Qed.

Lemma decode_bits_bounds d p v bs v' p' :
  0 <= p -> Forall (fun b => 0 <= b) bs -> decode_bits d p v bs = Some (v', p') ->
  p <= p' /\ (p <= 8 * zlen d -> p' <= 8 * zlen d) /\ v <= v' < v + span bs.
Proof.
  intros Hp Hbs. revert p v Hp. induction Hbs as [|b bs Hb Hbs IH]; intros p v Hp H; [done|].
  cbn [decode_bits] in H. apply bind_Some in H as ([c q] & Hc & H).
  assert (p <= q /\ (p <= 8 * zlen d -> q <= 8 * zlen d)) as [Hq Hqe].
  { destruct bs; [injection Hc as <- <-; lia|]. apply read_bit_le_pos in Hc; lia. }
  pose proof (span_nonneg bs). cbn [span foldr]. fold (span bs). destruct c.
  - apply bind_Some in H as (s & Hs & H). apply bind_Some in H as (w & Hw & H).
    unfold checked_shl_one in Hs. destruct (b <? 32); [|done]. injection Hs as <-.
    unfold checked_add in Hw. destruct (_ <=? _); [|done]. injection Hw as <-.
    apply IH in H; [|lia]. rewrite Z.shiftl_1_l in H.
    pose proof (Z.pow_nonneg 2 b). lia.
  - apply decode_bits_value_bounds in H; [|lia..]. rewrite Z2Nat.id in H by lia. lia.
Qed.

Lemma decode_bits_progress d p v b1 rest v' p' :
  0 <= p -> Forall (fun b => 0 <= b) (b1 :: rest) -> rest <> [] ->
  decode_bits d p v (b1 :: rest) = Some (v', p') ->
  p < p' <= 8 * zlen d /\ v <= v' < v + span (b1 :: rest).
Proof.
  intros Hp Hbs Hr H. pose proof (decode_bits_bounds _ _ _ _ _ _ Hp Hbs H) as (_ & _ & Hv).
  split; [|exact Hv]. cbn [decode_bits] in H. apply bind_Some in H as ([c q] & Hc & H).
  destruct rest as [|b2 bs] eqn:E; [done|]. rewrite <- E in *. clear E Hv.
  apply read_bit_le_pos in Hc as [-> Hq]; [|done]. inversion_clear Hbs as [|?? H1 H2].
  destruct c.
  - apply bind_Some in H as (? & _ & H). apply bind_Some in H as (? & _ & H).
    apply decode_bits_bounds in H; [lia|lia|done].
  - apply decode_bits_value_bounds in H; lia.
Qed.

Ltac decode_bounds := intros; unfold decode_type, decode_asn, decode_match, decode_jump in *;
  match goal with H : decode_bits _ _ _ _ = Some _ |- _ =>
    apply decode_bits_progress in H; [exact H|done|repeat constructor; lia|done] end.

Lemma decode_type_bounds d p v p' :
  0 <= p -> decode_type d p = Some (v, p') -> p < p' <= 8 * zlen d /\ 0 <= v < 0 + 4.
Proof. decode_bounds. Qed.
Lemma decode_asn_bounds d p v p' :
  0 <= p -> decode_asn d p = Some (v, p') -> p < p' <= 8 * zlen d /\ 1 <= v < 1 + 33521664.
Proof. decode_bounds. Qed.
Lemma decode_match_bounds d p v p' :
  0 <= p -> decode_match d p = Some (v, p') -> p < p' <= 8 * zlen d /\ 2 <= v < 2 + 510.
Proof. decode_bounds. Qed.
Lemma decode_jump_bounds d p v p' :
  0 <= p -> decode_jump d p = Some (v, p') -> p < p' <= 8 * zlen d /\ 17 <= v < 17 + 2147483616.
Proof. decode_bounds. Qed.

(** ** The address reader never fails within the 128 address bits *)

Lemma read_bit_be_total a i :
  length a = 16%nat -> 0 <= i < 128 -> exists b, read_bit_be a i = Some (b, i + 1).
Proof.
  intros Ha Hi. unfold read_bit_be, zget.
  rewrite (proj2 (Z.ltb_ge _ _)) by (apply Z.div_pos; lia).
  destruct (lookup_lt_is_Some_2 a (Z.to_nat (i / 8))) as [x Hx]; [dlia|].
  rewrite Hx. simpl. eauto.
Qed.

Lemma match_bits_total a v ml n bit ab :
  length a = 16%nat -> 0 <= ab -> ab + Z.of_nat n <= 128 ->
  match_bits a v ml n bit ab = Some None \/
  match_bits a v ml n bit ab = Some (Some (ab + Z.of_nat n)).
Proof.
  intros Ha. revert bit ab. induction n as [|n IH]; intros bit ab Hab Hn.
  { right. simpl. do 2 f_equal. lia. }
  destruct (read_bit_be_total a ab Ha) as [b Hb]; [lia|]. cbn [match_bits]. rewrite Hb.
  cbn [mbind option_bind]. destruct (Bool.eqb b _); [|by left].
  replace (ab + Z.of_nat (S n)) with (ab + 1 + Z.of_nat n) by lia. apply IH; lia.
Qed.

(** ** What the validator accepts, as rules

    [sane d p b js]: the instruction stream at bit [p], with [b] address bits
    left to consume and the pending jump targets [js], is well formed. *)
Inductive sane (d : bytes) : Z -> Z -> list (Z * Z) -> Prop :=
| sane_return_last p b q asn q' :
    0 <= p < bit_end d -> decode_type d p = Some (0, q) -> decode_asn d q = Some (asn, q') ->
    sane d p b []
| sane_return p b q asn q' rb js :
    0 <= p < bit_end d -> decode_type d p = Some (0, q) -> decode_asn d q = Some (asn, q') ->
    sane d q' rb js -> sane d p b ((q', rb) :: js)
| sane_jump p b q jump q' js :
    0 <= p < bit_end d -> decode_type d p = Some (1, q) -> decode_jump d q = Some (jump, q') ->
    q' + jump <= bit_end d -> b <> 0 ->
    sane d q' (b - 1) ((q' + jump, b - 1) :: js) -> sane d p b js
| sane_match p b q v q' js :
    0 <= p < bit_end d -> decode_type d p = Some (2, q) -> decode_match d q = Some (v, q') ->
    Z.log2 v <= b -> sane d q' (b - Z.log2 v) js -> sane d p b js
| sane_default p b q asn q' js :
    0 <= p < bit_end d -> decode_type d p = Some (3, q) -> decode_asn d q = Some (asn, q') ->
    sane d q' b js -> sane d p b js.

Lemma match_length_log2 v : 2 <= v -> 32 - leading_zeros v - 1 = Z.log2 v.
Proof. intros. unfold leading_zeros. bfalse (v =? 0). lia. Qed.

Lemma bit_end_exact d : 8 * zlen d < 2 ^ 64 -> bit_end d = 8 * zlen d.
Proof. unfold bit_end, sat_mul, umax. lia. Qed.

Lemma sanity_loop_sane n d p b js prev inc :
  8 * zlen d < 2 ^ 64 -> 0 <= p <= bit_end d ->
  sanity_loop n d p b js prev inc = Some true -> sane d p b js.
Proof.
  intros Hlen. pose proof (bit_end_exact d Hlen) as Hend.
  revert p b js prev inc. induction n as [|n IH]; intros p b js prev inc Hp H; [done|].
  cbn [sanity_loop] in H. destruct (Z.eqb_spec p (bit_end d)) as [|Hne]; [done|].
  destruct (match js with [] => false | _ => _ end); [done|].
  destruct (decode_type d p) as [[op q]|] eqn:Ht; [|done].
  pose proof (decode_type_bounds _ _ _ _ (proj1 Hp) Ht) as [Hq _].
  destruct (Z.eqb_spec op 0) as [->|]; [|destruct (Z.eqb_spec op 1) as [->|];
    [|destruct (Z.eqb_spec op 2) as [->|]; [|destruct (Z.eqb_spec op 3) as [->|]; [|done]]]].
  - destruct (prev =? 3); [done|]. destruct (decode_asn d q) as [[asn q']|] eqn:Ha; [|done].
    apply decode_asn_bounds in Ha as Hb; [|lia]. destruct js as [|[t rb] js].
    { eapply sane_return_last; eauto; lia. }
    destruct (Z.eqb_spec q' t) as [<-|]; [|done].
    eapply sane_return; eauto; [lia|]. eapply IH; [|exact H]. lia.
  - destruct (decode_jump d q) as [[jump q']|] eqn:Hj; [|done].
    apply decode_jump_bounds in Hj as Hb; [|lia].
    destruct (_ || _) eqn:E; [done|]. apply orb_false_iff in E as [E1 E2]. bool_to_prop.
    unfold sat_sub in E1. unfold sat_add, umax in H.
    rewrite (Z.min_l (q' + jump)) in H by lia.
    destruct (match js with [] => false | _ => _ end); [done|].
    eapply sane_jump; eauto; [lia|lia|]. eapply IH; [|exact H]. lia.
  - destruct (decode_match d q) as [[v q']|] eqn:Hm; [|done].
    apply decode_match_bounds in Hm as Hb; [|lia]. rewrite match_length_log2 in H by lia.
    destruct (_ && _); [done|]. destruct (b <? Z.log2 v) eqn:E; [done|]. bool_to_prop.
    eapply sane_match; eauto; [lia|]. eapply IH; [|exact H]. lia.
  - destruct (prev =? 3); [done|]. destruct (decode_asn d q) as [[asn q']|] eqn:Ha; [|done].
    apply decode_asn_bounds in Ha as Hb; [|lia].
    eapply sane_default; eauto; [lia|]. eapply IH; [|exact H]. lia.
Qed.

(** The interpreter, started at bit [p] with [b] unread address bits, returns
    an AS number whatever the address is. *)
Definition runs (d : bytes) (p b : Z) : Prop :=
  0 <= p < bit_end d /\
  forall address ab asn m,
    length address = 16%nat -> 0 <= ab -> 0 <= b -> ab + b = 128 -> 0 <= asn < 2 ^ 25 ->
    (Z.to_nat (bit_end d - p) < m)%nat ->
    exists r, interpret_loop m d address p ab asn = Some (Some r) /\ 0 <= r < 2 ^ 25.

Lemma sane_runs d p b js :
  8 * zlen d < 2 ^ 64 -> sane d p b js ->
  runs d p b /\ Forall (fun e => runs d (fst e) (snd e)) js.
Proof.
  intros Hlen. pose proof (bit_end_exact d Hlen) as Hend.
  induction 1 as [p b q asn q' Hp Ht Ha | p b q asn q' rb js Hp Ht Ha Hs [IH IHs]
    | p b q jump q' js Hp Ht Hj Hle Hb0 Hs [IH IHs] | p b q v q' js Hp Ht Hm Hlog Hs [IH IHs]
    | p b q asn q' js Hp Ht Ha Hs [IH IHs]];
    pose proof (decode_type_bounds _ _ _ _ (proj1 Hp) Ht) as [Hq _].
  1-2: apply decode_asn_bounds in Ha as Hv; [|lia].
  1-2: split; [split; [done|] | first [apply Forall_nil_2 | by apply Forall_cons_2]].
  1-2: intros address ab def [|m] ??????; [lia|]; cbn [interpret_loop];
    rewrite (proj2 (Z.ltb_lt _ _)) by lia; rewrite Ht, Ha; simpl; eexists; split; [done|lia].
  - inversion_clear IHs as [|?? Hrt Hrs]. simpl in Hrt. split; [|done]. split; [done|].
    apply decode_jump_bounds in Hj as Hv; [|lia].
    intros address ab def [|m] Hl Hab Hb Hsum Hd Hm; [lia|]; cbn [interpret_loop].
    rewrite (proj2 (Z.ltb_lt _ _)) by lia. rewrite Ht, Hj. simpl.
    bfalse (ab =? 128). destruct Hrt as [Ht' Hrt], IH as [Hq' IH].
    unfold sat_sub. bfalse (Z.max 0 (bit_end d - q') <=? jump). simpl.
    destruct (read_bit_be_total address ab Hl) as [[] ->]; [lia| |].
    + unfold checked_add, umax. btrue (q' + jump <=? 2 ^ 64 - 1). apply Hrt; lia || done.
    + apply IH; lia || done.
  - split; [|done]. split; [done|]. apply decode_match_bounds in Hm as Hv; [|lia].
    intros address ab def [|m] Hl Hab Hb Hsum Hd Hfuel; [lia|]; cbn [interpret_loop].
    rewrite (proj2 (Z.ltb_lt _ _)) by lia. rewrite Ht, Hm. simpl.
    rewrite match_length_log2 by lia. pose proof (Z.log2_nonneg v). unfold sat_sub.
    bfalse (Z.max 0 (128 - ab) <? Z.log2 v). destruct IH as [Hq' IH].
    destruct (match_bits_total address v (Z.log2 v) (Z.to_nat (Z.log2 v)) 0 ab)
      as [-> | ->]; [done|lia|lia|by eauto|]. rewrite Z2Nat.id by lia. apply IH; lia || done.
  - split; [|done]. split; [done|]. apply decode_asn_bounds in Ha as Hv; [|lia].
    intros address ab def [|m] Hl Hab Hb Hsum Hd Hfuel; [lia|]; cbn [interpret_loop].
    rewrite (proj2 (Z.ltb_lt _ _)) by lia. rewrite Ht, Ha. simpl.
    destruct IH as [Hq' IH]. apply IH; lia || done.
Qed.

(** ** The fuel is enough *)

Ltac step_decode :=
  match goal with
  | H : 0 <= ?p |- context [decode_type ?d ?p] =>
      let E := fresh "Ed" in
      destruct (decode_type d p) as [[? ?]|] eqn:E; [apply decode_type_bounds in E; [|lia]|done]
  | |- context [decode_asn ?d ?p] =>
      let E := fresh "Ed" in
      destruct (decode_asn d p) as [[? ?]|] eqn:E; [apply decode_asn_bounds in E; [|lia]|done]
  | |- context [decode_jump ?d ?p] =>
      let E := fresh "Ed" in
      destruct (decode_jump d p) as [[? ?]|] eqn:E; [apply decode_jump_bounds in E; [|lia]|done]
  | |- context [decode_match ?d ?p] =>
      let E := fresh "Ed" in
      destruct (decode_match d p) as [[? ?]|] eqn:E; [apply decode_match_bounds in E; [|lia]|done]
  end.

Lemma interpret_fuel m d a p ab asn :
  0 <= p -> (Z.to_nat (bit_end d - p) < m)%nat -> interpret_loop m d a p ab asn <> None.
Proof.
  revert p ab asn. induction m as [|m IH]; intros p ab asn Hp Hm; [lia|].
  cbn [interpret_loop]. destruct (p <? bit_end d) eqn:E; [|done]. bool_to_prop.
  step_decode. destruct (_ =? 0); [done|]. destruct (_ =? 1).
  - step_decode. destruct (_ || _); [done|].
    destruct (read_bit_be a ab) as [[[] ab']|]; [| |done].
    + unfold checked_add. destruct (_ <=? _); [|done]. apply IH; lia.
    + apply IH; lia.
  - destruct (_ =? 2).
    + step_decode. destruct (_ <? _); [done|].
      destruct (match_bits _ _ _ _ _ _) as [[|]|]; [|done..]. apply IH; lia.
    + destruct (_ =? 3); [|done]. step_decode. apply IH; lia.
Qed.

Lemma sanity_fuel n d p b js prev inc :
  8 * zlen d < 2 ^ 64 -> 0 <= p <= bit_end d -> (Z.to_nat (bit_end d - p) < n)%nat ->
  sanity_loop n d p b js prev inc <> None.
Proof.
  intros Hlen. pose proof (bit_end_exact d Hlen) as Hend.
  revert p b js prev inc. induction n as [|n IH]; intros p b js prev inc [Hp Hpe] Hn; [lia|].
  cbn [sanity_loop]. destruct (p =? bit_end d); [done|].
  destruct (match js with [] => false | _ => _ end); [done|].
  step_decode. destruct (_ =? 0).
  - destruct (prev =? 3); [done|]. step_decode. destruct js as [|[t rb] js].
    + destruct (_ <? _); done.
    + destruct (_ =? t); [|done]. apply IH; lia.
  - destruct (_ =? 1); [|destruct (_ =? 2); [|destruct (_ =? 3); [|done]]].
    + step_decode. destruct (_ || _); [done|].
      destruct (match js with [] => false | _ => _ end); [done|]. apply IH; lia.
    + step_decode. destruct (_ && _); [done|]. destruct (_ <? _); [done|]. apply IH; lia.
    + destruct (prev =? 3); [done|]. step_decode. apply IH; lia.
Qed.

(** C38: validation makes lookups total.  When [AsMap::from_bytes] accepts a
    file, [interpret] returns an AS number below 2^25 for every IPv4 and every
    IPv6 address: no address makes a validated map hit a truncated
    instruction, an out-of-range jump, an exhausted address or an unknown
    opcode. *)
Theorem from_bytes_interpret_total (sha256d : bytes -> bytes) d m address :
  8 * zlen d < 2 ^ 64 ->
  from_bytes sha256d d = Ok m ->
  ip_wf address ->
  exists asn, interpret (data m) (ip_octets address) = Some asn /\ 0 <= asn < 2 ^ 25.
Proof.
  intros Hlen H Hip. unfold from_bytes in H. res_inv. simpl.
  apply orb_false_iff in Heqb as [Hnil Hsane]. bool_to_prop. unfold sanity_check in Hsane.
  destruct (sanity_loop _ _ _ _ _ _ _) as [[]|] eqn:Es; [|done..].
  assert (0 <= bit_end d) as He by (unfold bit_end, sat_mul, umax; pose proof (zlen_nonneg d); lia).
  apply sanity_loop_sane, sane_runs in Es as [[Hp Hrun] _]; [|done|done|lia].
  destruct (Hrun (ip_octets address) 0 0 (S (Z.to_nat (bit_end d)))) as (r & Hr & Hb); try lia.
  { destruct address as [o|o]; destruct Hip as [Ho _]; simpl; lia. }
  exists r. unfold interpret. rewrite Hr. done.
Qed.

(** Core's artificial test map: 250.0.0.0/8 and 101.1.0.0/16 to 101.8.0.0/16. *)
Definition core_test_map : bytes :=
  [251; 3; 236; 15; 176; 63; 192; 254; 0; 251; 3; 236; 15; 176; 63; 192; 254; 0; 251; 3; 236;
   15; 176; 255; 255; 254; 255; 237; 176; 255; 212; 134; 230; 40; 41; 0; 0; 64; 0; 0; 64; 0;
   64; 153; 1; 0; 128; 1; 128; 4; 0; 0; 5; 0; 6; 0; 28; 240; 57].

Lemma from_bytes_interpret_total_witness :
  (exists asn, interpret core_test_map (ip_octets (V4 [250; 1; 1; 1])) = Some asn
               /\ 0 <= asn < 2 ^ 25)
  /\ mapped_as_ip {| data := core_test_map; version := [] |} (V4 [250; 1; 1; 1]) = Some 1000.
Proof.
  split; [|vm_compute; reflexivity].
  apply (from_bytes_interpret_total (fun _ => []) core_test_map
           {| data := core_test_map; version := [] |}).
  - vm_compute. reflexivity.
  - vm_compute. reflexivity.
  - split; [reflexivity|]. repeat constructor; vm_compute; congruence.
Defined.

(** Both loops terminate within the fuel they are given, on every input:
    the interpreter on arbitrary (unvalidated) data and addresses, and the
    validator on arbitrary data. *)
Theorem asmap_loops_terminate d address bits :
  8 * zlen d < 2 ^ 64 ->
  interpret_loop (S (Z.to_nat (bit_end d))) d address 0 0 0 <> None /\
  sanity_loop (S (Z.to_nat (bit_end d))) d 0 bits [] 1 false <> None.
Proof.
  intros Hlen. pose proof (bit_end_exact d Hlen). pose proof (zlen_nonneg d).
  split; [apply interpret_fuel | apply sanity_fuel]; lia.
Qed.

Lemma asmap_loops_terminate_witness :
  interpret_loop (S (Z.to_nat (bit_end [255; 255]))) [255; 255] [] 0 0 0 <> None /\
  sanity_loop (S (Z.to_nat (bit_end [255; 255]))) [255; 255] 0 128 [] 1 false <> None.
Proof. apply (asmap_loops_terminate [255; 255] [] 128). vm_compute. reflexivity. Defined.
