(* ===== verification/Script.v ===== *)
(** * Script classification ([src/script.rs])

    The script parser and the bare-multisig and pay-to-pubkey matchers that
    follow Core's [Solver].  The native verifier context of the same file is
    foreign code behind a C ABI and is not modelled. *)

From Stdlib Require Import ZArith Lia.
From stdpp Require Import base list option.
From S2P Require Import Prelude.
Local Open Scope Z_scope.

Definition in_range (lo hi z : Z) : bool := (lo <=? z) && (z <=? hi).

(** Core's [CPubKey::ValidSize]. *)
Definition is_core_pubkey_size (pubkey : bytes) : bool :=
  match pubkey with
  | first :: _ =>
      ((zlen pubkey =? 33) && ((first =? 2) || (first =? 3))) ||
      ((zlen pubkey =? 65) && ((first =? 4) || (first =? 6) || (first =? 7)))
  | [] => false
  end.

(** One round of the [while] loop of [parse_operations]: the opcode and its
    data at [offset], and the offset after them. *)
Definition parse_operation (script : bytes) (offset : Z) : option (Z * bytes * Z) :=
  opcode ← zget script offset;
  let offset := offset + 1 in
  '(length, offset) ←
    (if in_range 0x01 0x4b opcode then Some (opcode, offset)
     else if opcode =? 0x4c then
       length ← zget script offset; Some (length, offset + 1)
     else if opcode =? 0x4d then
       l ← get_range script offset (offset + 2); Some (from_le l, offset + 2)
     else if opcode =? 0x4e then
       l ← get_range script offset (offset + 4); Some (from_le l, offset + 4)
     else Some (0, offset));
  end_ ← checked_add 64 offset length;
  data ← get_range script offset end_;
  Some (opcode, data, end_).

Fixpoint parse_loop (fuel : nat) (script : bytes) (offset : Z) : option (list (Z * bytes)) :=
  match fuel with
  | O => None
  | S fuel =>
      if offset <? zlen script then
        '(opcode, data, offset) ← parse_operation script offset;
        operations ← parse_loop fuel script offset;
        Some ((opcode, data) :: operations)
      else Some []
  end.

(** Each round consumes at least the opcode byte. *)
Definition parse_operations (script : bytes) : option (list (Z * bytes)) :=
  parse_loop (S (length script)) script 0.

Definition is_minimal_push (opcode : Z) (data : bytes) : bool :=
  match data with
  | [] => opcode =? 0x00
  | value :: rest =>
      if (zlen data =? 1) && in_range 1 16 value then opcode =? 0x50 + value
      else if (zlen data =? 1) && (value =? 0x81) then opcode =? 0x4f
      else if zlen data <=? 75 then opcode =? zlen data
      else if zlen data <=? 255 then opcode =? 0x4c
      else if zlen data <=? 65535 then opcode =? 0x4d
      else opcode =? 0x4e
  end.

(** The accumulation loop: [value |= byte << (8 * index)]. *)
Fixpoint lor_bytes (data : bytes) (index value : Z) : Z :=
  match data with
  | [] => value
  | byte :: data => lor_bytes data (index + 1) (Z.lor value (Z.shiftl byte (8 * index)))
  end.

Definition decode_minimal_script_number (data : bytes) : option Z :=
  if 4 <? zlen data then None
  else if match list.last data with
          | Some byte =>
              (Z.land byte 0x7f =? 0) &&
              ((zlen data =? 1) || (Z.land (zat data (zlen data - 2)) 0x80 =? 0))
          | None => false
          end
  then None
  else
    let value := lor_bytes data 0 0 in
    match list.last data with
    | Some byte =>
        if negb (Z.land byte 0x80 =? 0)
        then Some (- Z.land value (Z.lnot (Z.shiftl 0x80 (8 * (zlen data - 1)))))
        else Some value
    | None => Some value
    end.

Definition core_script_number (operation : Z * bytes) (min max : Z) : option Z :=
  let '(opcode, data) := operation in
  value ←
    (if in_range 0x51 0x60 opcode then Some (opcode - 0x50)
     else if in_range 0x01 0x4e opcode && is_minimal_push opcode data
     then decode_minimal_script_number data
     else None);
  value ← try_u 8 value;
  if in_range min max value then Some value else None.

(** The [while let] loop that collects the keys. *)
Fixpoint take_keys (operations : list (Z * bytes)) : list bytes * list (Z * bytes) :=
  match operations with
  | (opcode, data) :: rest =>
      if is_core_pubkey_size data
      then let '(keys, rest) := take_keys rest in (data :: keys, rest)
      else ([], operations)
  | [] => ([], [])
  end.

Definition core_multisig_solution (script : bytes) : option (Z * list bytes) :=
  operations ← parse_operations script;
  if bool_decide (operations = []) || negb (bool_decide (list.last script = Some 0xae)) then None
  else
    first ← head operations;
    required ← core_script_number first 1 20;
    let '(public_keys, rest) := take_keys (tail operations) in
    let index := 1 + zlen public_keys in
    count ← head rest;
    public_key_count ← core_script_number count required 20;
    if negb (zlen public_keys =? public_key_count) || negb (index + 2 =? zlen operations)
    then None
    else Some (required, public_keys).

Definition is_core_multisig (script : bytes) : bool :=
  match core_multisig_solution script with Some _ => true | None => false end.

Definition is_core_p2pk (script : bytes) : bool :=
  let key_len :=
    if (zlen script =? 35) && bool_decide (head script = Some 0x21) then Some 33
    else if (zlen script =? 67) && bool_decide (head script = Some 0x41) then Some 65
    else None in
  match key_len with
  | None => false
  | Some key_len =>
      bool_decide (list.last script = Some 0xac) &&
      is_core_pubkey_size (slice script 1 (1 + key_len))
  end.

(** ** Scripts and operations are in bijection *)

(** The length field of a push opcode. *)
Definition push_length (opcode : Z) (data : bytes) : bytes :=
  if opcode =? 0x4c then to_le 1 (zlen data)
  else if opcode =? 0x4d then to_le 2 (zlen data)
  else if opcode =? 0x4e then to_le 4 (zlen data)
  else [].

(** The serialization of one operation, [CScript::operator<<] without
    re-choosing the opcode. *)
Definition unparse_operation (operation : Z * bytes) : bytes :=
  let '(opcode, data) := operation in [opcode] ++ push_length opcode data ++ data.

(** The data length an opcode announces. *)
Definition operation_wf (operation : Z * bytes) : Prop :=
  let '(opcode, data) := operation in
  is_byte opcode /\ all_bytes data /\
  (if in_range 0x01 0x4b opcode then zlen data = opcode
   else if opcode =? 0x4c then zlen data < 2 ^ 8
   else if opcode =? 0x4d then zlen data < 2 ^ 16
   else if opcode =? 0x4e then zlen data < 2 ^ 32
   else data = []).

Lemma length_field s o n k l :
  all_bytes s -> k = Z.of_nat n -> get_range s o (o + k) = Some l ->
  zdrop o s = to_le n (from_le l) ++ zdrop (o + k) s /\ 0 <= from_le l < 2 ^ (8 * k).
Proof.
  intros Hs Hk H. apply get_range_Some in H as (? & Hle & Hx & Hlen & Hl).
  assert (all_bytes l) as Hb by (subst l; apply Forall_take, Forall_drop, Hs).
  pose proof (from_le_bound l Hb) as Hf. rewrite Hlen in Hf.
  replace (o + k - o) with k in * by lia.
  rewrite Hl. split; [|done]. f_equal. rewrite <- (to_from_le l Hb) at 1.
  f_equal. unfold zlen in Hlen. lia.
Qed.

Lemma parse_operation_sound s o op d o' :
  all_bytes s -> 0 <= o -> parse_operation s o = Some (op, d, o') ->
  operation_wf (op, d) /\ zdrop o s = unparse_operation (op, d) ++ zdrop o' s /\
  o < o' <= zlen s.
Proof.
  intros Hs Ho H. unfold parse_operation in H.
  apply bind_Some in H as (op' & Hop & H). apply bind_Some in H as ([n q] & Hn & H).
  apply bind_Some in H as (e & He & H). apply bind_Some in H as (d' & Hd & [= -> -> ->]).
  apply zget_Some in Hop as [Hlt Hop]; [|done].
  assert (all_bytes (op :: zdrop (o + 1) s)) as Hb.
  { rewrite <- Hop. by apply zdrop_bytes. }
  inversion_clear Hb as [|?? Hbop Hbrest].
  unfold checked_add in He. destruct (_ <=? _); [|done]. injection He as <-.
  apply get_range_Some in Hd as (Hq & Hle & -> & Hlen & Hd).
  set (d := slice s q (q + n)) in *. rewrite Hop. unfold operation_wf, unparse_operation, push_length.
  assert (all_bytes d /\ all_bytes (zdrop q s)) as [Hbd Hbq].
  { split; [|by apply zdrop_bytes]. apply Forall_take, Forall_drop, Hs. }
  destruct (in_range 1 75 op) eqn:E1.
  { injection Hn as <- <-. rewrite Hd. unfold in_range in E1. bool_to_prop.
    bfalse (op =? 76); bfalse (op =? 77); bfalse (op =? 78).
    split; [|split; [done|lia]]. do 2 (split; [done|]). lia. }
  destruct (op =? 0x4c) eqn:E2; [|destruct (op =? 0x4d) eqn:E3; [|destruct (op =? 0x4e) eqn:E4]].
  { apply bind_Some in Hn as (n' & Hn & [= -> <-]).
    apply zget_Some in Hn as [Hlt' Hn]; [|lia]. rewrite Hn, Hd. rewrite Hn in Hbrest.
    inversion_clear Hbrest as [|?? Hbn _]. replace (zlen d) with n by lia.
    replace (to_le 1 n) with [n] by (unfold is_byte in Hbn; simpl; f_equal; dlia).
    split; [|split; [done|lia]]. do 2 (split; [done|]). apply Hbn. }
  1-2: apply bind_Some in Hn as (l & Hl & [= <- <-]);
    first [apply (length_field s (o + 1) 2 2 l Hs eq_refl) in Hl as [Hl Hfb]
          |apply (length_field s (o + 1) 4 4 l Hs eq_refl) in Hl as [Hl Hfb]];
    rewrite Hl, Hd; replace (zlen d) with (from_le l) by lia;
    (split; [do 2 (split; [done|]); lia | split; [by rewrite <- !app_assoc|lia]]).
  injection Hn as <- <-. rewrite Hd. split; [|split; [done|lia]].
  do 2 (split; [done|]). destruct d; [done|]. rewrite zlen_cons in Hlen.
  pose proof (zlen_nonneg d). lia.
Qed.

Lemma parse_loop_sound n s o ops :
  all_bytes s -> 0 <= o <= zlen s -> parse_loop n s o = Some ops ->
  Forall operation_wf ops /\ concat (map unparse_operation ops) = zdrop o s.
Proof.
  intros Hs. revert o ops. induction n as [|n IH]; intros o ops Ho H; [done|].
  cbn [parse_loop] in H. destruct (o <? zlen s) eqn:E; bool_to_prop.
  - apply bind_Some in H as ([[op d] o'] & Hp & H).
    apply bind_Some in H as (ops' & Hr & [= <-]).
    apply parse_operation_sound in Hp as (Hwf & Heq & Ho'); [|done|lia].
    apply IH in Hr as [Hall Hc]; [|lia]. split; [by constructor|].
    rewrite Heq, <- Hc. reflexivity.
  - injection H as <-. split; [constructor|]. symmetry. apply drop_ge. unfold zlen in *. lia.
Qed.

Lemma parse_operation_complete pre op d post :
  operation_wf (op, d) ->
  zlen (pre ++ unparse_operation (op, d) ++ post) < 2 ^ 64 ->
  parse_operation (pre ++ unparse_operation (op, d) ++ post) (zlen pre) =
  Some (op, d, zlen pre + zlen (unparse_operation (op, d))).
Proof.
  intros (Hop & Hbd & Hlen) Hsz. unfold parse_operation, unparse_operation in *.
  rewrite <- !app_assoc in *. cbn [app] in *. rewrite (zget_app pre op _ _ eq_refl). cbn [mbind option_bind].
  set (hdr := push_length op d) in *.
  pose proof (zlen_nonneg pre). pose proof (zlen_nonneg d). pose proof (zlen_nonneg post).
  pose proof (zlen_nonneg hdr). zlen.
  assert (forall q, q = zlen pre + 1 + zlen hdr ->
    (end_ ← checked_add 64 q (zlen d);
     data ← get_range (pre ++ op :: hdr ++ d ++ post) q end_; Some (op, data, end_)) =
    Some (op, d, zlen pre + (1 + (zlen hdr + zlen d)))) as Hfin.
  { intros q ->. unfold checked_add, umax. btrue (zlen pre + 1 + zlen hdr + zlen d <=? 2 ^ 64 - 1).
    cbn [mbind option_bind].
    replace (pre ++ op :: hdr ++ d ++ post) with ((pre ++ op :: hdr) ++ d ++ post)
      by by rewrite <- app_assoc.
    rewrite get_range_app by (zlen; lia). cbn [mbind option_bind]. do 2 f_equal. lia. }
  assert (forall k n, k = Z.of_nat n -> hdr = to_le n (zlen d) ->
    get_range (pre ++ op :: hdr ++ d ++ post) (zlen pre + 1) (zlen pre + 1 + k) = Some hdr) as Hhdr.
  { intros k n -> Hh. replace (pre ++ op :: hdr ++ d ++ post)
      with ((pre ++ [op]) ++ hdr ++ d ++ post) by by rewrite <- app_assoc.
    apply get_range_app; rewrite ?Hh; zlen; lia. }
  destruct (in_range 1 75 op) eqn:E1.
  { cbn [mbind option_bind]. rewrite <- Hlen at 1. unfold in_range in E1. bool_to_prop.
    apply Hfin. unfold hdr, push_length. bfalse (op =? 76); bfalse (op =? 77); bfalse (op =? 78).
    rewrite zlen_nil. lia. }
  destruct (op =? 0x4c) eqn:E2.
  { assert (hdr = [zlen d]) as Hh.
    { unfold hdr, push_length. rewrite E2. simpl. rewrite Z.mod_small by lia. done. }
    replace (pre ++ op :: hdr ++ d ++ post) with ((pre ++ [op]) ++ zlen d :: d ++ post) at 1
      by by rewrite Hh, <- app_assoc.
    rewrite zget_app by (zlen; lia). cbn [mbind option_bind]. apply Hfin. rewrite Hh. zlen. lia. }
  destruct (op =? 0x4d) eqn:E3.
  { assert (hdr = to_le 2 (zlen d)) as Hh by (unfold hdr, push_length; by rewrite E2, E3).
    rewrite (Hhdr 2 2%nat) by done. cbn [mbind option_bind]. rewrite Hh at 1.
    rewrite (from_to_le_small 2 16) by (unfold in_u; lia). apply Hfin. rewrite Hh. zlen. lia. }
  destruct (op =? 0x4e) eqn:E4.
  { assert (hdr = to_le 4 (zlen d)) as Hh by (unfold hdr, push_length; by rewrite E2, E3, E4).
    rewrite (Hhdr 4 4%nat) by done. cbn [mbind option_bind]. rewrite Hh at 1.
    rewrite (from_to_le_small 4 32) by (unfold in_u; lia). apply Hfin. rewrite Hh. zlen. lia. }
  assert (hdr = []) as Hh by (unfold hdr, push_length; by rewrite E2, E3, E4).
  cbn [mbind option_bind]. replace 0 with (zlen d) by by rewrite Hlen.
  apply Hfin. rewrite Hh, zlen_nil. lia.
Qed.

Lemma unparse_length op : 0 < zlen (unparse_operation op).
Proof. destruct op. unfold zlen. simpl. lia. Qed.

Lemma parse_loop_complete ops pre n :
  Forall operation_wf ops -> (length ops < n)%nat ->
  zlen (pre ++ concat (map unparse_operation ops)) < 2 ^ 64 ->
  parse_loop n (pre ++ concat (map unparse_operation ops)) (zlen pre) = Some ops.
Proof.
  intros Hwf. revert pre n. induction Hwf as [|[op d] ops Hop Hwf IH]; intros pre n Hn Hsz;
    (destruct n as [|n]; [lia|]); cbn [parse_loop map concat].
  - rewrite app_nil_r. bfalse (zlen pre <? zlen pre). done.
  - set (s := pre ++ unparse_operation (op, d) ++ concat (map unparse_operation ops)) in *.
    assert (0 < zlen (unparse_operation (op, d))) by apply unparse_length.
    pose proof (zlen_nonneg (concat (map unparse_operation ops))).
    assert (zlen pre < zlen s) by (unfold s; rewrite !zlen_app; lia). btrue (zlen pre <? zlen s).
    unfold s. rewrite parse_operation_complete by done. cbn [mbind option_bind].
    rewrite app_assoc. rewrite <- zlen_app. rewrite IH; [done|simpl in Hn; lia|].
    unfold s in Hsz. cbn [map concat] in Hsz. by rewrite <- app_assoc.
Qed.

Lemma length_concat_unparse ops :
  (length ops <= length (concat (map unparse_operation ops)))%nat.
Proof.
  induction ops as [|op ops IH]; simpl; [lia|]. rewrite length_app.
  pose proof (unparse_length op). unfold zlen in *. lia.
Qed.

(** The parser and the serialization of operations are inverse to each
    other: a script parses exactly when it is the concatenation of the
    serializations of well-formed operations, and then to those operations
    (so a truncated push is the only reason for [None], and no two readings
    of one script exist). *)
Theorem parse_operations_roundtrip s ops :
  all_bytes s -> zlen s < 2 ^ 64 ->
  parse_operations s = Some ops <->
  Forall operation_wf ops /\ s = concat (map unparse_operation ops).
Proof.
  intros Hs Hsz. unfold parse_operations. split.
  - intros H. apply parse_loop_sound in H as [Hwf Hc]; [|done|pose proof (zlen_nonneg s); lia].
    split; [done|]. symmetry. exact Hc.
  - intros [Hwf ->]. apply (parse_loop_complete ops [] _ Hwf); [|done].
    pose proof (length_concat_unparse ops). lia.
Qed.

Lemma parse_operations_roundtrip_witness :
  parse_operations [81; 76; 2; 7; 8; 174] = Some [(81, []); (76, [7; 8]); (174, [])].
Proof.
  apply (parse_operations_roundtrip [81; 76; 2; 7; 8; 174]).
  - repeat constructor; vm_compute; congruence.
  - vm_compute. reflexivity.
  - split; [|reflexivity].
    repeat constructor; try (vm_compute; congruence).
Defined.

(** ** Script numbers *)

(** The minimal encoding of a script number, [CScriptNum::serialize]: the
    least number of bytes that leaves the top bit for the sign. *)
Definition script_number_bytes (z : Z) : bytes :=
  let a := Z.abs z in
  if a =? 0 then []
  else
    let n := (Z.log2 a + 1) / 8 + 1 in
    to_le (Z.to_nat n) (a + (if z <? 0 then 2 ^ (8 * n - 1) else 0)).

Lemma lor_bytes_from_le data index value :
  all_bytes data -> 0 <= index -> 0 <= value < 2 ^ (8 * index) ->
  lor_bytes data index value = value + 2 ^ (8 * index) * from_le data.
Proof.
  intros Hb. revert index value. induction Hb as [|b data Hb Hd IH]; intros i v Hi Hv.
  - simpl. lia.
  - cbn [lor_bytes from_le]. rewrite Z.lor_comm, lor_shiftl_add by lia.
    rewrite Z.shiftl_mul_pow2 by lia.
    assert (2 ^ (8 * (i + 1)) = 256 * 2 ^ (8 * i)) as Hp.
    { rewrite <- (Z.pow_add_r 2 8) by lia. f_equal. lia. }
    unfold is_byte in Hb. rewrite IH; rewrite ?Hp; nia.
Qed.

Lemma script_number_bytes_at n z :
  1 <= n -> 2 ^ (8 * n - 9) <= Z.abs z < 2 ^ (8 * n - 1) -> 1 <= Z.abs z ->
  script_number_bytes z = to_le (Z.to_nat n) (Z.abs z + if z <? 0 then 2 ^ (8 * n - 1) else 0).
Proof.
  intros Hn Hz H1. unfold script_number_bytes. bfalse (Z.abs z =? 0).
  assert (Z.log2 (Z.abs z) < 8 * n - 1) by (apply Z.log2_lt_pow2; lia).
  pose proof (Z.log2_nonneg (Z.abs z)).
  assert (8 * n - 9 <= Z.log2 (Z.abs z)).
  { destruct (Z.ltb_spec (8 * n - 9) 0); [lia|]. apply Z.log2_le_pow2; lia. }
  replace ((Z.log2 (Z.abs z) + 1) / 8 + 1) with n by dlia. reflexivity.
Qed.

(** What the decoder computes, in arithmetic: [v] is the whole number, the
    last byte carries the sign, and the test for a superfluous last byte. *)
Lemma decode_value data byte :
  all_bytes data -> zlen data <= 4 -> list.last data = Some byte ->
  let v := from_le data in
  let sign := 2 ^ (8 * zlen data - 1) in
  decode_minimal_script_number data =
  if (byte mod 128 =? 0) && ((zlen data =? 1) || (zat data (zlen data - 2) <? 128)) then None
  else Some (if 128 <=? byte then - (v - sign) else v).
Proof.
  intros Hb Hl Hlast v sign. unfold decode_minimal_script_number.
  bfalse (4 <? zlen data). rewrite Hlast.
  apply last_Some in Hlast as [init ->].
  apply Forall_app in Hb as Hb'. destruct Hb' as [Hbi Hbb]. inversion_clear Hbb as [|?? Hbyte _].
  rewrite byte_land_7f by done. rewrite (byte_land_80 byte) by done.
  rewrite lor_bytes_from_le by (done || lia). fold v. rewrite Z.add_0_l, Z.mul_1_l.
  set (d := init ++ [byte]) in *.
  assert ((Z.land (zat d (zlen d - 2)) 128 =? 0) = (zat d (zlen d - 2) <? 128)) as ->.
  { assert (is_byte (zat d (zlen d - 2))) as Hz.
    { unfold zat, zget. destruct (_ <? 0); [by unfold is_byte; simpl; lia|].
      destruct (d !! _) eqn:E; [|by unfold is_byte; simpl; lia].
      by apply (Forall_lookup_1 _ _ _ _ Hb E). }
    rewrite byte_land_80 by done. unfold is_byte in Hz.
    apply eq_bool_prop_intro. rewrite !Is_true_true, Z.eqb_eq, Z.ltb_lt. dlia. }
  destruct ((byte mod 128 =? 0) && _); [done|].
  unfold is_byte in Hbyte. destruct (Z.leb_spec 128 byte).
  - replace (byte / 128) with 1 by dlia. cbn [Z.mul Z.eqb negb]. do 2 f_equal.
    unfold sign. pose proof (zlen_nonneg init). assert (1 <= zlen d) by (unfold d; zlen; lia).
    rewrite Z.shiftl_mul_pow2 by lia. change 128 with (2 ^ 7). rewrite <- Z.pow_add_r by lia.
    replace (7 + 8 * (zlen d - 1)) with (8 * zlen d - 1) by lia.
    apply land_lnot_bit; [lia|]. apply Z.testbit_true; [lia|]. unfold v, d.
    rewrite from_le_app. zlen. cbn [from_le].
    replace (8 * (zlen init + (1 + 0)) - 1) with (8 * zlen init + 7) by lia.
    rewrite Z.pow_add_r by lia. pose proof (from_le_bound init Hbi).
    replace (from_le init + _) with (byte * 2 ^ (8 * zlen init) + from_le init) by lia.
    rewrite <- Z.div_div, Z.div_add_l, (Z.div_small (from_le init)) by lia.
    change (2 ^ 7) with 128. dlia.
  - replace (byte / 128) with 0 by dlia. done.
Qed.

Lemma small_list {A} (l : list A) :
  zlen l <= 4 -> l = [] \/ (exists a, l = [a]) \/ (exists a b, l = [a; b]) \/
  (exists a b c, l = [a; b; c]) \/ (exists a b c d, l = [a; b; c; d]).
Proof.
  unfold zlen. intros. destruct l as [|a [|b [|c [|d [|e l]]]]]; simpl in *; try lia; eauto 9.
Qed.

Lemma script_number_bytes_eq data (neg : bool) a :
  all_bytes data -> 1 <= zlen data -> 1 <= a ->
  2 ^ (8 * zlen data - 9) <= a < 2 ^ (8 * zlen data - 1) ->
  from_le data = a + (if neg then 2 ^ (8 * zlen data - 1) else 0) ->
  data = script_number_bytes (if neg then - a else a).
Proof.
  intros Hb Hn Ha Hlim Hv. set (z := if neg then - a else a).
  assert (Z.abs z = a) as Hz by (unfold z; destruct neg; lia).
  rewrite (script_number_bytes_at (zlen data)) by (rewrite ?Hz; lia).
  rewrite Hz. rewrite <- (to_from_le data Hb) at 1. f_equal; [unfold zlen; lia|].
  rewrite Hv. unfold z. destruct neg; [btrue (- a <? 0)|bfalse (a <? 0)]; done.
Qed.

Ltac bytes_hyps := repeat match goal with
  | H : all_bytes (_ :: _) |- _ => inversion_clear H
  | H : is_byte _ |- _ => unfold is_byte in H
  end.

(** Evaluate the closed powers, tests and lookups of a fixed length. *)
Ltac norm_consts := repeat match goal with
  | |- context [2 ^ ?e] => let v := eval vm_compute in (2 ^ e) in progress change (2 ^ e) with v
  | H : context [2 ^ ?e] |- _ => let v := eval vm_compute in (2 ^ e) in progress change (2 ^ e) with v in H
  | |- context [Z.of_nat ?k =? 1] =>
      let v := eval vm_compute in (Z.of_nat k =? 1) in change (Z.of_nat k =? 1) with v
  | H : context [Z.of_nat ?k =? 1] |- _ =>
      let v := eval vm_compute in (Z.of_nat k =? 1) in change (Z.of_nat k =? 1) with v in H
  | H : context [zat ?l ?i] |- _ => let v := eval vm_compute in (zat l i) in change (zat l i) with v in H
  end.

Lemma decode_sound data z :
  all_bytes data -> decode_minimal_script_number data = Some z ->
  data = script_number_bytes z /\ - 2 ^ 31 < z < 2 ^ 31.
Proof.
  intros Hb H. destruct (Z.ltb_spec 4 (zlen data)) as [Hl|Hl].
  { unfold decode_minimal_script_number in H. by rewrite (proj2 (Z.ltb_lt _ _) Hl) in H. }
  destruct (list.last data) as [byte|] eqn:Hlast; cycle 1.
  { apply last_None in Hlast as ->. injection H as <-. split; [done|lia]. }
  rewrite (decode_value _ _ Hb Hl Hlast) in H.
  destruct ((byte mod 128 =? 0) && _) eqn:E; [done|]. injection H as <-.
  set (neg := 128 <=? byte). set (sign := 2 ^ (8 * zlen data - 1)).
  replace (if neg then - (from_le data - sign) else from_le data) with
    (if neg then - (from_le data - (if neg then sign else 0))
     else from_le data - (if neg then sign else 0)) by (destruct neg; lia).
  set (a := from_le data - (if neg then sign else 0)).
  assert (1 <= a /\ 2 ^ (8 * zlen data - 9) <= a < sign /\ sign <= 2 ^ 31) as (Ha & Hlim & H31).
  { apply andb_false_iff in E. unfold a, neg, sign. clear a neg sign. bytes_hyps.
    destruct (small_list data Hl) as [->|[[b0 ->]|[(b0 & b1 & ->)|[(b0 & b1 & b2 & ->)|(b0 & b1 & b2 & b3 & ->)]]]];
    [done|..]; injection Hlast as <-; bytes_hyps; unfold zlen in *;
    cbn [length from_le] in *; norm_consts; rewrite ?orb_true_l, ?orb_false_l, Z.eqb_neq, ?Z.ltb_ge in E.
    all: match goal with |- context [128 <=? ?b] => destruct (Z.leb_spec 128 b) end; dlia. }
  split; [apply script_number_bytes_eq; try done|destruct neg; lia].
  - unfold zlen. destruct data; [done|]. simpl. lia.
  - unfold a. fold sign. lia.
Qed.

Lemma decode_complete_at n z :
  (1 <= n <= 4)%nat -> 1 <= Z.abs z ->
  2 ^ (8 * Z.of_nat n - 9) <= Z.abs z < 2 ^ (8 * Z.of_nat n - 1) ->
  decode_minimal_script_number (script_number_bytes z) = Some z.
Proof.
  intros Hn H1 Hz. rewrite (script_number_bytes_at (Z.of_nat n)), Nat2Z.id by lia.
  set (w := Z.abs z + _). set (byte := (w / 2 ^ (8 * Z.of_nat (n - 1))) mod 256).
  assert (list.last (to_le n w) = Some byte) as Hlast.
  { rewrite last_lookup, length_to_le, lookup_to_le by lia. unfold byte. repeat f_equal. lia. }
  assert (zlen (to_le n w) <= 4) as Hlen by (rewrite zlen_to_le; lia).
  rewrite (decode_value _ _ (to_le_bytes n w) Hlen Hlast), zlen_to_le.
  assert (0 <= w < 2 ^ (8 * Z.of_nat n)) as Hw.
  { assert (2 ^ (8 * Z.of_nat n) = 2 * 2 ^ (8 * Z.of_nat n - 1)) as ->
      by (rewrite <- Z.pow_succ_r by lia; f_equal; lia).
    unfold w. destruct (z <? 0); lia. }
  rewrite (from_to_le_small n _ w eq_refl Hw). clear Hlast Hlen.
  assert ((Z.of_nat n =? 1) || (zat (to_le n w) (Z.of_nat n - 2) <? 128) =
          (Z.of_nat n =? 1) || ((w / 2 ^ (8 * Z.of_nat (n - 2))) mod 256 <? 128)) as ->.
  { destruct (Z.eqb_spec (Z.of_nat n) 1); [done|]. unfold zat, zget. bfalse (Z.of_nat n - 2 <? 0).
    rewrite lookup_to_le by lia. simpl. repeat f_equal. lia. }
  assert ((128 <=? byte) = (z <? 0) /\ (byte mod 128 =? 0) && ((Z.of_nat n =? 1) ||
    ((w / 2 ^ (8 * Z.of_nat (n - 2))) mod 256 <? 128)) = false) as [-> ->].
  { unfold byte. assert (n = 1 \/ n = 2 \/ n = 3 \/ n = 4)%nat as Hcases by lia.
    destruct Hcases as [->|[->|[->| ->]]]; cbn [Nat.sub] in *; unfold w in *; norm_consts;
      cbn [Z.eqb orb] in *; rewrite andb_false_iff, ?Z.eqb_neq, ?Z.ltb_ge;
      destruct (Z.ltb_spec z 0); rewrite ?Z.leb_le, ?Z.leb_gt.
    all: generalize dependent (Z.abs z); clear; intros; dlia. }
  unfold w. destruct (Z.ltb_spec z 0); f_equal; lia.
Qed.

Lemma decode_complete z :
  - 2 ^ 31 < z < 2 ^ 31 -> decode_minimal_script_number (script_number_bytes z) = Some z.
Proof.
  intros Hz. destruct (Z.eqb_spec z 0) as [->|Hz0]; [done|].
  destruct (Z.ltb_spec (Z.abs z) (2 ^ 7)); [apply (decode_complete_at 1); simpl; lia|].
  destruct (Z.ltb_spec (Z.abs z) (2 ^ 15)); [apply (decode_complete_at 2); simpl; lia|].
  destruct (Z.ltb_spec (Z.abs z) (2 ^ 23)); [apply (decode_complete_at 3); simpl; lia|].
  apply (decode_complete_at 4); simpl; lia.
Qed.

(** [decode_minimal_script_number] accepts exactly the minimal encodings
    of the numbers of 31 bits and a sign, each as the number it encodes. *)
Theorem decode_minimal_script_number_spec data z :
  all_bytes data ->
  decode_minimal_script_number data = Some z <->
  data = script_number_bytes z /\ - 2 ^ 31 < z < 2 ^ 31.
Proof.
  intros Hb. split; [by apply decode_sound|]. intros [-> Hz]. by apply decode_complete.
Qed.

Lemma decode_minimal_script_number_spec_witness :
  decode_minimal_script_number [0xff; 0x80] = Some (-255).
Proof.
  apply (decode_minimal_script_number_spec [0xff; 0x80]).
  - repeat constructor; vm_compute; congruence.
  - vm_compute. repeat split.
Defined.

(** ** Bare multisig *)

(** The one operation that stands for a small number: [OP_1 .. OP_16], or a
    push of the one byte. *)
Definition number_operation (v : Z) : Z * bytes :=
  if v <=? 16 then (0x50 + v, []) else (1, [v]).

Lemma small_numbers v : 1 <= v <= 20 -> script_number_bytes v = [v].
Proof.
  intros Hv. rewrite (script_number_bytes_at 1) by (simpl; lia).
  bfalse (v <? 0). rewrite Z.abs_eq, Z.add_0_r by lia.
  change (Z.to_nat 1) with 1%nat. cbn [to_le]. by rewrite Z.mod_small by lia.
Qed.

Lemma operation_wf_no_data o d : operation_wf (o, d) -> 0x4e < o -> d = [].
Proof.
  unfold operation_wf, in_range. intros (_ & _ & H) Ho.
  bfalse (o <=? 75) in H. bfalse (o =? 76) in H. bfalse (o =? 77) in H. bfalse (o =? 78) in H.
  by rewrite andb_false_r in H.
Qed.

Lemma core_script_number_sound op lo hi v :
  operation_wf op -> 1 <= lo -> hi <= 20 -> core_script_number op lo hi = Some v ->
  op = number_operation v /\ lo <= v <= hi.
Proof.
  destruct op as [o d]. intros Hwf Hlo Hhi H. unfold core_script_number, number_operation in *.
  apply bind_Some in H as (w & Hw & H). apply bind_Some in H as (w' & Ht & H).
  unfold try_u in Ht. destruct ((0 <=? w) && _); [|done]. injection Ht as ->.
  destruct (in_range lo hi w') eqn:E; [|done]. injection H as ->.
  unfold in_range in E, Hw. bool_to_prop. split; [|done].
  destruct ((0x51 <=? o) && (o <=? 0x60)) eqn:E1.
  - injection Hw as <-. bool_to_prop. btrue (o - 80 <=? 16).
    rewrite (operation_wf_no_data o d Hwf) by lia. f_equal. lia.
  - destruct (_ && is_minimal_push o d) eqn:E2; [|done]. bool_to_prop.
    apply decode_sound in Hw as [-> _]; [|apply Hwf].
    match goal with H : is_minimal_push _ _ = true |- _ => rename H into Hm end.
    rewrite small_numbers in Hm |- * by lia. unfold is_minimal_push, in_range, zlen in Hm.
    btrue (1 <=? v) in Hm. destruct (v <=? 16) eqn:E16; bool_to_prop.
    + simpl in Hm. bool_to_prop. lia.
    + bfalse (v =? 0x81) in Hm. simpl in Hm. bool_to_prop. by subst.
Qed.

Lemma core_script_number_complete lo hi v :
  1 <= lo -> hi <= 20 -> lo <= v <= hi ->
  core_script_number (number_operation v) lo hi = Some v /\ operation_wf (number_operation v).
Proof.
  intros Hlo Hhi Hv. unfold core_script_number, number_operation, in_range.
  destruct (Z.leb_spec v 16).
  - btrue ((0x51 <=? 80 + v) && (80 + v <=? 0x60)). cbn [mbind option_bind].
    replace (80 + v - 80) with v by lia. unfold try_u, umax.
    btrue ((0 <=? v) && (v <=? 2 ^ 8 - 1)). cbn [mbind option_bind].
    btrue ((lo <=? v) && (v <=? hi)). split; [done|]. unfold operation_wf, in_range.
    bfalse (80 + v <=? 75). bfalse (80 + v =? 76). bfalse (80 + v =? 77). bfalse (80 + v =? 78).
    rewrite andb_false_r. split; [unfold is_byte; lia|]. split; [constructor|done].
  - assert (is_minimal_push 1 [v] = true) as ->.
    { unfold is_minimal_push, in_range, zlen. simpl. bfalse (v <=? 16). bfalse (v =? 0x81).
      rewrite ?andb_false_r. done. }
    rewrite <- small_numbers, decode_complete by lia. cbn [mbind option_bind andb Z.leb Z.compare].
    unfold try_u, umax. simpl. btrue ((0 <=? v) && (v <=? 2 ^ 8 - 1)). cbn [mbind option_bind].
    btrue ((lo <=? v) && (v <=? hi)). split; [done|]. rewrite small_numbers by lia.
    split; [unfold is_byte; lia|]. split; [|done]. repeat constructor; unfold is_byte; lia.
Qed.

Lemma take_keys_spec ops keys rest :
  take_keys ops = (keys, rest) ->
  exists key_ops, ops = key_ops ++ rest /\ keys = map snd key_ops /\
    Forall (fun key => is_core_pubkey_size key = true) keys.
Proof.
  revert keys rest. induction ops as [|[o d] ops IH]; intros keys rest; simpl.
  { intros [= <- <-]. by exists []. }
  destruct (is_core_pubkey_size d) eqn:E.
  - destruct (take_keys ops) as [ks r] eqn:Et. intros [= <- <-].
    destruct (IH ks r eq_refl) as (key_ops & -> & -> & Hall).
    exists ((o, d) :: key_ops). split; [done|]. split; [done|]. by constructor.
  - intros [= <- <-]. exists []. done.
Qed.

Lemma take_keys_app key_ops o d rest :
  Forall (fun key => is_core_pubkey_size key = true) (map snd key_ops) ->
  is_core_pubkey_size d = false ->
  take_keys (key_ops ++ (o, d) :: rest) = (map snd key_ops, (o, d) :: rest).
Proof.
  intros Hk Hd. induction key_ops as [|[o' d'] key_ops IH]; simpl in *; [by rewrite Hd|].
  inversion_clear Hk as [|?? H1 H2]. by rewrite H1, (IH H2).
Qed.

Lemma number_not_key v : is_core_pubkey_size (number_operation v).2 = false.
Proof. unfold number_operation. by destruct (v <=? 16). Qed.

(** The shape of a bare multisig script: the threshold, the keys in any push
    form, the key count and one last operation that ends in the byte of
    [OP_CHECKMULTISIG]. *)
Definition multisig_shape (script : bytes) (m : Z) (keys : list bytes) (last_op : Z * bytes) : Prop :=
  exists key_ops,
    let ops := number_operation m :: key_ops ++ [number_operation (zlen keys); last_op] in
    Forall operation_wf ops /\ script = concat (map unparse_operation ops) /\
    list.last (unparse_operation last_op) = Some 0xae /\
    keys = map snd key_ops /\ Forall (fun key => is_core_pubkey_size key = true) keys /\
    1 <= m <= zlen keys /\ zlen keys <= 20.

Lemma last_concat_unparse ops op :
  list.last (concat (map unparse_operation (ops ++ [op]))) = list.last (unparse_operation op).
Proof.
  rewrite map_app, concat_app. simpl. rewrite app_nil_r, last_app.
  destruct (list.last (unparse_operation op)) eqn:E; [done|].
  apply last_None in E. pose proof (unparse_length op) as H. by rewrite E in H.
Qed.

Lemma multisig_sound script m keys :
  all_bytes script -> zlen script < 2 ^ 64 ->
  core_multisig_solution script = Some (m, keys) -> exists last_op, multisig_shape script m keys last_op.
Proof.
  intros Hb Hsz H. apply bind_Some in H as (ops & Hops & H).
  apply (parse_loop_sound _ _ 0) in Hops as [Hwf Hs]; [|done|pose proof (zlen_nonneg script); lia].
  change (zdrop 0 script) with script in Hs.
  destruct (_ || _) eqn:E in H; [done|]. bool_to_prop. destruct ops as [|op0 ops]; [done|].
  apply bind_Some in H as (? & [= <-] & H). apply bind_Some in H as (m' & Hm & H).
  cbn [tail] in H. destruct (take_keys ops) as [keys' rest] eqn:Ht.
  apply bind_Some in H as (opn & Hopn & H). apply bind_Some in H as (n & Hn & H).
  destruct (_ || _) eqn:E2 in H; [done|]. injection H as -> ->. bool_to_prop.
  destruct rest as [|? rest]; [done|]. injection Hopn as ->.
  apply take_keys_spec in Ht as (key_ops & -> & Hkeys & Hall).
  assert (exists op, rest = [op]) as [last_op ->].
  { assert (zlen keys = zlen key_ops) as Hlen by (rewrite Hkeys; unfold zlen; by rewrite length_map).
    zlen. unfold zlen in *. destruct rest as [|r [|]]; simpl in *; try lia. eauto. }
  inversion_clear Hwf as [|?? Hwf0 Hwfs]. pose proof Hwfs as Hwfs'.
  apply Forall_app in Hwfs' as [_ Hwfs']. inversion_clear Hwfs' as [|?? Hwfn _].
  apply core_script_number_sound in Hm as [-> Hm]; [|done|lia..].
  apply core_script_number_sound in Hn as [-> Hn]; [|done|lia..].
  exists last_op, key_ops. cbn zeta. replace (zlen keys) with n by lia.
  split; [by constructor|]. split; [done|]. split; [|repeat split; done || lia].
  rewrite <- (last_concat_unparse (number_operation m :: key_ops ++ [number_operation n])).
  simpl. rewrite <- app_assoc. simpl. simpl in Hs. rewrite Hs. done.
Qed.

Lemma multisig_complete script m keys last_op :
  zlen script < 2 ^ 64 -> multisig_shape script m keys last_op ->
  core_multisig_solution script = Some (m, keys).
Proof.
  intros Hsz (key_ops & Hwf & Hs & Hlast & Hkeys & Hall & Hm & Hn).
  unfold core_multisig_solution, parse_operations.
  set (ops := number_operation m :: _) in *.
  assert (parse_loop (S (length script)) script 0 = Some ops) as ->.
  { rewrite Hs. apply (parse_loop_complete ops [] _ Hwf); [|by rewrite Hs in Hsz].
    pose proof (length_concat_unparse ops). lia. }
  cbn [mbind option_bind].
  assert (list.last script = Some 0xae) as ->.
  { rewrite Hs. unfold ops.
    change (number_operation m :: key_ops ++ [number_operation (zlen keys); last_op]) with
      ((number_operation m :: key_ops) ++ [number_operation (zlen keys)] ++ [last_op]).
    rewrite app_assoc, last_concat_unparse. done. }
  rewrite (bool_decide_eq_false_2 (ops = [])) by done. rewrite bool_decide_eq_true_2 by done.
  cbn [orb negb]. change (list.head ops) with (Some (number_operation m)).
  change (tail ops) with (key_ops ++ [number_operation (zlen keys); last_op]). cbn [mbind option_bind].
  rewrite (proj1 (core_script_number_complete 1 20 m ltac:(lia) ltac:(lia) ltac:(lia))).
  cbn [mbind option_bind]. destruct (number_operation (zlen keys)) as [on dn] eqn:En.
  rewrite take_keys_app; [|by rewrite <- Hkeys|by rewrite <- (number_not_key (zlen keys)), En].
  cbn [list.head mbind option_bind]. rewrite <- En.
  rewrite (proj1 (core_script_number_complete m 20 (zlen keys) ltac:(lia) ltac:(lia) ltac:(lia))).
  cbn [mbind option_bind]. rewrite <- Hkeys, Z.eqb_refl.
  assert (zlen keys = zlen key_ops) as Hlen by (rewrite Hkeys; unfold zlen; by rewrite length_map).
  assert ((1 + zlen keys + 2 =? zlen ops) = true) as ->; [|done].
  unfold ops. zlen. apply Z.eqb_eq. lia.
Qed.

(** [core_multisig_solution] returns a threshold and keys exactly for the
    scripts of the shape [m <keys> n <operation ending in 0xae>] with
    [1 <= m <= n <= 20], [n] the number of keys, minimal numbers and keys of
    a valid size and prefix.  In particular every bare multisig script is
    recognised, with its keys in order. *)
Theorem core_multisig_solution_spec script m keys :
  all_bytes script -> zlen script < 2 ^ 64 ->
  core_multisig_solution script = Some (m, keys) <->
  exists last_op, multisig_shape script m keys last_op.
Proof.
  intros Hb Hsz. split; [by apply multisig_sound|].
  intros [last_op H]. by apply (multisig_complete _ _ _ last_op).
Qed.

(** A 2-byte prefix of [key] and 32 zero bytes, for the examples. *)
Definition example_key : bytes := 2 :: repeat 0 32.

Lemma core_multisig_solution_spec_witness :
  core_multisig_solution ([0x51; 33] ++ example_key ++ [0x51; 0xae]) = Some (1, [example_key]).
Proof.
  apply (core_multisig_solution_spec ([0x51; 33] ++ example_key ++ [0x51; 0xae]) 1 [example_key]).
  - repeat constructor; vm_compute; congruence.
  - vm_compute. reflexivity.
  - exists (0xae, []), [(33, example_key)]. cbn zeta.
    split; [repeat constructor; vm_compute; congruence|].
    repeat split; try (vm_compute; congruence). repeat constructor; vm_compute; congruence.
Defined.

(** Core's [MatchMultisig] wants exactly the one byte [OP_CHECKMULTISIG]
    after the key count. *)
Definition core_match_multisig (script : bytes) (m : Z) (keys : list bytes) : Prop :=
  multisig_shape script m keys (0xae, []).

Lemma unparse_inj ops1 ops2 :
  Forall operation_wf ops1 -> Forall operation_wf ops2 ->
  zlen (concat (map unparse_operation ops1)) < 2 ^ 64 ->
  concat (map unparse_operation ops1) = concat (map unparse_operation ops2) -> ops1 = ops2.
Proof.
  intros H1 H2 Hsz Heq.
  pose proof (parse_loop_complete ops1 [] (S (length ops1 + length ops2)) H1 ltac:(lia) Hsz) as E1.
  simpl app in E1. rewrite Heq in E1, Hsz.
  pose proof (parse_loop_complete ops2 [] (S (length ops1 + length ops2)) H2 ltac:(lia) Hsz) as E2.
  simpl app in E2. congruence.
Qed.

(** The matcher accepts more than Core's [MatchMultisig]: it tests the
    last byte of the script where Core tests the last opcode, so a script
    whose last operation is a push of the byte [0xae] is reported as a 1-of-1
    multisig although it has no [OP_CHECKMULTISIG] at all. *)
Theorem core_multisig_solution_accepts_push :
  let script := [0x51; 33] ++ example_key ++ [0x51; 1; 0xae] in
  core_multisig_solution script = Some (1, [example_key]) /\
  parse_operations script = Some [(0x51, []); (33, example_key); (0x51, []); (1, [0xae])] /\
  ~ core_match_multisig script 1 [example_key].
Proof.
  cbn zeta. split; [vm_compute; reflexivity|]. split; [vm_compute; reflexivity|].
  intros (key_ops & Hwf & Hs & _). cbn zeta in *.
  assert (Forall operation_wf [(0x51, []); (33, example_key); (0x51, []); (1, [0xae])]) as Hwf'.
  { repeat constructor; vm_compute; congruence. }
  apply (unparse_inj _ _ Hwf' Hwf) in Hs; [|vm_compute; reflexivity].
  apply (f_equal list.last) in Hs. revert Hs. simpl. rewrite last_cons, last_app. done.
Qed.
