(* ===== verification/Muhash.v ===== *)
(** * The MuHash3072 set accumulator ([src/muhash.rs])

    The accumulator keeps a fraction modulo [2^3072 - 1103717]: insertions
    multiply the numerator, removals the denominator, and [finalize] divides
    once.  SHA-256, the ChaCha20 key stream, [BigUint::modpow] and the
    rendering of a digest belong to other crates and are parameters; a
    [BigUint] is a nonnegative [Z]. *)

From Stdlib Require Import ZArith Lia Zpow_facts Morphisms.
From stdpp Require Import base list option sorting.
From S2P Require Import Prelude.
Local Open Scope Z_scope.

Definition BYTE_SIZE : Z := 384.
Definition MODULUS_DIFF : Z := 1103717.
Definition modulus : Z := Z.shiftl 1 3072 - MODULUS_DIFF.

Record MuHash3072 := { numerator : Z; denominator : Z }.

Definition default_muhash : MuHash3072 := {| numerator := 1; denominator := 1 |}.

(** [BigUint::to_bytes_le]: the bytes without leading zeros, one zero byte for
    zero; [Vec::resize] with zeros. *)
Definition to_bytes_le (value : Z) : bytes :=
  if value =? 0 then [0] else to_le (Z.to_nat (Z.log2 value / 8 + 1)) value.
Definition resize (n : Z) (l : bytes) : bytes :=
  ztake n l ++ repeat 0 (Z.to_nat (n - zlen l)).

Section MuHash.
(** [Sha256::digest] *)
Variable sha256 : bytes -> bytes.
(** [ChaCha20::new(key, nonce)] applied to [n] zero bytes. *)
Variable chacha20_keystream : bytes -> bytes -> Z -> bytes.
(** [BigUint::modpow(base, exponent, modulus)] *)
Variable modpow : Z -> Z -> Z -> Z.
(** [sha256::Hash::to_string] *)
Variable hash_to_string : bytes -> bytes.

Definition hash_to_num (data : bytes) : Z :=
  let key := sha256 data in
  let nonce := repeat 0 12 in
  from_le (chacha20_keystream key nonce BYTE_SIZE).

Definition insert (s : MuHash3072) (data : bytes) : MuHash3072 :=
  {| numerator := (numerator s * hash_to_num data) mod modulus; denominator := denominator s |}.

Definition remove (s : MuHash3072) (data : bytes) : MuHash3072 :=
  {| numerator := numerator s; denominator := (denominator s * hash_to_num data) mod modulus |}.

Definition combine (s other : MuHash3072) : MuHash3072 :=
  {| numerator := (numerator s * numerator other) mod modulus;
     denominator := (denominator s * denominator other) mod modulus |}.

Definition from_bytes (data : bytes) : MuHash3072 := insert default_muhash data.

Definition finalize (s : MuHash3072) : bytes :=
  let exponent := modulus - 2 in
  let inverse := modpow (denominator s) exponent modulus in
  let value := (numerator s * inverse) mod modulus in
  let digest := sha256 (resize BYTE_SIZE (to_bytes_le value)) in
  hash_to_string (reverse digest).

(** A sequence of updates of one accumulator. *)
Inductive update :=
| Insert (data : bytes)
| Remove (data : bytes).

Definition apply (s : MuHash3072) (u : update) : MuHash3072 :=
  match u with Insert d => insert s d | Remove d => remove s d end.

Definition run (s : MuHash3072) (us : list update) : MuHash3072 := foldl apply s us.

Definition inserted (us : list update) : list bytes :=
  omap (fun u => match u with Insert d => Some d | Remove _ => None end) us.
Definition removed (us : list update) : list bytes :=
  omap (fun u => match u with Remove d => Some d | Insert _ => None end) us.

(** ** Congruence modulo the field size *)

Lemma modulus_big : 2 < modulus.
Proof. vm_compute. reflexivity. Qed.
#[local] Opaque modulus.

Definition cong (a b : Z) : Prop := a mod modulus = b mod modulus.
#[local] Infix "≅" := cong (at level 70).

#[local] Instance cong_equiv : Equivalence cong.
Proof. split; unfold cong; congruence. Qed.
#[local] Instance cong_mul : Proper (cong ==> cong ==> cong) Z.mul.
Proof.
  unfold cong. intros a a' Ha b b' Hb. rewrite (Z.mul_mod a b), (Z.mul_mod a' b').
  all: pose proof modulus_big; try lia. by rewrite Ha, Hb.
Qed.
Lemma cong_pow a a' n : a ≅ a' -> a ^ n ≅ a' ^ n.
Proof.
  unfold cong. intros H. pose proof modulus_big.
  rewrite (Zpower_mod a), (Zpower_mod a') by lia. by rewrite H.
Qed.
Lemma cong_mod a : a mod modulus ≅ a.
Proof. unfold cong. pose proof modulus_big. by rewrite Z.mod_mod by lia. Qed.

(** The product of the hashes of a list of elements. *)
Definition prod (l : list bytes) : Z := foldr (fun d acc => hash_to_num d * acc) 1 l.

Lemma prod_app l1 l2 : prod (l1 ++ l2) = prod l1 * prod l2.
Proof. induction l1 as [|d l1 IH]; simpl; [lia|]. unfold prod in *. simpl. rewrite IH. lia. Qed.

Lemma prod_permutation l1 l2 : l1 ≡ₚ l2 -> prod l1 = prod l2.
Proof. induction 1; unfold prod in *; simpl; lia. Qed.

(** Both halves of an accumulator are reduced. *)
Definition reduced (s : MuHash3072) : Prop :=
  0 <= numerator s < modulus /\ 0 <= denominator s < modulus.

Lemma mod_range a : 0 <= a mod modulus < modulus.
Proof. apply Z.mod_pos_bound. pose proof modulus_big. lia. Qed.

Lemma default_reduced : reduced default_muhash.
Proof. pose proof modulus_big. unfold reduced, default_muhash. simpl. lia. Qed.

Lemma run_reduced s us : reduced s -> reduced (run s us).
Proof.
  revert s. induction us as [|u us IH]; intros s Hs; [done|]. simpl. apply IH.
  destruct u, Hs; split; simpl; done || apply mod_range.
Qed.

Lemma run_value s us :
  numerator (run s us) ≅ numerator s * prod (inserted us) /\
  denominator (run s us) ≅ denominator s * prod (removed us).
Proof.
  revert s. induction us as [|u us IH]; intros s; simpl.
  - unfold prod. simpl. by rewrite !Z.mul_1_r.
  - destruct (IH (apply s u)) as [Hn Hd].
    destruct u; simpl in *; rewrite Hn, Hd; rewrite cong_mod; unfold prod; simpl;
      rewrite ?Z.mul_assoc; done.
Qed.

Lemma reduced_eq s s' :
  reduced s -> reduced s' -> numerator s ≅ numerator s' -> denominator s ≅ denominator s' -> s = s'.
Proof.
  destruct s as [n d], s' as [n' d']. unfold reduced, cong. simpl.
  intros [Hn Hd] [Hn' Hd']. rewrite !Z.mod_small by done. by intros -> ->.
Qed.

Lemma run_same_sets us us' :
  inserted us ≡ₚ inserted us' -> removed us ≡ₚ removed us' ->
  run default_muhash us = run default_muhash us'.
Proof.
  intros Hi Hr. apply reduced_eq; try apply run_reduced, default_reduced.
  - rewrite !(proj1 (run_value _ _)), (prod_permutation _ _ Hi). done.
  - rewrite !(proj2 (run_value _ _)), (prod_permutation _ _ Hr). done.
Qed.

Lemma omap_permutation {A B} (f : A -> option B) (l l' : list A) : l ≡ₚ l' -> omap f l ≡ₚ omap f l'.
Proof.
  induction 1 as [|x ? ? _ IH|x y ?|? ? ? _ IH1 _ IH2]; simpl; [done|..].
  - destruct (f x); [by constructor|done].
  - destruct (f x), (f y); by constructor || done.
  - by rewrite IH1.
Qed.

(** The accumulator does not depend on the order of the updates: two
    orderings of the same insertions and removals give the same state, so the
    same digest. *)
Theorem run_order_independent us us' :
  us ≡ₚ us' -> run default_muhash us = run default_muhash us'.
Proof. intros H. apply run_same_sets; by apply omap_permutation. Qed.

(** [combine] is union: combining the accumulators of two update
    sequences gives the accumulator of the two sequences together. *)
Theorem combine_run us us' :
  combine (run default_muhash us) (run default_muhash us') = run default_muhash (us ++ us').
Proof.
  apply reduced_eq; [split; apply mod_range|apply run_reduced, default_reduced|..];
    simpl; rewrite cong_mod.
  - rewrite !(proj1 (run_value _ _)). unfold inserted. rewrite omap_app, prod_app. simpl.
    by rewrite !Z.mul_1_l.
  - rewrite !(proj2 (run_value _ _)). unfold removed. rewrite omap_app, prod_app. simpl.
    by rewrite !Z.mul_1_l.
Qed.

(** ** The digest *)

Lemma to_le_zero n : to_le n 0 = repeat 0 n.
Proof.
  induction n as [|n IH]; [done|]. cbn [to_le repeat].
  change (0 mod 256) with 0. change (0 / 256) with 0. by rewrite IH.
Qed.

Lemma to_le_more n k z :
  0 <= z < 2 ^ (8 * Z.of_nat n) -> to_le (n + k) z = to_le n z ++ repeat 0 k.
Proof.
  revert z. induction n as [|n IH]; intros z Hz.
  - replace z with 0 by (simpl in Hz; lia). apply to_le_zero.
  - cbn [Nat.add to_le app]. rewrite pow256_succ in Hz. rewrite IH by dlia. done.
Qed.

Lemma resize_to_bytes_le n z :
  0 < n -> 0 <= z < 2 ^ (8 * n) -> resize n (to_bytes_le z) = to_le (Z.to_nat n) z.
Proof.
  intros Hn Hz. unfold resize, to_bytes_le. destruct (Z.eqb_spec z 0) as [->|H0].
  - rewrite ztake_all by (zlen; lia). rewrite to_le_zero.
    replace (Z.to_nat n) with (S (Z.to_nat (n - 1))) by lia. by zlen.
  - set (k := Z.log2 z / 8 + 1). pose proof (Z.log2_spec z ltac:(lia)) as [_ Hl].
    pose proof (Z.log2_nonneg z).
    assert (Z.log2 z < 8 * n) by (apply Z.log2_lt_pow2; lia).
    assert (1 <= k <= n) as Hk by (unfold k; dlia).
    assert (2 ^ Z.succ (Z.log2 z) <= 2 ^ (8 * k)) by (apply Z.pow_le_mono_r; unfold k; dlia).
    rewrite ztake_all by (zlen; lia). rewrite zlen_to_le, Z2Nat.id by lia.
    rewrite <- to_le_more by (rewrite Z2Nat.id; lia). f_equal. lia.
Qed.

Hypothesis modpow_spec : forall b e m, 0 < m -> 0 <= e -> modpow b e m = b ^ e mod m.

(** A hash that is invertible modulo the field size, as Fermat's theorem
    promises of every nonzero one. *)
Definition invertible (data : bytes) : Prop :=
  modpow (hash_to_num data) (modulus - 1) modulus = 1.

Lemma prod_fermat l : Forall invertible l -> prod l ^ (modulus - 1) ≅ 1.
Proof.
  pose proof modulus_big. induction 1 as [|d l Hd _ IH].
  - unfold prod. simpl. by rewrite Z.pow_1_l by lia.
  - change (prod (d :: l)) with (hash_to_num d * prod l). rewrite Z.pow_mul_l, IH.
    unfold invertible in Hd. rewrite modpow_spec in Hd by lia. unfold cong.
    rewrite Z.mul_1_r, Hd, Z.mod_small by lia. done.
Qed.

Lemma modulus_fits : modulus <= 2 ^ (8 * BYTE_SIZE).
Proof. Transparent modulus. vm_compute. congruence. Qed.
#[local] Opaque modulus.

(** C39: the digest is a function of the set.  After any interleaving of
    insertions and removals whose insertions are the elements of [elements]
    and the removed ones, [finalize] hashes the 384-byte little-endian
    encoding of the product of the hashes of [elements]: every removal
    cancels its insertion, wherever it happens. *)
Theorem finalize_set us elements :
  inserted us ≡ₚ elements ++ removed us -> Forall invertible (removed us) ->
  finalize (run default_muhash us) =
  hash_to_string (reverse (sha256 (to_le (Z.to_nat BYTE_SIZE) (prod elements mod modulus)))).
Proof.
  intros Hset Hinv. pose proof modulus_big. unfold finalize. do 3 f_equal.
  destruct (run_value default_muhash us) as [Hn Hd]. simpl in Hn, Hd. rewrite Z.mul_1_l in Hn, Hd.
  rewrite resize_to_bytes_le; [|done|pose proof modulus_fits;
    match goal with |- context [?a mod modulus] => pose proof (mod_range a) end; lia].
  f_equal. rewrite modpow_spec by lia. change (_ mod modulus = _ mod modulus) with
    (numerator (run default_muhash us) *
      (denominator (run default_muhash us) ^ (modulus - 2) mod modulus) ≅ prod elements).
  rewrite cong_mod, Hn, (cong_pow _ _ _ Hd), (prod_permutation _ _ Hset), prod_app.
  rewrite <- Z.mul_assoc, <- Z.pow_succ_r by lia.
  replace (Z.succ (modulus - 2)) with (modulus - 1) by lia.
  by rewrite (prod_fermat _ Hinv), Z.mul_1_r.
Qed.
End MuHash.

(** ** Instances of the parameters *)

(** Square and multiply. *)
Fixpoint powmod_pos (b : Z) (e : positive) (m : Z) : Z :=
  match e with
  | xH => b mod m
  | xO e => let r := powmod_pos b e m in (r * r) mod m
  | xI e => let r := powmod_pos b e m in (b * ((r * r) mod m)) mod m
  end.
Definition powmod (b e m : Z) : Z :=
  match e with Zpos e => powmod_pos b e m | _ => b ^ e mod m end.

Lemma powmod_pos_spec b e m : 0 < m -> powmod_pos b e m = b ^ Zpos e mod m.
Proof.
  intros Hm. induction e as [e IH|e IH|]; cbn [powmod_pos].
  - rewrite IH, <- Z.mul_mod, Z.mul_mod_idemp_r by lia. f_equal.
    replace (Zpos e~1) with (1 + (Zpos e + Zpos e)) by lia. rewrite !Z.pow_add_r by lia. lia.
  - rewrite IH, Pos2Z.inj_xO. replace (2 * Zpos e) with (Zpos e + Zpos e) by lia.
    rewrite Z.pow_add_r, <- Z.mul_mod by lia. done.
  - by rewrite Z.pow_1_r.
Qed.

Lemma powmod_spec b e m : 0 < m -> 0 <= e -> powmod b e m = b ^ e mod m.
Proof. intros Hm He. destruct e; try done. by apply powmod_pos_spec. Qed.

(** A key stream that sends the element [[1]] to [-1] and every other element
    to [1], with the identity for SHA-256. *)
Definition example_keystream (key nonce : bytes) (n : Z) : bytes :=
  to_le (Z.to_nat n) (if bool_decide (key = [1]) then modulus - 1 else 1).

Lemma minus_one_invertible : powmod (modulus - 1) (modulus - 1) modulus = 1.
Proof.
  pose proof modulus_big as Hm.
  assert (Z.Even (modulus - 1)) as He by (apply Z.even_spec; vm_compute; reflexivity).
  rewrite powmod_spec by lia. rewrite Zpower_mod by lia.
  replace ((modulus - 1) mod modulus) with ((- (1)) mod modulus)
    by (rewrite <- (Z_mod_plus_full (- (1)) 1); f_equal; lia).
  rewrite <- Zpower_mod, Z.pow_opp_even, Z.pow_1_l by (done || lia). apply Z.mod_small. lia.
Qed.

Lemma run_order_independent_witness :
  run id example_keystream default_muhash [Insert [1]; Remove [2]] =
  run id example_keystream default_muhash [Remove [2]; Insert [1]].
Proof. apply (run_order_independent id example_keystream). apply perm_swap. Defined.

Lemma finalize_set_witness :
  finalize id powmod id
    (run id example_keystream default_muhash [Insert [1]; Insert [2]; Remove [1]]) =
  reverse (to_le (Z.to_nat BYTE_SIZE) (prod id example_keystream [[2]] mod modulus)).
Proof.
  apply (finalize_set id example_keystream powmod id powmod_spec
           [Insert [1]; Insert [2]; Remove [1]] [[2]]).
  - simpl. apply perm_swap.
  - constructor; [|constructor]. unfold invertible.
    replace (hash_to_num id example_keystream [1]) with (modulus - 1) by (vm_compute; reflexivity).
    apply minus_one_invertible.
Defined.
