(* ===== verification/Merkle.v ===== *)
(** * Merkle trees ([src/validation.rs], [src/storage.rs], [src/chain.rs])

    The Merkle root with mutation detection that block validation uses, the
    inclusion branches of the transaction index, and the incrementally
    extended tree of header hashes behind the Electrum checkpoint proofs.
    A hash is its 32 bytes; the double SHA-256 is a parameter.

    The [while layer.len() > 1] loops take the number of leaves as fuel and
    answer [None] without any lhs; a layer of two or more hashes shrinks, so
    the fuel is enough ([root_loop_total]). *)

From Stdlib Require Import ZArith Lia.
From stdpp Require Import base list option sets.
From S2P Require Import Prelude.
Local Open Scope Z_scope.

Section Merkle.
(** [sha256d::Hash] of the input fed to the engine. *)
Variable sha256d : bytes -> bytes.

(** Also [combine_header_hashes]. *)
Definition combine_hashes (lhs rhs : bytes) : bytes := sha256d (lhs ++ rhs).

(** [l[i]] *)
Definition hash_at (l : list bytes) (i : Z) : bytes := default [] (zget l i).

(** One pass over [layer.chunks(2)]. *)
Fixpoint next_layer (layer : list bytes) : list bytes :=
  match layer with
  | [] => []
  | [lhs] => [combine_hashes lhs lhs]
  | lhs :: rhs :: rest => combine_hashes lhs rhs :: next_layer rest
  end.

(** The same pass, which also remembers the first pair of equal hashes. *)
Fixpoint next_layer_mutated (layer : list bytes) (mutated : option bytes)
  : list bytes * option bytes :=
  match layer with
  | [] => ([], mutated)
  | [lhs] => ([combine_hashes lhs lhs], mutated)
  | lhs :: rhs :: rest =>
      let mutated :=
        if bool_decide (lhs = rhs) && bool_decide (mutated = None) then Some lhs
        else mutated in
      let '(next, mutated) := next_layer_mutated rest mutated in
      (combine_hashes lhs rhs :: next, mutated)
  end.

Fixpoint root_loop (fuel : nat) (layer : list bytes) (mutated : option bytes)
  : option (list bytes * option bytes) :=
  match fuel with
  | O => None
  | S fuel =>
      if 1 <? zlen layer then
        let '(next, mutated) := next_layer_mutated layer mutated in
        root_loop fuel next mutated
      else Some (layer, mutated)
  end.

Definition merkle_root_and_mutated_txid (transaction_ids : list bytes)
  : option bytes * option bytes :=
  match transaction_ids with
  | [] => (None, None)
  | _ =>
      match root_loop (length transaction_ids) transaction_ids None with
      | Some (layer, mutated) => (Some (hash_at layer 0), mutated)
      | None => (None, None)
      end
  end.

(** The sibling in a layer; the last hash of an odd layer is its own. *)
Definition sibling (layer : list bytes) (index : Z) : Z :=
  if Z.lxor index 1 <? zlen layer then Z.lxor index 1 else index.

Fixpoint branch_loop (fuel : nat) (layer : list bytes) (index : Z) : option (list bytes * list bytes) :=
  match fuel with
  | O => None
  | S fuel =>
      if 1 <? zlen layer then
        '(branch, top) ← branch_loop fuel (next_layer layer) (index / 2);
        Some (hash_at layer (sibling layer index) :: branch, top)
      else Some ([], layer)
  end.

(** On the transaction ids of the block. *)
Definition merkle_branch_for_transactions (txids : list bytes) (transaction_index : Z)
  : option (list bytes) :=
  fst <$> branch_loop (S (length txids)) txids transaction_index.
Definition merkle_branch_for_block (txids : list bytes) (transaction_index : Z)
  : option (list bytes) :=
  fst <$> branch_loop (S (length txids)) txids transaction_index.

(** ** Header proofs *)

Record HeaderMerkleCache := {
  checkpoint_hash : bytes;
  checkpoint : Z;
  levels : list (list bytes);
}.

Inductive HeaderProofError :=
| EmptyHeaderProof
| HeightExceedsCheckpoint
| NoLeaves
| NoRoot
| CheckpointBeforeHeight
| CheckpointOutOfRange.

Fixpoint build_levels (fuel : nat) (layer : list bytes) : option (list (list bytes)) :=
  match fuel with
  | O => None
  | S fuel =>
      if 1 <? zlen layer then
        rest ← build_levels fuel (next_layer layer); Some (layer :: rest)
      else Some [layer]
  end.

Definition from_hashes (checkpoint_hash : bytes) (checkpoint : Z) (hashes : list bytes)
  : result HeaderProofError HeaderMerkleCache :=
  match hashes with
  | [] => Err EmptyHeaderProof
  | _ =>
      Ok {| checkpoint_hash := checkpoint_hash; checkpoint := checkpoint;
            levels := default [] (build_levels (length hashes) hashes) |}
  end.

(** The round of the [loop] of [append_hash] at one level: the parent of the
    last pair of the level below is appended or replaces the last hash. *)
Definition update_level (lower current : list bytes) : list bytes :=
  let lower_len := zlen lower in
  let parent :=
    if lower_len mod 2 =? 0
    then combine_hashes (hash_at lower (lower_len - 2)) (hash_at lower (lower_len - 1))
    else combine_hashes (hash_at lower (lower_len - 1)) (hash_at lower (lower_len - 1)) in
  let desired_len := (lower_len + 1) / 2 in
  if zlen current <? desired_len then current ++ [parent]
  else removelast current ++ [parent].

(** [levels] are the levels above [lower]; a missing level is created, and the
    loop ends at the last level when it holds one hash. *)
Fixpoint append_loop (fuel : nat) (lower : list bytes) (levels : list (list bytes))
  : option (list (list bytes)) :=
  match fuel with
  | O => None
  | S fuel =>
      let '(current, above) := match levels with [] => ([], []) | c :: a => (c, a) end in
      let current := update_level lower current in
      if bool_decide (above = []) && (zlen current =? 1) then Some [current]
      else rest ← append_loop fuel current above; Some (current :: rest)
  end.

Definition append_hash (cache : HeaderMerkleCache) (hash : bytes) : option HeaderMerkleCache :=
  match levels cache with
  | [] => None
  | leaves :: above =>
      let leaves := leaves ++ [hash] in
      above ← append_loop (length leaves) leaves above;
      Some {| levels := leaves :: above;
              checkpoint := sat_add 32 (checkpoint cache) 1;
              checkpoint_hash := hash |}
  end.

(** [levels.iter().take_while(|layer| layer.len() > 1)] *)
Fixpoint proof_branch (levels : list (list bytes)) (index : Z) : list bytes :=
  match levels with
  | layer :: levels =>
      if 1 <? zlen layer
      then hash_at layer (sibling layer index) :: proof_branch levels (index / 2)
      else []
  | [] => []
  end.

Definition proof (cache : HeaderMerkleCache) (height : Z)
  : result HeaderProofError (list bytes * bytes) :=
  let index := height in
  let? leaves := ok_or (head (levels cache)) NoLeaves in
  check? index <? zlen leaves else HeightExceedsCheckpoint in
  let branch := proof_branch (levels cache) index in
  let? root := ok_or (layer ← list.last (levels cache); head layer) NoRoot in
  Ok (branch, root).

Definition header_merkle_proof_from_hashes (hashes : list bytes) (height : Z)
  : result HeaderProofError (list bytes * bytes) :=
  match hashes with
  | [] => Err EmptyHeaderProof
  | _ =>
      check? height <? zlen hashes else HeightExceedsCheckpoint in
      match branch_loop (S (length hashes)) hashes height with
      | Some (branch, layer) => Ok (branch, hash_at layer 0)
      | None => Err NoRoot
      end
  end.

(** The heights [first ..= last] of an extension. *)
Fixpoint append_hashes (cache : HeaderMerkleCache) (hashes : list bytes) : option HeaderMerkleCache :=
  match hashes with
  | [] => Some cache
  | hash :: hashes => cache ← append_hash cache hash; append_hashes cache hashes
  end.

(** [ChainState::header_merkle_proof] on the block hashes of [self.headers]
    and the cache behind its lock: the answer and the new cache. *)
Definition header_merkle_proof (headers : list bytes) (cache : option HeaderMerkleCache)
    (height checkpoint_height : Z)
  : result HeaderProofError (list bytes * bytes) * option HeaderMerkleCache :=
  if checkpoint_height <? height then (Err CheckpointBeforeHeight, cache)
  else
    match zget headers checkpoint_height with
    | None => (Err CheckpointOutOfRange, cache)
    | Some hash =>
        let can_extend :=
          match cache with
          | Some cached =>
              (checkpoint cached <? checkpoint_height) &&
              bool_decide (zget headers (checkpoint cached) = Some (checkpoint_hash cached))
          | None => false
          end in
        let reuse :=
          match cache with
          | Some cached =>
              (checkpoint cached =? checkpoint_height) &&
              bool_decide (checkpoint_hash cached = hash)
          | None => false
          end in
        let updated :=
          if negb reuse && negb can_extend then
            from_hashes hash checkpoint_height (ztake (checkpoint_height + 1) headers)
          else
            match cache with
            | None => Err EmptyHeaderProof
            | Some cached =>
                if can_extend then
                  let first := sat_add 32 (checkpoint cached) 1 in
                  ok_or (append_hashes cached (slice headers first (checkpoint_height + 1)))
                    NoLeaves
                else Ok cached
            end in
        match updated with
        | Err e => (Err e, cache)
        | Ok cached => (proof cached height, Some cached)
        end
    end.

(** ** Layers *)

Lemma zlen_next_layer l : zlen (next_layer l) = (zlen l + 1) / 2.
Proof.
  induction l as [|a|a b l IH] using list_pair_ind; [done..|].
  cbn [next_layer]. rewrite !zlen_cons, IH. dlia.
Qed.

Lemma next_layer_nonempty l : l <> [] -> next_layer l <> [].
Proof. by destruct l as [|a [|b l]]. Qed.

Lemma next_layer_mutated_fst l m : fst (next_layer_mutated l m) = next_layer l.
Proof.
  revert m. induction l as [|a|a b l IH] using list_pair_ind; intros m; [done..|].
  cbn [next_layer_mutated next_layer].
  match goal with |- context [next_layer_mutated l ?m'] => specialize (IH m') end.
  destruct (next_layer_mutated l _) as [n m']. simpl in *. by rewrite IH.
Qed.

Lemma hash_at_cons a l i : 0 < i -> hash_at (a :: l) i = hash_at l (i - 1).
Proof.
  intros Hi. unfold hash_at, zget. bfalse (i <? 0). bfalse (i - 1 <? 0).
  replace (Z.to_nat i) with (S (Z.to_nat (i - 1))) by lia. done.
Qed.

(** The parent of the pair of [index]: the hash at [index] on its own side,
    the sibling on the other. *)
Definition join (index : Z) (hash other : bytes) : bytes :=
  if index mod 2 =? 0 then combine_hashes hash other else combine_hashes other hash.

Lemma parent_hash (l : list bytes) i :
  0 <= i < zlen l ->
  hash_at (next_layer l) (i / 2) = join i (hash_at l i) (hash_at l (sibling l i)).
Proof.
  revert i. induction l as [|a|a b l IH] using list_pair_ind; intros i Hi.
  - unfold zlen in Hi. simpl in Hi. lia.
  - assert (i = 0) as -> by (unfold zlen in Hi; simpl in Hi; lia). done.
  - rewrite !zlen_cons in Hi. destruct (Z.ltb_spec i 2) as [Hlt|Hge].
    + assert (i = 0 \/ i = 1) as [-> | ->] by lia; unfold join, sibling; rewrite !zlen_cons;
        [change (Z.lxor 0 1) with 1|change (Z.lxor 1 1) with 0];
        pose proof (zlen_nonneg l); [btrue (1 <? 1 + (1 + zlen l))|btrue (0 <? 1 + (1 + zlen l))]; done.
    + assert (hash_at (next_layer (a :: b :: l)) (i / 2) = hash_at (next_layer l) ((i - 2) / 2)) as ->.
      { cbn [next_layer]. rewrite hash_at_cons by dlia. f_equal. dlia. }
      rewrite IH by lia.
      assert (sibling (a :: b :: l) i = sibling l (i - 2) + 2) as ->.
      { unfold sibling. rewrite !zlen_cons.
        assert (Z.lxor i 1 = Z.lxor (i - 2) 1 + 2) as ->.
        { assert (i = 2 * (i / 2) \/ i = 2 * (i / 2) + 1) as [E|E] by dlia; rewrite E.
          - replace (2 * (i / 2) - 2) with (2 * (i / 2 - 1)) by lia. rewrite !lxor_1_even. lia.
          - replace (2 * (i / 2) + 1 - 2) with (2 * (i / 2 - 1) + 1) by lia.
            rewrite !lxor_1_odd. lia. }
        destruct (Z.ltb_spec (Z.lxor (i - 2) 1) (zlen l));
          [btrue (Z.lxor (i - 2) 1 + 2 <? 1 + (1 + zlen l))
          |bfalse (Z.lxor (i - 2) 1 + 2 <? 1 + (1 + zlen l))]; lia. }
      assert (0 <= sibling l (i - 2)).
      { unfold sibling. destruct (_ <? _); [|lia]. apply Z.lxor_nonneg. lia. }
      rewrite !(hash_at_cons a), !(hash_at_cons b) by lia. unfold join.
      replace ((i - 2) mod 2) with (i mod 2) by dlia.
      by replace (i - 1 - 1) with (i - 2) by lia;
        replace (sibling l (i - 2) + 2 - 1 - 1) with (sibling l (i - 2)) by lia.
Qed.

(** The root as a relation: a layer of one hash, or the root of the next. *)
Inductive reduces : list bytes -> bytes -> Prop :=
| reduces_one r : reduces [r] r
| reduces_step (l : list bytes) r : 1 < zlen l -> reduces (next_layer l) r -> reduces l r.

Lemma reduces_fun l r r' : reduces l r -> reduces l r' -> r = r'.
Proof.
  intros H. revert r'. induction H as [r|l r Hl _ IH]; intros r' H'; inversion H'; subst;
    try (unfold zlen in *; simpl in *; lia); auto.
Qed.

(** The number of rounds: a layer with at most [fuel] hashes is done in
    [fuel] rounds. *)
Lemma next_layer_fuel (l : list bytes) fuel :
  1 < zlen l -> (length l <= S fuel)%nat -> (length (next_layer l) <= fuel)%nat.
Proof. intros Hl Hf. pose proof (zlen_next_layer l) as H. unfold zlen in *. dlia. Qed.

Lemma one_hash (l : list bytes) : l <> [] -> zlen l <= 1 -> exists r, l = [r].
Proof. destruct l as [|a [|b l]]; unfold zlen; simpl; intros; [done|eauto|lia]. Qed.

Lemma root_loop_total fuel l m :
  l <> [] -> (length l <= fuel)%nat ->
  exists r m', root_loop fuel l m = Some ([r], m') /\ reduces l r.
Proof.
  revert l m. induction fuel as [|fuel IH]; intros l m Hne Hf.
  { destruct l; [done|simpl in Hf; lia]. }
  cbn [root_loop]. destruct (Z.ltb_spec 1 (zlen l)) as [Hl|Hl].
  - destruct (next_layer_mutated l m) as [n m1] eqn:E.
    pose proof (next_layer_mutated_fst l m) as Hn. rewrite E in Hn. simpl in Hn. subst n.
    destruct (IH (next_layer l) m1) as (r & m' & Hr & Hred);
      [by apply next_layer_nonempty|by apply next_layer_fuel|].
    exists r, m'. split; [done|by constructor 2].
  - destruct (one_hash l Hne Hl) as [r ->]. exists r, m. split; [done|constructor].
Qed.

(** ** Branches *)

(** What a client does with a branch: hash its way up from the leaf. *)
Fixpoint fold_branch (hash : bytes) (index : Z) (branch : list bytes) : bytes :=
  match branch with
  | [] => hash
  | other :: branch => fold_branch (join index hash other) (index / 2) branch
  end.

Lemma branch_loop_total fuel (l : list bytes) i :
  0 <= i < zlen l -> (length l <= fuel)%nat ->
  exists branch r, branch_loop fuel l i = Some (branch, [r]) /\ reduces l r /\
    fold_branch (hash_at l i) i branch = r.
Proof.
  revert l i. induction fuel as [|fuel IH]; intros l i Hi Hf.
  { unfold zlen in Hi. lia. }
  cbn [branch_loop]. destruct (Z.ltb_spec 1 (zlen l)) as [Hl|Hl].
  - destruct (IH (next_layer l) (i / 2)) as (branch & r & -> & Hred & Hfold).
    { rewrite zlen_next_layer. dlia. }
    { by apply next_layer_fuel. }
    cbn [mbind option_bind]. do 2 eexists. split; [done|]. split; [by constructor 2|].
    cbn [fold_branch]. by rewrite <- parent_hash.
  - assert (l <> []) as Hne by (destruct l; [unfold zlen in Hi; simpl in Hi; lia|done]).
    destruct (one_hash l Hne Hl) as [r ->]. exists [], r. split; [done|]. split; [constructor|].
    assert (i = 0) as -> by (unfold zlen in Hi; simpl in Hi; lia). done.
Qed.

(** The branch of every transaction leads from its id to the Merkle root
    that block validation computes: hashing up from leaf [i] along
    [merkle_branch_for_transactions] yields the root of
    [merkle_root_and_mutated_txid]. *)
Theorem merkle_branch_leads_to_root txids i :
  0 <= i < zlen txids ->
  exists branch root,
    merkle_branch_for_transactions txids i = Some branch /\
    fst (merkle_root_and_mutated_txid txids) = Some root /\
    fold_branch (hash_at txids i) i branch = root.
Proof.
  intros Hi. unfold merkle_branch_for_transactions, merkle_root_and_mutated_txid.
  destruct (branch_loop_total (S (length txids)) txids i Hi) as (branch & r & -> & Hr & Hf); [lia|].
  destruct txids as [|t txids]; [unfold zlen in Hi; simpl in Hi; lia|].
  destruct (root_loop_total (length (t :: txids)) (t :: txids) None) as (r' & m & -> & Hr'); [done|lia|].
  exists branch, r. rewrite (reduces_fun _ _ _ Hr Hr') in *. done.
Qed.

(** ** The tree of header hashes *)

(** The levels of the full tree over [l]. *)
Inductive tree : list bytes -> list (list bytes) -> Prop :=
| tree_one r : tree [r] [[r]]
| tree_step (l : list bytes) ls : 1 < zlen l -> tree (next_layer l) ls -> tree l (l :: ls).

Lemma tree_head l ls : tree l ls -> exists above, ls = l :: above.
Proof. destruct 1; eauto. Qed.

Lemma tree_nonempty l ls : tree l ls -> 0 < zlen l.
Proof. destruct 1; unfold zlen in *; simpl; lia. Qed.

Lemma build_levels_tree fuel l :
  l <> [] -> (length l <= fuel)%nat -> exists ls, build_levels fuel l = Some ls /\ tree l ls.
Proof.
  revert l. induction fuel as [|fuel IH]; intros l Hne Hf.
  { destruct l; [done|simpl in Hf; lia]. }
  cbn [build_levels]. destruct (Z.ltb_spec 1 (zlen l)) as [Hl|Hl].
  - destruct (IH (next_layer l)) as (ls & -> & Ht);
      [by apply next_layer_nonempty|by apply next_layer_fuel|].
    eexists. split; [done|]. by constructor 2.
  - destruct (one_hash l Hne Hl) as [r ->]. eexists. split; [done|]. constructor.
Qed.

(** The proof read off the levels is the one computed from the leaves. *)
Lemma tree_proof l ls i fuel :
  tree l ls -> 0 <= i < zlen l -> (length l <= fuel)%nat ->
  exists branch r, branch_loop fuel l i = Some (branch, [r]) /\
    proof_branch ls i = branch /\ list.last ls = Some [r].
Proof.
  intros Ht. revert i fuel. induction Ht as [r|l ls Hl Ht IH]; intros i fuel Hi Hf.
  - destruct fuel; [simpl in Hf; lia|]. exists [], r. done.
  - destruct fuel as [|fuel]; [unfold zlen in Hl; lia|]. cbn [branch_loop proof_branch].
    btrue (1 <? zlen l).
    destruct (IH (i / 2) fuel) as (branch & r & -> & -> & Hlast).
    { rewrite zlen_next_layer. dlia. }
    { by apply next_layer_fuel. }
    do 2 eexists. split; [done|]. split; [done|]. rewrite last_cons. by rewrite Hlast.
Qed.

(** *** Appending a leaf

    From one level to the next, the new level agrees with the old one up to
    an even prefix, after which the old has at most two and the new one or
    two hashes. *)
Definition bump (old new : list bytes) : Prop :=
  exists n0 s t, old = n0 ++ s /\ new = n0 ++ t /\ zlen n0 mod 2 = 0 /\
    zlen s <= zlen t /\ 1 <= zlen t <= 2.

Lemma next_layer_app n0 t : zlen n0 mod 2 = 0 -> next_layer (n0 ++ t) = next_layer n0 ++ next_layer t.
Proof.
  induction n0 as [|a|a b n0 IH] using list_pair_ind; intros H; [done|done|].
  cbn [next_layer app]. rewrite IH; [done|]. rewrite !zlen_cons in H. dlia.
Qed.

Lemma next_layer_short t : zlen t <= 2 -> zlen (next_layer t) = Z.min 1 (zlen t).
Proof. intros H. rewrite zlen_next_layer. pose proof (zlen_nonneg t). dlia. Qed.

Lemma hash_at_app n0 t i : 0 <= i -> hash_at (n0 ++ t) (zlen n0 + i) = hash_at t i.
Proof.
  intros Hi. unfold hash_at, zget. pose proof (zlen_nonneg n0).
  bfalse (zlen n0 + i <? 0). bfalse (i <? 0). unfold zlen.
  rewrite lookup_app_r by lia. repeat f_equal. lia.
Qed.

(** The round of the loop computes the next level of the new tree. *)
Lemma update_level_next n0 t cur :
  zlen n0 mod 2 = 0 -> 1 <= zlen t <= 2 ->
  cur = next_layer n0 \/ (exists p, cur = next_layer n0 ++ [p]) ->
  update_level (n0 ++ t) cur = next_layer (n0 ++ t).
Proof.
  intros H0 Ht Hcur. rewrite next_layer_app by done. unfold update_level.
  set (parent := if _ =? 0 then _ else _).
  assert (next_layer t = [parent]) as ->.
  { unfold parent. rewrite zlen_app.
    destruct t as [|x [|y [|]]]; unfold zlen in Ht; simpl in Ht; try lia; cbn [next_layer];
      rewrite ?zlen_cons, zlen_nil.
    - replace ((zlen n0 + (1 + 0)) mod 2) with 1 by dlia.
      replace (zlen n0 + (1 + 0) - 1) with (zlen n0 + 0) by lia. by rewrite hash_at_app by lia.
    - replace ((zlen n0 + (1 + (1 + 0))) mod 2) with 0 by dlia.
      replace (zlen n0 + (1 + (1 + 0)) - 2) with (zlen n0 + 0) by lia.
      replace (zlen n0 + (1 + (1 + 0)) - 1) with (zlen n0 + 1) by lia.
      by rewrite !hash_at_app by lia. }
  pose proof (zlen_next_layer n0) as Hn. rewrite zlen_app.
  destruct Hcur as [->|[p ->]].
  - btrue (zlen (next_layer n0) <? (zlen n0 + zlen t + 1) / 2). done.
  - rewrite zlen_app. zlen. bfalse (zlen (next_layer n0) + (1 + 0) <? (zlen n0 + zlen t + 1) / 2).
    by rewrite removelast_last.
Qed.

Lemma short_list (l : list bytes) : zlen l <= 1 -> l = [] \/ exists p, l = [p].
Proof. destruct l as [|a [|]]; unfold zlen; simpl; intros; eauto; lia. Qed.

Lemma bump_next old new : bump old new -> bump (next_layer old) (next_layer new).
Proof.
  intros (n0 & s & t & -> & -> & H0 & Hst & Ht). rewrite !next_layer_app by done.
  pose proof (zlen_nonneg s).
  pose proof (next_layer_short s ltac:(lia)). pose proof (next_layer_short t ltac:(lia)).
  destruct (Z.eqb_spec (zlen (next_layer n0) mod 2) 0) as [He|Ho].
  - exists (next_layer n0), (next_layer s), (next_layer t). repeat split; try done; lia.
  - assert (next_layer n0 <> []) as Hne by (intros E; by rewrite E in Ho).
    destruct (exists_last Hne) as (m & q & Hm). rewrite Hm, <- !app_assoc.
    rewrite Hm, zlen_app in Ho. zlen.
    exists m, ([q] ++ next_layer s), ([q] ++ next_layer t).
    rewrite !(zlen_app [q]). zlen. repeat split; try done; try lia; dlia.
Qed.

Lemma bump_append l h : bump l (l ++ [h]).
Proof.
  destruct (Z.eqb_spec (zlen l mod 2) 0) as [He|Ho].
  - exists l, [], [h]. rewrite app_nil_r. zlen. repeat split; try done; lia.
  - assert (l <> []) as Hne by (intros ->; by apply Ho).
    destruct (exists_last Hne) as (m & q & ->). rewrite zlen_app in Ho. zlen.
    exists m, [q], [q; h]. rewrite <- app_assoc. zlen. repeat split; try done; try lia; dlia.
Qed.

Lemma bump_update old new : bump old new -> update_level new (next_layer old) = next_layer new.
Proof.
  intros (n0 & s & t & -> & -> & H0 & Hst & Ht). apply update_level_next; [done|lia|].
  rewrite next_layer_app by done. pose proof (zlen_nonneg s).
  pose proof (next_layer_short s ltac:(lia)).
  destruct (short_list (next_layer s)) as [-> |[p ->]]; [lia|left; by rewrite app_nil_r|eauto].
Qed.

Lemma bump_zlen old new : bump old new -> zlen old <= zlen new.
Proof. intros (n0 & s & t & -> & -> & H). rewrite !zlen_app. lia. Qed.

(** Below two leaves there is no level above the leaves. *)
Lemma bump_first r new :
  bump [r] new -> 1 < zlen new -> update_level new [] = next_layer new /\ zlen (next_layer new) = 1.
Proof.
  intros (n0 & s & t & E & -> & H0 & Hst & Ht) Hn.
  destruct n0 as [|a [|b n0]]; [|done|].
  { split; [|rewrite next_layer_short by (rewrite app_nil_l; lia); rewrite app_nil_l; lia].
    apply update_level_next; [done|lia|by left]. }
  apply (f_equal zlen) in E. rewrite !zlen_app, !zlen_cons, zlen_nil in E.
  pose proof (zlen_nonneg n0). pose proof (zlen_nonneg s). lia.
Qed.

Lemma append_loop_tree old above new fuel :
  tree old (old :: above) -> bump old new -> 1 < zlen new -> (length new <= fuel)%nat ->
  exists above', append_loop fuel new above = Some above' /\ tree new (new :: above').
Proof.
  remember (old :: above) as ls eqn:E. intros Ht. revert above E new fuel.
  induction Ht as [r|l ls Hl Ht IH]; intros above [= <-] new fuel Hb Hn Hf.
  - destruct fuel as [|fuel]; [unfold zlen in Hn; lia|]. cbn [append_loop].
    destruct (bump_first r new Hb Hn) as [-> H1]. rewrite (proj2 (Z.eqb_eq _ _) H1).
    destruct (one_hash (next_layer new)) as [p Hp]; [by intros E; rewrite E in H1|lia|].
    rewrite Hp. eexists. split; [done|]. constructor; [done|]. rewrite Hp. constructor.
  - destruct fuel as [|fuel]; [unfold zlen in Hn; lia|]. cbn [append_loop].
    destruct (tree_head _ _ Ht) as [above2 ->]. rewrite (bump_update l) by done.
    pose proof (next_layer_fuel new fuel Hn Hf).
    destruct (bool_decide (above2 = []) && _) eqn:E; bool_to_prop.
    + destruct (one_hash (next_layer new)) as [p Hp]; [|lia|].
      { intros E. rewrite E in *. done. }
      rewrite Hp. eexists. split; [done|]. constructor; [done|]. rewrite Hp. constructor.
    + destruct (IH above2 eq_refl (next_layer new) fuel) as (above' & -> & Ht');
        [by apply bump_next| |done|eexists; split; [done|by constructor 2]].
      apply bump_next, bump_zlen in Hb. apply andb_false_iff in E as [E|E]; bool_to_prop.
      * inversion Ht; subst; done || lia.
      * rewrite zlen_next_layer in *. dlia.
Qed.

Lemma append_hash_tree c l h :
  tree l (levels c) ->
  exists c', append_hash c h = Some c' /\ tree (l ++ [h]) (levels c') /\
    checkpoint c' = sat_add 32 (checkpoint c) 1 /\ checkpoint_hash c' = h.
Proof.
  intros Ht. destruct (tree_head _ _ Ht) as [above E]. rewrite E in Ht. unfold append_hash. rewrite E.
  destruct (append_loop_tree l above (l ++ [h]) (length (l ++ [h])) Ht) as (above' & -> & Ht').
  - apply bump_append.
  - apply tree_nonempty in Ht. rewrite zlen_app. zlen. lia.
  - done.
  - eexists. split; [done|]. done.
Qed.

(** *** The cached proofs *)

Lemma proof_tree c l h :
  tree l (levels c) -> 0 <= h < zlen l -> proof c h = header_merkle_proof_from_hashes l h.
Proof.
  intros Ht Hh. unfold proof, header_merkle_proof_from_hashes.
  destruct (tree_proof l _ h (S (length l)) Ht Hh) as (branch & r & Hb & Hp & Hlast); [lia|].
  rewrite Hb, Hp, Hlast. destruct (tree_head _ _ Ht) as [above ->].
  destruct l as [|x l]; [unfold zlen in Hh; simpl in Hh; lia|].
  cbn [list.head ok_or rbind mbind option_bind]. btrue (h <? zlen (x :: l)). done.
Qed.

Section HeaderChain.
(** The header chains the node goes through: every block hash determines the
    hashes below it, and heights fit 32 bits. *)
Variable chain : list bytes -> Prop.
Hypothesis chain_linked : forall hs hs' i x,
  chain hs -> chain hs' -> zget hs i = Some x -> zget hs' i = Some x ->
  ztake (i + 1) hs = ztake (i + 1) hs'.
Hypothesis chain_short : forall hs, chain hs -> zlen hs < 2 ^ 32.

(** The cache holds the tree of a prefix of one of the chains. *)
Definition cache_ok (c : HeaderMerkleCache) : Prop :=
  exists hs, chain hs /\ zget hs (checkpoint c) = Some (checkpoint_hash c) /\
    tree (ztake (checkpoint c + 1) hs) (levels c).

(** The proof computed from the headers alone. *)
Definition header_proof_spec (headers : list bytes) (height checkpoint_height : Z)
  : result HeaderProofError (list bytes * bytes) :=
  if checkpoint_height <? height then Err CheckpointBeforeHeight
  else match zget headers checkpoint_height with
  | None => Err CheckpointOutOfRange
  | Some _ => header_merkle_proof_from_hashes (ztake (checkpoint_height + 1) headers) height
  end.

(** Extending the cache hash by hash reaches the tree of the longer prefix. *)
Lemma append_hashes_tree hs n c k :
  chain hs -> Z.of_nat n = k - checkpoint c -> k < zlen hs -> 0 <= checkpoint c ->
  zget hs (checkpoint c) = Some (checkpoint_hash c) ->
  tree (ztake (checkpoint c + 1) hs) (levels c) ->
  exists c', append_hashes c (slice hs (checkpoint c + 1) (k + 1)) = Some c' /\
    checkpoint c' = k /\ zget hs k = Some (checkpoint_hash c') /\
    tree (ztake (k + 1) hs) (levels c').
Proof.
  intros Hc. pose proof (chain_short hs Hc). revert c. induction n as [|n IH]; intros c Hn Hk H0 Hh Ht.
  - replace k with (checkpoint c) by lia. unfold slice. rewrite Z.sub_diag. exists c. done.
  - assert (exists x, zget hs (checkpoint c + 1) = Some x) as [x Hx].
    { unfold zget. bfalse (checkpoint c + 1 <? 0). apply lookup_lt_is_Some. unfold zlen in *. lia. }
    assert (slice hs (checkpoint c + 1) (k + 1) = x :: slice hs (checkpoint c + 1 + 1) (k + 1)) as ->.
    { unfold slice, ztake. unfold zdrop. unfold zget in Hx. bfalse (checkpoint c + 1 <? 0) in Hx.
      rewrite (drop_S _ _ _ Hx).
      replace (Z.to_nat (k + 1 - (checkpoint c + 1))) with (S (Z.to_nat (k + 1 - (checkpoint c + 1 + 1)))) by lia.
      cbn [take]. do 3 f_equal. lia. }
    cbn [append_hashes].
    destruct (append_hash_tree c _ x Ht) as (c1 & -> & Ht1 & Hcp & Hch). cbn [mbind option_bind].
    unfold sat_add, umax in Hcp. rewrite Z.min_l in Hcp by lia. rewrite <- Hcp.
    rewrite <- ztake_snoc in Ht1 by done. rewrite <- Hcp in Ht1.
    apply IH; rewrite ?Hcp in *; rewrite ?Hch; done || lia.
Qed.

Lemma from_hashes_ok headers cp hash :
  chain headers -> zget headers cp = Some hash ->
  exists c, from_hashes hash cp (ztake (cp + 1) headers) = Ok c /\ checkpoint c = cp /\
    checkpoint_hash c = hash /\ tree (ztake (cp + 1) headers) (levels c).
Proof.
  intros Hc Hcp. pose proof (zget_range _ _ _ Hcp). set (l := ztake (cp + 1) headers).
  assert (zlen l = cp + 1) as Hl by (apply zlen_ztake; lia).
  destruct (build_levels_tree (length l) l) as (ls & Hls & Ht); [|done|].
  { intros E. rewrite E in Hl. unfold zlen in Hl. simpl in Hl. lia. }
  unfold from_hashes. rewrite Hls. destruct l as [|x l]; [unfold zlen in Hl; simpl in Hl; lia|].
  eexists. split; [done|]. done.
Qed.

(** A cache with the tree of the wanted prefix answers like the
    recomputation. *)
Lemma proof_prefix headers c h cp :
  0 <= h <= cp -> cp < zlen headers -> tree (ztake (cp + 1) headers) (levels c) ->
  proof c h = header_merkle_proof_from_hashes (ztake (cp + 1) headers) h.
Proof. intros Hh Hcp Ht. apply proof_tree; [done|]. rewrite zlen_ztake by lia. lia. Qed.

Lemma header_merkle_proof_step headers cache h cp :
  chain headers -> (forall c, cache = Some c -> cache_ok c) -> 0 <= h ->
  fst (header_merkle_proof headers cache h cp) = header_proof_spec headers h cp /\
  forall c, snd (header_merkle_proof headers cache h cp) = Some c -> cache_ok c.
Proof.
  intros Hc Hok Hh. unfold header_merkle_proof, header_proof_spec.
  destruct (Z.ltb_spec cp h); [done|]. destruct (zget headers cp) as [hash|] eqn:Hcp; [|done].
  pose proof (zget_range _ _ _ Hcp) as Hr. pose proof (chain_short _ Hc) as Hs.
  (* the updated cache holds the tree of the wanted prefix *)
  match goal with |- context [match ?u with Ok _ => _ | Err _ => _ end] => set (updated := u) end.
  enough (exists c, updated = Ok c /\ checkpoint c = cp /\ checkpoint_hash c = hash /\
    tree (ztake (cp + 1) headers) (levels c)) as (c & -> & <- & <- & Ht).
  { simpl. split; [apply proof_prefix; done || lia|]. intros c' [= <-]. by exists headers. }
  unfold updated. destruct (_ && _) eqn:E at 1; [by apply from_hashes_ok|].
  destruct cache as [c|]; [|done]. destruct (Hok c eq_refl) as (hs & Hchs & Hhs & Ht).
  pose proof (zget_range _ _ _ Hhs). destruct ((checkpoint c <? cp) && _) eqn:Eext.
  - bool_to_prop. unfold sat_add, umax. rewrite Z.min_l by lia.
    rewrite (chain_linked hs headers _ _ Hchs Hc Hhs) in Ht by done.
    destruct (append_hashes_tree headers (Z.to_nat (cp - checkpoint c)) c cp)
      as (c' & -> & Hcp' & Hh' & Ht'); try done; try lia.
    exists c'. split; [done|]. split; [done|]. split; [congruence|done].
  - rewrite andb_true_r in E. bool_to_prop. subst cp hash. exists c. split; [done|].
    do 2 (split; [done|]). by rewrite (chain_linked hs headers _ _ Hchs Hc Hhs) in Ht.
Qed.

(** A request: the headers of the moment, the height and the checkpoint. *)
Fixpoint header_proof_session (cache : option HeaderMerkleCache) (requests : list (list bytes * Z * Z))
  : list (result HeaderProofError (list bytes * bytes)) :=
  match requests with
  | [] => []
  | (headers, height, cp) :: requests =>
      let '(answer, cache) := header_merkle_proof headers cache height cp in
      answer :: header_proof_session cache requests
  end.

(** C31: the header-proof cache is invisible.  Over any sequence of requests,
    with reorganizations of the header chain between them, every answer of
    [header_merkle_proof] - rebuilt, extended hash by hash or reused - is the
    branch and root computed from scratch on the current headers. *)
Theorem header_merkle_proof_refines requests :
  Forall (fun '(headers, height, _) => chain headers /\ 0 <= height) requests ->
  header_proof_session None requests =
  map (fun '(headers, height, cp) => header_proof_spec headers height cp) requests.
Proof.
  intros Hreq. assert (forall c, @None HeaderMerkleCache = Some c -> cache_ok c) as Hok by done.
  revert Hok. generalize (@None HeaderMerkleCache) as cache.
  induction Hreq as [|[[headers h] cp] requests [Hc Hh] _ IH]; intros cache Hok; [done|].
  cbn [header_proof_session map].
  destruct (header_merkle_proof_step headers cache h cp Hc Hok Hh) as [Hans Hok'].
  destruct (header_merkle_proof headers cache h cp) as [answer cache']. simpl in *.
  by rewrite Hans, IH.
Qed.
End HeaderChain.

(** ** Mutation detection *)

Fixpoint no_equal_pairs (layer : list bytes) : Prop :=
  match layer with
  | l :: r :: rest => l <> r /\ no_equal_pairs rest
  | _ => True
  end.

Lemma next_layer_mutated_None l m :
  snd (next_layer_mutated l m) = None -> m = None /\ no_equal_pairs l.
Proof.
  revert m. induction l as [|a|a b l IH] using list_pair_ind; intros m; [done..|].
  cbn [next_layer_mutated no_equal_pairs].
  match goal with |- context [next_layer_mutated l ?m'] => specialize (IH m') end.
  destruct (next_layer_mutated l _) as [n m']. simpl in *. intros H.
  destruct (IH H) as [Hm Hl]. destruct (decide (a = b)), m; try done.
  all: rewrite ?bool_decide_eq_true_2 in Hm by done; rewrite ?bool_decide_eq_false_2 in Hm by done; done.
Qed.

Lemma root_loop_None fuel l m r : root_loop fuel l m = Some (r, None) -> m = None.
Proof.
  revert l m. induction fuel as [|fuel IH]; intros l m H; [done|]. cbn [root_loop] in H.
  destruct (1 <? zlen l); [|congruence]. destruct (next_layer_mutated l m) as [n m1] eqn:E.
  apply IH in H as ->. apply (next_layer_mutated_None l m). by rewrite E.
Qed.

(** A reduction in [h] rounds in which no layer pairs equal hashes. *)
Inductive clean : nat -> list bytes -> bytes -> Prop :=
| clean_one r : clean 0 [r] r
| clean_step h (l : list bytes) r :
    1 < zlen l -> no_equal_pairs l -> clean h (next_layer l) r -> clean (S h) l r.

Lemma root_loop_clean fuel l m r :
  root_loop fuel l m = Some (r, None) -> l <> [] -> exists h r0, r = [r0] /\ clean h l r0.
Proof.
  revert l m. induction fuel as [|fuel IH]; intros l m H Hne; [done|].
  cbn [root_loop] in H. destruct (Z.ltb_spec 1 (zlen l)) as [Hl|Hl].
  - destruct (next_layer_mutated l m) as [n m1] eqn:E.
    pose proof (next_layer_mutated_fst l m) as Hn. rewrite E in Hn. simpl in Hn. subst n.
    destruct (IH _ _ H) as (h & r0 & Hr & Hc); [by apply next_layer_nonempty|].
    apply root_loop_None in H as ->.
    exists (S h), r0. split; [done|]. constructor; [done| |done].
    apply (next_layer_mutated_None l m). by rewrite E.
  - injection H as <- ->. destruct (one_hash l Hne Hl) as [r ->]. exists 0%nat, r. split; [done|constructor].
Qed.

Section Commitment.
(** From here on a hash has 32 bytes. *)
Hypothesis sha256d_length : forall x, length (sha256d x) = 32%nat.
Abbreviation hash32 := (Forall (fun h : bytes => length h = 32%nat)).
Definition sha256d_collision : Prop := exists x y, x <> y /\ sha256d x = sha256d y.

Lemma combine_inj a b c d :
  length a = 32%nat -> length c = 32%nat ->
  combine_hashes a b = combine_hashes c d -> (a = c /\ b = d) \/ sha256d_collision.
Proof.
  intros Ha Hc H. destruct (decide (a ++ b = c ++ d)) as [E|E].
  - left. apply app_inj_1 in E; [done|congruence].
  - right. by exists (a ++ b), (c ++ d).
Qed.

Lemma next_layer_hash32 l : hash32 (next_layer l).
Proof.
  induction l as [|a|a b l IH] using list_pair_ind; simpl; repeat constructor;
    done || apply sha256d_length.
Qed.

Lemma next_layer_inj l l' :
  hash32 l -> hash32 l' -> no_equal_pairs l -> no_equal_pairs l' ->
  next_layer l = next_layer l' -> l = l' \/ sha256d_collision.
Proof.
  revert l'. induction l as [|a|a b l IH] using list_pair_ind; intros [|a' [|b' l']] Hl Hl' Hn Hn' H;
    try done; try (left; done); cbn [next_layer] in H; simpl in Hn, Hn';
    repeat match goal with H : hash32 (_ :: _) |- _ => inversion_clear H end.
  - injection H as H. apply combine_inj in H as [[-> _]|]; auto.
  - injection H as H _. apply combine_inj in H as [[-> ->]|]; auto. by destruct Hn'.
  - injection H as H _. apply combine_inj in H as [[-> ->]|]; auto. by destruct Hn.
  - injection H as H Hr. destruct Hn, Hn'.
    apply combine_inj in H as [[-> ->]|]; auto. edestruct (IH l') as [-> |]; auto.
Qed.

Lemma clean_inj h l l' r :
  hash32 l -> hash32 l' -> clean h l r -> clean h l' r -> l = l' \/ sha256d_collision.
Proof.
  intros Hl Hl' H. revert l' Hl Hl'.
  induction H as [r|h l r Hlen Hn H IH]; intros l' Hl Hl' H'; inversion_clear H'; [by left|].
  destruct (IH (next_layer l')) as [E|]; auto using next_layer_hash32.
  by apply next_layer_inj.
Qed.

Lemma clean_drop k h l r :
  hash32 l -> clean (S k + h) l r -> exists l0, clean h (next_layer l0) r /\ l0 <> [].
Proof.
  revert l. induction k as [|k IH]; intros l Hl H; inversion_clear H as [|? ? ? Hlen Hn Hc].
  - exists l. split; [done|]. intros ->. unfold zlen in Hlen. simpl in Hlen. lia.
  - apply (IH (next_layer l)); [apply next_layer_hash32|done].
Qed.

(** One tree deeper than the other: a leaf of the shallow tree is the hash of
    two others. *)
Lemma clean_deeper k h l l' r :
  hash32 l -> hash32 l' -> clean h l r -> clean (S k + h) l' r ->
  sha256d_collision \/ exists a b, combine_hashes a b ∈ l.
Proof.
  intros Hl Hl' H H'. destruct (clean_drop k h l' r Hl' H') as (l0 & Hc & Hne).
  destruct (clean_inj h l (next_layer l0) r) as [-> |]; auto using next_layer_hash32.
  right. destruct l0 as [|a [|b l0]]; [done|exists a, a|exists a, b]; cbn [next_layer]; set_solver.
Qed.

Lemma root_clean l r :
  merkle_root_and_mutated_txid l = (Some r, None) -> exists h, clean h l r.
Proof.
  unfold merkle_root_and_mutated_txid. destruct l as [|t l]; [done|].
  destruct (root_loop _ _ _) as [[layer m]|] eqn:E; [|done]. intros [= <- ->].
  apply root_loop_clean in E as (h & r0 & -> & Hc); [|done]. by exists h.
Qed.

End Commitment.
End Merkle.

Lemma merkle_branch_leads_to_root_witness :
  exists branch root,
    merkle_branch_for_transactions id [[1]; [2]; [3]] 2 = Some branch /\
    fst (merkle_root_and_mutated_txid id [[1]; [2]; [3]]) = Some root /\
    fold_branch id (hash_at [[1]; [2]; [3]] 2) 2 branch = root.
Proof. apply (merkle_branch_leads_to_root id). vm_compute. split; congruence. Defined.

(** Two forks after the first header. *)
Definition example_chain (hs : list bytes) : Prop :=
  hs = [[0]; [1]; [2]] \/ hs = [[0]; [3]; [4]; [5]].

Lemma example_chain_linked hs hs' i x :
  example_chain hs -> example_chain hs' -> zget hs i = Some x -> zget hs' i = Some x ->
  ztake (i + 1) hs = ztake (i + 1) hs'.
Proof.
  intros [-> | ->] [-> | ->] H H'; try done.
  all: pose proof (zget_range _ _ _ H) as Hi; unfold zlen in Hi; simpl in Hi.
  all: assert (i = 0 \/ i = 1 \/ i = 2 \/ i = 3) as [-> |[-> |[-> | ->]]] by lia;
    first [done | vm_compute in H; vm_compute in H'; congruence].
Qed.

Lemma header_merkle_proof_refines_witness :
  header_proof_session id None
    [([[0]; [1]; [2]], 1, 1); ([[0]; [1]; [2]], 0, 2); ([[0]; [3]; [4]; [5]], 1, 3)] =
  [header_proof_spec id [[0]; [1]; [2]] 1 1; header_proof_spec id [[0]; [1]; [2]] 0 2;
   header_proof_spec id [[0]; [3]; [4]; [5]] 1 3].
Proof.
  apply (header_merkle_proof_refines id example_chain example_chain_linked).
  - intros hs [-> | ->]; vm_compute; reflexivity.
  - unfold example_chain. repeat constructor; auto; lia.
Defined.

(** A stand-in for the double SHA-256 with 32-byte results. *)
Definition example_sha256d (x : bytes) : bytes := take 32 (x ++ repeat 0 32).
Definition example_hash (b : Z) : bytes := repeat b 32.

Lemma example_sha256d_length x : length (example_sha256d x) = 32%nat.
Proof. unfold example_sha256d. rewrite length_take, length_app, repeat_length. lia. Qed.

