(* ===== verification/MerkleProof.v ===== *)
(** * Partial Merkle trees of the [gettxoutproof] / [verifytxoutproof] calls
    ([src/rpc.rs])

    The writer walks the tree of the block's transaction ids and emits one
    flag bit per visited node and the hashes of the nodes it does not open;
    the reader rebuilds the root and the list of proven ids.  The header
    codec (the [bitcoin] crate) and the double SHA-256 are parameters; the
    hex layer around the bytes is not modelled. *)

From Stdlib Require Import ZArith Lia.
From stdpp Require Import base list option.
From S2P Require Import Prelude Merkle.
Local Open Scope Z_scope.

(** [MAX_BLOCK_WEIGHT / (WITNESS_SCALE_FACTOR * 60)] *)
Definition MAX_MERKLE_PROOF_TRANSACTIONS : Z := 4000000 / (4 * 60).

Inductive ProofError :=
| InvalidProof
| InvalidTransactionCount
| InvalidHashCount
| InvalidFlagCount
| TooFewFlags
| TooFewHashes
| LengthOverflow
| Truncated
| NonCanonicalCount
| InvalidHeader
| NoTransactions.

(** ** The reader of the proof bytes: a buffer and a position *)

Definition read_bytes (buffer : bytes) (position length : Z) : result ProofError (bytes * Z) :=
  let? end_ := ok_or (checked_add 64 position length) LengthOverflow in
  let? b := ok_or (get_range buffer position end_) Truncated in
  Ok (b, end_).

Definition read_u32 (buffer : bytes) (position : Z) : result ProofError (Z * Z) :=
  let? '(b, position) := read_bytes buffer position 4 in
  Ok (from_le b, position).

Definition read_compact_size (buffer : bytes) (position : Z) : result ProofError (Z * Z) :=
  let? '(b, position) := read_bytes buffer position 1 in
  let prefix := zat b 0 in
  if prefix <=? 0xfc then Ok (prefix, position)
  else if prefix =? 0xfd then
    let? '(b, position) := read_bytes buffer position 2 in
    check? 0xfd <=? from_le b else NonCanonicalCount in
    Ok (from_le b, position)
  else if prefix =? 0xfe then
    let? '(b, position) := read_bytes buffer position 4 in
    check? 0xffff <? from_le b else NonCanonicalCount in
    Ok (from_le b, position)
  else
    let? '(b, position) := read_bytes buffer position 8 in
    check? 0xffffffff <? from_le b else NonCanonicalCount in
    Ok (from_le b, position).

Definition put_compact_size (value : Z) : bytes :=
  if value <? 0xfd then [value]
  else if value <=? 0xffff then 0xfd :: to_le 2 value
  else if value <=? 0xffffffff then 0xfe :: to_le 4 value
  else 0xff :: to_le 8 value.

(** The [for _ in 0..hash_count] loop. *)
Fixpoint read_hashes (buffer : bytes) (position : Z) (n : nat)
  : result ProofError (list bytes * Z) :=
  match n with
  | O => Ok ([], position)
  | S n =>
      let? '(hash, position) := read_bytes buffer position 32 in
      let? '(hashes, position) := read_hashes buffer position n in
      Ok (hash :: hashes, position)
  end.

(** ** The shape of the tree *)

Definition merkle_tree_width (total height : Z) : Z :=
  Z.shiftr (total + Z.shiftl 1 height - 1) height.

Fixpoint height_loop (fuel : nat) (total height : Z) : option Z :=
  match fuel with
  | O => None
  | S fuel =>
      if 1 <? merkle_tree_width total height then height_loop fuel total (height + 1)
      else Some height
  end.
(** A [usize] has 64 bits, so the width is at most one at height 64. *)
Definition merkle_tree_height (total : Z) : option Z := height_loop 65 total 0.

Section Proof.
Variable sha256d : bytes -> bytes.

(** [bits] and [hashes] in the order they are pushed. *)
Fixpoint collect_merkle_nodes (height : nat) (position total : Z)
    (levels : list (list bytes)) (matches : list bool) : list bool * list bytes :=
  let start := Z.shiftl position (Z.of_nat height) in
  let end_ := Z.min (sat_add 64 start (Z.shiftl 1 (Z.of_nat height))) total in
  let parent_match := existsb id (slice matches start end_) in
  match height with
  | O => ([parent_match], [hash_at (default [] (levels !! height)) position])
  | S h =>
      if negb parent_match
      then ([parent_match], [hash_at (default [] (levels !! height)) position])
      else
        let '(lbits, lhashes) := collect_merkle_nodes h (position * 2) total levels matches in
        let '(rbits, rhashes) :=
          if position * 2 + 1 <? merkle_tree_width total (Z.of_nat h)
          then collect_merkle_nodes h (position * 2 + 1) total levels matches
          else ([], []) in
        (parent_match :: lbits ++ rbits, lhashes ++ rhashes)
  end.

(** [bits.chunks(8)], each folded into a byte. *)
Fixpoint fold_bits (bits : list bool) (index value : Z) : Z :=
  match bits with
  | [] => value
  | bit :: bits => fold_bits bits (index + 1) (Z.lor value (Z.shiftl (Z.b2z bit) index))
  end.
Fixpoint flag_chunks (fuel : nat) (bits : list bool) : bytes :=
  match fuel, bits with
  | S fuel, _ :: _ => fold_bits (take 8 bits) 0 0 :: flag_chunks fuel (drop 8 bits)
  | _, _ => []
  end.
Definition flag_bytes (bits : list bool) : bytes := flag_chunks (length bits) bits.

(** The cursor: the hashes, the flags and the two indices. *)
Definition flag_at (flags : bytes) (index : Z) : option bool :=
  byte ← zget flags (index / 8);
  Some (negb (Z.land byte (Z.shiftl 1 (index mod 8)) =? 0)).

Fixpoint extract_merkle_node (height : nat) (position total : Z)
    (hashes : list bytes) (flags : bytes) (hash_index flag_index : Z)
  : result ProofError (bytes * list bytes * Z * Z) :=
  let? bit := ok_or (flag_at flags flag_index) TooFewFlags in
  let flag_index := flag_index + 1 in
  match height with
  | O =>
      let? hash := ok_or (zget hashes hash_index) TooFewHashes in
      Ok (hash, if bit : bool then [hash] else [], hash_index + 1, flag_index)
  | S h =>
      if negb bit then
        let? hash := ok_or (zget hashes hash_index) TooFewHashes in
        Ok (hash, [], hash_index + 1, flag_index)
      else
        let? '(lhs, matches, hash_index, flag_index) :=
          extract_merkle_node h (position * 2) total hashes flags hash_index flag_index in
        let? '(rhs, right_matches, hash_index, flag_index) :=
          (if position * 2 + 1 <? merkle_tree_width total (Z.of_nat h) then
             let? '(rhs, right_matches, hash_index, flag_index) :=
               extract_merkle_node h (position * 2 + 1) total hashes flags hash_index flag_index in
             check? negb (bool_decide (rhs = lhs)) else InvalidProof in
             Ok (rhs, right_matches, hash_index, flag_index)
           else Ok (lhs, [], hash_index, flag_index)) in
        Ok (combine_hashes sha256d lhs rhs, matches ++ right_matches, hash_index, flag_index)
  end.

(** ** The two calls *)

Variable Header : Type.
(** [serialize(&header)], [deserialize(&bytes)] and [header.merkle_root]. *)
Variable encode_header : Header -> bytes.
Variable decode_header : bytes -> option Header.
Variable header_merkle_root : Header -> bytes.

Definition serialize_merkle_proof (header : Header) (txids requested : list bytes)
  : result ProofError bytes :=
  match txids with
  | [] => Err NoTransactions
  | _ =>
      let matches := map (fun txid => bool_decide (txid ∈ requested)) txids in
      let height := Z.to_nat (default 0 (merkle_tree_height (zlen txids))) in
      let levels := default [] (build_levels sha256d (length txids) txids) in
      let '(bits, hashes) := collect_merkle_nodes height 0 (zlen txids) levels matches in
      let flags := flag_bytes bits in
      Ok (encode_header header ++ to_le 4 (zlen txids) ++
          put_compact_size (zlen hashes) ++ concat hashes ++
          put_compact_size (zlen flags) ++ flags)
  end.

Definition parse_merkle_proof (proof : bytes)
  : result ProofError (option (Header * list bytes * Z)) :=
  check? 84 <=? zlen proof else InvalidProof in
  let? header := ok_or (decode_header (ztake 80 proof)) InvalidHeader in
  let buffer := zdrop 80 proof in
  let? '(total, position) := read_u32 buffer 0 in
  check? negb ((total =? 0) || (MAX_MERKLE_PROOF_TRANSACTIONS <? total)) else InvalidTransactionCount in
  let? '(hash_count, position) := read_compact_size buffer position in
  check? negb ((hash_count =? 0) || (total <? hash_count)) else InvalidHashCount in
  let? '(hashes, position) := read_hashes buffer position (Z.to_nat hash_count) in
  let? '(flag_count, position) := read_compact_size buffer position in
  check? negb ((flag_count =? 0) || (1000000 <? flag_count)) else InvalidFlagCount in
  let? '(flags, position) := read_bytes buffer position flag_count in
  let height := Z.to_nat (default 0 (merkle_tree_height total)) in
  let? '(root, matches, hash_index, flag_index) :=
    extract_merkle_node height 0 total hashes flags 0 0 in
  check? negb (negb ((flag_index + 7) / 8 =? zlen flags) || negb (hash_index =? zlen hashes))
    else InvalidProof in
  if bool_decide (root = header_merkle_root header) then Ok (Some (header, matches, total))
  else Ok None.
End Proof.

(** ** Flag bits *)

Lemma fold_bits_testbit bits index value k :
  0 <= index -> 0 <= k ->
  Z.testbit (fold_bits bits index value) k =
  Z.testbit value k || ((index <=? k) && nth (Z.to_nat (k - index)) bits false).
Proof.
  revert index value. induction bits as [|b bits IH]; intros index value Hi Hk; cbn [fold_bits].
  - by destruct (Z.to_nat (k - index)); rewrite andb_false_r, orb_false_r.
  - rewrite IH, Z.lor_spec by lia. rewrite <- orb_assoc. f_equal.
    destruct (Z.leb_spec index k) as [Hle|Hgt].
    + rewrite Z.shiftl_spec, andb_true_l by lia. destruct (Z.eqb_spec index k) as [->|Hne].
      * rewrite Z.sub_diag. bfalse (k + 1 <=? k). simpl. by destruct b.
      * btrue (index + 1 <=? k). replace (Z.to_nat (k - index)) with (S (Z.to_nat (k - (index + 1)))) by lia.
        replace (Z.testbit (Z.b2z b) (k - index)) with false; [done|]. symmetry.
        destruct b; [apply (Z.pow2_bits_false 0); lia|apply Z.bits_0].
    + bfalse (index + 1 <=? k). rewrite Z.shiftl_spec_low by lia. done.
Qed.

Lemma zlen_flag_chunks fuel bits :
  (length bits <= fuel)%nat -> zlen (flag_chunks fuel bits) = (zlen bits + 7) / 8.
Proof.
  revert bits. induction fuel as [|fuel IH]; intros bits Hf.
  { destruct bits; [done|simpl in Hf; lia]. }
  destruct bits as [|b bits]; [done|]. cbn [flag_chunks]. rewrite zlen_cons, IH.
  - unfold zlen. rewrite length_drop. simpl length. dlia.
  - rewrite length_drop. simpl length in *. lia.
Qed.

Lemma flag_at_chunks fuel bits i x :
  (length bits <= fuel)%nat -> bits !! i = Some x ->
  flag_at (flag_chunks fuel bits) (Z.of_nat i) = Some x.
Proof.
  revert bits i. induction fuel as [|fuel IH]; intros bits i Hf Hx.
  { destruct bits; [done|simpl in Hf; lia]. }
  destruct bits as [|b bits]; [done|]. cbn [flag_chunks]. unfold flag_at, zget.
  bfalse (Z.of_nat i / 8 <? 0). destruct (decide (i < 8)%nat) as [Hlt|Hge].
  - replace (Z.of_nat i / 8) with 0 by dlia.
    match goal with |- context [(?a :: ?r) !! Z.to_nat 0] =>
      change ((a :: r) !! Z.to_nat 0) with (Some a) end. cbn [mbind option_bind].
    rewrite land_bit_test, Z.mod_small, fold_bits_testbit, Z.bits_0 by dlia.
    btrue (0 <=? Z.of_nat i). rewrite Z.sub_0_r, Nat2Z.id, orb_false_l, andb_true_l.
    f_equal. apply nth_lookup_Some. by rewrite lookup_take_lt.
  - replace (Z.to_nat (Z.of_nat i / 8)) with (S (Z.to_nat (Z.of_nat (i - 8) / 8))) by dlia.
    rewrite lookup_cons_ne_0 by lia. cbn [Nat.pred].
    specialize (IH (drop 8 (b :: bits)) (i - 8)%nat). unfold flag_at, zget in IH.
    bfalse (Z.of_nat (i - 8) / 8 <? 0) in IH.
    replace (Z.of_nat i mod 8) with (Z.of_nat (i - 8) mod 8) by dlia.
    apply IH; [rewrite length_drop; simpl length in *; lia|].
    rewrite lookup_drop. by replace (8 + (i - 8))%nat with i by lia.
Qed.

(** ** The tree over the transaction ids *)

Section Tree.
Variable sha256d : bytes -> bytes.
Variable txids : list bytes.
Abbreviation total := (zlen txids).

(** Level [h] and its nodes. *)
Definition level (h : nat) : list bytes := Nat.iter h (next_layer sha256d) txids.
Definition node (h : nat) (position : Z) : bytes := hash_at (level h) position.
(** The leaves under a node. *)
Definition leaves (h : nat) (position : Z) : list bytes :=
  slice txids (position * 2 ^ Z.of_nat h) (Z.min ((position + 1) * 2 ^ Z.of_nat h) total).

Lemma width_div n h : 0 <= h -> merkle_tree_width n h = (n + 2 ^ h - 1) / 2 ^ h.
Proof. intros. unfold merkle_tree_width. by rewrite Z.shiftr_div_pow2, Z.shiftl_1_l by lia. Qed.

Lemma width_succ n h :
  0 <= h -> merkle_tree_width n (h + 1) = (merkle_tree_width n h + 1) / 2.
Proof.
  intros. rewrite !width_div by lia. rewrite Z.pow_add_r, Z.pow_1_r by lia.
  assert (0 < 2 ^ h) by (apply Z.pow_pos_nonneg; lia).
  replace ((n + 2 ^ h - 1) / 2 ^ h + 1) with ((n + 2 ^ h * 2 - 1) / 2 ^ h).
  - by rewrite Z.div_div by lia.
  - replace (n + 2 ^ h * 2 - 1) with (n + 2 ^ h - 1 + 1 * 2 ^ h) by lia. rewrite Z.div_add; lia.
Qed.

Lemma zlen_level h : zlen (level h) = merkle_tree_width total (Z.of_nat h).
Proof.
  induction h as [|h IH].
  - rewrite width_div by lia. simpl. rewrite Z.div_1_r. unfold level. simpl. lia.
  - change (level (S h)) with (next_layer sha256d (level h)).
    rewrite zlen_next_layer, IH, <- width_succ by lia. f_equal. lia.
Qed.

Lemma node_children h pos :
  0 <= pos < merkle_tree_width total (Z.of_nat (S h)) ->
  node (S h) pos =
  combine_hashes sha256d (node h (pos * 2))
    (node h (if pos * 2 + 1 <? merkle_tree_width total (Z.of_nat h) then pos * 2 + 1 else pos * 2)).
Proof.
  intros Hp. unfold node. change (level (S h)) with (next_layer sha256d (level h)).
  rewrite Nat2Z.inj_succ, <- Z.add_1_r, width_succ in Hp by lia.
  pose proof (parent_hash sha256d (level h) (pos * 2)) as H. rewrite zlen_level, Z.div_mul in H by lia.
  rewrite H by dlia. unfold join, sibling. rewrite Z_mod_mult. simpl.
  rewrite (Z.mul_comm pos 2), lxor_1_even, zlen_level. done.
Qed.

(** The height is the first one where a single node is left. *)
Lemma height_loop_spec fuel h :
  0 <= h -> 1 <= total < 2 ^ (h + Z.of_nat fuel - 1) -> (1 <= fuel)%nat ->
  exists h', height_loop fuel total h = Some h' /\ h <= h' /\ merkle_tree_width total h' = 1 /\
    forall j, h <= j < h' -> 1 < merkle_tree_width total j.
Proof.
  revert h. induction fuel as [|fuel IH]; intros h Hh Ht Hf; [lia|]. cbn [height_loop].
  assert (0 < 2 ^ h) by (apply Z.pow_pos_nonneg; lia).
  destruct (Z.ltb_spec 1 (merkle_tree_width total h)) as [Hw|Hw].
  - destruct (IH (h + 1)) as (h' & -> & Hle & Hw' & Hj); [lia| | |].
    { split; [lia|]. replace (h + 1 + Z.of_nat fuel - 1) with (h + Z.of_nat (S fuel) - 1) by lia. lia. }
    { destruct fuel; [|lia]. exfalso. replace (h + Z.of_nat 1 - 1) with h in Ht by lia.
      rewrite width_div in Hw by lia. assert ((total + 2 ^ h - 1) / 2 ^ h < 2); [|lia].
      apply Z.div_lt_upper_bound; lia. }
    exists h'. split; [done|]. split; [lia|]. split; [done|]. intros j Hj'.
    destruct (Z.eqb_spec j h) as [->|]; [done|]. apply Hj. lia.
  - exists h. split; [done|]. split; [lia|]. split; [|lia].
    assert (1 <= merkle_tree_width total h); [|lia]. rewrite width_div by lia.
    apply Z.div_le_lower_bound; lia.
Qed.

Lemma tree_lookup l ls h :
  tree sha256d l ls -> (forall j, (j < h)%nat -> 1 < zlen (Nat.iter j (next_layer sha256d) l)) ->
  ls !! h = Some (Nat.iter h (next_layer sha256d) l).
Proof.
  intros Ht. revert h. induction Ht as [r|l ls Hl Ht IH]; intros [|h] Hj; try done.
  - specialize (Hj 0%nat ltac:(lia)). unfold zlen in Hj. simpl in Hj. lia.
  - change ((l :: ls) !! S h) with (ls !! h). rewrite (IH h), Nat.iter_swap; [done|].
    intros j Hlt. rewrite Nat.iter_swap. apply (Hj (S j)). lia.
Qed.

Lemma leaves_split h pos :
  0 <= pos -> leaves (S h) pos = leaves h (pos * 2) ++ leaves h (pos * 2 + 1).
Proof.
  intros Hp. unfold leaves. rewrite Nat2Z.inj_succ, Z.pow_succ_r by lia.
  set (P := 2 ^ Z.of_nat h). assert (0 < P) by (apply Z.pow_pos_nonneg; lia).
  replace (pos * (2 * P)) with (pos * 2 * P) by lia.
  replace ((pos + 1) * (2 * P)) with ((pos * 2 + 1 + 1) * P) by lia.
  set (a := pos * 2 * P). replace ((pos * 2 + 1) * P) with (a + P) by (unfold a; lia).
  replace ((pos * 2 + 1 + 1) * P) with (a + P + P) by (unfold a; lia).
  assert (0 <= a) by (unfold a; nia). pose proof (zlen_nonneg txids).
  unfold slice, ztake, zdrop, zlen in *.
  destruct (Z.leb_spec (Z.of_nat (length txids)) (a + P)).
  - rewrite !Z.min_r by lia. rewrite (drop_ge txids (Z.to_nat (a + P))) by lia.
    by rewrite take_nil, app_nil_r.
  - rewrite (Z.min_l (a + P)) by lia. replace (a + P - a) with P by lia.
    replace (drop (Z.to_nat (a + P)) txids) with (drop (Z.to_nat P) (drop (Z.to_nat a) txids))
      by (rewrite drop_drop; f_equal; lia).
    rewrite take_take_drop. f_equal. lia.
Qed.

Lemma leaves_leaf pos : 0 <= pos < total -> leaves 0 pos = [hash_at txids pos].
Proof.
  intros Hp. unfold leaves. simpl. rewrite Z.mul_1_r, Z.min_l by lia.
  unfold slice, hash_at, zget. bfalse (pos <? 0).
  destruct (txids !! Z.to_nat pos) as [x|] eqn:E.
  - unfold zdrop, ztake. rewrite (drop_S _ _ _ E). replace (Z.to_nat _) with 1%nat by lia. done.
  - apply lookup_ge_None in E. unfold zlen in Hp. lia.
Qed.

Lemma leaves_beyond h pos :
  0 <= pos -> merkle_tree_width total (Z.of_nat h) <= pos -> leaves h pos = [].
Proof.
  intros Hp Hw. rewrite width_div in Hw by lia. unfold leaves, slice, ztake, zdrop.
  set (P := 2 ^ Z.of_nat h) in *. assert (0 < P) by (apply Z.pow_pos_nonneg; lia).
  rewrite drop_ge; [apply take_nil|]. assert (total <= pos * P); [|unfold zlen in *; lia].
  pose proof (Z.mul_succ_div_gt (total + P - 1) P ltac:(lia)). nia.
Qed.

Lemma leaves_top h : merkle_tree_width total (Z.of_nat h) = 1 -> leaves h 0 = txids.
Proof.
  intros Hw. rewrite width_div in Hw by lia. unfold leaves.
  set (P := 2 ^ Z.of_nat h) in *. assert (0 < P) by (apply Z.pow_pos_nonneg; lia).
  pose proof (Z.mul_succ_div_gt (total + P - 1) P ltac:(lia)) as Hlt. rewrite Hw in Hlt.
  unfold slice. rewrite Z.min_r by lia. simpl. apply ztake_all. unfold zdrop, zlen. simpl. lia.
Qed.

(** *** Writing and reading back *)

Variable requested : list bytes.
Abbreviation wanted := (fun txid : bytes => bool_decide (txid ∈ requested)).
Variable levels : list (list bytes).
Variable top : nat.
Hypothesis levels_spec : forall h, (h <= top)%nat -> levels !! h = Some (level h).
Hypothesis total_small : total < 2 ^ 64.

Lemma parent_match_leaves h pos :
  0 <= pos ->
  existsb id (slice (map wanted txids) (Z.shiftl pos (Z.of_nat h))
    (Z.min (sat_add 64 (Z.shiftl pos (Z.of_nat h)) (Z.shiftl 1 (Z.of_nat h))) total)) =
  existsb wanted (leaves h pos).
Proof.
  intros Hp. rewrite Z.shiftl_mul_pow2, Z.shiftl_1_l by lia.
  replace (Z.min (sat_add 64 (pos * 2 ^ Z.of_nat h) (2 ^ Z.of_nat h)) total) with
    (Z.min ((pos + 1) * 2 ^ Z.of_nat h) total) by (unfold sat_add, umax; lia).
  unfold leaves, slice, ztake, zdrop. rewrite skipn_map, firstn_map.
  set (l := take _ (drop _ txids)). clear. induction l; simpl; congruence.
Qed.

(** What the writer emits, by the leaves under the node. *)
Lemma collect_leaf pos :
  0 <= pos < total ->
  collect_merkle_nodes 0 pos total levels (map wanted txids) =
  ([existsb wanted (leaves 0 pos)], [node 0 pos]).
Proof.
  intros Hp. cbn [collect_merkle_nodes].
  rewrite (parent_match_leaves 0), levels_spec by lia. done.
Qed.

Lemma collect_inner h pos :
  0 <= pos -> (S h <= top)%nat ->
  collect_merkle_nodes (S h) pos total levels (map wanted txids) =
  if existsb wanted (leaves (S h) pos) then
    let '(lbits, lhashes) := collect_merkle_nodes h (pos * 2) total levels (map wanted txids) in
    let '(rbits, rhashes) :=
      if pos * 2 + 1 <? merkle_tree_width total (Z.of_nat h)
      then collect_merkle_nodes h (pos * 2 + 1) total levels (map wanted txids) else ([], []) in
    (true :: lbits ++ rbits, lhashes ++ rhashes)
  else ([false], [node (S h) pos]).
Proof.
  intros Hp Ht. cbn [collect_merkle_nodes].
  rewrite (parent_match_leaves (S h)), levels_spec by lia.
  by destruct (existsb wanted (leaves (S h) pos)).
Qed.

(** A cursor function yields the items of a list from an index on. *)
Definition yields {A} (get : Z -> option A) (index : Z) (items : list A) : Prop :=
  forall j x, items !! j = Some x -> get (index + Z.of_nat j) = Some x.

Lemma yields_app {A} (get : Z -> option A) i b1 b2 :
  yields get i (b1 ++ b2) -> yields get i b1 /\ yields get (i + zlen b1) b2.
Proof.
  intros H. split; intros j x Hx.
  - apply H. by apply lookup_app_l_Some.
  - rewrite <- Z.add_assoc. unfold zlen. rewrite <- Nat2Z.inj_add. apply H.
    rewrite lookup_app_r by lia. by replace (length b1 + j - length b1)%nat with j by lia.
Qed.

Lemma yields_cons {A} (get : Z -> option A) i x l :
  yields get i (x :: l) -> get i = Some x /\ yields get (i + 1) l.
Proof.
  intros H. apply (yields_app get i [x]) in H as [H1 H2]. split; [|done].
  specialize (H1 0%nat x eq_refl). by rewrite Z.add_0_r in H1.
Qed.

(** No pair of equal siblings anywhere below the root. *)
Hypothesis unmutated : forall h, (h < top)%nat -> no_equal_pairs (level h).

Lemma no_equal_pairs_at l i :
  no_equal_pairs l -> 0 <= i -> i * 2 + 1 < zlen l -> hash_at l (i * 2) <> hash_at l (i * 2 + 1).
Proof.
  revert i. induction l as [|a|a b l IH] using list_pair_ind; intros i Hn Hi Hl;
    [unfold zlen in Hl; simpl in Hl; lia..|].
  destruct Hn as [Hab Hn]. destruct (Z.eqb_spec i 0) as [->|Hi0]; [exact Hab|].
  rewrite !zlen_cons in Hl. rewrite !(hash_at_cons a), !(hash_at_cons b) by lia.
  replace (i * 2 - 1 - 1) with ((i - 1) * 2) by lia.
  replace (i * 2 + 1 - 1 - 1) with ((i - 1) * 2 + 1) by lia. apply IH; [done|lia|lia].
Qed.

Lemma filter_none (l : list bytes) : existsb wanted l = false -> filter (.∈ requested) l = [].
Proof.
  induction l as [|x l IH]; [done|]. simpl. intros H. apply orb_false_iff in H as [Hx H].
  rewrite filter_cons_False by (by apply bool_decide_eq_false in Hx). auto.
Qed.

Lemma collect_extract h pos bits hs hashes flags hi fi :
  0 <= pos < merkle_tree_width total (Z.of_nat h) -> (h <= top)%nat ->
  collect_merkle_nodes h pos total levels (map wanted txids) = (bits, hs) ->
  yields (flag_at flags) fi bits -> yields (zget hashes) hi hs ->
  extract_merkle_node sha256d h pos total hashes flags hi fi =
  Ok (node h pos, filter (.∈ requested) (leaves h pos), hi + zlen hs, fi + zlen bits).
Proof.
  revert pos bits hs hi fi. induction h as [|h IH]; intros pos bits hs hi fi Hp Ht Hc Hf Hh.
  - rewrite width_div in Hp by lia. simpl in Hp. rewrite Z.div_1_r in Hp.
    rewrite collect_leaf in Hc by lia. injection Hc as <- <-.
    apply yields_cons in Hf as [Hf _], Hh as [Hh _]. cbn [extract_merkle_node].
    rewrite Hf, Hh. rewrite leaves_leaf by lia. cbn [ok_or rbind existsb]. rewrite orb_false_r.
    unfold node. change (level 0) with txids. rewrite filter_cons. unfold bool_decide.
    by destruct (decide_rel _ _ _), (decide _).
  - rewrite collect_inner in Hc by lia. cbn [extract_merkle_node].
    destruct (existsb wanted (leaves (S h) pos)) eqn:Ew; cycle 1.
    { injection Hc as <- <-. apply yields_cons in Hf as [Hf _], Hh as [Hh _].
      rewrite Hf, Hh. by rewrite filter_none. }
    destruct (collect_merkle_nodes h (pos * 2) _ _ _) as [lb lh] eqn:El.
    pose proof Hp as Hp'. rewrite Nat2Z.inj_succ, <- Z.add_1_r, width_succ in Hp' by lia.
    rewrite leaves_split, list.filter_app, node_children by lia.
    destruct (Z.ltb_spec (pos * 2 + 1) (merkle_tree_width total (Z.of_nat h))) as [Hr|Hr].
    + destruct (collect_merkle_nodes h (pos * 2 + 1) _ _ _) as [rb rh] eqn:Er. injection Hc as <- <-.
      apply yields_cons in Hf as [Hf0 Hf]. apply yields_app in Hf as [Hfl Hfr], Hh as [Hhl Hhr].
      rewrite Hf0. cbn [ok_or rbind negb].
      rewrite (IH (pos * 2) lb lh) by (done || dlia). cbn [rbind].
      rewrite (IH (pos * 2 + 1) rb rh)
        by first [done | lia | (rewrite <- ?Z.add_assoc; done)].
      cbn [rbind].
      rewrite bool_decide_eq_false_2; cycle 1.
      { intros E. symmetry in E. revert E. apply no_equal_pairs_at; [apply unmutated; lia|lia|].
        by rewrite zlen_level. }
      cbn [negb rbind]. rewrite zlen_cons, !zlen_app. f_equal. f_equal; [f_equal; lia|lia].
    + injection Hc as <- <-. rewrite !app_nil_r in Hf, Hh.
      apply yields_cons in Hf as [Hf0 Hf]. rewrite Hf0. cbn [ok_or rbind negb].
      rewrite (IH (pos * 2) lb lh) by (done || dlia). cbn [rbind].
      rewrite (leaves_beyond h (pos * 2 + 1)) by lia. rewrite zlen_cons, !app_nil_r.
      f_equal. f_equal. lia.
Qed.

Lemma leaves_nonempty h pos :
  0 <= pos < merkle_tree_width total (Z.of_nat h) -> 1 <= zlen (leaves h pos).
Proof.
  revert pos. induction h as [|h IH]; intros pos Hp.
  - rewrite width_div in Hp by lia. simpl in Hp. rewrite Z.div_1_r in Hp.
    rewrite leaves_leaf by lia. by zlen.
  - rewrite leaves_split, zlen_app by lia. pose proof (zlen_nonneg (leaves h (pos * 2 + 1))).
    rewrite Nat2Z.inj_succ, <- Z.add_1_r, width_succ in Hp by lia.
    specialize (IH (pos * 2)). lapply IH; [lia|dlia].
Qed.

Hypothesis sha256d_length : forall x, length (sha256d x) = 32%nat.
Hypothesis txids_length : Forall (fun h : bytes => length h = 32%nat) txids.

Lemma node_length h pos :
  0 <= pos < merkle_tree_width total (Z.of_nat h) -> length (node h pos) = 32%nat.
Proof.
  intros Hp. destruct h as [|h].
  - rewrite width_div in Hp by lia. simpl in Hp. rewrite Z.div_1_r in Hp.
    unfold node, hash_at, zget. bfalse (pos <? 0). change (level 0) with txids.
    destruct (txids !! Z.to_nat pos) eqn:E; [by apply (Forall_lookup_1 _ _ _ _ txids_length E)|].
    apply lookup_ge_None in E. unfold zlen in Hp. lia.
  - rewrite node_children by done. apply sha256d_length.
Qed.

(** The numbers of hashes and bits are bounded by the leaves. *)
Lemma collect_bounds h pos bits hs :
  0 <= pos < merkle_tree_width total (Z.of_nat h) -> (h <= top)%nat ->
  collect_merkle_nodes h pos total levels (map wanted txids) = (bits, hs) ->
  1 <= zlen hs <= zlen (leaves h pos) /\
  1 <= zlen bits <= Z.of_nat (S h) * zlen (leaves h pos) /\
  Forall (fun h : bytes => length h = 32%nat) hs.
Proof.
  revert pos bits hs. induction h as [|h IH]; intros pos bits hs Hp Ht Hc;
    pose proof (leaves_nonempty _ _ Hp) as Hn; pose proof (node_length _ _ Hp) as Hnl.
  - rewrite width_div in Hp by lia. simpl in Hp. rewrite Z.div_1_r in Hp.
    rewrite collect_leaf in Hc by lia. injection Hc as <- <-. zlen.
    split; [lia|]. split; [lia|]. by constructor.
  - rewrite collect_inner in Hc by lia.
    destruct (existsb wanted (leaves (S h) pos)); cycle 1.
    { injection Hc as <- <-. zlen. split; [lia|]. split; [nia|]. by constructor. }
    destruct (collect_merkle_nodes h (pos * 2) _ _ _) as [lb lh] eqn:El.
    rewrite leaves_split, zlen_app in * by lia. pose proof (zlen_nonneg (leaves h (pos * 2 + 1))).
    pose proof Hp as Hp'. rewrite Nat2Z.inj_succ, <- Z.add_1_r, width_succ in Hp' by lia.
    destruct (IH (pos * 2) lb lh) as (Hl1 & Hl2 & Hl3); [dlia|lia|done|].
    destruct (Z.ltb_spec (pos * 2 + 1) (merkle_tree_width total (Z.of_nat h))) as [Hr|Hr].
    + destruct (collect_merkle_nodes h (pos * 2 + 1) _ _ _) as [rb rh] eqn:Er. injection Hc as <- <-.
      destruct (IH (pos * 2 + 1) rb rh) as (Hr1 & Hr2 & Hr3); [lia|lia|done|].
      rewrite zlen_cons, !zlen_app. split; [lia|]. split; [nia|]. by apply Forall_app.
    + injection Hc as <- <-. rewrite zlen_cons, !app_nil_r.
      split; [lia|]. split; [nia|done].
Qed.
End Tree.

(** ** Reading what was written *)

Lemma read_bytes_at pre x post n :
  n = zlen x -> zlen pre + zlen x < 2 ^ 64 ->
  read_bytes (pre ++ x ++ post) (zlen pre) n = Ok (x, zlen pre + zlen x).
Proof.
  intros -> Hs. unfold read_bytes, checked_add, umax.
  btrue (zlen pre + zlen x <=? 2 ^ 64 - 1). cbn [ok_or rbind].
  rewrite get_range_app by lia. done.
Qed.

Lemma read_compact_size_at pre v post :
  0 <= v < 2 ^ 64 -> zlen pre + 9 < 2 ^ 64 ->
  read_compact_size (pre ++ put_compact_size v ++ post) (zlen pre) =
  Ok (v, zlen pre + zlen (put_compact_size v)).
Proof.
  intros Hv Hs. unfold read_compact_size, put_compact_size. pose proof (zlen_nonneg pre).
  destruct (Z.ltb_spec v 0xfd).
  { rewrite read_bytes_at by (zlen; lia). cbn [rbind zat]. change (zat [v] 0) with v.
    btrue (v <=? 0xfc). done. }
  assert (forall (prefix : Z) (n : nat), (n <= 8)%nat ->
    read_bytes (pre ++ (prefix :: to_le n v) ++ post) (zlen pre) 1 = Ok ([prefix], zlen pre + 1) /\
    read_bytes (pre ++ (prefix :: to_le n v) ++ post) (zlen pre + 1) (Z.of_nat n) =
      Ok (to_le n v, zlen pre + zlen (prefix :: to_le n v))) as Hrd.
  { intros prefix n Hn. split.
    - apply (read_bytes_at pre [prefix] (to_le n v ++ post)); zlen; lia.
    - replace (pre ++ (prefix :: to_le n v) ++ post) with ((pre ++ [prefix]) ++ to_le n v ++ post)
        by by rewrite <- app_assoc.
      replace (zlen pre + 1) with (zlen (pre ++ [prefix])) by (zlen; lia).
      rewrite read_bytes_at; zlen; [|lia..]. do 2 f_equal. lia. }
  destruct (Z.leb_spec v 0xffff); [|destruct (Z.leb_spec v 0xffffffff)].
  all: match goal with |- context [?p :: to_le ?n _] =>
    let Hb := fresh "Hb" in
    destruct (Hrd p n) as [-> Hb]; [lia|]; cbn [rbind]; change (zat [p] 0) with p;
    cbn [Z.leb Z.eqb Z.compare Pos.compare Pos.compare_cont Pos.eqb];
    change (Z.of_nat n) with ltac:(let k := eval compute in (Z.of_nat n) in exact k) in Hb;
    rewrite Hb; cbn [rbind]; rewrite (from_to_le_small n (8 * Z.of_nat n)) by (unfold in_u; simpl; lia)
  end.
  - btrue (0xfd <=? v). done.
  - btrue (0xffff <? v). done.
  - btrue (0xffffffff <? v). done.
Qed.

Lemma compact_size_short v : 0 <= zlen (put_compact_size v) <= 9.
Proof. unfold put_compact_size. repeat case_match; zlen; lia. Qed.

Lemma read_hashes_at pre hashes post :
  Forall (fun h : bytes => length h = 32%nat) hashes -> zlen pre + zlen (concat hashes) < 2 ^ 64 ->
  read_hashes (pre ++ concat hashes ++ post) (zlen pre) (length hashes) =
  Ok (hashes, zlen pre + zlen (concat hashes)).
Proof.
  intros Hh. revert pre. induction Hh as [|h hashes Hh _ IH]; intros pre Hs.
  - simpl. do 2 f_equal. unfold zlen. simpl. lia.
  - cbn [read_hashes concat length] in *. rewrite zlen_app in *.
    pose proof (zlen_nonneg (concat hashes)). assert (zlen h = 32) as Hz by (unfold zlen; lia).
    rewrite <- app_assoc, read_bytes_at by lia. cbn [rbind].
    specialize (IH (pre ++ h)). rewrite zlen_app, <- app_assoc in IH. rewrite IH by lia. cbn [rbind].
    do 2 f_equal. lia.
Qed.

Lemma clean_levels sha256d h l r :
  clean sha256d h l r ->
  Nat.iter h (next_layer sha256d) l = [r] /\
  forall j, (j < h)%nat -> 1 < zlen (Nat.iter j (next_layer sha256d) l) /\
    no_equal_pairs (Nat.iter j (next_layer sha256d) l).
Proof.
  induction 1 as [r|h l r Hl Hn _ [IH1 IH2]]; [split; [done|lia]|]. split.
  - by rewrite <- IH1, Nat.iter_swap.
  - intros [|j] Hj; [done|]. specialize (IH2 j ltac:(lia)). by rewrite Nat.iter_swap in IH2.
Qed.

(** The height the code computes is the height of the tree. *)
Lemma merkle_tree_height_levels sha256d h txids r :
  Nat.iter h (next_layer sha256d) txids = [r] ->
  (forall j, (j < h)%nat -> 1 < zlen (Nat.iter j (next_layer sha256d) txids)) ->
  1 <= zlen txids <= MAX_MERKLE_PROOF_TRANSACTIONS ->
  merkle_tree_height (zlen txids) = Some (Z.of_nat h) /\ (h <= 15)%nat.
Proof.
  intros Htop Hj Hmax. change MAX_MERKLE_PROOF_TRANSACTIONS with 16666 in Hmax.
  destruct (height_loop_spec txids 65 0) as (h' & Hh' & H0 & Hw & Hj'); [lia|simpl; lia|lia|].
  assert (forall j, (j <= h)%nat -> zlen (Nat.iter j (next_layer sha256d) txids) =
    merkle_tree_width (zlen txids) (Z.of_nat j)) as Hlev by (intros; apply zlen_level).
  assert (h' = Z.of_nat h) as ->.
  { destruct (Z.lt_trichotomy h' (Z.of_nat h)) as [Hlt|[->|Hlt]]; [|done|].
    - specialize (Hj (Z.to_nat h') ltac:(lia)). rewrite Hlev, Z2Nat.id in Hj by lia. lia.
    - specialize (Hj' (Z.of_nat h) ltac:(lia)). rewrite <- Hlev, Htop in Hj' by lia.
      by unfold zlen in Hj'. }
  split; [exact Hh'|]. destruct (decide (h <= 15)%nat) as [|Hgt]; [done|].
  specialize (Hj' 15 ltac:(lia)). rewrite width_div in Hj' by lia. simpl in Hj'. dlia.
Qed.

Section RoundTrip.
Variable sha256d : bytes -> bytes.
Hypothesis sha256d_length : forall x, length (sha256d x) = 32%nat.
Variable Header : Type.
Variable encode_header : Header -> bytes.
Variable decode_header : bytes -> option Header.
Variable header_merkle_root : Header -> bytes.

Lemma parse_layout header total hashes flags :
  zlen (encode_header header) = 80 -> decode_header (encode_header header) = Some header ->
  1 <= total <= MAX_MERKLE_PROOF_TRANSACTIONS -> 1 <= zlen hashes <= total ->
  Forall (fun h : bytes => length h = 32%nat) hashes -> 1 <= zlen flags <= 1000000 ->
  parse_merkle_proof sha256d Header decode_header header_merkle_root
    (encode_header header ++ to_le 4 total ++ put_compact_size (zlen hashes) ++ concat hashes ++
     put_compact_size (zlen flags) ++ flags) =
  let? '(root, matches, hash_index, flag_index) :=
    extract_merkle_node sha256d (Z.to_nat (default 0 (merkle_tree_height total))) 0 total
      hashes flags 0 0 in
  check? negb (negb ((flag_index + 7) / 8 =? zlen flags) || negb (hash_index =? zlen hashes))
    else InvalidProof in
  if bool_decide (root = header_merkle_root header) then Ok (Some (header, matches, total)) else Ok None.
Proof.
  intros Hh80 Hdec Ht Hn Hh Hf. unfold parse_merkle_proof.
  change MAX_MERKLE_PROOF_TRANSACTIONS with 16666 in *.
  rewrite ztake_app_eq, zdrop_app_eq by done.
  set (c1 := put_compact_size (zlen hashes)). set (c2 := put_compact_size (zlen flags)).
  set (buffer := to_le 4 total ++ c1 ++ concat hashes ++ c2 ++ flags).
  assert (0 <= zlen c1 <= 9 /\ 0 <= zlen c2 <= 9) as [Hc1 Hc2] by (split; apply compact_size_short).
  assert (zlen (concat hashes) = 32 * zlen hashes) as Hcat.
  { clear -Hh. induction Hh as [|h hs Hl _ IH]; [done|]. cbn [concat]. rewrite zlen_app, zlen_cons, IH.
    unfold zlen at 1. rewrite Hl. lia. }
  assert (read_u32 buffer 0 = Ok (total, 4)) as ->.
  { unfold read_u32, buffer.
    pose proof (read_bytes_at [] (to_le 4 total) (c1 ++ concat hashes ++ c2 ++ flags) 4) as H.
    rewrite zlen_to_le in H. change (zlen (@nil Z)) with 0 in H. rewrite app_nil_l in H.
    rewrite H by lia. cbn [rbind]. by rewrite (from_to_le_small 4 32) by (unfold in_u; lia). }
  assert (read_compact_size buffer 4 = Ok (zlen hashes, 4 + zlen c1)) as H2.
  { apply (read_compact_size_at (to_le 4 total)); zlen; lia. }
  assert (read_hashes buffer (4 + zlen c1) (Z.to_nat (zlen hashes)) =
    Ok (hashes, 4 + zlen c1 + zlen (concat hashes))) as H3.
  { replace (Z.to_nat (zlen hashes)) with (length hashes) by (unfold zlen; lia).
    pose proof (read_hashes_at (to_le 4 total ++ c1) hashes (c2 ++ flags) Hh) as H.
    rewrite zlen_app, zlen_to_le, <- app_assoc in H. apply H. lia. }
  assert (read_compact_size buffer (4 + zlen c1 + zlen (concat hashes)) =
    Ok (zlen flags, 4 + zlen c1 + zlen (concat hashes) + zlen c2)) as H4.
  { pose proof (read_compact_size_at (to_le 4 total ++ c1 ++ concat hashes) (zlen flags) flags) as H.
    rewrite !zlen_app, zlen_to_le, <- !app_assoc in H. rewrite <- Z.add_assoc. apply H; lia. }
  assert (read_bytes buffer (4 + zlen c1 + zlen (concat hashes) + zlen c2) (zlen flags) =
    Ok (flags, 4 + zlen c1 + zlen (concat hashes) + zlen c2 + zlen flags)) as H5.
  { pose proof (read_bytes_at (to_le 4 total ++ c1 ++ concat hashes ++ c2) flags [] (zlen flags) eq_refl) as H.
    rewrite !zlen_app, zlen_to_le, <- !app_assoc, app_nil_r in H. rewrite <- !Z.add_assoc in *. apply H. lia. }
  unfold buffer at 1. zlen. btrue (84 <=? zlen (encode_header header) +
    (Z.of_nat 4 + (zlen c1 + (zlen (concat hashes) + (zlen c2 + zlen flags))))).
  rewrite Hdec. cbn [ok_or rbind]. bfalse (total =? 0). bfalse (16666 <? total). cbn [negb orb].
  rewrite H2. cbn [rbind]. bfalse (zlen hashes =? 0). bfalse (total <? zlen hashes). cbn [negb orb].
  rewrite H3. cbn [rbind]. rewrite H4. cbn [rbind].
  bfalse (zlen flags =? 0). bfalse (1000000 <? zlen flags). cbn [negb orb].
  rewrite H5. cbn [rbind]. done.
Qed.

Lemma flags_yield bits : yields (flag_at (flag_bytes bits)) 0 bits.
Proof. intros j x Hx. rewrite Z.add_0_l. by apply flag_at_chunks. Qed.

Lemma hashes_yield (hs : list bytes) : yields (zget hs) 0 hs.
Proof.
  intros j x Hx. rewrite Z.add_0_l. unfold zget. bfalse (Z.of_nat j <? 0). by rewrite Nat2Z.id.
Qed.

(** A proof verifies.  For a block whose header carries the unmutated
    Merkle root of its transactions, parsing the proof that
    [serialize_merkle_proof] writes gives the header back with exactly the
    requested transactions of the block, in block order. *)
Theorem merkle_proof_roundtrip header txids requested :
  zlen (encode_header header) = 80 -> decode_header (encode_header header) = Some header ->
  Forall (fun h : bytes => length h = 32%nat) txids ->
  zlen txids <= MAX_MERKLE_PROOF_TRANSACTIONS ->
  merkle_root_and_mutated_txid sha256d txids = (Some (header_merkle_root header), None) ->
  exists proof,
    serialize_merkle_proof sha256d Header encode_header header txids requested = Ok proof /\
    parse_merkle_proof sha256d Header decode_header header_merkle_root proof =
      Ok (Some (header, filter (.∈ requested) txids, zlen txids)).
Proof.
  intros Hh80 Hdec H32 Hmax Hroot. apply root_clean in Hroot as [top Hc].
  destruct (clean_levels _ _ _ _ Hc) as [Hlast Hlev].
  assert (txids <> []) as Hne by (intros ->; inversion Hc as [|? ? ? Hl]; by unfold zlen in Hl).
  assert (1 <= zlen txids) by (destruct txids as [|t ts]; [done|]; unfold zlen; simpl; lia).
  destruct (merkle_tree_height_levels sha256d top txids _ Hlast (fun j Hj => proj1 (Hlev j Hj)))
    as [Hheight Htop]; [done|].
  destruct (build_levels_tree sha256d (length txids) txids Hne) as (ls & Hls & Htree); [done|].
  assert (forall h, (h <= top)%nat -> ls !! h = Some (level sha256d txids h)) as Hlevels.
  { intros h Hle. apply tree_lookup; [done|]. intros j Hj. apply Hlev. lia. }
  assert (merkle_tree_width (zlen txids) (Z.of_nat top) = 1) as Hw.
  { rewrite <- (zlen_level sha256d txids top). unfold level. by rewrite Hlast. }
  set (bh := collect_merkle_nodes top 0 (zlen txids) ls (map (fun t => bool_decide (t ∈ requested)) txids)).
  assert (serialize_merkle_proof sha256d Header encode_header header txids requested =
    Ok (encode_header header ++ to_le 4 (zlen txids) ++ put_compact_size (zlen bh.2) ++ concat bh.2 ++
        put_compact_size (zlen (flag_bytes bh.1)) ++ flag_bytes bh.1)) as Hser.
  { unfold serialize_merkle_proof. destruct txids as [|t txids]; [done|]. rewrite Hheight, Hls.
    change (Z.to_nat (default 0 (Some (Z.of_nat top)))) with (Z.to_nat (Z.of_nat top)).
    rewrite Nat2Z.id. change (default [] (Some ls)) with ls. fold bh. by destruct bh. }
  eexists. split; [exact Hser|]. clear Hser. destruct bh as [bits hs] eqn:Ebh. simpl fst. simpl snd.
  change MAX_MERKLE_PROOF_TRANSACTIONS with 16666 in Hmax.
  destruct (collect_bounds sha256d txids requested ls top Hlevels ltac:(lia) sha256d_length H32 top 0 bits hs)
    as (Hb1 & Hb2 & Hb3); [lia|done|done|].
  rewrite (leaves_top txids top Hw) in Hb1, Hb2.
  pose proof (zlen_flag_chunks (length bits) bits ltac:(lia)) as Hfl. fold (flag_bytes bits) in Hfl.
  assert (zlen bits <= 16 * 16666) by nia.
  rewrite parse_layout; [|done|done|change MAX_MERKLE_PROOF_TRANSACTIONS with 16666; lia|lia|done|dlia].
  rewrite Hheight. change (Z.to_nat (default 0 (Some (Z.of_nat top)))) with (Z.to_nat (Z.of_nat top)).
  rewrite Nat2Z.id.
  rewrite (collect_extract sha256d txids requested ls top Hlevels ltac:(lia)
    (fun h Hh => proj2 (Hlev h Hh)) top 0 bits hs); try done; [|lia|apply flags_yield|apply hashes_yield].
  cbn [rbind]. rewrite (leaves_top txids top Hw), !Z.add_0_l, Hfl, !Z.eqb_refl. cbn [negb orb].
  rewrite bool_decide_eq_true_2; [done|]. unfold node, level. by rewrite Hlast.
Qed.

(** ** Proofs prove *)

Abbreviation hash32 := (Forall (fun h : bytes => length h = 32%nat)).

Lemma extract_length h pos total hashes flags hi fi r ms hi' fi' :
  hash32 hashes -> extract_merkle_node sha256d h pos total hashes flags hi fi = Ok (r, ms, hi', fi') ->
  length r = 32%nat.
Proof.
  intros Hh H.
  assert (forall i x, zget hashes i = Some x -> length x = 32%nat) as Hget.
  { intros i x Hx. unfold zget in Hx. destruct (i <? 0); [done|]. apply (Forall_lookup_1 _ _ _ _ Hh Hx). }
  destruct h as [|h]; cbn [extract_merkle_node] in H; res_inv; eauto.
  destruct (negb _); res_inv; eauto.
Qed.

(** A node that hashes to a node of the tree proves only leaves below it. *)
Lemma extract_sound txids h pos hashes flags hi fi r ms hi' fi' :
  hash32 txids -> hash32 hashes -> 0 <= pos < merkle_tree_width (zlen txids) (Z.of_nat h) ->
  extract_merkle_node sha256d h pos (zlen txids) hashes flags hi fi = Ok (r, ms, hi', fi') ->
  r = node sha256d txids h pos ->
  ms `sublist_of` leaves txids h pos \/ sha256d_collision sha256d.
Proof.
  intros Ht Hh. revert pos hi fi r ms hi' fi'. induction h as [|h IH]; intros pos hi fi r ms hi' fi' Hp H Hr.
  - cbn [extract_merkle_node] in H. res_inv. left. rewrite width_div in Hp by lia. simpl in Hp.
    rewrite Z.div_1_r in Hp. rewrite leaves_leaf by lia. unfold node. change (level _ _ 0) with txids.
    match goal with |- (if ?b then _ else _) `sublist_of` _ => destruct b end;
      [done|apply sublist_nil_l].
  - cbn [extract_merkle_node] in H. res_inv.
    destruct (negb _); res_inv; [left; apply sublist_nil_l|].
    rename select (extract_merkle_node _ _ _ _ _ _ _ _ = _) into Hl.
    match goal with H : (if _ then _ else Ok _) = Ok _ |- _ => rename H into Hrest end.
    rename select (combine_hashes _ _ _ = _) into Hc.
    rewrite node_children in Hc by done. rewrite leaves_split by lia.
    rewrite Nat2Z.inj_succ, <- Z.add_1_r, width_succ in Hp by lia.
    apply combine_inj in Hc as [[-> Hc]|]; [|by right|by eapply extract_length|apply node_length; done || dlia].
    destruct (IH (pos * 2) _ _ _ _ _ _ ltac:(dlia) Hl eq_refl) as [Hsl|]; [|by right].
    destruct (Z.ltb_spec (pos * 2 + 1) (merkle_tree_width (zlen txids) (Z.of_nat h))) as [Hw|Hw]; res_inv.
    + rename select (extract_merkle_node _ _ (_ + 1) _ _ _ _ _ = _) into Hr.
      destruct (IH (pos * 2 + 1) _ _ _ _ _ _ ltac:(lia) Hr eq_refl) as [Hsr|]; [|by right].
      left. by apply sublist_app.
    + left. rewrite app_nil_r. by apply sublist_inserts_r.
Qed.

Lemma read_hashes_length buffer position n hashes p :
  read_hashes buffer position n = Ok (hashes, p) -> hash32 hashes.
Proof.
  revert position hashes. induction n as [|n IH]; intros position hashes H; cbn [read_hashes] in H;
    res_inv; constructor; [|eauto]. unfold read_bytes in *. res_inv.
  rename select (get_range _ _ _ = _) into Hg. apply get_range_Some in Hg as (_ & _ & _ & Hl & _).
  rename select (checked_add _ _ _ = _) into Hadd. unfold checked_add in Hadd.
  destruct (_ <=? _); [|done]. injection Hadd as <-. unfold zlen in Hl. lia.
Qed.

Lemma reduces_levels l r :
  reduces sha256d l r ->
  exists h, Nat.iter h (next_layer sha256d) l = [r] /\
    forall j, (j < h)%nat -> 1 < zlen (Nat.iter j (next_layer sha256d) l).
Proof.
  induction 1 as [r|l r Hl _ (h & IH1 & IH2)]; [exists 0%nat; split; [done|lia]|].
  exists (S h). split; [by rewrite <- IH1, Nat.iter_swap|].
  intros [|j] Hj; [done|]. specialize (IH2 j ltac:(lia)). by rewrite Nat.iter_swap in IH2.
Qed.

(** C32: a proof proves.  Whatever bytes a proof is made of, when
    [parse_merkle_proof] accepts it for a header with the Merkle root of the
    transactions [txids] and for their number (the check of
    [verifytxoutproof]), the transactions it reports are transactions of the
    block, in block order, unless the proof exhibits a collision of the
    double SHA-256. *)
Theorem merkle_proof_sound proof header matches txids :
  hash32 txids ->
  fst (merkle_root_and_mutated_txid sha256d txids) = Some (header_merkle_root header) ->
  parse_merkle_proof sha256d Header decode_header header_merkle_root proof =
    Ok (Some (header, matches, zlen txids)) ->
  matches `sublist_of` txids \/ sha256d_collision sha256d.
Proof.
  intros H32 Hroot H. unfold parse_merkle_proof in H. res_inv.
  rename select (read_hashes _ _ _ = _) into Hrd. apply read_hashes_length in Hrd.
  rename select (extract_merkle_node _ _ _ _ _ _ _ _ = _) into He.
  match goal with H : (if ?b then _ else Ok None) = _ |- _ => destruct b eqn:Er; [|done] end.
  match goal with H : Ok (Some _) = _ |- _ => injection H as -> -> -> end.
  match goal with H : negb ((zlen txids =? 0) || _) = true |- _ =>
    apply negb_true_iff, orb_false_iff in H as [_ Hmax] end.
  bool_to_prop. subst. unfold merkle_root_and_mutated_txid in Hroot.
  destruct txids as [|t ts] eqn:Etx; [done|]. rewrite <- Etx in *.
  destruct (root_loop_total sha256d (length txids) txids None) as (r & m & Hloop & Hred); [by subst|done|].
  rewrite Hloop in Hroot. injection Hroot as Hroot. change (hash_at [r] 0) with r in Hroot. subst r.
  destruct (reduces_levels _ _ Hred) as (top & Htop & Hlev).
  assert (1 <= zlen txids) by (subst; unfold zlen; simpl; lia).
  destruct (merkle_tree_height_levels sha256d top txids _ Htop Hlev) as [Hh _]; [done|].
  rewrite Hh in He. change (Z.to_nat (default 0 (Some (Z.of_nat top)))) with (Z.to_nat (Z.of_nat top)) in He.
  rewrite Nat2Z.id in He.
  assert (merkle_tree_width (zlen txids) (Z.of_nat top) = 1) as Hw.
  { rewrite <- (zlen_level sha256d txids top). unfold level. by rewrite Htop. }
  apply extract_sound in He; [|done|done|lia|unfold node, level; by rewrite Htop].
  by rewrite leaves_top in He.
Qed.
End RoundTrip.

(** ** An instance: headers as their 80 bytes *)

Definition example_txids : list bytes := [example_hash 1; example_hash 2; example_hash 3].
Definition example_header : bytes := repeat 0 36 ++ example_hash 1 ++ repeat 0 12.
Definition example_root (header : bytes) : bytes := slice header 36 68.

Lemma merkle_proof_roundtrip_witness :
  exists proof,
    serialize_merkle_proof example_sha256d bytes id example_header example_txids [example_hash 3] = Ok proof /\
    parse_merkle_proof example_sha256d bytes Some example_root proof =
      Ok (Some (example_header, [example_hash 3], 3)).
Proof.
  apply (merkle_proof_roundtrip example_sha256d example_sha256d_length bytes id Some example_root
           example_header example_txids [example_hash 3]).
  - vm_compute. reflexivity.
  - reflexivity.
  - repeat constructor.
  - vm_compute. congruence.
  - vm_compute. reflexivity.
Defined.

(** The proof of the third transaction, written out: the count, two hashes and
    four flag bits. *)
Definition example_proof : bytes :=
  example_header ++ [3; 0; 0; 0; 2] ++ example_hash 1 ++ example_hash 3 ++ [1; 13].

Lemma merkle_proof_sound_witness :
  [example_hash 3] `sublist_of` example_txids \/ sha256d_collision example_sha256d.
Proof.
  apply (merkle_proof_sound example_sha256d example_sha256d_length bytes Some example_root
           example_proof example_header [example_hash 3] example_txids).
  - repeat constructor.
  - vm_compute. reflexivity.
  - vm_compute. reflexivity.
Defined.
