(* ===== verification/UtxoCodec.v ===== *)
(** * The coin codec of the UTXO store ([src/storage.rs])

    Core's compact coin representation: base-128 [VARINT]s, compressed
    amounts and compressed scripts, followed by the median-time-past field of
    this implementation, with the fallback to the older fixed-width records.
    The elliptic-curve key operations (the [secp256k1] crate) and the
    consensus decoder of an output (the [bitcoin] crate) are parameters.

    A [Cursor] is the list of bytes it has not read yet. *)

From Stdlib Require Import ZArith Lia.
From stdpp Require Import base list option strings.
From S2P Require Import Prelude Types.
Local Open Scope Z_scope.

Definition MAX_STORED_UTXO_SIZE : Z := 100 * 1024.
Definition MAX_STORED_UTXO_SCRIPT_SIZE : Z := 10000.
Definition COMPACT_STORED_UTXO_MAGIC : bytes := str "bitcoind-rs-utxo-v2" ++ [0].

Record StoredUtxo := {
  output : TxOut;
  height : Z;
  median_time_past : Z;
  coinbase : bool;
}.

Inductive UtxoError :=
| UnexpectedEof
| VarintTooLarge
| ScriptTooLarge
| ScriptSizeOverflow
| InvalidPublicKey
| AmountOverflow
| HeightTooLarge
| ValueTooLarge
| MetadataTooLarge
| AmountOutOfRange
| TrailingBytes
| TruncatedLegacy
| InvalidCoinbaseFlag
| LengthOverflow
| LengthMismatch
| InvalidOutput
| NotAnOutpoint.

(** ** Reading *)

Definition read_fixed_byte (cursor : bytes) : result UtxoError (Z * bytes) :=
  match cursor with
  | [] => Err UnexpectedEof
  | byte :: cursor => Ok (byte, cursor)
  end.

Definition read_fixed_vec (cursor : bytes) (length : Z) : result UtxoError (bytes * bytes) :=
  if zlen cursor <? length then Err UnexpectedEof
  else Ok (ztake length cursor, zdrop length cursor).

Definition read_fixed_u32 (cursor : bytes) : result UtxoError (Z * bytes) :=
  let? '(b, cursor) := read_fixed_vec cursor 4 in
  Ok (from_le b, cursor).

(** ** VARINT *)

(** The digits in the order of the first loop; ten are enough for 64 bits. *)
Fixpoint varint_digits (fuel : nat) (v continuation : Z) : bytes :=
  match fuel with
  | O => []
  | S fuel =>
      Z.lor (Z.land v 0x7f) continuation ::
      (if v <=? 0x7f then [] else varint_digits fuel (Z.shiftr v 7 - 1) 0x80)
  end.

Definition write_core_varint (v : Z) : bytes := reverse (varint_digits 10 v 0).

Fixpoint read_varint_loop (cursor : bytes) (v : Z) : result UtxoError (Z * bytes) :=
  match cursor with
  | [] => Err UnexpectedEof
  | digit :: cursor =>
      if Z.shiftr (umax 64) 7 <? v then Err VarintTooLarge
      else
        let v := Z.lor (Z.shiftl v 7) (Z.land digit 0x7f) in
        if negb (Z.land digit 0x80 =? 0) then
          if v =? umax 64 then Err VarintTooLarge
          else read_varint_loop cursor (v + 1)
        else Ok (v, cursor)
  end.

Definition read_core_varint (cursor : bytes) : result UtxoError (Z * bytes) :=
  read_varint_loop cursor 0.

(** ** Amounts *)

(** [while value % 10 == 0 && exponent < 9]; [n] is what is left to 9. *)
Fixpoint strip_zeros (n : nat) (v exponent : Z) : Z * Z :=
  match n with
  | O => (v, exponent)
  | S n => if v mod 10 =? 0 then strip_zeros n (v / 10) (exponent + 1) else (v, exponent)
  end.

Definition compress_core_amount (v : Z) : Z :=
  if v =? 0 then 0
  else
    let '(v, exponent) := strip_zeros 9 v 0 in
    if exponent <? 9 then
      let digit := v mod 10 in
      let v := v / 10 in
      1 + (v * 9 + digit - 1) * 10 + exponent
    else 1 + (v - 1) * 10 + 9.

Fixpoint times_ten (n : nat) (number : Z) : result UtxoError Z :=
  match n with
  | O => Ok number
  | S n =>
      let? number := ok_or (checked_mul 64 number 10) AmountOverflow in
      times_ten n number
  end.

Definition decompress_core_amount (v : Z) : result UtxoError Z :=
  if v =? 0 then Ok 0
  else
    let v := v - 1 in
    let exponent := v mod 10 in
    let v := v / 10 in
    let? number :=
      (if exponent <? 9 then
         let digit := v mod 9 + 1 in
         let v := v / 9 in
         ok_or (v ← checked_mul 64 v 10; checked_add 64 v digit) AmountOverflow
       else ok_or (checked_add 64 v 1) AmountOverflow) in
    times_ten (Z.to_nat exponent) number.

(** ** Scripts *)

Section Scripts.
(** [secp256k1::PublicKey] with [from_slice] and [serialize_uncompressed]. *)
Variable PublicKey : Type.
Variable from_slice : bytes -> option PublicKey.
Variable serialize_uncompressed : PublicKey -> bytes.

Definition is_p2pkh (script : bytes) : bool :=
  (zlen script =? 25) && bool_decide (slice script 0 3 = [0x76; 0xa9; 0x14]) &&
  bool_decide (zdrop 23 script = [0x88; 0xac]).
Definition is_p2sh (script : bytes) : bool :=
  (zlen script =? 23) && bool_decide (slice script 0 2 = [0xa9; 0x14]) &&
  (zat script 22 =? 0x87).
Definition is_p2pk_compressed (script : bytes) : bool :=
  (zlen script =? 35) && (zat script 0 =? 33) &&
  ((zat script 1 =? 2) || (zat script 1 =? 3)) && (zat script 34 =? 0xac).
Definition is_p2pk_uncompressed (script : bytes) : bool :=
  (zlen script =? 67) && (zat script 0 =? 65) && (zat script 1 =? 4) &&
  (zat script 66 =? 0xac) &&
  match from_slice (slice script 1 66) with
  | Some key => bool_decide (serialize_uncompressed key = slice script 1 66)
  | None => false
  end.

Definition write_core_script (script : bytes) : result UtxoError bytes :=
  if is_p2pkh script then Ok (0 :: slice script 3 23)
  else if is_p2sh script then Ok (1 :: slice script 2 22)
  else if is_p2pk_compressed script then Ok (slice script 1 34)
  else if is_p2pk_uncompressed script then
    let key := slice script 1 66 in
    Ok (Z.lor 0x04 (Z.land (zat key 64) 1) :: slice key 1 33)
  else
    check? zlen script <=? MAX_STORED_UTXO_SCRIPT_SIZE else ScriptTooLarge in
    let? size := ok_or (checked_add 64 (zlen script) 6) ScriptSizeOverflow in
    Ok (write_core_varint size ++ script).

Definition read_core_script (cursor : bytes) : result UtxoError (bytes * bytes) :=
  let? '(size, cursor) := read_core_varint cursor in
  if size <? 6 then
    let length := if size <=? 1 then 20 else 32 in
    let? '(data, cursor) := read_fixed_vec cursor length in
    if size =? 0 then Ok ([0x76; 0xa9; 0x14] ++ data ++ [0x88; 0xac], cursor)
    else if size =? 1 then Ok ([0xa9; 0x14] ++ data ++ [0x87], cursor)
    else if size <=? 3 then Ok ([33; size] ++ data ++ [0xac], cursor)
    else
      let? key := ok_or (from_slice ((size - 2) :: data)) InvalidPublicKey in
      Ok ([65] ++ serialize_uncompressed key ++ [0xac], cursor)
  else
    let length := size - 6 in
    check? length <=? MAX_STORED_UTXO_SCRIPT_SIZE else ScriptTooLarge in
    read_fixed_vec cursor length.

(** ** Coins *)

(** [deserialize::<TxOut>] *)
Variable deserialize_output : bytes -> option TxOut.

Definition encode_stored_utxo (entry : StoredUtxo) : result UtxoError bytes :=
  let? code := ok_or (code ← checked_mul 64 (height entry) 2;
                      checked_add 64 code (Z.b2z (coinbase entry))) HeightTooLarge in
  let compressed_amount := compress_core_amount (value (output entry)) in
  let? script := write_core_script (script_pubkey (output entry)) in
  let b := COMPACT_STORED_UTXO_MAGIC ++ write_core_varint code ++
           write_core_varint compressed_amount ++ script ++ to_le 4 (median_time_past entry) in
  check? zlen b <=? MAX_STORED_UTXO_SIZE else ValueTooLarge in
  Ok b.

Definition decode_compact_stored_utxo (b : bytes) : result UtxoError StoredUtxo :=
  let cursor := zdrop (zlen COMPACT_STORED_UTXO_MAGIC) b in
  let? '(code, cursor) := read_core_varint cursor in
  let? code := ok_or (try_u 32 code) MetadataTooLarge in
  let height := Z.shiftr code 1 in
  let coinbase := negb (Z.land code 1 =? 0) in
  let? '(amount, cursor) := read_core_varint cursor in
  let? value := decompress_core_amount amount in
  check? value <=? MAX_MONEY else AmountOutOfRange in
  let? '(script_pubkey, cursor) := read_core_script cursor in
  let? '(median_time_past, cursor) := read_fixed_u32 cursor in
  check? bool_decide (cursor = []) else TrailingBytes in
  Ok {| output := {| value := value; script_pubkey := script_pubkey |};
        height := height; median_time_past := median_time_past; coinbase := coinbase |}.

Definition decode_legacy_stored_utxo (b : bytes) : result UtxoError StoredUtxo :=
  check? 13 <=? zlen b else TruncatedLegacy in
  let height := from_le (slice b 0 4) in
  let median_time_past := from_le (slice b 4 8) in
  let? coinbase :=
    (if zat b 8 =? 0 then Ok false else if zat b 8 =? 1 then Ok true
     else Err InvalidCoinbaseFlag) in
  let output_len := from_le (slice b 9 13) in
  let? output_end := ok_or (checked_add 64 13 output_len) LengthOverflow in
  check? output_end =? zlen b else LengthMismatch in
  let? output := ok_or (deserialize_output (slice b 13 output_end)) InvalidOutput in
  Ok {| output := output; height := height; median_time_past := median_time_past;
        coinbase := coinbase |}.

Definition decode_stored_utxo (b : bytes) : result UtxoError StoredUtxo :=
  if starts_with b COMPACT_STORED_UTXO_MAGIC then decode_compact_stored_utxo b
  else decode_legacy_stored_utxo b.
End Scripts.

(** ** Outpoints *)

Definition encode_outpoint (outpoint : OutPoint) : bytes := txid outpoint ++ to_le 4 (vout outpoint).

Definition decode_outpoint (b : bytes) : result UtxoError OutPoint :=
  check? zlen b =? 36 else NotAnOutpoint in
  Ok {| txid := slice b 0 32; vout := from_le (zdrop 32 b) |}.

(** ** VARINT round trip *)

Lemma varint_digit v c :
  c = 0 \/ c = 0x80 ->
  let digit := Z.lor (Z.land v 0x7f) c in
  Z.land digit 0x7f = v mod 128 /\ Z.land digit 0x80 = c /\ is_byte digit.
Proof.
  intros Hc. cbn zeta.
  assert (Z.land v 0x7f = v mod 128) as -> by (apply (Z.land_ones v 7); lia).
  pose proof (Z.mod_pos_bound v 128 ltac:(lia)) as Hm. set (m := v mod 128) in *. clearbody m.
  assert ((Z.land (Z.lor m c) 0x7f =? m) && (Z.land (Z.lor m c) 0x80 =? c) &&
          (0 <=? Z.lor m c) && (Z.lor m c <? 256) || (128 <=? m) = true) as H.
  { revert m Hm. enough (forall m, is_byte m -> (Z.land (Z.lor m c) 0x7f =? m) &&
      (Z.land (Z.lor m c) 0x80 =? c) && (0 <=? Z.lor m c) && (Z.lor m c <? 256) || (128 <=? m) = true) as H
      by (intros m Hm; apply H; unfold is_byte; lia).
    apply byte_forall. destruct Hc as [-> | ->]; vm_compute; reflexivity. }
  bfalse (128 <=? m) in H. rewrite orb_false_r in H. bool_to_prop. unfold is_byte. lia.
Qed.

Lemma varint_step v : 0 <= v -> Z.lor (Z.shiftl (Z.shiftr v 7) 7) (v mod 128) = v.
Proof.
  intros Hv. pose proof (Z.mod_pos_bound v 128 ltac:(lia)) as Hm.
  rewrite lor_shiftl_add by (done || exact Hm).
  rewrite Z.shiftl_mul_pow2, Z.shiftr_div_pow2 by lia. change (2 ^ 7) with 128. dlia.
Qed.

Lemma varint_digits_S fuel v c :
  varint_digits (S fuel) v c = Z.lor (Z.land v 0x7f) c ::
    (if v <=? 0x7f then [] else varint_digits fuel (Z.shiftr v 7 - 1) 0x80).
Proof. reflexivity. Qed.

Lemma read_last v rest acc :
  0 <= v < umax 64 -> acc = Z.shiftr v 7 ->
  read_varint_loop (Z.lor (Z.land v 0x7f) 0x80 :: rest) acc = read_varint_loop rest (v + 1).
Proof.
  intros Hv ->. destruct (varint_digit v 0x80) as (H7 & H8 & _); [by right|].
  cbn [read_varint_loop]. rewrite H7, H8, varint_step by lia.
  rewrite !Z.shiftr_div_pow2 by lia. unfold umax in *. change (2 ^ 7) with 128.
  bfalse ((2 ^ 64 - 1) / 128 <? v / 128). simpl negb. cbv iota. bfalse (v =? 2 ^ 64 - 1). done.
Qed.

(** Continued digits leave one more than their value in the accumulator. *)
Lemma read_continued fuel v rest :
  0 <= v < umax 64 -> v < 128 ^ Z.of_nat (S fuel) ->
  read_varint_loop (reverse (varint_digits (S fuel) v 0x80) ++ rest) 0 = read_varint_loop rest (v + 1).
Proof.
  revert v rest. induction fuel as [|fuel IH]; intros v rest Hv Hf;
    rewrite varint_digits_S, reverse_cons, <- app_assoc; cbn [app].
  - rewrite Z.pow_1_r in Hf. btrue (v <=? 0x7f). simpl reverse. apply (read_last v rest 0); [done|].
    rewrite Z.shiftr_div_pow2 by lia. change (2 ^ 7) with 128. dlia.
  - destruct (Z.leb_spec v 0x7f).
    + apply (read_last v rest 0); [done|]. rewrite Z.shiftr_div_pow2 by lia. change (2 ^ 7) with 128. dlia.
    + rewrite Nat2Z.inj_succ, Z.pow_succ_r in Hf by lia.
      rewrite IH; rewrite ?Z.shiftr_div_pow2 by lia; change (2 ^ 7) with 128 in *.
      * apply read_last; [done|]. rewrite Z.shiftr_div_pow2 by lia. change (2 ^ 7) with 128. lia.
      * dlia.
      * assert (v / 128 < 128 ^ Z.of_nat (S fuel)) by (apply Z.div_lt_upper_bound; lia). lia.
Qed.

Lemma varint_roundtrip v rest :
  in_u 64 v -> read_core_varint (write_core_varint v ++ rest) = Ok (v, rest).
Proof.
  unfold in_u, read_core_varint, write_core_varint. intros Hv. rewrite varint_digits_S.
  destruct (varint_digit v 0) as (H7 & H8 & _); [by left|].
  rewrite reverse_cons, <- app_assoc. cbn [app].
  assert (forall acc, acc = Z.shiftr v 7 ->
    read_varint_loop (Z.lor (Z.land v 0x7f) 0 :: rest) acc = Ok (v, rest)) as Hlast.
  { intros acc ->. cbn [read_varint_loop]. rewrite H7, H8, varint_step by lia.
    rewrite !Z.shiftr_div_pow2 by lia. unfold umax. change (2 ^ 7) with 128.
    bfalse ((2 ^ 64 - 1) / 128 <? v / 128). done. }
  destruct (Z.leb_spec v 0x7f).
  - apply Hlast. rewrite Z.shiftr_div_pow2 by lia. change (2 ^ 7) with 128. dlia.
  - rewrite read_continued; rewrite ?Z.shiftr_div_pow2 by lia; change (2 ^ 7) with 128.
    + apply Hlast. rewrite Z.shiftr_div_pow2 by lia. change (2 ^ 7) with 128. lia.
    + unfold umax. dlia.
    + simpl Z.of_nat. change (128 ^ 9) with 9223372036854775808. dlia.
Qed.

Lemma varint_digits_bytes fuel v c : c = 0 \/ c = 0x80 -> all_bytes (varint_digits fuel v c).
Proof.
  revert v c. induction fuel as [|fuel IH]; intros v c Hc; [constructor|]. cbn [varint_digits].
  constructor; [by apply varint_digit|]. destruct (v <=? 0x7f); [constructor|]. apply IH. by right.
Qed.

Lemma varint_short v : zlen (write_core_varint v) <= 10.
Proof.
  unfold write_core_varint, zlen. rewrite length_reverse.
  enough (forall fuel c, (length (varint_digits fuel v c) <= fuel)%nat) as H by (specialize (H 10%nat 0); lia).
  intros fuel. revert v. induction fuel as [|fuel IH]; intros v c; simpl; [lia|].
  destruct (v <=? 127); simpl; [lia|]. specialize (IH (Z.shiftr v 7 - 1) 128). lia.
Qed.

(** ** Amounts *)

Lemma strip_zeros_spec n v e v' e' :
  0 < v -> strip_zeros n v e = (v', e') ->
  0 < v' /\ e <= e' <= e + Z.of_nat n /\ v = v' * 10 ^ (e' - e) /\
  (e' < e + Z.of_nat n -> v' mod 10 <> 0).
Proof.
  revert v e. induction n as [|n IH]; intros v e Hv H; cbn [strip_zeros] in H.
  - injection H as <- <-. rewrite Z.sub_diag. simpl. lia.
  - destruct (Z.eqb_spec (v mod 10) 0) as [E|E].
    + apply IH in H as (H1 & H2 & H3 & H4); [|dlia]. split; [done|]. split; [lia|]. split.
      * replace (e' - e) with (1 + (e' - (e + 1))) by lia. rewrite Z.pow_add_r by lia.
        replace v with (10 * (v / 10)) by dlia. rewrite H3 at 1. lia.
      * intros. apply H4. lia.
    + injection H as <- <-. rewrite Z.sub_diag. simpl. lia.
Qed.

Lemma times_ten_ok n v : 0 <= v -> v * 10 ^ Z.of_nat n <= umax 64 -> times_ten n v = Ok (v * 10 ^ Z.of_nat n).
Proof.
  revert v. induction n as [|n IH]; intros v Hv Hm; cbn [times_ten].
  - simpl. f_equal. lia.
  - rewrite Nat2Z.inj_succ, Z.pow_succ_r in * by lia.
    assert (1 <= 10 ^ Z.of_nat n) by (assert (0 < 10 ^ Z.of_nat n) by (apply Z.pow_pos_nonneg; lia); lia).
    unfold checked_mul. assert (v * 10 <= umax 64) by nia. btrue (v * 10 <=? umax 64).
    cbn [ok_or rbind]. rewrite IH by lia. f_equal. lia.
Qed.

(** Within the money range the compression loses nothing and stays far below
    64 bits at every step. *)
Lemma amount_roundtrip v :
  0 <= v <= MAX_MONEY ->
  decompress_core_amount (compress_core_amount v) = Ok v /\ 0 <= compress_core_amount v < 2 ^ 55.
Proof.
  unfold MAX_MONEY. intros Hv. unfold compress_core_amount.
  destruct (Z.eqb_spec v 0) as [->|Hv0]; [done|].
  destruct (strip_zeros 9 v 0) as [v' e] eqn:E.
  apply strip_zeros_spec in E as (Hv' & He & Heq & Hd); [|lia]. rewrite Z.sub_0_r in Heq.
  assert (v' <= v) by (assert (0 < 10 ^ e) by (apply Z.pow_pos_nonneg; lia); nia).
  assert (v' * 10 ^ Z.of_nat (Z.to_nat e) <= umax 64) by (rewrite Z2Nat.id by lia; unfold umax; lia).
  assert (v = v' * 10 ^ Z.of_nat (Z.to_nat e)) as Hval by (rewrite Z2Nat.id by lia; lia).
  unfold decompress_core_amount, checked_mul, checked_add, umax.
  destruct (Z.ltb_spec e 9) as [He9|He9].
  - specialize (Hd ltac:(lia)). set (w := v' / 10 * 9 + v' mod 10 - 1).
    assert (0 <= w /\ w < 2 ^ 51) by (unfold w; dlia).
    split; [|lia]. bfalse (1 + w * 10 + e =? 0).
    replace (1 + w * 10 + e - 1) with (w * 10 + e) by lia.
    replace ((w * 10 + e) mod 10) with e by dlia. replace ((w * 10 + e) / 10) with w by dlia.
    btrue (e <? 9). replace (w mod 9 + 1) with (v' mod 10) by (unfold w; dlia).
    replace (w / 9) with (v' / 10) by (unfold w; dlia).
    btrue (v' / 10 * 10 <=? 2 ^ 64 - 1). cbn [mbind option_bind].
    btrue (v' / 10 * 10 + v' mod 10 <=? 2 ^ 64 - 1). cbn [ok_or rbind].
    replace (v' / 10 * 10 + v' mod 10) with v' by dlia. rewrite Hval at 1. apply times_ten_ok; lia.
  - assert (e = 9) as -> by lia. split; [|lia].
    bfalse (1 + (v' - 1) * 10 + 9 =? 0).
    replace ((1 + (v' - 1) * 10 + 9 - 1) mod 10) with 9 by dlia.
    replace ((1 + (v' - 1) * 10 + 9 - 1) / 10) with (v' - 1) by dlia. simpl Z.ltb. cbv iota.
    btrue (v' - 1 + 1 <=? 2 ^ 64 - 1). cbn [ok_or rbind].
    replace (v' - 1 + 1) with v' by lia. rewrite Hval at 1. apply times_ten_ok; lia.
Qed.

(** ** Scripts *)

Lemma read_small_varint b rest : 0 <= b < 128 -> read_core_varint (b :: rest) = Ok (b, rest).
Proof.
  intros Hb. unfold read_core_varint. cbn [read_varint_loop].
  change (Z.shiftr (umax 64) 7 <? 0) with false.
  rewrite byte_land_7f, byte_land_80 by (unfold is_byte; lia).
  replace (b / 128) with 0 by dlia. replace (b mod 128) with b by dlia. done.
Qed.

Lemma read_fixed_vec_app x rest n : n = zlen x -> read_fixed_vec (x ++ rest) n = Ok (x, rest).
Proof.
  intros ->. unfold read_fixed_vec. pose proof (zlen_nonneg rest).
  rewrite zlen_app. bfalse (zlen x + zlen rest <? zlen x).
  by rewrite ztake_app_eq, zdrop_app_eq.
Qed.

Section ScriptRoundTrip.
Variable PublicKey : Type.
Variable from_slice : bytes -> option PublicKey.
Variable serialize_uncompressed : PublicKey -> bytes.
(** A point is determined by its abscissa and the parity of its ordinate: the
    compressed form of an uncompressed key parses to the same key. *)
Hypothesis from_slice_compressed : forall key x y,
  length x = 32%nat -> length y = 32%nat ->
  from_slice (4 :: x ++ y) = Some key -> serialize_uncompressed key = 4 :: x ++ y ->
  exists key', from_slice (2 + Z.land (zat y 31) 1 :: x) = Some key' /\
    serialize_uncompressed key' = 4 :: x ++ y.

Abbreviation write_script := (write_core_script PublicKey from_slice serialize_uncompressed).
Abbreviation read_script := (read_core_script PublicKey from_slice serialize_uncompressed).

Lemma p2pkh_shape s : is_p2pkh s = true ->
  s = [0x76; 0xa9; 0x14] ++ slice s 3 23 ++ [0x88; 0xac] /\ zlen (slice s 3 23) = 20.
Proof.
  unfold is_p2pkh. intros H. bool_to_prop. split; [|apply zlen_slice; lia].
  rewrite (slice_decompose s 3 23) at 1 by lia. congruence.
Qed.

Lemma p2sh_shape s : is_p2sh s = true ->
  s = [0xa9; 0x14] ++ slice s 2 22 ++ [0x87] /\ zlen (slice s 2 22) = 20.
Proof.
  unfold is_p2sh. intros H. bool_to_prop. split; [|apply zlen_slice; lia].
  rewrite (slice_decompose s 2 22) at 1 by lia. rewrite (zdrop_one s 22) by lia. congruence.
Qed.

Lemma p2pk_compressed_shape s : is_p2pk_compressed s = true ->
  exists b, (b = 2 \/ b = 3) /\ slice s 1 34 = b :: slice s 2 34 /\
    s = [33; b] ++ slice s 2 34 ++ [0xac] /\ zlen (slice s 2 34) = 32.
Proof.
  unfold is_p2pk_compressed. intros H. bool_to_prop. apply orb_true_iff in H1. rewrite !Z.eqb_eq in H1.
  assert (slice s 1 34 = zat s 1 :: slice s 2 34) as E.
  { by rewrite (slice_split s 1 2), (slice_one s 1 2) by lia. }
  exists (zat s 1). split; [done|]. split; [done|]. split; [|apply zlen_slice; lia].
  rewrite (slice_decompose s 1 34) at 1 by lia. rewrite (zdrop_one s 34), (slice_one s 0 1), E by lia.
  simpl. congruence.
Qed.

Lemma p2pk_uncompressed_shape s :
  is_p2pk_uncompressed PublicKey from_slice serialize_uncompressed s = true ->
  exists key x y, length x = 32%nat /\ length y = 32%nat /\ slice s 1 66 = 4 :: x ++ y /\
    s = [65] ++ (4 :: x ++ y) ++ [0xac] /\
    from_slice (4 :: x ++ y) = Some key /\ serialize_uncompressed key = 4 :: x ++ y.
Proof.
  unfold is_p2pk_uncompressed. intros H. bool_to_prop.
  destruct (from_slice (slice s 1 66)) as [key|] eqn:Ek; [|done]. bool_to_prop.
  assert (slice s 1 66 = 4 :: slice s 2 34 ++ slice s 34 66) as E.
  { rewrite (slice_split s 1 2), (slice_one s 1 2), (slice_split s 2 34) by lia. simpl. congruence. }
  pose proof (zlen_slice s 2 34 ltac:(lia) ltac:(lia)). pose proof (zlen_slice s 34 66 ltac:(lia) ltac:(lia)).
  exists key, (slice s 2 34), (slice s 34 66). rewrite E in *. unfold zlen in *.
  split; [lia|]. split; [lia|]. split; [done|]. split; [|done].
  rewrite (slice_decompose s 1 66) at 1 by (unfold zlen; lia).
  rewrite (zdrop_one s 66), (slice_one s 0 1) by (unfold zlen; lia). rewrite E. simpl. congruence.
Qed.

Lemma p2pk_uncompressed_roundtrip s rest :
  is_p2pk_uncompressed PublicKey from_slice serialize_uncompressed s = true ->
  read_script ((Z.lor 4 (Z.land (zat (slice s 1 66) 64) 1) :: slice (slice s 1 66) 1 33) ++ rest) =
  Ok (s, rest).
Proof.
  intros H. apply p2pk_uncompressed_shape in H as (key & x & y & Hx & Hy & Ek & E & Hk & Hu).
  unfold read_core_script. rewrite Ek.
  destruct (from_slice_compressed key x y Hx Hy Hk Hu) as (key' & Hk' & Hu').
  assert (slice (4 :: x ++ y) 1 33 = x) as ->.
  { apply (slice_app [4] x y); unfold zlen; rewrite ?Hx; done. }
  assert (zat (4 :: x ++ y) 64 = zat y 31) as ->.
  { unfold zat, zget. change (64 <? 0) with false. rewrite lookup_cons_ne_0 by lia.
    rewrite lookup_app_r by (rewrite Hx; simpl; lia). by rewrite Hx. }
  assert (Z.land (zat y 31) 1 = zat y 31 mod 2) as El by (apply (Z.land_ones _ 1); lia).
  rewrite El in *. pose proof (Z.mod_pos_bound (zat y 31) 2 ltac:(lia)).
  set (p := zat y 31 mod 2) in *. clearbody p.
  replace (Z.lor 4 p) with (4 + p) by (assert (p = 0 \/ p = 1) as [-> | ->] by lia; done).
  cbn [app]. rewrite read_small_varint by lia. cbn [rbind]. btrue (4 + p <? 6). bfalse (4 + p <=? 1).
  rewrite read_fixed_vec_app by (unfold zlen; lia). cbn [rbind].
  bfalse (4 + p =? 0). bfalse (4 + p =? 1). bfalse (4 + p <=? 3).
  replace (4 + p - 2) with (2 + p) by lia. rewrite Hk'. cbn [ok_or rbind]. rewrite Hu'.
  exact (f_equal (fun x => Ok (x, rest)) (eq_sym E)).
Qed.

(** The encoding of a script is read back, whatever follows it. *)
Lemma script_roundtrip s b rest :
  all_bytes s -> write_script s = Ok b -> read_script (b ++ rest) = Ok (s, rest).
Proof.
  intros Hs H. unfold write_core_script in H. unfold read_core_script.
  destruct (is_p2pkh s) eqn:E1.
  { injection H as <-. apply p2pkh_shape in E1 as [E Hl]. cbn [app].
    rewrite read_small_varint by lia. cbn [rbind]. change (0 <? 6) with true. change (0 <=? 1) with true.
    rewrite read_fixed_vec_app by done. cbn [rbind]. change (0 =? 0) with true. exact (f_equal (fun x => Ok (x, rest)) (eq_sym E)). }
  destruct (is_p2sh s) eqn:E2.
  { injection H as <-. apply p2sh_shape in E2 as [E Hl]. cbn [app].
    rewrite read_small_varint by lia. cbn [rbind]. change (1 <? 6) with true. change (1 <=? 1) with true.
    rewrite read_fixed_vec_app by done. cbn [rbind]. change (1 =? 0) with false.
    change (1 =? 1) with true. exact (f_equal (fun x => Ok (x, rest)) (eq_sym E)). }
  destruct (is_p2pk_compressed s) eqn:E3.
  { injection H as <-. apply p2pk_compressed_shape in E3 as (p & Hp & -> & E & Hl). cbn [app].
    rewrite read_small_varint by lia. cbn [rbind].
    btrue (p <? 6). bfalse (p <=? 1). rewrite read_fixed_vec_app by done. cbn [rbind].
    bfalse (p =? 0). bfalse (p =? 1). btrue (p <=? 3). exact (f_equal (fun x => Ok (x, rest)) (eq_sym E)). }
  destruct (is_p2pk_uncompressed _ _ _ s) eqn:E4.
  { injection H as <-. by apply p2pk_uncompressed_roundtrip. }
  res_inv. unfold checked_add in *. destruct (_ <=? umax 64) eqn:E5; [|done].
  rename select (Some _ = Some _) into Hx. injection Hx as <-. bool_to_prop.
  unfold MAX_STORED_UTXO_SCRIPT_SIZE, umax in *. pose proof (zlen_nonneg s).
  rewrite <- app_assoc, varint_roundtrip by (unfold in_u; lia). cbn [rbind].
  bfalse (zlen s + 6 <? 6). replace (zlen s + 6 - 6) with (zlen s) by lia. btrue (zlen s <=? 10000).
  by apply read_fixed_vec_app.
Qed.

Lemma write_script_total s :
  zlen s <= MAX_STORED_UTXO_SCRIPT_SIZE -> exists b, write_script s = Ok b /\ zlen b <= 10010.
Proof.
  unfold MAX_STORED_UTXO_SCRIPT_SIZE. intros Hs. unfold write_core_script.
  assert (forall a b x, zlen (x :: slice s a b) <= 10010) as Hsl.
  { intros a b x. rewrite zlen_cons. unfold slice, ztake, zdrop, zlen in *.
    rewrite length_take, length_drop. lia. }
  destruct (is_p2pkh s); [eauto|]. destruct (is_p2sh s); [eauto|].
  destruct (is_p2pk_compressed s).
  { eexists. split; [done|]. specialize (Hsl 1 34 0). rewrite zlen_cons in Hsl. lia. }
  destruct (is_p2pk_uncompressed _ _ _ s).
  { eexists. split; [done|]. rewrite zlen_cons. unfold slice, ztake, zdrop, zlen in *.
    rewrite !length_take, !length_drop, !length_take, !length_drop. lia. }
  unfold MAX_STORED_UTXO_SCRIPT_SIZE, checked_add, umax. pose proof (zlen_nonneg s).
  btrue (zlen s <=? 10000). btrue (zlen s + 6 <=? 2 ^ 64 - 1). cbn [ok_or rbind].
  eexists. split; [done|]. rewrite zlen_app. pose proof (varint_short (zlen s + 6)). lia.
Qed.

Variable deserialize_output : bytes -> option TxOut.

(** The coins a valid chain can hold. *)
Definition utxo_wf (e : StoredUtxo) : Prop :=
  0 <= height e < 2 ^ 31 /\ 0 <= value (output e) <= MAX_MONEY /\ in_u 32 (median_time_past e) /\
  all_bytes (script_pubkey (output e)) /\
  zlen (script_pubkey (output e)) <= MAX_STORED_UTXO_SCRIPT_SIZE.

Lemma decode_code h (c : bool) :
  0 <= h -> Z.shiftr (h * 2 + Z.b2z c) 1 = h /\ negb (Z.land (h * 2 + Z.b2z c) 1 =? 0) = c.
Proof.
  intros Hh. rewrite Z.shiftr_div_pow2 by lia. change (2 ^ 1) with 2.
  assert (Z.land (h * 2 + Z.b2z c) 1 = (h * 2 + Z.b2z c) mod 2) as -> by (apply (Z.land_ones _ 1); lia).
  destruct c; simpl Z.b2z; [replace ((h * 2 + 1) mod 2) with 1 by dlia|replace ((h * 2 + 0) mod 2) with 0 by dlia];
    (split; [dlia|done]).
Qed.

Lemma stored_utxo_codec e :
  utxo_wf e ->
  exists b, encode_stored_utxo PublicKey from_slice serialize_uncompressed e = Ok b /\
    decode_stored_utxo PublicKey from_slice serialize_uncompressed deserialize_output b = Ok e.
Proof.
  intros (Hh & Hv & Hm & Hs & Hl). destruct e as [[v s] h m c]. cbn [height value output median_time_past script_pubkey] in *.
  destruct (write_script_total s Hl) as (script & Hw & Hlen).
  destruct (amount_roundtrip v Hv) as [Hamt Hamtb].
  destruct (decode_code h c ltac:(lia)) as [Hdh Hdc].
  assert (0 <= Z.b2z c <= 1) as Hc by (destruct c; simpl; lia).
  set (code := h * 2 + Z.b2z c) in *.
  set (tail := write_core_varint code ++ write_core_varint (compress_core_amount v) ++ script ++ to_le 4 m).
  exists (COMPACT_STORED_UTXO_MAGIC ++ tail). split.
  - unfold encode_stored_utxo, checked_mul, checked_add, umax. cbn [height value output median_time_past script_pubkey coinbase].
    btrue (h * 2 <=? 2 ^ 64 - 1). cbn [mbind option_bind]. fold code. btrue (code <=? 2 ^ 64 - 1).
    cbn [ok_or rbind]. rewrite Hw. cbn [rbind]. fold tail.
    assert (zlen (COMPACT_STORED_UTXO_MAGIC ++ tail) <= MAX_STORED_UTXO_SIZE) as Hsz.
    { unfold tail. rewrite !zlen_app, zlen_to_le. change (zlen COMPACT_STORED_UTXO_MAGIC) with 20.
      pose proof (varint_short code). pose proof (varint_short (compress_core_amount v)).
      unfold MAX_STORED_UTXO_SIZE. lia. }
    by rewrite (proj2 (Z.leb_le _ _) Hsz).
  - unfold decode_stored_utxo. rewrite starts_with_app. unfold decode_compact_stored_utxo.
    rewrite zdrop_app_eq by done. unfold tail. rewrite varint_roundtrip by (unfold in_u; lia). cbn [rbind].
    unfold try_u, umax. btrue ((0 <=? code) && (code <=? 2 ^ 32 - 1)). cbn [ok_or rbind].
    rewrite varint_roundtrip by (unfold in_u; lia). cbn [rbind]. rewrite Hamt. cbn [rbind].
    btrue (v <=? MAX_MONEY). rewrite (script_roundtrip s script _ Hs Hw). cbn [rbind].
    unfold read_fixed_u32. rewrite <- (app_nil_r (to_le 4 m)), read_fixed_vec_app by (by rewrite zlen_to_le).
    cbn [rbind]. rewrite bool_decide_eq_true_2 by done.
    rewrite (from_to_le_small 4 32), Hdh, Hdc by done. done.
Qed.

(** C37: every coin of a valid chain survives storage: encoding succeeds, and
    decoding the record gives the same output, height, median time past and
    coinbase flag - for every script form, compressed or not. *)
Theorem stored_utxo_roundtrip e :
  utxo_wf e ->
  exists b, encode_stored_utxo PublicKey from_slice serialize_uncompressed e = Ok b /\
    decode_stored_utxo PublicKey from_slice serialize_uncompressed deserialize_output b = Ok e.
Proof. apply stored_utxo_codec. Qed.

(** The layout of the records of older versions. *)
Definition legacy_record (h m : Z) (c : bool) (out : bytes) : bytes :=
  to_le 4 h ++ to_le 4 m ++ [Z.b2z c] ++ to_le 4 (zlen out) ++ out.

Lemma legacy_not_compact h m c out :
  0 <= h < 0x63746962 -> starts_with (legacy_record h m c out) COMPACT_STORED_UTXO_MAGIC = false.
Proof.
  intros Hh. unfold starts_with. apply bool_decide_eq_false. intros E.
  apply (f_equal (take 4)) in E. rewrite take_take in E. simpl (4 `min` _)%nat in E.
  unfold legacy_record in E. rewrite take_app_le in E by (rewrite length_to_le; lia).
  rewrite take_ge in E by (rewrite length_to_le; lia). apply (f_equal from_le) in E.
  rewrite (from_to_le_small 4 32) in E by (unfold in_u; lia). vm_compute in E. lia.
Qed.

Lemma slice_app_at {A} (a x b : list A) i j :
  i = zlen a -> j = i + zlen x -> slice (a ++ x ++ b) i j = x.
Proof. intros -> ->. by apply slice_app. Qed.

(** Records of the old fixed-width format keep decoding: no record with
    a height below 0x63746962 (1.6 billion) starts with the magic of the new
    format, and its fields are read back. *)
Theorem legacy_utxo_decodes h m c out o :
  0 <= h < 0x63746962 -> in_u 32 m -> zlen out < 2 ^ 32 -> deserialize_output out = Some o ->
  decode_stored_utxo PublicKey from_slice serialize_uncompressed deserialize_output
    (legacy_record h m c out) =
  Ok {| output := o; height := h; median_time_past := m; coinbase := c |}.
Proof.
  intros Hh Hm Hout Ho. unfold decode_stored_utxo. rewrite legacy_not_compact by done.
  unfold decode_legacy_stored_utxo. pose proof (zlen_nonneg out).
  assert (zlen (legacy_record h m c out) = 13 + zlen out) as Hlen by (unfold legacy_record; zlen; lia).
  rewrite Hlen. btrue (13 <=? 13 + zlen out). unfold legacy_record.
  set (A := to_le 4 h). set (B := to_le 4 m). set (C := to_le 4 (zlen out)).
  assert (zlen A = 4 /\ zlen B = 4 /\ zlen C = 4) as (HA & HB & HC) by (unfold A, B, C; by zlen).
  assert (slice (A ++ B ++ [Z.b2z c] ++ C ++ out) 0 4 = A) as ->
    by (apply (slice_app_at [] A); rewrite ?HA; done).
  assert (slice (A ++ B ++ [Z.b2z c] ++ C ++ out) 4 8 = B) as ->
    by (apply (slice_app_at A B); lia).
  assert (zat (A ++ B ++ [Z.b2z c] ++ C ++ out) 8 = Z.b2z c) as ->.
  { unfold zat. rewrite app_assoc. cbn [app]. by rewrite zget_app by (rewrite zlen_app; lia). }
  assert (slice (A ++ B ++ [Z.b2z c] ++ C ++ out) 9 13 = C) as ->.
  { rewrite !app_assoc. rewrite <- (app_assoc _ C). apply slice_app_at; rewrite ?HC; zlen; lia. }
  assert (slice (A ++ B ++ [Z.b2z c] ++ C ++ out) 13 (13 + zlen out) = out) as Hsl.
  { rewrite !app_assoc. rewrite <- (app_nil_r out) at 1. apply slice_app_at; zlen; lia. }
  assert (from_le A = h /\ from_le B = m /\ from_le C = zlen out) as (-> & -> & ->).
  { unfold A, B, C. rewrite !(from_to_le_small 4 32) by (unfold in_u in *; lia). done. }
  unfold checked_add, umax. destruct c; cbn [Z.b2z Z.eqb rbind ok_or] in *;
    (btrue (13 + zlen out <=? 2 ^ 64 - 1)); cbn [rbind ok_or]; rewrite Z.eqb_refl; rewrite Hsl, Ho; done.
Qed.
End ScriptRoundTrip.

(** ** An instance: a toy curve

    A key is its abscissa and the parity bit, which is all of its ordinate. *)
Definition toy_uncompressed (key : bytes * Z) : bytes := 4 :: key.1 ++ repeat 0 31 ++ [key.2].
Definition toy_from_slice (b : bytes) : option (bytes * Z) :=
  match b with
  | prefix :: rest =>
      if (prefix =? 4) && (zlen rest =? 64) then
        if bool_decide (slice rest 32 63 = repeat 0 31) && ((zat rest 63 =? 0) || (zat rest 63 =? 1))
        then Some (ztake 32 rest, zat rest 63) else None
      else if ((prefix =? 2) || (prefix =? 3)) && (zlen rest =? 32) then Some (rest, prefix - 2)
      else None
  | [] => None
  end.

Lemma toy_compressed key x y :
  length x = 32%nat -> length y = 32%nat ->
  toy_from_slice (4 :: x ++ y) = Some key -> toy_uncompressed key = 4 :: x ++ y ->
  exists key', toy_from_slice (2 + Z.land (zat y 31) 1 :: x) = Some key' /\
    toy_uncompressed key' = 4 :: x ++ y.
Proof.
  intros Hx Hy H E. destruct key as [kx ky]. unfold toy_uncompressed in *. simpl in *.
  destruct (zlen (x ++ y) =? 64); [|done].
  destruct (_ && _) eqn:Eb; [|done]. injection H as Hkx Hky. bool_to_prop.
  rewrite (ztake_app_eq x y) in Hkx by (unfold zlen; lia). subst kx.
  assert (zat (x ++ y) 63 = zat y 31) as Hz.
  { unfold zat, zget. simpl Z.ltb. cbv iota. rewrite lookup_app_r by (rewrite Hx; simpl; lia). by rewrite Hx. }
  rewrite Hz in *. subst ky. apply orb_true_iff in H0. rewrite !Z.eqb_eq in H0.
  exists (x, zat y 31). unfold zlen. rewrite Hx. destruct H0 as [E0|E0]; rewrite E0 in *;
    (split; [reflexivity|exact E]).
Qed.

Definition toy_deserialize (b : bytes) : option TxOut := Some {| value := from_le b; script_pubkey := [] |}.

Definition toy_p2pk : bytes := [65; 4] ++ repeat 7 32 ++ repeat 0 31 ++ [1] ++ [0xac].
Definition toy_coin : StoredUtxo :=
  {| output := {| value := 5000000000; script_pubkey := toy_p2pk |};
     height := 210000; median_time_past := 1354116278; coinbase := true |}.

Lemma stored_utxo_roundtrip_witness :
  exists b, encode_stored_utxo _ toy_from_slice toy_uncompressed toy_coin = Ok b /\
    decode_stored_utxo _ toy_from_slice toy_uncompressed toy_deserialize b = Ok toy_coin.
Proof.
  apply (stored_utxo_roundtrip _ toy_from_slice toy_uncompressed toy_compressed toy_deserialize toy_coin).
  unfold utxo_wf, in_u, toy_coin, MAX_MONEY. cbn [height value output median_time_past script_pubkey].
  repeat split; try lia; [repeat constructor; vm_compute; congruence|vm_compute; congruence].
Defined.

Lemma legacy_utxo_decodes_witness :
  decode_stored_utxo _ toy_from_slice toy_uncompressed toy_deserialize
    (legacy_record 170 1231731025 false [16; 39]) =
  Ok {| output := {| value := 10000; script_pubkey := [] |}; height := 170;
        median_time_past := 1231731025; coinbase := false |}.
Proof.
  apply (legacy_utxo_decodes _ toy_from_slice toy_uncompressed toy_deserialize 170 1231731025 false [16; 39]).
  - lia.
  - unfold in_u. lia.
  - vm_compute. reflexivity.
  - reflexivity.
Defined.
