(* ===== verification/UtxoCache.v ===== *)
(** * The decoded-coin cache ([storage.rs])

    The cache that the coin store reads through: coins in shards by their
    transaction id, a byte budget, eviction of arbitrary coins in turn from
    the shards, and a flag that claims the cache has every coin.  What the
    cache holds after an operation was there before or has just been put in. *)

From Stdlib Require Import ZArith Lia.
From stdpp Require Import base list option gmap sets strings sorting.
From S2P Require Import Prelude Types UtxoCodec.
Local Open Scope Z_scope.
Local Set Warnings "-clear-no-such-hyp".

Create HintDb coins.

(** Iteration over a hash map with outpoints as keys: every entry once, in an
    order of the implementation's choice. *)
Class CoinOrder := {
  coin_iter {A} : gmap OutPoint A -> list (OutPoint * A);
  coin_iter_perm {A} (m : gmap OutPoint A) : coin_iter m ≡ₚ map_to_list m;
}.

Definition UTXO_CACHE_SHARDS : nat := 384.
Definition UTXO_CACHE_CONTAINER_OVERHEAD : Z := 96.
Definition UTXO_PENDING_CONTAINER_OVERHEAD : Z := 96.

Record UtxoReadCache := {
  rc_entries : list (gmap OutPoint StoredUtxo);
  rc_eviction_shard : nat;
  rc_entry_count : Z;
  rc_bytes : Z;
  rc_limit : Z;
  rc_complete : bool;
}.

Local Open Scope sat_scope.

Definition stored_utxo_cache_bytes (entry : StoredUtxo) : Z := 64 +^ zlen (script_pubkey (output entry)).
Definition read_cache_utxo_bytes (entry : StoredUtxo) : Z := stored_utxo_cache_bytes entry +^ UTXO_CACHE_CONTAINER_OVERHEAD.
Definition pending_utxo_bytes (entry : option StoredUtxo) : Z :=
  48 +^ UTXO_PENDING_CONTAINER_OVERHEAD +^ match entry with Some entry => stored_utxo_cache_bytes entry | None => 0 end.

Definition empty_shards : list (gmap OutPoint StoredUtxo) := repeat ∅ UTXO_CACHE_SHARDS.
Definition default_cache : UtxoReadCache :=
  {| rc_entries := empty_shards; rc_eviction_shard := 0; rc_entry_count := 0; rc_bytes := 0; rc_limit := 0; rc_complete := false |}.

Definition shard_index (outpoint : OutPoint) : nat :=
  Z.to_nat (from_le [zat (txid outpoint) 0; zat (txid outpoint) 1]) `mod` UTXO_CACHE_SHARDS.
Definition shard (c : UtxoReadCache) (i : nat) : gmap OutPoint StoredUtxo := default ∅ (rc_entries c !! i).

Definition set_complete (b : bool) (c : UtxoReadCache) : UtxoReadCache :=
  {| rc_entries := rc_entries c; rc_eviction_shard := rc_eviction_shard c; rc_entry_count := rc_entry_count c;
     rc_bytes := rc_bytes c; rc_limit := rc_limit c; rc_complete := b |}.

Definition cache_get (c : UtxoReadCache) (outpoint : OutPoint) : option StoredUtxo := shard c (shard_index outpoint) !! outpoint.

(** The entry of a shard is put in or taken out, with the accounting. *)
Definition put (outpoint : OutPoint) (entry : StoredUtxo) (c : UtxoReadCache) : UtxoReadCache :=
  let i := shard_index outpoint in
  let old := shard c i !! outpoint in
  {| rc_entries := <[i := <[outpoint := entry]> (shard c i)]> (rc_entries c);
     rc_eviction_shard := rc_eviction_shard c;
     rc_entry_count := match old with Some _ => rc_entry_count c | None => rc_entry_count c +^ 1 end;
     rc_bytes := match old with Some old => sat_sub (rc_bytes c) (read_cache_utxo_bytes old) | None => rc_bytes c end
                 +^ read_cache_utxo_bytes entry;
     rc_limit := rc_limit c; rc_complete := rc_complete c |}.

Definition cache_remove (outpoint : OutPoint) (c : UtxoReadCache) : UtxoReadCache :=
  let i := shard_index outpoint in
  match shard c i !! outpoint with
  | None => c
  | Some entry =>
      {| rc_entries := <[i := delete outpoint (shard c i)]> (rc_entries c); rc_eviction_shard := rc_eviction_shard c;
         rc_entry_count := sat_sub (rc_entry_count c) 1; rc_bytes := sat_sub (rc_bytes c) (read_cache_utxo_bytes entry);
         rc_limit := rc_limit c; rc_complete := rc_complete c |}
  end.

Definition cache_clear (c : UtxoReadCache) : UtxoReadCache :=
  {| rc_entries := empty_shards; rc_eviction_shard := 0; rc_entry_count := 0; rc_bytes := 0; rc_limit := rc_limit c;
     rc_complete := false |}.

Section Eviction.
Context {CO : CoinOrder}.

(** One turn of the eviction: the next shard, and its first coin if it has one. *)
Definition evict_turn (c : UtxoReadCache) : UtxoReadCache * bool :=
  let i := (rc_eviction_shard c `mod` length (rc_entries c))%nat in
  let c := {| rc_entries := rc_entries c;
              rc_eviction_shard := (S (rc_eviction_shard c) `mod` length (rc_entries c))%nat;
              rc_entry_count := rc_entry_count c; rc_bytes := rc_bytes c; rc_limit := rc_limit c;
              rc_complete := rc_complete c |} in
  match coin_iter (shard c i) with
  | [] => (c, false)
  | (outpoint, entry) :: _ =>
      ({| rc_entries := <[i := delete outpoint (shard c i)]> (rc_entries c); rc_eviction_shard := rc_eviction_shard c;
          rc_entry_count := sat_sub (rc_entry_count c) 1; rc_bytes := sat_sub (rc_bytes c) (read_cache_utxo_bytes entry);
          rc_limit := rc_limit c; rc_complete := false |}, true)
  end.

Fixpoint evict_turns (fuel : nat) (target : Z) (empty_shards : nat) (c : UtxoReadCache) : UtxoReadCache :=
  match fuel with
  | O => c
  | S fuel =>
      if (target <? rc_bytes c) && negb (rc_entry_count c =? 0) && (empty_shards <? length (rc_entries c))%nat then
        let '(c, evicted) := evict_turn c in
        evict_turns fuel target (if evicted then 0%nat else S empty_shards) c
      else c
  end.

(** A round over the shards for every coin, and one more. *)
Definition evict_fuel (c : UtxoReadCache) : nat :=
  S (S (sum_list (map size (rc_entries c))) * S (length (rc_entries c))).

Definition trim_to (limit : Z) (c : UtxoReadCache) : UtxoReadCache :=
  if rc_bytes c <=? limit then c
  else
    let c := evict_turns (evict_fuel c) ((limit *^ 7) / 8) 0 c in
    if limit <? rc_bytes c then set_complete false c else c.
Definition trim (c : UtxoReadCache) : UtxoReadCache := trim_to (rc_limit c) c.

Definition configure_limit (limit : Z) (c : UtxoReadCache) : UtxoReadCache :=
  trim {| rc_entries := rc_entries c; rc_eviction_shard := rc_eviction_shard c; rc_entry_count := rc_entry_count c;
          rc_bytes := rc_bytes c; rc_limit := limit; rc_complete := rc_complete c |}.

Definition too_large (entry : StoredUtxo) (c : UtxoReadCache) : bool :=
  (rc_limit c =? 0) || (rc_limit c <? read_cache_utxo_bytes entry).

Definition cache_insert (outpoint : OutPoint) (entry : StoredUtxo) (c : UtxoReadCache) : UtxoReadCache :=
  if too_large entry c then set_complete false c else trim (put outpoint entry (set_complete false c)).

Definition insert_stationary (outpoint : OutPoint) (entry : StoredUtxo) (c : UtxoReadCache) : UtxoReadCache :=
  if too_large entry c then set_complete false c else put outpoint entry c.
End Eviction.

(** ** The cache as one map *)

Definition cached (c : UtxoReadCache) : gmap OutPoint StoredUtxo := ⋃ (rc_entries c).
Definition resident (c : UtxoReadCache) : nat := sum_list (map size (rc_entries c)).

(** Every coin is in the shard of its id, and the count is right. *)
Record cache_wf (c : UtxoReadCache) : Prop := {
  cw_shards : length (rc_entries c) = UTXO_CACHE_SHARDS;
  cw_index : forall i m o, rc_entries c !! i = Some m -> is_Some (m !! o) -> shard_index o = i;
  cw_count : rc_entry_count c = Z.of_nat (resident c);
}.

Lemma shards_lookup (l : list (gmap OutPoint StoredUtxo)) f k o :
  (forall i m o, l !! i = Some m -> is_Some (m !! o) -> f o = (k + i)%nat) ->
  (⋃ l) !! o = if (f o <? k)%nat then None else m ← l !! (f o - k)%nat; m !! o.
Proof.
  revert k. induction l as [|m l IH]; intros k Hidx; cbn [union_list foldr].
  - rewrite lookup_empty. by destruct (_ <? _)%nat.
  - change (foldr (∪) ∅ l) with (⋃ l). rewrite lookup_union, (IH (S k)); clear IH.
    2: { intros i m' o' Hi Hm. rewrite (Hidx (S i) m' o' Hi Hm). lia. }
    destruct (m !! o) as [x|] eqn:Em.
    + rewrite (Hidx 0%nat m o eq_refl) by eauto. rewrite Nat.add_0_r, Nat.ltb_irrefl, Nat.sub_diag. cbn.
      rewrite Em. by destruct (if (k <? S k)%nat then _ else _).
    + rewrite (left_id None _). destruct (Nat.ltb_spec (f o) k) as [Hlt|Hge].
      * by rewrite (proj2 (Nat.ltb_lt _ _)) by lia.
      * destruct (Nat.eq_dec (f o) k) as [->|Hne].
        { rewrite (proj2 (Nat.ltb_lt _ _)) by lia. rewrite Nat.sub_diag. cbn. by rewrite Em. }
        rewrite (proj2 (Nat.ltb_ge _ _)) by lia. by replace (f o - k)%nat with (S (f o - S k)) by lia.
Qed.

Lemma shards_size (l : list (gmap OutPoint StoredUtxo)) f k :
  (forall i m o, l !! i = Some m -> is_Some (m !! o) -> f o = (k + i)%nat) -> size (⋃ l) = sum_list (map size l).
Proof.
  revert k. induction l as [|m l IH]; intros k Hidx; cbn [union_list foldr map sum_list]; [apply map_size_empty|].
  change (foldr (∪) ∅ l) with (⋃ l).
  assert (Hidx' : forall i m' o, l !! i = Some m' -> is_Some (m' !! o) -> f o = (S k + i)%nat).
  { intros i m' o Hi Hm. rewrite (Hidx (S i) m' o Hi Hm). lia. }
  rewrite map_size_disj_union.
  - by rewrite (IH (S k) Hidx').
  - apply map_disjoint_spec. intros o x y Hx Hy. rewrite (shards_lookup l f (S k) o Hidx') in Hy.
    rewrite (Hidx 0%nat m o eq_refl) in Hy by eauto. rewrite Nat.add_0_r in Hy. by rewrite (proj2 (Nat.ltb_lt k (S k))) in Hy by lia.
Qed.

Section Facts.
Context (c : UtxoReadCache) (Hwf : cache_wf c).

Lemma cached_lookup o : cached c !! o = cache_get c o.
Proof.
  unfold cached, cache_get, shard. rewrite (shards_lookup _ shard_index 0) by (intros; by eapply (cw_index c Hwf)).
  cbn [Nat.ltb Nat.leb]. rewrite Nat.sub_0_r. by destruct (rc_entries c !! shard_index o).
Qed.

Lemma cached_size : Z.of_nat (size (cached c)) = rc_entry_count c.
Proof. rewrite (cw_count c Hwf). unfold cached, resident. f_equal. apply (shards_size _ shard_index 0), (cw_index c Hwf). Qed.

Lemma shard_in o : exists m, rc_entries c !! shard_index o = Some m /\ shard c (shard_index o) = m.
Proof.
  destruct (lookup_lt_is_Some_2 (rc_entries c) (shard_index o)) as [m Hm].
  { rewrite (cw_shards c Hwf). unfold shard_index. apply Nat.mod_upper_bound. done. }
  exists m. unfold shard. by rewrite Hm.
Qed.

Lemma resident_insert i m m' :
  rc_entries c !! i = Some m ->
  (sum_list (map size (<[i := m']> (rc_entries c))) + size m = resident c + size m')%nat.
Proof.
  unfold resident. generalize (rc_entries c). intros l. revert i.
  induction l as [|x l IH]; intros [|i] E; [done..| |].
  - injection E as ->. cbn. lia.
  - specialize (IH i E). change (<[S i := m']> (x :: l)) with (x :: <[i := m']> l). cbn [map sum_list]. lia.
Qed.
End Facts.

(** A shard is replaced. *)
Lemma wf_replace c c' i m m' :
  cache_wf c -> rc_entries c !! i = Some m -> rc_entries c' = <[i := m']> (rc_entries c) ->
  (forall o, is_Some (m' !! o) -> shard_index o = i) ->
  rc_entry_count c' = rc_entry_count c + Z.of_nat (size m') - Z.of_nat (size m) -> cache_wf c'.
Proof.
  intros Hwf Hi He Hidx Hc. pose proof (lookup_lt_Some _ _ _ Hi) as Hlt. split.
  - rewrite He, length_insert. apply Hwf.
  - intros j x o Hj Hx. rewrite He in Hj. destruct (decide (i = j)) as [<-|Hne].
    + rewrite list_lookup_insert_eq in Hj by done. injection Hj as <-. by apply Hidx.
    + rewrite list_lookup_insert_ne in Hj by done. by apply (cw_index c Hwf j x).
  - rewrite Hc, (cw_count c Hwf). unfold resident at 2. rewrite He. pose proof (resident_insert c i m m' Hi). lia.
Qed.

Lemma get_replace c c' i m m' o :
  rc_entries c !! i = Some m -> rc_entries c' = <[i := m']> (rc_entries c) ->
  cache_get c' o = if decide (shard_index o = i) then m' !! o else cache_get c o.
Proof.
  intros Hi He. unfold cache_get, shard. rewrite He. pose proof (lookup_lt_Some _ _ _ Hi). case_decide as E.
  - subst i. by rewrite list_lookup_insert_eq.
  - by rewrite list_lookup_insert_ne.
Qed.

(** ** Operations *)

Lemma put_spec c o e :
  cache_wf c -> Z.of_nat (resident c) < umax 64 ->
  cache_wf (put o e c) /\ forall o', cache_get (put o e c) o' = if decide (o' = o) then Some e else cache_get c o'.
Proof.
  intros Hwf Hs. destruct (shard_in c Hwf o) as (m & Hm & Hsh).
  assert (He : rc_entries (put o e c) = <[shard_index o := <[o := e]> m]> (rc_entries c)) by (unfold put; cbn zeta; cbn [rc_entries]; by rewrite Hsh).
  split.
  - apply (wf_replace c _ _ m _ Hwf Hm He).
    + intros o' Ho'. destruct (decide (o' = o)) as [->|Hne]; [done|]. rewrite lookup_insert_ne in Ho' by done. by apply (cw_index c Hwf _ m).
    + unfold put. cbn zeta. cbn [rc_entry_count]. rewrite Hsh, map_size_insert. unfold sat_add. pose proof (cw_count c Hwf). destruct (m !! o); unfold id; lia.
  - intros o'. rewrite (get_replace c _ _ m _ o' Hm He). unfold cache_get. case_decide as E.
    + rewrite E, Hsh. destruct (decide (o' = o)) as [->|Hne]; [apply lookup_insert_eq|by apply lookup_insert_ne].
    + destruct (decide (o' = o)) as [->|Hne]; done.
Qed.

Lemma cut_spec c c' o m :
  cache_wf c -> rc_entries c !! shard_index o = Some m -> is_Some (m !! o) ->
  rc_entries c' = <[shard_index o := delete o m]> (rc_entries c) -> rc_entry_count c' = sat_sub (rc_entry_count c) 1 ->
  cache_wf c' /\ forall o', cache_get c' o' = if decide (o' = o) then None else cache_get c o'.
Proof.
  intros Hwf Hm Ho He Hc. split.
  - apply (wf_replace c _ _ m _ Hwf Hm He).
    + intros o' Ho'. apply (cw_index c Hwf _ m o' Hm). destruct Ho' as [x Hx]. apply lookup_delete_Some in Hx as [_ Hx]. by eexists.
    + rewrite Hc, (cw_count c Hwf), map_size_delete. destruct Ho as [x Hx]. rewrite Hx. unfold sat_sub.
      pose proof (resident_insert c _ m (delete o m) Hm) as Hr. rewrite map_size_delete, Hx in Hr.
      assert (size m <> 0%nat) by (intros ->%map_size_empty_iff; by rewrite lookup_empty in Hx). lia.
  - intros o'. rewrite (get_replace c _ _ m _ o' Hm He). case_decide as E.
    + destruct (decide (o' = o)) as [->|Hne]; [apply lookup_delete_eq|]. rewrite lookup_delete_ne by done.
      unfold cache_get, shard. by rewrite E, Hm.
    + by destruct (decide (o' = o)) as [->|Hne].
Qed.

Lemma remove_spec c o :
  cache_wf c ->
  cache_wf (cache_remove o c) /\ forall o', cache_get (cache_remove o c) o' = if decide (o' = o) then None else cache_get c o'.
Proof.
  intros Hwf. destruct (shard_in c Hwf o) as (m & Hm & Hsh). unfold cache_remove. rewrite Hsh. destruct (m !! o) as [x|] eqn:Ex.
  - apply (cut_spec c _ o m Hwf Hm); [by eexists|by rewrite ?Hsh|done].
  - split; [done|]. intros o'. destruct (decide (o' = o)) as [->|]; [|done]. unfold cache_get. by rewrite Hsh.
Qed.

(** Coins may go, and then the cache claims no completeness. *)
Record shrinks (c c' : UtxoReadCache) : Prop := {
  sh_sub : forall o x, cache_get c' o = Some x -> cache_get c o = Some x;
  sh_limit : rc_limit c' = rc_limit c;
  sh_complete : rc_complete c' = true -> rc_complete c = true /\ forall o, cache_get c' o = cache_get c o;
  sh_resident : (resident c' <= resident c)%nat;
}.
#[export] Instance shrinks_refl : Reflexive shrinks.
Proof. by intros c. Qed.
#[export] Instance shrinks_trans : Transitive shrinks.
Proof.
  intros c c1 c2 [A1 A2 A3 A4] [B1 B2 B3 B4]. split; [auto|congruence| |lia]. intros H. destruct (B3 H) as [H' Hg]. destruct (A3 H') as [? Hg'].
  split; [done|]. intros o. by rewrite Hg.
Qed.

Lemma incomplete_shrinks c : shrinks c (set_complete false c).
Proof. by split. Qed.
Lemma set_complete_wf b c : cache_wf c -> cache_wf (set_complete b c).
Proof. intros [H1 H2 H3]. by split. Qed.
#[export] Hint Resolve set_complete_wf incomplete_shrinks : core.

Section Evict.
Context {CO : CoinOrder}.

Lemma evict_turn_spec c c' evicted :
  cache_wf c -> evict_turn c = (c', evicted) ->
  cache_wf c' /\ shrinks c c' /\ (resident c' + (if evicted then 1 else 0) = resident c)%nat.
Proof.
  intros Hwf. unfold evict_turn. set (i := (rc_eviction_shard c `mod` _)%nat). set (c1 := {| rc_entries := rc_entries c |}).
  assert (Hwf1 : cache_wf c1) by (destruct Hwf; by split).
  assert (H1 : shrinks c c1) by (by split).
  destruct (coin_iter (shard c1 i)) as [|[o e] l] eqn:Ei; [intros [= <- <-]; split; [done|]; split; [done|]; unfold resident; cbn; lia|].
  intros [= <- <-].
  assert (Ho : shard c1 i !! o = Some e).
  { apply elem_of_map_to_list. rewrite <- coin_iter_perm, Ei. apply list_elem_of_here. }
  destruct (rc_entries c1 !! i) as [m|] eqn:Em; [|unfold shard in Ho; by rewrite Em in Ho].
  assert (Hsh : shard c1 i = m) by (unfold shard; by rewrite Em). rewrite Hsh in *.
  pose proof (cw_index c1 Hwf1 i m o Em (ex_intro _ e Ho)) as Hi.
  match goal with |- cache_wf ?x /\ _ => set (c2 := x) end.
  destruct (cut_spec c1 c2 o m Hwf1) as [Hwf2 Hg]; [by rewrite Hi|by eexists|by rewrite Hi|done|].
  assert (Hr : (resident c2 + 1 = resident c)%nat).
  { pose proof (resident_insert c1 i m (delete o m) Em) as Hr. rewrite map_size_delete, Ho in Hr. unfold resident at 1. cbn [rc_entries c2].
    change (resident c) with (resident c1). pose proof (map_size_ne_0_lookup_2 m o (ex_intro _ e Ho)). change (rc_entries c1) with (rc_entries c) in Hr. lia. }
  split; [done|]. split; [|done]. transitivity c1; [done|]. split; [|done|done|].
  - intros o' x. rewrite Hg. by case_decide.
  - change (resident c1) with (resident c). lia.
Qed.

Lemma evict_turns_spec fuel target n c : cache_wf c -> cache_wf (evict_turns fuel target n c) /\ shrinks c (evict_turns fuel target n c).
Proof.
  revert n c. induction fuel as [|fuel IH]; intros n c Hwf; cbn [evict_turns]; [done|]. destruct (_ && _); [|done].
  destruct (evict_turn c) as [c' evicted] eqn:E. destruct (evict_turn_spec c c' evicted Hwf E) as (Hwf' & Hs & _).
  destruct (IH (if evicted then 0%nat else S n) c' Hwf') as [H1 H2]. split; [done|]. by transitivity c'.
Qed.

(** The rounds end: more fuel changes nothing. *)
Lemma evict_fuel_enough fuel extra target n c :
  cache_wf c -> (resident c * S (length (rc_entries c)) + (length (rc_entries c) - n) < fuel)%nat ->
  evict_turns (fuel + extra) target n c = evict_turns fuel target n c.
Proof.
  revert n c. induction fuel as [|fuel IH]; intros n c Hwf Hf; [lia|]. cbn [Nat.add evict_turns].
  destruct (_ && (n <? length (rc_entries c))%nat) eqn:Ec; [|done]. apply andb_true_iff in Ec as [_ Hn%Nat.ltb_lt].
  destruct (evict_turn c) as [c' evicted] eqn:E. destruct (evict_turn_spec c c' evicted Hwf E) as (Hwf' & _ & Hr).
  rewrite (IH _ c'); [done|done|]. rewrite (cw_shards _ Hwf'), (cw_shards _ Hwf) in *. destruct evicted; nia.
Qed.

Lemma trim_to_spec limit c : cache_wf c -> cache_wf (trim_to limit c) /\ shrinks c (trim_to limit c).
Proof.
  intros Hwf. unfold trim_to. destruct (_ <=? _); [done|]. destruct (evict_turns_spec (evict_fuel c) ((limit *^ 7)%sat / 8) 0 c Hwf) as [H1 H2].
  destruct (_ <? _); [|done]. split; [by apply set_complete_wf|]. etransitivity; [exact H2|done].
Qed.

(** What an insertion leaves in the cache. *)
Record inserts (o : OutPoint) (e : StoredUtxo) (c c' : UtxoReadCache) : Prop := {
  in_wf : cache_wf c';
  in_sub : forall o' x, cache_get c' o' = Some x -> (o' = o /\ x = e) \/ cache_get c o' = Some x;
  in_limit : rc_limit c' = rc_limit c;
}.

Lemma insert_spec o e c :
  cache_wf c -> Z.of_nat (resident c) < umax 64 -> inserts o e c (cache_insert o e c) /\ rc_complete (cache_insert o e c) = false.
Proof.
  intros Hwf Hs. unfold cache_insert. destruct (too_large e c) eqn:Et.
  - split; [|done]. split; [by apply set_complete_wf|by right|done].
  - destruct (put_spec (set_complete false c) o e) as [Hwf1 Hg]; [by apply set_complete_wf|done|].
    destruct (trim_to_spec (rc_limit c) _ Hwf1) as [Hwf2 [H1 H2 H3 _]]. split.
    + split; [done| |done]. intros o' x Hx%H1. rewrite Hg in Hx. case_decide; [left; naive_solver|by right].
    + unfold trim. cbn [rc_limit put set_complete]. destruct (rc_complete (trim_to _ _)) eqn:E; [|done]. by destruct (H3 eq_refl).
Qed.

Lemma stationary_spec o e c :
  cache_wf c -> Z.of_nat (resident c) < umax 64 -> inserts o e c (insert_stationary o e c).
Proof.
  intros Hwf Hs. unfold insert_stationary. destruct (too_large e c) eqn:Et.
  - split; [by apply set_complete_wf|by right|done].
  - destruct (put_spec c o e Hwf Hs) as [Hwf1 Hg]. split; [done| |done]. intros o' x. rewrite Hg. case_decide; [left; naive_solver|by right].
Qed.
End Evict.

Lemma default_cache_wf limit complete :
  cache_wf {| rc_entries := empty_shards; rc_eviction_shard := 0; rc_entry_count := 0; rc_bytes := 0; rc_limit := limit; rc_complete := complete |}.
Proof.
  split; [done| |by vm_compute]. intros i m o Hi [x Hx]. cbn [rc_entries] in Hi. apply list_elem_of_lookup_2 in Hi.
  unfold empty_shards in Hi. apply list_elem_of_In, repeat_spec in Hi. subst m. by rewrite lookup_empty in Hx.
Qed.

Lemma default_cache_get limit complete o :
  cache_get {| rc_entries := empty_shards; rc_eviction_shard := 0; rc_entry_count := 0; rc_bytes := 0; rc_limit := limit; rc_complete := complete |} o = None.
Proof.
  unfold cache_get, shard. cbn [rc_entries]. destruct (empty_shards !! shard_index o) as [m|] eqn:E; [|done]. cbn. apply list_elem_of_lookup_2 in E.
  unfold empty_shards in E. apply list_elem_of_In, repeat_spec in E. by subst m.
Qed.

(** ** A cache of a set *)

Section Sound.
Context {CO : CoinOrder} (u : gmap OutPoint StoredUtxo) (Hu : Z.of_nat (size u) < umax 64).

(** What is cached is in the set. *)
Record sound (c : UtxoReadCache) : Prop := {
  sd_wf : cache_wf c;
  sd_sub : forall o e, cache_get c o = Some e -> u !! o = Some e;
}.

Lemma sound_subseteq c : sound c -> cached c ⊆ u.
Proof. intros [H1 H2]. apply map_subseteq_spec. intros o e. rewrite (cached_lookup c H1). apply H2. Qed.

Lemma sound_room c : sound c -> Z.of_nat (resident c) < umax 64.
Proof.
  intros Hc. pose proof (map_subseteq_size _ _ (sound_subseteq c Hc)). pose proof (cached_size c (sd_wf c Hc)). pose proof (cw_count c (sd_wf c Hc)). lia.
Qed.

(** A count that agrees means that nothing is missing. *)
Lemma sound_full c : sound c -> rc_entry_count c = Z.of_nat (size u) -> forall o, cache_get c o = u !! o.
Proof.
  intros Hc E o. rewrite <- (cached_lookup c (sd_wf c Hc)). f_equal. apply map_subseteq_size_eq; [by apply sound_subseteq|].
  pose proof (cached_size c (sd_wf c Hc)). lia.
Qed.

Lemma sound_inserts o e c c' : inserts o e c c' -> sound c -> u !! o = Some e -> sound c'.
Proof. intros [H1 H2 _] [_ Hs] Ho. split; [done|]. intros o' x Hx. destruct (H2 o' x Hx) as [[-> ->]|H]; [done|by apply Hs]. Qed.
Lemma sound_insert o e c : sound c -> u !! o = Some e -> sound (cache_insert o e c).
Proof. intros Hc Ho. apply (sound_inserts o e c); [|done|done]. apply insert_spec; [apply Hc|by apply sound_room]. Qed.
Lemma sound_stationary o e c : sound c -> u !! o = Some e -> sound (insert_stationary o e c).
Proof. intros Hc Ho. apply (sound_inserts o e c); [|done|done]. apply stationary_spec; [apply Hc|by apply sound_room]. Qed.
Lemma sound_remove o c : sound c -> sound (cache_remove o c).
Proof. intros [H1 H2]. destruct (remove_spec c o H1) as [Hw Hg]. split; [done|]. intros o' x. rewrite Hg. case_decide; [done|apply H2]. Qed.
Lemma sound_trim limit c : sound c -> sound (trim_to limit c).
Proof. intros [H1 H2]. destruct (trim_to_spec limit c H1) as [Hw [Hs _ _ _]]. split; [done|]. intros o x Hx. by apply H2, Hs. Qed.
Lemma sound_complete b c : sound c -> sound (set_complete b c).
Proof. intros [H1 H2]. split; [by apply set_complete_wf|done]. Qed.
Lemma sound_clear c : sound (cache_clear c).
Proof. split; [apply default_cache_wf|]. intros o e. unfold cache_clear. by rewrite default_cache_get. Qed.

Lemma sound_foldl {A} (f : UtxoReadCache -> A -> UtxoReadCache) l c :
  (forall c x, x ∈ l -> sound c -> sound (f c x)) -> sound c -> sound (foldl f c l).
Proof.
  revert c. induction l as [|x l IH]; intros c Hf Hc; [done|]. cbn [foldl]. apply IH; [intros; apply Hf; [by right|done]|]. apply Hf; [left|done].
Qed.
End Sound.
#[export] Hint Resolve sound_insert sound_stationary sound_remove sound_trim sound_complete sound_clear : coins.
