(* ===== verification/UtxoStore.v ===== *)
(** * The coin store ([storage.rs])

    The disk-backed set of unspent outputs: a key-value store with one or
    eight partitions of coins, an overlay of changes that are not written yet,
    and the decoded-coin cache.  The key-value store is the [fjall] crate and a
    parameter: atomic batches, bulk ingestion into an untouched partition, and
    what a crash may lose.  The storage calls themselves do not fail.  Every
    durable state that an open store goes through is recorded in [moments], so
    that a crash can be considered at each of them.

    The capacity of the overlay's hash table is up to the allocator: it is an
    argument of the operations that look at it. *)

From Stdlib Require Import ZArith Lia.
From stdpp Require Import base list option gmap sets strings sorting.
From S2P Require Import Prelude Types UtxoCodec UtxoCache.
Local Open Scope Z_scope.
Local Open Scope op_scope.

(** ** The key-value store *)

Inductive Partition := Coins (index : nat) | Metadata.
#[export] Instance Partition_eq_dec : EqDecision Partition.
Proof. solve_decision. Defined.
#[export] Instance Partition_countable : Countable Partition.
Proof.
  apply (inj_countable' (fun p => match p with Coins i => Some i | Metadata => None end)
           (fun o => match o with Some i => Coins i | None => Metadata end)).
  by intros [].
Defined.

(** One insertion or removal of a batch. *)
Definition Write : Type := Partition * bytes * option bytes.

Class Keyspace := {
  KS : Type;
  ks_get : KS -> Partition -> bytes -> option bytes;
  (** the entries of a partition in the order of their keys *)
  ks_iter : KS -> Partition -> list (bytes * bytes);
  (** an atomic batch, with [PersistMode::SyncData] or without *)
  ks_commit : bool -> list Write -> KS -> KS;
  (** bulk ingestion of sorted entries *)
  ks_ingest : nat -> list (bytes * bytes) -> KS -> KS;
  ks_persist : KS -> KS;
  (** a keyspace in an empty directory *)
  ks_new : KS;
  (** what a crash may leave for the next opening *)
  ks_recovers : KS -> KS -> Prop;
}.

(** What the coin codec takes from other crates. *)
Class CurveOps := {
  PublicKey : Type;
  from_slice : bytes -> option PublicKey;
  serialize_uncompressed : PublicKey -> bytes;
  deserialize_output : bytes -> option TxOut;
}.

Definition UTXO_SHARD_COUNT : nat := 8.
Definition UTXO_PENDING_EMERGENCY_ITEMS : Z := 16777216.
Definition UTXO_PENDING_DEFAULT_LIMIT_BYTES : Z := 512 * 1024 * 1024.
Definition UTXO_PENDING_CAPACITY_GUARD_MIN : Z := 8 * 2 ^ 20.
Definition UTXO_PENDING_CAPACITY_GUARD_NUMERATOR : Z := 7.
Definition UTXO_PENDING_CAPACITY_GUARD_DENOMINATOR : Z := 8.
Definition UTXO_POST_FLUSH_HOT_CACHE_BYTES : Z := 1536 * 1024 * 1024.
Definition UTXO_POST_FLUSH_HOT_CACHE_BLOCKS : Z := 32768.
Definition DISK_INDEX_DEFAULT_WRITE_BUFFER_BYTES : Z := 64 * 1024 * 1024.
Definition DISK_INDEX_DIRTY_CHECKPOINT_ITEMS : Z := 256 * 1024 * 1024.
Definition META_ENTRY_COUNT : bytes := str "entry-count".
Definition META_GENERATION : bytes := str "generation".

Record PendingUtxo := { pu_entry : option StoredUtxo; pu_fresh : bool }.

Inductive StoreError :=
| Codec (e : UtxoError)
| GenerationExhausted
| CountOverflow
| MissedPrefetch
| NotAU64
| MissingCount.

Section Store.
Context {KSO : Keyspace} {CV : CurveOps} {CO : CoinOrder}.

Definition encode_coin (entry : StoredUtxo) : result StoreError bytes :=
  map_err Codec (encode_stored_utxo PublicKey from_slice serialize_uncompressed entry).
Definition decode_coin (b : bytes) : result StoreError StoredUtxo :=
  map_err Codec (decode_stored_utxo PublicKey from_slice serialize_uncompressed deserialize_output b).

(** The durable state: the key-value store and the marker file of unsynced
    writes. *)
Record Disk := { dk_keyspace : KS; dk_marker : bool }.

Record UtxoStore := {
  disk : Disk;
  (** every durable state since the store was opened, the newest first *)
  moments : list Disk;
  partitions : nat;
  entry_count : Z;
  generation : Z;
  read_cache : UtxoReadCache;
  pending : gmap OutPoint PendingUtxo;
  pending_bytes : Z;
  pending_limit_bytes : Z;
  pending_item_limit : Z;
  write_batch_limit_bytes : Z;
  dirty_items_since_sync : Z;
  dirty_item_limit : Z;
  durability_checkpoint_needed : bool;
  pending_covers_all : bool;
  bulk_ingest_eligible : bool;
}.

Abbreviation SM := (op UtxoStore StoreError).

(** ** Updates of fields *)

Definition with_disk (f : Disk -> Disk) (s : UtxoStore) : UtxoStore :=
  let d := f (disk s) in
  {| disk := d; moments := d :: moments s; partitions := partitions s; entry_count := entry_count s;
     generation := generation s; read_cache := read_cache s; pending := pending s; pending_bytes := pending_bytes s;
     pending_limit_bytes := pending_limit_bytes s; pending_item_limit := pending_item_limit s;
     write_batch_limit_bytes := write_batch_limit_bytes s; dirty_items_since_sync := dirty_items_since_sync s;
     dirty_item_limit := dirty_item_limit s; durability_checkpoint_needed := durability_checkpoint_needed s;
     pending_covers_all := pending_covers_all s; bulk_ingest_eligible := bulk_ingest_eligible s |}.

Definition on_keyspace (f : KS -> KS) : UtxoStore -> UtxoStore :=
  with_disk (fun d => {| dk_keyspace := f (dk_keyspace d); dk_marker := dk_marker d |}).
Definition mark_unsynced_pending : UtxoStore -> UtxoStore :=
  with_disk (fun d => {| dk_keyspace := dk_keyspace d; dk_marker := true |}).
Definition clear_unsynced_pending : UtxoStore -> UtxoStore :=
  with_disk (fun d => {| dk_keyspace := dk_keyspace d; dk_marker := false |}).

Definition set_read_cache (f : UtxoReadCache -> UtxoReadCache) (s : UtxoStore) : UtxoStore :=
  {| disk := disk s; moments := moments s; partitions := partitions s; entry_count := entry_count s;
     generation := generation s; read_cache := f (read_cache s); pending := pending s; pending_bytes := pending_bytes s;
     pending_limit_bytes := pending_limit_bytes s; pending_item_limit := pending_item_limit s;
     write_batch_limit_bytes := write_batch_limit_bytes s; dirty_items_since_sync := dirty_items_since_sync s;
     dirty_item_limit := dirty_item_limit s; durability_checkpoint_needed := durability_checkpoint_needed s;
     pending_covers_all := pending_covers_all s; bulk_ingest_eligible := bulk_ingest_eligible s |}.

Definition set_overlay (p : gmap OutPoint PendingUtxo) (b : Z) (s : UtxoStore) : UtxoStore :=
  {| disk := disk s; moments := moments s; partitions := partitions s; entry_count := entry_count s;
     generation := generation s; read_cache := read_cache s; pending := p; pending_bytes := b;
     pending_limit_bytes := pending_limit_bytes s; pending_item_limit := pending_item_limit s;
     write_batch_limit_bytes := write_batch_limit_bytes s; dirty_items_since_sync := dirty_items_since_sync s;
     dirty_item_limit := dirty_item_limit s; durability_checkpoint_needed := durability_checkpoint_needed s;
     pending_covers_all := pending_covers_all s; bulk_ingest_eligible := bulk_ingest_eligible s |}.

Definition set_count (n : Z) (s : UtxoStore) : UtxoStore :=
  {| disk := disk s; moments := moments s; partitions := partitions s; entry_count := n;
     generation := generation s; read_cache := read_cache s; pending := pending s; pending_bytes := pending_bytes s;
     pending_limit_bytes := pending_limit_bytes s; pending_item_limit := pending_item_limit s;
     write_batch_limit_bytes := write_batch_limit_bytes s; dirty_items_since_sync := dirty_items_since_sync s;
     dirty_item_limit := dirty_item_limit s; durability_checkpoint_needed := durability_checkpoint_needed s;
     pending_covers_all := pending_covers_all s; bulk_ingest_eligible := bulk_ingest_eligible s |}.

Definition set_generation (n : Z) (s : UtxoStore) : UtxoStore :=
  {| disk := disk s; moments := moments s; partitions := partitions s; entry_count := entry_count s;
     generation := n; read_cache := read_cache s; pending := pending s; pending_bytes := pending_bytes s;
     pending_limit_bytes := pending_limit_bytes s; pending_item_limit := pending_item_limit s;
     write_batch_limit_bytes := write_batch_limit_bytes s; dirty_items_since_sync := dirty_items_since_sync s;
     dirty_item_limit := dirty_item_limit s; durability_checkpoint_needed := durability_checkpoint_needed s;
     pending_covers_all := pending_covers_all s; bulk_ingest_eligible := bulk_ingest_eligible s |}.

Definition set_dirty (n : Z) (needed : bool) (s : UtxoStore) : UtxoStore :=
  {| disk := disk s; moments := moments s; partitions := partitions s; entry_count := entry_count s;
     generation := generation s; read_cache := read_cache s; pending := pending s; pending_bytes := pending_bytes s;
     pending_limit_bytes := pending_limit_bytes s; pending_item_limit := pending_item_limit s;
     write_batch_limit_bytes := write_batch_limit_bytes s; dirty_items_since_sync := n;
     dirty_item_limit := dirty_item_limit s; durability_checkpoint_needed := needed;
     pending_covers_all := pending_covers_all s; bulk_ingest_eligible := bulk_ingest_eligible s |}.

Definition set_flags (covers_all eligible : bool) (s : UtxoStore) : UtxoStore :=
  {| disk := disk s; moments := moments s; partitions := partitions s; entry_count := entry_count s;
     generation := generation s; read_cache := read_cache s; pending := pending s; pending_bytes := pending_bytes s;
     pending_limit_bytes := pending_limit_bytes s; pending_item_limit := pending_item_limit s;
     write_batch_limit_bytes := write_batch_limit_bytes s; dirty_items_since_sync := dirty_items_since_sync s;
     dirty_item_limit := dirty_item_limit s; durability_checkpoint_needed := durability_checkpoint_needed s;
     pending_covers_all := covers_all; bulk_ingest_eligible := eligible |}.

(** ** Partitions *)

Definition partition_index (n : nat) (key : bytes) : nat :=
  if (n =? 1)%nat then 0%nat else Z.to_nat (sat_mul 64 (zat key 0) (Z.of_nat n) / 256).
Definition coins_get (s : UtxoStore) (key : bytes) : option bytes :=
  ks_get (dk_keyspace (disk s)) (Coins (partition_index (partitions s) key)) key.
Definition partition_list (s : UtxoStore) : list nat := seq 0 (partitions s).
Definition coins_empty (s : UtxoStore) : bool :=
  forallb (fun i => bool_decide (ks_iter (dk_keyspace (disk s)) (Coins i) = [])) (partition_list s).

(** ** The overlay *)

Local Open Scope sat_scope.

Definition set_pending (outpoint : OutPoint) (entry : option StoredUtxo) (fresh : bool) (s : UtxoStore) : UtxoStore :=
  let new_bytes := pending_utxo_bytes entry in
  set_overlay (<[outpoint := {| pu_entry := entry; pu_fresh := fresh |}]> (pending s))
    (match pending s !! outpoint with
     | Some previous => sat_sub (pending_bytes s) (pending_utxo_bytes (pu_entry previous)) +^ new_bytes
     | None => pending_bytes s +^ new_bytes
     end) s.

Definition remove_pending (outpoint : OutPoint) (s : UtxoStore) : UtxoStore :=
  match pending s !! outpoint with
  | None => s
  | Some previous =>
      set_overlay (delete outpoint (pending s)) (sat_sub (pending_bytes s) (pending_utxo_bytes (pu_entry previous))) s
  end.

(** ** Writing the overlay *)

(** The order of the serialized outpoints. *)
Definition key_le (l r : OutPoint * PendingUtxo) : Prop :=
  (if bool_decide (txid l.1 = txid r.1) then bytes_leb (to_le 4 (vout l.1)) (to_le 4 (vout r.1))
   else bytes_leb (txid l.1) (txid r.1)) = true.
#[local] Instance key_le_dec : RelDecision key_le.
Proof. intros l r. unfold key_le. apply _. Defined.

Definition ordered_pending (s : UtxoStore) : list (OutPoint * PendingUtxo) := merge_sort key_le (coin_iter (pending s)).

Definition item_bytes (item : OutPoint * PendingUtxo) : Z := pending_utxo_bytes (pu_entry item.2) +^ 64.

(** The first pass counts the batches. *)
Fixpoint count_batches (limit : Z) (items : list (OutPoint * PendingUtxo)) (count batch_bytes : Z) : Z :=
  match items with
  | [] => if batch_bytes =? 0 then count else count +^ 1
  | item :: items =>
      if negb (batch_bytes =? 0) && (limit <? batch_bytes +^ item_bytes item)
      then count_batches limit items (count +^ 1) (0 +^ item_bytes item)
      else count_batches limit items count (batch_bytes +^ item_bytes item)
  end.

(** The second pass writes them. *)
Fixpoint split_batches (limit : Z) (items batch : list (OutPoint * PendingUtxo)) (batch_bytes : Z)
  : list (list (OutPoint * PendingUtxo)) :=
  match items with
  | [] => if bool_decide (batch = []) then [] else [batch]
  | item :: items =>
      if negb (bool_decide (batch = [])) && (limit <? batch_bytes +^ item_bytes item)
      then batch :: split_batches limit items [item] (0 +^ item_bytes item)
      else split_batches limit items (batch ++ [item]) (batch_bytes +^ item_bytes item)
  end.

Fixpoint encode_items (n : nat) (items : list (OutPoint * PendingUtxo)) : result StoreError (list Write) :=
  match items with
  | [] => Ok []
  | (outpoint, p) :: items =>
      let key := encode_outpoint outpoint in
      let? entry := match pu_entry p with None => Ok None | Some entry => let? b := encode_coin entry in Ok (Some b) end in
      let? rest := encode_items n items in
      Ok ((Coins (partition_index n key), key, entry) :: rest)
  end.

Definition metadata_writes (count generation : Z) : list Write :=
  [(Metadata, META_ENTRY_COUNT, Some (to_le 8 count)); (Metadata, META_GENERATION, Some (to_le 8 generation))].

Definition commit_pending_batch (sync : bool) (next_generation : Z) (items : list (OutPoint * PendingUtxo)) (final_batch : bool)
  : SM () := fun s =>
  match encode_items (partitions s) items with
  | Err e => (s, Err e)
  | Ok writes =>
      (on_keyspace (ks_commit (sync && final_batch)
        (writes ++ if final_batch then metadata_writes (entry_count s) next_generation else [])) s, Ok ())
  end.

Fixpoint commit_batches (sync : bool) (next_generation batch_count : Z) (batches : list (list (OutPoint * PendingUtxo)))
    (batch_index : Z) : SM () :=
  match batches with
  | [] => ret ()
  | items :: batches =>
      do! commit_pending_batch sync next_generation items (batch_index + 1 =? batch_count) in
      commit_batches sync next_generation batch_count batches (batch_index +^ 1)
  end.

Definition can_bulk_ingest (s : UtxoStore) : bool :=
  pending_covers_all s && bulk_ingest_eligible s && (entry_count s =? Z.of_nat (size (pending s))) && coins_empty s &&
  forallb (fun item => pu_fresh item.2 && bool_decide (is_Some (pu_entry item.2))) (ordered_pending s).

(** The entries of one partition, encoded; the check before the ingestion has
    established that they have coins that encode. *)
Definition ingest_entries (n : nat) (items : list (OutPoint * PendingUtxo)) (i : nat) : list (bytes * bytes) :=
  omap (fun item =>
    entry ← pu_entry item.2;
    value ← res_ok (encode_coin entry);
    if bool_decide (partition_index n (encode_outpoint item.1) = i) then Some (encode_outpoint item.1, value) else None) items.

Definition bulk_ingest (sync : bool) (next_generation : Z) (items : list (OutPoint * PendingUtxo)) : SM () := fun s =>
  if negb (forallb (fun item => match pu_entry item.2 with
                                | Some entry => zlen (script_pubkey (output entry)) <=? MAX_STORED_UTXO_SCRIPT_SIZE
                                | None => false
                                end) items)
  then (s, Err (Codec ScriptTooLarge))
  else
    (do! modify mark_unsynced_pending in
     do! for_each (fun i => fun s =>
           match ingest_entries (partitions s) items i with
           | [] => (s, Ok ())
           | entries => (on_keyspace (ks_ingest i entries) s, Ok ())
           end) (partition_list s) in
     modify (fun s => on_keyspace (ks_commit sync (metadata_writes (entry_count s) next_generation)) s)) s.

(** ** The cache after a write *)

Definition newest_height (items : list (OutPoint * PendingUtxo)) : option Z :=
  foldr (fun item newest =>
    match pu_entry item.2 with
    | None => newest
    | Some entry => Some (match newest with Some h => Z.max (height entry) h | None => height entry end)
    end) None items.

Definition recent_coins (cutoff : Z) (items : list (OutPoint * PendingUtxo)) : list (OutPoint * StoredUtxo) :=
  omap (fun item => entry ← pu_entry item.2; if cutoff <=? height entry then Some (item.1, entry) else None) items.

(** A large checkpoint keeps a hot part.  The sort of the recent coins by
    height does not matter: all of them are put in before the trim. *)
Definition refill_large (p : gmap OutPoint PendingUtxo) (c : UtxoReadCache) : UtxoReadCache :=
  let hot_cache_limit := Z.min UTXO_POST_FLUSH_HOT_CACHE_BYTES (rc_limit c) in
  match newest_height (coin_iter p) with
  | None => set_complete false c
  | Some newest =>
      let recent := recent_coins (sat_sub newest UTXO_POST_FLUSH_HOT_CACHE_BLOCKS) (coin_iter p) in
      let recent_bytes := foldl (fun b item => b +^ read_cache_utxo_bytes item.2) 0 recent in
      let c := if hot_cache_limit <=? recent_bytes then cache_clear c else trim_to (sat_sub hot_cache_limit recent_bytes) c in
      let c := foldl (fun c item => insert_stationary item.1 item.2 c) (set_complete false c) recent in
      trim_to hot_cache_limit c
  end.

Definition refill_small (p : gmap OutPoint PendingUtxo) (was_complete : bool) (count : Z) (c : UtxoReadCache) : UtxoReadCache :=
  let c := foldl (fun c item =>
    match pu_entry item.2 with
    | Some entry => cache_insert item.1 entry c
    | None => cache_remove item.1 c
    end) c (coin_iter p) in
  set_complete (was_complete && (rc_entry_count c =? count)) c.

Definition flush_pending (sync : bool) : SM () := fun s =>
  if bool_decide (pending s = ∅) then
    let s := if entry_count s =? 0 then set_flags true (bulk_ingest_eligible s) s else s in
    (if sync then clear_unsynced_pending (set_dirty 0 false (on_keyspace ks_persist s)) else s, Ok ())
  else
    match checked_add 64 (generation s) 1 with
    | None => (s, Err GenerationExhausted)
    | Some next_generation =>
        let cache_was_complete := pending_covers_all s || rc_complete (read_cache s) in
        let cache_was_large :=
          (pending_limit_bytes s <=? rc_bytes (read_cache s) +^ pending_bytes s) ||
          (pending_item_limit s <=? Z.of_nat (size (pending s))) in
        let batch_limit := Z.max (write_batch_limit_bytes s) 1 in
        let items := ordered_pending s in
        let batch_count := count_batches batch_limit items 0 0 in
        (do! modify (fun s => if sync && (1 <? batch_count) then mark_unsynced_pending s else s) in
         let! bulk := (fun s => (s, Ok (can_bulk_ingest s))) in
         do! modify (fun s => set_flags (pending_covers_all s) false s) in
         do! (if bulk : bool then bulk_ingest sync next_generation items
              else commit_batches sync next_generation batch_count (split_batches batch_limit items [] 0) 0) in
         do! modify (fun s => if sync then clear_unsynced_pending (set_dirty 0 false s) else s) in
         modify (fun s =>
           let p := pending s in
           let s := set_overlay ∅ 0 (set_flags (entry_count s =? 0) (bulk_ingest_eligible s) (set_generation next_generation s)) in
           set_read_cache (if cache_was_large then refill_large p else refill_small p cache_was_complete (entry_count s)) s)) s
    end.

(** ** Committing a batch *)

(** An unsynced flush leaves the marker until the next synced one. *)
Definition flush_unsynced : SM () :=
  do! modify mark_unsynced_pending in
  do! modify (fun s =>
        let dirty := dirty_items_since_sync s +^ Z.of_nat (size (pending s)) in
        set_dirty dirty (dirty_item_limit s <=? dirty) s) in
  flush_pending false.

Definition remove_coin (outpoint : OutPoint) (s : UtxoStore) : UtxoStore :=
  match pending s !! outpoint with
  | Some p => if pu_fresh p then remove_pending outpoint s else set_pending outpoint None false s
  | None => set_pending outpoint None false s
  end.

Definition over_budget (s : UtxoStore) : bool :=
  let c := read_cache s in
  let minimum_pending_budget := rc_limit c / 8 in
  let pending_budget :=
    Z.max (sat_sub (pending_limit_bytes s) (Z.min (rc_bytes c) (pending_limit_bytes s))) minimum_pending_budget in
  (pending_item_limit s <=? Z.of_nat (size (pending s))) || (pending_budget <=? pending_bytes s).

Definition near_capacity (capacity : Z) (additions : list (OutPoint * StoredUtxo)) (s : UtxoStore) : bool :=
  (UTXO_PENDING_CAPACITY_GUARD_MIN <=? capacity) &&
  (capacity *^ UTXO_PENDING_CAPACITY_GUARD_NUMERATOR / UTXO_PENDING_CAPACITY_GUARD_DENOMINATOR
     <? Z.of_nat (size (pending s)) +^ zlen additions).

Definition commit_owned_batch_with_count (capacity : Z) (removals : list OutPoint) (additions : list (OutPoint * StoredUtxo))
    (next_count : Z) (sync additions_are_fresh : bool) : SM () := fun s =>
  if bool_decide (removals = []) && bool_decide (additions = []) then
    (if sync then flush_pending true else ret ()) s
  else
    (do! (if negb sync && near_capacity capacity additions s then flush_unsynced else ret ()) in
     do! modify (fun s => foldl (fun s o => remove_coin o s) s removals) in
     do! modify (fun s => foldl (fun s a => set_pending a.1 (Some a.2) additions_are_fresh s) s additions) in
     do! modify (set_read_cache (fun c => foldl (fun c o => cache_remove o c) c removals)) in
     do! modify (set_count next_count) in
     let! over := (fun s => (s, Ok (over_budget s))) in
     if sync then flush_pending true else if over : bool then flush_unsynced else ret ()) s.

(** ** Batches *)

Definition contains (outpoint : OutPoint) (s : UtxoStore) : bool :=
  match pending s !! outpoint with
  | Some p => bool_decide (is_Some (pu_entry p))
  | None =>
      match cache_get (read_cache s) outpoint with
      | Some _ => true
      | None =>
          if rc_complete (read_cache s) then false
          else bool_decide (is_Some (coins_get s (encode_outpoint outpoint)))
      end
  end.

Definition apply_validated_batch_with_sync (capacity : Z) (removals : list OutPoint) (additions : list (OutPoint * StoredUtxo))
    (sync : bool) : SM () := fun s =>
  if entry_count s <? zlen removals then (s, Err CountOverflow)
  else
    match checked_add 64 (entry_count s - zlen removals) (zlen additions) with
    | None => (s, Err CountOverflow)
    | Some next_count => commit_owned_batch_with_count capacity removals additions next_count sync true s
    end.

Definition apply_batch_with_sync (capacity : Z) (removals : list OutPoint) (additions : list (OutPoint * StoredUtxo))
    (sync : bool) : SM () := fun s =>
  if bool_decide (removals = []) && bool_decide (additions = []) then (s, Ok ())
  else
    let addition_keys : gset OutPoint := list_to_set additions.*1 in
    let affected : gset OutPoint := list_to_set removals ∪ addition_keys in
    let next_count := foldl (fun next_count outpoint =>
      match contains outpoint s, bool_decide (outpoint ∈ addition_keys) with
      | false, true => next_count +^ 1
      | true, false => sat_sub next_count 1
      | _, _ => next_count
      end) (entry_count s) (elements affected) in
    commit_owned_batch_with_count capacity removals additions next_count sync
      (bulk_ingest_eligible s && pending_covers_all s) s.

Definition flush : SM () := flush_pending true.

(** The keys of a partition are removed ten thousand at a time. *)
Fixpoint clear_partition (fuel : nat) (i : nat) (s : UtxoStore) : UtxoStore :=
  match fuel with
  | O => s
  | S fuel =>
      match ztake 10000 (ks_iter (dk_keyspace (disk s)) (Coins i)) with
      | [] => s
      | keys => clear_partition fuel i (on_keyspace (ks_commit false (map (fun e => (Coins i, e.1, None)) keys)) s)
      end
  end.
Definition clear_fuel (i : nat) (s : UtxoStore) : nat := S (length (ks_iter (dk_keyspace (disk s)) (Coins i))).

Definition clear : SM () := fun s =>
  let s := set_flags (pending_covers_all s) false (set_dirty 0 false (set_overlay ∅ 0 s)) in
  let s := foldl (fun s i => clear_partition (clear_fuel i s) i s) s (partition_list s) in
  let s := set_flags true (bulk_ingest_eligible s) (set_count 0 s) in
  match checked_add 64 (generation s) 1 with
  | None => (s, Err GenerationExhausted)
  | Some next_generation =>
      let s := on_keyspace (ks_commit true (metadata_writes 0 next_generation)) (set_generation next_generation s) in
      (set_read_cache (fun c => set_complete true (cache_clear c)) (clear_unsynced_pending s), Ok ())
  end.

(** The capacities are those at each of the batches. *)
Fixpoint replace_batches (capacity : nat -> Z) (fuel : nat) (entries : list (OutPoint * StoredUtxo)) : SM () :=
  match fuel, entries with
  | S fuel, _ :: _ =>
      do! apply_batch_with_sync (capacity fuel) [] (ztake 10000 entries) false in
      replace_batches capacity fuel (zdrop 10000 entries)
  | _, _ => ret ()
  end.
Definition replace_all (capacity : nat -> Z) (entries : list (OutPoint * StoredUtxo)) : SM () :=
  do! clear in
  do! replace_batches capacity (length entries) entries in
  flush.

(** ** Reads *)

(** [get], [with_entry]: a coin read from disk stays in the cache. *)
Definition get (outpoint : OutPoint) : SM (option StoredUtxo) := fun s =>
  match pending s !! outpoint with
  | Some p => (s, Ok (pu_entry p))
  | None =>
      match cache_get (read_cache s) outpoint with
      | Some entry => (s, Ok (Some entry))
      | None =>
          if rc_complete (read_cache s) then (s, Ok None)
          else
            match coins_get s (encode_outpoint outpoint) with
            | None => (s, Ok None)
            | Some b =>
                match decode_coin b with
                | Err e => (s, Err e)
                | Ok entry =>
                    if too_large entry (read_cache s) then (s, Ok (Some entry))
                    else
                      let s := set_read_cache (cache_insert outpoint entry) s in
                      (s, Ok (cache_get (read_cache s) outpoint))
                end
            end
      end
  end.

Definition validation_view_is_complete (s : UtxoStore) : bool := pending_covers_all s || rc_complete (read_cache s).

(** [UtxoValidationView]: what validation sees without touching the disk. *)
Definition view_contains (s : UtxoStore) (outpoint : OutPoint) : result StoreError bool :=
  match pending s !! outpoint with
  | Some p => Ok (bool_decide (is_Some (pu_entry p)))
  | None =>
      match cache_get (read_cache s) outpoint with
      | Some _ => Ok true
      | None => if rc_complete (read_cache s) then Ok false else Err MissedPrefetch
      end
  end.
Definition view_entry (s : UtxoStore) (outpoint : OutPoint) : result StoreError (option StoredUtxo) :=
  match pending s !! outpoint with
  | Some p => Ok (pu_entry p)
  | None =>
      match cache_get (read_cache s) outpoint with
      | Some entry => Ok (Some entry)
      | None => if rc_complete (read_cache s) then Ok None else Err MissedPrefetch
      end
  end.

(** A point read of the disk. *)
Definition load (s : UtxoStore) (outpoint : OutPoint) : result StoreError (option StoredUtxo) :=
  match coins_get s (encode_outpoint outpoint) with
  | None => Ok None
  | Some b => let? entry := decode_coin b in Ok (Some entry)
  end.

(** [query]: what is known without the disk, and what is not. *)
Fixpoint query (s : UtxoStore) (outpoints : list OutPoint) (unique : gset OutPoint)
  : gmap OutPoint (option StoredUtxo) * list OutPoint :=
  match outpoints with
  | [] => (∅, [])
  | o :: outpoints =>
      if bool_decide (o ∈ unique) then query s outpoints unique
      else
        let '(known, unresolved) := query s outpoints ({[o]} ∪ unique) in
        match pending s !! o, cache_get (read_cache s) o with
        | Some p, _ => (<[o := pu_entry p]> known, unresolved)
        | None, Some entry => (<[o := Some entry]> known, unresolved)
        | None, None =>
            if rc_complete (read_cache s) then (<[o := None]> known, unresolved) else (known, o :: unresolved)
        end
  end.

Fixpoint load_unresolved (s : UtxoStore) (unresolved : list OutPoint) : result StoreError (list (OutPoint * option StoredUtxo)) :=
  match unresolved with
  | [] => Ok []
  | o :: unresolved =>
      let? entry := load s o in
      let? rest := load_unresolved s unresolved in
      Ok ((o, entry) :: rest)
  end.

(** [UtxoQuery::execute] of [query]. *)
Definition execute (s : UtxoStore) (outpoints : list OutPoint) : result StoreError (gmap OutPoint StoredUtxo) :=
  let '(known, unresolved) := query s outpoints ∅ in
  let? loaded := load_unresolved s unresolved in
  Ok (foldl (fun entries p => match p.2 with Some entry => <[p.1 := entry]> entries | None => entries end) (omap id known) loaded).

(** [query_unresolved]: sorted and without duplicates. *)
Definition query_unresolved (s : UtxoStore) (outpoints : list OutPoint) : list OutPoint :=
  let unresolved := List.filter (fun o =>
    negb (bool_decide (is_Some (pending s !! o)) || bool_decide (is_Some (cache_get (read_cache s) o)) || rc_complete (read_cache s)))
    outpoints in
  (merge_sort key_le (map (fun o => (o, {| pu_entry := None; pu_fresh := false |})) (elements (list_to_set unresolved : gset OutPoint)))).*1.

(** [UtxoQuery::seed_unresolved_into]: the misses too. *)
Definition seed_unresolved_into (s : UtxoStore) (outpoints : list OutPoint) : result StoreError (gmap OutPoint (option StoredUtxo)) :=
  let? loaded := load_unresolved s (query_unresolved s outpoints) in
  Ok (list_to_map loaded).

Definition seed_cache (entries : list (OutPoint * StoredUtxo)) : UtxoStore -> UtxoStore :=
  set_read_cache (fun c => foldl (fun c e =>
    match cache_get c e.1 with Some _ => c | None => cache_insert e.1 e.2 c end) c entries).

(** ** Scans *)

Fixpoint decode_entries (l : list (bytes * bytes)) : result StoreError (list (OutPoint * StoredUtxo)) :=
  match l with
  | [] => Ok []
  | (key, v) :: l =>
      let? o := map_err Codec (decode_outpoint key) in
      let? e := decode_coin v in
      let? rest := decode_entries l in
      Ok ((o, e) :: rest)
  end.

Definition disk_entries (s : UtxoStore) : result StoreError (list (OutPoint * StoredUtxo)) :=
  decode_entries (concat (map (fun i => ks_iter (dk_keyspace (disk s)) (Coins i)) (partition_list s))).

(** [entries] before they are sorted. *)
Definition entries (s : UtxoStore) : result StoreError (gmap OutPoint StoredUtxo) :=
  let? l := disk_entries s in
  Ok (foldl (fun m item => match pu_entry item.2 with Some e => <[item.1 := e]> m | None => delete item.1 m end)
        (foldl (fun m e => <[e.1 := e.2]> m) ∅ l) (coin_iter (pending s))).

Definition pending_entry (s : UtxoStore) (outpoint : OutPoint) : list (OutPoint * StoredUtxo) :=
  match p ← pending s !! outpoint; pu_entry p with Some e => [(outpoint, e)] | None => [] end.

(** One partition of [for_each_entry_sorted]: the calls of the callback. *)
Fixpoint merge_overlay (s : UtxoStore) (disk_items : list (bytes * bytes)) : list OutPoint -> result StoreError (list (OutPoint * StoredUtxo)) :=
  fix overlay (pending_items : list OutPoint) :=
    match disk_items, pending_items with
    | [], _ => Ok (concat (map (pending_entry s) pending_items))
    | (key, v) :: disk_items, [] =>
        let? o := map_err Codec (decode_outpoint key) in
        let? e := decode_coin v in
        let? rest := merge_overlay s disk_items [] in
        Ok ((o, e) :: rest)
    | (key, v) :: disk_items, p :: pending_items =>
        let pending_key := encode_outpoint p in
        if bool_decide (key = pending_key) then
          let? rest := merge_overlay s disk_items pending_items in
          Ok (pending_entry s p ++ rest)
        else if bytes_leb key pending_key then
          let? o := map_err Codec (decode_outpoint key) in
          let? e := decode_coin v in
          let? rest := merge_overlay s disk_items (p :: pending_items) in
          Ok ((o, e) :: rest)
        else
          let? rest := overlay pending_items in
          Ok (pending_entry s p ++ rest)
    end.

Definition partition_pending (s : UtxoStore) (i : nat) : list OutPoint :=
  List.filter (fun o => bool_decide (partition_index (partitions s) (encode_outpoint o) = i)) (ordered_pending s).*1.

Fixpoint scan_partitions (s : UtxoStore) (l : list nat) : result StoreError (list (OutPoint * StoredUtxo)) :=
  match l with
  | [] => Ok []
  | i :: l =>
      let? here := merge_overlay s (ks_iter (dk_keyspace (disk s)) (Coins i)) (partition_pending s i) in
      let? rest := scan_partitions s l in
      Ok (here ++ rest)
  end.
Definition for_each_entry_sorted (s : UtxoStore) : result StoreError (list (OutPoint * StoredUtxo)) :=
  scan_partitions s (partition_list s).

Definition ESTIMATED_CACHE_BYTES_PER_COIN : Z := 160.
Definition warm_complete_cache_if_fits : SM (option (Z * Z)) := fun s =>
  if rc_limit (read_cache s) <? entry_count s *^ ESTIMATED_CACHE_BYTES_PER_COIN then (s, Ok None)
  else
    match disk_entries s with
    | Err e => (set_read_cache cache_clear s, Err e)
    | Ok l =>
        let c := foldl (fun c e => insert_stationary e.1 e.2 c) (cache_clear (read_cache s)) l in
        let c := foldl (fun c item => match pu_entry item.2 with Some e => insert_stationary item.1 e c | None => cache_remove item.1 c end)
                   c (coin_iter (pending s)) in
        let c := trim c in
        let c := set_complete (rc_entry_count c =? entry_count s) c in
        (set_read_cache (fun _ => c) s, Ok (Some (rc_entry_count c, rc_bytes c)))
    end.

Fixpoint warm_entries (target : Z) (s : UtxoStore) (l : list (bytes * bytes)) (c : UtxoReadCache)
  : UtxoReadCache * result StoreError () :=
  match l with
  | [] => (c, Ok ())
  | (key, v) :: l =>
      if target <=? rc_bytes c then (c, Ok ())
      else
        match map_err Codec (decode_outpoint key) with
        | Err e => (c, Err e)
        | Ok o =>
            if bool_decide (is_Some (pending s !! o)) || bool_decide (is_Some (cache_get c o)) then warm_entries target s l c
            else
              match decode_coin v with
              | Err e => (c, Err e)
              | Ok e => warm_entries target s l (insert_stationary o e c)
              end
        end
  end.
Definition warm_partial_cache (target_bytes : Z) : SM (Z * Z) := fun s =>
  let c := read_cache s in
  let target := Z.min target_bytes (rc_limit c) in
  if target <=? rc_bytes c then (s, Ok (rc_entry_count c, rc_bytes c))
  else
    let '(c, r) := warm_entries target s (concat (map (fun i => ks_iter (dk_keyspace (disk s)) (Coins i)) (partition_list s))) c in
    match r with
    | Err e => (set_read_cache (fun _ => c) s, Err e)
    | Ok _ => (set_read_cache (fun _ => set_complete false c) s, Ok (rc_entry_count c, rc_bytes c))
    end.

(** ** Opening *)

Definition read_u64_metadata (k : KS) (key : bytes) : result StoreError (option Z) :=
  match ks_get k Metadata key with
  | None => Ok None
  | Some b => check? zlen b =? 8 else NotAU64 in Ok (Some (from_le b))
  end.

(** A store without a generation gets one. *)
Definition first_generation (generation : Z) (k : KS) : KS :=
  ks_persist (ks_commit false [(Metadata, META_ENTRY_COUNT, Some (to_le 8 0))]
    (ks_commit false [(Metadata, META_GENERATION, Some (to_le 8 generation))] k)).

(** A directory with the marker loses its key-value store.  [legacy] says
    whether the coins are in one partition, [was_new] whether no partition
    existed, and [random] is the first generation of a new store. *)
Definition open_with_cache (d : Disk) (was_new legacy : bool) (random : Z) : result StoreError UtxoStore :=
  let k := if dk_marker d then ks_new else dk_keyspace d in
  let n := if legacy then 1%nat else UTXO_SHARD_COUNT in
  let? count := read_u64_metadata k META_ENTRY_COUNT in
  let entry_count := default 0 count in
  let empty := forallb (fun i => bool_decide (ks_iter k (Coins i) = [])) (seq 0 n) in
  let partition_empty := (entry_count =? 0) && empty in
  check? negb ((entry_count =? 0) && negb partition_empty) else MissingCount in
  let? stored := read_u64_metadata k META_GENERATION in
  let '(generation, k) :=
    match stored with
    | Some g => if negb (g =? 0) then (g, k) else (Z.max random 1, first_generation (Z.max random 1) k)
    | None => (Z.max random 1, first_generation (Z.max random 1) k)
    end in
  let d' := {| dk_keyspace := k; dk_marker := false |} in
  Ok {| disk := d'; moments := [d']; partitions := n; entry_count := entry_count; generation := generation;
        read_cache := set_complete (entry_count =? 0) default_cache; pending := ∅; pending_bytes := 0;
        pending_limit_bytes := UTXO_PENDING_DEFAULT_LIMIT_BYTES; pending_item_limit := UTXO_PENDING_EMERGENCY_ITEMS;
        write_batch_limit_bytes := DISK_INDEX_DEFAULT_WRITE_BUFFER_BYTES; dirty_items_since_sync := 0;
        dirty_item_limit := DISK_INDEX_DIRTY_CHECKPOINT_ITEMS; durability_checkpoint_needed := false;
        pending_covers_all := entry_count =? 0; bulk_ingest_eligible := was_new && partition_empty |}.

(** [configure_cache_size_mib_with_mempool] *)
Definition configure_cache_size_mib_with_mempool (mib max_mempool_bytes : Z) (s : UtxoStore) : UtxoStore :=
  let MIB := 1024 * 1024 in
  let total_bytes := Z.max (Z.max mib 0) 4 *^ MIB in
  let block_tree_cache := Z.min (total_bytes / 8) (2 * MIB) in
  let coins_db_cache := Z.min (sat_sub total_bytes block_tree_cache / 2) (8 * MIB) in
  let coins_cache := sat_sub (sat_sub total_bytes block_tree_cache) coins_db_cache in
  let limit := coins_cache +^ max_mempool_bytes in
  let s := set_read_cache (configure_limit limit) s in
  {| disk := disk s; moments := moments s; partitions := partitions s; entry_count := entry_count s;
     generation := generation s; read_cache := read_cache s; pending := pending s; pending_bytes := pending_bytes s;
     pending_limit_bytes := Z.max (limit *^ 9 / 10) (sat_sub limit (10 * MIB)); pending_item_limit := pending_item_limit s;
     write_batch_limit_bytes := write_batch_limit_bytes s; dirty_items_since_sync := dirty_items_since_sync s;
     dirty_item_limit := dirty_item_limit s; durability_checkpoint_needed := durability_checkpoint_needed s;
     pending_covers_all := pending_covers_all s; bulk_ingest_eligible := bulk_ingest_eligible s |}.
End Store.
