(* ===== verification/UtxoDisk.v ===== *)
(** * The coin store's disk

    What the store relies on in the key-value store, and what a written set of
    coins looks like there: every coin under its key in the partition of the
    key, nothing else, and the count and the generation beside it.  Batches of
    the overlay turn the image of one set into the image of the next. *)

From Stdlib Require Import ZArith Lia.
From stdpp Require Import base list option gmap sets strings sorting.
From S2P Require Import Prelude Types UtxoCodec UtxoCache UtxoStore.
Local Open Scope Z_scope.
Local Set Warnings "-clear-no-such-hyp".

Definition apply_write (m : gmap (Partition * bytes) bytes) (w : Write) : gmap (Partition * bytes) bytes :=
  match w.2 with Some v => <[w.1 := v]> m | None => delete w.1 m end.
Definition apply_writes (ws : list Write) (m : gmap (Partition * bytes) bytes) : gmap (Partition * bytes) bytes := foldl apply_write m ws.

Definition bytes_lt (a b : bytes) : Prop := bytes_leb a b = true /\ a <> b.

(** The documented behaviour of the key-value store.  A batch is atomic; what
    is written with [SyncData], and all before it, survives a crash; of the
    batches after that a prefix survives.  Ingestion needs a partition that
    was never written and keys in order; nothing is known about a crash
    during it. *)
Class KeyspaceLaws {KSO : Keyspace} := {
  ks_contents : KS -> gmap (Partition * bytes) bytes;
  ks_untouched : KS -> nat -> Prop;
  law_get : forall k p key, ks_get k p key = ks_contents k !! (p, key);
  law_iter : forall k p key v, (key, v) ∈ ks_iter k p <-> ks_contents k !! (p, key) = Some v;
  law_iter_sorted : forall k p, StronglySorted bytes_lt (ks_iter k p).*1;
  law_commit : forall sync ws k, ks_contents (ks_commit sync ws k) = apply_writes ws (ks_contents k);
  law_commit_untouched : forall sync ws k i,
    ks_untouched k i -> Forall (fun w : Write => w.1.1 <> Coins i) ws -> ks_untouched (ks_commit sync ws k) i;
  law_ingest : forall i l k,
    ks_untouched k i -> StronglySorted bytes_lt l.*1 ->
    ks_contents (ks_ingest i l k) = apply_writes (map (fun e => (Coins i, e.1, Some e.2)) l) (ks_contents k);
  law_ingest_untouched : forall i j l k, ks_untouched k j -> i <> j -> ks_untouched (ks_ingest i l k) j;
  law_persist : forall k, ks_contents (ks_persist k) = ks_contents k;
  law_persist_untouched : forall k i, ks_untouched k i -> ks_untouched (ks_persist k) i;
  law_new : ks_contents ks_new = ∅;
  law_new_untouched : forall i, ks_untouched ks_new i;
  law_recover_new : forall k, ks_recovers ks_new k -> ks_contents k = ∅;
  law_recover_commit : forall sync ws k k',
    ks_recovers (ks_commit sync ws k) k' ->
    ks_contents k' = ks_contents (ks_commit sync ws k) \/ (sync = false /\ ks_recovers k k');
  law_recover_persist : forall k k', ks_recovers (ks_persist k) k' -> ks_contents k' = ks_contents k;
  law_recover_again : forall k k' k'', ks_recovers k k' -> ks_recovers k' k'' -> ks_contents k'' = ks_contents k';
}.

(** A point of the curve is determined by its abscissa and a parity. *)
Class CurveLaws {CV : CurveOps} : Prop := {
  law_compressed : forall key x y,
    length x = 32%nat -> length y = 32%nat ->
    from_slice (4 :: x ++ y) = Some key -> serialize_uncompressed key = 4 :: x ++ y ->
    exists key', from_slice (2 + Z.land (zat y 31) 1 :: x) = Some key' /\ serialize_uncompressed key' = 4 :: x ++ y;
}.

Abbreviation coins := (gmap OutPoint StoredUtxo).

Definition outpoint_wf (o : OutPoint) : Prop := length (txid o) = 32%nat /\ all_bytes (txid o) /\ in_u 32 (vout o).
Definition coin_ok (o : OutPoint) (e : StoredUtxo) : Prop := outpoint_wf o /\ utxo_wf e.
Definition item_ok (item : OutPoint * PendingUtxo) : Prop :=
  outpoint_wf item.1 /\ forall e, pu_entry item.2 = Some e -> utxo_wf e.

Definition slot (n : nat) (o : OutPoint) : Partition * bytes :=
  (Coins (partition_index n (encode_outpoint o)), encode_outpoint o).

Lemma decode_encode_outpoint o : outpoint_wf o -> decode_outpoint (encode_outpoint o) = Ok o.
Proof.
  intros (Hl & _ & Hv). assert (Ht : zlen (txid o) = 32) by (unfold zlen; lia).
  assert (Hs : slice (txid o ++ to_le 4 (vout o)) 0 32 = txid o) by (apply (slice_app [] (txid o)); [done|by rewrite Ht]).
  unfold decode_outpoint, encode_outpoint. rewrite zlen_app, zlen_to_le, Ht, Hs, zdrop_app_eq by lia.
  rewrite (from_to_le_small 4 32) by done. by destruct o.
Qed.

Lemma encode_outpoint_inj o o' : outpoint_wf o -> outpoint_wf o' -> encode_outpoint o = encode_outpoint o' -> o = o'.
Proof. intros H H' E. apply (f_equal decode_outpoint) in E. rewrite !decode_encode_outpoint in E by done. by injection E. Qed.

Lemma slot_inj n o o' : outpoint_wf o -> outpoint_wf o' -> slot n o = slot n o' -> o = o'.
Proof. intros H H' [= _ E]. by apply encode_outpoint_inj. Qed.

(** The order of the overlay is the order of the keys. *)
Lemma key_le_spec l r :
  outpoint_wf l.1 -> outpoint_wf r.1 -> key_le l r <-> bytes_leb (encode_outpoint l.1) (encode_outpoint r.1) = true.
Proof.
  intros (Hl & _) (Hr & _). unfold key_le, encode_outpoint. by rewrite bytes_leb_app by congruence.
Qed.

(** ** Overlays *)

Definition set_coin (base : coins) (item : OutPoint * PendingUtxo) : coins :=
  match pu_entry item.2 with Some e => <[item.1 := e]> base | None => delete item.1 base end.
Definition overlay (p : gmap OutPoint PendingUtxo) (base : coins) : coins :=
  merge (fun p b => match p with Some p => pu_entry p | None => b end) p base.

Lemma overlay_lookup p base o : overlay p base !! o = match p !! o with Some x => pu_entry x | None => base !! o end.
Proof. unfold overlay. rewrite lookup_merge. unfold diag_None. by destruct (p !! o), (base !! o). Qed.

Lemma overlay_empty base : overlay ∅ base = base.
Proof. apply map_eq. intros o. by rewrite overlay_lookup, lookup_empty. Qed.

Lemma set_coins_lookup items base o :
  NoDup items.*1 ->
  foldl set_coin base items !! o =
  match (list_to_map items : gmap OutPoint PendingUtxo) !! o with Some x => pu_entry x | None => base !! o end.
Proof.
  revert base. induction items as [|[o' p] items IH]; intros base Hnd; cbn [foldl list_to_map foldr]; [by rewrite lookup_empty|].
  apply NoDup_cons in Hnd as [Hnot Hnd]. rewrite (IH _ Hnd). change (uncurry _ (o', p)) with (<[o' := p]> : gmap OutPoint PendingUtxo -> _).
  change (foldr (λ p0, <[p0.1:=p0.2]>) ∅ items) with (list_to_map items : gmap OutPoint PendingUtxo). cbn [fst snd].
  destruct (decide (o' = o)) as [<-|Hne].
  - rewrite (not_elem_of_list_to_map_1 items o') by done. rewrite lookup_insert_eq. unfold set_coin. cbn.
    destruct (pu_entry p); [apply lookup_insert_eq|apply lookup_delete_eq].
  - rewrite lookup_insert_ne by done. destruct (_ !! o); [done|]. unfold set_coin. cbn.
    destruct (pu_entry p); [by apply lookup_insert_ne|by apply lookup_delete_ne].
Qed.

Lemma set_coins_overlay items p base : items ≡ₚ map_to_list p -> foldl set_coin base items = overlay p base.
Proof.
  intros Hp. apply map_eq. intros o. assert (Hnd : NoDup items.*1) by (rewrite Hp; apply NoDup_fst_map_to_list).
  rewrite (set_coins_lookup items base o Hnd), overlay_lookup.
  by rewrite (list_to_map_proper items (map_to_list p) Hnd Hp), list_to_map_to_list.
Qed.

(** ** The image of a set *)

Section Image.
Context {KSO : Keyspace} {KL : KeyspaceLaws} {CV : CurveOps} {CL : CurveLaws} {CO : CoinOrder}.
Context (n : nat).

Lemma coin_codec e : utxo_wf e -> exists b, encode_coin e = Ok b /\ decode_coin b = Ok e.
Proof.
  intros H. destruct (stored_utxo_codec _ from_slice serialize_uncompressed law_compressed deserialize_output e H) as (b & E & D).
  exists b. unfold encode_coin, decode_coin. by rewrite E, D.
Qed.

Record holds (m : gmap (Partition * bytes) bytes) (u : coins) : Prop := {
  hd_coin : forall o e, u !! o = Some e -> coin_ok o e /\ exists b, m !! slot n o = Some b /\ decode_coin b = Ok e;
  hd_only : forall i key b, m !! (Coins i, key) = Some b -> exists o, is_Some (u !! o) /\ (Coins i, key) = slot n o;
}.

Lemma holds_empty : holds ∅ ∅.
Proof. split; [intros o e H|intros i key b H]; by rewrite lookup_empty in H. Qed.

Lemma holds_meta m u ws : Forall (fun w : Write => w.1.1 = Metadata) ws -> holds m u -> holds (apply_writes ws m) u.
Proof.
  intros Hws. revert m. induction Hws as [|[[p key] v] ws Hp Hws IH]; intros m [H1 H2]; [done|]. apply IH. cbn in Hp. subst p.
  assert (E : forall i key', apply_write m (Metadata, key, v) !! (Coins i, key') = m !! (Coins i, key')).
  { intros i key'. unfold apply_write. cbn. destruct v; [by rewrite lookup_insert_ne|by rewrite lookup_delete_ne]. }
  split; [intros o e; unfold slot; rewrite E; apply H1|intros i key' b; rewrite E; apply H2].
Qed.

(** The slot of one coin is written. *)
Lemma holds_slot m u o v (x : option StoredUtxo) :
  outpoint_wf o -> holds m u -> (forall e, x = Some e -> utxo_wf e) ->
  match x with Some e => exists b, v = Some b /\ decode_coin b = Ok e | None => v = None end ->
  holds (apply_write m (slot n o, v)) (match x with Some e => <[o := e]> u | None => delete o u end).
Proof.
  intros Ho [H1 H2] Hx Hv. set (u' := match x with Some e => _ | None => _ end).
  assert (Hu : forall o', u' !! o' = if decide (o' = o) then x else u !! o').
  { intros o'. unfold u'. destruct x, (decide (o' = o)) as [->|Hne]; [apply lookup_insert_eq|by apply lookup_insert_ne|apply lookup_delete_eq|by apply lookup_delete_ne]. }
  assert (Hm : forall a, apply_write m (slot n o, v) !! a = if decide (a = slot n o) then v else m !! a).
  { intros a. unfold apply_write. cbn [snd fst]. destruct v, (decide (a = slot n o)) as [->|Hne];
      [apply lookup_insert_eq|by apply lookup_insert_ne|apply lookup_delete_eq|by apply lookup_delete_ne]. }
  split.
  - intros o' e. rewrite Hu, Hm. case_decide as E.
    + subst o'. intros ->. rewrite decide_True by done. split; [split; auto|done].
    + intros He. destruct (H1 o' e He) as [[Hw Hc] Hb]. rewrite decide_False by (intros Es; by apply E, (slot_inj n)). by split.
  - intros i key b. rewrite Hm. case_decide as E.
    + intros ->. exists o. rewrite Hu, decide_True by done. by destruct x.
    + intros Hb. destruct (H2 i key b Hb) as (o' & Hs & Ek). exists o'. split; [|done]. rewrite Hu, decide_False; [done|]. intros ->. by rewrite Ek in E.
Qed.

Lemma encode_items_spec items :
  Forall item_ok items ->
  exists ws, encode_items n items = Ok ws /\
    forall m u, holds m u -> holds (apply_writes ws m) (foldl set_coin u items).
Proof.
  induction 1 as [|[o p] items [Ho Hp] Hok (ws & Ew & IH)]; [by exists []|]. cbn [encode_items].
  assert (Hv : exists v, match pu_entry p with None => Ok None | Some entry => let? b := encode_coin entry in Ok (Some b) end = Ok v /\
    match pu_entry p with Some e => exists b, v = Some b /\ decode_coin b = Ok e | None => v = None end).
  { destruct (pu_entry p) as [e|] eqn:Ep; [|by exists None]. destruct (coin_codec e) as (b & E & D); [by apply Hp|]. exists (Some b). rewrite E. eauto. }
  destruct Hv as (v & -> & Hv). cbn [rbind]. rewrite Ew. eexists. split; [done|]. intros m u Hm. cbn [apply_writes foldl].
  apply IH. unfold set_coin. cbn [snd fst]. by apply (holds_slot m u o v (pu_entry p)).
Qed.

Lemma encode_items_partitions items ws : encode_items n items = Ok ws -> Forall (fun w : Write => exists i, w.1.1 = Coins i) ws.
Proof.
  revert ws. induction items as [|[o p] items IH]; intros ws; cbn [encode_items]; [by intros [= <-]|].
  intros (v & _ & H)%rbind_Ok. apply rbind_Ok in H as (rest & Hr & [= <-]). constructor; [by eexists|by apply IH].
Qed.

(** ** The records beside it *)

Record image (k : KS) (g : Z) (u : coins) : Prop := {
  im_holds : holds (ks_contents k) u;
  im_count : ks_contents k !! (Metadata, META_ENTRY_COUNT) = Some (to_le 8 (Z.of_nat (size u)));
  im_generation : ks_contents k !! (Metadata, META_GENERATION) = Some (to_le 8 g);
}.

Lemma image_same k k' g u : ks_contents k' = ks_contents k -> image k g u -> image k' g u.
Proof. intros E [H1 H2 H3]. split; by rewrite E. Qed.

Lemma image_written m u g k :
  holds m u -> ks_contents k = apply_writes (metadata_writes (Z.of_nat (size u)) g) m -> image k g u.
Proof.
  intros Hm Hk. split; rewrite Hk.
  - apply holds_meta; [by repeat constructor|done].
  - unfold metadata_writes. cbn [apply_writes foldl apply_write fst snd]. rewrite lookup_insert_ne by (intros E; by vm_compute in E). apply lookup_insert_eq.
  - unfold metadata_writes. cbn [apply_writes foldl apply_write fst snd]. apply lookup_insert_eq.
Qed.

(** ** Reading *)

Lemma holds_get k u o :
  holds (ks_contents k) u -> outpoint_wf o ->
  match ks_get k (Coins (partition_index n (encode_outpoint o))) (encode_outpoint o) with
  | None => u !! o = None
  | Some b => exists e, decode_coin b = Ok e /\ u !! o = Some e
  end.
Proof.
  intros [H1 H2] Ho. rewrite law_get. destruct (ks_contents k !! _) as [b|] eqn:E.
  - destruct (H2 _ _ _ E) as (o' & [e He] & Hs). destruct (H1 o' e He) as [[Ho' _] (b' & Hb & Hd)].
    assert (o' = o) as -> by (apply (slot_inj n); [done|done|by symmetry]). unfold slot in Hb. rewrite Hb in E. injection E as ->. by exists e.
  - destruct (u !! o) as [e|] eqn:Eu; [|done]. destruct (H1 o e Eu) as [_ (b & Hb & _)]. unfold slot in Hb. by rewrite Hb in E.
Qed.
End Image.
