(* ===== verification/UtxoFlush.v ===== *)
(** * Writing the overlay

    A flush of the coin store writes the overlay in batches, or ingests it
    into an untouched key-value store.  Both end with the image of the set that
    the overlay stands for, with the count and the next generation, and every
    durable state in between is either behind the marker of unsynced writes or
    that image. *)

From Stdlib Require Import ZArith Lia.
From stdpp Require Import base list option gmap sets strings sorting.
From S2P Require Import Prelude Types UtxoCodec UtxoCache UtxoStore UtxoDisk.
Local Open Scope Z_scope.
Local Open Scope op_scope.
Local Set Warnings "-clear-no-such-hyp".

(** ** Batches *)

Lemma item_bytes_pos item : 0 < item_bytes item.
Proof. unfold item_bytes, pending_utxo_bytes, UTXO_PENDING_CONTAINER_OVERHEAD, stored_utxo_cache_bytes, sat_add, umax, zlen. destruct (pu_entry _); lia. Qed.

Lemma split_batches_concat limit items batch bytes : concat (split_batches limit items batch bytes) = batch ++ items.
Proof.
  revert batch bytes. induction items as [|item items IH]; intros batch bytes; cbn [split_batches].
  - destruct batch; cbn; by rewrite ?app_nil_r.
  - destruct (_ && _); cbn [concat]; rewrite IH; [done|]. by rewrite <- app_assoc.
Qed.

Lemma split_batches_length limit items batch bytes :
  (length (split_batches limit items batch bytes) <= length items + if bool_decide (batch = []) then 0 else 1)%nat.
Proof.
  revert batch bytes. induction items as [|item items IH]; intros batch bytes; cbn [split_batches length]; [by case_bool_decide|].
  destruct (bool_decide (batch = [])) eqn:E; cbn [negb andb].
  - specialize (IH (batch ++ [item]) (sat_add 64 bytes (item_bytes item))). destruct (bool_decide (batch ++ [item] = [])); lia.
  - destruct (_ <? _); cbn [length]; [specialize (IH [item] (sat_add 64 0 (item_bytes item))); cbn in IH; lia|].
    specialize (IH (batch ++ [item]) (sat_add 64 bytes (item_bytes item))). destruct (bool_decide (batch ++ [item] = [])); lia.
Qed.

(** The first pass counts what the second one writes. *)
Lemma count_batches_spec limit items batch bytes count :
  (bytes = 0 <-> batch = []) -> 0 <= bytes -> 0 <= count -> count + Z.of_nat (length items) + 1 <= umax 64 ->
  count_batches limit items count bytes = count + Z.of_nat (length (split_batches limit items batch bytes)).
Proof.
  revert batch bytes count. induction items as [|item items IH]; intros batch bytes count Hb H0 Hc Hm; cbn [count_batches split_batches].
  - destruct (Z.eqb_spec bytes 0) as [E|E].
    + rewrite bool_decide_eq_true_2 by tauto. cbn. lia.
    + rewrite bool_decide_eq_false_2 by tauto. unfold sat_add. cbn [length] in *. lia.
  - replace (negb (bytes =? 0)) with (negb (bool_decide (batch = []))).
    2: { f_equal. destruct (Z.eqb_spec bytes 0); [apply bool_decide_eq_true_2|apply bool_decide_eq_false_2]; tauto. }
    pose proof (item_bytes_pos item). cbn [length] in Hm.
    assert (Hu : 1 <= umax 64) by (unfold umax; lia).
    destruct (_ && _); cbn [length].
    + rewrite (IH [item]); unfold sat_add; [lia| |lia..]. split; [lia|done].
    + apply IH; unfold sat_add; try lia. split; [lia|by destruct batch].
Qed.

(** ** Changes of the disk *)

(** Durable states that are left out of account. *)
Class Excused {KSO : Keyspace} := excused : list Disk.

Section Flush.
Context {KSO : Keyspace} {KL : KeyspaceLaws} {CV : CurveOps} {CL : CurveLaws} {CO : CoinOrder}.

(** Only the durable state changes, through the states [ms]. *)
Definition redisk (d : Disk) (ms : list Disk) (s : UtxoStore) : UtxoStore :=
  {| disk := d; moments := ms ++ moments s; partitions := partitions s; entry_count := entry_count s;
     generation := generation s; read_cache := read_cache s; pending := pending s; pending_bytes := pending_bytes s;
     pending_limit_bytes := pending_limit_bytes s; pending_item_limit := pending_item_limit s;
     write_batch_limit_bytes := write_batch_limit_bytes s; dirty_items_since_sync := dirty_items_since_sync s;
     dirty_item_limit := dirty_item_limit s; durability_checkpoint_needed := durability_checkpoint_needed s;
     pending_covers_all := pending_covers_all s; bulk_ingest_eligible := bulk_ingest_eligible s |}.

Lemma redisk_redisk d ms d' ms' s : redisk d ms (redisk d' ms' s) = redisk d (ms ++ ms') s.
Proof. unfold redisk. cbn. by rewrite app_assoc. Qed.
Lemma redisk_here s : redisk (disk s) [] s = s.
Proof. by destruct s. Qed.

(** What a crash leaves is what was there. *)
Definition exact (k : KS) : Prop := forall k', ks_recovers k k' -> ks_contents k' = ks_contents k.

Lemma exact_synced ws k : exact (ks_commit true ws k).
Proof. intros k' H. by destruct (law_recover_commit _ _ _ _ H) as [|[? _]]. Qed.
Lemma exact_persisted k : exact (ks_persist k).
Proof. intros k' H. rewrite law_persist. by apply law_recover_persist. Qed.

(** The durable states on the way to [d]: behind the marker, or [d] itself. *)
Definition covered (ms : list Disk) (d : Disk) : Prop := forall d', d' ∈ ms -> dk_marker d' = true \/ d' = d.

Record writes (sync : bool) (g : Z) (u : coins) (s s' : UtxoStore) (marker : bool) (d : Disk) (ms : list Disk) : Prop := {
  wr_frame : s' = redisk d ms s;
  wr_image : image (partitions s) (dk_keyspace d) g u;
  wr_marker : dk_marker d = marker;
  wr_exact : sync = true -> exact (dk_keyspace d);
  wr_covered : covered ms d;
}.

Lemma commit_batches_spec sync g batches v index s :
  batches <> [] -> 0 <= index -> index + Z.of_nat (length batches) <= umax 64 ->
  dk_marker (disk s) = true \/ length batches = 1%nat ->
  Forall item_ok (concat batches) -> holds (partitions s) (ks_contents (dk_keyspace (disk s))) v ->
  entry_count s = Z.of_nat (size (foldl set_coin v (concat batches))) ->
  exists s' d ms, commit_batches sync g (index + Z.of_nat (length batches)) batches index s = (s', Ok ()) /\
    writes sync g (foldl set_coin v (concat batches)) s s' (dk_marker (disk s)) d ms.
Proof.
  revert v index s. induction batches as [|items batches IH]; intros v index s Hne Hi Hmax Hmark Hok Hh Hcount; [done|].
  cbn [concat] in Hok. apply Forall_app in Hok as [Hok1 Hok2]. cbn [commit_batches]. unfold bind, commit_pending_batch.
  destruct (encode_items_spec (partitions s) items Hok1) as (ws & -> & Hws). cbn [concat] in *. rewrite foldl_app in *.
  destruct batches as [|items' batches].
  - cbn [length] in *. rewrite (proj2 (Z.eqb_eq _ _)) by lia. rewrite andb_true_r. cbn [commit_batches ret concat foldl] in *.
    eexists _, _, [_]. split; [done|]. split; [done| |done|by intros ->; apply exact_synced|intros d' ->%list_elem_of_singleton; by right].
    cbn [dk_keyspace]. eapply image_written; [apply (Hws _ _ Hh)|]. rewrite law_commit. unfold apply_writes. by rewrite foldl_app, Hcount.
  - assert (Hm : dk_marker (disk s) = true) by (by destruct Hmark).
    rewrite (proj2 (Z.eqb_neq _ _)) by (cbn [length]; lia). rewrite andb_false_r, app_nil_r.
    match goal with |- context [commit_batches _ _ _ _ _ ?x] => set (s1 := x) end.
    replace (sat_add 64 index 1) with (index + 1) by (unfold sat_add; cbn [length] in Hmax; lia).
    replace (index + Z.of_nat (length (items :: items' :: batches))) with (index + 1 + Z.of_nat (length (items' :: batches))) by (cbn [length]; lia).
    destruct (IH (foldl set_coin v items) (index + 1) s1) as (s' & d & ms & -> & [Hf Him Hmk Hex Hcov]); try done.
    + lia.
    + cbn [length] in *. lia.
    + by left.
    + cbn [s1 on_keyspace with_disk disk dk_keyspace partitions]. rewrite law_commit. by apply Hws.
    + eexists _, d, (ms ++ [disk s1]). split; [done|]. split; [|done|done|done|].
      * rewrite Hf. change s1 with (redisk (disk s1) [disk s1] s). by rewrite redisk_redisk.
      * intros d' [H| ->%list_elem_of_singleton]%elem_of_app; [by apply Hcov|by left].
Qed.

(** ** Ingestion *)

Definition in_partition (n i : nat) (item : OutPoint * PendingUtxo) : bool :=
  bool_decide (partition_index n (encode_outpoint item.1) = i).

Lemma ingest_encodes n items i :
  Forall item_ok items -> Forall (fun item => is_Some (pu_entry item.2)) items ->
  encode_items n (List.filter (in_partition n i) items) =
  Ok (map (fun e => (Coins i, e.1, Some e.2)) (ingest_entries n items i)).
Proof.
  induction 1 as [|[o p] items [Ho Hp] Hok IH]; intros Hs; [done|]. apply Forall_cons in Hs as [[e He] Hs]. specialize (IH Hs).
  cbn [snd] in He. destruct (coin_codec e) as (b & Eb & _); [by apply Hp|].
  unfold ingest_entries. cbn [List.filter omap list_omap fst snd]. rewrite He. cbn. rewrite Eb. cbn. unfold in_partition at 1. cbn [fst].
  case_bool_decide as E; [|exact IH]. cbn [encode_items]. rewrite He, Eb. cbn [rbind]. rewrite IH. cbn. by rewrite E.
Qed.

Lemma ingest_sorted n items i :
  StronglySorted bytes_lt (map (fun item => encode_outpoint item.1) items) -> StronglySorted bytes_lt (ingest_entries n items i).*1.
Proof.
  assert (Hsub : forall items' x, Forall (bytes_lt x) (map (fun item => encode_outpoint item.1) items') -> Forall (bytes_lt x) (ingest_entries n items' i).*1).
  { intros items' x. induction items' as [|[o p] items' IH]; [done|]. intros [H1 H2]%Forall_cons. unfold ingest_entries. cbn [omap list_omap fst snd].
    destruct (pu_entry p) as [e|]; cbn; [|by apply IH]. destruct (res_ok (encode_coin e)); cbn; [|by apply IH].
    case_bool_decide; [|by apply IH]. cbn. constructor; [done|by apply IH]. }
  induction items as [|[o p] items IH]; [constructor|]. intros [H1 H2]%StronglySorted_inv. unfold ingest_entries. cbn [omap list_omap fst snd].
  destruct (pu_entry p) as [e|]; cbn; [|by apply IH]. destruct (res_ok (encode_coin e)); cbn; [|by apply IH].
  case_bool_decide; [|by apply IH]. cbn. constructor; [by apply IH|by apply Hsub].
Qed.

Lemma partitions_perm {A} (f : A -> nat) l n :
  Forall (fun x => (f x < n)%nat) l -> concat (map (fun i => List.filter (fun x => bool_decide (f x = i)) l) (seq 0 n)) ≡ₚ l.
Proof.
  intros Hl. assert (H : forall k, concat (map (fun i => List.filter (fun x => bool_decide (f x = i)) l) (seq 0 k)) ≡ₚ List.filter (fun x => (f x <? k)%nat) l).
  { clear Hl. intros k. induction k as [|k IH].
    - cbn. induction l as [|x l IHl]; [done|]. exact IHl.
    - rewrite seq_S, map_app, concat_app, IH. cbn [map concat Nat.add]. rewrite app_nil_r. clear IH. induction l as [|x l IHl]; [done|]. cbn [List.filter].
      destruct (Nat.ltb_spec (f x) k), (Nat.ltb_spec (f x) (S k)); case_bool_decide; try lia; rewrite ?Permutation_middle in *; cbn; by rewrite <- ?IHl, ?Permutation_middle. }
  rewrite H. clear H. induction Hl as [|x l Hx Hl IH]; [done|]. cbn [List.filter]. rewrite (proj2 (Nat.ltb_lt _ _) Hx). by rewrite IH.
Qed.

Lemma ingest_loop n items l s v :
  n = partitions s -> Forall item_ok items -> Forall (fun item => is_Some (pu_entry item.2)) items ->
  StronglySorted bytes_lt (map (fun item => encode_outpoint item.1) items) ->
  NoDup l -> Forall (ks_untouched (dk_keyspace (disk s))) l -> dk_marker (disk s) = true -> holds n (ks_contents (dk_keyspace (disk s))) v ->
  exists d ms, for_each (fun i s => match ingest_entries (partitions s) items i with
                                    | [] => (s, Ok ())
                                    | entries => (on_keyspace (ks_ingest i entries) s, Ok ())
                                    end) l s = (redisk d ms s, Ok () : result StoreError ()) /\
    (forall d', d' ∈ d :: ms -> dk_marker d' = true) /\
    holds n (ks_contents (dk_keyspace d)) (foldl set_coin v (concat (map (fun i => List.filter (in_partition n i) items) l))).
Proof.
  intros Hn Hok Hsome Hsort. revert s v Hn. induction l as [|i l IH]; intros s v Hn Hnd Hun Hmk Hh.
  - exists (disk s), []. cbn [for_each map concat foldl]. rewrite redisk_here. split; [done|]. split; [by intros d' ->%list_elem_of_singleton|done].
  - apply NoDup_cons in Hnd as [Hi Hnd]. apply Forall_cons in Hun as [Hui Hun]. cbn [for_each map concat]. rewrite foldl_app. unfold bind.
    destruct (encode_items_spec n (List.filter (in_partition n i) items)) as (ws & Ews & Hws).
    { apply Forall_forall. intros x Hx%list_elem_of_In. apply filter_In in Hx as [Hx _]. rewrite Forall_forall in Hok. apply Hok. by apply list_elem_of_In. }
    rewrite (ingest_encodes n items i Hok Hsome) in Ews. injection Ews as Ews. rewrite <- Hn.
    destruct (ingest_entries n items i) as [|entry entries] eqn:Ei.
    + subst ws. apply IH; try done. exact (Hws _ _ Hh).
    + rewrite <- Ei in *. match goal with |- context [on_keyspace ?f s] => set (s1 := on_keyspace f s) end.
      assert (Hk : dk_keyspace (disk s1) = ks_ingest i (ingest_entries n items i) (dk_keyspace (disk s))) by done.
      destruct (IH s1 (foldl set_coin v (List.filter (in_partition n i) items))) as (d & ms & E & Hm & Hd); try done.
      * rewrite Hk. apply Forall_forall. intros j Hj. rewrite Forall_forall in Hun. apply law_ingest_untouched; [by apply Hun|by intros ->].
      * rewrite Hk, law_ingest by (try done; by apply ingest_sorted). rewrite Ews. by apply Hws.
      * exists d, (ms ++ [disk s1]). rewrite E. split; [change s1 with (redisk (disk s1) [disk s1] s); by rewrite redisk_redisk|]. split; [|done].
        intros d' [->|[H| ->%list_elem_of_singleton]%elem_of_app]%elem_of_cons; [apply Hm; left|apply Hm; by right|done].
Qed.

(** ** The order of the overlay *)

#[local] Instance key_le_total : Total key_le.
Proof.
  intros l r. unfold key_le. destruct (decide (txid l.1 = txid r.1)) as [E|E].
  - rewrite E, !bool_decide_eq_true_2 by done. apply bytes_leb_total.
  - rewrite !bool_decide_eq_false_2 by congruence. apply bytes_leb_total.
Qed.
#[local] Instance key_le_trans : Transitive key_le.
Proof.
  intros [l ?] [m ?] [r ?]. unfold key_le. cbn [fst]. repeat case_bool_decide; try congruence; try apply bytes_leb_trans.
  intros Ha Hb. destruct H. apply bytes_leb_antisym; [done|]. congruence.
Qed.

Lemma ordered_perm s : ordered_pending s ≡ₚ map_to_list (pending s).
Proof. unfold ordered_pending. rewrite merge_sort_Permutation. apply coin_iter_perm. Qed.

Lemma sorted_keys (l : list (OutPoint * PendingUtxo)) :
  StronglySorted key_le l -> NoDup l.*1 -> Forall (fun item => outpoint_wf item.1) l ->
  StronglySorted bytes_lt (map (fun item => encode_outpoint item.1) l).
Proof.
  induction 1 as [|x l Hs IH Hx]; intros Hnd Hwf; [constructor|]. apply NoDup_cons in Hnd as [Hnot Hnd]. apply Forall_cons in Hwf as [Hw Hwf].
  constructor; [by apply IH|]. apply Forall_forall. intros key Hk%list_elem_of_fmap. destruct Hk as (y & -> & Hy).
  rewrite Forall_forall in Hx, Hwf. split; [apply key_le_spec; auto|]. intros E%encode_outpoint_inj; [|by auto..]. apply Hnot. rewrite E. apply list_elem_of_fmap. eauto.
Qed.

Definition pending_ok (p : gmap OutPoint PendingUtxo) : Prop := forall o x, p !! o = Some x -> item_ok (o, x).

Lemma ordered_ok s : pending_ok (pending s) -> Forall item_ok (ordered_pending s).
Proof. intros H. apply Forall_forall. intros [o x]. rewrite ordered_perm, elem_of_map_to_list. apply H. Qed.

Lemma ordered_sorted s :
  pending_ok (pending s) -> StronglySorted bytes_lt (map (fun item => encode_outpoint item.1) (ordered_pending s)).
Proof.
  intros H. apply sorted_keys; [apply StronglySorted_merge_sort; apply _|rewrite ordered_perm; apply NoDup_fst_map_to_list|].
  eapply Forall_impl; [by apply ordered_ok|]. by intros x [? _].
Qed.

(** ** The two ways to write *)

Definition parts_ok (n : nat) : Prop := n = 1%nat \/ n = UTXO_SHARD_COUNT.

Lemma partition_bound n o : parts_ok n -> outpoint_wf o -> (partition_index n (encode_outpoint o) < n)%nat.
Proof.
  intros Hn (Hl & Hb & _). unfold partition_index. destruct Hn as [->| ->]; cbn [Nat.eqb UTXO_SHARD_COUNT]; [lia|].
  destruct (txid o) as [|b t] eqn:E; [done|]. apply Forall_cons in Hb as [Hb _]. unfold encode_outpoint. rewrite E.
  change (zat ((b :: t) ++ to_le 4 (vout o)) 0) with b. unfold is_byte in Hb.
  unfold UTXO_SHARD_COUNT. replace (sat_mul 64 b (Z.of_nat 8)) with (b * 8) by (unfold sat_mul, umax; lia). dlia.
Qed.

Lemma bulk_ingest_spec sync g s :
  parts_ok (partitions s) -> pending_ok (pending s) -> Forall (fun item => is_Some (pu_entry item.2)) (ordered_pending s) ->
  (forall i, (i < partitions s)%nat -> ks_untouched (dk_keyspace (disk s)) i) ->
  holds (partitions s) (ks_contents (dk_keyspace (disk s))) ∅ -> entry_count s = Z.of_nat (size (overlay (pending s) ∅)) ->
  exists s' d ms, bulk_ingest sync g (ordered_pending s) s = (s', Ok ()) /\ writes sync g (overlay (pending s) ∅) s s' true d ms.
Proof.
  intros Hn Hp Hsome Hun Hh Hcount. pose proof (ordered_ok s Hp) as Hok. unfold bulk_ingest.
  match goal with |- context [forallb ?f ?l] => assert (Hall : forallb f l = true) end.
  { apply forallb_forall. intros x Hx%list_elem_of_In. rewrite Forall_forall in Hsome, Hok. destruct (Hsome x Hx) as [e He]. rewrite He.
    apply Z.leb_le. destruct (Hok x Hx) as [_ Hw]. by apply Hw. }
  rewrite Hall. cbn [negb]. clear Hall. unfold bind, modify. set (s1 := mark_unsynced_pending s).
  destruct (ingest_loop (partitions s) (ordered_pending s) (partition_list s) s1 ∅) as (d & ms & E & Hm & Hd); try done.
  - by apply ordered_sorted.
  - apply NoDup_ListNoDup, seq_NoDup.
  - apply Forall_forall. intros i Hi%list_elem_of_In. apply in_seq in Hi. apply Hun. lia.
  - rewrite E. eexists _, {| dk_keyspace := ks_commit sync (metadata_writes (entry_count s) g) (dk_keyspace d); dk_marker := dk_marker d |}, (_ :: ms ++ [_]).
    split; [done|]. split.
    + unfold on_keyspace, with_disk, redisk, s1, mark_unsynced_pending, with_disk. cbn. by rewrite <- app_assoc.
    + cbn [dk_keyspace]. eapply image_written; [|rewrite law_commit, Hcount; done]. erewrite <- set_coins_overlay; [exact Hd|].
      etransitivity; [|apply ordered_perm]. apply (partitions_perm (fun item => partition_index (partitions s) (encode_outpoint item.1))).
      eapply Forall_impl; [exact Hok|]. intros x [Hw _]. by apply partition_bound.
    + cbn [dk_marker]. apply Hm. left.
    + intros ->. apply exact_synced.
    + intros d' [->|[H| ->%list_elem_of_singleton]%elem_of_app]%elem_of_cons; [by right|left; apply Hm; by right|by left].
Qed.

(** ** The cache after the write *)

Definition overlaid (p : gmap OutPoint PendingUtxo) (u : coins) : Prop :=
  forall o x e, p !! o = Some x -> pu_entry x = Some e -> u !! o = Some e.

Lemma stationary_incomplete l (c : UtxoReadCache) :
  rc_complete c = false -> rc_complete (foldl (fun c (item : OutPoint * StoredUtxo) => insert_stationary item.1 item.2 c) c l) = false.
Proof.
  revert c. induction l as [|x l IH]; intros c Hc; [done|]. cbn [foldl]. apply IH. unfold insert_stationary. by destruct (too_large _ _).
Qed.

Lemma refill_large_spec p u c :
  Z.of_nat (size u) < umax 64 -> overlaid p u -> sound u c ->
  sound u (refill_large p c) /\ rc_complete (refill_large p c) = false.
Proof.
  intros Hu Hp Hc. unfold refill_large. destruct (newest_height (coin_iter p)) as [h|]; [|by auto with coins].
  match goal with |- sound _ (trim_to ?l ?x) /\ _ => assert (H : sound u x /\ rc_complete x = false) end.
  - split; [|by apply stationary_incomplete]. apply sound_foldl.
    + intros c' [o e] Hin Hc'. apply sound_stationary; [done|done|]. apply list_elem_of_omap in Hin as ([o' x] & Hx & E).
      rewrite coin_iter_perm, elem_of_map_to_list in Hx. cbn [fst snd] in *. destruct (pu_entry x) as [e'|] eqn:Ex; [|done]. cbn in E.
      destruct (_ <=? _); [|done]. injection E as -> ->. by apply (Hp o x).
    + destruct (_ <=? _); auto with coins.
  - destruct H as [H1 H2]. split; [by apply sound_trim|]. match goal with |- rc_complete (trim_to ?l ?x) = _ => destruct (trim_to_spec l x (sd_wf _ _ H1)) as [_ Hs] end.
    apply not_true_is_false. intros E. apply (sh_complete _ _ Hs) in E as [E _]. congruence.
Qed.

Lemma refill_small_spec p u was c :
  Z.of_nat (size u) < umax 64 -> overlaid p u -> sound u c ->
  let c' := refill_small p was (Z.of_nat (size u)) c in sound u c' /\ (rc_complete c' = true -> forall o, cache_get c' o = u !! o).
Proof.
  intros Hu Hp Hc. unfold refill_small. match goal with |- context [foldl ?f c ?l] => assert (Hs : sound u (foldl f c l)) end.
  { apply sound_foldl; [|done]. intros c' [o x] Hx Hc'. rewrite coin_iter_perm, elem_of_map_to_list in Hx. cbn [fst snd].
    destruct (pu_entry x) eqn:E; [|by apply sound_remove]. apply sound_insert; [done|done|]. by apply (Hp o x). }
  split; [by apply sound_complete|]. cbn [set_complete rc_complete]. intros [_ E%Z.eqb_eq]%andb_true_iff o.
  apply (sound_full u _ Hs E).
Qed.

(** ** The invariant *)

Record store_ok (s : UtxoStore) (base u : coins) : Prop := {
  so_parts : parts_ok (partitions s);
  so_image : image (partitions s) (dk_keyspace (disk s)) (generation s) base;
  so_overlay : u = overlay (pending s) base;
  so_pending : pending_ok (pending s);
  so_room : Z.of_nat (size (pending s)) + 1 <= umax 64;
  so_fresh : forall o p, pending s !! o = Some p -> pu_fresh p = true -> base !! o = None;
  so_count : entry_count s = Z.of_nat (size u);
  so_covers : pending_covers_all s = true -> base = ∅;
  so_untouched : bulk_ingest_eligible s = true -> forall i, (i < partitions s)%nat -> ks_untouched (dk_keyspace (disk s)) i;
  so_small : Z.of_nat (size base) < 2 ^ 62 /\ Z.of_nat (size u) < 2 ^ 62;
  so_generation : 0 < generation s < 2 ^ 64;
  so_cache : sound u (read_cache s);
  so_complete : rc_complete (read_cache s) = true -> forall o, pending s !! o = None -> cache_get (read_cache s) o = u !! o;
}.

Lemma small_umax (u : coins) : Z.of_nat (size u) < 2 ^ 62 -> Z.of_nat (size u) < umax 64.
Proof. unfold umax. lia. Qed.

Lemma so_overlaid s base u : store_ok s base u -> overlaid (pending s) u.
Proof. intros Hs o x e Hx He. by rewrite (so_overlay _ _ _ Hs), overlay_lookup, Hx. Qed.

(** ** Flushing *)

Definition write_overlay (sync : bool) (g : Z) (s : UtxoStore) : op UtxoStore StoreError () :=
  let batch_limit := Z.max (write_batch_limit_bytes s) 1 in
  let items := ordered_pending s in
  let batch_count := count_batches batch_limit items 0 0 in
  do! modify (fun s => if sync && (1 <? batch_count) then mark_unsynced_pending s else s) in
  let! bulk := (fun s => (s, Ok (can_bulk_ingest s))) in
  do! modify (fun s => set_flags (pending_covers_all s) false s) in
  if bulk : bool then bulk_ingest sync g items
  else commit_batches sync g batch_count (split_batches batch_limit items [] 0) 0.

Lemma can_bulk_ingest_spec s :
  can_bulk_ingest s = true ->
  pending_covers_all s = true /\ bulk_ingest_eligible s = true /\ Forall (fun item => is_Some (pu_entry item.2)) (ordered_pending s).
Proof.
  unfold can_bulk_ingest. rewrite !andb_true_iff. intros ((((H1 & H2) & _) & _) & H). repeat split; try done.
  apply Forall_forall. intros x Hx%list_elem_of_In. rewrite forallb_forall in H. specialize (H x Hx). apply andb_true_iff in H as [_ H].
  by apply bool_decide_eq_true in H.
Qed.

Lemma writes_after sync g u s s1 s' m d ms d0 ms0 :
  s1 = redisk d0 ms0 s -> (forall d', d' ∈ ms0 -> dk_marker d' = true) ->
  writes sync g u s1 s' m d ms -> writes sync g u s s' m d (ms ++ ms0).
Proof.
  intros -> H0 [H1 H2 H3 H4 H5]. split; [by rewrite H1, redisk_redisk|done|done|done|].
  intros d' [H|H]%elem_of_app; [by apply H5|left; by apply H0].
Qed.

Lemma write_overlay_spec sync g s base u :
  store_ok s base u -> pending s <> ∅ -> (sync = false -> dk_marker (disk s) = true) ->
  exists s' d ms, write_overlay sync g s s = (s', Ok ()) /\
    writes sync g u (set_flags (pending_covers_all s) false s) s' (dk_marker d) d ms /\ (sync = false -> dk_marker d = true).
Proof.
  intros Hs Hne Hmark. unfold write_overlay, bind, modify.
  set (limit := Z.max _ 1). set (items := ordered_pending s). set (batches := split_batches limit items [] 0).
  assert (Hperm : items ≡ₚ map_to_list (pending s)) by apply ordered_perm.
  assert (Hlen : length items = size (pending s)) by (rewrite Hperm; apply length_map_to_list).
  pose proof (so_room _ _ _ Hs) as Hsmall.
  assert (Hcnt : count_batches limit items 0 0 = 0 + Z.of_nat (length batches)) by (apply count_batches_spec; try done; lia).
  pose proof (split_batches_concat limit items [] 0) as Hcat. fold batches in Hcat. cbn [app] in Hcat.
  assert (Hu : foldl set_coin base items = u) by (rewrite (set_coins_overlay items _ base Hperm); symmetry; apply Hs).
  rewrite Hcnt. set (bc := 0 + _).
  set (s1 := if sync && (1 <? bc) then mark_unsynced_pending s else s).
  assert (H1 : exists d0 ms0, s1 = redisk d0 ms0 s /\ dk_keyspace d0 = dk_keyspace (disk s) /\ (forall d', d' ∈ ms0 -> dk_marker d' = true) /\
    (dk_marker d0 = true \/ length batches = 1%nat) /\ (sync = false -> dk_marker d0 = true)).
  { unfold s1. destruct (sync && (1 <? bc)) eqn:E.
    - eexists _, [_]. split; [done|]. split; [done|]. split; [by intros d' ->%list_elem_of_singleton|]. split; [by left|done].
    - exists (disk s), []. rewrite redisk_here. split; [done|]. split; [done|]. split; [by intros d' ?%elem_of_nil|]. split; [|done].
      destruct sync; [|left; by apply Hmark]. right. apply Z.ltb_ge in E. assert (length batches <> 0%nat); [|unfold bc in E; lia].
      intros E0%length_zero_iff_nil. rewrite E0 in Hcat. cbn in Hcat. rewrite <- Hcat in Hlen. cbn in Hlen. symmetry in Hlen. by apply map_size_empty_inv in Hlen. }
  destruct H1 as (d0 & ms0 & E1 & Hk0 & Hms0 & Hone & Hm0).
  set (s2 := set_flags (pending_covers_all s1) false s1).
  assert (E2 : s2 = redisk d0 ms0 (set_flags (pending_covers_all s) false s)) by (unfold s2; by rewrite E1).
  destruct Hs as [Hn Him Hov Hp Htomb Hfr Hc Hcov Hun Hsm Hg Hca Hco]. rewrite E1. destruct (can_bulk_ingest (redisk d0 ms0 s)) eqn:Eb.
  - destruct (can_bulk_ingest_spec _ Eb) as (B1 & B2 & B3). cbn in B1, B2. change (ordered_pending (redisk d0 ms0 s)) with items in B3.
    specialize (Hcov B1). subst base.
    destruct (bulk_ingest_spec sync g s2) as (s' & d & ms & E & Hw); rewrite ?E2; cbn [redisk partitions pending disk entry_count set_flags]; try rewrite Hk0; auto.
    { apply Him. } { by rewrite Hc, <- Hov. }
    rewrite <- E2. replace (ordered_pending s2) with items in E by (by rewrite E2).
    rewrite E. exists s', d, (ms ++ ms0). split; [done|]. pose proof (wr_marker _ _ _ _ _ _ _ _ Hw) as Hmd.
    split; [|by intros _]. eapply writes_after; [exact E2|done|]. rewrite Hmd. rewrite E2 in Hw at 1. cbn [pending redisk set_flags] in Hw. by rewrite <- Hov in Hw.
  - destruct (commit_batches_spec sync g batches base 0 s2) as (s' & d & ms & E & Hw); rewrite ?E2; cbn [redisk partitions pending disk entry_count set_flags]; try rewrite Hk0; auto; try lia.
    { intros E0. rewrite E0 in Hcat. cbn in Hcat. rewrite <- Hcat in Hlen. symmetry in Hlen. by apply map_size_empty_inv in Hlen. }
    { pose proof (split_batches_length limit items [] 0). fold batches in H. cbn in H. lia. } { rewrite Hcat. by apply ordered_ok. } { apply Him. } { by rewrite Hcat, Hu. }
    rewrite <- E2. unfold bc. rewrite E. rewrite Hcat, Hu in Hw. exists s', d, (ms ++ ms0). split; [done|].
    pose proof (wr_marker _ _ _ _ _ _ _ _ Hw) as Hmd. split; [eapply writes_after; [exact E2|done|by rewrite Hmd]|]. rewrite Hmd, E2. exact Hm0.
Qed.

(** ** Crashes

    The log has the set of every flush under its generation.  The durable
    states from before some time may be excused. *)
Context {EX : Excused}.

Definition kept (P : Disk -> Prop) (s : UtxoStore) : Prop := exists new, moments s = new ++ excused /\ Forall P new.

Lemma kept_app P (Q : Disk -> Prop) s s' ms :
  kept P s -> moments s' = ms ++ moments s -> (forall d, P d -> Q d) -> (forall d, d ∈ ms -> Q d) -> kept Q s'.
Proof.
  intros (new & E & Hnew) Em HPQ Hms. exists (ms ++ new). rewrite Em, E. split; [by rewrite app_assoc|]. apply Forall_app. split; [by apply Forall_forall|].
  by eapply Forall_impl.
Qed.

Definition saved (n : nat) (L : gmap Z coins) (k : KS) : Prop :=
  forall k', ks_recovers k k' -> exists g v, L !! g = Some v /\ image n k' g v.

Record logged (L : gmap Z coins) (s : UtxoStore) (base : coins) : Prop := {
  lg_moments : kept (fun d => dk_marker d = true \/ saved (partitions s) L (dk_keyspace d)) s;
  lg_now : L !! generation s = Some base;
  lg_past : forall g v, L !! g = Some v -> 0 < g <= generation s /\ Z.of_nat (size v) < 2 ^ 62;
}.

Lemma saved_exact n L k g u : exact k -> image n k g u -> L !! g = Some u -> saved n L k.
Proof. intros He Hi Hg k' Hk. exists g, u. split; [done|]. eapply image_same; [by apply He|done]. Qed.

Lemma logged_next L s base s' u ms d :
  logged L s base -> partitions s' = partitions s -> moments s' = ms ++ moments s -> generation s < generation s' -> Z.of_nat (size u) < 2 ^ 62 ->
  0 < generation s' ->
  (forall d', d' ∈ ms -> dk_marker d' = true \/ (exact (dk_keyspace d) /\ dk_keyspace d' = dk_keyspace d)) ->
  image (partitions s) (dk_keyspace d) (generation s') u -> logged (<[generation s' := u]> L) s' u.
Proof.
  intros [H1 H2 H3] Hp Hm Hg Hu H0 Hms Him. split.
  - rewrite Hp. eapply kept_app; [exact H1|exact Hm| |].
    + intros d' [|Hs]; [by left|]. right. intros k' Hk. destruct (Hs k' Hk) as (g & v & Hv & Hi). exists g, v. split; [|done].
      rewrite lookup_insert_ne; [done|]. apply H3 in Hv. lia.
    + intros d' H. destruct (Hms d' H) as [|[He Ek]]; [by left|]. right. rewrite Ek. apply (saved_exact _ _ _ (generation s') u); [done|done|]. apply lookup_insert_eq.
  - apply lookup_insert_eq.
  - intros g v [[<- <-]|[_ Hv]]%lookup_insert_Some; [lia|]. apply H3 in Hv. lia.
Qed.

Record flushed (sync : bool) (L : gmap Z coins) (u : coins) (s s' : UtxoStore) : Prop := {
  fl_ok : store_ok s' u u;
  fl_logged : logged (<[generation s' := u]> L) s' u;
  fl_slot : L !! generation s' = None \/ L !! generation s' = Some u;
  fl_empty : pending s' = ∅;
  fl_generation : generation s <= generation s' <= generation s + 1;
  fl_limit : pending_item_limit s' = pending_item_limit s;
  fl_synced : sync = true -> dk_marker (disk s') = false /\ exact (dk_keyspace (disk s')) /\ exists old, moments s' = disk s' :: old;
}.

Lemma flush_empty sync s base u L :
  store_ok s base u -> logged L s base -> pending s = ∅ -> exists s', flush_pending sync s = (s', Ok ()) /\ flushed sync L u s s'.
Proof.
  intros Hs Hl Ep. unfold flush_pending. rewrite bool_decide_eq_true_2 by done.
  assert (Eu : u = base) by (rewrite (so_overlay _ _ _ Hs), Ep; apply overlay_empty). subst u.
  set (s1 := if entry_count s =? 0 then _ else s).
  assert (H1 : store_ok s1 base base /\ logged L s1 base /\ pending s1 = ∅ /\ generation s1 = generation s /\ pending_item_limit s1 = pending_item_limit s).
  { unfold s1. destruct (Z.eqb_spec (entry_count s) 0) as [E|E]; [|by split_and!]. split; [|destruct Hl; split_and!; done].
    destruct Hs as [Hn Him Hov Hp Htomb Hfr Hc Hcov Hun Hsm Hge Hca Hco].
    split; cbn [set_flags partitions disk generation pending entry_count pending_covers_all bulk_ingest_eligible read_cache]; try done.
    intros _. apply map_size_empty_inv. lia. }
  clearbody s1. destruct H1 as (Hs1 & [L1 L2 L3] & Ep1 & Eg & Ei). assert (EL : <[generation s1 := base]> L = L) by (by apply insert_id).
  destruct sync; eexists; (split; [done|]).
  - set (s2 := clear_unsynced_pending _). assert (Hk : image (partitions s1) (ks_persist (dk_keyspace (disk s1))) (generation s1) base).
    { eapply image_same; [apply law_persist|apply Hs1]. }
    split; [| |by right|done|cbn; lia|done|split; [done|split; [apply exact_persisted|by eexists]]].
    + destruct Hs1 as [Hn Him Hov Hp Htomb Hfr Hc Hcov Hun Hsm Hge Hca Hco]. split; try done. intros E i Hi. by apply law_persist_untouched, Hun.
    + change (generation s2) with (generation s1). rewrite EL. split; [|done|done].
      apply (kept_app _ _ s1 s2 [disk s2; disk (on_keyspace ks_persist s1)] L1); [done|done|].
      intros d [->|[->|H%elem_of_nil]%elem_of_cons]%elem_of_cons; [| |done]; right; (eapply saved_exact; [apply exact_persisted|exact Hk|exact L2]).
  - split; [done|by rewrite EL|by right|done|lia|done|done].
Qed.

(** A synced write takes the marker away at the end. *)
Lemma unmark_spec sync g u s0 s1 m d ms :
  writes sync g u s0 s1 m d ms -> (sync = false -> dk_marker d = true) ->
  exists d2 ms2 z b, (if sync then clear_unsynced_pending (set_dirty 0 false s1) else s1) = set_dirty z b (redisk d2 ms2 s0) /\
    dk_keyspace d2 = dk_keyspace d /\ (sync = true -> dk_marker d2 = false /\ exists ms', ms2 = d2 :: ms') /\
    forall d', d' ∈ ms2 -> dk_marker d' = true \/ (exact (dk_keyspace d) /\ dk_keyspace d' = dk_keyspace d).
Proof.
  intros [Hf _ _ Hex Hcov] Hmd.
  assert (Hms : forall d', d' ∈ ms -> dk_marker d' = true \/ (exact (dk_keyspace d) /\ dk_keyspace d' = dk_keyspace d)).
  { intros d' [H| ->]%Hcov; [by left|]. destruct sync; [right; by split; [apply Hex|]|left; by apply Hmd]. }
  rewrite Hf. destruct sync.
  - eexists {| dk_keyspace := dk_keyspace d; dk_marker := false |}, (_ :: ms), 0, false. split; [done|]. split; [done|]. split; [by split; [|eexists]|].
    intros d' [->|H]%elem_of_cons; [right; by split; [apply Hex|]|by apply Hms].
  - eexists d, ms, _, _. split; [by destruct s0|]. split; [done|]. split; [done|exact Hms].
Qed.

Lemma flush_pending_spec sync s base u L :
  store_ok s base u -> logged L s base -> generation s + 1 < 2 ^ 64 -> (sync = false -> dk_marker (disk s) = true) ->
  exists s', flush_pending sync s = (s', Ok ()) /\ flushed sync L u s s'.
Proof.
  intros Hs Hl Hg Hmark. destruct (decide (pending s = ∅)) as [Ep|Ep]; [by apply (flush_empty sync s base u L)|].
  unfold flush_pending. rewrite bool_decide_eq_false_2 by done.
  unfold checked_add. rewrite (proj2 (Z.leb_le (generation s + 1) (umax 64))) by (unfold umax; lia).
  destruct (write_overlay_spec sync (generation s + 1) s base u Hs Ep Hmark) as (s1 & d & ms & E & Hw & Hmd).
  unfold write_overlay, bind, modify in E. unfold bind, modify. rewrite E. clear E.
  set (large := _ || _). set (complete := _ || _). set (s2 := if sync then _ else s1).
  destruct (unmark_spec sync _ _ _ _ _ _ _ Hw Hmd) as (d2 & ms2 & z & b & E2 & Hk & Hmk & Hms). fold s2 in E2. clearbody s2. subst s2.
  destruct Hw as [_ Him _ Hex _].
  eexists. split; [done|]. set (s3 := set_read_cache _ _).
  pose proof (so_overlaid _ _ _ Hs) as Hover. pose proof (small_umax u (proj2 (so_small _ _ _ Hs))) as Hmax.
  assert (Hcache : sound u (read_cache s3) /\ (rc_complete (read_cache s3) = true -> forall o, cache_get (read_cache s3) o = u !! o)).
  { cbn [s3 set_read_cache read_cache set_overlay set_flags set_generation set_dirty redisk entry_count pending]. destruct large.
    - destruct (refill_large_spec (pending s) u (read_cache s) Hmax Hover (so_cache _ _ _ Hs)) as [H1 H2]. split; [done|]. by rewrite H2.
    - rewrite (so_count _ _ _ Hs). apply refill_small_spec; [done|done|apply Hs]. }
  split; [| | |done|cbn; lia|done|].
  - destruct Hs as [Hn _ _ _ _ _ Hc _ _ [_ Hsm] Hge _ _]. split; cbn [s3 set_read_cache set_overlay set_flags set_generation set_dirty redisk partitions disk generation pending entry_count pending_covers_all bulk_ingest_eligible read_cache]; try done.
    + by rewrite Hk.
    + by rewrite overlay_empty.
    + intros E%Z.eqb_eq. apply map_size_empty_inv. lia.
    + lia.
    + apply Hcache.
    + intros H o _. by apply Hcache.
  - eapply (logged_next L s base s3 u ms2 d); try done; cbn; try lia; [apply Hs|]. pose proof (so_generation _ _ _ Hs). lia.
  - left. destruct (L !! generation s3) eqn:El; [|done]. apply (lg_past _ _ _ Hl) in El. cbn in El. lia.
  - intros ->. cbn. destruct (Hmk eq_refl) as [Hmk' [ms' ->]]. split; [done|]. rewrite Hk. split; [by apply Hex|by eexists].
Qed.
End Flush.
