(* ===== verification/RecordStore.v ===== *)
(** * The append-only record files ([src/storage.rs])

    Blocks and undo data live in append-only files of length-prefixed
    records.  A payload is compressed when that helps, framed with its length
    and obfuscated with a cyclic XOR key at its file offset; an index maps the
    block hash to the offset and length.  The files are their bytes, the index
    is a finite map; zstd (a crate) and the block decoder are parameters.

    [scan_index] walks the file when the index has to be rebuilt; its loop
    takes the file length as fuel, since every round consumes four bytes or
    more. *)

From Stdlib Require Import ZArith Lia.
From stdpp Require Import base list option strings gmap.
From S2P Require Import Prelude.
Local Open Scope Z_scope.

Definition MAX_STORED_BLOCK_SIZE : Z := 4 * 1024 * 1024.
Definition XOR_KEY_SIZE : Z := 8.
Definition STORAGE_COMPRESSION_MAGIC : bytes := str "bitcoind-rs-zstd-v1" ++ [0].
Definition STORAGE_COMPRESSION_HEADER_SIZE : Z := zlen STORAGE_COMPRESSION_MAGIC + 4.
Definition STORAGE_COMPRESSION_LEVEL : Z := 6.
Definition STORAGE_COMPRESSION_MIN_SIZE : Z := 256.

Record RecordLocation := { offset : Z; record_length : Z }.

Inductive StoreError :=
| PayloadTooLarge
| CompressionFailed
| LengthDoesNotFit
| TruncatedHeader
| DecompressionFailed
| LengthMismatch
| RecordTooLarge
| IndexDisagrees
| ShortRead
| TruncatedRecord
| InvalidRecordLength
| InvalidBlock
| DuplicateHash.

(** ** Obfuscation *)

(** [XorKey::apply]; byte [index] of the slice. *)
Definition xor_byte (key : bytes) (offset : Z) (index : nat) (byte : Z) : Z :=
  Z.lxor byte (zat key (sat_add 64 offset (Z.of_nat index) mod XOR_KEY_SIZE)).
Definition xor_apply (key b : bytes) (offset : Z) : bytes := imap (xor_byte key offset) b.

Section Store.
(** [zstd::bulk::compress(payload, level)] and
    [zstd::bulk::decompress(data, capacity)] *)
Variable zstd_compress : bytes -> Z -> option bytes.
Variable zstd_decompress : bytes -> Z -> option bytes.

(** ** Payloads *)

Definition encode_storage_payload (payload : bytes) (max_size : Z) : result StoreError bytes :=
  check? zlen payload <=? max_size else PayloadTooLarge in
  if zlen payload <? STORAGE_COMPRESSION_MIN_SIZE then Ok payload
  else
    let? compressed := ok_or (zstd_compress payload STORAGE_COMPRESSION_LEVEL) CompressionFailed in
    if zlen payload <=? sat_add 64 (zlen compressed) STORAGE_COMPRESSION_HEADER_SIZE then Ok payload
    else
      let? uncompressed_length := ok_or (try_u 32 (zlen payload)) LengthDoesNotFit in
      Ok (STORAGE_COMPRESSION_MAGIC ++ to_le 4 uncompressed_length ++ compressed).

Definition decode_storage_payload (encoded : bytes) (max_size : Z) : result StoreError bytes :=
  if negb (starts_with encoded STORAGE_COMPRESSION_MAGIC) then
    check? zlen encoded <=? max_size else PayloadTooLarge in
    Ok encoded
  else
    check? STORAGE_COMPRESSION_HEADER_SIZE <=? zlen encoded else TruncatedHeader in
    let length_start := zlen STORAGE_COMPRESSION_MAGIC in
    let expected_length := from_le (slice encoded length_start STORAGE_COMPRESSION_HEADER_SIZE) in
    check? expected_length <=? max_size else PayloadTooLarge in
    let? decoded := ok_or (zstd_decompress (zdrop STORAGE_COMPRESSION_HEADER_SIZE encoded)
                             expected_length) DecompressionFailed in
    check? zlen decoded =? expected_length else LengthMismatch in
    Ok decoded.

(** ** The store *)

Record BlockStore := {
  xor_key : bytes;
  data : bytes;
  index : gmap bytes RecordLocation;
}.

(** The decoded block's hash: [deserialize] and [block_hash]. *)
Variable block_hash : bytes -> option bytes.

(** [insert_with_sync] of the block serialized as [raw], with the data synced
    before the index is extended. *)
Definition insert_block (store : BlockStore) (hash raw : bytes) : result StoreError BlockStore :=
  match index store !! hash with
  | Some _ => Ok store
  | None =>
      let? b := encode_storage_payload raw MAX_STORED_BLOCK_SIZE in
      let off := zlen (data store) in
      let? length := ok_or (try_u 32 (zlen b)) LengthDoesNotFit in
      let record := xor_apply (xor_key store) (to_le 4 length ++ b) off in
      Ok {| xor_key := xor_key store; data := data store ++ record;
            index := <[hash := {| offset := off; record_length := length |}]> (index store) |}
  end.

(** [read_exact] at an offset. *)
Definition read_at (file : bytes) (off len : Z) : option bytes := get_range file off (off + len).

Definition read_storage_record (file key : bytes) (record : RecordLocation) (max_size : Z)
  : result StoreError bytes :=
  let stored_length := record_length record in
  check? negb ((stored_length =? 0) || (max_size <? stored_length)) else RecordTooLarge in
  let? length := ok_or (read_at file (offset record) 4) ShortRead in
  let actual := from_le (xor_apply key length (offset record)) in
  check? actual =? record_length record else IndexDisagrees in
  let? encoded := ok_or (read_at file (offset record + 4) stored_length) ShortRead in
  decode_storage_payload (xor_apply key encoded (offset record + 4)) max_size.

(** The index and the length the file is truncated to. *)
Fixpoint scan_loop (fuel : nat) (file key : bytes) (repair : bool) (off : Z)
    (idx : gmap bytes RecordLocation) : option (result StoreError (gmap bytes RecordLocation * Z)) :=
  match fuel with
  | O => None
  | S fuel =>
      let data_len := zlen file in
      match read_at file off 4 with
      | None =>
          Some (if (off <? data_len) && negb repair then Err TruncatedRecord else Ok (idx, off))
      | Some length_bytes =>
          let length := from_le (xor_apply key length_bytes off) in
          let end_ := sat_add 64 (sat_add 64 off 4) length in
          if data_len <? end_ then
            Some (if repair then Ok (idx, off) else Err TruncatedRecord)
          else if (length =? 0) || (MAX_STORED_BLOCK_SIZE <? length) then Some (Err InvalidRecordLength)
          else
            match read_at file (off + 4) length with
            | None => Some (Err TruncatedRecord)
            | Some b =>
                match decode_storage_payload (xor_apply key b (off + 4)) MAX_STORED_BLOCK_SIZE with
                | Err e => Some (Err e)
                | Ok raw =>
                    match block_hash raw with
                    | None => Some (Err InvalidBlock)
                    | Some hash =>
                        match idx !! hash with
                        | Some _ => Some (Err DuplicateHash)
                        | None =>
                            scan_loop fuel file key repair (off + 4 + length)
                              (<[hash := {| offset := off; record_length := length |}]> idx)
                        end
                    end
                end
            end
      end
  end.

Definition scan_index (file key : bytes) (repair : bool)
  : option (result StoreError (gmap bytes RecordLocation * Z)) :=
  scan_loop (S (length file)) file key repair 0 ∅.

(** ** The XOR key *)

Lemma zlen_xor_apply key b o : zlen (xor_apply key b o) = zlen b.
Proof. unfold zlen, xor_apply. by rewrite length_imap. Qed.

Lemma xor_apply_app key a b o :
  0 <= o -> o + zlen a + zlen b <= umax 64 ->
  xor_apply key (a ++ b) o = xor_apply key a o ++ xor_apply key b (o + zlen a).
Proof.
  intros Ho Hs. unfold xor_apply. rewrite imap_app. f_equal. apply imap_ext. intros i x Hx.
  apply lookup_lt_Some in Hx. unfold xor_byte, sat_add, zlen in *. simpl. do 3 f_equal. lia.
Qed.

Lemma xor_apply_involutive key b o : xor_apply key (xor_apply key b o) o = b.
Proof.
  unfold xor_apply. apply list_eq. intros i. rewrite !list_lookup_imap.
  destruct (b !! i) as [x|]; [|done]. simpl. f_equal. unfold xor_byte.
  by rewrite Z.lxor_assoc, Z.lxor_nilpotent, Z.lxor_0_r.
Qed.

(** ** Payloads *)

(** What is decompressed is what was compressed. *)
Hypothesis zstd_roundtrip : forall p level c,
  zstd_compress p level = Some c -> zstd_decompress c (zlen p) = Some p.
(** Compression of a payload succeeds. *)
Hypothesis zstd_total : forall p level, is_Some (zstd_compress p level).

Lemma encode_payload_total p max :
  zlen p <= max -> zlen p < 2 ^ 32 -> exists e, encode_storage_payload p max = Ok e.
Proof.
  intros Hmax H32. pose proof (zlen_nonneg p). unfold encode_storage_payload. btrue (zlen p <=? max).
  destruct (_ <? STORAGE_COMPRESSION_MIN_SIZE); [eauto|].
  destruct (zstd_total p STORAGE_COMPRESSION_LEVEL) as [c ->]. cbn [ok_or rbind].
  destruct (_ <=? _); [eauto|]. unfold try_u, umax.
  btrue ((0 <=? zlen p) && (zlen p <=? 2 ^ 32 - 1)). cbn [ok_or rbind]. eauto.
Qed.

(** A payload that does not look compressed is read back. *)
Lemma store_payload_roundtrip p max e :
  encode_storage_payload p max = Ok e -> starts_with p STORAGE_COMPRESSION_MAGIC = false ->
  decode_storage_payload e max = Ok p /\ zlen e <= zlen p <= max /\ (p <> [] -> e <> []).
Proof.
  intros H Hp. unfold encode_storage_payload in H. res_inv. bool_to_prop.
  assert (decode_storage_payload p max = Ok p) as Hraw.
  { unfold decode_storage_payload. rewrite Hp. simpl negb. cbv iota. by btrue (zlen p <=? max). }
  match goal with H : (if ?b then _ else _) = _ |- _ => destruct b eqn:E1 end; res_inv.
  { split; [done|]. split; [lia|done]. }
  match goal with H : (if ?b then _ else _) = _ |- _ => destruct b eqn:E2 end; res_inv.
  { split; [done|]. split; [lia|done]. }
  rename select (zstd_compress _ _ = _) into Hc. rename select (try_u _ _ = _) into Ht.
  unfold try_u in Ht. destruct (_ && _) eqn:E3; [|done]. injection Ht as <-. bool_to_prop.
  unfold sat_add, umax in E2. pose proof (zlen_nonneg x). unfold umax in *.
  split; [|split; [|done]].
  - unfold decode_storage_payload. rewrite starts_with_app. simpl negb. cbv iota.
    assert (slice (STORAGE_COMPRESSION_MAGIC ++ to_le 4 (zlen p) ++ x) (zlen STORAGE_COMPRESSION_MAGIC)
      STORAGE_COMPRESSION_HEADER_SIZE = to_le 4 (zlen p)) as -> by by apply slice_app.
    assert (zdrop STORAGE_COMPRESSION_HEADER_SIZE (STORAGE_COMPRESSION_MAGIC ++ to_le 4 (zlen p) ++ x) = x) as ->.
    { rewrite app_assoc. by apply zdrop_app_eq. }
    rewrite (from_to_le_small 4 32) by (unfold in_u; lia).
    rewrite !zlen_app, zlen_to_le. change (zlen STORAGE_COMPRESSION_MAGIC) with 20.
    change STORAGE_COMPRESSION_HEADER_SIZE with 24. btrue (24 <=? 20 + (Z.of_nat 4 + zlen x)).
    btrue (zlen p <=? max). rewrite (zstd_roundtrip p _ x Hc). cbn [ok_or rbind]. by rewrite Z.eqb_refl.
  - rewrite !zlen_app, zlen_to_le. change (zlen STORAGE_COMPRESSION_MAGIC) with 20 in *.
    change STORAGE_COMPRESSION_HEADER_SIZE with 24 in *. lia.
Qed.

(** ** The file as a sequence of blocks *)

Definition encoded (raw : bytes) : bytes :=
  match encode_storage_payload raw MAX_STORED_BLOCK_SIZE with Ok e => e | Err _ => [] end.

(** The record of a block at a file offset. *)
Definition record_at (key : bytes) (off : Z) (raw : bytes) : bytes :=
  xor_apply key (to_le 4 (zlen (encoded raw)) ++ encoded raw) off.

(** The file and the index that hold a list of blocks (hash and bytes) from
    an offset on. *)
Fixpoint layout (key : bytes) (off : Z) (blocks : list (bytes * bytes)) : bytes :=
  match blocks with
  | [] => []
  | (_, raw) :: blocks => record_at key off raw ++ layout key (off + 4 + zlen (encoded raw)) blocks
  end.
Fixpoint index_from (off : Z) (idx : gmap bytes RecordLocation) (blocks : list (bytes * bytes))
  : gmap bytes RecordLocation :=
  match blocks with
  | [] => idx
  | (hash, raw) :: blocks =>
      index_from (off + 4 + zlen (encoded raw))
        (<[hash := {| offset := off; record_length := zlen (encoded raw) |}]> idx) blocks
  end.

(** The blocks the store accepts: not empty, of bounded size, decodable, and
    not beginning with the bytes that mark a compressed record. *)
Definition block_ok (block : bytes * bytes) : Prop :=
  let '(hash, raw) := block in
  raw <> [] /\ zlen raw <= MAX_STORED_BLOCK_SIZE /\ block_hash raw = Some hash /\
  starts_with raw STORAGE_COMPRESSION_MAGIC = false.

Lemma block_ok_encoded hash raw :
  block_ok (hash, raw) ->
  encode_storage_payload raw MAX_STORED_BLOCK_SIZE = Ok (encoded raw) /\
  decode_storage_payload (encoded raw) MAX_STORED_BLOCK_SIZE = Ok raw /\
  0 < zlen (encoded raw) <= MAX_STORED_BLOCK_SIZE.
Proof.
  intros (Hne & Hsz & _ & Hplain).
  destruct (encode_payload_total raw MAX_STORED_BLOCK_SIZE) as [e He];
    [done|change MAX_STORED_BLOCK_SIZE with 4194304 in *; lia|].
  destruct (store_payload_roundtrip _ _ _ He Hplain) as (Hd & Hl & Hn).
  unfold encoded. rewrite He. split; [done|]. split; [done|].
  specialize (Hn Hne). destruct e as [|x e]; [done|]. rewrite zlen_cons in *. pose proof (zlen_nonneg e). lia.
Qed.

Lemma record_at_split key off raw :
  0 <= off -> off + 4 + zlen (encoded raw) <= umax 64 ->
  record_at key off raw =
  xor_apply key (to_le 4 (zlen (encoded raw))) off ++ xor_apply key (encoded raw) (off + 4).
Proof. intros Ho Hs. unfold record_at. rewrite xor_apply_app; zlen; [done|lia|lia]. Qed.

Lemma zlen_record_at key off raw : zlen (record_at key off raw) = 4 + zlen (encoded raw).
Proof. unfold record_at. rewrite zlen_xor_apply. zlen. lia. Qed.

Lemma layout_app key off bs bs' :
  layout key off (bs ++ bs') = layout key off bs ++ layout key (off + zlen (layout key off bs)) bs'.
Proof.
  revert off. induction bs as [|[h raw] bs IH]; intros off; cbn [layout app].
  - by rewrite zlen_nil, Z.add_0_r.
  - rewrite IH, <- app_assoc, zlen_app, zlen_record_at. do 3 f_equal. lia.
Qed.

Lemma index_from_app off idx bs bs' key :
  index_from off idx (bs ++ bs') =
  index_from (off + zlen (layout key off bs)) (index_from off idx bs) bs'.
Proof.
  revert off idx. induction bs as [|[h raw] bs IH]; intros off idx; cbn [layout index_from app].
  - by rewrite zlen_nil, Z.add_0_r.
  - rewrite IH, zlen_app, zlen_record_at. f_equal. lia.
Qed.

Lemma index_from_other off idx bs h : h ∉ map fst bs -> index_from off idx bs !! h = idx !! h.
Proof.
  revert off idx. induction bs as [|[h' raw] bs IH]; intros off idx Hh; cbn [index_from]; [done|].
  simpl in Hh. apply not_elem_of_cons in Hh as [Hne Hh].
  rewrite IH by done. by apply lookup_insert_ne.
Qed.

(** Reading the record of a block anywhere in a file. *)
Lemma read_at_app pre x post off len :
  off = zlen pre -> len = zlen x -> read_at (pre ++ x ++ post) off len = Some x.
Proof. intros -> ->. by apply get_range_app. Qed.

Lemma read_record pre hash raw post key :
  block_ok (hash, raw) -> zlen pre + 4 + zlen (encoded raw) <= umax 64 ->
  let file := pre ++ record_at key (zlen pre) raw ++ post in
  read_at file (zlen pre) 4 = Some (xor_apply key (to_le 4 (zlen (encoded raw))) (zlen pre)) /\
  read_at file (zlen pre + 4) (zlen (encoded raw)) = Some (xor_apply key (encoded raw) (zlen pre + 4)) /\
  from_le (xor_apply key (xor_apply key (to_le 4 (zlen (encoded raw))) (zlen pre)) (zlen pre)) =
    zlen (encoded raw).
Proof.
  intros Hok Hs file. pose proof (zlen_nonneg pre).
  destruct (block_ok_encoded _ _ Hok) as (_ & _ & Hl). change MAX_STORED_BLOCK_SIZE with 4194304 in Hl.
  unfold file. rewrite record_at_split by lia. split; [|split].
  - rewrite <- app_assoc. apply read_at_app; [done|]. by rewrite zlen_xor_apply, zlen_to_le.
  - rewrite <- app_assoc, app_assoc. apply read_at_app; rewrite ?zlen_app, ?zlen_xor_apply, ?zlen_to_le; lia.
  - rewrite xor_apply_involutive. apply (from_to_le_small 4 32); [done|]. unfold in_u. lia.
Qed.

(** What a crash can leave after the last record: nothing, or the beginning
    of the record that was being written. *)
Definition torn (key : bytes) (off : Z) (tail : bytes) : Prop :=
  exists hash raw rest, block_ok (hash, raw) /\ rest <> [] /\ tail ++ rest = record_at key off raw /\
    off + 4 + zlen (encoded raw) <= umax 64.

Lemma torn_scan key pre tail fuel idx :
  tail = [] \/ torn key (zlen pre) tail ->
  scan_loop (S fuel) (pre ++ tail) key true (zlen pre) idx =
  Some (Ok (idx, zlen pre)).
Proof.
  intros Ht. cbn [scan_loop]. rewrite zlen_app. pose proof (zlen_nonneg pre). pose proof (zlen_nonneg tail).
  destruct (read_at (pre ++ tail) (zlen pre) 4) as [len|] eqn:Er; [|by rewrite andb_false_r].
  pose proof Er as Er'. apply get_range_Some in Er' as (_ & Hle & _ & Hl & _). rewrite zlen_app in Hle.
  destruct Ht as [-> | (hash & raw & rest & Hok & Hne & Heq & Hsz)]; [rewrite zlen_nil in *; lia|].
  destruct (block_ok_encoded _ _ Hok) as (_ & _ & Hen). change MAX_STORED_BLOCK_SIZE with 4194304 in Hen.
  pose proof (f_equal zlen Heq) as Hz. rewrite zlen_app, zlen_record_at in Hz.
  assert (0 < zlen rest) by (destruct rest; [done|]; rewrite zlen_cons; pose proof (zlen_nonneg rest); lia).
  destruct (read_record pre hash raw [] key Hok ltac:(lia)) as (Hr1 & _ & Hr3). rewrite app_nil_r in Hr1.
  assert (read_at (pre ++ tail) (zlen pre) 4 = read_at (pre ++ record_at key (zlen pre) raw) (zlen pre) 4) as Hrd.
  { rewrite <- Heq. unfold read_at, get_range. rewrite !zlen_app.
    btrue ((0 <=? zlen pre) && (zlen pre <=? zlen pre + 4) && (zlen pre + 4 <=? zlen pre + zlen tail)).
    btrue ((0 <=? zlen pre) && (zlen pre <=? zlen pre + 4) && (zlen pre + 4 <=? zlen pre + (zlen tail + zlen rest))).
    f_equal. unfold slice. rewrite !zdrop_app_eq by done. unfold ztake.
    rewrite take_app_le; [done|]. unfold zlen in *. lia. }
  rewrite Hrd, Hr1 in Er. apply (inj Some) in Er. subst len. rewrite Hr3.
  unfold sat_add, umax in *. rewrite (Z.min_l (zlen pre + 4)), Z.min_l by lia.
  btrue (zlen pre + zlen tail <? zlen pre + 4 + zlen (encoded raw)). done.
Qed.

Lemma scan_layout key blocks pre tail idx fuel :
  Forall block_ok blocks -> NoDup (map fst blocks) ->
  (forall h, h ∈ map fst blocks -> idx !! h = None) ->
  zlen pre + zlen (layout key (zlen pre) blocks) <= umax 64 ->
  tail = [] \/ torn key (zlen pre + zlen (layout key (zlen pre) blocks)) tail ->
  (length blocks < fuel)%nat ->
  scan_loop fuel (pre ++ layout key (zlen pre) blocks ++ tail) key true (zlen pre) idx =
  Some (Ok (index_from (zlen pre) idx blocks, zlen pre + zlen (layout key (zlen pre) blocks))).
Proof.
  revert pre idx fuel. induction blocks as [|[h raw] blocks IH]; intros pre idx fuel Hok Hnd Hidx Hsz Htail Hf;
    (destruct fuel as [|fuel]; [simpl in Hf; lia|]); cbn [layout index_from] in *.
  { rewrite zlen_nil, Z.add_0_r in *. by apply torn_scan. }
  apply Forall_cons in Hok as [Hok Hoks]. cbn [map fst] in *. apply NoDup_cons in Hnd as [Hnin Hnd].
  rewrite zlen_app, zlen_record_at in *. set (off' := zlen pre + 4 + zlen (encoded raw)) in *.
  pose proof (zlen_nonneg (layout key off' blocks)).
  destruct (block_ok_encoded _ _ Hok) as (_ & Hdec & Hl).
  destruct (read_record pre h raw (layout key off' blocks ++ tail) key Hok ltac:(lia)) as (Hr1 & Hr2 & Hr3).
  rewrite <- app_assoc. cbn [scan_loop]. rewrite Hr1, Hr3.
  pose proof (zlen_nonneg tail). pose proof (zlen_nonneg pre). rewrite !zlen_app, zlen_record_at.
  unfold sat_add. rewrite (Z.min_l (zlen pre + 4)) by lia. fold off'. rewrite Z.min_l by lia.
  bfalse (zlen pre + (4 + zlen (encoded raw) + (zlen (layout key off' blocks) + zlen tail)) <? off').
  bfalse (zlen (encoded raw) =? 0). bfalse (MAX_STORED_BLOCK_SIZE <? zlen (encoded raw)). cbn [orb].
  rewrite Hr2, xor_apply_involutive, Hdec. destruct Hok as (_ & _ & -> & _).
  rewrite Hidx by constructor.
  replace off' with (zlen (pre ++ record_at key (zlen pre) raw)) in * by
    (rewrite zlen_app, zlen_record_at; unfold off'; lia).
  pose proof (zlen_app pre (record_at key (zlen pre) raw)) as Hoff. rewrite zlen_record_at in Hoff.
  rewrite app_assoc. rewrite IH; [|done|done| |lia| |simpl in Hf; lia].
  - do 3 f_equal. lia.
  - intros h' Hh'. rewrite lookup_insert_ne by (intros ->; done). apply Hidx. by constructor.
  - destruct Htail as [->|Ht]; [by left|right]. rewrite Z.add_assoc, <- Hoff in Ht. done.
Qed.

(** ** Refinement

    The specification of the store is a list of blocks in insertion order;
    the first block with a hash wins. *)

Definition spec_insert (blocks : list (bytes * bytes)) (block : bytes * bytes) : list (bytes * bytes) :=
  if bool_decide (block.1 ∈ map fst blocks) then blocks else blocks ++ [block].

Definition represents (store : BlockStore) (blocks : list (bytes * bytes)) : Prop :=
  data store = layout (xor_key store) 0 blocks /\ index store = index_from 0 ∅ blocks /\
  NoDup (map fst blocks) /\ Forall block_ok blocks.

Definition empty_store (key : bytes) : BlockStore := {| xor_key := key; data := []; index := ∅ |}.

Lemma represents_empty key : represents (empty_store key) [].
Proof. split; [done|]. split; [done|]. split; [constructor|constructor]. Qed.

Lemma index_from_lookup key off idx b1 h raw b2 :
  NoDup (map fst (b1 ++ (h, raw) :: b2)) ->
  index_from off idx (b1 ++ (h, raw) :: b2) !! h =
  Some {| offset := off + zlen (layout key off b1); record_length := zlen (encoded raw) |}.
Proof.
  intros Hnd. rewrite (index_from_app off idx b1 _ key). cbn [index_from].
  rewrite map_app in Hnd. apply NoDup_app in Hnd as (_ & _ & Hnd). cbn [map fst] in Hnd.
  apply NoDup_cons in Hnd as [Hnin _]. rewrite index_from_other by done. apply lookup_insert_eq.
Qed.

Lemma index_from_None idx off bs h : idx !! h = None -> h ∉ map fst bs -> index_from off idx bs !! h = None.
Proof. intros. by rewrite index_from_other. Qed.

Lemma elem_fst_split (bs : list (bytes * bytes)) h :
  h ∈ map fst bs -> exists b1 raw b2, bs = b1 ++ (h, raw) :: b2.
Proof.
  intros Hh. apply list_elem_of_fmap in Hh as ([h' raw] & -> & Hin).
  apply list_elem_of_split in Hin as (b1 & b2 & ->). eauto.
Qed.

Lemma insert_represents store blocks h raw :
  represents store blocks -> block_ok (h, raw) ->
  exists store', insert_block store h raw = Ok store' /\ xor_key store' = xor_key store /\
    represents store' (spec_insert blocks (h, raw)).
Proof.
  intros (Hd & Hi & Hnd & Hall) Hok. unfold insert_block, spec_insert. rewrite Hi. cbn [fst].
  case_bool_decide as Hin.
  - destruct (elem_fst_split _ _ Hin) as (b1 & raw' & b2 & ->).
    rewrite (index_from_lookup (xor_key store)) by done. by exists store.
  - rewrite index_from_None by done.
    destruct (block_ok_encoded _ _ Hok) as (-> & _ & Hl). cbn [rbind].
    change MAX_STORED_BLOCK_SIZE with 4194304 in Hl. unfold try_u, umax.
    btrue ((0 <=? zlen (encoded raw)) && (zlen (encoded raw) <=? 2 ^ 32 - 1)). cbn [ok_or rbind].
    eexists. split; [done|]. split; [done|]. unfold represents. cbn [data index xor_key]. rewrite Hd.
    split; [|split; [|split]].
    + rewrite layout_app. cbn [layout]. by rewrite app_nil_r, Z.add_0_l.
    + rewrite (index_from_app 0 ∅ blocks _ (xor_key store)). cbn [index_from]. by rewrite Z.add_0_l.
    + rewrite map_app. apply NoDup_app. split; [done|]. split; [|apply NoDup_singleton].
      intros x Hx Hx'. apply list_elem_of_singleton in Hx' as ->. done.
    + apply Forall_app. split; [done|]. by constructor.
Qed.

Fixpoint insert_all (store : BlockStore) (blocks : list (bytes * bytes)) : result StoreError BlockStore :=
  match blocks with
  | [] => Ok store
  | (h, raw) :: blocks => let? store := insert_block store h raw in insert_all store blocks
  end.

Lemma insert_all_represents store blocks0 blocks :
  represents store blocks0 -> Forall block_ok blocks ->
  exists store', insert_all store blocks = Ok store' /\ xor_key store' = xor_key store /\
    represents store' (foldl spec_insert blocks0 blocks).
Proof.
  intros Hr Hok. revert store blocks0 Hr. induction Hok as [|[h raw] blocks Hok _ IH]; intros store blocks0 Hr.
  - by exists store.
  - cbn [insert_all foldl]. destruct (insert_represents _ _ _ _ Hr Hok) as (s1 & -> & Hk & Hr1). cbn [rbind].
    destruct (IH _ _ Hr1) as (s2 & -> & Hk2 & Hr2). exists s2. split; [done|]. split; [congruence|done].
Qed.

Lemma read_represented store b1 h raw b2 :
  represents store (b1 ++ (h, raw) :: b2) -> zlen (data store) <= umax 64 ->
  exists record, index store !! h = Some record /\
    read_storage_record (data store) (xor_key store) record MAX_STORED_BLOCK_SIZE = Ok raw.
Proof.
  intros (Hd & Hi & Hnd & Hall) Hsz. rewrite Hi, (index_from_lookup (xor_key store)) by done.
  eexists. split; [done|]. apply Forall_app in Hall as [_ Hall]. apply Forall_cons in Hall as [Hok _].
  rewrite Hd, layout_app in *. cbn [layout] in *. rewrite Z.add_0_l in *.
  set (pre := layout (xor_key store) 0 b1) in *. set (post := layout _ _ b2) in *.
  destruct (block_ok_encoded _ _ Hok) as (_ & Hdec & Hl).
  rewrite !zlen_app, zlen_record_at in Hsz. pose proof (zlen_nonneg post). pose proof (zlen_nonneg pre).
  destruct (read_record pre h raw post (xor_key store) Hok ltac:(lia)) as (Hr1 & Hr2 & Hr3).
  unfold read_storage_record. cbn [offset record_length].
  bfalse (zlen (encoded raw) =? 0). bfalse (MAX_STORED_BLOCK_SIZE <? zlen (encoded raw)). cbn [orb negb].
  rewrite Hr1. cbn [ok_or rbind]. rewrite Hr3, Z.eqb_refl, Hr2. cbn [ok_or rbind].
  by rewrite xor_apply_involutive.
Qed.

Lemma layout_bound key off blocks :
  Forall block_ok blocks -> zlen (layout key off blocks) <= zlen blocks * (MAX_STORED_BLOCK_SIZE + 4).
Proof.
  intros H. revert off. induction H as [|[h raw] blocks Hok _ IH]; intros off; cbn [layout]; [done|].
  destruct (block_ok_encoded _ _ Hok) as (_ & _ & Hl). rewrite zlen_app, zlen_record_at, zlen_cons.
  specialize (IH (off + 4 + zlen (encoded raw))). lia.
Qed.

Lemma spec_insert_bound blocks0 blocks :
  zlen (foldl spec_insert blocks0 blocks) <= zlen blocks0 + zlen blocks.
Proof.
  revert blocks0. induction blocks as [|b blocks IH]; intros blocks0; cbn [foldl]; [rewrite zlen_nil; lia|].
  rewrite zlen_cons. etransitivity; [apply IH|]. unfold spec_insert. case_bool_decide; zlen; lia.
Qed.

(** C24: the store is the list of the inserted blocks.  After any sequence of
    insertions of acceptable blocks, all of them succeed; a hash is in the
    index exactly when a block with it was inserted, and reading the record
    the index names - through the XOR key, the length check and the
    decompression - returns the bytes of the first block with that hash. *)
Theorem block_store_refines key blocks :
  Forall block_ok blocks -> zlen blocks < 2 ^ 41 ->
  exists store, insert_all (empty_store key) blocks = Ok store /\
    forall h, match list_find (fun b => b.1 = h) (foldl spec_insert [] blocks) with
    | Some (_, (_, raw)) => exists record, index store !! h = Some record /\
        read_storage_record (data store) (xor_key store) record MAX_STORED_BLOCK_SIZE = Ok raw
    | None => index store !! h = None
    end.
Proof.
  intros Hok Hn. destruct (insert_all_represents _ [] blocks (represents_empty key) Hok) as (store & Hs & Hk & Hr).
  exists store. split; [done|]. intros h. set (bs := foldl spec_insert [] blocks) in *.
  destruct (list_find _ bs) as [[i [h' raw]]|] eqn:Ef.
  - apply list_find_Some in Ef as (Hi & Hh & _). simpl in Hh. subst h'.
    apply list_elem_of_lookup_2, list_elem_of_split in Hi as (b1 & b2 & Hbs). rewrite Hbs in Hr.
    apply (read_represented store b1 h raw b2 Hr).
    destruct Hr as (Hd & _ & _ & Hall). rewrite <- Hbs in Hd, Hall. rewrite Hd.
    pose proof (layout_bound (xor_key store) 0 bs Hall). pose proof (spec_insert_bound [] blocks) as Hb.
    fold bs in Hb. rewrite zlen_nil in Hb. change MAX_STORED_BLOCK_SIZE with 4194304 in *. unfold umax. lia.
  - destruct Hr as (_ & -> & _ & _). apply index_from_None; [done|]. intros Hin.
    destruct (elem_fst_split _ _ Hin) as (b1 & raw & b2 & Hbs).
    apply list_find_None in Ef. rewrite Hbs in Ef. apply Forall_app in Ef as [_ Ef].
    by apply Forall_cons in Ef as [Hne _].
Qed.

Lemma layout_length key off blocks :
  Forall block_ok blocks -> (length blocks <= length (layout key off blocks))%nat.
Proof.
  intros H. revert off. induction H as [|[h raw] blocks Hok _ IH]; intros off; cbn [layout length]; [lia|].
  rewrite length_app. specialize (IH (off + 4 + zlen (encoded raw))).
  pose proof (zlen_record_at key off raw) as Hz. pose proof (zlen_nonneg (encoded raw)). unfold zlen in *. lia.
Qed.

(** C25: a crash loses nothing that was written.  When the data file holds the
    records of any sequence of insertions followed by the beginning of one
    more record, rebuilding the index from the file finds exactly the index
    of the completed insertions and truncates the file to them. *)
Theorem scan_recovers_torn_tail key blocks store tail :
  Forall block_ok blocks -> zlen blocks < 2 ^ 41 ->
  insert_all (empty_store key) blocks = Ok store ->
  tail = [] \/ torn key (zlen (data store)) tail ->
  scan_index (data store ++ tail) key true = Some (Ok (index store, zlen (data store))).
Proof.
  intros Hok Hn Hins Ht.
  destruct (insert_all_represents _ [] blocks (represents_empty key) Hok) as (store' & Hs & Hk & Hr).
  rewrite Hins in Hs. apply Ok_inj in Hs. subst store'.
  destruct Hr as (Hd & Hi & Hnd & Hall). set (bs := foldl spec_insert [] blocks) in *.
  simpl in Hk. rewrite Hk in Hd. unfold scan_index.
  pose proof (layout_bound key 0 bs Hall). pose proof (spec_insert_bound [] blocks) as Hb.
  fold bs in Hb. rewrite zlen_nil in Hb. change MAX_STORED_BLOCK_SIZE with 4194304 in *.
  pose proof (scan_layout key bs [] tail ∅ (S (length (data store ++ tail))) Hall Hnd) as H'.
  rewrite zlen_nil, !Z.add_0_l in H'. rewrite app_nil_l in H'. rewrite Hd, Hi in *. apply H'.
  - intros. apply lookup_empty.
  - unfold umax. lia.
  - done.
  - rewrite length_app. pose proof (layout_length key 0 bs Hall). lia.
Qed.
End Store.

(** ** An instance: run-length compression of constant payloads *)

Definition toy_compress (p : bytes) (level : Z) : option bytes :=
  match p with
  | x :: _ => if bool_decide (p = repeat x (length p)) then Some [1; x] else Some (0 :: p)
  | [] => Some [0]
  end.
Definition toy_decompress (c : bytes) (n : Z) : option bytes :=
  match c with
  | [1; x] => Some (repeat x (Z.to_nat n))
  | 0 :: p => Some p
  | _ => None
  end.

Lemma toy_roundtrip p level c : toy_compress p level = Some c -> toy_decompress c (zlen p) = Some p.
Proof.
  destruct p as [|x p]; [intros [= <-]; done|]. unfold toy_compress. case_bool_decide as E.
  - intros [= <-]. unfold toy_decompress, zlen. rewrite Nat2Z.id. by rewrite <- E.
  - intros [= <-]. done.
Qed.

Lemma toy_total p level : is_Some (toy_compress p level).
Proof. destruct p as [|x p]; [done|]. unfold toy_compress. case_bool_decide; done. Qed.

Definition toy_hash (raw : bytes) : option bytes := match raw with x :: _ => Some [x] | [] => None end.
Definition toy_blocks : list (bytes * bytes) := [([7], repeat 7 300); ([1], [1; 2; 3])].

Lemma toy_blocks_ok : Forall (block_ok toy_hash) toy_blocks.
Proof. repeat constructor; vm_compute; congruence. Qed.

Lemma block_store_refines_witness :
  exists store, insert_all toy_compress (empty_store [1; 2; 3; 4; 5; 6; 7; 8]) toy_blocks = Ok store /\
    forall h, match list_find (fun b => b.1 = h) (foldl spec_insert [] toy_blocks) with
    | Some (_, (_, raw)) => exists record, index store !! h = Some record /\
        read_storage_record toy_decompress (data store) (xor_key store) record MAX_STORED_BLOCK_SIZE = Ok raw
    | None => index store !! h = None
    end.
Proof.
  apply (block_store_refines toy_compress toy_decompress toy_hash toy_roundtrip toy_total).
  - exact toy_blocks_ok.
  - vm_compute. reflexivity.
Defined.

Definition toy_store : BlockStore :=
  match insert_all toy_compress (empty_store [1; 2; 3; 4; 5; 6; 7; 8]) toy_blocks with
  | Ok store => store | Err _ => empty_store []
  end.

Lemma scan_recovers_torn_tail_witness :
  scan_index toy_decompress toy_hash
    (data toy_store ++ take 5 (record_at toy_compress [1; 2; 3; 4; 5; 6; 7; 8] (zlen (data toy_store)) [9; 9]))
    [1; 2; 3; 4; 5; 6; 7; 8] true = Some (Ok (index toy_store, zlen (data toy_store))).
Proof.
  apply (scan_recovers_torn_tail toy_compress toy_decompress toy_hash toy_roundtrip toy_total
           [1; 2; 3; 4; 5; 6; 7; 8] toy_blocks toy_store).
  - exact toy_blocks_ok.
  - vm_compute. reflexivity.
  - vm_compute. reflexivity.
  - right. exists [9], [9; 9],
      (drop 5 (record_at toy_compress [1; 2; 3; 4; 5; 6; 7; 8] (zlen (data toy_store)) [9; 9])).
    split; [repeat constructor; vm_compute; congruence|].
    split; [vm_compute; congruence|]. split; [apply take_drop|]. vm_compute. congruence.
Defined.
