(* ===== verification/WireReader.v ===== *)
(** * Payload primitives of the peer-to-peer wire ([src/wire.rs])

    The [Reader] over a payload as a state-and-error monad, the fixed-width
    fields and the CompactSize integers, with the lemmas that compose the
    round trips of the messages. *)

From Stdlib Require Import ZArith Lia.
From stdpp Require Import base list option strings.
From S2P Require Import Prelude.
Local Open Scope Z_scope.

(** [WireError], with the [anyhow] errors of the same functions as [Bail]. *)
Inductive WireError :=
| Magic (received : bytes)
| Oversized (size : Z)
| OversizedFrame (command : bytes) (size : Z)
| Checksum (command : bytes) (payload_size : Z) (expected actual : bytes)
| InvalidMessageType
| UnknownCommand (command : bytes)
| Payload (reason : string)
| CompactSize
| Bail (reason : string)
| PeerClosed.

(** ** The reader

    The state of a [Reader] is the part of the payload after its cursor. *)
Definition reader (A : Type) : Type := bytes -> result WireError (A * bytes).

#[export] Instance reader_ret : MRet reader := fun A a r => Ok (a, r).
#[export] Instance reader_bind : MBind reader := fun A B k p r =>
  match p r with
  | Ok (a, r') => k a r'
  | Err e => Err e
  end.
Definition fail {A} (e : WireError) : reader A := fun _ => Err e.
(** [if bad { return Err(e) }] *)
Definition fail_if (bad : bool) (e : WireError) : reader () := fun r => if bad then Err e else Ok (tt, r).

Definition remaining : reader Z := fun r => Ok (zlen r, r).

Definition read_bytes (length : Z) : reader bytes := fun r =>
  if zlen r <? length then Err (Payload "unexpected end of payload")
  else Ok (ztake length r, zdrop length r).

Definition array (n : Z) : reader bytes := read_bytes n.
Definition u8 : reader Z := b ← read_bytes 1; mret (zat b 0).
Definition u16_be : reader Z := b ← array 2; mret (from_be b).
Definition u32_le : reader Z := b ← array 4; mret (from_le b).
Definition u64_le : reader Z := b ← array 8; mret (from_le b).
Definition i32_le : reader Z := b ← array 4; mret (to_signed 32 (from_le b)).
Definition i64_le : reader Z := b ← array 8; mret (to_signed 64 (from_le b)).

(** The arms of the match on the first byte. *)
Definition compact_size_arm (tag : Z) : reader Z :=
  if tag <=? 0xfc then mret tag
  else if tag =? 0xfd then
    b ← array 2; _ ← fail_if (from_le b <? 0xfd) CompactSize; mret (from_le b)
  else if tag =? 0xfe then
    b ← array 4; _ ← fail_if (from_le b <=? umax 16) CompactSize; mret (from_le b)
  else
    b ← array 8; _ ← fail_if (from_le b <=? umax 32) CompactSize; mret (from_le b).

Definition compact_size : reader Z := tag ← u8; compact_size_arm tag.

Definition bounded_count (v : Z) : reader Z :=
  _ ← fail_if (umax 64 <? v) CompactSize;
  _ ← fail_if (1000000 <? v) (Payload "vector count exceeds limit");
  mret v.

(** [for _ in 0..count { items.push(item(reader)?) }] *)
Fixpoint read_items {A} (count : nat) (item : reader A) : reader (list A) :=
  match count with
  | O => mret []
  | S count => x ← item; l ← read_items count item; mret (x :: l)
  end.

(** ** Writing *)

Definition put_u32 (v : Z) : bytes := to_le 4 v.
Definition put_u64 (v : Z) : bytes := to_le 8 v.
Definition put_i32 (v : Z) : bytes := to_le 4 (of_signed 32 v).
Definition put_i64 (v : Z) : bytes := to_le 8 (of_signed 64 v).
Definition put_compact_size_u64 (v : Z) : bytes :=
  if v <? 0xfd then [v]
  else if v <=? umax 16 then 0xfd :: to_le 2 v
  else if v <=? umax 32 then 0xfe :: to_le 4 v
  else 0xff :: to_le 8 v.
Definition put_compact_size (v : Z) : bytes := put_compact_size_u64 v.

Lemma zlen_put_u32 v : zlen (put_u32 v) = 4.
Proof. apply zlen_to_le. Qed.
Lemma zlen_put_u64 v : zlen (put_u64 v) = 8.
Proof. apply zlen_to_le. Qed.
Lemma zlen_put_i32 v : zlen (put_i32 v) = 4.
Proof. apply zlen_to_le. Qed.
Lemma zlen_put_i64 v : zlen (put_i64 v) = 8.
Proof. apply zlen_to_le. Qed.
#[export] Hint Rewrite zlen_put_u32 zlen_put_u64 zlen_put_i32 zlen_put_i64 : zlen.

(** ** Composition of round trips *)

(** [p] reads exactly the bytes [b] off the front of any payload, as [x]. *)
Definition reads {A} (p : reader A) (b : bytes) (x : A) : Prop :=
  forall rest, p (b ++ rest) = Ok (x, rest).

Create HintDb reads.

Lemma reads_ret {A} (x : A) : reads (mret x) [] x.
Proof. intros rest. reflexivity. Qed.

Lemma reads_bind {A B} (p : reader A) (k : A -> reader B) b1 b2 x y :
  reads p b1 x -> reads (k x) b2 y -> reads (p ≫= k) (b1 ++ b2) y.
Proof.
  intros Hp Hk rest. unfold mbind, reader_bind. rewrite <- app_assoc, Hp. apply Hk.
Qed.

(** The last field of a message: what is left is an empty suffix. *)
Lemma reads_bind_ret {A B} (p : reader A) (f : A -> B) b x :
  reads p b x -> reads (a ← p; mret (f a)) b (f x).
Proof. intros Hp rest. unfold mbind, reader_bind. by rewrite Hp. Qed.

Lemma reads_check {B} (bad : bool) e (k : reader B) b y :
  bad = false -> reads k b y -> reads (_ ← fail_if bad e; k) b y.
Proof. intros -> Hk rest. apply Hk. Qed.

(** A test of [remaining]: the continuation sees some length that is at
    least that of the bytes it is going to read. *)
Lemma reads_remaining {B} (k : Z -> reader B) b y :
  (forall n, zlen b <= n -> reads (k n) b y) -> reads (n ← remaining; k n) b y.
Proof.
  intros Hk rest. unfold mbind, reader_bind, remaining. apply Hk. rewrite zlen_app.
  pose proof (zlen_nonneg rest). lia.
Qed.

Lemma reads_bytes b n : n = zlen b -> reads (read_bytes n) b b.
Proof.
  intros -> rest. unfold read_bytes. pose proof (zlen_nonneg rest).
  rewrite zlen_app. bfalse (zlen b + zlen rest <? zlen b).
  by rewrite ztake_app_eq, zdrop_app_eq by done.
Qed.

Lemma reads_items {A} (item : reader A) (enc : A -> bytes) l :
  Forall (fun x => reads item (enc x) x) l ->
  reads (read_items (length l) item) (concat (map enc l)) l.
Proof.
  induction 1 as [|x l Hx Hl IH]; [apply reads_ret|]. cbn [length read_items map concat].
  eapply reads_bind; [apply Hx|]. by apply (reads_bind_ret _ (cons x)).
Qed.

Lemma reads_u8 v : reads u8 [v] v.
Proof. exact (reads_bind_ret _ (fun b => zat b 0) [v] [v] (reads_bytes [v] 1 eq_refl)). Qed.

Lemma reads_array b n : n = zlen b -> reads (array n) b b.
Proof. apply reads_bytes. Qed.

(** A fixed-width field: [n] bytes through an inverse of their encoding. *)
Lemma reads_field (n : Z) (f : bytes -> Z) b v :
  zlen b = n -> f b = v -> reads (x ← array n; mret (f x)) b v.
Proof. intros Hn <-. by apply reads_bind_ret, reads_array. Qed.

Lemma reads_u16_be v : in_u 16 v -> reads u16_be (to_be 2 v) v.
Proof. intros H. apply reads_field; [apply zlen_to_be|]. by apply (from_to_be_small 2 16). Qed.
Lemma reads_u32_le v : in_u 32 v -> reads u32_le (put_u32 v) v.
Proof. intros H. apply reads_field; [apply zlen_to_le|]. by apply (from_to_le_small 4 32). Qed.
Lemma reads_u64_le v : in_u 64 v -> reads u64_le (put_u64 v) v.
Proof. intros H. apply reads_field; [apply zlen_to_le|]. by apply (from_to_le_small 8 64). Qed.

Lemma reads_i32_le v : in_i 32 v -> reads i32_le (put_i32 v) v.
Proof.
  intros H. apply (reads_field 4 (fun b => to_signed 32 (from_le b))); [apply zlen_to_le|].
  unfold put_i32. rewrite (from_to_le_small 4 32) by (done || apply of_signed_range; lia).
  apply to_of_signed; [lia|done].
Qed.
Lemma reads_i64_le v : in_i 64 v -> reads i64_le (put_i64 v) v.
Proof.
  intros H. apply (reads_field 8 (fun b => to_signed 64 (from_le b))); [apply zlen_to_le|].
  unfold put_i64. rewrite (from_to_le_small 8 64) by (done || apply of_signed_range; lia).
  apply to_of_signed; [lia|done].
Qed.

(** ** CompactSize *)

Lemma reads_tagged n (bad : Z -> bool) v :
  in_u (8 * Z.of_nat n) v -> bad v = false ->
  reads (b ← array (Z.of_nat n); _ ← fail_if (bad (from_le b)) CompactSize; mret (from_le b)) (to_le n v) v.
Proof.
  intros Hv Hk rest. unfold mbind, reader_bind, array. rewrite reads_bytes by (by rewrite zlen_to_le).
  rewrite (from_to_le_small n (8 * Z.of_nat n)) by done. unfold fail_if. by rewrite Hk.
Qed.

Lemma reads_compact_size v : in_u 64 v -> reads compact_size (put_compact_size_u64 v) v.
Proof.
  unfold in_u, put_compact_size_u64. intros H.
  assert (forall t b, reads (compact_size_arm t) b v -> reads compact_size (t :: b) v) as Htag.
  { intros t b Hb. apply (reads_bind u8 _ [t] b t v); [apply reads_u8|exact Hb]. }
  destruct (Z.ltb_spec v 0xfd); [|destruct (Z.leb_spec v (umax 16)); [|destruct (Z.leb_spec v (umax 32))]];
    apply Htag; unfold compact_size_arm; cbn [Z.leb Z.eqb Z.compare Pos.compare Pos.compare_cont Pos.eqb].
  - btrue (v <=? 252). apply reads_ret.
  - apply (reads_tagged 2 (fun x => x <? 0xfd)); unfold in_u, umax in *; [lia|]. by apply Z.ltb_ge.
  - apply (reads_tagged 4 (fun x => x <=? umax 16)); unfold in_u, umax in *; [lia|]. by apply Z.leb_gt.
  - apply (reads_tagged 8 (fun x => x <=? umax 32)); unfold in_u, umax in *; [lia|]. by apply Z.leb_gt.
Qed.

Lemma reads_count v : 0 <= v <= 1000000 ->
  reads (n ← compact_size; bounded_count n) (put_compact_size v) v.
Proof.
  intros H. rewrite <- (app_nil_r (put_compact_size v)).
  eapply reads_bind; [apply reads_compact_size; unfold in_u; lia|].
  unfold bounded_count. apply reads_check; [unfold umax; apply Z.ltb_ge; lia|].
  apply reads_check; [apply Z.ltb_ge; lia|]. apply reads_ret.
Qed.

Lemma read_bytes_inv n r b rest : read_bytes n r = Ok (b, rest) -> 0 <= n ->
  r = b ++ rest /\ zlen b = n.
Proof.
  unfold read_bytes. destruct (Z.ltb_spec (zlen r) n); [done|]. intros E ?.
  apply Ok_inj in E. injection E as <- <-. split; [symmetry; apply take_drop|].
  apply zlen_ztake. lia.
Qed.

Lemma reader_bind_inv {A B} (p : reader A) (k : A -> reader B) r y rest :
  (p ≫= k) r = Ok (y, rest) -> exists x r', p r = Ok (x, r') /\ k x r' = Ok (y, rest).
Proof. unfold mbind, reader_bind. destruct (p r) as [[x r']|]; [eauto|done]. Qed.

Lemma read_tagged_inv n (bad : Z -> bool) r v rest : all_bytes r ->
  (b ← array (Z.of_nat n); _ ← fail_if (bad (from_le b)) CompactSize; mret (from_le b)) r = Ok (v, rest) ->
  r = to_le n v ++ rest /\ bad v = false /\ in_u (8 * Z.of_nat n) v.
Proof.
  intros Hr E. apply reader_bind_inv in E as (b & r' & Hb & E). apply read_bytes_inv in Hb as [-> Hb]; [|lia].
  unfold mbind, reader_bind, fail_if in E. destruct (bad (from_le b)) eqn:Ebad; [done|].
  apply Ok_inj in E. injection E as <- <-. apply Forall_app in Hr as [Hr _].
  split; [|split; [done|]].
  - f_equal. rewrite <- (to_from_le b Hr) at 1. f_equal. unfold zlen in Hb. lia.
  - rewrite <- Hb. by apply from_le_bound.
Qed.

(** Only the shortest encoding of a number is accepted. *)
Lemma compact_size_inv r v rest : all_bytes r -> compact_size r = Ok (v, rest) ->
  r = put_compact_size_u64 v ++ rest /\ in_u 64 v.
Proof.
  intros Hr E. apply reader_bind_inv in E as (tag & r' & Ht & E).
  apply reader_bind_inv in Ht as (b & r'' & Hb & Ht). apply read_bytes_inv in Hb as [-> Hb]; [|lia].
  apply Ok_inj in Ht. injection Ht as <- ->. destruct b as [|t [|? ?]]; try (unfold zlen in Hb; simpl in Hb; lia).
  change (zat [t] 0) with t in E. cbn [app] in *. inversion Hr as [|? ? Ht Hr']; subst. unfold is_byte in Ht.
  unfold compact_size_arm in E. unfold put_compact_size_u64.
  destruct (Z.leb_spec t 0xfc); [|destruct (Z.eqb_spec t 0xfd); [|destruct (Z.eqb_spec t 0xfe)]].
  - apply Ok_inj in E. injection E as <- <-. btrue (t <? 253). unfold in_u. split; [done|lia].
  - apply (read_tagged_inv 2 (fun v => v <? 0xfd)) in E as (-> & Hge & Hv); [|done].
    apply Z.ltb_ge in Hge. unfold in_u, umax in *. bfalse (v <? 253). btrue (v <=? 2 ^ 16 - 1). subst. split; [done|lia].
  - apply (read_tagged_inv 4 (fun v => v <=? umax 16)) in E as (-> & Hge & Hv); [|done].
    apply Z.leb_gt in Hge. unfold in_u, umax in *. bfalse (v <? 253). bfalse (v <=? 2 ^ 16 - 1).
    btrue (v <=? 2 ^ 32 - 1). subst. split; [done|lia].
  - apply (read_tagged_inv 8 (fun v => v <=? umax 32)) in E as (-> & Hge & Hv); [|done].
    apply Z.leb_gt in Hge. unfold in_u, umax in *. bfalse (v <? 253). bfalse (v <=? 2 ^ 16 - 1).
    bfalse (v <=? 2 ^ 32 - 1). split; [|lia]. by replace t with 255 by lia.
Qed.

#[export] Hint Resolve reads_ret reads_u8 reads_u16_be reads_u32_le reads_u64_le reads_i32_le
  reads_i64_le reads_compact_size reads_count : reads.
