(* ===== verification/WireMessage.v ===== *)
(** * Peer-to-peer messages ([src/wire.rs])

    The messages, their command names, and the encoding and decoding of
    their payloads: [Message], [Message::command], [encode_payload],
    [decode_payload] and the functions they call.  Message bodies that the
    node leaves to the [bitcoin] crate are types with a [Consensus]
    instance. *)

From Stdlib Require Import ZArith Lia.
From stdpp Require Import base list option strings.
From S2P Require Import Prelude Types WireReader.
Local Open Scope Z_scope.

Definition MAX_MESSAGE_SIZE : Z := 4000000.
Definition HEADER_SIZE : Z := 24.
Definition MAX_INVENTORY_ITEMS : Z := 50000.
Definition MAX_LOCATOR_HASHES : Z := 101.
Definition MAX_USER_AGENT_LENGTH : Z := 256.
Definition MAX_BLOCK_TRANSACTIONS : Z := 1000000.
Definition MAX_TRANSACTION_OUTPUTS : Z := 1000000.
Definition INVENTORY_ITEM_SIZE : Z := 36.
Definition ADDR_ITEM_SIZE : Z := 30.
Definition ADDRV2_MIN_ITEM_SIZE : Z := 9.
Definition HEADER_ITEM_MIN_SIZE : Z := 81.
Definition MIN_SERIALIZED_EMPTY_TRANSACTION_SIZE : Z := 10.
Definition MIN_SERIALIZED_TXOUT_SIZE : Z := 9.

(** ** Data *)

Inductive InventoryType :=
| InvError
| InvTransaction
| InvBlock
| InvFilteredBlock
| InvCompactBlock
| InvWitnessTransaction
| InvWitnessBlock
| InvLegacyWitnessTransaction
| InvUnknown (code : Z).

Definition from_u32 (v : Z) : InventoryType :=
  if v =? 0 then InvError
  else if v =? 1 then InvTransaction
  else if v =? 2 then InvBlock
  else if v =? 3 then InvFilteredBlock
  else if v =? 4 then InvCompactBlock
  else if v =? 5 then InvWitnessTransaction
  else if v =? 0x40000002 then InvWitnessBlock
  else if v =? 0x40000001 then InvLegacyWitnessTransaction
  else InvUnknown v.

Definition as_u32 (kind : InventoryType) : Z :=
  match kind with
  | InvError => 0
  | InvTransaction => 1
  | InvBlock => 2
  | InvFilteredBlock => 3
  | InvCompactBlock => 4
  | InvWitnessTransaction => 5
  | InvWitnessBlock => 0x40000002
  | InvLegacyWitnessTransaction => 0x40000001
  | InvUnknown v => v
  end.

Record Inventory := { kind : InventoryType; inv_hash : bytes }.

Record NetworkAddress := {
  na_time : Z;
  na_services : Z;
  na_address : bytes;
  na_port : Z;
}.

Record NetworkAddressV2 := {
  na2_time : Z;
  na2_services : Z;
  na2_network : Z;
  na2_address : bytes;
  na2_port : Z;
}.

(** [user_agent] is the UTF-8 bytes of the string. *)
Record VersionMessage := {
  vm_version : Z;
  vm_services : Z;
  vm_timestamp : Z;
  receiver_services : Z;
  receiver_address : bytes;
  receiver_port : Z;
  sender_services : Z;
  sender_address : bytes;
  sender_port : Z;
  vm_nonce : Z;
  user_agent : bytes;
  start_height : Z;
  vm_relay : bool;
}.

Record GetHeadersMessage := {
  gh_version : Z;
  locator_hashes : list bytes;
  stop_hash : bytes;
}.

Record SendTxRcnclMessage := { rcncl_version : Z; salt : Z }.

(** The message bodies that only the [bitcoin] crate looks into.  The three
    BIP152 messages are carried by wrapper types with one field; the codec
    here is that of the wrapper. *)
Class WireTypes := {
  MerkleBlock : Type; merkle_block_codec :: Consensus MerkleBlock;
  FilterLoad : Type; filter_load_codec :: Consensus FilterLoad;
  FilterAdd : Type; filter_add_codec :: Consensus FilterAdd;
  HeaderAndShortIds : Type; cmpct_block_codec :: Consensus HeaderAndShortIds;
  BlockTransactionsRequest : Type; get_block_txn_codec :: Consensus BlockTransactionsRequest;
  BlockTransactions : Type; block_txn_codec :: Consensus BlockTransactions;
  GetCFilters : Type; get_cfilters_codec :: Consensus GetCFilters;
  CFilter : Type; cfilter_codec :: Consensus CFilter;
  GetCFHeaders : Type; get_cfheaders_codec :: Consensus GetCFHeaders;
  CFHeaders : Type; cfheaders_codec :: Consensus CFHeaders;
  GetCFCheckpt : Type; get_cfcheckpt_codec :: Consensus GetCFCheckpt;
  CFCheckpt : Type; cfcheckpt_codec :: Consensus CFCheckpt;
  VarInt : Type; varint_codec :: Consensus VarInt; varint_value : VarInt -> Z;
  header_codec :: Consensus Header;
  block_codec :: Consensus Block;
  transaction_codec :: Consensus Transaction;
  txout_codec :: Consensus TxOut;
  (** [Version] and [LockTime] of a transaction are integers here. *)
  version_partial : bytes -> result string (Z * Z);
  lock_time_partial : bytes -> result string (Z * Z);
}.

Section Messages.
Context {WT : WireTypes}.

Inductive Message :=
| Version (m : VersionMessage)
| Verack
| Addr (entries : list NetworkAddress)
| AddrV2 (entries : list NetworkAddressV2)
| GetAddr
| SendAddrV2
| SendHeaders
| WtxidRelay
| SendTxRcncl (m : SendTxRcnclMessage)
| Ping (nonce : Z)
| Pong (nonce : Z)
| GetHeaders (m : GetHeadersMessage)
| GetBlocks (m : GetHeadersMessage)
| Headers (headers : list Header)
| Inv (items : list Inventory)
| GetData (items : list Inventory)
| NotFound (items : list Inventory)
| MBlock (b : Block)
| MMerkleBlock (b : MerkleBlock)
| MTransaction (t : Transaction)
| MFilterLoad (f : FilterLoad)
| MFilterAdd (f : FilterAdd)
| FilterClear
| Mempool
| FeeFilter (rate : Z)
| SendCmpct (announce : bool) (v : Z)
| CompactBlock (c : HeaderAndShortIds)
| GetBlockTxn (r : BlockTransactionsRequest)
| BlockTxn (t : BlockTransactions)
| MGetCFilters (r : GetCFilters)
| MCFilter (r : CFilter)
| MGetCFHeaders (r : GetCFHeaders)
| MCFHeaders (r : CFHeaders)
| MGetCFCheckpt (r : GetCFCheckpt)
| MCFCheckpt (r : CFCheckpt)
| Unknown (command payload : bytes).

Definition command (m : Message) : bytes :=
  match m with
  | Version _ => str "version"
  | Verack => str "verack"
  | Addr _ => str "addr"
  | AddrV2 _ => str "addrv2"
  | GetAddr => str "getaddr"
  | SendAddrV2 => str "sendaddrv2"
  | SendHeaders => str "sendheaders"
  | WtxidRelay => str "wtxidrelay"
  | SendTxRcncl _ => str "sendtxrcncl"
  | Ping _ => str "ping"
  | Pong _ => str "pong"
  | GetHeaders _ => str "getheaders"
  | GetBlocks _ => str "getblocks"
  | Headers _ => str "headers"
  | Inv _ => str "inv"
  | GetData _ => str "getdata"
  | NotFound _ => str "notfound"
  | MBlock _ => str "block"
  | MMerkleBlock _ => str "merkleblock"
  | MTransaction _ => str "tx"
  | MFilterLoad _ => str "filterload"
  | MFilterAdd _ => str "filteradd"
  | FilterClear => str "filterclear"
  | Mempool => str "mempool"
  | FeeFilter _ => str "feefilter"
  | SendCmpct _ _ => str "sendcmpct"
  | CompactBlock _ => str "cmpctblock"
  | GetBlockTxn _ => str "getblocktxn"
  | BlockTxn _ => str "blocktxn"
  | MGetCFilters _ => str "getcfilters"
  | MCFilter _ => str "cfilter"
  | MGetCFHeaders _ => str "getcfheaders"
  | MCFHeaders _ => str "cfheaders"
  | MGetCFCheckpt _ => str "getcfcheckpt"
  | MCFCheckpt _ => str "cfcheckpt"
  | Unknown command _ => command
  end.

(** ** Encoding *)

Definition encode_addr (entry : NetworkAddress) : bytes :=
  put_u32 (na_time entry) ++ put_u64 (na_services entry) ++ na_address entry ++ to_be 2 (na_port entry).

Fixpoint encode_addr_v2_entries (entries : list NetworkAddressV2) : result WireError bytes :=
  match entries with
  | [] => Ok []
  | entry :: entries =>
      check? zlen (na2_address entry) <=? 512 else Payload "address record is too large" in
      let? rest := encode_addr_v2_entries entries in
      Ok (put_u32 (na2_time entry) ++ put_compact_size_u64 (na2_services entry) ++
          [na2_network entry] ++ put_compact_size (zlen (na2_address entry)) ++
          na2_address entry ++ to_be 2 (na2_port entry) ++ rest)
  end.

Definition encode_version (v : VersionMessage) : result WireError bytes :=
  check? zlen (user_agent v) <=? MAX_USER_AGENT_LENGTH else Bail "user agent exceeds Core's 256-byte limit" in
  Ok (put_i32 (vm_version v) ++ put_u64 (vm_services v) ++ put_i64 (vm_timestamp v) ++
      put_u64 (receiver_services v) ++ receiver_address v ++ to_be 2 (receiver_port v) ++
      put_u64 (sender_services v) ++ sender_address v ++ to_be 2 (sender_port v) ++
      put_u64 (vm_nonce v) ++ put_compact_size (zlen (user_agent v)) ++ user_agent v ++
      put_i32 (start_height v) ++ [if vm_relay v then 1 else 0]).

Definition encode_inventory_item (item : Inventory) : bytes := put_u32 (as_u32 (kind item)) ++ inv_hash item.

Definition encode_inventory (items : list Inventory) : result WireError bytes :=
  check? zlen items <=? MAX_INVENTORY_ITEMS else Payload "too many inventory items" in
  Ok (put_compact_size (zlen items) ++ concat (map encode_inventory_item items)).

Definition encode_getheaders (request : GetHeadersMessage) : bytes :=
  put_i32 (gh_version request) ++ put_compact_size (zlen (locator_hashes request)) ++
  concat (locator_hashes request) ++ stop_hash request.

Definition encode_header_item (header : Header) : bytes := serialize header ++ [0].

Definition encode_payload (m : Message) : result WireError bytes :=
  match m with
  | Version version => encode_version version
  | Verack | GetAddr | SendAddrV2 | SendHeaders | WtxidRelay | FilterClear | Mempool => Ok []
  | SendTxRcncl m => Ok (put_u32 (rcncl_version m) ++ put_u64 (salt m))
  | Addr entries =>
      check? zlen entries <=? 1000 else Payload "too many address records" in
      Ok (put_compact_size (zlen entries) ++ concat (map encode_addr entries))
  | AddrV2 entries =>
      check? zlen entries <=? 1000 else Payload "too many address records" in
      let? items := encode_addr_v2_entries entries in
      Ok (put_compact_size (zlen entries) ++ items)
  | Ping nonce | Pong nonce => Ok (put_u64 nonce)
  | GetHeaders request | GetBlocks request => Ok (encode_getheaders request)
  | Headers headers =>
      Ok (put_compact_size (zlen headers) ++ concat (map encode_header_item headers))
  | Inv items | GetData items | NotFound items => encode_inventory items
  | MBlock b => Ok (serialize b)
  | MMerkleBlock b => Ok (serialize b)
  | MTransaction t => Ok (serialize t)
  | MFilterLoad f => Ok (serialize f)
  | MFilterAdd f => Ok (serialize f)
  | FeeFilter rate => Ok (put_i64 rate)
  | SendCmpct announce v => Ok ((if announce then 1 else 0) :: put_u64 v)
  | CompactBlock c => Ok (serialize c)
  | GetBlockTxn r => Ok (serialize r)
  | BlockTxn t => Ok (serialize t)
  | MGetCFilters r => Ok (serialize r)
  | MCFilter r => Ok (serialize r)
  | MGetCFHeaders r => Ok (serialize r)
  | MCFHeaders r => Ok (serialize r)
  | MGetCFCheckpt r => Ok (serialize r)
  | MCFCheckpt r => Ok (serialize r)
  | Unknown _ payload => Ok payload
  end.

(** ** Decoding *)

Definition payload_error (e : string) : WireError := Payload e.

Definition decode_version : reader VersionMessage :=
  version ← i32_le;
  services ← u64_le;
  timestamp ← i64_le;
  r_services ← u64_le;
  r_address ← array 16;
  r_port ← u16_be;
  n ← remaining;
  sender ← (if negb (n =? 0) then
              s ← u64_le; a ← array 16; p ← u16_be; nonce ← u64_le; mret (s, a, p, nonce)
            else mret (0, repeat 0 16, 0, 1));
  n ← remaining;
  agent ← (if negb (n =? 0) then
             length ← compact_size;
             _ ← fail_if (umax 64 <? length) (Payload "user agent length is out of range");
             _ ← fail_if (MAX_USER_AGENT_LENGTH <? length) (Payload "user agent exceeds Core's 256-byte limit");
             b ← read_bytes length;
             _ ← fail_if (negb (utf8_valid b)) (Payload "user agent is not UTF-8");
             mret b
           else mret []);
  n ← remaining;
  height ← (if negb (n =? 0) then i32_le else mret (-1));
  n ← remaining;
  relay ← (if n =? 0 then mret true else b ← u8; mret (negb (b =? 0)));
  let '(s_services, s_address, s_port, nonce) := sender in
  mret {| vm_version := version; vm_services := services; vm_timestamp := timestamp;
          receiver_services := r_services; receiver_address := r_address; receiver_port := r_port;
          sender_services := s_services; sender_address := s_address; sender_port := s_port;
          vm_nonce := nonce; user_agent := agent; start_height := height; vm_relay := relay |}.

Definition inventory_item : reader Inventory :=
  k ← u32_le; h ← array 32; mret {| kind := from_u32 k; inv_hash := h |}.

Definition decode_inventory : reader (list Inventory) :=
  count ← (n ← compact_size; bounded_count n);
  _ ← fail_if (MAX_INVENTORY_ITEMS <? count) (Payload "too many inventory items");
  avail ← remaining;
  _ ← fail_if (avail / INVENTORY_ITEM_SIZE <? count) (Payload "inventory count exceeds payload size");
  read_items (Z.to_nat count) inventory_item.

Definition addr_item : reader NetworkAddress :=
  time ← u32_le; services ← u64_le; address ← array 16; port ← u16_be;
  mret {| na_time := time; na_services := services; na_address := address; na_port := port |}.

Definition decode_addr : reader (list NetworkAddress) :=
  count ← (n ← compact_size; bounded_count n);
  _ ← fail_if (1000 <? count) (Payload "too many address records");
  avail ← remaining;
  _ ← fail_if (avail / ADDR_ITEM_SIZE <? count) (Payload "address count exceeds payload size");
  read_items (Z.to_nat count) addr_item.

Definition addr_v2_item : reader NetworkAddressV2 :=
  time ← u32_le; services ← compact_size; network ← u8;
  length ← compact_size;
  _ ← fail_if (umax 64 <? length) (Payload "address length is out of range");
  _ ← fail_if (512 <? length) (Payload "address record is too large");
  address ← read_bytes length; port ← u16_be;
  mret {| na2_time := time; na2_services := services; na2_network := network;
          na2_address := address; na2_port := port |}.

Definition decode_addr_v2 : reader (list NetworkAddressV2) :=
  count ← (n ← compact_size; bounded_count n);
  _ ← fail_if (1000 <? count) (Payload "too many address records");
  avail ← remaining;
  _ ← fail_if (avail / ADDRV2_MIN_ITEM_SIZE <? count) (Payload "address count exceeds payload size");
  read_items (Z.to_nat count) addr_v2_item.

Definition decode_getheaders : reader GetHeadersMessage :=
  version ← i32_le;
  count ← (n ← compact_size; bounded_count n);
  _ ← fail_if (MAX_LOCATOR_HASHES <? count) (Payload "too many locator hashes");
  avail ← remaining;
  _ ← fail_if (sat_sub avail 32 / 32 <? count) (Payload "locator hash count exceeds payload size");
  hashes ← read_items (Z.to_nat count) (array 32);
  stop ← array 32;
  mret {| gh_version := version; locator_hashes := hashes; stop_hash := stop |}.

(** [deserialize(bytes).map_err(payload_error)?] inside a reader. *)
Definition deserialize_r {A} `{Consensus A} (b : bytes) : reader A := fun r =>
  match deserialize b with
  | Ok x => Ok (x, r)
  | Err e => Err (payload_error e)
  end.

Definition header_item : reader Header :=
  b ← read_bytes 80; header ← deserialize_r b; _ ← compact_size; mret header.

Definition decode_headers : reader (list Header) :=
  count ← (n ← compact_size; bounded_count n);
  _ ← fail_if (2000 <? count) (Payload "too many headers");
  avail ← remaining;
  _ ← fail_if (avail / HEADER_ITEM_MIN_SIZE <? count) (Payload "header count exceeds payload size");
  read_items (Z.to_nat count) header_item.

(** *** Transactions and blocks *)

(** [payload.get(offset..).ok_or_else(..)?] *)
Definition get_from (payload : bytes) (offset : Z) (reason : string) : result WireError bytes :=
  ok_or (get_range payload offset (zlen payload)) (Payload reason).

Definition partial {A} `{Consensus A} (b : bytes) : result WireError (A * Z) :=
  map_err payload_error (deserialize_partial b).

Definition decode_transaction_core_compatible (payload : bytes) : result WireError Transaction :=
  if (zlen payload =? 10) && (zat payload 4 =? 0) && (zat payload 5 =? 0) then
    Ok {| tx_version := to_signed 32 (from_le (slice payload 0 4));
          tx_lock_time := from_le (zdrop 6 payload); tx_input := []; tx_output := [] |}
  else map_err payload_error (deserialize payload).

Fixpoint decode_outputs (count : nat) (payload : bytes) (offset : Z)
  : result WireError (list TxOut * Z) :=
  match count with
  | O => Ok ([], offset)
  | S count =>
      let? rest := get_from payload offset "truncated transaction output" in
      let? '(txout, consumed) := partial rest in
      let? '(outputs, offset) := decode_outputs count payload (sat_add 64 offset consumed) in
      Ok (txout :: outputs, offset)
  end.

Definition decode_empty_input_transaction (payload : bytes) : result WireError (Transaction * Z) :=
  let? '(version, version_consumed) := map_err payload_error (version_partial payload) in
  let? rest := get_from payload version_consumed "truncated transaction inputs" in
  let? '(input_count, input_count_consumed) := partial rest in
  check? varint_value input_count =? 0
    else Payload "transaction decoder could not recover an empty-input transaction" in
  let output_offset := sat_add 64 version_consumed input_count_consumed in
  let? rest := get_from payload output_offset "truncated transaction outputs" in
  let? '(count, output_count_consumed) := partial rest in
  let? output_count := ok_or (try_u 64 (varint_value count)) (Payload "transaction output count is too large") in
  check? output_count <=? MAX_TRANSACTION_OUTPUTS else Payload "transaction output count is too large" in
  let offset := sat_add 64 output_offset output_count_consumed in
  let remaining_len := sat_sub (zlen payload) offset in
  let max_outputs_from_payload := sat_sub remaining_len 4 / MIN_SERIALIZED_TXOUT_SIZE in
  check? output_count <=? max_outputs_from_payload else Payload "transaction output count exceeds payload size" in
  let? '(output, offset) := decode_outputs (Z.to_nat output_count) payload offset in
  let? rest := get_from payload offset "truncated transaction locktime" in
  let? '(lock_time, lock_time_consumed) := map_err payload_error (lock_time_partial rest) in
  Ok ({| tx_version := version; tx_lock_time := lock_time; tx_input := []; tx_output := output |},
      sat_add 64 offset lock_time_consumed).

Fixpoint decode_txdata (count : nat) (payload : bytes) (offset : Z)
  : result WireError (list Transaction * Z) :=
  match count with
  | O => Ok ([], offset)
  | S count =>
      let? rest := get_from payload offset "truncated block transaction" in
      let? '(transaction, consumed) :=
        (match deserialize_partial rest with
         | Ok decoded => Ok decoded
         | Err _ => decode_empty_input_transaction rest
         end) in
      let? '(txs, offset) := decode_txdata count payload (sat_add 64 offset consumed) in
      Ok (transaction :: txs, offset)
  end.

Definition has_witness (transaction : Transaction) : bool :=
  existsb (fun input => match witness input with [] => false | _ => true end) (tx_input transaction).

Definition decode_block_core_compatible (payload : bytes) : result WireError Block :=
  let? '(header, header_consumed) := partial payload in
  let? '(count, count_consumed) := partial (zdrop header_consumed payload) in
  let? transaction_count := ok_or (try_u 64 (varint_value count)) (Payload "block transaction count is too large") in
  check? transaction_count <=? MAX_BLOCK_TRANSACTIONS else Payload "block transaction count is too large" in
  let offset := sat_add 64 header_consumed count_consumed in
  let remaining_len := sat_sub (zlen payload) offset in
  check? transaction_count <=? remaining_len / MIN_SERIALIZED_EMPTY_TRANSACTION_SIZE
    else Payload "block transaction count exceeds payload size" in
  match deserialize payload with
  | Ok block => Ok block
  | Err _ =>
      let? '(txs, offset) := decode_txdata (Z.to_nat transaction_count) payload offset in
      if negb (offset =? zlen payload) then
        if (offset <? zlen payload) && (match list.last txs with Some t => has_witness t | None => false end)
        then Ok {| blk_header := header; txdata := txs |}
        else Err (Payload "block contains trailing transaction bytes")
      else Ok {| blk_header := header; txdata := txs |}
  end.

(** *** Payloads *)

(** A body decoded from the payload beside the reader, which stays where it
    is. *)
Definition whole {A} (f : A -> Message) (decoded : result WireError A) : reader Message := fun r =>
  match decoded with
  | Ok x => Ok (f x, r)
  | Err e => Err e
  end.
Definition consensus {A} `{Consensus A} (f : A -> Message) (payload : bytes) : reader Message :=
  whole f (map_err payload_error (deserialize payload)).

Definition named (command : bytes) (name : string) : bool := bool_decide (command = str name).

(** The match on the command name. *)
Definition decode_body (command payload : bytes) : reader Message :=
  if named command "version" then m ← decode_version; mret (Version m)
  else if named command "verack" then mret Verack
  else if named command "getaddr" then mret GetAddr
  else if named command "sendaddrv2" then mret SendAddrV2
  else if named command "sendheaders" then mret SendHeaders
  else if named command "wtxidrelay" then mret WtxidRelay
  else if named command "sendtxrcncl" then
    v ← u32_le; s ← u64_le; mret (SendTxRcncl {| rcncl_version := v; salt := s |})
  else if named command "mempool" then mret Mempool
  else if named command "addr" then l ← decode_addr; mret (Addr l)
  else if named command "addrv2" then l ← decode_addr_v2; mret (AddrV2 l)
  else if named command "ping" then
    n ← remaining; nonce ← (if n =? 0 then mret 0 else u64_le); mret (Ping nonce)
  else if named command "pong" then
    n ← remaining;
    if n =? 0 then mret (Pong 0)
    else if n =? 8 then nonce ← u64_le; mret (Pong nonce)
    else b ← read_bytes n; mret (Unknown (str "pong") b)
  else if named command "getheaders" then m ← decode_getheaders; mret (GetHeaders m)
  else if named command "getblocks" then m ← decode_getheaders; mret (GetBlocks m)
  else if named command "headers" then l ← decode_headers; mret (Headers l)
  else if named command "inv" then l ← decode_inventory; mret (Inv l)
  else if named command "getdata" then l ← decode_inventory; mret (GetData l)
  else if named command "notfound" then l ← decode_inventory; mret (NotFound l)
  else if named command "block" then whole MBlock (decode_block_core_compatible payload)
  else if named command "merkleblock" then consensus MMerkleBlock payload
  else if named command "tx" then whole MTransaction (decode_transaction_core_compatible payload)
  else if named command "filterload" then consensus MFilterLoad payload
  else if named command "filteradd" then consensus MFilterAdd payload
  else if named command "filterclear" then mret FilterClear
  else if named command "feefilter" then rate ← i64_le; mret (FeeFilter rate)
  else if named command "sendcmpct" then a ← u8; v ← u64_le; mret (SendCmpct (negb (a =? 0)) v)
  else if named command "cmpctblock" then consensus CompactBlock payload
  else if named command "getblocktxn" then consensus GetBlockTxn payload
  else if named command "blocktxn" then consensus BlockTxn payload
  else if named command "getcfilters" then consensus MGetCFilters payload
  else if named command "cfilter" then consensus MCFilter payload
  else if named command "getcfheaders" then consensus MGetCFHeaders payload
  else if named command "cfheaders" then consensus MCFHeaders payload
  else if named command "getcfcheckpt" then consensus MGetCFCheckpt payload
  else if named command "cfcheckpt" then consensus MCFCheckpt payload
  else mret (Unknown command payload).

(** The messages whose bodies are decoded beside the reader. *)
Definition may_leave_bytes (m : Message) : bool :=
  match m with
  | MBlock _ | MMerkleBlock _ | MTransaction _ | MFilterLoad _ | MFilterAdd _ | FilterClear
  | CompactBlock _ | GetBlockTxn _ | BlockTxn _ | MGetCFilters _ | MCFilter _ | MGetCFHeaders _
  | MCFHeaders _ | MGetCFCheckpt _ | MCFCheckpt _ | Unknown _ _ => true
  | _ => false
  end.

Definition decode_payload (command payload : bytes) : result WireError Message :=
  let? '(m, rest) := decode_body command payload payload in
  if negb (zlen rest =? 0) && negb (may_leave_bytes m) then Err (Payload "trailing bytes")
  else Ok m.
End Messages.

(** ** The round trip of payloads *)

(** What the [bitcoin] crate documents of the encodings used here: the round
    trip of every type, the 80 bytes of a header, the layout of a block, and
    that a transaction takes at least ten bytes and, when it has no inputs,
    is written with the SegWit marker and flag. *)
Class WireLaws (WT : WireTypes) := {
  merkle_block_laws :: ConsensusLaws MerkleBlock;
  filter_load_laws :: ConsensusLaws FilterLoad;
  filter_add_laws :: ConsensusLaws FilterAdd;
  cmpct_block_laws :: ConsensusLaws HeaderAndShortIds;
  get_block_txn_laws :: ConsensusLaws BlockTransactionsRequest;
  block_txn_laws :: ConsensusLaws BlockTransactions;
  get_cfilters_laws :: ConsensusLaws GetCFilters;
  cfilter_laws :: ConsensusLaws CFilter;
  get_cfheaders_laws :: ConsensusLaws GetCFHeaders;
  cfheaders_laws :: ConsensusLaws CFHeaders;
  get_cfcheckpt_laws :: ConsensusLaws GetCFCheckpt;
  cfcheckpt_laws :: ConsensusLaws CFCheckpt;
  varint_laws :: ConsensusLaws VarInt;
  varint_partial_laws :: PartialLaws VarInt;
  header_laws :: ConsensusLaws Header;
  header_partial_laws :: PartialLaws Header;
  block_laws :: ConsensusLaws Block;
  transaction_laws :: ConsensusLaws Transaction;
  header_size (h : Header) : encodable h -> zlen (serialize h) = 80;
  transaction_size (t : Transaction) : encodable t -> 10 <= zlen (serialize t);
  no_inputs_marked (t : Transaction) :
    encodable t -> zat (serialize t) 4 = 0 -> zat (serialize t) 5 = 1;
  block_layout (b : Block) : encodable b ->
    exists n : VarInt, encodable n /\ varint_value n = zlen (txdata b) /\
      encodable (blk_header b) /\ Forall encodable (txdata b) /\
      serialize b = serialize (blk_header b) ++ serialize n ++ concat (map serialize (txdata b));
}.

Definition known_commands : list string :=
  ["version"; "verack"; "getaddr"; "sendaddrv2"; "sendheaders"; "wtxidrelay"; "sendtxrcncl"; "mempool";
   "addr"; "addrv2"; "ping"; "pong"; "getheaders"; "getblocks"; "headers"; "inv"; "getdata"; "notfound";
   "block"; "merkleblock"; "tx"; "filterload"; "filteradd"; "filterclear"; "feefilter"; "sendcmpct";
   "cmpctblock"; "getblocktxn"; "blocktxn"; "getcfilters"; "cfilter"; "getcfheaders"; "cfheaders";
   "getcfcheckpt"; "cfcheckpt"]%string.

(** *** Well-formed messages: fields within their types, lists within the
    limits the decoder enforces. *)

Definition kind_ok (k : InventoryType) : Prop :=
  match k with
  | InvUnknown v => in_u 32 v /\ from_u32 v = InvUnknown v
  | _ => True
  end.
Definition inventory_ok (i : Inventory) : Prop := kind_ok (kind i) /\ zlen (inv_hash i) = 32.
Definition addr_ok (a : NetworkAddress) : Prop :=
  in_u 32 (na_time a) /\ in_u 64 (na_services a) /\ zlen (na_address a) = 16 /\ in_u 16 (na_port a).
Definition addr_v2_ok (a : NetworkAddressV2) : Prop :=
  in_u 32 (na2_time a) /\ in_u 64 (na2_services a) /\ zlen (na2_address a) <= 512 /\ in_u 16 (na2_port a).
Definition version_ok (v : VersionMessage) : Prop :=
  in_i 32 (vm_version v) /\ in_u 64 (vm_services v) /\ in_i 64 (vm_timestamp v) /\
  in_u 64 (receiver_services v) /\ zlen (receiver_address v) = 16 /\ in_u 16 (receiver_port v) /\
  in_u 64 (sender_services v) /\ zlen (sender_address v) = 16 /\ in_u 16 (sender_port v) /\
  in_u 64 (vm_nonce v) /\ zlen (user_agent v) <= 256 /\ utf8_valid (user_agent v) = true /\
  in_i 32 (start_height v).
Definition getheaders_ok (m : GetHeadersMessage) : Prop :=
  in_i 32 (gh_version m) /\ zlen (locator_hashes m) <= 101 /\
  Forall (fun h => zlen h = 32) (locator_hashes m) /\ zlen (stop_hash m) = 32.

Section RoundTrip.
Context {WT : WireTypes} {WL : WireLaws WT}.

Definition message_ok (m : Message) : Prop :=
  match m with
  | Version v => version_ok v
  | Verack | GetAddr | SendAddrV2 | SendHeaders | WtxidRelay | FilterClear | Mempool => True
  | Addr l => zlen l <= 1000 /\ Forall addr_ok l
  | AddrV2 l => zlen l <= 1000 /\ Forall addr_v2_ok l
  | SendTxRcncl m => in_u 32 (rcncl_version m) /\ in_u 64 (salt m)
  | Ping n | Pong n => in_u 64 n
  | GetHeaders m | GetBlocks m => getheaders_ok m
  | Headers l => zlen l <= 2000 /\ Forall encodable l
  | Inv l | GetData l | NotFound l => zlen l <= 50000 /\ Forall inventory_ok l
  | MBlock b => encodable b /\ zlen (txdata b) <= 1000000
  | MMerkleBlock x => encodable x
  | MTransaction x => encodable x
  | MFilterLoad x => encodable x
  | MFilterAdd x => encodable x
  | FeeFilter r => in_i 64 r
  | SendCmpct _ v => in_u 64 v
  | CompactBlock x => encodable x
  | GetBlockTxn x => encodable x
  | BlockTxn x => encodable x
  | MGetCFilters x => encodable x
  | MCFilter x => encodable x
  | MGetCFHeaders x => encodable x
  | MCFHeaders x => encodable x
  | MGetCFCheckpt x => encodable x
  | MCFCheckpt x => encodable x
  | Unknown c p => c ∉ map str known_commands \/ (c = str "pong" /\ zlen p ≠ 0 /\ zlen p ≠ 8)
  end.

Lemma reads_nil_r {A} (p : reader A) b x : reads p (b ++ []) x -> reads p b x.
Proof. by rewrite app_nil_r. Qed.

(** Read the fields of a record one after the other. *)
Ltac reads_fields :=
  apply reads_nil_r; rewrite <- ?app_assoc;
  repeat (eapply reads_bind; [solve [eauto with reads | apply reads_array; done]|]);
  try apply reads_ret.

Lemma inventory_kind k : kind_ok k -> from_u32 (as_u32 k) = k /\ in_u 32 (as_u32 k).
Proof. destruct k; simpl; intros H; try (split; [reflexivity|unfold in_u; lia]). tauto. Qed.

Lemma inventory_item_reads i : inventory_ok i -> reads inventory_item (encode_inventory_item i) i.
Proof.
  destruct i as [k h]. intros [Hk Hh]. cbn [kind inv_hash] in *. destruct (inventory_kind k Hk) as [Ek Hu].
  unfold inventory_item, encode_inventory_item. cbn [kind inv_hash]. reads_fields. rewrite Ek. apply reads_ret.
Qed.

Lemma addr_item_reads a : addr_ok a -> reads addr_item (encode_addr a) a.
Proof.
  destruct a. intros (? & ? & ? & ?). cbn [na_time na_services na_address na_port] in *.
  unfold addr_item, encode_addr. cbn [na_time na_services na_address na_port]. reads_fields.
Qed.

(** The byte-length checks before a list is allocated hold when the list is
    there: every item takes at least [size] bytes. *)
Lemma concat_size {A} (enc : A -> bytes) size (P : A -> Prop) l :
  (forall x, P x -> size <= zlen (enc x)) -> Forall P l -> size * zlen l <= zlen (concat (map enc l)).
Proof.
  intros Hs. induction 1 as [|x l Hx Hl IH]; [cbn [map concat]; zlen; lia|]. cbn [map concat]. zlen. specialize (Hs x Hx). lia.
Qed.

Lemma reads_list {A} (item : reader A) (enc : A -> bytes) (P : A -> Prop) size limit e1 e2 l :
  0 < size -> limit <= 1000000 ->
  (forall x, P x -> size <= zlen (enc x)) -> (forall x, P x -> reads item (enc x) x) ->
  zlen l <= limit -> Forall P l ->
  reads (count ← (n ← compact_size; bounded_count n);
         _ ← fail_if (limit <? count) e1;
         avail ← remaining;
         _ ← fail_if (avail / size <? count) e2;
         read_items (Z.to_nat count) item)
    (put_compact_size (zlen l) ++ concat (map enc l)) l.
Proof.
  intros Hs Hlim Hsize Hitem Hlen Hl. pose proof (zlen_nonneg l).
  eapply reads_bind; [apply reads_count; lia|]. cbv beta.
  apply reads_check; [apply Z.ltb_ge; lia|]. apply reads_remaining. intros n Hn.
  pose proof (concat_size enc size P l Hsize Hl).
  apply reads_check; [apply Z.ltb_ge, Z.div_le_lower_bound; lia|].
  unfold zlen. rewrite Nat2Z.id. apply reads_items.
  eapply Forall_impl; [exact Hl|]. exact Hitem.
Qed.

Lemma inventory_reads l b :
  zlen l <= 50000 -> Forall inventory_ok l -> encode_inventory l = Ok b -> reads decode_inventory b l.
Proof.
  intros Hlen Hl Hb. unfold encode_inventory, MAX_INVENTORY_ITEMS in Hb. res_inv.
  apply (reads_list inventory_item encode_inventory_item inventory_ok); try done.
  - intros x [_ Hx]. unfold encode_inventory_item. zlen. unfold INVENTORY_ITEM_SIZE. lia.
  - apply inventory_item_reads.
Qed.

Lemma addr_reads l : zlen l <= 1000 -> Forall addr_ok l ->
  reads decode_addr (put_compact_size (zlen l) ++ concat (map encode_addr l)) l.
Proof.
  apply reads_list; try done; [|apply addr_item_reads].
  intros x (_ & _ & Hx & _). unfold encode_addr. zlen. unfold ADDR_ITEM_SIZE. lia.
Qed.

Definition encode_addr_v2 (a : NetworkAddressV2) : bytes :=
  put_u32 (na2_time a) ++ put_compact_size_u64 (na2_services a) ++ [na2_network a] ++
  put_compact_size (zlen (na2_address a)) ++ na2_address a ++ to_be 2 (na2_port a).

Lemma encode_addr_v2_entries_ok l : Forall addr_v2_ok l ->
  encode_addr_v2_entries l = Ok (concat (map encode_addr_v2 l)).
Proof.
  induction 1 as [|a l (_ & _ & Ha & _) Hl IH]; [done|]. cbn [encode_addr_v2_entries map concat].
  btrue (zlen (na2_address a) <=? 512). rewrite IH. cbn [rbind]. unfold encode_addr_v2.
  by rewrite <- !app_assoc.
Qed.

Lemma put_compact_size_nonempty v : 1 <= zlen (put_compact_size_u64 v).
Proof.
  unfold put_compact_size_u64. repeat case_match; zlen; lia.
Qed.

Lemma addr_v2_item_reads a : addr_v2_ok a -> reads addr_v2_item (encode_addr_v2 a) a.
Proof.
  destruct a as [t s n b p]. intros (? & ? & Hb & ?). unfold addr_v2_item, encode_addr_v2.
  cbn [na2_time na2_services na2_network na2_address na2_port] in *. pose proof (zlen_nonneg b).
  assert (reads compact_size (put_compact_size (zlen b)) (zlen b)).
  { apply reads_compact_size. unfold in_u. lia. }
  reads_fields. unfold umax. do 2 (apply reads_check; [apply Z.ltb_ge; lia|]).
  eapply reads_bind; [by apply reads_bytes|]. reads_fields.
Qed.

Lemma addr_v2_reads l : zlen l <= 1000 -> Forall addr_v2_ok l ->
  reads decode_addr_v2 (put_compact_size (zlen l) ++ concat (map encode_addr_v2 l)) l.
Proof.
  apply reads_list; try done; [|apply addr_v2_item_reads].
  intros x _. unfold encode_addr_v2, put_compact_size. zlen. unfold ADDRV2_MIN_ITEM_SIZE.
  pose proof (put_compact_size_nonempty (na2_services x)). pose proof (zlen_nonneg (na2_address x)).
  pose proof (put_compact_size_nonempty (zlen (na2_address x))). lia.
Qed.

(** A field that may be missing at the end of the payload is there when
    bytes are left. *)
Lemma reads_present {B} (k : Z -> reader B) b y :
  1 <= zlen b -> (forall n, (n =? 0) = false -> reads (k n) b y) -> reads (n ← remaining; k n) b y.
Proof. intros Hb Hk. apply reads_remaining. intros n Hn. apply Hk, Z.eqb_neq. lia. Qed.

Lemma agent_reads b : zlen b <= 256 -> utf8_valid b = true ->
  reads (length ← compact_size;
         _ ← fail_if (umax 64 <? length) (Payload "user agent length is out of range");
         _ ← fail_if (MAX_USER_AGENT_LENGTH <? length) (Payload "user agent exceeds Core's 256-byte limit");
         b ← read_bytes length;
         _ ← fail_if (negb (utf8_valid b)) (Payload "user agent is not UTF-8");
         mret b) (put_compact_size (zlen b) ++ b) b.
Proof.
  intros Hb Hu. pose proof (zlen_nonneg b). unfold MAX_USER_AGENT_LENGTH, umax.
  eapply reads_bind; [apply reads_compact_size; unfold in_u; lia|]. cbv beta.
  do 2 (apply reads_check; [apply Z.ltb_ge; lia|]).
  apply reads_nil_r. eapply reads_bind; [by apply reads_bytes|]. cbv beta.
  apply reads_check; [by rewrite Hu|]. apply reads_ret.
Qed.

Lemma sender_reads s a p n : in_u 64 s -> zlen a = 16 -> in_u 16 p -> in_u 64 n ->
  reads (s ← u64_le; a ← array 16; p ← u16_be; nonce ← u64_le; mret (s, a, p, nonce))
    (put_u64 s ++ a ++ to_be 2 p ++ put_u64 n) (s, a, p, n).
Proof. intros. reads_fields. Qed.

Lemma version_reads v b : version_ok v -> encode_version v = Ok b -> reads decode_version b v.
Proof.
  destruct v as [? ? ? ? ? ? ss sa sp n agent h relay].
  intros (? & ? & ? & ? & ? & ? & Hss & Hsa & Hsp & Hn & Ha & Hu & Hh) Hb. unfold encode_version, decode_version in *.
  cbn [vm_version vm_services vm_timestamp receiver_services receiver_address receiver_port sender_services
    sender_address sender_port vm_nonce user_agent start_height vm_relay] in *. res_inv.
  apply reads_nil_r. rewrite <- ?app_assoc. pose proof (zlen_nonneg agent).
  repeat (eapply reads_bind; [solve [eauto with reads | apply reads_array; done]|]).
  apply reads_present; [zlen; pose proof (zlen_nonneg (put_compact_size (zlen agent))); lia|].
  intros n1 ->. cbn [negb].
  rewrite (app_assoc (to_be 2 sp)), (app_assoc sa), (app_assoc (put_u64 ss)).
  eapply reads_bind; [by apply sender_reads|]. cbv beta iota.
  apply reads_present; [zlen; pose proof (zlen_nonneg (put_compact_size (zlen agent))); lia|].
  intros n2 ->. cbn [negb].
  rewrite (app_assoc _ agent). eapply reads_bind; [by apply agent_reads|]. cbv beta.
  apply reads_present; [zlen; lia|]. intros n3 ->. cbn [negb].
  eapply reads_bind; [by apply reads_i32_le|]. cbv beta.
  apply reads_present; [zlen; lia|]. intros n4 ->.
  eapply reads_bind; [apply (reads_bind_ret u8), reads_u8|]. by destruct relay; apply reads_ret.
Qed.

Lemma locator_size (l : list bytes) : Forall (fun h => zlen h = 32) l -> zlen (concat l) = 32 * zlen l.
Proof. induction 1 as [|h l Hh Hl IH]; [done|]. cbn [concat]. zlen. lia. Qed.

Lemma getheaders_reads m : getheaders_ok m -> reads decode_getheaders (encode_getheaders m) m.
Proof.
  destruct m as [v l stop]. intros (Hv & Hn & Hl & Hs). unfold decode_getheaders, encode_getheaders.
  cbn [gh_version locator_hashes stop_hash] in *. pose proof (zlen_nonneg l).
  eapply reads_bind; [by apply reads_i32_le|]. eapply reads_bind; [apply reads_count; lia|]. cbv beta.
  unfold MAX_LOCATOR_HASHES. apply reads_check; [apply Z.ltb_ge; lia|].
  apply reads_remaining. intros n Hlen. rewrite zlen_app, locator_size, Hs in Hlen by done.
  apply reads_check; [unfold sat_sub; apply Z.ltb_ge, Z.div_le_lower_bound; lia|].
  rewrite <- (map_id l) at 2. eapply reads_bind; [unfold zlen; rewrite Nat2Z.id; apply (reads_items _ id)|].
  - eapply Forall_impl; [exact Hl|]. intros h Hh. by apply reads_array.
  - apply reads_nil_r. eapply reads_bind; [by apply reads_array|]. apply reads_ret.
Qed.

Lemma header_item_reads h : encodable h -> reads header_item (encode_header_item h) h.
Proof.
  intros Hh. unfold header_item, encode_header_item.
  eapply reads_bind; [apply reads_bytes; symmetry; by apply header_size|]. cbv beta.
  assert (forall rest, deserialize_r (serialize h) rest = Ok (h, rest)) as E.
  { intros rest. unfold deserialize_r. by rewrite deserialize_serialize. }
  intros rest. unfold mbind at 1, reader_bind at 1. rewrite E.
  exact (reads_bind compact_size (fun _ => mret h) [0] [] 0 h
    (reads_compact_size 0 ltac:(unfold in_u; lia)) (reads_ret h) rest).
Qed.

Lemma headers_reads l : zlen l <= 2000 -> Forall encodable l ->
  reads decode_headers (put_compact_size (zlen l) ++ concat (map encode_header_item l)) l.
Proof.
  apply reads_list; try done; [|apply header_item_reads].
  intros x Hx. unfold encode_header_item. zlen. rewrite header_size by done. unfold HEADER_ITEM_MIN_SIZE. lia.
Qed.

Lemma transaction_roundtrip t : encodable t -> decode_transaction_core_compatible (serialize t) = Ok t.
Proof.
  intros Ht. unfold decode_transaction_core_compatible.
  destruct (_ && _) eqn:E; [|by rewrite deserialize_serialize]. bool_to_prop.
  assert (zat (serialize t) 5 = 1) by (by apply no_inputs_marked). lia.
Qed.

Lemma block_roundtrip b : encodable b -> zlen (txdata b) <= 1000000 ->
  decode_block_core_compatible (serialize b) = Ok b.
Proof.
  intros Hb Hn. destruct (block_layout b Hb) as (n & Hen & Hvn & Hh & Htxs & Hl).
  unfold decode_block_core_compatible, partial. rewrite Hl at 1.
  rewrite deserialize_partial_serialize by done. cbn [map_err rbind]. rewrite Hl at 1.
  rewrite zdrop_app_eq by done. rewrite deserialize_partial_serialize by done. cbn [map_err rbind].
  pose proof (zlen_nonneg (txdata b)). rewrite Hvn.
  unfold try_u, umax, MAX_BLOCK_TRANSACTIONS. btrue ((0 <=? zlen (txdata b)) && (zlen (txdata b) <=? 2 ^ 64 - 1)).
  cbn [ok_or rbind]. btrue (zlen (txdata b) <=? 1000000).
  pose proof (concat_size serialize 10 encodable (txdata b) transaction_size Htxs).
  assert (10 * zlen (txdata b) <= sat_sub (zlen (serialize b))
    (sat_add 64 (zlen (serialize (blk_header b))) (zlen (serialize n)))).
  { rewrite Hl. zlen. unfold sat_sub, sat_add. lia. }
  rewrite (proj2 (Z.leb_le _ _)); [by rewrite deserialize_serialize|].
  unfold MIN_SERIALIZED_EMPTY_TRANSACTION_SIZE. apply Z.div_le_lower_bound; lia.
Qed.

Lemma decode_payload_reads c p m : reads (decode_body c p) p m -> decode_payload c p = Ok m.
Proof.
  intros H. specialize (H []). rewrite app_nil_r in H. unfold decode_payload. by rewrite H.
Qed.

Lemma decode_payload_whole {A} (f : A -> Message) c p d x :
  (forall r, decode_body c p r = whole f d r) -> d = Ok x -> may_leave_bytes (f x) = true ->
  decode_payload c p = Ok (f x).
Proof.
  intros Hb Hd Hm. unfold decode_payload. rewrite Hb. unfold whole. rewrite Hd. cbn [rbind].
  by rewrite Hm, andb_false_r.
Qed.

Lemma decode_payload_consensus {A} `{ConsensusLaws A} (f : A -> Message) c (x : A) :
  (forall r, decode_body c (serialize x) r = consensus f (serialize x) r) -> encodable x ->
  may_leave_bytes (f x) = true -> decode_payload c (serialize x) = Ok (f x).
Proof.
  intros Hb Hx. eapply decode_payload_whole; [exact Hb|]. by rewrite deserialize_serialize.
Qed.

Lemma named_unknown c name : c ∉ map str known_commands -> name ∈ known_commands -> named c name = false.
Proof.
  intros Hc Hn. unfold named. apply bool_decide_eq_false. intros ->. apply Hc.
  apply list_elem_of_In, in_map, list_elem_of_In, Hn.
Qed.

Lemma decode_payload_unknown c p : c ∉ map str known_commands -> decode_payload c p = Ok (Unknown c p).
Proof.
  intros Hc. eapply (decode_payload_whole (Unknown c) c p (Ok p)); [|done|done].
  intros r. unfold decode_body.
  repeat (rewrite (named_unknown c) by first [exact Hc | apply list_elem_of_In; simpl; tauto]). done.
Qed.

Lemma decode_payload_pong p : zlen p ≠ 0 -> zlen p ≠ 8 ->
  decode_payload (str "pong") p = Ok (Unknown (str "pong") p).
Proof.
  intros H0 H8. unfold decode_payload.
  change (decode_body (str "pong") p p) with
    ((if zlen p =? 0 then mret (Pong 0)
      else if zlen p =? 8 then nonce ← u64_le; mret (Pong nonce)
      else b ← read_bytes (zlen p); mret (Unknown (str "pong") b)) p).
  bfalse (zlen p =? 0). bfalse (zlen p =? 8).
  replace ((b ← read_bytes (zlen p); mret (Unknown (str "pong") b)) p)
    with ((b ← read_bytes (zlen p); mret (Unknown (str "pong") b)) (p ++ [])) by (by rewrite app_nil_r).
  by rewrite (reads_bind_ret _ (Unknown (str "pong")) p p (reads_bytes p _ eq_refl)).
Qed.

Lemma ping_reads n : in_u 64 n ->
  reads (k ← remaining; nonce ← (if k =? 0 then mret 0 else u64_le); mret (Ping nonce)) (put_u64 n) (Ping n).
Proof.
  intros Hn. apply reads_present; [zlen; lia|]. intros k ->. by apply (reads_bind_ret u64_le), reads_u64_le.
Qed.

Lemma pong_decodes n : in_u 64 n -> decode_payload (str "pong") (put_u64 n) = Ok (Pong n).
Proof.
  intros Hn. unfold decode_payload.
  change (decode_body (str "pong") (put_u64 n) (put_u64 n)) with
    ((nonce ← u64_le; mret (Pong nonce)) (put_u64 n)).
  rewrite <- (app_nil_r (put_u64 n)) at 1.
  by rewrite (reads_bind_ret _ Pong _ _ (reads_u64_le n Hn)).
Qed.

(** Every well-formed message survives the encoding of its payload; first
    the messages whose decoder goes through the reader. *)
Lemma reader_payload (dec : reader Message) c p m :
  (forall r, decode_body c p r = dec r) -> reads dec p m -> decode_payload c p = Ok m.
Proof.
  intros Hd Hr. apply decode_payload_reads. intros rest. rewrite Hd. apply Hr.
Qed.

Lemma encode_version_total v : version_ok v -> exists b, encode_version v = Ok b.
Proof.
  unfold encode_version, MAX_USER_AGENT_LENGTH. intros (_ & _ & _ & _ & _ & _ & _ & _ & _ & _ & Ha & _).
  btrue (zlen (user_agent v) <=? 256). eauto.
Qed.

Lemma encode_inventory_total l : zlen l <= 50000 -> exists b, encode_inventory l = Ok b.
Proof. intros H. unfold encode_inventory, MAX_INVENTORY_ITEMS. btrue (zlen l <=? 50000). eauto. Qed.

Lemma rcncl_reads m : in_u 32 (rcncl_version m) -> in_u 64 (salt m) ->
  reads (v ← u32_le; s ← u64_le; mret (SendTxRcncl {| rcncl_version := v; salt := s |}))
    (put_u32 (rcncl_version m) ++ put_u64 (salt m)) (SendTxRcncl m).
Proof. destruct m. cbn [rcncl_version salt]. intros. reads_fields. Qed.

Lemma sendcmpct_reads (a : bool) v : in_u 64 v ->
  reads (a ← u8; v ← u64_le; mret (SendCmpct (negb (a =? 0)) v))
    ((if a then 1 else 0) :: put_u64 v) (SendCmpct a v).
Proof.
  intros Hv. apply reads_nil_r. eapply (reads_bind _ _ [if a then 1 else 0]); [apply reads_u8|].
  eapply reads_bind; [by apply reads_u64_le|]. destruct a; apply reads_ret.
Qed.

Lemma payload_roundtrip m : message_ok m ->
  exists payload, encode_payload m = Ok payload /\ decode_payload (command m) payload = Ok m.
Proof.
  destruct m; cbn [message_ok command encode_payload]; intros Hm;
    try (eexists; split; [reflexivity|]; reflexivity);
    try (eexists; split; [reflexivity|]; apply decode_payload_consensus; [reflexivity|exact Hm|reflexivity]);
    try (destruct Hm as [Hn Hl]; destruct (encode_inventory_total _ Hn) as [b Hb]; exists b; split; [exact Hb|];
         eapply reader_payload; [reflexivity|]; by apply reads_bind_ret, inventory_reads);
    try (eexists; split; [reflexivity|]; eapply reader_payload; [reflexivity|];
         by apply reads_bind_ret, getheaders_reads).
  - destruct (encode_version_total m Hm) as [b Hb]. exists b. split; [exact Hb|].
    eapply reader_payload; [reflexivity|]. by apply reads_bind_ret, version_reads.
  - destruct Hm as [Hn Hl]. btrue (zlen entries <=? 1000). eexists. split; [reflexivity|].
    eapply reader_payload; [reflexivity|]. by apply reads_bind_ret, addr_reads.
  - destruct Hm as [Hn Hl]. btrue (zlen entries <=? 1000). rewrite encode_addr_v2_entries_ok by done.
    eexists. split; [reflexivity|]. eapply reader_payload; [reflexivity|]. by apply reads_bind_ret, addr_v2_reads.
  - eexists. split; [reflexivity|]. eapply reader_payload; [reflexivity|]. destruct Hm. by apply rcncl_reads.
  - eexists. split; [reflexivity|]. eapply reader_payload; [reflexivity|]. by apply ping_reads.
  - eexists. split; [reflexivity|]. by apply pong_decodes.
  - destruct Hm as [Hn Hl]. eexists. split; [reflexivity|]. eapply reader_payload; [reflexivity|].
    by apply reads_bind_ret, headers_reads.
  - destruct Hm as [Hb Hn]. eexists. split; [reflexivity|].
    eapply decode_payload_whole; [reflexivity|by apply block_roundtrip|done].
  - eexists. split; [reflexivity|]. eapply decode_payload_whole; [reflexivity|by apply transaction_roundtrip|done].
  - eexists. split; [reflexivity|]. eapply reader_payload; [reflexivity|]. by apply reads_bind_ret, reads_i64_le.
  - eexists. split; [reflexivity|]. eapply reader_payload; [reflexivity|]. by apply sendcmpct_reads.
  - eexists. split; [reflexivity|]. destruct Hm as [Hc|(-> & H0 & H8)]; [by apply decode_payload_unknown|].
    by apply decode_payload_pong.
Qed.
End RoundTrip.

(** ** Limits on what is decoded *)

Section Limits.
Context {WT : WireTypes}.

Definition within_limits (m : Message) : Prop :=
  match m with
  | Version v => zlen (user_agent v) <= MAX_USER_AGENT_LENGTH /\ utf8_valid (user_agent v) = true
  | Addr l => zlen l <= 1000
  | AddrV2 l => zlen l <= 1000 /\ Forall (fun a => zlen (na2_address a) <= 512) l
  | GetHeaders r | GetBlocks r => zlen (locator_hashes r) <= MAX_LOCATOR_HASHES
  | Headers l => zlen l <= 2000
  | Inv l | GetData l | NotFound l => zlen l <= MAX_INVENTORY_ITEMS
  | _ => True
  end.

Lemma fail_if_inv {B} bad e (k : reader B) r y rest :
  (_ ← fail_if bad e; k) r = Ok (y, rest) -> bad = false /\ k r = Ok (y, rest).
Proof. unfold mbind, reader_bind, fail_if. by destruct bad. Qed.

Lemma read_items_inv {A} (item : reader A) (P : A -> Prop) :
  (forall r x rest, item r = Ok (x, rest) -> P x) ->
  forall n r l rest, read_items n item r = Ok (l, rest) -> length l = n /\ Forall P l.
Proof.
  intros HP n. induction n as [|n IH]; intros r l rest E; cbn [read_items] in E.
  - apply Ok_inj in E. injection E as <- _. by split.
  - apply reader_bind_inv in E as (x & r1 & Hx & E). apply reader_bind_inv in E as (l' & r2 & Hl & E).
    apply Ok_inj in E. injection E as <- _. apply IH in Hl as [Hn Hl]. simpl. split; [by f_equal|].
    constructor; eauto.
Qed.

(** The common shape of the list decoders. *)
Lemma read_list_inv {A} (item : reader A) (P : A -> Prop) size limit e1 e2 r l rest :
  (forall r x rest, item r = Ok (x, rest) -> P x) -> 0 <= limit ->
  (count ← (n ← compact_size; bounded_count n);
   _ ← fail_if (limit <? count) e1;
   avail ← remaining;
   _ ← fail_if (avail / size <? count) e2;
   read_items (Z.to_nat count) item) r = Ok (l, rest) ->
  zlen l <= limit /\ Forall P l.
Proof.
  intros HP Hlim E. apply reader_bind_inv in E as (count & r1 & _ & E).
  apply fail_if_inv in E as [Hc E]. apply Z.ltb_ge in Hc.
  apply reader_bind_inv in E as (avail & r2 & _ & E). apply fail_if_inv in E as [_ E].
  apply (read_items_inv item P HP) in E as [Hn Hl]. split; [unfold zlen; lia|done].
Qed.

Lemma read_bytes_limit n r b rest : read_bytes n r = Ok (b, rest) -> zlen b <= Z.max 0 n.
Proof.
  unfold read_bytes. destruct (zlen r <? n); [done|]. intros E. apply Ok_inj in E. injection E as <- _.
  unfold ztake, zlen. rewrite length_take. lia.
Qed.

Lemma addr_v2_item_limit r a rest : addr_v2_item r = Ok (a, rest) -> zlen (na2_address a) <= 512.
Proof.
  intros E. do 3 (apply reader_bind_inv in E as (? & ? & _ & E)).
  apply reader_bind_inv in E as (len & ? & Hlen & E). do 2 (apply fail_if_inv in E as [? E]).
  apply reader_bind_inv in E as (b & ? & Hb & E). apply reader_bind_inv in E as (? & ? & _ & E).
  apply Ok_inj in E. injection E as <- _. cbn [na2_address]. apply Z.ltb_ge in H0.
  apply read_bytes_limit in Hb. lia.
Qed.

Lemma getheaders_limit r m rest : decode_getheaders r = Ok (m, rest) -> zlen (locator_hashes m) <= MAX_LOCATOR_HASHES.
Proof.
  intros E. apply reader_bind_inv in E as (? & ? & _ & E). apply reader_bind_inv in E as (count & ? & _ & E).
  apply fail_if_inv in E as [Hc E]. apply Z.ltb_ge in Hc. apply reader_bind_inv in E as (? & ? & _ & E).
  apply fail_if_inv in E as [_ E]. apply reader_bind_inv in E as (l & ? & Hl & E).
  apply reader_bind_inv in E as (? & ? & _ & E). apply Ok_inj in E. injection E as <- _. cbn [locator_hashes].
  apply (read_items_inv _ (fun _ => True)) in Hl as [Hl _]; [|done]. unfold zlen, MAX_LOCATOR_HASHES in *. lia.
Qed.

Lemma version_limit r v rest : decode_version r = Ok (v, rest) ->
  zlen (user_agent v) <= MAX_USER_AGENT_LENGTH /\ utf8_valid (user_agent v) = true.
Proof.
  intros E. do 9 (apply reader_bind_inv in E as (? & ? & _ & E)).
  apply reader_bind_inv in E as (agent & ? & Ha & E). do 4 (apply reader_bind_inv in E as (? & ? & _ & E)).
  match type of E with (let '(_, _) := ?s in _) _ = _ => destruct s as [[[? ?] ?] ?] end.
  apply Ok_inj in E. injection E as <- _. cbn [user_agent].
  destruct (negb _) in Ha; [|apply Ok_inj in Ha; by injection Ha as <- _].
  apply reader_bind_inv in Ha as (len & ? & _ & Ha). do 2 (apply fail_if_inv in Ha as [? Ha]).
  apply reader_bind_inv in Ha as (b & ? & Hb & Ha). apply fail_if_inv in Ha as [Hu Ha].
  apply Ok_inj in Ha. injection Ha as <- _. apply negb_false_iff in Hu. split; [|done].
  apply read_bytes_limit in Hb. bool_to_prop. unfold MAX_USER_AGENT_LENGTH in *. lia.
Qed.

(** What holds of every value a reader returns. *)
Definition returns {A} (p : reader A) (P : A -> Prop) : Prop :=
  forall r x rest, p r = Ok (x, rest) -> P x.

Lemma returns_bind {A B} (p : reader A) (k : A -> reader B) (P : A -> Prop) (Q : B -> Prop) :
  returns p P -> (forall x, P x -> returns (k x) Q) -> returns (p ≫= k) Q.
Proof. intros Hp Hk r y rest E. apply reader_bind_inv in E as (x & r' & Hx & E). eapply Hk; eauto. Qed.
Lemma returns_ret {A} (x : A) (P : A -> Prop) : P x -> returns (mret x) P.
Proof. intros Hx r y rest E. apply Ok_inj in E. by injection E as <- _. Qed.
Lemma returns_any {A} (p : reader A) : returns p (fun _ => True).
Proof. done. Qed.
Lemma returns_whole {A} (f : A -> Message) d (P : Message -> Prop) :
  (forall x, P (f x)) -> returns (whole f d) P.
Proof. intros Hf r y rest. unfold whole. destruct d; [|done]. intros E. apply Ok_inj in E. by injection E as <- _. Qed.

Lemma returns_list {A} (item : reader A) size limit e1 e2 : 0 <= limit ->
  returns (count ← (n ← compact_size; bounded_count n);
           _ ← fail_if (limit <? count) e1;
           avail ← remaining;
           _ ← fail_if (avail / size <? count) e2;
           read_items (Z.to_nat count) item) (fun l => zlen l <= limit).
Proof.
  intros Hlim r l rest E. by apply (read_list_inv item (fun _ => True)) in E as [? _].
Qed.

Lemma addr_v2_limit : returns decode_addr_v2 (fun l => zlen l <= 1000 /\ Forall (fun a => zlen (na2_address a) <= 512) l).
Proof. intros r l rest. apply read_list_inv; [apply addr_v2_item_limit|done]. Qed.

Lemma decode_body_limits c p : returns (decode_body c p) within_limits.
Proof.
  unfold decode_body, consensus.
  repeat case_match; try (apply returns_ret; exact I); try (by apply returns_whole);
    try (eapply returns_bind; [first [exact version_limit | exact getheaders_limit | exact addr_v2_limit
           | by apply returns_list | apply returns_any]|]; intros; cbn beta in *);
    repeat case_match; repeat (eapply returns_bind; [apply returns_any|]; intros);
    apply returns_ret; done.
Qed.

Lemma addr_v2_entries_total l : Forall (fun a => zlen (na2_address a) <= 512) l ->
  exists b, encode_addr_v2_entries l = Ok b.
Proof.
  induction 1 as [|a l Ha _ [b IH]]; [by eexists|]. cbn [encode_addr_v2_entries].
  btrue (zlen (na2_address a) <=? 512). rewrite IH. by eexists.
Qed.

Lemma encode_within_limits m : within_limits m -> exists b, encode_payload m = Ok b.
Proof.
  unfold within_limits, MAX_INVENTORY_ITEMS, MAX_USER_AGENT_LENGTH. intros Hm.
  destruct m; cbn [encode_payload]; try by eexists.
  - unfold encode_version, MAX_USER_AGENT_LENGTH. btrue (zlen (user_agent m) <=? 256). by eexists.
  - btrue (zlen entries <=? 1000). by eexists.
  - destruct Hm as [Hn Hl]. btrue (zlen entries <=? 1000).
    destruct (addr_v2_entries_total entries Hl) as [b ->]. by eexists.
  - by apply encode_inventory_total.
  - by apply encode_inventory_total.
  - by apply encode_inventory_total.
Qed.

(** C30: whatever bytes a peer sends as a payload, a message that is decoded
    from them respects the protocol limits (1,000 addresses, 2,000 headers,
    50,000 inventory items, 101 locator hashes, a user agent of at most 256
    bytes of UTF-8, 512 bytes per address), and can be encoded again. *)
Theorem decoded_message_bounded c p m :
  decode_payload c p = Ok m -> within_limits m /\ exists b, encode_payload m = Ok b.
Proof.
  unfold decode_payload. intros E. apply rbind_Ok in E as ([m' rest] & Hm & E). res_inv.
  apply decode_body_limits in Hm. split; [done|]. by apply encode_within_limits.
Qed.
End Limits.

(** ** A concrete instance

    The opaque bodies are byte strings, headers and CompactSizes have their
    consensus encoding, and one transaction stands for all of them. *)

Definition raw_codec : Consensus bytes :=
  {| serialize := id; deserialize := Ok; deserialize_partial b := Ok (b, zlen b) |}.

Definition header_bytes (h : Header) : bytes :=
  to_le 4 (hd_version h) ++ prev_blockhash h ++ merkle_root h ++
  to_le 4 (hd_time h) ++ to_le 4 (hd_bits h) ++ to_le 4 (hd_nonce h).
Definition header_of (b : bytes) : result string Header :=
  if zlen b =? 80 then
    Ok {| hd_version := from_le (slice b 0 4); prev_blockhash := slice b 4 36; merkle_root := slice b 36 68;
          hd_time := from_le (slice b 68 72); hd_bits := from_le (slice b 72 76); hd_nonce := from_le (slice b 76 80) |}
  else Err "header length"%string.
Definition toy_header_codec : Consensus Header :=
  {| serialize := header_bytes; deserialize := header_of;
     deserialize_partial b := let? h := header_of (ztake 80 b) in Ok (h, 80) |}.
Definition toy_varint_codec : Consensus Z :=
  {| serialize := put_compact_size_u64;
     deserialize b := match compact_size b with Ok (v, []) => Ok v | _ => Err "varint"%string end;
     deserialize_partial b :=
       match compact_size b with
       | Ok (v, rest) => Ok (v, zlen b - zlen rest)
       | Err _ => Err "varint"%string
       end |}.
Definition toy_transaction : Transaction :=
  {| tx_version := 2; tx_lock_time := 0; tx_input := []; tx_output := [] |}.
Definition toy_transaction_codec : Consensus Transaction :=
  {| serialize _ := repeat 1 10; deserialize _ := Ok toy_transaction;
     deserialize_partial _ := Ok (toy_transaction, 10) |}.
Definition toy_block_codec : Consensus Block :=
  {| serialize b := header_bytes (blk_header b) ++ put_compact_size_u64 (zlen (txdata b)) ++
       concat (map (fun _ => repeat 1 10) (txdata b));
     deserialize b :=
       let? h := header_of (ztake 80 b) in
       match compact_size (zdrop 80 b) with
       | Ok (n, _) => Ok {| blk_header := h; txdata := repeat toy_transaction (Z.to_nat n) |}
       | Err _ => Err "count"%string
       end;
     deserialize_partial _ := Err "unused"%string |}.
Definition toy_txout_codec : Consensus TxOut :=
  {| serialize _ := []; deserialize _ := Err "unused"%string; deserialize_partial _ := Err "unused"%string |}.

Definition toy_types : WireTypes := {|
  merkle_block_codec := raw_codec; filter_load_codec := raw_codec; filter_add_codec := raw_codec;
  cmpct_block_codec := raw_codec; get_block_txn_codec := raw_codec; block_txn_codec := raw_codec;
  get_cfilters_codec := raw_codec; cfilter_codec := raw_codec; get_cfheaders_codec := raw_codec;
  cfheaders_codec := raw_codec; get_cfcheckpt_codec := raw_codec; cfcheckpt_codec := raw_codec;
  varint_codec := toy_varint_codec; varint_value := id;
  header_codec := toy_header_codec; block_codec := toy_block_codec;
  transaction_codec := toy_transaction_codec; txout_codec := toy_txout_codec;
  version_partial b := Ok (from_le (ztake 4 b), 4); lock_time_partial b := Ok (from_le (ztake 4 b), 4) |}.

Definition raw_laws : @ConsensusLaws bytes raw_codec :=
  @Build_ConsensusLaws bytes raw_codec (fun _ => True) (fun _ _ => eq_refl).

Definition header_ok (h : Header) : Prop :=
  in_u 32 (hd_version h) /\ zlen (prev_blockhash h) = 32 /\ zlen (merkle_root h) = 32 /\
  in_u 32 (hd_time h) /\ in_u 32 (hd_bits h) /\ in_u 32 (hd_nonce h).

Lemma header_bytes_size h : header_ok h -> zlen (header_bytes h) = 80.
Proof. intros (_ & Hp & Hm & _). unfold header_bytes. zlen. lia. Qed.

Lemma toy_header_roundtrip h : header_ok h -> header_of (header_bytes h) = Ok h.
Proof.
  intros Hh. unfold header_of. rewrite header_bytes_size by done. cbn [Z.eqb Pos.eqb].
  destruct h as [v p m t bi n]. destruct Hh as (Hv & Hp & Hm & Ht & Hb & Hn). unfold header_bytes.
  cbn [hd_version prev_blockhash merkle_root hd_time hd_bits hd_nonce] in *.
  assert (forall (a x b : bytes) i j, i = zlen a -> j = i + zlen x -> slice (a ++ x ++ b) i j = x) as S.
  { intros a x b i j -> ->. by apply slice_app. }
  do 2 f_equal.
  - etrans; [apply f_equal, (S [] (to_le 4 v)); zlen; lia|]. by apply (from_to_le_small 4 32).
  - by rewrite (S (to_le 4 v) p _) by (zlen; lia).
  - rewrite (app_assoc (to_le 4 v)). by rewrite (S (to_le 4 v ++ p) m _) by (zlen; lia).
  - rewrite (app_assoc p), (app_assoc (to_le 4 v)).
    rewrite (S (to_le 4 v ++ p ++ m) (to_le 4 t) _) by (zlen; lia). by apply (from_to_le_small 4 32).
  - rewrite (app_assoc m), (app_assoc p), (app_assoc (to_le 4 v)).
    rewrite (S (to_le 4 v ++ p ++ m ++ to_le 4 t) (to_le 4 bi) _) by (zlen; lia). by apply (from_to_le_small 4 32).
  - rewrite (app_assoc (to_le 4 t)), (app_assoc m), (app_assoc p), (app_assoc (to_le 4 v)).
    rewrite <- (app_nil_r (to_le 4 n)).
    rewrite (S (to_le 4 v ++ p ++ m ++ to_le 4 t ++ to_le 4 bi) (to_le 4 n) []) by (zlen; lia).
    by apply (from_to_le_small 4 32).
Qed.

Definition toy_header_laws : @ConsensusLaws Header toy_header_codec :=
  @Build_ConsensusLaws Header toy_header_codec header_ok toy_header_roundtrip.

Lemma toy_header_partial h rest : header_ok h ->
  @deserialize_partial _ toy_header_codec (header_bytes h ++ rest) = Ok (h, zlen (header_bytes h)).
Proof.
  intros Hh. cbn [deserialize_partial toy_header_codec].
  rewrite ztake_app_eq by (symmetry; by apply header_bytes_size).
  rewrite toy_header_roundtrip by done. cbn [rbind]. by rewrite header_bytes_size.
Qed.

Lemma toy_varint_roundtrip v : in_u 64 v -> @deserialize _ toy_varint_codec (put_compact_size_u64 v) = Ok v.
Proof.
  intros Hv. cbn [deserialize toy_varint_codec]. rewrite <- (app_nil_r (put_compact_size_u64 v)).
  by rewrite reads_compact_size.
Qed.

Lemma toy_varint_partial v rest : in_u 64 v ->
  @deserialize_partial _ toy_varint_codec (put_compact_size_u64 v ++ rest) = Ok (v, zlen (put_compact_size_u64 v)).
Proof.
  intros Hv. cbn [deserialize_partial toy_varint_codec]. rewrite reads_compact_size by done.
  do 2 f_equal. zlen. lia.
Qed.

Definition toy_varint_laws : @ConsensusLaws Z toy_varint_codec :=
  @Build_ConsensusLaws Z toy_varint_codec (in_u 64) toy_varint_roundtrip.

Definition toy_transaction_laws : @ConsensusLaws Transaction toy_transaction_codec :=
  @Build_ConsensusLaws Transaction toy_transaction_codec (eq toy_transaction) (fun x H => f_equal Ok H).

Definition toy_block_ok (b : Block) : Prop :=
  header_ok (blk_header b) /\ zlen (txdata b) <= 1000000 /\ Forall (eq toy_transaction) (txdata b).

Lemma toy_block_roundtrip b : toy_block_ok b ->
  @deserialize _ toy_block_codec (@serialize _ toy_block_codec b) = Ok b.
Proof.
  destruct b as [h txs]. intros (Hh & Hn & Ht). cbn [blk_header txdata] in *.
  cbn [deserialize serialize toy_block_codec blk_header txdata]. pose proof (zlen_nonneg txs).
  rewrite ztake_app_eq, zdrop_app_eq by (symmetry; by apply header_bytes_size).
  rewrite toy_header_roundtrip by done. cbn [rbind].
  rewrite reads_compact_size by (unfold in_u; lia). do 2 f_equal.
  unfold zlen. rewrite Nat2Z.id. clear -Ht. induction Ht; simpl; congruence.
Qed.

Definition toy_block_laws : @ConsensusLaws Block toy_block_codec :=
  @Build_ConsensusLaws Block toy_block_codec toy_block_ok toy_block_roundtrip.

Lemma toy_block_layout (b : Block) : toy_block_ok b ->
  exists n : Z, in_u 64 n /\ id n = zlen (txdata b) /\ header_ok (blk_header b) /\
    Forall (eq toy_transaction) (txdata b) /\
    @serialize _ toy_block_codec b = header_bytes (blk_header b) ++ put_compact_size_u64 n ++
      concat (map (@serialize _ toy_transaction_codec) (txdata b)).
Proof.
  intros (Hh & Hn & Ht). pose proof (zlen_nonneg (txdata b)). exists (zlen (txdata b)).
  split; [unfold in_u; lia|]. split; [done|]. split; [done|]. split; done.
Qed.

Definition toy_laws : WireLaws toy_types :=
  @Build_WireLaws toy_types raw_laws raw_laws raw_laws raw_laws raw_laws raw_laws
    raw_laws raw_laws raw_laws raw_laws raw_laws raw_laws
    toy_varint_laws (@Build_PartialLaws _ _ toy_varint_laws toy_varint_partial)
    toy_header_laws (@Build_PartialLaws _ _ toy_header_laws toy_header_partial)
    toy_block_laws toy_transaction_laws header_bytes_size
    (fun _ _ => ltac:(vm_compute; discriminate)) (fun _ _ _ => eq_refl) toy_block_layout.

Lemma decoded_message_bounded_witness :
  @within_limits toy_types (Inv [{| kind := InvBlock; inv_hash := repeat 9 32 |}]).
Proof.
  refine (proj1 (@decoded_message_bounded toy_types (str "inv") ([1; 2; 0; 0; 0] ++ repeat 9 32) _ _)).
  reflexivity.
Defined.
