(* ===== verification/WireFrame.v ===== *)
(** * Framing of peer-to-peer messages ([src/wire.rs])

    The v1 frame (magic, command, length, checksum, payload), the BIP324 v2
    application message, and the cancellation-safe [MessageReader] that
    assembles v1 frames out of whatever chunks the socket delivers.  SHA256d
    is a parameter. *)

From Stdlib Require Import ZArith Lia.
From stdpp Require Import base list option strings.
From S2P Require Import Prelude Types WireReader WireMessage.
Local Open Scope Z_scope.

(** ** Command names *)

Definition validate_payload_size (size : Z) : result WireError () :=
  check? size <=? MAX_MESSAGE_SIZE else Oversized size in Ok tt.

(** [u8::is_ascii_graphic] *)
Definition is_ascii_graphic (b : Z) : bool := (0x21 <=? b) && (b <=? 0x7e).

Definition validate_command (command : bytes) : result WireError () :=
  if (zlen command =? 0) || (12 <? zlen command)
     || existsb (fun byte => negb (is_ascii_graphic byte) || (byte =? 0x20)) command
  then Err (Bail "invalid Bitcoin command name")
  else Ok tt.

(** [iter().position(|byte| p(byte)).unwrap_or(bytes.len())] *)
Fixpoint position_or_len (p : Z -> bool) (b : bytes) : Z :=
  match b with
  | [] => 0
  | x :: b => if p x then 0 else 1 + position_or_len p b
  end.

Definition decode_command (b : bytes) : result WireError bytes :=
  let command_end := position_or_len (fun byte => byte =? 0) b in
  if (command_end =? 0)
     || existsb (fun byte => negb (byte =? 0))
          (zdrop (command_end + (if command_end <? zlen b then 1 else 0)) b)
  then Err (Bail "invalid Bitcoin command padding")
  else
    let command := ztake command_end b in
    check? utf8_valid command else Bail "invalid utf-8 sequence" in
    let? _ := validate_command command in
    Ok command.

(** [let mut command_bytes = [0u8; 12]; command_bytes[..len].copy_from_slice(command)] *)
Definition command_bytes (command : bytes) : bytes :=
  command ++ repeat 0 (Z.to_nat (12 - zlen command)).

(** [command_for_header_log], up to the lossy UTF-8 conversion of a prefix
    that is ASCII. *)
Definition command_for_header_log (b : bytes) : bytes :=
  let end_ := position_or_len (fun byte => (byte =? 0) || negb (is_ascii_graphic byte)) b in
  if end_ =? 0 then str "unknown" else ztake end_ b.

(** ** BIP324 message types *)

Definition v2_ids : list (string * Z) :=
  [("addr", 1); ("block", 2); ("blocktxn", 3); ("cmpctblock", 4); ("feefilter", 5); ("filteradd", 6);
   ("filterclear", 7); ("filterload", 8); ("getblocks", 9); ("getblocktxn", 10); ("getdata", 11);
   ("getheaders", 12); ("headers", 13); ("inv", 14); ("mempool", 15); ("merkleblock", 16);
   ("notfound", 17); ("ping", 18); ("pong", 19); ("sendcmpct", 20); ("tx", 21); ("getcfilters", 22);
   ("cfilter", 23); ("getcfheaders", 24); ("cfheaders", 25); ("getcfcheckpt", 26); ("cfcheckpt", 27);
   ("addrv2", 28)]%string.

Fixpoint id_of (table : list (string * Z)) (command : bytes) : option Z :=
  match table with
  | [] => None
  | (name, id) :: table => if named command name then Some id else id_of table command
  end.
Definition v2_message_id (command : bytes) : option Z := id_of v2_ids command.

Definition v2_commands : list (Z * string) :=
  [(1, "addr"); (2, "block"); (3, "blocktxn"); (4, "cmpctblock"); (5, "feefilter"); (6, "filteradd");
   (7, "filterclear"); (8, "filterload"); (9, "getblocks"); (10, "getblocktxn"); (11, "getdata");
   (12, "getheaders"); (13, "headers"); (14, "inv"); (15, "mempool"); (16, "merkleblock");
   (17, "notfound"); (18, "ping"); (19, "pong"); (20, "sendcmpct"); (21, "tx"); (22, "getcfilters");
   (23, "cfilter"); (24, "getcfheaders"); (25, "cfheaders"); (26, "getcfcheckpt"); (27, "cfcheckpt");
   (28, "addrv2")]%string.

Fixpoint command_of (table : list (Z * string)) (message_type : Z) : option bytes :=
  match table with
  | [] => None
  | (id, name) :: table => if message_type =? id then Some (str name) else command_of table message_type
  end.
Definition v2_message_command (message_type : Z) : option bytes := command_of v2_commands message_type.

Section Frames.
Context {WT : WireTypes}.
(** [sha256d::Hash::hash(payload).to_byte_array()] *)
Variable sha256d : bytes -> bytes.

Definition checksum (payload : bytes) : bytes := ztake 4 (sha256d payload).

(** ** v1 frames *)

Definition encode_message_with_magic (magic : bytes) (m : Message) : result WireError bytes :=
  let? payload := encode_payload m in
  let? _ := validate_payload_size (zlen payload) in
  let? _ := validate_command (command m) in
  Ok (magic ++ command_bytes (command m) ++ to_le 4 (zlen payload) ++ checksum payload ++ payload).

Definition decode_message_with_magic (expected_magic frame : bytes) : result WireError Message :=
  check? HEADER_SIZE <=? zlen frame else Bail "short Bitcoin message frame" in
  let received_magic := slice frame 0 4 in
  check? bool_decide (received_magic = expected_magic) else Magic received_magic in
  let? command := map_err (fun _ => InvalidMessageType) (decode_command (slice frame 4 16)) in
  let length := from_le (slice frame 16 20) in
  check? length <=? MAX_MESSAGE_SIZE else Oversized length in
  check? zlen frame =? HEADER_SIZE + length else Bail "message frame length does not match payload length" in
  let expected := checksum (zdrop 24 frame) in
  check? bool_decide (slice frame 20 24 = expected)
    else Checksum command length expected (slice frame 20 24) in
  decode_payload command (zdrop 24 frame).

(** Errors after which the connection goes on: the frame is dropped. *)
Definition frame_has_recoverable_error_with_magic (magic frame : bytes) : bool :=
  if (zlen frame <? HEADER_SIZE) || negb (bool_decide (slice frame 0 4 = magic)) then false
  else
    match decode_command (slice frame 4 16) with
    | Err _ => true
    | Ok command =>
        if negb (bool_decide (slice frame 20 24 = checksum (zdrop 24 frame))) then true
        else if named command "block"
                && match decode_payload command (zdrop 24 frame) with Err (Payload _) => true | _ => false end
        then true
        else named command "tx"
             && match decode_payload command (zdrop 24 frame) with Err (Payload _) => true | _ => false end
    end.

Definition recoverable_payload_message_with_magic (magic frame : bytes) : option Message :=
  if (zlen frame <? HEADER_SIZE) || negb (bool_decide (slice frame 0 4 = magic)) then None
  else
    command ← res_ok (decode_command (slice frame 4 16));
    if negb (bool_decide (slice frame 20 24 = checksum (zdrop 24 frame)))
       || negb (named command "addr" || named command "addrv2" || named command "inv"
                || named command "getdata" || named command "headers")
    then None
    else Some (Unknown command (zdrop 24 frame)).

(** ** v2 messages *)

Definition encode_v2_message (m : Message) : result WireError bytes :=
  let? _ := validate_command (command m) in
  let prefix :=
    match v2_message_id (command m) with
    | Some message_id => [message_id]
    | None => 0 :: command_bytes (command m)
    end in
  let? payload := encode_payload m in
  Ok (prefix ++ payload).

Definition decode_v2_message (payload : bytes) : result WireError Message :=
  match payload with
  | [] => Err (Bail "empty BIP324 application message")
  | message_type :: _ =>
      let? '(command, payload_start) :=
        (if message_type =? 0 then
           let? command_bytes := ok_or (get_range payload 1 13) (Bail "short BIP324 command header") in
           let? command := decode_command command_bytes in
           Ok (command, 13)
         else
           let? command := ok_or (v2_message_command message_type) (Bail "unknown BIP324 message type") in
           Ok (command, 1)) in
      decode_payload command (default [] (get_range payload payload_start (zlen payload)))
  end.

Definition v2_message_type_is_valid (payload : bytes) : bool :=
  match payload with
  | [] => false
  | message_type :: _ =>
      if message_type =? 0 then
        match get_range payload 1 13 with
        | Some command => is_ok (decode_command command)
        | None => false
        end
      else bool_decide (is_Some (v2_message_command message_type))
  end.

(** ** The message reader

    [MessageReader] without the socket and the scratch buffer.  One turn of
    its loop returns, starts over, or awaits a read of at most [limit] bytes
    and continues with the state [deliver] makes of a non-empty chunk.  A
    task that is cancelled is cancelled at such a read, so the state it leaves
    is the one before [deliver]. *)

Record MessageReader := {
  buffer : bytes;
  discard_remaining : Z;
  discard_frame_size : Z;
}.

Definition new_reader : MessageReader :=
  {| buffer := []; discard_remaining := 0; discard_frame_size := 0 |}.

Definition has_partial_frame (st : MessageReader) : bool :=
  negb (zlen (buffer st) =? 0) || negb (discard_remaining st =? 0).

(** A frame the reader has in full. *)
Definition accept_frame (magic frame : bytes) : result WireError (option Message * Z) :=
  match decode_message_with_magic magic frame with
  | Ok m => Ok (Some m, zlen frame)
  | Err e =>
      match recoverable_payload_message_with_magic magic frame with
      | Some m => Ok (Some m, zlen frame)
      | None =>
          if frame_has_recoverable_error_with_magic magic frame then Ok (None, zlen frame) else Err e
      end
  end.

Inductive turn :=
| Return (r : result WireError (option Message * Z)) (st : MessageReader)
| Continue (st : MessageReader)
| Await (limit : Z) (st : MessageReader) (deliver : bytes -> MessageReader).

Definition await_chunk (st : MessageReader) : turn :=
  Await (16 * 1024) st (fun chunk =>
    {| buffer := buffer st ++ chunk; discard_remaining := discard_remaining st;
       discard_frame_size := discard_frame_size st |}).

Definition reader_turn (magic : bytes) (st : MessageReader) : turn :=
  if negb (discard_remaining st =? 0) then
    let buffered := Z.min (discard_remaining st) (zlen (buffer st)) in
    let st := {| buffer := zdrop buffered (buffer st);
                 discard_remaining := discard_remaining st - buffered;
                 discard_frame_size := discard_frame_size st |} in
    if discard_remaining st =? 0 then
      Return (Ok (None, discard_frame_size st))
        {| buffer := buffer st; discard_remaining := 0; discard_frame_size := 0 |}
    else
      Await (Z.min (discard_remaining st) (256 * 1024)) st (fun chunk =>
        {| buffer := buffer st; discard_remaining := discard_remaining st - zlen chunk;
           discard_frame_size := discard_frame_size st |})
  else if HEADER_SIZE <=? zlen (buffer st) then
    let length := from_le (slice (buffer st) 16 20) in
    if MAX_MESSAGE_SIZE <? length then
      Return (Err (OversizedFrame (command_for_header_log (slice (buffer st) 4 16)) length)) st
    else
      let frame_size := HEADER_SIZE + length in
      if (1000000 <? length) && negb (is_ok (decode_command (slice (buffer st) 4 16))) then
        Continue {| buffer := buffer st; discard_remaining := frame_size; discard_frame_size := frame_size |}
      else if frame_size <=? zlen (buffer st) then
        Return (accept_frame magic (ztake frame_size (buffer st)))
          {| buffer := zdrop frame_size (buffer st); discard_remaining := discard_remaining st;
             discard_frame_size := discard_frame_size st |}
      else await_chunk st
  else await_chunk st.

(** The loop over a connection on which the peer has sent [unread] and then
    closes.  [sizes n] is what the [n]-th read would like to return: a read
    delivers at least one byte and at most [limit], as long as there is one. *)
Definition deliverable (wish limit : Z) : Z := Z.max 1 (Z.min wish limit).

Fixpoint read_message (fuel : nat) (magic : bytes) (sizes : nat -> Z) (n : nat) (st : MessageReader) (unread : bytes)
  : option (result WireError (option Message * Z) * MessageReader * bytes) :=
  match fuel with
  | O => None
  | S fuel =>
      match reader_turn magic st with
      | Return r st => Some (r, st, unread)
      | Continue st => read_message fuel magic sizes n st unread
      | Await limit st deliver =>
          match unread with
          | [] => Some (Err PeerClosed, st, unread)
          | _ =>
              let count := deliverable (sizes n) limit in
              read_message fuel magic sizes (S n) (deliver (ztake count unread)) (zdrop count unread)
          end
      end
  end.

(** The messages of a connection up to the first error. *)
Fixpoint receive (fuel : nat) (magic : bytes) (sizes : nat -> nat -> Z) (st : MessageReader) (unread : bytes)
  : list (result WireError (option Message * Z)) :=
  match fuel with
  | O => []
  | S fuel =>
      match read_message (2 * length unread + 3) magic (sizes fuel) 0 st unread with
      | None => []
      | Some (Err e, _, _) => [Err e]
      | Some (Ok x, st, unread) => Ok x :: receive fuel magic sizes st unread
      end
  end.
End Frames.

(** ** Commands *)

Lemma position_end (c : bytes) n : Forall (fun b => b ≠ 0) c ->
  position_or_len (fun byte => byte =? 0) (c ++ repeat 0 n) = zlen c.
Proof.
  induction 1 as [|b c Hb Hc IH].
  - by destruct n.
  - cbn [app position_or_len]. bfalse (b =? 0). rewrite IH. zlen. done.
Qed.

Lemma zeros_not_nonzero n k : existsb (fun byte => negb (byte =? 0)) (drop k (repeat 0 n)) = false.
Proof. revert k. induction n as [|n IH]; intros [|k]; [done..| |]; simpl; [exact (IH 0%nat)|apply IH]. Qed.

Lemma ascii_utf8 c : Forall (fun b => is_ascii_graphic b = true) c -> utf8_valid c = true.
Proof.
  induction 1 as [|b c Hb Hc IH]; [done|]. unfold is_ascii_graphic in Hb. bool_to_prop.
  cbn [utf8_valid]. by btrue (b <=? 0x7f).
Qed.

Lemma validate_command_inv c : validate_command c = Ok tt ->
  1 <= zlen c <= 12 /\ Forall (fun b => is_ascii_graphic b = true) c.
Proof.
  unfold validate_command. destruct (_ || _) eqn:E; [done|]. intros _. bool_to_prop. pose proof (zlen_nonneg c).
  split; [lia|]. apply Forall_forall. intros b Hb.
  destruct (is_ascii_graphic b) eqn:Eb; [done|]. exfalso.
  assert (existsb (fun byte => negb (is_ascii_graphic byte) || (byte =? 0x20)) c = true); [|congruence].
  apply existsb_exists. exists b. split; [by apply list_elem_of_In|]. by rewrite Eb.
Qed.

Lemma decode_command_bytes c : validate_command c = Ok tt -> decode_command (command_bytes c) = Ok c.
Proof.
  intros Hc. destruct (validate_command_inv c Hc) as [Hl Hg]. unfold decode_command, command_bytes.
  rewrite position_end.
  2: { eapply Forall_impl; [exact Hg|]. intros b Hb ->. done. }
  rewrite ztake_app_eq by done. bfalse (zlen c =? 0). cbn [orb].
  rewrite ascii_utf8, Hc by done. cbn [rbind].
  replace (existsb _ _) with false; [done|]. symmetry.
  unfold zdrop. rewrite drop_app_ge by (unfold zlen in *; case_match; lia). apply zeros_not_nonzero.
Qed.

Lemma command_bytes_size c : zlen c <= 12 -> zlen (command_bytes c) = 12.
Proof. intros H. unfold command_bytes. zlen. unfold zlen. rewrite repeat_length. unfold zlen in H. lia. Qed.

(** ** Slices of a frame *)

Lemma slice_app_l {A} (l1 l2 : list A) a b : 0 <= a <= b -> b <= zlen l1 -> slice (l1 ++ l2) a b = slice l1 a b.
Proof.
  intros Ha Hb. unfold slice, ztake, zdrop, zlen in *.
  rewrite drop_app_le by lia. rewrite take_app_le; [done|]. rewrite length_drop. lia.
Qed.

Section FrameFacts.
Context {WT : WireTypes}.
Variable sha256d : bytes -> bytes.

(** The bytes of a frame, by field. *)
Definition frame_of (magic cmd : bytes) (length : Z) (sum payload : bytes) : bytes :=
  magic ++ cmd ++ to_le 4 length ++ sum ++ payload.

Lemma frame_slices magic cmd len sum payload :
  zlen magic = 4 -> zlen cmd = 12 -> zlen sum = 4 -> in_u 32 len ->
  let f := frame_of magic cmd len sum payload in
  slice f 0 4 = magic /\ slice f 4 16 = cmd /\ from_le (slice f 16 20) = len /\
  slice f 20 24 = sum /\ zdrop 24 f = payload /\ zlen f = 24 + zlen payload.
Proof.
  intros Hm Hc Hs Hl f. unfold f, frame_of. split_and!.
  - by apply (slice_app [] magic).
  - by apply (slice_app magic cmd); lia.
  - rewrite (app_assoc magic). rewrite (slice_app (magic ++ cmd) (to_le 4 len)) by (zlen; lia).
    by apply (from_to_le_small 4 32).
  - rewrite (app_assoc cmd), (app_assoc magic). apply slice_app; zlen; lia.
  - rewrite (app_assoc (to_le 4 len)), (app_assoc cmd), (app_assoc magic). apply zdrop_app_eq. zlen. lia.
  - zlen. lia.
Qed.

(** A list of at least 24 bytes is a frame of its slices. *)
Lemma frame_split f : 24 <= zlen f -> all_bytes (slice f 16 20) ->
  f = frame_of (slice f 0 4) (slice f 4 16) (from_le (slice f 16 20)) (slice f 20 24) (zdrop 24 f).
Proof.
  intros Hf Hb. unfold frame_of.
  replace (to_le 4 (from_le (slice f 16 20))) with (slice f 16 20).
  2: { rewrite <- (to_from_le _ Hb) at 1. f_equal.
       assert (zlen (slice f 16 20) = 4) by (rewrite zlen_slice; lia). unfold zlen in *. lia. }
  rewrite (slice_decompose f 0 4) at 1 by lia. change (slice f 0 0) with (@nil Z). cbn [app]. f_equal.
  assert (forall a b, 0 <= a <= b -> b <= zlen f -> zdrop a f = slice f a b ++ zdrop b f) as S.
  { intros a b Ha Hb'. unfold slice. rewrite <- (take_drop (Z.to_nat (b - a)) (zdrop a f)) at 1.
    unfold ztake, zdrop. rewrite drop_drop. do 2 f_equal. lia. }
  rewrite (S 4 16), (S 16 20), (S 20 24) by lia. done.
Qed.

(** A frame is accepted only if it is, byte for byte, the magic of the
    network, a command name padded to 12 bytes, the length of the payload, the
    first four bytes of its double SHA256 and the payload, within the size
    limit; and the message is the one decoded from that payload. *)
Theorem decode_message_sound magic frame m :
  all_bytes frame -> decode_message_with_magic sha256d magic frame = Ok m ->
  exists c payload, frame = frame_of magic (slice frame 4 16) (zlen payload) (checksum sha256d payload) payload /\
    decode_command (slice frame 4 16) = Ok c /\ zlen payload <= MAX_MESSAGE_SIZE /\
    decode_payload c payload = Ok m.
Proof.
  intros Hb E. unfold decode_message_with_magic in E.
  destruct (HEADER_SIZE <=? zlen frame) eqn:Eh; [|done].
  destruct (bool_decide (slice frame 0 4 = magic)) eqn:Em; [|done].
  apply rbind_Ok in E as (c & Hc & E). apply map_err_Ok in Hc.
  destruct (_ <=? MAX_MESSAGE_SIZE) eqn:Es in E; [|done].
  destruct (zlen frame =? _) eqn:El in E; [|done].
  destruct (bool_decide (slice frame 20 24 = _)) eqn:Ek in E; [|done]. bool_to_prop. unfold HEADER_SIZE in *.
  exists c, (zdrop 24 frame). rewrite zlen_zdrop by lia.
  replace (zlen frame - 24) with (from_le (slice frame 16 20)) by lia.
  split; [|by repeat split]. rewrite <- Ek, <- Em at 1. apply frame_split; [lia|].
  apply Forall_take, zdrop_bytes, Hb.
Qed.
End FrameFacts.

(** ** Round trips *)

Section FrameRoundTrip.
Context {WT : WireTypes} {WL : WireLaws WT}.
Variable sha256d : bytes -> bytes.
Hypothesis sha256d_size : forall b, zlen (sha256d b) = 32.

Lemma checksum_size b : zlen (checksum sha256d b) = 4.
Proof. unfold checksum. rewrite zlen_ztake; [done|]. rewrite sha256d_size. lia. Qed.

(** A message that fits a frame: its name is valid and its payload within
    the limit. *)
Definition sendable (m : Message) : Prop :=
  message_ok m /\ validate_command (command m) = Ok tt /\
  forall payload, encode_payload m = Ok payload -> zlen payload <= MAX_MESSAGE_SIZE.

Lemma frame_roundtrip magic m : zlen magic = 4 -> sendable m ->
  exists payload frame, encode_payload m = Ok payload /\ decode_payload (command m) payload = Ok m /\
    encode_message_with_magic sha256d magic m = Ok frame /\
    frame = frame_of magic (command_bytes (command m)) (zlen payload) (checksum sha256d payload) payload /\
    decode_message_with_magic sha256d magic frame = Ok m.
Proof.
  intros Hmagic (Hm & Hc & Hs). destruct (payload_roundtrip m Hm) as (payload & He & Hd). specialize (Hs _ He).
  eexists payload, _. split; [done|]. split; [done|]. pose proof (zlen_nonneg payload).
  destruct (validate_command_inv _ Hc) as [Hn _]. unfold MAX_MESSAGE_SIZE in Hs.
  destruct (frame_slices magic (command_bytes (command m)) (zlen payload) (checksum sha256d payload) payload)
    as (S0 & S1 & S2 & S3 & S4 & S5); [done|apply command_bytes_size; lia|apply checksum_size|unfold in_u; lia|].
  split; [|split; [reflexivity|]].
  - unfold encode_message_with_magic, validate_payload_size, MAX_MESSAGE_SIZE. rewrite He. cbn [rbind].
    btrue (zlen payload <=? 4000000). cbn [rbind]. by rewrite Hc.
  - unfold decode_message_with_magic. rewrite S0, S1, S2, S3, S4, S5. unfold HEADER_SIZE, MAX_MESSAGE_SIZE.
    btrue (24 <=? 24 + zlen payload). rewrite bool_decide_true by done. rewrite decode_command_bytes by done.
    cbn [map_err rbind]. btrue (zlen payload <=? 4000000). rewrite Z.eqb_refl.
    by rewrite bool_decide_true.
Qed.

(** ** v2 *)

Lemma v2_tables_inverse c id : v2_message_id c = Some id ->
  v2_message_command id = Some c /\ 1 <= id <= 28.
Proof.
  unfold v2_message_id, v2_ids. cbn [id_of]. unfold named. intros H.
  repeat (case_match; [bool_to_prop; subst; injection H as <-; split; [reflexivity|lia]|]). done.
Qed.

(** Every well-formed message with a valid command name survives the
    BIP324 encoding, with the one-byte type id where there is one and with
    the 12-byte command name otherwise, and its type is recognised before
    decoding. *)
Theorem v2_message_roundtrip m :
  message_ok m -> validate_command (command m) = Ok tt ->
  exists b, encode_v2_message m = Ok b /\ v2_message_type_is_valid b = true /\ decode_v2_message b = Ok m.
Proof.
  intros Hm Hc. destruct (payload_roundtrip m Hm) as (payload & He & Hd).
  destruct (validate_command_inv _ Hc) as [Hn _]. pose proof (zlen_nonneg payload).
  unfold encode_v2_message. rewrite Hc. cbn [rbind]. rewrite He. cbn [rbind].
  eexists. split; [reflexivity|]. destruct (v2_message_id (command m)) as [id|] eqn:Eid.
  - destruct (v2_tables_inverse _ _ Eid) as [Hid Hr]. cbn [app v2_message_type_is_valid decode_v2_message].
    bfalse (id =? 0). rewrite Hid. split; [by apply bool_decide_eq_true|]. cbn [ok_or rbind].
    rewrite <- (app_nil_r (id :: payload)). rewrite (get_range_app [id] payload []); [exact Hd|done|].
    zlen. lia.
  - assert (get_range (0 :: command_bytes (command m) ++ payload) 1 13 = Some (command_bytes (command m))) as E1.
    { apply (get_range_app [0]); zlen; rewrite ?command_bytes_size; lia. }
    cbn [app v2_message_type_is_valid decode_v2_message Z.eqb]. rewrite E1. cbn [ok_or rbind].
    rewrite decode_command_bytes by done. split; [done|]. cbn [ok_or rbind].
    rewrite <- (app_nil_r payload) at 1 2. rewrite (get_range_app (0 :: command_bytes (command m)) payload []).
    + exact Hd.
    + zlen. rewrite command_bytes_size; lia.
    + zlen. rewrite command_bytes_size by lia. lia.
Qed.
End FrameRoundTrip.

(** ** The reader does not depend on the chunks *)

Lemma zdrop_app_le {A} (l1 l2 : list A) n : 0 <= n <= zlen l1 -> zdrop n (l1 ++ l2) = zdrop n l1 ++ l2.
Proof. unfold zdrop, zlen. intros. apply drop_app_le. lia. Qed.
Lemma ztake_app_le {A} (l1 l2 : list A) n : n <= zlen l1 -> ztake n (l1 ++ l2) = ztake n l1.
Proof. unfold ztake, zlen. intros. apply take_app_le. lia. Qed.
Lemma zdrop_app_ge {A} (l1 l2 : list A) n : zlen l1 <= n -> zdrop n (l1 ++ l2) = zdrop (n - zlen l1) l2.
Proof. unfold zdrop, zlen. intros. rewrite drop_app_ge by lia. f_equal. lia. Qed.

Section Reading.
Context {WT : WireTypes}.
Variable sha256d : bytes -> bytes.
Variable magic : bytes.

(** The length field of a buffered header, and the frames that are thrown
    away without being buffered. *)
Definition length_field (s : bytes) : Z := from_le (slice s 16 20).
Definition discarded (s : bytes) : bool :=
  (1000000 <? length_field s) && negb (is_ok (decode_command (slice s 4 16))).

(** The first frame of a stream that is not discarded, and what follows it:
    the reader's contract, without chunks, buffers or partial states.  Every
    turn drops more than a million bytes, so the length of the stream is
    fuel enough. *)
Fixpoint next_frame_loop (fuel : nat) (s : bytes) : result WireError (option Message * Z) * bytes :=
  match fuel with
  | O => (Err PeerClosed, [])
  | S fuel =>
      if zlen s <? HEADER_SIZE then (Err PeerClosed, [])
      else if MAX_MESSAGE_SIZE <? length_field s then
        (Err (OversizedFrame (command_for_header_log (slice s 4 16)) (length_field s)), s)
      else if zlen s <? HEADER_SIZE + length_field s then (Err PeerClosed, [])
      else if discarded s then next_frame_loop fuel (zdrop (HEADER_SIZE + length_field s) s)
      else (accept_frame sha256d magic (ztake (HEADER_SIZE + length_field s) s),
            zdrop (HEADER_SIZE + length_field s) s)
  end.
Definition next_frame (s : bytes) : result WireError (option Message * Z) * bytes :=
  next_frame_loop (S (length s)) s.

Lemma next_frame_fuel fuel s : (length s < fuel)%nat -> next_frame_loop fuel s = next_frame s.
Proof.
  unfold next_frame. remember (S (length s)) as f eqn:Hf. assert (length s < f)%nat as Hlt by lia. clear Hf.
  revert fuel s Hlt. induction f as [|f IH]; intros fuel s Hlt Hf; [lia|].
  destruct fuel as [|fuel]; [lia|]. cbn [next_frame_loop].
  destruct (_ <? HEADER_SIZE); [done|]. destruct (MAX_MESSAGE_SIZE <? _); [done|].
  destruct (zlen s <? _) eqn:E; [done|]. destruct (discarded s) eqn:Ed; [|done].
  unfold discarded, HEADER_SIZE in *. bool_to_prop.
  assert (length (zdrop (24 + length_field s) s) < length s)%nat
    by (unfold zdrop, zlen in *; rewrite length_drop; lia).
  apply IH; lia.
Qed.

Lemma next_frame_discarded s :
  (zlen s <? HEADER_SIZE) = false -> (MAX_MESSAGE_SIZE <? length_field s) = false ->
  (zlen s <? HEADER_SIZE + length_field s) = false -> discarded s = true ->
  next_frame s = next_frame (zdrop (HEADER_SIZE + length_field s) s).
Proof.
  intros H1 H2 H3 H4. unfold next_frame at 1. cbn [next_frame_loop]. rewrite H1, H2, H3, H4.
  apply next_frame_fuel. unfold discarded, HEADER_SIZE in *. bool_to_prop.
  unfold zdrop, zlen in *. rewrite length_drop. lia.
Qed.

(** The contract of a reader in the middle of its work. *)
Definition pending (st : MessageReader) (unread : bytes) : result WireError (option Message * Z) * bytes :=
  let s := buffer st ++ unread in
  if zlen s <? discard_remaining st then (Err PeerClosed, [])
  else next_frame (zdrop (discard_remaining st) s).

(** The states of a reader: a discarded frame is never in the buffer as a
    whole, because a read adds at most 16 KiB to an incomplete frame. *)
Definition reader_ok (st : MessageReader) : Prop :=
  let b := buffer st in
  if discard_remaining st =? 0 then
    zlen b < HEADER_SIZE + 16384 \/
    (length_field b <= MAX_MESSAGE_SIZE /\ discarded b = false /\ zlen b < HEADER_SIZE + length_field b + 16384)
  else 0 < discard_remaining st /\ zlen b < discard_remaining st.
Definition good (st : MessageReader) (unread : bytes) : Prop :=
  reader_ok st /\ all_bytes (buffer st ++ unread).

(** The contract of one turn. *)
Definition turn_ok (st : MessageReader) (unread : bytes) (t : turn) : Prop :=
  match t with
  | Return r st' =>
      (pending st unread).1 = r /\
      (is_ok r = true ->
       discard_remaining st' = 0 /\ good st' unread /\ buffer st' ++ unread = (pending st unread).2)
  | Continue st' =>
      discard_remaining st = 0 /\ discard_remaining st' ≠ 0 /\ good st' unread /\
      pending st' unread = pending st unread
  | Await limit st' deliver =>
      1 <= limit /\ (unread = [] -> (pending st unread).1 = Err PeerClosed) /\
      forall chunk rest, unread = chunk ++ rest -> 1 <= zlen chunk <= limit ->
        good (deliver chunk) rest /\ pending (deliver chunk) rest = pending st unread
  end.

(** The turn of a reader that is discarding. *)
Lemma discard_turn_ok st unread : good st unread -> discard_remaining st ≠ 0 ->
  turn_ok st unread (reader_turn sha256d magic st).
Proof.
  intros [Hok Hb] Hne. unfold reader_ok in Hok. rewrite (proj2 (Z.eqb_neq _ _) Hne) in Hok.
  pose proof (zlen_nonneg (buffer st)).
  unfold reader_turn. bfalse (discard_remaining st =? 0). cbn [negb discard_remaining buffer discard_frame_size].
  rewrite Z.min_r by lia. bfalse (discard_remaining st - zlen (buffer st) =? 0).
  assert (zdrop (zlen (buffer st)) (buffer st) = []) as -> by (unfold zdrop, zlen; apply drop_ge; lia).
  unfold turn_ok, pending. split; [lia|]. split.
  - intros ->. rewrite app_nil_r. by btrue (zlen (buffer st) <? discard_remaining st).
  - intros chunk rest -> Hc. unfold good, reader_ok. cbn [buffer discard_remaining discard_frame_size app].
    split.
    + split; [|by apply Forall_app in Hb as [_ [_ ?]%Forall_app]].
      change (zlen (@nil Z)) with 0. unfold HEADER_SIZE. case_match; bool_to_prop; lia.
    + zlen. rewrite zdrop_app_ge, zdrop_app_ge by lia.
      replace (zlen (buffer st) + (zlen chunk + zlen rest) <? discard_remaining st)
        with (zlen rest <? discard_remaining st - zlen (buffer st) - zlen chunk); [done|].
      destruct (Z.ltb_spec (zlen rest) (discard_remaining st - zlen (buffer st) - zlen chunk)); symmetry;
        [apply Z.ltb_lt | apply Z.ltb_ge]; lia.
Qed.

(** The header of a buffered frame is the header of the stream. *)
Lemma header_of_stream b u : HEADER_SIZE <= zlen b ->
  length_field (b ++ u) = length_field b /\ slice (b ++ u) 4 16 = slice b 4 16 /\ discarded (b ++ u) = discarded b.
Proof.
  unfold HEADER_SIZE, discarded, length_field. intros H. rewrite !slice_app_l by lia. done.
Qed.

Lemma length_field_nonneg s u : all_bytes (s ++ u) -> 0 <= length_field s.
Proof.
  intros H. apply Forall_app in H as [H _]. apply from_le_bound, Forall_take, zdrop_bytes, H.
Qed.

Lemma pending_idle st unread : discard_remaining st = 0 -> pending st unread = next_frame (buffer st ++ unread).
Proof.
  intros E. unfold pending. rewrite E. pose proof (zlen_nonneg (buffer st ++ unread)).
  by bfalse (zlen (buffer st ++ unread) <? 0).
Qed.

(** A turn that waits for more bytes of a frame. *)
Lemma await_turn_ok st unread : good st unread -> discard_remaining st = 0 ->
  zlen (buffer st) < HEADER_SIZE \/
  (HEADER_SIZE <= zlen (buffer st) /\ length_field (buffer st) <= MAX_MESSAGE_SIZE /\
   discarded (buffer st) = false /\ zlen (buffer st) < HEADER_SIZE + length_field (buffer st)) ->
  turn_ok st unread (await_chunk st).
Proof.
  intros [_ Hb] Hd Hcase. unfold await_chunk, turn_ok. split; [lia|]. split.
  - intros ->. rewrite pending_idle, app_nil_r by done. unfold next_frame. cbn [next_frame_loop].
    destruct Hcase as [H|(H & Hm & Hdis & Hs)]; [by btrue (zlen (buffer st) <? HEADER_SIZE)|].
    bfalse (zlen (buffer st) <? HEADER_SIZE). bfalse (MAX_MESSAGE_SIZE <? length_field (buffer st)).
    by btrue (zlen (buffer st) <? HEADER_SIZE + length_field (buffer st)).
  - intros chunk rest -> Hc. split; [split|].
    + unfold reader_ok. cbn [buffer discard_remaining]. rewrite Hd. cbn [Z.eqb]. rewrite zlen_app.
      destruct Hcase as [H|(H & Hm & Hdis & Hs)]; [left; lia|]. right.
      destruct (header_of_stream (buffer st) chunk H) as (-> & _ & ->). split; [done|]. split; [done|]. lia.
    + cbn [buffer]. by rewrite <- app_assoc.
    + rewrite !pending_idle by done. cbn [buffer]. by rewrite <- app_assoc.
Qed.

Lemma idle_turn_ok st unread : good st unread -> discard_remaining st = 0 ->
  turn_ok st unread (reader_turn sha256d magic st).
Proof.
  intros Hg Hd. pose proof Hg as [Hok Hb]. unfold reader_ok in Hok. rewrite Hd in Hok. cbn [Z.eqb] in Hok.
  pose proof (length_field_nonneg _ _ Hb) as Hl0. pose proof (zlen_nonneg unread).
  unfold reader_turn. rewrite Hd. cbn [Z.eqb negb].
  destruct (Z.leb_spec HEADER_SIZE (zlen (buffer st))) as [Hh|Hh]; [|apply await_turn_ok; auto].
  destruct (header_of_stream (buffer st) unread Hh) as (El & Ec & Ed).
  fold (length_field (buffer st)). change ((1000000 <? length_field (buffer st)) &&
    negb (is_ok (decode_command (slice (buffer st) 4 16)))) with (discarded (buffer st)).
  destruct (Z.ltb_spec MAX_MESSAGE_SIZE (length_field (buffer st))) as [Hm|Hm].
  { unfold turn_ok. rewrite pending_idle by done. unfold next_frame. cbn [next_frame_loop].
    rewrite zlen_app, El, Ec. bfalse (zlen (buffer st) + zlen unread <? HEADER_SIZE).
    btrue (MAX_MESSAGE_SIZE <? length_field (buffer st)). done. }
  destruct (discarded (buffer st)) eqn:Edis.
  { assert (1000000 < length_field (buffer st)) by (unfold discarded in Edis; bool_to_prop; lia).
    unfold turn_ok, good, reader_ok. cbn [buffer discard_remaining]. unfold HEADER_SIZE in *.
    bfalse (24 + length_field (buffer st) =? 0).
    assert (zlen (buffer st) < 24 + length_field (buffer st)).
    { destruct Hok as [?|(_ & ? & _)]; [lia|congruence]. }
    split; [done|]. split; [lia|]. split; [split; [lia|done]|].
    rewrite (pending_idle st) by done. unfold pending. cbn [buffer discard_remaining].
    destruct (zlen (buffer st ++ unread) <? 24 + length_field (buffer st)) eqn:Es.
    - unfold next_frame. cbn [next_frame_loop]. rewrite El. unfold HEADER_SIZE. rewrite Es.
      destruct (zlen (buffer st ++ unread) <? 24); [done|].
      by bfalse (MAX_MESSAGE_SIZE <? length_field (buffer st)).
    - rewrite (next_frame_discarded (buffer st ++ unread)); [by rewrite El| | | |];
        rewrite ?El, ?Ed; unfold HEADER_SIZE; [rewrite zlen_app|..]; try done;
        apply Z.ltb_ge; lia. }
  destruct (Z.leb_spec (HEADER_SIZE + length_field (buffer st)) (zlen (buffer st))) as [Hs|Hs];
    [|apply await_turn_ok; auto].
  unfold turn_ok. rewrite pending_idle by done. unfold next_frame. cbn [next_frame_loop].
  rewrite El, Ed, zlen_app. bfalse (zlen (buffer st) + zlen unread <? HEADER_SIZE).
  bfalse (MAX_MESSAGE_SIZE <? length_field (buffer st)). unfold HEADER_SIZE in *.
  bfalse (zlen (buffer st) + zlen unread <? 24 + length_field (buffer st)).
  rewrite ztake_app_le, zdrop_app_le by lia. split; [done|]. intros _. cbn [buffer discard_remaining].
  split; [done|]. split; [|done]. split.
  - unfold reader_ok. cbn [buffer discard_remaining]. cbn [Z.eqb]. left.
    unfold HEADER_SIZE. rewrite zlen_zdrop by lia. lia.
  - cbn [buffer]. rewrite <- zdrop_app_le by lia. by apply zdrop_bytes.
Qed.

Lemma turn_contract st unread : good st unread -> turn_ok st unread (reader_turn sha256d magic st).
Proof.
  intros Hg. destruct (Z.eq_dec (discard_remaining st) 0); [by apply idle_turn_ok|by apply discard_turn_ok].
Qed.

Lemma read_message_ok fuel sizes n st unread : good st unread ->
  (2 * length unread + (if (discard_remaining st =? 0)%Z then 1 else 0) < fuel)%nat ->
  exists st' unread',
    read_message sha256d fuel magic sizes n st unread = Some ((pending st unread).1, st', unread') /\
    (is_ok (pending st unread).1 = true ->
     discard_remaining st' = 0 /\ good st' unread' /\ buffer st' ++ unread' = (pending st unread).2).
Proof.
  revert n st unread. induction fuel as [|fuel IH]; intros n st unread Hg Hf; [lia|].
  pose proof (turn_contract st unread Hg) as Ht. cbn [read_message].
  destruct (reader_turn sha256d magic st) as [r st'|st'|limit st' deliver]; cbn [turn_ok] in Ht.
  - destruct Ht as [-> Hr]. eauto.
  - destruct Ht as (E1 & E2 & Hg' & <-). apply IH; [done|]. rewrite E1 in Hf. cbn [Z.eqb] in Hf.
    bfalse (discard_remaining st' =? 0). lia.
  - destruct Ht as (Hl & Hnil & Hread). destruct unread as [|x unread]; [rewrite Hnil by done; eexists _, _; done|].
    set (s := x :: unread) in *. set (c := deliverable (sizes n) limit).
    assert (1 <= c <= limit) as Hc by (unfold c, deliverable; lia).
    assert (1 <= zlen (ztake c s) <= limit) as Htake.
    { unfold ztake, zlen, s. rewrite length_take. cbn [length]. lia. }
    destruct (Hread (ztake c s) (zdrop c s) (eq_sym (take_drop _ _)) Htake) as [Hg' <-].
    apply IH; [done|]. assert (length (zdrop c s) < length s)%nat.
    { unfold zdrop, s. rewrite length_drop. cbn [length]. lia. }
    repeat case_match; lia.
Qed.

(** C29: whatever chunks the socket delivers, and from whatever state a
    cancelled read left the reader in, reading a message terminates and
    returns the same: the first frame of the stream that is not discarded,
    or the error it causes, with the reader positioned after it.  The
    contract [next_frame] has no chunks, buffers or partial states. *)
Theorem message_reader_chunking sizes n st unread : good st unread ->
  exists st' unread',
    read_message sha256d (2 * length unread + 3) magic sizes n st unread
      = Some ((pending st unread).1, st', unread') /\
    (is_ok (pending st unread).1 = true ->
     discard_remaining st' = 0 /\ good st' unread' /\ buffer st' ++ unread' = (pending st unread).2).
Proof. intros Hg. apply read_message_ok; [done|]. case_match; lia. Qed.

(** One message of a connection. *)
Lemma receive_step fuel sizes st unread : discard_remaining st = 0 -> good st unread ->
  exists st' unread',
    receive sha256d (S fuel) magic sizes st unread =
      match (next_frame (buffer st ++ unread)).1 with
      | Err e => [Err e]
      | Ok x => Ok x :: receive sha256d fuel magic sizes st' unread'
      end /\
    (is_ok (next_frame (buffer st ++ unread)).1 = true ->
     discard_remaining st' = 0 /\ good st' unread' /\ buffer st' ++ unread' = (next_frame (buffer st ++ unread)).2).
Proof.
  intros Hd Hg. destruct (read_message_ok (2 * length unread + 3) (sizes fuel) 0 st unread Hg)
    as (st' & u' & E & Hr); [case_match; lia|].
  exists st', u'. rewrite <- pending_idle by done. split; [|done]. cbn [receive]. rewrite E.
  by destruct (pending st unread).1.
Qed.

(** C40: a frame of more than a million bytes with an invalid command name is
    skipped without being reported: a peer that sends such a frame and closes
    is seen as having closed in the middle of a message.  The branch that
    returns the size of the discarded frame is not reached, so its bytes are
    not accounted as a rejected message. *)
Theorem discarded_frame_unreported sizes n frame :
  all_bytes frame -> zlen frame = HEADER_SIZE + length_field frame ->
  length_field frame <= MAX_MESSAGE_SIZE -> discarded frame = true ->
  exists st' unread',
    read_message sha256d (2 * length frame + 3) magic sizes n new_reader frame
      = Some (Err PeerClosed, st', unread').
Proof.
  intros Hb Hs Hm Hd. assert (1000000 < length_field frame) by (unfold discarded in Hd; bool_to_prop; lia).
  assert (good new_reader frame) as Hg by (split; [left; done|done]).
  destruct (read_message_ok (2 * length frame + 3) sizes n new_reader frame Hg) as (st' & u' & E & _);
    [case_match; lia|]. exists st', u'. rewrite E. do 3 f_equal.
  rewrite pending_idle by done. cbn [buffer new_reader app]. unfold HEADER_SIZE in *.
  rewrite next_frame_discarded; unfold HEADER_SIZE; [|apply Z.ltb_ge; lia..|done].
  replace (zdrop (24 + length_field frame) frame) with (@nil Z); [done|].
  symmetry. apply drop_ge. unfold zlen in Hs. lia.
Qed.
End Reading.

(** ** Streams of messages *)

Section Streams.
Context {WT : WireTypes} {WL : WireLaws WT}.
Variable sha256d : bytes -> bytes.
Hypothesis sha256d_size : forall b, zlen (sha256d b) = 32.
Variable magic : bytes.
Hypothesis magic_size : zlen magic = 4.

Lemma next_frame_message m frame rest : sendable m -> encode_message_with_magic sha256d magic m = Ok frame ->
  next_frame sha256d magic (frame ++ rest) = (Ok (Some m, zlen frame), rest).
Proof.
  intros Hm He. destruct (frame_roundtrip sha256d sha256d_size magic m magic_size Hm)
    as (payload & frame' & Hp & Hd & He' & Hf & Hdec).
  rewrite He in He'. apply Ok_inj in He'. subst frame'. destruct Hm as (_ & Hc & Hs). specialize (Hs _ Hp).
  destruct (validate_command_inv _ Hc) as [Hn _]. pose proof (zlen_nonneg payload). pose proof (zlen_nonneg rest).
  unfold MAX_MESSAGE_SIZE in Hs.
  destruct (frame_slices magic (command_bytes (command m)) (zlen payload) (checksum sha256d payload) payload)
    as (S0 & S1 & S2 & S3 & S4 & S5); [done|apply command_bytes_size; lia|by apply checksum_size|unfold in_u; lia|].
  rewrite <- Hf in S0, S1, S2, S3, S4, S5.
  destruct (header_of_stream frame rest) as (El & Ec & Ed); [unfold HEADER_SIZE; lia|].
  unfold next_frame. cbn [next_frame_loop]. rewrite El, Ed, zlen_app. unfold length_field at 1 2 3. rewrite S2.
  unfold HEADER_SIZE, MAX_MESSAGE_SIZE. bfalse (zlen frame + zlen rest <? 24). bfalse (4000000 <? zlen payload).
  bfalse (zlen frame + zlen rest <? 24 + zlen payload).
  unfold discarded. rewrite S1, decode_command_bytes by done. cbn [is_ok negb]. rewrite andb_false_r.
  unfold length_field. rewrite S2. rewrite ztake_app_eq, zdrop_app_eq by lia.
  unfold accept_frame. by rewrite Hdec.
Qed.

(** C28: a peer that sends a sequence of well-formed messages is understood
    as having sent exactly these messages, in order, each with the size of
    its frame, however the connection splits the bytes; then the end of the
    connection is reported. *)
Theorem message_stream_roundtrip sizes ms frames :
  Forall sendable ms -> Forall2 (fun m f => encode_message_with_magic sha256d magic m = Ok f) ms frames ->
  all_bytes (concat frames) ->
  receive sha256d (S (length ms)) magic sizes new_reader (concat frames)
    = zip_with (fun m f => Ok (Some m, zlen f)) ms frames ++ [Err PeerClosed].
Proof.
  intros Hm Hf Hb.
  enough (forall st unread, discard_remaining st = 0 -> good st unread -> buffer st ++ unread = concat frames ->
    receive sha256d (S (length ms)) magic sizes st unread
      = zip_with (fun m f => Ok (Some m, zlen f)) ms frames ++ [Err PeerClosed]) as H.
  { apply H; [done| |done]. split; [left; done|done]. }
  clear Hb. induction Hf as [|m f ms frames Hmf Hf IH]; intros st unread Hd Hg Hs; cbn [length].
  - destruct (receive_step sha256d magic 0 sizes st unread Hd Hg) as (st' & u' & -> & _). by rewrite Hs.
  - inversion Hm as [|? ? Hm1 Hms]; subst.
    destruct (receive_step sha256d magic (S (length ms)) sizes st unread Hd Hg) as (st' & u' & -> & Hr).
    rewrite Hs in *. cbn [concat] in *. rewrite (next_frame_message m f) in * by done. cbn [fst snd is_ok] in *.
    destruct (Hr eq_refl) as (Hd' & Hg' & Hs'). cbn [zip_with app]. f_equal. by apply IH.
Qed.
End Streams.

(** ** Instances *)

Definition toy_sha256d (b : bytes) : bytes := repeat (from_le b mod 251) 32.
Lemma toy_sha256d_size b : zlen (toy_sha256d b) = 32.
Proof. unfold zlen, toy_sha256d. by rewrite repeat_length. Qed.

Definition regtest_magic : bytes := [0xfa; 0xbf; 0xb5; 0xda].

Definition ping_frame : bytes :=
  frame_of regtest_magic (str "ping" ++ repeat 0 8) 8 (repeat 1 4) (put_u64 1).

Lemma ping_frame_bytes : all_bytes ping_frame.
Proof. all_bytes. Qed.

Lemma decode_message_sound_witness :
  exists c payload,
    ping_frame = frame_of regtest_magic (slice ping_frame 4 16) (zlen payload) (checksum toy_sha256d payload) payload /\
    decode_command (slice ping_frame 4 16) = Ok c /\ zlen payload <= MAX_MESSAGE_SIZE /\
    @decode_payload toy_types c payload = Ok (Ping 1).
Proof. apply (@decode_message_sound toy_types toy_sha256d); [exact ping_frame_bytes|reflexivity]. Defined.

Lemma v2_message_roundtrip_witness :
  exists b, @encode_v2_message toy_types (GetHeaders {| gh_version := 70016; locator_hashes := [repeat 3 32]; stop_hash := repeat 0 32 |}) = Ok b /\
    v2_message_type_is_valid b = true /\
    @decode_v2_message toy_types b = Ok (GetHeaders {| gh_version := 70016; locator_hashes := [repeat 3 32]; stop_hash := repeat 0 32 |}).
Proof.
  apply (@v2_message_roundtrip toy_types toy_laws); [|reflexivity].
  split; [unfold in_i; simpl; lia|]. split; [vm_compute; discriminate|].
  split; [by repeat constructor|reflexivity].
Defined.

Definition cancelled_reader : MessageReader :=
  {| buffer := ztake 10 ping_frame; discard_remaining := 0; discard_frame_size := 0 |}.

Lemma message_reader_chunking_witness :
  exists st' unread',
    @read_message toy_types toy_sha256d (2 * length (zdrop 10 ping_frame) + 3) regtest_magic (fun _ => 1) 0
      cancelled_reader (zdrop 10 ping_frame)
      = Some ((@pending toy_types toy_sha256d regtest_magic cancelled_reader (zdrop 10 ping_frame)).1, st', unread') /\
    (is_ok (@pending toy_types toy_sha256d regtest_magic cancelled_reader (zdrop 10 ping_frame)).1 = true ->
     discard_remaining st' = 0 /\ good st' unread' /\
     buffer st' ++ unread' = (@pending toy_types toy_sha256d regtest_magic cancelled_reader (zdrop 10 ping_frame)).2).
Proof.
  apply (@message_reader_chunking toy_types). split; [left; reflexivity|].
  unfold cancelled_reader. cbn [buffer]. unfold ztake, zdrop. rewrite take_drop. exact ping_frame_bytes.
Defined.

Definition nameless_frame : bytes :=
  frame_of regtest_magic (repeat 0 12) 1000001 (repeat 0 4) (repeat 0 (Z.to_nat 1000001)).

Lemma nameless_frame_facts :
  all_bytes nameless_frame /\ zlen nameless_frame = HEADER_SIZE + length_field nameless_frame /\
  length_field nameless_frame <= MAX_MESSAGE_SIZE /\ discarded nameless_frame = true.
Proof.
  assert (forall n, all_bytes (repeat 0 n)) as Hz by (intros n; induction n; constructor; [unfold is_byte; lia|done]).
  assert (zlen (repeat 0 (Z.to_nat 1000001)) = 1000001) as Hp by (unfold zlen; rewrite repeat_length; lia).
  destruct (frame_slices regtest_magic (repeat 0 12) 1000001 (repeat 0 4) (repeat 0 (Z.to_nat 1000001)))
    as (S0 & S1 & S2 & S3 & S4 & S5); [done..|unfold in_u; lia|]. fold nameless_frame in *.
  split; [|split; [|split]].
  - unfold nameless_frame, frame_of. repeat apply Forall_app_2; auto using to_le_bytes.
    all_bytes.
  - unfold length_field, HEADER_SIZE. lia.
  - unfold length_field, MAX_MESSAGE_SIZE. lia.
  - unfold discarded, length_field. rewrite S1, S2. by vm_compute.
Qed.

Lemma discarded_frame_unreported_witness :
  exists st' unread',
    @read_message toy_types toy_sha256d (2 * length nameless_frame + 3) regtest_magic (fun _ => 7) 0 new_reader nameless_frame
      = Some (Err PeerClosed, st', unread').
Proof.
  destruct nameless_frame_facts as (H1 & H2 & H3 & H4).
  exact (@discarded_frame_unreported toy_types toy_sha256d regtest_magic (fun _ => 7) 0 nameless_frame H1 H2 H3 H4).
Defined.

Definition verack_frame : bytes := frame_of regtest_magic (str "verack" ++ repeat 0 6) 0 (repeat 0 4) [].

Lemma message_stream_roundtrip_witness :
  @receive toy_types toy_sha256d 3 regtest_magic (fun _ i => Z.of_nat i) new_reader (concat [ping_frame; verack_frame])
    = [Ok (Some (Ping 1), 32); Ok (Some Verack, 24); Err PeerClosed].
Proof.
  assert (Hm : Forall (@sendable toy_types toy_laws) [Ping 1; Verack]).
  { repeat constructor; unfold in_u; try lia; intros payload E; apply Ok_inj in E; subst; vm_compute; discriminate. }
  assert (Hf : Forall2 (fun m f => @encode_message_with_magic toy_types toy_sha256d regtest_magic m = Ok f)
    [Ping 1; Verack] [ping_frame; verack_frame]) by (repeat constructor).
  assert (Hb : all_bytes (concat [ping_frame; verack_frame])) by all_bytes.
  exact (@message_stream_roundtrip toy_types toy_laws toy_sha256d toy_sha256d_size regtest_magic eq_refl
    (fun _ i => Z.of_nat i) [Ping 1; Verack] [ping_frame; verack_frame] Hm Hf Hb).
Defined.
