(* ===== verification/VersionBits.v ===== *)
(** * Version bits and deployment parameters ([src/validation.rs])

    The activation parameters of the networks, the BIP9 threshold state
    machine over a header chain, the mandatory-signalling rule, the script
    flags of a block, and the detection of unknown activated bits with its
    incremental variant. *)

From Stdlib Require Import ZArith Lia.
From stdpp Require Import base list option sorting strings.
From S2P Require Import Prelude Types.
Local Open Scope Z_scope.

(** ** Parameters *)

Inductive Network := Bitcoin | Testnet | Testnet4 | Signet | Regtest.
#[export] Instance Network_eq_dec : EqDecision Network.
Proof. solve_decision. Defined.

Record BuriedDeploymentHeights := { bip34 : Z; bip65 : Z; bip66 : Z; csv : Z; segwit : Z }.

Record Bip9Deployment := {
  bit : Z;
  start_time : Z;
  timeout : Z;
  min_activation_height : Z;
  max_activation_height : Z;
  active_duration : Z;
  threshold : Z;
  period : Z;
}.

Definition ALWAYS_ACTIVE_TIME : Z := -1.
Definition NEVER_ACTIVE_TIME : Z := -2.
Definition I64_MAX : Z := 2 ^ 63 - 1.
Definition MAX_ACTIVATION_HEIGHT : Z := 2 ^ 31 - 1.
Definition PERMANENT_ACTIVE_DURATION : Z := 2 ^ 31 - 1.

Definition is_enabled (d : Bip9Deployment) : bool := negb (start_time d =? NEVER_ACTIVE_TIME).

Record DeploymentParameters := {
  network : Network;
  buried : BuriedDeploymentHeights;
  (** [[Bip9Deployment; 3]]: test dummy, taproot, reduced data *)
  testdummy : Bip9Deployment;
  taproot : Bip9Deployment;
  reduced_data : Bip9Deployment;
  bip94 : bool;
}.
Definition bip9 (params : DeploymentParameters) : list Bip9Deployment :=
  [testdummy params; taproot params; reduced_data params].

Definition buried_deployment_heights (n : Network) : BuriedDeploymentHeights :=
  match n with
  | Bitcoin => {| bip34 := 227931; bip65 := 388381; bip66 := 363725; csv := 419328; segwit := 481824 |}
  | Testnet => {| bip34 := 21111; bip65 := 581885; bip66 := 330776; csv := 770112; segwit := 834624 |}
  | Testnet4 | Signet => {| bip34 := 1; bip65 := 1; bip66 := 1; csv := 1; segwit := 1 |}
  | Regtest => {| bip34 := 1; bip65 := 1; bip66 := 1; csv := 1; segwit := 0 |}
  end.

Definition unbounded_deployment (bit start timeout min_height threshold period : Z) : Bip9Deployment :=
  {| bit := bit; start_time := start; timeout := timeout; min_activation_height := min_height;
     max_activation_height := MAX_ACTIVATION_HEIGHT; active_duration := PERMANENT_ACTIVE_DURATION;
     threshold := threshold; period := period |}.

Definition bip9_testdummy (n : Network) : Bip9Deployment :=
  match n with
  | Regtest => unbounded_deployment 28 0 I64_MAX 0 108 144
  | Bitcoin | Signet => unbounded_deployment 28 NEVER_ACTIVE_TIME I64_MAX 0 1815 2016
  | Testnet | Testnet4 => unbounded_deployment 28 NEVER_ACTIVE_TIME I64_MAX 0 1512 2016
  end.
Definition bip9_taproot (n : Network) : Bip9Deployment :=
  match n with
  | Bitcoin => unbounded_deployment 2 1619222400 1628640000 709632 1815 2016
  | Testnet => unbounded_deployment 2 1619222400 1628640000 0 1512 2016
  | Testnet4 => unbounded_deployment 2 ALWAYS_ACTIVE_TIME I64_MAX 0 1512 2016
  | Signet => unbounded_deployment 2 ALWAYS_ACTIVE_TIME I64_MAX 0 1815 2016
  | Regtest => unbounded_deployment 2 ALWAYS_ACTIVE_TIME I64_MAX 0 108 144
  end.
Definition bip9_reduced_data (n : Network) : Bip9Deployment :=
  unbounded_deployment 4 NEVER_ACTIVE_TIME I64_MAX 0 0 (if bool_decide (n = Regtest) then 144 else 2016).

Definition for_network (n : Network) : DeploymentParameters :=
  {| network := n; buried := buried_deployment_heights n;
     testdummy := bip9_testdummy n; taproot := bip9_taproot n; reduced_data := bip9_reduced_data n;
     bip94 := bool_decide (n = Testnet4) |}.

(** ** The threshold state machine *)

Inductive Bip9State := Defined | Started | LockedIn | Active | Failed | Expired.
#[export] Instance Bip9State_eq_dec : EqDecision Bip9State.
Proof. solve_decision. Defined.

(** [times.sort_unstable(); times[times.len() / 2]] *)
Definition median (times : list Z) : Z :=
  let sorted := merge_sort Z.le times in zat sorted (zlen sorted / 2).

Definition median_versionbits_time (headers : list Header) (last : Z) : Z :=
  let start := sat_sub last 10 in
  median (map hd_time (slice headers start (last + 1))).

Definition VERSIONBITS_TOP_MASK : Z := 0xe0000000.
Definition VERSIONBITS_TOP_BITS : Z := 0x20000000.

(** [header.version.to_consensus() as u32] *)
Definition version_u32 (header : Header) : Z := of_signed 32 (hd_version header).

Definition signals (version bit : Z) : bool :=
  (Z.land version VERSIONBITS_TOP_MASK =? VERSIONBITS_TOP_BITS) && negb (Z.land version (Z.shiftl 1 bit) =? 0).
Definition versionbits_signals (header : Header) (bit : Z) : bool := signals (version_u32 header) bit.

(** The local variables of the loop. *)
Record bip9_locals := { state : Bip9State; since : Z; activation_height : option Z }.

Definition next_state (headers : list Header) (d : Bip9Deployment) (boundary : Z) (s : bip9_locals) : Bip9State :=
  let period := Z.max (period d) 1 in
  let previous_end := Z.min (boundary - 1) (sat_sub (zlen headers) 1) in
  let previous_start := Z.min (sat_sub boundary period) previous_end in
  let median_time := median_versionbits_time headers previous_end in
  let signal_count :=
    zlen (List.filter (fun header => versionbits_signals header (bit d)) (slice headers previous_start (previous_end + 1))) in
  match state s with
  | Defined => if start_time d <=? median_time then Started else Defined
  | Started =>
      if threshold d <=? signal_count then LockedIn
      else if (max_activation_height d <? MAX_ACTIVATION_HEIGHT)
              && (sat_sub (max_activation_height d) period <=? boundary) then LockedIn
      else if negb (timeout d =? I64_MAX) && (timeout d <=? median_time) then Failed
      else Started
  | LockedIn => if min_activation_height d <=? boundary then Active else LockedIn
  | Active =>
      if (active_duration d <? PERMANENT_ACTIVE_DURATION)
         && match activation_height s with
            | Some height => sat_add 32 height (active_duration d) <=? boundary
            | None => false
            end
      then Expired else Active
  | s => s
  end.

Definition bip9_step (headers : list Header) (d : Bip9Deployment) (boundary : Z) (s : bip9_locals) : bip9_locals :=
  let next := next_state headers d boundary s in
  if bool_decide (next = state s) then s
  else {| state := next; since := boundary;
          activation_height := if bool_decide (next = Active) then Some boundary else activation_height s |}.

(** The [while] loop; [None] when the fuel is not enough. *)
Fixpoint bip9_loop (fuel : nat) (headers : list Header) (d : Bip9Deployment) (height boundary : Z)
    (s : bip9_locals) : option bip9_locals :=
  match fuel with
  | O => None
  | S fuel =>
      if boundary <=? height then
        match headers with
        | [] => Some s
        | _ =>
            let s := bip9_step headers d boundary s in
            match checked_add 32 boundary (Z.max (period d) 1) with
            | None => Some s
            | Some next_boundary => bip9_loop fuel headers d height next_boundary s
            end
        end
      else Some s
  end.

Definition initial_locals : bip9_locals := {| state := Defined; since := 0; activation_height := None |}.

Definition bip9_state_at_height (headers : list Header) (d : Bip9Deployment) (height : Z)
  : option (Bip9State * Z) :=
  if start_time d =? ALWAYS_ACTIVE_TIME then Some (Active, 0)
  else if start_time d =? NEVER_ACTIVE_TIME then Some (Failed, 0)
  else
    let period := Z.max (period d) 1 in
    s ← bip9_loop (S (Z.to_nat (height / period))) headers d height period initial_locals;
    Some (state s, since s).

Definition reduced_data_activation_height (headers : list Header) (d : Bip9Deployment) (height : Z)
  : option (option Z) :=
  '(state, since) ← bip9_state_at_height headers d height;
  Some (if bool_decide (state = Active) then Some since else None).

(** ** Mandatory signalling *)

(** The result of the check, with the deployment that failed. *)
Definition in_window (d : Bip9Deployment) (height : Z) : bool :=
  let period := Z.max (period d) 1 in
  let enforcement_start := sat_sub (max_activation_height d) (sat_mul 32 period 2) in
  let enforcement_end := sat_sub (max_activation_height d) period in
  (enforcement_start <=? height) && (height <? enforcement_end).

Fixpoint mandatory_loop (deployments : list Bip9Deployment) (headers : list Header) (height version : Z)
  : option (option Bip9Deployment) :=
  match deployments with
  | [] => Some None
  | d :: deployments =>
      if MAX_ACTIVATION_HEIGHT <=? max_activation_height d then mandatory_loop deployments headers height version
      else if negb (in_window d height) then mandatory_loop deployments headers height version
      else
        '(state, _) ← bip9_state_at_height headers d (height - 1);
        if bool_decide (state = Started) && negb (signals version (bit d)) then Some (Some d)
        else mandatory_loop deployments headers height version
  end.

(** [Some None] is [Ok], [Some (Some d)] is [BadVersionBits] for [d]. *)
Definition validate_mandatory_version_bits_with_params (headers : list Header) (params : DeploymentParameters)
    (height version : Z) : option (option Bip9Deployment) :=
  if height =? 0 then Some None
  else mandatory_loop (bip9 params) headers height (of_signed 32 version).

(** ** Unknown activated bits *)

Definition VERSIONBITS_NUM_BITS : nat := 29.

Definition min_warning_height (n : Network) : Z :=
  match n with
  | Bitcoin => 483840
  | Testnet => 836640
  | Testnet4 | Signet | Regtest => 0
  end.

Definition known_bits (params : DeploymentParameters) : Z :=
  foldl (fun bits d => Z.lor bits (Z.shiftl 1 (bit d))) 0 (List.filter is_enabled (bip9 params)).

(** The signalling headers of [headers[start..end]]. *)
Definition count_signals (headers : list Header) (params : DeploymentParameters) (start last bit : Z) : Z :=
  zlen (List.filter (fun '(offset, header) =>
    let height := start + Z.of_nat offset in
    (min_warning_height (network params) <=? height) && signals (version_u32 header) bit)
    (imap pair (slice headers start last))).

(** The loop over the complete periods; 0 is DEFINED, 1 STARTED, 2 LOCKED_IN
    and 3 ACTIVE, which returns. *)
Fixpoint unknown_loop (periods : nat) (headers : list Header) (params : DeploymentParameters)
    (bit period_index state : Z) : bool :=
  match periods with
  | O => false
  | S periods =>
      let p := period (testdummy params) in
      let start := period_index * p in
      let last := start + p in
      let state :=
        if state =? 0 then 1
        else if state =? 1 then
          if threshold (testdummy params) <=? count_signals headers params start last bit then 2 else 1
        else 3 in
      if state =? 3 then true else unknown_loop periods headers params bit (period_index + 1) state
  end.

(** [for bit in 0..29], skipping the known bits, up to the first that is
    active. *)
Definition first_unknown_bit (params : DeploymentParameters) (active : Z -> bool) : option Z :=
  List.find (fun bit => (Z.land (known_bits params) (Z.shiftl 1 bit) =? 0) && active bit)
    (map Z.of_nat (seq 0 VERSIONBITS_NUM_BITS)).

Definition unknown_versionbits_active_with_params (headers : list Header) (params : DeploymentParameters) : option Z :=
  match headers with
  | [] => None
  | _ =>
      let p := period (testdummy params) in
      if (p =? 0) || (p <? threshold (testdummy params)) then None
      else
        first_unknown_bit params (fun bit =>
          unknown_loop (Z.to_nat (zlen headers / p)) headers params bit 0 0)
  end.

Definition unknown_versionbits_active_at_boundary_with_params (headers : list Header) (params : DeploymentParameters)
  : option Z :=
  let p := period (testdummy params) in
  if (p =? 0) || (p <? threshold (testdummy params)) || (zlen headers <? p * 3) then None
  else if negb (zlen headers mod p =? 0) then None
  else
    let start := zlen headers - p * 2 in
    let last := zlen headers - p in
    first_unknown_bit params (fun bit => threshold (testdummy params) <=? count_signals headers params start last bit).

(** ** Script flags *)

(** The flag constants of [bitcoinconsensus]. *)
Definition VERIFY_NONE : Z := 0.
Definition VERIFY_P2SH : Z := Z.shiftl 1 0.
Definition VERIFY_DERSIG : Z := Z.shiftl 1 2.
Definition VERIFY_NULLDUMMY : Z := Z.shiftl 1 4.
Definition VERIFY_CHECKLOCKTIMEVERIFY : Z := Z.shiftl 1 9.
Definition VERIFY_CHECKSEQUENCEVERIFY : Z := Z.shiftl 1 10.
Definition VERIFY_WITNESS : Z := Z.shiftl 1 11.
Definition VERIFY_TAPROOT : Z := Z.shiftl 1 17.

Definition bip16_exception_main : bytes := str "00000000000002dc756eebf4f49723ed8d30cc28a5f108eb94b1ba88ac4f9c22".
Definition bip16_exception_test : bytes := str "00000000dd30457c001f4095d208cc1296b0eed002427aa599874af7a432b105".
Definition taproot_exception : bytes := str "0000000000000000000f14c35b2d841e986ab5441de8c585d5ffe55ea1e395ad".

(** [block_hash] is the displayed hash. *)
Definition script_flags_for_block_with_params (params : DeploymentParameters) (height : Z)
    (block_hash : option bytes) : Z :=
  let heights := buried params in
  let flags := Z.lor (Z.lor VERIFY_P2SH VERIFY_WITNESS) VERIFY_TAPROOT in
  let hash_is hash := bool_decide (block_hash = Some hash) in
  let flags :=
    match network params with
    | Bitcoin =>
        if hash_is bip16_exception_main then VERIFY_NONE
        else if hash_is taproot_exception then Z.lor VERIFY_P2SH VERIFY_WITNESS
        else flags
    | Testnet => if hash_is bip16_exception_test then VERIFY_NONE else flags
    | _ => flags
    end in
  let flags := if bip66 heights <=? height then Z.lor flags VERIFY_DERSIG else flags in
  let flags := if bip65 heights <=? height then Z.lor flags VERIFY_CHECKLOCKTIMEVERIFY else flags in
  let flags := if csv heights <=? height then Z.lor flags VERIFY_CHECKSEQUENCEVERIFY else flags in
  if segwit heights <=? height then Z.lor (Z.lor flags VERIFY_NULLDUMMY) VERIFY_WITNESS else flags.

Definition validate_block_version_with_params (params : DeploymentParameters) (height actual : Z) : option Z :=
  let heights := buried params in
  let required :=
    if bip65 heights <=? height then 4
    else if bip66 heights <=? height then 3
    else if bip34 heights <=? height then 2
    else 1 in
  if actual <? required then Some required else None.

(** ** The states by period *)

Section States.
Variable d : Bip9Deployment.
Definition span : Z := Z.max (period d) 1.

(** The locals after the boundaries [span, 2 * span, .., n * span]. *)
Fixpoint after_periods (headers : list Header) (n : nat) : bip9_locals :=
  match n with
  | O => initial_locals
  | S n => bip9_step headers d (Z.of_nat (S n) * span) (after_periods headers n)
  end.

Lemma span_pos : 1 <= span.
Proof. unfold span. lia. Qed.

Lemma bip9_loop_spec headers h k fuel : headers ≠ [] -> in_u 32 h ->
  (k <= Z.to_nat (h / span))%nat -> (Z.to_nat (h / span) - k < fuel)%nat ->
  bip9_loop fuel headers d h (Z.of_nat (S k) * span) (after_periods headers k)
    = Some (after_periods headers (Z.to_nat (h / span))).
Proof.
  intros Hne Hh. pose proof span_pos as Hs. revert k. unfold in_u in Hh.
  induction fuel as [|fuel IH]; intros k Hk Hf; [lia|]. cbn [bip9_loop].
  destruct (Z.leb_spec (Z.of_nat (S k) * span) h) as [Hle|Hgt].
  - assert (k < Z.to_nat (h / span))%nat.
    { assert (Z.of_nat (S k) <= h / span) by (apply Z.div_le_lower_bound; lia). lia. }
    destruct headers as [|x headers]; [done|]. fold span.
    destruct (checked_add 32 (Z.of_nat (S k) * span) span) as [next|] eqn:E.
    + unfold checked_add in E. case_match; [|done]. injection E as <-.
      replace (Z.of_nat (S k) * span + span) with (Z.of_nat (S (S k)) * span) by lia.
      apply (IH (S k)); lia.
    + unfold checked_add, umax in E. case_match; [done|]. bool_to_prop.
      replace (Z.to_nat (h / span)) with (S k); [done|].
      assert (h / span < Z.of_nat (S k) + 1) by (apply Z.div_lt_upper_bound; lia). lia.
  - replace (Z.to_nat (h / span)) with k; [done|].
    assert (h / span < Z.of_nat (S k)) by (apply Z.div_lt_upper_bound; lia). lia.
Qed.

(** The state machine proper, for deployments that are neither always nor
    never active. *)
Definition scheduled : Prop := start_time d ≠ ALWAYS_ACTIVE_TIME /\ start_time d ≠ NEVER_ACTIVE_TIME.

Lemma bip9_state_spec headers h : scheduled -> headers ≠ [] -> in_u 32 h ->
  bip9_state_at_height headers d h =
    let s := after_periods headers (Z.to_nat (h / span)) in Some (state s, since s).
Proof.
  intros [H1 H2] Hne Hh. unfold bip9_state_at_height.
  bfalse (start_time d =? ALWAYS_ACTIVE_TIME). bfalse (start_time d =? NEVER_ACTIVE_TIME). fold span.
  replace span with (Z.of_nat 1 * span) at 2 by lia.
  rewrite (bip9_loop_spec headers h 0) by (try done; lia). reflexivity.
Qed.

(** What a boundary looks at: the period before it and the eleven headers of
    the median time, all of them before the boundary. *)
Lemma next_state_prefix headers more n s : Z.of_nat (S n) * span <= zlen headers ->
  next_state (headers ++ more) d (Z.of_nat (S n) * span) s = next_state headers d (Z.of_nat (S n) * span) s.
Proof.
  intros Hl. pose proof span_pos. pose proof (zlen_nonneg more). unfold next_state. fold span.
  set (b := Z.of_nat (S n) * span) in *. assert (1 <= b) by (unfold b; lia).
  rewrite zlen_app. unfold sat_sub.
  replace (Z.min (b - 1) (Z.max 0 (zlen headers + zlen more - 1))) with (b - 1) by lia.
  replace (Z.min (b - 1) (Z.max 0 (zlen headers - 1))) with (b - 1) by lia.
  assert (forall i, 0 <= i <= b - 1 -> slice (headers ++ more) i (b - 1 + 1) = slice headers i (b - 1 + 1)) as S.
  { intros i Hi. unfold slice, ztake, zdrop, zlen in *. rewrite drop_app_le by lia.
    rewrite take_app_le; [done|]. rewrite length_drop. lia. }
  unfold median_versionbits_time, sat_sub. rewrite !S by lia. reflexivity.
Qed.

Lemma after_periods_prefix headers more n : Z.of_nat n * span <= zlen headers ->
  after_periods (headers ++ more) n = after_periods headers n.
Proof.
  pose proof span_pos. induction n as [|n IH]; intros Hn; [done|]. cbn [after_periods].
  rewrite IH by lia. unfold bip9_step. by rewrite next_state_prefix.
Qed.

(** The BIP9 state that governs a block is defined, and is a function of
    the deployment and of the headers below the start of the block's period:
    it is the same for every height of the period and is not changed by any
    header that is added later. *)
Theorem bip9_state_stable headers more h h' : headers ≠ [] ->
  in_u 32 h -> in_u 32 h' -> h' / span = h / span -> (h / span) * span <= zlen headers ->
  exists result, bip9_state_at_height headers d h = Some result /\
    bip9_state_at_height (headers ++ more) d h' = Some result.
Proof.
  intros Hne Hh Hh' Hp Hl.
  destruct (Z.eq_dec (start_time d) ALWAYS_ACTIVE_TIME) as [E|E1];
    [|destruct (Z.eq_dec (start_time d) NEVER_ACTIVE_TIME) as [E|E2]].
  1,2: unfold bip9_state_at_height; rewrite E; by eexists.
  rewrite !bip9_state_spec by first [done | by destruct headers].
  eexists. split; [reflexivity|]. cbv zeta. rewrite Hp, after_periods_prefix; [done|].
  pose proof span_pos. assert (0 <= h / span) by (apply Z.div_pos; unfold in_u in Hh; lia). lia.
Qed.

(** The edges of the BIP9 state diagram. *)
Inductive bip9_edge : Bip9State -> Bip9State -> Prop :=
| edge_start : bip9_edge Defined Started
| edge_lock : bip9_edge Started LockedIn
| edge_fail : bip9_edge Started Failed
| edge_activate : bip9_edge LockedIn Active
| edge_expire : active_duration d < PERMANENT_ACTIVE_DURATION -> bip9_edge Active Expired.

Lemma next_state_edge headers b s : next_state headers d b s = state s \/ bip9_edge (state s) (next_state headers d b s).
Proof.
  unfold next_state. destruct (state s); repeat case_match; bool_to_prop; auto using bip9_edge.
Qed.

(** From one period to the next a deployment keeps its state and the
    height it dates from, or moves along one edge of the state diagram and
    dates from the boundary; in particular a deployment without an expiry
    stays active forever, and failed and expired ones never come back. *)
Theorem bip9_transitions headers h s since : headers ≠ [] -> scheduled ->
  0 <= h -> h + span < 2 ^ 32 -> bip9_state_at_height headers d h = Some (s, since) ->
  bip9_state_at_height headers d (h + span) = Some (s, since) \/
  exists s', bip9_edge s s' /\ bip9_state_at_height headers d (h + span) = Some (s', (h / span + 1) * span).
Proof.
  intros Hne Hsch H0 Hlt E. pose proof span_pos.
  rewrite bip9_state_spec in E by (try done; unfold in_u; lia). rewrite bip9_state_spec by (try done; unfold in_u; lia).
  cbv zeta in *. injection E as <- <-.
  assert (0 <= h / span) by (apply Z.div_pos; lia).
  replace ((h + span) / span) with (h / span + 1) by (rewrite <- (Z.mul_1_l span) at 2; rewrite Z.div_add; lia).
  replace (Z.to_nat (h / span + 1)) with (S (Z.to_nat (h / span))) by lia. cbn [after_periods].
  set (n := Z.to_nat (h / span)). replace (Z.of_nat (S n) * span) with ((h / span + 1) * span) by lia.
  unfold bip9_step. case_bool_decide as Hn; [by left|]. right. cbn [state VersionBits.since].
  destruct (next_state_edge headers ((h / span + 1) * span) (after_periods headers n)) as [?|He]; [done|].
  eexists. split; [exact He|]. reflexivity.
Qed.
End States.

(** ** The incremental check for unknown bits *)

Section UnknownBits.
Variable params : DeploymentParameters.
Let p : Z := period (testdummy params).

(** A bit reaches the threshold in the period with a given index. *)
Definition met (headers : list Header) (bit i : Z) : bool :=
  threshold (testdummy params) <=? count_signals headers params (i * p) (i * p + p) bit.

Lemma unknown_loop_locked n headers bit i : unknown_loop n headers params bit i 2 = true <-> (1 <= n)%nat.
Proof. destruct n; simpl; split; intros; try done; lia. Qed.

Lemma unknown_loop_started n headers bit i :
  unknown_loop n headers params bit i 1 = true <->
  exists j, i <= j /\ j + 1 < i + Z.of_nat n /\ met headers bit j = true.
Proof.
  revert i. induction n as [|n IH]; intros i.
  - simpl. split; [done|]. intros (j & ? & ? & _). lia.
  - cbn [unknown_loop]. cbn [Z.eqb Pos.eqb]. fold p. fold (met headers bit i).
    destruct (met headers bit i) eqn:Em; cbn [Z.eqb Pos.eqb].
    + rewrite unknown_loop_locked. split; [intros; exists i; split; [lia|split; [lia|done]]|].
      intros (j & ? & ? & _). lia.
    + rewrite IH. split; intros (j & ? & ? & Hm); exists j; (split; [|split; [lia|done]]); [lia|].
      destruct (Z.eq_dec j i) as [->|]; [congruence|lia].
Qed.

Lemma unknown_loop_spec n headers bit :
  unknown_loop n headers params bit 0 0 = true <->
  exists j, 1 <= j /\ j + 1 < Z.of_nat n /\ met headers bit j = true.
Proof.
  destruct n as [|n].
  - simpl. split; [done|]. intros (j & ? & ? & _). lia.
  - cbn [unknown_loop]. cbn [Z.eqb Pos.eqb]. rewrite unknown_loop_started.
    split; intros (j & ? & ? & Hm); exists j; (split; [lia|split; [lia|done]]).
Qed.

Definition unknown_bit (bit : Z) : Prop :=
  0 <= bit < 29 /\ Z.land (known_bits params) (Z.shiftl 1 bit) = 0.

Lemma first_unknown_bit_spec f :
  is_Some (first_unknown_bit params f) <-> exists bit, unknown_bit bit /\ f bit = true.
Proof.
  unfold first_unknown_bit. split.
  - intros [b Hb]. apply find_some in Hb as [Hin Hb]. apply in_map_iff in Hin as (n & <- & Hn).
    apply in_seq in Hn. bool_to_prop. exists (Z.of_nat n). unfold unknown_bit, VERSIONBITS_NUM_BITS in *.
    split; [split; [lia|done]|done].
  - intros (b & [Hr Hk] & Hf). destruct (List.find _ _) as [x|] eqn:E; [by eexists|].
    apply (find_none _ _) with (x := b) in E.
    + rewrite Hk, Hf in E. done.
    + apply in_map_iff. exists (Z.to_nat b). split; [lia|]. apply in_seq. unfold VERSIONBITS_NUM_BITS. lia.
Qed.

Lemma met_prefix headers n bit j : 0 <= j -> 0 <= p -> j * p + p <= n -> n <= zlen headers ->
  met (ztake n headers) bit j = met headers bit j.
Proof.
  intros Hj Hp Hn Hl. unfold met, count_signals.
  replace (slice (ztake n headers) (j * p) (j * p + p)) with (slice headers (j * p) (j * p + p)); [done|].
  unfold slice, ztake, zdrop. rewrite <- (take_drop (Z.to_nat n) headers) at 1.
  rewrite drop_app_le, take_app_le; [done|rewrite length_drop|]; rewrite length_take; unfold zlen in Hl; lia.
Qed.

Lemma unknown_active_spec headers : 0 < p -> threshold (testdummy params) <= p ->
  is_Some (unknown_versionbits_active_with_params headers params) <->
  exists bit j, unknown_bit bit /\ 1 <= j /\ j + 1 < zlen headers / p /\ met headers bit j = true.
Proof.
  intros Hp Ht. unfold unknown_versionbits_active_with_params. fold p.
  bfalse (p =? 0). bfalse (p <? threshold (testdummy params)). cbn [orb].
  assert (0 <= zlen headers / p) by (apply Z.div_pos; [apply zlen_nonneg|lia]).
  destruct headers as [|x headers].
  - split; [by intros [? ?]|]. intros (? & j & _ & ? & Hj & _). rewrite Z.div_0_l in Hj by lia. lia.
  - rewrite first_unknown_bit_spec. split.
    + intros (b & Hb & Hl). apply unknown_loop_spec in Hl as (j & ? & ? & ?).
      exists b, j. split; [done|]. split; [done|]. split; [lia|done].
    + intros (b & j & Hb & ? & ? & ?). exists b. split; [done|]. apply unknown_loop_spec.
      exists j. split; [done|]. split; [lia|done].
Qed.

End UnknownBits.

(** ** Examples *)

Definition toy_header (version time : Z) : Header :=
  {| hd_version := version; prev_blockhash := []; merkle_root := []; hd_time := time; hd_bits := 0; hd_nonce := 0 |}.

(** A regtest-like deployment on bit 4 with periods of four blocks and a
    forced activation at height 16. *)
Definition toy_deployment (start : Z) : Bip9Deployment :=
  {| bit := 4; start_time := start; timeout := I64_MAX; min_activation_height := 0;
     max_activation_height := 16; active_duration := PERMANENT_ACTIVE_DURATION; threshold := 3; period := 4 |}.
Definition toy_params (start : Z) : DeploymentParameters :=
  {| network := Regtest; buried := buried_deployment_heights Regtest; testdummy := bip9_testdummy Regtest;
     taproot := bip9_taproot Regtest; reduced_data := toy_deployment start; bip94 := false |}.

Definition quiet (time : Z) : Header := toy_header 4 time.
Definition signalling (time : Z) : Header := toy_header 0x20000010 time.

Definition locked_chain : list Header := map quiet [0; 1; 2; 3] ++ map signalling [4; 5; 6; 7].
Definition starting_chain : list Header := map quiet [0; 1; 2; 3; 4; 5; 6; 7].

(** The mandatory-signalling check consults the state of the parent's
    period: at a period boundary it rejects a block that does not signal
    although the deployment governing that block is already locked in, and
    accepts one although the deployment governing it is started. *)
Theorem mandatory_signalling_lags :
  (bip9_state_at_height locked_chain (toy_deployment 0) 8 = Some (LockedIn, 8) /\
   validate_mandatory_version_bits_with_params locked_chain (toy_params 0) 8 4 = Some (Some (toy_deployment 0))) /\
  (bip9_state_at_height starting_chain (toy_deployment 3) 8 = Some (Started, 8) /\
   validate_mandatory_version_bits_with_params starting_chain (toy_params 3) 8 4 = Some None).
Proof. vm_compute. repeat split. Qed.

Lemma bip9_state_stable_witness :
  exists result, bip9_state_at_height locked_chain (toy_deployment 0) 8 = Some result /\
    bip9_state_at_height (locked_chain ++ [quiet 9]) (toy_deployment 0) 11 = Some result.
Proof. apply (bip9_state_stable (toy_deployment 0)); first [done | unfold in_u; lia]. Defined.

Lemma bip9_transitions_witness :
  bip9_state_at_height locked_chain (toy_deployment 0) 8 = Some (Started, 4) \/
  exists s', bip9_edge (toy_deployment 0) Started s' /\
    bip9_state_at_height locked_chain (toy_deployment 0) 8 = Some (s', 8).
Proof.
  apply (bip9_transitions (toy_deployment 0) locked_chain 4 Started 4); [done|split; discriminate|lia|reflexivity|].
  vm_compute. reflexivity.
Defined.

Definition one_block_periods : DeploymentParameters :=
  {| network := Regtest; buried := buried_deployment_heights Regtest;
     testdummy := unbounded_deployment 28 0 I64_MAX 0 1 1;
     taproot := bip9_taproot Regtest; reduced_data := bip9_reduced_data Regtest; bip94 := false |}.

