(* ===== verification/BlockChecks.v ===== *)
(** * Block and transaction checks ([src/validation.rs])

    The context-free checks of a block body before and after its header is
    accepted, the witness commitment, the signet solution, the block
    subsidy, and the finality and sequence-lock rules.  What the node asks
    the [bitcoin] and [bitcoinconsensus] crates about a transaction, a script
    or a block is the class [BitcoinOps]. *)

From Stdlib Require Import ZArith Lia.
From stdpp Require Import base list option gmap sets.
From S2P Require Import Prelude Types Merkle VersionBits.
Local Open Scope Z_scope.

Definition MAX_BLOCK_WEIGHT : Z := 4000000.
Definition MAX_BLOCK_SIGOP_COST : Z := 80000.

Inductive ValidationError :=
| WrongPreviousBlock
| BadTarget
| BadProofOfWork
| TargetAboveLimit
| TimeTooOld
| TimeTooNew
| NodeExpired
| Bip94TimeWarp
| EmptyBlock
| BadMerkleRoot
| BadWitnessNonceSize
| BadWitnessMerkleMatch
| UnexpectedWitness
| BadSignetSolution
| OversizedBlockBase
| OversizedBlock
| OversizedTransaction (txid : bytes)
| TooManySigops
| BadBlockVersion (actual required : Z)
| BadVersionBits (deployment_bit max_activation_height : Z)
| BadCoinbase
| FirstTransactionNotCoinbase
| ExtraCoinbase (txid : bytes)
| NullPrevout (txid : bytes)
| EmptyInputs (txid : bytes)
| EmptyOutputs (txid : bytes)
| DuplicateInput (txid : bytes)
| DuplicateTransaction (txid : bytes)
| NegativeOutputValue (txid : bytes)
| BadOutputValue (txid : bytes)
| OutputTotalOverflow
| SubsidyOverflow
| CoinbaseOverpay (actual allowed : Z)
| BadCoinbaseHeight
| NonFinalTransaction
| NonFinalSequence
| MissingInput (outpoint : OutPoint)
| ImmatureCoinbase (outpoint : OutPoint)
| InputTotalOverflow
| AccumulatedFeeOverflow
| NegativeFee (txid : bytes)
| Bip30 (txid : bytes)
| TooManySigopsInConnect
| ScriptError (txid : bytes) (input : Z).

(** An element of [Script::instructions()]. *)
Inductive Instruction := PushBytes (data : bytes) | Op (opcode : Z).

(** The functions of the libraries. *)
Class BitcoinOps := {
  sha256d : bytes -> bytes;
  block_hash : Block -> bytes;
  signet_genesis_hash : bytes;
  compute_txid : Transaction -> bytes;
  base_size : Transaction -> Z;
  is_coinbase : Transaction -> bool;
  is_null : OutPoint -> bool;
  null_outpoint : OutPoint;
  is_lock_time_enabled : Transaction -> bool;
  is_relative_lock_time : Z -> bool;
  is_height_locked : Z -> bool;
  count_sigops_legacy : bytes -> Z;
  header_size : Header -> Z;
  varint_size : Z -> Z;
  block_weight : Block -> Z;
  witness_root : Block -> option bytes;
  compute_witness_commitment : bytes -> bytes -> bytes;
  (** [Builder::new().push_int(n)] *)
  push_int : Z -> bytes;
  push_slice : bytes -> bytes;
  (** the instructions up to the first error *)
  instructions : bytes -> list Instruction;
  calculate_root : list bytes -> option bytes;
  script_partial : bytes -> result () (bytes * Z);
  witness_partial : bytes -> result () (list bytes * Z);
  serialize_transaction : Transaction -> bytes;
  (** script, amount, spending transaction, spent output, input, flags *)
  verify_with_flags : bytes -> Z -> bytes -> TxOut -> Z -> Z -> bool;
}.

Section Checks.
Context {Ops : BitcoinOps}.

(** ** Signet *)

Definition SIGNET_HEADER : bytes := [0xec; 0xc7; 0xda; 0xa2].
Definition COMMITMENT_MAGIC : bytes := [0x6a; 0x24; 0xaa; 0x21; 0xa9; 0xed].

Definition is_commitment (output : TxOut) : bool :=
  (38 <=? zlen (script_pubkey output)) && bool_decide (slice (script_pubkey output) 0 6 = COMMITMENT_MAGIC).

(** [iter().rposition(p)] *)
Fixpoint rposition {A} (p : A -> bool) (l : list A) : option nat :=
  match l with
  | [] => None
  | x :: l =>
      match rposition p l with
      | Some i => Some (S i)
      | None => if p x then Some 0%nat else None
      end
  end.

Definition signet_block_data (block : Block) (modified_merkle : bytes) : bytes :=
  to_le 4 (of_signed 32 (hd_version (blk_header block))) ++ prev_blockhash (blk_header block) ++
  modified_merkle ++ to_le 4 (hd_time (blk_header block)).

Fixpoint extract_loop (l : list Instruction) (replacement solution : bytes) (found_header : bool)
  : bytes * bytes * bool :=
  match l with
  | [] => (replacement, solution, found_header)
  | PushBytes data :: l =>
      if negb found_header && (zlen SIGNET_HEADER <? zlen data) && starts_with data SIGNET_HEADER then
        extract_loop l (replacement ++ push_slice SIGNET_HEADER) (solution ++ zdrop (zlen SIGNET_HEADER) data) true
      else extract_loop l (replacement ++ push_slice data) solution found_header
  | Op opcode :: l => extract_loop l (replacement ++ [opcode]) solution found_header
  end.

Definition extract_signet_solution (commitment : bytes) : bytes * bytes :=
  let '(replacement, solution, found_header) := extract_loop (instructions commitment) [] [] false in
  if found_header then (replacement, solution) else (commitment, []).

Definition parse_signet_solution (solution : bytes) : result ValidationError (bytes * list bytes) :=
  match solution with
  | [] => Ok ([], [])
  | _ =>
      let? '(script, script_size) := map_err (fun _ => BadSignetSolution) (script_partial solution) in
      let? remaining := ok_or (get_range solution script_size (zlen solution)) BadSignetSolution in
      let? '(wit, witness_size) := map_err (fun _ => BadSignetSolution) (witness_partial remaining) in
      check? script_size + witness_size =? zlen solution else BadSignetSolution in
      Ok (script, wit)
  end.

Definition with_commitment (coinbase : Transaction) (index : nat) (script : bytes) : Transaction :=
  {| tx_version := tx_version coinbase; tx_lock_time := tx_lock_time coinbase; tx_input := tx_input coinbase;
     tx_output := alter (fun output => {| value := value output; script_pubkey := script |}) index (tx_output coinbase) |}.

(** [PushBytesBuf::try_from] fails on more than [u32::MAX] bytes. *)
Definition validate_signet_block_solution (block : Block) (challenge : bytes) : result ValidationError () :=
  if bool_decide (block_hash block = signet_genesis_hash) then Ok tt
  else
    match txdata block with
    | [] => Err BadSignetSolution
    | coinbase :: others =>
        let? commitment_index := ok_or (rposition is_commitment (tx_output coinbase)) BadSignetSolution in
        let? output := ok_or (tx_output coinbase !! commitment_index) BadSignetSolution in
        let '(modified_commitment, solution) := extract_signet_solution (script_pubkey output) in
        let modified_coinbase := with_commitment coinbase commitment_index modified_commitment in
        let? modified_merkle :=
          ok_or (calculate_root (compute_txid modified_coinbase :: map compute_txid others)) BadSignetSolution in
        let block_data := signet_block_data block modified_merkle in
        check? zlen block_data <=? umax 32 else BadSignetSolution in
        let tx_to_spend :=
          {| tx_version := 0; tx_lock_time := 0;
             tx_input := [{| previous_output := null_outpoint; script_sig := 0 :: push_slice block_data;
                             sequence := 0; witness := [] |}];
             tx_output := [{| value := 0; script_pubkey := challenge |}] |} in
        let? '(script, wit) := parse_signet_solution solution in
        let tx_spending :=
          {| tx_version := 0; tx_lock_time := 0;
             tx_input := [{| previous_output := {| txid := compute_txid tx_to_spend; vout := 0 |};
                             script_sig := script; sequence := 0; witness := wit |}];
             tx_output := [{| value := 0; script_pubkey := [0x6a] |}] |} in
        let flags := Z.lor (Z.lor (Z.lor VERIFY_P2SH VERIFY_WITNESS) VERIFY_DERSIG) VERIFY_NULLDUMMY in
        check? verify_with_flags challenge 0 (serialize_transaction tx_spending)
                 {| value := 0; script_pubkey := challenge |} 0 flags else BadSignetSolution in
        Ok tt
    end.

(** ** Witness commitment *)

Definition block_has_witness (block : Block) : bool :=
  existsb (fun t => existsb (fun i => match witness i with [] => false | _ => true end) (tx_input t)) (txdata block).

Definition validate_witness_commitment (block : Block) (expect_witness_commitment : bool)
  : result ValidationError () :=
  let commitment :=
    coinbase ← list.head (txdata block);
    index ← rposition is_commitment (tx_output coinbase);
    tx_output coinbase !! index in
  if expect_witness_commitment then
    match commitment with
    | Some output =>
        let? coinbase := ok_or (list.head (txdata block)) BadWitnessMerkleMatch in
        let? wit := ok_or (witness <$> list.head (tx_input coinbase)) BadWitnessNonceSize in
        match wit with
        | [nonce] =>
            check? zlen nonce =? 32 else BadWitnessNonceSize in
            let commitment := slice (script_pubkey output) 6 38 in
            let? root := ok_or (witness_root block) BadWitnessMerkleMatch in
            check? bool_decide (commitment = compute_witness_commitment root nonce) else BadWitnessMerkleMatch in
            Ok tt
        | _ => Err BadWitnessNonceSize
        end
    | None => check? negb (block_has_witness block) else UnexpectedWitness in Ok tt
    end
  else check? negb (block_has_witness block) else UnexpectedWitness in Ok tt.

(** ** Transactions *)

Definition legacy_sigop_cost_for_transaction (t : Transaction) : Z :=
  sat_mul 64
    (foldl Z.add 0 (map (fun i => count_sigops_legacy (script_sig i)) (tx_input t) ++
                    map (fun o => count_sigops_legacy (script_pubkey o)) (tx_output t))) 4.

(** The loop over the outputs of a transaction. *)
Fixpoint output_total (outputs : list TxOut) (txid : bytes) (total : Z) : result ValidationError Z :=
  match outputs with
  | [] => Ok total
  | output :: outputs =>
      check? value output <=? 2 ^ 63 - 1 else NegativeOutputValue txid in
      check? value output <=? MAX_MONEY else BadOutputValue txid in
      let? total := ok_or (checked_add 64 total (value output)) OutputTotalOverflow in
      output_total outputs txid total
  end.

(** The loop that inserts the spent outputs into a [HashSet]. *)
Fixpoint inputs_unique (inputs : list TxIn) (seen : gset OutPoint) : bool :=
  match inputs with
  | [] => true
  | input :: inputs =>
      if bool_decide (previous_output input ∈ seen) then false
      else inputs_unique inputs ({[previous_output input]} ∪ seen)
  end.

(** The checks both block functions make of one transaction; the result is
    the sum of its outputs. *)
Definition check_transaction (position : Z) (t : Transaction) (txid : bytes) : result ValidationError Z :=
  check? sat_mul 64 (base_size t) 4 <=? MAX_BLOCK_WEIGHT else OversizedTransaction txid in
  check? negb ((0 <? position) && is_coinbase t) else ExtraCoinbase txid in
  check? negb (zlen (tx_input t) =? 0) else EmptyInputs txid in
  check? negb (zlen (tx_output t) =? 0) else EmptyOutputs txid in
  let? total := output_total (tx_output t) txid 0 in
  check? total <=? MAX_MONEY else OutputTotalOverflow in
  check? inputs_unique (tx_input t) ∅ else DuplicateInput txid in
  check? negb (negb (is_coinbase t) && existsb (fun i => is_null (previous_output i)) (tx_input t))
    else NullPrevout txid in
  check? negb (is_coinbase t &&
               match tx_input t with
               | i :: _ => (zlen (script_sig i) <? 2) || (100 <? zlen (script_sig i))
               | [] => false
               end) else BadCoinbase in
  Ok total.

(** ** Blocks *)

Definition block_base_size (block : Block) : Z :=
  header_size (blk_header block) + varint_size (zlen (txdata block)) + foldl Z.add 0 (map base_size (txdata block)).

Fixpoint before_header_loop (l : list (Transaction * bytes)) (position legacy_sigop_cost : Z)
  : result ValidationError () :=
  match l with
  | [] => Ok tt
  | (t, txid) :: l =>
      let? _ := check_transaction position t txid in
      let legacy_sigop_cost := sat_add 64 legacy_sigop_cost (legacy_sigop_cost_for_transaction t) in
      check? legacy_sigop_cost <=? MAX_BLOCK_SIGOP_COST else TooManySigops in
      before_header_loop l (position + 1) legacy_sigop_cost
  end.

Definition check_merkle (block : Block) (transaction_ids : list bytes) : result ValidationError () :=
  let '(root, mutated_txid) := merkle_root_and_mutated_txid sha256d transaction_ids in
  check? bool_decide (root = Some (merkle_root (blk_header block))) else BadMerkleRoot in
  match mutated_txid with
  | Some txid => Err (DuplicateTransaction txid)
  | None => Ok tt
  end.

Definition validate_block_before_header (block : Block) (signet_challenge : option bytes) : result ValidationError () :=
  match txdata block with
  | [] => Err EmptyBlock
  | first :: _ =>
      let? _ := (match signet_challenge with
                 | Some challenge => validate_signet_block_solution block challenge
                 | None => Ok tt
                 end) in
      let transaction_ids := map compute_txid (txdata block) in
      let? _ := check_merkle block transaction_ids in
      check? sat_mul 64 (block_base_size block) 4 <=? MAX_BLOCK_WEIGHT else OversizedBlockBase in
      check? is_coinbase first else FirstTransactionNotCoinbase in
      before_header_loop (zip (txdata block) transaction_ids) 0 0
  end.

Record BlockValidationStats := { tx_count : Z; total_output_sat : Z }.

Fixpoint structure_loop (l : list (Transaction * bytes)) (position total legacy_sigop_cost : Z)
  : result ValidationError Z :=
  match l with
  | [] => Ok total
  | (t, txid) :: l =>
      let? tx_total := check_transaction position t txid in
      let? total := ok_or (checked_add 64 total tx_total) OutputTotalOverflow in
      let legacy_sigop_cost := sat_add 64 legacy_sigop_cost (legacy_sigop_cost_for_transaction t) in
      check? legacy_sigop_cost <=? MAX_BLOCK_SIGOP_COST else TooManySigops in
      structure_loop l (position + 1) total legacy_sigop_cost
  end.

(** [try_fold(0u64, |total, output| total.checked_add(..))] *)
Fixpoint coinbase_output_total (outputs : list TxOut) (total : Z) : option Z :=
  match outputs with
  | [] => Some total
  | output :: outputs => total ← checked_add 64 total (value output); coinbase_output_total outputs total
  end.

Definition validate_block_structure_with_options_internal (block : Block) (transaction_ids : list bytes)
    (params : DeploymentParameters) (height expected_coinbase_value : Z) (signet_challenge : option bytes)
    (check_signet_solution check_merkle_root check_witness_commitment : bool)
  : result ValidationError BlockValidationStats :=
  match txdata block with
  | [] => Err EmptyBlock
  | first :: _ =>
      let version := hd_version (blk_header block) in
      let? _ := (match validate_block_version_with_params params height version with
                 | Some required => Err (BadBlockVersion version required)
                 | None => Ok tt
                 end) in
      let? _ := (if check_merkle_root then check_merkle block transaction_ids else Ok tt) in
      let? _ := (if check_witness_commitment
                 then validate_witness_commitment block (segwit (buried params) <=? height) else Ok tt) in
      check? sat_mul 64 (block_base_size block) 4 <=? MAX_BLOCK_WEIGHT else OversizedBlockBase in
      check? block_weight block <=? MAX_BLOCK_WEIGHT else OversizedBlock in
      check? is_coinbase first else FirstTransactionNotCoinbase in
      let? coinbase_total := ok_or (coinbase_output_total (tx_output first) 0) OutputTotalOverflow in
      let? total := structure_loop (zip (txdata block) transaction_ids) 0 0 0 in
      check? negb ((bip34 (buried params) <=? height)
                   && negb (match tx_input first with
                            | i :: _ => starts_with (script_sig i) (push_int height)
                            | [] => false
                            end)) else BadCoinbaseHeight in
      check? coinbase_total <=? expected_coinbase_value else CoinbaseOverpay coinbase_total expected_coinbase_value in
      let? _ := (match signet_challenge with
                 | Some challenge =>
                     if check_signet_solution then validate_signet_block_solution block challenge else Ok tt
                 | None => Ok tt
                 end) in
      Ok {| tx_count := zlen (txdata block); total_output_sat := total |}
  end.

(** ** Money *)

Definition block_subsidy_for_network (n : Network) (height : Z) : Z :=
  let halving_interval := if bool_decide (n = Regtest) then 150 else 210000 in
  let halvings := height / halving_interval in
  if 64 <=? halvings then 0 else Z.shiftr (50 * 100000000) halvings.

Definition checked_money_add (l r : Z) : result ValidationError Z :=
  let? sum := ok_or (checked_add 64 l r) SubsidyOverflow in
  check? sum <=? MAX_MONEY else SubsidyOverflow in
  Ok sum.

(** ** Finality *)

Definition LOCK_TIME_THRESHOLD : Z := 500000000.

Definition validate_transaction_absolute_finality (t : Transaction) (height lock_time_cutoff : Z)
  : result ValidationError () :=
  if negb (is_lock_time_enabled t) then Ok tt
  else
    let lock_time := tx_lock_time t in
    if lock_time =? 0 then Ok tt
    else
      let limit := if lock_time <? LOCK_TIME_THRESHOLD then height else lock_time_cutoff in
      check? lock_time <? limit else NonFinalTransaction in
      Ok tt.

Definition validate_transaction_sequence_lock_input (input : TxIn) (transaction_version height lock_time_cutoff : Z)
    (csv_active : bool) (entry_height entry_median_time_past : Z) : result ValidationError () :=
  if negb csv_active || (transaction_version <? 2) || negb (is_relative_lock_time (sequence input)) then Ok tt
  else
    let relative := Z.land (sequence input) 0xffff in
    if is_height_locked (sequence input) then
      check? sat_add 32 entry_height relative <=? height else NonFinalSequence in Ok tt
    else
      let relative_seconds := sat_mul 32 relative 512 in
      let required_time := entry_median_time_past + relative_seconds - 1 in
      check? required_time <? lock_time_cutoff else NonFinalSequence in Ok tt.

Fixpoint sequence_locks_loop (l : list (TxIn * (Z * Z))) (transaction_version height lock_time_cutoff : Z)
    (csv_active : bool) : result ValidationError () :=
  match l with
  | [] => Ok tt
  | (input, (entry_height, entry_mtp)) :: l =>
      let? _ := validate_transaction_sequence_lock_input input transaction_version height lock_time_cutoff
                  csv_active entry_height entry_mtp in
      sequence_locks_loop l transaction_version height lock_time_cutoff csv_active
  end.

Definition validate_transaction_finality_with_metadata (t : Transaction) (height lock_time_cutoff : Z)
    (csv_active : bool) (previous_entries : list (Z * Z)) : result ValidationError () :=
  let? _ := validate_transaction_absolute_finality t height lock_time_cutoff in
  if negb csv_active || (tx_version t <? 2) || negb (zlen previous_entries =? zlen (tx_input t)) then Ok tt
  else sequence_locks_loop (zip (tx_input t) previous_entries) (tx_version t) height lock_time_cutoff csv_active.
End Checks.

(** ** What an accepted block satisfies *)

Section Accepted.
Context {Ops : BitcoinOps}.

Definition sum (l : list Z) : Z := foldr Z.add 0 l.

Lemma sum_app l1 l2 : sum (l1 ++ l2) = sum l1 + sum l2.
Proof. induction l1 as [|x l1 IH]; simpl; [done|]. rewrite IH. lia. Qed.
Lemma foldl_add l a : foldl Z.add a l = a + sum l.
Proof. revert a. induction l as [|x l IH]; intros a; simpl; [lia|]. rewrite IH. lia. Qed.
Lemma sum_nonneg l : Forall (fun x => 0 <= x) l -> 0 <= sum l.
Proof. induction 1; simpl; lia. Qed.

Definition output_value (t : Transaction) : Z := sum (map value (tx_output t)).

(** The signature operations of a transaction, without saturation. *)
Definition legacy_sigops (t : Transaction) : Z :=
  sum (map (fun i => count_sigops_legacy (script_sig i)) (tx_input t)) +
  sum (map (fun o => count_sigops_legacy (script_pubkey o)) (tx_output t)).

Record transaction_sound (t : Transaction) : Prop := {
  ts_inputs : tx_input t ≠ [];
  ts_outputs : tx_output t ≠ [];
  ts_unique : NoDup (map previous_output (tx_input t));
  ts_values : Forall (fun o => value o <= MAX_MONEY) (tx_output t);
  ts_total : output_value t <= MAX_MONEY;
  ts_prevouts : is_coinbase t = false -> Forall (fun i => is_null (previous_output i) = false) (tx_input t);
}.

Lemma output_total_spec outputs id total r : output_total outputs id total = Ok r ->
  r = total + sum (map value outputs) /\ Forall (fun o => value o <= MAX_MONEY) outputs.
Proof.
  revert total. induction outputs as [|o outputs IH]; intros total E; cbn [output_total map sum foldr] in *.
  - apply Ok_inj in E. split; [lia|constructor].
  - destruct (_ <=? 2 ^ 63 - 1); [|done]. destruct (value o <=? MAX_MONEY) eqn:Ev; [|done].
    apply rbind_Ok in E as (t & Ht & E). apply ok_or_Ok in Ht. unfold checked_add in Ht. case_match; [|done].
    injection Ht as <-. apply IH in E as [-> Hf]. bool_to_prop. split; [unfold sum; lia|]. by constructor.
Qed.

Lemma inputs_unique_spec inputs seen : inputs_unique inputs seen = true ->
  NoDup (map previous_output inputs) /\ (forall i, i ∈ inputs -> previous_output i ∉ seen).
Proof.
  revert seen. induction inputs as [|i inputs IH]; intros seen E; cbn [inputs_unique map] in *.
  - split; [constructor|]. intros i Hi. by apply not_elem_of_nil in Hi.
  - case_bool_decide as Hin; [done|]. apply IH in E as [Hd Hs]. split.
    + constructor; [|done]. intros Hi. apply list_elem_of_In, in_map_iff in Hi as (j & Ej & Hj).
      apply (Hs j); [by apply list_elem_of_In|]. by apply elem_of_union_l, elem_of_singleton.
    + intros j [->|Hj]%elem_of_cons; [done|]. specialize (Hs j Hj). by apply not_elem_of_union in Hs as [_ ?].
Qed.

Lemma check_transaction_sound position t id total : check_transaction position t id = Ok total ->
  transaction_sound t /\ total = output_value t /\ (0 < position -> is_coinbase t = false).
Proof.
  unfold check_transaction. intros E.
  destruct (_ <=? MAX_BLOCK_WEIGHT); [|done].
  destruct (negb ((0 <? position) && is_coinbase t)) eqn:Ec; [|done].
  destruct (negb (zlen (tx_input t) =? 0)) eqn:Ei; [|done].
  destruct (negb (zlen (tx_output t) =? 0)) eqn:Eo; [|done].
  apply rbind_Ok in E as (tot & Ht & E). apply output_total_spec in Ht as [-> Hv].
  destruct (_ <=? MAX_MONEY) eqn:Em; [|done].
  destruct (inputs_unique _ _) eqn:Eu; [|done].
  destruct (negb (negb _ && _)) eqn:En; [|done].
  destruct (negb (is_coinbase t && _)) eqn:Eb; [|done]. apply Ok_inj in E as <-.
  bool_to_prop. apply inputs_unique_spec in Eu as [Hu _]. split; [|split; [done|]].
  - split; [by intros E; rewrite E in Ei|by intros E; rewrite E in Eo|done|done|unfold output_value in *; lia|].
    intros Hc. rewrite Hc in En. cbn [negb andb] in En. apply Forall_forall. intros i Hi.
    destruct (is_null (previous_output i)) eqn:E; [|done].
    rewrite <- En. symmetry. apply existsb_exists. exists i. split; [by apply list_elem_of_In|done].
  - intros Hp. rewrite (proj2 (Z.ltb_lt _ _) Hp) in Ec. by destruct (is_coinbase t).
Qed.

(** Signature operation counts are counts. *)
Hypothesis sigops_nonneg : forall script, 0 <= count_sigops_legacy script.

Lemma legacy_sigops_nonneg t : 0 <= legacy_sigops t.
Proof.
  assert (forall A (f : A -> Z) l, (forall x, 0 <= f x) -> 0 <= sum (map f l)) as H.
  { intros A f l Hf. induction l; simpl; [lia|]. specialize (Hf a). lia. }
  unfold legacy_sigops. pose proof (H _ (fun i => count_sigops_legacy (script_sig i)) (tx_input t) (fun i => sigops_nonneg _)).
  pose proof (H _ (fun o => count_sigops_legacy (script_pubkey o)) (tx_output t) (fun i => sigops_nonneg _)). lia.
Qed.

Lemma legacy_cost_spec t : legacy_sigop_cost_for_transaction t = Z.min (4 * legacy_sigops t) (umax 64).
Proof. unfold legacy_sigop_cost_for_transaction, sat_mul. rewrite foldl_add, sum_app. unfold legacy_sigops. lia. Qed.

(** What the loop over the transactions of a block establishes. *)
Lemma structure_loop_sound l position total cost r : 0 <= position -> 0 <= cost ->
  structure_loop l position total cost = Ok r ->
  Forall (fun '(t, _) => transaction_sound t) l /\
  r = total + sum (map (fun '(t, _) => output_value t) l) /\
  cost + 4 * sum (map (fun '(t, _) => legacy_sigops t) l) <= Z.max cost MAX_BLOCK_SIGOP_COST /\
  Forall (fun '(t, _) => is_coinbase t = false) (if 0 <? position then l else tail l).
Proof.
  revert position total cost. induction l as [|[t id] l IH]; intros position total cost Hp Hc E; cbn [structure_loop] in E.
  - apply Ok_inj in E. repeat split; simpl; [constructor|lia..|]. by case_match.
  - apply rbind_Ok in E as (x & Ht & E). apply check_transaction_sound in Ht as (Ht & -> & Hcb).
    apply rbind_Ok in E as (tot & Htot & E). apply ok_or_Ok in Htot. unfold checked_add in Htot.
    destruct (_ <=? umax 64) in Htot; [|done]. injection Htot as <-.
    destruct (_ <=? MAX_BLOCK_SIGOP_COST) eqn:Es in E; [|done]. bool_to_prop.
    pose proof (legacy_sigops_nonneg t). unfold sat_add in *. rewrite legacy_cost_spec in *.
    unfold umax, MAX_BLOCK_SIGOP_COST in *.
    apply IH in E as (H1 & -> & H3 & H4); [|lia..]. cbn [map sum foldr]. fold sum.
    split; [by constructor|]. split; [unfold sum; lia|]. split; [unfold sum in *; lia|].
    rewrite (proj2 (Z.ltb_lt 0 (position + 1))) in H4 by lia. destruct (Z.ltb_spec 0 position); [|done].
    constructor; [by apply Hcb|done].
Qed.

Lemma coinbase_total_spec outputs total r : coinbase_output_total outputs total = Some r ->
  r = total + sum (map value outputs).
Proof.
  revert total. induction outputs as [|o outputs IH]; intros total E; cbn [coinbase_output_total] in E.
  - injection E as <-. simpl. lia.
  - apply bind_Some in E as (x & Hx & E). unfold checked_add in Hx. destruct (_ <=? umax 64) in Hx; [|done].
    injection Hx as <-. apply IH in E as ->. simpl. unfold sum. lia.
Qed.

Lemma check_merkle_spec block ids : check_merkle block ids = Ok tt ->
  merkle_root_and_mutated_txid sha256d ids = (Some (merkle_root (blk_header block)), None).
Proof.
  unfold check_merkle. destruct (merkle_root_and_mutated_txid sha256d ids) as [root m].
  case_bool_decide; [|done]. destruct m; [done|]. by subst.
Qed.

Lemma zip_fst_sum {A} (f : Transaction -> Z) l (ids : list A) : length l = length ids ->
  sum (map (fun '(t, _) => f t) (zip l ids)) = sum (map f l).
Proof. revert ids. induction l as [|t l IH]; intros [|i ids] H; simpl in *; try done. rewrite IH; lia. Qed.

Lemma zip_fst_Forall {A} (P : Transaction -> Prop) l (ids : list A) : length l = length ids ->
  Forall (fun '(t, _) => P t) (zip l ids) -> Forall P l.
Proof.
  revert ids. induction l as [|t l IH]; intros [|i ids] H Hf; simpl in *; try done.
  inversion Hf; subst. constructor; [done|]. apply (IH ids); [lia|done].
Qed.

Lemma structure_sound block params height expected challenge cs cw stats :
  validate_block_structure_with_options_internal block (map compute_txid (txdata block)) params height expected
    challenge cs true cw = Ok stats ->
  exists coinbase others, txdata block = coinbase :: others /\
    is_coinbase coinbase = true /\ Forall (fun t => is_coinbase t = false) others /\
    merkle_root_and_mutated_txid sha256d (map compute_txid (txdata block))
      = (Some (merkle_root (blk_header block)), None) /\
    Forall transaction_sound (txdata block) /\
    block_weight block <= MAX_BLOCK_WEIGHT /\
    4 * sum (map legacy_sigops (txdata block)) <= MAX_BLOCK_SIGOP_COST /\
    output_value coinbase <= expected /\
    tx_count stats = zlen (txdata block) /\
    total_output_sat stats = sum (map output_value (txdata block)).
Proof.
  unfold validate_block_structure_with_options_internal. intros E.
  destruct (txdata block) as [|coinbase others] eqn:Etx; [done|]. exists coinbase, others. split; [done|].
  apply rbind_Ok in E as (? & _ & E). apply rbind_Ok in E as ([] & Hm & E). apply check_merkle_spec in Hm.
  apply rbind_Ok in E as (? & _ & E). destruct (_ <=? MAX_BLOCK_WEIGHT) in E; [|done].
  destruct (block_weight block <=? MAX_BLOCK_WEIGHT) eqn:Ew; [|done].
  destruct (is_coinbase coinbase) eqn:Ec; [|done].
  apply rbind_Ok in E as (ct & Hct & E). apply ok_or_Ok, coinbase_total_spec in Hct as ->.
  apply rbind_Ok in E as (total & Ht & E). destruct (negb _) in E; [|done].
  destruct (_ <=? expected) eqn:Ee in E; [|done]. apply rbind_Ok in E as (? & _ & E). apply Ok_inj in E as <-.
  bool_to_prop. assert (length (coinbase :: others) = length (map compute_txid (coinbase :: others)))
    as Hlen by (by rewrite length_map).
  apply structure_loop_sound in Ht as (Hs & -> & Hcost & Hcb); [|lia..].
  rewrite !zip_fst_sum in * by done. apply zip_fst_Forall in Hs; [|done].
  change (0 <? 0) with false in Hcb. cbn [map zip zip_with tail] in Hcb. apply zip_fst_Forall in Hcb; [|by rewrite length_map].
  unfold output_value in *. cbn [tx_count total_output_sat]. unfold MAX_BLOCK_SIGOP_COST in *.
  repeat (split; [first [done | lia]|]). lia.
Qed.


(** The two loops make the same checks. *)
Lemma structure_loop_before_header l position total cost r :
  structure_loop l position total cost = Ok r -> before_header_loop l position cost = Ok tt.
Proof.
  revert position total cost. induction l as [|[t id] l IH]; intros position total cost E;
    cbn [structure_loop before_header_loop] in *; [done|].
  apply rbind_Ok in E as (x & -> & E). cbn [rbind]. apply rbind_Ok in E as (y & _ & E).
  destruct (_ <=? MAX_BLOCK_SIGOP_COST) in *; [|done]. by eapply IH.
Qed.

(** The checks made before a header is admitted reject nothing that the
    full structural checks accept: a block that passes the latter, with its
    signet solution checked where the network has one, also passes the
    former. *)
Theorem before_header_necessary block params height expected challenge cw stats :
  validate_block_structure_with_options_internal block (map compute_txid (txdata block)) params height expected
    challenge true true cw = Ok stats ->
  validate_block_before_header block challenge = Ok tt.
Proof.
  unfold validate_block_structure_with_options_internal, validate_block_before_header. intros E.
  destruct (txdata block) as [|coinbase others]; [done|].
  apply rbind_Ok in E as (? & _ & E). apply rbind_Ok in E as ([] & -> & E).
  apply rbind_Ok in E as (? & _ & E). destruct (_ <=? MAX_BLOCK_WEIGHT) in *; [|done].
  destruct (block_weight block <=? MAX_BLOCK_WEIGHT); [|done].
  destruct (is_coinbase coinbase); [|done]. apply rbind_Ok in E as (ct & _ & E).
  apply rbind_Ok in E as (total & Ht & E). destruct (negb _) in E; [|done].
  destruct (_ <=? expected) in E; [|done]. apply rbind_Ok in E as ([] & -> & E).
  cbn [rbind]. by eapply structure_loop_before_header.
Qed.
End Accepted.

(** ** The supply *)

Section Supply.
Variable n : Network.
Hypothesis not_regtest : n ≠ Regtest.

Fixpoint total_subsidy (blocks : nat) : Z :=
  match blocks with
  | O => 0
  | S blocks => total_subsidy blocks + block_subsidy_for_network n (Z.of_nat blocks)
  end.

Definition era_subsidy (era : Z) : Z := if 64 <=? era then 0 else Z.shiftr 5000000000 era.
Fixpoint eras (k : nat) : Z :=
  match k with
  | O => 0
  | S k => eras k + era_subsidy (Z.of_nat k)
  end.

Lemma eras_S k : eras (S k) = eras k + era_subsidy (Z.of_nat k).
Proof. reflexivity. Qed.

Lemma subsidy_era height : block_subsidy_for_network n height = era_subsidy (height / 210000).
Proof. unfold block_subsidy_for_network. by rewrite bool_decide_false. Qed.

Lemma era_subsidy_nonneg k : 0 <= era_subsidy k.
Proof. unfold era_subsidy. case_match; [lia|]. apply Z.shiftr_nonneg. lia. Qed.

Lemma era_subsidy_late k : 33 <= k -> era_subsidy k = 0.
Proof.
  intros Hk. unfold era_subsidy. case_match; [done|]. rewrite Z.shiftr_div_pow2 by lia.
  apply Z.div_small. split; [lia|]. apply Z.lt_le_trans with (2 ^ 33); [lia|]. apply Z.pow_le_mono_r; lia.
Qed.

Lemma eras_mono j k : (j <= k)%nat -> eras j <= eras k.
Proof. induction 1 as [|k Hk IH]; [lia|]. rewrite eras_S. pose proof (era_subsidy_nonneg (Z.of_nat k)). lia. Qed.

Lemma eras_late k : (33 <= k)%nat -> eras k = eras 33.
Proof. induction 1 as [|k Hk IH]; [done|]. rewrite eras_S, IH, era_subsidy_late by lia. lia. Qed.

Lemma eras_bound k : eras k <= eras 33.
Proof. destruct (Nat.le_gt_cases k 33); [by apply eras_mono|]. rewrite (eras_late k); lia. Qed.

(** Complete eras and the beginning of the current one. *)
Lemma total_subsidy_spec (blocks : nat) :
  let b := Z.of_nat blocks in
  total_subsidy blocks =
    210000 * eras (Z.to_nat (b / 210000)) + (b mod 210000) * era_subsidy (b / 210000).
Proof.
  cbv zeta. induction blocks as [|m IH]; [reflexivity|]. cbn [total_subsidy]. rewrite IH, subsidy_era.
  set (b := Z.of_nat m). replace (Z.of_nat (S m)) with (b + 1) by lia.
  assert (0 <= b / 210000) by (apply Z.div_pos; lia).
  destruct (Z.eq_dec (b mod 210000) 209999) as [E|E].
  - replace ((b + 1) / 210000) with (b / 210000 + 1) by dlia. replace ((b + 1) mod 210000) with 0 by dlia.
    replace (Z.to_nat (b / 210000 + 1)) with (S (Z.to_nat (b / 210000))) by lia. rewrite eras_S.
    rewrite Z2Nat.id by lia. rewrite E. lia.
  - replace ((b + 1) / 210000) with (b / 210000) by dlia.
    replace ((b + 1) mod 210000) with (b mod 210000 + 1) by dlia. lia.
Qed.

(** The subsidies of all blocks of a public chain add up to at most
    20,999,999.9769 coins, which every chain of at least 6,930,000 blocks
    reaches exactly; this is below [MAX_MONEY]. *)
Theorem subsidy_supply blocks :
  total_subsidy blocks <= 2099999997690000 /\ 2099999997690000 < MAX_MONEY /\
  (6930000 <= Z.of_nat blocks -> total_subsidy blocks = 2099999997690000).
Proof.
  rewrite total_subsidy_spec. set (b := Z.of_nat blocks).
  assert (0 <= b / 210000) by (apply Z.div_pos; lia). assert (0 <= b mod 210000 < 210000) by (apply Z.mod_pos_bound; lia).
  assert (210000 * eras 33 = 2099999997690000) as E33 by (vm_compute; reflexivity).
  pose proof (eras_bound (S (Z.to_nat (b / 210000)))) as Hb. rewrite eras_S in Hb. rewrite Z2Nat.id in Hb by lia.
  pose proof (era_subsidy_nonneg (b / 210000)). split; [nia|]. split; [done|]. intros Hl.
  assert (33 <= b / 210000) by (apply Z.div_le_lower_bound; lia).
  rewrite era_subsidy_late, eras_late by lia. lia.
Qed.
End Supply.

(** ** Finality *)

Section Finality.
Context {Ops : BitcoinOps}.

(** The documented meaning of the sequence and lock-time methods. *)
Hypothesis lock_time_enabled_spec : forall t,
  is_lock_time_enabled t = existsb (fun i => negb (sequence i =? 0xffffffff)) (tx_input t).
Hypothesis relative_spec : forall s, is_relative_lock_time s = negb (Z.testbit s 31).
Hypothesis height_locked_spec : forall s, is_height_locked s = negb (Z.testbit s 31) && negb (Z.testbit s 22).

(** Core's [IsFinalTx]. *)
Definition is_final_tx (t : Transaction) (height time : Z) : bool :=
  (tx_lock_time t =? 0)
  || (tx_lock_time t <? (if tx_lock_time t <? LOCK_TIME_THRESHOLD then height else time))
  || forallb (fun i => sequence i =? 0xffffffff) (tx_input t).

(** Core's [CalculateSequenceLocks]: the last height and the last time at
    which the transaction is still locked. *)
Fixpoint calculate_sequence_locks (l : list (TxIn * (Z * Z))) (min_height min_time : Z) : Z * Z :=
  match l with
  | [] => (min_height, min_time)
  | (input, (coin_height, coin_time)) :: l =>
      let masked := Z.land (sequence input) 0xffff in
      if Z.testbit (sequence input) 31 then calculate_sequence_locks l min_height min_time
      else if Z.testbit (sequence input) 22 then
        calculate_sequence_locks l min_height (Z.max min_time (coin_time + Z.shiftl masked 9 - 1))
      else calculate_sequence_locks l (Z.max min_height (coin_height + masked - 1)) min_time
  end.

(** Core's [EvaluateSequenceLocks]. *)
Definition sequence_locks (l : list (TxIn * (Z * Z))) (height time : Z) : bool :=
  let '(min_height, min_time) := calculate_sequence_locks l (-1) (-1) in
  (min_height <? height) && (min_time <? time).

(** Both agree on one input, given what the inputs before it require. *)
Definition input_unlocked (entry : TxIn * (Z * Z)) (height time : Z) : bool :=
  let '(input, (coin_height, coin_time)) := entry in
  let masked := Z.land (sequence input) 0xffff in
  if Z.testbit (sequence input) 31 then true
  else if Z.testbit (sequence input) 22 then coin_time + 512 * masked - 1 <? time
  else coin_height + masked <=? height.

Lemma calculate_spec l mh mt height time :
  (let '(mh', mt') := calculate_sequence_locks l mh mt in (mh' <? height) && (mt' <? time)) =
  (mh <? height) && (mt <? time) && forallb (fun e => input_unlocked e height time) l.
Proof.
  revert mh mt. induction l as [|[i [ch ct]] l IH]; intros mh mt; cbn [calculate_sequence_locks forallb].
  - by rewrite andb_true_r.
  - unfold input_unlocked at 1. destruct (Z.testbit (sequence i) 31); [apply IH|].
    rewrite Z.shiftl_mul_pow2 by lia. change (2 ^ 9) with 512.
    destruct (Z.testbit (sequence i) 22); rewrite IH; rewrite !andb_assoc; f_equal.
    + destruct (mh <? height); [cbn [andb]|done]. apply eq_true_iff_eq.
      rewrite andb_true_iff, !Z.ltb_lt. lia.
    + rewrite <- andb_assoc, (andb_comm (mt <? time)), andb_assoc. f_equal. apply eq_true_iff_eq.
      rewrite andb_true_iff, !Z.ltb_lt, Z.leb_le. lia.
Qed.

Lemma masked_range s : 0 <= Z.land s 0xffff <= 65535.
Proof.
  assert (Z.land s 0xffff = s mod 65536) as -> by (apply (Z.land_ones s 16); lia).
  pose proof (Z.mod_pos_bound s 65536). lia.
Qed.

Lemma sequence_lock_input_spec i version height time ch ct :
  2 <= version -> in_u 32 height -> 0 <= ch < 2 ^ 31 ->
  is_ok (validate_transaction_sequence_lock_input i version height time true ch ct)
    = input_unlocked (i, (ch, ct)) height time.
Proof.
  intros Hv Hh Hc. unfold validate_transaction_sequence_lock_input, input_unlocked.
  bfalse (version <? 2). rewrite relative_spec, height_locked_spec. pose proof (masked_range (sequence i)).
  destruct (Z.testbit (sequence i) 31); [done|]. cbn [negb orb andb].
  unfold sat_add, sat_mul, umax, in_u in *.
  destruct (Z.testbit (sequence i) 22); cbn [negb].
  - rewrite Z.min_l by lia. replace (ct + Z.land (sequence i) 65535 * 512 - 1) with (ct + 512 * Z.land (sequence i) 65535 - 1) by lia.
    by destruct (_ <? time).
  - rewrite Z.min_l by lia. by destruct (_ <=? height).
Qed.

Lemma is_ok_bind {E A} (c : result E A) (k : result E A) : is_ok (let? _ := c in k) = is_ok c && is_ok k.
Proof. by destruct c. Qed.

Lemma sequence_loop_spec l version height time :
  2 <= version -> in_u 32 height -> Forall (fun '(_, (ch, _)) => 0 <= ch < 2 ^ 31) l ->
  is_ok (sequence_locks_loop l version height time true) = forallb (fun e => input_unlocked e height time) l.
Proof.
  intros Hv Hh. induction 1 as [|[i [ch ct]] l Hc Hl IH]; [done|]. cbn [sequence_locks_loop forallb].
  by rewrite is_ok_bind, sequence_lock_input_spec, IH.
Qed.

Lemma absolute_finality_spec t height time :
  is_ok (validate_transaction_absolute_finality t height time) = is_final_tx t height time.
Proof.
  unfold validate_transaction_absolute_finality, is_final_tx. rewrite lock_time_enabled_spec.
  assert (forallb (fun i => sequence i =? 0xffffffff) (tx_input t)
    = negb (existsb (fun i => negb (sequence i =? 0xffffffff)) (tx_input t))) as ->.
  { induction (tx_input t) as [|i l IH]; [done|]. cbn [forallb existsb]. rewrite IH.
    by destruct (sequence i =? 4294967295). }
  destruct (existsb _ _); cbn [negb]; [rewrite orb_false_r|by rewrite !orb_true_r].
  destruct (tx_lock_time t =? 0); [done|]. cbn [orb]. by case_match.
Qed.

(** For a transaction whose version is not negative, the finality check
    is Core's: the transaction is accepted exactly when [IsFinalTx] holds and,
    where BIP68 applies, [EvaluateSequenceLocks] accepts the locks that
    [CalculateSequenceLocks] computes from the coins it spends. *)
Theorem finality_matches_core t height time csv_active entries :
  0 <= tx_version t < 2 ^ 31 -> in_u 32 height -> 0 <= time ->
  zlen entries = zlen (tx_input t) -> Forall (fun '(ch, _) => 0 <= ch < 2 ^ 31) entries ->
  is_ok (validate_transaction_finality_with_metadata t height time csv_active entries) =
    is_final_tx t height time &&
    (if csv_active && (2 <=? of_signed 32 (tx_version t))
     then sequence_locks (zip (tx_input t) entries) height time else true).
Proof.
  intros Hv Hh Ht Hn He. unfold validate_transaction_finality_with_metadata.
  rewrite is_ok_bind, absolute_finality_spec. f_equal.
  unfold of_signed. rewrite Z.mod_small by lia. btrue (zlen entries =? zlen (tx_input t)).
  destruct csv_active; [|done]. cbn [negb orb andb]. rewrite orb_false_r.
  destruct (Z.ltb_spec (tx_version t) 2) as [H2|H2]; [by bfalse (2 <=? tx_version t)|].
  btrue (2 <=? tx_version t). unfold sequence_locks. rewrite calculate_spec. unfold in_u in Hh.
  btrue (-1 <? height). btrue (-1 <? time). rewrite sequence_loop_spec; [done|lia|done|].
  clear -He. revert He. generalize (tx_input t) as l. induction entries as [|[ch ct] es IH]; intros [|i l] He; try done.
  inversion He; subst. constructor; [done|by apply IH].
Qed.

(** A transaction with a negative version is exempt from the sequence
    locks whatever it spends, although BIP68 reads the version as an unsigned
    number, for which the locks apply. *)
Theorem negative_version_exempt t height time entries :
  - 2 ^ 31 <= tx_version t < 0 ->
  2 <= of_signed 32 (tx_version t) /\
  is_ok (validate_transaction_finality_with_metadata t height time true entries) = is_final_tx t height time.
Proof.
  intros Hv. split.
  - unfold of_signed. rewrite <- (Z_mod_plus_full _ 1), Z.mod_small; lia.
  - unfold validate_transaction_finality_with_metadata. rewrite is_ok_bind, absolute_finality_spec.
    btrue (tx_version t <? 2). cbn [negb orb is_ok]. apply andb_true_r.
Qed.
End Finality.

(** ** Instances *)

Definition toy_ops : BitcoinOps := {|
  sha256d b := repeat (from_le b mod 251) 32;
  block_hash b := merkle_root (blk_header b);
  signet_genesis_hash := [];
  compute_txid t := repeat (zlen (tx_output t)) 32;
  base_size t := 60 + 9 * zlen (tx_output t);
  is_coinbase t := match tx_input t with [i] => bool_decide (vout (previous_output i) = 0xffffffff) | _ => false end;
  is_null o := bool_decide (vout o = 0xffffffff);
  null_outpoint := {| txid := repeat 0 32; vout := 0xffffffff |};
  is_lock_time_enabled t := existsb (fun i => negb (sequence i =? 0xffffffff)) (tx_input t);
  is_relative_lock_time s := negb (Z.testbit s 31);
  is_height_locked s := negb (Z.testbit s 31) && negb (Z.testbit s 22);
  count_sigops_legacy s := zlen (List.filter (fun b => b =? 0xac) s);
  header_size _ := 80;
  varint_size _ := 1;
  block_weight b := 4 * (81 + 60 * zlen (txdata b));
  witness_root _ := None;
  compute_witness_commitment root nonce := root ++ nonce;
  push_int n := [1; n];
  push_slice d := zlen d :: d;
  instructions _ := [];
  calculate_root l := list.head l;
  script_partial _ := Err tt;
  witness_partial _ := Err tt;
  serialize_transaction _ := [];
  verify_with_flags _ _ _ _ _ _ := false |}.

Definition toy_input (version_sequence : Z) (o : Z) (script : bytes) : TxIn :=
  {| previous_output := {| txid := repeat 0 32; vout := o |}; script_sig := script;
     sequence := version_sequence; witness := [] |}.
Definition toy_coinbase : Transaction :=
  {| tx_version := 1; tx_lock_time := 0; tx_input := [toy_input 0xffffffff 0xffffffff [1; 7; 7]];
     tx_output := [{| value := 5000000000; script_pubkey := [0xac] |}] |}.
Definition toy_block : Block :=
  {| blk_header := {| hd_version := 4; prev_blockhash := []; merkle_root := repeat 1 32; hd_time := 1;
                      hd_bits := 0; hd_nonce := 0 |};
     txdata := [toy_coinbase] |}.

Lemma toy_sigops script : 0 <= @count_sigops_legacy toy_ops script.
Proof. apply zlen_nonneg. Qed.


Lemma before_header_necessary_witness : @validate_block_before_header toy_ops toy_block None = Ok tt.
Proof.
  apply (@before_header_necessary toy_ops toy_block (for_network Regtest) 7 5000000000 None false
    {| tx_count := 1; total_output_sat := 5000000000 |}). vm_compute. reflexivity.
Defined.

Lemma subsidy_supply_witness : total_subsidy Bitcoin 10 <= 2099999997690000.
Proof. apply (subsidy_supply Bitcoin). discriminate. Defined.

Definition locked_transaction (version : Z) : Transaction :=
  {| tx_version := version; tx_lock_time := 0; tx_input := [toy_input 10 0 []]; tx_output := [] |}.

Lemma finality_matches_core_witness :
  is_ok (@validate_transaction_finality_with_metadata toy_ops (locked_transaction 2) 105 0 true [(100, 0)]) = false.
Proof.
  etrans; [apply (@finality_matches_core toy_ops);
             first [reflexivity | simpl; lia | unfold in_u; lia | repeat constructor; lia]
          |vm_compute; reflexivity].
Defined.

Lemma negative_version_exempt_witness :
  is_ok (@validate_transaction_finality_with_metadata toy_ops (locked_transaction (-1)) 105 0 true [(100, 0)]) = true.
Proof.
  etrans; [apply (@negative_version_exempt toy_ops); [reflexivity|simpl; lia]|vm_compute; reflexivity].
Defined.
