(* ===== verification/ChainIndex.v ===== *)
(** * The block index and the choice of the active chain ([src/chain.rs])

    The tree of known headers with Core's skip pointers, the walk to an
    ancestor, the median time past and the expected target of a child, the
    candidate order of headers, and the selection of the best valid tip.  The
    tables of [ChainState] these functions read and write are the record
    [ChainState]; what the [bitcoin] crate computes from a header is the class
    [HeaderOps].  Total work is an unbounded integer: the sum of the work of
    all headers of a chain stays below the 256 bits of [Work]. *)

From Stdlib Require Import ZArith Lia.
From Stdlib Require String.
From stdpp Require Import base list option gmap sets sorting.
From S2P Require Import Prelude Types VersionBits.
Local Open Scope Z_scope.

Record BlockNode := {
  header : Header;
  height : Z;
  chain_work : Z;
  skip : option bytes;
}.

Record ChainState := {
  network : Network;
  block_index : gmap bytes BlockNode;
  active_chain : list bytes;
  headers : list Header;
  (** the blocks whose body is in the block store *)
  store : gset bytes;
  invalid_blocks : gset bytes;
  precious_blocks : gmap bytes Z;
  block_sequence_ids : gmap bytes Z;
  header_sequence_ids : gmap bytes Z;
  next_block_sequence_id : Z;
  next_header_sequence_id : Z;
  best_header_hash : option bytes;
}.

Class HeaderOps := {
  work : Header -> Z;
  target : Header -> Z;
  (** [BlockHash::to_string] *)
  hash_to_string : bytes -> String.string;
  no_pow_retargeting : Network -> bool;
  allow_min_difficulty_blocks : Network -> bool;
  pow_target_spacing : Network -> Z;
  max_attainable_target : Network -> Z;
  params_adjustment_interval : Network -> Z;
  (** base bits, timespan *)
  from_next_work_required : Z -> Z -> Network -> Z;
}.

(** ** Updates of one field *)

Definition set_block_index (f : gmap bytes BlockNode -> gmap bytes BlockNode) (c : ChainState) : ChainState :=
  {| network := network c; block_index := f (block_index c); active_chain := active_chain c; headers := headers c;
     store := store c; invalid_blocks := invalid_blocks c; precious_blocks := precious_blocks c;
     block_sequence_ids := block_sequence_ids c; header_sequence_ids := header_sequence_ids c;
     next_block_sequence_id := next_block_sequence_id c; next_header_sequence_id := next_header_sequence_id c;
     best_header_hash := best_header_hash c |}.

Definition set_active (f : list bytes -> list bytes) (g : list Header -> list Header) (c : ChainState) : ChainState :=
  {| network := network c; block_index := block_index c; active_chain := f (active_chain c); headers := g (headers c);
     store := store c; invalid_blocks := invalid_blocks c; precious_blocks := precious_blocks c;
     block_sequence_ids := block_sequence_ids c; header_sequence_ids := header_sequence_ids c;
     next_block_sequence_id := next_block_sequence_id c; next_header_sequence_id := next_header_sequence_id c;
     best_header_hash := best_header_hash c |}.

Definition set_best_header (b : option bytes) (c : ChainState) : ChainState :=
  {| network := network c; block_index := block_index c; active_chain := active_chain c; headers := headers c;
     store := store c; invalid_blocks := invalid_blocks c; precious_blocks := precious_blocks c;
     block_sequence_ids := block_sequence_ids c; header_sequence_ids := header_sequence_ids c;
     next_block_sequence_id := next_block_sequence_id c; next_header_sequence_id := next_header_sequence_id c;
     best_header_hash := b |}.

Definition set_header_sequence (ids : gmap bytes Z) (next : Z) (c : ChainState) : ChainState :=
  {| network := network c; block_index := block_index c; active_chain := active_chain c; headers := headers c;
     store := store c; invalid_blocks := invalid_blocks c; precious_blocks := precious_blocks c;
     block_sequence_ids := block_sequence_ids c; header_sequence_ids := ids;
     next_block_sequence_id := next_block_sequence_id c; next_header_sequence_id := next;
     best_header_hash := best_header_hash c |}.

Definition set_block_sequence (ids : gmap bytes Z) (next : Z) (c : ChainState) : ChainState :=
  {| network := network c; block_index := block_index c; active_chain := active_chain c; headers := headers c;
     store := store c; invalid_blocks := invalid_blocks c; precious_blocks := precious_blocks c;
     block_sequence_ids := ids; header_sequence_ids := header_sequence_ids c;
     next_block_sequence_id := next; next_header_sequence_id := next_header_sequence_id c;
     best_header_hash := best_header_hash c |}.

(** ** Ancestors *)

Definition invert_lowest_one (value : Z) : Z := Z.land value (sat_sub value 1).

Definition block_index_skip_height (height : Z) : Z :=
  if height <? 2 then 0
  else if negb (Z.land height 1 =? 0) then invert_lowest_one (invert_lowest_one (height - 1)) + 1
  else invert_lowest_one height.

Definition active_at (c : ChainState) (h : Z) (hash : bytes) : bool :=
  bool_decide (active_chain c !! Z.to_nat h = Some hash).

(** Each turn of the loop lowers the height, so the distance bounds the turns. *)
Fixpoint ancestor_loop (fuel : nat) (c : ChainState) (hash : bytes) (current_height h : Z) : option bytes :=
  match fuel with
  | O => None
  | S fuel =>
      if h <? current_height then
        if active_at c current_height hash then active_chain c !! Z.to_nat h
        else
          node ← block_index c !! hash;
          let skip_height := block_index_skip_height current_height in
          let previous_skip_height := block_index_skip_height (current_height - 1) in
          let use_skip :=
            bool_decide (is_Some (skip node)) &&
            ((skip_height =? h) ||
             ((h <? skip_height) &&
              negb ((previous_skip_height <? sat_sub skip_height 2) && (h <=? previous_skip_height)))) in
          if use_skip then
            hash ← skip node;
            ancestor_loop fuel c hash skip_height h
          else ancestor_loop fuel c (prev_blockhash (header node)) (current_height - 1) h
      else if current_height =? h then Some hash else None
  end.

Definition ancestor_hash (c : ChainState) (hash : bytes) (h : Z) : option bytes :=
  node ← block_index c !! hash;
  if height node <? h then None
  else ancestor_loop (S (Z.to_nat (height node - h))) c hash (height node) h.

(** ** Times and targets *)

Definition median_time (times : list Z) : option Z := merge_sort Z.le times !! Nat.div2 (length times).

Definition median_time_past (c : ChainState) : option Z :=
  median_time (map hd_time (drop (length (headers c) - 11) (headers c))).

Fixpoint parent_times (n : nat) (c : ChainState) (cursor : bytes) : list Z :=
  match n with
  | O => []
  | S n =>
      match block_index c !! cursor with
      | None => []
      | Some node =>
          hd_time (header node) ::
          (if height node =? 0 then [] else parent_times n c (prev_blockhash (header node)))
      end
  end.

(** [times[len / 2]] of the empty vector panics, here [None]. *)
Definition median_time_past_for_parent (c : ChainState) (parent_hash : bytes) : option Z :=
  median_time (parent_times 11 c parent_hash).

Section Targets.
Context {Ops : HeaderOps}.

Definition difficulty_adjustment_interval (n : Network) : Z :=
  if bool_decide (n = Regtest) then 144 else params_adjustment_interval n `mod` 2 ^ 32.

(** The walk to the last block whose target is not the easiest one; every
    turn goes to a lower height. *)
Fixpoint last_real_target (fuel : nat) (c : ChainState) (cursor : bytes) (interval : Z) : option Z :=
  match fuel with
  | O => None
  | S fuel =>
      node ← block_index c !! cursor;
      if (height node `mod` interval =? 0) || negb (target (header node) =? max_attainable_target (network c))
      then Some (target (header node))
      else last_real_target fuel c (prev_blockhash (header node)) interval
  end.

(** The [expect]s on missing index entries are [None]. *)
Definition expected_target_for_parent (c : ChainState) (parent_hash : bytes) (candidate_time : Z) : option Z :=
  parent_node ← block_index c !! parent_hash;
  let h := sat_add 32 (height parent_node) 1 in
  let previous := header parent_node in
  let interval := difficulty_adjustment_interval (network c) in
  if no_pow_retargeting (network c) then Some (target previous)
  else if negb (h `mod` interval =? 0) then
    if allow_min_difficulty_blocks (network c)
       && (sat_add 32 (hd_time previous) ((pow_target_spacing (network c) * 2) `mod` 2 ^ 32) <? candidate_time)
    then Some (max_attainable_target (network c))
    else if allow_min_difficulty_blocks (network c) && (target previous =? max_attainable_target (network c))
    then
      match last_real_target (S (Z.to_nat (height parent_node))) c parent_hash interval with
      | Some t => Some t
      | None => Some (target previous)
      end
    else Some (target previous)
  else
    first_hash ← ancestor_hash c parent_hash (h - interval);
    first_node ← block_index c !! first_hash;
    let first := header first_node in
    let timespan := sat_sub (hd_time previous) (hd_time first) in
    let base_bits := if bool_decide (network c = Testnet4) then hd_bits first else hd_bits previous in
    Some (from_next_work_required base_bits timespan (network c)).
End Targets.

(** ** Invalid blocks and missing bodies *)

Definition is_active_block (c : ChainState) (hash : bytes) : bool :=
  match block_index c !! hash with
  | Some node => active_at c (height node) hash
  | None => false
  end.

(** The loops that walk to the genesis block take at most one turn per height. *)
Definition walk_fuel (c : ChainState) (hash : bytes) : nat :=
  match block_index c !! hash with
  | Some node => S (S (Z.to_nat (height node)))
  | None => 1
  end.

Fixpoint invalid_loop (fuel : nat) (c : ChainState) (cursor : bytes) : bool :=
  match fuel with
  | O => false
  | S fuel =>
      if bool_decide (cursor ∈ invalid_blocks c) then true
      else
        match block_index c !! cursor with
        | None => false
        | Some node =>
            if height node =? 0 then false else invalid_loop fuel c (prev_blockhash (header node))
        end
  end.

Definition has_invalid_ancestor (c : ChainState) (hash : bytes) : bool :=
  if bool_decide (invalid_blocks c = ∅) then false else invalid_loop (walk_fuel c hash) c hash.

Fixpoint missing_loop (fuel : nat) (c : ChainState) (cursor : bytes) : bool :=
  match fuel with
  | O => true
  | S fuel =>
      if is_active_block c cursor then false
      else if negb (bool_decide (cursor ∈ store c)) then true
      else
        match block_index c !! cursor with
        | None => true
        | Some node => missing_loop fuel c (prev_blockhash (header node))
        end
  end.

Definition candidate_chain_has_missing_body (c : ChainState) (tip_hash : bytes) : bool :=
  missing_loop (walk_fuel c tip_hash) c tip_hash.

Definition precious_priority (c : ChainState) (hash : bytes) : Z := default 0 (precious_blocks c !! hash).
Definition block_sequence_id (c : ChainState) (hash : bytes) : Z := default (umax 64) (block_sequence_ids c !! hash).
Definition header_sequence_id (c : ChainState) (hash : bytes) : Z := default (umax 64) (header_sequence_ids c !! hash).

(** ** The best valid tip *)

(** [Ordering::then_with] *)
Definition then_with (a b : comparison) : comparison := match a with Eq => b | _ => a end.

(** [Iterator::max_by]: the last of the greatest elements. *)
Fixpoint max_by {A} (cmp : A -> A -> comparison) (l : list A) (best : option A) : option A :=
  match l with
  | [] => best
  | x :: l =>
      max_by cmp l
        (match best with
         | None => Some x
         | Some b => match cmp b x with Gt => Some b | _ => Some x end
         end)
  end.

(** The pass over the index in the order of heights that computes
    [has_full_data] and [has_valid_ancestors]. *)
Fixpoint ancestor_tables (c : ChainState) (ordered : list (bytes * BlockNode)) (full valid : gmap bytes bool)
  : gmap bytes bool * gmap bytes bool :=
  match ordered with
  | [] => (full, valid)
  | (hash, node) :: ordered =>
      let prev := prev_blockhash (header node) in
      let active := is_active_block c hash in
      let parent_full := (height node =? 0) || is_active_block c prev || default false (full !! prev) in
      let parent_valid := (height node =? 0) || default false (valid !! prev) in
      ancestor_tables c ordered
        (<[hash := active || (bool_decide (hash ∈ store c) && parent_full)]> full)
        (<[hash := negb (bool_decide (hash ∈ invalid_blocks c)) && parent_valid]> valid)
  end.

Definition height_le (a b : bytes * BlockNode) : Prop := height a.2 <= height b.2.
#[export] Instance height_le_dec : RelDecision height_le.
Proof. intros a b. unfold height_le. apply _. Defined.

Section Select.
Context {Ops : HeaderOps}.

Definition compare_tips (c : ChainState) (l r : bytes * BlockNode) : comparison :=
  then_with (chain_work l.2 ?= chain_work r.2)
    (then_with (precious_priority c r.1 ?= precious_priority c l.1)
       (then_with (block_sequence_id c r.1 ?= block_sequence_id c l.1)
          (String.compare (hash_to_string r.1) (hash_to_string l.1)))).

(** The index is a hash map; its entries come in an order of their own. *)
Definition best_valid_tip_hash (c : ChainState) : option bytes :=
  let ordered_hashes := merge_sort height_le (map_to_list (block_index c)) in
  let '(has_full_data, has_valid_ancestors) := ancestor_tables c ordered_hashes ∅ ∅ in
  fst <$> max_by (compare_tips c)
    (List.filter (fun '(hash, _) => default false (has_valid_ancestors !! hash) && default false (has_full_data !! hash))
       (map_to_list (block_index c))) None.

(** ** Candidate headers *)

Definition compare_header_candidates (c : ChainState) (left_hash : bytes) (l : BlockNode) (right_hash : bytes)
    (r : BlockNode) : comparison :=
  then_with (chain_work l ?= chain_work r)
    (then_with (header_sequence_id c right_hash ?= header_sequence_id c left_hash)
       (String.compare (hash_to_string right_hash) (hash_to_string left_hash))).

Definition consider_best_header (c : ChainState) (candidate_hash : bytes) : ChainState :=
  match block_index c !! candidate_hash with
  | None => c
  | Some candidate =>
      if has_invalid_ancestor c candidate_hash then c
      else
        match best_header_hash c with
        | None =>
            if bool_decide (size (block_index c) = 1%nat) then set_best_header (Some candidate_hash) c else c
        | Some current_hash =>
            match block_index c !! current_hash with
            | None => set_best_header None c
            | Some current =>
                if has_invalid_ancestor c current_hash then set_best_header None c
                else
                  match compare_header_candidates c candidate_hash candidate current_hash current with
                  | Gt => set_best_header (Some candidate_hash) c
                  | _ => c
                  end
            end
        end
  end.

Definition assign_header_sequence_id (c : ChainState) (hash : bytes) : ChainState :=
  if bool_decide (is_Some (header_sequence_ids c !! hash)) then c
  else
    consider_best_header
      (set_header_sequence (<[hash := next_header_sequence_id c]> (header_sequence_ids c))
         (sat_add 64 (next_header_sequence_id c) 1) c) hash.

(** Bodies received before their parent are forgotten here too; that order
    of arrival is not part of the state. *)
Definition assign_block_sequence_id (c : ChainState) (hash : bytes) : ChainState :=
  if bool_decide (is_Some (block_sequence_ids c !! hash)) then c
  else
    set_block_sequence (<[hash := next_block_sequence_id c]> (block_sequence_ids c))
      (sat_add 64 (next_block_sequence_id c) 1) c.

(** The tip [best_header_tip] returns, with the state after its cache update. *)
Definition best_header_tip (c : ChainState) : option (bytes * BlockNode * ChainState) :=
  let cached :=
    hash ← best_header_hash c;
    node ← block_index c !! hash;
    if has_invalid_ancestor c hash then None else Some (hash, node) in
  match cached with
  | Some (hash, node) => Some (hash, node, c)
  | None =>
      '(hash, node) ←
        max_by (fun l r => compare_header_candidates c l.1 l.2 r.1 r.2)
          (List.filter (fun '(hash, _) => negb (has_invalid_ancestor c hash)) (map_to_list (block_index c))) None;
      Some (hash, node, set_best_header (Some hash) c)
  end.

(** ** Growing the index *)

(** The entry made for a header or body whose parent is indexed. *)
Definition child_node (c : ChainState) (hd : Header) (h : Z) : option BlockNode :=
  parent ← block_index c !! prev_blockhash hd;
  Some {| header := hd; height := h; chain_work := chain_work parent + work hd;
          skip := ancestor_hash c (prev_blockhash hd) (block_index_skip_height h) |}.

(** A header, or the body of a block off the active chain. *)
Definition index_header (c : ChainState) (hash : bytes) (hd : Header) : option ChainState :=
  parent ← block_index c !! prev_blockhash hd;
  node ← child_node c hd (sat_add 32 (height parent) 1);
  Some (assign_header_sequence_id (set_block_index <[hash := node]> c) hash).

(** [self.height()] *)
Definition tip_height (c : ChainState) : Z := sat_sub (Z.of_nat (length (active_chain c))) 1.

(** The index updates of [connect_block_internal_impl]: the tip is pushed
    before its index entry is made. *)
Definition connect_tip (c : ChainState) (hash : bytes) (hd : Header) : option ChainState :=
  let h := sat_add 32 (tip_height c) 1 in
  let c := set_active (fun l => l ++ [hash]) (fun l => l ++ [hd]) c in
  node ← child_node c hd h;
  Some (assign_block_sequence_id (assign_header_sequence_id (set_block_index <[hash := node]> c) hash) hash).

(** The truncation of [activate_chain_from_pruned_suffix] to the common
    ancestor of a reorganisation. *)
Definition disconnect_to (c : ChainState) (common_height : nat) : ChainState :=
  set_active (take (S common_height)) (take (S common_height)) c.

Definition initialize_genesis (c : ChainState) (hash : bytes) (hd : Header) : ChainState :=
  let c := set_active (fun l => l ++ [hash]) (fun l => l ++ [hd]) c in
  let node := {| header := hd; height := 0; chain_work := work hd; skip := None |} in
  assign_header_sequence_id (set_block_index <[hash := node]> c) hash.
End Select.

(** ** Ancestors by the parent links *)

Fixpoint nth_parent (idx : gmap bytes BlockNode) (n : nat) (hash : bytes) : option bytes :=
  node ← idx !! hash;
  match n with
  | O => Some hash
  | S n => nth_parent idx n (prev_blockhash (header node))
  end.

Section WellFormed.
Context {Ops : HeaderOps}.

(** What an entry above the genesis block says of its parent. *)
Record child_ok (idx : gmap bytes BlockNode) (node parent : BlockNode) : Prop := {
  child_height : height node = height parent + 1;
  child_work : chain_work node = chain_work parent + work (header node);
  child_skip : skip node = nth_parent idx (Z.to_nat (height parent - block_index_skip_height (height node)))
                             (prev_blockhash (header node));
}.

Record index_wf (c : ChainState) : Prop := {
  wf_height : forall hash node, block_index c !! hash = Some node -> 0 <= height node <= umax 32;
  wf_genesis : forall hash node, block_index c !! hash = Some node -> height node = 0 ->
    active_chain c !! 0%nat = Some hash;
  wf_child : forall hash node, block_index c !! hash = Some node -> height node <> 0 ->
    exists parent, block_index c !! prev_blockhash (header node) = Some parent /\
                   child_ok (block_index c) node parent;
  wf_active : forall i hash, active_chain c !! i = Some hash ->
    exists node, block_index c !! hash = Some node /\ height node = Z.of_nat i /\
                 headers c !! i = Some (header node) /\
                 forall j, i = S j -> active_chain c !! j = Some (prev_blockhash (header node));
  wf_headers : length (headers c) = length (active_chain c);
}.

Lemma invert_lowest_one_range v : 0 < v -> 0 <= invert_lowest_one v < v.
Proof.
  intros H. unfold invert_lowest_one, sat_sub. rewrite Z.max_r by lia.
  assert (Z.land v (v - 1) <= v - 1); [|split; [apply Z.land_nonneg; lia|lia]].
  rewrite <- (Z2N.id v), <- (Z2N.id (Z.of_N (Z.to_N v) - 1)) by lia.
  rewrite <- N2Z.inj_land. apply N2Z.inj_le, N.land_le_r.
Qed.

Lemma skip_height_range h : 1 <= h -> 0 <= block_index_skip_height h < h.
Proof.
  intros H. unfold block_index_skip_height. destruct (Z.ltb_spec h 2); [lia|].
  destruct (negb _) eqn:E.
  - pose proof (invert_lowest_one_range (h - 1)).
    destruct (Z.eq_dec (invert_lowest_one (h - 1)) 0) as [->|]; [unfold invert_lowest_one; rewrite Z.land_0_l; lia|].
    pose proof (invert_lowest_one_range (invert_lowest_one (h - 1))). lia.
  - apply invert_lowest_one_range. lia.
Qed.

(** ** The walk to an ancestor *)

Section Walk.
Context (c : ChainState) (Hwf : index_wf c).

Lemma nth_parent_total n hash node :
  block_index c !! hash = Some node -> Z.of_nat n <= height node ->
  exists a an, nth_parent (block_index c) n hash = Some a /\ block_index c !! a = Some an /\
               height an = height node - Z.of_nat n.
Proof.
  revert hash node. induction n as [|n IH]; intros hash node E Hn; simpl; rewrite E; simpl.
  - eexists _, _. split; [done|]. split; [done|]. lia.
  - destruct (wf_child c Hwf hash node E) as (parent & Ep & Hc); [lia|].
    pose proof (child_height _ _ _ Hc). destruct (IH _ _ Ep) as (a & an & ? & ? & ?); [lia|].
    eexists _, _. split; [done|]. split; [done|]. lia.
Qed.

Lemma nth_parent_add n m hash a :
  nth_parent (block_index c) n hash = Some a -> nth_parent (block_index c) (n + m) hash = nth_parent (block_index c) m a.
Proof.
  revert hash. induction n as [|n IH]; intros hash; simpl.
  - destruct (block_index c !! hash) eqn:E; simpl; [|done]. by intros [= ->].
  - destruct (block_index c !! hash) eqn:E; simpl; [|done]. apply IH.
Qed.

Lemma active_parent n i hash :
  active_chain c !! (i + n)%nat = Some hash -> nth_parent (block_index c) n hash = active_chain c !! i.
Proof.
  revert hash. induction n as [|n IH]; intros hash E; simpl.
  - rewrite Nat.add_0_r in E. destruct (wf_active c Hwf _ _ E) as (node & -> & _). done.
  - destruct (wf_active c Hwf _ _ E) as (node & -> & _ & _ & Hprev). simpl. apply IH, Hprev. lia.
Qed.

(** The skip pointer of an entry is the ancestor it stands for. *)
Lemma skip_parent hash node s :
  block_index c !! hash = Some node -> height node <> 0 -> skip node = Some s ->
  nth_parent (block_index c) (Z.to_nat (height node - block_index_skip_height (height node))) hash = Some s.
Proof.
  intros E Hh Es. destruct (wf_child c Hwf hash node E Hh) as (parent & Ep & Hc).
  pose proof (wf_height c Hwf _ _ E). pose proof (skip_height_range (height node)).
  pose proof (child_height _ _ _ Hc).
  replace (Z.to_nat _) with (S (Z.to_nat (height parent - block_index_skip_height (height node)))) by lia.
  simpl. rewrite E. simpl. by rewrite <- (child_skip _ _ _ Hc).
Qed.

Lemma ancestor_loop_spec fuel hash node h :
  block_index c !! hash = Some node -> 0 <= h <= height node -> (Z.to_nat (height node - h) < fuel)%nat ->
  ancestor_loop fuel c hash (height node) h = nth_parent (block_index c) (Z.to_nat (height node - h)) hash.
Proof.
  revert hash node. induction fuel as [|fuel IH]; intros hash node E Hh Hfuel; [lia|]. cbn [ancestor_loop].
  destruct (Z.ltb_spec h (height node)) as [Hlt|]; swap 1 2.
  { btrue (height node =? h). replace (Z.to_nat _) with 0%nat by lia. simpl. by rewrite E. }
  unfold active_at. case_bool_decide as Ea.
  { symmetry. apply active_parent. rewrite <- Ea. f_equal. lia. }
  rewrite E. cbn [mbind option_bind].
  pose proof (skip_height_range (height node)).
  match goal with |- context [if ?b then _ else _] => destruct b eqn:Eu end.
  - destruct (skip node) as [s|] eqn:Es; [|done]. simpl.
    pose proof (skip_parent hash node s E ltac:(lia) Es) as Hs.
    destruct (nth_parent_total (Z.to_nat (height node - block_index_skip_height (height node))) hash node E)
      as (a & an & Ha & Ean & Hah); [lia|].
    rewrite Hs in Ha. injection Ha as <-. bool_to_prop.
    replace (block_index_skip_height (height node)) with (height an) by lia.
    rewrite IH by (done || lia). rewrite <- (nth_parent_add _ _ _ _ Hs). f_equal. lia.
  - destruct (wf_child c Hwf hash node E) as (parent & Ep & Hc); [lia|].
    pose proof (child_height _ _ _ Hc). replace (height node - 1) with (height parent) by lia.
    rewrite IH by (done || lia). replace (Z.to_nat (height node - h)) with (S (Z.to_nat (height parent - h))) by lia.
    simpl. by rewrite E.
Qed.

Lemma ancestor_hash_eq hash node h :
  block_index c !! hash = Some node -> 0 <= h <= height node ->
  ancestor_hash c hash h = nth_parent (block_index c) (Z.to_nat (height node - h)) hash.
Proof.
  intros E Hh. unfold ancestor_hash. rewrite E. cbn [mbind option_bind]. bfalse (height node <? h).
  apply ancestor_loop_spec; [done|lia|lia].
Qed.
End Walk.

(** ** Every operation keeps the index well formed *)

Lemma nth_parent_mono idx idx' n hash a :
  idx ⊆ idx' -> nth_parent idx n hash = Some a -> nth_parent idx' n hash = Some a.
Proof.
  intros Hsub. revert hash. induction n as [|n IH]; intros hash; simpl;
    (destruct (idx !! hash) as [node|] eqn:E; [|done]);
    rewrite (lookup_weaken _ _ _ _ E Hsub); simpl; [done|]. apply IH.
Qed.

(** The tables that [index_wf] reads. *)
Definition same_index (c c' : ChainState) : Prop :=
  block_index c' = block_index c /\ active_chain c' = active_chain c /\ headers c' = headers c.

Lemma same_index_wf c c' : same_index c c' -> index_wf c -> index_wf c'.
Proof. intros (Hi & Ha & Hh) [H1 H2 H3 H4 H5]. split; rewrite ?Hi, ?Ha, ?Hh; auto. Qed.

Lemma consider_best_header_same c hash : same_index c (consider_best_header c hash).
Proof. unfold consider_best_header, same_index. repeat case_match; done. Qed.
Lemma assign_header_sequence_same c hash : same_index c (assign_header_sequence_id c hash).
Proof.
  unfold assign_header_sequence_id. case_bool_decide; [done|].
  destruct (consider_best_header_same (set_header_sequence (<[hash:=next_header_sequence_id c]> (header_sequence_ids c))
    (sat_add 64 (next_header_sequence_id c) 1) c) hash) as (Hi & Ha & Hh).
  unfold same_index. rewrite Hi, Ha, Hh. done.
Qed.
Lemma assign_block_sequence_same c hash : same_index c (assign_block_sequence_id c hash).
Proof. unfold assign_block_sequence_id, same_index. case_bool_decide; done. Qed.

(** A hash that is indexed is indexed with the header it is the hash of. *)
Definition known_header (c : ChainState) (hash : bytes) (hd : Header) : Prop :=
  forall node, block_index c !! hash = Some node -> header node = hd /\ height node <> 0.

(** The entry made for a child of an indexed block. *)
Definition node_of (c : ChainState) (hd : Header) (parent : BlockNode) : BlockNode :=
  {| header := hd; height := height parent + 1; chain_work := chain_work parent + work hd;
     skip := nth_parent (block_index c) (Z.to_nat (height parent - block_index_skip_height (height parent + 1)))
               (prev_blockhash hd) |}.

Lemma skip_of_parent c hd parent :
  index_wf c -> block_index c !! prev_blockhash hd = Some parent ->
  ancestor_hash c (prev_blockhash hd) (block_index_skip_height (height parent + 1)) = skip (node_of c hd parent).
Proof.
  intros Hwf E. pose proof (wf_height c Hwf _ _ E). pose proof (skip_height_range (height parent + 1)).
  by rewrite (ancestor_hash_eq c Hwf _ parent) by (done || lia).
Qed.

Lemma known_node c hash hd parent :
  index_wf c -> known_header c hash hd -> block_index c !! prev_blockhash hd = Some parent ->
  block_index c !! hash = None \/ block_index c !! hash = Some (node_of c hd parent).
Proof.
  intros Hwf Hk E. destruct (block_index c !! hash) as [node|] eqn:En; [right|by left].
  destruct (Hk node En) as (Hhd & Hh). destruct (wf_child c Hwf _ _ En Hh) as (parent' & Ep & [Hc1 Hc2 Hc3]).
  rewrite Hhd in Ep. rewrite E in Ep. injection Ep as <-. f_equal. destruct node as [hd' h w sk]; simpl in *. subst.
  done.
Qed.

Lemma grown_index c hash hd parent :
  index_wf c -> known_header c hash hd -> block_index c !! prev_blockhash hd = Some parent ->
  block_index c ⊆ <[hash := node_of c hd parent]> (block_index c).
Proof.
  intros Hwf Hk E. destruct (known_node c hash hd parent Hwf Hk E) as [En|En].
  - by apply insert_subseteq.
  - by rewrite insert_id.
Qed.

Lemma child_ok_mono idx idx' node parent hash :
  idx ⊆ idx' -> idx !! prev_blockhash (header node) = Some hash ->
  is_Some (nth_parent idx (Z.to_nat (height parent - block_index_skip_height (height node)))
             (prev_blockhash (header node))) ->
  child_ok idx node parent -> child_ok idx' node parent.
Proof.
  intros Hsub Ep [a Ha] [H1 H2 H3]. split; [done|done|]. rewrite H3, Ha. symmetry.
  by apply (nth_parent_mono idx).
Qed.

Lemma skip_is_Some c hd parent :
  index_wf c -> block_index c !! prev_blockhash hd = Some parent ->
  is_Some (nth_parent (block_index c) (Z.to_nat (height parent - block_index_skip_height (height parent + 1)))
             (prev_blockhash hd)).
Proof.
  intros Hwf E. pose proof (wf_height c Hwf _ _ E). pose proof (skip_height_range (height parent + 1)).
  destruct (nth_parent_total c Hwf (Z.to_nat (height parent - block_index_skip_height (height parent + 1))) _ _ E)
    as (a & _ & Ha & _); [lia|by eexists].
Qed.

(** The parts of [index_wf] about the index alone. *)
Lemma insert_child_ok c hash hd parent :
  index_wf c -> known_header c hash hd -> block_index c !! prev_blockhash hd = Some parent ->
  forall hash' node, <[hash := node_of c hd parent]> (block_index c) !! hash' = Some node -> height node <> 0 ->
  exists parent', <[hash := node_of c hd parent]> (block_index c) !! prev_blockhash (header node) = Some parent' /\
                  child_ok (<[hash := node_of c hd parent]> (block_index c)) node parent'.
Proof.
  intros Hwf Hk E hash' node En Hh. pose proof (grown_index c hash hd parent Hwf Hk E) as Hsub.
  assert (exists parent', block_index c !! prev_blockhash (header node) = Some parent' /\
                          child_ok (block_index c) node parent') as (parent' & Ep & Hc).
  { destruct (decide (hash' = hash)) as [->|Hne].
    - rewrite lookup_insert_eq in En. injection En as <-. by exists parent.
    - rewrite lookup_insert_ne in En by done. by apply (wf_child c Hwf hash'). }
  exists parent'. split; [by apply (lookup_weaken _ _ _ _ Ep)|].
  apply (child_ok_mono (block_index c) _ _ _ parent'); [done|done| |done].
  rewrite (child_height _ _ _ Hc). by apply skip_is_Some.
Qed.

Lemma insert_node_wf c hash hd parent :
  index_wf c -> known_header c hash hd -> block_index c !! prev_blockhash hd = Some parent ->
  height parent < umax 32 -> index_wf (set_block_index <[hash := node_of c hd parent]> c).
Proof.
  intros Hwf Hk E Hmax. pose proof (grown_index c hash hd parent Hwf Hk E) as Hsub.
  pose proof (wf_height c Hwf _ _ E) as Hh. split; simpl.
  - intros hash' node [[<- <-]|[Hne En]]%lookup_insert_Some; [simpl; lia|by apply (wf_height c Hwf hash')].
  - intros hash' node [[<- <-]|[Hne En]]%lookup_insert_Some; [simpl; lia|by apply (wf_genesis c Hwf)].
  - by apply insert_child_ok.
  - intros i hash' Ea. destruct (wf_active c Hwf i hash' Ea) as (node & En & Hrest).
    exists node. split; [by apply (lookup_weaken _ _ _ _ En)|done].
  - apply (wf_headers c Hwf).
Qed.

Lemma index_header_eq c hash hd parent :
  index_wf c -> block_index c !! prev_blockhash hd = Some parent -> height parent < umax 32 ->
  index_header c hash hd = Some (assign_header_sequence_id (set_block_index <[hash := node_of c hd parent]> c) hash).
Proof.
  intros Hwf E Hmax. unfold index_header, child_node. rewrite E. cbn [mbind option_bind].
  unfold sat_add. rewrite Z.min_l by lia. by rewrite (skip_of_parent c hd parent Hwf E).
Qed.

Lemma index_header_wf c hash hd parent c' :
  index_wf c -> known_header c hash hd -> block_index c !! prev_blockhash hd = Some parent ->
  height parent < umax 32 -> index_header c hash hd = Some c' -> index_wf c'.
Proof.
  intros Hwf Hk E Hmax. rewrite (index_header_eq c hash hd parent) by done. intros [= <-].
  eapply same_index_wf; [apply assign_header_sequence_same|]. by apply insert_node_wf.
Qed.

(** The walk from a block below the new tip does not see the new tip. *)
Lemma ancestor_loop_push fuel c f g hash cur h :
  (forall i, (i <= Z.to_nat cur)%nat -> f (active_chain c) !! i = active_chain c !! i) ->
  ancestor_loop fuel (set_active f g c) hash cur h = ancestor_loop fuel c hash cur h.
Proof.
  revert hash cur. induction fuel as [|fuel IH]; intros hash cur Hf; [done|]. cbn [ancestor_loop].
  unfold active_at. cbn [set_active active_chain block_index]. destruct (Z.ltb_spec h cur); [|done].
  rewrite !Hf by lia. case_bool_decide; [done|]. destruct (block_index c !! hash) as [node|]; [|done].
  cbn [mbind option_bind].
  destruct (decide (1 <= cur)).
  - pose proof (skip_height_range cur). destruct (_ && _); [destruct (skip node); [|done]|];
      cbn [mbind option_bind]; apply IH; intros; apply Hf; lia.
  - assert (Hs : block_index_skip_height cur = 0) by (unfold block_index_skip_height; btrue (cur <? 2); done).
    rewrite Hs. destruct (_ && _); [destruct (skip node); [|done]|];
      cbn [mbind option_bind]; apply IH; intros; apply Hf; lia.
Qed.

Lemma push_active_wf c hash hd parent :
  index_wf (set_block_index <[hash := node_of c hd parent]> c) ->
  active_chain c !! Z.to_nat (height parent) = Some (prev_blockhash hd) ->
  length (active_chain c) = S (Z.to_nat (height parent)) -> 0 <= height parent ->
  index_wf (set_block_index <[hash := node_of c hd parent]>
              (set_active (fun l => l ++ [hash]) (fun l => l ++ [hd]) c)).
Proof.
  intros [H1 H2 H3 H4 H5] Eprev Hlen Hh. simpl in *. split; simpl; [done| |done| |].
  - intros hash' node En Hz. rewrite lookup_app_l by lia. by apply (H2 _ node).
  - intros i hash' [Ea|[Hi Ea]]%lookup_app_Some.
    + destruct (H4 i hash' Ea) as (node & En & Hnh & Hhd & Hprev). exists node.
      pose proof (lookup_lt_Some _ _ _ Ea).
      split; [done|]. split; [done|]. split; [by apply lookup_app_l_Some|].
      intros j ->. rewrite lookup_app_l by lia. by apply Hprev.
    + apply list_lookup_singleton_Some in Ea as [Hi0 <-]. replace i with (S (Z.to_nat (height parent))) by lia.
      exists (node_of c hd parent). rewrite lookup_insert_eq. split; [done|]. split; [simpl; lia|].
      split; [by rewrite <- Hlen, <- H5, list_lookup_middle|].
      intros j [= <-]. rewrite lookup_app_l by lia. done.
  - rewrite !length_app. simpl. lia.
Qed.

(** The tip is the block at the height of the active chain. *)
Lemma tip_parent c hd parent :
  index_wf c -> list.last (active_chain c) = Some (prev_blockhash hd) ->
  block_index c !! prev_blockhash hd = Some parent -> height parent < umax 32 ->
  sat_add 32 (tip_height c) 1 = height parent + 1 /\ length (active_chain c) = S (Z.to_nat (height parent)) /\
  0 <= height parent.
Proof.
  intros Hwf Elast E Hmax. rewrite last_lookup in Elast.
  destruct (wf_active c Hwf _ _ Elast) as (node & En & Hnh & _). rewrite E in En. injection En as <-.
  pose proof (lookup_lt_Some _ _ _ Elast) as Hlen. unfold sat_add, tip_height, sat_sub. lia.
Qed.

Lemma connect_tip_eq c hash hd parent :
  index_wf c -> list.last (active_chain c) = Some (prev_blockhash hd) ->
  block_index c !! prev_blockhash hd = Some parent -> height parent < umax 32 ->
  connect_tip c hash hd =
    Some (assign_block_sequence_id (assign_header_sequence_id
            (set_block_index <[hash := node_of c hd parent]>
               (set_active (fun l => l ++ [hash]) (fun l => l ++ [hd]) c)) hash) hash).
Proof.
  intros Hwf Elast E Hmax. destruct (tip_parent c hd parent Hwf Elast E Hmax) as (Hh & Hlen & Hpos).
  assert (Hs : ancestor_hash (set_active (fun l => l ++ [hash]) (fun l => l ++ [hd]) c) (prev_blockhash hd)
                 (block_index_skip_height (height parent + 1)) = skip (node_of c hd parent)).
  { rewrite <- (skip_of_parent c hd parent Hwf E). unfold ancestor_hash. cbn [set_active block_index].
    rewrite E. cbn [mbind option_bind]. destruct (_ <? _); [done|]. apply ancestor_loop_push.
    intros; apply lookup_app_l; lia. }
  unfold connect_tip, child_node. rewrite Hh, Hs. cbn [set_active block_index]. by rewrite E.
Qed.

Lemma connect_tip_wf c hash hd parent c' :
  index_wf c -> known_header c hash hd -> list.last (active_chain c) = Some (prev_blockhash hd) ->
  block_index c !! prev_blockhash hd = Some parent -> height parent < umax 32 ->
  connect_tip c hash hd = Some c' -> index_wf c'.
Proof.
  intros Hwf Hk Elast E Hmax. rewrite (connect_tip_eq c hash hd parent) by done. intros [= <-].
  destruct (tip_parent c hd parent Hwf Elast E Hmax) as (_ & Hlen & Hpos). rewrite last_lookup in Elast.
  eapply same_index_wf; [apply assign_block_sequence_same|].
  eapply same_index_wf; [apply assign_header_sequence_same|].
  apply (push_active_wf c hash hd parent); [by apply insert_node_wf| |lia|lia].
  rewrite <- Elast. f_equal. lia.
Qed.

Lemma disconnect_to_wf c n : index_wf c -> index_wf (disconnect_to c n).
Proof.
  intros [H1 H2 H3 H4 H5]. split; simpl; [done| |done| |by rewrite !length_take, H5].
  - intros hash node En Hz. rewrite lookup_take_lt by lia. by apply (H2 _ node).
  - intros i hash [Ea Hi]%lookup_take_Some. destruct (H4 i hash Ea) as (node & En & Hnh & Hhd & Hprev).
    exists node. rewrite lookup_take_lt by lia. split; [done|]. split; [done|]. split; [done|].
    intros j ->. rewrite lookup_take_lt by lia. by apply Hprev.
Qed.

Lemma initialize_genesis_wf c hash hd :
  block_index c = ∅ -> active_chain c = [] -> headers c = [] -> index_wf (initialize_genesis c hash hd).
Proof.
  intros Hi Ha Hh. unfold initialize_genesis. eapply same_index_wf; [apply assign_header_sequence_same|].
  split; simpl; rewrite ?Hi, ?Ha, ?Hh; simpl.
  - intros hash' node [[<- <-]|[_ []%lookup_empty_Some]]%lookup_insert_Some. simpl. unfold umax. lia.
  - intros hash' node [[<- <-]|[_ []%lookup_empty_Some]]%lookup_insert_Some. done.
  - intros hash' node [[<- <-]|[_ []%lookup_empty_Some]]%lookup_insert_Some. done.
  - intros i hash' [-> <-]%list_lookup_singleton_Some. rewrite lookup_insert_eq.
    eexists. split; [done|]. split; [done|]. split; [done|]. intros j [=].
  - done.
Qed.

(** ** The states a node goes through *)

Inductive chain_step (c : ChainState) : ChainState -> Prop :=
| step_index hash hd parent c' :
    known_header c hash hd -> block_index c !! prev_blockhash hd = Some parent -> height parent < umax 32 ->
    index_header c hash hd = Some c' -> chain_step c c'
| step_connect hash hd parent c' :
    known_header c hash hd -> list.last (active_chain c) = Some (prev_blockhash hd) ->
    block_index c !! prev_blockhash hd = Some parent -> height parent < umax 32 ->
    connect_tip c hash hd = Some c' -> chain_step c c'
| step_disconnect n : chain_step c (disconnect_to c n)
| step_tables c' : same_index c c' -> chain_step c c'.

Inductive reachable : ChainState -> Prop :=
| reach_genesis c hash hd :
    block_index c = ∅ -> active_chain c = [] -> headers c = [] -> reachable (initialize_genesis c hash hd)
| reach_step c c' : reachable c -> chain_step c c' -> reachable c'.

Lemma reachable_wf c : reachable c -> index_wf c.
Proof.
  induction 1 as [c hash hd|c c' _ Hwf Hstep]; [by apply initialize_genesis_wf|].
  destruct Hstep as [hash hd parent c'|hash hd parent c'|n|c' Hsame].
  - by apply (index_header_wf c hash hd parent).
  - by apply (connect_tip_wf c hash hd parent).
  - by apply disconnect_to_wf.
  - by apply (same_index_wf c).
Qed.

(** ** Walking to the genesis block *)

Section Walks.
Context (c : ChainState) (Hwf : index_wf c).

Lemma height_nat hash node : block_index c !! hash = Some node -> height node = Z.of_nat (Z.to_nat (height node)).
Proof. intros E. pose proof (wf_height c Hwf _ _ E). lia. Qed.

(** Any fuel above the height gives the same result. *)
Lemma invalid_loop_fuel n m hash node :
  block_index c !! hash = Some node -> (Z.to_nat (height node) < n)%nat -> (Z.to_nat (height node) < m)%nat ->
  invalid_loop n c hash = invalid_loop m c hash.
Proof.
  revert m hash node. induction n as [|n IH]; intros m hash node E Hn Hm; [lia|]. destruct m as [|m]; [lia|].
  simpl. rewrite E. case_bool_decide; [done|]. destruct (Z.eqb_spec (height node) 0) as [|Hz]; [done|].
  destruct (wf_child c Hwf _ _ E Hz) as (parent & Ep & Hc). pose proof (child_height _ _ _ Hc).
  pose proof (wf_height c Hwf _ _ Ep). apply (IH _ _ parent); [done|lia|lia].
Qed.

Lemma missing_loop_fuel n m hash node :
  block_index c !! hash = Some node -> (Z.to_nat (height node) < n)%nat -> (Z.to_nat (height node) < m)%nat ->
  missing_loop n c hash = missing_loop m c hash.
Proof.
  revert m hash node. induction n as [|n IH]; intros m hash node E Hn Hm; [lia|]. destruct m as [|m]; [lia|].
  simpl. rewrite E. destruct (is_active_block c hash) eqn:Ea; [done|]. destruct (negb _); [done|].
  destruct (Z.eq_dec (height node) 0) as [Hz|Hz].
  { unfold is_active_block, active_at in Ea. rewrite E, Hz in Ea. rewrite bool_decide_eq_false in Ea.
    by destruct Ea; apply (wf_genesis c Hwf _ node). }
  destruct (wf_child c Hwf _ _ E Hz) as (parent & Ep & Hc). pose proof (child_height _ _ _ Hc).
  pose proof (wf_height c Hwf _ _ Ep). apply (IH _ _ parent); [done|lia|lia].
Qed.

Lemma has_invalid_ancestor_step hash node :
  block_index c !! hash = Some node ->
  has_invalid_ancestor c hash =
    bool_decide (hash ∈ invalid_blocks c) ||
    (negb (height node =? 0) && has_invalid_ancestor c (prev_blockhash (header node))).
Proof.
  intros E. unfold has_invalid_ancestor. case_bool_decide as Hempty.
  { rewrite Hempty, bool_decide_false by set_solver. by destruct (height node =? 0). }
  unfold walk_fuel at 1. rewrite E.
  remember (S (Z.to_nat (height node))) as f eqn:Ef. cbn [invalid_loop]. rewrite E. case_bool_decide; [done|].
  destruct (Z.eqb_spec (height node) 0) as [|Hz]; [done|]. simpl.
  destruct (wf_child c Hwf _ _ E Hz) as (parent & Ep & Hc). pose proof (child_height _ _ _ Hc).
  pose proof (wf_height c Hwf _ _ Ep).
  unfold walk_fuel. rewrite Ep. apply (invalid_loop_fuel _ _ _ parent); [done|lia|lia].
Qed.

Lemma has_missing_body_step hash node :
  block_index c !! hash = Some node ->
  candidate_chain_has_missing_body c hash =
    negb (is_active_block c hash) &&
    (negb (bool_decide (hash ∈ store c)) || candidate_chain_has_missing_body c (prev_blockhash (header node))).
Proof.
  intros E. unfold candidate_chain_has_missing_body, walk_fuel at 1. rewrite E.
  remember (S (Z.to_nat (height node))) as f eqn:Ef. cbn [missing_loop]. rewrite E.
  destruct (is_active_block c hash) eqn:Ea; [done|]. destruct (negb _); [done|]. simpl.
  destruct (Z.eq_dec (height node) 0) as [Hz|Hz].
  { unfold is_active_block, active_at in Ea. rewrite E, Hz in Ea. rewrite bool_decide_eq_false in Ea.
    by destruct Ea; apply (wf_genesis c Hwf _ node). }
  destruct (wf_child c Hwf _ _ E Hz) as (parent & Ep & Hc). pose proof (child_height _ _ _ Hc).
  pose proof (wf_height c Hwf _ _ Ep).
  unfold walk_fuel. rewrite Ep. apply (missing_loop_fuel _ _ _ parent); [done|lia|lia].
Qed.

Lemma genesis_active hash node : block_index c !! hash = Some node -> height node = 0 -> is_active_block c hash = true.
Proof.
  intros E Hz. unfold is_active_block, active_at. rewrite E, Hz. apply bool_decide_eq_true.
  by apply (wf_genesis c Hwf _ node).
Qed.

Lemma active_not_missing hash : is_active_block c hash = true -> candidate_chain_has_missing_body c hash = false.
Proof.
  intros Ea. assert (exists node, block_index c !! hash = Some node) as [node E].
  { unfold is_active_block in Ea. destruct (block_index c !! hash); [by eexists|done]. }
  rewrite (has_missing_body_step hash node E), Ea. done.
Qed.

(** ** The tables of the selection *)

Definition tables_agree (full valid : gmap bytes bool) (hash : bytes) : Prop :=
  full !! hash = Some (negb (candidate_chain_has_missing_body c hash)) /\
  valid !! hash = Some (negb (has_invalid_ancestor c hash)).

Lemma ancestor_tables_step hash node full valid :
  block_index c !! hash = Some node ->
  (height node <> 0 -> tables_agree full valid (prev_blockhash (header node))) ->
  negb (candidate_chain_has_missing_body c hash) =
    is_active_block c hash || (bool_decide (hash ∈ store c) &&
      ((height node =? 0) || is_active_block c (prev_blockhash (header node)) ||
       default false (full !! prev_blockhash (header node)))) /\
  negb (has_invalid_ancestor c hash) =
    negb (bool_decide (hash ∈ invalid_blocks c)) &&
    ((height node =? 0) || default false (valid !! prev_blockhash (header node))).
Proof.
  intros E Hprev. rewrite (has_invalid_ancestor_step hash node E), (has_missing_body_step hash node E).
  destruct (Z.eqb_spec (height node) 0) as [Hz|Hz].
  - rewrite (genesis_active hash node E Hz). split; [done|]. by destruct (bool_decide _).
  - destruct (Hprev Hz) as [-> ->]. simpl. split; [|by repeat destruct (bool_decide _)].
    destruct (is_active_block c (prev_blockhash (header node))) eqn:Ea; [rewrite (active_not_missing _ Ea)|];
      by destruct (is_active_block c hash), (bool_decide _).
Qed.

Lemma ancestor_tables_spec l full valid :
  StronglySorted height_le l -> NoDup l.*1 -> (forall hash node, (hash, node) ∈ l -> block_index c !! hash = Some node) ->
  (forall hash node, block_index c !! hash = Some node -> hash ∉ l.*1 -> tables_agree full valid hash) ->
  forall hash node, block_index c !! hash = Some node ->
    tables_agree (ancestor_tables c l full valid).1 (ancestor_tables c l full valid).2 hash.
Proof.
  revert full valid. induction l as [|[hash0 node0] l IH]; intros full valid Hs Hnd Hl Hout hash node E; simpl.
  { apply (Hout hash node E). simpl. set_solver. }
  apply StronglySorted_inv in Hs as [Hs Hle]. apply NoDup_cons in Hnd as [Hnot Hnd].
  assert (E0 : block_index c !! hash0 = Some node0) by (apply Hl; left).
  destruct (ancestor_tables_step hash0 node0 full valid E0) as [Hfull Hvalid].
  { intros Hz. destruct (wf_child c Hwf _ _ E0 Hz) as (parent & Ep & Hc).
    apply (Hout _ parent Ep). simpl. rewrite not_elem_of_cons. pose proof (child_height _ _ _ Hc).
    split; [intros Heq; rewrite Heq, E0 in Ep; injection Ep as ->; lia|].
    intros ([h' n'] & Heq & Hin)%list_elem_of_fmap. simpl in Heq. rewrite Forall_forall in Hle.
    specialize (Hle _ Hin). unfold height_le in Hle. simpl in Hle.
    assert (E' : block_index c !! h' = Some n') by (apply Hl; by right).
    rewrite <- Heq, Ep in E'. injection E' as <-. lia. }
  apply (IH _ _ Hs Hnd) with node; [intros h' n' ?; apply Hl; by right| |done].
  intros h' n' E' Hnin. unfold tables_agree. destruct (decide (h' = hash0)) as [->|Hne].
  - rewrite !lookup_insert_eq, Hfull, Hvalid. done.
  - rewrite !lookup_insert_ne by done. apply (Hout _ n' E'). simpl. by rewrite not_elem_of_cons.
Qed.
End Walks.

End WellFormed.

(** ** Orders given by a comparison *)

Class CmpOrder {A} (cmp : A -> A -> comparison) : Prop := {
  cmp_opp : forall x y, cmp y x = CompOpp (cmp x y);
  cmp_trans : forall x y z, cmp x y <> Gt -> cmp y z <> Gt -> cmp x z <> Gt;
}.

Lemma cmp_Eq_trans {A} (cmp : A -> A -> comparison) `{!CmpOrder cmp} x y z :
  cmp x y <> Gt -> cmp y z <> Gt -> cmp x z = Eq -> cmp x y = Eq /\ cmp y z = Eq.
Proof.
  intros Hxy Hyz Hxz.
  assert (Hzx : cmp z x <> Gt) by (rewrite cmp_opp, Hxz; done).
  pose proof (cmp_trans y z x Hyz Hzx) as Hyx. pose proof (cmp_trans z x y Hzx Hxy) as Hzy.
  rewrite cmp_opp in Hyx, Hzy. destruct (cmp x y), (cmp y z); done.
Qed.

#[export] Instance then_with_order {A} (f g : A -> A -> comparison) `{!CmpOrder f} `{!CmpOrder g} :
  CmpOrder (fun x y => then_with (f x y) (g x y)).
Proof.
  split.
  - intros x y. rewrite (cmp_opp (cmp:=f)), (cmp_opp (cmp:=g)). by destruct (f x y).
  - intros x y z Hxy Hyz. assert (Hf : f x z <> Gt).
    { apply (cmp_trans x y z); [by destruct (f x y)|by destruct (f y z)]. }
    destruct (f x z) eqn:Exz; [|done|done]. destruct (cmp_Eq_trans f x y z) as [E1 E2];
      [by destruct (f x y)|by destruct (f y z)|done|].
    rewrite E1 in Hxy. rewrite E2 in Hyz. simpl in *. by apply (cmp_trans x y z).
Qed.

#[export] Instance Z_key_order {A} (f : A -> Z) : CmpOrder (fun x y => f x ?= f y).
Proof. split; [intros; apply Z.compare_antisym|]. intros x y z. rewrite !Z.compare_ngt_iff. lia. Qed.

#[export] Instance flip_order {A} (cmp : A -> A -> comparison) `{!CmpOrder cmp} : CmpOrder (fun x y => cmp y x).
Proof. split; [intros; apply cmp_opp|]. intros x y z H1 H2. by apply (cmp_trans z y x). Qed.

#[export] Instance key_order {A B} (f : A -> B) (cmp : B -> B -> comparison) `{!CmpOrder cmp} :
  CmpOrder (fun x y => cmp (f x) (f y)).
Proof. split; [intros; apply cmp_opp|]. intros x y z. apply cmp_trans. Qed.

Lemma string_compare_step a1 s1 a2 s2 :
  String.compare (String.String a1 s1) (String.String a2 s2) =
  then_with (N.compare (Ascii.N_of_ascii a1) (Ascii.N_of_ascii a2)) (String.compare s1 s2).
Proof. simpl. unfold Ascii.compare. by destruct (_ ?= _)%N. Qed.

#[export] Instance string_order : CmpOrder String.compare.
Proof.
  split; [intros; apply String.compare_antisym|].
  induction x as [|a1 s1 IH]; intros [|a2 s2] [|a3 s3]; try done.
  rewrite !string_compare_step.
  destruct (N.compare_spec (Ascii.N_of_ascii a1) (Ascii.N_of_ascii a2)) as [E12|H12|H12];
    destruct (N.compare_spec (Ascii.N_of_ascii a2) (Ascii.N_of_ascii a3)) as [E23|H23|H23];
    destruct (N.compare_spec (Ascii.N_of_ascii a1) (Ascii.N_of_ascii a3)) as [E13|H13|H13];
    simpl; try done; try lia. apply IH.
Qed.

Lemma max_by_spec {A} (cmp : A -> A -> comparison) `{!CmpOrder cmp} l best m :
  max_by cmp l best = Some m ->
  (m ∈ l \/ best = Some m) /\ (forall x, x ∈ l \/ best = Some x -> cmp x m <> Gt).
Proof.
  revert best. induction l as [|x l IH]; intros best E; simpl in E.
  { subst. split; [by right|]. intros x [[]%not_elem_of_nil|[= ->]].
    pose proof (cmp_opp x x). by destruct (cmp x x). }
  set (b' := match best with Some b => _ | None => _ end) in E. destruct (IH b' E) as [Hm Hmax].
  assert (Hb : (b' = Some x \/ best = b') /\ exists y, b' = Some y /\ cmp x y <> Gt /\ forall b, best = Some b -> cmp b y <> Gt).
  { subst b'. assert (Hrefl : forall y, cmp y y <> Gt) by (intros y; pose proof (cmp_opp y y); by destruct (cmp y y)).
    destruct best as [b|]; [|by split; [left|exists x]]. destruct (cmp b x) eqn:Eb.
    1,2: split; [by left|]; exists x; split; [done|]; split; [done|]; intros ? [= <-]; by rewrite Eb.
    split; [by right|]. exists b. split; [done|]. rewrite (cmp_opp b x), Eb. split; [done|]. by intros ? [= <-]. }
  destruct Hb as [Hb (y & Ey & Hxy & Hby)]. split.
  - destruct Hm as [Hm|Hm]; [left; by right|]. destruct Hb as [Hb|Hb]; [|right; congruence].
    rewrite Hb in Hm. injection Hm as ->. left. by left.
  - assert (Hy : cmp y m <> Gt) by (apply Hmax; by right).
    intros z [[->|Hz]%elem_of_cons|Hz]; [by apply (cmp_trans x y m)|apply Hmax; by left|].
    apply (cmp_trans z y m); [by apply Hby|done].
Qed.

Lemma max_by_total {A} (cmp : A -> A -> comparison) l best :
  l <> [] \/ is_Some best -> is_Some (max_by cmp l best).
Proof.
  revert best. induction l as [|x l IH]; intros best H; simpl; [by destruct H|].
  apply IH. right. destruct best; [|done]. by case_match.
Qed.

(** ** Properties of the index *)

Section Properties.
Context {Ops : HeaderOps}.

(** In every state the node reaches, from any indexed block and for any
    height up to its own, the walk over skip pointers, parent links and the
    active chain ends, and ends at the ancestor that following the parent
    links one by one reaches, whose entry has the wanted height. *)
Theorem ancestor_hash_correct (c : ChainState) (hash : bytes) (node : BlockNode) (h : Z)
  (Hreach : reachable c) (Hnode : block_index c !! hash = Some node) (Hh : 0 <= h <= height node) :
  exists a an, ancestor_hash c hash h = Some a /\
    nth_parent (block_index c) (Z.to_nat (height node - h)) hash = Some a /\
    block_index c !! a = Some an /\ height an = h.
Proof.
  pose proof (reachable_wf c Hreach) as Hwf.
  destruct (nth_parent_total c Hwf (Z.to_nat (height node - h)) hash node Hnode) as (a & an & Ha & Han & Hah); [lia|].
  exists a, an. rewrite (ancestor_hash_eq c Hwf hash node h Hnode Hh). split; [done|]. split; [done|].
  split; [done|]. lia.
Qed.

Lemma parent_times_active c n i hash :
  index_wf c -> active_chain c !! i = Some hash ->
  parent_times (S n) c hash = rev (map hd_time (drop (S i - S n) (take (S i) (headers c)))).
Proof.
  intros Hwf. revert i hash. induction n as [|n IH]; intros i hash E;
    destruct (wf_active c Hwf i hash E) as (node & En & Hh & Ehd & Hprev);
    rewrite (take_S_r _ _ _ Ehd); cbn [parent_times]; rewrite En;
    rewrite drop_app_le, map_app, rev_app_distr by (rewrite length_take_le by (apply lookup_lt_Some in Ehd; lia); lia);
    simpl; f_equal.
  - rewrite drop_ge by (rewrite length_take; lia). by destruct (height node =? 0).
  - destruct i as [|i].
    + btrue (height node =? 0). done.
    + bfalse (height node =? 0). specialize (Hprev i eq_refl). cbn [parent_times] in IH. rewrite (IH i _ Hprev).
      done.
Qed.

Lemma median_rev l : median_time (rev l) = median_time l.
Proof.
  unfold median_time. rewrite length_rev. f_equal. apply (Sorted_unique Z.le).
  - apply Sorted_merge_sort. intros x y; lia.
  - apply Sorted_merge_sort. intros x y; lia.
  - rewrite !merge_sort_Permutation. symmetry. apply Permutation_rev.
Qed.

Lemma median_total l : l <> [] -> is_Some (median_time l).
Proof.
  intros H. unfold median_time. apply lookup_lt_is_Some_2.
  rewrite (Permutation_length (merge_sort_Permutation Z.le l)). rewrite Nat.div2_div.
  destruct l; [done|]. apply Nat.div_lt; simpl; lia.
Qed.

Lemma median_agrees c tip :
  index_wf c -> list.last (active_chain c) = Some tip ->
  median_time_past c = median_time_past_for_parent c tip /\ is_Some (median_time_past c).
Proof.
  intros Hwf Htip. rewrite last_lookup in Htip.
  pose proof (lookup_lt_Some _ _ _ Htip) as Hlen. pose proof (wf_headers c Hwf) as Hhd.
  unfold median_time_past, median_time_past_for_parent. rewrite (parent_times_active c 10 _ _ Hwf Htip), median_rev.
  rewrite take_ge by lia. replace (S (pred (length (active_chain c))) - 11)%nat with (length (headers c) - 11)%nat by lia.
  split; [done|]. apply median_total. intros Hnil. apply (f_equal length) in Hnil.
  rewrite length_map, length_drop in Hnil. simpl in Hnil. lia.
Qed.

(** At the tip of the active chain the two computations of the median
    time past agree: the one over the last eleven active headers and the one
    that follows the parent links of the index, and both have a result. *)
Theorem median_time_past_agrees (c : ChainState) (tip : bytes)
  (Hreach : reachable c) (Htip : list.last (active_chain c) = Some tip) :
  median_time_past c = median_time_past_for_parent c tip /\ is_Some (median_time_past c).
Proof. apply median_agrees; [by apply reachable_wf|done]. Qed.

Lemma last_real_target_total c hash node interval fuel :
  index_wf c -> block_index c !! hash = Some node -> (Z.to_nat (height node) < fuel)%nat ->
  is_Some (last_real_target fuel c hash interval).
Proof.
  intros Hwf. revert hash node. induction fuel as [|fuel IH]; intros hash node E Hf; [lia|]. simpl. rewrite E. simpl.
  destruct (_ || _) eqn:Eb; [done|]. bool_to_prop.
  destruct (Z.eq_dec (height node) 0) as [Hz|Hz]; [by rewrite Hz, Zmod_0_l in *|].
  destruct (wf_child c Hwf _ _ E Hz) as (parent & Ep & Hc). pose proof (child_height _ _ _ Hc).
  pose proof (wf_height c Hwf _ _ Ep). apply (IH _ parent Ep). lia.
Qed.

(** The expected target of a child of an indexed block is always
    defined: none of the lookups the code expects to succeed fails, and the
    walk over minimum-difficulty blocks ends at a block. *)
Theorem expected_target_total (c : ChainState) (parent_hash : bytes) (parent : BlockNode) (candidate_time : Z)
  (Hreach : reachable c) (Hparent : block_index c !! parent_hash = Some parent)
  (Hmax : height parent < umax 32) (Hint : 0 < difficulty_adjustment_interval (network c)) :
  is_Some (expected_target_for_parent c parent_hash candidate_time) /\
  is_Some (last_real_target (S (Z.to_nat (height parent))) c parent_hash (difficulty_adjustment_interval (network c))).
Proof.
  pose proof (reachable_wf c Hreach) as Hwf. pose proof (wf_height c Hwf _ _ Hparent) as Hh.
  split; [|apply (last_real_target_total c _ parent); [done|done|lia]].
  unfold expected_target_for_parent. rewrite Hparent. cbn [mbind option_bind].
  assert (Hs : sat_add 32 (height parent) 1 = height parent + 1) by (unfold sat_add; lia). rewrite Hs.
  set (interval := difficulty_adjustment_interval _) in *. destruct (no_pow_retargeting _); [done|].
  destruct (Z.eqb_spec ((height parent + 1) `mod` interval) 0) as [Hz|Hz]; cbn [negb].
  - apply Z.mod_divide in Hz as [k Hk]; [|lia].
    assert (1 <= k) by nia. assert (Hge : interval <= height parent + 1) by nia.
    destruct (nth_parent_total c Hwf (Z.to_nat (height parent - (height parent + 1 - interval))) _ _ Hparent)
      as (a & an & Ha & Han & _); [lia|].
    rewrite (ancestor_hash_eq c Hwf _ parent), Ha by (done || lia). cbn [mbind option_bind]. rewrite Han. done.
  - repeat (case_match; try done).
Qed.

Lemma compare_tips_order c : CmpOrder (compare_tips c).
Proof.
  unfold compare_tips. repeat apply then_with_order.
  - apply (Z_key_order (fun p : bytes * BlockNode => chain_work p.2)).
  - apply (flip_order (fun x y : bytes * BlockNode => precious_priority c x.1 ?= precious_priority c y.1)).
  - apply (flip_order (fun x y : bytes * BlockNode => block_sequence_id c x.1 ?= block_sequence_id c y.1)).
  - apply (flip_order (fun x y : bytes * BlockNode => String.compare (hash_to_string x.1) (hash_to_string y.1))).
Qed.

(** A block that can become the tip: no ancestor is marked invalid, and no
    body is missing on the way to the active chain. *)
Definition tip_candidate (c : ChainState) (hash : bytes) (node : BlockNode) : Prop :=
  block_index c !! hash = Some node /\ has_invalid_ancestor c hash = false /\
  candidate_chain_has_missing_body c hash = false.

Lemma candidate_filter c hash node :
  index_wf c ->
  let tables := ancestor_tables c (merge_sort height_le (map_to_list (block_index c))) ∅ ∅ in
  (hash, node) ∈ List.filter (fun '(hash, _) => default false (tables.2 !! hash) && default false (tables.1 !! hash))
    (map_to_list (block_index c)) <-> tip_candidate c hash node.
Proof.
  intros Hwf tables. unfold tip_candidate. rewrite list_elem_of_In, filter_In, <- list_elem_of_In, elem_of_map_to_list.
  assert (Hperm : merge_sort height_le (map_to_list (block_index c)) ≡ₚ map_to_list (block_index c))
    by apply merge_sort_Permutation.
  assert (Ht : forall hash node, block_index c !! hash = Some node -> tables_agree c tables.1 tables.2 hash).
  { apply (ancestor_tables_spec c Hwf).
    - apply StronglySorted_merge_sort; [intros x y z; unfold height_le; lia|intros x y; unfold height_le; lia].
    - rewrite Hperm. apply NoDup_fst_map_to_list.
    - intros h n. rewrite Hperm. by rewrite elem_of_map_to_list.
    - intros h n E Hnot. destruct Hnot. rewrite Hperm. apply list_elem_of_fmap. exists (h, n).
      by rewrite elem_of_map_to_list. }
  split; intros [E H]; split; try done; destruct (Ht _ _ E) as [Hf Hv]; rewrite Hf, Hv in *; simpl in *.
  - by destruct (has_invalid_ancestor c hash), (candidate_chain_has_missing_body c hash).
  - by destruct H as [-> ->].
Qed.

Lemma best_valid_tip_wf (c : ChainState) (Hwf : index_wf c) :
  (forall hash, best_valid_tip_hash c = Some hash ->
     exists node, tip_candidate c hash node /\
       forall hash' node', tip_candidate c hash' node' ->
         compare_tips c (hash', node') (hash, node) <> Gt /\ chain_work node' <= chain_work node) /\
  (forall hash node, tip_candidate c hash node -> is_Some (best_valid_tip_hash c)).
Proof.
  pose proof (compare_tips_order c) as Hord.
  unfold best_valid_tip_hash. pose proof (fun h n => candidate_filter c h n Hwf) as Hcand. cbn zeta in Hcand.
  destruct (ancestor_tables _ _ _ _) as [full valid]. simpl in Hcand.
  set (l := List.filter _ _) in *. split.
  - intros hash E. destruct (max_by _ _ _) as [[hash0 node]|] eqn:Em; [|done]. injection E as ->.
    destruct (max_by_spec (compare_tips c) l None _ Em) as [[Hin|[=]] Hmax].
    exists node. split; [by apply Hcand|]. intros hash' node' Hc'.
    assert (Hle : compare_tips c (hash', node') (hash, node) <> Gt) by (apply Hmax; left; by apply Hcand).
    split; [done|]. revert Hle. unfold compare_tips. simpl.
    destruct (Z.compare_spec (chain_work node') (chain_work node)); simpl; [lia|lia|done].
  - intros hash node Hc. apply Hcand in Hc. destruct (max_by_total (compare_tips c) l None) as [x ->]; [|by eexists].
    left. intros Hnil. rewrite Hnil in Hc. by apply not_elem_of_nil in Hc.
Qed.
(** C22: The pass over the index in height order selects the block it should:
    the selected tip is indexed, has no invalid ancestor and no missing body
    by the walks that the node makes elsewhere, and no other such block comes
    before it, so none has more work; and there is a selected tip as soon as
    there is a candidate. *)
Theorem best_valid_tip_correct (c : ChainState) (Hreach : reachable c) :
  (forall hash, best_valid_tip_hash c = Some hash ->
     exists node, tip_candidate c hash node /\
       forall hash' node', tip_candidate c hash' node' ->
         compare_tips c (hash', node') (hash, node) <> Gt /\ chain_work node' <= chain_work node) /\
  (forall hash node, tip_candidate c hash node -> is_Some (best_valid_tip_hash c)).
Proof. apply best_valid_tip_wf, reachable_wf, Hreach. Qed.
End Properties.

(** ** A small chain with a fork *)

Definition toy_headers : HeaderOps := {|
  work hd := hd_bits hd;
  target hd := hd_bits hd;
  hash_to_string h := match h with [x] => String.String (Ascii.ascii_of_nat (Z.to_nat x)) String.EmptyString | _ => String.EmptyString end;
  no_pow_retargeting n := bool_decide (n = Regtest);
  allow_min_difficulty_blocks _ := true;
  pow_target_spacing _ := 600;
  max_attainable_target _ := 1;
  params_adjustment_interval _ := 4;
  from_next_work_required bits timespan _ := bits + timespan;
|}.

Definition link_header (prev : bytes) (time bits : Z) : Header :=
  {| hd_version := 1; prev_blockhash := prev; merkle_root := []; hd_time := time; hd_bits := bits; hd_nonce := 0 |}.

Definition empty_chain : ChainState :=
  {| network := Testnet; block_index := ∅; active_chain := []; headers := []; store := {[ [0]; [1]; [2]; [3]; [9] ]};
     invalid_blocks := {[ [8] ]}; precious_blocks := ∅; block_sequence_ids := ∅; header_sequence_ids := ∅;
     next_block_sequence_id := 1; next_header_sequence_id := 1; best_header_hash := None |}.

Definition grown (c : ChainState) (o : option ChainState) : ChainState := default c o.
Definition chain0 := initialize_genesis (Ops:=toy_headers) empty_chain [0] (link_header [] 100 1).
Definition chain1 := grown chain0 (connect_tip (Ops:=toy_headers) chain0 [1] (link_header [0] 200 1)).
Definition chain2 := grown chain1 (connect_tip (Ops:=toy_headers) chain1 [2] (link_header [1] 150 1)).
Definition chain3 := grown chain2 (connect_tip (Ops:=toy_headers) chain2 [3] (link_header [2] 300 1)).
(** Two heavier branches off the second block, one marked invalid. *)
Definition chain4 := grown chain3 (index_header (Ops:=toy_headers) chain3 [8] (link_header [1] 400 9)).
Definition chain5 := grown chain4 (index_header (Ops:=toy_headers) chain4 [9] (link_header [1] 400 5)).

Lemma unknown_header c hash hd : block_index c !! hash = None -> known_header c hash hd.
Proof. intros E node E'. by rewrite E in E'. Qed.

(** The conditions of the steps, evaluated. *)
Definition can_index (c : ChainState) (hash : bytes) (hd : Header) : bool :=
  negb (bool_decide (is_Some (block_index c !! hash))) &&
  match block_index c !! prev_blockhash hd with Some parent => height parent <? umax 32 | None => false end.

Lemma can_index_spec c hash hd :
  can_index c hash hd = true ->
  known_header c hash hd /\ exists parent, block_index c !! prev_blockhash hd = Some parent /\ height parent < umax 32.
Proof.
  unfold can_index. intros [Hn Hp]%andb_true_iff. rewrite negb_true_iff, bool_decide_eq_false in Hn. split.
  - apply unknown_header. by destruct (block_index c !! hash); [destruct Hn|].
  - destruct (block_index c !! prev_blockhash hd) as [parent|]; [|done]. exists parent. split; [done|]. lia.
Qed.

Lemma reach_index (Ops : HeaderOps) c hash hd :
  reachable c -> can_index c hash hd = true -> reachable (grown c (index_header c hash hd)).
Proof.
  intros Hr (Hk & parent & E & Hmax)%can_index_spec. apply (reach_step c); [done|].
  eapply step_index; [done..|]. unfold index_header, child_node. rewrite E. done.
Qed.

Lemma reach_connect (Ops : HeaderOps) c hash hd :
  reachable c -> can_index c hash hd && bool_decide (list.last (active_chain c) = Some (prev_blockhash hd)) = true ->
  reachable (grown c (connect_tip c hash hd)).
Proof.
  intros Hr [(Hk & parent & E & Hmax)%can_index_spec Hl%bool_decide_eq_true]%andb_true_iff.
  apply (reach_step c); [done|]. eapply step_connect; [done..|]. unfold connect_tip, child_node.
  cbn [set_active block_index]. rewrite E. done.
Qed.

Lemma chain5_reachable : reachable (Ops:=toy_headers) chain5.
Proof.
  apply reach_index; [|by vm_compute]. apply reach_index; [|by vm_compute].
  do 3 (apply reach_connect; [|by vm_compute]). by apply reach_genesis.
Qed.

Lemma ancestor_hash_correct_witness :
  exists a an, ancestor_hash chain5 [9] 1 = Some a /\ nth_parent (block_index chain5) 1 [9] = Some a /\
    block_index chain5 !! a = Some an /\ height an = 1.
Proof.
  assert (exists node, block_index chain5 !! [9] = Some node /\ height node = 2) as (node & E & Hh)
    by (eexists; split; [by vm_compute|done]).
  assert (Hb : 0 <= 1 <= height node) by lia.
  pose proof (ancestor_hash_correct (Ops:=toy_headers) chain5 [9] node 1 chain5_reachable E Hb) as H.
  by rewrite Hh in H.
Defined.

Lemma median_time_past_agrees_witness :
  median_time_past chain5 = median_time_past_for_parent chain5 [3] /\ median_time_past chain5 = Some 200.
Proof.
  split; [|by vm_compute].
  exact (proj1 (median_time_past_agrees (Ops:=toy_headers) chain5 [3] chain5_reachable eq_refl)).
Defined.

Lemma expected_target_total_witness :
  is_Some (expected_target_for_parent (Ops:=toy_headers) chain5 [3] 1000).
Proof.
  assert (exists node, block_index chain5 !! [3] = Some node /\ height node = 3) as (node & E & Hh)
    by (eexists; split; [by vm_compute|done]).
  assert (Hmax : height node < umax 32) by (rewrite Hh; unfold umax; lia).
  assert (Hint : 0 < difficulty_adjustment_interval (Ops:=toy_headers) (network chain5)) by (by vm_compute).
  exact (proj1 (expected_target_total (Ops:=toy_headers) chain5 [3] node 1000 chain5_reachable E Hmax Hint)).
Defined.

(** The heaviest branch is invalid and the next one is selected. *)
Lemma best_valid_tip_correct_witness :
  best_valid_tip_hash (Ops:=toy_headers) chain5 = Some [9] /\
  exists node, tip_candidate chain5 [9] node /\
    forall hash' node', tip_candidate chain5 hash' node' -> chain_work node' <= chain_work node.
Proof.
  assert (E : best_valid_tip_hash (Ops:=toy_headers) chain5 = Some [9]) by (by vm_compute).
  split; [done|].
  destruct (proj1 (best_valid_tip_correct (Ops:=toy_headers) chain5 chain5_reachable) [9] E) as (node & Hc & Hmax).
  exists node. split; [done|]. intros hash' node' H. exact (proj2 (Hmax hash' node' H)).
Defined.
