(* ===== verification/ConnectBlock.v ===== *)
(** * Connecting and disconnecting blocks ([src/chain.rs], [src/validation.rs])

    The contextual validation of the transactions of a block against the set
    of unspent outputs, the update of that set, the undo data and its use to
    take a block off again.  The set is a finite map from outpoints; the
    lookups of the different stores behind [UtxoLookup] are lookups in it.

    The checks of the reduced-data deployment are left out, so the model is
    that of a node where it is not active.  Shutdown requests are left out.
    Script checks run one after the other: the worker threads report the
    failure of the first failing transaction as well. *)

From Stdlib Require Import ZArith Lia.
From stdpp Require Import base list option gmap sets strings.
From S2P Require Import Prelude Types VersionBits ChainIndex BlockChecks UtxoCodec.
Local Open Scope Z_scope.

Definition COINBASE_MATURITY : Z := 100.
Definition MAX_UNSPENDABLE_SCRIPT_SIZE : Z := 10000.
Definition BIP34_IMPLIES_BIP30_LIMIT : Z := 1983702.

(** What [bitcoin] and [bitcoinconsensus] say of scripts. *)
Class ScriptOps := {
  is_op_return : bytes -> bool;
  is_p2sh : bytes -> bool;
  is_push_only : bytes -> bool;
  is_witness_program : bytes -> bool;
  is_p2wpkh : bytes -> bool;
  is_p2wsh : bytes -> bool;
  count_sigops : bytes -> Z;
  (** [script.instructions().last()]; an error is [Some None] *)
  last_instruction : bytes -> option (option Instruction);
  (** the first input whose script fails *)
  verify_transaction_scripts : Transaction -> list TxOut -> Z -> result Z ();
  (** flags, transaction *)
  script_cache_key : Z -> Transaction -> bytes;
}.

(** An error of the chain functions: a validation error or a [bail!]. *)
Inductive ConnectError := Invalid (e : ValidationError) | Bail.

Record CoinStatsBlockMetrics := {
  prevout_spent_sat : Z;
  new_outputs_ex_coinbase_sat : Z;
  coinbase_sat : Z;
  unspendable_scripts_sat : Z;
  unspendable_bip30_sat : Z;
  subsidy_sat : Z;
}.

Record BlockApplication := {
  spent_entries : list (OutPoint * StoredUtxo);
  spent_outpoints : gset OutPoint;
  created_entries : gmap OutPoint StoredUtxo;
  same_block_spent : gset OutPoint;
  metrics : CoinStatsBlockMetrics;
}.

Section Connect.
Context {Ops : BitcoinOps} {HOps : HeaderOps} {SOps : ScriptOps}.

(** ** Signature operations *)

Definition last_push_bytes (script : bytes) : option bytes :=
  match last_instruction script with
  | Some (Some (PushBytes data)) => Some data
  | _ => None
  end.

Definition transaction_input_sigop_cost (input : TxIn) (previous_output : TxOut) (flags : Z) : Z :=
  let script_pubkey := script_pubkey previous_output in
  let cost :=
    if negb (Z.land flags VERIFY_P2SH =? 0) && is_p2sh script_pubkey && is_push_only (script_sig input) then
      match last_push_bytes (script_sig input) with
      | Some redeem_script => sat_add 64 0 (sat_mul 64 (count_sigops redeem_script) 4)
      | None => 0
      end
    else 0 in
  if Z.land flags VERIFY_WITNESS =? 0 then cost
  else
    let witness_program :=
      if is_witness_program script_pubkey then Some script_pubkey
      else if is_p2sh script_pubkey && is_push_only (script_sig input) then last_push_bytes (script_sig input)
      else None in
    match witness_program with
    | None => cost
    | Some witness_program =>
        if is_p2wpkh witness_program then sat_add 64 cost 1
        else if is_p2wsh witness_program then
          match list.last (witness input) with
          | Some witness_script => sat_add 64 cost (count_sigops witness_script)
          | None => cost
          end
        else cost
    end.

Fixpoint input_costs (l : list (TxIn * TxOut)) (flags cost : Z) : Z :=
  match l with
  | [] => cost
  | (input, previous_output) :: l =>
      input_costs l flags (sat_add 64 cost (transaction_input_sigop_cost input previous_output flags))
  end.

Definition transaction_sigop_cost (t : Transaction) (previous_outputs : list TxOut) (flags : Z) : Z :=
  let cost := legacy_sigop_cost_for_transaction t in
  if is_coinbase t || negb (zlen previous_outputs =? zlen (tx_input t)) then cost
  else input_costs (zip (tx_input t) previous_outputs) flags cost.

(** ** BIP30 *)

Definition is_bip30_repeat (n : Network) (height : Z) (hash : bytes) : bool :=
  if negb (bool_decide (n = Bitcoin)) then false
  else
    let hash := hash_to_string hash in
    ((height =? 91842) &&
     String.eqb hash "00000000000a4d0a398161ffc163c503763b1f4360639393e0e4c8e300e0caec"%string) ||
    ((height =? 91880) &&
     String.eqb hash "00000000000743f190a18c5577a3c2d2a1f610ae9601ac046a38084ccb7cd721"%string).

Definition is_bip30_unspendable (n : Network) (height : Z) (hash : bytes) : bool :=
  if negb (bool_decide (n = Bitcoin)) then false
  else
    let hash := hash_to_string hash in
    ((height =? 91722) &&
     String.eqb hash "00000000000271a2dc26e7667f8419f2e15416dc6955e5a6c6cdf3f2574dd08e"%string) ||
    ((height =? 91812) &&
     String.eqb hash "00000000000af0aed4792b1acee3d966af36cf5def14935db8de83d6f9306f2f"%string).

Definition bip34_activation_hash (n : Network) : option String.string :=
  match n with
  | Bitcoin => Some "000000000000024b89b42a942fe0d9fea3bb44ab7bd1b19115dd6a759c0808b8"%string
  | Testnet => Some "0000000023b3a96d3484e5abb3755c413e7d41500f8e2a5c3f0dd01299cd8ef8"%string
  | _ => None
  end.

Definition enforce_bip30 (c : ChainState) (params : DeploymentParameters) (height : Z)
    (block_hash parent_hash : bytes) : bool :=
  if BIP34_IMPLIES_BIP30_LIMIT <=? height then true
  else if is_bip30_repeat (ChainIndex.network c) height block_hash then false
  else
    match bip34_activation_hash (ChainIndex.network c) with
    | None => true
    | Some expected =>
        let bip34_height := bip34 (buried params) in
        let parent_is_active :=
          match block_index c !! parent_hash with
          | Some node => active_at c (ChainIndex.height node) parent_hash
          | None => false
          end in
        if parent_is_active &&
           match active_chain c !! Z.to_nat bip34_height with
           | Some hash => String.eqb (hash_to_string hash) expected
           | None => false
           end then false
        else
          match ancestor_hash c parent_hash bip34_height with
          | Some hash => negb (String.eqb (hash_to_string hash) expected)
          | None => true
          end
    end.

(** ** The outputs of a transaction *)

Definition is_unspendable_script (script : bytes) : bool :=
  is_op_return script || (MAX_UNSPENDABLE_SCRIPT_SIZE <? zlen script).

(** [OutPoint::new(txid, index as u32)] *)
Definition outpoint_at (id : bytes) (index : nat) : OutPoint :=
  {| txid := id; vout := Z.of_nat index `mod` 2 ^ 32 |}.

Definition new_entry (o : TxOut) (h mtp : Z) (cb : bool) : StoredUtxo :=
  {| output := o; height := h; median_time_past := mtp; coinbase := cb |}.

(** ** Transactions of a block *)

(** What is fixed while a block is validated. *)
Record BlockContext := {
  bc_height : Z;
  bc_median_time_past : Z;
  bc_csv_active : bool;
  bc_lock_time_cutoff : Z;
  bc_flags : Z;
  bc_skip_script_checks : bool;
  bc_retain_spent_entries : bool;
}.

(** The variables of the loop over the transactions. *)
Record Progress := {
  pg_spent_entries : list (OutPoint * StoredUtxo);
  pg_spent : gset OutPoint;
  pg_created : gmap OutPoint StoredUtxo;
  pg_same_block : gset OutPoint;
  pg_fees : Z;
  pg_sigop_cost : Z;
  pg_prevout_sat : Z;
  pg_new_outputs_sat : Z;
  pg_unspendable_sat : Z;
  pg_jobs : list (Transaction * list TxOut);
}.

(** The variables of one transaction. *)
Record TxProgress := {
  tp_spent : gset OutPoint;
  tp_input_total : Z;
  tp_previous_outputs : list TxOut;
  tp_sigop_cost : Z;
}.

Definition process_entry (b : BlockContext) (t : Transaction) (input : TxIn) (entry : StoredUtxo)
    (pg : Progress) (tp : TxProgress) : result ValidationError (Progress * TxProgress) :=
  let outpoint := previous_output input in
  check? negb (coinbase entry && (bc_height b <? sat_add 32 (height entry) COINBASE_MATURITY))
    else ImmatureCoinbase outpoint in
  let? _ := validate_transaction_sequence_lock_input input (tx_version t) (bc_height b) (bc_lock_time_cutoff b)
              (bc_csv_active b) (height entry) (median_time_past entry) in
  let? input_total := ok_or (checked_add 64 (tp_input_total tp) (value (output entry))) InputTotalOverflow in
  check? input_total <=? MAX_MONEY else InputTotalOverflow in
  Ok ({| pg_spent_entries :=
           if bc_retain_spent_entries b then pg_spent_entries pg ++ [(outpoint, entry)] else pg_spent_entries pg;
         pg_spent := pg_spent pg; pg_created := pg_created pg; pg_same_block := pg_same_block pg;
         pg_fees := pg_fees pg; pg_sigop_cost := pg_sigop_cost pg;
         pg_prevout_sat := sat_add 64 (pg_prevout_sat pg) (value (output entry));
         pg_new_outputs_sat := pg_new_outputs_sat pg; pg_unspendable_sat := pg_unspendable_sat pg;
         pg_jobs := pg_jobs pg |},
      {| tp_spent := tp_spent tp; tp_input_total := input_total;
         tp_previous_outputs :=
           if bc_skip_script_checks b then tp_previous_outputs tp else tp_previous_outputs tp ++ [output entry];
         tp_sigop_cost :=
           if bc_skip_script_checks b
           then sat_add 64 (tp_sigop_cost tp) (transaction_input_sigop_cost input (output entry) (bc_flags b))
           else tp_sigop_cost tp |}).

(** The sets after [spent.insert(outpoint)] and, if
    [from_created], after the coin was taken from [created]. *)
Definition mark_spent (outpoint : OutPoint) (from_created : bool) (pg : Progress) : Progress :=
  {| pg_spent_entries := pg_spent_entries pg; pg_spent := {[outpoint]} ∪ pg_spent pg;
     pg_created := if from_created then delete outpoint (pg_created pg) else pg_created pg;
     pg_same_block := if from_created then {[outpoint]} ∪ pg_same_block pg else pg_same_block pg;
     pg_fees := pg_fees pg; pg_sigop_cost := pg_sigop_cost pg; pg_prevout_sat := pg_prevout_sat pg;
     pg_new_outputs_sat := pg_new_outputs_sat pg; pg_unspendable_sat := pg_unspendable_sat pg;
     pg_jobs := pg_jobs pg |}.

Definition mark_tx_spent (outpoint : OutPoint) (tp : TxProgress) : TxProgress :=
  {| tp_spent := {[outpoint]} ∪ tp_spent tp; tp_input_total := tp_input_total tp;
     tp_previous_outputs := tp_previous_outputs tp; tp_sigop_cost := tp_sigop_cost tp |}.

Definition process_input (b : BlockContext) (utxos : gmap OutPoint StoredUtxo) (t : Transaction) (id : bytes)
    (input : TxIn) (pg : Progress) (tp : TxProgress) : result ValidationError (Progress * TxProgress) :=
  let outpoint := previous_output input in
  check? negb (bool_decide (outpoint ∈ tp_spent tp)) else DuplicateInput id in
  check? negb (bool_decide (outpoint ∈ pg_spent pg)) else MissingInput outpoint in
  match pg_created pg !! outpoint with
  | Some entry => process_entry b t input entry (mark_spent outpoint true pg) (mark_tx_spent outpoint tp)
  | None =>
      let? entry := ok_or (utxos !! outpoint) (MissingInput outpoint) in
      process_entry b t input entry (mark_spent outpoint false pg) (mark_tx_spent outpoint tp)
  end.

Fixpoint process_inputs (b : BlockContext) (utxos : gmap OutPoint StoredUtxo) (t : Transaction) (id : bytes)
    (inputs : list TxIn) (pg : Progress) (tp : TxProgress) : result ValidationError (Progress * TxProgress) :=
  match inputs with
  | [] => Ok (pg, tp)
  | input :: inputs =>
      let? '(pg, tp) := process_input b utxos t id input pg tp in
      process_inputs b utxos t id inputs pg tp
  end.

Fixpoint create_outputs (b : BlockContext) (id : bytes) (outputs : list TxOut) (index : nat) (pg : Progress)
  : Progress :=
  match outputs with
  | [] => pg
  | o :: outputs =>
      let unspendable := is_unspendable_script (script_pubkey o) in
      create_outputs b id outputs (S index)
        {| pg_spent_entries := pg_spent_entries pg; pg_spent := pg_spent pg;
           pg_created :=
             if unspendable then pg_created pg
             else <[outpoint_at id index := new_entry o (bc_height b) (bc_median_time_past b) false]> (pg_created pg);
           pg_same_block := pg_same_block pg; pg_fees := pg_fees pg; pg_sigop_cost := pg_sigop_cost pg;
           pg_prevout_sat := pg_prevout_sat pg;
           pg_new_outputs_sat :=
             if unspendable then pg_new_outputs_sat pg else sat_add 64 (pg_new_outputs_sat pg) (value o);
           pg_unspendable_sat :=
             if unspendable then sat_add 64 (pg_unspendable_sat pg) (value o) else pg_unspendable_sat pg;
           pg_jobs := pg_jobs pg |}
  end.

Definition set_totals (fees sigop_cost : Z) (jobs : list (Transaction * list TxOut)) (pg : Progress) : Progress :=
  {| pg_spent_entries := pg_spent_entries pg; pg_spent := pg_spent pg; pg_created := pg_created pg;
     pg_same_block := pg_same_block pg; pg_fees := fees; pg_sigop_cost := sigop_cost;
     pg_prevout_sat := pg_prevout_sat pg; pg_new_outputs_sat := pg_new_outputs_sat pg;
     pg_unspendable_sat := pg_unspendable_sat pg; pg_jobs := jobs |}.

Definition process_transaction (b : BlockContext) (utxos : gmap OutPoint StoredUtxo) (t : Transaction) (id : bytes)
    (pg : Progress) : result ValidationError Progress :=
  let tp := {| tp_spent := ∅; tp_input_total := 0; tp_previous_outputs := [];
               tp_sigop_cost := transaction_sigop_cost t [] (bc_flags b) |} in
  let? _ := validate_transaction_absolute_finality t (bc_height b) (bc_lock_time_cutoff b) in
  let? '(pg, tp) := process_inputs b utxos t id (tx_input t) pg tp in
  let tx_sigop_cost :=
    if bc_skip_script_checks b then tp_sigop_cost tp
    else transaction_sigop_cost t (tp_previous_outputs tp) (bc_flags b) in
  let sigop_cost := sat_add 64 (pg_sigop_cost pg) tx_sigop_cost in
  check? sigop_cost <=? MAX_BLOCK_SIGOP_COST else TooManySigopsInConnect in
  let jobs := if bc_skip_script_checks b then pg_jobs pg else pg_jobs pg ++ [(t, tp_previous_outputs tp)] in
  let? output_total := ok_or (coinbase_output_total (tx_output t) 0) OutputTotalOverflow in
  check? output_total <=? tp_input_total tp else NegativeFee id in
  let? fees := ok_or (checked_add 64 (pg_fees pg) (tp_input_total tp - output_total)) AccumulatedFeeOverflow in
  check? fees <=? MAX_MONEY else AccumulatedFeeOverflow in
  Ok (create_outputs b id (tx_output t) 0 (set_totals fees sigop_cost jobs pg)).

Fixpoint process_transactions (b : BlockContext) (utxos : gmap OutPoint StoredUtxo)
    (l : list (Transaction * bytes)) (pg : Progress) : result ValidationError Progress :=
  match l with
  | [] => Ok pg
  | (t, id) :: l =>
      let? pg := process_transaction b utxos t id pg in
      process_transactions b utxos l pg
  end.

(** ** Script checks *)

Definition validate_transaction_scripts_inner (t : Transaction) (previous_outputs : list TxOut) (flags : Z)
  : result ValidationError () :=
  check? zlen previous_outputs =? zlen (tx_input t) else ScriptError (compute_txid t) 0 in
  map_err (ScriptError (compute_txid t)) (verify_transaction_scripts t previous_outputs flags).

(** The jobs that the cache of verified transactions does not cover, in order. *)
Fixpoint validate_script_checks (cache : gset bytes) (flags : Z) (jobs : list (Transaction * list TxOut))
  : result ValidationError () :=
  match jobs with
  | [] => Ok tt
  | (t, previous_outputs) :: jobs =>
      if bool_decide (script_cache_key flags t ∈ cache) then validate_script_checks cache flags jobs
      else
        let? _ := validate_transaction_scripts_inner t previous_outputs flags in
        validate_script_checks cache flags jobs
  end.

(** ** Blocks *)

(** The first transaction with an output that is already in the set. *)
Fixpoint bip30_conflict (utxos : gmap OutPoint StoredUtxo) (l : list (Transaction * bytes)) : option bytes :=
  match l with
  | [] => None
  | (t, id) :: l =>
      if existsb (fun i => bool_decide (is_Some (utxos !! outpoint_at id i))) (seq 0 (length (tx_output t)))
      then Some id else bip30_conflict utxos l
  end.

(** The metrics of the coinbase outputs: (coinbase, unspendable). *)
Fixpoint coinbase_metrics (outputs : list TxOut) (coinbase_sat unspendable_sat : Z) : Z * Z :=
  match outputs with
  | [] => (coinbase_sat, unspendable_sat)
  | o :: outputs =>
      if is_unspendable_script (script_pubkey o)
      then coinbase_metrics outputs coinbase_sat (sat_add 64 unspendable_sat (value o))
      else coinbase_metrics outputs (sat_add 64 coinbase_sat (value o)) unspendable_sat
  end.

Definition block_context (params : DeploymentParameters) (block : Block) (h mtp : Z) (skip_script_checks retain : bool)
  : BlockContext :=
  let csv_active := csv (buried params) <=? h in
  {| bc_height := h; bc_median_time_past := mtp; bc_csv_active := csv_active;
     bc_lock_time_cutoff := if csv_active then mtp else hd_time (blk_header block);
     bc_flags := script_flags_for_block_with_params params h (Some (block_hash block));
     bc_skip_script_checks := skip_script_checks; bc_retain_spent_entries := retain |}.

Definition start_progress (sigop_cost : Z) : Progress :=
  {| pg_spent_entries := []; pg_spent := ∅; pg_created := ∅; pg_same_block := ∅; pg_fees := 0;
     pg_sigop_cost := sigop_cost; pg_prevout_sat := 0; pg_new_outputs_sat := 0; pg_unspendable_sat := 0;
     pg_jobs := [] |}.

(** The sum of the subsidy and the fees, both bounded, fits 64 bits. *)
Definition finish_block (n : Network) (block : Block) (coinbase_tx : Transaction) (h : Z) (pg : Progress)
  : result ValidationError BlockApplication :=
  let subsidy := block_subsidy_for_network n h in
  let allowed_coinbase := subsidy + pg_fees pg in
  let? actual_coinbase := ok_or (coinbase_output_total (tx_output coinbase_tx) 0) OutputTotalOverflow in
  check? actual_coinbase <=? allowed_coinbase else CoinbaseOverpay actual_coinbase allowed_coinbase in
  let bip30 := is_bip30_unspendable n h (block_hash block) in
  let '(coinbase_total, unspendable_total) :=
    if bip30 then (0, pg_unspendable_sat pg)
    else coinbase_metrics (tx_output coinbase_tx) 0 (pg_unspendable_sat pg) in
  Ok {| spent_entries := pg_spent_entries pg; spent_outpoints := pg_spent pg; created_entries := pg_created pg;
        same_block_spent := pg_same_block pg;
        metrics := {| prevout_spent_sat := pg_prevout_sat pg; new_outputs_ex_coinbase_sat := pg_new_outputs_sat pg;
                      coinbase_sat := coinbase_total; unspendable_scripts_sat := unspendable_total;
                      unspendable_bip30_sat := if bip30 then subsidy else 0; subsidy_sat := subsidy |} |}.

(** [block.txdata[0]] of an empty block panics; it is a [Bail] here. *)
Definition validate_block_transactions (c : ChainState) (params : DeploymentParameters) (cache : gset bytes)
    (block : Block) (transaction_ids : list bytes) (h : Z) (utxos : gmap OutPoint StoredUtxo) (mtp : Z)
    (skip_script_checks retain_spent_entries : bool) : result ConnectError BlockApplication :=
  check? zlen transaction_ids =? zlen (txdata block) else Bail in
  let pairs := zip (txdata block) transaction_ids in
  let? _ := (if enforce_bip30 c params h (block_hash block) (prev_blockhash (blk_header block)) then
               match bip30_conflict utxos pairs with Some id => Err (Invalid (Bip30 id)) | None => Ok tt end
             else Ok tt) in
  match txdata block with
  | [] => Err Bail
  | coinbase_tx :: _ =>
      let b := block_context params block h mtp skip_script_checks retain_spent_entries in
      map_err Invalid
        (let? _ := validate_transaction_absolute_finality coinbase_tx h (bc_lock_time_cutoff b) in
         let sigop_cost := transaction_sigop_cost coinbase_tx [] (bc_flags b) in
         check? sigop_cost <=? MAX_BLOCK_SIGOP_COST else TooManySigopsInConnect in
         let? pg := process_transactions b utxos (tail pairs) (start_progress sigop_cost) in
         let? _ := (if skip_script_checks then Ok tt else validate_script_checks cache (bc_flags b) (pg_jobs pg)) in
         finish_block (ChainIndex.network c) block coinbase_tx h pg)
  end.

(** ** Applying a block *)

Definition remove_all (l : list OutPoint) (utxos : gmap OutPoint StoredUtxo) : gmap OutPoint StoredUtxo :=
  foldl (fun u o => delete o u) utxos l.

Fixpoint apply_outputs (id : bytes) (outputs : list TxOut) (index : nat) (h mtp : Z) (cb : bool)
    (spent : gset OutPoint) (utxos : gmap OutPoint StoredUtxo) : gmap OutPoint StoredUtxo :=
  match outputs with
  | [] => utxos
  | o :: outputs =>
      let outpoint := outpoint_at id index in
      apply_outputs id outputs (S index) h mtp cb spent
        (if negb (bool_decide (outpoint ∈ spent)) && negb (is_unspendable_script (script_pubkey o))
         then <[outpoint := new_entry o h mtp cb]> utxos else utxos)
  end.

Fixpoint apply_transactions (txs : list Transaction) (index : nat) (h mtp : Z) (spent : gset OutPoint)
    (utxos : gmap OutPoint StoredUtxo) : gmap OutPoint StoredUtxo :=
  match txs with
  | [] => utxos
  | t :: txs =>
      apply_transactions txs (S index) h mtp spent
        (apply_outputs (compute_txid t) (tx_output t) 0 h mtp (bool_decide (index = 0%nat)) spent utxos)
  end.

Definition apply_block_to_utxos (utxos : gmap OutPoint StoredUtxo) (block : Block) (h mtp : Z)
    (entries : list (OutPoint * StoredUtxo)) : gmap OutPoint StoredUtxo :=
  let spent := list_to_set entries.*1 in
  apply_transactions (txdata block) 0 h mtp spent (remove_all entries.*1 utxos).

(** ** Undo data *)

Record StoredUndo := {
  undo_output : TxOut;
  undo_height : Z;
  undo_median_time_past : Z;
  undo_coinbase : bool;
}.

Definition undo_of (entry : StoredUtxo) : StoredUndo :=
  {| undo_output := output entry; undo_height := height entry;
     undo_median_time_past := median_time_past entry; undo_coinbase := coinbase entry |}.

Definition coin_of (undo : StoredUndo) : StoredUtxo :=
  {| output := undo_output undo; height := undo_height undo;
     median_time_past := undo_median_time_past undo; coinbase := undo_coinbase undo |}.

(** The entries of the spent outputs, one list per transaction. *)
Fixpoint group_undo (txs : list Transaction) (entries : list (OutPoint * StoredUtxo)) (offset : nat)
    (undo : list (list StoredUndo)) : result ConnectError (list (list StoredUndo)) :=
  match txs with
  | [] => check? bool_decide (offset = length entries) else Bail in Ok undo
  | t :: txs =>
      let stop := (offset + length (tx_input t))%nat in
      check? bool_decide (stop <= length entries)%nat else Bail in
      let group := take (length (tx_input t)) (drop offset entries) in
      group_undo txs entries stop (undo ++ [map (fun p => undo_of p.2) group])
  end.

(** What [cache_block_undo] stores. *)
Definition cache_block_undo (block : Block) (entries : list (OutPoint * StoredUtxo))
  : result ConnectError (list (list StoredUndo)) :=
  group_undo (tail (txdata block)) entries 0 [[]].

Definition validate_block_undo (block : Block) (undo : list (list StoredUndo)) : result ConnectError () :=
  check? bool_decide (length undo = length (txdata block)) else Bail in
  check? match undo with [] :: _ => true | _ => false end else Bail in
  check? forallb (fun '(t, spent_outputs) =>
                    bool_decide (length spent_outputs = length (tx_input t)) &&
                    negb (existsb (fun coin => MAX_MONEY <? value (undo_output coin)) spent_outputs))
           (zip (tail (txdata block)) (tail undo)) else Bail in
  Ok tt.

Definition transaction_outpoints (t : Transaction) : list OutPoint :=
  map (outpoint_at (compute_txid t)) (seq 0 (length (tx_output t))).

Definition restore_inputs (l : list (TxIn * StoredUndo)) (utxos : gmap OutPoint StoredUtxo) : gmap OutPoint StoredUtxo :=
  foldl (fun u p => <[previous_output p.1 := coin_of p.2]> u) utxos l.

(** The transactions come with their position, last first. *)
Fixpoint disconnect_loop (l : list (nat * Transaction)) (undo : list (list StoredUndo))
    (utxos : gmap OutPoint StoredUtxo) : result ConnectError (gmap OutPoint StoredUtxo) :=
  match l with
  | [] => Ok utxos
  | (index, t) :: l =>
      let utxos := remove_all (transaction_outpoints t) utxos in
      if bool_decide (index = 0%nat) then disconnect_loop l undo utxos
      else
        let? spent_outputs := ok_or (undo !! index) Bail in
        check? bool_decide (length spent_outputs = length (tx_input t)) else Bail in
        disconnect_loop l undo (restore_inputs (rev (zip (tx_input t) spent_outputs)) utxos)
  end.

Definition disconnect_block_from_utxos (utxos : gmap OutPoint StoredUtxo) (block : Block)
    (undo : list (list StoredUndo)) : result ConnectError (gmap OutPoint StoredUtxo) :=
  let? _ := validate_block_undo block undo in
  disconnect_loop (rev (zip (seq 0 (length (txdata block))) (txdata block))) undo utxos.

(** The stricter variant that verifies what it undoes. *)
Fixpoint remove_created (id : bytes) (outputs : list TxOut) (index : nat) (utxos : gmap OutPoint StoredUtxo)
  : result ConnectError (gmap OutPoint StoredUtxo) :=
  match outputs with
  | [] => Ok utxos
  | o :: outputs =>
      if is_unspendable_script (script_pubkey o) then remove_created id outputs (S index) utxos
      else
        check? bool_decide (is_Some (utxos !! outpoint_at id index)) else Bail in
        remove_created id outputs (S index) (delete (outpoint_at id index) utxos)
  end.

Fixpoint restore_spent (l : list (TxIn * StoredUndo)) (utxos : gmap OutPoint StoredUtxo)
  : result ConnectError (gmap OutPoint StoredUtxo) :=
  match l with
  | [] => Ok utxos
  | (input, coin) :: l =>
      check? negb (bool_decide (is_Some (utxos !! previous_output input))) else Bail in
      restore_spent l (<[previous_output input := coin_of coin]> utxos)
  end.

(** [undo[index]] is within bounds after [validate_block_undo]. *)
Fixpoint verify_disconnect_loop (l : list (nat * Transaction)) (undo : list (list StoredUndo))
    (utxos : gmap OutPoint StoredUtxo) : result ConnectError (gmap OutPoint StoredUtxo) :=
  match l with
  | [] => Ok utxos
  | (index, t) :: l =>
      let? utxos := remove_created (compute_txid t) (tx_output t) 0 utxos in
      if bool_decide (index = 0%nat) then verify_disconnect_loop l undo utxos
      else
        let? utxos := restore_spent (zip (tx_input t) (default [] (undo !! index))) utxos in
        verify_disconnect_loop l undo utxos
  end.

Definition disconnect_block_for_verification (n : Network) (utxos : gmap OutPoint StoredUtxo) (block : Block) (h : Z)
    (undo : list (list StoredUndo)) : result ConnectError (gmap OutPoint StoredUtxo) :=
  let? _ := validate_block_undo block undo in
  if is_bip30_repeat n h (block_hash block) then disconnect_block_from_utxos utxos block undo
  else verify_disconnect_loop (rev (zip (seq 0 (length (txdata block))) (txdata block))) undo utxos.
End Connect.
