(* ===== verification/Ledger.v ===== *)
(** * The ledger that block connection implements

    A specification of what a block does to the set of unspent outputs, one
    transaction after the other, and the proofs that the node's batch update
    ([ConnectBlock]) computes it, that the undo data takes it back, and that
    it creates no more money than the subsidy. *)

From Stdlib Require Import ZArith Lia.
From stdpp Require Import base list option gmap sets strings.
From S2P Require Import Prelude Types VersionBits ChainIndex BlockChecks UtxoCodec ConnectBlock.
Local Open Scope Z_scope.
Local Set Warnings "-clear-no-such-hyp".

Section Ledger.
Context {Ops : BitcoinOps} {HOps : HeaderOps} {SOps : ScriptOps}.

(** ** Specification *)

(** The spendable outputs of a transaction, as coins. *)
Fixpoint coins (id : bytes) (outputs : list TxOut) (index : nat) (h mtp : Z) (cb : bool)
  : list (OutPoint * StoredUtxo) :=
  match outputs with
  | [] => []
  | o :: outputs =>
      if is_unspendable_script (script_pubkey o) then coins id outputs (S index) h mtp cb
      else (outpoint_at id index, new_entry o h mtp cb) :: coins id outputs (S index) h mtp cb
  end.

Definition tx_coins (h mtp : Z) (cb : bool) (t : Transaction) : list (OutPoint * StoredUtxo) :=
  coins (compute_txid t) (tx_output t) 0 h mtp cb.

Definition add_coins (l : list (OutPoint * StoredUtxo)) (u : gmap OutPoint StoredUtxo) : gmap OutPoint StoredUtxo :=
  foldl (fun u p => <[p.1 := p.2]> u) u l.

(** Every outpoint must be unspent when its turn comes. *)
Fixpoint spend (ops : list OutPoint) (u : gmap OutPoint StoredUtxo)
  : option (list StoredUtxo * gmap OutPoint StoredUtxo) :=
  match ops with
  | [] => Some ([], u)
  | o :: ops =>
      e ← u !! o;
      '(es, u) ← spend ops (delete o u);
      Some (e :: es, u)
  end.

Definition tx_inputs (t : Transaction) : list OutPoint := map previous_output (tx_input t).

Definition ledger_tx (h mtp : Z) (t : Transaction) (u : gmap OutPoint StoredUtxo)
  : option (list StoredUtxo * gmap OutPoint StoredUtxo) :=
  '(es, u) ← spend (tx_inputs t) u;
  Some (es, add_coins (tx_coins h mtp false t) u).

Fixpoint ledger_txs (h mtp : Z) (txs : list Transaction) (u : gmap OutPoint StoredUtxo)
  : option (list (list StoredUtxo) * gmap OutPoint StoredUtxo) :=
  match txs with
  | [] => Some ([], u)
  | t :: txs =>
      '(es, u) ← ledger_tx h mtp t u;
      '(ess, u) ← ledger_txs h mtp txs u;
      Some (es :: ess, u)
  end.

(** The coinbase transaction only creates coins.  The result is the coins
    each further transaction spent, and the new set. *)
Definition ledger_block (h mtp : Z) (block : Block) (u : gmap OutPoint StoredUtxo)
  : option (list (list StoredUtxo) * gmap OutPoint StoredUtxo) :=
  match txdata block with
  | [] => None
  | cb :: txs => ledger_txs h mtp txs (add_coins (tx_coins h mtp true cb) u)
  end.

(** ** Coins *)

Abbreviation coin_map l := (list_to_map l : gmap OutPoint StoredUtxo).

Lemma coins_spec id outputs index h mtp cb o e :
  (o, e) ∈ coins id outputs index h mtp cb ->
  exists i out, o = outpoint_at id i /\ outputs !! (i - index)%nat = Some out /\
    (index <= i < index + length outputs)%nat /\ e = new_entry out h mtp cb.
Proof.
  revert index. induction outputs as [|out outputs IH]; intros index; simpl; [by intros ?%not_elem_of_nil|].
  assert (Hrest : (o, e) ∈ coins id outputs (S index) h mtp cb ->
    exists i out0, o = outpoint_at id i /\ (out :: outputs) !! (i - index)%nat = Some out0 /\
      (index <= i < index + S (length outputs))%nat /\ e = new_entry out0 h mtp cb).
  { intros (i & out0 & -> & Hl & Hi & ->)%IH. exists i, out0. split; [done|]. split; [|split; [lia|done]].
    replace (i - index)%nat with (S (i - S index)) by lia. done. }
  destruct (is_unspendable_script _); [done|]. intros [[= -> ->]|?]%elem_of_cons; [|by apply Hrest].
  exists index, out. rewrite Nat.sub_diag. split; [done|]. split; [done|]. split; [lia|done].
Qed.

Lemma outpoint_at_inj id i j :
  outpoint_at id i = outpoint_at id j -> Z.of_nat i < 2 ^ 32 -> Z.of_nat j < 2 ^ 32 -> i = j.
Proof. intros [= H] Hi Hj. rewrite !Z.mod_small in H by lia. lia. Qed.

Lemma coins_NoDup id outputs index h mtp cb :
  Z.of_nat (index + length outputs) <= 2 ^ 32 -> NoDup (coins id outputs index h mtp cb).*1.
Proof.
  revert index. induction outputs as [|out outputs IH]; intros index Hlen; simpl in *; [constructor|].
  destruct (is_unspendable_script _); [apply IH; lia|]. simpl. apply NoDup_cons. split; [|apply IH; lia].
  intros ([o e] & Ho & (i & out' & -> & _ & Hi & _)%coins_spec)%list_elem_of_fmap. simpl in Ho.
  apply outpoint_at_inj in Ho; lia.
Qed.

Lemma tx_coins_key h mtp cb t o :
  o ∈ (tx_coins h mtp cb t).*1 -> o ∈ transaction_outpoints t.
Proof.
  intros ([o' e] & -> & (i & out & -> & _ & Hi & _)%coins_spec)%list_elem_of_fmap. simpl.
  unfold transaction_outpoints. apply list_elem_of_fmap. exists i. split; [done|]. apply elem_of_seq. lia.
Qed.

Lemma outpoints_txid t o : o ∈ transaction_outpoints t -> txid o = compute_txid t.
Proof. by intros (i & -> & _)%list_elem_of_fmap. Qed.

Lemma tx_coins_txid h mtp cb t o : o ∈ (tx_coins h mtp cb t).*1 -> txid o = compute_txid t.
Proof. intros H%tx_coins_key. by apply outpoints_txid. Qed.

Lemma add_coins_union l u : NoDup l.*1 -> add_coins l u = coin_map l ∪ u.
Proof.
  revert u. induction l as [|[o e] l IH]; intros u Hnd; simpl.
  { symmetry. apply (left_id_L ∅ (∪)). }
  apply NoDup_cons in Hnd as [Hnot Hnd]. rewrite IH by done.
  rewrite <- insert_union_r, insert_union_l by (by apply not_elem_of_list_to_map_1). done.
Qed.

Lemma coin_map_Some l o : is_Some (coin_map l !! o) <-> o ∈ l.*1.
Proof.
  split.
  - intros [e He]. apply elem_of_list_to_map_2 in He. apply list_elem_of_fmap. by exists (o, e).
  - intros Hin. destruct (coin_map l !! o) eqn:E; [by eexists|]. by apply not_elem_of_list_to_map in E.
Qed.

Lemma remove_all_lookup l u o : remove_all l u !! o = if decide (o ∈ l) then None else u !! o.
Proof.
  revert u. induction l as [|x l IH]; intros u; [done|].
  change (remove_all (x :: l) u) with (remove_all l (delete x u)). rewrite IH. destruct (decide (o ∈ l)) as [Hin|Hin].
  - rewrite decide_True by (by right). done.
  - destruct (decide (o = x)) as [->|Hne].
    + rewrite decide_True by left. apply lookup_delete_eq.
    + rewrite decide_False by (rewrite not_elem_of_cons; done). by apply lookup_delete_ne.
Qed.

(** ** The loops over outputs *)

Lemma create_outputs_created b id outputs index pg :
  pg_created (create_outputs b id outputs index pg) =
  add_coins (coins id outputs index (bc_height b) (bc_median_time_past b) false) (pg_created pg).
Proof.
  revert index pg. induction outputs as [|o outputs IH]; intros index pg; simpl; [done|].
  rewrite IH. simpl. by destruct (is_unspendable_script _).
Qed.

Lemma create_outputs_same b id outputs index pg :
  let pg' := create_outputs b id outputs index pg in
  pg_spent_entries pg' = pg_spent_entries pg /\ pg_spent pg' = pg_spent pg /\ pg_fees pg' = pg_fees pg /\
  pg_same_block pg' = pg_same_block pg.
Proof.
  revert index pg. induction outputs as [|o outputs IH]; intros index pg; simpl; [done|].
  match goal with |- context [create_outputs b id outputs (S index) ?pg'] =>
    destruct (IH (S index) pg') as (-> & -> & -> & ->) end. done.
Qed.

(** The coins of all transactions of a block, the coinbase first. *)
Fixpoint all_coins (h mtp : Z) (txs : list Transaction) (index : nat) : list (OutPoint * StoredUtxo) :=
  match txs with
  | [] => []
  | t :: txs => tx_coins h mtp (bool_decide (index = 0%nat)) t ++ all_coins h mtp txs (S index)
  end.

Definition unspent (spent : gset OutPoint) (l : list (OutPoint * StoredUtxo)) : list (OutPoint * StoredUtxo) :=
  List.filter (fun p => negb (bool_decide (p.1 ∈ spent))) l.

Lemma apply_outputs_coins id outputs index h mtp cb spent u :
  apply_outputs id outputs index h mtp cb spent u = add_coins (unspent spent (coins id outputs index h mtp cb)) u.
Proof.
  revert index u. induction outputs as [|o outputs IH]; intros index u; [done|].
  cbn [apply_outputs coins]. rewrite IH. destruct (is_unspendable_script _); [by rewrite andb_false_r|].
  rewrite andb_true_r. unfold unspent. cbn [List.filter fst]. by destruct (negb _).
Qed.

Lemma apply_transactions_coins txs index h mtp spent u :
  apply_transactions txs index h mtp spent u = add_coins (unspent spent (all_coins h mtp txs index)) u.
Proof.
  revert index u. induction txs as [|t txs IH]; intros index u; [done|].
  cbn [apply_transactions all_coins]. rewrite IH, apply_outputs_coins.
  unfold unspent, add_coins. rewrite List.filter_app, foldl_app. done.
Qed.

Lemma unspent_lookup spent l o :
  NoDup l.*1 -> coin_map (unspent spent l) !! o = if decide (o ∈ spent) then None else coin_map l !! o.
Proof.
  induction l as [|[x e] l IH]; intros Hnd; [by destruct (decide _)|].
  apply NoDup_cons in Hnd as [Hnot Hnd]. specialize (IH Hnd). unfold unspent. cbn [List.filter fst].
  change (List.filter _ l) with (unspent spent l). destruct (decide (o = x)) as [->|Hne].
  - case_bool_decide; cbn [negb]; [rewrite IH, !decide_True by done; done|].
    rewrite decide_False by done. cbn [list_to_map foldr]. by rewrite !lookup_insert_eq.
  - cbn [list_to_map foldr]. rewrite lookup_insert_ne by done.
    case_bool_decide; cbn [negb]; [done|]. cbn [list_to_map foldr]. by rewrite lookup_insert_ne by done.
Qed.

Lemma unspent_NoDup spent l : NoDup l.*1 -> NoDup (unspent spent l).*1.
Proof.
  induction l as [|[x e] l IH]; [done|]. intros [Hnot Hnd]%NoDup_cons. unfold unspent. cbn [List.filter fst].
  change (List.filter _ l) with (unspent spent l). destruct (negb _); [|by apply IH].
  apply NoDup_cons. split; [|by apply IH]. intros ([y e'] & Heq & Hin)%list_elem_of_fmap. apply Hnot.
  unfold unspent in Hin. rewrite list_elem_of_In, filter_In, <- list_elem_of_In in Hin. destruct Hin as [Hin _].
  apply list_elem_of_fmap. by exists (y, e').
Qed.

(** ** What the loop over the transactions tracks *)

Section Tracks.
Context (u : gmap OutPoint StoredUtxo) (CB : list (OutPoint * StoredUtxo)).

(** [seq] is the ledger's set after the transactions so far, whose coins are
    [L]; the coinbase made [CB] from [u]. *)
Record tracks (pg : Progress) (seq : gmap OutPoint StoredUtxo) (L : list (OutPoint * StoredUtxo)) : Prop := {
  tr_seq : forall o, seq !! o = if decide (o ∈ pg_spent pg) then None else (coin_map L ∪ coin_map CB ∪ u) !! o;
  tr_created : forall o, pg_created pg !! o = if decide (o ∈ pg_spent pg) then None else coin_map L !! o;
  tr_spent : forall o, o ∈ pg_spent pg -> is_Some (u !! o) \/ o ∈ pg_same_block pg;
  tr_entries : pg_spent pg = list_to_set (pg_spent_entries pg).*1;
  tr_same : forall o, o ∈ pg_same_block pg -> o ∈ L.*1;
  tr_source : forall o e, (o, e) ∈ pg_spent_entries pg -> u !! o = Some e \/ (o, e) ∈ L;
  tr_distinct : NoDup (pg_spent_entries pg).*1;
}.

Hypothesis CB_fresh : forall o, o ∈ CB.*1 -> u !! o = None.

Lemma decide_added {A} (o o' : OutPoint) (S : gset OutPoint) (x y : A) :
  (if decide (o' ∈ {[o]} ∪ S) then x else y) = if decide (o' = o) then x else if decide (o' ∈ S) then x else y.
Proof.
  destruct (decide (o' = o)) as [->|Hne].
  - by rewrite decide_True by apply elem_of_union_l, elem_of_singleton_2, eq_refl.
  - apply decide_ext. rewrite elem_of_union, elem_of_singleton. tauto.
Qed.

(** The coin that an input takes is the ledger's coin. *)
Lemma tracks_spend pg seq L o :
  tracks pg seq L -> o ∉ pg_spent pg ->
  forall e from_created,
    (if from_created : bool then pg_created pg !! o = Some e else pg_created pg !! o = None /\ u !! o = Some e) ->
    seq !! o = Some e /\
    forall pg', pg_spent pg' = {[o]} ∪ pg_spent pg ->
                pg_created pg' = (if from_created then delete o (pg_created pg) else pg_created pg) ->
                pg_same_block pg' = (if from_created then {[o]} ∪ pg_same_block pg else pg_same_block pg) ->
                pg_spent_entries pg' = pg_spent_entries pg ++ [(o, e)] -> tracks pg' (delete o seq) L.
Proof.
  intros [Hseq Hcr Hsp Hent Hsm Hsrc Hdi] Ho e fc He. pose proof (Hcr o) as Hco. rewrite decide_False in Hco by done.
  assert (Hso : seq !! o = Some e /\ (if fc then (o, e) ∈ L else u !! o = Some e)).
  { rewrite Hseq, decide_False by done. destruct fc.
    - rewrite Hco in He. split; [by do 2 apply lookup_union_Some_l|]. by apply elem_of_list_to_map_2.
    - destruct He as [Hn He]. rewrite Hco in Hn. split; [|done].
      rewrite !lookup_union, Hn, He. destruct (coin_map CB !! o) eqn:Ecb; [|done].
      rewrite CB_fresh in He; [done|]. apply coin_map_Some. by eexists. }
  destruct Hso as [Hso Hin]. split; [done|]. intros pg' Hs Hc Hsb Hse. split.
  - intros o'. rewrite Hs, decide_added. destruct (decide (o' = o)) as [->|Hne].
    + apply lookup_delete_eq.
    + by rewrite lookup_delete_ne, Hseq by done.
  - intros o'. rewrite Hs, Hc, decide_added. destruct (decide (o' = o)) as [->|Hne].
    + destruct fc; [apply lookup_delete_eq|apply He].
    + rewrite <- Hcr. destruct fc; [by apply lookup_delete_ne|done].
  - intros o'. rewrite Hs, Hsb, elem_of_union, elem_of_singleton. intros [->|[H|H]%Hsp];
      [destruct fc; [right; set_solver|left; by eexists]|by left|right; destruct fc; set_solver].
  - rewrite Hs, Hse, Hent, fmap_app, list_to_set_app_L. simpl. by rewrite (right_id_L ∅ (∪)), (comm_L (∪)).
  - intros o'. rewrite Hsb. destruct fc; [|apply Hsm]. rewrite elem_of_union, elem_of_singleton.
    intros [->|H]; [apply list_elem_of_fmap; by exists (o, e)|by apply Hsm].
  - intros o' e'. rewrite Hse, elem_of_app, list_elem_of_singleton. intros [H|[= -> ->]]; [by apply Hsrc|].
    destruct fc; [by right|by left].
  - rewrite Hse, fmap_app. apply NoDup_app. split; [done|]. split; [|apply NoDup_singleton].
    intros o' Ho'. simpl. rewrite list_elem_of_singleton. intros ->. apply Ho. by rewrite Hent, elem_of_list_to_set.
Qed.

Definition entry_value (e : StoredUtxo) : Z := value (output e).

Lemma process_entry_Ok b t input e pg tp pg' tp' :
  process_entry b t input e pg tp = Ok (pg', tp') -> bc_retain_spent_entries b = true ->
  (pg_spent pg' = pg_spent pg /\ pg_created pg' = pg_created pg /\ pg_same_block pg' = pg_same_block pg) /\
  pg_fees pg' = pg_fees pg /\
  pg_spent_entries pg' = pg_spent_entries pg ++ [(previous_output input, e)] /\
  tp_input_total tp' = tp_input_total tp + entry_value e /\ tp_input_total tp' <= MAX_MONEY.
Proof.
  unfold process_entry. intros E Hr. destruct (negb _); [|done]. apply rbind_Ok in E as (_ & _ & E).
  apply rbind_Ok in E as (total & Ht%ok_or_Ok & E). destruct (total <=? MAX_MONEY) eqn:Em; [|done].
  apply Ok_inj in E. injection E as <- <-. simpl. rewrite Hr. unfold checked_add in Ht.
  destruct (_ <=? umax 64); [|done]. injection Ht as <-. unfold entry_value. repeat split. lia.
Qed.

Lemma process_input_ledger b t id input pg tp pg' tp' seq L :
  process_input b u t id input pg tp = Ok (pg', tp') -> bc_retain_spent_entries b = true -> tracks pg seq L ->
  exists e, seq !! previous_output input = Some e /\ tracks pg' (delete (previous_output input) seq) L /\
    pg_spent_entries pg' = pg_spent_entries pg ++ [(previous_output input, e)] /\ pg_fees pg' = pg_fees pg /\
    tp_input_total tp' = tp_input_total tp + entry_value e /\ tp_input_total tp' <= MAX_MONEY.
Proof.
  unfold process_input. intros E Hr Htr. destruct (negb _); [|done].
  destruct (bool_decide (_ ∈ pg_spent pg)) eqn:Es; [done|]. cbn [negb] in E. apply bool_decide_eq_false in Es.
  destruct (pg_created pg !! previous_output input) as [e|] eqn:Ec.
  - apply process_entry_Ok in E as ((H1 & H2 & H3) & H4 & H5 & H6 & H7); [|done].
    destruct (tracks_spend pg seq L _ Htr Es e true Ec) as [Hs Hnext]. exists e. split; [done|]. split; [by apply Hnext|].
    done.
  - apply rbind_Ok in E as (e & He%ok_or_Ok & E).
    apply process_entry_Ok in E as ((H1 & H2 & H3) & H4 & H5 & H6 & H7); [|done].
    destruct (tracks_spend pg seq L _ Htr Es e false (conj Ec He)) as [Hs Hnext]. exists e. split; [done|].
    split; [by apply Hnext|]. done.
Qed.

Lemma process_inputs_ledger b t id inputs pg tp pg' tp' seq L :
  process_inputs b u t id inputs pg tp = Ok (pg', tp') -> bc_retain_spent_entries b = true -> tracks pg seq L ->
  exists es seq', spend (map previous_output inputs) seq = Some (es, seq') /\ tracks pg' seq' L /\
    pg_spent_entries pg' = pg_spent_entries pg ++ zip (map previous_output inputs) es /\
    length es = length inputs /\ pg_fees pg' = pg_fees pg /\
    tp_input_total tp' = tp_input_total tp + sum (map entry_value es) /\
    (tp_input_total tp <= MAX_MONEY -> tp_input_total tp' <= MAX_MONEY).
Proof.
  revert pg tp seq. induction inputs as [|input inputs IH]; intros pg tp seq E Hr Htr; cbn [process_inputs] in E.
  - apply Ok_inj in E. injection E as <- <-. exists [], seq. unfold sum. simpl. rewrite app_nil_r. split_and!; (done || lia).
  - apply rbind_Ok in E as ([pg1 tp1] & E1 & E).
    destruct (process_input_ledger _ _ _ _ _ _ _ _ _ _ E1 Hr Htr) as (e & Hs & Htr1 & He1 & Hf1 & Ht1 & Hm1).
    destruct (IH _ _ _ E Hr Htr1) as (es & seq' & Hsp & Htr' & He & Hlen & Hf & Ht & Hm).
    exists (e :: es), seq'. cbn [map spend zip_with length sum foldr]. rewrite Hs. cbn [mbind option_bind].
    rewrite Hsp. cbn [mbind option_bind]. split; [done|]. split; [done|].
    split; [by rewrite He, He1, <- app_assoc|]. split; [by rewrite Hlen|]. split; [by rewrite Hf|].
    unfold sum in *. split; [lia|]. intros _. by apply Hm.
Qed.

(** New coins that no earlier transaction spent or made. *)
Lemma tracks_create pg pg' seq L l :
  tracks pg seq L -> NoDup l.*1 -> (forall o, o ∈ l.*1 -> (u !! o = None) /\ (o ∉ L.*1) /\ o ∉ CB.*1) ->
  pg_created pg' = add_coins l (pg_created pg) -> pg_spent pg' = pg_spent pg -> pg_same_block pg' = pg_same_block pg ->
  pg_spent_entries pg' = pg_spent_entries pg -> tracks pg' (add_coins l seq) (L ++ l).
Proof.
  intros [Hseq Hcr Hsp Hent Hsm Hsrc Hdi] Hnd Hnew Hc Hs Hsb He.
  assert (Hl : forall o, is_Some (coin_map l !! o) -> (o ∉ pg_spent pg) /\ (coin_map L !! o = None)).
  { intros o Ho%coin_map_Some. destruct (Hnew o Ho) as (Hu & HL & _). split.
    - intros [Hsome|?%Hsm]%Hsp; [rewrite Hu in Hsome; by destruct Hsome|done].
    - by apply not_elem_of_list_to_map_1. }
  split.
  - intros o. rewrite add_coins_union, Hs, lookup_union, Hseq, list_to_map_app by done.
    destruct (coin_map l !! o) as [e|] eqn:El.
    + destruct (Hl o) as [Hns HL]; [by eexists|]. rewrite !decide_False by done.
      rewrite !lookup_union, HL, El. by destruct (coin_map CB !! o), (u !! o).
    + rewrite !lookup_union, El. by destruct (coin_map L !! o), (coin_map CB !! o), (u !! o), (decide _).
  - intros o. rewrite Hc, add_coins_union, Hs, lookup_union, Hcr, list_to_map_app, lookup_union by done.
    destruct (coin_map l !! o) as [e|] eqn:El.
    + destruct (Hl o) as [Hns HL]; [by eexists|]. by rewrite !decide_False, HL by done.
    + destruct (decide _); [done|]. by destruct (coin_map L !! o).
  - intros o. rewrite Hs, Hsb. apply Hsp.
  - by rewrite Hs, He.
  - intros o. rewrite Hsb, fmap_app, elem_of_app. intros ?%Hsm. by left.
  - intros o e. rewrite He, elem_of_app. intros [?|?]%Hsrc; tauto.
  - by rewrite He.
Qed.

Definition spent_value (es : list StoredUtxo) : Z := sum (map entry_value es).

(** What the checks say of one transaction and the coins it spends. *)
Definition balanced (t : Transaction) (es : list StoredUtxo) : Prop :=
  length es = length (tx_input t) /\ output_value t <= spent_value es <= MAX_MONEY.

Definition outputs_fit (t : Transaction) : Prop := Z.of_nat (length (tx_output t)) <= 2 ^ 32.

Lemma process_transaction_ledger b t pg pg' seq L :
  process_transaction b u t (compute_txid t) pg = Ok pg' -> bc_retain_spent_entries b = true -> tracks pg seq L ->
  outputs_fit t -> (forall o, o ∈ transaction_outpoints t -> u !! o = None) ->
  (forall o, o ∈ L.*1 \/ o ∈ CB.*1 -> txid o <> compute_txid t) ->
  exists es seq', ledger_tx (bc_height b) (bc_median_time_past b) t seq = Some (es, seq') /\
    tracks pg' seq' (L ++ tx_coins (bc_height b) (bc_median_time_past b) false t) /\
    pg_spent_entries pg' = pg_spent_entries pg ++ zip (tx_inputs t) es /\ balanced t es /\
    pg_fees pg' = pg_fees pg + spent_value es - output_value t.
Proof.
  unfold process_transaction. intros E Hr Htr Hfit Hfresh Hids. apply rbind_Ok in E as (_ & _ & E).
  apply rbind_Ok in E as ([pg1 tp1] & E1 & E).
  destruct (process_inputs_ledger _ _ _ _ _ _ _ _ _ _ E1 Hr Htr) as (es & seq' & Hsp & Htr1 & He & Hlen & Hf & Ht & Hm).
  cbn [tp_input_total] in Ht, Hm. destruct (_ <=? MAX_BLOCK_SIGOP_COST); [|done].
  apply rbind_Ok in E as (out & Ho%ok_or_Ok & E). apply coinbase_total_spec in Ho.
  destruct (out <=? tp_input_total tp1) eqn:Eneg; [|done]. apply rbind_Ok in E as (fees & Hfe%ok_or_Ok & E).
  destruct (fees <=? MAX_MONEY); [|done]. apply Ok_inj in E as <-. unfold checked_add in Hfe.
  destruct (_ <=? umax 64); [|done]. injection Hfe as Hfe.
  destruct (create_outputs_same b (compute_txid t) (tx_output t) 0
    (set_totals fees (sat_add 64 (pg_sigop_cost pg1)
       (if bc_skip_script_checks b then tp_sigop_cost tp1 else transaction_sigop_cost t (tp_previous_outputs tp1) (bc_flags b)))
       (if bc_skip_script_checks b then pg_jobs pg1 else pg_jobs pg1 ++ [(t, tp_previous_outputs tp1)]) pg1))
    as (Hc1 & Hc2 & Hc3 & Hc4). cbn [set_totals pg_spent_entries pg_spent pg_fees pg_same_block] in Hc1, Hc2, Hc3, Hc4.
  exists es, (add_coins (tx_coins (bc_height b) (bc_median_time_past b) false t) seq').
  unfold ledger_tx, tx_inputs. rewrite Hsp. cbn [mbind option_bind]. split; [done|]. split.
  - apply (tracks_create pg1); [done|apply coins_NoDup; unfold outputs_fit in Hfit; lia| | |done..].
    + intros o Ho'. pose proof (tx_coins_txid _ _ _ _ _ Ho') as Hid. split; [by apply Hfresh, (tx_coins_key _ _ _ _ _ Ho')|].
      split; intros Hin; (eapply Hids; [|exact Hid]); tauto.
    + rewrite create_outputs_created. done.
  - assert (0 <= MAX_MONEY) by (unfold MAX_MONEY; lia).
    rewrite Hc1, Hc3. split; [done|]. unfold balanced, spent_value, output_value. unfold MAX_MONEY in *. lia.
Qed.

Lemma process_transactions_ledger b txs pg pg' seq L i :
  process_transactions b u (zip txs (map compute_txid txs)) pg = Ok pg' ->
  bc_retain_spent_entries b = true -> tracks pg seq L -> Forall outputs_fit txs -> NoDup (map compute_txid txs) ->
  (forall t o, t ∈ txs -> o ∈ transaction_outpoints t -> u !! o = None) ->
  (forall t o, t ∈ txs -> o ∈ L.*1 \/ o ∈ CB.*1 -> txid o <> compute_txid t) ->
  exists ess seq', ledger_txs (bc_height b) (bc_median_time_past b) txs seq = Some (ess, seq') /\
    tracks pg' seq' (L ++ all_coins (bc_height b) (bc_median_time_past b) txs (S i)) /\
    pg_spent_entries pg' = pg_spent_entries pg ++ concat (zip_with zip (map tx_inputs txs) ess) /\
    Forall2 balanced txs ess /\
    pg_fees pg' = pg_fees pg + sum (map spent_value ess) - sum (map output_value txs).
Proof.
  revert pg seq L i. induction txs as [|t txs IH]; intros pg seq L i E Hr Htr Hfit Hnd Hfresh Hids.
  - cbn in E. apply Ok_inj in E as <-. exists [], seq. simpl. rewrite !app_nil_r. split_and!; (done || lia).
  - cbn [map zip_with process_transactions] in E. apply rbind_Ok in E as (pg1 & E1 & E).
    apply Forall_cons in Hfit as [Hf1 Hfit]. apply NoDup_cons in Hnd as [Hnot Hnd].
    destruct (process_transaction_ledger b t pg pg1 seq L E1 Hr Htr Hf1) as (es & seq1 & Hl & Htr1 & He1 & Hb & Hfe1).
    { intros o. apply Hfresh. left. }
    { intros o. apply Hids. left. }
    destruct (IH pg1 seq1 (L ++ tx_coins (bc_height b) (bc_median_time_past b) false t) (S i))
      as (ess & seq' & Hls & Htr' & He & Hbs & Hfe); [done..| | |].
    { intros t' o Hin. apply Hfresh. by right. }
    { intros t' o Hin. rewrite fmap_app, elem_of_app. intros [[Ho|Ho]|Ho]; try (apply (Hids t' o); [by right|tauto]).
      rewrite (tx_coins_txid _ _ _ _ _ Ho). intros Heq. apply Hnot. rewrite Heq. apply list_elem_of_fmap. by exists t'. }
    exists (es :: ess), seq'. cbn [ledger_txs]. rewrite Hl. cbn [mbind option_bind]. rewrite Hls. cbn [mbind option_bind].
    cbn [all_coins]. rewrite bool_decide_false by done. rewrite app_assoc.
    cbn [map zip_with concat]. rewrite app_assoc, <- He1.
    split; [done|]. split; [done|]. split; [done|]. split; [by constructor|].
    unfold sum in *. cbn [map foldr]. lia.
Qed.
End Tracks.

(** ** Blocks *)

(** No output of the block is in the set yet: what BIP30 asks for. *)
Definition block_fresh (u : gmap OutPoint StoredUtxo) (block : Block) : Prop :=
  forall t o, t ∈ txdata block -> o ∈ transaction_outpoints t -> u !! o = None.

Lemma bip30_fresh u txs :
  bip30_conflict u (zip txs (map compute_txid txs)) = None ->
  forall t o, t ∈ txs -> o ∈ transaction_outpoints t -> u !! o = None.
Proof.
  induction txs as [|t0 txs IH]; intros E t o Ht Ho; [by apply not_elem_of_nil in Ht|].
  cbn [map zip_with bip30_conflict] in E. destruct (existsb _ _) eqn:Ex; [done|].
  apply elem_of_cons in Ht as [->|Ht]; [|by apply (IH E t)].
  apply list_elem_of_fmap in Ho as (i & -> & Hi). apply eq_None_not_Some. intros Hsome.
  apply not_true_iff_false in Ex. apply Ex, existsb_exists. exists i. rewrite <- list_elem_of_In. split; [done|].
  by apply bool_decide_eq_true.
Qed.

Lemma all_coins_txid h mtp txs i o : o ∈ (all_coins h mtp txs i).*1 -> txid o ∈ map compute_txid txs.
Proof.
  revert i. induction txs as [|t txs IH]; intros i; simpl; [by intros ?%not_elem_of_nil|].
  rewrite fmap_app, elem_of_app. intros [Ho|Ho]; [|right; by apply (IH (S i))].
  rewrite (tx_coins_txid _ _ _ _ _ Ho). left.
Qed.

Lemma all_coins_NoDup h mtp txs i :
  Forall outputs_fit txs -> NoDup (map compute_txid txs) -> NoDup (all_coins h mtp txs i).*1.
Proof.
  revert i. induction txs as [|t txs IH]; intros i Hfit Hnd; simpl; [constructor|].
  apply Forall_cons in Hfit as [Hf Hfit]. apply NoDup_cons in Hnd as [Hnot Hnd].
  rewrite fmap_app. apply NoDup_app. split; [apply coins_NoDup; unfold outputs_fit in Hf; lia|].
  split; [|by apply IH]. intros o Ho Ho'. apply Hnot. rewrite <- (tx_coins_txid _ _ _ _ _ Ho).
  by apply (all_coins_txid h mtp txs (S i)).
Qed.

Lemma apply_block_tracks u block h mtp cb txs pg seq :
  txdata block = cb :: txs -> Forall outputs_fit (txdata block) -> NoDup (map compute_txid (txdata block)) ->
  tracks u (tx_coins h mtp true cb) pg seq (all_coins h mtp txs 1) ->
  apply_block_to_utxos u block h mtp (pg_spent_entries pg) = seq.
Proof.
  intros Htx Hfit Hnd [Hseq Hcr Hsp Hent _ _ _]. apply map_eq. intros o. unfold apply_block_to_utxos.
  pose proof (all_coins_NoDup h mtp _ 0 Hfit Hnd) as Hall.
  rewrite apply_transactions_coins, add_coins_union by (by apply unspent_NoDup).
  rewrite lookup_union, unspent_lookup, remove_all_lookup, <- Hent, Hseq by done.
  assert (Hin : o ∈ (pg_spent_entries pg).*1 <-> o ∈ pg_spent pg) by (by rewrite Hent, elem_of_list_to_set).
  destruct (decide (o ∈ pg_spent pg)) as [Hs|Hs].
  - rewrite decide_True by tauto. done.
  - rewrite decide_False by tauto. rewrite Htx in Hall |- *. cbn [all_coins] in *.
    rewrite bool_decide_true in * by done. rewrite list_to_map_app, !lookup_union.
    rewrite fmap_app in Hall. apply NoDup_app in Hall as (_ & Hdisj & _).
    destruct (coin_map (tx_coins h mtp true cb) !! o) eqn:E1, (coin_map (all_coins h mtp txs 1) !! o) eqn:E2; try by destruct (u !! o).
    exfalso. apply (Hdisj o); apply coin_map_Some; by eexists.
Qed.

Lemma tracks_start u cb h mtp sigops :
  outputs_fit cb -> tracks u (tx_coins h mtp true cb) (start_progress sigops) (add_coins (tx_coins h mtp true cb) u) [].
Proof.
  intros Hfit. split; simpl.
  - intros o. rewrite decide_False by apply not_elem_of_empty. rewrite (left_id_L ∅ (∪)), add_coins_union; [done|].
    apply coins_NoDup. unfold outputs_fit in Hfit. lia.
  - intros o. by rewrite decide_False by apply not_elem_of_empty.
  - intros o []%not_elem_of_empty.
  - done.
  - intros o []%not_elem_of_empty.
  - intros o e []%not_elem_of_nil.
  - constructor.
Qed.

(** What an accepted block does, in terms of the ledger. *)
Record connects (h mtp subsidy : Z) (block : Block) (u : gmap OutPoint StoredUtxo)
    (entries : list (OutPoint * StoredUtxo)) (ess : list (list StoredUtxo)) (u' : gmap OutPoint StoredUtxo) : Prop := {
  cn_ledger : ledger_block h mtp block u = Some (ess, u');
  cn_apply : apply_block_to_utxos u block h mtp entries = u';
  cn_entries : entries = concat (zip_with zip (map tx_inputs (tail (txdata block))) ess);
  cn_balanced : Forall2 balanced (tail (txdata block)) ess;
  cn_money : sum (map output_value (txdata block)) <= subsidy + sum (map spent_value ess);
}.

(** The result of the validation is the state after the last transaction. *)
Definition application_of (a : BlockApplication) (pg : Progress) : Prop :=
  spent_entries a = pg_spent_entries pg /\ spent_outpoints a = pg_spent pg /\ created_entries a = pg_created pg /\
  same_block_spent a = pg_same_block pg.

Lemma connect_tracks c params cache block h u mtp skip a :
  validate_block_transactions c params cache block (map compute_txid (txdata block)) h u mtp skip true = Ok a ->
  Forall outputs_fit (txdata block) -> NoDup (map compute_txid (txdata block)) ->
  (enforce_bip30 c params h (block_hash block) (prev_blockhash (blk_header block)) = false -> block_fresh u block) ->
  block_fresh u block /\
  exists cb txs ess u' pg, txdata block = cb :: txs /\
    connects h mtp (block_subsidy_for_network (ChainIndex.network c) h) block u (spent_entries a) ess u' /\
    tracks u (tx_coins h mtp true cb) pg u' (all_coins h mtp txs 1) /\ application_of a pg.
Proof.
  unfold validate_block_transactions. intros E Hfit Hnd Hb. destruct (_ =? _) in E; [|done].
  apply rbind_Ok in E as (r & Eb & E).
  assert (Hfresh : block_fresh u block).
  { destruct (enforce_bip30 _ _ _ _ _); [|by apply Hb]. destruct (bip30_conflict _ _) eqn:Ec; [done|].
    intros t o. by apply bip30_fresh. }
  split; [done|]. destruct (txdata block) as [|cb txs] eqn:Htx; [done|].
  apply map_err_Ok in E. apply rbind_Ok in E as (_ & _ & E). destruct (_ <=? MAX_BLOCK_SIGOP_COST); [|done].
  apply rbind_Ok in E as (pg & Epg & E). apply rbind_Ok in E as (_ & _ & E). cbn [map zip_with tail] in Epg.
  apply Forall_cons in Hfit as [Hf Hfit]. apply NoDup_cons in Hnd as [Hnot Hnd].
  assert (Hcb : forall o, o ∈ (tx_coins h mtp true cb).*1 -> u !! o = None).
  { intros o Ho. apply (Hfresh cb); [rewrite Htx; left|by apply (tx_coins_key h mtp true)]. }
  destruct (process_transactions_ledger u (tx_coins h mtp true cb) Hcb _ txs _ pg
    (add_coins (tx_coins h mtp true cb) u) [] 0 Epg) as (ess & u' & Hl & Htr & He & Hbal & Hfe);
    [done|by apply tracks_start|done|done|..].
  { intros t o Ht. apply Hfresh. rewrite Htx. by right. }
  { intros t o Ht [Ho|Ho]; [by apply not_elem_of_nil in Ho|]. rewrite (tx_coins_txid _ _ _ _ _ Ho). intros Heq.
    apply Hnot. rewrite Heq. apply list_elem_of_fmap. by exists t. }
  cbn [bc_height bc_median_time_past block_context start_progress pg_spent_entries pg_fees app] in *.
  exists cb, txs, ess, u', pg. split; [done|]. unfold finish_block in E. apply rbind_Ok in E as (actual & Ha%ok_or_Ok & E).
  apply coinbase_total_spec in Ha. destruct (actual <=? _) eqn:Em; [|done]. destruct (if is_bip30_unspendable _ _ _ then _ else _).
  apply Ok_inj in E as <-. cbn [spent_entries]. split; [|by split].
  split.
  - unfold ledger_block. by rewrite Htx.
  - apply (apply_block_tracks u block h mtp cb txs); rewrite ?Htx; [done|by constructor|by constructor|done].
  - by rewrite Htx.
  - by rewrite Htx.
  - rewrite Htx. change (sum (map value (tx_output cb)) + sum (map output_value txs) <= block_subsidy_for_network (ChainIndex.network c) h + sum (map spent_value ess)). lia.
Qed.

Lemma connect_ledger c params cache block h u mtp skip a :
  validate_block_transactions c params cache block (map compute_txid (txdata block)) h u mtp skip true = Ok a ->
  Forall outputs_fit (txdata block) -> NoDup (map compute_txid (txdata block)) ->
  (enforce_bip30 c params h (block_hash block) (prev_blockhash (blk_header block)) = false -> block_fresh u block) ->
  block_fresh u block /\
  exists ess u', connects h mtp (block_subsidy_for_network (ChainIndex.network c) h) block u (spent_entries a) ess u'.
Proof.
  intros E Hfit Hnd Hb. destruct (connect_tracks _ _ _ _ _ _ _ _ _ E Hfit Hnd Hb) as [Hf (_ & _ & ess & u' & _ & _ & Hc & _)].
  split; [done|]. by exists ess, u'.
Qed.

(** ** Undo data *)

Lemma zip_inputs_length t es : balanced t es -> length (zip (tx_inputs t) es) = length (tx_input t).
Proof. intros [H _]. rewrite length_zip_with. unfold tx_inputs. rewrite length_map. lia. Qed.

Lemma zip_undo (ops : list OutPoint) (es : list StoredUtxo) :
  length es = length ops -> map (fun p => undo_of p.2) (zip ops es) = map undo_of es.
Proof. revert ops. induction es as [|e es IH]; intros [|o ops] H; simpl in *; try done. rewrite IH by lia. done. Qed.

Lemma group_undo_spec txs ess pre undo :
  Forall2 balanced txs ess ->
  group_undo txs (pre ++ concat (zip_with zip (map tx_inputs txs) ess)) (length pre) undo =
  Ok (undo ++ map (map undo_of) ess).
Proof.
  intros Hbal. revert pre undo. induction Hbal as [|t es txs ess Hb Hbal IH]; intros pre undo; cbn [group_undo map zip_with concat].
  - rewrite bool_decide_true by (rewrite length_app; simpl; lia). by rewrite app_nil_r.
  - pose proof (zip_inputs_length t es Hb) as Hlen.
    rewrite bool_decide_true by (rewrite !length_app; lia).
    rewrite drop_app_length, take_app_length' by done. rewrite (app_assoc pre).
    replace (length pre + length (tx_input t))%nat with (length (pre ++ zip (tx_inputs t) es)) by (rewrite length_app; lia).
    rewrite IH, <- app_assoc. cbn [app]. rewrite zip_undo; [done|].
    destruct Hb as [Hb _]. unfold tx_inputs. by rewrite length_map.
Qed.

Lemma coin_of_undo e : coin_of (undo_of e) = e.
Proof. by destruct e. Qed.

(** ** Taking transactions back *)

Lemma spend_lookup ops u es u' o :
  spend ops u = Some (es, u') -> u' !! o = if decide (o ∈ ops) then None else u !! o.
Proof.
  revert u es. induction ops as [|x ops IH]; intros u es E; cbn [spend] in E.
  { injection E as <- <-. by rewrite decide_False by apply not_elem_of_nil. }
  apply bind_Some in E as (e & He & E). apply bind_Some in E as ([es1 u1] & E1 & E). injection E as <- <-.
  rewrite (IH _ _ E1). destruct (decide (o ∈ ops)) as [Hin|Hin].
  - by rewrite decide_True by (by right).
  - destruct (decide (o = x)) as [->|Hne].
    + rewrite decide_True by left. apply lookup_delete_eq.
    + rewrite decide_False by (rewrite not_elem_of_cons; done). by apply lookup_delete_ne.
Qed.

Lemma spend_NoDup ops u es u' : spend ops u = Some (es, u') -> NoDup ops /\ forall o, o ∈ ops -> is_Some (u !! o).
Proof.
  revert u es. induction ops as [|x ops IH]; intros u es E; cbn [spend] in E.
  { split; [constructor|]. by intros o ?%not_elem_of_nil. }
  apply bind_Some in E as (e & He & E). apply bind_Some in E as ([es1 u1] & E1 & E). injection E as <- <-.
  destruct (IH _ _ E1) as [Hnd Hin]. split.
  - apply NoDup_cons. split; [|done]. intros [e' He']%Hin. by rewrite lookup_delete_eq in He'.
  - intros o [->|Ho]%elem_of_cons; [by eexists|]. destruct (Hin o Ho) as [e' He']. exists e'.
    apply lookup_delete_Some in He'. tauto.
Qed.

(** Putting the spent coins back, last input first. *)
Lemma restore_inputs_spend inputs u es u' :
  spend (map previous_output inputs) u = Some (es, u') ->
  restore_inputs (rev (zip inputs (map undo_of es))) u' = u.
Proof.
  revert u es. induction inputs as [|i inputs IH]; intros u es E; cbn [map spend] in E.
  { by injection E as <- <-. }
  apply bind_Some in E as (e & He & E). apply bind_Some in E as ([es1 u1] & E1 & E). injection E as <- <-.
  cbn [map zip_with rev]. unfold restore_inputs. rewrite foldl_app. cbn [foldl fst snd].
  change (foldl _ u1 _) with (restore_inputs (rev (zip inputs (map undo_of es1))) u1).
  rewrite (IH _ _ E1), coin_of_undo. by apply insert_delete_id.
Qed.

(** Putting them back in order, each absent before. *)
Lemma restore_spent_spend inputs u es u' u0 :
  spend (map previous_output inputs) u = Some (es, u') ->
  (forall o, o ∈ map previous_output inputs -> u0 !! o = None) ->
  exists r, restore_spent (zip inputs (map undo_of es)) u0 = Ok r /\
    forall o, r !! o = if decide (o ∈ map previous_output inputs) then u !! o else u0 !! o.
Proof.
  revert u es u0. induction inputs as [|i inputs IH]; intros u es u0 E Hn; cbn [map spend] in E.
  { injection E as <- <-. exists u0. split; [done|]. intros o. by rewrite decide_False by apply not_elem_of_nil. }
  destruct (spend_NoDup (map previous_output (i :: inputs)) u es u') as [Hnd _]; [done|].
  apply bind_Some in E as (e & He & E). apply bind_Some in E as ([es1 u1] & E1 & E). injection E as <- <-.
  cbn [map] in Hnd, Hn |- *. apply NoDup_cons in Hnd as [Hnot Hnd].
  cbn [zip_with restore_spent]. rewrite (Hn (previous_output i)), bool_decide_false by (done || apply is_Some_None || left).
  cbn [negb]. rewrite coin_of_undo.
  destruct (IH _ _ (<[previous_output i := e]> u0) E1) as (r & Hr & Hlook).
  { intros o Ho. rewrite lookup_insert_ne by (intros <-; done). apply Hn. by right. }
  exists r. split; [done|]. intros o. rewrite Hlook. destruct (decide (o = previous_output i)) as [->|Hne].
  - rewrite (decide_False (P := _ ∈ map _ _)), lookup_insert_eq by done. by rewrite decide_True by left.
  - rewrite lookup_delete_ne, lookup_insert_ne by done.
    apply decide_ext. rewrite elem_of_cons. tauto.
Qed.

Definition absent (u : gmap OutPoint StoredUtxo) (t : Transaction) : Prop :=
  forall o, o ∈ transaction_outpoints t -> u !! o = None.

Lemma remove_outputs h mtp cb t u :
  outputs_fit t -> absent u t -> remove_all (transaction_outpoints t) (add_coins (tx_coins h mtp cb t) u) = u.
Proof.
  intros Hfit Habs. apply map_eq. intros o. rewrite remove_all_lookup, add_coins_union
    by (apply coins_NoDup; unfold outputs_fit in Hfit; lia).
  destruct (decide (o ∈ transaction_outpoints t)) as [Hin|Hin]; [by rewrite Habs|].
  rewrite lookup_union_r; [done|]. apply not_elem_of_list_to_map_1. intros Ho. by apply Hin, (tx_coins_key h mtp cb).
Qed.

Lemma remove_created_coins id outputs index h mtp cb u :
  Z.of_nat (index + length outputs) <= 2 ^ 32 ->
  (forall i, (index <= i < index + length outputs)%nat -> u !! outpoint_at id i = None) ->
  remove_created id outputs index (add_coins (coins id outputs index h mtp cb) u) = Ok u.
Proof.
  revert index. induction outputs as [|o outputs IH]; intros index Hlen Habs; [done|].
  pose proof (coins_NoDup id (o :: outputs) index h mtp cb Hlen) as Hnd. cbn [length] in Hlen, Habs.
  cbn [remove_created coins] in *. destruct (is_unspendable_script _); [apply IH; [lia|intros; apply Habs; lia]|].
  rewrite add_coins_union by done. cbn [list_to_map foldr]. rewrite <- insert_union_l.
  cbn [fmap list_fmap fst] in Hnd. apply NoDup_cons in Hnd as [Hnot Hnd].
  rewrite lookup_insert_eq, bool_decide_true by done. cbn [negb].
  assert (Hn : (coin_map (coins id outputs (S index) h mtp cb) ∪ u) !! outpoint_at id index = None).
  { apply lookup_union_None. split; [by apply not_elem_of_list_to_map_1|]. apply Habs. lia. }
  rewrite delete_insert_id by done. rewrite <- add_coins_union by done. apply IH; [lia|]. intros. apply Habs. lia.
Qed.

Lemma remove_created_tx h mtp cb t u :
  outputs_fit t -> absent u t ->
  remove_created (compute_txid t) (tx_output t) 0 (add_coins (tx_coins h mtp cb t) u) = Ok u.
Proof.
  intros Hfit Habs. apply remove_created_coins; [unfold outputs_fit in Hfit; lia|]. intros i Hi. apply Habs.
  apply list_elem_of_fmap. exists i. split; [done|]. apply elem_of_seq. lia.
Qed.

Lemma absent_spend ops u es u' t : spend ops u = Some (es, u') -> absent u t -> absent u' t.
Proof. intros E Habs o Ho. rewrite (spend_lookup _ _ _ _ _ E). destruct (decide _); [done|]. by apply Habs. Qed.

Lemma absent_add h mtp cb t t' u :
  outputs_fit t -> compute_txid t' <> compute_txid t -> absent u t' -> absent (add_coins (tx_coins h mtp cb t) u) t'.
Proof.
  intros Hfit Hne Habs o Ho. rewrite add_coins_union by (apply coins_NoDup; unfold outputs_fit in Hfit; lia).
  apply lookup_union_None. split; [|by apply Habs]. apply not_elem_of_list_to_map_1. intros Hin.
  apply Hne. by rewrite <- (outpoints_txid _ _ Ho), <- (tx_coins_txid _ _ _ _ _ Hin).
Qed.

(** ** Taking blocks back *)

Lemma disconnect_loop_app l1 l2 undo u :
  disconnect_loop (l1 ++ l2) undo u = (let? u := disconnect_loop l1 undo u in disconnect_loop l2 undo u).
Proof.
  revert u. induction l1 as [|[i t] l1 IH]; intros u; [done|]. cbn [app disconnect_loop].
  destruct (bool_decide _); [apply IH|]. destruct (undo !! i) as [spent|]; [|done]. cbn [ok_or rbind].
  destruct (bool_decide _); [apply IH|done].
Qed.

Lemma verify_disconnect_loop_app l1 l2 undo u :
  verify_disconnect_loop (l1 ++ l2) undo u =
  (let? u := verify_disconnect_loop l1 undo u in verify_disconnect_loop l2 undo u).
Proof.
  revert u. induction l1 as [|[i t] l1 IH]; intros u; [done|]. cbn [app verify_disconnect_loop].
  destruct (remove_created _ _ _ _) as [u1|]; [|done]. cbn [rbind].
  destruct (bool_decide _); [apply IH|]. destruct (restore_spent _ _) as [u2|]; [|done]. cbn [rbind]. apply IH.
Qed.

(** One transaction, at a position after the coinbase. *)
Lemma disconnect_tx h mtp t es u u' undo i :
  ledger_tx h mtp t u = Some (es, u') -> balanced t es -> outputs_fit t -> absent u t ->
  undo !! i = Some (map undo_of es) -> i <> 0%nat ->
  disconnect_loop [(i, t)] undo u' = Ok u /\ verify_disconnect_loop [(i, t)] undo u' = Ok u.
Proof.
  unfold ledger_tx. intros E [Hlen _] Hfit Habs Hu Hi. apply bind_Some in E as ([es1 u1] & Es & E). injection E as <- <-.
  pose proof (absent_spend _ _ _ _ t Es Habs) as Habs1. cbn [disconnect_loop verify_disconnect_loop].
  rewrite remove_outputs, remove_created_tx by done. cbn [rbind].
  rewrite (bool_decide_false (i = 0%nat)), Hu by done. cbn [ok_or rbind from_option id].
  rewrite length_map, bool_decide_true by done. rewrite (restore_inputs_spend _ _ _ _ Es). split; [done|].
  destruct (restore_spent_spend (tx_input t) u es1 u1 u1 Es) as (r & Hr & Hlook).
  { intros o Ho. by rewrite (spend_lookup _ _ _ _ _ Es), decide_True by done. }
  rewrite Hr. cbn [rbind]. f_equal.
  apply map_eq. intros o. rewrite Hlook, (spend_lookup _ _ _ _ o Es). unfold tx_inputs. by destruct (decide _).
Qed.

Lemma disconnect_txs h mtp txs ess u u' pre :
  ledger_txs h mtp txs u = Some (ess, u') -> Forall2 balanced txs ess -> Forall outputs_fit txs ->
  NoDup (map compute_txid txs) -> Forall (absent u) txs -> pre <> [] ->
  let l := rev (zip (seq (length pre) (length txs)) txs) in
  let undo := pre ++ map (map undo_of) ess in
  disconnect_loop l undo u' = Ok u /\ verify_disconnect_loop l undo u' = Ok u.
Proof.
  intros E Hbal. revert u u' pre E.
  induction Hbal as [|t es txs ess Hb Hbal IH]; intros u u' pre E Hfit Hnd Habs Hpre; cbn [ledger_txs] in E.
  { injection E as <-. done. }
  apply bind_Some in E as ([es1 u1] & E1 & E). apply bind_Some in E as ([ess1 u2] & E2 & E). injection E as -> -> ->.
  apply Forall_cons in Hfit as [Hf Hfit]. apply NoDup_cons in Hnd as [Hnot Hnd]. apply Forall_cons in Habs as [Ha Habs].
  cbn [length seq zip_with rev map]. rewrite disconnect_loop_app, verify_disconnect_loop_app.
  replace (pre ++ map undo_of es :: map (map undo_of) ess) with ((pre ++ [map undo_of es]) ++ map (map undo_of) ess)
    by (by rewrite <- app_assoc).
  replace (S (length pre)) with (length (pre ++ [map undo_of es])) by (rewrite length_app; simpl; lia).
  destruct (IH u1 u' (pre ++ [map undo_of es]) E2 Hfit Hnd) as [-> ->]; [|by destruct pre|].
  { unfold ledger_tx in E1. apply bind_Some in E1 as ([es0 u0] & Es & E1). injection E1 as <- <-.
    rewrite Forall_forall in Habs |- *. intros t' Ht'. apply absent_add; [done| |by apply (absent_spend _ _ _ _ _ Es), Habs].
    intros Heq. apply Hnot. rewrite <- Heq. apply list_elem_of_fmap. by exists t'. }
  cbn [rbind]. apply (disconnect_tx h mtp t es); [done..| |by destruct pre].
  rewrite <- app_assoc. by apply list_lookup_middle.
Qed.

Lemma validate_undo_ok block cb txs ess :
  txdata block = cb :: txs -> Forall2 balanced txs ess ->
  Forall (Forall (fun e => 0 <= entry_value e)) ess ->
  validate_block_undo block ([] :: map (map undo_of) ess) = Ok tt.
Proof.
  intros Htx Hbal Hnn. unfold validate_block_undo. rewrite Htx.
  pose proof (Forall2_length _ _ _ Hbal) as Hlen.
  rewrite bool_decide_true by (cbn [length]; rewrite length_map; lia). cbn [tail].
  replace (forallb _ _) with true; [done|]. symmetry. clear Htx Hlen.
  induction Hbal as [|t es txs ess [Hl [_ Hm]] Hbal IH]; [done|].
  apply Forall_cons in Hnn as [Hn Hnn]. cbn [map zip_with forallb]. rewrite IH, andb_true_r by done.
  rewrite length_map, bool_decide_true by done. rewrite andb_true_l, negb_true_iff. apply not_true_iff_false.
  rewrite existsb_exists. intros (coin & Hin & Hv%Z.ltb_lt). apply List.in_map_iff in Hin as (e & <- & Hin).
  assert (Hle : entry_value e <= spent_value es).
  { clear -Hin Hn. unfold spent_value, sum. induction es as [|e' es IH]; [done|].
    apply Forall_cons in Hn as [H1 H2]. cbn [map foldr].
    assert (0 <= foldr Z.add 0 (map entry_value es)).
    { clear -H2. induction H2; cbn [map foldr]; lia. }
    destruct Hin as [->|Hin]; [lia|]. specialize (IH H2 Hin). lia. }
  change (value (undo_output (undo_of e))) with (entry_value e) in Hv. lia.
Qed.

(** ** Money *)

Definition utxo_total (u : gmap OutPoint StoredUtxo) : Z := map_fold (fun _ e total => entry_value e + total) 0 u.

Lemma utxo_total_insert u o e : u !! o = None -> utxo_total (<[o := e]> u) = entry_value e + utxo_total u.
Proof. intros Hn. unfold utxo_total. rewrite map_fold_insert_L; [done|intros; lia|done]. Qed.

Lemma utxo_total_delete u o e : u !! o = Some e -> utxo_total u = entry_value e + utxo_total (delete o u).
Proof.
  intros E. rewrite <- (insert_delete_id u o e E) at 1. apply utxo_total_insert, lookup_delete_eq.
Qed.

Lemma spend_total ops u es u' : spend ops u = Some (es, u') -> utxo_total u = spent_value es + utxo_total u'.
Proof.
  revert u es. induction ops as [|o ops IH]; intros u es E; cbn [spend] in E; [by injection E as <- <-|].
  apply bind_Some in E as (e & He & E). apply bind_Some in E as ([es1 u1] & E1 & E). injection E as <- <-.
  rewrite (utxo_total_delete _ _ _ He), (IH _ _ E1). unfold spent_value, sum. cbn [map foldr]. lia.
Qed.

Lemma add_coins_total id outputs index h mtp cb u :
  Z.of_nat (index + length outputs) <= 2 ^ 32 -> Forall (fun o => 0 <= value o) outputs ->
  (forall i, (index <= i < index + length outputs)%nat -> u !! outpoint_at id i = None) ->
  utxo_total (add_coins (coins id outputs index h mtp cb) u) <= utxo_total u + sum (map value outputs).
Proof.
  revert index u. induction outputs as [|o outputs IH]; intros index u Hlen Hnn Habs; [unfold sum; simpl; lia|].
  apply Forall_cons in Hnn as [Ho Hnn]. cbn [length] in Hlen, Habs. cbn [coins].
  change (sum (map value (o :: outputs))) with (value o + sum (map value outputs)).
  destruct (is_unspendable_script _).
  - pose proof (IH (S index) u ltac:(lia) Hnn ltac:(intros; apply Habs; lia)). lia.
  - cbn [add_coins foldl]. change (foldl _ ?x ?l) with (add_coins l x). cbn [fst snd].
    pose proof (utxo_total_insert u (outpoint_at id index) (new_entry o h mtp cb)) as Ht.
    rewrite Habs in Ht by lia. specialize (Ht eq_refl). unfold entry_value in Ht at 1. cbn [new_entry output] in Ht.
    etrans; [apply (IH (S index)); [lia|done|]|lia].
    intros i Hi. rewrite lookup_insert_ne by (intros Heq%outpoint_at_inj; lia). apply Habs. lia.
Qed.

Definition amounts_ok (u : gmap OutPoint StoredUtxo) : Prop := map_Forall (fun _ e => 0 <= entry_value e) u.
Definition outputs_ok (t : Transaction) : Prop := Forall (fun o => 0 <= value o) (tx_output t).

Lemma spend_amounts ops u es u' :
  spend ops u = Some (es, u') -> amounts_ok u -> Forall (fun e => 0 <= entry_value e) es /\ amounts_ok u'.
Proof.
  revert u es. induction ops as [|o ops IH]; intros u es E Hu; cbn [spend] in E; [by injection E as <- <-|].
  apply bind_Some in E as (e & He & E). apply bind_Some in E as ([es1 u1] & E1 & E). injection E as <- <-.
  destruct (IH _ _ E1) as [Hes Hu1]; [by apply map_Forall_delete|]. split; [|done]. constructor; [by apply (Hu o)|done].
Qed.

Lemma add_coins_amounts h mtp cb t u :
  outputs_fit t -> outputs_ok t -> amounts_ok u -> amounts_ok (add_coins (tx_coins h mtp cb t) u).
Proof.
  intros Hfit Hok Hu. rewrite add_coins_union by (apply coins_NoDup; unfold outputs_fit in Hfit; lia).
  apply map_Forall_union_2; [|done]. intros o e Hin%elem_of_list_to_map_2.
  apply coins_spec in Hin as (i & out & _ & Hl & _ & ->). unfold outputs_ok in Hok. rewrite Forall_forall in Hok.
  by apply Hok, (list_elem_of_lookup_2 _ _ _ Hl).
Qed.

Lemma absent_index u t i : absent u t -> (i < length (tx_output t))%nat -> u !! outpoint_at (compute_txid t) i = None.
Proof. intros Habs Hi. apply Habs, list_elem_of_fmap. exists i. split; [done|]. apply elem_of_seq. lia. Qed.

Lemma tx_coins_total h mtp cb t u :
  outputs_fit t -> outputs_ok t -> absent u t ->
  utxo_total (add_coins (tx_coins h mtp cb t) u) <= utxo_total u + output_value t.
Proof.
  intros Hfit Hok Habs. apply add_coins_total; [unfold outputs_fit in Hfit; lia|done|].
  intros i Hi. apply (absent_index u t); [done|lia].
Qed.

Lemma ledger_txs_total h mtp txs ess u u' :
  ledger_txs h mtp txs u = Some (ess, u') -> Forall outputs_fit txs -> Forall outputs_ok txs ->
  NoDup (map compute_txid txs) -> Forall (absent u) txs -> amounts_ok u ->
  Forall (Forall (fun e => 0 <= entry_value e)) ess /\
  utxo_total u' <= utxo_total u - sum (map spent_value ess) + sum (map output_value txs).
Proof.
  revert u ess. induction txs as [|t txs IH]; intros u ess E Hfit Hok Hnd Habs Hu; cbn [ledger_txs] in E.
  { injection E as <- <-. split; [constructor|]. unfold sum. simpl. lia. }
  apply bind_Some in E as ([es1 u1] & E1 & E). apply bind_Some in E as ([ess1 u2] & E2 & E). injection E as <- <-.
  unfold ledger_tx in E1. apply bind_Some in E1 as ([es0 u0] & Es & E1). injection E1 as <- <-.
  apply Forall_cons in Hfit as [Hf Hfit]. apply Forall_cons in Hok as [Ho Hok].
  apply NoDup_cons in Hnd as [Hnot Hnd]. apply Forall_cons in Habs as [Ha Habs].
  destruct (spend_amounts _ _ _ _ Es Hu) as [Hes Hu0]. pose proof (absent_spend _ _ _ _ t Es Ha) as Ha0.
  destruct (IH _ _ E2) as [Hess Htot]; [done|done|done| |by apply add_coins_amounts|].
  { rewrite Forall_forall in Habs |- *. intros t' Ht'. apply absent_add; [done| |by apply (absent_spend _ _ _ _ _ Es), Habs].
    intros Heq. apply Hnot. rewrite <- Heq. apply list_elem_of_fmap. by exists t'. }
  split; [by constructor|]. pose proof (tx_coins_total h mtp false t u0 Hf Ho Ha0).
  pose proof (spend_total _ _ _ _ Es).
  change (sum (map spent_value (es0 :: ess1))) with (spent_value es0 + sum (map spent_value ess1)).
  change (sum (map output_value (t :: txs))) with (output_value t + sum (map output_value txs)). lia.
Qed.

(** The ledger of a block from a set without its outputs. *)
Lemma block_absent u block cb txs h mtp :
  txdata block = cb :: txs -> block_fresh u block -> Forall outputs_fit (txdata block) ->
  NoDup (map compute_txid (txdata block)) ->
  absent u cb /\ Forall (absent (add_coins (tx_coins h mtp true cb) u)) txs.
Proof.
  intros Htx Hfresh Hfit Hnd. rewrite Htx in Hfit, Hnd. apply Forall_cons in Hfit as [Hf Hfit].
  apply NoDup_cons in Hnd as [Hnot Hnd]. split; [intros o; apply Hfresh; rewrite Htx; left|].
  apply Forall_forall. intros t Ht. apply absent_add; [done| |intros o; apply Hfresh; rewrite Htx; by right].
  intros Heq. apply Hnot. rewrite <- Heq. apply list_elem_of_fmap. by exists t.
Qed.
End Ledger.

(** ** Whole blocks *)

Section Blocks.
Context {Ops : BitcoinOps} {HOps : HeaderOps} {SOps : ScriptOps}.

Lemma ledger_amounts h mtp block u ess u' :
  ledger_block h mtp block u = Some (ess, u') -> Forall outputs_fit (txdata block) -> Forall outputs_ok (txdata block) ->
  amounts_ok u -> Forall (Forall (fun e => 0 <= entry_value e)) ess /\ amounts_ok u'.
Proof.
  unfold ledger_block. destruct (txdata block) as [|cb txs]; [done|]. intros E [Hf Hfit]%Forall_cons [Ho Hok]%Forall_cons Hu.
  apply (add_coins_amounts h mtp true cb u Hf Ho) in Hu. revert ess E Hu. generalize (add_coins (tx_coins h mtp true cb) u).
  clear u. induction txs as [|t txs IH]; intros u ess E Hu; cbn [ledger_txs] in E; [by injection E as <- <-|].
  apply bind_Some in E as ([es1 u1] & E1 & E). apply bind_Some in E as ([ess1 u2] & E2 & E). injection E as <- <-.
  unfold ledger_tx in E1. apply bind_Some in E1 as ([es0 u0] & Es & E1). injection E1 as <- <-.
  apply Forall_cons in Hfit as [Hft Hfit]. apply Forall_cons in Hok as [Hot Hok].
  destruct (spend_amounts _ _ _ _ Es Hu) as [Hes Hu0].
  destruct (IH Hfit Hok _ _ E2) as [Hess Hu']; [by apply add_coins_amounts|]. split; [by constructor|done].
Qed.

(** Every coin of the new set is an old one or was made at this height. *)
Lemma ledger_heights h mtp block u ess u' o e :
  ledger_block h mtp block u = Some (ess, u') -> Forall outputs_fit (txdata block) -> u' !! o = Some e ->
  u !! o = Some e \/ UtxoCodec.height e = h.
Proof.
  assert (Hadd : forall cb t u0, outputs_fit t -> add_coins (tx_coins h mtp cb t) u0 !! o = Some e ->
    u0 !! o = Some e \/ UtxoCodec.height e = h).
  { intros cb t u0 Hf. rewrite add_coins_union by (apply coins_NoDup; unfold outputs_fit in Hf; lia).
    intros [Hin|[_ Hin]]%lookup_union_Some_raw; [right|by left].
    apply elem_of_list_to_map_2, coins_spec in Hin as (i & out & _ & _ & _ & ->). done. }
  unfold ledger_block. destruct (txdata block) as [|cb txs]; [done|]. intros E [Hf Hfit]%Forall_cons Hu'.
  enough (H : add_coins (tx_coins h mtp true cb) u !! o = Some e \/ UtxoCodec.height e = h).
  { destruct H as [H|H]; [|by right]. by apply (Hadd true cb). }
  revert ess E. generalize (add_coins (tx_coins h mtp true cb) u). clear u Hf.
  induction txs as [|t txs IH]; intros u ess E; cbn [ledger_txs] in E; [injection E as <- <-; by left|].
  apply bind_Some in E as ([es1 u1] & E1 & E). apply bind_Some in E as ([ess1 u2] & E2 & E). injection E as <- <-.
  unfold ledger_tx in E1. apply bind_Some in E1 as ([es0 u0] & Es & E1). injection E1 as <- <-.
  apply Forall_cons in Hfit as [Hft Hfit]. destruct (IH Hfit _ _ E2) as [H|H]; [|by right].
  apply (Hadd false t _ Hft) in H as [H|H]; [|by right]. left. rewrite (spend_lookup _ _ _ _ _ Es) in H.
  by destruct (decide _).
Qed.

(** The set grows by the outputs of the block at most. *)
Definition outputs_count (b : Block) : nat := sum_list_with (fun t => length (tx_output t)) (txdata b).

Lemma add_coins_size h mtp cb t u : (size (add_coins (tx_coins h mtp cb t) u) <= size u + length (tx_output t))%nat.
Proof.
  assert (Hl : forall l u0, (size (add_coins l u0) <= size u0 + length l)%nat).
  { induction l as [|[o e] l IH]; intros u0; cbn [length]; [change (add_coins [] u0) with u0; lia|].
    change (add_coins ((o, e) :: l) u0) with (add_coins l (<[o:=e]> u0)). specialize (IH (<[o:=e]> u0)).
    pose proof (map_size_insert o e u0) as Hs. destruct (u0 !! o); cbn in Hs; lia. }
  assert (Hc : forall id outputs i, (length (coins id outputs i h mtp cb) <= length outputs)%nat).
  { intros id outputs. induction outputs as [|o outputs IH]; intros i; [done|]. cbn [coins length]. specialize (IH (S i)).
    destruct (is_unspendable_script _); cbn [length]; lia. }
  specialize (Hl (tx_coins h mtp cb t) u). specialize (Hc (compute_txid t) (tx_output t) 0%nat). unfold tx_coins in *. lia.
Qed.

Lemma spend_size ops u es u' : spend ops u = Some (es, u') -> (size u' <= size u)%nat.
Proof.
  revert u es. induction ops as [|o ops IH]; intros u es E; cbn [spend] in E; [by injection E as <- <-|].
  apply bind_Some in E as (e & He & E). apply bind_Some in E as ([es1 u1] & E1 & E). injection E as <- <-.
  apply IH in E1. pose proof (map_size_delete o u) as Hs. rewrite He in Hs. cbn in Hs. lia.
Qed.

Lemma ledger_size h mtp block u ess u' :
  ledger_block h mtp block u = Some (ess, u') -> (size u' <= size u + outputs_count block)%nat.
Proof.
  unfold ledger_block, outputs_count. destruct (txdata block) as [|cb txs]; [done|]. cbn [sum_list_with].
  pose proof (add_coins_size h mtp true cb u) as Hcb. revert ess Hcb. generalize (add_coins (tx_coins h mtp true cb) u).
  intros u1 ess Hcb E. enough (size u' <= size u1 + sum_list_with (fun t => length (tx_output t)) txs)%nat by lia.
  clear Hcb. revert u1 ess E. induction txs as [|t txs IH]; intros u1 ess E; cbn [ledger_txs sum_list_with] in *; [injection E as <- <-; lia|].
  apply bind_Some in E as ([es1 u2] & E1 & E). apply bind_Some in E as ([ess1 u3] & E2 & E). injection E as <- <-.
  unfold ledger_tx in E1. apply bind_Some in E1 as ([es0 u0] & Es & E1). injection E1 as <- <-.
  apply IH in E2. apply spend_size in Es. pose proof (add_coins_size h mtp false t u0). lia.
Qed.

(** A block of the ledger makes no more than the subsidy. *)
Lemma connects_total h mtp subsidy block u entries ess u' :
  connects h mtp subsidy block u entries ess u' -> block_fresh u block -> Forall outputs_fit (txdata block) ->
  Forall outputs_ok (txdata block) -> NoDup (map compute_txid (txdata block)) -> amounts_ok u ->
  Forall (Forall (fun e => 0 <= entry_value e)) ess /\ utxo_total u' <= utxo_total u + subsidy.
Proof.
  intros Hc Hfresh Hfit Hok Hnd Hu. pose proof (cn_ledger _ _ _ _ _ _ _ _ Hc) as Hl. pose proof (cn_money _ _ _ _ _ _ _ _ Hc) as Hm.
  unfold ledger_block in Hl. destruct (txdata block) as [|cb txs] eqn:Htx; [done|].
  destruct (block_absent u block cb txs h mtp Htx Hfresh) as [Ha Habs]; [by rewrite Htx..|].
  apply Forall_cons in Hfit as [Hf Hfit]. apply Forall_cons in Hok as [Ho Hok]. apply NoDup_cons in Hnd as [_ Hnd].
  destruct (ledger_txs_total _ _ _ _ _ _ Hl Hfit Hok Hnd Habs) as [Hn Ht]; [by apply add_coins_amounts|].
  split; [done|]. pose proof (tx_coins_total h mtp true cb u Hf Ho Ha).
  change (sum (map output_value (cb :: txs))) with (output_value cb + sum (map output_value txs)) in Hm. lia.
Qed.

(** The undo data takes a block of the ledger back. *)
Lemma ledger_disconnect n h mtp block u ess u' :
  ledger_block h mtp block u = Some (ess, u') -> Forall2 balanced (tail (txdata block)) ess ->
  Forall outputs_fit (txdata block) -> NoDup (map compute_txid (txdata block)) -> block_fresh u block ->
  Forall (Forall (fun e => 0 <= entry_value e)) ess ->
  disconnect_block_from_utxos u' block ([] :: map (map undo_of) ess) = Ok u /\
  disconnect_block_for_verification n u' block h ([] :: map (map undo_of) ess) = Ok u.
Proof.
  intros Hl Hbal Hfit Hnd Hf Hn. unfold ledger_block in Hl. destruct (txdata block) as [|cb txs] eqn:Htx; [done|].
  destruct (block_absent u block cb txs h mtp Htx Hf) as [Ha Habs]; [by rewrite Htx..|]. cbn [tail] in Hbal.
  unfold disconnect_block_for_verification, disconnect_block_from_utxos.
  rewrite (validate_undo_ok block cb txs ess Htx Hbal Hn), Htx. cbn [rbind length seq zip_with rev].
  apply Forall_cons in Hfit as [Hfcb Hfit]. apply NoDup_cons in Hnd as [_ Hnd].
  destruct (disconnect_txs h mtp txs ess _ u' [[]] Hl Hbal Hfit Hnd Habs) as [Hd Hv]; [done|].
  cbn [length app] in Hd, Hv. rewrite disconnect_loop_app, verify_disconnect_loop_app, Hd, Hv.
  cbn [rbind disconnect_loop verify_disconnect_loop]. rewrite bool_decide_true by done.
  rewrite remove_outputs, remove_created_tx by done. cbn [rbind]. split; [done|].
  by destruct (is_bip30_repeat _ _ _).
Qed.
End Blocks.

(** ** Spent entries are optional *)

Section Retention.
Context {Ops : BitcoinOps} {HOps : HeaderOps} {SOps : ScriptOps}.

Definition forget (pg : Progress) : Progress :=
  {| pg_spent_entries := []; pg_spent := pg_spent pg; pg_created := pg_created pg; pg_same_block := pg_same_block pg;
     pg_fees := pg_fees pg; pg_sigop_cost := pg_sigop_cost pg; pg_prevout_sat := pg_prevout_sat pg;
     pg_new_outputs_sat := pg_new_outputs_sat pg; pg_unspendable_sat := pg_unspendable_sat pg; pg_jobs := pg_jobs pg |}.

Definition forget_entries (a : BlockApplication) : BlockApplication :=
  {| spent_entries := []; spent_outpoints := spent_outpoints a; created_entries := created_entries a;
     same_block_spent := same_block_spent a; metrics := metrics a |}.

Definition rmap {E A B} (f : A -> B) (r : result E A) : result E B := match r with Ok x => Ok (f x) | Err e => Err e end.

Lemma rmap_bind {E A A' B B'} (f : A -> A') (g : B -> B') (r : result E A) (r' : result E A') k k' :
  r' = rmap f r -> (forall x, k' (f x) = rmap g (k x)) -> rbind r' k' = rmap g (rbind r k).
Proof. intros -> H. destruct r; [apply H|done]. Qed.

Section Loop.
Context (params : DeploymentParameters) (block : Block) (h mtp : Z) (skip : bool).
Abbreviation keep := (block_context params block h mtp skip true).
Abbreviation drop_entries := (block_context params block h mtp skip false).
Abbreviation forget2 := (fun p : Progress * TxProgress => (forget p.1, p.2)).

Lemma process_entry_forget t input e pg tp :
  process_entry drop_entries t input e (forget pg) tp = rmap forget2 (process_entry keep t input e pg tp).
Proof.
  unfold process_entry. cbn [bc_height bc_lock_time_cutoff bc_csv_active bc_retain_spent_entries bc_skip_script_checks
    bc_flags block_context]. destruct (negb _); [|done]. destruct (validate_transaction_sequence_lock_input _ _ _ _ _ _ _); [|done].
  cbn [rbind]. destruct (ok_or _ _); [|done]. cbn [rbind]. by destruct (_ <=? _).
Qed.

Lemma process_inputs_forget u t id inputs pg tp :
  process_inputs drop_entries u t id inputs (forget pg) tp = rmap forget2 (process_inputs keep u t id inputs pg tp).
Proof.
  revert pg tp. induction inputs as [|input inputs IH]; intros pg tp; [done|]. cbn [process_inputs].
  apply (rmap_bind forget2); [|by intros [pg' tp']; apply IH]. unfold process_input. destruct (negb _); [|done].
  change (pg_spent (forget pg)) with (pg_spent pg). change (pg_created (forget pg)) with (pg_created pg).
  destruct (negb _); [|done]. destruct (pg_created pg !! _) as [e|]; [apply (process_entry_forget t input e (mark_spent _ true pg))|].
  destruct (u !! _) as [e|]; [|done]. apply (process_entry_forget t input e (mark_spent _ false pg)).
Qed.

Lemma create_outputs_forget id outputs index pg :
  create_outputs drop_entries id outputs index (forget pg) = forget (create_outputs keep id outputs index pg).
Proof. revert index pg. induction outputs as [|o outputs IH]; intros index pg; [done|]. cbn [create_outputs]. by rewrite <- IH. Qed.

Lemma process_transactions_forget u l pg :
  process_transactions drop_entries u l (forget pg) = rmap forget (process_transactions keep u l pg).
Proof.
  revert pg. induction l as [|[t id] l IH]; intros pg; [done|]. cbn [process_transactions].
  apply (rmap_bind forget); [|by intros; apply IH]. unfold process_transaction.
  apply (rmap_bind (fun x => x)); [by cbn; destruct (validate_transaction_absolute_finality _ _ _)|]. intros _.
  apply (rmap_bind forget2); [apply process_inputs_forget|]. intros [pg1 tp1]. cbn [fst snd].
  cbn [bc_skip_script_checks bc_flags block_context pg_sigop_cost pg_jobs pg_fees forget].
  destruct (_ <=? MAX_BLOCK_SIGOP_COST); [|done]. destruct (ok_or _ _); [|done]. cbn [rbind].
  destruct (_ <=? _); [|done]. destruct (ok_or _ _); [|done]. cbn [rbind]. destruct (_ <=? _); [|done].
  cbn [rmap]. f_equal. exact (create_outputs_forget _ _ _ (set_totals _ _ _ pg1)).
Qed.
End Loop.

(** Without the spent entries the validation gives the same verdict and the
    same sets. *)
Lemma validate_retention c params cache block ids h u mtp skip :
  validate_block_transactions c params cache block ids h u mtp skip false =
  rmap forget_entries (validate_block_transactions c params cache block ids h u mtp skip true).
Proof.
  unfold validate_block_transactions. destruct (_ =? _); [|done].
  apply (rmap_bind (fun x => x)); [by destruct (if enforce_bip30 _ _ _ _ _ then _ else _)|]. intros _.
  destruct (txdata block) as [|cb txs]; [done|].
  assert (Hm : forall (r : result ValidationError BlockApplication) r', r' = rmap forget_entries r ->
    map_err Invalid r' = rmap forget_entries (map_err Invalid r)) by (by intros [] ? ->).
  apply Hm. apply (rmap_bind (fun x => x)); [by cbn; destruct (validate_transaction_absolute_finality _ _ _)|]. intros _.
  cbn [bc_flags block_context]. destruct (_ <=? MAX_BLOCK_SIGOP_COST); [|done].
  apply (rmap_bind forget); [apply (process_transactions_forget params block h mtp skip u _ (start_progress _))|].
  intros pg. apply (rmap_bind (fun x => x)); [by destruct skip; [|destruct (validate_script_checks _ _ _)]|]. intros _.
  unfold finish_block. cbn [pg_fees pg_unspendable_sat forget]. destruct (ok_or _ _); [|done]. cbn [rbind].
  destruct (_ <=? _); [|done]. by destruct (if is_bip30_unspendable _ _ _ then _ else _).
Qed.

(** ** Transaction ids *)

Lemma process_inputs_spent b u t id inputs pg tp pg' tp' :
  process_inputs b u t id inputs pg tp = Ok (pg', tp') ->
  pg_spent pg ⊆ pg_spent pg' /\ forall o, o ∈ map previous_output inputs -> (o ∉ pg_spent pg) /\ o ∈ pg_spent pg'.
Proof.
  revert pg tp. induction inputs as [|input inputs IH]; intros pg tp E; cbn [process_inputs] in E.
  { apply Ok_inj in E. injection E as <- <-. split; [done|]. by intros o ?%not_elem_of_nil. }
  apply rbind_Ok in E as ([pg1 tp1] & E1 & E). destruct (IH _ _ E) as [Hsub Hin].
  assert (H1 : (previous_output input ∉ pg_spent pg) /\ pg_spent pg1 = {[previous_output input]} ∪ pg_spent pg).
  { unfold process_input in E1. destruct (negb _) in E1; [|done].
    destruct (bool_decide (_ ∈ pg_spent pg)) eqn:Es; [done|]. apply bool_decide_eq_false in Es. cbn [negb] in E1. split; [done|].
    assert (He : forall e m, process_entry b t input e m (mark_tx_spent (previous_output input) tp) = Ok (pg1, tp1) ->
      pg_spent pg1 = pg_spent m).
    { intros e m. unfold process_entry. destruct (negb _); [|done]. intros (? & _ & H)%rbind_Ok.
      apply rbind_Ok in H as (? & _ & H). destruct (_ <=? MAX_MONEY); [|done]. apply Ok_inj in H. by injection H as <- _. }
    destruct (pg_created pg !! _); [by apply He in E1|]. apply rbind_Ok in E1 as (e & _ & E1). by apply He in E1. }
  destruct H1 as [Hn H1]. rewrite H1 in Hsub, Hin. split; [set_solver|]. cbn [map].
  intros o [->|Ho]%elem_of_cons; [set_solver|]. destruct (Hin o Ho). set_solver.
Qed.

(** Transactions that spend something are pairwise different. *)
Lemma process_transactions_distinct b u txs pg pg' :
  process_transactions b u (zip txs (map compute_txid txs)) pg = Ok pg' ->
  Forall (fun t => tx_input t <> []) txs ->
  (forall t t', compute_txid t = compute_txid t' -> tx_inputs t = tx_inputs t') ->
  NoDup (map compute_txid txs) /\
  forall t o, t ∈ txs -> o ∈ tx_inputs t -> o ∉ pg_spent pg.
Proof.
  intros E Hne Hid. revert pg E. induction txs as [|t txs IH]; intros pg E.
  { split; [constructor|]. by intros t o ?%not_elem_of_nil. }
  apply Forall_cons in Hne as [Ht Hne]. cbn [map zip_with process_transactions] in E.
  apply rbind_Ok in E as (pg1 & E1 & E). destruct (IH Hne _ E) as [Hnd Hout].
  unfold process_transaction in E1. apply rbind_Ok in E1 as (_ & _ & E1). apply rbind_Ok in E1 as ([pg2 tp2] & E2 & E1).
  destruct (_ <=? MAX_BLOCK_SIGOP_COST) in E1; [|done]. apply rbind_Ok in E1 as (? & _ & E1). destruct (_ <=? _) in E1; [|done].
  apply rbind_Ok in E1 as (? & _ & E1). destruct (_ <=? _) in E1; [|done]. apply Ok_inj in E1 as <-.
  destruct (process_inputs_spent _ _ _ _ _ _ _ _ _ E2) as [Hsub Hin].
  pose proof (create_outputs_same b (compute_txid t) (tx_output t) 0) as Hc.
  assert (Hs : forall t' o, t' ∈ txs -> o ∈ tx_inputs t' -> o ∉ pg_spent pg2).
  { intros t' o Ht' Ho Hin'. apply (Hout t' o Ht' Ho). by destruct (Hc (set_totals x0 (sat_add 64 (pg_sigop_cost pg2)
      (if bc_skip_script_checks b then tp_sigop_cost tp2 else transaction_sigop_cost t (tp_previous_outputs tp2) (bc_flags b)))
      (if bc_skip_script_checks b then pg_jobs pg2 else pg_jobs pg2 ++ [(t, tp_previous_outputs tp2)]) pg2)) as (_ & -> & _). }
  split.
  - apply NoDup_cons. split; [|done]. intros (t' & Heq & Ht')%list_elem_of_fmap. destruct (tx_input t) as [|i l] eqn:Ei; [done|].
    apply (Hs t' (previous_output i) Ht'); [rewrite <- (Hid _ _ Heq); unfold tx_inputs; rewrite Ei; left|].
    apply Hin. left.
  - intros t' o [->|Ht']%elem_of_cons Ho; [by apply Hin|]. intros Ho'. by apply (Hs t' o Ht' Ho), Hsub.
Qed.

Lemma validate_distinct c params cache block h u mtp skip retain a :
  validate_block_transactions c params cache block (map compute_txid (txdata block)) h u mtp skip retain = Ok a ->
  Forall (fun t => tx_input t <> []) (txdata block) ->
  (forall cb t, hd_error (txdata block) = Some cb -> t ∈ tail (txdata block) -> tx_inputs t <> tx_inputs cb) ->
  (forall t t', compute_txid t = compute_txid t' -> tx_inputs t = tx_inputs t') ->
  NoDup (map compute_txid (txdata block)).
Proof.
  unfold validate_block_transactions. intros E Hne Hcb Hid. destruct (_ =? _) in E; [|done].
  apply rbind_Ok in E as (r & _ & E). destruct (txdata block) as [|cb txs]; [done|].
  apply map_err_Ok in E. apply rbind_Ok in E as (_ & _ & E). destruct (_ <=? MAX_BLOCK_SIGOP_COST); [|done].
  apply rbind_Ok in E as (pg & Epg & E). cbn [map zip_with tail] in Epg. apply Forall_cons in Hne as [_ Hne].
  destruct (process_transactions_distinct _ _ _ _ _ Epg Hne Hid) as [Hnd _]. cbn [map]. apply NoDup_cons. split; [|done].
  intros (t & Heq & Ht)%list_elem_of_fmap. apply (Hcb cb t); [done|done|]. symmetry. by apply Hid.
Qed.
End Retention.

(** ** Accepted blocks *)

Section Accepted.
Context {Ops : BitcoinOps} {HOps : HeaderOps} {SOps : ScriptOps}.
Context (c : ChainState) (params : DeploymentParameters) (cache : gset bytes) (block : Block) (h mtp : Z)
        (u : gmap OutPoint StoredUtxo) (skip_script_checks : bool) (a : BlockApplication).

Hypothesis accepted : validate_block_transactions c params cache block (map compute_txid (txdata block)) h u mtp
                        skip_script_checks true = Ok a.
(** Distinct transactions have distinct ids, and output indices fit 32 bits. *)
Hypothesis distinct_ids : NoDup (map compute_txid (txdata block)).
Hypothesis indices_fit : Forall outputs_fit (txdata block).
(** Where BIP30 is not enforced the outputs are new for another reason. *)
Hypothesis outputs_new :
  enforce_bip30 c params h (block_hash block) (prev_blockhash (blk_header block)) = false -> block_fresh u block.

Lemma accepted_connects :
  block_fresh u block /\ exists cb txs ess u', txdata block = cb :: txs /\
    connects h mtp (block_subsidy_for_network (ChainIndex.network c) h) block u (spent_entries a) ess u'.
Proof.
  destruct (connect_ledger _ _ _ _ _ _ _ _ _ accepted indices_fit distinct_ids outputs_new) as [Hf (ess & u' & Hc)].
  split; [done|]. pose proof (cn_ledger _ _ _ _ _ _ _ _ Hc) as Hl. unfold ledger_block in Hl.
  destruct (txdata block) as [|cb txs]; [done|]. by exists cb, txs, ess, u'.
Qed.

Lemma accepted_undo cb txs ess u' :
  txdata block = cb :: txs ->
  connects h mtp (block_subsidy_for_network (ChainIndex.network c) h) block u (spent_entries a) ess u' ->
  cache_block_undo block (spent_entries a) = Ok ([] :: map (map undo_of) ess).
Proof.
  intros Htx Hc. unfold cache_block_undo. rewrite (cn_entries _ _ _ _ _ _ _ _ Hc).
  pose proof (cn_balanced _ _ _ _ _ _ _ _ Hc) as Hbal. apply (group_undo_spec _ _ [] [[]] Hbal).
Qed.

(** C10: A block whose transactions pass contextual validation is a block of
    the ledger that executes transactions one after the other: every input
    finds its coin unspent at its turn, inside the block or before it.  The
    node's batch update of the set gives exactly the ledger's set, and the
    undo data it stores is exactly the coins each transaction spent. *)
Theorem connect_refines_ledger :
  exists ess u', ledger_block h mtp block u = Some (ess, u') /\
    apply_block_to_utxos u block h mtp (spent_entries a) = u' /\
    cache_block_undo block (spent_entries a) = Ok ([] :: map (map undo_of) ess).
Proof.
  destruct accepted_connects as (_ & cb & txs & ess & u' & Htx & Hc). exists ess, u'.
  split; [apply Hc|]. split; [apply Hc|]. by apply (accepted_undo cb txs ess u').
Qed.

(** Amounts are unsigned. *)
Hypothesis amounts_u : amounts_ok u.
Hypothesis amounts_block : Forall outputs_ok (txdata block).

Lemma accepted_totals cb txs ess u' :
  txdata block = cb :: txs -> block_fresh u block ->
  connects h mtp (block_subsidy_for_network (ChainIndex.network c) h) block u (spent_entries a) ess u' ->
  Forall (Forall (fun e => 0 <= entry_value e)) ess /\
  utxo_total u' <= utxo_total u + block_subsidy_for_network (ChainIndex.network c) h.
Proof.
  intros _ Hfresh Hc. by apply (connects_total _ _ _ _ _ _ _ _ Hc).
Qed.

(** C3: No inflation: connecting an accepted block raises the total value of
    all unspent outputs by at most the block subsidy. *)
Theorem connect_no_inflation :
  utxo_total (apply_block_to_utxos u block h mtp (spent_entries a)) <=
  utxo_total u + block_subsidy_for_network (ChainIndex.network c) h.
Proof.
  destruct accepted_connects as (Hf & cb & txs & ess & u' & Htx & Hc).
  rewrite (cn_apply _ _ _ _ _ _ _ _ Hc). by apply (accepted_totals cb txs ess u').
Qed.

End Accepted.

(** ** A block with a chain of two transactions *)

Definition toy_scripts : ScriptOps := {|
  is_op_return s := match s with 0x6a :: _ => true | _ => false end;
  is_p2sh _ := false;
  is_push_only _ := true;
  is_witness_program _ := false;
  is_p2wpkh _ := false;
  is_p2wsh _ := false;
  count_sigops _ := 0;
  last_instruction _ := None;
  verify_transaction_scripts _ _ _ := Ok tt;
  script_cache_key _ _ := [] |}.

Definition pay (v : Z) (script : bytes) : TxOut := {| value := v; script_pubkey := script |}.
Definition coin_id (n : Z) (i : Z) : OutPoint := {| txid := repeat n 32; vout := i |}.
Definition spending (ops : list OutPoint) (outputs : list TxOut) : Transaction :=
  {| tx_version := 1; tx_lock_time := 0;
     tx_input := map (fun o => {| previous_output := o; script_sig := []; sequence := 0xffffffff; witness := [] |}) ops;
     tx_output := outputs |}.

(** The second transaction spends an output of the first, which also carries
    an unspendable output. *)
Definition two_transactions : Block :=
  {| blk_header := blk_header toy_block;
     txdata := [spending [coin_id 0 0xffffffff] [pay 5000000010 [0x51]];
                spending [coin_id 9 0] [pay 990 [0x51]; pay 0 [0x6a]];
                spending [coin_id 2 0; coin_id 9 1] [pay 500 [0x51]; pay 300 [0x52]; pay 400 [0x51]]] |}.

Definition two_coins : gmap OutPoint StoredUtxo :=
  <[coin_id 9 0 := {| output := pay 1000 [0x51]; height := 1; median_time_past := 5; coinbase := true |}]>
  (<[coin_id 9 1 := {| output := pay 210 [0x51]; height := 40; median_time_past := 6; coinbase := false |}]> ∅).

Definition two_application : result ConnectError BlockApplication :=
  validate_block_transactions (Ops:=toy_ops) (HOps:=toy_headers) (SOps:=toy_scripts) empty_chain (for_network Testnet) ∅
    two_transactions (map (@compute_txid toy_ops) (txdata two_transactions)) 101 two_coins 50 false true.
Definition empty_application : BlockApplication :=
  {| spent_entries := []; spent_outpoints := ∅; created_entries := ∅; same_block_spent := ∅;
     metrics := {| prevout_spent_sat := 0; new_outputs_ex_coinbase_sat := 0; coinbase_sat := 0;
                   unspendable_scripts_sat := 0; unspendable_bip30_sat := 0; subsidy_sat := 0 |} |}.
Definition two_result : BlockApplication := res_get two_application empty_application.

Lemma two_accepted :
  validate_block_transactions (Ops:=toy_ops) (HOps:=toy_headers) (SOps:=toy_scripts) empty_chain (for_network Testnet) ∅
    two_transactions (map (@compute_txid toy_ops) (txdata two_transactions)) 101 two_coins 50 false true = Ok two_result.
Proof. apply (res_ok_get _ empty_application). by vm_compute. Qed.
Lemma two_distinct : NoDup (map (@compute_txid toy_ops) (txdata two_transactions)).
Proof. apply (bool_decide_unpack _). by vm_compute. Qed.
Lemma two_fit : Forall outputs_fit (txdata two_transactions).
Proof. repeat constructor; unfold outputs_fit; simpl; lia. Qed.
Lemma two_fresh : @block_fresh toy_ops two_coins two_transactions.
Proof.
  intros t o Ht Ho. apply (bip30_fresh (Ops:=toy_ops) two_coins (txdata two_transactions)) with t; [by vm_compute|done|done].
Qed.
Lemma two_amounts : amounts_ok two_coins.
Proof.
  unfold two_coins, amounts_ok. repeat apply map_Forall_insert_2; [unfold entry_value; simpl; lia..|apply map_Forall_empty].
Qed.
Lemma two_outputs : Forall outputs_ok (txdata two_transactions).
Proof. repeat constructor; simpl; lia. Qed.

Lemma connect_refines_ledger_witness :
  exists ess u', ledger_block (Ops:=toy_ops) (SOps:=toy_scripts) 101 50 two_transactions two_coins = Some (ess, u') /\
    apply_block_to_utxos (Ops:=toy_ops) (SOps:=toy_scripts) two_coins two_transactions 101 50 (spent_entries two_result) = u' /\
    cache_block_undo two_transactions (spent_entries two_result) = Ok ([] :: map (map undo_of) ess).
Proof.
  pose proof (connect_refines_ledger (Ops:=toy_ops) (HOps:=toy_headers) (SOps:=toy_scripts) empty_chain (for_network Testnet) ∅
    two_transactions 101 50 two_coins false two_result two_accepted two_distinct two_fit (fun _ => two_fresh)) as H.
  exact H.
Defined.

Lemma connect_no_inflation_witness :
  utxo_total (apply_block_to_utxos (Ops:=toy_ops) (SOps:=toy_scripts) two_coins two_transactions 101 50 (spent_entries two_result)) <=
  utxo_total two_coins + block_subsidy_for_network (ChainIndex.network empty_chain) 101.
Proof.
  pose proof (connect_no_inflation (Ops:=toy_ops) (HOps:=toy_headers) (SOps:=toy_scripts) empty_chain (for_network Testnet) ∅
    two_transactions 101 50 two_coins false two_result two_accepted two_distinct two_fit (fun _ => two_fresh)
    two_amounts two_outputs) as H.
  exact H.
Defined.

