(* ===== verification/HeaderChecks.v ===== *)
(** * Header validation ([chain.rs], [validation.rs])

    The contextual checks of a header against its parent, and the
    acceptance of a batch of headers into the index.  The checks read only
    the ancestors of the parent, so they keep their answer while the index
    and the clock grow. *)

From Stdlib Require Import ZArith Lia.
From stdpp Require Import base list option gmap sets.
From S2P Require Import Prelude Types VersionBits BlockChecks ChainIndex ConnectBlock.
Local Open Scope Z_scope.

(** What the [bitcoin] crate computes of a header besides [HeaderOps]. *)
Class PowOps := {
  header_hash : Header -> bytes;
  (** [Target::is_met_by] *)
  is_met_by : Z -> bytes -> bool;
  (** [Target::to_compact_lossy().to_consensus()] *)
  to_compact_lossy : Z -> Z;
}.

(** What the node is configured with. *)
Record Config := {
  cf_params : DeploymentParameters;
  cf_signet_challenge : option bytes;
  cf_software_expiry : Z;
  cf_assume_valid : option bytes;
  cf_minimum_chain_work : Z;
  cf_max_tip_age_secs : Z;
  cf_genesis : Block;
}.

Section Headers.
Context {Ops : BitcoinOps} {HOps : HeaderOps} {POps : PowOps}.

(** ** The header itself *)

Definition validate_bip94_timewarp_with_params (params : DeploymentParameters) (height block_time previous_block_time : Z)
  : result ValidationError () :=
  if negb (bip94 params) then Ok ()
  else
    check? negb ((height `mod` difficulty_adjustment_interval (VersionBits.network params) =? 0) &&
                 (block_time <? sat_sub previous_block_time 600)) else Bip94TimeWarp in
    Ok ().

Definition compact_valid (hd : Header) : bool :=
  negb (Z.land (hd_bits hd) 0x007fffff =? 0) && (Z.land (hd_bits hd) 0x00800000 =? 0) && negb (target hd =? 0).

Definition validate_header_internal (n : Network) (hd : Header) (expected_previous : bytes)
  (expected_target median_time_past now : Z) (check_pow : bool) : result ValidationError () :=
  check? bool_decide (prev_blockhash hd = expected_previous) else WrongPreviousBlock in
  check? median_time_past <? hd_time hd else TimeTooOld in
  check? hd_time hd <=? sat_add 64 now 7200 else TimeTooNew in
  let? _ :=
    if check_pow then
      check? compact_valid hd && (target hd <=? max_attainable_target n) && is_met_by (target hd) (header_hash hd)
        else BadProofOfWork in Ok ()
    else check? compact_valid hd else BadTarget in Ok () in
  check? (target hd =? expected_target) && (hd_bits hd =? to_compact_lossy expected_target) else BadTarget in
  check? target hd <=? max_attainable_target n else TargetAboveLimit in
  Ok ().

(** ** Headers from the genesis block *)

Fixpoint headers_loop (fuel : nat) (c : ChainState) (cursor : bytes) (acc : list Header) : option (list Header) :=
  match fuel with
  | O => None
  | S fuel =>
      node ← block_index c !! cursor;
      if ChainIndex.height node =? 0 then Some (ChainIndex.header node :: acc)
      else headers_loop fuel c (prev_blockhash (ChainIndex.header node)) (ChainIndex.header node :: acc)
  end.

Definition headers_to_hash_cow (c : ChainState) (hash : bytes) : option (list Header) :=
  node ← block_index c !! hash;
  if active_at c (ChainIndex.height node) hash && (Z.to_nat (ChainIndex.height node) <? length (headers c))%nat
  then Some (take (S (Z.to_nat (ChainIndex.height node))) (headers c))
  else headers_loop (walk_fuel c hash) c hash [].

Fixpoint times_for_hash (n : nat) (c : ChainState) (cursor : bytes) : option (list Z) :=
  match n with
  | O => Some []
  | S n =>
      node ← block_index c !! cursor;
      if ChainIndex.height node =? 0 then Some [hd_time (ChainIndex.header node)]
      else times ← times_for_hash n c (prev_blockhash (ChainIndex.header node));
           Some (hd_time (ChainIndex.header node) :: times)
  end.

Definition median_time_past_for_hash (c : ChainState) (hash : bytes) : option Z :=
  times ← times_for_hash 11 c hash; median_time times.

(** ** In the context of the parent *)

Definition mandatory_version_bits_window (params : DeploymentParameters) (height : Z) : bool :=
  existsb (fun d => negb (MAX_ACTIVATION_HEIGHT <=? max_activation_height d) && in_window d height) (bip9 params).

Definition validate_header_context (cf : Config) (c : ChainState) (now : Z) (hd : Header) (parent_hash : bytes)
  (expected_target : option Z) (median : option Z) (check_pow : bool) : result ConnectError () :=
  let? expected_target := ok_or expected_target Bail in
  let? median := ok_or median Bail in
  let? _ := map_err Invalid
    (validate_header_internal (ChainIndex.network c) hd parent_hash expected_target median now check_pow) in
  let? parent := ok_or (block_index c !! parent_hash) Bail in
  let h := sat_add 32 (ChainIndex.height parent) 1 in
  let? _ :=
    if mandatory_version_bits_window (cf_params cf) h then
      let? hds := ok_or (headers_to_hash_cow c parent_hash) Bail in
      match validate_mandatory_version_bits_with_params hds (cf_params cf) h (hd_version hd) with
      | Some None => Ok ()
      | Some (Some d) => Err (Invalid (BadVersionBits (bit d) (max_activation_height d)))
      | None => Err Bail
      end
    else Ok () in
  if (0 <? cf_software_expiry cf) && (cf_software_expiry cf <? hd_time hd) then
    let? old_hash := ok_or (ancestor_hash c parent_hash (sat_sub (ChainIndex.height parent) 144)) Bail in
    let? old_median_time := ok_or (median_time_past_for_hash c old_hash) Bail in
    check? old_median_time <=? cf_software_expiry cf else Invalid NodeExpired in
    Ok ()
  else Ok ().

(** The checks of a header above its indexed parent, as made for every body. *)
Definition validate_header_above (cf : Config) (c : ChainState) (now : Z) (hd : Header) (parent : BlockNode)
  : result ConnectError () :=
  let? _ := map_err Invalid
    (validate_bip94_timewarp_with_params (cf_params cf) (sat_add 32 (ChainIndex.height parent) 1) (hd_time hd) (hd_time (ChainIndex.header parent))) in
  validate_header_context cf c now hd (prev_blockhash hd)
    (expected_target_for_parent c (prev_blockhash hd) (hd_time hd))
    (median_time_past_for_parent c (prev_blockhash hd)) true.

(** ** Accepting headers *)

Definition accept_header (cf : Config) (now : Z) (hd : Header) (c : ChainState) : ChainState * result ConnectError bytes :=
  let hash := header_hash hd in
  match block_index c !! hash with
  | Some existing =>
      (c, check? bool_decide (ChainIndex.header existing = hd) else Bail in
          check? negb (has_invalid_ancestor c hash) else Bail in
          Ok hash)
  | None =>
      match block_index c !! prev_blockhash hd with
      | None => (c, Err Bail)
      | Some parent =>
          if has_invalid_ancestor c (prev_blockhash hd) then (c, Err Bail)
          else
            let h := sat_add 32 (ChainIndex.height parent) 1 in
            match
              let? _ := map_err Invalid
                (validate_bip94_timewarp_with_params (cf_params cf) h (hd_time hd) (hd_time (ChainIndex.header parent))) in
              let? _ := (match validate_block_version_with_params (cf_params cf) h (hd_version hd) with
                         | Some required => Err (Invalid (BadBlockVersion (hd_version hd) required))
                         | None => Ok ()
                         end) in
              validate_header_context cf c now hd (prev_blockhash hd)
                (expected_target_for_parent c (prev_blockhash hd) (hd_time hd))
                (median_time_past_for_parent c (prev_blockhash hd)) true
            with
            | Err e => (c, Err e)
            | Ok _ =>
                match index_header c hash hd with
                | Some c => (c, Ok hash)
                | None => (c, Err Bail)
                end
            end
      end
  end.

(** The headers before a failing one stay indexed. *)
Fixpoint accept_headers_internal (cf : Config) (now : Z) (hds : list Header) (c : ChainState)
  : ChainState * result ConnectError (list bytes) :=
  match hds with
  | [] => (c, Ok [])
  | hd :: hds =>
      match accept_header cf now hd c with
      | (c, Err e) => (c, Err e)
      | (c, Ok hash) =>
          let '(c, r) := accept_headers_internal cf now hds c in
          (c, let? hashes := r in Ok (hash :: hashes))
      end
  end.
End Headers.

(** ** The checks look at ancestors only *)

Section Stable.
Context {Ops : BitcoinOps} {HOps : HeaderOps} {POps : PowOps}.

(** The walk gives the headers of the active chain where both apply. *)
Section Paths.
Context (c : ChainState) (Hwf : index_wf c).

Lemma headers_loop_acc fuel hash acc :
  headers_loop fuel c hash acc = (fun l => l ++ acc) <$> headers_loop fuel c hash [].
Proof.
  revert hash acc. induction fuel as [|fuel IH]; intros hash acc; [done|]. simpl.
  destruct (block_index c !! hash) as [node|]; [|done]. simpl. destruct (_ =? 0); [done|].
  rewrite (IH _ (_ :: acc)), (IH _ [_]). destruct (headers_loop fuel c _ []) as [l|]; [|done]. simpl. by rewrite <- app_assoc.
Qed.

Lemma headers_loop_step fuel hash node :
  block_index c !! hash = Some node -> ChainIndex.height node <> 0 ->
  headers_loop (S fuel) c hash [] =
  (fun l => l ++ [ChainIndex.header node]) <$> headers_loop fuel c (prev_blockhash (ChainIndex.header node)) [].
Proof. intros E Hz. simpl. rewrite E. simpl. bfalse (ChainIndex.height node =? 0). apply headers_loop_acc. Qed.

Lemma headers_loop_fuel n m hash node :
  block_index c !! hash = Some node -> (Z.to_nat (ChainIndex.height node) < n)%nat -> (Z.to_nat (ChainIndex.height node) < m)%nat ->
  headers_loop n c hash [] = headers_loop m c hash [].
Proof.
  revert m hash node. induction n as [|n IH]; intros m hash node E Hn Hm; [lia|]. destruct m as [|m]; [lia|].
  destruct (Z.eq_dec (ChainIndex.height node) 0) as [Hz|Hz]; [simpl; rewrite E; simpl; by btrue (ChainIndex.height node =? 0)|].
  rewrite !(headers_loop_step _ hash node) by done. f_equal.
  destruct (wf_child c Hwf _ _ E Hz) as (parent & Ep & Hc). pose proof (child_height _ _ _ Hc).
  pose proof (wf_height c Hwf _ _ Ep). apply (IH _ _ parent); [done|lia|lia].
Qed.

Lemma headers_loop_active i hash :
  active_chain c !! i = Some hash -> headers_loop (S i) c hash [] = Some (take (S i) (headers c)).
Proof.
  revert hash. induction i as [|i IH]; intros hash Ea; destruct (wf_active c Hwf _ _ Ea) as (node & En & Hh & Ehd & Hprev);
    rewrite (take_S_r _ _ _ Ehd).
  - simpl. rewrite En. simpl. by btrue (ChainIndex.height node =? 0).
  - rewrite (headers_loop_step _ hash node) by (done || lia). by rewrite (IH _ (Hprev i eq_refl)).
Qed.

Lemma headers_to_hash_loop hash node :
  block_index c !! hash = Some node -> headers_to_hash_cow c hash = headers_loop (S (Z.to_nat (ChainIndex.height node))) c hash [].
Proof.
  intros E. unfold headers_to_hash_cow, walk_fuel. rewrite E. cbn [mbind option_bind].
  destruct (active_at c _ hash) eqn:Ea; cbn [andb].
  - unfold active_at in Ea. apply bool_decide_eq_true in Ea. pose proof (headers_loop_active _ _ Ea) as Hl.
    pose proof (lookup_lt_Some _ _ _ Ea). rewrite (wf_headers c Hwf).
    rewrite (proj2 (Nat.ltb_lt _ _)) by done. done.
  - apply (headers_loop_fuel _ _ _ node); [done|lia|lia].
Qed.
End Paths.

(** The index of [c'] extends the one of [c]; the active chains may differ. *)
Record extends_index (c c' : ChainState) : Prop := {
  ext_wf : index_wf c;
  ext_wf' : index_wf c';
  ext_sub : block_index c ⊆ block_index c';
  ext_network : ChainIndex.network c' = ChainIndex.network c;
}.

Section Extension.
Context (c c' : ChainState) (Hext : extends_index c c').

Lemma ext_lookup hash node : block_index c !! hash = Some node -> block_index c' !! hash = Some node.
Proof. intros E. exact (lookup_weaken _ _ _ _ E (ext_sub _ _ Hext)). Qed.

Lemma ancestor_hash_ext hash node h :
  block_index c !! hash = Some node -> 0 <= h <= ChainIndex.height node -> ancestor_hash c' hash h = ancestor_hash c hash h.
Proof.
  intros E Hh. rewrite (ancestor_hash_eq c' (ext_wf' _ _ Hext) hash node) by (done || by apply ext_lookup).
  rewrite (ancestor_hash_eq c (ext_wf _ _ Hext) hash node) by done.
  destruct (nth_parent_total c (ext_wf _ _ Hext) (Z.to_nat (ChainIndex.height node - h)) hash node E) as (a & _ & Ha & _); [lia|].
  rewrite Ha. by apply (nth_parent_mono (block_index c)), Ha; apply (ext_sub _ _ Hext).
Qed.

Lemma parent_indexed hash node :
  block_index c !! hash = Some node -> ChainIndex.height node <> 0 ->
  exists parent, block_index c !! prev_blockhash (ChainIndex.header node) = Some parent /\
    ChainIndex.height parent = ChainIndex.height node - 1.
Proof.
  intros E Hz. destruct (wf_child c (ext_wf _ _ Hext) _ _ E Hz) as (parent & Ep & Hc). exists parent. split; [done|].
  pose proof (child_height _ _ _ Hc). lia.
Qed.

Lemma parent_times_ext n hash node : block_index c !! hash = Some node -> parent_times n c' hash = parent_times n c hash.
Proof.
  revert hash node. induction n as [|n IH]; intros hash node E; [done|]. simpl. rewrite E, (ext_lookup _ _ E). f_equal.
  destruct (Z.eqb_spec (ChainIndex.height node) 0) as [|Hz]; [done|].
  destruct (parent_indexed hash node E Hz) as (parent & Ep & _). by apply (IH _ parent).
Qed.

Lemma median_ext hash node :
  block_index c !! hash = Some node -> median_time_past_for_parent c' hash = median_time_past_for_parent c hash.
Proof. intros E. unfold median_time_past_for_parent. by rewrite (parent_times_ext _ _ _ E). Qed.

Lemma times_for_hash_ext n hash node : block_index c !! hash = Some node -> times_for_hash n c' hash = times_for_hash n c hash.
Proof.
  revert hash node. induction n as [|n IH]; intros hash node E; [done|]. simpl. rewrite E, (ext_lookup _ _ E). simpl.
  destruct (Z.eqb_spec (ChainIndex.height node) 0) as [|Hz]; [done|].
  destruct (parent_indexed hash node E Hz) as (parent & Ep & _). by rewrite (IH _ parent Ep).
Qed.

Lemma last_real_target_ext fuel hash node interval :
  block_index c !! hash = Some node -> last_real_target fuel c' hash interval = last_real_target fuel c hash interval.
Proof.
  revert hash node. induction fuel as [|fuel IH]; intros hash node E; [done|]. simpl.
  rewrite E, (ext_lookup _ _ E), (ext_network _ _ Hext). simpl. destruct (_ || _) eqn:Eb; [done|]. bool_to_prop.
  destruct (Z.eq_dec (ChainIndex.height node) 0) as [Hz|Hz]; [by rewrite Hz, Zmod_0_l in *|].
  destruct (parent_indexed hash node E Hz) as (parent & Ep & _). by apply (IH _ parent).
Qed.

Lemma ancestor_hash_high hash node h :
  block_index c !! hash = Some node -> ChainIndex.height node < h -> ancestor_hash c' hash h = ancestor_hash c hash h.
Proof.
  intros E Hh. unfold ancestor_hash. rewrite E, (ext_lookup _ _ E). simpl. by btrue (ChainIndex.height node <? h).
Qed.

Lemma expected_target_ext hash node time :
  block_index c !! hash = Some node -> ChainIndex.height node < umax 32 ->
  0 < difficulty_adjustment_interval (ChainIndex.network c) ->
  expected_target_for_parent c' hash time = expected_target_for_parent c hash time.
Proof.
  intros E Hmax Hint. unfold expected_target_for_parent. rewrite E, (ext_lookup _ _ E), (ext_network _ _ Hext). cbn [mbind option_bind].
  destruct (no_pow_retargeting _); [done|]. destruct (negb _) eqn:Em.
  - by rewrite (last_real_target_ext _ _ _ _ E).
  - bool_to_prop. pose proof (wf_height c (ext_wf _ _ Hext) _ _ E) as Hh. unfold sat_add in *. rewrite Z.min_l in * by lia.
    set (interval := difficulty_adjustment_interval _) in *.
    assert (Hi : interval <= ChainIndex.height node + 1).
    { apply Z.mod_divide in Em as [k Hk]; [|lia]. assert (1 <= k) by nia. nia. }
    rewrite (ancestor_hash_ext hash node) by (done || lia).
    destruct (ancestor_hash c hash _) as [a|] eqn:Ea; [|done]. cbn [mbind option_bind].
    rewrite (ancestor_hash_eq c (ext_wf _ _ Hext) hash node) in Ea by (done || lia).
    destruct (nth_parent_total c (ext_wf _ _ Hext) (Z.to_nat (ChainIndex.height node - (ChainIndex.height node + 1 - interval))) hash node E)
      as (a' & an & Ha & Ean & _); [lia|].
    rewrite Ea in Ha. injection Ha as <-. by rewrite Ean, (ext_lookup _ _ Ean).
Qed.

Lemma headers_loop_ext fuel hash node :
  block_index c !! hash = Some node -> headers_loop fuel c' hash [] = headers_loop fuel c hash [].
Proof.
  revert hash node. induction fuel as [|fuel IH]; intros hash node E; [done|].
  destruct (Z.eq_dec (ChainIndex.height node) 0) as [Hz|Hz].
  - simpl. rewrite E, (ext_lookup _ _ E). simpl. by btrue (ChainIndex.height node =? 0).
  - rewrite (headers_loop_step c _ hash node), (headers_loop_step c' _ hash node) by (done || by apply ext_lookup).
    destruct (parent_indexed hash node E Hz) as (parent & Ep & _). by rewrite (IH _ parent Ep).
Qed.

Lemma headers_to_hash_ext hash node :
  block_index c !! hash = Some node -> headers_to_hash_cow c' hash = headers_to_hash_cow c hash.
Proof.
  intros E. rewrite (headers_to_hash_loop c (ext_wf _ _ Hext) _ node E).
  rewrite (headers_to_hash_loop c' (ext_wf' _ _ Hext) _ node) by (by apply ext_lookup). by apply (headers_loop_ext _ _ node).
Qed.

(** The checks of a header whose parent both have. *)
Lemma validate_header_above_eq cf now hd parent :
  block_index c !! prev_blockhash hd = Some parent -> ChainIndex.height parent < umax 32 ->
  0 < difficulty_adjustment_interval (ChainIndex.network c) ->
  validate_header_above cf c' now hd parent = validate_header_above cf c now hd parent.
Proof.
  intros E Hmax Hint. unfold validate_header_above, validate_header_context.
  rewrite (expected_target_ext _ parent), (median_ext _ parent), E, (ext_lookup _ _ E), (ext_network _ _ Hext), (headers_to_hash_ext _ parent) by done.
  pose proof (wf_height c (ext_wf _ _ Hext) _ _ E). cbn [ok_or rbind]. rewrite (ancestor_hash_ext _ parent) by (done || unfold sat_sub; lia).
  destruct (nth_parent_total c (ext_wf _ _ Hext) (Z.to_nat (ChainIndex.height parent - sat_sub (ChainIndex.height parent) 144)) _ parent E)
    as (a & an & Ha & Ean & _); [unfold sat_sub; lia|].
  rewrite (ancestor_hash_eq c (ext_wf _ _ Hext) _ parent), Ha by (done || unfold sat_sub; lia). cbn [ok_or rbind].
  unfold median_time_past_for_hash. by rewrite (times_for_hash_ext _ _ an).
Qed.
End Extension.

(** The checks of a header pass again later. *)
Lemma validate_header_later cf c now now' hd parent :
  now <= now' -> validate_header_above cf c now hd parent = Ok () -> validate_header_above cf c now' hd parent = Ok ().
Proof.
  intros Hnow. unfold validate_header_above, validate_header_context. intros ([] & -> & H)%rbind_Ok. cbn [rbind]. revert H.
  destruct (ok_or (expected_target_for_parent _ _ _) _) as [et|]; [|done]. destruct (ok_or (median_time_past_for_parent _ _) _) as [mt|]; [|done]. cbn [rbind].
  intros ([] & Ei & H)%rbind_Ok.
  assert (Ei' : validate_header_internal (ChainIndex.network c) hd (prev_blockhash hd) et mt now' true = Ok ()).
  { apply map_err_Ok in Ei. revert Ei. unfold validate_header_internal. destruct (bool_decide _); [|done].
    destruct (mt <? _); [|done]. destruct (Z.leb_spec (hd_time hd) (sat_add 64 now 7200)) as [Hle|]; [|done].
    unfold sat_add in *. rewrite (proj2 (Z.leb_le (hd_time hd) _)) by lia. done. }
  by rewrite Ei'.
Qed.

(** A header that passed its checks passes them again later. *)
Lemma validate_header_above_ext c c' (Hext : extends_index c c') cf now now' hd parent :
  block_index c !! prev_blockhash hd = Some parent -> ChainIndex.height parent < umax 32 ->
  0 < difficulty_adjustment_interval (ChainIndex.network c) -> now <= now' ->
  validate_header_above cf c now hd parent = Ok () -> validate_header_above cf c' now' hd parent = Ok ().
Proof. intros E Hmax Hint Hnow H. apply (validate_header_later cf c' now); [done|]. by rewrite (validate_header_above_eq c c'). Qed.
End Stable.
