(* ===== verification/ChainManager.v ===== *)
(** * The chain manager ([chain.rs])

    Connecting a block to the tip, reorganising to another branch, and the
    intake of block bodies from peers and callers in any order: the state of
    the node's chain beyond the block index, and the operations that change
    it.  The optional service indexes (transactions, spenders, filters,
    coin statistics, Electrum history) are off, nothing is pruned, no
    assumeutxo snapshot is in use and no reindex is running; storage calls
    succeed and no shutdown is requested.  The cache of verified scripts is
    an argument. *)

From Stdlib Require Import ZArith Lia.
From stdpp Require Import base list option gmap sets sorting strings.
From S2P Require Import Prelude Types VersionBits ChainIndex BlockChecks UtxoCodec ConnectBlock HeaderChecks.
Local Open Scope Z_scope.

Abbreviation coin_set := (gmap OutPoint StoredUtxo).

#[export] Instance StoredUtxo_eq_dec : EqDecision StoredUtxo.
Proof. solve_decision. Defined.

Definition SNAPSHOT_INTERVAL : Z := 100000.
Definition MAX_ORPHAN_BLOCKS : Z := 128.

(** The durable set of unspent outputs with its exact number of entries. *)
Record UtxoDb := {
  db_coins : coin_set;
  db_count : Z;
}.

(** The checkpoint file. *)
Record ChainSnapshot := {
  sn_tip : bytes;
  sn_headers : list Header;
  sn_utxos : coin_set;
}.

(** Bodies that wait for their parent. *)
Record Intake := {
  orphans : gmap bytes (list Block);
  pending_body_children : gmap bytes (list bytes);
  processing_known_children : bool;
  peer_body_chain_ready : gset bytes;
  unlinked_body_order : gmap bytes Z;
  next_unlinked_body_order : Z;
}.

Record Status := {
  initial_block_download : bool;
  precious_sequence : Z;
  precious_last_chainwork : option Z;
}.

Record Node := {
  chain : ChainState;
  bodies : gmap bytes Block;
  undos : gmap bytes (list (list StoredUndo));
  utxo_store : UtxoDb;
  (** the resident copy of the set, when [utxos_materialized] *)
  utxos : coin_set;
  utxos_materialized : bool;
  side_chain_utxos : option (bytes * coin_set);
  active_tx_counts : list Z;
  active_tx_totals : list Z;
  segwit_validated_blocks : gset bytes;
  intake : Intake;
  status : Status;
  (** the blocks with a record in the chainstate delta store *)
  chainstate_store : gset bytes;
  snapshot : option ChainSnapshot;
}.

Record ChainTip := {
  tip_hash : bytes;
  tip_height_of : Z;
  tip_work : Z;
}.

(** ** Updates of one field *)

Definition set_chain (x : ChainState) (n : Node) : Node :=
  {| chain := x; bodies := bodies n; undos := undos n; utxo_store := utxo_store n; utxos := utxos n;
     utxos_materialized := utxos_materialized n; side_chain_utxos := side_chain_utxos n; active_tx_counts :=
     active_tx_counts n; active_tx_totals := active_tx_totals n; segwit_validated_blocks := segwit_validated_blocks
     n; intake := intake n; status := status n; chainstate_store := chainstate_store n; snapshot := snapshot n |}.

Definition set_undos (x : gmap bytes (list (list StoredUndo))) (n : Node) : Node :=
  {| chain := chain n; bodies := bodies n; undos := x; utxo_store := utxo_store n; utxos := utxos n;
     utxos_materialized := utxos_materialized n; side_chain_utxos := side_chain_utxos n; active_tx_counts :=
     active_tx_counts n; active_tx_totals := active_tx_totals n; segwit_validated_blocks := segwit_validated_blocks
     n; intake := intake n; status := status n; chainstate_store := chainstate_store n; snapshot := snapshot n |}.

Definition set_utxo_store (x : UtxoDb) (n : Node) : Node :=
  {| chain := chain n; bodies := bodies n; undos := undos n; utxo_store := x; utxos := utxos n; utxos_materialized
     := utxos_materialized n; side_chain_utxos := side_chain_utxos n; active_tx_counts := active_tx_counts n;
     active_tx_totals := active_tx_totals n; segwit_validated_blocks := segwit_validated_blocks n; intake := intake
     n; status := status n; chainstate_store := chainstate_store n; snapshot := snapshot n |}.

Definition set_side_chain_utxos (x : option (bytes * coin_set)) (n : Node) : Node :=
  {| chain := chain n; bodies := bodies n; undos := undos n; utxo_store := utxo_store n; utxos := utxos n;
     utxos_materialized := utxos_materialized n; side_chain_utxos := x; active_tx_counts := active_tx_counts n;
     active_tx_totals := active_tx_totals n; segwit_validated_blocks := segwit_validated_blocks n; intake := intake
     n; status := status n; chainstate_store := chainstate_store n; snapshot := snapshot n |}.

Definition set_intake (x : Intake) (n : Node) : Node :=
  {| chain := chain n; bodies := bodies n; undos := undos n; utxo_store := utxo_store n; utxos := utxos n;
     utxos_materialized := utxos_materialized n; side_chain_utxos := side_chain_utxos n; active_tx_counts :=
     active_tx_counts n; active_tx_totals := active_tx_totals n; segwit_validated_blocks := segwit_validated_blocks
     n; intake := x; status := status n; chainstate_store := chainstate_store n; snapshot := snapshot n |}.

Definition set_status (x : Status) (n : Node) : Node :=
  {| chain := chain n; bodies := bodies n; undos := undos n; utxo_store := utxo_store n; utxos := utxos n;
     utxos_materialized := utxos_materialized n; side_chain_utxos := side_chain_utxos n; active_tx_counts :=
     active_tx_counts n; active_tx_totals := active_tx_totals n; segwit_validated_blocks := segwit_validated_blocks
     n; intake := intake n; status := x; chainstate_store := chainstate_store n; snapshot := snapshot n |}.

Definition set_snapshot (x : option ChainSnapshot) (n : Node) : Node :=
  {| chain := chain n; bodies := bodies n; undos := undos n; utxo_store := utxo_store n; utxos := utxos n;
     utxos_materialized := utxos_materialized n; side_chain_utxos := side_chain_utxos n; active_tx_counts :=
     active_tx_counts n; active_tx_totals := active_tx_totals n; segwit_validated_blocks := segwit_validated_blocks
     n; intake := intake n; status := status n; chainstate_store := chainstate_store n; snapshot := x |}.

Definition set_utxos (u : coin_set) (materialized : bool) (n : Node) : Node :=
  {| chain := chain n; bodies := bodies n; undos := undos n; utxo_store := utxo_store n; utxos := u;
     utxos_materialized := materialized; side_chain_utxos := side_chain_utxos n; active_tx_counts := active_tx_counts
     n; active_tx_totals := active_tx_totals n; segwit_validated_blocks := segwit_validated_blocks n; intake :=
     intake n; status := status n; chainstate_store := chainstate_store n; snapshot := snapshot n |}.

Definition set_counts (counts totals : list Z) (n : Node) : Node :=
  {| chain := chain n; bodies := bodies n; undos := undos n; utxo_store := utxo_store n; utxos := utxos n;
     utxos_materialized := utxos_materialized n; side_chain_utxos := side_chain_utxos n; active_tx_counts := counts;
     active_tx_totals := totals; segwit_validated_blocks := segwit_validated_blocks n; intake := intake n; status :=
     status n; chainstate_store := chainstate_store n; snapshot := snapshot n |}.

Definition set_store (s : gset bytes) (c : ChainState) : ChainState :=
  {| ChainIndex.network := ChainIndex.network c; ChainIndex.block_index := ChainIndex.block_index c;
     ChainIndex.active_chain := ChainIndex.active_chain c; ChainIndex.headers := ChainIndex.headers c;
     ChainIndex.store := s; ChainIndex.invalid_blocks := ChainIndex.invalid_blocks c; ChainIndex.precious_blocks :=
     ChainIndex.precious_blocks c; ChainIndex.block_sequence_ids := ChainIndex.block_sequence_ids c;
     ChainIndex.header_sequence_ids := ChainIndex.header_sequence_ids c; ChainIndex.next_block_sequence_id :=
     ChainIndex.next_block_sequence_id c; ChainIndex.next_header_sequence_id := ChainIndex.next_header_sequence_id c;
     ChainIndex.best_header_hash := ChainIndex.best_header_hash c |}.

Definition set_invalid (s : gset bytes) (c : ChainState) : ChainState :=
  {| ChainIndex.network := ChainIndex.network c; ChainIndex.block_index := ChainIndex.block_index c;
     ChainIndex.active_chain := ChainIndex.active_chain c; ChainIndex.headers := ChainIndex.headers c;
     ChainIndex.store := ChainIndex.store c; ChainIndex.invalid_blocks := s; ChainIndex.precious_blocks :=
     ChainIndex.precious_blocks c; ChainIndex.block_sequence_ids := ChainIndex.block_sequence_ids c;
     ChainIndex.header_sequence_ids := ChainIndex.header_sequence_ids c; ChainIndex.next_block_sequence_id :=
     ChainIndex.next_block_sequence_id c; ChainIndex.next_header_sequence_id := ChainIndex.next_header_sequence_id c;
     ChainIndex.best_header_hash := ChainIndex.best_header_hash c |}.

Definition set_precious (p : gmap bytes Z) (c : ChainState) : ChainState :=
  {| ChainIndex.network := ChainIndex.network c; ChainIndex.block_index := ChainIndex.block_index c;
     ChainIndex.active_chain := ChainIndex.active_chain c; ChainIndex.headers := ChainIndex.headers c;
     ChainIndex.store := ChainIndex.store c; ChainIndex.invalid_blocks := ChainIndex.invalid_blocks c;
     ChainIndex.precious_blocks := p; ChainIndex.block_sequence_ids := ChainIndex.block_sequence_ids c;
     ChainIndex.header_sequence_ids := ChainIndex.header_sequence_ids c; ChainIndex.next_block_sequence_id :=
     ChainIndex.next_block_sequence_id c; ChainIndex.next_header_sequence_id := ChainIndex.next_header_sequence_id c;
     ChainIndex.best_header_hash := ChainIndex.best_header_hash c |}.

Definition set_orphans (x : gmap bytes (list Block)) (i : Intake) : Intake :=
  {| orphans := x; pending_body_children := pending_body_children i; processing_known_children :=
     processing_known_children i; peer_body_chain_ready := peer_body_chain_ready i; unlinked_body_order :=
     unlinked_body_order i; next_unlinked_body_order := next_unlinked_body_order i |}.

Definition set_pending (x : gmap bytes (list bytes)) (i : Intake) : Intake :=
  {| orphans := orphans i; pending_body_children := x; processing_known_children := processing_known_children i;
     peer_body_chain_ready := peer_body_chain_ready i; unlinked_body_order := unlinked_body_order i;
     next_unlinked_body_order := next_unlinked_body_order i |}.

Definition set_processing (x : bool) (i : Intake) : Intake :=
  {| orphans := orphans i; pending_body_children := pending_body_children i; processing_known_children := x;
     peer_body_chain_ready := peer_body_chain_ready i; unlinked_body_order := unlinked_body_order i;
     next_unlinked_body_order := next_unlinked_body_order i |}.

Definition set_ready (x : gset bytes) (i : Intake) : Intake :=
  {| orphans := orphans i; pending_body_children := pending_body_children i; processing_known_children :=
     processing_known_children i; peer_body_chain_ready := x; unlinked_body_order := unlinked_body_order i;
     next_unlinked_body_order := next_unlinked_body_order i |}.

Definition set_unlinked (x : gmap bytes Z) (next : Z) (i : Intake) : Intake :=
  {| orphans := orphans i; pending_body_children := pending_body_children i; processing_known_children :=
     processing_known_children i; peer_body_chain_ready := peer_body_chain_ready i; unlinked_body_order := x;
     next_unlinked_body_order := next |}.

Definition on_chain (f : ChainState -> ChainState) (n : Node) : Node := set_chain (f (chain n)) n.
Definition on_intake (f : Intake -> Intake) (n : Node) : Node := set_intake (f (intake n)) n.

Local Open Scope op_scope.
Abbreviation M := (op Node ConnectError).

Section Manager.
Context {Ops : BitcoinOps} {HOps : HeaderOps} {SOps : ScriptOps} {POps : PowOps}.
(** The configuration, the clock and the verified scripts of one operation. *)
Context (cf : Config) (now : Z) (cache : gset bytes).

Definition network_genesis_hash : bytes := block_hash (cf_genesis cf).

(** [expect]s of an active tip that is indexed; the empty hash is not a block. *)
Definition best_hash (c : ChainState) : bytes := default [] (list.last (active_chain c)).
Definition tip (n : Node) : result ConnectError ChainTip :=
  let? node := ok_or (block_index (chain n) !! best_hash (chain n)) Bail in
  Ok {| tip_hash := best_hash (chain n); tip_height_of := ChainIndex.height node; tip_work := chain_work node |}.
Definition get_tip : M ChainTip := fun n => (n, tip n).

(** ** Script checks below the assumed-valid block *)

Definition TWO_WEEKS_SECS : Z := 14 * 24 * 60 * 60.

(** Why scripts of the block are checked, with the state after the cache
    update of [best_header_tip]; [None] skips them. *)
Definition script_check_reason_for_hash (c : ChainState) (hash : bytes) (h : Z) : ChainState * option String.string :=
  match cf_assume_valid cf with
  | None => (c, Some "assumevalid=0 (always verify)"%string)
  | Some assume_valid_block =>
      match block_index c !! assume_valid_block with
      | None => (c, Some "assumevalid hash not in headers"%string)
      | Some assumed_node =>
          if ChainIndex.height assumed_node <? h then (c, Some "block height above assumevalid height"%string)
          else
            match best_header_tip c with
            | None => (c, Some "genesis header is indexed"%string)
            | Some (best_hash, best, c) =>
                (c,
                 if negb (bool_decide (ancestor_hash c assume_valid_block h = Some hash))
                 then Some "block not in assumevalid chain"%string
                 else if negb (bool_decide (ancestor_hash c best_hash h = Some hash))
                 then Some "block not in best header chain"%string
                 else if chain_work best <? cf_minimum_chain_work cf
                 then Some "best header chainwork below minimumchainwork"%string
                 else
                   match block_index c !! hash with
                   | None => Some "block too recent relative to best header"%string
                   | Some block_node =>
                       if chain_work best <? chain_work block_node
                       then Some "block too recent relative to best header"%string
                       else
                         let work_delta := chain_work best - chain_work block_node in
                         let tip_proof := work (ChainIndex.header best) in
                         let equivalent_time :=
                           if tip_proof =? 0 then 0
                           else work_delta * pow_target_spacing (ChainIndex.network c) / tip_proof in
                         if equivalent_time <=? TWO_WEEKS_SECS
                         then Some "block too recent relative to best header"%string else None
                   end)
            end
      end
  end.

Definition should_skip_script_checks (c : ChainState) (hash : bytes) (h : Z) : ChainState * bool :=
  let '(c, reason) := script_check_reason_for_hash c hash h in
  (c, match reason with None => true | Some _ => false end).

(** [validate_block_transactions] and its variant that keeps no spent entries. *)
Definition check_transactions (c : ChainState) (block : Block) (h : Z) (u : coin_set) (mtp : Z) (retain : bool)
  : ChainState * result ConnectError BlockApplication :=
  let '(c, skip_script_checks) := should_skip_script_checks c (block_hash block) h in
  (c, validate_block_transactions c (cf_params cf) cache block (map compute_txid (txdata block)) h u mtp
        skip_script_checks retain).

Definition validate_block_structure (block : Block) (h : Z) : result ConnectError () :=
  let? _ := map_err Invalid
    (validate_block_structure_with_options_internal block (map compute_txid (txdata block)) (cf_params cf) h MAX_MONEY
       (cf_signet_challenge cf) true true true) in
  Ok ().

(** ** The change of the set that a block makes *)

(** The coinbase outputs that enter the set. *)
Fixpoint coinbase_created (id : bytes) (outputs : list TxOut) (index : nat) (h mtp : Z) (spent : gset OutPoint)
  : list (OutPoint * StoredUtxo) :=
  match outputs with
  | [] => []
  | o :: outputs =>
      let outpoint := outpoint_at id index in
      let rest := coinbase_created id outputs (S index) h mtp spent in
      if negb (bool_decide (outpoint ∈ spent)) && negb (is_unspendable_script (script_pubkey o))
      then (outpoint, new_entry o h mtp true) :: rest else rest
  end.

(** The created entries of [chainstate_delta_for_block]. *)
Definition delta_created (block : Block) (h mtp : Z) (a : BlockApplication) : list (OutPoint * StoredUtxo) :=
  List.filter (fun p => negb (bool_decide (p.1 ∈ spent_outpoints a))) (map_to_list (created_entries a)) ++
  match txdata block with
  | [] => []
  | coinbase_tx :: _ => coinbase_created (compute_txid coinbase_tx) (tx_output coinbase_tx) 0 h mtp (spent_outpoints a)
  end.

Definition persistent_removals (h : Z) (a : BlockApplication) : list OutPoint :=
  match spent_entries a with
  | [] => List.filter (fun o => negb (bool_decide (o ∈ same_block_spent a))) (elements (spent_outpoints a))
  | entries => map fst (List.filter (fun p => negb (UtxoCodec.height p.2 =? h)) entries)
  end.

Definition insert_all (l : list (OutPoint * StoredUtxo)) (u : coin_set) : coin_set :=
  foldl (fun u p => <[p.1 := p.2]> u) u l.

(** Removals come before additions; the count is that of the keys. *)
Definition apply_batch (removals : list OutPoint) (additions : list (OutPoint * StoredUtxo)) (db : UtxoDb) : UtxoDb :=
  let existed o := bool_decide (is_Some (db_coins db !! o)) in
  let added o := bool_decide (o ∈ additions.*1) in
  let affected := elements (list_to_set (removals ++ additions.*1) : gset OutPoint) in
  {| db_coins := insert_all additions (remove_all removals (db_coins db));
     db_count := foldl (fun count o =>
       match existed o, added o with
       | false, true => sat_add 64 count 1
       | true, false => sat_sub count 1
       | _, _ => count
       end) (db_count db) affected |}.

(** The batch whose removals exist and whose additions are new: the count is
    arithmetic. *)
Definition apply_validated_batch (removals : list OutPoint) (additions : list (OutPoint * StoredUtxo)) (db : UtxoDb)
  : result ConnectError UtxoDb :=
  check? Z.of_nat (length removals) <=? db_count db else Bail in
  let? next_count := ok_or (checked_add 64 (db_count db - Z.of_nat (length removals)) (Z.of_nat (length additions))) Bail in
  Ok {| db_coins := insert_all additions (remove_all removals (db_coins db)); db_count := next_count |}.

(** The resident copy after a block. *)
Definition connect_utxos (materialized : bool) (created : list (OutPoint * StoredUtxo)) (a : BlockApplication)
    (u : coin_set) : coin_set :=
  let u :=
    match spent_entries a with
    | [] => remove_all (elements (spent_outpoints a)) u
    | entries => if materialized then remove_all (map fst entries) u else u
    end in
  if materialized then insert_all created u else u.

(** ** Checkpoints *)

Definition release_materialized_utxos : Node -> Node := set_utxos ∅ false.

Definition materialize_utxos (n : Node) : Node :=
  if utxos_materialized n then n else set_utxos (db_coins (utxo_store n)) true n.

(** The store is emptied and every entry added: the saturating count of the
    batches is that of the keys. *)
Definition replace_all (u : coin_set) : UtxoDb :=
  {| db_coins := u; db_count := Z.min (Z.of_nat (size u)) (umax 64) |}.

Definition sync_utxo_store (n : Node) : Node :=
  if utxos_materialized n then set_utxo_store (replace_all (utxos n)) n else n.

Definition current_snapshot (n : Node) : ChainSnapshot :=
  {| sn_tip := best_hash (chain n); sn_headers := headers (chain n);
     sn_utxos := if utxos_materialized n then utxos n else db_coins (utxo_store n) |}.

Definition persist_snapshot (n : Node) : Node :=
  let n := sync_utxo_store n in
  {| chain := chain n; bodies := bodies n; undos := undos n; utxo_store := utxo_store n; utxos := utxos n;
     utxos_materialized := utxos_materialized n; side_chain_utxos := side_chain_utxos n;
     active_tx_counts := active_tx_counts n; active_tx_totals := active_tx_totals n;
     segwit_validated_blocks := segwit_validated_blocks n; intake := intake n; status := status n;
     chainstate_store := ∅; snapshot := Some (current_snapshot n) |}.

Definition load_snapshot (n : Node) (path : list bytes) : option ChainSnapshot :=
  sn ← snapshot n;
  if bool_decide (sn_headers sn = []) then None
  else if (length path <? length (sn_headers sn))%nat
          || negb (bool_decide (path !! (length (sn_headers sn) - 1)%nat = Some (sn_tip sn)))
          || existsb (fun '(hd, hash) => negb (bool_decide (header_hash hd = hash))) (zip (sn_headers sn) path)
  then None else Some sn.

(** ** Connecting a block to the tip *)

(** The checks before the transactions: the height and the median time past. *)
Definition connect_checks (c : ChainState) (block : Block) : result ConnectError (Z * Z) :=
  let hd := blk_header block in
  let h := sat_add 32 (tip_height c) 1 in
  let previous := best_hash c in
  let? previous_node := ok_or (block_index c !! previous) Bail in
  let? _ := map_err Invalid
    (validate_bip94_timewarp_with_params (cf_params cf) h (hd_time hd) (hd_time (ChainIndex.header previous_node))) in
  let? _ := validate_header_context cf c now hd previous (expected_target_for_parent c previous (hd_time hd))
              (ChainIndex.median_time_past c) true in
  let? _ := validate_block_structure block h in
  let? mtp := ok_or (ChainIndex.median_time_past c) Bail in
  Ok (h, mtp).

(** The bodies, undo records and deltas are written before the set changes. *)
Definition store_records (block : Block) (undo : option (list (list StoredUndo))) (persist prepare_delta : bool) (n : Node)
  : Node :=
  let hash := block_hash block in
  let prepare_block := persist && negb (bool_decide (hash ∈ store (chain n))) in
  {| chain := if prepare_block then set_store ({[hash]} ∪ store (chain n)) (chain n) else chain n;
     bodies := if prepare_block then <[hash := block]> (bodies n) else bodies n;
     undos := match undo with Some undo => <[hash := undo]> (undos n) | None => undos n end;
     utxo_store := utxo_store n; utxos := utxos n; utxos_materialized := utxos_materialized n;
     side_chain_utxos := side_chain_utxos n; active_tx_counts := active_tx_counts n;
     active_tx_totals := active_tx_totals n; segwit_validated_blocks := segwit_validated_blocks n; intake := intake n;
     status := status n;
     chainstate_store := if prepare_delta then {[hash]} ∪ chainstate_store n else chainstate_store n;
     snapshot := snapshot n |}.

(** The coins, in memory and, if [persist], on disk. *)
Definition store_coins (h : Z) (hash : bytes) (created : list (OutPoint * StoredUtxo)) (a : BlockApplication)
    (persist : bool) : M () :=
  do! modify (fun n => set_utxos (connect_utxos (utxos_materialized n) created a (utxos n)) (utxos_materialized n) n) in
  if persist then
    fun n =>
      if is_bip30_repeat (ChainIndex.network (chain n)) h hash
      then (set_utxo_store (apply_batch (persistent_removals h a) created (utxo_store n)) n, Ok ())
      else
        match apply_validated_batch (persistent_removals h a) created (utxo_store n) with
        | Ok db => (set_utxo_store db n, Ok ())
        | Err e => (n, Err e)
        end
  else ret ().

(** The new tip.  The number of transactions of a checked block fits 32 bits. *)
Definition push_tip (block : Block) (h : Z) (n : Node) (c : ChainState) : Node :=
  let hash := block_hash block in
  let count := zlen (txdata block) in
  {| chain := c; bodies := bodies n; undos := undos n; utxo_store := utxo_store n; utxos := utxos n;
     utxos_materialized := utxos_materialized n; side_chain_utxos := side_chain_utxos n;
     active_tx_counts := active_tx_counts n ++ [count];
     active_tx_totals := active_tx_totals n ++ [sat_add 64 (default 0 (list.last (active_tx_totals n))) count];
     segwit_validated_blocks :=
       if segwit (buried (cf_params cf)) <=? h then {[hash]} ∪ segwit_validated_blocks n else segwit_validated_blocks n;
     intake :=
       if bool_decide (is_Some (block_sequence_ids (chain n) !! hash)) then intake n
       else set_unlinked (delete hash (unlinked_body_order (intake n))) (next_unlinked_body_order (intake n)) (intake n);
     status := status n; chainstate_store := chainstate_store n; snapshot := snapshot n |}.

Definition connect_block_internal_impl (block : Block) (persist sync_storage : bool) : M () := fun n =>
  let hash := block_hash block in
  match connect_checks (chain n) block with
  | Err e => (n, Err e)
  | Ok (h, mtp) =>
      let needs_undo := negb (bool_decide (is_Some (undos n !! hash))) in
      let prepare_delta := persist && sync_storage && negb (bool_decide (hash ∈ chainstate_store n)) in
      let retain := if persist then needs_undo || prepare_delta else true in
      let '(c, checked) :=
        check_transactions (chain n) block h (if persist then db_coins (utxo_store n) else utxos n) mtp retain in
      let n := set_chain c n in
      match checked with
      | Err e => (n, Err e)
      | Ok a =>
          (do! (if needs_undo then
                  let! undo := lift (cache_block_undo block (spent_entries a)) in
                  modify (store_records block (Some undo) persist prepare_delta)
                else modify (store_records block None persist prepare_delta)) in
           do! store_coins h hash (delta_created block h mtp a) a persist in
           do! (fun n =>
                  match connect_tip (chain n) hash (blk_header block) with
                  | None => (n, Err Bail)
                  | Some c => (push_tip block h n c, Ok ())
                  end) in
           modify (fun n =>
             if persist && negb (initial_block_download (status n)) && (tip_height (chain n) `mod` SNAPSHOT_INTERVAL =? 0)
             then persist_snapshot n else n)) n
      end
  end.

(** ** Activating a branch *)

Definition update_ibd_status (n : Node) : Node :=
  if negb (initial_block_download (status n)) then n
  else
    match block_index (chain n) !! best_hash (chain n) with
    | None => n
    | Some node =>
        let time := match headers (chain n) !! Z.to_nat (ChainIndex.height node) with Some hd => hd_time hd | None => 0 end in
        if (cf_minimum_chain_work cf <=? chain_work node) && (now <=? sat_add 64 time (cf_max_tip_age_secs cf))
        then set_status {| initial_block_download := false; precious_sequence := precious_sequence (status n);
                           precious_last_chainwork := precious_last_chainwork (status n) |} n
        else n
    end.

(** The hashes from the genesis block to a tip; [None] off the index. *)
Fixpoint path_loop (fuel : nat) (c : ChainState) (cursor : bytes) (path : list bytes) : option (list bytes) :=
  match fuel with
  | O => None
  | S fuel =>
      if bool_decide (cursor = network_genesis_hash) then Some (cursor :: path)
      else
        node ← block_index c !! cursor;
        path_loop fuel c (prev_blockhash (ChainIndex.header node)) (cursor :: path)
  end.

Definition candidate_path (c : ChainState) (tip : bytes) : option (list bytes) := path_loop (walk_fuel c tip) c tip [].

(** The highest position at which two chains agree. *)
Fixpoint common_height (path active : list bytes) (height : nat) (found : option nat) : option nat :=
  match path, active with
  | p :: path, a :: active =>
      common_height path active (S height) (if bool_decide (p = a) then Some height else found)
  | _, _ => found
  end.

(** The bodies and undo records of the active blocks above the common
    ancestor, the tip first; [None] if one is not stored. *)
Fixpoint gather_disconnected (n : Node) (hashes : list bytes) : option (list (Block * list (list StoredUndo))) :=
  match hashes with
  | [] => Some []
  | hash :: hashes =>
      block ← bodies n !! hash;
      undo ← undos n !! hash;
      rest ← gather_disconnected n hashes;
      Some ((block, undo) :: rest)
  end.

Fixpoint disconnect_all (l : list (Block * list (list StoredUndo))) (u : coin_set) : result ConnectError coin_set :=
  match l with
  | [] => Ok u
  | (block, undo) :: l =>
      let? u := disconnect_block_from_utxos u block undo in
      disconnect_all l u
  end.

Fixpoint get_all (n : Node) (hashes : list bytes) : result ConnectError (list Block) :=
  match hashes with
  | [] => Ok []
  | hash :: hashes =>
      let? block := ok_or (bodies n !! hash) Bail in
      let? rest := get_all n hashes in
      Ok (block :: rest)
  end.

(** The candidate blocks, validated and applied to a map on the side. *)
Fixpoint dry_run (c : ChainState) (blocks : list Block) (h : Z) (u : coin_set) : ChainState * result ConnectError coin_set :=
  match blocks with
  | [] => (c, Ok u)
  | block :: blocks =>
      match median_time_past_for_parent c (prev_blockhash (blk_header block)) with
      | None => (c, Err Bail)
      | Some mtp =>
          let '(c, checked) := check_transactions c block h u mtp true in
          match checked with
          | Err e => (c, Err e)
          | Ok a => dry_run c blocks (sat_add 32 h 1) (apply_block_to_utxos u block h mtp (spent_entries a))
          end
      end
  end.

(** The entries of the first set that the second does not have. *)
Definition changed_entries (u u' : coin_set) : list (OutPoint * StoredUtxo) :=
  List.filter (fun p => negb (bool_decide (u' !! p.1 = Some p.2))) (map_to_list u).

(** The live state at the common ancestor. *)
Definition truncate_to (common : nat) (u : coin_set) (n : Node) : Node :=
  {| chain := disconnect_to (chain n) common; bodies := bodies n; undos := undos n; utxo_store := utxo_store n;
     utxos := u; utxos_materialized := true; side_chain_utxos := None;
     active_tx_counts := take (S common) (active_tx_counts n); active_tx_totals := take (S common) (active_tx_totals n);
     segwit_validated_blocks := segwit_validated_blocks n; intake := intake n; status := status n;
     chainstate_store := chainstate_store n; snapshot := snapshot n |}.

Definition connect_block_internal (block : Block) : M () := connect_block_internal_impl block false true.

Definition activate_chain_from_pruned_suffix (path : list bytes) (common : nat) : M bool := fun n =>
  let active := active_chain (chain n) in
  if (length active <=? common)%nat || negb (bool_decide (path !! common = active !! common)) then (n, Ok false)
  else
    match gather_disconnected n (rev (drop (S common) active)) with
    | None => (n, Ok false)
    | Some disconnected =>
        (let! candidate_blocks := lift (get_all n (drop (S common) path)) in
         let! disconnected_utxos := lift (disconnect_all disconnected (utxos n)) in
         let! candidate_utxos :=
           (fun n => let '(c, r) := dry_run (chain n) candidate_blocks (sat_add 32 (Z.of_nat common) 1) disconnected_utxos in
                     (set_chain c n, r)) in
         let utxo_removals := map fst (changed_entries (utxos n) candidate_utxos) in
         let utxo_additions := changed_entries candidate_utxos (utxos n) in
         do! modify (truncate_to common disconnected_utxos) in
         do! for_each connect_block_internal candidate_blocks in
         do! modify (fun n => set_utxo_store (apply_batch utxo_removals utxo_additions (utxo_store n)) n) in
         do! modify release_materialized_utxos in
         do! modify update_ibd_status in
         ret true) n
    end.

(** The index entries of the headers of a checkpoint. *)
Fixpoint index_active_headers (hds : list Header) (h : Z) (c : ChainState) : result ConnectError ChainState :=
  match hds with
  | [] => Ok c
  | hd :: hds =>
      let hash := header_hash hd in
      let? parent_work := (if h =? 0 then Ok 0
                           else let? parent := ok_or (block_index c !! prev_blockhash hd) Bail in Ok (chain_work parent)) in
      let skip := if h =? 0 then None else ancestor_hash c (prev_blockhash hd) (block_index_skip_height h) in
      let node := {| ChainIndex.header := hd; ChainIndex.height := h; chain_work := parent_work + work hd;
                     ChainIndex.skip := skip |} in
      index_active_headers hds (h + 1) (assign_header_sequence_id (set_block_index <[hash := node]> c) hash)
  end.

Fixpoint cumulative_from (total : Z) (counts : list Z) : list Z :=
  match counts with
  | [] => []
  | count :: counts => let total := sat_add 64 total count in total :: cumulative_from total counts
  end.
Definition cumulative_tx_counts (counts : list Z) : list Z := cumulative_from 0 counts.

Definition repair_active_tx_count_vectors : M () := fun n =>
  if bool_decide (length (active_tx_counts n) = length (active_chain (chain n)))
  then (set_counts (active_tx_counts n) (cumulative_tx_counts (active_tx_counts n)) n, Ok ())
  else
    match get_all n (active_chain (chain n)) with
    | Err e => (n, Err e)
    | Ok blocks =>
        let counts := map (fun b => zlen (txdata b)) blocks in
        (set_counts counts (cumulative_tx_counts counts) n, Ok ())
    end.

Definition initialize_genesis_block (genesis : Block) : M () := fun n =>
  let hash := block_hash genesis in
  if negb (bool_decide (hash = network_genesis_hash)) then (n, Err Bail)
  else
    let count := zlen (txdata genesis) in
    ({| chain := initialize_genesis (chain n) hash (blk_header genesis); bodies := bodies n;
        undos := match undos n !! hash with Some _ => undos n | None => <[hash := [[]]]> (undos n) end;
        utxo_store := utxo_store n; utxos := utxos n; utxos_materialized := utxos_materialized n;
        side_chain_utxos := side_chain_utxos n; active_tx_counts := active_tx_counts n ++ [count];
        active_tx_totals := active_tx_totals n ++ [count]; segwit_validated_blocks := segwit_validated_blocks n;
        intake := intake n; status := status n; chainstate_store := chainstate_store n; snapshot := snapshot n |}, Ok ()).

(** [get_for_replay] and connect. *)
Definition replay_block (hash : bytes) : M () := fun n =>
  match bodies n !! hash with
  | None => (n, Err Bail)
  | Some block => connect_block_internal block n
  end.

(** The state in which a replay starts. *)
Definition start_replay (path : list bytes) (from : option ChainSnapshot) (n : Node) : Node :=
  let hds := match from with Some sn => sn_headers sn | None => [] end in
  let counts :=
    if (length hds <=? length (active_tx_counts n))%nat then take (length hds) (active_tx_counts n) else [] in
  {| chain := set_active (fun _ => take (length hds) path) (fun _ => hds) (chain n); bodies := bodies n; undos := undos n;
     utxo_store := utxo_store n; utxos := match from with Some sn => sn_utxos sn | None => ∅ end;
     utxos_materialized := true; side_chain_utxos := side_chain_utxos n;
     active_tx_counts := counts; active_tx_totals := cumulative_tx_counts counts;
     segwit_validated_blocks := segwit_validated_blocks n; intake := intake n; status := status n;
     chainstate_store := chainstate_store n; snapshot := snapshot n |}.

Definition replay (path : list bytes) (from : option ChainSnapshot) : M () :=
  do! modify (start_replay path from) in
  do! match from with
      | Some sn =>
          do! (fun n => match index_active_headers (sn_headers sn) 0 (chain n) with
                        | Ok c => (set_chain c n, Ok ())
                        | Err e => (n, Err e)
                        end) in
          for_each replay_block (drop (length (sn_headers sn)) path)
      | None =>
          do! (fun n => match bodies n !! hd [] path with
                        | None => (n, Err Bail)
                        | Some genesis => initialize_genesis_block genesis n
                        end) in
          for_each replay_block (tail path)
      end in
  do! repair_active_tx_count_vectors in
  modify persist_snapshot.

(** The fields that a failed replay puts back. *)
Definition restore_active (old n : Node) : Node :=
  {| chain := set_active (fun _ => active_chain (chain old)) (fun _ => headers (chain old)) (chain n);
     bodies := bodies n; undos := undos n; utxo_store := utxo_store n; utxos := utxos old;
     utxos_materialized := utxos_materialized old; side_chain_utxos := side_chain_utxos n;
     active_tx_counts := active_tx_counts old; active_tx_totals := active_tx_totals old;
     segwit_validated_blocks := segwit_validated_blocks old; intake := intake n; status := status n;
     chainstate_store := chainstate_store n; snapshot := snapshot n |}.

(** A failing read of the checkpoint counts as no checkpoint. *)
Definition full_replay (path : list bytes) : M () := fun n =>
  let from := load_snapshot n path in
  let start := match from with Some sn => length (sn_headers sn) | None => 0%nat end in
  if negb (forallb (fun hash => bool_decide (hash ∈ store (chain n))) (drop start path)) then (n, Err Bail)
  else
    match replay path from n with
    | (n', Err e) => (restore_active n n', Err e)
    | (n', Ok _) => (update_ibd_status (release_materialized_utxos n'), Ok ())
    end.

Definition activate_chain (tip : bytes) : M () := fun n =>
  if has_invalid_ancestor (chain n) tip then (n, Err Bail)
  else
    (do! modify materialize_utxos in
     let! path := (fun n => (n, ok_or (candidate_path (chain n) tip) Bail)) in
     let! activated :=
       (fun n =>
          match common_height path (active_chain (chain n)) 0 None with
          | Some common =>
              if (1 <? length (active_chain (chain n)))%nat then activate_chain_from_pruned_suffix path common n
              else (n, Ok false)
          | None => (n, Ok false)
          end) in
     if activated : bool then ret () else full_replay path) n.

(** ** The set at a block off the tip *)

Definition current_utxos (n : Node) : coin_set := if utxos_materialized n then utxos n else db_coins (utxo_store n).

Fixpoint backwards_loop (n : Node) (hashes : list bytes) (u : coin_set) : result ConnectError (option coin_set) :=
  match hashes with
  | [] => Ok (Some u)
  | hash :: hashes =>
      match bodies n !! hash, undos n !! hash with
      | Some block, Some undo =>
          let? u := disconnect_block_from_utxos u block undo in
          backwards_loop n hashes u
      | _, _ => Ok None
      end
  end.

Definition replay_active_utxos_backwards (n : Node) (hash : bytes) : result ConnectError (option coin_set) :=
  let c := chain n in
  if negb (is_active_block c hash) then Ok None
  else
    let? node := ok_or (block_index c !! hash) Bail in
    let target_height := ChainIndex.height node in
    if tip_height c <=? target_height then Ok (Some (current_utxos n))
    else
      let above := drop (S (Z.to_nat target_height)) (active_chain c) in
      if existsb (fun '(i, hash) =>
           let h := target_height + 1 + Z.of_nat i in
           is_bip30_repeat (ChainIndex.network c) h hash || is_bip30_unspendable (ChainIndex.network c) h hash)
           (zip (seq 0 (length above)) above)
      then Ok None
      else backwards_loop n (rev above) (current_utxos n).

Fixpoint forwards_loop (n : Node) (hashes : list bytes) (u : coin_set) : Node * result ConnectError (option coin_set) :=
  match hashes with
  | [] => (n, Ok (Some u))
  | hash :: hashes =>
      match bodies n !! hash with
      | None => (n, Ok None)
      | Some block =>
          let c := chain n in
          let hd := blk_header block in
          match
            let? node := ok_or (block_index c !! hash) Bail in
            let? parent := ok_or (block_index c !! prev_blockhash hd) Bail in
            let? _ := map_err Invalid (validate_bip94_timewarp_with_params (cf_params cf) (ChainIndex.height node)
                                         (hd_time hd) (hd_time (ChainIndex.header parent))) in
            let? _ := validate_header_context cf c now hd (prev_blockhash hd)
                        (expected_target_for_parent c (prev_blockhash hd) (hd_time hd))
                        (median_time_past_for_parent c (prev_blockhash hd)) true in
            let? _ := validate_block_structure block (ChainIndex.height node) in
            let? mtp := ok_or (median_time_past_for_parent c (prev_blockhash hd)) Bail in
            Ok (ChainIndex.height node, mtp)
          with
          | Err e => (n, Err e)
          | Ok (h, mtp) =>
              let '(c, checked) := check_transactions c block h u mtp true in
              let n := set_chain c n in
              match checked with
              | Err e => (n, Err e)
              | Ok a => forwards_loop n hashes (apply_block_to_utxos u block h mtp (spent_entries a))
              end
          end
      end
  end.

Definition utxos_for_block (hash : bytes) : M (option coin_set) := fun n =>
  if bool_decide (hash = best_hash (chain n)) then (n, Ok (Some (current_utxos n)))
  else
    match replay_active_utxos_backwards n hash with
    | Err e => (n, Err e)
    | Ok (Some u) => (n, Ok (Some u))
    | Ok None =>
        match candidate_path (chain n) hash with
        | None => (n, Ok None)
        | Some path =>
            match bodies n !! hd [] path with
            | None => (n, Ok None)
            | Some _ => forwards_loop n (tail path) ∅
            end
        end
    end.

(** ** Bodies that arrive *)

Definition insert_body (block : Block) (n : Node) : Node :=
  let hash := block_hash block in
  if bool_decide (hash ∈ store (chain n)) then n
  else
    {| chain := set_store ({[hash]} ∪ store (chain n)) (chain n); bodies := <[hash := block]> (bodies n);
       undos := undos n; utxo_store := utxo_store n; utxos := utxos n; utxos_materialized := utxos_materialized n;
       side_chain_utxos := side_chain_utxos n; active_tx_counts := active_tx_counts n;
       active_tx_totals := active_tx_totals n; segwit_validated_blocks := segwit_validated_blocks n; intake := intake n;
       status := status n; chainstate_store := chainstate_store n; snapshot := snapshot n |}.

Definition insert_side_chain_body (block : Block) (n : Node) : Node :=
  let hash := block_hash block in
  let parent := prev_blockhash (blk_header block) in
  let children := default [] (pending_body_children (intake n) !! parent) in
  on_intake (fun i => set_pending
    (<[parent := if bool_decide (hash ∈ children) then children else children ++ [hash]]> (pending_body_children i)) i)
    (insert_body block n).

Definition queue_orphan_block (parent_hash : bytes) (block : Block) : M () := fun n =>
  let lists := (map_to_list (orphans (intake n))).*2 in
  if existsb (existsb (fun child => bool_decide (block_hash child = block_hash block))) lists then (n, Ok ())
  else if MAX_ORPHAN_BLOCKS <=? sum (map zlen lists) then (n, Err Bail)
  else
    (on_intake (fun i => set_orphans
       (<[parent_hash := default [] (orphans i !! parent_hash) ++ [block]]> (orphans i)) i) n, Ok ()).

Definition record_unlinked_body (hash : bytes) (n : Node) : Node :=
  if bool_decide (is_Some (unlinked_body_order (intake n) !! hash)) then n
  else
    on_intake (fun i => set_unlinked (<[hash := next_unlinked_body_order i]> (unlinked_body_order i))
                          (sat_add 64 (next_unlinked_body_order i) 1) i) n.

(** [assign_block_sequence_id] with the unlinked bodies. *)
Definition sequence_block (hash : bytes) (n : Node) : Node :=
  if bool_decide (is_Some (block_sequence_ids (chain n) !! hash)) then n
  else
    set_chain (assign_block_sequence_id (chain n) hash)
      (on_intake (fun i => set_unlinked (delete hash (unlinked_body_order i)) (next_unlinked_body_order i) i) n).

Definition peer_body_parent_chain_ready (n : Node) (parent_hash : bytes) : bool :=
  is_active_block (chain n) parent_hash || bool_decide (parent_hash ∈ peer_body_chain_ready (intake n)).

(** The ready children of one hash: those that are new come out in order. *)
Fixpoint ready_children (n : Node) (parent_hash : bytes) (children : list bytes) (ready : gset bytes)
  : gset bytes * list bytes :=
  match children with
  | [] => (ready, [])
  | child :: children =>
      let linked :=
        match block_index (chain n) !! child with
        | Some node =>
            is_active_block (chain n) (prev_blockhash (ChainIndex.header node)) || bool_decide (parent_hash ∈ ready)
        | None => false
        end in
      if bool_decide (child ∈ store (chain n)) && linked && negb (bool_decide (child ∈ ready)) then
        let '(ready, queue) := ready_children n parent_hash children ({[child]} ∪ ready) in
        (ready, child :: queue)
      else ready_children n parent_hash children ready
  end.

(** Every hash enters the queue once: it must be new to the ready set. *)
Fixpoint ready_loop (fuel : nat) (n : Node) (queue : list bytes) (ready : gset bytes) : gset bytes :=
  match fuel, queue with
  | S fuel, parent_hash :: queue =>
      let ready := if is_active_block (chain n) parent_hash then ready else {[parent_hash]} ∪ ready in
      let '(ready, more) :=
        ready_children n parent_hash (default [] (pending_body_children (intake n) !! parent_hash)) ready in
      ready_loop fuel n (queue ++ more) ready
  | _, _ => ready
  end.

Definition ready_fuel (n : Node) : nat :=
  S (length (concat (map_to_list (pending_body_children (intake n))).*2)).

Definition note_peer_body_chain_ready (hash : bytes) (n : Node) : Node :=
  let parent_ready :=
    match block_index (chain n) !! hash with
    | Some node => peer_body_parent_chain_ready n (prev_blockhash (ChainIndex.header node))
    | None => false
    end in
  if negb parent_ready && negb (is_active_block (chain n) hash) then n
  else on_intake (fun i => set_ready (ready_loop (ready_fuel n) n [hash] (peer_body_chain_ready i)) i) n.

Definition should_mark_block_invalid (e : ConnectError) : bool :=
  match e with
  | Invalid (OversizedBlock | TooManySigopsInConnect | BadCoinbaseHeight | MissingInput _ | ImmatureCoinbase _
            | InputTotalOverflow | AccumulatedFeeOverflow | NegativeFee _ | Bip30 _ | NonFinalTransaction
            | NonFinalSequence | ScriptError _ _ | CoinbaseOverpay _ _ | SubsidyOverflow) => true
  | _ => false
  end.

(** The header and structure checks of a body off the tip. *)
Definition side_checks (c : ChainState) (block : Block) (parent : BlockNode) : result ConnectError () :=
  let? _ := validate_header_above cf c now (blk_header block) parent in
  validate_block_structure block (sat_add 32 (ChainIndex.height parent) 1).

(** The index entry of a body off the tip. *)
Definition index_body (block : Block) : M () := fun n =>
  match index_header (chain n) (block_hash block) (blk_header block) with
  | Some c => (set_chain c n, Ok ())
  | None => (n, Err Bail)
  end.

(** What is left to do after a body was taken in. *)
Inductive Next :=
| Finished (t : ChainTip)
(** continue with the blocks that waited for it: with its readiness noted, with stored children *)
| Continue (hash : bytes) (note children : bool).

Definition set_side_chain (u : option (bytes * coin_set)) : Node -> Node := set_side_chain_utxos u.

(** The set at a parent, from the cache if it is there. *)
Definition take_parent_utxos (parent_hash : bytes) : M (option coin_set) := fun n =>
  match side_chain_utxos n with
  | Some (hash, u) =>
      if bool_decide (hash = parent_hash) then (set_side_chain None n, Ok (Some u)) else utxos_for_block parent_hash n
  | None => utxos_for_block parent_hash n
  end.

Definition check_transactions_op (block : Block) (h : Z) (u : coin_set) (mtp : Z) : M BlockApplication := fun n =>
  let '(c, checked) := check_transactions (chain n) block h u mtp true in (set_chain c n, checked).

Definition has_more_work (n : Node) (work : Z) : bool :=
  match block_index (chain n) !! best_hash (chain n) with Some node => chain_work node <? work | None => false end.

(** A body on the tip. *)
Definition accept_on_tip (block : Block) (retain_invalid_body sync_storage : bool) : M Next := fun n =>
  let hash := block_hash block in
  match connect_block_internal_impl block true sync_storage n with
  | (n, Err e) =>
      if retain_invalid_body && should_mark_block_invalid e
      then (sequence_block hash (insert_body block n), Err e) else (n, Err e)
  | (n, Ok _) => (n, Ok (Continue hash false true))
  end.

(** A body whose parent's body is not stored. *)
Definition accept_unlinked (block : Block) (parent : BlockNode) (retain_invalid_body : bool) : M Next :=
  do! (fun n => (n, side_checks (chain n) block parent)) in
  do! modify (record_unlinked_body (block_hash block)) in
  do! modify (insert_side_chain_body block) in
  do! index_body block in
  if retain_invalid_body then let! t := get_tip in ret (Finished t) else lift (Err Bail).

(** A body of a peer off the tip: its transactions wait. *)
Definition accept_side_from_peer (block : Block) (parent : BlockNode) : M Next :=
  let hash := block_hash block in
  let chain_work := chain_work parent + work (blk_header block) in
  let! parent_chain_ready := (fun n => (n, Ok (peer_body_parent_chain_ready n (prev_blockhash (blk_header block))))) in
  do! modify (set_side_chain None) in
  do! modify (insert_side_chain_body block) in
  do! index_body block in
  do! modify (sequence_block hash) in
  do! (fun n =>
         let extends_active_tip :=
           bool_decide (ancestor_hash (chain n) hash (tip_height (chain n)) = Some (best_hash (chain n))) in
         if has_more_work n chain_work && negb extends_active_tip && negb (candidate_chain_has_missing_body (chain n) hash)
         then activate_chain hash n else (n, Ok ())) in
  ret (Continue hash parent_chain_ready parent_chain_ready).

(** The set after the block is kept for its children. *)
Definition validate_side (block : Block) (parent : BlockNode) : M bool := fun n =>
  let h := sat_add 32 (ChainIndex.height parent) 1 in
  let parent_hash := prev_blockhash (blk_header block) in
  match median_time_past_for_parent (chain n) parent_hash with
  | None => (n, Err Bail)
  | Some mtp =>
      let keep (u : option coin_set) (a : BlockApplication) :=
        modify (set_side_chain
          (u ← u; Some (block_hash block, apply_block_to_utxos u block h mtp (spent_entries a)))) in
      if (zlen (txdata block) =? 1) && (bip34 (buried (cf_params cf)) <=? h) then
        (let! a := check_transactions_op block h ∅ mtp in
         let! u := take_parent_utxos parent_hash in
         do! keep u a in ret true) n
      else
        (let! u := take_parent_utxos parent_hash in
         match u with
         | None => ret false
         | Some u => let! a := check_transactions_op block h u mtp in do! keep (Some u) a in ret true
         end) n
  end.

(** A body of a caller off the tip: its transactions are validated now. *)
Definition accept_side (block : Block) (parent : BlockNode) : M Next :=
  let hash := block_hash block in
  let! validated := validate_side block parent in
  if validated : bool then
    do! modify (insert_side_chain_body block) in
    do! index_body block in
    do! modify (sequence_block hash) in
    do! (fun n =>
           if has_more_work n (chain_work parent + work (blk_header block))
              && negb (candidate_chain_has_missing_body (chain n) hash)
           then activate_chain hash n else (n, Ok ())) in
    ret (Continue hash false true)
  else
    do! modify (record_unlinked_body hash) in
    do! modify (insert_side_chain_body block) in
    do! index_body block in
    lift (Err Bail).

(** A pruned body that comes back. *)
Definition accept_active_again (block : Block) : M Next := fun n =>
  let hash := block_hash block in
  match block_index (chain n) !! hash with
  | None => (n, Err Bail)
  | Some node =>
      (do! lift (validate_block_structure block (ChainIndex.height node)) in
       do! modify (insert_body block) in
       do! modify (fun n =>
              let h := Z.to_nat (ChainIndex.height node) in
              let counts := active_tx_counts n ++ repeat 0 (S h - length (active_tx_counts n)) in
              let counts := <[h := zlen (txdata block)]> counts in
              set_counts counts (cumulative_tx_counts counts) n) in
       let! t := get_tip in
       ret (Finished t)) n
  end.

(** [connect_block_with_existing_body] up to the blocks that waited. *)
Definition accept_body (block : Block) (allow_existing_body retain_invalid_body sync_storage : bool) : M Next := fun n =>
  let c := chain n in
  let hash := block_hash block in
  let parent_hash := prev_blockhash (blk_header block) in
  if has_invalid_ancestor c hash then (n, Err Bail)
  else if is_active_block c hash then
    if bool_decide (hash ∈ store c) then (let! t := get_tip in ret (Finished t)) n
    else accept_active_again block n
  else if bool_decide (hash ∈ store c) && negb allow_existing_body
          && negb (match block_index c !! hash with
                   | Some node => bool_decide (prev_blockhash (ChainIndex.header node) = best_hash c)
                   | None => false
                   end)
  then (let! t := get_tip in ret (Finished t)) n
  else
    match block_index c !! parent_hash with
    | None => (do! queue_orphan_block parent_hash block in lift (Err Bail)) n
    | Some parent =>
        if has_invalid_ancestor c parent_hash then (n, Err Bail)
        else if bool_decide (parent_hash = best_hash c) then accept_on_tip block retain_invalid_body sync_storage n
        else if negb (bool_decide (parent_hash ∈ store c)) then accept_unlinked block parent retain_invalid_body n
        else
          (do! lift (side_checks c block parent) in
           if retain_invalid_body then accept_side_from_peer block parent else accept_side block parent) n
    end.

(** ** Blocks that waited *)

(** [mark_block_invalid] *)
Definition mark_block_invalid (hash : bytes) (n : Node) : Node :=
  if bool_decide (is_Some (block_index (chain n) !! hash)) && negb (bool_decide (hash ∈ invalid_blocks (chain n)))
  then on_chain (fun c => set_best_header None (set_invalid ({[hash]} ∪ invalid_blocks c) c)) n else n.

Definition child_order (i : Intake) (hash : bytes) : Z := default (umax 64) (unlinked_body_order i !! hash).
Definition compare_children (i : Intake) (l r : bytes) : comparison :=
  then_with (child_order i l ?= child_order i r) (String.compare (hash_to_string l) (hash_to_string r)).
Definition child_le (i : Intake) (l r : bytes) : Prop := compare_children i l r <> Gt.
#[local] Instance child_le_dec i : RelDecision (child_le i).
Proof. intros l r. unfold child_le. destruct (compare_children i l r); [left; done|left; done|right; by intros H]. Defined.

(** The parents whose stored children are next, and the same as a set. *)
Definition enqueue (hash : bytes) (q : list bytes * gset bytes) : list bytes * gset bytes :=
  if bool_decide (hash ∈ q.2) then q else (q.1 ++ [hash], {[hash]} ∪ q.2).

(** One stored child; [connect] is the intake of a body. *)
Definition known_child (connect : Block -> M ChainTip) (sync_storage propagate_validation_errors : bool) (child_hash : bytes)
    (q : list bytes * gset bytes) : M (list bytes * gset bytes) := fun n =>
  match bodies n !! child_hash with
  | None => (n, Ok q)
  | Some child =>
      match connect child n with
      | (n, Err e) =>
          if propagate_validation_errors && should_mark_block_invalid e
          then (mark_block_invalid child_hash n, Err Bail) else (n, Ok q)
      | (n, Ok _) =>
          let n := if sync_storage then n else note_peer_body_chain_ready child_hash n in
          let q := enqueue child_hash q in
          let active_tip := best_hash (chain n) in
          (n, Ok (if bool_decide (active_tip = child_hash) then q else enqueue active_tip q))
      end
  end.

(** The stored children of one parent, in the order of their arrival. *)
Definition known_parent (connect : Block -> M ChainTip) (loop : list bytes * gset bytes -> M ())
    (sync_storage propagate_validation_errors : bool) (parent_hash : bytes) (parents : list bytes) (queued : gset bytes) : M () :=
  fun n =>
    let queued := queued ∖ {[parent_hash]} in
    match pending_body_children (intake n) !! parent_hash with
    | None => loop (parents, queued) n
    | Some children =>
        (let children := merge_sort (child_le (intake n)) children in
         do! modify (on_intake (fun i => set_pending (delete parent_hash (pending_body_children i)) i)) in
         let! q := fold_m (known_child connect sync_storage propagate_validation_errors) children (parents, queued) in
         loop q) n
    end.

(** The orphans that waited for a body; their errors are dropped. *)
Definition connect_orphans (connect : Block -> M ChainTip) (hash : bytes) : M () := fun n =>
  match orphans (intake n) !! hash with
  | None => (n, Ok ())
  | Some waiting =>
      (do! modify (on_intake (fun i => set_orphans (delete hash (orphans i)) i)) in
       for_each (fun child => ignore (connect child)) waiting) n
  end.

(** The stored children, unless an outer call is at them. *)
Definition connect_known_children (loop : M ()) : M () := fun n =>
  if processing_known_children (intake n) then (n, Ok ())
  else let '(n, r) := loop (on_intake (set_processing true) n) in (on_intake (set_processing false) n, r).

(** What follows the intake of a body. *)
Definition settle (connect : Block -> M ChainTip) (loop : bytes -> M ()) (next : Next) : M ChainTip :=
  match next with
  | Finished t => ret t
  | Continue hash note children =>
      do! connect_orphans connect hash in
      do! (if note then modify (note_peer_body_chain_ready hash) else ret ()) in
      do! (if children then connect_known_children (loop hash) else ret ()) in
      do! modify update_ibd_status in
      get_tip
  end.

(** The error of a stored child carries its hash: it is not a plain
    validation error, hence a [Bail].  The fuel bounds the nesting of
    arrivals and the turns of the queue. *)
Fixpoint connect_block_with_existing_body (fuel : nat) (block : Block)
    (allow_existing_body retain_invalid_body sync_storage : bool) {struct fuel} : M ChainTip :=
  match fuel with
  | O => lift (Err Bail)
  | S fuel =>
      let! next := accept_body block allow_existing_body retain_invalid_body sync_storage in
      settle (fun child => connect_block_with_existing_body fuel child true false sync_storage)
        (fun hash => known_children_loop fuel [hash] {[hash]} sync_storage retain_invalid_body) next
  end
with known_children_loop (fuel : nat) (parents : list bytes) (queued : gset bytes)
    (sync_storage propagate_validation_errors : bool) {struct fuel} : M () :=
  match fuel with
  | O => lift (Err Bail)
  | S fuel =>
      match parents with
      | [] => ret ()
      | parent_hash :: parents =>
          known_parent (fun child => connect_block_with_existing_body fuel child true true sync_storage)
            (fun q => known_children_loop fuel q.1 q.2 sync_storage propagate_validation_errors)
            sync_storage propagate_validation_errors parent_hash parents queued
      end
  end.

Lemma connect_body_eq fuel block allow retain sync :
  connect_block_with_existing_body (S fuel) block allow retain sync =
  let! next := accept_body block allow retain sync in
  settle (fun child => connect_block_with_existing_body fuel child true false sync)
    (fun hash => known_children_loop fuel [hash] {[hash]} sync retain) next.
Proof. reflexivity. Qed.

Lemma known_children_eq fuel parent_hash parents queued sync propagate :
  known_children_loop (S fuel) (parent_hash :: parents) queued sync propagate =
  known_parent (fun child => connect_block_with_existing_body fuel child true true sync)
    (fun q => known_children_loop fuel q.1 q.2 sync propagate) sync propagate parent_hash parents queued.
Proof. reflexivity. Qed.

Definition connect_block (fuel : nat) (block : Block) : M ChainTip :=
  connect_block_with_existing_body fuel block false false true.

(** [connect_prepared_block_from_peer] *)
Definition connect_block_from_peer (fuel : nat) (block : Block) : M ChainTip :=
  let! t := connect_block_with_existing_body fuel block false true false in
  do! modify (note_peer_body_chain_ready (block_hash block)) in
  ret t.

(** [finish_received_block] and [handle_peer_block_validation_error]: the
    block that failed is marked. *)
Definition receive_peer_block (fuel : nat) (block : Block) : M ChainTip := fun n =>
  match connect_block_from_peer fuel block n with
  | (n, Err e) => (if should_mark_block_invalid e then mark_block_invalid (block_hash block) n else n, Err e)
  | (n, Ok t) => (n, Ok t)
  end.

(** ** Operator commands *)

Fixpoint descendant_loop (fuel : nat) (c : ChainState) (cursor ancestor : bytes) : bool :=
  match fuel with
  | O => false
  | S fuel =>
      if bool_decide (cursor = ancestor) then true
      else
        match block_index c !! cursor with
        | None => false
        | Some node =>
            if ChainIndex.height node =? 0 then false
            else descendant_loop fuel c (prev_blockhash (ChainIndex.header node)) ancestor
        end
  end.

Definition is_descendant_or_self (c : ChainState) (candidate ancestor : bytes) : bool :=
  descendant_loop (walk_fuel c candidate) c candidate ancestor.

Definition invalidate_block (hash : bytes) : M ChainTip := fun n =>
  match block_index (chain n) !! hash with
  | None => (n, Err Bail)
  | Some node =>
      if ChainIndex.height node =? 0 then (n, Err Bail)
      else
        (do! modify (on_chain (fun c =>
               let invalidated := filter (fun candidate => is_descendant_or_self c candidate hash = true) (dom (block_index c)) in
               set_best_header None (set_invalid (invalid_blocks c ∪ invalidated) c))) in
         do! (fun n =>
                match best_valid_tip_hash (chain n) with
                | None => (n, Err Bail)
                | Some best_valid =>
                    if bool_decide (best_valid = best_hash (chain n)) then (n, Ok ()) else activate_chain best_valid n
                end) in
         get_tip) n
  end.

Definition reconsidered (c : ChainState) (hash : bytes) : gset bytes :=
  filter (fun candidate => is_descendant_or_self c candidate hash || is_descendant_or_self c hash candidate = true)
    (invalid_blocks c).

Definition reconsider_block (hash : bytes) : M ChainTip := fun n =>
  match block_index (chain n) !! hash with
  | None => (n, Err Bail)
  | Some _ =>
      (do! modify (on_chain (fun c => set_best_header None (set_invalid (invalid_blocks c ∖ reconsidered c hash) c))) in
       do! (fun n =>
              match best_valid_tip_hash (chain n) with
              | Some best_valid =>
                  if bool_decide (best_valid = best_hash (chain n)) then (n, Ok ()) else activate_chain best_valid n
              | None => (n, Ok ())
              end) in
       get_tip) n
  end.

(** [i32::saturating_sub] *)
Definition next_precious (z : Z) : Z := Z.max (- 2 ^ 31) (z - 1).

Definition precious_block (hash : bytes) : M ChainTip := fun n =>
  match block_index (chain n) !! hash, tip n with
  | Some node, Ok t =>
      if chain_work node <? tip_work t then (n, Ok t)
      else
        let st := status n in
        let raised := match precious_last_chainwork st with Some last => last <? tip_work t | None => true end in
        let sequence := if raised then -1 else precious_sequence st in
        let n := set_status {| initial_block_download := initial_block_download st;
                               precious_sequence := next_precious sequence;
                               precious_last_chainwork := Some (tip_work t) |}
                   (on_chain (fun c => set_precious (<[hash := sequence]> (precious_blocks c)) c) n) in
        (do! (fun n =>
                match best_valid_tip_hash (chain n) with
                | None => (n, Err Bail)
                | Some best =>
                    if bool_decide (best = best_hash (chain n)) then (n, Ok ()) else activate_chain best n
                end) in
         get_tip) n
  | _, _ => (n, Err Bail)
  end.

(** ** The self check *)

Fixpoint check_active (c : ChainState) (height : nat) (chain : list bytes) (hds : list Header) (counts totals : list Z)
    (cumulative : Z) (parent : option bytes) : bool :=
  match chain, hds, counts, totals with
  | hash :: chain, hd :: hds, count :: counts, total :: totals =>
      match block_index c !! hash with
      | None => false
      | Some node =>
          let cumulative := sat_add 64 cumulative count in
          (Z.of_nat height <=? umax 32) && (ChainIndex.height node =? Z.of_nat height) &&
          bool_decide (header_hash (ChainIndex.header node) = hash) && bool_decide (header_hash hd = hash) &&
          bool_decide (hd = ChainIndex.header node) &&
          match parent with
          | None => true
          | Some parent_hash =>
              bool_decide (prev_blockhash (ChainIndex.header node) = parent_hash) &&
              match block_index c !! parent_hash with
              | None => false
              | Some parent => chain_work node =? chain_work parent + work (ChainIndex.header node)
              end
          end &&
          (total =? cumulative) &&
          check_active c (S height) chain hds counts totals cumulative (Some hash)
      end
  | _, _, _, _ => true
  end.

Definition check_index_entry (c : ChainState) (hash : bytes) (node : BlockNode) : bool :=
  bool_decide (header_hash (ChainIndex.header node) = hash) &&
  (if ChainIndex.height node =? 0 then bool_decide (hash = network_genesis_hash)
   else
     match block_index c !! prev_blockhash (ChainIndex.header node) with
     | None => false
     | Some parent =>
         (ChainIndex.height node =? sat_add 32 (ChainIndex.height parent) 1) &&
         (chain_work node =? chain_work parent + work (ChainIndex.header node))
     end).

Definition check_consistency (n : Node) : bool :=
  let c := chain n in
  bool_decide (hd_error (active_chain c) = Some network_genesis_hash) &&
  bool_decide (length (headers c) = length (active_chain c)) &&
  bool_decide (length (active_tx_counts n) = length (active_chain c)) &&
  bool_decide (length (active_tx_totals n) = length (active_chain c)) &&
  check_active c 0 (active_chain c) (headers c) (active_tx_counts n) (active_tx_totals n) 0 None &&
  forallb (fun '(hash, node) => check_index_entry c hash node) (map_to_list (block_index c)) &&
  forallb (fun hash => bool_decide (is_Some (block_index c !! hash))) (elements (invalid_blocks c)).
End Manager.
