(* ===== verification/ChainReplay.v ===== *)
(** * Chains as ledgers

    What the set of unspent outputs of a chain of blocks is: the ledger run
    from the empty set over its blocks.  The change that the node makes to
    its durable set and to the resident copy when it connects a block is
    that of the ledger, and the undo data takes it back. *)

From Stdlib Require Import ZArith Lia.
From stdpp Require Import base list option gmap sets strings.
From S2P Require Import Prelude Types VersionBits ChainIndex BlockChecks UtxoCodec ConnectBlock Ledger HeaderChecks ChainManager.
Local Open Scope Z_scope.
Local Set Warnings "-clear-no-such-hyp".

Abbreviation coin_map l := (list_to_map l : gmap OutPoint StoredUtxo).

(** ** The change of the set *)

Section Delta.
Context {Ops : BitcoinOps} {HOps : HeaderOps} {SOps : ScriptOps}.

Lemma coinbase_created_coins id outputs index h mtp spent :
  coinbase_created id outputs index h mtp spent = unspent spent (coins id outputs index h mtp true).
Proof.
  revert index. induction outputs as [|o outputs IH]; intros index; [done|]. cbn [coinbase_created coins]. rewrite IH.
  destruct (is_unspendable_script _); [by rewrite andb_false_r|]. rewrite andb_true_r. unfold unspent. cbn [List.filter fst].
  by destruct (negb _).
Qed.

Lemma insert_all_union l u : NoDup l.*1 -> insert_all l u = coin_map l ∪ u.
Proof. apply (add_coins_union l u). Qed.

Lemma size_remove_all l (u : coin_set) :
  NoDup l -> (forall o, o ∈ l -> is_Some (u !! o)) -> (size (remove_all l u) + length l = size u)%nat.
Proof.
  revert u. induction l as [|o l IH]; intros u Hnd Hin; [simpl; lia|].
  apply NoDup_cons in Hnd as [Hnot Hnd]. change (remove_all (o :: l) u) with (remove_all l (delete o u)). cbn [length].
  destruct (Hin o) as [e He]; [left|]. pose proof (map_size_delete_Some o u (mk_is_Some _ _ He)) as Hs.
  assert (0 < size u)%nat.
  { destruct (size u) eqn:Es; [|lia]. apply map_size_empty_inv in Es. subst u. by rewrite lookup_empty in He. }
  rewrite <- (IH (delete o u) Hnd) in Hs; [lia|]. intros o' Ho'. rewrite lookup_delete_ne by (intros ->; done). apply Hin. by right.
Qed.

Lemma size_insert_all l (u : coin_set) :
  NoDup l.*1 -> (forall o, o ∈ l.*1 -> u !! o = None) -> size (insert_all l u) = (size u + length l)%nat.
Proof.
  revert u. induction l as [|[o e] l IH]; intros u Hnd Hin; [simpl; lia|].
  apply NoDup_cons in Hnd as [Hnot Hnd]. change (insert_all ((o, e) :: l) u) with (insert_all l (<[o := e]> u)). cbn [length].
  rewrite IH; [|done|].
  - rewrite map_size_insert_None; [lia|]. apply Hin. left.
  - intros o' Ho'. rewrite lookup_insert_ne by (intros <-; done). apply Hin. by right.
Qed.

Section Block.
Context (u u' : coin_set) (block : Block) (h mtp : Z) (cb : Transaction) (txs : list Transaction) (pg : Progress)
        (a : BlockApplication).
Hypothesis Htx : txdata block = cb :: txs.
Hypothesis Hfit : Forall outputs_fit (txdata block).
Hypothesis Hids : NoDup (map compute_txid (txdata block)).
Hypothesis Hfresh : block_fresh u block.
Hypothesis Htr : tracks u (tx_coins h mtp true cb) pg u' (all_coins h mtp txs 1).
Hypothesis Hold : forall o e, u !! o = Some e -> UtxoCodec.height e <> h.
(** The application, with or without its spent entries. *)
Hypothesis Ha : spent_outpoints a = pg_spent pg /\ created_entries a = pg_created pg /\ same_block_spent a = pg_same_block pg.
Hypothesis Hent : spent_entries a = pg_spent_entries pg \/ spent_entries a = [].

Abbreviation L := (all_coins h mtp txs 1).
Abbreviation CB := (tx_coins h mtp true cb).
Abbreviation D := (delta_created block h mtp a).

Lemma cb_fits : Z.of_nat (0 + length (tx_output cb)) <= 2 ^ 32.
Proof. rewrite Htx in Hfit. apply Forall_cons in Hfit as [Hf _]. unfold outputs_fit in Hf. lia. Qed.

Lemma delta_unspent : D = unspent (pg_spent pg) (map_to_list (pg_created pg)) ++ unspent (pg_spent pg) CB.
Proof.
  unfold delta_created. destruct Ha as (-> & -> & _). rewrite Htx, coinbase_created_coins. done.
Qed.

Lemma all_coins_spec h' mtp' l i o e : (o, e) ∈ all_coins h' mtp' l i -> UtxoCodec.height e = h' /\ exists t, t ∈ l /\ o ∈ transaction_outpoints t.
Proof.
  revert i. induction l as [|t l IH]; intros i; [by intros ?%not_elem_of_nil|]. cbn [all_coins].
  intros [Hin|Hin]%elem_of_app.
  - split; [|exists t; split; [left|]].
    + by apply coins_spec in Hin as (? & ? & _ & _ & _ & ->).
    + apply (tx_coins_key h' mtp' (bool_decide (i = 0%nat))). apply list_elem_of_fmap. by exists (o, e).
  - destruct (IH _ Hin) as [? (t' & ? & ?)]. split; [done|]. exists t'. split; [by right|done].
Qed.

Lemma made_fresh o : o ∈ L.*1 \/ o ∈ CB.*1 -> u !! o = None.
Proof.
  intros [([o' e] & -> & Hin)%list_elem_of_fmap|Hin].
  - destruct (all_coins_spec _ _ _ _ _ _ Hin) as [_ (t & Ht & Ho)]. apply (Hfresh t); [rewrite Htx; by right|done].
  - apply (Hfresh cb); [rewrite Htx; left|by apply (tx_coins_key h mtp true)].
Qed.

Lemma delta_lookup o :
  coin_map D !! o = if decide (o ∈ pg_spent pg) then None else (coin_map L ∪ coin_map CB) !! o.
Proof.
  rewrite delta_unspent, list_to_map_app, lookup_union, !unspent_lookup
    by (apply NoDup_fst_map_to_list || apply coins_NoDup, cb_fits).
  rewrite list_to_map_to_list, (tr_created _ _ _ _ _ Htr). destruct (decide _); [done|]. by rewrite lookup_union.
Qed.

Lemma delta_NoDup : NoDup D.*1.
Proof.
  rewrite delta_unspent, fmap_app. apply NoDup_app. split; [apply unspent_NoDup, NoDup_fst_map_to_list|].
  split; [|apply unspent_NoDup, coins_NoDup, cb_fits]. intros o Ho Ho'.
  assert (Hl : is_Some (coin_map (unspent (pg_spent pg) (map_to_list (pg_created pg))) !! o)) by (by apply coin_map_Some).
  assert (Hc : is_Some (coin_map (unspent (pg_spent pg) CB) !! o)) by (by apply coin_map_Some).
  rewrite unspent_lookup in Hl by apply NoDup_fst_map_to_list. rewrite unspent_lookup in Hc by apply coins_NoDup, cb_fits.
  destruct (decide _); [by destruct Hl|]. rewrite list_to_map_to_list, (tr_created _ _ _ _ _ Htr), decide_False in Hl by done.
  apply coin_map_Some, all_coins_txid in Hl. apply coin_map_Some, tx_coins_txid in Hc. rewrite Htx in Hids.
  cbn [map] in Hids. apply NoDup_cons in Hids as [Hnot _]. by rewrite Hc in Hl.
Qed.

(** Coins that leave the durable set: spent and not made in this block. *)
Lemma removals_spec o :
  o ∈ persistent_removals h a <-> o ∈ pg_spent pg /\ is_Some (u !! o).
Proof.
  unfold persistent_removals. destruct Ha as (Hsp & _ & Hsb). destruct (spent_entries a) as [|p l] eqn:Ea.
  - rewrite list_elem_of_In, filter_In, <- list_elem_of_In, elem_of_elements, Hsp, Hsb, negb_true_iff, bool_decide_eq_false.
    split; intros [Ho Hn]; (split; [done|]).
    + by destruct (tr_spent _ _ _ _ _ Htr o Ho).
    + intros Hs%(tr_same _ _ _ _ _ Htr). rewrite made_fresh in Hn by tauto. by destruct Hn.
  - destruct Hent as [He|?]; [|done]. rewrite He. rewrite list_elem_of_In, in_map_iff. split.
    + intros ([o' e] & <- & Hin). rewrite filter_In, <- list_elem_of_In in Hin. destruct Hin as [Hin Hh%negb_true_iff].
      cbn [fst snd] in *. split.
      * rewrite (tr_entries _ _ _ _ _ Htr), elem_of_list_to_set. apply list_elem_of_fmap. by exists (o', e).
      * destruct (tr_source _ _ _ _ _ Htr _ _ Hin) as [Hu|Hl]; [by eexists|].
        destruct (all_coins_spec _ _ _ _ _ _ Hl) as [Hz _]. apply Z.eqb_neq in Hh. done.
    + intros [Ho Hs]. rewrite (tr_entries _ _ _ _ _ Htr), elem_of_list_to_set in Ho.
      apply list_elem_of_fmap in Ho as ([o' e] & -> & Hin). exists (o', e). split; [done|].
      rewrite filter_In, <- list_elem_of_In. split; [done|]. cbn [snd fst] in *. apply negb_true_iff, Z.eqb_neq.
      destruct (tr_source _ _ _ _ _ Htr _ _ Hin) as [Hu|Hl]; [by apply (Hold o')|].
      rewrite made_fresh in Hs; [by destruct Hs|]. left. apply list_elem_of_fmap. by exists (o', e).
Qed.

Lemma removals_NoDup : NoDup (persistent_removals h a).
Proof.
  unfold persistent_removals. destruct (spent_entries a) as [|p l] eqn:Ea.
  - apply NoDup_ListNoDup, List.NoDup_filter, NoDup_ListNoDup, NoDup_elements.
  - destruct Hent as [He|?]; [|done]. rewrite He. pose proof (tr_distinct _ _ _ _ _ Htr) as Hnd. revert Hnd.
    generalize (pg_spent_entries pg). induction l0 as [|[o e] l0 IH]; [constructor|]. cbn [fmap list_fmap].
    intros [Hnot Hnd]%NoDup_cons. cbn [List.filter snd]. destruct (negb _); [|by apply IH]. cbn [map]. apply NoDup_cons.
    split; [|by apply IH]. intros Hin. apply Hnot. rewrite list_elem_of_In, in_map_iff in Hin. destruct Hin as ([o' e'] & <- & Hin).
    rewrite filter_In, <- list_elem_of_In in Hin. apply list_elem_of_fmap. exists (o', e'). tauto.
Qed.

Lemma delta_new o : o ∈ D.*1 -> u !! o = None.
Proof.
  intros Ho. apply made_fresh. apply coin_map_Some in Ho. rewrite delta_lookup in Ho. destruct (decide _); [by destruct Ho|].
  rewrite lookup_union in Ho. destruct (coin_map L !! o) eqn:El; [left; apply coin_map_Some; by eexists|].
  right. apply coin_map_Some. destruct (coin_map CB !! o); [by eexists|by destruct Ho].
Qed.

(** The durable set after the batch is the ledger's, and its count is exact. *)
Lemma delta_batch :
  insert_all D (remove_all (persistent_removals h a) u) = u' /\
  Z.of_nat (length (persistent_removals h a)) <= Z.of_nat (size u) /\
  Z.of_nat (size u') = Z.of_nat (size u) - Z.of_nat (length (persistent_removals h a)) + Z.of_nat (length D).
Proof.
  assert (Hin : insert_all D (remove_all (persistent_removals h a) u) = u').
  { rewrite insert_all_union by apply delta_NoDup. apply map_eq. intros o.
    rewrite lookup_union, delta_lookup, remove_all_lookup, (tr_seq _ _ _ _ _ Htr), !lookup_union.
    destruct (decide (o ∈ pg_spent pg)) as [Hs|Hs]; [|rewrite (decide_False (P := o ∈ persistent_removals h a))
      by (rewrite removals_spec; tauto); done].
    destruct (decide (o ∈ persistent_removals h a)) as [Hr|Hr]; [done|]. destruct (u !! o) eqn:Eu; [|done].
    exfalso. apply Hr, removals_spec. split; [done|]. by eexists. }
  split; [done|].
  pose proof (size_remove_all (persistent_removals h a) u removals_NoDup (fun o Ho => proj2 (proj1 (removals_spec o) Ho))) as Hr.
  split; [lia|]. rewrite <- Hin, size_insert_all; [lia|apply delta_NoDup|].
  intros o Ho. rewrite remove_all_lookup. destruct (decide _); [done|]. by apply delta_new.
Qed.

(** The resident copy takes the same step. *)
Lemma delta_resident : connect_utxos true D a u = u'.
Proof.
  unfold connect_utxos.
  set (gone := match spent_entries a with [] => remove_all (elements (spent_outpoints a)) u
               | entries => remove_all (map fst entries) u end).
  assert (Hg : forall o, gone !! o = if decide (o ∈ pg_spent pg) then None else u !! o).
  { intros o. unfold gone. destruct Ha as (Hsp & _). destruct (spent_entries a) as [|p l] eqn:Ea.
    - rewrite remove_all_lookup, Hsp. apply decide_ext. apply elem_of_elements.
    - destruct Hent as [He|?]; [|done]. rewrite He, remove_all_lookup. apply decide_ext.
      by rewrite (tr_entries _ _ _ _ _ Htr), elem_of_list_to_set. }
  rewrite insert_all_union by apply delta_NoDup. apply map_eq. intros o.
  rewrite lookup_union, delta_lookup, (tr_seq _ _ _ _ _ Htr), !lookup_union. fold gone. rewrite Hg. by destruct (decide _).
Qed.
End Block.
End Delta.

(** ** Chains *)

(** What the libraries and the network parameters guarantee: hashes do not
    collide, a transaction id commits to the inputs, nothing hashes to the
    parent of the genesis block, counts are not negative, and the network has no BIP34 exemption from
    BIP30 (signet, testnet4 and regtest have none). *)
Class ChainLaws `{BitcoinOps} `{HeaderOps} `{PowOps} (cf : Config) (net : Network) : Prop := {
  law_header_hash : forall a b, header_hash a = header_hash b -> a = b;
  law_block_hash : forall b, block_hash b = header_hash (blk_header b);
  law_txid : forall t t', compute_txid t = compute_txid t' -> tx_inputs t = tx_inputs t';
  law_coinbase : forall t t', tx_inputs t = tx_inputs t' -> is_coinbase t = is_coinbase t';
  law_sigops : forall script, 0 <= count_sigops_legacy script;
  law_genesis : forall hd, header_hash hd <> prev_blockhash (blk_header (cf_genesis cf));
  law_interval : 0 < difficulty_adjustment_interval net;
  law_bip30 : bip34_activation_hash net = None;
}.

(** What decoding guarantees of a block: indexes and amounts fit their types,
    and a block of a few megabytes has far fewer than 2^31 outputs. *)
Definition block_sane (b : Block) : Prop :=
  Forall outputs_fit (txdata b) /\ Forall outputs_ok (txdata b) /\ Z.of_nat (outputs_count b) <= umax 31.

Section Chains.
Context {Ops : BitcoinOps} {HOps : HeaderOps} {SOps : ScriptOps} {POps : PowOps} (cf : Config) (net : Network)
        `{!ChainLaws cf net}.

Abbreviation g := (network_genesis_hash cf).
Abbreviation subsidy := (block_subsidy_for_network net).

(** Block [b] at height [h] takes the set [u] to [u'], spending [ess]. *)
Record connected (c : ChainState) (bs : gmap bytes Block) (h : nat) (u : coin_set) (b : Block) (mtp : Z)
    (ess : list (list StoredUtxo)) (u' : coin_set) : Prop := {
  cd_body : bs !! block_hash b = Some b;
  cd_node : exists node, block_index c !! block_hash b = Some node /\ ChainIndex.header node = blk_header b /\
              ChainIndex.height node = Z.of_nat h;
  cd_mtp : median_time_past_for_parent c (prev_blockhash (blk_header b)) = Some mtp;
  cd_sane : block_sane b;
  cd_ids : NoDup (map compute_txid (txdata b));
  cd_fresh : block_fresh u b;
  cd_connects : exists entries, connects (Z.of_nat h) mtp (subsidy (Z.of_nat h)) b u entries ess u';
}.

(** The chain [l] of stored blocks has the set [u]. *)
Inductive replays (c : ChainState) (bs : gmap bytes Block) : list bytes -> coin_set -> Prop :=
| replays_start : replays c bs [g] ∅
| replays_next l u b mtp ess u' :
    replays c bs l u -> list.last l = Some (prev_blockhash (blk_header b)) ->
    connected c bs (length l) u b mtp ess u' -> replays c bs (l ++ [block_hash b]) u'.

(** The undo record of a block. *)
Definition undo_data (ess : list (list StoredUtxo)) : list (list StoredUndo) := [] :: map (map undo_of) ess.

Lemma replays_inv c bs l hash u' :
  replays c bs (l ++ [hash]) u' ->
  (l = [] /\ hash = g /\ u' = ∅) \/
  exists u b mtp ess, hash = block_hash b /\ replays c bs l u /\ list.last l = Some (prev_blockhash (blk_header b)) /\
    connected c bs (length l) u b mtp ess u'.
Proof.
  inversion 1 as [Hl|l0 u b mtp ess u0 Hr Hlast Hc Hl]; subst.
  - left. destruct l as [|x l]; [by injection Hl as <-|]. by destruct l.
  - apply app_inj_tail in Hl as [-> <-]. right. by exists u, b, mtp, ess.
Qed.

Lemma replays_nonempty c bs l u : replays c bs l u -> l <> [].
Proof. intros [|]; [done|]. by destruct l0. Qed.

Lemma replays_head c bs l u : replays c bs l u -> head l = Some g.
Proof. induction 1 as [|l u b mtp ess u' Hr IH _ _]; [done|]. by destruct l. Qed.

Lemma connects_unique h mtp s b u e1 e2 ess1 ess2 u1 u2 :
  connects h mtp s b u e1 ess1 u1 -> connects h mtp s b u e2 ess2 u2 -> ess1 = ess2 /\ u1 = u2.
Proof.
  intros H1 H2. pose proof (cn_ledger _ _ _ _ _ _ _ _ H1) as E1. rewrite (cn_ledger _ _ _ _ _ _ _ _ H2) in E1.
  by injection E1 as -> ->.
Qed.

Lemma connected_unique c bs h u b b' mtp mtp' ess ess' u1 u2 :
  block_hash b = block_hash b' -> connected c bs h u b mtp ess u1 -> connected c bs h u b' mtp' ess' u2 ->
  b = b' /\ mtp = mtp' /\ ess = ess' /\ u1 = u2.
Proof.
  intros Hb H1 H2. pose proof (cd_body _ _ _ _ _ _ _ _ H1) as E1. rewrite Hb, (cd_body _ _ _ _ _ _ _ _ H2) in E1.
  injection E1 as ->. pose proof (cd_mtp _ _ _ _ _ _ _ _ H1) as Em. rewrite (cd_mtp _ _ _ _ _ _ _ _ H2) in Em. injection Em as ->.
  destruct (cd_connects _ _ _ _ _ _ _ _ H1) as [e1 Hc1], (cd_connects _ _ _ _ _ _ _ _ H2) as [e2 Hc2].
  destruct (connects_unique _ _ _ _ _ _ _ _ _ _ _ Hc1 Hc2). done.
Qed.

Lemma replays_unique c bs l u1 u2 : replays c bs l u1 -> replays c bs l u2 -> u1 = u2.
Proof.
  intros H. revert u2. induction H as [|l u b mtp ess u' Hr IH Hl Hc]; intros u2 H2.
  - apply (replays_inv c bs [] g) in H2 as [(_ & _ & ->)|(u & b & mtp & ess & _ & Hr & _)]; [done|].
    by apply replays_nonempty in Hr.
  - apply replays_inv in H2 as [(-> & _)|(u0 & b0 & mtp0 & ess0 & Hb & Hr0 & _ & Hc0)]; [by apply replays_nonempty in Hr|].
    rewrite <- (IH _ Hr0) in Hc0. by destruct (connected_unique _ _ _ _ _ _ _ _ _ _ _ _ Hb Hc Hc0) as (_ & _ & _ & ->).
Qed.

(** The index of a running node. *)
Definition genesis_node : BlockNode :=
  {| ChainIndex.header := blk_header (cf_genesis cf); ChainIndex.height := 0;
     chain_work := work (blk_header (cf_genesis cf)); ChainIndex.skip := None |}.

Record chain_ok (c : ChainState) : Prop := {
  ck_wf : index_wf c;
  ck_network : ChainIndex.network c = net;
  ck_hash : forall hash node, block_index c !! hash = Some node -> header_hash (ChainIndex.header node) = hash;
  ck_genesis : block_index c !! g = Some genesis_node;
  ck_sequence : forall hash, is_Some (block_index c !! hash) -> is_Some (header_sequence_ids c !! hash);
}.

Lemma connected_not_genesis c bs h u b mtp ess u' :
  chain_ok c -> connected c bs h u b mtp ess u' -> (0 < h)%nat -> block_hash b <> g.
Proof.
  intros Hok Hc Hh Hb. destruct (cd_node _ _ _ _ _ _ _ _ Hc) as (node & En & _ & Hn).
  rewrite Hb, (ck_genesis c Hok) in En. injection En as <-. simpl in Hn. lia.
Qed.

Lemma replays_length c bs l u : replays c bs l u -> (0 < length l)%nat.
Proof. intros Hr%replays_nonempty. destruct l; [done|simpl; lia]. Qed.

(** A chain is determined by its last block. *)
Lemma replays_path c bs l l' u u' :
  chain_ok c -> replays c bs l u -> replays c bs l' u' -> list.last l = list.last l' -> l = l'.
Proof.
  intros Hok H. revert l' u'. induction H as [|l u b mtp ess u1 Hr IH Hl Hc]; intros l' u' H' Hlast;
    (inversion H' as [|l0 u0 b0 mtp0 ess0 u2 Hr0 Hl0 Hc0]; subst).
  - done.
  - rewrite last_snoc in Hlast. injection Hlast as Hb. symmetry in Hb.
    by apply (connected_not_genesis _ _ _ _ _ _ _ _ Hok Hc0 (replays_length _ _ _ _ Hr0)) in Hb.
  - rewrite last_snoc in Hlast. injection Hlast as Hb.
    by apply (connected_not_genesis _ _ _ _ _ _ _ _ Hok Hc (replays_length _ _ _ _ Hr)) in Hb.
  - rewrite !last_snoc in Hlast. injection Hlast as Hb. f_equal; [|by rewrite Hb]. apply (IH _ u0 Hr0). rewrite Hl, Hl0.
    rewrite !law_block_hash in Hb. by apply law_header_hash in Hb as ->.
Qed.

(** What holds of the coins of a chain. *)
Lemma replays_coins c bs l u :
  replays c bs l u -> amounts_ok u /\ forall o e, u !! o = Some e -> UtxoCodec.height e < Z.of_nat (length l).
Proof.
  induction 1 as [|l u b mtp ess u' Hr [Ha Hh] Hl Hc]; [split; [apply map_Forall_empty|]; intros o e; by rewrite lookup_empty|].
  destruct (cd_connects _ _ _ _ _ _ _ _ Hc) as [entries Hcn]. destruct (cd_sane _ _ _ _ _ _ _ _ Hc) as (Hfit & Hok & _).
  pose proof (cn_ledger _ _ _ _ _ _ _ _ Hcn) as E. split; [by apply (ledger_amounts _ _ _ _ _ _ E)|].
  intros o e He. rewrite length_app. simpl. destruct (ledger_heights _ _ _ _ _ _ _ _ E Hfit He) as [H%Hh| ->]; lia.
Qed.

Lemma replays_take c bs l u k :
  replays c bs l u -> (0 < k <= length l)%nat -> exists u0, replays c bs (take k l) u0.
Proof.
  induction 1 as [|l u b mtp ess u' Hr IH Hl Hc]; intros Hk.
  - exists ∅. simpl in Hk. replace k with 1%nat by lia. constructor.
  - rewrite length_app in Hk. simpl in Hk. destruct (decide (k <= length l)%nat).
    + rewrite take_app_le by lia. apply IH. lia.
    + rewrite take_ge by (rewrite length_app; simpl; lia). exists u'. by apply (replays_next _ _ l u b mtp ess).
Qed.

(** Taking the last block back. *)
Lemma connected_disconnect c bs h u b mtp ess u' :
  amounts_ok u -> connected c bs h u b mtp ess u' -> disconnect_block_from_utxos u' b (undo_data ess) = Ok u.
Proof.
  intros Ha Hc. destruct (cd_connects _ _ _ _ _ _ _ _ Hc) as [entries Hcn].
  destruct (cd_sane _ _ _ _ _ _ _ _ Hc) as (Hfit & Hok & _). pose proof (cn_ledger _ _ _ _ _ _ _ _ Hcn) as E.
  apply (ledger_disconnect net (Z.of_nat h) mtp); [done|apply Hcn|done|apply Hc|apply Hc|].
  by apply (ledger_amounts _ _ _ _ _ _ E).
Qed.

Lemma connected_ext c c' bs bs' h u b mtp ess u' :
  extends_index c c' -> bs ⊆ bs' -> connected c bs h u b mtp ess u' -> connected c' bs' h u b mtp ess u'.
Proof.
  intros Hext Hb Hc. destruct (cd_node _ _ _ _ _ _ _ _ Hc) as (node & En & Hhd & Hh). split; try apply Hc.
  - apply (lookup_weaken bs); [apply Hc|done].
  - exists node. split; [by apply (ext_lookup _ _ Hext)|done].
  - pose proof (cd_mtp _ _ _ _ _ _ _ _ Hc) as Hm. unfold median_time_past_for_parent in *.
    destruct (block_index c !! prev_blockhash (blk_header b)) as [p|] eqn:Ep; [by rewrite (parent_times_ext _ _ Hext _ _ p Ep)|].
    cbn [parent_times] in Hm. by rewrite Ep in Hm.
Qed.

(** A larger index and a larger store keep the chains. *)
Lemma replays_ext c c' bs bs' l u :
  chain_ok c -> extends_index c c' -> bs ⊆ bs' -> replays c bs l u -> replays c' bs' l u.
Proof.
  intros Hok Hext Hb. induction 1 as [|l u b mtp ess u' Hr IH Hl Hc]; [constructor|].
  apply (replays_next _ _ l u b mtp ess); [done|done|]. by apply (connected_ext c c' bs bs').
Qed.

(** ** How large a set can get *)

(** The outputs of all stored blocks. *)
Definition stored_outputs (bs : gmap bytes Block) : nat := map_fold (fun _ b n => (outputs_count b + n)%nat) 0%nat bs.

Lemma stored_outputs_insert bs hash b :
  bs !! hash = None -> stored_outputs (<[hash := b]> bs) = (outputs_count b + stored_outputs bs)%nat.
Proof. intros H. unfold stored_outputs. rewrite map_fold_insert_L; [done|intros; lia|done]. Qed.

Lemma stored_outputs_mono bs bs' : bs ⊆ bs' -> (stored_outputs bs <= stored_outputs bs')%nat.
Proof.
  revert bs'. induction bs as [|hash b bs Hn IH] using map_ind; intros bs' Hsub; [unfold stored_outputs; rewrite map_fold_empty; lia|].
  rewrite stored_outputs_insert by done. assert (Hb : bs' !! hash = Some b) by (apply (lookup_weaken (<[hash:=b]> bs)); [apply lookup_insert_eq|done]).
  rewrite <- (insert_delete_id bs' hash b Hb), stored_outputs_insert by apply lookup_delete_eq.
  apply Nat.add_le_mono_l, IH. apply map_subseteq_spec. intros k x Hx. destruct (decide (k = hash)) as [->|Hne]; [by rewrite Hn in Hx|].
  rewrite lookup_delete_ne by done. apply (lookup_weaken (<[hash:=b]> bs)); [by rewrite lookup_insert_ne|done].
Qed.

Lemma stored_outputs_bound bs k :
  (forall hash b, bs !! hash = Some b -> (outputs_count b <= k)%nat) -> (stored_outputs bs <= size bs * k)%nat.
Proof.
  induction bs as [|hash b bs Hn IH] using map_ind; intros Hk; [unfold stored_outputs; rewrite map_fold_empty; lia|].
  rewrite stored_outputs_insert, map_size_insert_None by done. pose proof (Hk hash b (lookup_insert_eq _ _ _)).
  enough (stored_outputs bs <= size bs * k)%nat by lia. apply IH. intros h x Hx. apply (Hk h). rewrite lookup_insert_ne; [done|].
  intros ->. by rewrite Hn in Hx.
Qed.

Lemma replays_size c bs l u : chain_ok c -> replays c bs l u -> (size u <= stored_outputs bs)%nat.
Proof.
  intros Hok Hr. enough ((size u <= stored_outputs (filter (fun p => p.1 ∈ l) bs))%nat /\
    forall hash, hash ∈ l -> exists node, block_index c !! hash = Some node /\ ChainIndex.height node < Z.of_nat (length l)) as [Hs _].
  { pose proof (stored_outputs_mono (filter (fun p => p.1 ∈ l) bs) bs (map_filter_subseteq _ _)). lia. }
  induction Hr as [|l u b mtp ess u' Hr [IH Hi] Hl Hc].
  { split; [rewrite map_size_empty; lia|]. intros hash ->%list_elem_of_singleton. exists genesis_node. split; [apply Hok|done]. }
  destruct (cd_node _ _ _ _ _ _ _ _ Hc) as (node & En & _ & Hh). rewrite length_app. cbn [length].
  assert (Hnot : block_hash b ∉ l).
  { intros Hin. destruct (Hi _ Hin) as (node' & En' & Hh'). rewrite En in En'. injection En' as <-. lia. }
  split.
  - replace (filter (fun p => p.1 ∈ l ++ [block_hash b]) bs) with (<[block_hash b := b]> (filter (fun p : bytes * Block => p.1 ∈ l) bs)).
    2: { apply map_eq. intros k. destruct (decide (k = block_hash b)) as [->|Hne].
         - rewrite lookup_insert_eq. symmetry. apply map_lookup_filter_Some_2; [apply Hc|]. cbn [fst]. set_solver.
         - rewrite lookup_insert_ne by done. apply option_eq. intros x. rewrite !map_lookup_filter_Some. cbn [fst]. set_solver. }
    rewrite stored_outputs_insert; [|apply map_lookup_filter_None_2; right; by intros ? _].
    destruct (cd_connects _ _ _ _ _ _ _ _ Hc) as [entries Hcn]. pose proof (ledger_size _ _ _ _ _ _ (cn_ledger _ _ _ _ _ _ _ _ Hcn)). lia.
  - intros hash [Hin|Hin%list_elem_of_singleton]%elem_of_app.
    + destruct (Hi _ Hin) as (node' & En' & Hh'). exists node'. split; [done|lia].
    + subst hash. exists node. split; [done|lia].
Qed.

(** ** Replaying a chain with the ledger *)

Fixpoint ledger_path (c : ChainState) (bs : gmap bytes Block) (h : nat) (path : list bytes) (u : coin_set) : option coin_set :=
  match path with
  | [] => Some u
  | hash :: path =>
      b ← bs !! hash;
      mtp ← median_time_past_for_parent c (prev_blockhash (blk_header b));
      '(_, u) ← ledger_block (Z.of_nat h) mtp b u;
      ledger_path c bs (S h) path u
  end.

Lemma ledger_path_app c bs h p1 p2 u :
  ledger_path c bs h (p1 ++ p2) u = u ← ledger_path c bs h p1 u; ledger_path c bs (h + length p1) p2 u.
Proof.
  revert h u. induction p1 as [|hash p1 IH]; intros h u; cbn [app ledger_path length].
  { cbn [mbind option_bind]. by rewrite Nat.add_0_r. }
  destruct (bs !! hash) as [b|]; [|done]. cbn [mbind option_bind]. destruct (median_time_past_for_parent _ _); [|done].
  cbn [mbind option_bind]. destruct (ledger_block _ _ _ _) as [[ess u1]|]; [|done]. cbn [mbind option_bind].
  rewrite IH. by rewrite Nat.add_succ_comm.
Qed.

(** The sum of the subsidies of the heights from 1 to [n]. *)
Definition subsidies (n : nat) : Z := sum (map (fun i => subsidy (Z.of_nat i)) (seq 1 n)).

Lemma replays_ledger c bs l u :
  replays c bs l u -> ledger_path c bs 1 (tail l) ∅ = Some u /\ utxo_total u <= subsidies (length l - 1).
Proof.
  induction 1 as [|l u b mtp ess u' Hr [IH Ht] Hl Hc]; [done|].
  pose proof (replays_length _ _ _ _ Hr) as Hpos.
  assert (Htl : (1 + length (tail l))%nat = length l) by (destruct l; simpl in *; lia).
  assert (Happ : tail (l ++ [block_hash b]) = tail l ++ [block_hash b]) by (by destruct l; [simpl in Hpos; lia|]).
  destruct (cd_connects _ _ _ _ _ _ _ _ Hc) as [entries Hcn]. destruct (cd_sane _ _ _ _ _ _ _ _ Hc) as (Hfit & Hok & _). split.
  - rewrite Happ, ledger_path_app, IH. cbn [mbind option_bind ledger_path]. rewrite (cd_body _ _ _ _ _ _ _ _ Hc). cbn [mbind option_bind].
    rewrite (cd_mtp _ _ _ _ _ _ _ _ Hc). cbn [mbind option_bind].
    by rewrite Htl, (cn_ledger _ _ _ _ _ _ _ _ Hcn).
  - destruct (connects_total _ _ _ _ _ _ _ _ Hcn) as [_ Hle]; [apply Hc|done|done|apply Hc|by apply (replays_coins c bs l u)|].
    rewrite length_app. cbn [length]. replace (length l + 1 - 1)%nat with (S (length l - 1)) by lia.
    unfold subsidies in *. rewrite seq_S, map_app. unfold sum in *. rewrite foldr_app. cbn [map foldr].
    assert (Hs : forall z zs, foldr Z.add z zs = foldr Z.add 0 zs + z) by (intros z zs; induction zs; simpl; lia).
    rewrite Hs. replace (1 + (length l - 1))%nat with (length l) by lia. lia.
Qed.

(** ** An accepted block *)

Lemma bip30_enforced c params h hash parent : ChainIndex.network c = net -> enforce_bip30 c params h hash parent = true.
Proof.
  intros Hn. unfold enforce_bip30. rewrite Hn. destruct (_ <=? _); [done|]. unfold is_bip30_repeat.
  pose proof law_bip30 as Hb. by destruct net.
Qed.

Record accepted_block (cache : gset bytes) (h : Z) (mtp : Z) (b : Block) (u : coin_set) (retain : bool) (a : BlockApplication)
    (ess : list (list StoredUtxo)) (u' : coin_set) : Prop := {
  ab_ids : NoDup (map compute_txid (txdata b));
  ab_fresh : block_fresh u b;
  ab_connects : exists entries, connects h mtp (subsidy h) b u entries ess u';
  ab_undo : retain = true -> cache_block_undo b (spent_entries a) = Ok (undo_data ess);
  ab_apply : retain = true -> apply_block_to_utxos u b h mtp (spent_entries a) = u';
  ab_batch : insert_all (delta_created b h mtp a) (remove_all (persistent_removals h a) u) = u';
  ab_removals : NoDup (persistent_removals h a) /\ forall o, o ∈ persistent_removals h a -> is_Some (u !! o);
  ab_created : NoDup (delta_created b h mtp a).*1 /\ forall o, o ∈ (delta_created b h mtp a).*1 -> u !! o = None;
  ab_room : Z.of_nat (length (persistent_removals h a)) <= Z.of_nat (size u);
  ab_count : Z.of_nat (size u') =
    Z.of_nat (size u) - Z.of_nat (length (persistent_removals h a)) + Z.of_nat (length (delta_created b h mtp a));
  ab_resident : connect_utxos true (delta_created b h mtp a) a u = u';
}.

Lemma structure_inputs b h :
  validate_block_structure cf b h = Ok () ->
  Forall (fun t => tx_input t <> []) (txdata b) /\
  forall cb t, hd_error (txdata b) = Some cb -> t ∈ tail (txdata b) -> tx_inputs t <> tx_inputs cb.
Proof.
  unfold validate_block_structure. intros ([tc tot] & E%map_err_Ok & _)%rbind_Ok.
  apply structure_sound in E as (cb & others & Htx & Hcb & Hoth & _ & Hs & _); [|apply (law_sigops (cf:=cf) (net:=net))]. split.
  - eapply Forall_impl; [exact Hs|]. intros t Ht. apply Ht.
  - rewrite Htx. cbn [hd_error tail]. intros ? t [= <-] Ht Heq. rewrite Forall_forall in Hoth.
    specialize (Hoth t Ht). by rewrite (law_coinbase (cf:=cf) (net:=net) _ _ Heq), Hcb in Hoth.
Qed.

Lemma validate_accepted c cache b h u mtp skip retain a :
  ChainIndex.network c = net ->
  validate_block_transactions c (cf_params cf) cache b (map compute_txid (txdata b)) h u mtp skip retain = Ok a ->
  validate_block_structure cf b h = Ok () -> block_sane b -> (forall o e, u !! o = Some e -> UtxoCodec.height e <> h) ->
  exists ess u', accepted_block cache h mtp b u retain a ess u'.
Proof.
  intros Hn E Hst (Hfit & Hok & _) Hold. destruct (structure_inputs b h Hst) as [Hne Hcb].
  pose proof (validate_distinct _ _ _ _ _ _ _ _ _ _ E Hne Hcb (law_txid (cf:=cf) (net:=net))) as Hids.
  assert (Ha : exists a0, validate_block_transactions c (cf_params cf) cache b (map compute_txid (txdata b)) h u mtp skip true = Ok a0 /\
    (if retain then a = a0 else a = forget_entries a0)).
  { destruct retain; [by exists a|]. rewrite validate_retention in E.
    destruct (validate_block_transactions _ _ _ _ _ _ _ _ _ _) as [a0|]; [|done]. exists a0. cbn [rmap] in E.
    split; [done|]. by apply Ok_inj in E. }
  destruct Ha as (a0 & E0 & Ha).
  destruct (connect_tracks _ _ _ _ _ _ _ _ _ E0 Hfit Hids) as [Hf (cb & txs & ess & u' & pg & Htx & Hc & Htr & Hap)].
  { by rewrite bip30_enforced. }
  rewrite Hn in Hc. exists ess, u'. destruct Hap as (Hp1 & Hp2 & Hp3 & Hp4).
  assert (Hsets : spent_outpoints a = pg_spent pg /\ created_entries a = pg_created pg /\ same_block_spent a = pg_same_block pg)
    by (destruct retain; subst; done).
  assert (Hent : spent_entries a = pg_spent_entries pg \/ spent_entries a = []) by (destruct retain; subst; tauto).
  destruct (delta_batch u u' b h mtp cb txs pg a Htx Hfit Hids Hf Htr Hold Hsets Hent) as (Hb & Hr & Hct).
  split; try done; try by eexists.
  - intros ->. subst a0. unfold cache_block_undo. rewrite (cn_entries _ _ _ _ _ _ _ _ Hc).
    apply (group_undo_spec _ _ [] [[]] (cn_balanced _ _ _ _ _ _ _ _ Hc)).
  - intros ->. subst a0. apply (cn_apply _ _ _ _ _ _ _ _ Hc).
  - split; [by apply (removals_NoDup u u' h mtp cb txs pg a)|]. intros o Ho. by apply (removals_spec u u' b h mtp cb txs pg a) in Ho as [_ ?].
  - split; [by apply (delta_NoDup u u' b h mtp cb txs pg a)|]. by apply (delta_new u u' b h mtp cb txs pg a).
  - by apply (delta_resident u u' b h mtp cb txs pg a).
Qed.
End Chains.
