(* ===== verification/ChainInvariant.v ===== *)
(** * The invariant of the chain manager

    The index, the stores and the sets of a running node fit together: every
    stored body passed its checks, every undo record belongs to its block,
    and the set of unspent outputs is the ledger's set of the active chain.
    Connecting a block, with or without a change of the durable set, keeps
    this. *)

From Stdlib Require Import ZArith Lia.
From stdpp Require Import base list option gmap sets strings.
From S2P Require Import Prelude Types VersionBits ChainIndex BlockChecks UtxoCodec ConnectBlock Ledger HeaderChecks ChainManager ChainReplay.
Local Open Scope Z_scope.
Local Set Warnings "-clear-no-such-hyp".

Section Index.
Context {Ops : BitcoinOps} {HOps : HeaderOps} {SOps : ScriptOps} {POps : PowOps} (cf : Config) (net : Network)
        {laws : ChainLaws cf net}.
Abbreviation g := (network_genesis_hash cf).
Abbreviation chain_ok := (chain_ok cf net).

(** The tables that index updates leave alone. *)
Definition same_tables (c c' : ChainState) : Prop :=
  ChainIndex.network c' = ChainIndex.network c /\ store c' = store c /\ invalid_blocks c' = invalid_blocks c.

Lemma consider_best_header_tables c hash :
  same_tables c (consider_best_header c hash) /\
  header_sequence_ids (consider_best_header c hash) = header_sequence_ids c.
Proof. unfold consider_best_header, same_tables. repeat case_match; done. Qed.

Lemma assign_header_sequence_tables c hash :
  same_tables c (assign_header_sequence_id c hash) /\
  (forall hash', is_Some (header_sequence_ids c !! hash') \/ hash' = hash ->
     is_Some (header_sequence_ids (assign_header_sequence_id c hash) !! hash')).
Proof.
  unfold assign_header_sequence_id. case_bool_decide as Hd; [split; [done|]; by intros hash' [H| ->]|].
  destruct (consider_best_header_tables (set_header_sequence (<[hash:=next_header_sequence_id c]> (header_sequence_ids c))
    (sat_add 64 (next_header_sequence_id c) 1) c) hash) as [Ht Hs]. split; [done|]. rewrite Hs. cbn [set_header_sequence header_sequence_ids].
  intros hash' [H| ->]; [|rewrite lookup_insert_eq; by eexists]. destruct (decide (hash' = hash)) as [->|Hne];
    [rewrite lookup_insert_eq; by eexists|by rewrite lookup_insert_ne].
Qed.

Lemma assign_block_sequence_tables c hash :
  same_tables c (assign_block_sequence_id c hash) /\
  header_sequence_ids (assign_block_sequence_id c hash) = header_sequence_ids c.
Proof. unfold assign_block_sequence_id, same_tables. case_bool_decide; done. Qed.

Lemma chain_ok_same c c' :
  chain_ok c -> same_index c c' -> ChainIndex.network c' = ChainIndex.network c ->
  header_sequence_ids c' = header_sequence_ids c -> chain_ok c'.
Proof.
  intros [H1 H2 H3 H4 H5] Hs Hn Hq. pose proof (same_index_wf _ _ Hs H1) as Hwf. destruct Hs as (Hi & _ & _).
  split; rewrite ?Hi, ?Hn, ?Hq; done.
Qed.

Lemma chain_ok_disconnect c k : chain_ok c -> chain_ok (disconnect_to c k).
Proof. intros [H1 H2 H3 H4 H5]. split; [by apply disconnect_to_wf|done..]. Qed.

Lemma genesis_first c : chain_ok c -> active_chain c !! 0%nat = Some g.
Proof. intros Hok. by apply (wf_genesis c (ck_wf _ _ _ Hok) g _ (ck_genesis _ _ _ Hok)). Qed.

Lemma tip_indexed c :
  chain_ok c -> exists node, list.last (active_chain c) = Some (best_hash c) /\ block_index c !! best_hash c = Some node /\
    ChainIndex.height node = Z.of_nat (length (active_chain c)) - 1.
Proof.
  intros Hok. pose proof (genesis_first c Hok) as Hg. pose proof (lookup_lt_Some _ _ _ Hg) as Hlen.
  destruct (list.last (active_chain c)) as [t|] eqn:El.
  - unfold best_hash. rewrite El. cbn [from_option id]. rewrite last_lookup in El.
    destruct (wf_active c (ck_wf _ _ _ Hok) _ _ El) as (node & En & Hh & _). exists node. split; [done|]. split; [done|lia].
  - apply last_None in El. by rewrite El in Hg.
Qed.

(** A header whose parent is indexed is not the genesis header. *)
Lemma header_known c hd parent :
  chain_ok c -> block_index c !! prev_blockhash hd = Some parent -> known_header c (header_hash hd) hd /\ header_hash hd <> g.
Proof.
  intros Hok Hp.
  assert (Hne : header_hash hd <> g).
  { intros Heq. unfold network_genesis_hash in Heq. rewrite law_block_hash in Heq. apply law_header_hash in Heq. subst hd.
    apply (law_genesis (cf:=cf) (net:=net) (ChainIndex.header parent)). by apply (ck_hash _ _ _ Hok). }
  split; [|done]. intros node En. pose proof (ck_hash _ _ _ Hok _ _ En) as Hh. apply law_header_hash in Hh. split; [done|].
  intros Hz. pose proof (wf_genesis c (ck_wf _ _ _ Hok) _ _ En Hz) as Ha. rewrite (genesis_first c Hok) in Ha. by injection Ha as Ha.
Qed.

(** The state after an entry is made for a child. *)
Lemma chain_ok_insert c c' hd parent :
  chain_ok c -> block_index c !! prev_blockhash hd = Some parent ->
  index_wf c' -> block_index c' = <[header_hash hd := node_of c hd parent]> (block_index c) ->
  ChainIndex.network c' = ChainIndex.network c ->
  (forall hash', is_Some (header_sequence_ids c !! hash') \/ hash' = header_hash hd -> is_Some (header_sequence_ids c' !! hash')) ->
  chain_ok c'.
Proof.
  intros Hok Hp Hwf Hi Hn Hq. destruct (header_known c hd parent Hok Hp) as [Hk Hne]. split; [done|by rewrite Hn, (ck_network _ _ _ Hok)|..].
  - intros hash node. rewrite Hi. destruct (decide (hash = header_hash hd)) as [->|Hd]; [rewrite lookup_insert_eq; by intros [= <-]|].
    rewrite lookup_insert_ne by done. apply Hok.
  - rewrite Hi, lookup_insert_ne by done. apply Hok.
  - intros hash. rewrite Hi. destruct (decide (hash = header_hash hd)) as [->|Hd]; [intros _; apply Hq; by right|].
    rewrite lookup_insert_ne by done. intros Hs. apply Hq. left. by apply Hok.
Qed.

Lemma chain_ok_index c hd parent :
  chain_ok c -> block_index c !! prev_blockhash hd = Some parent -> ChainIndex.height parent < umax 32 ->
  exists c', index_header c (header_hash hd) hd = Some c' /\ chain_ok c' /\ same_tables c c' /\
    block_index c ⊆ block_index c' /\ block_index c' = <[header_hash hd := node_of c hd parent]> (block_index c) /\
    active_chain c' = active_chain c /\ headers c' = headers c.
Proof.
  intros Hok Hp Hmax. destruct (header_known c hd parent Hok Hp) as [Hk Hne]. pose proof (ck_wf _ _ _ Hok) as Hwf.
  pose proof (index_header_eq c (header_hash hd) hd parent Hwf Hp Hmax) as E. eexists. split; [exact E|].
  destruct (assign_header_sequence_same (set_block_index <[header_hash hd := node_of c hd parent]> c) (header_hash hd)) as (Hi & Ha & Hh).
  destruct (assign_header_sequence_tables (set_block_index <[header_hash hd := node_of c hd parent]> c) (header_hash hd)) as [Ht Hq].
  cbn [set_block_index block_index active_chain headers] in Hi, Ha, Hh. rewrite Hi, Ha, Hh.
  split; [|split; [done|split; [by apply grown_index|done]]].
  apply (chain_ok_insert c _ hd parent); [done|done| |done|by destruct Ht|exact Hq].
  by apply (index_header_wf c (header_hash hd) hd parent).
Qed.

Lemma chain_ok_connect c hd parent :
  chain_ok c -> list.last (active_chain c) = Some (prev_blockhash hd) -> block_index c !! prev_blockhash hd = Some parent ->
  ChainIndex.height parent < umax 32 ->
  exists c', connect_tip c (header_hash hd) hd = Some c' /\ chain_ok c' /\ same_tables c c' /\
    block_index c ⊆ block_index c' /\ block_index c' = <[header_hash hd := node_of c hd parent]> (block_index c) /\
    active_chain c' = active_chain c ++ [header_hash hd] /\ headers c' = headers c ++ [hd].
Proof.
  intros Hok Hl Hp Hmax. destruct (header_known c hd parent Hok Hp) as [Hk Hne]. pose proof (ck_wf _ _ _ Hok) as Hwf.
  pose proof (connect_tip_eq c (header_hash hd) hd parent Hwf Hl Hp Hmax) as E. eexists. split; [exact E|].
  set (c1 := set_block_index _ _) in *.
  destruct (assign_header_sequence_same c1 (header_hash hd)) as (Hi & Ha & Hh).
  destruct (assign_header_sequence_tables c1 (header_hash hd)) as [Ht Hq].
  destruct (assign_block_sequence_same (assign_header_sequence_id c1 (header_hash hd)) (header_hash hd)) as (Hi' & Ha' & Hh').
  destruct (assign_block_sequence_tables (assign_header_sequence_id c1 (header_hash hd)) (header_hash hd)) as [(Hn & Hs & Hv) Hq'].
  destruct Ht as (Hn0 & Hs0 & Hv0). rewrite Hi', Ha', Hh', Hi, Ha, Hh.
  split; [|split; [|split; [exact (grown_index c _ hd parent Hwf Hk Hp)|done]]].
  - apply (chain_ok_insert c _ hd parent); [done|done| |by rewrite Hi', Hi|by rewrite Hn, Hn0|rewrite Hq'; exact Hq].
    by apply (connect_tip_wf c (header_hash hd) hd parent).
  - unfold same_tables. rewrite Hn, Hs, Hv, Hn0, Hs0, Hv0. done.
Qed.

(** ** Heights are bounded by the size of the index *)

Lemma height_lt_size c hash node :
  chain_ok c -> block_index c !! hash = Some node -> ChainIndex.height node < Z.of_nat (size (block_index c)).
Proof.
  intros Hok En. pose proof (ck_wf _ _ _ Hok) as Hwf. pose proof (wf_height c Hwf _ _ En) as Hh.
  set (ancestors := omap (fun k => nth_parent (block_index c) k hash) (seq 0 (S (Z.to_nat (ChainIndex.height node))))).
  assert (Hanc : forall m, (m <= S (Z.to_nat (ChainIndex.height node)))%nat ->
    let l := omap (fun k => nth_parent (block_index c) k hash) (seq 0 m) in
    length l = m /\ NoDup l /\ forall a, a ∈ l -> exists an, block_index c !! a = Some an /\ ChainIndex.height node - Z.of_nat m < ChainIndex.height an).
  { induction m as [|m IH]; intros Hm; [split; [done|split; [constructor|by intros a ?%not_elem_of_nil]]|].
    destruct IH as (Hl & Hnd & Hin); [lia|]. cbn zeta in *. rewrite seq_S, omap_app. cbn [omap list_omap].
    destruct (nth_parent_total c Hwf m hash node En) as (a & an & Ha & Ean & Hah); [lia|]. rewrite Nat.add_0_l, Ha.
    split; [rewrite length_app; simpl; lia|]. split.
    - apply NoDup_app. split; [done|]. split; [|apply NoDup_singleton]. intros x Hx. rewrite list_elem_of_singleton. intros ->.
      destruct (Hin a Hx) as (an' & Ean' & Hlt). rewrite Ean in Ean'. injection Ean' as <-. lia.
    - intros x [Hx|Hx%list_elem_of_singleton]%elem_of_app.
      + destruct (Hin x Hx) as (xn & Exn & Hlt). exists xn. split; [done|lia].
      + subst x. exists an. split; [done|lia]. }
  destruct (Hanc (S (Z.to_nat (ChainIndex.height node)))) as (Hl & Hnd & Hin); [lia|]. fold ancestors in Hl, Hnd, Hin.
  assert (Hle : (length ancestors <= size (dom (block_index c)))%nat).
  { rewrite <- (size_list_to_set (C:=gset bytes)) by done. apply subseteq_size. intros a Ha%elem_of_list_to_set.
    destruct (Hin a Ha) as (an & Ean & _). by apply elem_of_dom_2 in Ean. }
  rewrite size_dom in Hle. lia.
Qed.

(** ** What the script-check decision looks at *)

Definition resolved (c : ChainState) : option (bytes * BlockNode) := fst <$> best_header_tip c.

Record same_view (c c' : ChainState) : Prop := {
  sv_index : block_index c' = block_index c;
  sv_invalid : invalid_blocks c' = invalid_blocks c;
  sv_ids : header_sequence_ids c' = header_sequence_ids c;
  sv_network : ChainIndex.network c' = ChainIndex.network c;
  sv_best : resolved c' = resolved c;
}.

#[global] Instance same_view_equivalence : Equivalence same_view.
Proof.
  split.
  - by intros c.
  - intros c c' []. by split.
  - intros c c' c'' [] []. split; congruence.
Qed.

Lemma invalid_ancestor_fun c c' hash :
  block_index c' = block_index c -> invalid_blocks c' = invalid_blocks c ->
  has_invalid_ancestor c' hash = has_invalid_ancestor c hash.
Proof.
  intros Hi Hv. unfold has_invalid_ancestor, walk_fuel. rewrite Hi, Hv. destruct (bool_decide _); [done|].
  generalize (match block_index c !! hash with Some node => S (S (Z.to_nat (ChainIndex.height node))) | None => 1%nat end).
  intros fuel. revert hash. induction fuel as [|fuel IH]; intros hash; [done|]. cbn [invalid_loop]. rewrite Hi, Hv.
  destruct (bool_decide _); [done|]. destruct (block_index c !! hash); [|done]. destruct (_ =? 0); [done|]. apply IH.
Qed.

Lemma max_by_ext {A} (cmp cmp' : A -> A -> comparison) l best :
  (forall x y, cmp x y = cmp' x y) -> max_by cmp l best = max_by cmp' l best.
Proof.
  intros H. revert best. induction l as [|x l IH]; intros best; [done|]. cbn [max_by]. rewrite IH. by destruct best; rewrite ?H.
Qed.

Lemma max_by_in {A} (cmp : A -> A -> comparison) l best m : max_by cmp l best = Some m -> m ∈ l \/ best = Some m.
Proof.
  revert best. induction l as [|x l IH]; intros best; cbn [max_by]; [by right|]. intros [H|H]%IH; [left; by right|].
  destruct best as [y|]; [destruct (cmp y x)|]; injection H as ->; ((by right) || (left; left)).
Qed.

Lemma resolved_fun c c' :
  block_index c' = block_index c -> invalid_blocks c' = invalid_blocks c -> header_sequence_ids c' = header_sequence_ids c ->
  best_header_hash c' = best_header_hash c -> resolved c' = resolved c.
Proof.
  intros Hi Hv Hq Hb. unfold resolved, best_header_tip. rewrite Hi, Hb.
  assert (Hinv : forall hash, has_invalid_ancestor c' hash = has_invalid_ancestor c hash) by (intros; by apply invalid_ancestor_fun).
  replace (hash ← best_header_hash c; node ← block_index c !! hash; if has_invalid_ancestor c' hash then None else Some (hash, node))
    with (hash ← best_header_hash c; node ← block_index c !! hash; if has_invalid_ancestor c hash then None else Some (hash, node)).
  2: { destruct (best_header_hash c) as [hash|]; [|done]. cbn [mbind option_bind]. destruct (block_index c !! hash); [|done].
       cbn [mbind option_bind]. by rewrite Hinv. }
  destruct (hash ← best_header_hash c; _) as [[hash node]|]; [done|].
  rewrite (max_by_ext _ (fun l r => compare_header_candidates c l.1 l.2 r.1 r.2)).
  2: { intros x y. unfold compare_header_candidates, header_sequence_id. by rewrite Hq. }
  rewrite (List.filter_ext _ (fun '(hash, _) => negb (has_invalid_ancestor c hash))) by (intros [? ?]; by rewrite Hinv).
  by destruct (max_by _ _ _) as [[hash node]|].
Qed.

Lemma set_best_header_id c : set_best_header (best_header_hash c) c = c.
Proof. by destruct c. Qed.

Lemma best_header_tip_view c hash node c' :
  best_header_tip c = Some (hash, node, c') -> same_view c c' /\ exists bh, c' = set_best_header bh c.
Proof.
  intros E. assert (Hr : resolved c = Some (hash, node)) by (unfold resolved; by rewrite E). revert E.
  unfold best_header_tip. destruct (hash ← best_header_hash c; _) as [[hash0 node0]|] eqn:Ec.
  - intros [= <- <- <-]. split; [done|]. exists (best_header_hash c). symmetry. apply set_best_header_id.
  - intros ([hash0 node0] & Hm & [= <- <- <-])%bind_Some. split; [|by eexists]. split; try done. rewrite Hr.
    apply max_by_in in Hm as [Hin|?]; [|done]. rewrite list_elem_of_In, filter_In, <- list_elem_of_In, elem_of_map_to_list in Hin.
    destruct Hin as [Hin Hinv%negb_true_iff]. unfold resolved, best_header_tip. cbn [set_best_header best_header_hash block_index].
    cbn [mbind option_bind]. rewrite Hin. cbn [mbind option_bind].
    by rewrite (invalid_ancestor_fun c), Hinv by done.
Qed.

Lemma should_skip_view c hash h c' skip :
  should_skip_script_checks cf c hash h = (c', skip) -> same_view c c' /\ exists bh, c' = set_best_header bh c.
Proof.
  assert (Hid : same_view c c /\ exists bh, c = set_best_header bh c).
  { split; [done|]. exists (best_header_hash c). symmetry. apply set_best_header_id. }
  unfold should_skip_script_checks, script_check_reason_for_hash. destruct (cf_assume_valid cf) as [av|]; [|by intros [= <- <-]].
  destruct (block_index c !! av) as [an|]; [|by intros [= <- <-]]. destruct (_ <? h); [by intros [= <- <-]|].
  destruct (best_header_tip c) as [[[bh bn] c1]|] eqn:Eb; [|by intros [= <- <-]]. intros [= <- <-].
  by apply (best_header_tip_view c bh bn).
Qed.

Lemma ancestor_hash_same c c' hash h :
  index_wf c -> index_wf c' -> block_index c' = block_index c -> 0 <= h -> ancestor_hash c' hash h = ancestor_hash c hash h.
Proof.
  intros Hwf Hwf' Hi Hh. destruct (block_index c !! hash) as [node|] eqn:En.
  - destruct (Z.le_gt_cases h (ChainIndex.height node)).
    + rewrite (ancestor_hash_eq c Hwf hash node), (ancestor_hash_eq c' Hwf' hash node) by (rewrite ?Hi; done || lia). by rewrite Hi.
    + unfold ancestor_hash. rewrite Hi, En. cbn [mbind option_bind]. by btrue (ChainIndex.height node <? h).
  - unfold ancestor_hash. by rewrite Hi, En.
Qed.

Lemma should_skip_eq c c' hash h :
  index_wf c -> index_wf c' -> same_view c c' -> 0 <= h ->
  (should_skip_script_checks cf c' hash h).2 = (should_skip_script_checks cf c hash h).2.
Proof.
  intros Hwf Hwf' [Hi Hv Hq Hn Hb] Hh. unfold should_skip_script_checks, script_check_reason_for_hash.
  destruct (cf_assume_valid cf) as [av|]; [|done]. rewrite Hi. destruct (block_index c !! av) as [an|]; [|done].
  destruct (_ <? h); [done|]. unfold resolved in Hb.
  destruct (best_header_tip c) as [[[bh bn] c1]|] eqn:E1, (best_header_tip c') as [[[bh' bn'] c1']|] eqn:E2; try done.
  injection Hb as -> ->. destruct (best_header_tip_view _ _ _ _ E1) as [_ [b1 ->]], (best_header_tip_view _ _ _ _ E2) as [_ [b2 ->]].
  assert (Hanc : forall x, ancestor_hash (set_best_header b2 c') x h = ancestor_hash (set_best_header b1 c) x h).
  { intros x. apply ancestor_hash_same; [by apply (same_index_wf c)|by apply (same_index_wf c')|done|done]. }
  cbn [snd]. rewrite !Hanc.
  cbn [set_best_header block_index ChainIndex.network]. by rewrite Hi, Hn.
Qed.
End Index.

(** ** The checks of a block *)

Section Checks.
Context {Ops : BitcoinOps} {HOps : HeaderOps} {SOps : ScriptOps} {POps : PowOps} (cf : Config) (net : Network)
        {laws : ChainLaws cf net} (cache : gset bytes).
Abbreviation g := (network_genesis_hash cf).
Abbreviation chain_ok := (chain_ok cf net).

Lemma check_transactions_view c b h u mtp retain c' r :
  check_transactions cf cache c b h u mtp retain = (c', r) -> same_view c c' /\ exists bh, c' = set_best_header bh c.
Proof.
  unfold check_transactions. destruct (should_skip_script_checks cf c (block_hash b) h) as [c1 skip] eqn:E.
  intros [= <- _]. by apply (should_skip_view cf c (block_hash b) h c1 skip).
Qed.

Lemma chain_ok_view c bh : chain_ok c -> chain_ok (set_best_header bh c).
Proof. intros Hok. by apply (chain_ok_same cf net c). Qed.

(** The verdict does not depend on which chain is active. *)
Lemma check_transactions_eq c c' b h u mtp retain :
  chain_ok c -> chain_ok c' -> same_view c c' -> 0 <= h ->
  (check_transactions cf cache c' b h u mtp retain).2 = (check_transactions cf cache c b h u mtp retain).2.
Proof.
  intros Hok Hok' Hv Hh. unfold check_transactions.
  pose proof (should_skip_eq cf c c' (block_hash b) h (ck_wf _ _ _ Hok) (ck_wf _ _ _ Hok') Hv Hh) as Hs.
  destruct (should_skip_script_checks cf c (block_hash b) h) as [c1 skip] eqn:E1.
  destruct (should_skip_script_checks cf c' (block_hash b) h) as [c1' skip'] eqn:E2. cbn [snd] in *. subst skip'.
  destruct (should_skip_view _ _ _ _ _ _ E1) as [_ [b1 ->]], (should_skip_view _ _ _ _ _ _ E2) as [_ [b2 ->]].
  pose proof (ck_network _ _ _ Hok) as Hn. pose proof (ck_network _ _ _ Hok') as Hn'.
  unfold validate_block_transactions. rewrite !(bip30_enforced cf net) by done.
  cbn [set_best_header ChainIndex.network]. by rewrite Hn, Hn'.
Qed.

Lemma check_transactions_accepted c b h u mtp retain a :
  chain_ok c -> (check_transactions cf cache c b h u mtp retain).2 = Ok a -> validate_block_structure cf b h = Ok () ->
  block_sane b -> (forall o e, u !! o = Some e -> UtxoCodec.height e <> h) ->
  exists ess u', accepted_block net cache h mtp b u retain a ess u'.
Proof.
  intros Hok. unfold check_transactions. destruct (should_skip_script_checks cf c (block_hash b) h) as [c1 skip] eqn:E.
  destruct (should_skip_view _ _ _ _ _ _ E) as [_ [bh ->]]. cbn [snd]. intros Hv Hst Hs Hold.
  apply (validate_accepted cf net (set_best_header bh c) cache b h u mtp skip retain a); [by apply Hok|done..].
Qed.

(** The checks on the tip are those of a block off the tip. *)
Lemma connect_checks_spec now c b :
  chain_ok c ->
  match connect_checks cf now c b with
  | Ok (h, mtp) =>
      exists parent, list.last (active_chain c) = Some (prev_blockhash (blk_header b)) /\
        block_index c !! prev_blockhash (blk_header b) = Some parent /\ side_checks cf now c b parent = Ok () /\
        h = sat_add 32 (ChainIndex.height parent) 1 /\ h = Z.min (Z.of_nat (length (active_chain c))) (umax 32) /\
        median_time_past_for_parent c (prev_blockhash (blk_header b)) = Some mtp
  | Err e =>
      forall parent, list.last (active_chain c) = Some (prev_blockhash (blk_header b)) ->
        block_index c !! prev_blockhash (blk_header b) = Some parent -> side_checks cf now c b parent <> Ok ()
  end.
Proof.
  intros Hok. destruct (tip_indexed cf net c Hok) as (node & Hl & En & Hh).
  destruct (median_agrees c (best_hash c) (ck_wf _ _ _ Hok) Hl) as [Hm [mtp Emtp]].
  assert (Hth : tip_height c = ChainIndex.height node).
  { unfold tip_height, sat_sub. pose proof (wf_height c (ck_wf _ _ _ Hok) _ _ En). lia. }
  unfold connect_checks, side_checks, validate_header_above. rewrite En, Hth. cbn [ok_or rbind].
  assert (Hprev : forall x y, validate_header_context cf c now (blk_header b) (best_hash c) x y true = Ok () ->
    prev_blockhash (blk_header b) = best_hash c).
  { intros x y. unfold validate_header_context. intros (? & _ & (? & _ & (? & Hi%map_err_Ok & _)%rbind_Ok)%rbind_Ok)%rbind_Ok.
    unfold validate_header_internal in Hi. destruct (bool_decide _) eqn:Eb; [|done]. by apply bool_decide_eq_true in Eb. }
  destruct (decide (prev_blockhash (blk_header b) = best_hash c)) as [Hp|Hp].
  - rewrite Hp, Hl, En, <- Hm, Emtp. destruct (map_err _ _) as [[]|] eqn:E94;
      [|intros parent _ [= <-]; by rewrite E94].
    cbn [rbind]. destruct (validate_header_context _ _ _ _ _ _ _ _) as [[]|] eqn:Ec;
      [|intros parent _ [= <-]; rewrite E94; cbn [rbind]; by rewrite ?Ec].
    cbn [rbind]. destruct (validate_block_structure _ _ _) as [[]|] eqn:Es;
      [|intros parent _ [= <-]; rewrite E94; cbn [rbind]; rewrite ?Ec; cbn [rbind]; by rewrite Es].
    cbn [rbind ok_or]. exists node. rewrite E94. cbn [rbind]. rewrite ?Ec. cbn [rbind]. rewrite Es. split_and!; try done.
    unfold sat_add. lia.
  - destruct (map_err _ _) as [[]|]; cbn [rbind]; [|intros ? Hl'; rewrite Hl in Hl'; injection Hl' as Hl'; by destruct (Hp (eq_sym Hl'))].
    destruct (validate_header_context _ _ _ _ _ _ _ _) as [[]|] eqn:Ec; [by apply Hprev in Ec|].
    cbn [rbind]. intros ? Hl'; rewrite Hl in Hl'; injection Hl' as Hl'; by destruct (Hp (eq_sym Hl')).
Qed.
End Checks.

(** ** The state of a running node *)

Section Invariant.
Context {Ops : BitcoinOps} {HOps : HeaderOps} {SOps : ScriptOps} {POps : PowOps} (cf : Config) (net : Network)
        {laws : ChainLaws cf net}.
(** A header commits to its transactions and, through the coinbase, to their
    witnesses: the body that passes the structural checks under a hash. *)
Context (body_of : bytes -> Block).
Abbreviation g := (network_genesis_hash cf).
Abbreviation chain_ok := (chain_ok cf net).
Abbreviation replays := (replays cf net).
Abbreviation connected := (connected net).

Definition genuine (b : Block) : Prop :=
  block_sane b /\ forall h, validate_block_structure cf b h = Ok () -> b = body_of (block_hash b).

(** The header and the structure of a body were checked above its parent. *)
Definition body_ok (now : Z) (c : ChainState) (b : Block) : Prop :=
  exists parent, block_index c !! prev_blockhash (blk_header b) = Some parent /\ side_checks cf now c b parent = Ok ().

Definition undo_ok (n : Node) (hash : bytes) (undo : list (list StoredUndo)) : Prop :=
  exists l u b mtp ess u', hash = block_hash b /\ replays (chain n) (bodies n) l u /\
    list.last l = Some (prev_blockhash (blk_header b)) /\ connected (chain n) (bodies n) (length l) u b mtp ess u' /\
    undo = undo_data ess.

(** A checkpoint was taken of an active chain; undo records are kept. *)
Definition snapshot_ok (n : Node) (sn : ChainSnapshot) : Prop :=
  replays (chain n) (bodies n) (map header_hash (sn_headers sn)) (sn_utxos sn) /\
  forall hash, hash ∈ map header_hash (sn_headers sn) -> hash <> g -> is_Some (undos n !! hash).

Record core_ok (now : Z) (n : Node) : Prop := {
  co_chain : chain_ok (chain n);
  co_store : store (chain n) = dom (bodies n);
  co_genesis : bodies n !! g = Some (cf_genesis cf);
  co_bodies : forall hash b, bodies n !! hash = Some b ->
    block_hash b = hash /\ genuine b /\ is_Some (block_index (chain n) !! hash);
  co_checked : forall hash b, bodies n !! hash = Some b -> hash <> g -> hash ∉ invalid_blocks (chain n) ->
    body_ok now (chain n) b;
  co_undo : forall hash undo, undos n !! hash = Some undo -> hash <> g -> undo_ok n hash undo;
  co_snapshot : forall sn, snapshot n = Some sn -> snapshot_ok n sn;
  co_orphans : forall p l b, orphans (intake n) !! p = Some l -> b ∈ l -> genuine b;
  co_invalid : forall hash, hash ∈ invalid_blocks (chain n) -> is_Some (block_index (chain n) !! hash);
}.

(** The active chain has the set [u], and can be taken back. *)
Record live (n : Node) (u : coin_set) : Prop := {
  lv_replays : replays (chain n) (bodies n) (active_chain (chain n)) u;
  lv_undo : forall hash, hash ∈ active_chain (chain n) -> hash <> g -> is_Some (undos n !! hash);
}.

Definition count_of (bs : gmap bytes Block) (hash : bytes) : Z :=
  match bs !! hash with Some b => zlen (txdata b) | None => 0 end.

Definition counts_ok (n : Node) : Prop :=
  active_tx_counts n = map (count_of (bodies n)) (active_chain (chain n)) /\
  active_tx_totals n = cumulative_tx_counts (active_tx_counts n).

(** Between operations. *)
Record node_ok (now : Z) (n : Node) : Prop := {
  no_core : core_ok now n;
  no_live : live n (db_coins (utxo_store n));
  no_count : db_count (utxo_store n) = Z.of_nat (size (db_coins (utxo_store n)));
  no_resident : utxos_materialized n = true -> utxos n = db_coins (utxo_store n);
  no_counts : counts_ok n;
}.

(** The index has fewer than 2^32 entries: a height fits its type, and the
    outputs of all blocks fit a count. *)
Definition small (n : Node) : Prop := Z.of_nat (size (block_index (chain n))) <= umax 32.

Lemma replays_small now n l u :
  core_ok now n -> small n -> replays (chain n) (bodies n) l u -> Z.of_nat (size u) <= umax 32 * umax 31.
Proof.
  intros Hn Hs Hr. pose proof (replays_size cf net _ _ _ _ (co_chain _ _ Hn) Hr) as H1.
  pose proof (stored_outputs_bound (bodies n) (Z.to_nat (umax 31))) as H2.
  assert (H3 : (size (bodies n) <= size (block_index (chain n)))%nat).
  { rewrite <- !size_dom. apply subseteq_size. intros hash [b Hb]%elem_of_dom. apply elem_of_dom. by apply (co_bodies _ _ Hn hash b). }
  specialize (H2 ltac:(intros hash b Hb; destruct (co_bodies _ _ Hn hash b Hb) as (_ & [(_ & _ & Hb31) _] & _); lia)).
  unfold small in Hs. enough (Z.of_nat (size (bodies n) * Z.to_nat (umax 31)) <= umax 32 * umax 31) by lia.
  rewrite Nat2Z.inj_mul, Z2Nat.id by (unfold umax; lia). apply Z.mul_le_mono_nonneg_r; [unfold umax|]; lia.
Qed.

(** While a branch is being activated only the resident set is current. *)
Record mid_ok (now : Z) (n : Node) : Prop := {
  mi_core : core_ok now n;
  mi_live : live n (utxos n);
  mi_resident : utxos_materialized n = true;
}.

(** ** Growth of the index and of the stores *)

Lemma body_ok_ext now now' c c' b :
  extends_index c c' -> chain_ok c -> is_Some (block_index c !! block_hash b) -> block_hash b <> g -> now <= now' ->
  body_ok now c b -> body_ok now' c' b.
Proof.
  intros Hext Hok [node En] Hne Hnow (parent & Ep & Hs). exists parent. split; [by apply (ext_lookup _ _ Hext)|].
  unfold side_checks in *. apply rbind_Ok in Hs as ([] & Hh & Hst).
  assert (Hmax : ChainIndex.height parent < umax 32).
  { pose proof (ck_wf _ _ _ Hok) as Hwf. pose proof (ck_hash _ _ _ Hok _ _ En) as Hhd. rewrite law_block_hash in Hhd.
    apply law_header_hash in Hhd. destruct (Z.eq_dec (ChainIndex.height node) 0) as [Hz|Hz].
    - pose proof (wf_genesis c Hwf _ _ En Hz) as Ha. rewrite (genesis_first cf net c Hok) in Ha. by injection Ha as Ha.
    - destruct (wf_child c Hwf _ _ En Hz) as (p & Ep' & Hc). rewrite Hhd, Ep in Ep'. injection Ep' as <-.
      pose proof (child_height _ _ _ Hc). pose proof (wf_height c Hwf _ _ En). lia. }
  rewrite (validate_header_above_ext c c' Hext cf now now' (blk_header b) parent); [done|done|done| |done|done].
  rewrite (ck_network _ _ _ Hok). apply (law_interval (cf:=cf)).
Qed.

Lemma undo_ok_ext n n' hash undo :
  chain_ok (chain n) -> extends_index (chain n) (chain n') -> bodies n ⊆ bodies n' -> undo_ok n hash undo -> undo_ok n' hash undo.
Proof.
  intros Hok Hext Hb (l & u & b & mtp & ess & u' & -> & Hr & Hl & Hc & ->). exists l, u, b, mtp, ess, u'. split; [done|].
  split; [by apply (replays_ext cf net (chain n) _ (bodies n))|]. split; [done|].
  split; [by apply (connected_ext net (chain n) _ (bodies n))|done].
Qed.

(** What an operation may do to the parts of [core_ok]. *)
Record core_step (now : Z) (n n' : Node) : Prop := {
  cs_chain : chain_ok (chain n');
  cs_index : block_index (chain n) ⊆ block_index (chain n');
  cs_store : store (chain n') = dom (bodies n');
  cs_bodies : bodies n ⊆ bodies n';
  cs_new : forall hash b, bodies n' !! hash = Some b -> bodies n !! hash = None ->
    block_hash b = hash /\ genuine b /\ is_Some (block_index (chain n') !! hash) /\
    (hash ∉ invalid_blocks (chain n') -> body_ok now (chain n') b);
  cs_valid : forall hash b, bodies n !! hash = Some b -> hash <> g -> hash ∈ invalid_blocks (chain n) ->
    hash ∉ invalid_blocks (chain n') -> body_ok now (chain n) b;
  cs_undo : forall hash undo, undos n' !! hash = Some undo -> hash <> g -> undos n !! hash = Some undo \/ undo_ok n' hash undo;
  cs_undo_kept : forall hash, is_Some (undos n !! hash) -> is_Some (undos n' !! hash);
  cs_snapshot : forall sn, snapshot n' = Some sn -> snapshot n = Some sn \/ snapshot_ok n' sn;
  cs_orphans : forall p l b, orphans (intake n') !! p = Some l -> b ∈ l ->
    (exists p0 l0, orphans (intake n) !! p0 = Some l0 /\ b ∈ l0) \/ genuine b;
  cs_invalid : forall hash, hash ∈ invalid_blocks (chain n') -> hash ∈ invalid_blocks (chain n) \/ is_Some (block_index (chain n) !! hash);
}.

Lemma core_step_ext now n n' : core_ok now n -> core_step now n n' -> extends_index (chain n) (chain n').
Proof.
  intros Hn Hs. split; [apply Hn|apply Hs|apply Hs|]. by rewrite (ck_network _ _ _ (cs_chain _ _ _ Hs)), (ck_network _ _ _ (co_chain _ _ Hn)).
Qed.

Lemma core_step_ok now n n' : core_ok now n -> core_step now n n' -> core_ok now n'.
Proof.
  intros Hn Hs. pose proof (core_step_ext now n n' Hn Hs) as Hext. pose proof (co_chain _ _ Hn) as Hok.
  assert (Hsome : forall hash, is_Some (block_index (chain n) !! hash) -> is_Some (block_index (chain n') !! hash)).
  { intros hash [node En]. exists node. by apply (ext_lookup _ _ Hext). }
  split; try apply Hs.
  - apply (lookup_weaken (bodies n)); [apply Hn|apply Hs].
  - intros hash b Hb. destruct (bodies n !! hash) as [b0|] eqn:E0.
    + pose proof (lookup_weaken _ _ _ _ E0 (cs_bodies _ _ _ Hs)) as Hb'. rewrite Hb in Hb'. injection Hb' as <-.
      destruct (co_bodies _ _ Hn _ _ E0) as (? & ? & ?). auto.
    + by destruct (cs_new _ _ _ Hs _ _ Hb E0) as (? & ? & ? & _).
  - intros hash b Hb Hne Hv. destruct (bodies n !! hash) as [b0|] eqn:E0.
    + pose proof (lookup_weaken _ _ _ _ E0 (cs_bodies _ _ _ Hs)) as Hb'. rewrite Hb in Hb'. injection Hb' as <-.
      destruct (co_bodies _ _ Hn _ _ E0) as (Hh & _ & Hi). rewrite <- Hh in Hi, Hne.
      apply (body_ok_ext now now (chain n)); [done|done|done|done|lia|].
      destruct (decide (hash ∈ invalid_blocks (chain n))) as [Hin|Hin]; rewrite Hh in Hne.
      * by apply (cs_valid _ _ _ Hs hash b).
      * by apply (co_checked _ _ Hn hash b).
    + destruct (cs_new _ _ _ Hs _ _ Hb E0) as (_ & _ & _ & H). by apply H.
  - intros hash undo Hu Hne. destruct (cs_undo _ _ _ Hs _ _ Hu Hne) as [H|H]; [|done].
    apply (undo_ok_ext n); [done|done|apply Hs|]. by apply (co_undo _ _ Hn).
  - intros sn Hsn. destruct (cs_snapshot _ _ _ Hs _ Hsn) as [H|H]; [|done]. destruct (co_snapshot _ _ Hn _ H) as [Hr Hu]. split.
    + apply (replays_ext cf net (chain n) _ (bodies n)); [done|done|apply Hs|done].
    + intros hash Hin Hne. by apply (cs_undo_kept _ _ _ Hs), Hu.
  - intros p l b Ho Hb. destruct (cs_orphans _ _ _ Hs _ _ _ Ho Hb) as [(p0 & l0 & H1 & H2)|H]; [|done].
    by apply (co_orphans _ _ Hn p0 l0).
  - intros hash Hv. destruct (cs_invalid _ _ _ Hs _ Hv) as [H|H]; [|auto]. by apply Hsome, (co_invalid _ _ Hn).
Qed.

Lemma core_later now now' n : now <= now' -> core_ok now n -> core_ok now' n.
Proof.
  intros Hnow Hn. split; try apply Hn. intros hash b Hb Hne Hv. destruct (co_bodies _ _ Hn _ _ Hb) as (Hh & _ & Hi).
  rewrite <- Hh in Hi, Hne. apply (body_ok_ext now now' (chain n)); [|apply Hn|done|done|done|].
  - split; [apply Hn|apply Hn|done|done].
  - by apply (co_checked _ _ Hn hash b); [|rewrite <- Hh|].
Qed.

(** The checks hold above every larger index. *)
Lemma body_ok_grow now c c' b parent :
  extends_index c c' -> ChainIndex.network c = net -> block_index c !! prev_blockhash (blk_header b) = Some parent ->
  ChainIndex.height parent < umax 32 -> side_checks cf now c b parent = Ok () -> body_ok now c' b.
Proof.
  intros Hext Hn Ep Hmax Hs. exists parent. split; [by apply (ext_lookup _ _ Hext)|]. unfold side_checks in *.
  apply rbind_Ok in Hs as ([] & Hh & Hst). rewrite (validate_header_above_ext c c' Hext cf now now (blk_header b) parent); try done.
  rewrite Hn. apply (law_interval (cf:=cf)).
Qed.

Lemma headers_hashes c : chain_ok c -> map header_hash (headers c) = active_chain c.
Proof.
  intros Hok. pose proof (ck_wf _ _ _ Hok) as Hwf. apply list_eq. intros i.
  destruct (active_chain c !! i) as [hash|] eqn:Ea.
  - destruct (wf_active c Hwf _ _ Ea) as (node & En & _ & Hhd & _).
    change (map header_hash (headers c)) with (header_hash <$> headers c). rewrite list_lookup_fmap, Hhd. simpl.
    by rewrite (ck_hash _ _ _ Hok _ _ En).
  - change (map header_hash (headers c)) with (header_hash <$> headers c). rewrite list_lookup_fmap.
    apply lookup_ge_None in Ea. rewrite <- (wf_headers c Hwf) in Ea. by apply lookup_ge_None in Ea as ->.
Qed.

(** ** Cache updates *)

Definition touch (bh : option bytes) (n : Node) : Node := set_chain (set_best_header bh (chain n)) n.

Lemma touch_id n : touch (best_header_hash (chain n)) n = n.
Proof. unfold touch. rewrite set_best_header_id. by destruct n. Qed.

(** Operations that leave the index, the stores and the marks alone. *)
Lemma core_step_same now n n' :
  core_ok now n -> chain_ok (chain n') -> block_index (chain n') = block_index (chain n) ->
  store (chain n') = store (chain n) -> invalid_blocks (chain n') = invalid_blocks (chain n) ->
  bodies n' = bodies n -> undos n' = undos n -> snapshot n' = snapshot n -> orphans (intake n') = orphans (intake n) ->
  core_step now n n'.
Proof.
  intros Hn Hok Hi Hs Hv Hb Hu Hsn Ho. split; rewrite ?Hi, ?Hs, ?Hv, ?Hb, ?Hu, ?Hsn, ?Ho; try done.
  - apply Hn.
  - intros hash b H1 H2. congruence.
  - intros. by left.
  - intros. by left.
  - intros p l b H1 H2. left. by exists p, l.
  - intros. by left.
Qed.

Lemma core_touch now bh n : core_ok now n -> core_ok now (touch bh n).
Proof.
  intros Hn. apply (core_step_ok now n); [done|]. apply core_step_same; try done. apply (chain_ok_view cf net), Hn.
Qed.

Lemma live_step now n n' u :
  core_ok now n -> core_step now n n' -> active_chain (chain n') = active_chain (chain n) -> live n u -> live n' u.
Proof.
  intros Hn Hs Ha [Hr Hun]. split; rewrite Ha.
  - apply (replays_ext cf net (chain n) _ (bodies n)); [apply Hn|by apply (core_step_ext now)|apply Hs|done].
  - intros hash Hin Hne. by apply (cs_undo_kept _ _ _ Hs), Hun.
Qed.

Lemma live_touch now bh n u : core_ok now n -> live n u -> live (touch bh n) u.
Proof.
  intros Hn. apply (live_step now); [done| |done]. apply core_step_same; try done. apply (chain_ok_view cf net), Hn.
Qed.

Lemma node_touch now bh n : node_ok now n -> node_ok now (touch bh n).
Proof. intros [H1 H2 H3 H4 H5]. split; [by apply core_touch|by apply (live_touch now)|done..]. Qed.

Lemma mid_touch now bh n : mid_ok now n -> mid_ok now (touch bh n).
Proof. intros [H1 H2 H3]. split; [by apply core_touch|by apply (live_touch now)|done]. Qed.
End Invariant.
