(* ===== verification/ChainConnect.v ===== *)
(** * Connecting a block keeps the invariant

    The whole of [connect_block_internal_impl]: it either fails and changes
    nothing but a cache, or the active chain grows by the block and every
    set, store and count follows. *)

From Stdlib Require Import ZArith Lia.
From stdpp Require Import base list option gmap sets strings.
From S2P Require Import Prelude Types VersionBits ChainIndex BlockChecks UtxoCodec ConnectBlock Ledger HeaderChecks ChainManager ChainReplay ChainInvariant.
Local Open Scope Z_scope.
Local Set Warnings "-clear-no-such-hyp".

Section Connect.
Context {Ops : BitcoinOps} {HOps : HeaderOps} {SOps : ScriptOps} {POps : PowOps} (cf : Config) (net : Network)
        {laws : ChainLaws cf net} (body_of : bytes -> Block) (now : Z) (cache : gset bytes).
Abbreviation g := (network_genesis_hash cf).
Abbreviation chain_ok := (chain_ok cf net).
Abbreviation replays := (replays cf net).
Abbreviation connected := (connected net).
Abbreviation core_ok := (core_ok cf net body_of now).
Abbreviation core_step := (core_step cf net body_of now).
Abbreviation live := (live cf net).
Abbreviation genuine := (genuine cf body_of).

(** The state after a connected block. *)
Record connect_result (n n' : Node) (b : Block) (persist : bool) (u' : coin_set) : Prop := {
  cr_core : core_ok n';
  cr_step : core_step n n';
  cr_live : live n' u';
  cr_active : active_chain (chain n') = active_chain (chain n) ++ [block_hash b];
  cr_body : bodies n' !! block_hash b = Some b;
  cr_store : if persist then db_coins (utxo_store n') = u' /\ db_count (utxo_store n') = Z.of_nat (size u')
             else utxo_store n' = utxo_store n;
  cr_materialized : utxos_materialized n' = utxos_materialized n;
  cr_resident : utxos_materialized n = true -> utxos n' = u';
  cr_counts : active_tx_counts n' = active_tx_counts n ++ [zlen (txdata b)] /\
    active_tx_totals n' = active_tx_totals n ++ [sat_add 64 (default 0 (list.last (active_tx_totals n))) (zlen (txdata b))];
  cr_view : is_Some (block_index (chain n) !! block_hash b) -> same_view (chain n) (chain n');
  cr_invalid : invalid_blocks (chain n') = invalid_blocks (chain n);
  cr_bodies : persist = false -> bodies n' = bodies n;
  cr_orphans : orphans (intake n') = orphans (intake n);
  cr_pending : pending_body_children (intake n') = pending_body_children (intake n);
}.

(** The nodes the operation goes through. *)
Definition recorded (n : Node) (b : Block) (bh : option bytes) (undo : option (list (list StoredUndo))) (persist delta : bool) : Node :=
  store_records b undo persist delta (touch bh n).
Definition coined (n : Node) (b : Block) (h mtp : Z) (a : BlockApplication) (db : UtxoDb) : Node :=
  set_utxo_store db (set_utxos (connect_utxos (utxos_materialized n) (delta_created b h mtp a) a (utxos n)) (utxos_materialized n) n).
Definition finished (n : Node) (persist : bool) : Node :=
  if persist && negb (initial_block_download (status n)) && (tip_height (chain n) `mod` SNAPSHOT_INTERVAL =? 0)
  then persist_snapshot n else n.

Section Block.
Context (n : Node) (b : Block) (persist sync : bool) (u : coin_set) (h mtp : Z) (parent : BlockNode).
Hypothesis Hcore : core_ok n.
Hypothesis Hlive : live n u.
Hypothesis Hpersist : persist = true -> db_coins (utxo_store n) = u /\ db_count (utxo_store n) = Z.of_nat (size u).
Hypothesis Hreplay : persist = false -> utxos_materialized n = true /\ bodies n !! block_hash b = Some b.
Hypothesis Hresident : utxos_materialized n = true -> utxos n = u.
Hypothesis Hgenuine : genuine b.
Hypothesis Hvalid : block_hash b ∉ invalid_blocks (chain n).
Hypothesis Hlast : list.last (active_chain (chain n)) = Some (prev_blockhash (blk_header b)).
Hypothesis Hparent : block_index (chain n) !! prev_blockhash (blk_header b) = Some parent.
Hypothesis Hmax : ChainIndex.height parent < umax 32.
Hypothesis Hside : side_checks cf now (chain n) b parent = Ok ().
Hypothesis Hh : h = Z.of_nat (length (active_chain (chain n))) /\ h = ChainIndex.height parent + 1.
Hypothesis Hmtp : median_time_past_for_parent (chain n) (prev_blockhash (blk_header b)) = Some mtp.

Lemma structure_ok : validate_block_structure cf b h = Ok ().
Proof using Hside Hh Hmax.
  clear -Hside Hh Hmax.
  pose proof Hside as Hs. unfold side_checks in Hs. apply rbind_Ok in Hs as (_ & _ & Hs). destruct Hh as [_ ->].
  unfold sat_add in Hs. by rewrite Z.min_l in Hs by lia.
Qed.

(** A body that is stored already is this body. *)
Lemma stored_body : block_hash b ∈ store (chain n) -> bodies n !! block_hash b = Some b.
Proof.
  intros Hin. rewrite (co_store _ _ _ _ _ Hcore) in Hin. apply elem_of_dom in Hin as [b0 Hb0].
  destruct (co_bodies _ _ _ _ _ Hcore _ _ Hb0) as (Hhash & [_ Hg0] & _). rewrite Hb0. f_equal.
  destruct (header_known cf net (chain n) (blk_header b) parent (co_chain _ _ _ _ _ Hcore) Hparent) as [_ Hne].
  rewrite <- (law_block_hash (cf:=cf) (net:=net)) in Hne.
  destruct (co_checked _ _ _ _ _ Hcore _ _ Hb0 Hne Hvalid) as (p & Hp & Hs). unfold side_checks in Hs.
  apply rbind_Ok in Hs as (_ & _ & Hs). rewrite (Hg0 _ Hs), (proj2 Hgenuine _ structure_ok). by rewrite Hhash.
Qed.

Section Accepted.
Context (bh : option bytes) (a : BlockApplication) (ess : list (list StoredUtxo)) (u' : coin_set) (retain : bool)
        (undo : option (list (list StoredUndo))) (delta : bool).
Hypothesis Hacc : accepted_block net cache h mtp b u retain a ess u'.
Hypothesis Hundo : undo = if bool_decide (is_Some (undos n !! block_hash b)) then None else Some (undo_data ess).

Abbreviation n2 := (recorded n b bh undo persist delta).
Definition db' : UtxoDb := if persist then {| db_coins := u'; db_count := Z.of_nat (size u') |} else utxo_store n.
Abbreviation n3 := (coined n2 b h mtp a db').

Lemma recorded_chain :
  chain_ok (chain n2) /\ block_index (chain n2) = block_index (chain n) /\ active_chain (chain n2) = active_chain (chain n) /\
  same_index (chain n) (chain n2) /\ invalid_blocks (chain n2) = invalid_blocks (chain n) /\
  store (chain n2) = dom (bodies n2) /\ bodies n2 !! block_hash b = Some b /\ bodies n ⊆ bodies n2 /\
  header_sequence_ids (chain n2) = header_sequence_ids (chain n) /\ best_header_hash (chain n2) = bh.
Proof.
  unfold recorded, store_records, touch. cbn [set_chain chain bodies store set_best_header].
  destruct (persist && _) eqn:Ep; cbn [set_store chain bodies block_index active_chain set_best_header store invalid_blocks
    header_sequence_ids best_header_hash].
  - apply andb_true_iff in Ep as [_ Hn%negb_true_iff]. apply bool_decide_eq_false in Hn.
    assert (Hnone : bodies n !! block_hash b = None).
    { apply not_elem_of_dom. by rewrite <- (co_store _ _ _ _ _ Hcore). }
    split_and!; try done.
    + by apply (chain_ok_same cf net (chain n)); [apply Hcore|..].
    + by rewrite dom_insert_L, (co_store _ _ _ _ _ Hcore).
    + apply lookup_insert_eq.
    + by apply insert_subseteq.
  - split_and!; try done.
    + by apply (chain_ok_view cf net), Hcore.
    + apply Hcore.
    + destruct persist; [|by apply Hreplay]. apply stored_body. apply negb_false_iff, bool_decide_eq_true in Ep. done.
Qed.

Definition final_chain (c' : ChainState) : Node := push_tip cf b h n3 c'.

Lemma connect_tip_final :
  exists c', connect_tip (chain n3) (block_hash b) (blk_header b) = Some c' /\ chain_ok c' /\ same_tables (chain n2) c' /\
    block_index (chain n) ⊆ block_index c' /\
    block_index c' = <[block_hash b := node_of (chain n) (blk_header b) parent]> (block_index (chain n)) /\
    active_chain c' = active_chain (chain n) ++ [block_hash b].
Proof.
  destruct recorded_chain as (Hok & Hi & Ha & _). rewrite law_block_hash.
  destruct (chain_ok_connect cf net (chain n2) (blk_header b) parent) as (c' & Hc & Hok' & Ht & Hsub & Hidx & Hact & _); [done|by rewrite Ha|by rewrite Hi|done|].
  exists c'. split; [exact Hc|]. split; [done|]. split; [done|]. rewrite <- Hi, <- Ha. split; [done|]. split; [|done].
  rewrite Hidx. unfold node_of. by rewrite Hi.
Qed.

Context (c' : ChainState).
Hypothesis Hok' : chain_ok c'.
Hypothesis Htables : same_tables (chain n2) c'.
Hypothesis Hsub : block_index (chain n) ⊆ block_index c'.
Hypothesis Hidx : block_index c' = <[block_hash b := node_of (chain n) (blk_header b) parent]> (block_index (chain n)).
Hypothesis Hact : active_chain c' = active_chain (chain n) ++ [block_hash b].

Lemma final_extends : extends_index (chain n) c'.
Proof. split; [apply Hcore|apply Hok'|done|]. by rewrite (ck_network _ _ _ Hok'), (ck_network _ _ _ (co_chain _ _ _ _ _ Hcore)). Qed.

Lemma final_connected : connected c' (bodies n2) (length (active_chain (chain n))) u b mtp ess u'.
Proof.
  destruct recorded_chain as (_ & _ & _ & _ & _ & _ & Hbody & _). destruct Hh as [Hh1 Hh2]. split.
  - done.
  - exists (node_of (chain n) (blk_header b) parent). rewrite Hidx, lookup_insert_eq. split; [done|]. split; [done|]. cbn. lia.
  - by rewrite (median_ext _ _ final_extends _ parent).
  - apply Hgenuine.
  - apply Hacc.
  - apply Hacc.
  - rewrite <- Hh1. apply Hacc.
Qed.

Lemma final_replays : replays c' (bodies n2) (active_chain c') u'.
Proof.
  rewrite Hact. apply (replays_next _ _ _ _ _ u b mtp ess); [|done|apply final_connected].
  apply (replays_ext cf net (chain n) _ (bodies n)); [apply Hcore|apply final_extends|apply recorded_chain|apply Hlive].
Qed.

Lemma final_undo hash x :
  undos n2 !! hash = Some x -> undos n !! hash = Some x \/
  (hash = block_hash b /\ x = undo_data ess).
Proof.
  unfold recorded, store_records. cbn [undos]. rewrite Hundo. unfold touch. cbn [set_chain undos].
  case_bool_decide; [by left|]. destruct (decide (hash = block_hash b)) as [->|Hne].
  - rewrite lookup_insert_eq. intros [= <-]. by right.
  - rewrite lookup_insert_ne by done. by left.
Qed.

Lemma final_step n' :
  chain n' = c' -> bodies n' = bodies n2 -> undos n' = undos n2 -> orphans (intake n') = orphans (intake n) ->
  (forall sn, snapshot n' = Some sn -> snapshot n = Some sn \/ snapshot_ok cf net n' sn) -> core_step n n'.
Proof.
  intros Ec Eb Eu Eo Hsn. destruct recorded_chain as (Hok & Hi & Ha & Hsame & Hv & Hst & Hbody & Hbsub & _).
  destruct Htables as (_ & Ht2 & Ht3). split; rewrite ?Ec, ?Eb, ?Eo; try done.
  - by rewrite Ht2.
  - intros hash b0 Hb0 Hnone. assert (hash = block_hash b) as ->.
    { revert Hb0. unfold recorded, store_records. cbn [bodies touch set_chain]. destruct (persist && _); [|by rewrite Hnone].
      destruct (decide (hash = block_hash b)); [done|]. rewrite lookup_insert_ne by done. by rewrite Hnone. }
    rewrite Hbody in Hb0. injection Hb0 as <-. split; [done|]. split; [done|].
    split; [rewrite Hidx, lookup_insert_eq; by eexists|]. intros _.
    apply (body_ok_grow cf net now (chain n) c' b parent); [apply final_extends|apply Hcore|done..].
  - intros hash b0 _ _ H1 H2. rewrite Ht3, Hv in H2. by destruct H2.
  - intros hash x Hx Hne. rewrite Eu in Hx. apply final_undo in Hx as [Hx|[-> ->]]; [by left|right].
    exists (active_chain (chain n)), u, b, mtp, ess, u'. rewrite Ec, Eb. split; [done|]. split; [|split; [done|split; [apply final_connected|done]]].
    apply (replays_ext cf net (chain n) _ (bodies n)); [apply Hcore|apply final_extends|done|apply Hlive].
  - intros hash [x Hx]. rewrite Eu. unfold recorded, store_records. cbn [undos touch set_chain]. rewrite Hundo.
    case_bool_decide; [by eexists|]. destruct (decide (hash = block_hash b)) as [->|Hd];
      [rewrite lookup_insert_eq|rewrite lookup_insert_ne by done]; by eexists.
  - intros p l b0 H1 H2. left. by exists p, l.
  - intros hash H. rewrite Ht3, Hv in H. by left.
Qed.

Lemma final_live n' : chain n' = c' -> bodies n' = bodies n2 -> undos n' = undos n2 -> live n' u'.
Proof.
  intros Ec Eb Eu. split; rewrite Ec, ?Eb; [apply final_replays|]. rewrite Hact. intros hash Hin Hne. rewrite Eu.
  unfold recorded, store_records. cbn [undos touch set_chain]. rewrite Hundo.
  apply elem_of_app in Hin as [Hin|Hin%list_elem_of_singleton].
  - destruct (lv_undo _ _ _ _ Hlive hash Hin Hne) as [x Hx]. case_bool_decide; [by eexists|].
    destruct (decide (hash = block_hash b)) as [->|Hd]; [rewrite lookup_insert_eq|rewrite lookup_insert_ne by done]; by eexists.
  - subst hash. case_bool_decide; [done|]. rewrite lookup_insert_eq. by eexists.
Qed.
End Accepted.

(** Connecting an indexed block leaves the view of the script checks alone. *)
Lemma final_view bh undo delta c' :
  same_view (chain n) (set_best_header bh (chain n)) ->
  connect_tip (chain (recorded n b bh undo persist delta)) (block_hash b) (blk_header b) = Some c' ->
  is_Some (block_index (chain n) !! block_hash b) -> same_view (chain n) c'.
Proof.
  intros Hv Hc [node En]. destruct (recorded_chain bh undo delta) as (Hok & Hi & Ha & Hsame & Hinv & _ & _ & _ & Hq & Hb).
  pose proof (co_chain _ _ _ _ _ Hcore) as Hok0. set (c2 := chain (recorded n b bh undo persist delta)) in *.
  rewrite (connect_tip_eq c2 (block_hash b) (blk_header b) parent) in Hc by (rewrite ?Ha, ?Hi; (done || apply Hok)).
  apply Some_inj in Hc as <-. set (c3 := set_block_index _ _).
  assert (Hid : <[block_hash b := node_of c2 (blk_header b) parent]> (block_index c2) = block_index (chain n)).
  { rewrite Hi. apply insert_id. destruct (header_known cf net (chain n) (blk_header b) parent Hok0 Hparent) as [Hk _].
    rewrite <- (law_block_hash (cf:=cf) (net:=net)) in Hk.
    destruct (known_node (chain n) (block_hash b) (blk_header b) parent (ck_wf _ _ _ Hok0) Hk Hparent) as [H|H]; [congruence|].
    rewrite H. unfold node_of. by rewrite Hi. }
  assert (Hseq : assign_header_sequence_id c3 (block_hash b) = c3).
  { unfold assign_header_sequence_id. rewrite bool_decide_true; [done|]. cbn [c3 set_block_index set_active header_sequence_ids].
    rewrite Hq. apply (ck_sequence _ _ _ Hok0). by eexists. }
  rewrite Hseq. assert (Hblk : same_view c3 (assign_block_sequence_id c3 (block_hash b))).
  { split; unfold assign_block_sequence_id; case_bool_decide; try done. by apply resolved_fun. }
  transitivity (set_best_header bh (chain n)); [done|]. transitivity c3; [|done].
  split; cbn [c3 set_block_index set_active block_index invalid_blocks header_sequence_ids ChainIndex.network set_best_header]; try done.
  - by rewrite (ck_network _ _ _ Hok), (ck_network _ _ _ Hok0).
  - by apply resolved_fun.
Qed.

(** The coins of the accepted block. *)
Lemma store_coins_runs bh a ess u' retain undo delta :
  accepted_block net cache h mtp b u retain a ess u' -> (persist = true -> Z.of_nat (size u') <= umax 64) ->
  let n2 := recorded n b bh undo persist delta in
  store_coins h (block_hash b) (delta_created b h mtp a) a persist n2 = (coined n2 b h mtp a (db' u'), Ok ()).
Proof.
  intros Hacc Hfit. cbn zeta. destruct (recorded_chain bh undo delta) as (Hok & _). set (n2 := recorded n b bh undo persist delta) in *.
  unfold store_coins, bind, modify.
  destruct persist eqn:Ep.
  2: { unfold coined, db', ret. rewrite Ep. f_equal. }
  cbn [set_utxos chain utxo_store]. unfold is_bip30_repeat. rewrite (ck_network _ _ _ Hok).
  pose proof (law_bip30 (cf:=cf) (net:=net)) as Hb30. destruct (Hpersist eq_refl) as [Hdb Hcnt].
  assert (Hbatch : apply_validated_batch (persistent_removals h a) (delta_created b h mtp a) (utxo_store n2) = Ok (db' u')).
  { unfold apply_validated_batch, db'. change (utxo_store n2) with (utxo_store n). rewrite Hdb, Hcnt, Ep.
    rewrite (proj2 (Z.leb_le _ _) (ab_room _ _ _ _ _ _ _ _ _ _ Hacc)), (ab_batch _ _ _ _ _ _ _ _ _ _ Hacc).
    cbn [rbind]. unfold checked_add. rewrite <- (ab_count _ _ _ _ _ _ _ _ _ _ Hacc).
    by rewrite (proj2 (Z.leb_le _ _) (Hfit eq_refl)). }
  rewrite Hbatch. by destruct net.
Qed.

Lemma finished_result bh a ess u' retain undo delta :
  accepted_block net cache h mtp b u retain a ess u' ->
  undo = (if bool_decide (is_Some (undos n !! block_hash b)) then None else Some (undo_data ess)) ->
  (persist = true -> Z.of_nat (size u') <= umax 64) ->
  let n2 := recorded n b bh undo persist delta in
  forall c', chain_ok c' -> same_tables (chain n2) c' -> block_index (chain n) ⊆ block_index c' ->
  block_index c' = <[block_hash b := node_of (chain n) (blk_header b) parent]> (block_index (chain n)) ->
  active_chain c' = active_chain (chain n) ++ [block_hash b] ->
  (is_Some (block_index (chain n) !! block_hash b) -> same_view (chain n) c') ->
  connect_result n (finished (push_tip cf b h (coined n2 b h mtp a (db' u')) c') persist) b persist u'.
Proof.
  intros Hacc Hundo Hfit. cbn zeta. intros c' Hok' Ht Hsub Hidx Hact Hv.
  pose proof (recorded_chain bh undo delta) as (Hok & Hi & Ha & Hsame & Hinv & Hst & Hbody & Hbsub & _).
  set (n2 := recorded n b bh undo persist delta) in *. set (n4 := push_tip _ _ _ _ _).
  assert (Hmat : utxos_materialized n4 = utxos_materialized n) by done.
  assert (Hres : utxos_materialized n = true -> utxos n4 = u').
  { intros Hm. unfold n4, push_tip, coined. cbn [utxos set_utxo_store set_utxos]. change (utxos_materialized n2) with (utxos_materialized n).
    change (utxos n2) with (utxos n). rewrite Hm, (Hresident Hm). apply Hacc. }
  assert (Hdb : utxo_store n4 = db' u') by done.
  assert (Hfin : chain (finished n4 persist) = c' /\ bodies (finished n4 persist) = bodies n2 /\
    undos (finished n4 persist) = undos n2 /\ utxos (finished n4 persist) = utxos n4 /\
    utxos_materialized (finished n4 persist) = utxos_materialized n4 /\ intake (finished n4 persist) = intake n4 /\
    active_tx_counts (finished n4 persist) = active_tx_counts n4 /\ active_tx_totals (finished n4 persist) = active_tx_totals n4).
  { unfold finished. destruct (_ && _); [|done]. unfold persist_snapshot, sync_utxo_store. by destruct (utxos_materialized n4). }
  destruct Hfin as (Fc & Fb & Fu & Fx & Fm & Fi & Fk & Ft).
  assert (Hstore : utxo_store (finished n4 persist) = db' u').
  { unfold finished. destruct (_ && _) eqn:Ef; [|done]. apply andb_true_iff in Ef as [[Ef _]%andb_true_iff _].
    unfold persist_snapshot, sync_utxo_store. destruct (utxos_materialized n4) eqn:Em; [|done]. cbn [utxo_store set_utxo_store].
    rewrite Hres by done. unfold replace_all, db'. rewrite Z.min_l by (by apply Hfit). by rewrite Ef. }
  assert (Horph : orphans (intake (finished n4 persist)) = orphans (intake n)).
  { rewrite Fi. unfold n4, push_tip. cbn [intake].
    match goal with |- orphans (if ?x then _ else _) = _ => destruct x; reflexivity end. }
  assert (Hpend : pending_body_children (intake (finished n4 persist)) = pending_body_children (intake n)).
  { rewrite Fi. unfold n4, push_tip. cbn [intake].
    match goal with |- pending_body_children (if ?x then _ else _) = _ => destruct x; reflexivity end. }
  assert (Hlive' : live (finished n4 persist) u').
  { by apply (final_live bh a ess u' retain undo delta Hacc Hundo c' Hok' Hsub Hidx Hact). }
  assert (Hstep : core_step n (finished n4 persist)).
  { eapply (final_step bh a ess u' retain undo delta Hacc Hundo c'); try done.
    intros sn Hsn. unfold finished in Hsn. destruct (_ && _) eqn:Ef; [right|by left].
    apply andb_true_iff in Ef as [[Ef _]%andb_true_iff _]. unfold snapshot_ok.
    enough (Hs : map header_hash (sn_headers sn) = active_chain c' /\ sn_utxos sn = u').
    { destruct Hs as [-> ->]. destruct Hlive' as [Hr Hun]. rewrite Fc in *. split; [done|exact Hun]. }
    revert Hsn. unfold persist_snapshot, sync_utxo_store, current_snapshot.
    destruct (utxos_materialized n4) eqn:Em; cbn [snapshot set_utxo_store utxos_materialized utxos utxo_store chain]; rewrite ?Em;
      intros Hsn; apply Some_inj in Hsn as <-; cbn [sn_headers sn_utxos]; (split; [by apply (headers_hashes cf net)|]).
    - by apply Hres.
    - rewrite Hdb. unfold db'. by rewrite Ef. }
  split; try done.
  - by apply (core_step_ok cf net body_of now n).
  - by rewrite Fc.
  - by rewrite Fb.
  - rewrite Hstore. unfold db'. by destruct persist.
  - intros Hm. rewrite Fx. by apply Hres.
  - by rewrite Fc.
  - rewrite Fc. destruct Ht as (_ & _ & ->). done.
  - intros Hp. rewrite Fb. unfold n2, recorded, store_records. by rewrite Hp.
Qed.

Section Run.
Context (bh : option bytes) (a : BlockApplication) (ess : list (list StoredUtxo)) (u' : coin_set).
Abbreviation needs_undo := (negb (bool_decide (is_Some (undos n !! block_hash b)))).
Abbreviation delta := (persist && sync && negb (bool_decide (block_hash b ∈ chainstate_store n))).
Abbreviation retain := (if persist then needs_undo || delta else true).
Abbreviation undo := (if bool_decide (is_Some (undos n !! block_hash b)) then None else Some (undo_data ess)).
Hypothesis Hck : connect_checks cf now (chain n) b = Ok (h, mtp).
Hypothesis Hct : check_transactions cf cache (chain n) b h (if persist then db_coins (utxo_store n) else utxos n) mtp retain
    = (set_best_header bh (chain n), Ok a).
Hypothesis Hv : same_view (chain n) (set_best_header bh (chain n)).
Hypothesis Hacc : accepted_block net cache h mtp b u retain a ess u'.

Lemma records_run :
  (if needs_undo then bind (lift (cache_block_undo b (spent_entries a)))
     (fun undo => modify (store_records b (Some undo) persist delta)) else modify (store_records b None persist delta)) (touch bh n)
  = (recorded n b bh undo persist delta, Ok ()).
Proof.
  unfold recorded. pose proof (ab_undo _ _ _ _ _ _ _ _ _ _ Hacc) as Hun. revert Hun. case_bool_decide as Hu; cbn [negb]; [done|].
  intros Hun. unfold bind, lift. rewrite Hun; [done|]. by destruct persist.
Qed.

(** The operation, run through. *)
Lemma connect_runs :
  (persist = true -> Z.of_nat (size u') <= umax 64) ->
  exists n', connect_block_internal_impl cf now cache b persist sync n = (n', Ok ()) /\ connect_result n n' b persist u'.
Proof.
  intros Hfit. destruct (connect_tip_final bh a u' undo delta) as (c' & Hc & Hok' & Ht & Hsub & Hidx & Hact).
  set (n2 := recorded n b bh undo persist delta) in *. set (n3 := coined n2 b h mtp a (db' u')) in *.
  exists (finished (push_tip cf b h n3 c') persist). split.
  - unfold connect_block_internal_impl. rewrite Hck. cbn zeta. rewrite Hct.
    change (set_chain (set_best_header bh (chain n)) n) with (touch bh n).
    unfold bind at 1. rewrite records_run. fold n2.
    assert (Hco : store_coins h (block_hash b) (delta_created b h mtp a) a persist n2 = (n3, Ok ()))
      by (by apply (store_coins_runs bh a ess u' retain undo delta)).
    unfold bind at 1. rewrite Hco. unfold bind at 1. by rewrite Hc.
  - apply (finished_result bh a ess u' retain undo delta Hacc eq_refl Hfit c' Hok' Ht Hsub Hidx Hact).
    intros Hin. apply (final_view bh undo delta c' Hv Hc Hin).
Qed.

(** The count of the new set fits. *)
Lemma accepted_fits : small n -> Z.of_nat (size u') <= umax 64.
Proof.
  intros Hs. pose proof (replays_small cf net body_of now n _ _ Hcore Hs (lv_replays _ _ _ _ Hlive)) as H1.
  destruct (ab_connects _ _ _ _ _ _ _ _ _ _ Hacc) as [entries Hcn].
  pose proof (ledger_size _ _ _ _ _ _ (cn_ledger _ _ _ _ _ _ _ _ Hcn)) as H2. destruct (proj1 Hgenuine) as (_ & _ & H3).
  change (umax 64) with 18446744073709551615. change (umax 32 * umax 31) with 9223372030412324865 in H1. change (umax 31) with 2147483647 in H3. lia.
Qed.
End Run.
End Block.

(** Failure changes the cached best header at most; success is a step of the
    ledger. *)
Lemma connect_impl_spec n b persist sync u :
  core_ok n -> live n u ->
  (persist = true -> db_coins (utxo_store n) = u /\ db_count (utxo_store n) = Z.of_nat (size u)) ->
  (persist = false -> utxos_materialized n = true /\ bodies n !! block_hash b = Some b) ->
  (utxos_materialized n = true -> utxos n = u) ->
  genuine b -> block_hash b ∉ invalid_blocks (chain n) -> Z.of_nat (length (active_chain (chain n))) <= umax 32 -> small n ->
  match connect_block_internal_impl cf now cache b persist sync n with
  | (n', Err _) => exists bh, n' = touch bh n
  | (n', Ok _) => exists u', connect_result n n' b persist u'
  end.
Proof.
  intros Hcore Hlive Hpersist Hreplay Hresident Hg Hv Hmax Hsmall. pose proof (co_chain _ _ _ _ _ Hcore) as Hok.
  pose proof (connect_checks_spec cf net now (chain n) b Hok) as Hck.
  destruct (connect_checks cf now (chain n) b) as [[h mtp]|e] eqn:Eck.
  2: { unfold connect_block_internal_impl. rewrite Eck. exists (best_header_hash (chain n)). symmetry. apply touch_id. }
  destruct Hck as (parent & Hlast & Hp & Hside & Hh & Hh' & Hmtp).
  destruct (tip_indexed cf net (chain n) Hok) as (node & Hl & En & Hn). rewrite Hl in Hlast. apply Some_inj in Hlast as Hbest.
  rewrite Hbest, Hp in En. apply Some_inj in En as <-.
  set (needs_undo := negb (bool_decide (is_Some (undos n !! block_hash b)))).
  set (delta := persist && sync && negb (bool_decide (block_hash b ∈ chainstate_store n))).
  set (retain := if persist then needs_undo || delta else true).
  assert (Hu : (if persist then db_coins (utxo_store n) else utxos n) = u).
  { destruct persist; [by apply Hpersist|]. apply Hresident. by apply Hreplay. }
  destruct (check_transactions cf cache (chain n) b h u mtp retain) as [c r] eqn:Ect.
  destruct (check_transactions_view cf cache _ _ _ _ _ _ _ _ Ect) as [Hview [bh ->]].
  destruct r as [a|e].
  2: { unfold connect_block_internal_impl. rewrite Eck. cbn zeta. fold needs_undo delta. fold retain. rewrite Hu, Ect. by exists bh. }
  assert (Hhl : h = Z.of_nat (length (active_chain (chain n))) /\ h = ChainIndex.height parent + 1) by lia.
  destruct (check_transactions_accepted cf net cache (chain n) b h u mtp retain a) as (ess & u' & Hacc);
    [done|by rewrite Ect|apply (structure_ok n b h parent); (done || lia)|apply Hg| |].
  { intros o e He. apply (replays_coins cf net _ _ _ _ (lv_replays _ _ _ _ Hlive)) in He. lia. }
  assert (Hlast' : list.last (active_chain (chain n)) = Some (prev_blockhash (blk_header b))) by (by rewrite Hl, Hbest).
  assert (Hpar : ChainIndex.height parent < umax 32) by lia.
  rewrite <- Hu in Ect.
  destruct (connect_runs n b persist sync u h mtp parent) with (bh := bh) (a := a) (ess := ess) (u' := u') as (n' & -> & Hres); try done.
  - intros _. by apply (accepted_fits n b persist sync u h mtp Hcore Hlive Hg a ess u' Hacc).
  - by exists u'.
Qed.
End Connect.
