(* ===== verification/ChainActivate.v ===== *)
(** * Activating a branch

    [activate_chain] takes the active chain to another stored branch: by
    taking blocks back and connecting the branch, or by a replay from a
    checkpoint.  It ends at the requested tip with the ledger's set of the new
    chain, or fails and leaves the active chain and the durable set alone. *)

From Stdlib Require Import ZArith Lia.
From stdpp Require Import base list option gmap sets strings.
From S2P Require Import Prelude Types VersionBits ChainIndex BlockChecks UtxoCodec ConnectBlock Ledger HeaderChecks ChainManager ChainReplay ChainInvariant ChainConnect.
Local Open Scope Z_scope.
Local Set Warnings "-clear-no-such-hyp".

(** ** Chains of index entries *)

Section Paths.
Context {Ops : BitcoinOps} {HOps : HeaderOps} {SOps : ScriptOps} {POps : PowOps} (cf : Config) (net : Network)
        {laws : ChainLaws cf net}.
Abbreviation g := (network_genesis_hash cf).
Abbreviation chain_ok := (chain_ok cf net).
Abbreviation replays := (replays cf net).

(** Entry [i] has height [i] and its parent before it. *)
Definition linked (c : ChainState) (l : list bytes) : Prop :=
  forall i hash, l !! i = Some hash ->
    exists node, block_index c !! hash = Some node /\ ChainIndex.height node = Z.of_nat i /\
      forall j, i = S j -> l !! j = Some (prev_blockhash (ChainIndex.header node)).

Lemma active_linked c : chain_ok c -> linked c (active_chain c).
Proof.
  intros Hok i hash H. destruct (wf_active c (ck_wf _ _ _ Hok) _ _ H) as (node & En & Hh & _ & Hp). by exists node.
Qed.

Lemma linked_take c l k : linked c l -> linked c (take k l).
Proof.
  intros Hl i hash H. apply lookup_take_Some in H as [H Hi]. destruct (Hl _ _ H) as (node & En & Hh & Hp).
  exists node. split; [done|]. split; [done|]. intros j ->. rewrite lookup_take_lt by lia. by apply Hp.
Qed.

Lemma linked_same c c' l : block_index c' = block_index c -> linked c l -> linked c' l.
Proof. intros Hi Hl i hash H. rewrite Hi. by apply Hl. Qed.

(** Chains that agree at a height agree below it. *)
Lemma linked_prefix c l l' i hash :
  linked c l -> linked c l' -> l !! i = Some hash -> l' !! i = Some hash -> take (S i) l = take (S i) l'.
Proof.
  intros Hl Hl'. revert hash. induction i as [|i IH]; intros hash H H'.
  - rewrite (take_S_r _ _ _ H), (take_S_r _ _ _ H'). done.
  - rewrite (take_S_r _ _ _ H), (take_S_r _ _ _ H'). f_equal.
    destruct (Hl _ _ H) as (node & En & _ & Hp). destruct (Hl' _ _ H') as (node' & En' & _ & Hp').
    rewrite En in En'. injection En' as <-. apply (IH _ (Hp _ eq_refl) (Hp' _ eq_refl)).
Qed.

Lemma linked_snoc c l hash node parent_hash :
  linked c l -> list.last l = Some parent_hash -> block_index c !! hash = Some node ->
  ChainIndex.height node = Z.of_nat (length l) -> prev_blockhash (ChainIndex.header node) = parent_hash ->
  linked c (l ++ [hash]).
Proof.
  intros Hl Hlast En Hh Hp i x H. destruct (decide (i < length l)%nat) as [Hi|Hi].
  - rewrite lookup_app_l in H by done. destruct (Hl _ _ H) as (nx & Enx & Hhx & Hpx). exists nx. split; [done|]. split; [done|].
    intros j ->. rewrite lookup_app_l by lia. by apply Hpx.
  - rewrite lookup_app_r in H by lia. apply list_lookup_singleton_Some in H as [Hi0 <-]. assert (i = length l) as -> by lia.
    exists node. split; [done|]. split; [done|]. intros j Hj. rewrite lookup_app_l by lia. rewrite Hp.
    rewrite last_lookup in Hlast. by rewrite Hj in Hlast.
Qed.

Lemma linked_genesis c l hash : chain_ok c -> linked c l -> l !! 0%nat = Some hash -> hash = g.
Proof.
  intros Hok Hl H. destruct (Hl _ _ H) as (node & En & Hh & _). pose proof (wf_genesis c (ck_wf _ _ _ Hok) _ _ En Hh) as Ha.
  rewrite (genesis_first cf net c Hok) in Ha. by injection Ha as <-.
Qed.

Lemma path_loop_spec fuel c cursor acc path :
  chain_ok c -> path_loop cf fuel c cursor acc = Some path ->
  exists pre, path = (pre ++ [cursor]) ++ acc /\ linked c (pre ++ [cursor]).
Proof.
  intros Hok. revert cursor acc. induction fuel as [|fuel IH]; intros cursor acc; [done|]. cbn [path_loop].
  case_bool_decide as Hg.
  - intros [= <-]. exists []. split; [done|]. intros i hash H. apply list_lookup_singleton_Some in H as [-> <-]. subst cursor.
    exists (genesis_node cf). split; [apply Hok|]. split; [done|]. by intros j.
  - intros (node & En & E)%bind_Some. destruct (IH _ _ E) as (pre & -> & Hl). exists (pre ++ [prev_blockhash (ChainIndex.header node)]).
    split; [by rewrite <- !app_assoc|]. destruct (Z.eq_dec (ChainIndex.height node) 0) as [Hz|Hz].
    { pose proof (wf_genesis c (ck_wf _ _ _ Hok) _ _ En Hz) as Ha. rewrite (genesis_first cf net c Hok) in Ha. by injection Ha as Ha. }
    destruct (wf_child c (ck_wf _ _ _ Hok) _ _ En Hz) as (parent & Ep & Hc). pose proof (child_height _ _ _ Hc).
    assert (Hlast : (pre ++ [prev_blockhash (ChainIndex.header node)]) !! length pre = Some (prev_blockhash (ChainIndex.header node)))
      by (by apply list_lookup_middle).
    destruct (Hl _ _ Hlast) as (parent' & Ep' & Hh' & _). rewrite Ep in Ep'. injection Ep' as <-.
    apply (linked_snoc c _ cursor node (prev_blockhash (ChainIndex.header node))); [done|by rewrite last_snoc|done| |done].
    rewrite length_app. simpl. lia.
Qed.

Lemma candidate_path_spec c tip path :
  chain_ok c -> candidate_path cf c tip = Some path -> linked c path /\ list.last path = Some tip /\ hd_error path = Some g.
Proof.
  intros Hok E. destruct (path_loop_spec _ _ _ _ _ Hok E) as (pre & -> & Hl). rewrite app_nil_r. split; [done|].
  split; [by rewrite last_snoc|]. destruct (pre ++ [tip]) as [|x l] eqn:El; [by destruct pre|]. cbn. f_equal.
  by apply (linked_genesis c (x :: l)).
Qed.

(** Every indexed block has a path. *)
Lemma candidate_path_total c tip node :
  chain_ok c -> block_index c !! tip = Some node -> exists path, candidate_path cf c tip = Some path.
Proof.
  intros Hok En. unfold candidate_path, walk_fuel. rewrite En.
  assert (H : forall fuel cursor n acc, block_index c !! cursor = Some n -> (Z.to_nat (ChainIndex.height n) < fuel)%nat ->
    exists path, path_loop cf fuel c cursor acc = Some path).
  { induction fuel as [|fuel IH]; intros cursor n acc Ec Hf; [lia|]. cbn [path_loop]. case_bool_decide as Hg; [by eexists|].
    rewrite Ec. cbn [mbind option_bind]. destruct (Z.eq_dec (ChainIndex.height n) 0) as [Hz|Hz].
    { pose proof (wf_genesis c (ck_wf _ _ _ Hok) _ _ Ec Hz) as Ha. rewrite (genesis_first cf net c Hok) in Ha. by injection Ha as Ha. }
    destruct (wf_child c (ck_wf _ _ _ Hok) _ _ Ec Hz) as (parent & Ep & Hc). pose proof (child_height _ _ _ Hc).
    pose proof (wf_height c (ck_wf _ _ _ Hok) _ _ Ep). apply (IH _ parent); [done|lia]. }
  apply (H _ _ node); [done|lia].
Qed.

Lemma linked_valid c l tip :
  chain_ok c -> linked c l -> list.last l = Some tip -> has_invalid_ancestor c tip = false -> forall hash, hash ∈ l -> hash ∉ invalid_blocks c.
Proof.
  intros Hok Hl Hlast Hv.
  assert (H : forall k i hash, (i + k = length l - 1)%nat -> l !! i = Some hash -> has_invalid_ancestor c hash = false).
  { induction k as [|k IH]; intros i hash Hi Hx.
    - rewrite last_lookup in Hlast. replace (pred (length l)) with i in Hlast by lia. rewrite Hx in Hlast. by injection Hlast as ->.
    - pose proof (lookup_lt_Some _ _ _ Hx). destruct (lookup_lt_is_Some_2 l (S i)) as [y Hy]; [lia|].
      assert (Hiy : has_invalid_ancestor c y = false) by (apply (IH (S i)); [lia|done]).
      destruct (Hl _ _ Hy) as (ny & Eny & Hhy & Hpy). rewrite (has_invalid_ancestor_step c (ck_wf _ _ _ Hok) y ny Eny) in Hiy.
      apply orb_false_iff in Hiy as [_ Hiy]. rewrite Hhy in Hiy. destruct (Z.eqb_spec (Z.of_nat (S i)) 0); [lia|]. cbn [negb andb] in Hiy.
      specialize (Hpy _ eq_refl). rewrite Hx in Hpy. by injection Hpy as ->. }
  intros hash [i Hi]%list_elem_of_lookup Hin. pose proof (lookup_lt_Some _ _ _ Hi).
  assert (Hx : has_invalid_ancestor c hash = false) by (apply (H (length l - 1 - i)%nat i); [lia|done]).
  destruct (Hl _ _ Hi) as (node & En & _). rewrite (has_invalid_ancestor_step c (ck_wf _ _ _ Hok) hash node En) in Hx.
  apply orb_false_iff in Hx as [Hx _]. by apply bool_decide_eq_false in Hx.
Qed.

Lemma common_height_spec path active h found k :
  common_height path active h found = Some k ->
  found = Some k \/ exists i hash, k = (h + i)%nat /\ path !! i = Some hash /\ active !! i = Some hash.
Proof.
  revert active h found. induction path as [|p path IH]; intros active h found; [by left|]. destruct active as [|a active]; [by left|].
  cbn [common_height]. intros [H|(i & hash & -> & H1 & H2)]%IH.
  - case_bool_decide as Hp; [|by left]. injection H as <-. right. exists 0%nat, p. subst a. split; [lia|done].
  - right. exists (S i), hash. split; [lia|done].
Qed.
End Paths.

(** ** The change of the durable set *)

Lemma changed_spec (u u' : coin_set) o e : (o, e) ∈ changed_entries u u' <-> u !! o = Some e /\ u' !! o <> Some e.
Proof.
  unfold changed_entries. rewrite list_elem_of_In, filter_In, <- list_elem_of_In, elem_of_map_to_list, negb_true_iff, bool_decide_eq_false.
  done.
Qed.

Lemma changed_key (u u' : coin_set) o :
  o ∈ (changed_entries u u').*1 <-> exists e, u !! o = Some e /\ u' !! o <> Some e.
Proof.
  rewrite list_elem_of_fmap. split.
  - intros ([o' e] & -> & H%changed_spec). by exists e.
  - intros (e & H). exists (o, e). by rewrite changed_spec.
Qed.

Lemma changed_NoDup (u u' : coin_set) : NoDup (changed_entries u u').*1.
Proof.
  unfold changed_entries. pose proof (NoDup_fst_map_to_list u) as Hnd. revert Hnd. generalize (map_to_list u).
  induction l as [|[o e] l IH]; [constructor|]. cbn [fmap list_fmap List.filter fst snd]. intros [Hnot Hnd]%NoDup_cons.
  destruct (negb _); [|by apply IH]. cbn [fmap list_fmap fst]. apply NoDup_cons. split; [|by apply IH]. intros Hin. apply Hnot.
  apply list_elem_of_fmap in Hin as (p & -> & Hp). rewrite list_elem_of_In, filter_In, <- list_elem_of_In in Hp.
  apply list_elem_of_fmap. exists p. tauto.
Qed.

(** The saturating count of a batch is exact within the width. *)
Lemma count_loop (up down : OutPoint -> bool) l count :
  (forall o, up o && down o = false) ->
  Z.of_nat (length (List.filter down l)) <= count -> count + Z.of_nat (length (List.filter up l)) <= umax 64 ->
  foldl (fun count o => if up o then sat_add 64 count 1 else if down o then sat_sub count 1 else count) count l
  = count + Z.of_nat (length (List.filter up l)) - Z.of_nat (length (List.filter down l)).
Proof.
  intros Hx. revert count. induction l as [|o l IH]; intros count Hd Hu; cbn [foldl List.filter length]; [simpl; lia|].
  cbn [List.filter] in Hd, Hu. specialize (Hx o). destruct (up o) eqn:Eu, (down o) eqn:Ed; try done; cbn [length] in *.
  - unfold sat_add. rewrite IH; lia.
  - unfold sat_sub. rewrite IH; lia.
  - rewrite IH; lia.
Qed.

Lemma filter_size (f : OutPoint -> bool) (X Y : gset OutPoint) :
  (forall o, o ∈ Y <-> o ∈ X /\ f o = true) -> length (List.filter f (elements X)) = size Y.
Proof.
  intros H. rewrite <- (size_list_to_set (C:=gset OutPoint)) by (apply NoDup_ListNoDup, List.NoDup_filter, NoDup_ListNoDup, NoDup_elements).
  f_equal. apply set_eq. intros o. rewrite elem_of_list_to_set, list_elem_of_In, filter_In, <- list_elem_of_In, elem_of_elements. by rewrite H.
Qed.

Lemma batch_lookup removals additions (u : coin_set) o :
  NoDup additions.*1 ->
  insert_all additions (remove_all removals u) !! o =
  match coin_map additions !! o with Some e => Some e | None => if decide (o ∈ removals) then None else u !! o end.
Proof.
  intros H. rewrite insert_all_union, lookup_union, remove_all_lookup by done. destruct (coin_map additions !! o); [by destruct (if decide _ then _ else _)|].
  by rewrite (left_id None _).
Qed.

(** The batch counts the coins of the set it leaves. *)
Lemma apply_batch_count removals additions db :
  NoDup additions.*1 -> db_count db = Z.of_nat (size (db_coins db)) ->
  Z.of_nat (size (db_coins db)) + Z.of_nat (size (db_coins (apply_batch removals additions db))) <= umax 64 ->
  db_count (apply_batch removals additions db) = Z.of_nat (size (db_coins (apply_batch removals additions db))).
Proof.
  intros Hnd Hcnt. unfold apply_batch. cbn [db_coins db_count]. rewrite Hcnt. set (u := db_coins db). set (u' := insert_all _ _). intros Hmax.
  assert (Hu' : forall o, is_Some (u' !! o) <-> (o ∈ additions.*1) \/ (o ∉ removals /\ is_Some (u !! o))).
  { intros o. unfold u'. rewrite batch_lookup by done. destruct (coin_map additions !! o) as [e|] eqn:E.
    - apply elem_of_list_to_map_2, (list_elem_of_fmap_2 fst) in E. naive_solver.
    - apply not_elem_of_list_to_map_2 in E. destruct (decide _); split; intros H; [by destruct H|tauto|by right|tauto]. }
  set (X := list_to_set (removals ++ additions.*1) : gset OutPoint).
  set (up := fun o => negb (bool_decide (is_Some (u !! o))) && bool_decide (o ∈ additions.*1)).
  set (down := fun o => bool_decide (is_Some (u !! o)) && negb (bool_decide (o ∈ additions.*1))).
  assert (Hup : length (List.filter up (elements X)) = size (dom u' ∖ dom u)).
  { apply filter_size. intros o. unfold up, X. rewrite elem_of_list_to_set, elem_of_app, elem_of_difference, !elem_of_dom, andb_true_iff, negb_true_iff,
      bool_decide_eq_false, bool_decide_eq_true, Hu'. tauto. }
  assert (Hdown : length (List.filter down (elements X)) = size (dom u ∖ dom u')).
  { apply filter_size. intros o. unfold down, X. rewrite elem_of_list_to_set, elem_of_app, elem_of_difference, !elem_of_dom, andb_true_iff, negb_true_iff,
      bool_decide_eq_false, bool_decide_eq_true, Hu'. destruct (decide (o ∈ removals)), (decide (o ∈ additions.*1)); tauto. }
  pose proof (size_difference_alt (dom u') (dom u)) as H1. pose proof (size_difference_alt (dom u) (dom u')) as H2.
  assert (H3 : size (dom u ∩ dom u') = size (dom u' ∩ dom u)) by (f_equal; set_solver).
  pose proof (subseteq_size (dom u ∩ dom u') (dom u)) as H4. pose proof (subseteq_size (dom u' ∩ dom u) (dom u')) as H5.
  rewrite !size_dom in *. specialize (H4 ltac:(set_solver)). specialize (H5 ltac:(set_solver)).
  etransitivity; [|etransitivity; [apply (count_loop up down (elements X) (Z.of_nat (size u)))|]].
  - generalize (elements X), (Z.of_nat (size u)). intros l. induction l as [|o l IH]; intros count; cbn [foldl]; [done|].
    rewrite IH. f_equal. unfold up, down. destruct (bool_decide (is_Some _)), (bool_decide (_ ∈ _)); done.
  - intros o. unfold up, down. by destruct (bool_decide (is_Some _)), (bool_decide (_ ∈ _)).
  - rewrite Hdown. lia.
  - rewrite Hup. lia.
  - rewrite Hup, Hdown. lia.
Qed.

Lemma apply_batch_diff (u u' : coin_set) db :
  db_coins db = u -> db_count db = Z.of_nat (size u) -> Z.of_nat (size u) + Z.of_nat (size u') <= umax 64 ->
  apply_batch (map fst (changed_entries u u')) (changed_entries u' u) db = {| db_coins := u'; db_count := Z.of_nat (size u') |}.
Proof.
  intros Hdb Hcnt Hmax.
  assert (E : db_coins (apply_batch (map fst (changed_entries u u')) (changed_entries u' u) db) = u').
  { unfold apply_batch. cbn [db_coins]. rewrite Hdb. apply map_eq. intros o. rewrite batch_lookup by apply changed_NoDup.
    destruct (coin_map (changed_entries u' u) !! o) as [e|] eqn:E.
    { apply elem_of_list_to_map_2, changed_spec in E as [E _]. by rewrite E. }
    apply not_elem_of_list_to_map_2 in E. rewrite changed_key in E.
    change (map fst (changed_entries u u')) with ((changed_entries u u').*1). destruct (decide _) as [Hr|Hr]; rewrite changed_key in Hr.
    + destruct Hr as (e & He & He'). destruct (u' !! o) as [e'|] eqn:Eo; [|done]. destruct E. exists e'. split; [done|]. congruence.
    + destruct (u !! o) as [e|] eqn:Eu.
      * destruct (decide (u' !! o = Some e)); [done|]. destruct Hr. by exists e.
      * destruct (u' !! o) as [e|]; [|done]. destruct E. by exists e. }
  pose proof (apply_batch_count (map fst (changed_entries u u')) (changed_entries u' u) db (changed_NoDup u' u)) as Hc.
  rewrite E, Hdb in Hc. specialize (Hc Hcnt Hmax). destruct (apply_batch _ _ _) as [c n]. cbn in *. by subst.
Qed.

Section Activate.
Context {Ops : BitcoinOps} {HOps : HeaderOps} {SOps : ScriptOps} {POps : PowOps} (cf : Config) (net : Network)
        {laws : ChainLaws cf net} (body_of : bytes -> Block) (now : Z) (cache : gset bytes).
Abbreviation g := (network_genesis_hash cf).
Abbreviation chain_ok := (chain_ok cf net).
Abbreviation replays := (replays cf net).
Abbreviation connected := (connected net).
Abbreviation core_ok := (core_ok cf net body_of now).
Abbreviation core_step := (core_step cf net body_of now).
Abbreviation live := (live cf net).
Abbreviation mid_ok := (mid_ok cf net body_of now).
Abbreviation node_ok := (node_ok cf net body_of now).
Abbreviation connect_result := (connect_result cf net body_of now).

(** ** Taking blocks back *)

Lemma undo_of_chain n l u b mtp ess u' x :
  core_ok n -> replays (chain n) (bodies n) l u -> list.last l = Some (prev_blockhash (blk_header b)) ->
  connected (chain n) (bodies n) (length l) u b mtp ess u' -> undos n !! block_hash b = Some x -> x = undo_data ess.
Proof.
  intros Hn Hr Hl Hc Hx. pose proof (co_chain _ _ _ _ _ Hn) as Hok.
  assert (Hne : block_hash b <> g) by (eapply connected_not_genesis; [done|exact Hc|by eapply replays_length]).
  destruct (co_undo _ _ _ _ _ Hn _ _ Hx Hne) as (l0 & u0 & b0 & mtp0 & ess0 & u1 & Hb & Hr0 & Hl0 & Hc0 & ->).
  assert (b = b0) as <-.
  { pose proof (cd_body _ _ _ _ _ _ _ _ _ Hc) as H1. rewrite Hb, (cd_body _ _ _ _ _ _ _ _ _ Hc0) in H1. by injection H1 as ->. }
  assert (l = l0) as <- by (apply (replays_path cf net _ _ _ _ _ _ Hok Hr Hr0); congruence).
  rewrite <- (replays_unique cf net _ _ _ _ _ Hr Hr0) in Hc0.
  by destruct (connected_unique net _ _ _ _ _ _ _ _ _ _ _ _ Hb Hc Hc0) as (_ & _ & -> & _).
Qed.

Lemma disconnect_to_common n l u k :
  core_ok n -> replays (chain n) (bodies n) l u -> (forall hash, hash ∈ l -> hash <> g -> is_Some (undos n !! hash)) ->
  (k < length l)%nat ->
  exists disconnected u0, gather_disconnected n (rev (drop (S k) l)) = Some disconnected /\
    disconnect_all disconnected u = Ok u0 /\ replays (chain n) (bodies n) (take (S k) l) u0.
Proof.
  intros Hn Hr. induction Hr as [|l u b mtp ess u' Hr IH Hl Hc]; intros Hu Hk.
  { exists [], ∅. cbn [length] in Hk. assert (k = 0)%nat as -> by lia. split; [done|]. split; [done|]. constructor. }
  rewrite length_app in Hk. cbn [length] in Hk. destruct (decide (k < length l)%nat) as [Hlt|Hge].
  - rewrite drop_app_le, take_app_le, rev_app_distr by lia. cbn [rev app gather_disconnected].
    pose proof (co_chain _ _ _ _ _ Hn) as Hok.
    assert (Hne : block_hash b <> g) by (eapply connected_not_genesis; [done|exact Hc|by eapply replays_length]).
    destruct (Hu (block_hash b)) as [x Hx]; [set_solver|done|]. rewrite (cd_body _ _ _ _ _ _ _ _ _ Hc). cbn [mbind option_bind].
    rewrite Hx. cbn [mbind option_bind]. destruct IH as (d & u0 & Hd & Hdis & Hr0); [intros; apply Hu; [set_solver|done]|done|].
    rewrite Hd. cbn [mbind option_bind]. exists ((b, x) :: d), u0. split; [done|]. split; [|done]. cbn [disconnect_all].
    rewrite (undo_of_chain n l u b mtp ess u' x Hn Hr Hl Hc Hx).
    rewrite (connected_disconnect net _ _ _ _ _ _ _ _ (proj1 (replays_coins cf net _ _ _ _ Hr)) Hc). done.
  - assert (k = length l) as -> by lia. rewrite drop_ge, take_ge by (rewrite length_app; simpl; lia). cbn [rev gather_disconnected].
    exists [], u'. split; [done|]. split; [done|]. by apply (replays_next _ _ _ _ l u b mtp ess).
Qed.

(** ** Connecting a branch *)

Lemma cumulative_snoc total l x :
  cumulative_from total (l ++ [x]) =
  cumulative_from total l ++ [sat_add 64 (default total (list.last (cumulative_from total l))) x].
Proof.
  revert total. induction l as [|y l IH]; intros total; [done|]. cbn [app cumulative_from]. rewrite IH. cbn [app].
  do 2 f_equal. destruct (cumulative_from (sat_add 64 total y) l) as [|z zs] eqn:E; [done|].
  rewrite (last_cons_cons (sat_add 64 total y)). destruct (list.last (z :: zs)) eqn:El; [done|]. by apply last_None in El.
Qed.

Lemma cumulative_take total l k : cumulative_from total (take k l) = take k (cumulative_from total l).
Proof. revert total k. induction l as [|y l IH]; intros total [|k]; cbn [take cumulative_from]; [done..|]. by rewrite IH. Qed.

(** The blocks [hashes] were connected without a change of the durable set. *)
Record run_result (n n' : Node) (hashes : list bytes) : Prop := {
  rr_mid : mid_ok n';
  rr_active : active_chain (chain n') = active_chain (chain n) ++ hashes;
  rr_store : utxo_store n' = utxo_store n;
  rr_index : block_index (chain n') = block_index (chain n);
  rr_invalid : invalid_blocks (chain n') = invalid_blocks (chain n);
  rr_bodies : bodies n' = bodies n;
  rr_undos : forall hash, is_Some (undos n !! hash) -> is_Some (undos n' !! hash);
  rr_counts : active_tx_counts n' = active_tx_counts n ++ map (count_of (bodies n)) hashes;
  rr_totals : active_tx_totals n = cumulative_tx_counts (active_tx_counts n) ->
    active_tx_totals n' = cumulative_tx_counts (active_tx_counts n');
}.

Lemma run_touch n bh : mid_ok n -> run_result n (touch bh n) [].
Proof. intros Hn. split; rewrite ?app_nil_r; try done. by apply mid_touch. Qed.

Lemma run_trans n n1 n2 l1 l2 : run_result n n1 l1 -> run_result n1 n2 l2 -> run_result n n2 (l1 ++ l2).
Proof.
  intros [A1 A2 A3 A4 A5 A6 A7 A8 A9] [B1 B2 B3 B4 B5 B6 B7 B8 B9]. split; try congruence; auto.
  - by rewrite B2, A2, app_assoc.
  - by rewrite B8, A8, A6, map_app, app_assoc.
Qed.

Lemma run_connect n n' b u' :
  connect_result n n' b false u' -> mid_ok n -> is_Some (block_index (chain n) !! block_hash b) ->
  run_result n n' [block_hash b] /\ utxos n' = u' /\ same_view (chain n) (chain n').
Proof.
  intros Hr Hn Hi. pose proof (cr_view _ _ _ _ _ _ _ _ _ Hr Hi) as Hv. pose proof (mi_resident _ _ _ _ _ Hn) as Hm.
  pose proof (cr_resident _ _ _ _ _ _ _ _ _ Hr Hm) as Hu. pose proof (cr_bodies _ _ _ _ _ _ _ _ _ Hr eq_refl) as Hb.
  destruct (cr_counts _ _ _ _ _ _ _ _ _ Hr) as [Hc Ht]. split; [|done]. split.
  - split; [apply Hr|rewrite Hu; apply Hr|by rewrite (cr_materialized _ _ _ _ _ _ _ _ _ Hr)].
  - apply Hr.
  - apply (cr_store _ _ _ _ _ _ _ _ _ Hr).
  - apply Hv.
  - apply (cr_invalid _ _ _ _ _ _ _ _ _ Hr).
  - done.
  - by apply (cs_undo_kept _ _ _ _ _ _ (cr_step _ _ _ _ _ _ _ _ _ Hr)).
  - rewrite Hc. cbn [map]. unfold count_of. rewrite <- Hb, (cr_body _ _ _ _ _ _ _ _ _ Hr). done.
  - intros H. rewrite Hc, Ht. unfold cumulative_tx_counts. by rewrite cumulative_snoc, H.
Qed.

(** A stored block above a linked chain passes the checks of its header. *)
Lemma stored_side_checks n b l rest :
  core_ok n -> bodies n !! block_hash b = Some b -> block_hash b ∉ invalid_blocks (chain n) ->
  linked (chain n) (l ++ block_hash b :: rest) -> l <> [] ->
  exists parent, list.last l = Some (prev_blockhash (blk_header b)) /\
    block_index (chain n) !! prev_blockhash (blk_header b) = Some parent /\ side_checks cf now (chain n) b parent = Ok () /\
    ChainIndex.height parent = Z.of_nat (length l) - 1 /\ Z.of_nat (length l) <= umax 32 /\
    is_Some (block_index (chain n) !! block_hash b).
Proof.
  intros Hn Hb Hv Hl Hne. pose proof (co_chain _ _ _ _ _ Hn) as Hok.
  destruct (Hl (length l) (block_hash b)) as (node & En & Hh & Hp); [by apply list_lookup_middle|].
  assert (Hhd : ChainIndex.header node = blk_header b).
  { apply (law_header_hash (cf:=cf) (net:=net)). rewrite (ck_hash _ _ _ Hok _ _ En). apply law_block_hash. }
  assert (Hlen : (0 < length l)%nat) by (destruct l; [done|simpl; lia]).
  assert (Hg : block_hash b <> g).
  { intros Hg. rewrite Hg, (ck_genesis _ _ _ Hok) in En. injection En as <-. cbn in Hh. lia. }
  destruct (co_checked _ _ _ _ _ Hn _ _ Hb Hg Hv) as (parent & Ep & Hs). exists parent.
  destruct (length l) as [|k] eqn:El; [lia|]. specialize (Hp _ eq_refl). rewrite Hhd in Hp.
  rewrite lookup_app_l in Hp by lia. destruct (Hl k (prev_blockhash (blk_header b))) as (pn & Epn & Hpn & _).
  { by rewrite lookup_app_l by lia. }
  rewrite Ep in Epn. injection Epn as <-. pose proof (wf_height _ (ck_wf _ _ _ Hok) _ _ En).
  split; [rewrite last_lookup, El; done|]. split; [done|]. split; [done|]. split; [lia|]. split; [lia|by eexists].
Qed.

(** The set at the live node takes the step that was validated on the side. *)
Lemma connect_internal_ok n c b h mtp a rest :
  mid_ok n -> chain_ok c -> same_view c (chain n) -> bodies n !! block_hash b = Some b ->
  block_hash b ∉ invalid_blocks (chain n) -> linked (chain n) (active_chain (chain n) ++ block_hash b :: rest) ->
  h = Z.of_nat (length (active_chain (chain n))) ->
  median_time_past_for_parent c (prev_blockhash (blk_header b)) = Some mtp ->
  (check_transactions cf cache c b h (utxos n) mtp true).2 = Ok a ->
  exists n', connect_block_internal cf now cache b n = (n', Ok ()) /\ run_result n n' [block_hash b] /\
    utxos n' = apply_block_to_utxos (utxos n) b h mtp (spent_entries a) /\ same_view (chain n) (chain n').
Proof.
  intros Hn Hokc Hview Hb Hv Hl Hh Hmtp Hct. destruct Hn as [Hcore Hlive Hm]. pose proof (co_chain _ _ _ _ _ Hcore) as Hok.
  assert (Hne : active_chain (chain n) <> []).
  { intros H. pose proof (genesis_first cf net _ Hok) as Hg. by rewrite H in Hg. }
  destruct (stored_side_checks n b _ rest Hcore Hb Hv Hl Hne) as (parent & Hlast & Ep & Hs & Hp & Hmax & Hi).
  assert (Hmtp' : median_time_past_for_parent (chain n) (prev_blockhash (blk_header b)) = Some mtp).
  { rewrite <- Hmtp. apply (median_ext c (chain n)) with (node := parent); [|by rewrite <- (sv_index _ _ Hview)].
    split; [apply Hokc|apply Hok|by rewrite (sv_index _ _ Hview)|apply Hview]. }
  assert (Hct' : (check_transactions cf cache (chain n) b h (utxos n) mtp true).2 = Ok a).
  { rewrite (check_transactions_eq cf net cache c (chain n)); [done|done|done|done|lia]. }
  destruct (check_transactions cf cache (chain n) b h (utxos n) mtp true) as [c1 r] eqn:Ect. cbn [snd] in Hct'. subst r.
  destruct (check_transactions_view cf cache _ _ _ _ _ _ _ _ Ect) as [Hview1 [bh ->]].
  destruct (co_bodies _ _ _ _ _ Hcore _ _ Hb) as (_ & Hg & _).
  assert (Hhp : h = Z.of_nat (length (active_chain (chain n))) /\ h = ChainIndex.height parent + 1) by lia.
  assert (Hpar : ChainIndex.height parent < umax 32) by lia.
  destruct (check_transactions_accepted cf net cache (chain n) b h (utxos n) mtp true a) as (ess & u' & Hacc);
    [done|by rewrite Ect|by apply (structure_ok cf now n b h parent)|apply Hg| |].
  { intros o e He. apply (replays_coins cf net _ _ _ _ (lv_replays _ _ _ _ Hlive)) in He. lia. }
  pose proof (connect_checks_spec cf net now (chain n) b Hok) as Hck.
  destruct (connect_checks cf now (chain n) b) as [[h' mtp']|e] eqn:Eck; [|by destruct (Hck parent Hlast Ep)].
  destruct Hck as (parent' & _ & Ep' & _ & Hh' & _ & Hm'). rewrite Ep in Ep'. injection Ep' as <-. rewrite Hmtp' in Hm'. injection Hm' as <-.
  assert (h' = h) as -> by (rewrite Hh'; unfold sat_add; lia).
  destruct (connect_runs cf net body_of now cache n b false true (utxos n) h mtp parent) with (bh := bh) (a := a) (ess := ess) (u' := u')
    as (n' & Hrun & Hres); try done.
  exists n'. split; [exact Hrun|]. destruct (run_connect n n' b u' Hres) as (H1 & H2 & H3); [by split|done|]. split; [done|]. split; [|done].
  rewrite H2. symmetry. by apply Hacc.
Qed.

Lemma live_run blocks n c h c' u' :
  mid_ok n -> chain_ok c -> same_view c (chain n) -> linked (chain n) (active_chain (chain n) ++ map block_hash blocks) ->
  (forall b, b ∈ blocks -> bodies n !! block_hash b = Some b /\ block_hash b ∉ invalid_blocks (chain n)) ->
  (blocks <> [] -> h = Z.of_nat (length (active_chain (chain n)))) ->
  dry_run cf cache c blocks h (utxos n) = (c', Ok u') ->
  exists n', for_each (connect_block_internal cf now cache) blocks n = (n', Ok ()) /\
    run_result n n' (map block_hash blocks) /\ utxos n' = u'.
Proof.
  revert n c h. induction blocks as [|b blocks IH]; intros n c h Hn Hokc Hview Hl Hst Hh E.
  { cbn in E. injection E as _ <-. exists n. split; [done|]. split; [|done]. rewrite <- (touch_id n) at 2. by apply run_touch. }
  cbn [dry_run] in E. destruct (median_time_past_for_parent c _) as [mtp|] eqn:Em; [|done].
  destruct (check_transactions cf cache c b h (utxos n) mtp true) as [c1 r] eqn:Ect.
  destruct (check_transactions_view cf cache _ _ _ _ _ _ _ _ Ect) as [Hview1 [bh ->]]. destruct r as [a|]; [|done].
  specialize (Hh ltac:(done)). destruct (Hst b) as [Hb Hv]; [left|]. cbn [map] in *.
  destruct (connect_internal_ok n c b h mtp a (map block_hash blocks)) as (n1 & H1 & Hr1 & Hu1 & Hv1); try done; [by rewrite Ect|].
  rewrite <- Hu1 in E. destruct (IH n1 (set_best_header bh c) (sat_add 32 h 1)) as (n2 & H2 & Hr2 & Hu2); try done.
  - apply Hr1.
  - by apply (chain_ok_view cf net).
  - transitivity (chain n); [|done]. transitivity c; [by symmetry|done].
  - rewrite (rr_active _ _ _ Hr1), <- app_assoc. by apply (linked_same (chain n)); [apply Hr1|].
  - intros b' Hb'. rewrite (rr_bodies _ _ _ Hr1), (rr_invalid _ _ _ Hr1). apply Hst. by right.
  - intros Hne. rewrite (rr_active _ _ _ Hr1), length_app. cbn [length].
    destruct blocks as [|b2 blocks]; [done|]. cbn [map] in Hl.
    destruct (Hl (S (length (active_chain (chain n)))) (block_hash b2)) as (node & En & Hhn & _).
    { rewrite lookup_app_r by lia. by replace (S _ - _)%nat with 1%nat by lia. }
    pose proof (wf_height _ (ck_wf _ _ _ (co_chain _ _ _ _ _ (mi_core _ _ _ _ _ Hn))) _ _ En). unfold sat_add. lia.
  - exists n2. cbn [for_each]. unfold bind. rewrite H1. split; [done|]. split; [|done].
    by apply (run_trans n n1 n2 [block_hash b]).
Qed.

(** ** Changes of the fields that the invariant does not read *)

Lemma core_same n n' :
  core_ok n -> chain n' = chain n -> bodies n' = bodies n -> undos n' = undos n -> snapshot n' = snapshot n ->
  orphans (intake n') = orphans (intake n) -> core_ok n'.
Proof.
  intros Hn Hc Hb Hu Hs Ho. apply (core_step_ok cf net body_of now n); [done|].
  apply core_step_same; rewrite ?Hc; try done. apply Hn.
Qed.

Lemma live_same n n' u :
  live n u -> chain n' = chain n -> bodies n' = bodies n -> undos n' = undos n -> live n' u.
Proof. intros [H1 H2] Hc Hb Hu. split; rewrite Hc, ?Hb, ?Hu; done. Qed.

Lemma node_same n n' :
  node_ok n -> chain n' = chain n -> bodies n' = bodies n -> undos n' = undos n -> snapshot n' = snapshot n ->
  orphans (intake n') = orphans (intake n) -> utxo_store n' = utxo_store n -> utxos n' = utxos n ->
  utxos_materialized n' = utxos_materialized n -> active_tx_counts n' = active_tx_counts n ->
  active_tx_totals n' = active_tx_totals n -> node_ok n'.
Proof.
  intros [H1 H2 H3 H4 H5] Hc Hb Hu Hs Ho Hd Hx Hm Hk Ht. split.
  - by apply (core_same n).
  - rewrite Hd. by apply (live_same n).
  - by rewrite Hd.
  - by rewrite Hm, Hx, Hd.
  - unfold counts_ok. by rewrite Hk, Ht, Hb, Hc.
Qed.

Lemma update_ibd_ok n : node_ok n -> node_ok (update_ibd_status cf now n).
Proof.
  intros Hn. unfold update_ibd_status. destruct (negb _); [done|]. destruct (block_index _ !! _); [|done].
  destruct (_ && _); [|done]. by apply (node_same n).
Qed.

Lemma update_ibd_fields n :
  let n' := update_ibd_status cf now n in
  chain n' = chain n /\ bodies n' = bodies n /\ undos n' = undos n /\ utxo_store n' = utxo_store n.
Proof.
  cbn zeta. unfold update_ibd_status. destruct (negb _); [done|]. destruct (block_index _ !! _); [|done]. by destruct (_ && _).
Qed.

Lemma materialize_ok n : node_ok n -> node_ok (materialize_utxos n).
Proof.
  intros Hn. unfold materialize_utxos. destruct (utxos_materialized n) eqn:Em; [done|]. destruct Hn as [H1 H2 H3 H4 H5]. split; try done.
  - by apply (core_same n).
  - by apply (live_same n).
Qed.

Lemma release_ok n : node_ok n -> node_ok (release_materialized_utxos n).
Proof.
  intros [H1 H2 H3 H4 H5]. split; try done; [by apply (core_same n)|by apply (live_same n)].
Qed.

(** ** Activation of a suffix *)

Lemma get_all_spec n hashes blocks :
  core_ok n -> get_all n hashes = Ok blocks ->
  map block_hash blocks = hashes /\ forall b, b ∈ blocks -> bodies n !! block_hash b = Some b.
Proof.
  intros Hn. revert blocks. induction hashes as [|hash hashes IH]; intros blocks; cbn [get_all].
  { intros [= <-]. split; [done|]. by intros b ?%not_elem_of_nil. }
  destruct (bodies n !! hash) as [b|] eqn:Eb; [|done]. cbn [ok_or rbind].
  intros (rest & Hrest & [= <-])%rbind_Ok. destruct (IH _ Hrest) as [<- Hin].
  destruct (co_bodies _ _ _ _ _ Hn _ _ Eb) as (Hh & _). cbn [map]. rewrite Hh. split; [done|].
  intros b' [->|Hb']%elem_of_cons; [by rewrite Hh|by apply Hin].
Qed.

Lemma dry_run_view blocks c h u c' r :
  dry_run cf cache c blocks h u = (c', r) -> same_view c c' /\ exists bh, c' = set_best_header bh c.
Proof.
  assert (Hid : forall c, same_view c c /\ exists bh, c = set_best_header bh c).
  { intros c0. split; [done|]. exists (best_header_hash c0). symmetry. apply set_best_header_id. }
  revert c h u. induction blocks as [|b blocks IH]; intros c h u; cbn [dry_run]; [by intros [= <- _]|].
  destruct (median_time_past_for_parent _ _) as [mtp|]; [|by intros [= <- _]].
  destruct (check_transactions cf cache c b h u mtp true) as [c1 r1] eqn:E.
  destruct (check_transactions_view cf cache _ _ _ _ _ _ _ _ E) as [Hv [bh ->]]. destruct r1 as [a|]; [|intros [= <- _]; split; [done|by eexists]].
  intros [Hv' [bh' ->]]%IH. split; [by transitivity (set_best_header bh c)|]. by exists bh'.
Qed.

(** The live state at the common ancestor. *)
Lemma truncate_mid n u common :
  core_ok n -> live n u -> (common < length (active_chain (chain n)))%nat ->
  forall u0, replays (chain n) (bodies n) (take (S common) (active_chain (chain n))) u0 -> mid_ok (truncate_to common u0 n).
Proof.
  intros Hcore [Hr Hu] Hlt u0 Hr0. assert (Hstep : core_step n (truncate_to common u0 n)).
  { apply core_step_same; try done. apply (chain_ok_disconnect cf net), Hcore. }
  split; [by apply (core_step_ok cf net body_of now n)| |done]. split; cbn [truncate_to utxos chain disconnect_to set_active active_chain bodies].
  - apply (replays_ext cf net (chain n) _ (bodies n)); [apply Hcore|exact (core_step_ext cf net body_of now n _ Hcore Hstep)|done|done].
  - intros hash Hin Hne. apply Hu; [|done]. by apply elem_of_take in Hin as (i & Hi & _); apply list_elem_of_lookup; exists i.
Qed.

(** What activation leaves alone. *)
Record kept (n n' : Node) : Prop := {
  kp_index : block_index (chain n') = block_index (chain n);
  kp_invalid : invalid_blocks (chain n') = invalid_blocks (chain n);
  kp_bodies : bodies n' = bodies n;
  kp_undos : forall hash, is_Some (undos n !! hash) -> is_Some (undos n' !! hash);
}.

Section Suffix.
Context (n : Node) (path : list bytes) (common : nat) (hash : bytes).
Hypothesis Hn : node_ok n.
Hypothesis Hm : utxos_materialized n = true.
Hypothesis Hsmall : small n.
Hypothesis Hl : linked (chain n) path.
Hypothesis Hval : forall hash, hash ∈ path -> hash ∉ invalid_blocks (chain n).
Hypothesis Hp : path !! common = Some hash.
Hypothesis Ha : active_chain (chain n) !! common = Some hash.
Abbreviation n1 bh u0 := (truncate_to common u0 (touch bh n)).

Lemma suffix_prefix : take (S common) (active_chain (chain n)) = take (S common) path.
Proof.
  apply (linked_prefix (chain n) _ _ common hash); [|done..]. by apply (active_linked cf net), (co_chain _ _ _ _ _ (no_core _ _ _ _ _ Hn)).
Qed.

Lemma suffix_live : live n (utxos n).
Proof. rewrite (no_resident _ _ _ _ _ Hn Hm). apply Hn. Qed.

(** The live blocks follow the blocks validated on the side. *)
Lemma suffix_run u0 blocks bh u' :
  replays (chain n) (bodies n) (take (S common) (active_chain (chain n))) u0 -> map block_hash blocks = drop (S common) path ->
  (forall b, b ∈ blocks -> bodies n !! block_hash b = Some b) ->
  dry_run cf cache (chain n) blocks (sat_add 32 (Z.of_nat common) 1) u0 = (set_best_header bh (chain n), Ok u') ->
  exists n2, for_each (connect_block_internal cf now cache) blocks (n1 bh u0) = (n2, Ok ()) /\
    run_result (n1 bh u0) n2 (drop (S common) path) /\ utxos n2 = u' /\ active_chain (chain n2) = path.
Proof.
  intros Hr0 Hblocks Hstored Edry. pose proof (no_core _ _ _ _ _ Hn) as Hcore. pose proof (co_chain _ _ _ _ _ Hcore) as Hok.
  destruct (dry_run_view _ _ _ _ _ _ Edry) as [Hview _]. pose proof (lookup_lt_Some _ _ _ Ha) as Hlt.
  assert (Hn1 : mid_ok (n1 bh u0)).
  { apply (truncate_mid (touch bh n) (utxos n)); [by apply core_touch|apply (live_touch cf net body_of now); [done|apply suffix_live]|done|].
    apply (replays_ext cf net (chain n) _ (bodies n)); [done| |done|done].
    split; [apply Hok|apply (chain_ok_view cf net), Hok|done|done]. }
  assert (Hact1 : active_chain (chain (n1 bh u0)) = take (S common) path) by (by rewrite <- suffix_prefix).
  assert (Hlen1 : length (active_chain (chain (n1 bh u0))) = S common).
  { rewrite Hact1, length_take. apply lookup_lt_Some in Hp. lia. }
  destruct (live_run blocks (n1 bh u0) (chain n) (sat_add 32 (Z.of_nat common) 1) (set_best_header bh (chain n)) u') as (n2 & Hrun & Hrr & Hu2); try done.
  - destruct Hview as [V1 V2 V3 V4 V5]. split; try done. rewrite <- V5. by apply resolved_fun.
  - rewrite Hact1, Hblocks, take_drop. by apply (linked_same (chain n)).
  - intros b Hb. split; [by apply Hstored|]. apply Hval.
    assert (Hin : block_hash b ∈ drop (S common) path) by (rewrite <- Hblocks; apply list_elem_of_In, in_map, list_elem_of_In, Hb).
    rewrite <- (take_drop (S common) path). apply elem_of_app. by right.
  - intros Hne. rewrite Hlen1. destruct blocks as [|b blocks]; [done|].
    assert (Hpb : path !! S common = Some (block_hash b)).
    { rewrite <- (Nat.add_0_r (S common)), <- lookup_drop, <- Hblocks. done. }
    destruct (Hl _ _ Hpb) as (node & En & Hh & _). pose proof (wf_height _ (ck_wf _ _ _ Hok) _ _ En). unfold sat_add. lia.
  - rewrite Hblocks in Hrr. exists n2. split; [done|]. split; [done|]. split; [done|]. by rewrite (rr_active _ _ _ Hrr), Hact1, take_drop.
Qed.

(** The durable set takes the difference in one batch. *)
Lemma suffix_done bh u0 n2 :
  run_result (n1 bh u0) n2 (drop (S common) path) -> active_chain (chain n2) = path ->
  node_ok (set_utxo_store (apply_batch (map fst (changed_entries (utxos n) (utxos n2))) (changed_entries (utxos n2) (utxos n)) (utxo_store n2)) n2).
Proof.
  intros Hrr Hact2. pose proof (rr_mid _ _ _ Hrr) as [Hc2 Hl2 Hm2]. pose proof (no_resident _ _ _ _ _ Hn Hm) as Hu.
  rewrite apply_batch_diff.
  - split; cbn [set_utxo_store utxo_store utxos utxos_materialized db_coins db_count]; try done; [by apply (core_same n2)|by apply (live_same n2)|].
    destruct (no_counts _ _ _ _ _ Hn) as [Hk Ht]. unfold counts_ok. cbn [set_utxo_store active_tx_counts active_tx_totals chain bodies].
    rewrite Hact2, (rr_bodies _ _ _ Hrr). split.
    + rewrite (rr_counts _ _ _ Hrr). cbn [truncate_to active_tx_counts bodies touch set_chain]. rewrite Hk.
      assert (Hsplit : map (count_of (bodies n)) path = map (count_of (bodies n)) (take (S common) path) ++ map (count_of (bodies n)) (drop (S common) path))
        by (by rewrite <- map_app, take_drop).
      by rewrite Hsplit, <- suffix_prefix, firstn_map.
    + apply (rr_totals _ _ _ Hrr). cbn [truncate_to active_tx_counts active_tx_totals touch set_chain]. rewrite Ht.
      unfold cumulative_tx_counts. by rewrite cumulative_take.
  - rewrite (rr_store _ _ _ Hrr). by rewrite Hu.
  - rewrite (rr_store _ _ _ Hrr), Hu. apply Hn.
  - pose proof (replays_small cf net body_of now n _ _ (no_core _ _ _ _ _ Hn) Hsmall (lv_replays _ _ _ _ suffix_live)) as H1.
    assert (Hs2 : small n2) by (unfold small; by rewrite (rr_index _ _ _ Hrr)).
    pose proof (replays_small cf net body_of now n2 _ _ Hc2 Hs2 (lv_replays _ _ _ _ Hl2)) as H2.
    change (umax 64) with 18446744073709551615. change (umax 32 * umax 31) with 9223372030412324865 in H1, H2. lia.
Qed.

Lemma suffix_spec :
  match activate_chain_from_pruned_suffix cf now cache path common n with
  | (n', Ok activated) => activated = true /\ node_ok n' /\ active_chain (chain n') = path /\ kept n n'
  | (n', Err _) => exists bh, n' = touch bh n
  end.
Proof.
  pose proof (no_core _ _ _ _ _ Hn) as Hcore. pose proof suffix_live as Hlive.
  pose proof (lookup_lt_Some _ _ _ Ha) as Hlt. assert (Hid : exists bh, n = touch bh n) by (exists (best_header_hash (chain n)); by rewrite touch_id).
  unfold activate_chain_from_pruned_suffix. rewrite Hp, Ha, bool_decide_true by done.
  rewrite (proj2 (Nat.leb_gt _ _)) by lia. cbn [orb negb].
  destruct (disconnect_to_common n _ _ common Hcore (lv_replays _ _ _ _ Hlive) (lv_undo _ _ _ _ Hlive) Hlt) as (d & u0 & -> & Hd & Hr0).
  unfold bind at 1, lift at 1. destruct (get_all n (drop (S common) path)) as [blocks|] eqn:Eg; [|done].
  destruct (get_all_spec n _ _ Hcore Eg) as [Hblocks Hstored].
  unfold bind at 1, lift at 1. rewrite Hd. unfold bind at 1.
  destruct (dry_run cf cache (chain n) blocks (sat_add 32 (Z.of_nat common) 1) u0) as [c r] eqn:Edry.
  destruct (dry_run_view _ _ _ _ _ _ Edry) as [Hview [bh ->]].
  change (set_chain (set_best_header bh (chain n)) n) with (touch bh n). destruct r as [u'|]; [|by exists bh].
  destruct (suffix_run u0 blocks bh u' Hr0 Hblocks Hstored Edry) as (n2 & Hrun & Hrr & Hu2 & Hact2).
  unfold bind at 1, modify at 1, bind at 1. rewrite Hrun. unfold bind at 1, modify at 1, bind at 1, modify at 1, bind at 1, modify at 1, ret.
  pose proof (suffix_done bh u0 n2 Hrr Hact2) as Hn3. rewrite Hu2 in Hn3. set (n3 := set_utxo_store _ n2) in *.
  destruct (update_ibd_fields (release_materialized_utxos n3)) as (F1 & F2 & F3 & F4). split; [done|]. split; [by apply update_ibd_ok, release_ok|].
  split; [by rewrite F1|]. split; rewrite ?F1, ?F2, ?F3; apply Hrr.
Qed.
End Suffix.

(** ** Replay from a checkpoint or from the genesis block *)

(** The active chain may be any chain of the index. *)
Lemma chain_ok_active c hds :
  chain_ok c -> linked c (map header_hash hds) -> hd_error (map header_hash hds) = Some g ->
  chain_ok (set_active (fun _ => map header_hash hds) (fun _ => hds) c).
Proof.
  intros [H1 H2 H3 H4 H5] Hl Hg. split; try done. destruct H1 as [W1 W2 W3 W4 W5].
  split; cbn [set_active block_index active_chain headers]; try done.
  - intros hash node En Hz. pose proof (W2 _ _ En Hz) as Ha. pose proof (W2 _ _ H4 eq_refl) as Ha'. rewrite Ha in Ha'. injection Ha' as ->.
    by destruct (map header_hash hds).
  - intros i hash Hi. destruct (Hl _ _ Hi) as (node & En & Hh & Hp). exists node. split; [done|]. split; [done|]. split; [|done].
    change (map header_hash hds) with (header_hash <$> hds) in Hi. rewrite list_lookup_fmap in Hi. destruct (hds !! i) as [hd|]; [|done].
    cbn in Hi. injection Hi as Hi. rewrite <- (H3 _ _ En) in Hi. apply (law_header_hash (cf:=cf) (net:=net)) in Hi. by rewrite Hi.
  - by rewrite length_map.
Qed.

Lemma set_active_core n hds :
  core_ok n -> linked (chain n) (map header_hash hds) -> hd_error (map header_hash hds) = Some g ->
  forall n', chain n' = set_active (fun _ => map header_hash hds) (fun _ => hds) (chain n) -> bodies n' = bodies n ->
  (forall hash, hash <> g -> undos n' !! hash = undos n !! hash) -> (is_Some (undos n !! g) -> is_Some (undos n' !! g)) ->
  snapshot n' = snapshot n -> orphans (intake n') = orphans (intake n) -> core_step n n'.
Proof.
  intros Hn Hl Hg n' Hc Hb Hu Hug Hs Ho. split; rewrite ?Hc, ?Hb, ?Hs, ?Ho; try done.
  - apply chain_ok_active; [apply Hn|done|done].
  - apply Hn.
  - intros hash b H1 H2. congruence.
  - intros hash x Hx Hne. left. by rewrite <- Hu.
  - intros hash Hx. destruct (decide (hash = g)) as [->|Hne]; [by apply Hug|by rewrite Hu].
  - intros. by left.
  - intros p l b H1 H2. left. by exists p, l.
  - intros. by left.
Qed.

Lemma insert_same c hash node : block_index c !! hash = Some node -> set_block_index <[hash := node]> c = c.
Proof. intros H. destruct c. unfold set_block_index. cbn in *. by rewrite insert_id. Qed.

Lemma sequence_same c hash : is_Some (header_sequence_ids c !! hash) -> assign_header_sequence_id c hash = c.
Proof. intros H. unfold assign_header_sequence_id. by rewrite bool_decide_true. Qed.

(** The entries of the headers of a checkpoint are in the index already. *)
Lemma index_active_same c hds h :
  chain_ok c -> (forall i hd, hds !! i = Some hd -> exists node, block_index c !! header_hash hd = Some node /\ ChainIndex.height node = h + Z.of_nat i) ->
  0 <= h -> index_active_headers hds h c = Ok c.
Proof.
  intros Hok. revert h. induction hds as [|hd hds IH]; intros h Hin Hh; [done|]. cbn [index_active_headers].
  destruct (Hin 0%nat hd eq_refl) as (node & En & Hn). rewrite Z.add_0_r in Hn. pose proof (ck_wf _ _ _ Hok) as Hwf.
  assert (Hhd : ChainIndex.header node = hd) by (apply (law_header_hash (cf:=cf) (net:=net)), (ck_hash _ _ _ Hok _ _ En)).
  assert (Hrest : forall i hd', hds !! i = Some hd' -> exists node, block_index c !! header_hash hd' = Some node /\ ChainIndex.height node = h + 1 + Z.of_nat i).
  { intros i hd' Hi. destruct (Hin (S i) hd' Hi) as (nd & ? & ?). exists nd. split; [done|lia]. }
  assert (Hq : is_Some (header_sequence_ids c !! header_hash hd)) by (apply (ck_sequence _ _ _ Hok); by eexists).
  destruct (Z.eqb_spec h 0) as [Hz|Hz].
  - cbn [rbind]. rewrite Z.add_0_l. rewrite Hz in Hn |- *. pose proof (wf_genesis c Hwf _ _ En Hn) as Ha.
    rewrite (genesis_first cf net c Hok) in Ha. injection Ha as Ha. rewrite <- Ha in En. pose proof (ck_genesis _ _ _ Hok) as Eg.
    rewrite En in Eg. injection Eg as Eg. rewrite insert_same, sequence_same; [rewrite Hz in Hrest; by apply IH|done|].
    rewrite <- Ha, En, Eg. unfold genesis_node. rewrite Eg in Hhd. cbn in Hhd. by rewrite <- Hhd.
  - destruct (wf_child c Hwf _ _ En) as (parent & Ep & Hc); [lia|]. rewrite Hhd in Ep. rewrite Ep. cbn [ok_or rbind].
    pose proof (child_height _ _ _ Hc) as Hch. pose proof (wf_height c Hwf _ _ Ep).
    rewrite (ancestor_hash_eq c Hwf _ parent) by (try done; pose proof (skip_height_range h); lia).
    rewrite insert_same, sequence_same; [apply IH; [done|lia]|done|]. rewrite En. f_equal. destruct node as [nh nht nw ns]. cbn in *. subst nh nht.
    pose proof (child_work _ _ _ Hc) as Hw. pose proof (child_skip _ _ _ Hc) as Hs. cbn in Hw, Hs. by rewrite Hw, Hs.
Qed.

Lemma replay_run hashes n :
  mid_ok n -> small n -> linked (chain n) (active_chain (chain n) ++ hashes) -> (forall hash, hash ∈ hashes -> hash ∉ invalid_blocks (chain n)) ->
  match for_each (replay_block cf now cache) hashes n with
  | (n', Ok _) => run_result n n' hashes
  | (n', Err _) => exists connected, run_result n n' connected
  end.
Proof.
  revert n. induction hashes as [|hash hashes IH]; intros n Hn Hsmall Hl Hv.
  { cbn. rewrite <- (touch_id n) at 2. by apply run_touch. }
  assert (Hid : exists l, run_result n n l) by (exists []; rewrite <- (touch_id n) at 2; by apply run_touch).
  cbn [for_each]. unfold bind, replay_block at 1. destruct (bodies n !! hash) as [b|] eqn:Eb; [|done].
  destruct Hn as [Hcore Hlive Hm]. destruct (co_bodies _ _ _ _ _ Hcore _ _ Eb) as (<- & Hg & Hi).
  assert (Hne : active_chain (chain n) <> []).
  { intros H. pose proof (genesis_first cf net _ (co_chain _ _ _ _ _ Hcore)) as Hgf. by rewrite H in Hgf. }
  destruct (stored_side_checks n b _ hashes Hcore Eb (Hv _ ltac:(left)) Hl Hne) as (parent & _ & _ & _ & _ & Hmax & _).
  pose proof (connect_impl_spec cf net body_of now cache n b false true (utxos n) Hcore Hlive) as Hspec.
  specialize (Hspec ltac:(done) ltac:(done) ltac:(done) Hg (Hv _ ltac:(left)) Hmax Hsmall). unfold connect_block_internal.
  destruct (connect_block_internal_impl cf now cache b false true n) as [n1 [[]|e]].
  2: { destruct Hspec as [bh ->]. exists []. by apply run_touch. }
  destruct Hspec as [u' Hres]. destruct (run_connect n n1 b u' Hres) as (Hr1 & _ & _); [done|done|].
  assert (Hs1 : small n1) by (unfold small; by rewrite (rr_index _ _ _ Hr1)).
  specialize (IH n1 (rr_mid _ _ _ Hr1) Hs1). destruct (for_each (replay_block cf now cache) hashes n1) as [n2 [[]|e]].
  - apply (run_trans n n1 n2 [block_hash b]); [done|]. apply IH.
    + rewrite (rr_active _ _ _ Hr1), <- app_assoc. by apply (linked_same (chain n)); [apply Hr1|].
    + intros hash Hin. rewrite (rr_invalid _ _ _ Hr1). apply Hv. by right.
  - destruct IH as [l Hl2].
    + rewrite (rr_active _ _ _ Hr1), <- app_assoc. by apply (linked_same (chain n)); [apply Hr1|].
    + intros hash Hin. rewrite (rr_invalid _ _ _ Hr1). apply Hv. by right.
    + exists ([block_hash b] ++ l). by apply (run_trans n n1 n2).
Qed.

(** The state before the first block of a replay. *)
Record replay_start (n n1 : Node) (path : list bytes) (k : nat) : Prop := {
  rs_mid : mid_ok n1;
  rs_active : active_chain (chain n1) = take k path;
  rs_kept : kept n n1;
  rs_store : utxo_store n1 = utxo_store n;
  rs_counts : active_tx_counts n1 = map (count_of (bodies n)) (take k path) \/
              (length (active_tx_counts n1) < length (take k path))%nat;
}.

Lemma load_snapshot_spec n path sn :
  load_snapshot n path = Some sn -> snapshot n = Some sn /\ sn_headers sn <> [] /\
  map header_hash (sn_headers sn) = take (length (sn_headers sn)) path.
Proof.
  unfold load_snapshot. intros (sn0 & Hsn & E)%bind_Some. case_bool_decide as Hne; [done|].
  destruct (_ || _) eqn:Eb in E; [done|]. injection E as ->. apply orb_false_iff in Eb as [[Hlen _]%orb_false_iff Hz].
  apply Nat.ltb_ge in Hlen. split; [done|]. split; [done|]. revert path Hz Hlen. generalize (sn_headers sn). clear.
  induction l as [|hd l IH]; intros [|hash path] Hz Hlen; cbn [length take map zip_with existsb] in *; [done|done|lia|].
  apply orb_false_iff in Hz as [Hh%negb_false_iff%bool_decide_eq_true Hz]. f_equal; [done|]. apply IH; [done|lia].
Qed.

Lemma start_from_snapshot n path sn :
  node_ok n -> active_chain (chain n) = [g] -> linked (chain n) path -> hd_error path = Some g -> load_snapshot n path = Some sn ->
  index_active_headers (sn_headers sn) 0 (chain (start_replay path (Some sn) n)) = Ok (chain (start_replay path (Some sn) n)) /\
  replay_start n (start_replay path (Some sn) n) path (length (sn_headers sn)).
Proof.
  intros Hn Hone Hl Hg Hs. pose proof (no_core _ _ _ _ _ Hn) as Hcore. destruct (load_snapshot_spec _ _ _ Hs) as (Hsn & Hne & Htake).
  destruct (co_snapshot _ _ _ _ _ Hcore _ Hsn) as [Hr Hu]. set (n1 := start_replay path (Some sn) n).
  assert (Hlk : linked (chain n) (map header_hash (sn_headers sn))) by (rewrite Htake; by apply linked_take).
  assert (Hg1 : hd_error (map header_hash (sn_headers sn)) = Some g).
  { rewrite Htake. destruct path; [done|]. by destruct (sn_headers sn). }
  assert (Hc1 : chain n1 = set_active (fun _ => map header_hash (sn_headers sn)) (fun _ => sn_headers sn) (chain n)) by (by rewrite Htake).
  assert (Hstep : core_step n n1) by (by apply (set_active_core n (sn_headers sn))).
  split.
  - apply index_active_same; [apply Hstep| |lia]. intros i hd Hi. rewrite Hc1. cbn [set_active block_index].
    destruct (Hlk i (header_hash hd)) as (node & En & Hh & _).
    { change (map header_hash (sn_headers sn)) with (header_hash <$> sn_headers sn). by rewrite list_lookup_fmap, Hi. }
    exists node. split; [done|lia].
  - split; [|done|done|done|].
    + split; [by apply (core_step_ok cf net body_of now n)| |done]. split; rewrite Hc1; cbn [set_active active_chain].
      * rewrite <- Hc1. apply (replays_ext cf net (chain n) _ (bodies n)); [apply Hcore|by apply (core_step_ext cf net body_of now n)|done|done].
      * exact Hu.
    + destruct (no_counts _ _ _ _ _ Hn) as [Hk _]. cbn [n1 start_replay active_tx_counts]. rewrite Hk, Hone, <- Htake. cbn [map length].
      rewrite length_map. destruct (sn_headers sn) as [|hd [|hd2 hds]] eqn:Eh; [done| |right; cbn; lia]. left.
      cbn [length Nat.leb firstn map]. cbn in Hg1. injection Hg1 as Hg1. by rewrite Hg1.
Qed.

Lemma start_from_genesis n path :
  node_ok n -> active_chain (chain n) = [g] -> hd_error path = Some g ->
  exists n1, initialize_genesis_block cf (cf_genesis cf) (start_replay path None n) = (n1, Ok ()) /\ replay_start n n1 path 1.
Proof.
  intros Hn Hone Hg. pose proof (no_core _ _ _ _ _ Hn) as Hcore. pose proof (co_chain _ _ _ _ _ Hcore) as Hok.
  unfold initialize_genesis_block. rewrite bool_decide_true by done. eexists. split; [reflexivity|]. set (n1 := Build_Node _ _ _ _ _ _ _ _ _ _ _ _ _ _).
  assert (Htake : take 1 path = [g]) by (destruct path; [done|]; by injection Hg as ->).
  assert (Hgh : map header_hash [blk_header (cf_genesis cf)] = [g]) by (cbn [map]; unfold network_genesis_hash; by rewrite law_block_hash).
  assert (Hc1 : chain n1 = set_active (fun _ => map header_hash [blk_header (cf_genesis cf)]) (fun _ => [blk_header (cf_genesis cf)]) (chain n)).
  { cbn [n1 chain start_replay]. rewrite Hgh. unfold initialize_genesis. rewrite insert_same, sequence_same; [done| |].
    - apply (ck_sequence _ _ _ Hok). exists (genesis_node cf). apply Hok.
    - apply (ck_genesis _ _ _ Hok). }
  assert (Hlk : linked (chain n) [g]) by (rewrite <- Hone; by apply (active_linked cf net)).
  assert (Hstep : core_step n n1).
  { apply (set_active_core n [blk_header (cf_genesis cf)]); try done; [by rewrite Hgh|by rewrite Hgh|..]; cbn [n1 undos start_replay].
    - intros hash Hne. fold g. destruct (undos n !! g); [done|]. by rewrite lookup_insert_ne.
    - intros [x Hx]. fold g. rewrite Hx. by eexists. }
  split; [|by rewrite Hc1, Htake|split; [by rewrite Hc1|by rewrite Hc1|done|apply Hstep]|done|].
  - split; [by apply (core_step_ok cf net body_of now n)| |done]. split; rewrite Hc1; cbn [set_active active_chain]; rewrite Hgh; [constructor|].
    by intros hash ->%list_elem_of_singleton.
  - left. rewrite Htake. cbn [map]. unfold count_of. by rewrite (co_genesis _ _ _ _ _ Hcore).
Qed.

Lemma replays_stored n l u : core_ok n -> replays (chain n) (bodies n) l u -> forall hash, hash ∈ l -> is_Some (bodies n !! hash).
Proof.
  intros Hn. induction 1 as [|l u b mtp ess u' Hr IH Hl Hc]; intros hash.
  - intros ->%list_elem_of_singleton. exists (cf_genesis cf). apply Hn.
  - intros [Hin|Hin%list_elem_of_singleton]%elem_of_app; [by apply IH|]. subst hash. exists b. apply Hc.
Qed.

Lemma get_all_total n hashes :
  (forall hash, hash ∈ hashes -> is_Some (bodies n !! hash)) ->
  exists blocks, get_all n hashes = Ok blocks /\ map (fun b => zlen (txdata b)) blocks = map (count_of (bodies n)) hashes.
Proof.
  induction hashes as [|hash hashes IH]; intros Hin; [by exists []|]. destruct (Hin hash) as [b Hb]; [left|].
  destruct IH as (blocks & Hbs & Hcs); [intros; apply Hin; by right|]. exists (b :: blocks). cbn [get_all map]. rewrite Hb, Hbs. cbn [ok_or rbind].
  split; [done|]. unfold count_of at 1. by rewrite Hb, Hcs.
Qed.

(** The counts are right after the repair. *)
Lemma repair_spec n :
  mid_ok n ->
  active_tx_counts n = map (count_of (bodies n)) (active_chain (chain n)) \/ (length (active_tx_counts n) < length (active_chain (chain n)))%nat ->
  repair_active_tx_count_vectors n =
    (set_counts (map (count_of (bodies n)) (active_chain (chain n)))
       (cumulative_tx_counts (map (count_of (bodies n)) (active_chain (chain n)))) n, Ok ()).
Proof.
  intros Hn Hc. unfold repair_active_tx_count_vectors. case_bool_decide as Hl; [destruct Hc as [->|]; [done|lia]|].
  destruct (get_all_total n (active_chain (chain n))) as (blocks & -> & ->); [|done].
  apply (replays_stored n _ (utxos n)); apply Hn.
Qed.

(** The checkpoint that ends a replay. *)
Lemma persist_ok n u :
  mid_ok n -> utxos n = u -> Z.of_nat (size u) <= umax 64 -> counts_ok n -> node_ok (persist_snapshot n).
Proof.
  intros [Hcore Hlive Hm] Hu Hfit Hk. unfold persist_snapshot, sync_utxo_store. rewrite Hm. rewrite Hu in Hlive.
  assert (Hstep : core_step n (persist_snapshot n)).
  { unfold persist_snapshot, sync_utxo_store. rewrite Hm. split; cbn; try done; try apply Hcore.
    - intros hash b H1 H2. congruence.
    - intros hash x Hx _. by left.
    - intros sn Hsn. apply Some_inj in Hsn as <-. right. unfold snapshot_ok. cbn. rewrite Hm, (headers_hashes cf net), Hu by apply Hcore.
      split; apply Hlive.
    - intros p l b H1 H2. left. by exists p, l.
    - intros. by left. }
  pose proof (core_step_ok cf net body_of now n _ Hcore Hstep) as Hcore'. unfold persist_snapshot, sync_utxo_store in Hcore'. rewrite Hm in Hcore'.
  split; cbn; try done.
  - rewrite Hu. by apply (live_same n).
  - rewrite Hu, Z.min_l; [done|lia].
Qed.

(** A failed replay puts the active chain back. *)
Lemma restore_ok n n' :
  node_ok n -> core_ok n' -> kept n n' -> utxo_store n' = utxo_store n -> node_ok (restore_active n n').
Proof.
  intros [Hcore Hlive Hcount Hres Hk] Hcore' [K1 K2 K3 K4] Hst. pose proof (co_chain _ _ _ _ _ Hcore) as Hok.
  assert (Hh : map header_hash (headers (chain n)) = active_chain (chain n)) by (by apply (headers_hashes cf net)).
  assert (Hstep : core_step n' (restore_active n n')).
  { apply (set_active_core n' (headers (chain n))); try done; rewrite Hh.
    - apply (linked_same (chain n)); [done|]. by apply (active_linked cf net).
    - pose proof (genesis_first cf net _ Hok). by destruct (active_chain (chain n)).
    - done. }
  split; cbn [restore_active utxo_store utxos utxos_materialized]; rewrite ?Hst; try done.
  - by apply (core_step_ok cf net body_of now n').
  - split; cbn [restore_active chain bodies set_active active_chain undos].
    + apply (replays_ext cf net (chain n) _ (bodies n)); [done| |by rewrite K3|apply Hlive].
      split; [apply Hok|apply (cs_chain _ _ _ _ _ _ Hstep)|by cbn; rewrite K1|].
      change (ChainIndex.network (chain (restore_active n n')) = ChainIndex.network (chain n)).
      by rewrite (ck_network _ _ _ (cs_chain _ _ _ _ _ _ Hstep)), (ck_network _ _ _ Hok).
    + intros hash Hin Hne. by apply K4, Hlive.
  - unfold counts_ok. cbn. by rewrite K3.
Qed.

Lemma kept_run n n1 n2 l : kept n n1 -> run_result n1 n2 l -> kept n n2.
Proof. intros [K1 K2 K3 K4] Hr. split; [by rewrite (rr_index _ _ _ Hr)|by rewrite (rr_invalid _ _ _ Hr)|by rewrite (rr_bodies _ _ _ Hr)|].
  intros hash H. by apply (rr_undos _ _ _ Hr), K4.
Qed.

(** The rest of the replay. *)
Lemma replay_rest n n1 path k :
  node_ok n -> small n -> replay_start n n1 path k -> linked (chain n) path -> (forall hash, hash ∈ path -> hash ∉ invalid_blocks (chain n)) ->
  match bind (for_each (replay_block cf now cache) (drop k path)) (fun _ =>
          bind repair_active_tx_count_vectors (fun _ => modify persist_snapshot)) n1 with
  | (n', Ok _) => node_ok n' /\ active_chain (chain n') = path /\ kept n n'
  | (n', Err _) => core_ok n' /\ kept n n' /\ utxo_store n' = utxo_store n
  end.
Proof.
  intros Hn Hsmall [Hmid Hact Hkept Hst Hcnt] Hl Hv. unfold bind at 1.
  assert (Hs1 : small n1) by (unfold small; by rewrite (kp_index _ _ Hkept)).
  pose proof (replay_run (drop k path) n1 Hmid Hs1) as Hrun. destruct (for_each (replay_block cf now cache) (drop k path) n1) as [n2 [[]|e]].
  2: { destruct Hrun as [l Hr].
       - rewrite Hact, take_drop. apply (linked_same (chain n)); [apply Hkept|done].
       - intros hash Hin. rewrite (kp_invalid _ _ Hkept). apply Hv. rewrite <- (take_drop k path). apply elem_of_app. by right.
       - split; [apply (rr_mid _ _ _ Hr)|]. split; [by apply (kept_run n n1 n2 l)|]. by rewrite (rr_store _ _ _ Hr). }
  assert (Hr : run_result n1 n2 (drop k path)).
  { apply Hrun.
    - rewrite Hact, take_drop. apply (linked_same (chain n)); [apply Hkept|done].
    - intros hash Hin. rewrite (kp_invalid _ _ Hkept). apply Hv. rewrite <- (take_drop k path). apply elem_of_app. by right. }
  pose proof (rr_active _ _ _ Hr) as Ha. rewrite Hact, take_drop in Ha. pose proof (kept_run n n1 n2 _ Hkept Hr) as Hkept2.
  pose proof (rr_mid _ _ _ Hr) as Hmid2. unfold bind. rewrite repair_spec; [|done|].
  2: { rewrite (rr_counts _ _ _ Hr), (kp_bodies _ _ Hkept), (kp_bodies _ _ Hkept2), Ha. destruct Hcnt as [->|Hlt].
       - left. by rewrite <- map_app, take_drop.
       - right. rewrite length_app, length_map. rewrite <- (take_drop k path) at 2. rewrite length_app. lia. }
  set (n3 := set_counts _ _ n2). unfold modify.
  assert (Hmid3 : mid_ok n3) by (destruct Hmid2 as [M1 M2 M3]; split; [by apply (core_same n2)|by apply (live_same n2)|done]).
  assert (Hps : chain (persist_snapshot n3) = chain n2 /\ bodies (persist_snapshot n3) = bodies n2 /\ undos (persist_snapshot n3) = undos n2).
  { unfold persist_snapshot, sync_utxo_store. by destruct (utxos_materialized n3). }
  destruct Hps as (P1 & P2 & P3). split; [|split; [by rewrite P1|split; rewrite ?P1, ?P2, ?P3; apply Hkept2]].
  apply (persist_ok n3 (utxos n2)); [done|done| |done].
  assert (Hs2 : small n2) by (unfold small; by rewrite (kp_index _ _ Hkept2)).
  pose proof (replays_small cf net body_of now n2 _ _ (mi_core _ _ _ _ _ Hmid2) Hs2 (lv_replays _ _ _ _ (mi_live _ _ _ _ _ Hmid2))) as Hs.
  change (umax 64) with 18446744073709551615. change (umax 32 * umax 31) with 9223372030412324865 in Hs. lia.
Qed.

Lemma full_spec n path :
  node_ok n -> small n -> active_chain (chain n) = [g] -> linked (chain n) path -> hd_error path = Some g ->
  (forall hash, hash ∈ path -> hash ∉ invalid_blocks (chain n)) ->
  match full_replay cf now cache path n with
  | (n', Ok _) => node_ok n' /\ active_chain (chain n') = path /\ kept n n'
  | (n', Err _) => node_ok n' /\ active_chain (chain n') = active_chain (chain n) /\ kept n n' /\ utxo_store n' = utxo_store n
  end.
Proof.
  intros Hn Hsmall Hone Hl Hg Hv. unfold full_replay. destruct (negb _); [done|].
  assert (Hrep : match replay cf now cache path (load_snapshot n path) n with
    | (n', Ok _) => node_ok n' /\ active_chain (chain n') = path /\ kept n n'
    | (n', Err _) => core_ok n' /\ kept n n' /\ utxo_store n' = utxo_store n
    end).
  { unfold replay. unfold bind at 1, modify at 1. destruct (load_snapshot n path) as [sn|] eqn:Es.
    - destruct (start_from_snapshot n path sn Hn Hone Hl Hg Es) as [Hi Hs]. rewrite !bind_assoc. unfold bind at 1. rewrite Hi.
      change (set_chain (chain (start_replay path (Some sn) n)) (start_replay path (Some sn) n)) with (start_replay path (Some sn) n).
      by apply replay_rest.
    - destruct (start_from_genesis n path Hn Hone Hg) as (n1 & Hi & Hs). rewrite !bind_assoc. unfold bind at 1.
      cbn [start_replay bodies]. destruct path as [|p path]; [done|]. injection Hg as ->. cbn [hd].
      rewrite (co_genesis _ _ _ _ _ (no_core _ _ _ _ _ Hn)). rewrite Hi. by apply (replay_rest n n1 (g :: path) 1). }
  destruct (replay cf now cache path (load_snapshot n path) n) as [n' [[]|e]].
  - destruct Hrep as (Hn' & Ha & Hk). destruct (update_ibd_fields (release_materialized_utxos n')) as (F1 & F2 & F3 & F4).
    split; [by apply update_ibd_ok, release_ok|]. split; [by rewrite F1|]. split; rewrite ?F1, ?F2, ?F3; apply Hk.
  - destruct Hrep as (Hc & Hk & Hs). split; [by apply restore_ok|]. split; [done|]. split; [|done]. split; apply Hk.
Qed.

(** ** The operation *)

Lemma materialize_fields n :
  chain (materialize_utxos n) = chain n /\ bodies (materialize_utxos n) = bodies n /\ undos (materialize_utxos n) = undos n /\
  utxo_store (materialize_utxos n) = utxo_store n /\ utxos_materialized (materialize_utxos n) = true.
Proof. unfold materialize_utxos. destruct (utxos_materialized n) eqn:E; done. Qed.

Lemma common_height_found path active h k : common_height path active h (Some k) <> None.
Proof.
  revert active h k. induction path as [|p path IH]; intros active h k; [done|]. destruct active; [done|]. cbn [common_height].
  case_bool_decide; apply IH.
Qed.

(** The end is the requested tip, or the chain and the durable set of before. *)
Lemma activate_spec n tip :
  node_ok n -> small n ->
  match activate_chain cf now cache tip n with
  | (n', Ok _) => node_ok n' /\ list.last (active_chain (chain n')) = Some tip /\ kept n n'
  | (n', Err _) => node_ok n' /\ active_chain (chain n') = active_chain (chain n) /\ kept n n' /\ utxo_store n' = utxo_store n
  end.
Proof.
  intros Hn Hsmall. unfold activate_chain. destruct (has_invalid_ancestor (chain n) tip) eqn:Einv; [done|].
  destruct (materialize_fields n) as (M1 & M2 & M3 & M4 & M5). pose proof (materialize_ok n Hn) as Hm.
  unfold bind at 1, modify at 1. set (m := materialize_utxos n) in *.
  assert (Hkm : kept n m) by (split; by rewrite ?M1, ?M2, ?M3).
  unfold bind at 1. rewrite M1. destruct (candidate_path cf (chain n) tip) as [path|] eqn:Ep; cbn [ok_or].
  2: { by rewrite M1, M4. }
  pose proof (co_chain _ _ _ _ _ (no_core _ _ _ _ _ Hn)) as Hok.
  destruct (candidate_path_spec cf net _ _ _ Hok Ep) as (Hl & Hlast & Hg).
  pose proof (linked_valid cf net _ _ _ Hok Hl Hlast Einv) as Hv. pose proof (genesis_first cf net _ Hok) as Hgf.
  assert (Hsm : small m) by (unfold small; by rewrite M1).
  rewrite <- M1 in Hl, Hv, Hgf. unfold bind at 1.
  destruct (common_height path (active_chain (chain m)) 0 None) as [k|] eqn:Ek.
  2: { destruct path as [|p path]; [done|]. destruct (active_chain (chain m)) as [|a active]; [done|].
       cbn in Hg, Hgf. injection Hg as ->. injection Hgf as ->. cbn [common_height] in Ek. rewrite bool_decide_true in Ek by done.
       by destruct (common_height_found _ _ _ _ Ek). }
  destruct (Nat.ltb_spec 1 (length (active_chain (chain m)))) as [Hlen|Hlen].
  - apply common_height_spec in Ek as [?|(i & hash & -> & H1 & H2)]; [done|]. cbn [Nat.add].
    pose proof (suffix_spec m path i hash Hm M5 Hsm Hl Hv H1 H2) as Hs.
    destruct (activate_chain_from_pruned_suffix cf now cache path i m) as [n' [activated|e]].
    + destruct Hs as (-> & Hn' & Ha & [K1 K2 K3 K4]). unfold ret. split; [done|]. split; [by rewrite Ha|].
      split; [by rewrite K1, M1|by rewrite K2, M1|by rewrite K3, M2|]. intros hash0 H. apply K4. by rewrite M3.
    + destruct Hs as [bh ->]. split; [by apply node_touch|]. cbn [touch set_chain chain set_best_header active_chain utxo_store].
      rewrite M1, M4. split; [done|]. split; [|done]. destruct Hkm. by split.
  - assert (Hone : active_chain (chain m) = [g]).
    { destruct (active_chain (chain m)) as [|a [|b l]]; [done| |simpl in Hlen; lia]. by injection Hgf as ->. }
    pose proof (full_spec m path Hm Hsm Hone Hl Hg Hv) as Hf. destruct (full_replay cf now cache path m) as [n' [[]|e]].
    + destruct Hf as (Hn' & Ha & [K1 K2 K3 K4]). split; [done|]. split; [by rewrite Ha|].
      split; [by rewrite K1, M1|by rewrite K2, M1|by rewrite K3, M2|]. intros hash0 H. apply K4. by rewrite M3.
    + destruct Hf as (Hn' & Ha & [K1 K2 K3 K4] & Hst). split; [done|]. split; [by rewrite Ha, M1|]. split; [|by rewrite Hst].
      split; [by rewrite K1, M1|by rewrite K2, M1|by rewrite K3, M2|]. intros hash0 H. apply K4. by rewrite M3.
Qed.
End Activate.
