(* ===== verification/ChainIntake.v ===== *)
(** * Bodies, headers and operator commands

    Every operation of the chain manager keeps the invariant of a running
    node, from whatever order bodies and headers arrive in. *)

From Stdlib Require Import ZArith Lia.
From stdpp Require Import base list option gmap sets sorting strings.
From S2P Require Import Prelude Types VersionBits ChainIndex BlockChecks UtxoCodec ConnectBlock Ledger HeaderChecks ChainManager ChainReplay ChainInvariant ChainConnect ChainActivate.
Local Open Scope Z_scope.
Local Set Warnings "-clear-no-such-hyp".

(** ** The index only grows *)

Create HintDb growing.
Create HintDb keeping.

Section Growth.
Context {Ops : BitcoinOps} {HOps : HeaderOps} {SOps : ScriptOps} {POps : PowOps} (cf : Config) (now : Z) (cache : gset bytes).

Definition wider (c c' : ChainState) : Prop := dom (block_index c) ⊆ dom (block_index c').
Definition grows (n n' : Node) : Prop := wider (chain n) (chain n').
Definition growing {A} (m : M A) : Prop := forall n, grows n (m n).1.

#[global] Instance grows_preorder : PreOrder grows.
Proof. split; [intros n; unfold grows, wider; set_solver|]. intros n1 n2 n3 H1 H2. unfold grows, wider in *. set_solver. Qed.

Lemma wider_eq c c' : block_index c' = block_index c -> wider c c'.
Proof. unfold wider. by intros ->. Qed.

Lemma grows_chain n n' : chain n' = chain n -> grows n n'.
Proof. unfold grows. intros ->. by apply wider_eq. Qed.

Lemma wider_insert c hash node : wider c (set_block_index <[hash := node]> c).
Proof. unfold wider. cbn [set_block_index block_index]. rewrite dom_insert_L. set_solver. Qed.

Lemma wider_header_sequence c c' hash : wider c c' -> wider c (assign_header_sequence_id c' hash).
Proof. unfold wider. by rewrite (proj1 (assign_header_sequence_same c' hash)). Qed.

Lemma wider_block_sequence c c' hash : wider c c' -> wider c (assign_block_sequence_id c' hash).
Proof. unfold wider. by rewrite (proj1 (assign_block_sequence_same c' hash)). Qed.

Lemma wider_index_header c hash hd c' : index_header c hash hd = Some c' -> wider c c'.
Proof.
  unfold index_header. intros (parent & Ep & E)%bind_Some. apply bind_Some in E as (node & En & E). injection E as <-.
  apply wider_header_sequence, wider_insert.
Qed.

Lemma wider_connect_tip c hash hd c' : connect_tip c hash hd = Some c' -> wider c c'.
Proof.
  unfold connect_tip. intros (node & En & [= <-])%bind_Some. apply wider_block_sequence, wider_header_sequence.
  apply (wider_insert (set_active (fun l => l ++ [hash]) (fun l => l ++ [hd]) c)).
Qed.

Lemma growing_ret {A} (x : A) : growing (ret x).
Proof. by intros n. Qed.
Lemma growing_lift {A} (r : result ConnectError A) : growing (lift r).
Proof. by intros n. Qed.
Lemma growing_read {A} (f : Node -> result ConnectError A) : growing (fun n => (n, f n)).
Proof. by intros n. Qed.
Lemma growing_modify f : (forall n, grows n (f n)) -> growing (modify f).
Proof. intros H n. apply H. Qed.
Lemma growing_bind {A B} (m : M A) (k : A -> M B) : growing m -> (forall x, growing (k x)) -> growing (bind m k).
Proof.
  intros Hm Hk n. unfold bind. specialize (Hm n). destruct (m n) as [n1 [x|e]]; [|done]. cbn [fst] in Hm.
  transitivity n1; [done|apply Hk].
Qed.
Lemma growing_ignore {A} (m : M A) : growing m -> growing (ignore m).
Proof. intros H n. apply H. Qed.
Lemma growing_for_each {A} (f : A -> M ()) l : (forall x, growing (f x)) -> growing (for_each f l).
Proof. intros H. induction l as [|x l IH]; [apply growing_ret|]. cbn [for_each]. by apply growing_bind. Qed.
Lemma growing_fold {A S} (f : A -> S -> M S) l s : (forall x s, growing (f x s)) -> growing (fold_m f l s).
Proof. intros H. revert s. induction l as [|x l IH]; intros s; [apply growing_ret|]. cbn [fold_m]. by apply growing_bind. Qed.
(** An operation chosen from the state it runs in. *)
Lemma growing_state {A} (m : Node -> M A) : (forall n0, growing (m n0)) -> growing (fun n => m n n).
Proof. intros H n. apply H. Qed.

Lemma check_transactions_wider c b h u mtp retain : wider c (check_transactions cf cache c b h u mtp retain).1.
Proof.
  destruct (check_transactions cf cache c b h u mtp retain) as [c' r] eqn:E.
  destruct (check_transactions_view cf cache _ _ _ _ _ _ _ _ E) as [_ [bh ->]]. by apply wider_eq.
Qed.

Lemma growing_connect_impl block persist sync : growing (connect_block_internal_impl cf now cache block persist sync).
Proof.
  intros n. unfold connect_block_internal_impl. destruct (connect_checks cf now (chain n) block) as [[h mtp]|e]; [|done]. cbn zeta.
  match goal with |- context [check_transactions cf cache ?c ?b ?h ?u ?m ?r] =>
    pose proof (check_transactions_wider c b h u m r) as Hg; destruct (check_transactions cf cache c b h u m r) as [c' [a|e]] end; [|exact Hg].
  cbn [fst] in Hg. transitivity (set_chain c' n); [exact Hg|]. apply growing_bind.
  - destruct (negb _); [apply growing_bind; [apply growing_lift|intros undo]|]; apply growing_modify; intros n0; apply wider_eq;
      unfold store_records; cbn [chain]; by destruct (_ && _).
  - intros _. apply growing_bind.
    + unfold store_coins. apply growing_bind; [by intros n0; apply grows_chain|]. intros _. destruct persist; [|apply growing_ret].
      intros n0. destruct (is_bip30_repeat _ _ _); [by apply grows_chain|]. destruct (apply_validated_batch _ _ _); by apply grows_chain.
    + intros _. apply growing_bind.
      * intros n0. destruct (connect_tip _ _ _) as [c2|] eqn:E; [|done]. by apply wider_connect_tip in E.
      * intros _. apply growing_modify. intros n0. destruct (_ && _); [|done]. apply grows_chain.
        unfold persist_snapshot, sync_utxo_store. by destruct (utxos_materialized n0).
Qed.

Lemma update_ibd_grows n : grows n (update_ibd_status cf now n).
Proof. apply grows_chain. apply (update_ibd_fields cf now n). Qed.

Lemma dry_run_wider blocks c h u : wider c (dry_run cf cache c blocks h u).1.
Proof.
  destruct (dry_run cf cache c blocks h u) as [c' r] eqn:E. destruct (dry_run_view cf cache _ _ _ _ _ _ E) as [_ [bh ->]]. by apply wider_eq.
Qed.

Lemma growing_suffix path common : growing (activate_chain_from_pruned_suffix cf now cache path common).
Proof.
  intros n. unfold activate_chain_from_pruned_suffix. destruct (_ || _); [done|]. destruct (gather_disconnected n _) as [d|]; [|done].
  apply growing_bind; [apply growing_lift|]. intros blocks. apply growing_bind; [apply growing_lift|]. intros u0. apply growing_bind.
  - intros n0. pose proof (dry_run_wider blocks (chain n0) (sat_add 32 (Z.of_nat common) 1) u0) as Hg.
    destruct (dry_run _ _ _ _ _ _) as [c r]. exact Hg.
  - intros u'. apply growing_bind; [by intros n0; apply wider_eq|]. intros _.
    apply growing_bind; [apply growing_for_each; intros b; apply growing_connect_impl|]. intros _.
    apply growing_bind; [by intros n0; apply grows_chain|]. intros _. apply growing_bind; [by intros n0; apply grows_chain|]. intros _.
    apply growing_bind; [intros n0; apply update_ibd_grows|]. intros _. apply growing_ret.
Qed.

Lemma index_active_wider hds h c c' : index_active_headers hds h c = Ok c' -> wider c c'.
Proof.
  revert h c. induction hds as [|hd hds IH]; intros h c; cbn [index_active_headers]; [intros [= <-]; by apply wider_eq|].
  intros (pw & _ & E)%rbind_Ok. apply IH in E.
  assert (H : wider c (assign_header_sequence_id (set_block_index <[header_hash hd := {| ChainIndex.header := hd; ChainIndex.height := h;
    chain_work := pw + work hd; ChainIndex.skip := if h =? 0 then None else ancestor_hash c (prev_blockhash hd) (block_index_skip_height h) |}]> c) (header_hash hd)))
    by apply wider_header_sequence, wider_insert.
  unfold wider in *. set_solver.
Qed.

Lemma growing_replay path from : growing (replay cf now cache path from).
Proof.
  assert (Hb : forall hash, growing (replay_block cf now cache hash)).
  { intros hash n. unfold replay_block. destruct (bodies n !! hash); [apply growing_connect_impl|done]. }
  unfold replay. apply growing_bind; [intros n; by apply wider_eq|]. intros _. apply growing_bind.
  - destruct from as [sn|].
    + apply growing_bind; [|intros _; by apply growing_for_each]. intros n. destruct (index_active_headers _ _ _) as [c'|] eqn:E; [|done].
      by apply index_active_wider in E.
    + apply growing_bind; [|intros _; by apply growing_for_each]. intros n. destruct (bodies n !! _) as [genesis|]; [|done].
      unfold initialize_genesis_block. destruct (negb _); [done|]. cbn [fst]. unfold grows. cbn [chain]. unfold initialize_genesis.
      apply wider_header_sequence. apply (wider_insert (set_active _ _ (chain n))).
  - intros _. apply growing_bind.
    + intros n. unfold repair_active_tx_count_vectors. destruct (bool_decide _); [by apply grows_chain|]. destruct (get_all _ _); by apply grows_chain.
    + intros _. apply growing_modify. intros n. apply grows_chain. unfold persist_snapshot, sync_utxo_store. by destruct (utxos_materialized n).
Qed.

Lemma growing_activate tip : growing (activate_chain cf now cache tip).
Proof.
  intros n. unfold activate_chain. destruct (has_invalid_ancestor _ _); [done|]. apply growing_bind.
  { intros n0. apply grows_chain. unfold modify, materialize_utxos. cbn. by destruct (utxos_materialized n0). }
  intros _. apply growing_bind; [apply growing_read|]. intros path. apply growing_bind.
  - intros n0. destruct (common_height _ _ _ _) as [k|]; [|done]. destruct (_ <? _)%nat; [apply growing_suffix|done].
  - intros [|]; [apply growing_ret|]. intros n0. unfold full_replay. destruct (negb _); [done|].
    pose proof (growing_replay path (load_snapshot n0 path) n0) as Hg. destruct (replay _ _ _ _ _ _) as [n1 [[]|e]]; cbn [fst] in *.
    + transitivity n1; [done|]. transitivity (release_materialized_utxos n1); [by apply grows_chain|apply update_ibd_grows].
    + exact Hg.
Qed.

(** ** Growth of the intake *)

Lemma insert_body_grows b n : grows n (insert_body b n).
Proof. unfold insert_body. case_bool_decide; [done|]. by apply wider_eq. Qed.
Lemma insert_side_grows b n : grows n (insert_side_chain_body b n).
Proof. apply insert_body_grows. Qed.
Lemma record_unlinked_grows hash n : grows n (record_unlinked_body hash n).
Proof. unfold record_unlinked_body. case_bool_decide; [done|]. by apply grows_chain. Qed.
Lemma sequence_grows hash n : grows n (sequence_block hash n).
Proof. unfold sequence_block. case_bool_decide; [done|]. apply wider_block_sequence. by apply wider_eq. Qed.
Lemma note_ready_grows hash n : grows n (note_peer_body_chain_ready hash n).
Proof. unfold note_peer_body_chain_ready. destruct (_ && _); [done|]. by apply grows_chain. Qed.
Lemma mark_grows hash n : grows n (mark_block_invalid hash n).
Proof. unfold mark_block_invalid. destruct (_ && _); [|done]. by apply wider_eq. Qed.
Lemma side_grows u n : grows n (set_side_chain u n).
Proof. by apply grows_chain. Qed.
Lemma growing_index b : growing (index_body b).
Proof. intros n. unfold index_body. destruct (index_header _ _ _) eqn:E; [|done]. by apply wider_index_header in E. Qed.
Lemma growing_activate_if (P : Node -> bool) hash : growing (fun n => if P n then activate_chain cf now cache hash n else (n, Ok ())).
Proof. intros n. destruct (P n); [apply growing_activate|done]. Qed.

Lemma growing_utxos_for_block hash : growing (utxos_for_block cf now cache hash).
Proof.
  intros n. unfold utxos_for_block. destruct (bool_decide _); [done|]. destruct (replay_active_utxos_backwards n hash) as [[u|]|]; try done.
  destruct (candidate_path _ _ _) as [path|]; [|done]. destruct (bodies n !! _) as [genesis|]; [|done]. clear genesis.
  generalize (∅ : coin_set). revert n. induction (tail path) as [|x l IH]; intros n u; cbn [forwards_loop]; [done|].
  destruct (bodies n !! x) as [b|]; [|done]. destruct (rbind _ _) as [[h mtp]|]; [|done].
  pose proof (check_transactions_wider (chain n) b h u mtp true) as Hg. destruct (check_transactions _ _ _ _ _ _ _ _) as [c [a|e]]; [|exact Hg].
  transitivity (set_chain c n); [exact Hg|]. apply IH.
Qed.

Lemma growing_parent_utxos hash : growing (take_parent_utxos cf now cache hash).
Proof.
  intros n. unfold take_parent_utxos. destruct (side_chain_utxos n) as [[x u]|]; [|apply growing_utxos_for_block].
  case_bool_decide; [by apply grows_chain|apply growing_utxos_for_block].
Qed.

Lemma growing_check_op b h u mtp : growing (check_transactions_op cf cache b h u mtp).
Proof.
  intros n. unfold check_transactions_op. pose proof (check_transactions_wider (chain n) b h u mtp true) as Hg.
  destruct (check_transactions _ _ _ _ _ _ _ _) as [c r]. exact Hg.
Qed.

Lemma growing_tip : growing get_tip.
Proof. apply growing_read. Qed.

#[local] Hint Resolve growing_tip growing_ret growing_lift growing_read growing_ignore growing_connect_impl growing_activate growing_index
  growing_modify insert_body_grows insert_side_grows record_unlinked_grows sequence_grows note_ready_grows mark_grows side_grows
  update_ibd_grows growing_parent_utxos growing_check_op growing_activate_if : growing.
Ltac growing := repeat (apply growing_bind; [|intros ?]); eauto 3 with growing.

Lemma growing_validate_side b parent : growing (validate_side cf now cache b parent).
Proof.
  intros n. unfold validate_side. destruct (median_time_past_for_parent _ _) as [mtp|]; [|done].
  destruct (_ && _); growing. destruct x as [u|]; growing.
Qed.
#[local] Hint Resolve growing_validate_side : growing.

Lemma growing_accept b allow retain sync : growing (accept_body cf now cache b allow retain sync).
Proof.
  intros n. unfold accept_body. destruct (has_invalid_ancestor _ _); [done|]. destruct (is_active_block _ _).
  { destruct (bool_decide _); [growing|]. unfold accept_active_again. destruct (block_index _ !! _) as [node|]; [|done].
    growing. }
  destruct (_ && _); [growing|]. destruct (block_index _ !! _) as [parent|].
  2: { growing. intros n0. unfold queue_orphan_block. destruct (existsb _ _); [done|]. destruct (_ <=? _); [done|]. by apply grows_chain. }
  destruct (has_invalid_ancestor _ _); [done|]. destruct (bool_decide _).
  { unfold accept_on_tip. pose proof (growing_connect_impl b true sync n) as Hg.
    destruct (connect_block_internal_impl _ _ _ _ _ _ _) as [n1 [x|e]]; [exact Hg|]. destruct (_ && _); [|exact Hg].
    cbn [fst] in *. transitivity n1; [done|]. transitivity (insert_body b n1); [apply insert_body_grows|apply sequence_grows]. }
  destruct (negb _); [unfold accept_unlinked; growing; destruct retain; growing|]. growing. destruct retain; growing.
  destruct x0; growing.
Qed.

Lemma growing_settle connect loop next :
  (forall b, growing (connect b)) -> (forall hash, growing (loop hash)) -> growing (settle cf now connect loop next).
Proof.
  intros Hc Hl. destruct next as [t|hash note children]; [apply growing_ret|]. unfold settle. apply growing_bind.
  { intros n. unfold connect_orphans. destruct (orphans _ !! _) as [waiting|]; [|done]. apply growing_bind; [by intros n0; apply grows_chain|].
    intros _. apply growing_for_each. intros child. by apply growing_ignore. }
  intros _. apply growing_bind; [destruct note; growing|]. intros _. apply growing_bind; [|intros _; growing].
  destruct children; [|growing]. intros n. unfold connect_known_children. destruct (processing_known_children _); [done|].
  specialize (Hl hash (on_intake (set_processing true) n)). destruct (loop hash _) as [n1 r]. exact Hl.
Qed.

Lemma growing_known_child connect sync propagate child q :
  (forall b, growing (connect b)) -> growing (known_child connect sync propagate child q).
Proof.
  intros Hc n. unfold known_child. destruct (bodies n !! child) as [b|]; [|done]. specialize (Hc b n).
  destruct (connect b n) as [n1 [t|e]]; cbn [fst] in *.
  - transitivity n1; [done|]. destruct sync; [done|apply note_ready_grows].
  - destruct (_ && _); [|done]. cbn [fst]. transitivity n1; [done|apply mark_grows].
Qed.

Lemma growing_known_parent connect loop sync propagate p parents queued :
  (forall b, growing (connect b)) -> (forall q, growing (loop q)) -> growing (known_parent connect loop sync propagate p parents queued).
Proof.
  intros Hc Hl n. unfold known_parent. destruct (pending_body_children _ !! _) as [children|]; [|apply Hl].
  apply growing_bind; [by intros n0; apply grows_chain|]. intros _. apply growing_bind; [|done]. apply growing_fold. intros. by apply growing_known_child.
Qed.

Lemma growing_driver fuel :
  (forall b allow retain sync, growing (connect_block_with_existing_body cf now cache fuel b allow retain sync)) /\
  (forall parents queued sync propagate, growing (known_children_loop cf now cache fuel parents queued sync propagate)).
Proof.
  induction fuel as [|fuel [IHc IHk]]; [split; intros; apply growing_lift|]. split.
  - intros b allow retain sync. rewrite connect_body_eq. apply growing_bind; [apply growing_accept|]. intros next. by apply growing_settle.
  - intros [|p parents] queued sync propagate; [apply growing_ret|]. rewrite known_children_eq. by apply growing_known_parent.
Qed.
End Growth.

Section Keeps.
Context {Ops : BitcoinOps} {HOps : HeaderOps} {SOps : ScriptOps} {POps : PowOps} (cf : Config) (net : Network)
        {laws : ChainLaws cf net} (body_of : bytes -> Block) (now : Z) (cache : gset bytes).
Abbreviation g := (network_genesis_hash cf).
Abbreviation chain_ok := (chain_ok cf net).
Abbreviation core_ok := (core_ok cf net body_of now).
Abbreviation core_step := (core_step cf net body_of now).
Abbreviation node_ok := (node_ok cf net body_of now).
Abbreviation genuine := (genuine cf body_of).
Abbreviation connect_result := (connect_result cf net body_of now).

(** ** Steps *)

Lemma small_before n n' : grows n n' -> small n' -> small n.
Proof. unfold grows, wider, small. intros H%subseteq_size Hs. rewrite !size_dom in H. lia. Qed.

Lemma tip_fits n : core_ok n -> small n -> Z.of_nat (length (active_chain (chain n))) <= umax 32.
Proof.
  intros Hn Hs. destruct (tip_indexed cf net _ (co_chain _ _ _ _ _ Hn)) as (node & _ & En & Hh).
  pose proof (height_lt_size cf net _ _ _ (co_chain _ _ _ _ _ Hn) En). unfold small in Hs. lia.
Qed.

Lemma parent_fits n hash node : core_ok n -> small n -> block_index (chain n) !! hash = Some node -> ChainIndex.height node < umax 32.
Proof. intros Hn Hs En. pose proof (height_lt_size cf net _ _ _ (co_chain _ _ _ _ _ Hn) En). unfold small in Hs. lia. Qed.

Lemma not_invalid c hash : has_invalid_ancestor c hash = false -> hash ∉ invalid_blocks c.
Proof.
  unfold has_invalid_ancestor. case_bool_decide as He; [rewrite He; set_solver|]. unfold walk_fuel.
  destruct (block_index c !! hash); cbn [invalid_loop]; (case_bool_decide; [done|]); done.
Qed.

Lemma counts_grow n n' u :
  core_ok n -> live cf net n u -> bodies n ⊆ bodies n' -> active_chain (chain n') = active_chain (chain n) ->
  active_tx_counts n' = active_tx_counts n -> active_tx_totals n' = active_tx_totals n -> counts_ok n -> counts_ok n'.
Proof.
  intros Hn Hl Hb Ha Hc Ht [H1 H2]. unfold counts_ok. rewrite Hc, Ht. split; [|done]. rewrite H1, Ha. apply map_ext_in.
  intros hash Hin%list_elem_of_In. unfold count_of.
  destruct (replays_stored cf net body_of now n _ _ Hn (lv_replays _ _ _ _ Hl) hash Hin) as [b Hb0].
  by rewrite Hb0, (lookup_weaken _ _ _ _ Hb0 Hb).
Qed.

(** A change of the index, the stores and the marks off the active chain. *)
Lemma node_step n n' :
  node_ok n -> core_step n n' -> active_chain (chain n') = active_chain (chain n) -> utxo_store n' = utxo_store n ->
  utxos n' = utxos n -> utxos_materialized n' = utxos_materialized n -> active_tx_counts n' = active_tx_counts n ->
  active_tx_totals n' = active_tx_totals n -> node_ok n'.
Proof.
  intros [H1 H2 H3 H4 H5] Hs Ha Hd Hu Hm Hc Ht. split; rewrite ?Hd, ?Hu, ?Hm; try done.
  - by apply (core_step_ok cf net body_of now n).
  - by apply (live_step cf net body_of now n).
  - apply (counts_grow n n' (db_coins (utxo_store n))); try done. apply Hs.
Qed.

Lemma connect_result_ok n n' b u' : node_ok n -> connect_result n n' b true u' -> node_ok n'.
Proof.
  intros Hn Hr. destruct (cr_store _ _ _ _ _ _ _ _ _ Hr) as [Hd Hc]. destruct (cr_counts _ _ _ _ _ _ _ _ _ Hr) as [Hk Ht].
  split; rewrite ?Hd, ?Hc; try done; try apply Hr.
  - rewrite (cr_materialized _ _ _ _ _ _ _ _ _ Hr). apply Hr.
  - destruct (no_counts _ _ _ _ _ Hn) as [H1 H2]. split.
    + rewrite Hk, (cr_active _ _ _ _ _ _ _ _ _ Hr), map_app, H1. f_equal.
      * apply map_ext_in. intros hash Hin%list_elem_of_In. unfold count_of.
        destruct (replays_stored cf net body_of now n _ _ (no_core _ _ _ _ _ Hn) (lv_replays _ _ _ _ (no_live _ _ _ _ _ Hn)) hash Hin) as [b0 Hb0].
        by rewrite Hb0, (lookup_weaken _ _ _ _ Hb0 (cs_bodies _ _ _ _ _ _ (cr_step _ _ _ _ _ _ _ _ _ Hr))).
      * cbn [map]. unfold count_of. by rewrite (cr_body _ _ _ _ _ _ _ _ _ Hr).
    + rewrite Hk, Ht. unfold cumulative_tx_counts in *. by rewrite cumulative_snoc, H2.
Qed.

(** A body enters the store. *)
Lemma body_step n n' b :
  node_ok n -> genuine b ->
  chain_ok (chain n') -> block_index (chain n) ⊆ block_index (chain n') -> is_Some (block_index (chain n') !! block_hash b) ->
  store (chain n') = {[block_hash b]} ∪ store (chain n) -> bodies n !! block_hash b = None -> bodies n' = <[block_hash b := b]> (bodies n) ->
  (forall hash, hash ∈ invalid_blocks (chain n') <-> hash ∈ invalid_blocks (chain n) \/ (hash = block_hash b /\ invalid_blocks (chain n') <> invalid_blocks (chain n))) ->
  (block_hash b ∉ invalid_blocks (chain n') -> body_ok cf now (chain n') b) ->
  is_Some (block_index (chain n) !! block_hash b) \/ invalid_blocks (chain n') = invalid_blocks (chain n) ->
  undos n' = undos n -> snapshot n' = snapshot n -> orphans (intake n') = orphans (intake n) -> core_step n n'.
Proof.
  intros Hn Hg Hok Hsub Hi Hst Hnone Hb Hinv Hbody Hii Hu Hs Ho. split; rewrite ?Hb, ?Hu, ?Hs, ?Ho; try done.
  - by rewrite Hst, dom_insert_L, (co_store _ _ _ _ _ (no_core _ _ _ _ _ Hn)).
  - by apply insert_subseteq.
  - intros hash b0 H1 H2. destruct (decide (hash = block_hash b)) as [->|Hne]; [|rewrite lookup_insert_ne in H1 by done; congruence].
    rewrite lookup_insert_eq in H1. injection H1 as <-. done.
  - intros hash b0 _ _ H1 H2. destruct H2. apply Hinv. by left.
  - intros. by left.
  - intros. by left.
  - intros p l b0 H1 H2. left. by exists p, l.
  - intros hash [H|[-> H]]%Hinv; [by left|right]. by destruct Hii.
Qed.

(** ** Quiet changes *)

Lemma intake_ok n f :
  node_ok n -> orphans (f (intake n)) = orphans (intake n) -> node_ok (on_intake f n).
Proof. intros Hn Ho. by apply (node_same cf net body_of now n). Qed.

Lemma side_ok n u : node_ok n -> node_ok (set_side_chain u n).
Proof. intros Hn. by apply (node_same cf net body_of now n). Qed.

Lemma note_ready_ok n hash : node_ok n -> node_ok (note_peer_body_chain_ready hash n).
Proof. intros Hn. unfold note_peer_body_chain_ready. destruct (_ && _); [done|]. by apply intake_ok. Qed.

Lemma record_unlinked_ok n hash : node_ok n -> node_ok (record_unlinked_body hash n).
Proof. intros Hn. unfold record_unlinked_body. case_bool_decide; [done|]. by apply intake_ok. Qed.

Lemma sequence_chain_ok c hash : chain_ok c -> chain_ok (assign_block_sequence_id c hash).
Proof.
  intros Hok. destruct (assign_block_sequence_tables c hash) as [(Hn & _) Hq].
  apply (chain_ok_same cf net c); [done|apply assign_block_sequence_same|done|done].
Qed.

Lemma sequence_core n hash : core_ok n -> core_step n (sequence_block hash n).
Proof.
  intros Hn. unfold sequence_block. case_bool_decide; [by apply core_step_same; try done; apply Hn|].
  destruct (assign_block_sequence_tables (chain n) hash) as [(_ & Hs & Hv) _].
  apply core_step_same; cbn [set_chain chain]; try done; [apply sequence_chain_ok, Hn|apply assign_block_sequence_same].
Qed.

Lemma sequence_ok n hash : node_ok n -> node_ok (sequence_block hash n).
Proof.
  intros Hn. pose proof (sequence_core n hash (no_core _ _ _ _ _ Hn)) as Hs. revert Hs.
  unfold sequence_block. case_bool_decide; [done|]. intros Hs.
  apply (node_step n); try done. apply assign_block_sequence_same.
Qed.

Lemma mark_ok n hash : node_ok n -> node_ok (mark_block_invalid hash n).
Proof.
  intros Hn. unfold mark_block_invalid. destruct (_ && _) eqn:E; [|done]. apply andb_true_iff in E as [Hi%bool_decide_eq_true _].
  apply (node_step n); try done. split; cbn [on_chain set_chain chain bodies undos snapshot intake set_best_header set_invalid block_index store
    invalid_blocks]; try done; try apply Hn.
  - by apply (chain_ok_same cf net (chain n)); [apply Hn|..].
  - intros hash0 b H1 H2. congruence.
  - intros hash0 b _ _ H1 H2. set_solver.
  - intros. by left.
  - intros. by left.
  - intros p l b H1 H2. left. by exists p, l.
  - intros hash0 [->%elem_of_singleton|H]%elem_of_union; [by right|by left].
Qed.

(** ** A checked body is stored and indexed *)

Lemma insert_body_cases b n :
  node_ok n ->
  (is_Some (bodies n !! block_hash b) /\ insert_body b n = n) \/
  (bodies n !! block_hash b = None /\ bodies (insert_body b n) = <[block_hash b := b]> (bodies n) /\
   chain (insert_body b n) = set_store ({[block_hash b]} ∪ store (chain n)) (chain n) /\
   exists bs st, insert_body b n = {| chain := set_store st (chain n); bodies := bs;
       undos := undos n; utxo_store := utxo_store n; utxos := utxos n; utxos_materialized := utxos_materialized n;
       side_chain_utxos := side_chain_utxos n; active_tx_counts := active_tx_counts n;
       active_tx_totals := active_tx_totals n; segwit_validated_blocks := segwit_validated_blocks n; intake := intake n;
       status := status n; chainstate_store := chainstate_store n; snapshot := snapshot n |}).
Proof.
  intros Hn. unfold insert_body. rewrite (co_store _ _ _ _ _ (no_core _ _ _ _ _ Hn)). case_bool_decide as Hd.
  - left. by rewrite elem_of_dom in Hd.
  - right. apply not_elem_of_dom in Hd. split; [done|]. split; [done|]. split; [done|]. by eexists _, _.
Qed.

Lemma store_indexed n b parent :
  node_ok n -> small n -> genuine b -> block_index (chain n) !! prev_blockhash (blk_header b) = Some parent ->
  side_checks cf now (chain n) b parent = Ok () ->
  exists n', index_body b (insert_side_chain_body b n) = (n', Ok ()) /\ node_ok n'.
Proof.
  intros Hn Hsmall Hg Ep Hs. pose proof (no_core _ _ _ _ _ Hn) as Hcore.
  pose proof (parent_fits n _ _ Hcore Hsmall Ep) as Hmax. set (n1 := insert_side_chain_body b n).
  assert (Hc1 : same_index (chain n) (chain n1) /\ ChainIndex.network (chain n1) = ChainIndex.network (chain n) /\
    header_sequence_ids (chain n1) = header_sequence_ids (chain n) /\ invalid_blocks (chain n1) = invalid_blocks (chain n)).
  { unfold n1, insert_side_chain_body, insert_body. cbn [on_intake set_intake chain]. by case_bool_decide. }
  destruct Hc1 as (Hsame & Hnet & Hseq & Hinv). pose proof Hsame as (Hi & Ha & _).
  assert (Hok1 : chain_ok (chain n1)) by (by apply (chain_ok_same cf net (chain n)); [apply Hcore|..]).
  destruct (chain_ok_index cf net (chain n1) (blk_header b) parent) as (c' & Ec & Hok' & (_ & Hst & Hinv') & Hsub & Hidx & Ha' & _); [done|by rewrite Hi|done|].
  unfold index_body. rewrite law_block_hash, Ec. exists (set_chain c' n1). split; [done|]. rewrite Hi in Hsub, Hidx.
  assert (Hext : extends_index (chain n) c').
  { split; [apply Hcore|apply Hok'|done|]. by rewrite (ck_network _ _ _ Hok'), (ck_network _ _ _ (co_chain _ _ _ _ _ Hcore)). }
  assert (Hbk : body_ok cf now c' b) by (apply (body_ok_grow cf net now (chain n) c' b parent); (done || apply Hcore)).
  assert (Hin : is_Some (block_index c' !! block_hash b)) by (rewrite law_block_hash, Hidx, lookup_insert_eq; by eexists).
  rewrite Ha in Ha'. destruct (insert_body_cases b n Hn) as [[Hb E]|(Hnone & Hbs & Hch & bs & st & E)].
  - apply (node_step n); unfold n1, insert_side_chain_body; rewrite ?E; try done.
    split; cbn [set_chain chain bodies undos snapshot on_intake set_intake intake orphans set_pending]; try done; try apply Hcore.
    + rewrite Hst. unfold n1, insert_side_chain_body. rewrite E. apply Hcore.
    + intros hash b0 H1 H2. congruence.
    + intros hash b0 _ _ H1 H2. rewrite Hinv', Hinv in H2. done.
    + intros. by left.
    + intros. by left.
    + intros p l b0 H1 H2. left. by exists p, l.
    + intros hash H. rewrite Hinv', Hinv in H. by left.
  - apply (node_step n); try (unfold n1, insert_side_chain_body; rewrite ?E; done).
    assert (Hsto : store c' = {[block_hash b]} ∪ store (chain n)).
    { rewrite Hst. unfold n1, insert_side_chain_body. cbn [on_intake set_intake chain]. by rewrite Hch. }
    apply (body_step n _ b); try done; try (unfold n1, insert_side_chain_body; rewrite ?E; done).
    + cbn [set_chain chain]. intros hash. rewrite Hinv', Hinv. naive_solver.
    + right. cbn [set_chain chain]. by rewrite Hinv', Hinv.
Qed.

(** ** Bodies that arrive *)

(** After a body: the invariant holds, or it holds once the rejected body
    that was retained is marked. *)
Definition settled {A} (n : Node) (b : Block) (retain : bool) (p : Node * result ConnectError A) : Prop :=
  match p with
  | (n', Ok _) => node_ok n'
  | (n', Err e) =>
      node_ok n' \/
      (bodies n !! block_hash b = None /\ retain = true /\ should_mark_block_invalid e = true /\ node_ok (mark_block_invalid (block_hash b) n'))
  end.

Lemma retained_ok n b :
  node_ok n -> genuine b -> bodies n !! block_hash b = None -> is_Some (block_index (chain n) !! block_hash b) ->
  block_hash b ∉ invalid_blocks (chain n) -> node_ok (mark_block_invalid (block_hash b) (sequence_block (block_hash b) (insert_body b n))).
Proof.
  intros Hn Hg Hnone Hi Hv. pose proof (no_core _ _ _ _ _ Hn) as Hcore.
  destruct (insert_body_cases b n Hn) as [[[x Hb] _]|(_ & Hbs & Hch & bs & st & E)]; [congruence|].
  set (n1 := sequence_block (block_hash b) (insert_body b n)).
  assert (Hn1 : same_index (chain n) (chain n1) /\ ChainIndex.network (chain n1) = ChainIndex.network (chain n) /\
    header_sequence_ids (chain n1) = header_sequence_ids (chain n) /\ invalid_blocks (chain n1) = invalid_blocks (chain n) /\
    store (chain n1) = {[block_hash b]} ∪ store (chain n)).
  { unfold n1, sequence_block, assign_block_sequence_id. rewrite Hch. case_bool_decide as Hd; cbn [set_chain chain]; rewrite ?Hch; done. }
  destruct Hn1 as ((Hi1 & Ha1 & Hh1) & Hnet & Hseq & Hinv & Hst).
  assert (Hf : bodies n1 = <[block_hash b := b]> (bodies n) /\ undos n1 = undos n /\ snapshot n1 = snapshot n /\ utxo_store n1 = utxo_store n /\
    utxos n1 = utxos n /\ utxos_materialized n1 = utxos_materialized n /\ active_tx_counts n1 = active_tx_counts n /\
    active_tx_totals n1 = active_tx_totals n /\ orphans (intake n1) = orphans (intake n)).
  { rewrite <- Hbs. unfold n1, sequence_block. rewrite E. by case_bool_decide. }
  destruct Hf as (F1 & F2 & F3 & F4 & F5 & F6 & F7 & F8 & F9).
  unfold mark_block_invalid. rewrite Hi1, Hinv, bool_decide_true, bool_decide_false by done. cbn [andb negb].
  apply (node_step n); try done. apply (body_step n _ b); try done; cbn [on_chain set_chain chain set_best_header set_invalid block_index store invalid_blocks].
  - apply (chain_ok_same cf net (chain n)); [apply Hcore|done..].
  - by rewrite Hi1.
  - by rewrite Hi1.
  - intros hash. rewrite Hinv. split; [|set_solver]. intros [->%elem_of_singleton|H]%elem_of_union; [|by left]. right. split; [done|]. intros Heq.
    apply Hv. rewrite <- Heq. set_solver.
  - rewrite Hinv. set_solver.
  - by left.
Qed.

Lemma on_tip_ok n b retain sync :
  node_ok n -> small (accept_on_tip cf now cache b retain sync n).1 -> genuine b -> has_invalid_ancestor (chain n) (block_hash b) = false ->
  (retain = true -> is_Some (block_index (chain n) !! block_hash b)) ->
  settled n b retain (accept_on_tip cf now cache b retain sync n).
Proof.
  intros Hn Hsm Hg Hv Hi. pose proof (no_core _ _ _ _ _ Hn) as Hcore. apply not_invalid in Hv.
  pose proof (growing_connect_impl cf now cache b true sync n) as Hgrow.
  assert (Hs : small n).
  { revert Hsm Hgrow. unfold accept_on_tip. destruct (connect_block_internal_impl _ _ _ _ _ _ _) as [n1 [x|e]]; cbn [fst]; [intros H1 H2; by apply (small_before n n1)|].
    destruct (_ && _); cbn [fst]; intros H1 H2; [|by apply (small_before n n1)]. apply (small_before n _ H2).
    apply (small_before _ (insert_body b n1)); [apply insert_body_grows|]. by apply (small_before _ _ (sequence_grows (block_hash b) (insert_body b n1))). }
  pose proof (connect_impl_spec cf net body_of now cache n b true sync (db_coins (utxo_store n)) Hcore (no_live _ _ _ _ _ Hn)) as Hspec.
  specialize (Hspec ltac:(intros _; split; [done|apply Hn]) ltac:(done) (no_resident _ _ _ _ _ Hn) Hg Hv (tip_fits n Hcore Hs) Hs).
  unfold accept_on_tip. destruct (connect_block_internal_impl cf now cache b true sync n) as [n1 [x|e]].
  - destruct Hspec as [u' Hr]. by apply (connect_result_ok n n1 b u').
  - destruct Hspec as [bh ->]. pose proof (node_touch cf net body_of now bh n Hn) as Ht. destruct (retain && _) eqn:Er; [|by left].
    apply andb_true_iff in Er as [-> Hmark]. destruct (bodies n !! block_hash b) as [b0|] eqn:Eb.
    + left. destruct (insert_body_cases b (touch bh n) Ht) as [[_ ->]|(Hnone & _)]; [by apply sequence_ok|].
      change (bodies (touch bh n)) with (bodies n) in Hnone. congruence.
    + right. split; [done|]. split; [done|]. split; [done|]. apply retained_ok; try done. by apply Hi.
Qed.

(** ** The set at a parent *)

(** Reading a set changes the cached best header and the cached side set. *)
Definition undisturbed (n n' : Node) : Prop := exists bh u, n' = set_side_chain u (touch bh n).

Lemma quiet_refl n : undisturbed n n.
Proof. exists (best_header_hash (chain n)), (side_chain_utxos n). rewrite touch_id. by destruct n. Qed.
Lemma quiet_trans n n1 n2 : undisturbed n n1 -> undisturbed n1 n2 -> undisturbed n n2.
Proof. intros (bh & u & ->) (bh' & u' & ->). by exists bh', u'. Qed.
Lemma quiet_touch n bh : undisturbed n (touch bh n).
Proof. exists bh, (side_chain_utxos n). by destruct n. Qed.
Lemma quiet_side n u : undisturbed n (set_side_chain u n).
Proof. exists (best_header_hash (chain n)), u. by rewrite touch_id. Qed.
Lemma quiet_ok n n' : node_ok n -> undisturbed n n' -> node_ok n'.
Proof. intros Hn (bh & u & ->). apply side_ok. by apply node_touch. Qed.
Lemma quiet_chain n n' : undisturbed n n' -> same_index (chain n) (chain n') /\ invalid_blocks (chain n') = invalid_blocks (chain n).
Proof. by intros (bh & u & ->). Qed.

Definition quietly {A} (m : M A) : Prop := forall n, undisturbed n (m n).1.

Lemma quietly_bind {A B} (m : M A) (k : A -> M B) : quietly m -> (forall x, quietly (k x)) -> quietly (bind m k).
Proof.
  intros Hm Hk n. unfold bind. specialize (Hm n). destruct (m n) as [n1 [x|e]]; [|done]. apply (quiet_trans n n1); [done|apply Hk].
Qed.

Lemma quietly_check b h u mtp : quietly (check_transactions_op cf cache b h u mtp).
Proof.
  intros n. unfold check_transactions_op. destruct (check_transactions cf cache (chain n) b h u mtp true) as [c r] eqn:E.
  destruct (check_transactions_view cf cache _ _ _ _ _ _ _ _ E) as [_ [bh ->]]. apply quiet_touch.
Qed.

Lemma quietly_utxos hash : quietly (utxos_for_block cf now cache hash).
Proof.
  intros n. unfold utxos_for_block. destruct (bool_decide _); [apply quiet_refl|].
  destruct (replay_active_utxos_backwards n hash) as [[u|]|]; try apply quiet_refl.
  destruct (candidate_path _ _ _) as [path|]; [|apply quiet_refl]. destruct (bodies n !! _) as [genesis|]; [|apply quiet_refl]. clear genesis.
  generalize (∅ : coin_set). revert n. induction (tail path) as [|x l IH]; intros n u; cbn [forwards_loop]; [apply quiet_refl|].
  destruct (bodies n !! x) as [b|]; [|apply quiet_refl]. destruct (rbind _ _) as [[h mtp]|]; [|apply quiet_refl].
  destruct (check_transactions cf cache (chain n) b h u mtp true) as [c r] eqn:E.
  destruct (check_transactions_view cf cache _ _ _ _ _ _ _ _ E) as [_ [bh ->]].
  change (set_chain (set_best_header bh (chain n)) n) with (touch bh n). destruct r as [a|e]; [|apply quiet_touch].
  apply (quiet_trans n (touch bh n)); [apply quiet_touch|apply IH].
Qed.

Lemma quietly_parent hash : quietly (take_parent_utxos cf now cache hash).
Proof.
  intros n. unfold take_parent_utxos. destruct (side_chain_utxos n) as [[x u]|]; [|apply quietly_utxos].
  case_bool_decide; [apply quiet_side|apply quietly_utxos].
Qed.

Lemma quietly_validate b parent : quietly (validate_side cf now cache b parent).
Proof.
  intros n. unfold validate_side. destruct (median_time_past_for_parent _ _) as [mtp|]; [|apply quiet_refl].
  assert (Hkeep : forall u, quietly (bind (modify (set_side_chain u)) (fun _ => ret true))).
  { intros u n0. apply quiet_side. }
  destruct (_ && _).
  - apply quietly_bind; [apply quietly_check|]. intros a. apply quietly_bind; [apply quietly_parent|]. intros u. apply Hkeep.
  - apply quietly_bind; [apply quietly_parent|]. intros [u|]; [|intros n0; apply quiet_refl].
    apply quietly_bind; [apply quietly_check|]. intros a. apply Hkeep.
Qed.

(** ** Operations that keep the invariant *)

Definition keeps {A} (m : M A) : Prop := forall n, node_ok n -> small (m n).1 -> node_ok (m n).1.

Lemma keeps_ret {A} (x : A) : keeps (ret x).
Proof. by intros n. Qed.
Lemma keeps_lift {A} (r : result ConnectError A) : keeps (lift r).
Proof. by intros n. Qed.
Lemma keeps_read {A} (f : Node -> result ConnectError A) : keeps (fun n => (n, f n)).
Proof. by intros n. Qed.
Lemma keeps_modify f : (forall n, node_ok n -> node_ok (f n)) -> keeps (modify f).
Proof. intros H n Hn _. by apply H. Qed.
Lemma keeps_ignore {A} (m : M A) : keeps m -> keeps (ignore m).
Proof. intros H n. apply H. Qed.
Lemma keeps_bind {A B} (m : M A) (k : A -> M B) :
  keeps m -> (forall x, growing (k x)) -> (forall x, keeps (k x)) -> keeps (bind m k).
Proof.
  intros Hm Hg Hk n Hn. unfold bind. specialize (Hm n Hn). destruct (m n) as [n1 [x|e]]; [|done]. cbn [fst] in Hm.
  intros Hs. apply Hk; [|done]. apply Hm. by apply (small_before _ _ (Hg x n1)).
Qed.
Lemma keeps_for_each {A} (f : A -> M ()) l :
  (forall x, x ∈ l -> keeps (f x)) -> (forall x, growing (f x)) -> keeps (for_each f l).
Proof.
  intros Hf Hg. induction l as [|x l IH]; [apply keeps_ret|]. cbn [for_each]. apply keeps_bind; [apply Hf; left| |].
  - intros _. by apply growing_for_each.
  - intros _. apply IH. intros y Hy. apply Hf. by right.
Qed.
Lemma keeps_fold {A S} (f : A -> S -> M S) l s :
  (forall x s, keeps (f x s)) -> (forall x s, growing (f x s)) -> keeps (fold_m f l s).
Proof.
  intros Hf Hg. revert s. induction l as [|x l IH]; intros s; [apply keeps_ret|]. cbn [fold_m].
  apply keeps_bind; [apply Hf|intros; by apply growing_fold|done].
Qed.

Lemma keeps_activate tip : keeps (activate_chain cf now cache tip).
Proof.
  intros n Hn Hs. pose proof (small_before _ _ (growing_activate cf now cache tip n) Hs) as Hs0.
  pose proof (activate_spec cf net body_of now cache n tip Hn Hs0) as Ha. destruct (activate_chain _ _ _ _ _) as [n' [x|e]]; apply Ha.
Qed.

Lemma keeps_activate_if (P : Node -> bool) hash : keeps (fun n => if P n then activate_chain cf now cache hash n else (n, Ok ())).
Proof. intros n Hn. destruct (P n); [by apply keeps_activate|done]. Qed.

Lemma keeps_quiet {A} (m : M A) : quietly m -> keeps m.
Proof. intros H n Hn _. by apply (quiet_ok n). Qed.

(** A checked body is stored and indexed, and more is done. *)
Lemma keeps_stored {A} n b (k : M A) :
  node_ok n -> genuine b -> body_ok cf now (chain n) b -> growing k -> keeps k ->
  let m := bind (modify (insert_side_chain_body b)) (fun _ => bind (index_body b) (fun _ => k)) in
  small (m n).1 -> node_ok (m n).1.
Proof.
  intros Hn Hg (parent & Ep & Hs) Hgr Hk. cbn zeta. intros Hsm.
  assert (Hs0 : small n).
  { revert Hsm. apply small_before. apply growing_bind; [apply growing_modify, insert_side_grows|]. intros _.
    by apply growing_bind; [apply growing_index|]. }
  destruct (store_indexed n b parent Hn Hs0 Hg Ep Hs) as (n1 & E & Hn1). revert Hsm. unfold bind, modify. rewrite E. by apply Hk.
Qed.

Lemma body_ok_quiet n n' b : node_ok n -> small n -> undisturbed n n' -> body_ok cf now (chain n) b -> body_ok cf now (chain n') b.
Proof.
  intros Hn Hs Hq (parent & Ep & Hc). destruct (quiet_chain n n' Hq) as [[Hi _] _].
  pose proof (co_chain _ _ _ _ _ (no_core _ _ _ _ _ Hn)) as Hok.
  pose proof (co_chain _ _ _ _ _ (no_core _ _ _ _ _ (quiet_ok n n' Hn Hq))) as Hok'.
  apply (body_ok_grow cf net now (chain n) (chain n') b parent); try done.
  - split; [apply Hok|apply Hok'|by rewrite Hi|]. by rewrite (ck_network _ _ _ Hok), (ck_network _ _ _ Hok').
  - apply Hok.
  - apply (parent_fits n _ _ (no_core _ _ _ _ _ Hn) Hs Ep).
Qed.

Lemma settled_ok {A} n b retain (p : Node * result ConnectError A) : node_ok p.1 -> settled n b retain p.
Proof. destruct p as [n' [x|e]]; [done|]. by left. Qed.

Lemma active_stored n hash : node_ok n -> is_active_block (chain n) hash = true -> hash ∈ store (chain n).
Proof.
  intros Hn. unfold is_active_block, active_at. destruct (block_index (chain n) !! hash) as [node|]; [|done]. intros Ha%bool_decide_eq_true.
  rewrite (co_store _ _ _ _ _ (no_core _ _ _ _ _ Hn)). apply elem_of_dom.
  apply (replays_stored cf net body_of now n _ _ (no_core _ _ _ _ _ Hn) (lv_replays _ _ _ _ (no_live _ _ _ _ _ Hn))).
  apply list_elem_of_lookup. by eexists.
Qed.

Lemma queue_orphan_keeps parent_hash b : genuine b -> keeps (queue_orphan_block parent_hash b).
Proof.
  intros Hg n Hn _. unfold queue_orphan_block. destruct (existsb _ _); [done|]. destruct (_ <=? _); [done|].
  apply (node_step n); try done. split; cbn [on_intake set_intake chain bodies undos snapshot intake set_orphans orphans fst]; try done; try apply Hn.
  - intros hash b0 H1 H2. congruence.
  - intros. by left.
  - intros. by left.
  - intros p l b0 H1 H2. destruct (decide (p = parent_hash)) as [->|Hne].
    + rewrite lookup_insert_eq in H1. injection H1 as <-. apply elem_of_app in H2 as [H2|H2%list_elem_of_singleton]; [left|right; by subst].
      destruct (orphans (intake n) !! parent_hash) as [l|] eqn:El; [by exists parent_hash, l|by apply not_elem_of_nil in H2].
    + rewrite lookup_insert_ne in H1 by done. left. by exists p, l.
  - intros. by left.
Qed.

#[local] Hint Resolve growing_tip growing_ret growing_lift growing_read growing_activate_if growing_index growing_modify insert_side_grows
  record_unlinked_grows sequence_grows side_grows update_ibd_grows note_ready_grows growing_validate_side : growing.
#[local] Hint Resolve keeps_ret keeps_lift keeps_read keeps_activate_if keeps_modify sequence_ok side_ok record_unlinked_ok note_ready_ok
  update_ibd_ok : keeping.
Ltac growing := repeat (apply growing_bind; [|intros ?]); eauto 3 with growing.
Ltac keeping := repeat (apply keeps_bind; [|intros ?; growing|intros ?]); eauto 3 with keeping.

Lemma keeps_tip : keeps get_tip.
Proof. apply keeps_read. Qed.
#[local] Hint Resolve keeps_tip : keeping.

Lemma unlinked_ok n b parent retain :
  node_ok n -> genuine b -> block_index (chain n) !! prev_blockhash (blk_header b) = Some parent ->
  small (accept_unlinked cf now b parent retain n).1 -> node_ok (accept_unlinked cf now b parent retain n).1.
Proof.
  intros Hn Hg Ep. unfold accept_unlinked. rewrite bind_run. destruct (side_checks cf now (chain n) b parent) as [[]|e] eqn:Es; [|done].
  rewrite bind_modify. apply keeps_stored.
  - by apply record_unlinked_ok.
  - done.
  - exists parent. assert (Hc : chain (record_unlinked_body (block_hash b) n) = chain n) by (unfold record_unlinked_body; by case_bool_decide).
    by rewrite Hc.
  - destruct retain; growing.
  - destruct retain; keeping.
Qed.

Lemma side_from_peer_ok n b parent :
  node_ok n -> genuine b -> block_index (chain n) !! prev_blockhash (blk_header b) = Some parent -> side_checks cf now (chain n) b parent = Ok () ->
  small (accept_side_from_peer cf now cache b parent n).1 -> node_ok (accept_side_from_peer cf now cache b parent n).1.
Proof.
  intros Hn Hg Ep Es. unfold accept_side_from_peer. rewrite bind_read, bind_modify.
  apply keeps_stored; [by apply side_ok|done|by exists parent|growing|keeping].
Qed.

Lemma side_ok_body n b parent :
  node_ok n -> genuine b -> block_index (chain n) !! prev_blockhash (blk_header b) = Some parent -> side_checks cf now (chain n) b parent = Ok () ->
  small (accept_side cf now cache b parent n).1 -> node_ok (accept_side cf now cache b parent n).1.
Proof.
  intros Hn Hg Ep Es Hsm. assert (Hs : small n).
  { revert Hsm. apply small_before. unfold accept_side. apply growing_bind; [growing|]. intros [|]; growing. }
  revert Hsm. unfold accept_side. rewrite bind_run. pose proof (quietly_validate b parent n) as Hq.
  destruct (validate_side cf now cache b parent n) as [n1 [validated|e]]; cbn [fst] in *; [|intros _; by apply (quiet_ok n)].
  assert (Hb : body_ok cf now (chain n1) b) by (apply (body_ok_quiet n); [done|done|done|by exists parent]).
  pose proof (quiet_ok n n1 Hn Hq) as Hn1. destruct validated.
  - apply keeps_stored; [done|done|done|growing|keeping].
  - rewrite bind_modify. apply keeps_stored; [by apply record_unlinked_ok|done| |growing|keeping].
    assert (Hc : chain (record_unlinked_body (block_hash b) n1) = chain n1) by (unfold record_unlinked_body; by case_bool_decide).
    by rewrite Hc.
Qed.

Lemma accept_spec n b allow retain sync :
  node_ok n -> genuine b -> (retain = true -> is_Some (block_index (chain n) !! block_hash b)) ->
  small (accept_body cf now cache b allow retain sync n).1 -> settled n b retain (accept_body cf now cache b allow retain sync n).
Proof.
  intros Hn Hg Hi. unfold accept_body. destruct (has_invalid_ancestor (chain n) (block_hash b)) eqn:Ev; [by left|].
  destruct (is_active_block (chain n) (block_hash b)) eqn:Ea.
  { rewrite bool_decide_true by (by apply active_stored). intros Hs. apply settled_ok. apply keeps_bind; [keeping|intros; growing|intros; keeping|done|done]. }
  destruct (_ && _); [intros Hs; apply settled_ok; apply keeps_bind; [keeping|intros; growing|intros; keeping|done|done]|].
  destruct (block_index (chain n) !! prev_blockhash (blk_header b)) as [parent|] eqn:Ep.
  2: { intros Hs. apply settled_ok. apply keeps_bind; [by apply queue_orphan_keeps|intros; growing|intros; keeping|done|done]. }
  destruct (has_invalid_ancestor (chain n) (prev_blockhash (blk_header b))); [by left|].
  destruct (bool_decide (prev_blockhash _ = _)); [intros Hs; by apply on_tip_ok|].
  destruct (negb _); [intros Hs; by apply settled_ok, unlinked_ok|].
  rewrite bind_run. unfold lift at 1 2. destruct (side_checks cf now (chain n) b parent) as [[]|e] eqn:Es; [|by left].
  intros Hs. apply settled_ok. destruct retain; [by apply side_from_peer_ok|by apply side_ok_body].
Qed.

(** ** Blocks that waited *)

Lemma orphans_keep (connect : Block -> M ChainTip) hash :
  (forall b, genuine b -> keeps (connect b)) -> (forall b, growing (connect b)) -> keeps (connect_orphans connect hash).
Proof.
  intros Hk Hg n Hn. unfold connect_orphans. destruct (orphans (intake n) !! hash) as [waiting|] eqn:Eo; [|done].
  apply keeps_bind; [|intros _; apply growing_for_each; intros; by apply growing_ignore| |done].
  - apply keeps_modify. intros n0 Hn0. apply (node_step n0); try done.
    split; cbn [on_intake set_intake chain bodies undos snapshot intake set_orphans orphans]; try done; try apply Hn0.
    + intros h b H1 H2. congruence.
    + intros. by left.
    + intros. by left.
    + intros p l b H1 H2. apply lookup_delete_Some in H1 as [_ H1]. left. by exists p, l.
    + intros. by left.
  - intros _. apply keeps_for_each; [|intros; by apply growing_ignore]. intros b Hb. apply keeps_ignore, Hk.
    by apply (co_orphans _ _ _ _ _ (no_core _ _ _ _ _ Hn) hash waiting).
Qed.

Lemma known_child_keeps (connect : Block -> M ChainTip) sync propagate child q :
  (forall b n, node_ok n -> genuine b -> bodies n !! block_hash b = Some b -> small (connect b n).1 -> node_ok (connect b n).1) ->
  keeps (known_child connect sync propagate child q).
Proof.
  intros Hk n Hn. unfold known_child. destruct (bodies n !! child) as [b|] eqn:Eb; [|done].
  destruct (co_bodies _ _ _ _ _ (no_core _ _ _ _ _ Hn) _ _ Eb) as (Hh & Hg & _). subst child. specialize (Hk b n Hn Hg Eb).
  destruct (connect b n) as [n1 [t|e]]; cbn [fst] in *.
  - intros Hs. assert (Hs1 : small n1) by (destruct sync; [done|]; by apply (small_before _ _ (note_ready_grows (block_hash b) n1))).
    destruct sync; [by apply Hk|]. apply note_ready_ok. by apply Hk.
  - destruct (_ && _); cbn [fst]; intros Hs; [|by apply Hk]. apply mark_ok, Hk. by apply (small_before _ _ (mark_grows (block_hash b) n1)).
Qed.

Lemma settle_keeps connect loop next :
  (forall b, genuine b -> keeps (connect b)) -> (forall b, growing (connect b)) ->
  (forall hash, keeps (loop hash)) -> (forall hash, growing (loop hash)) -> keeps (settle cf now connect loop next).
Proof.
  intros Hk Hg Hl Hgl. destruct next as [t|hash note children]; [apply keeps_ret|]. unfold settle.
  assert (Hgk : growing (connect_known_children (loop hash))).
  { intros n. unfold connect_known_children. destruct (processing_known_children _); [done|].
    specialize (Hgl hash (on_intake (set_processing true) n)). destruct (loop hash _) as [n1 r]. exact Hgl. }
  apply keeps_bind; [by apply orphans_keep|intros _; destruct note, children; growing; by apply growing_modify, note_ready_grows|].
  intros _. apply keeps_bind; [destruct note; keeping|intros _; destruct children; growing|].
  intros _. apply keeps_bind; [|intros _; growing|intros _; keeping]. destruct children; [|keeping].
  intros n Hn. unfold connect_known_children. destruct (processing_known_children _); [done|].
  assert (Hp : node_ok (on_intake (set_processing true) n)) by (by apply intake_ok).
  specialize (Hl hash _ Hp). destruct (loop hash _) as [n1 r]. cbn [fst] in *. intros Hs. apply intake_ok; [|done]. by apply Hl.
Qed.

Lemma driver_keeps fuel :
  (forall b allow retain sync n, node_ok n -> genuine b -> (retain = true -> is_Some (block_index (chain n) !! block_hash b)) ->
     small (connect_block_with_existing_body cf now cache fuel b allow retain sync n).1 ->
     settled n b retain (connect_block_with_existing_body cf now cache fuel b allow retain sync n)) /\
  (forall parents queued sync propagate, keeps (known_children_loop cf now cache fuel parents queued sync propagate)).
Proof.
  induction fuel as [|fuel [IHc IHk]]; [split; [intros; by left|intros; apply keeps_lift]|].
  pose proof (growing_driver cf now cache fuel) as [Gc Gk].
  assert (Hc : forall sync b, genuine b -> keeps (connect_block_with_existing_body cf now cache fuel b true false sync)).
  { intros sync b Hg n Hn Hs. specialize (IHc b true false sync n Hn Hg ltac:(done) Hs).
    destruct (connect_block_with_existing_body _ _ _ _ _ _ _ _ _) as [n1 [t|e]]; [done|]. destruct IHc as [?|(_ & ? & _)]; done. }
  split.
  - intros b allow retain sync n Hn Hg Hi. rewrite connect_body_eq, bind_run.
    set (set := settle cf now _ _). assert (Hset : forall next, keeps (set next)) by (intros next; by apply settle_keeps; auto).
    assert (Hgset : forall next, growing (set next)) by (intros next; by apply growing_settle; auto).
    pose proof (accept_spec n b allow retain sync Hn Hg Hi) as Hacc.
    destruct (accept_body cf now cache b allow retain sync n) as [n1 [next|e]]; [|exact Hacc]. cbn [fst] in Hacc. intros Hs. apply settled_ok.
    apply Hset; [|done]. apply Hacc. by apply (small_before _ _ (Hgset next n1)).
  - intros [|p parents] queued sync propagate; [apply keeps_ret|]. rewrite known_children_eq. intros n Hn. unfold known_parent.
    destruct (pending_body_children _ !! _) as [children|]; [|by apply IHk]. apply keeps_bind; [| | |done].
    + apply keeps_modify. intros n0 Hn0. by apply intake_ok.
    + intros _. apply growing_bind; [|auto]. apply growing_fold. intros. apply growing_known_child. auto.
    + intros _. apply keeps_bind; [|auto|auto]. apply keeps_fold; [|intros; apply growing_known_child; auto].
      intros child q. apply known_child_keeps. intros b n0 Hn0 Hg Hb Hs.
      destruct (co_bodies _ _ _ _ _ (no_core _ _ _ _ _ Hn0) _ _ Hb) as (_ & _ & Hi). specialize (IHc b true true sync n0 Hn0 Hg ltac:(done) Hs).
      destruct (connect_block_with_existing_body _ _ _ _ _ _ _ _ _) as [n1 [t|e]]; [done|]. destruct IHc as [?|(? & _)]; [done|congruence].
Qed.

(** ** The entry points *)

Lemma connect_block_keeps fuel b : genuine b -> keeps (connect_block cf now cache fuel b).
Proof.
  intros Hg n Hn Hs. unfold connect_block in *. pose proof (proj1 (driver_keeps fuel) b false false true n Hn Hg ltac:(done) Hs) as H.
  destruct (connect_block_with_existing_body _ _ _ _ _ _ _ _ _) as [n1 [t|e]]; [done|]. destruct H as [?|(_ & ? & _)]; done.
Qed.

Lemma growing_from_peer fuel b : growing (connect_block_from_peer cf now cache fuel b).
Proof. apply growing_bind; [apply growing_driver|]. intros t. growing. Qed.

Lemma receive_keeps fuel b n :
  genuine b -> is_Some (block_index (chain n) !! block_hash b) -> node_ok n ->
  small (receive_peer_block cf now cache fuel b n).1 -> node_ok (receive_peer_block cf now cache fuel b n).1.
Proof.
  intros Hg Hi Hn. unfold receive_peer_block, connect_block_from_peer. rewrite bind_run.
  pose proof (proj1 (driver_keeps fuel) b false true false n Hn Hg ltac:(done)) as H.
  destruct (connect_block_with_existing_body _ _ _ _ _ _ _ _ _) as [n1 [t|e]]; cbn [fst] in H.
  - rewrite bind_modify. cbn [ret fst]. intros Hs. apply note_ready_ok, H. by apply (small_before _ _ (note_ready_grows (block_hash b) n1)).
  - cbn [fst]. intros Hs. assert (Hs1 : small n1).
    { destruct (should_mark_block_invalid e); [|done]. by apply (small_before _ _ (mark_grows (block_hash b) n1)). }
    destruct (H Hs1) as [Hn1|(_ & _ & Hm & Hn1)]; [|by rewrite Hm]. destruct (should_mark_block_invalid e); [by apply mark_ok|done].
Qed.

(** Marks that are added. *)
Lemma invalid_ok n inv :
  node_ok n -> invalid_blocks (chain n) ⊆ inv -> (forall hash, hash ∈ inv -> hash ∈ invalid_blocks (chain n) \/ is_Some (block_index (chain n) !! hash)) ->
  node_ok (on_chain (fun c => set_best_header None (set_invalid inv c)) n).
Proof.
  intros Hn Hsub Hi. apply (node_step n); try done. split; cbn [on_chain set_chain chain bodies undos snapshot intake set_best_header set_invalid
    block_index store invalid_blocks]; try done; try apply Hn.
  - by apply (chain_ok_same cf net (chain n)); [apply Hn|..].
  - intros hash b H1 H2. congruence.
  - intros hash b _ _ H1 H2. set_solver.
  - intros. by left.
  - intros. by left.
  - intros p l b H1 H2. left. by exists p, l.
Qed.

Lemma keeps_activate_best : keeps (fun n => match best_valid_tip_hash (chain n) with
  | None => (n, Err Bail)
  | Some best => if bool_decide (best = best_hash (chain n)) then (n, Ok ()) else activate_chain cf now cache best n end).
Proof. intros n Hn. destruct (best_valid_tip_hash _); [|done]. destruct (bool_decide _); [done|by apply keeps_activate]. Qed.

Lemma keeps_activate_best' : keeps (fun n => match best_valid_tip_hash (chain n) with
  | Some best => if bool_decide (best = best_hash (chain n)) then (n, Ok ()) else activate_chain cf now cache best n
  | None => (n, Ok ()) end).
Proof. intros n Hn. destruct (best_valid_tip_hash _); [|done]. destruct (bool_decide _); [done|by apply keeps_activate]. Qed.

Lemma invalidate_keeps hash : keeps (invalidate_block cf now cache hash).
Proof.
  intros n Hn. unfold invalidate_block. destruct (block_index (chain n) !! hash) as [node|]; [|done]. destruct (_ =? 0); [done|].
  rewrite bind_modify. apply keeps_bind; [apply keeps_activate_best|intros; growing|intros; keeping|].
  apply (invalid_ok n); [done|set_solver|]. intros h [H|H]%elem_of_union; [by left|right]. apply elem_of_filter in H as [_ H]. by apply elem_of_dom.
Qed.

(** Lifting marks is safe where the bodies passed their checks. *)
Lemma reconsider_keeps hash n :
  node_ok n ->
  (forall h b, bodies n !! h = Some b -> h <> g -> h ∈ reconsidered (chain n) hash -> body_ok cf now (chain n) b) ->
  small (reconsider_block cf now cache hash n).1 -> node_ok (reconsider_block cf now cache hash n).1.
Proof.
  intros Hn Hb. unfold reconsider_block. destruct (block_index (chain n) !! hash) as [node|]; [|done].
  rewrite bind_modify. apply keeps_bind; [apply keeps_activate_best'|intros; growing|intros; keeping|].
  apply (node_step n); try done. split; cbn [on_chain set_chain chain bodies undos snapshot intake set_best_header set_invalid
    block_index store invalid_blocks]; try done; try apply Hn.
  - by apply (chain_ok_same cf net (chain n)); [apply Hn|..].
  - intros h b H1 H2. congruence.
  - intros h b H1 H2 H3 H4. apply (Hb h); [done|done|]. destruct (decide (h ∈ reconsidered (chain n) hash)); [done|]. destruct H4. by apply elem_of_difference.
  - intros. by left.
  - intros. by left.
  - intros p l b H1 H2. left. by exists p, l.
  - intros h H%elem_of_difference. left. by destruct H.
Qed.

Lemma precious_keeps hash : keeps (precious_block cf now cache hash).
Proof.
  intros n Hn. unfold precious_block. destruct (block_index (chain n) !! hash) as [node|]; [|done]. destruct (tip n) as [t|]; [|done].
  destruct (_ <? _); [done|]. cbn zeta. apply keeps_bind; [apply keeps_activate_best|intros; growing|intros; keeping|].
  apply (node_step n); try done. apply core_step_same; try done; [apply Hn|]. by apply (chain_ok_same cf net (chain n)); [apply Hn|..].
Qed.

(** Headers. *)
Lemma accept_header_step hd n c r :
  node_ok n -> small (set_chain c n) -> accept_header cf now hd (chain n) = (c, r) -> node_ok (set_chain c n).
Proof.
  intros Hn Hs. assert (Hid : set_chain (chain n) n = n) by (by destruct n). unfold accept_header.
  destruct (block_index (chain n) !! header_hash hd) as [node|] eqn:Eh; [intros [= <- _]; by rewrite Hid|].
  destruct (block_index (chain n) !! prev_blockhash hd) as [parent|] eqn:Ep; [|intros [= <- _]; by rewrite Hid].
  destruct (has_invalid_ancestor _ _); [intros [= <- _]; by rewrite Hid|]. destruct (rbind _ _) as [[]|e]; [|intros [= <- _]; by rewrite Hid].
  destruct (index_header (chain n) (header_hash hd) hd) as [c0|] eqn:Ei; [|intros [= <- _]; by rewrite Hid]. intros [= <- _].
  pose proof (no_core _ _ _ _ _ Hn) as Hcore. assert (Hs0 : small n) by (by apply (small_before n (set_chain c0 n) (wider_index_header _ _ _ _ Ei))).
  destruct (chain_ok_index cf net (chain n) hd parent) as (c' & Ec & Hok' & (_ & Hst & Hinv) & Hsub & Hidx & Ha & _); [apply Hcore|done|by apply (parent_fits n (prev_blockhash hd))|].
  rewrite Ei in Ec. apply Some_inj in Ec as <-. apply (node_step n); try done.
  split; cbn [set_chain chain bodies undos snapshot intake]; try done.
  - rewrite Hst. apply Hcore.
  - intros h b H1 H2. congruence.
  - intros h b _ _ H1 H2. by rewrite Hinv in H2.
  - intros. by left.
  - intros. by left.
  - intros p l b H1 H2. left. by exists p, l.
  - intros h H. rewrite Hinv in H. by left.
Qed.

Lemma accept_headers_wider hds c : wider c (accept_headers_internal cf now hds c).1.
Proof.
  revert c. induction hds as [|hd hds IH]; intros c; cbn [accept_headers_internal]; [by apply wider_eq|].
  assert (H1 : wider c (accept_header cf now hd c).1).
  { unfold accept_header. destruct (block_index c !! header_hash hd); [by apply wider_eq|]. destruct (block_index c !! prev_blockhash hd); [|by apply wider_eq].
    destruct (has_invalid_ancestor _ _); [by apply wider_eq|]. destruct (rbind _ _); [|by apply wider_eq].
    destruct (index_header c (header_hash hd) hd) as [c0|] eqn:E; [|by apply wider_eq]. by apply (wider_index_header c (header_hash hd) hd). }
  destruct (accept_header cf now hd c) as [c1 [h|e]]; [|done]. specialize (IH c1). destruct (accept_headers_internal _ _ _ _) as [c2 r].
  cbn [fst] in *. unfold wider in *. set_solver.
Qed.

Lemma headers_keep hds n :
  node_ok n -> small (set_chain (accept_headers_internal cf now hds (chain n)).1 n) -> node_ok (set_chain (accept_headers_internal cf now hds (chain n)).1 n).
Proof.
  revert n. induction hds as [|hd hds IH]; intros n Hn; cbn [accept_headers_internal]; [by destruct n|].
  destruct (accept_header cf now hd (chain n)) as [c1 [h|e]] eqn:E; [|intros Hs; by apply (accept_header_step hd n c1 (Err e))].
  pose proof (accept_headers_wider hds c1) as Hgr. specialize (IH (set_chain c1 n)). cbn [set_chain chain] in IH.
  destruct (accept_headers_internal cf now hds c1) as [c2 r]. cbn [fst] in *. intros Hs.
  assert (Hs1 : small (set_chain c1 n)) by (by apply (small_before (set_chain c1 n) (set_chain c2 n) Hgr)).
  apply IH; [by apply (accept_header_step hd n c1 (Ok h))|exact Hs].
Qed.
End Keeps.
