(* ===== verification/ChainTheorems.v ===== *)
(** * The chain manager as a whole

    From a fresh data directory, whatever blocks, headers and commands
    arrive, the durable set of unspent outputs is the ledger's set of the
    active chain and the node's self check passes. *)

From Stdlib Require Import ZArith Lia.
From stdpp Require Import base list option gmap sets sorting strings.
From S2P Require Import Prelude Types VersionBits ChainIndex BlockChecks UtxoCodec ConnectBlock Ledger HeaderChecks ChainManager ChainReplay ChainInvariant ChainConnect ChainActivate ChainIntake.
Local Open Scope Z_scope.
Local Set Warnings "-clear-no-such-hyp".

Section Theorems.
Context {Ops : BitcoinOps} {HOps : HeaderOps} {SOps : ScriptOps} {POps : PowOps} (cf : Config) (net : Network)
        {laws : ChainLaws cf net} (body_of : bytes -> Block).
Abbreviation g := (network_genesis_hash cf).
Abbreviation chain_ok := (chain_ok cf net).
Abbreviation node_ok := (node_ok cf net body_of).
Abbreviation genuine := (genuine cf body_of).

(** ** The self check *)

Lemma check_active_ok c pre l hpre hds counts cum :
  chain_ok c -> active_chain c = pre ++ l -> headers c = hpre ++ hds -> length hpre = length pre ->
  check_active c (length pre) l hds counts (cumulative_from cum counts) cum (list.last pre) = true.
Proof.
  intros Hok. pose proof (ck_wf _ _ _ Hok) as Hwf. revert pre hpre hds counts cum.
  induction l as [|hash l IH]; intros pre hpre hds counts cum Ha Hh Hlen; [done|]. destruct hds as [|hd hds]; [done|].
  destruct counts as [|count counts]; [done|]. cbn [check_active cumulative_from].
  assert (Hi : active_chain c !! length pre = Some hash) by (rewrite Ha; by apply list_lookup_middle).
  destruct (wf_active c Hwf _ _ Hi) as (node & En & Hht & Hhd & Hp). rewrite En.
  rewrite Hh, <- Hlen, list_lookup_middle in Hhd by done. injection Hhd as ->. pose proof (wf_height c Hwf _ _ En).
  rewrite (proj2 (Z.leb_le _ _)), (proj2 (Z.eqb_eq _ _)), (ck_hash _ _ _ Hok _ _ En), !bool_decide_true, Z.eqb_refl by (done || lia).
  cbn [andb]. rewrite andb_true_r. apply andb_true_iff. split.
  - destruct (list.last pre) as [parent_hash|] eqn:El; [|done]. rewrite last_lookup in El.
    pose proof (lookup_lt_Some _ _ _ El) as Hlt. specialize (Hp (pred (length pre)) ltac:(lia)).
    rewrite Ha, lookup_app_l, El in Hp by lia. injection Hp as ->. rewrite bool_decide_true by done. cbn [andb].
    destruct (wf_child c Hwf _ _ En) as (parent & Ep & Hc); [lia|]. rewrite Ep. apply Z.eqb_eq, (child_work _ _ _ Hc).
  - replace (Some hash) with (list.last (pre ++ [hash])) by apply last_snoc. rewrite <- Nat.add_1_r.
    replace (length pre + 1)%nat with (length (pre ++ [hash])) by (rewrite length_app; done).
    apply (IH _ (hpre ++ [ChainIndex.header node])); [by rewrite <- app_assoc|by rewrite <- app_assoc|rewrite !length_app; simpl; lia].
Qed.

Lemma cumulative_length total l : length (cumulative_from total l) = length l.
Proof. revert total. induction l as [|x l IH]; intros total; [done|]. cbn [cumulative_from length]. by rewrite IH. Qed.

Lemma consistent now n : node_ok now n -> check_consistency cf n = true.
Proof.
  intros Hn. pose proof (no_core _ _ _ _ _ Hn) as Hcore. pose proof (co_chain _ _ _ _ _ Hcore) as Hok. pose proof (ck_wf _ _ _ Hok) as Hwf.
  destruct (no_counts _ _ _ _ _ Hn) as [Hk Ht]. unfold check_consistency.
  pose proof (genesis_first cf net _ Hok) as Hg. rewrite !andb_true_iff. split_and!.
  - apply bool_decide_eq_true. by destruct (active_chain (chain n)).
  - apply bool_decide_eq_true, (wf_headers _ Hwf).
  - apply bool_decide_eq_true. by rewrite Hk, length_map.
  - apply bool_decide_eq_true. rewrite Ht. unfold cumulative_tx_counts. by rewrite cumulative_length, Hk, length_map.
  - rewrite Ht. by apply (check_active_ok (chain n) [] (active_chain (chain n)) [] (headers (chain n))).
  - apply forallb_forall. intros [hash node] Hin%list_elem_of_In. apply elem_of_map_to_list in Hin as En. unfold check_index_entry.
    rewrite (ck_hash _ _ _ Hok _ _ En), bool_decide_true by done. cbn [andb]. destruct (Z.eqb_spec (ChainIndex.height node) 0) as [Hz|Hz].
    + pose proof (wf_genesis _ Hwf _ _ En Hz) as Ha. rewrite Hg in Ha. injection Ha as <-. by apply bool_decide_eq_true.
    + destruct (wf_child _ Hwf _ _ En Hz) as (parent & Ep & Hc). rewrite Ep. pose proof (child_height _ _ _ Hc) as Hh.
      pose proof (wf_height _ Hwf _ _ En). rewrite (child_work _ _ _ Hc), Z.eqb_refl, andb_true_r. apply Z.eqb_eq. unfold sat_add. lia.
  - apply forallb_forall. intros hash Hin%list_elem_of_In. apply elem_of_elements in Hin. apply bool_decide_eq_true. by apply (co_invalid _ _ _ _ _ Hcore).
Qed.

(** ** A fresh data directory *)

Definition opened_node : Node :=
  {| chain := {| ChainIndex.network := net; block_index := ∅; active_chain := []; headers := []; store := {[g]}; invalid_blocks := ∅;
                 precious_blocks := ∅; block_sequence_ids := ∅; header_sequence_ids := ∅; next_block_sequence_id := 1;
                 next_header_sequence_id := 1; best_header_hash := None |};
     bodies := {[g := cf_genesis cf]}; undos := ∅; utxo_store := {| db_coins := ∅; db_count := 0 |}; utxos := ∅;
     utxos_materialized := true; side_chain_utxos := None; active_tx_counts := []; active_tx_totals := [];
     segwit_validated_blocks := ∅;
     intake := {| orphans := ∅; pending_body_children := ∅; processing_known_children := false; peer_body_chain_ready := ∅;
                  unlinked_body_order := ∅; next_unlinked_body_order := 1 |};
     status := {| initial_block_download := true; precious_sequence := -1; precious_last_chainwork := None |};
     chainstate_store := ∅; snapshot := None |}.

Definition fresh_node : Node := (initialize_genesis_block cf (cf_genesis cf) opened_node).1.

Lemma fresh_ok now : genuine (cf_genesis cf) -> zlen (txdata (cf_genesis cf)) <= umax 64 -> node_ok now fresh_node.
Proof.
  intros Hg Hfit. set (hd := blk_header (cf_genesis cf)).
  assert (Hgh : g = header_hash hd) by apply (law_block_hash (cf:=cf) (net:=net)).
  assert (Hidx : block_index (chain fresh_node) = {[g := genesis_node cf]} /\ active_chain (chain fresh_node) = [g] /\ headers (chain fresh_node) = [hd]).
  { unfold fresh_node, initialize_genesis_block. rewrite bool_decide_true by done. cbn [fst chain]. unfold initialize_genesis.
    destruct (assign_header_sequence_same (set_block_index <[g := genesis_node cf]> (set_active (fun l => l ++ [g]) (fun l => l ++ [hd]) (chain opened_node))) g)
      as (Hi & Ha & Hh). split; [exact Hi|]. split; [exact Ha|exact Hh]. }
  destruct Hidx as (Hi & Ha & Hh).
  assert (Ht : same_tables (chain opened_node) (chain fresh_node) /\ is_Some (header_sequence_ids (chain fresh_node) !! g)).
  { unfold fresh_node, initialize_genesis_block. rewrite bool_decide_true by done. cbn [fst chain]. unfold initialize_genesis.
    destruct (assign_header_sequence_tables (set_block_index <[g := genesis_node cf]> (set_active (fun l => l ++ [g]) (fun l => l ++ [hd]) (chain opened_node))) g)
      as [Ht Hq]. split; [exact Ht|]. apply Hq. by right. }
  destruct Ht as ((Hn & Hs & Hv) & Hq).
  assert (Hf : bodies fresh_node = {[g := cf_genesis cf]} /\ undos fresh_node = {[g := [[]]]} /\ utxo_store fresh_node = utxo_store opened_node /\
    utxos fresh_node = ∅ /\ snapshot fresh_node = None /\ intake fresh_node = intake opened_node /\
    active_tx_counts fresh_node = [zlen (txdata (cf_genesis cf))] /\ active_tx_totals fresh_node = [zlen (txdata (cf_genesis cf))]).
  { unfold fresh_node, initialize_genesis_block. by rewrite bool_decide_true. }
  destruct Hf as (Fb & Fu & Fd & Fx & Fs & Fi & Fc & Ft).
  assert (Hok : chain_ok (chain fresh_node)).
  { split; rewrite ?Hi; [|by rewrite Hn| | |].
    - split; rewrite ?Hi, ?Ha, ?Hh; [..|done].
      + intros hash node [<- <-]%lookup_singleton_Some. cbn. unfold umax. lia.
      + by intros hash node [<- <-]%lookup_singleton_Some.
      + by intros hash node [<- <-]%lookup_singleton_Some.
      + intros i hash [-> <-]%list_lookup_singleton_Some. exists (genesis_node cf). rewrite lookup_singleton_eq. split; [done|].
        split; [done|]. split; [done|]. by intros j.
    - intros hash node [<- <-]%lookup_singleton_Some. by rewrite Hgh.
    - apply lookup_singleton_eq.
    - intros hash [node [<- <-]%lookup_singleton_Some]. done. }
  split; rewrite ?Fd; try done.
  - split; rewrite ?Fb, ?Fu, ?Fs, ?Fi, ?Hv; try done.
    + by rewrite Hs, dom_singleton_L.
    + apply lookup_singleton_eq.
    + intros hash b [<- <-]%lookup_singleton_Some. split; [done|]. split; [done|]. rewrite Hi, lookup_singleton_eq. by eexists.
    + by intros hash b [<- <-]%lookup_singleton_Some.
    + by intros hash x [<- <-]%lookup_singleton_Some.
  - split; rewrite Ha; [constructor|]. by intros hash ->%list_elem_of_singleton.
  - unfold counts_ok. rewrite Fc, Ft, Fb, Ha. split.
    + cbn [map]. unfold count_of. by rewrite lookup_singleton_eq.
    + cbn. unfold sat_add. f_equal. lia.
Qed.

(** ** Histories *)

(** What the node is asked to do.  The fuel of a block bounds the nesting of
    arrivals; it may be any number. *)
Inductive Operation :=
| Submit (fuel : nat) (b : Block)
| FromPeer (fuel : nat) (b : Block)
| Headers (hds : list Header)
| Invalidate (hash : bytes)
| Reconsider (hash : bytes)
| Precious (hash : bytes).

Definition run (now : Z) (cache : gset bytes) (op : Operation) (n : Node) : Node :=
  match op with
  | Submit fuel b => (connect_block cf now cache fuel b n).1
  | FromPeer fuel b => (receive_peer_block cf now cache fuel b n).1
  | Headers hds => set_chain (accept_headers_internal cf now hds (chain n)).1 n
  | Invalidate hash => (invalidate_block cf now cache hash n).1
  | Reconsider hash => (reconsider_block cf now cache hash n).1
  | Precious hash => (precious_block cf now cache hash n).1
  end.

(** Bodies are those their hashes commit to; the header of a peer's block was
    accepted before its body; marks are lifted from stored bodies that passed
    their checks. *)
Definition admissible (now : Z) (op : Operation) (n : Node) : Prop :=
  match op with
  | Submit _ b => genuine b
  | FromPeer _ b => genuine b /\ is_Some (block_index (chain n) !! block_hash b)
  | Reconsider hash =>
      forall h b, bodies n !! h = Some b -> h <> g -> h ∈ reconsidered (chain n) hash -> body_ok cf now (chain n) b
  | _ => True
  end.

Inductive running : Z -> Node -> Prop :=
| run_fresh now : running now fresh_node
| run_step now now' cache op n : running now n -> now <= now' -> admissible now' op n -> running now' (run now' cache op n).

Lemma receive_grows now cache fuel b n : grows n (receive_peer_block cf now cache fuel b n).1.
Proof.
  unfold receive_peer_block. pose proof (growing_from_peer cf now cache fuel b n) as Hg.
  destruct (connect_block_from_peer _ _ _ _ _ _) as [n1 [t|e]]; [exact Hg|]. cbn [fst] in *. transitivity n1; [done|].
  destruct (should_mark_block_invalid e); [apply mark_grows|done].
Qed.

Lemma best_grows now cache n :
  grows n (match best_valid_tip_hash (chain n) with
           | None => (n, Err Bail)
           | Some best => if bool_decide (best = best_hash (chain n)) then (n, Ok ()) else activate_chain cf now cache best n end).1.
Proof. destruct (best_valid_tip_hash _); [|done]. destruct (bool_decide _); [done|apply growing_activate]. Qed.

Lemma run_grows now cache op n : grows n (run now cache op n).
Proof.
  destruct op as [fuel b|fuel b|hds|hash|hash|hash]; cbn [run].
  - apply growing_driver.
  - apply receive_grows.
  - by eapply accept_headers_wider.
  - unfold invalidate_block. destruct (block_index _ !! _); [|done]. destruct (_ =? 0); [done|].
    apply growing_bind; [intros n0; by apply wider_eq|]. intros _. apply growing_bind; [intros n0; apply best_grows|intros _; apply growing_tip].
  - unfold reconsider_block. destruct (block_index _ !! _); [|done]. apply growing_bind; [intros n0; by apply wider_eq|]. intros _.
    apply growing_bind; [|intros _; apply growing_tip]. intros n0. destruct (best_valid_tip_hash _); [|done].
    destruct (bool_decide _); [done|apply growing_activate].
  - unfold precious_block. destruct (block_index _ !! _); [|done]. destruct (tip n) as [t|]; [|done]. destruct (_ <? _); [done|]. cbn zeta.
    set (n1 := set_status _ _). transitivity n1; [by apply wider_eq|].
    apply growing_bind; [intros n0; apply best_grows|intros _; apply growing_tip].
Qed.

Lemma node_later now now' n : now <= now' -> node_ok now n -> node_ok now' n.
Proof. intros Hle [H1 H2 H3 H4 H5]. split; try done. by apply (core_later cf net body_of now). Qed.

Lemma run_keeps now cache op n : node_ok now n -> admissible now op n -> small (run now cache op n) -> node_ok now (run now cache op n).
Proof.
  intros Hn Ha Hs. destruct op as [fuel b|fuel b|hds|hash|hash|hash]; cbn [run admissible] in *.
  - by apply connect_block_keeps.
  - destruct Ha. by apply receive_keeps.
  - by apply headers_keep.
  - by apply invalidate_keeps.
  - by apply reconsider_keeps.
  - by apply precious_keeps.
Qed.

Hypothesis genesis_ok : genuine (cf_genesis cf) /\ zlen (txdata (cf_genesis cf)) <= umax 64.

Lemma running_ok now n : running now n -> small n -> node_ok now n.
Proof.
  induction 1 as [now|now now' cache op n Hr IH Hle Ha]; intros Hs; [apply fresh_ok; apply genesis_ok|].
  apply run_keeps; [|done|done]. apply (node_later now); [done|]. apply IH. by apply (small_before n _ (run_grows now' cache op n)).
Qed.



(** ** Candidates *)

(** All ancestors of a block are stored. *)
Definition stored_below (n : Node) (hash : bytes) : Prop :=
  forall k a, nth_parent (block_index (chain n)) k hash = Some a -> a ∈ store (chain n).

Lemma active_below now n i hash : node_ok now n -> active_chain (chain n) !! i = Some hash -> stored_below n hash.
Proof.
  intros Hn Ha k. revert i hash Ha. pose proof (co_chain _ _ _ _ _ (no_core _ _ _ _ _ Hn)) as Hok.
  induction k as [|k IH]; intros i hash Ha a; cbn [nth_parent]; intros (node & En & E)%bind_Some.
  - injection E as <-. rewrite (co_store _ _ _ _ _ (no_core _ _ _ _ _ Hn)). apply elem_of_dom.
    apply (replays_stored cf net body_of now n _ _ (no_core _ _ _ _ _ Hn) (lv_replays _ _ _ _ (no_live _ _ _ _ _ Hn))).
    apply list_elem_of_lookup. by eexists.
  - destruct (wf_active _ (ck_wf _ _ _ Hok) _ _ Ha) as (node' & En' & Hh & _ & Hp). rewrite En in En'. injection En' as <-.
    destruct i as [|i]; [|by apply (IH i _ (Hp i eq_refl))].
    rewrite (genesis_first cf net _ Hok) in Ha. injection Ha as <-. rewrite (ck_genesis _ _ _ Hok) in En. injection En as <-.
    exfalso. destruct k; cbn [nth_parent] in E; apply bind_Some in E as (pn & Epn & _);
      by apply (law_genesis (cf:=cf) (net:=net) (ChainIndex.header pn)), (ck_hash _ _ _ Hok).
Qed.

Lemma missing_stored now n hash node :
  node_ok now n -> block_index (chain n) !! hash = Some node ->
  candidate_chain_has_missing_body (chain n) hash = false <-> stored_below n hash.
Proof.
  intros Hn. pose proof (co_chain _ _ _ _ _ (no_core _ _ _ _ _ Hn)) as Hok. pose proof (ck_wf _ _ _ Hok) as Hwf.
  remember (Z.to_nat (ChainIndex.height node)) as k eqn:Ek. revert hash node Ek.
  induction k as [|k IH]; intros hash node Ek En; rewrite (has_missing_body_step (chain n) Hwf hash node En).
  all: destruct (is_active_block (chain n) hash) eqn:Ea; cbn [negb andb].
  1,3: split; [intros _|done]; unfold is_active_block, active_at in Ea; rewrite En in Ea; apply bool_decide_eq_true in Ea; by apply (active_below now n _ _ Hn Ea).
  { pose proof (wf_height _ Hwf _ _ En). rewrite (genesis_active (chain n) Hwf hash node En) in Ea by lia. done. }
  destruct (wf_child _ Hwf _ _ En) as (parent & Ep & Hc); [lia|]. pose proof (child_height _ _ _ Hc). pose proof (wf_height _ Hwf _ _ Ep).
  rewrite orb_false_iff, negb_false_iff, bool_decide_eq_true, (IH _ parent ltac:(lia) Ep). split.
  - intros [Hst Hp] [|j] a; cbn [nth_parent]; rewrite En; cbn [mbind option_bind]; [by intros [= <-]|apply Hp].
  - intros Hb. split; [apply (Hb 0%nat); cbn [nth_parent]; by rewrite En|]. intros j a Hj. apply (Hb (S j)). cbn [nth_parent]. by rewrite En.
Qed.

(** Activation does not change the candidates. *)
Lemma candidate_kept now n n' hash node :
  node_ok now n -> node_ok now n' -> kept n n' -> tip_candidate (chain n') hash node -> tip_candidate (chain n) hash node.
Proof.
  intros Hn Hn' [K1 K2 K3 _] (En & Hv & Hm). rewrite K1 in En. split; [done|]. split.
  - by rewrite <- (invalid_ancestor_fun (chain n) (chain n')).
  - apply (missing_stored now n hash node Hn En). rewrite <- K1 in En. apply (missing_stored now n' hash node Hn' En) in Hm.
    intros k a Hk. rewrite (co_store _ _ _ _ _ (no_core _ _ _ _ _ Hn)), <- K3, <- (co_store _ _ _ _ _ (no_core _ _ _ _ _ Hn')).
    apply (Hm k). by rewrite K1.
Qed.

(** The best candidate is the tip afterwards. *)
Lemma activate_best_spec now cache n n' :
  node_ok now n -> small n ->
  (match best_valid_tip_hash (chain n) with
   | None => (n, Err Bail)
   | Some best => if bool_decide (best = best_hash (chain n)) then (n, Ok ()) else activate_chain cf now cache best n
   end) = (n', Ok ()) ->
  node_ok now n' /\ kept n n' /\ (forall h, h ∈ active_chain (chain n') -> h ∉ invalid_blocks (chain n')) /\
  exists node, block_index (chain n') !! best_hash (chain n') = Some node /\
    forall h node', tip_candidate (chain n') h node' -> chain_work node' <= chain_work node.
Proof.
  intros Hn Hs. pose proof (co_chain _ _ _ _ _ (no_core _ _ _ _ _ Hn)) as Hok.
  destruct (best_valid_tip_hash (chain n)) as [best|] eqn:Eb; [|done].
  destruct (best_valid_tip_wf (chain n) (ck_wf _ _ _ Hok)) as [Hbest _]. destruct (Hbest _ Eb) as (node & (En & Hv & _) & Hmax).
  intros E. assert (Hend : node_ok now n' /\ kept n n' /\ list.last (active_chain (chain n')) = Some best).
  { case_bool_decide as Hd.
    - injection E as <-. split; [done|]. split; [by split|]. destruct (tip_indexed cf net _ Hok) as (_ & Hl & _). by rewrite Hd.
    - pose proof (activate_spec cf net body_of now cache n best Hn Hs) as Ha. rewrite E in Ha. destruct Ha as (? & ? & ?). done. }
  destruct Hend as (Hn' & Hk & Hl). pose proof (co_chain _ _ _ _ _ (no_core _ _ _ _ _ Hn')) as Hok'.
  split; [done|]. split; [done|]. split.
  - apply (linked_valid cf net (chain n') _ best Hok'); [by apply (active_linked cf net)|done|].
    rewrite (invalid_ancestor_fun (chain n)); [done|apply Hk|apply Hk].
  - exists node. unfold best_hash. rewrite Hl. cbn [from_option id]. rewrite (kp_index _ _ Hk). split; [done|].
    intros h node' Hc. apply (Hmax h). by apply (candidate_kept now n n').
Qed.

(** C16: [invalidateblock] takes effect.  When it succeeds, the block is not on
    the active chain, nothing on the active chain is marked invalid, and the
    tip has the most work of the blocks that could be the tip. *)
Theorem invalidate_deactivates now cache n hash n' t :
  running now n -> small n' -> invalidate_block cf now cache hash n = (n', Ok t) ->
  (hash ∉ active_chain (chain n')) /\
  (forall h, h ∈ active_chain (chain n') -> h ∉ invalid_blocks (chain n')) /\
  tip_hash t = best_hash (chain n') /\
  (forall h node, tip_candidate (chain n') h node -> chain_work node <= tip_work t).
Proof.
  intros Hr Hs E. pose proof (run_grows now cache (Invalidate hash) n) as Hg. cbn [run] in Hg. rewrite E in Hg. cbn [fst] in Hg.
  pose proof (small_before n n' Hg Hs) as Hs0. pose proof (running_ok now n Hr Hs0) as Hn. revert E. unfold invalidate_block.
  destruct (block_index (chain n) !! hash) as [node0|] eqn:E0; [|done]. destruct (_ =? 0); [done|]. rewrite bind_modify.
  set (n1 := on_chain _ n). rewrite bind_run.
  assert (Hin : hash ∈ invalid_blocks (chain n1)).
  { cbn [n1 on_chain set_chain chain set_best_header set_invalid invalid_blocks]. apply elem_of_union_r, elem_of_filter.
    split; [|apply elem_of_dom; by eexists]. unfold is_descendant_or_self, walk_fuel. rewrite E0. cbn [descendant_loop]. by rewrite bool_decide_true. }
  assert (Hn1 : node_ok now n1).
  { apply (invalid_ok cf net body_of now n); [done|set_solver|]. intros h [H|H]%elem_of_union; [by left|right].
    apply elem_of_filter in H as [_ H]. by apply elem_of_dom. }
  destruct (match best_valid_tip_hash (chain n1) with Some _ => _ | None => _ end) as [n2 [[]|e]] eqn:E2; [|done].
  destruct (activate_best_spec now cache n1 n2 Hn1 Hs0 E2) as (Hn2 & Hk & Hvalid & node & En & Hmax).
  unfold get_tip, tip. rewrite En. cbn [ok_or rbind]. intros [= <- <-]. cbn [tip_hash tip_work].
  split; [|done]. intros Ha. apply (Hvalid hash Ha). by rewrite (kp_invalid _ _ Hk).
Qed.

(** ** A valid block on the tip *)

Lemma check_transactions_retain cache c b h u mtp a retain :
  (check_transactions cf cache c b h u mtp true).2 = Ok a -> exists a', (check_transactions cf cache c b h u mtp retain).2 = Ok a'.
Proof.
  destruct retain; [by eexists|]. unfold check_transactions. destruct (should_skip_script_checks cf c (block_hash b) h) as [c1 skip]. cbn [snd].
  rewrite validate_retention. intros ->. by eexists.
Qed.

(** The checks of a block on the tip suffice to connect it. *)
Lemma connect_valid now cache n b parent mtp a sync :
  node_ok now n -> small n -> genuine b -> block_hash b ∉ invalid_blocks (chain n) ->
  prev_blockhash (blk_header b) = best_hash (chain n) -> block_index (chain n) !! best_hash (chain n) = Some parent ->
  side_checks cf now (chain n) b parent = Ok () ->
  median_time_past_for_parent (chain n) (prev_blockhash (blk_header b)) = Some mtp ->
  (check_transactions cf cache (chain n) b (ChainIndex.height parent + 1) (db_coins (utxo_store n)) mtp true).2 = Ok a ->
  exists n' ess u', connect_block_internal_impl cf now cache b true sync n = (n', Ok ()) /\
    connect_result cf net body_of now n n' b true u' /\
    ledger_block (ChainIndex.height parent + 1) mtp b (db_coins (utxo_store n)) = Some (ess, u').
Proof.
  intros Hn Hs Hg Hv Hp En Hside Hmtp Hct. pose proof (no_core _ _ _ _ _ Hn) as Hcore. pose proof (co_chain _ _ _ _ _ Hcore) as Hok.
  destruct (tip_indexed cf net _ Hok) as (node & Hl & En' & Hh). rewrite En in En'. injection En' as <-.
  pose proof (parent_fits cf net body_of now n _ _ Hcore Hs En) as Hmax.
  set (retain := negb (bool_decide (is_Some (undos n !! block_hash b))) || (true && sync && negb (bool_decide (block_hash b ∈ chainstate_store n)))).
  destruct (check_transactions_retain cache _ _ _ _ _ _ retain Hct) as [a' Ha].
  destruct (check_transactions cf cache (chain n) b (ChainIndex.height parent + 1) (db_coins (utxo_store n)) mtp retain) as [c r] eqn:Ect.
  cbn [snd] in Ha. subst r. destruct (check_transactions_view cf cache _ _ _ _ _ _ _ _ Ect) as [Hview [bh ->]].
  rewrite <- Hp in En, Hl. set (h := ChainIndex.height parent + 1) in *.
  assert (Hhh : h = Z.of_nat (length (active_chain (chain n))) /\ h = ChainIndex.height parent + 1) by (unfold h; lia).
  destruct (check_transactions_accepted cf net cache (chain n) b h (db_coins (utxo_store n)) mtp retain a') as (ess & u' & Hacc);
    [done|by rewrite Ect|by apply (structure_ok cf now n b h parent)|apply Hg| |].
  { intros o e He. apply (replays_coins cf net _ _ _ _ (lv_replays _ _ _ _ (no_live _ _ _ _ _ Hn))) in He. lia. }
  pose proof (connect_checks_spec cf net now (chain n) b Hok) as Hck.
  destruct (connect_checks cf now (chain n) b) as [[h' mtp']|e] eqn:Eck; [|by destruct (Hck parent Hl En)].
  destruct Hck as (parent' & _ & Ep' & _ & Hh' & _ & Hm'). rewrite En in Ep'. injection Ep' as <-. rewrite Hmtp in Hm'. injection Hm' as <-.
  assert (h' = h) as -> by (rewrite Hh'; unfold sat_add, h; lia).
  destruct (connect_runs cf net body_of now cache n b true sync (db_coins (utxo_store n)) h mtp parent) with (bh := bh) (a := a') (ess := ess) (u' := u')
    as (n' & Hrun & Hres); try done; try apply Hn.
  - intros _. split; [done|apply Hn].
  - intros _. by apply (accepted_fits cf net body_of now cache n b true sync (db_coins (utxo_store n)) h mtp Hcore (no_live _ _ _ _ _ Hn) Hg a' ess u' Hacc).
  - exists n', ess, u'. split; [done|]. split; [done|]. destruct (ab_connects _ _ _ _ _ _ _ _ _ _ Hacc) as [entries Hc]. apply (cn_ledger _ _ _ _ _ _ _ _ Hc).
Qed.

(** A block on the tip is not on the active chain yet, and when it is stored
    the index knows its header. *)
Lemma fresh_on_tip now n (b : Block) (parent : BlockNode) :
  node_ok now n -> prev_blockhash (blk_header b) = best_hash (chain n) -> block_index (chain n) !! best_hash (chain n) = Some parent ->
  is_active_block (chain n) (block_hash b) = false /\
  (forall node, block_index (chain n) !! block_hash b = Some node -> ChainIndex.header node = blk_header b).
Proof.
  intros Hn Hp En. pose proof (co_chain _ _ _ _ _ (no_core _ _ _ _ _ Hn)) as Hok.
  destruct (header_known cf net (chain n) (blk_header b) parent Hok) as [Hknown Hne]; [by rewrite Hp|].
  rewrite <- (law_block_hash (cf:=cf) (net:=net)) in Hknown, Hne. split; [|intros node E; by apply Hknown].
  unfold is_active_block, active_at. destruct (block_index (chain n) !! block_hash b) as [node|] eqn:Eb; [|done]. apply bool_decide_eq_false. intros Ha.
  destruct (known_node (chain n) (block_hash b) (blk_header b) parent (ck_wf _ _ _ Hok) Hknown) as [E|E]; [by rewrite Hp|congruence|].
  rewrite Eb in E. injection E as ->. cbn in Ha. apply lookup_lt_Some in Ha. destruct (tip_indexed cf net _ Hok) as (tn & _ & Etn & Hh).
  rewrite En in Etn. injection Etn as <-. lia.
Qed.

Lemma accept_connects now cache n b parent n1 :
  node_ok now n -> prev_blockhash (blk_header b) = best_hash (chain n) -> block_index (chain n) !! best_hash (chain n) = Some parent ->
  has_invalid_ancestor (chain n) (block_hash b) = false -> has_invalid_ancestor (chain n) (best_hash (chain n)) = false ->
  connect_block_internal_impl cf now cache b true true n = (n1, Ok ()) ->
  accept_body cf now cache b false false true n = (n1, Ok (Continue (block_hash b) false true)).
Proof.
  intros Hn Hp En Hv Hvp Hrun. pose proof (no_core _ _ _ _ _ Hn) as Hcore. destruct (fresh_on_tip now n b parent Hn Hp En) as [Hact Hhead].
  unfold accept_body. rewrite Hv, Hact.
  assert (Hst : bool_decide (block_hash b ∈ store (chain n)) && negb false && negb (match block_index (chain n) !! block_hash b with
      Some node => bool_decide (prev_blockhash (ChainIndex.header node) = best_hash (chain n)) | None => false end) = false).
  { case_bool_decide as Hin; [|done]. rewrite (co_store _ _ _ _ _ Hcore) in Hin. apply elem_of_dom in Hin as [b0 Hb0].
    destruct (co_bodies _ _ _ _ _ Hcore _ _ Hb0) as (_ & _ & [node Enode]). rewrite Enode, (Hhead node Enode), bool_decide_true by done. done. }
  rewrite Hst, Hp, En, Hvp, bool_decide_true by done. unfold accept_on_tip. by rewrite Hrun.
Qed.

(** With no body waiting for the block there is nothing else to connect. *)
Lemma settles_alone now cache fuel n b :
  pending_body_children (intake n) !! block_hash b = None ->
  exists n', connect_known_children (known_children_loop cf now cache (S (S fuel)) [block_hash b] {[block_hash b]} true false) n = (n', Ok ()) /\
    chain n' = chain n /\ utxo_store n' = utxo_store n.
Proof.
  intros Hpend. unfold connect_known_children. destruct (processing_known_children (intake n)); [by exists n|]. rewrite known_children_eq. unfold known_parent.
  cbn [on_intake set_intake intake set_processing pending_body_children]. rewrite Hpend. by eexists.
Qed.


(** ** The set at a block off the tip *)

Lemma backwards_disconnect n hashes u d u0 :
  gather_disconnected n hashes = Some d -> disconnect_all d u = Ok u0 -> backwards_loop n hashes u = Ok (Some u0).
Proof.
  revert u d. induction hashes as [|hash hashes IH]; intros u d; cbn [gather_disconnected backwards_loop].
  - intros [= <-] [= <-]. done.
  - intros (b & Hb & E)%bind_Some. apply bind_Some in E as (x & Hx & E). apply bind_Some in E as (rest & Hrest & [= <-]). rewrite Hb, Hx.
    cbn [disconnect_all]. destruct (disconnect_block_from_utxos u b x) as [u1|]; [|done]. cbn [rbind]. by apply IH.
Qed.

Lemma replays_same c c' bs l u : chain_ok c -> chain_ok c' -> block_index c' = block_index c -> replays cf net c bs l u -> replays cf net c' bs l u.
Proof.
  intros Hok Hok' Hi. apply (replays_ext cf net c c' bs bs); [done| |done].
  split; [apply Hok|apply Hok'|by rewrite Hi|]. by rewrite (ck_network _ _ _ Hok), (ck_network _ _ _ Hok').
Qed.

Lemma forwards_replays now cache n hashes l u n' u' :
  node_ok now n -> linked (chain n) (l ++ hashes) -> replays cf net (chain n) (bodies n) l u ->
  forwards_loop cf now cache n hashes u = (n', Ok (Some u')) -> replays cf net (chain n) (bodies n) (l ++ hashes) u'.
Proof.
  revert n l u. induction hashes as [|hash hashes IH]; intros n l u Hn Hl Hr; cbn [forwards_loop]; [intros [= _ <-]; by rewrite app_nil_r|].
  pose proof (no_core _ _ _ _ _ Hn) as Hcore. pose proof (co_chain _ _ _ _ _ Hcore) as Hok.
  destruct (bodies n !! hash) as [b|] eqn:Eb; [|done]. destruct (co_bodies _ _ _ _ _ Hcore _ _ Eb) as (<- & Hg & _).
  destruct (Hl (length l) (block_hash b)) as (node & En & Hh & Hp); [by apply list_lookup_middle|]. rewrite En. cbn [ok_or rbind].
  destruct (rbind _ _) as [[h mtp]|e] eqn:Ec; [|done].
  assert (Hhm : h = ChainIndex.height node /\ median_time_past_for_parent (chain n) (prev_blockhash (blk_header b)) = Some mtp /\
    validate_block_structure cf b h = Ok ()).
  { apply rbind_Ok in Ec as (p & _ & Ec). apply rbind_Ok in Ec as (? & _ & Ec). apply rbind_Ok in Ec as (? & _ & Ec). apply rbind_Ok in Ec as ([] & Hst & Ec).
    apply rbind_Ok in Ec as (m & Hm & [= <- <-]). destruct (median_time_past_for_parent _ _); [|done]. cbn in Hm. injection Hm as ->. done. }
  destruct Hhm as (-> & Hmtp & Hst). destruct (check_transactions cf cache (chain n) b (ChainIndex.height node) u mtp true) as [c r] eqn:Ect.
  destruct (check_transactions_view cf cache _ _ _ _ _ _ _ _ Ect) as [_ [bh ->]]. destruct r as [a|]; [|done].
  change (set_chain (set_best_header bh (chain n)) n) with (touch bh n). intros E.
  destruct (check_transactions_accepted cf net cache (chain n) b (ChainIndex.height node) u mtp true a) as (ess & u1 & Hacc);
    [done|by rewrite Ect|done|apply Hg| |].
  { intros o x Hx. apply (replays_coins cf net _ _ _ _ Hr) in Hx. lia. }
  rewrite (ab_apply _ _ _ _ _ _ _ _ _ _ Hacc eq_refl) in E.
  assert (Hhd : ChainIndex.header node = blk_header b).
  { apply (law_header_hash (cf:=cf) (net:=net)). rewrite (ck_hash _ _ _ Hok _ _ En). apply law_block_hash. }
  assert (Hr1 : replays cf net (chain n) (bodies n) (l ++ [block_hash b]) u1).
  { apply (replays_next _ _ _ _ l u b mtp ess); [done| |].
    - rewrite last_lookup. pose proof (replays_length cf net _ _ _ _ Hr) as Hlen. specialize (Hp (pred (length l)) ltac:(lia)).
      rewrite lookup_app_l in Hp by lia. by rewrite Hp, Hhd.
    - split; [done|by exists node|done|apply Hg|apply Hacc|apply Hacc|]. rewrite <- Hh. apply Hacc. }
  assert (Hok1 : chain_ok (chain (touch bh n))) by (by apply (chain_ok_view cf net)).
  rewrite (cons_middle (block_hash b)), app_assoc. apply (replays_same (chain (touch bh n))); [done|done|done|].
  apply (IH (touch bh n) (l ++ [block_hash b]) u1); [by apply node_touch| | |exact E].
  - rewrite <- app_assoc. by apply (linked_same (chain n)).
  - by apply (replays_same (chain n)).
Qed.

Lemma path_of_linked c l hash : chain_ok c -> linked c l -> list.last l = Some hash -> candidate_path cf c hash = Some l.
Proof.
  intros Hok Hl Hlast. rewrite last_lookup in Hlast. destruct (Hl _ _ Hlast) as (node & En & Hh & _).
  destruct (candidate_path_total cf net c hash node Hok En) as [path Ep]. destruct (candidate_path_spec cf net _ _ _ Hok Ep) as (Hl' & Hlast' & _).
  rewrite Ep. f_equal. rewrite last_lookup in Hlast'. destruct (Hl' _ _ Hlast') as (node' & En' & Hh' & _). rewrite En in En'. injection En' as <-.
  assert (Heq : pred (length path) = pred (length l)) by lia. rewrite Heq in Hlast'.
  pose proof (linked_prefix c path l _ _ Hl' Hl Hlast' Hlast) as Hpre. pose proof (lookup_lt_Some _ _ _ Hlast). pose proof (lookup_lt_Some _ _ _ Hlast').
  by rewrite !take_ge in Hpre by lia.
Qed.

(** C17: The set of unspent outputs at any block.  What the node computes to
    validate a block off the tip, by taking active blocks back from the tip or
    by replaying the stored branch from the genesis block, is the ledger run
    over the path of that block. *)
Theorem side_set_is_ledger now cache n hash n' u :
  running now n -> small n -> utxos_for_block cf now cache hash n = (n', Ok (Some u)) ->
  exists path, candidate_path cf (chain n) hash = Some path /\
    ledger_path (chain n) (bodies n) 1 (tail path) ∅ = Some u /\ utxo_total u <= subsidies net (length path - 1).
Proof.
  intros Hrun Hs E. pose proof (running_ok now n Hrun Hs) as Hn. pose proof (no_core _ _ _ _ _ Hn) as Hcore. pose proof (co_chain _ _ _ _ _ Hcore) as Hok.
  enough (H : exists l, linked (chain n) l /\ list.last l = Some hash /\ replays cf net (chain n) (bodies n) l u).
  { destruct H as (l & Hl & Hlast & Hr). exists l. split; [by apply path_of_linked|by apply (replays_ledger cf)]. }
  assert (Hcur : replays cf net (chain n) (bodies n) (active_chain (chain n)) (current_utxos n)).
  { unfold current_utxos. destruct (utxos_materialized n) eqn:Em; [rewrite (no_resident _ _ _ _ _ Hn Em)|]; apply Hn. }
  pose proof (active_linked cf net _ Hok) as Hla. revert E. unfold utxos_for_block. case_bool_decide as Hb.
  { intros [= _ <-]. destruct (tip_indexed cf net _ Hok) as (_ & Hlast & _). exists (active_chain (chain n)). by rewrite Hb. }
  destruct (replay_active_utxos_backwards n hash) as [[u0|]|] eqn:Eb; [|clear Eb|done].
  - intros [= _ <-]. revert Eb. unfold replay_active_utxos_backwards. destruct (is_active_block (chain n) hash) eqn:Ea; [|done]. cbn [negb].
    unfold is_active_block, active_at in Ea. destruct (block_index (chain n) !! hash) as [node|] eqn:En; [|done]. apply bool_decide_eq_true in Ea.
    cbn [ok_or rbind]. destruct (wf_active _ (ck_wf _ _ _ Hok) _ _ Ea) as (node' & En' & Hh & _). rewrite En in En'. injection En' as <-.
    set (k := Z.to_nat (ChainIndex.height node)) in *. pose proof (lookup_lt_Some _ _ _ Ea) as Hlt.
    destruct (tip_indexed cf net _ Hok) as (tn & Hlast & _ & Hth).
    destruct (Z.leb_spec (tip_height (chain n)) (ChainIndex.height node)) as [Hle|Hgt].
    + intros [= <-]. exists (active_chain (chain n)). split; [done|]. split; [|done]. rewrite last_lookup.
      unfold tip_height, sat_sub in Hle. replace (pred (length (active_chain (chain n)))) with k by lia. done.
    + destruct (existsb _ _); [done|].
      destruct (disconnect_to_common cf net body_of now n _ _ k Hcore Hcur (lv_undo _ _ _ _ (no_live _ _ _ _ _ Hn)) Hlt) as (d & u1 & Hd & Hdis & Hr).
      rewrite (backwards_disconnect n _ _ d u1 Hd Hdis). intros [= <-]. exists (take (S k) (active_chain (chain n))). split; [by apply linked_take|].
      split; [|done]. rewrite last_lookup, length_take, lookup_take_lt by lia. by replace (pred (S k `min` length (active_chain (chain n)))) with k by lia.
  - destruct (candidate_path cf (chain n) hash) as [path|] eqn:Ep; [|done]. destruct (candidate_path_spec cf net _ _ _ Hok Ep) as (Hl & Hlast & Hg).
    destruct (bodies n !! hd [] path) as [x|]; [|done]. intros E. exists path. split; [done|]. split; [done|].
    destruct path as [|p path]; [done|]. cbn in Hg. injection Hg as ->. cbn [tail] in E.
    apply (forwards_replays now cache n path [g] ∅ n' u Hn); [done|constructor|done].
Qed.
End Theorems.
