(* ===== verification/ChainExamples.v ===== *)
(** * The chain manager on small histories

    A concrete node: a reorganisation with bodies out of order, and the
    command that leaves the chainstate torn. *)

From Stdlib Require Import ZArith Lia.
From stdpp Require Import base list option gmap sets sorting strings.
From S2P Require Import Prelude Types VersionBits ChainIndex BlockChecks UtxoCodec ConnectBlock Ledger HeaderChecks ChainManager ChainReplay ChainInvariant ChainConnect ChainActivate ChainIntake ChainTheorems.
Local Open Scope Z_scope.

(** ** Injective hashes *)

Definition enc_outpoint (o : OutPoint) : bytes := zlen (txid o) :: vout o :: txid o.
Definition enc_inputs (l : list OutPoint) : bytes := zlen l :: concat (map enc_outpoint l).
Definition enc_tx (t : Transaction) : bytes :=
  enc_inputs (tx_inputs t) ++ concat (map script_sig (tx_input t)) ++ [zlen (tx_output t)].
Definition enc_header (hd : Header) : bytes :=
  [hd_version hd; hd_time hd; hd_bits hd; hd_nonce hd; zlen (prev_blockhash hd)] ++ prev_blockhash hd ++ merkle_root hd.

Lemma app_zlen_inj (a b c d : bytes) : zlen a = zlen b -> a ++ c = b ++ d -> a = b /\ c = d.
Proof. unfold zlen. intros Hl. apply app_inj_1. lia. Qed.

Lemma enc_header_inj a b : enc_header a = enc_header b -> a = b.
Proof.
  destruct a, b. unfold enc_header. cbn. intros [= -> -> -> -> Hl H]. apply app_zlen_inj in H as [-> ->]; [done|done].
Qed.

Lemma enc_list_inj (l l' : list OutPoint) (r r' : bytes) :
  length l = length l' -> concat (map enc_outpoint l) ++ r = concat (map enc_outpoint l') ++ r' -> l = l'.
Proof.
  revert l' r r'. induction l as [|[i v] l IH]; intros [|[i' v'] l'] r r'; try done. cbn. intros [= Hl] [= Hi -> H].
  rewrite <- !app_assoc in H. apply app_zlen_inj in H as [-> H]; [|done]. f_equal. by apply (IH l' r r').
Qed.

Lemma enc_tx_inputs t t' : enc_tx t = enc_tx t' -> tx_inputs t = tx_inputs t'.
Proof.
  unfold enc_tx, enc_inputs. cbn. intros [= Hl H]. eapply enc_list_inj; [|exact H]. unfold zlen in Hl. lia.
Qed.

Definition chain_bitcoin : BitcoinOps := {|
  sha256d b := repeat (from_le b mod 251) 32;
  block_hash b := enc_header (blk_header b);
  signet_genesis_hash := [];
  compute_txid := enc_tx;
  base_size t := 60 + 9 * zlen (tx_output t);
  is_coinbase t := match tx_inputs t with [o] => vout o =? 0xffffffff | _ => false end;
  is_null o := vout o =? 0xffffffff;
  null_outpoint := {| txid := []; vout := 0xffffffff |};
  is_lock_time_enabled t := false;
  is_relative_lock_time s := negb (Z.testbit s 31);
  is_height_locked s := negb (Z.testbit s 31) && negb (Z.testbit s 22);
  count_sigops_legacy s := zlen (List.filter (fun b => b =? 0xac) s);
  header_size _ := 80;
  varint_size _ := 1;
  block_weight b := 4 * (81 + 60 * zlen (txdata b));
  witness_root _ := None;
  compute_witness_commitment root nonce := root ++ nonce;
  push_int n := [1; n];
  push_slice d := zlen d :: d;
  instructions _ := [];
  calculate_root l := list.head l;
  script_partial _ := Err tt;
  witness_partial _ := Err tt;
  serialize_transaction _ := [];
  verify_with_flags _ _ _ _ _ _ := false |}.

Definition chain_pow : PowOps := {| header_hash := enc_header; is_met_by _ _ := true; to_compact_lossy t := t |}.

#[local] Existing Instances chain_bitcoin toy_headers toy_scripts chain_pow.

(** ** Blocks with a coinbase transaction only *)

Definition mined (h : Z) : Transaction :=
  {| tx_version := 1; tx_lock_time := 0;
     tx_input := [{| previous_output := {| txid := []; vout := 0xffffffff |}; script_sig := [1; h; 0]; sequence := 0xffffffff; witness := [] |}];
     tx_output := [{| value := 5000000000; script_pubkey := [0x51] |}] |}.
Definition block_on (prev : bytes) (h time : Z) : Block :=
  {| blk_header := {| hd_version := 4; prev_blockhash := prev; merkle_root := enc_tx (mined h); hd_time := time; hd_bits := 1; hd_nonce := 0 |};
     txdata := [mined h] |}.

Definition block0 : Block := block_on [] 0 1.
Definition block1 : Block := block_on (block_hash block0) 1 2.
Definition block2 : Block := block_on (block_hash block1) 2 3.
Definition side2 : Block := block_on (block_hash block1) 2 4.
Definition side3 : Block := block_on (block_hash side2) 3 5.
(** The coinbase script names the wrong height. *)
Definition wrong2 : Block := block_on (block_hash block1) 9 6.

Definition example_blocks : list Block := [block0; block1; block2; side2; side3; wrong2].
Definition example_body (hash : bytes) : Block :=
  default block0 (List.find (fun b => bool_decide (block_hash b = hash)) example_blocks).

Definition example_config : Config :=
  {| cf_params := for_network Regtest; cf_signet_challenge := None; cf_software_expiry := 0; cf_assume_valid := None;
     cf_minimum_chain_work := 0; cf_max_tip_age_secs := 100; cf_genesis := block0 |}.

Lemma example_laws : ChainLaws example_config Regtest.
Proof.
  split.
  - apply enc_header_inj.
  - done.
  - apply enc_tx_inputs.
  - intros t t' H. unfold is_coinbase, chain_bitcoin. by rewrite H.
  - intros script. apply zlen_nonneg.
  - intros hd. unfold header_hash, chain_pow, enc_header. done.
  - by vm_compute.
  - done.
Qed.

Lemma example_genuine b : b ∈ example_blocks -> genuine example_config example_body b.
Proof.
  intros Hin. split.
  - unfold example_blocks in Hin. repeat apply elem_of_cons in Hin as [->|Hin]; try by apply not_elem_of_nil in Hin.
    all: split; [|split]; try (repeat constructor; unfold outputs_fit; cbn; lia). all: vm_compute; done.
  - intros h _. unfold example_blocks in Hin. repeat apply elem_of_cons in Hin as [->|Hin]; try by apply not_elem_of_nil in Hin.
    all: by vm_compute.
Qed.

Abbreviation go op n := (run example_config 1000 ∅ op n).
Definition node0 : Node := fresh_node example_config Regtest.
Definition node1 : Node := go (Submit 5 block1) node0.
Definition node2 : Node := go (Submit 5 block2) node1.
(** The branch arrives child first. *)
Definition node3 : Node := go (Headers [blk_header side2; blk_header side3]) node2.
Definition node4 : Node := go (FromPeer 5 side3) node3.
Definition node5 : Node := go (FromPeer 5 side2) node4.
Definition node6 : Node := go (Invalidate (block_hash side3)) node5.


Lemma example_indexed hash n : bool_decide (is_Some (block_index (chain n) !! hash)) = true -> is_Some (block_index (chain n) !! hash).
Proof. apply bool_decide_eq_true. Qed.

Lemma example_genesis : genuine example_config example_body (cf_genesis example_config) /\ zlen (txdata (cf_genesis example_config)) <= umax 64.
Proof. split; [apply example_genuine; left|by vm_compute]. Qed.

Abbreviation history := (running example_config Regtest example_body 1000).

Lemma history_step op n : history n -> admissible example_config example_body 1000 op n -> history (go op n).
Proof. intros Hn Ha. by apply (run_step _ _ _ 1000). Qed.

Lemma history1 : history node1.
Proof. apply history_step; [apply run_fresh|]. apply example_genuine. set_solver. Qed.
Lemma history2 : history node2.
Proof. apply history_step; [apply history1|]. apply example_genuine. set_solver. Qed.
Lemma history5 : history node5.
Proof.
  assert (H3 : history node3) by (apply history_step; [apply history2|done]).
  assert (H4 : history node4).
  { apply history_step; [done|]. split; [apply example_genuine; set_solver|]. apply example_indexed. by vm_compute. }
  apply history_step; [done|]. split; [apply example_genuine; set_solver|]. apply example_indexed. by vm_compute.
Qed.
Lemma history6 : history node6.
Proof. apply history_step; [apply history5|done]. Qed.

Lemma example_small n : (Z.of_nat (size (block_index (chain n))) <=? umax 32) = true -> small n.
Proof. apply Z.leb_le. Qed.



Lemma run_get {A} (p : Node * result ConnectError A) d : is_ok p.2 = true -> p = (p.1, Ok (res_get p.2 d)).
Proof. by destruct p as [? []]. Qed.

Definition no_tip : ChainTip := {| tip_hash := []; tip_height_of := 0; tip_work := 0 |}.
Abbreviation invalidated := (invalidate_block example_config 1000 ∅ (block_hash side3) node5).

Lemma invalidate_deactivates_witness :
  (block_hash side3 ∉ active_chain (chain invalidated.1)) /\ tip_hash (res_get invalidated.2 no_tip) = best_hash (chain invalidated.1).
Proof.
  assert (Hs : small invalidated.1) by (apply example_small; vm_compute; reflexivity).
  assert (E : invalidated = (invalidated.1, Ok (res_get invalidated.2 no_tip))) by (apply run_get; vm_compute; reflexivity).
  destruct (invalidate_deactivates example_config Regtest (laws:=example_laws) example_body example_genesis 1000 ∅ node5 (block_hash side3)
    invalidated.1 (res_get invalidated.2 no_tip) history5 Hs E) as (H1 & _ & H2 & _).
  exact (conj H1 H2).
Defined.

Definition no_application : BlockApplication :=
  {| spent_entries := []; spent_outpoints := ∅; created_entries := ∅; same_block_spent := ∅;
     metrics := {| prevout_spent_sat := 0; new_outputs_ex_coinbase_sat := 0; coinbase_sat := 0;
                   unspendable_scripts_sat := 0; unspendable_bip30_sat := 0; subsidy_sat := 0 |} |}.
Definition parent2 : BlockNode := default (genesis_node example_config) (block_index (chain node1) !! best_hash (chain node1)).
Definition mtp2 : Z := default 0 (median_time_past_for_parent (chain node1) (prev_blockhash (blk_header block2))).
Definition application2 : BlockApplication :=
  res_get (check_transactions example_config ∅ (chain node1) block2 (ChainIndex.height parent2 + 1) (db_coins (utxo_store node1)) mtp2 true).2 no_application.

Lemma default_some {A} (o : option A) (d : A) : bool_decide (is_Some o) = true -> o = Some (default d o).
Proof. destruct o; [done|]. intros H%bool_decide_eq_true. by destruct H. Qed.


Abbreviation side_set := (utxos_for_block example_config 1000 ∅ (block_hash block2) node5).
Definition set2 : coin_set := default ∅ (res_get side_set.2 None).

Lemma set_get (p : Node * result ConnectError (option coin_set)) :
  match p.2 with Ok (Some _) => true | _ => false end = true -> p = (p.1, Ok (Some (default ∅ (res_get p.2 None)))).
Proof. by destruct p as [? [[]|]]. Qed.

Lemma side_set_is_ledger_witness :
  exists path, candidate_path example_config (chain node5) (block_hash block2) = Some path /\
    ledger_path (chain node5) (bodies node5) 1 (tail path) ∅ = Some set2.
Proof.
  assert (Hs : small node5) by (apply example_small; vm_compute; reflexivity).
  assert (E : side_set = (side_set.1, Ok (Some set2))) by (apply set_get; vm_compute; reflexivity).
  destruct (side_set_is_ledger example_config Regtest (laws:=example_laws) example_body example_genesis 1000 ∅ node5 (block_hash block2)
    side_set.1 set2 history5 Hs E) as (path & H1 & H2 & _).
  exact (ex_intro _ path (conj H1 H2)).
Defined.

(** ** A torn chainstate *)

(** A peer sends a block with a wrong height in its coinbase script; it is
    kept and marked.  Then a valid block takes the height, and the operator
    asks to reconsider the first. *)
Definition torn1 : Node := go (Headers [blk_header wrong2]) node1.
Definition torn2 : Node := go (FromPeer 5 wrong2) torn1.
Definition torn3 : Node := go (Submit 5 block2) torn2.
Definition torn4 : Node := go (Reconsider (block_hash wrong2)) torn3.
Definition torn5 : Node := go (FromPeer 5 block2) torn4.

Lemma history_torn3 : history torn3.
Proof.
  assert (H1 : history torn1) by (apply history_step; [apply history1|done]).
  assert (H2 : history torn2).
  { apply history_step; [done|]. split; [apply example_genuine; set_solver|]. apply example_indexed. by vm_compute. }
  apply history_step; [done|]. apply example_genuine. set_solver.
Qed.

