(* ===== verification/Locator.v ===== *)
(** * Block locators ([chain.rs])

    The locator that a node sends with [getheaders] and [getblocks], and the
    headers and inventory that a node answers with.  The theorems follow one
    question and its answer between two nodes whose indexes may differ. *)

From Stdlib Require Import ZArith Lia.
From stdpp Require Import base list option gmap sets sorting.
From S2P Require Import Prelude Types WireMessage VersionBits ChainIndex BlockChecks ConnectBlock HeaderChecks ChainManager.
Local Open Scope Z_scope.

(** ** Asking *)

(** Each turn goes to a lower height. *)
Fixpoint locator_loop (fuel : nat) (c : ChainState) (hash : bytes) (h step : Z) (locator : list bytes) : list bytes :=
  match fuel with
  | O => locator
  | S fuel =>
      let locator := locator ++ [hash] in
      if h =? 0 then locator
      else
        let step := if 10 <? zlen locator then sat_mul 32 step 2 else step in
        let target_height := sat_sub h step in
        match ancestor_hash c hash target_height with
        | None => locator
        | Some ancestor => locator_loop fuel c ancestor target_height step locator
        end
  end.

Definition locator_from (c : ChainState) (start_hash : bytes) : option (list bytes) :=
  start ← block_index c !! start_hash;
  Some (locator_loop (S (Z.to_nat (ChainIndex.height start))) c start_hash (ChainIndex.height start) 1 []).

Definition block_locator_hashes (c : ChainState) : list bytes := default [] (locator_from c (best_hash c)).

Definition block_locator_hashes_from (c : ChainState) (start_hash : bytes) : list bytes :=
  match locator_from c start_hash with
  | Some locator => locator
  | None => block_locator_hashes c
  end.

(** ** Answering *)

Definition all_zeros : bytes := repeat 0 32.
Definition MAX_HEADERS : nat := 2000.

Definition locator_entry_height (c : ChainState) (hash : bytes) : option Z :=
  node ← block_index c !! hash;
  if active_at c (ChainIndex.height node) hash then Some (ChainIndex.height node)
  else if (tip_height c <=? ChainIndex.height node) && bool_decide (ancestor_hash c hash (tip_height c) = Some (best_hash c))
  then Some (tip_height c)
  else None.

(** [Iterator::find_map] *)
Fixpoint fork_height (c : ChainState) (locator : list bytes) : option Z :=
  match locator with
  | [] => None
  | hash :: locator =>
      match locator_entry_height c hash with
      | Some h => Some h
      | None => fork_height c locator
      end
  end.

Definition stop_index (c : ChainState) (stop_hash : bytes) : nat :=
  if bool_decide (stop_hash = all_zeros) then length (active_chain c)
  else
    match block_index c !! stop_hash with
    | Some node =>
        if active_at c (ChainIndex.height node) stop_hash then S (Z.to_nat (ChainIndex.height node))
        else length (active_chain c)
    | None => length (active_chain c)
    end.

Definition headers_after_locator (c : ChainState) (locator : list bytes) (stop_hash : bytes) : list Header :=
  if bool_decide (locator = []) then []
  else
    let start := match fork_height c locator with Some h => S (Z.to_nat h) | None => 0%nat end in
    let stop := Nat.min (stop_index c stop_hash) (length (headers c)) in
    if (stop <=? start)%nat then [] else take MAX_HEADERS (take (stop - start) (drop start (headers c))).

Section Serving.
Context {HOps : HeaderOps} {POps : PowOps}.

(** The best header of [best_header_tip]; its [expect] is [None]. *)
Definition block_request_allowed (c : ChainState) (hash : bytes) (max_age_secs : Z) : bool :=
  match block_index c !! hash with
  | None => false
  | Some node =>
      if active_at c (ChainIndex.height node) hash then true
      else if negb (bool_decide (hash ∈ store c)) then false
      else
        match best_header_tip c with
        | None => false
        | Some (_, best_node, _) =>
            let time_delta := hd_time (ChainIndex.header best_node) - hd_time (ChainIndex.header node) in
            if Z.min max_age_secs (2 ^ 63 - 1) <=? time_delta then false
            else if chain_work best_node <? chain_work node then false
            else
              let work_delta := chain_work best_node - chain_work node in
              let tip_proof := work (ChainIndex.header best_node) in
              if tip_proof =? 0 then false
              else work_delta * pow_target_spacing (ChainIndex.network c) / tip_proof <? max_age_secs
        end
  end.

Definition headers_for_getheaders (c : ChainState) (locator : list bytes) (stop_hash : bytes) (max_age_secs : Z)
  : option (list Header) :=
  if bool_decide (locator = []) then
    if bool_decide (stop_hash = all_zeros) || negb (block_request_allowed c stop_hash max_age_secs) then None
    else (fun node => [ChainIndex.header node]) <$> block_index c !! stop_hash
  else Some (headers_after_locator c locator stop_hash).

(** [Iterator::take_while] *)
Fixpoint take_while {A} (p : A -> bool) (l : list A) : list A :=
  match l with
  | [] => []
  | x :: l => if p x then x :: take_while p l else []
  end.

(** The node does not prune. *)
Definition block_hashes_after_locator_for_getblocks (c : ChainState) (locator : list bytes) (stop_hash : bytes)
    (max_blocks : nat) : list bytes :=
  map header_hash
    (take max_blocks
       (take_while (fun hd => negb (bool_decide (header_hash hd = stop_hash)) && bool_decide (header_hash hd ∈ store c))
          (headers_after_locator c locator stop_hash))).
End Serving.

(** ** The heights of a locator *)

Fixpoint locator_heights (fuel : nat) (h step n : Z) : list Z :=
  match fuel with
  | O => []
  | S fuel =>
      h :: (if h =? 0 then []
            else
              let step := if 10 <? n + 1 then sat_mul 32 step 2 else step in
              locator_heights fuel (sat_sub h step) step (n + 1))
  end.

Definition wider_step (n step : Z) : Z := if 10 <? n + 1 then sat_mul 32 step 2 else step.

Lemma wider_step_pos n step : 1 <= step -> 1 <= wider_step n step.
Proof. intros. unfold wider_step, sat_mul, umax. case_match; lia. Qed.

Lemma locator_heights_step fuel h step n :
  0 < h -> locator_heights (S fuel) h step n = h :: locator_heights fuel (sat_sub h (wider_step n step)) (wider_step n step) (n + 1).
Proof. intros H. simpl. by bfalse (h =? 0). Qed.

Lemma locator_heights_last fuel h step n :
  0 <= h -> 1 <= step -> (Z.to_nat h < fuel)%nat -> list.last (locator_heights fuel h step n) = Some 0.
Proof.
  revert h step n. induction fuel as [|fuel IH]; intros h step n Hh Hs Hf; [lia|]. destruct (Z.eq_dec h 0) as [->|Hz]; [done|].
  rewrite locator_heights_step by lia. pose proof (wider_step_pos n step Hs). specialize (IH (sat_sub h (wider_step n step)) (wider_step n step) (n + 1)).
  rewrite last_cons, IH; [done|unfold sat_sub; lia|lia|unfold sat_sub; lia].
Qed.

Lemma locator_heights_sorted fuel h step n :
  0 <= h -> 1 <= step -> StronglySorted Z.gt (locator_heights fuel h step n) /\ Forall (fun k => 0 <= k <= h) (locator_heights fuel h step n).
Proof.
  revert h step n. induction fuel as [|fuel IH]; intros h step n Hh Hs; [by split; constructor|]. destruct (Z.eq_dec h 0) as [->|Hz].
  { split; repeat constructor; lia. }
  rewrite locator_heights_step by lia. pose proof (wider_step_pos n step Hs).
  destruct (IH (sat_sub h (wider_step n step)) (wider_step n step) (n + 1)) as [H1 H2]; [unfold sat_sub; lia|lia|].
  unfold sat_sub in *. split; constructor; try done; try lia; (eapply Forall_impl; [exact H2|]; simpl; lia).
Qed.

(** From the eleventh entry on the steps double. *)
Lemma locator_heights_doubling k fuel h step n :
  10 <= n -> 1 <= step <= umax 32 -> 0 <= h <= umax 32 -> h <= 2 * step * (2 ^ Z.of_nat k - 1) -> (length (locator_heights fuel h step n) <= k + 1)%nat.
Proof.
  revert fuel h step n. induction k as [|k IH]; intros fuel h step n Hn Hs Hh Hb; (destruct fuel as [|fuel]; [simpl; lia|]);
    (destruct (Z.eq_dec h 0) as [->|Hz]; [simpl; lia|]).
  { simpl in Hb. lia. }
  rewrite locator_heights_step by lia. cbn [length].
  assert (Hw : wider_step n step = sat_mul 32 step 2) by (unfold wider_step; by btrue (10 <? n + 1)). rewrite Hw.
  enough (length (locator_heights fuel (sat_sub h (sat_mul 32 step 2)) (sat_mul 32 step 2) (n + 1)) <= k + 1)%nat by lia.
  apply IH; [lia|unfold sat_mul; lia|unfold sat_sub, sat_mul; lia|].
  rewrite Nat2Z.inj_succ, Z.pow_succ_r in Hb by lia. assert (1 <= 2 ^ Z.of_nat k) by lia.
  unfold sat_sub, sat_mul in *. destruct (Z.le_gt_cases (step * 2) (umax 32)); [rewrite Z.min_l by lia|rewrite Z.min_r by lia]; nia.
Qed.

Lemma locator_heights_length j fuel h n :
  0 <= h <= umax 32 -> n + Z.of_nat j = 10 -> (length (locator_heights fuel h 1 n) <= j + 33)%nat.
Proof.
  revert fuel h n. induction j as [|j IH]; intros fuel h n Hh Hj.
  - apply (locator_heights_doubling 32); unfold umax in *; lia.
  - destruct fuel as [|fuel]; [simpl; lia|]. destruct (Z.eq_dec h 0) as [->|Hz]; [simpl; lia|].
    rewrite locator_heights_step by lia. cbn [length]. assert (wider_step n 1 = 1) as -> by (unfold wider_step; by bfalse (10 <? n + 1)).
    specialize (IH fuel (sat_sub h 1) (n + 1)). unfold sat_sub in *. lia.
Qed.

Lemma Forall2_guard {A B} (P Q : A -> B -> Prop) (R : A -> Prop) l k :
  Forall2 P l k -> Forall R l -> (forall x y, R x -> P x y -> Q x y) -> Forall2 Q l k.
Proof. induction 1; intros HR HPQ; [constructor|]. apply Forall_cons in HR as [? ?]. constructor; auto. Qed.

(** ** Locators *)

Section Locators.
Context {HOps : HeaderOps} (c : ChainState) (Hwf : index_wf c).

Lemma ancestor_total hash node h :
  block_index c !! hash = Some node -> 0 <= h <= ChainIndex.height node ->
  exists a an, ancestor_hash c hash h = Some a /\ block_index c !! a = Some an /\ ChainIndex.height an = h.
Proof.
  intros E Hh. rewrite (ancestor_hash_eq c Hwf hash node) by done.
  destruct (nth_parent_total c Hwf (Z.to_nat (ChainIndex.height node - h)) hash node E) as (a & an & H1 & H2 & H3); [lia|]. exists a, an. split_and!; [done|done|lia].
Qed.

Lemma ancestor_trans hash node a an h :
  block_index c !! hash = Some node -> 0 <= h <= ChainIndex.height an -> ChainIndex.height an <= ChainIndex.height node ->
  ancestor_hash c hash (ChainIndex.height an) = Some a -> block_index c !! a = Some an -> ancestor_hash c hash h = ancestor_hash c a h.
Proof.
  intros E Hh Hle Ha Ean. pose proof (wf_height c Hwf _ _ Ean). rewrite (ancestor_hash_eq c Hwf hash node) in Ha by (done || lia).
  rewrite (ancestor_hash_eq c Hwf hash node), (ancestor_hash_eq c Hwf a an) by (done || lia).
  rewrite <- (nth_parent_add c _ _ _ _ Ha). f_equal. lia.
Qed.

Lemma ancestor_self hash node : block_index c !! hash = Some node -> ancestor_hash c hash (ChainIndex.height node) = Some hash.
Proof.
  intros E. pose proof (wf_height c Hwf _ _ E). rewrite (ancestor_hash_eq c Hwf hash node) by (done || lia).
  replace (Z.to_nat _) with 0%nat by lia. simpl. by rewrite E.
Qed.

Lemma locator_loop_spec fuel hash node step acc :
  block_index c !! hash = Some node -> 1 <= step -> (Z.to_nat (ChainIndex.height node) < fuel)%nat ->
  exists l, locator_loop fuel c hash (ChainIndex.height node) step acc = acc ++ l /\
    Forall2 (fun h e => ancestor_hash c hash h = Some e) (locator_heights fuel (ChainIndex.height node) step (zlen acc)) l.
Proof.
  revert hash node step acc. induction fuel as [|fuel IH]; intros hash node step acc E Hs Hf; [lia|]. pose proof (wf_height c Hwf _ _ E).
  destruct (Z.eq_dec (ChainIndex.height node) 0) as [Hz|Hz].
  { exists [hash]. cbn [locator_loop locator_heights]. btrue (ChainIndex.height node =? 0). split; [done|]. constructor; [|constructor].
    by apply ancestor_self. }
  rewrite locator_heights_step by lia. cbn [locator_loop]. bfalse (ChainIndex.height node =? 0).
  rewrite zlen_app, zlen_cons, zlen_nil. change (1 + 0) with 1. fold (wider_step (zlen acc) step). set (step' := wider_step (zlen acc) step).
  assert (Hs' : 1 <= step') by by apply wider_step_pos.
  destruct (ancestor_total hash node (sat_sub (ChainIndex.height node) step') E) as (a & an & Ha & Ean & Hh); [unfold sat_sub; lia|].
  rewrite Ha. rewrite <- Hh in Ha |- *. unfold sat_sub in Hh.
  destruct (IH a an step' (acc ++ [hash]) Ean Hs') as (l & El & Hl); [lia|]. rewrite zlen_app, zlen_cons, zlen_nil in Hl.
  exists (hash :: l). rewrite El, <- app_assoc. split; [done|]. constructor; [by apply ancestor_self|].
  replace (1 + 0) with 1 in Hl by lia. pose proof (locator_heights_sorted fuel (ChainIndex.height an) step' (zlen acc + 1)) as [_ Hr]; [lia|lia|].
  apply (Forall2_guard _ _ _ _ _ Hl Hr). intros h e Hrange He. rewrite <- He. apply (ancestor_trans hash node a an); try done; lia.
Qed.

Lemma locator_spec start node l :
  block_index c !! start = Some node -> locator_from c start = Some l ->
  exists hs, Forall2 (fun h e => ancestor_hash c start h = Some e) hs l /\ hs !! 0%nat = Some (ChainIndex.height node) /\ list.last hs = Some 0 /\
    StronglySorted Z.gt hs /\ Forall (fun h => 0 <= h <= ChainIndex.height node) hs /\ (length l <= 43)%nat.
Proof.
  unfold locator_from. intros E. rewrite E. cbn [mbind option_bind]. intros El. apply (inj Some) in El. subst l. pose proof (wf_height c Hwf _ _ E) as Hh.
  destruct (locator_loop_spec (S (Z.to_nat (ChainIndex.height node))) start node 1 [] E) as (l & -> & Hl); [lia|lia|]. rewrite zlen_nil in Hl.
  set (hs := locator_heights _ _ _ _) in *. exists hs. split; [done|]. split; [done|].
  split; [apply locator_heights_last; lia|]. destruct (locator_heights_sorted (S (Z.to_nat (ChainIndex.height node))) (ChainIndex.height node) 1 0) as [H1 H2]; [lia|lia|].
  split; [done|]. split; [done|]. rewrite app_nil_l, <- (Forall2_length _ _ _ Hl). by apply (locator_heights_length 10).
Qed.
End Locators.

(** ** The answer *)

Section Answer.
Context {HOps : HeaderOps} (c : ChainState) (Hwf : index_wf c).

Lemma active_heights i hash : active_chain c !! i = Some hash -> locator_entry_height c hash = Some (Z.of_nat i).
Proof.
  intros E. destruct (wf_active c Hwf _ _ E) as (node & En & Hh & _ & _). unfold locator_entry_height. rewrite En. cbn [mbind option_bind].
  unfold active_at. by rewrite Hh, Nat2Z.id, bool_decide_true.
Qed.

(** A locator that has a block of the active chain finds one, or the tip. *)
Lemma fork_found l i e :
  e ∈ l -> active_chain c !! i = Some e ->
  exists j x, fork_height c l = Some (Z.of_nat j) /\ x ∈ l /\ locator_entry_height c x = Some (Z.of_nat j) /\ (j < length (active_chain c))%nat.
Proof.
  intros He Ei. induction l as [|x l IH]; [by inversion He|]. cbn [fork_height].
  destruct (locator_entry_height c x) as [h|] eqn:Ex.
  - assert (exists j, h = Z.of_nat j /\ (j < length (active_chain c))%nat) as (j & -> & Hj).
    { unfold locator_entry_height in Ex. destruct (block_index c !! x) as [node|] eqn:En; [|done]. cbn [mbind option_bind] in Ex.
      pose proof (wf_height c Hwf _ _ En). pose proof (lookup_lt_Some _ _ _ Ei). destruct (active_at _ _ _) eqn:Ea.
      - injection Ex as <-. exists (Z.to_nat (ChainIndex.height node)). unfold active_at in Ea. apply bool_decide_eq_true in Ea.
        apply lookup_lt_Some in Ea. lia.
      - destruct (_ && _); [|done]. injection Ex as <-. exists (length (active_chain c) - 1)%nat. unfold tip_height, sat_sub. lia. }
    exists j, x. split_and!; try done. left.
  - apply elem_of_cons in He as [->|He]; [by rewrite (active_heights _ _ Ei) in Ex|]. destruct (IH He) as (j & y & H1 & H2 & H3 & H4).
    exists j, y. split_and!; try done. by right.
Qed.

Lemma headers_after_fork l j :
  l <> [] -> fork_height c l = Some (Z.of_nat j) -> headers_after_locator c l all_zeros = take MAX_HEADERS (drop (S j) (headers c)).
Proof.
  intros Hl Hf. unfold headers_after_locator, stop_index. rewrite Hf, bool_decide_false, bool_decide_true by done.
  rewrite <- (wf_headers c Hwf), Nat.min_id, Nat2Z.id. destruct (Nat.leb_spec (length (headers c)) (S j)) as [H|H].
  - by rewrite drop_ge, take_nil by done.
  - rewrite (take_ge (drop _ _)); [done|]. rewrite length_drop. lia.
Qed.
End Answer.

(** ** Two nodes *)

Section Nodes.
Context {HOps : HeaderOps}.

(** The nodes have the same network and genesis block, and the hash of a
    header that both know is the hash of one header. *)
Record compatible (c s : ChainState) : Prop := {
  cp_network : ChainIndex.network s = ChainIndex.network c;
  cp_genesis : exists g, active_chain c !! 0%nat = Some g /\ active_chain s !! 0%nat = Some g /\ block_index c !! g = block_index s !! g;
  cp_header : forall hash n n', block_index c !! hash = Some n -> block_index s !! hash = Some n' -> ChainIndex.header n = ChainIndex.header n';
}.

Context (c s : ChainState) (Hc : index_wf c) (Hs : index_wf s) (Hcp : compatible c s).

Lemma genesis_height hash n :
  block_index c !! hash = Some n -> ChainIndex.height n = 0 -> block_index s !! hash = Some n.
Proof.
  intros E Hz. destruct (cp_genesis _ _ Hcp) as (g & Hg & Hg' & Eg). pose proof (wf_genesis c Hc _ _ E Hz) as H. rewrite Hg in H. injection H as ->. by rewrite <- Eg.
Qed.

Lemma genesis_height' hash n :
  block_index s !! hash = Some n -> ChainIndex.height n = 0 -> block_index c !! hash = Some n.
Proof.
  intros E Hz. destruct (cp_genesis _ _ Hcp) as (g & Hg & Hg' & Eg). pose proof (wf_genesis s Hs _ _ E Hz) as H. rewrite Hg' in H. injection H as ->. by rewrite Eg.
Qed.

Lemma nth_parent_agree m k hash n n' :
  (forall hash n n', block_index c !! hash = Some n -> block_index s !! hash = Some n' -> ChainIndex.height n < m -> n = n') ->
  block_index c !! hash = Some n -> block_index s !! hash = Some n' -> ChainIndex.height n < m -> Z.of_nat k <= ChainIndex.height n ->
  nth_parent (block_index c) k hash = nth_parent (block_index s) k hash.
Proof.
  intros Hag. revert hash n n'. induction k as [|k IH]; intros hash n n' E E' Hm Hk; simpl; rewrite E, E'; [done|]. simpl.
  assert (n = n') as <- by by apply (Hag hash). destruct (wf_child c Hc _ _ E) as (p & Ep & Hp); [lia|]. pose proof (child_height _ _ _ Hp).
  destruct (wf_child s Hs _ _ E') as (p' & Ep' & _); [lia|]. apply (IH _ p p'); try done; lia.
Qed.

Lemma nodes_agree hash n n' : block_index c !! hash = Some n -> block_index s !! hash = Some n' -> n = n'.
Proof.
  enough (H : forall m hash n n', block_index c !! hash = Some n -> block_index s !! hash = Some n' -> ChainIndex.height n < Z.of_nat m -> n = n').
  { intros E E'. pose proof (wf_height c Hc _ _ E). apply (H (S (Z.to_nat (ChainIndex.height n))) hash n n' E E'). lia. }
  clear hash n n'. induction m as [|m IH]; intros hash n n' E E' Hm; pose proof (wf_height c Hc _ _ E); [lia|].
  destruct (Z.eq_dec (ChainIndex.height n) 0) as [Hz|Hz]; [rewrite (genesis_height _ _ E Hz) in E'; by injection E'|].
  destruct (Z.eq_dec (ChainIndex.height n') 0) as [Hz'|Hz']; [rewrite (genesis_height' _ _ E' Hz') in E; by injection E as ->|].
  destruct (wf_child c Hc _ _ E Hz) as (p & Ep & [H1 H2 H3]). destruct (wf_child s Hs _ _ E' Hz') as (p' & Ep' & [H1' H2' H3']).
  pose proof (cp_header _ _ Hcp _ _ _ E E') as Hh. rewrite <- Hh in Ep', H2', H3'. assert (p = p') as <- by (apply (IH _ _ _ Ep Ep'); lia).
  assert (Hhh : ChainIndex.height n' = ChainIndex.height n) by lia. rewrite Hhh in H3'.
  pose proof (skip_height_range (ChainIndex.height n)). assert (Hsk : skip n' = skip n).
  { rewrite H3, H3'. symmetry. apply (nth_parent_agree (Z.of_nat m) _ _ p p); done || lia. }
  destruct n as [hd0 h0 w0 s0], n' as [hd1 h1 w1 s1]. simpl in *. by rewrite Hh, Hhh, Hsk, H2, H2', Hh.
Qed.

(** What one node knows of another's block, it knows of its ancestors. *)
Lemma ancestor_agree hash n h a :
  block_index c !! hash = Some n -> block_index s !! hash = Some n -> 0 <= h <= ChainIndex.height n ->
  ancestor_hash s hash h = Some a -> ancestor_hash c hash h = Some a.
Proof.
  intros E E' Hh. rewrite (ancestor_hash_eq s Hs hash n), (ancestor_hash_eq c Hc hash n) by done.
  rewrite <- (nth_parent_agree (ChainIndex.height n + 1) _ _ n n); try done; try lia. intros h0 n0 n0' H1 H2 _. by apply (nodes_agree h0).
Qed.

(** The question and the answer. *)
Record answers (r : list Header) : Prop := {
  an_short : (length r <= MAX_HEADERS)%nat;
  an_segment : exists j, r = take MAX_HEADERS (drop (S j) (headers s)) /\ (j < length (active_chain s))%nat /\
    (r <> [] -> exists e, active_chain s !! j = Some e /\ is_Some (block_index c !! e)) /\
    (r = [] -> is_Some (block_index c !! best_hash s));
}.

Lemma best_hash_last : active_chain s !! (length (active_chain s) - 1)%nat = Some (best_hash s).
Proof.
  destruct (cp_genesis _ _ Hcp) as (g & _ & Hg & _). unfold best_hash. rewrite last_lookup.
  replace (pred _) with (length (active_chain s) - 1)%nat by lia. apply lookup_lt_Some in Hg.
  destruct (lookup_lt_is_Some_2 (active_chain s) (length (active_chain s) - 1)) as [x Ex]; [lia|]. by rewrite Ex.
Qed.

Lemma locator_answered start node :
  block_index c !! start = Some node -> answers (headers_after_locator s (block_locator_hashes_from c start) all_zeros).
Proof.
  intros E. unfold block_locator_hashes_from. destruct (locator_from c start) as [l|] eqn:El; [|unfold locator_from in El; by rewrite E in El].
  destruct (locator_spec c Hc start node l E El) as (hs & Hl & Hh0 & Hlast & Hsort & Hrange & Hlen).
  destruct (cp_genesis _ _ Hcp) as (g & Hg & Hg' & Eg).
  assert (Hgl : g ∈ l).
  { rewrite last_lookup in Hlast. destruct (Forall2_lookup_l _ _ _ _ _ Hl Hlast) as (e & Ee & He). apply list_elem_of_lookup_2 in Ee.
    destruct (ancestor_total c Hc start node 0 E) as (a & an & Ha & Ean & Hz); [apply wf_height in E; [lia|done]|]. rewrite He in Ha. injection Ha as <-.
    pose proof (wf_genesis c Hc _ _ Ean Hz) as H. rewrite Hg in H. by injection H as ->. }
  destruct (fork_found s Hs l 0 g Hgl Hg') as (j & x & Hf & Hx & Ex & Hj). rewrite (headers_after_fork s Hs l j); [|intros ->; by inversion Hgl|done].
  split; [rewrite length_take; lia|]. exists j. split; [done|]. split; [done|].
  assert (Hxc : is_Some (block_index c !! x)).
  { apply list_elem_of_lookup in Hx as [i Hi]. destruct (Forall2_lookup_r _ _ _ _ _ Hl Hi) as (h & Hh & Hxa). rewrite Forall_lookup in Hrange.
    destruct (ancestor_total c Hc start node h E) as (a & an & Ha & Ean & _); [by eapply Hrange|]. rewrite Hxa in Ha. injection Ha as <-. by rewrite Ean. }
  assert (Hempty : take MAX_HEADERS (drop (S j) (headers s)) = [] <-> j = (length (active_chain s) - 1)%nat).
  { rewrite <- (wf_headers s Hs) in Hj |- *. split; intros H.
    - apply (f_equal length) in H. rewrite length_take, length_drop in H. rewrite length_nil in H. unfold MAX_HEADERS in H. lia.
    - rewrite drop_ge by lia. by rewrite take_nil. }
  unfold locator_entry_height in Ex. destruct (block_index s !! x) as [xn|] eqn:Exn; [|done]. cbn [mbind option_bind] in Ex.
  destruct Hxc as [xc Exc]. pose proof (nodes_agree _ _ _ Exc Exn) as ->. destruct (active_at s (ChainIndex.height xn) x) eqn:Ea.
  - injection Ex as Ex. unfold active_at in Ea. apply bool_decide_eq_true in Ea. rewrite Ex, Nat2Z.id in Ea. split; [by exists x; rewrite Exc|].
    intros ->%Hempty. pose proof best_hash_last as Hb. rewrite Ea in Hb. injection Hb as <-. by rewrite Exc.
  - destruct (_ && _) eqn:Et; [|done]. injection Ex as Ex. apply andb_true_iff in Et as [Et1%Z.leb_le Et2%bool_decide_eq_true].
    pose proof (lookup_lt_Some _ _ _ Hg'). assert (j = (length (active_chain s) - 1)%nat) as Hjt by (unfold tip_height, sat_sub in *; lia).
    split; [intros []; by apply Hempty|intros _].
    destruct (ancestor_total c Hc x xn (tip_height s) Exc) as (a & an & Ha & Ean & _); [unfold tip_height, sat_sub in *; lia|].
    assert (ancestor_hash c x (tip_height s) = Some (best_hash s)) as Hb by (apply (ancestor_agree x xn); try done; unfold tip_height, sat_sub in *; lia).
    rewrite Ha in Hb. injection Hb as <-. by rewrite Ean.
Qed.

(** A question that starts with a block of the other's chain is answered with what comes after it. *)
Lemma locator_continues start i :
  is_Some (block_index c !! start) -> active_chain s !! i = Some start ->
  headers_after_locator s (block_locator_hashes_from c start) all_zeros = take MAX_HEADERS (drop (S i) (headers s)).
Proof.
  intros [node E] Ei. unfold block_locator_hashes_from. destruct (locator_from c start) as [l|] eqn:El; [|unfold locator_from in El; by rewrite E in El].
  destruct (locator_spec c Hc start node l E El) as (hs & Hl & Hh0 & _). destruct (Forall2_lookup_l _ _ _ _ _ Hl Hh0) as (e & Ee & He).
  rewrite (ancestor_self c Hc _ _ E) in He. injection He as <-. destruct l as [|e l]; [done|]. injection Ee as ->.
  apply headers_after_fork; [done|done|]. cbn [fork_height]. by rewrite (active_heights s Hs _ _ Ei).
Qed.

Lemma locator_fits start node : block_index c !! start = Some node -> zlen (block_locator_hashes_from c start) <= 43.
Proof.
  intros E. unfold block_locator_hashes_from. destruct (locator_from c start) as [l|] eqn:El; [|unfold locator_from in El; by rewrite E in El].
  destruct (locator_spec c Hc start node l E El) as (_ & _ & _ & _ & _ & _ & Hlen). unfold zlen. lia.
Qed.

(** C23: a question between two nodes finds where their chains part. The locator fits into a message; its answer is at most
    2000 consecutive headers of the other's active chain, and the first of them follows a block that the node knows; an empty
    answer means that the node knows the other's tip already. *)
Theorem getheaders_connects start :
  is_Some (block_index c !! start) ->
  zlen (block_locator_hashes_from c start) <= MAX_LOCATOR_HASHES /\ answers (headers_after_locator s (block_locator_hashes_from c start) all_zeros).
Proof.
  intros [node E]. split; [|by eapply locator_answered]. etrans; [by eapply locator_fits|]. done.
Qed.
End Nodes.
