(* ===== verification/HeadersSync.v ===== *)
(** * Low-work header synchronisation ([p2p.rs])

    A peer whose headers do not have enough work is not believed: it must show
    a chain with enough work first, of which only salted one-bit commitments
    are kept, and then send the chain again.  The headers sent again wait in a
    buffer and are released when enough commitments above them were right, or
    when the chain sent again has enough work itself. *)

From Stdlib Require Import ZArith Lia.
From stdpp Require Import base list option.
From S2P Require Import Prelude Types VersionBits ChainIndex BlockChecks ConnectBlock HeaderChecks.
Local Open Scope Z_scope.

(** ** The queue of commitments *)

Record CommitmentBits := { words : list Z; front_offset : Z; cb_len : Z }.

Definition no_commitments : CommitmentBits := {| words := []; front_offset := 0; cb_len := 0 |}.

(** The [expect] on the word holds by [queue_wf]. *)
Definition push_back (bit : bool) (q : CommitmentBits) : CommitmentBits :=
  let position := front_offset q + cb_len q in
  let word := Z.to_nat (position / 64) in
  let ws := if (word =? length (words q))%nat then words q ++ [0] else words q in
  let ws := if bit then alter (fun w => Z.lor w (Z.shiftl 1 (position `mod` 64))) word ws else ws in
  {| words := ws; front_offset := front_offset q; cb_len := cb_len q + 1 |}.

Definition pop_front (q : CommitmentBits) : CommitmentBits * option bool :=
  if cb_len q =? 0 then (q, None)
  else
    let bit := negb (Z.land (default 0 (head (words q))) (Z.shiftl 1 (front_offset q)) =? 0) in
    let off := front_offset q + 1 in
    let len := cb_len q - 1 in
    let '(ws, off) := if off =? 64 then (tail (words q), 0) else (words q, off) in
    let '(ws, off) := if len =? 0 then ([], 0) else (ws, off) in
    ({| words := ws; front_offset := off; cb_len := len |}, Some bit).

(** ** The state of one peer *)

(** [Sha256] and what the [bitcoin] crate computes of targets. *)
Class SyncOps := {
  sha256 : bytes -> bytes;
  from_compact : Z -> Z;
  max_transition_threshold : Network -> Z -> Z;
  min_transition_threshold : Z -> Z;
}.

Inductive LowWorkHeadersPhase := Presync | Redownload.

Record HeadersSyncResult := {
  success : bool;
  request_more : bool;
  ready : list Header;
  finished : bool;
}.

Record LowWorkHeadersSync := {
  ls_network : Network;
  minimum_work : Z;
  commitment_period : Z;
  redownload_buffer_size : Z;
  commit_offset : Z;
  salt : bytes;
  commitments : CommitmentBits;
  max_commitments : Z;
  phase : LowWorkHeadersPhase;
  chain_start_hash : bytes;
  chain_start_height : Z;
  chain_start_work : Z;
  last_header : Header;
  current_height : Z;
  current_work : Z;
  redownload_headers : list Header;
  redownload_last_hash : bytes;
  redownload_last_bits : Z;
  redownload_height : Z;
  redownload_work : Z;
  process_all_remaining_headers : bool;
}.

Definition MAX_FUTURE_BLOCK_TIME_SECS : Z := 2 * 60 * 60.
Definition sync_params : Z * Z := (632, 15009).

Definition failed_result : HeadersSyncResult := {| success := false; request_more := false; ready := []; finished := true |}.

(** Updates of the fields that the phases change. *)
Definition set_presync (q : CommitmentBits) (last : Header) (h w : Z) (y : LowWorkHeadersSync) : LowWorkHeadersSync :=
  {| ls_network := ls_network y; minimum_work := minimum_work y; commitment_period := commitment_period y;
     redownload_buffer_size := redownload_buffer_size y; commit_offset := commit_offset y; salt := salt y; commitments := q;
     max_commitments := max_commitments y; phase := phase y; chain_start_hash := chain_start_hash y;
     chain_start_height := chain_start_height y; chain_start_work := chain_start_work y; last_header := last;
     current_height := h; current_work := w; redownload_headers := redownload_headers y;
     redownload_last_hash := redownload_last_hash y; redownload_last_bits := redownload_last_bits y;
     redownload_height := redownload_height y; redownload_work := redownload_work y;
     process_all_remaining_headers := process_all_remaining_headers y |}.

Definition start_redownload (y : LowWorkHeadersSync) : LowWorkHeadersSync :=
  {| ls_network := ls_network y; minimum_work := minimum_work y; commitment_period := commitment_period y;
     redownload_buffer_size := redownload_buffer_size y; commit_offset := commit_offset y; salt := salt y;
     commitments := commitments y; max_commitments := max_commitments y; phase := Redownload;
     chain_start_hash := chain_start_hash y; chain_start_height := chain_start_height y;
     chain_start_work := chain_start_work y; last_header := last_header y; current_height := current_height y;
     current_work := current_work y; redownload_headers := []; redownload_last_hash := chain_start_hash y;
     redownload_last_bits := redownload_last_bits y; redownload_height := chain_start_height y;
     redownload_work := chain_start_work y; process_all_remaining_headers := false |}.

Definition set_redownload (q : CommitmentBits) (buffer : list Header) (hash : bytes) (bits h w : Z) (all : bool)
    (y : LowWorkHeadersSync) : LowWorkHeadersSync :=
  {| ls_network := ls_network y; minimum_work := minimum_work y; commitment_period := commitment_period y;
     redownload_buffer_size := redownload_buffer_size y; commit_offset := commit_offset y; salt := salt y; commitments := q;
     max_commitments := max_commitments y; phase := phase y; chain_start_hash := chain_start_hash y;
     chain_start_height := chain_start_height y; chain_start_work := chain_start_work y; last_header := last_header y;
     current_height := current_height y; current_work := current_work y; redownload_headers := buffer;
     redownload_last_hash := hash; redownload_last_bits := bits; redownload_height := h; redownload_work := w;
     process_all_remaining_headers := all |}.

Section Sync.
Context {HOps : HeaderOps} {POps : PowOps} {SyOps : SyncOps}.

Definition valid_header_pow (n : Network) (hd : Header) : bool :=
  compact_valid hd && (target hd <=? max_attainable_target n) && (to_compact_lossy (target hd) =? hd_bits hd) &&
  is_met_by (target hd) (header_hash hd).

Fixpoint headers_are_continuous (hds : list Header) : bool :=
  match hds with
  | hd :: ((hd' :: _) as rest) => bool_decide (prev_blockhash hd' = header_hash hd) && headers_are_continuous rest
  | _ => true
  end.

Definition add_work_saturating (l r : Z) : Z := if umax 256 - r <? l then umax 256 else l + r.

Definition permitted_difficulty_transition (n : Network) (h old_bits new_bits : Z) : bool :=
  if allow_min_difficulty_blocks n then true
  else if negb (h `mod` difficulty_adjustment_interval n =? 0) then old_bits =? new_bits
  else
    let old_target := from_compact old_bits in
    let new_target := from_compact new_bits in
    let maximum := from_compact (to_compact_lossy (max_transition_threshold n old_target)) in
    let minimum := from_compact (to_compact_lossy (min_transition_threshold old_target)) in
    (minimum <=? new_target) && (new_target <=? maximum).

(** The clock and the random values are arguments. *)
Definition new_sync (now random_offset : Z) (random_salt : bytes) (n : Network) (minimum : Z) (start_hash : bytes)
    (start_height start_work : Z) (start_header : Header) (start_median : Z) : LowWorkHeadersSync :=
  let '(period, buffer_size) := sync_params in
  let elapsed := sat_add 64 (sat_sub now start_median) MAX_FUTURE_BLOCK_TIME_SECS in
  {| ls_network := n; minimum_work := minimum; commitment_period := period; redownload_buffer_size := buffer_size;
     commit_offset := random_offset `mod` period; salt := random_salt; commitments := no_commitments;
     max_commitments := sat_mul 64 elapsed 6 / period; phase := Presync; chain_start_hash := start_hash;
     chain_start_height := start_height; chain_start_work := start_work; last_header := start_header;
     current_height := start_height; current_work := start_work; redownload_headers := [];
     redownload_last_hash := start_hash; redownload_last_bits := hd_bits start_header; redownload_height := start_height;
     redownload_work := start_work; process_all_remaining_headers := false |}.

Definition commitment (y : LowWorkHeadersSync) (hd : Header) : bool :=
  negb (Z.land (default 0 (head (sha256 (salt y ++ header_hash hd)))) 1 =? 0).

(** ** The first pass *)

(** [None] when the batch fails, and the last header otherwise. *)
Fixpoint presync_loop (y : LowWorkHeadersSync) (previous : Header) (hds : list Header) : LowWorkHeadersSync * option Header :=
  match hds with
  | [] => (y, Some previous)
  | hd :: hds =>
      let next_height := sat_add 32 (current_height y) 1 in
      if negb (bool_decide (prev_blockhash hd = header_hash previous)) ||
         negb (permitted_difficulty_transition (ls_network y) next_height (hd_bits previous) (hd_bits hd)) ||
         negb (valid_header_pow (ls_network y) hd)
      then (y, None)
      else
        let commits := next_height `mod` commitment_period y =? commit_offset y in
        let q := if commits then push_back (commitment y hd) (commitments y) else commitments y in
        if commits && (max_commitments y <? cb_len q) then (set_presync q (last_header y) (current_height y) (current_work y) y, None)
        else
          presync_loop (set_presync q (last_header y) next_height (add_work_saturating (current_work y) (work hd)) y) hd hds
  end.

Definition process_presync (hds : list Header) (full_headers_message : bool) (y : LowWorkHeadersSync)
  : LowWorkHeadersSync * HeadersSyncResult :=
  match presync_loop y (last_header y) hds with
  | (y, None) => (y, failed_result)
  | (y, Some previous) =>
      let y := set_presync (commitments y) previous (current_height y) (current_work y) y in
      if minimum_work y <=? current_work y then
        (start_redownload y, {| success := true; request_more := true; ready := []; finished := false |})
      else if full_headers_message then (y, {| success := true; request_more := true; ready := []; finished := false |})
      else (y, {| success := true; request_more := false; ready := []; finished := true |})
  end.

(** ** The second pass *)

Fixpoint redownload_loop (y : LowWorkHeadersSync) (hds : list Header) : LowWorkHeadersSync * bool :=
  match hds with
  | [] => (y, true)
  | hd :: hds =>
      let next_height := sat_add 32 (redownload_height y) 1 in
      if negb (bool_decide (prev_blockhash hd = redownload_last_hash y)) ||
         negb (permitted_difficulty_transition (ls_network y) next_height (redownload_last_bits y) (hd_bits hd)) ||
         negb (valid_header_pow (ls_network y) hd)
      then (y, false)
      else
        let w := add_work_saturating (redownload_work y) (work hd) in
        let all := if minimum_work y <=? w then true else process_all_remaining_headers y in
        let accepted q :=
          set_redownload q (redownload_headers y ++ [hd]) (header_hash hd) (hd_bits hd) next_height w all y in
        let rejected q :=
          set_redownload q (redownload_headers y) (redownload_last_hash y) (redownload_last_bits y) (redownload_height y) w all y in
        if negb all && (next_height `mod` commitment_period y =? commit_offset y) then
          match pop_front (commitments y) with
          | (q, None) => (rejected q, false)
          | (q, Some expected) =>
              if negb (Bool.eqb (commitment y hd) expected) then (rejected q, false) else redownload_loop (accepted q) hds
          end
        else redownload_loop (accepted (commitments y)) hds
  end.

(** The loop takes headers from the front of the buffer. *)
Fixpoint pop_ready (limit : Z) (all : bool) (buffer : list Header) : list Header * list Header :=
  match buffer with
  | [] => ([], [])
  | hd :: rest =>
      if (limit <? zlen buffer) || all then let '(out, kept) := pop_ready limit all rest in (hd :: out, kept)
      else ([], buffer)
  end.

Definition pop_ready_headers (y : LowWorkHeadersSync) : LowWorkHeadersSync * list Header :=
  let '(out, kept) := pop_ready (redownload_buffer_size y) (process_all_remaining_headers y) (redownload_headers y) in
  (set_redownload (commitments y) kept (redownload_last_hash y) (redownload_last_bits y) (redownload_height y)
     (redownload_work y) (process_all_remaining_headers y) y, out).

Definition process_redownload (hds : list Header) (full_headers_message : bool) (y : LowWorkHeadersSync)
  : LowWorkHeadersSync * HeadersSyncResult :=
  match redownload_loop y hds with
  | (y, false) => (y, failed_result)
  | (y, true) =>
      let '(y, out) := pop_ready_headers y in
      let done := bool_decide (redownload_headers y = []) && process_all_remaining_headers y in
      (y, {| success := true; request_more := negb done && full_headers_message; ready := out;
             finished := done || negb full_headers_message |})
  end.

Definition process (hds : list Header) (full_headers_message : bool) (y : LowWorkHeadersSync)
  : LowWorkHeadersSync * HeadersSyncResult :=
  if bool_decide (hds = []) then (y, failed_result)
  else
    match phase y with
    | Presync => process_presync hds full_headers_message y
    | Redownload => process_redownload hds full_headers_message y
    end.

(** ** How much work is enough *)

Fixpoint repeat_work (n : nat) (proof acc : Z) : Z :=
  match n with
  | O => acc
  | S n => repeat_work n proof (add_work_saturating acc proof)
  end.

Definition anti_dos_work_threshold (active_work tip_proof minimum : Z) : Z :=
  let recent_work := Z.min (repeat_work 144 tip_proof 0) active_work in
  let near_tip := if recent_work <=? active_work then active_work - recent_work else 0 in
  Z.max near_tip minimum.
End Sync.

(** ** The queue of commitments is a queue *)

Definition bit_at (ws : list Z) (p : nat) : bool := Z.testbit (default 0 (ws !! (p / 64)%nat)) (Z.of_nat (p mod 64)).
Definition queue_bits (q : CommitmentBits) : list bool :=
  map (fun i => bit_at (words q) (Z.to_nat (front_offset q) + i)) (seq 0 (Z.to_nat (cb_len q))).

Record queue_wf (q : CommitmentBits) : Prop := {
  qw_offset : 0 <= front_offset q < 64;
  qw_len : 0 <= cb_len q;
  qw_words : length (words q) = ((Z.to_nat (front_offset q) + Z.to_nat (cb_len q) + 63) / 64)%nat;
  qw_clear : forall p, (Z.to_nat (front_offset q) + Z.to_nat (cb_len q) <= p)%nat -> bit_at (words q) p = false;
  qw_u64 : Forall (in_u 64) (words q);
}.

Lemma length_queue_bits q : queue_wf q -> zlen (queue_bits q) = cb_len q.
Proof. intros Hq. unfold zlen, queue_bits. rewrite length_map, length_seq. pose proof (qw_len _ Hq). lia. Qed.

Lemma no_commitments_wf : queue_wf no_commitments.
Proof. split; try done. intros p _. unfold bit_at. cbn [words no_commitments]. rewrite lookup_nil. apply Z.testbit_0_l. Qed.

Lemma bit_at_snoc ws p : bit_at (ws ++ [0]) p = bit_at ws p.
Proof.
  unfold bit_at. destruct (lt_eq_lt_dec (p / 64)%nat (length ws)) as [[H|H]|H].
  - by rewrite lookup_app_l.
  - rewrite lookup_app_r, (lookup_ge_None_2 ws) by lia. by replace (p / 64 - length ws)%nat with 0%nat by lia.
  - rewrite !lookup_ge_None_2; [done|lia|rewrite length_app; cbn [length]; lia].
Qed.

Lemma bit_at_set ws pos p :
  (pos / 64 < length ws)%nat ->
  bit_at (alter (fun w => Z.lor w (Z.shiftl 1 (Z.of_nat (pos mod 64)))) (pos / 64)%nat ws) p = bool_decide (p = pos) || bit_at ws p.
Proof.
  intros Hlt. unfold bit_at. pose proof (Nat.mod_upper_bound p 64 ltac:(lia)). destruct (decide (p / 64 = pos / 64)%nat) as [E|E].
  - rewrite E. destruct (lookup_lt_is_Some_2 ws (pos / 64)%nat Hlt) as [w Hw]. rewrite list_lookup_alter_eq, Hw. cbn -[Nat.modulo Nat.div Z.testbit Z.shiftl].
    rewrite Z.lor_spec, Z.shiftl_spec, orb_comm by lia. f_equal.
    case_bool_decide as Hp.
    + subst. replace (_ - _) with 0 by lia. done.
    + assert (p mod 64 <> pos mod 64)%nat. { intros Em. apply Hp. rewrite (Nat.div_mod_eq p 64), (Nat.div_mod_eq pos 64). lia. }
      destruct (Z.lt_ge_cases (Z.of_nat (p mod 64) - Z.of_nat (pos mod 64)) 0); [by rewrite Z.testbit_neg_r|].
      change 1 with (2 ^ 0). apply Z.pow2_bits_false. lia.
  - rewrite list_lookup_alter_ne by done. rewrite bool_decide_false by congruence. done.
Qed.

Lemma lor_u64 a b : in_u 64 a -> in_u 64 b -> in_u 64 (Z.lor a b).
Proof.
  intros [H1 H2] [H3 H4]. assert (0 <= Z.lor a b) by (apply Z.lor_nonneg; lia). split; [done|]. destruct (Z.eq_dec (Z.lor a b) 0) as [->|]; [done|].
  apply Z.log2_lt_pow2; [lia|]. rewrite Z.log2_lor by lia. apply Z.max_lub_lt; (destruct (Z.eq_dec a 0) as [->|], (Z.eq_dec b 0) as [->|]; try (cbn; lia); apply Z.log2_lt_pow2; lia).
Qed.

(** Room for one more bit. *)
Lemma words_for n : ((n + 1 + 63) / 64 = if (n / 64 =? (n + 63) / 64) then (n + 63) / 64 + 1 else (n + 63) / 64)%nat /\ (n / 64 < (n + 1 + 63) / 64)%nat.
Proof.
  pose proof (Nat.div_mod_eq (n + 63) 64). pose proof (Nat.div_mod_eq n 64). pose proof (Nat.div_mod_eq (n + 1 + 63) 64).
  pose proof (Nat.mod_upper_bound (n + 63) 64). pose proof (Nat.mod_upper_bound n 64). pose proof (Nat.mod_upper_bound (n + 1 + 63) 64).
  destruct (Nat.eqb_spec (n / 64) ((n + 63) / 64)); lia.
Qed.

Definition queue_end (q : CommitmentBits) : nat := (Z.to_nat (front_offset q) + Z.to_nat (cb_len q))%nat.

Lemma push_words bit q :
  queue_wf q -> length (words (push_back bit q)) = ((queue_end q + 1 + 63) / 64)%nat /\
  (forall p, bit_at (words (push_back bit q)) p = (bit && bool_decide (p = queue_end q)) || bit_at (words q) p) /\ Forall (in_u 64) (words (push_back bit q)).
Proof.
  intros Hq. pose proof (qw_offset _ Hq). pose proof (qw_len _ Hq). pose proof (qw_words _ Hq) as Hw. fold (queue_end q) in Hw.
  destruct (words_for (queue_end q)) as [H1 H2]. unfold push_back. cbn [words].
  replace (front_offset q + cb_len q) with (Z.of_nat (queue_end q)) by (unfold queue_end; lia).
  replace (Z.to_nat (Z.of_nat (queue_end q) / 64)) with (queue_end q / 64)%nat by (rewrite Z2Nat.inj_div by lia; by rewrite Nat2Z.id).
  replace (Z.of_nat (queue_end q) `mod` 64) with (Z.of_nat (queue_end q mod 64)) by (by rewrite Nat2Z.inj_mod).
  set (ws := if (_ =? length _)%nat then _ else _).
  assert (Hlen : length ws = ((queue_end q + 1 + 63) / 64)%nat).
  { unfold ws. rewrite H1, Hw. destruct (_ =? _)%nat; [rewrite length_app; cbn [length]; lia|done]. }
  assert (Hws : forall p, bit_at ws p = bit_at (words q) p). { intros p. unfold ws. destruct (queue_end q / 64 =? length (words q))%nat; [apply bit_at_snoc|done]. }
  assert (Hu : Forall (in_u 64) ws).
  { unfold ws. pose proof (qw_u64 _ Hq). destruct (queue_end q / 64 =? length (words q))%nat; [|done]. apply Forall_app. split; [done|]. by repeat constructor. }
  destruct bit; [|done]. split; [by rewrite length_alter|]. split; [intros p; rewrite bit_at_set by lia; by rewrite Hws|].
  apply Forall_alter; [done|]. intros w _ Hw'. apply lor_u64; [done|]. rewrite Z.shiftl_1_l. pose proof (Nat.mod_upper_bound (queue_end q) 64 ltac:(lia)).
  split; [lia|]. apply Z.pow_lt_mono_r; lia.
Qed.

Lemma push_back_spec bit q : queue_wf q -> queue_wf (push_back bit q) /\ queue_bits (push_back bit q) = queue_bits q ++ [bit].
Proof.
  intros Hq. destruct (push_words bit q Hq) as (Hl & Hb & Hu). pose proof (qw_len _ Hq). pose proof (qw_clear _ Hq) as Hcl.
  assert (Ee : (Z.to_nat (front_offset q) + Z.to_nat (cb_len q + 1) = queue_end q + 1)%nat) by (unfold queue_end; lia). split.
  - split; [apply Hq|cbn [cb_len push_back]; lia| | |exact Hu]; cbn [front_offset cb_len push_back]; rewrite Ee.
    + by rewrite <- Hl.
    + intros p Hp. fold (push_back bit q). change (bit_at (words (push_back bit q)) p = false). rewrite Hb, Hcl by (unfold queue_end in *; lia).
      rewrite bool_decide_false by lia. by rewrite andb_false_r.
  - unfold queue_bits. cbn [front_offset cb_len push_back]. replace (Z.to_nat (cb_len q + 1)) with (Z.to_nat (cb_len q) + 1)%nat by lia.
    rewrite seq_app, map_app. cbn [seq map]. f_equal.
    + apply map_ext_in. intros i Hi%in_seq. change (bit_at (words (push_back bit q)) (Z.to_nat (front_offset q) + i) = bit_at (words q) (Z.to_nat (front_offset q) + i)).
      rewrite Hb, bool_decide_false by (unfold queue_end; lia). by rewrite andb_false_r.
    + f_equal. change (bit_at (words (push_back bit q)) (Z.to_nat (front_offset q) + (0 + Z.to_nat (cb_len q))) = bit).
      rewrite Hb, Hcl, bool_decide_true by (unfold queue_end; lia). by rewrite andb_true_r, orb_false_r.
Qed.

Lemma bit_at_tail ws p : bit_at (tail ws) p = bit_at ws (64 + p).
Proof.
  unfold bit_at. assert ((64 + p) / 64 = S (p / 64))%nat as -> by (rewrite (Nat.add_comm 64), <- (Nat.mul_1_l 64) at 1; rewrite Nat.div_add; lia).
  assert ((64 + p) mod 64 = p mod 64)%nat as -> by (rewrite (Nat.add_comm 64); apply (Nat.Div0.mod_add p 1 64)). by destruct ws.
Qed.

Lemma pop_front_spec q :
  queue_wf q ->
  match queue_bits q with
  | [] => pop_front q = (q, None)
  | b :: rest => exists q', pop_front q = (q', Some b) /\ queue_wf q' /\ queue_bits q' = rest
  end.
Proof.
  intros Hq. pose proof (qw_offset _ Hq) as Ho. pose proof (qw_len _ Hq) as Hl. pose proof (qw_words _ Hq) as Hw. pose proof (qw_clear _ Hq) as Hcl.
  unfold pop_front. destruct (Z.eqb_spec (cb_len q) 0) as [Hz|Hz].
  { unfold queue_bits. by rewrite Hz. }
  unfold queue_bits at 1. replace (Z.to_nat (cb_len q)) with (S (Z.to_nat (cb_len q - 1))) by lia. cbn [seq map]. rewrite Nat.add_0_r.
  assert (Hbit : negb (Z.land (default 0 (head (words q))) (Z.shiftl 1 (front_offset q)) =? 0) = bit_at (words q) (Z.to_nat (front_offset q))).
  { rewrite land_bit_test by lia. unfold bit_at. rewrite Nat.div_small, Nat.mod_small by lia. rewrite Z2Nat.id by lia. by rewrite head_lookup. }
  rewrite Hbit. destruct (Z.eqb_spec (cb_len q - 1) 0) as [Hlast|Hlast].
  { exists no_commitments. rewrite Hlast. split; [|split; [apply no_commitments_wf|done]]. by destruct (_ =? 64). }
  destruct (Z.eqb_spec (front_offset q + 1) 64) as [H64|H64]; (eexists; split; [done|]); cbn [words front_offset cb_len];
    (split; [split; cbn [words front_offset cb_len]; [lia|lia| |intros p Hp|]|unfold queue_bits; cbn [words front_offset cb_len]; rewrite <- seq_shift, map_map; apply map_ext; intros i]).
  - assert (length (tail (words q)) = length (words q) - 1)%nat as -> by (destruct (words q); simpl; lia). rewrite Hw. replace (Z.to_nat (front_offset q) + Z.to_nat (cb_len q) + 63)%nat with (Z.to_nat 0 + Z.to_nat (cb_len q - 1) + 63 + 1 * 64)%nat by lia.
    rewrite Nat.div_add by lia. lia.
  - rewrite bit_at_tail. apply Hcl. lia.
  - pose proof (qw_u64 _ Hq) as Hu. revert Hu. destruct (words q); [done|]. by inversion 1.
  - rewrite bit_at_tail. f_equal. lia.
  - rewrite Hw. f_equal. lia.
  - apply Hcl. lia.
  - apply Hq.
  - f_equal. lia.
Qed.

(** Pushes and pops in any order, with what the pops return. *)
Inductive QueueOp := Push (bit : bool) | Pop.
Fixpoint run_queue (ops : list QueueOp) (q : CommitmentBits) : CommitmentBits * list (option bool) :=
  match ops with
  | [] => (q, [])
  | Push bit :: ops => run_queue ops (push_back bit q)
  | Pop :: ops => let '(q, r) := pop_front q in let '(q, rs) := run_queue ops q in (q, r :: rs)
  end.
Fixpoint run_list (ops : list QueueOp) (l : list bool) : list bool * list (option bool) :=
  match ops with
  | [] => (l, [])
  | Push bit :: ops => run_list ops (l ++ [bit])
  | Pop :: ops => let '(l', rs) := run_list ops (tail l) in (l', head l :: rs)
  end.

Lemma run_queue_spec ops q :
  queue_wf q -> queue_wf (run_queue ops q).1 /\ run_list ops (queue_bits q) = (queue_bits (run_queue ops q).1, (run_queue ops q).2).
Proof.
  revert q. induction ops as [|[bit|] ops IH]; intros q Hq; [done| |]; cbn [run_queue run_list].
  - destruct (push_back_spec bit q Hq) as [Hq' Hb]. rewrite <- Hb. by apply IH.
  - pose proof (pop_front_spec q Hq) as Hp. destruct (queue_bits q) as [|b rest] eqn:Eb.
    + rewrite Hp. destruct (IH q Hq) as [H1 H2]. rewrite Eb in H2. cbn [tail head]. rewrite H2. by destruct (run_queue ops q).
    + destruct Hp as (q' & -> & Hq' & Hb'). destruct (IH q' Hq') as [H1 H2]. rewrite Hb' in H2. cbn [tail head]. rewrite H2. by destruct (run_queue ops q').
Qed.

(** C36: the packed queue of commitments keeps its representation. After any sequence of pushes and pops the front offset is a
    bit index, the words are 64-bit integers and just as many as the bits need, unused bits are clear, and the queue holds and
    returns what a plain list of bits would. *)
Theorem commitment_queue_typed ops :
  queue_wf (run_queue ops no_commitments).1 /\
  run_list ops [] = (queue_bits (run_queue ops no_commitments).1, (run_queue ops no_commitments).2).
Proof. apply (run_queue_spec ops no_commitments), no_commitments_wf. Qed.

(** ** Chains of headers *)

Section Chains.
Context {HOps : HeaderOps} {POps : PowOps} {SyOps : SyncOps}.

(** The hash, bits and height of a block that headers can follow. *)
Definition point : Type := bytes * Z * Z.
Definition advance (p : point) (hd : Header) : point := (header_hash hd, hd_bits hd, sat_add 32 p.2 1).

(** The headers follow the point one after the other, each with its proof of work. *)
Fixpoint links (n : Network) (p : point) (hds : list Header) : bool :=
  match hds with
  | [] => true
  | hd :: hds =>
      bool_decide (prev_blockhash hd = p.1.1) && permitted_difficulty_transition n (sat_add 32 p.2 1) p.1.2 (hd_bits hd) &&
      valid_header_pow n hd && links n (advance p hd) hds
  end.

Definition total_work (w : Z) (hds : list Header) : Z := foldl (fun w hd => add_work_saturating w (work hd)) w hds.

(** The bits committed to along the headers after height [h]. *)
Section Committed.
Context (y : LowWorkHeadersSync).
Fixpoint committed (h : Z) (hds : list Header) : list bool :=
  match hds with
  | [] => []
  | hd :: hds =>
      (if sat_add 32 h 1 `mod` commitment_period y =? commit_offset y then [commitment y hd] else []) ++
      committed (sat_add 32 h 1) hds
  end.
End Committed.

(** Whether the work reaches a minimum along the headers, and the headers before that. *)
Fixpoint reaches (minimum w : Z) (hds : list Header) : bool :=
  match hds with
  | [] => false
  | hd :: hds => let w := add_work_saturating w (work hd) in (minimum <=? w) || reaches minimum w hds
  end.
Fixpoint unpaid (minimum w : Z) (hds : list Header) : list Header :=
  match hds with
  | [] => []
  | hd :: hds => let w := add_work_saturating w (work hd) in if minimum <=? w then [] else hd :: unpaid minimum w hds
  end.

Lemma links_app n p a b : links n p (a ++ b) = links n p a && links n (foldl advance p a) b.
Proof. revert p. induction a as [|hd a IH]; intros p; [done|]. simpl. rewrite IH. by rewrite !andb_assoc. Qed.

Lemma committed_app y p a b : committed y p.2 (a ++ b) = committed y p.2 a ++ committed y (foldl advance p a).2 b.
Proof. revert p. induction a as [|hd a IH]; intros p; [done|]. simpl. rewrite <- app_assoc. f_equal. apply (IH (advance p hd)). Qed.

Lemma total_work_app w a b : total_work w (a ++ b) = total_work (total_work w a) b.
Proof. apply foldl_app. Qed.

Lemma reaches_app m w a b : reaches m w (a ++ b) = reaches m w a || reaches m (total_work w a) b.
Proof. revert w. induction a as [|hd a IH]; intros w; [done|]. simpl. rewrite IH. by rewrite orb_assoc. Qed.

Lemma unpaid_app m w a b : unpaid m w (a ++ b) = unpaid m w a ++ (if reaches m w a then [] else unpaid m (total_work w a) b).
Proof. revert w. induction a as [|hd a IH]; intros w; [done|]. simpl. destruct (m <=? _); [done|]. simpl. by rewrite IH. Qed.

Lemma unpaid_all m w a : reaches m w a = false -> unpaid m w a = a.
Proof. revert w. induction a as [|hd a IH]; intros w; [done|]. simpl. intros [-> H]%orb_false_iff. by rewrite IH. Qed.

Lemma unpaid_prefix m w a : unpaid m w a `prefix_of` a.
Proof. revert w. induction a as [|hd a IH]; intros w; [done|]. simpl. destruct (_ <=? _); [apply prefix_nil|]. by apply prefix_cons. Qed.

(** ** The first pass *)

(** What the first pass knows after the headers [hds]. *)
Record presynced (y : LowWorkHeadersSync) (last : Header) (hds : list Header) (y' : LowWorkHeadersSync) (last' : Header) : Prop := {
  ps_static : exists q h w, y' = set_presync q (last_header y) h w y;
  ps_point : (header_hash last', hd_bits last', current_height y') = foldl advance (header_hash last, hd_bits last, current_height y) hds;
  ps_work : current_work y' = total_work (current_work y) hds;
  ps_queue : queue_wf (commitments y');
  ps_bits : queue_bits (commitments y') = queue_bits (commitments y) ++ committed y (current_height y) hds;
}.

Definition presync_allowed (y : LowWorkHeadersSync) (last : Header) (hds : list Header) : bool :=
  links (ls_network y) (header_hash last, hd_bits last, current_height y) hds &&
  (zlen (queue_bits (commitments y) ++ committed y (current_height y) hds) <=? max_commitments y).

Lemma presync_loop_spec hds y last :
  queue_wf (commitments y) -> zlen (queue_bits (commitments y)) <= max_commitments y ->
  if presync_allowed y last hds then exists y' last', presync_loop y last hds = (y', Some last') /\ presynced y last hds y' last'
  else (presync_loop y last hds).2 = None.
Proof.
  revert y last. induction hds as [|hd hds IH]; intros y last Hq Hmax; unfold presync_allowed; cbn [links committed presync_loop].
  { rewrite app_nil_r, (proj2 (Z.leb_le _ _)) by done. simpl. exists y, last. split; [done|]. split; try done; [|by rewrite app_nil_r].
    exists (commitments y), (current_height y), (current_work y). by destruct y. }
  cbn [fst snd]. destruct (bool_decide _); [|done]. destruct (permitted_difficulty_transition _ _ _ _); [|done]. destruct (valid_header_pow _ _); [|done].
  cbn [negb orb andb]. set (h := sat_add 32 (current_height y) 1).
  set (bits := if h `mod` commitment_period y =? commit_offset y then [commitment y hd] else []).
  set (q := if h `mod` commitment_period y =? commit_offset y then push_back (commitment y hd) (commitments y) else commitments y).
  assert (Hqs : queue_wf q /\ queue_bits q = queue_bits (commitments y) ++ bits).
  { unfold q, bits. destruct (_ =? _); [by apply push_back_spec|]. by rewrite app_nil_r. }
  destruct Hqs as [Hq' Hb]. set (y1 := set_presync q (last_header y) h (add_work_saturating (current_work y) (work hd)) y).
  assert (Hcom : committed y h hds = committed y1 (current_height y1) hds) by done.
  assert (Hall : queue_bits (commitments y) ++ bits ++ committed y h hds = queue_bits (commitments y1) ++ committed y1 (current_height y1) hds).
  { rewrite app_assoc, <- Hb. done. }
  change (advance (header_hash last, hd_bits last, current_height y) hd) with (header_hash hd, hd_bits hd, current_height y1).
  rewrite Hall. pose proof (length_queue_bits q Hq') as Hlq. destruct ((h `mod` commitment_period y =? commit_offset y) && (max_commitments y <? cb_len q)) eqn:Eover.
  - apply andb_true_iff in Eover as [_ Hover%Z.ltb_lt]. rewrite zlen_app. change (commitments y1) with q.
    pose proof (zlen_nonneg (committed y1 (current_height y1) hds)). rewrite (proj2 (Z.leb_gt _ _)) by lia. by rewrite andb_false_r.
  - assert (Hmax1 : zlen (queue_bits (commitments y1)) <= max_commitments y1).
    { change (zlen (queue_bits q) <= max_commitments y). rewrite Hlq. apply andb_false_iff in Eover as [E|E%Z.ltb_ge]; [|done].
      unfold q in *. rewrite E in *. rewrite <- Hlq in *. done. }
    specialize (IH y1 hd Hq' Hmax1). unfold presync_allowed in IH. change (ls_network y1) with (ls_network y) in IH. change (max_commitments y1) with (max_commitments y) in IH.
    destruct (_ && _); [|done]. destruct IH as (y' & last' & E & [(q0 & h0 & w0 & Hst) H1 H2 H3 H4]). exists y', last'. split; [done|].
    split; try done; [by exists q0, h0, w0|]. cbn [committed]. by rewrite H4, <- Hall.
Qed.

(** ** The second pass *)

Record redownloaded (y : LowWorkHeadersSync) (hds : list Header) (y' : LowWorkHeadersSync) : Prop := {
  rd_static : exists q hash bits h w all, y' = set_redownload q (redownload_headers y ++ hds) hash bits h w all y;
  rd_point : (redownload_last_hash y', redownload_last_bits y', redownload_height y') =
    foldl advance (redownload_last_hash y, redownload_last_bits y, redownload_height y) hds;
  rd_work : redownload_work y' = total_work (redownload_work y) hds;
  rd_all : process_all_remaining_headers y' = process_all_remaining_headers y || reaches (minimum_work y) (redownload_work y) hds;
  rd_queue : queue_wf (commitments y');
}.

(** The bits that are compared. *)
Definition checked (y : LowWorkHeadersSync) (hds : list Header) : list bool :=
  if process_all_remaining_headers y then [] else committed y (redownload_height y) (unpaid (minimum_work y) (redownload_work y) hds).

Definition redownload_links (y : LowWorkHeadersSync) (hds : list Header) : bool :=
  links (ls_network y) (redownload_last_hash y, redownload_last_bits y, redownload_height y) hds.

Lemma redownload_step q hd all y1 y hds y' :
  y1 = set_redownload q (redownload_headers y ++ [hd]) (header_hash hd) (hd_bits hd) (sat_add 32 (redownload_height y) 1)
         (add_work_saturating (redownload_work y) (work hd)) all y ->
  all = (if minimum_work y <=? add_work_saturating (redownload_work y) (work hd) then true else process_all_remaining_headers y) ->
  redownloaded y1 hds y' -> redownloaded y (hd :: hds) y'.
Proof.
  intros -> Hall [(q0 & hash & bits & h & w & all0 & Hst) H1 H2 H3 H4]. split; try done.
  - exists q0, hash, bits, h, w, all0. rewrite Hst. cbn [set_redownload redownload_headers]. by rewrite <- app_assoc.
  - rewrite H3. cbn [set_redownload process_all_remaining_headers minimum_work redownload_work reaches]. rewrite Hall.
    destruct (_ <=? _); [by rewrite orb_true_r|done].
Qed.

Lemma redownload_loop_spec hds y :
  queue_wf (commitments y) ->
  if redownload_links y hds && bool_decide (checked y hds `prefix_of` queue_bits (commitments y))
  then exists y', redownload_loop y hds = (y', true) /\ redownloaded y hds y' /\ queue_bits (commitments y) = checked y hds ++ queue_bits (commitments y')
  else (redownload_loop y hds).2 = false.
Proof.
  revert y. induction hds as [|hd hds IH]; intros y Hq; unfold redownload_links; cbn [links redownload_loop].
  { assert (checked y [] = []) as -> by (unfold checked; by destruct (process_all_remaining_headers y)). rewrite bool_decide_true by apply prefix_nil.
    exists y. split; [done|]. split; [|done]. split; try done; [|by rewrite orb_false_r].
    exists (commitments y), (redownload_last_hash y), (redownload_last_bits y), (redownload_height y), (redownload_work y), (process_all_remaining_headers y).
    rewrite app_nil_r. by destruct y. }
  cbn [fst snd]. destruct (bool_decide (prev_blockhash _ = _)); [|done]. destruct (permitted_difficulty_transition _ _ _ _); [|done]. destruct (valid_header_pow _ _); [|done].
  cbn [negb orb andb]. set (h := sat_add 32 (redownload_height y) 1). set (w := add_work_saturating (redownload_work y) (work hd)).
  set (all := if minimum_work y <=? w then true else process_all_remaining_headers y).
  set (next := fun q => set_redownload q (redownload_headers y ++ [hd]) (header_hash hd) (hd_bits hd) h w all y).
  change (links (ls_network y) (advance (redownload_last_hash y, redownload_last_bits y, redownload_height y) hd) hds) with (redownload_links (next (commitments y)) hds).
  destruct (negb all && (h `mod` commitment_period y =? commit_offset y)) eqn:Ec.
  - apply andb_true_iff in Ec as [Ea Em]. apply negb_true_iff in Ea.
    assert (Hch : forall q, checked y (hd :: hds) = commitment y hd :: checked (next q) hds).
    { intros q. assert ((minimum_work y <=? w) = false /\ process_all_remaining_headers y = false) as [Emin Eall].
      { unfold all in Ea. destruct (_ <=? _); [done|by split]. }
      unfold checked. change (process_all_remaining_headers (next q)) with all. rewrite Ea, Eall. cbn [unpaid]. fold w. rewrite Emin. cbn [committed]. fold h. by rewrite Em. }
    pose proof (pop_front_spec _ Hq) as Hpop. destruct (queue_bits (commitments y)) as [|b rest] eqn:Eb.
    + rewrite Hpop, (Hch (commitments y)). rewrite bool_decide_false by (intros [? ?]; done). by rewrite andb_false_r.
    + destruct Hpop as (q & -> & Hq' & Hb'). rewrite (Hch q). destruct (Bool.eqb (commitment y hd) b) eqn:Eq; cbn [negb].
      * apply Bool.eqb_prop in Eq. rewrite Eq. specialize (IH (next q) Hq'). change (redownload_links (next (commitments y)) hds) with (redownload_links (next q) hds).
        change (commitments (next q)) with q in IH. rewrite Hb' in IH. rewrite (bool_decide_ext _ (checked (next q) hds `prefix_of` rest)) by (split; [apply prefix_cons_inv_2|apply prefix_cons]).
        destruct (_ && _); [|done]. destruct IH as (y' & E & Hr & Hbits). exists y'. split; [done|]. split; [by eapply (redownload_step q hd all)|]. by rewrite Hbits.
      * rewrite bool_decide_false; [by rewrite andb_false_r|]. intros Hp%prefix_cons_inv_1. by rewrite Hp, Bool.eqb_reflx in Eq.
  - specialize (IH (next (commitments y)) Hq). change (commitments (next (commitments y))) with (commitments y) in IH.
    assert (Hch : checked y (hd :: hds) = checked (next (commitments y)) hds).
    { unfold checked. change (process_all_remaining_headers (next (commitments y))) with all. cbn [unpaid]. fold w.
      unfold all in *. destruct (minimum_work y <=? w); [by destruct (process_all_remaining_headers y)|].
      destruct (process_all_remaining_headers y); [done|]. cbn [negb andb] in Ec. cbn [committed]. fold h. by rewrite Ec. }
    rewrite Hch. destruct (_ && _); [|done]. destruct IH as (y' & E & Hr & Hbits). exists y'. split; [done|]. split; [by eapply (redownload_step (commitments y) hd all)|done].
Qed.

(** The buffer keeps the newest headers. *)
Lemma pop_ready_spec limit all buffer :
  0 <= limit ->
  pop_ready limit all buffer = if all then (buffer, []) else (take (length buffer - Z.to_nat limit) buffer, drop (length buffer - Z.to_nat limit) buffer).
Proof.
  intros Hl. induction buffer as [|hd buffer IH]; [by destruct all|]. cbn [pop_ready]. destruct all; [rewrite orb_true_r; by rewrite IH|].
  rewrite orb_false_r, zlen_cons, IH. unfold zlen. destruct (Z.ltb_spec limit (1 + Z.of_nat (length buffer))) as [H|H]; cbn [length].
  - by replace (S (length buffer) - Z.to_nat limit)%nat with (S (length buffer - Z.to_nat limit)) by lia.
  - by replace (S (length buffer) - Z.to_nat limit)%nat with 0%nat by lia.
Qed.
End Chains.
