(* ===== verification/HeadersSession.v ===== *)
(** * What a low-work header synchronisation guarantees

    The messages of one peer, from the start of the synchronisation: [P] are
    the headers of the first pass, [R] those of the second, and [out] those
    that were released to the index.  A peer that keeps to the protocol
    succeeds; a header of any peer is released only under headers that match
    the chain shown first, or with enough work. *)

From Stdlib Require Import ZArith Lia.
From stdpp Require Import base list option.
From S2P Require Import Prelude Types VersionBits ChainIndex BlockChecks ConnectBlock HeaderChecks HeadersSync.
Local Open Scope Z_scope.

Section Session.
Context {HOps : HeaderOps} {POps : PowOps} {SyOps : SyncOps}.

(** ** Sessions *)

Inductive session (y0 : LowWorkHeadersSync) : list Header -> list Header -> list Header -> LowWorkHeadersSync -> Prop :=
| session_new : session y0 [] [] [] y0
| session_first P R out y hds full y' r :
    session y0 P R out y -> phase y = Presync -> process hds full y = (y', r) -> success r = true -> session y0 (P ++ hds) R (out ++ ready r) y'
| session_second P R out y hds full y' r :
    session y0 P R out y -> phase y = Redownload -> process hds full y = (y', r) -> success r = true -> session y0 P (R ++ hds) (out ++ ready r) y'.

(** The fields that stay. *)
Record same_params (y0 y : LowWorkHeadersSync) : Prop := {
  sp_network : ls_network y = ls_network y0;
  sp_minimum : minimum_work y = minimum_work y0;
  sp_period : commitment_period y = commitment_period y0;
  sp_buffer : redownload_buffer_size y = redownload_buffer_size y0;
  sp_offset : commit_offset y = commit_offset y0;
  sp_salt : salt y = salt y0;
  sp_max : max_commitments y = max_commitments y0;
  sp_hash : chain_start_hash y = chain_start_hash y0;
  sp_height : chain_start_height y = chain_start_height y0;
  sp_work : chain_start_work y = chain_start_work y0;
}.

Lemma committed_same y0 y h hds : same_params y0 y -> committed y h hds = committed y0 h hds.
Proof.
  intros Hs. revert h. induction hds as [|hd hds IH]; intros h; [done|]. cbn [committed]. rewrite IH. unfold commitment.
  by rewrite (sp_period _ _ Hs), (sp_offset _ _ Hs), (sp_salt _ _ Hs).
Qed.

(** Where the chain starts. *)
Definition start_point (y0 : LowWorkHeadersSync) : point := (chain_start_hash y0, redownload_last_bits y0, chain_start_height y0).

Record fresh_sync (y0 : LowWorkHeadersSync) : Prop := {
  fs_phase : phase y0 = Presync;
  fs_last : header_hash (last_header y0) = chain_start_hash y0;
  fs_bits : hd_bits (last_header y0) = redownload_last_bits y0;
  fs_height : current_height y0 = chain_start_height y0;
  fs_work : current_work y0 = chain_start_work y0;
  fs_commitments : commitments y0 = no_commitments;
  fs_max : 0 <= max_commitments y0;
  fs_size : 0 <= redownload_buffer_size y0;
  fs_buffer : redownload_headers y0 = [];
}.

(** The first pass. *)
Record presync_ok (y0 : LowWorkHeadersSync) (P : list Header) (y : LowWorkHeadersSync) : Prop := {
  po_same : same_params y0 y;
  po_bits0 : redownload_last_bits y = redownload_last_bits y0;
  po_links : links (ls_network y0) (start_point y0) P = true;
  po_point : (header_hash (last_header y), hd_bits (last_header y), current_height y) = foldl advance (start_point y0) P;
  po_work : current_work y = total_work (chain_start_work y0) P;
  po_queue : queue_wf (commitments y);
  po_bits : queue_bits (commitments y) = committed y0 (chain_start_height y0) P;
  po_max : zlen (committed y0 (chain_start_height y0) P) <= max_commitments y0;
  po_buffer : redownload_headers y = [];
}.

(** The second pass. *)
Record redownload_ok (y0 : LowWorkHeadersSync) (P R out : list Header) (y : LowWorkHeadersSync) : Prop := {
  ro_same : same_params y0 y;
  ro_links0 : links (ls_network y0) (start_point y0) P = true;
  ro_work0 : minimum_work y0 <= total_work (chain_start_work y0) P;
  ro_max : zlen (committed y0 (chain_start_height y0) P) <= max_commitments y0;
  ro_links : links (ls_network y0) (start_point y0) R = true;
  ro_point : (redownload_last_hash y, redownload_last_bits y, redownload_height y) = foldl advance (start_point y0) R;
  ro_work : redownload_work y = total_work (chain_start_work y0) R;
  ro_all : process_all_remaining_headers y = reaches (minimum_work y0) (chain_start_work y0) R;
  ro_queue : queue_wf (commitments y);
  ro_bits : committed y0 (chain_start_height y0) P =
    committed y0 (chain_start_height y0) (unpaid (minimum_work y0) (chain_start_work y0) R) ++ queue_bits (commitments y);
  ro_buffer : out ++ redownload_headers y = R;
  ro_size : if process_all_remaining_headers y then redownload_headers y = []
            else zlen (redownload_headers y) <= redownload_buffer_size y0 /\ (out <> [] -> zlen (redownload_headers y) = redownload_buffer_size y0);
}.

Definition session_ok (y0 : LowWorkHeadersSync) (P R out : list Header) (y : LowWorkHeadersSync) : Prop :=
  match phase y with
  | Presync => R = [] /\ out = [] /\ presync_ok y0 P y
  | Redownload => redownload_ok y0 P R out y
  end.

(** ** One message *)

Definition presync_result (minimum w : Z) (full : bool) : HeadersSyncResult :=
  if minimum <=? w then {| success := true; request_more := true; ready := []; finished := false |}
  else {| success := true; request_more := full; ready := []; finished := negb full |}.

Section Messages.
Context (y0 : LowWorkHeadersSync) (Hfresh : fresh_sync y0).

Lemma fresh_session_ok : session_ok y0 [] [] [] y0.
Proof.
  unfold session_ok. rewrite (fs_phase _ Hfresh). split; [done|]. split; [done|]. destruct Hfresh as [H1 H2 H3 H4 H5 H6 H7 H8 H9].
  split; try done; unfold start_point; [by rewrite H2, H3, H4|rewrite H6; apply no_commitments_wf|by rewrite H6].
Qed.

(** Whether the first pass goes on. *)
Definition shown (P : list Header) : bool :=
  links (ls_network y0) (start_point y0) P && (zlen (committed y0 (chain_start_height y0) P) <=? max_commitments y0).

Lemma shown_allowed P y hds : presync_ok y0 P y -> presync_allowed y (last_header y) hds = shown (P ++ hds).
Proof.
  intros Hp. unfold presync_allowed, shown. pose proof (po_same _ _ _ Hp) as Hs.
  rewrite links_app, (po_links _ _ _ Hp), (committed_app y0 (start_point y0)), (po_point _ _ _ Hp), (po_bits _ _ _ Hp), (committed_same y0 y) by done.
  rewrite (sp_network _ _ Hs), (sp_max _ _ Hs). cbn [andb start_point snd]. by rewrite <- (po_point _ _ _ Hp).
Qed.

Lemma presync_message P y hds full :
  presync_ok y0 P y -> phase y = Presync -> hds <> [] ->
  if shown (P ++ hds) then
    exists y', process hds full y = (y', presync_result (minimum_work y0) (total_work (chain_start_work y0) (P ++ hds)) full) /\
      if minimum_work y0 <=? total_work (chain_start_work y0) (P ++ hds) then phase y' = Redownload /\ redownload_ok y0 (P ++ hds) [] [] y'
      else phase y' = Presync /\ presync_ok y0 (P ++ hds) y'
  else success (process hds full y).2 = false.
Proof.
  intros Hp Hph Hne. pose proof (po_same _ _ _ Hp) as Hs. unfold process. rewrite bool_decide_false, Hph by done. unfold process_presync.
  assert (Hmax : zlen (queue_bits (commitments y)) <= max_commitments y) by (rewrite (po_bits _ _ _ Hp), (sp_max _ _ Hs); apply Hp).
  pose proof (presync_loop_spec hds y (last_header y) (po_queue _ _ _ Hp) Hmax) as Hl. rewrite (shown_allowed P) in Hl by done.
  destruct (shown (P ++ hds)) eqn:Eok; swap 1 2; [by destruct (presync_loop y (last_header y) hds) as [y1 [last|]]|].
  destruct Hl as (y1 & last & -> & [(q & h & w & Hst) H1 H2 H3 H4]). apply andb_true_iff in Eok as [Hlinks Hcount%Z.leb_le].
  set (y2 := set_presync (commitments y1) last (current_height y1) (current_work y1) y1).
  assert (Hok : presync_ok y0 (P ++ hds) y2).
  { split; try done.
    - subst y2 y1. destruct Hs as []. by split.
    - subst y2 y1. apply Hp.
    - change (current_height y2) with (current_height y1). change (last_header y2) with last. rewrite H1, (po_point _ _ _ Hp). by rewrite <- foldl_app.
    - change (current_work y2) with (current_work y1). by rewrite H2, (po_work _ _ _ Hp), <- total_work_app.
    - change (commitments y2) with (commitments y1). rewrite H4, (po_bits _ _ _ Hp), (committed_same y0 y) by done.
      rewrite (committed_app y0 (start_point y0)). by rewrite <- (po_point _ _ _ Hp).
    - subst y2 y1. apply Hp. }
  change (minimum_work y2) with (minimum_work y1). change (current_work y2) with (current_work y1).
  assert (minimum_work y1 = minimum_work y0) as -> by (subst y1; apply Hs).
  pose proof (po_work _ _ _ Hok) as Hw. change (current_work y2) with (current_work y1) in Hw. rewrite Hw. unfold presync_result.
  destruct (Z.leb_spec (minimum_work y0) (total_work (chain_start_work y0) (P ++ hds))) as [Hmin|Hmin].
  - exists (start_redownload y2). split; [done|]. split; [done|]. pose proof (po_same _ _ _ Hok) as Hs2. split; try done; try apply Hok.
    + destruct Hs2. by split.
    + change ((chain_start_hash y2, redownload_last_bits y2, chain_start_height y2) = start_point y0).
      by rewrite (sp_hash _ _ Hs2), (po_bits0 _ _ _ Hok), (sp_height _ _ Hs2).
    + symmetry. apply (po_bits _ _ _ Hok).
    + split; [apply Hfresh|done].
  - exists y2. split; [by destruct full|]. split; [|done]. subst y2 y1. exact Hph.
Qed.

Definition redownload_result (done full : bool) (out : list Header) : HeadersSyncResult :=
  {| success := true; request_more := negb done && full; ready := out; finished := done || negb full |}.

(** Whether the second pass goes on. *)
Definition matches (P R : list Header) : bool :=
  links (ls_network y0) (start_point y0) R &&
  bool_decide (committed y0 (chain_start_height y0) (unpaid (minimum_work y0) (chain_start_work y0) R) `prefix_of` committed y0 (chain_start_height y0) P).

Lemma unpaid_committed R hds :
  committed y0 (chain_start_height y0) (unpaid (minimum_work y0) (chain_start_work y0) (R ++ hds)) =
  committed y0 (chain_start_height y0) (unpaid (minimum_work y0) (chain_start_work y0) R) ++
  (if reaches (minimum_work y0) (chain_start_work y0) R then []
   else committed y0 (foldl advance (start_point y0) R).2 (unpaid (minimum_work y0) (total_work (chain_start_work y0) R) hds)).
Proof.
  rewrite unpaid_app. destruct (reaches _ _ R) eqn:E; [by rewrite !app_nil_r|]. rewrite (unpaid_all _ _ R E). apply (committed_app y0 (start_point y0)).
Qed.

Lemma checked_committed P R out y hds :
  redownload_ok y0 P R out y -> checked y hds = if reaches (minimum_work y0) (chain_start_work y0) R then []
   else committed y0 (foldl advance (start_point y0) R).2 (unpaid (minimum_work y0) (total_work (chain_start_work y0) R) hds).
Proof.
  intros Hr. pose proof (ro_same _ _ _ _ _ Hr) as Hs. unfold checked. rewrite (ro_all _ _ _ _ _ Hr), (ro_work _ _ _ _ _ Hr), <- (ro_point _ _ _ _ _ Hr), (sp_minimum _ _ Hs).
  by rewrite (committed_same y0 y).
Qed.

Lemma matches_allowed P R out y hds :
  redownload_ok y0 P R out y ->
  redownload_links y hds && bool_decide (checked y hds `prefix_of` queue_bits (commitments y)) = matches P (R ++ hds).
Proof.
  intros Hr. pose proof (ro_same _ _ _ _ _ Hr) as Hs. unfold matches, redownload_links.
  rewrite links_app, (ro_links _ _ _ _ _ Hr), (ro_point _ _ _ _ _ Hr), (sp_network _ _ Hs), unpaid_committed, (checked_committed P R out) by done.
  cbn [andb]. f_equal. rewrite (ro_bits _ _ _ _ _ Hr). apply bool_decide_ext. split; [apply prefix_app|apply prefix_app_inv].
Qed.

Lemma buffer_size P R out y hds (all : bool) :
  redownload_ok y0 P R out y -> hds <> [] -> (process_all_remaining_headers y = true -> all = true) ->
  let buffer := redownload_headers y ++ hds in
  let cut := (length buffer - Z.to_nat (redownload_buffer_size y0))%nat in
  if all then (if all then [] else drop cut buffer) = []
  else zlen (if all then [] else drop cut buffer) <= redownload_buffer_size y0 /\
    (out ++ (if all then buffer else take cut buffer) <> [] -> zlen (if all then [] else drop cut buffer) = redownload_buffer_size y0).
Proof.
  intros Hr Hne Hall buffer cut. destruct all; [done|]. pose proof (ro_size _ _ _ _ _ Hr) as Hsz. destruct (process_all_remaining_headers y); [by discriminate Hall|].
  destruct Hsz as [Hle Heq]. pose proof (fs_size _ Hfresh). unfold zlen in *. rewrite length_drop. split; [unfold cut; lia|]. intros Hout.
  enough (Z.to_nat (redownload_buffer_size y0) <= length buffer)%nat by (unfold cut; lia).
  destruct out as [|o out].
  - cbn [app] in Hout. destruct (decide (cut = 0%nat)) as [E|E]; [by rewrite E, take_0 in Hout|]. unfold cut in E. lia.
  - specialize (Heq ltac:(done)). unfold buffer. rewrite length_app. lia.
Qed.

Lemma redownload_message P R out y hds full :
  redownload_ok y0 P R out y -> phase y = Redownload -> hds <> [] ->
  if matches P (R ++ hds) then
    exists y' new, process hds full y = (y', redownload_result (reaches (minimum_work y0) (chain_start_work y0) (R ++ hds)) full new) /\
      phase y' = Redownload /\ redownload_ok y0 P (R ++ hds) (out ++ new) y'
  else success (process hds full y).2 = false.
Proof.
  intros Hr Hph Hne. pose proof (ro_same _ _ _ _ _ Hr) as Hs. unfold process. rewrite bool_decide_false, Hph by done. unfold process_redownload.
  pose proof (redownload_loop_spec hds y (ro_queue _ _ _ _ _ Hr)) as Hl. rewrite (matches_allowed P R out) in Hl by done.
  destruct (matches P (R ++ hds)) eqn:Em; swap 1 2; [by destruct (redownload_loop y hds) as [y1 []]|].
  destruct Hl as (y1 & -> & [(q & hash & bits & h & w & all & Hst) H1 H2 H3 H4] & Hbits). apply andb_true_iff in Em as [Hlinks _].
  assert (Hs1 : same_params y0 y1) by (subst y1; destruct Hs; by split).
  assert (Hall : process_all_remaining_headers y1 = reaches (minimum_work y0) (chain_start_work y0) (R ++ hds)).
  { by rewrite H3, (ro_all _ _ _ _ _ Hr), (ro_work _ _ _ _ _ Hr), (sp_minimum _ _ Hs), <- reaches_app. }
  assert (Hbuf : redownload_headers y1 = redownload_headers y ++ hds) by by subst y1.
  unfold pop_ready_headers. rewrite pop_ready_spec by (rewrite (sp_buffer _ _ Hs1); apply Hfresh). rewrite (sp_buffer _ _ Hs1).
  set (cut := (length (redownload_headers y1) - Z.to_nat (redownload_buffer_size y0))%nat).
  set (new := if process_all_remaining_headers y1 then redownload_headers y1 else take cut (redownload_headers y1)).
  set (kept := if process_all_remaining_headers y1 then [] else drop cut (redownload_headers y1)).
  set (y2 := fun kept => set_redownload (commitments y1) kept (redownload_last_hash y1) (redownload_last_bits y1) (redownload_height y1) (redownload_work y1)
              (process_all_remaining_headers y1) y1).
  assert (Hpr : redownload_ok y0 P (R ++ hds) (out ++ new) (y2 kept)).
  { split; try done; try apply Hr.
    - destruct Hs1. by split.
    - change ((redownload_last_hash y1, redownload_last_bits y1, redownload_height y1) = foldl advance (start_point y0) (R ++ hds)).
      by rewrite H1, (ro_point _ _ _ _ _ Hr), <- foldl_app.
    - change (redownload_work y1 = total_work (chain_start_work y0) (R ++ hds)). by rewrite H2, (ro_work _ _ _ _ _ Hr), <- total_work_app.
    - change (commitments (y2 kept)) with (commitments y1). rewrite unpaid_committed, <- app_assoc, (ro_bits _ _ _ _ _ Hr), Hbits. by rewrite (checked_committed P R out).
    - change (redownload_headers (y2 kept)) with kept. rewrite <- app_assoc, <- (ro_buffer _ _ _ _ _ Hr), <- app_assoc, <- Hbuf. f_equal. unfold new, kept.
      destruct (process_all_remaining_headers y1); [by rewrite app_nil_r|apply take_drop].
    - change (redownload_headers (y2 kept)) with kept. change (process_all_remaining_headers (y2 kept)) with (process_all_remaining_headers y1).
      unfold kept, new, cut. rewrite Hbuf. apply (buffer_size P R out y hds); try done. intros Hy. by rewrite H3, Hy. }
  assert (E : (if process_all_remaining_headers y1 then (redownload_headers y1, []) else (take cut (redownload_headers y1), drop cut (redownload_headers y1))) = (new, kept)).
  { unfold new, kept. by destruct (process_all_remaining_headers y1). }
  rewrite E. exists (y2 kept), new. split; [|split; [subst y1; exact Hph|done]]. unfold redownload_result. rewrite <- Hall.
  assert (bool_decide (kept = []) && process_all_remaining_headers y1 = process_all_remaining_headers y1) as Hd.
  { unfold kept. by destruct (process_all_remaining_headers y1); [|rewrite andb_false_r]. }
  cbn [redownload_headers process_all_remaining_headers set_redownload]. by rewrite Hd.
Qed.

Lemma session_sound P R out y : session y0 P R out y -> session_ok y0 P R out y.
Proof.
  induction 1 as [|P R out y hds full y' r _ IH Hph Hpr Hsu|P R out y hds full y' r _ IH Hph Hpr Hsu]; [apply fresh_session_ok| |];
    unfold session_ok in IH |- *; rewrite Hph in IH; (destruct (decide (hds = [])) as [->|Hne]; [unfold process in Hpr; simpl in Hpr; by injection Hpr as <- <-|]).
  - destruct IH as (-> & -> & IH). pose proof (presync_message P y hds full IH Hph Hne) as Hm. rewrite Hpr in Hm. destruct (shown _); [|simpl in Hm; congruence].
    destruct Hm as (y1 & [= <- ->] & Hm). unfold presync_result. destruct (_ <=? _); destruct Hm as [-> Hm]; done.
  - pose proof (redownload_message P R out y hds full IH Hph Hne) as Hm. rewrite Hpr in Hm. destruct (matches _ _); [|simpl in Hm; congruence].
    destruct Hm as (y1 & new & [= <- ->] & -> & Hm). done.
Qed.
End Messages.

(** ** Work and commitments along a chain *)

Lemma reaches_take m w a : reaches m w a = true -> exists k, m <= total_work w (take k a).
Proof.
  revert w. induction a as [|hd a IH]; intros w; [done|]. cbn [reaches]. intros [H%Z.leb_le|H]%orb_true_iff.
  - by exists 1%nat.
  - destruct (IH _ H) as [k Hk]. by exists (S k).
Qed.

Lemma total_reaches m w a : a <> [] -> m <= total_work w a -> reaches m w a = true.
Proof.
  induction a as [|hd a _] using rev_ind; intros Hne Hm; [done|]. rewrite reaches_app. rewrite total_work_app in Hm. cbn [reaches total_work foldl] in *.
  apply orb_true_iff. right. by rewrite (proj2 (Z.leb_le _ _)).
Qed.

(** A peer that sends the same chain again has nothing to fear. *)
Lemma unpaid_shown m w P R H :
  P `prefix_of` H -> R `prefix_of` H -> reaches m w P = true -> unpaid m w R `prefix_of` P.
Proof.
  intros HP HR Hre. destruct (prefix_weak_total _ _ _ HP HR) as [[b ->]|HRP].
  - rewrite unpaid_app, Hre, app_nil_r. apply unpaid_prefix.
  - etrans; [apply unpaid_prefix|done].
Qed.

Lemma committed_prefix y h a b : a `prefix_of` b -> committed y h a `prefix_of` committed y h b.
Proof. intros [c ->]. rewrite (committed_app y ([], 0, h)). by eexists. Qed.

Lemma advance_height p a : p.2 + zlen a <= umax 32 -> (foldl advance p a).2 = p.2 + zlen a.
Proof.
  revert p. induction a as [|hd a IH]; intros p Hp; rewrite ?zlen_nil, ?zlen_cons in *; [simpl; lia|]. cbn [foldl]. pose proof (zlen_nonneg a).
  assert ((advance p hd).2 = p.2 + 1) as E by (unfold advance, sat_add; simpl; lia). rewrite IH, E by lia. lia.
Qed.

(** One commitment in each period. *)
Lemma committed_period y h a :
  0 < commitment_period y -> 0 <= commit_offset y < commitment_period y -> 0 <= h -> h + zlen a <= umax 32 -> commitment_period y <= zlen a ->
  (1 <= length (committed y h a))%nat.
Proof.
  intros Hp Ho Hh Hmax Hlen. set (i := (commit_offset y - (h + 1)) `mod` commitment_period y).
  assert (Hi : 0 <= i < commitment_period y) by (unfold i; apply Z.mod_pos_bound; lia).
  destruct (lookup_lt_is_Some_2 a (Z.to_nat i)) as [hd Ehd]; [unfold zlen in Hlen; lia|]. rewrite <- (take_drop_middle a _ _ Ehd).
  rewrite (committed_app y ([], 0, h)), length_app. cbn [committed snd].
  assert (Hzt : zlen (take (Z.to_nat i) a) = i) by (unfold zlen in *; rewrite length_take; lia).
  rewrite (advance_height ([], 0, h)) by (rewrite Hzt; cbn [snd]; lia). cbn [snd]. rewrite Hzt.
  replace (sat_add 32 (h + i) 1) with (h + 1 + i) by (unfold sat_add; lia).
  assert ((h + 1 + i) `mod` commitment_period y = commit_offset y) as ->.
  { unfold i. rewrite Zplus_mod_idemp_r. replace (h + 1 + _) with (commit_offset y) by lia. apply Z.mod_small. lia. }
  rewrite Z.eqb_refl. simpl. lia.
Qed.

Lemma committed_count y h a k :
  0 < commitment_period y -> 0 <= commit_offset y < commitment_period y -> 0 <= h -> h + zlen a <= umax 32 ->
  Z.of_nat k * commitment_period y <= zlen a -> (k <= length (committed y h a))%nat.
Proof.
  intros Hp Ho. revert h a. induction k as [|k IH]; intros h a Hh Hmax Hlen; [lia|]. set (n := Z.to_nat (commitment_period y)).
  rewrite <- (take_drop n a), (committed_app y ([], 0, h)), length_app. cbn [snd].
  assert (Ht : zlen (take n a) = commitment_period y) by (unfold zlen in *; rewrite length_take; lia).
  assert (Hd : zlen (drop n a) = zlen a - commitment_period y) by (unfold zlen in *; rewrite length_drop; lia).
  rewrite (advance_height ([], 0, h)) by (cbn [snd]; lia). cbn [snd]. rewrite Ht.
  pose proof (committed_period y h (take n a) Hp Ho Hh ltac:(lia) ltac:(lia)). specialize (IH (h + commitment_period y) (drop n a)). lia.
Qed.

(** At most one. *)
Lemma committed_none y h a q d :
  0 < commitment_period y -> 0 <= commit_offset y < commitment_period y -> h + zlen a <= umax 32 ->
  h = commit_offset y + q * commitment_period y + d -> 0 <= d -> d + zlen a < commitment_period y -> committed y h a = [].
Proof.
  intros Hp Ho. revert h d. induction a as [|hd a IH]; intros h d Hmax Hh Hd Hlen; [done|]. rewrite zlen_cons in *. pose proof (zlen_nonneg a). cbn [committed].
  replace (sat_add 32 h 1) with (h + 1) by (unfold sat_add; lia). rewrite (IH (h + 1) (d + 1)) by lia.
  destruct (Z.eqb_spec ((h + 1) `mod` commitment_period y) (commit_offset y)) as [E|]; [|done]. exfalso.
  replace (h + 1) with (commit_offset y + (d + 1) + q * commitment_period y) in E by lia. rewrite Z.mod_add in E by lia.
  destruct (Z.lt_ge_cases (commit_offset y + (d + 1)) (commitment_period y)); [rewrite Z.mod_small in E by lia; lia|].
  rewrite <- (Z.mod_add _ (-1)) in E by lia. rewrite Z.mod_small in E by lia. lia.
Qed.

Lemma committed_at_most_one y h a :
  0 < commitment_period y -> 0 <= commit_offset y < commitment_period y -> h + zlen a <= umax 32 -> zlen a <= commitment_period y -> zlen (committed y h a) <= 1.
Proof.
  intros Hp Ho. revert h. induction a as [|hd a IH]; intros h Hmax Hlen; [done|]. rewrite zlen_cons in *. pose proof (zlen_nonneg a). cbn [committed].
  replace (sat_add 32 h 1) with (h + 1) by (unfold sat_add; lia). destruct (Z.eqb_spec ((h + 1) `mod` commitment_period y) (commit_offset y)) as [E|]; [|apply IH; lia].
  rewrite (committed_none y (h + 1) a ((h + 1) / commitment_period y) 0); [done|lia|lia|lia| |lia|lia].
  rewrite <- E. rewrite (Z.div_mod (h + 1) (commitment_period y)) at 1 by lia. lia.
Qed.

Lemma committed_bound y h a k :
  0 < commitment_period y -> 0 <= commit_offset y < commitment_period y -> h + zlen a <= umax 32 ->
  zlen a <= Z.of_nat k * commitment_period y -> zlen (committed y h a) <= Z.of_nat k.
Proof.
  intros Hp Ho. revert h a. induction k as [|k IH]; intros h a Hmax Hlen.
  { destruct a; [done|]. rewrite zlen_cons in Hlen. pose proof (zlen_nonneg a). lia. }
  set (n := Z.to_nat (commitment_period y)). destruct (Z.le_gt_cases (zlen a) (commitment_period y)) as [H|H].
  { pose proof (committed_at_most_one y h a Hp Ho Hmax H). lia. }
  rewrite <- (take_drop n a), (committed_app y ([], 0, h)), zlen_app. cbn [snd].
  assert (Ht : zlen (take n a) = commitment_period y) by (unfold zlen in *; rewrite length_take; lia).
  assert (Hd : zlen (drop n a) = zlen a - commitment_period y) by (unfold zlen in *; rewrite length_drop; lia).
  rewrite (advance_height ([], 0, h)) by (cbn [snd]; lia). cbn [snd]. rewrite Ht.
  pose proof (committed_at_most_one y h (take n a) Hp Ho ltac:(lia) ltac:(lia)). specialize (IH (h + commitment_period y) (drop n a) ltac:(lia) ltac:(lia)). lia.
Qed.

Lemma new_sync_fresh now random_offset random_salt n minimum start_hash h w hd median :
  header_hash hd = start_hash -> fresh_sync (new_sync now random_offset random_salt n minimum start_hash h w hd median).
Proof.
  intros Hh. split; try done. cbn [new_sync max_commitments sync_params]. apply Z.div_pos; [|lia]. unfold sat_mul, sat_add, sat_sub, MAX_FUTURE_BLOCK_TIME_SECS, umax. lia.
Qed.

Lemma session_max y0 P R out y : fresh_sync y0 -> session y0 P R out y -> max_commitments y = max_commitments y0.
Proof.
  intros Hf Hs%(session_sound y0 Hf). unfold session_ok in Hs. destruct (phase y); [destruct Hs as (_ & _ & Hs); apply (po_same _ _ _ Hs)|apply (ro_same _ _ _ _ _ Hs)].
Qed.

(** ** What is released *)

Section Released.
Context (now random_offset : Z) (random_salt : bytes) (n : Network) (minimum : Z) (start_hash : bytes) (h0 w0 : Z) (start_header : Header) (median : Z).
Let y0 := new_sync now random_offset random_salt n minimum start_hash h0 w0 start_header median.
Let start : point := (start_hash, hd_bits start_header, h0).

(** The chain shown first, the chain sent again, and what is released of it. *)
Record released (P R out : list Header) : Prop := {
  rl_shown : links n start P = true /\ minimum <= total_work w0 P;
  rl_links : links n start R = true;
  rl_prefix : out `prefix_of` R;
  (** the chain sent again has the work, or the released headers are below
      enough headers whose commitments are right *)
  rl_proof : (exists k, minimum <= total_work w0 (take k R)) \/
    zlen R = zlen out + 15009 /\ committed y0 h0 R `prefix_of` committed y0 h0 P /\
    (h0 + zlen R <= umax 32 -> 23 <= zlen (committed y0 (h0 + zlen out) (drop (length out) R)));
}.

Lemma session_released P R out y :
  header_hash start_header = start_hash -> 0 <= h0 -> session y0 P R out y ->
  zlen (redownload_headers y) <= 15009 /\ cb_len (commitments y) <= max_commitments y0 /\ (out <> [] -> released P R out).
Proof.
  intros Hstart Hh0 Hs. pose proof (new_sync_fresh now random_offset random_salt n minimum start_hash h0 w0 start_header median Hstart) as Hf. fold y0 in Hf.
  apply (session_sound y0 Hf) in Hs. unfold session_ok in Hs. destruct (phase y).
  - destruct Hs as (-> & -> & Hs). split_and!; try done; [by rewrite (po_buffer _ _ _ Hs), zlen_nil|].
    rewrite <- (length_queue_bits _ (po_queue _ _ _ Hs)), (po_bits _ _ _ Hs). apply Hs.
  - pose proof (ro_size _ _ _ _ _ Hs) as Hsz. pose proof (ro_all _ _ _ _ _ Hs) as Hall.
    assert (Hq : cb_len (commitments y) <= max_commitments y0).
    { rewrite <- (length_queue_bits _ (ro_queue _ _ _ _ _ Hs)). pose proof (ro_max _ _ _ _ _ Hs) as Hm. rewrite (ro_bits _ _ _ _ _ Hs), zlen_app in Hm.
      pose proof (zlen_nonneg (committed y0 (chain_start_height y0) (unpaid (minimum_work y0) (chain_start_work y0) R))). lia. }
    pose proof (ro_buffer _ _ _ _ _ Hs) as HR. assert (HzR : zlen R = zlen out + zlen (redownload_headers y)) by by rewrite <- HR, zlen_app.
    split; [destruct (process_all_remaining_headers y); [by rewrite Hsz, zlen_nil|apply Hsz]|]. split; [done|]. intros Hout.
    split; [split; apply Hs|apply Hs|rewrite <- HR; by eexists|]. destruct (process_all_remaining_headers y).
    + left. by apply reaches_take.
    + right. destruct Hsz as [_ Hsz]. specialize (Hsz Hout). change (redownload_buffer_size y0) with 15009 in Hsz. split; [lia|].
      split. { pose proof (ro_bits _ _ _ _ _ Hs) as Hb. rewrite unpaid_all in Hb by done. change (chain_start_height y0) with h0 in Hb. rewrite Hb. by eexists. }
      intros Hmax. rewrite <- HR, drop_app_length. pose proof (zlen_nonneg out).
      set (l := committed _ _ _). enough (23 <= length l)%nat by (unfold zlen; lia). unfold l. apply committed_count; cbn [y0 new_sync sync_params commitment_period commit_offset]; [lia|apply Z.mod_pos_bound; lia|lia|lia|lia].
Qed.
End Released.
End Session.
