(* ===== verification/HeadersPeer.v ===== *)
(** * Headers from a peer ([p2p.rs])

    What a [headers] message does to the index and to the synchroniser of its
    peer, and the question that is sent next.  The requests for block bodies
    that follow, and what is remembered of the peer, are left out. *)

From Stdlib Require Import ZArith Lia.
From stdpp Require Import base list option gmap sets.
From S2P Require Import Prelude Types VersionBits ChainIndex BlockChecks ConnectBlock HeaderChecks ChainManager Locator HeadersSync HeadersSession.
Local Open Scope Z_scope.

(** ** Permissions ([config.rs]) *)

Definition NO_BAN : Z := Z.lor (Z.shiftl 1 3) (Z.shiftl 1 5).
Definition DOWNLOAD : Z := Z.shiftl 1 5.
Definition has_permission (permissions permission : Z) : bool := Z.land permissions permission =? permission.

(** What the handler takes from its surroundings: the clock, the random values
    of a new synchroniser, and the peer. *)
Record PeerContext := {
  pc_now : Z;
  pc_offset : Z;
  pc_salt : bytes;
  permissions : Z;
  (** [cached_invalid_headers_should_disconnect] *)
  pc_inbound : bool;
  pc_manual : bool;
}.

Definition cached_invalid_headers_should_disconnect (inbound manual : bool) : bool := negb inbound && negb manual.
Definition getheaders_should_suppress_for_low_work (active_work minimum_chain_work permissions : Z) : bool :=
  (active_work <? minimum_chain_work) && negb (has_permission permissions DOWNLOAD).

(** The end of the connection, nothing more, or the next [getheaders]. *)
Inductive Reply := Disconnect | Quiet | GetHeadersFrom (locator : list bytes).

Section Peer.
Context {HOps : HeaderOps} {POps : PowOps} {SyOps : SyncOps} (cf : Config) (pc : PeerContext).

Definition missing_headers_parent (c : ChainState) (hds : list Header) : option bytes :=
  match hds with
  | hd :: _ => if bool_decide (is_Some (block_index c !! prev_blockhash hd)) then None else Some (prev_blockhash hd)
  | [] => None
  end.

(** The active tip is indexed. *)
Definition tip_work_of (c : ChainState) : Z := from_option chain_work 0 (block_index c !! best_hash c).
Definition headers_sync_work_threshold (c : ChainState) : Z :=
  anti_dos_work_threshold (tip_work_of c) (from_option work 0 (headers c !! Z.to_nat (tip_height c))) (cf_minimum_chain_work cf).

Definition next_locator (c : ChainState) (y : LowWorkHeadersSync) : list bytes :=
  let last_hash := match phase y with Presync => header_hash (last_header y) | Redownload => redownload_last_hash y end in
  foldl (fun locator hash => if bool_decide (hash ∈ locator) then locator else locator ++ [hash]) [last_hash]
    (block_locator_hashes_from c (chain_start_hash y)).

(** [best_header_locator_hashes]; the best header is cached on the way. *)
Definition best_header_locator_hashes (c : ChainState) : ChainState * list bytes :=
  match best_header_tip c with
  | Some (hash, _, c) => (c, block_locator_hashes_from c hash)
  | None => (c, [])
  end.

(** ** Which headers go to the index *)

Definition claimed_work (hds : list Header) : Z := total_work 0 hds.

Definition low_work (c : ChainState) (hds : list Header) : option (Header * Z) :=
  hd ← head hds;
  parent ← block_index c !! prev_blockhash hd;
  if (add_work_saturating (chain_work parent) (claimed_work hds) <? headers_sync_work_threshold c) &&
     negb (has_permission (permissions pc) DOWNLOAD) && negb (has_permission (permissions pc) NO_BAN)
  then Some (ChainIndex.header parent, chain_work parent) else None.

Definition new_peer_sync (c : ChainState) (parent_hash : bytes) (parent_header : Header) (parent_work : Z) : LowWorkHeadersSync :=
  new_sync (pc_now pc) (pc_offset pc) (pc_salt pc) (ChainIndex.network c) (headers_sync_work_threshold c) parent_hash
    (from_option ChainIndex.height 0 (block_index c !! parent_hash)) parent_work parent_header
    (default (hd_time parent_header) (HeaderChecks.median_time_past_for_hash c parent_hash)).

(** The headers to accept with the question of the synchroniser and whether it
    has finished, or an early return; and the synchroniser. *)
Record Selection := {
  sl_headers : list Header;
  sl_locator : option (list bytes);
  sl_finished : bool;
}.

Definition run_sync (c : ChainState) (hds : list Header) (full : bool) (y : LowWorkHeadersSync) : option (LowWorkHeadersSync * Selection) :=
  let '(y, r) := process hds full y in
  if success r then
    Some (y, {| sl_headers := ready r; sl_locator := if request_more r then Some (next_locator c y) else None; sl_finished := finished r |})
  else None.

Definition select_headers (c : ChainState) (hds : list Header) (full : bool) (sync : option LowWorkHeadersSync)
  : option LowWorkHeadersSync * option Selection :=
  match sync with
  | Some y =>
      match run_sync c hds full y with
      | None => (None, None)
      | Some (y, s) => (Some y, Some s)
      end
  | None =>
      match low_work c hds with
      | Some (parent_header, parent_work) =>
          if negb full then (None, None)
          else
            match run_sync c hds full (new_peer_sync c (from_option prev_blockhash [] (head hds)) parent_header parent_work) with
            | None => (None, None)
            | Some (y, s) => (if sl_finished s then None else Some y, Some s)
            end
      | None => (None, Some {| sl_headers := hds; sl_locator := None; sl_finished := false |})
      end
  end.

(** ** The message *)

(** Whether the header that fails is one that is known and on an invalidated branch. *)
Fixpoint fails_on_invalidated (c : ChainState) (hds : list Header) : bool :=
  match hds with
  | [] => false
  | hd :: hds =>
      match accept_header cf (pc_now pc) hd c with
      | (c, Ok _) => fails_on_invalidated c hds
      | (c, Err _) =>
          match block_index c !! header_hash hd with
          | Some existing => bool_decide (ChainIndex.header existing = hd)
          | None => false
          end
      end
  end.

Definition next_question (c : ChainState) (full : bool) (sync : option LowWorkHeadersSync) (s : Selection)
  : ChainState * Reply :=
  match sl_locator s with
  | Some locator => (c, GetHeadersFrom locator)
  | None =>
      if full && bool_decide (sync = None) then
        match list.last (sl_headers s) with
        | Some hd => (c, GetHeadersFrom (block_locator_hashes_from c (header_hash hd)))
        | None => let '(c, locator) := best_header_locator_hashes c in (c, GetHeadersFrom locator)
        end
      else (c, Quiet)
  end.

(** The rest of the message, with the headers that were selected. *)
Definition accept_selected (full : bool) (sync : option LowWorkHeadersSync) (s : Selection) (c : ChainState)
  : ChainState * option LowWorkHeadersSync * Reply :=
  match missing_headers_parent c (sl_headers s) with
  | Some _ => let '(c, locator) := best_header_locator_hashes c in (c, sync, GetHeadersFrom locator)
  | None =>
      let sync := if sl_finished s then None else sync in
      let '(c', r) := accept_headers_internal cf (pc_now pc) (sl_headers s) c in
      match r with
      | Err _ =>
          if fails_on_invalidated c (sl_headers s) && negb (cached_invalid_headers_should_disconnect (pc_inbound pc) (pc_manual pc))
          then let '(c', reply) := next_question c' full sync s in (c', sync, reply)
          else (c', sync, Disconnect)
      | Ok _ => let '(c', reply) := next_question c' full sync s in (c', sync, reply)
      end
  end.

Definition receive_headers (hds : list Header) (c : ChainState) (sync : option LowWorkHeadersSync)
  : ChainState * option LowWorkHeadersSync * Reply :=
  let full := (length hds =? MAX_HEADERS)%nat in
  if bool_decide (hds = []) then (c, None, Quiet)
  else if negb (headers_are_continuous hds) then (c, sync, Disconnect)
  else if existsb (fun hd => negb (valid_header_pow (ChainIndex.network c) hd)) hds then
    (c, sync, if has_permission (permissions pc) NO_BAN then Quiet else Disconnect)
  else
    match select_headers c hds full sync with
    | (sync, None) => (c, sync, Quiet)
    | (sync, Some s) => accept_selected full sync s c
    end.

(** ** The question of a peer *)

Definition STALE_RELAY_AGE_LIMIT_SECS : Z := 30 * 24 * 60 * 60.

Definition answer_getheaders (c : ChainState) (locator : list bytes) (stop_hash : bytes) : option (list Header) :=
  if getheaders_should_suppress_for_low_work (tip_work_of c) (cf_minimum_chain_work cf) (permissions pc) then Some []
  else headers_for_getheaders c locator stop_hash STALE_RELAY_AGE_LIMIT_SECS.
End Peer.
