(* ===== verification/HeadersTheorems.v ===== *)
(** * What peers can do with headers

    Two theorems: headers of a peer that has shown no work do not reach the
    index, whatever it sends; and a node that asks a peer with a good chain
    learns all its headers, through the low-work synchronisation where that is
    needed. *)

From Stdlib Require Import ZArith Lia.
From stdpp Require Import base list option gmap sets.
From S2P Require Import Prelude Types VersionBits ChainIndex BlockChecks ConnectBlock HeaderChecks ChainManager Locator HeadersSync HeadersSession HeadersPeer.
Local Open Scope Z_scope.

Section Safety.
Context {Ops : BitcoinOps} {HOps : HeaderOps} {POps : PowOps} {SyOps : SyncOps} (cf : Config).

(** ** Only the headers of the list are indexed *)

Lemma index_header_dom c hash hd c' h : index_header c hash hd = Some c' -> is_Some (block_index c' !! h) -> h = hash \/ is_Some (block_index c !! h).
Proof.
  unfold index_header. destruct (block_index c !! prev_blockhash hd) as [parent|]; [|done]. cbn [mbind option_bind].
  destruct (child_node c hd _) as [node|]; [|done]. cbn [mbind option_bind]. intros [= <-].
  destruct (assign_header_sequence_same (set_block_index <[hash:=node]> c) hash) as (-> & _). cbn [set_block_index block_index].
  destruct (decide (h = hash)) as [->|Hne]; [by left|]. rewrite lookup_insert_ne by done. by right.
Qed.

Lemma accept_header_dom now hd c h :
  is_Some (block_index (accept_header cf now hd c).1 !! h) -> h = header_hash hd \/ is_Some (block_index c !! h).
Proof.
  unfold accept_header. destruct (block_index c !! header_hash hd) as [existing|]; [by right|]. destruct (block_index c !! prev_blockhash hd) as [parent|]; [|by right].
  destruct (has_invalid_ancestor _ _); [by right|]. match goal with |- context [match ?r with Ok _ => _ | Err _ => _ end] => destruct r as [[]|] end; [|by right].
  destruct (index_header c (header_hash hd) hd) as [c1|] eqn:E; [|by right]. by apply (index_header_dom c _ hd).
Qed.

Lemma accept_headers_dom now hds c h :
  is_Some (block_index (accept_headers_internal cf now hds c).1 !! h) -> h ∈ map header_hash hds \/ is_Some (block_index c !! h).
Proof.
  revert c. induction hds as [|hd hds IH]; intros c; cbn [accept_headers_internal map]; [by right|].
  pose proof (accept_header_dom now hd c h) as Hd. destruct (accept_header cf now hd c) as [c1 [hash|e]]; cbn [fst] in *.
  - specialize (IH c1). destruct (accept_headers_internal cf now hds c1) as [c2 r]. cbn [fst] in *. intros [H|H]%IH; [left; by right|].
    destruct (Hd H) as [->|]; [left; left|by right].
  - intros [->|]%Hd; [left; left|by right].
Qed.

Lemma best_locator_index c : block_index (best_header_locator_hashes c).1 = block_index c.
Proof.
  unfold best_header_locator_hashes, best_header_tip.
  destruct (hash ← best_header_hash c; _) as [[hash node]|]; [done|]. destruct (max_by _ _ _) as [[hash node]|]; done.
Qed.

Lemma next_question_index c full sync s : block_index (next_question c full sync s).1 = block_index c.
Proof.
  unfold next_question. destruct (sl_locator s); [done|]. destruct (_ && _); [|done]. destruct (list.last _); [done|].
  pose proof (best_locator_index c) as H. by destruct (best_header_locator_hashes c).
Qed.

(** ** Headers with work behind them *)

(** [seen] are the states of the chain that the messages of the peer met. *)
Inductive earned (seen : list ChainState) (l : list Header) : Prop :=
| earned_claim c hd parent :
    c ∈ seen -> head l = Some hd -> block_index c !! prev_blockhash hd = Some parent ->
    headers_sync_work_threshold cf c <= add_work_saturating (chain_work parent) (claimed_work l) -> earned seen l
| earned_shown c pc parent_hash parent P R out :
    c ∈ seen -> block_index c !! parent_hash = Some parent -> l `suffix_of` out ->
    released (pc_now pc) (pc_offset pc) (pc_salt pc) (ChainIndex.network c) (headers_sync_work_threshold cf c) parent_hash (ChainIndex.height parent)
      (chain_work parent) (ChainIndex.header parent) (default (hd_time (ChainIndex.header parent)) (HeaderChecks.median_time_past_for_hash c parent_hash)) P R out ->
    earned seen l.

Definition index_keyed (c : ChainState) : Prop :=
  forall hash node, block_index c !! hash = Some node -> header_hash (ChainIndex.header node) = hash /\ 0 <= ChainIndex.height node.
Definition unprivileged (pc : PeerContext) : Prop :=
  has_permission (permissions pc) DOWNLOAD = false /\ has_permission (permissions pc) NO_BAN = false.

(** The messages of one peer.  The chain may be any other at each of them. *)
Inductive peer_run : list ChainState -> gset bytes -> option LowWorkHeadersSync -> Prop :=
| run_start : peer_run [] ∅ None
| run_message seen new sync pc hds c c' sync' reply :
    peer_run seen new sync -> index_keyed c -> unprivileged pc -> receive_headers cf pc hds c sync = (c', sync', reply) ->
    peer_run (c :: seen) (new ∪ (dom (block_index c') ∖ dom (block_index c))) sync'.

Definition sync_ok (seen : list ChainState) (sync : option LowWorkHeadersSync) : Prop :=
  match sync with
  | None => True
  | Some y => exists c pc parent_hash parent P R out,
      c ∈ seen /\ index_keyed c /\ block_index c !! parent_hash = Some parent /\
      session (new_peer_sync cf pc c parent_hash (ChainIndex.header parent) (chain_work parent)) P R out y
  end.

Lemma sync_ok_more c seen sync : sync_ok seen sync -> sync_ok (c :: seen) sync.
Proof. destruct sync as [y|]; [|done]. intros (c0 & pc & ph & p & P & R & out & H1 & H). exists c0, pc, ph, p, P, R, out. split; [by right|done]. Qed.

(** One message of a session. *)
Lemma run_sync_ok seen c hds full y y' s :
  sync_ok seen (Some y) -> run_sync c hds full y = Some (y', s) -> sync_ok seen (Some y') /\ (sl_headers s = [] \/ earned seen (sl_headers s)).
Proof.
  intros (c0 & pc & ph & p & P & R & out & Hin & Hk & Hp & Hses). unfold run_sync. destruct (process hds full y) as [y1 r] eqn:Epr.
  destruct (success r) eqn:Esu; [|done]. intros [= <- <-]. cbn [sl_headers].
  assert (exists P' R', session (new_peer_sync cf pc c0 ph (ChainIndex.header p) (chain_work p)) P' R' (out ++ ready r) y1) as (P' & R' & Hses').
  { destruct (phase y) eqn:Eph; [exists (P ++ hds), R; by eapply session_first|exists P, (R ++ hds); by eapply session_second]. }
  split; [by exists c0, pc, ph, p, P', R', (out ++ ready r)|]. destruct (ready r) as [|hd l] eqn:Er; [by left|right].
  destruct (Hk _ _ Hp) as [Hkey Hh0]. unfold new_peer_sync in Hses'. rewrite Hp in Hses'. cbn [from_option] in Hses'.
  destruct (session_released _ _ _ _ _ _ _ _ _ _ P' R' _ y1 Hkey Hh0 Hses') as (_ & _ & Hrel).
  apply (earned_shown seen (hd :: l) c0 pc ph p P' R' (out ++ hd :: l)); [done|done|by eexists|]. apply Hrel. by destruct out.
Qed.

Lemma select_ok seen c pc hds full sync sync' o :
  sync_ok seen sync -> index_keyed c -> unprivileged pc -> select_headers cf pc c hds full sync = (sync', o) ->
  sync_ok (c :: seen) sync' /\
  (forall s, o = Some s -> missing_headers_parent c (sl_headers s) = None -> sl_headers s = [] \/ earned (c :: seen) (sl_headers s)).
Proof.
  intros Hok Hk [Hu1 Hu2]. unfold select_headers. destruct sync as [y|].
  - destruct (run_sync c hds full y) as [[y1 s]|] eqn:E; [|by intros [= <- <-]]. intros [= <- <-].
    destruct (run_sync_ok (c :: seen) c hds full y y1 s) as [H1 H2]; [by apply sync_ok_more|done|]. split; [done|]. by intros s0 [= <-] _.
  - destruct (low_work cf pc c hds) as [[ph pw]|] eqn:El.
    + destruct (negb full); [by intros [= <- <-]|]. destruct (run_sync _ _ _ _) as [[y1 s]|] eqn:E; [|by intros [= <- <-]]. intros [= <- <-].
      unfold low_work in El. destruct hds as [|hd hds]; [done|]. cbn [head mbind option_bind] in El.
      destruct (block_index c !! prev_blockhash hd) as [parent|] eqn:Ep; [|done]. cbn [mbind option_bind] in El. destruct (_ && _); [|done]. injection El as <- <-.
      edestruct (run_sync_ok (c :: seen) c (hd :: hds) full) as [H1 H2]; [|exact E|].
      { exists c, pc, (prev_blockhash hd), parent, [], [], []. split; [left|]. split; [done|]. split; [done|]. constructor. }
      split; [by destruct (sl_finished s)|]. by intros s0 [= <-] _.
    + intros [= <- <-]. split; [done|]. intros s [= <-] Hm. cbn [sl_headers] in *. destruct hds as [|hd hds]; [by left|right].
      unfold missing_headers_parent in Hm. case_bool_decide as Hp; [|done]. destruct Hp as [parent Ep].
      unfold low_work in El. cbn [head mbind option_bind] in El. rewrite Ep in El. cbn [mbind option_bind] in El. rewrite Hu1, Hu2 in El. cbn [negb] in El.
      rewrite !andb_true_r in El. destruct (Z.ltb_spec (add_work_saturating (chain_work parent) (claimed_work (hd :: hds))) (headers_sync_work_threshold cf c)); [done|].
      apply (earned_claim _ _ c hd parent); try done. left.
Qed.

Lemma earned_more c seen l : earned seen l -> earned (c :: seen) l.
Proof.
  intros [c0 hd parent H1 H2 H3 H4|c0 pc ph p P R out H1 H2 H3 H4]; [apply (earned_claim _ _ c0 hd parent)|apply (earned_shown _ _ c0 pc ph p P R out)]; try done; by right.
Qed.

(** What a message adds to the index is the hash of a header with work behind it. *)
Lemma receive_headers_earned seen pc hds c sync c' sync' reply :
  sync_ok seen sync -> index_keyed c -> unprivileged pc -> receive_headers cf pc hds c sync = (c', sync', reply) ->
  sync_ok (c :: seen) sync' /\
  forall h, is_Some (block_index c' !! h) -> is_Some (block_index c !! h) \/ exists l, earned (c :: seen) l /\ h ∈ map header_hash l.
Proof.
  intros Hok Hk Hu. unfold receive_headers. set (full := (length hds =? MAX_HEADERS)%nat). cbv zeta. pose proof (sync_ok_more c _ _ Hok) as Hok'.
  destruct (bool_decide (hds = [])); [intros [= <- <- <-]; split; [done|by left]|]. destruct (headers_are_continuous hds); cbn [negb]; [|intros [= <- <- <-]; split; [done|by left]].
  destruct (existsb _ _); [intros [= <- <- <-]; split; [done|by left]|].
  destruct (select_headers cf pc c hds full sync) as [sync1 o] eqn:Es. destruct (select_ok _ _ _ _ _ _ _ _ Hok Hk Hu Es) as [Hok1 Hl].
  destruct o as [s|]; [|intros [= <- <- <-]; split; [done|by left]]. unfold accept_selected. destruct (missing_headers_parent c (sl_headers s)) as [m|] eqn:Em.
  { pose proof (best_locator_index c) as Hb. destruct (best_header_locator_hashes c) as [c1 loc]. intros [= <- <- <-]. cbn [fst] in Hb. rewrite Hb. split; [done|by left]. }
  assert (Hok2 : sync_ok (c :: seen) (if sl_finished s then None else sync1)) by by destruct (sl_finished s).
  assert (Hnew : forall h, is_Some (block_index (accept_headers_internal cf (pc_now pc) (sl_headers s) c).1 !! h) ->
    is_Some (block_index c !! h) \/ exists l, earned (c :: seen) l /\ h ∈ map header_hash l).
  { intros h [Hin|Hin]%accept_headers_dom; [right|by left]. exists (sl_headers s). split; [|done]. destruct (Hl s eq_refl Em) as [Hnil|]; [|done]. rewrite Hnil in Hin. by inversion Hin. }
  destruct (accept_headers_internal cf (pc_now pc) (sl_headers s) c) as [c1 r]. cbn [fst] in Hnew.
  pose proof (next_question_index c1 full (if sl_finished s then None else sync1) s) as Hq.
  destruct (next_question c1 full _ s) as [c2 rep]. cbn [fst] in Hq.
  destruct r as [hs|e]; [|destruct (_ && _)]; intros [= <- <- <-]; rewrite ?Hq; done.
Qed.

Lemma peer_run_ok seen new sync :
  peer_run seen new sync -> sync_ok seen sync /\ forall h, h ∈ new -> exists l, earned seen l /\ h ∈ map header_hash l.
Proof.
  induction 1 as [|seen new sync pc hds c c' sync' reply _ [IH1 IH2] Hk Hu E]; [split; [done|set_solver]|].
  destruct (receive_headers_earned _ _ _ _ _ _ _ _ IH1 Hk Hu E) as [H1 H2]. split; [done|]. intros h [Hin|[H3 H4]%elem_of_difference]%elem_of_union.
  - destruct (IH2 h Hin) as (l & Hl & Hh). exists l. split; [by apply earned_more|done].
  - rewrite elem_of_dom in H3, H4. by destruct (H2 h H3) as [|?].
Qed.

(** C7: headers without work behind them stay out of the index. Whatever a peer without special permissions sends, in any
    number of messages and with the chain changing in between, every hash that its messages add to the index belongs to a
    list of headers that claims the work the node asks for on top of an indexed block, or that was released after the peer
    showed a chain of proofs of work with that total and sent a chain again that has the work or agrees with 23 commitments
    above the released headers. The synchroniser keeps at most 15009 headers and its bounded number of commitment bits. *)
Theorem low_work_headers_stay_out seen new sync :
  peer_run seen new sync ->
  (forall hash, hash ∈ new -> exists l hd, earned seen l /\ hd ∈ l /\ header_hash hd = hash) /\
  (forall y, sync = Some y -> zlen (redownload_headers y) <= 15009 /\ cb_len (commitments y) <= max_commitments y).
Proof.
  intros (Hok & Hnew)%peer_run_ok. split.
  - intros h Hh. destruct (Hnew h Hh) as (l & Hl & Hin). apply list_elem_of_fmap in Hin as (hd & -> & Hhd). by exists l, hd.
  - intros y ->. destruct Hok as (c & pc & ph & p & P & R & out & _ & Hk & Hp & Hses). destruct (Hk _ _ Hp) as [Hkey Hh0].
    unfold new_peer_sync in Hses. rewrite Hp in Hses. cbn [from_option] in Hses.
    destruct (session_released _ _ _ _ _ _ _ _ _ _ P R out y Hkey Hh0 Hses) as (H1 & H2 & _). split; [done|]. eapply session_max in Hses as ->; [done|by apply new_sync_fresh].
Qed.
End Safety.
