(* ===== verification/HeadersRounds.v ===== *)
(** * A node learns the headers of its peer

    The rounds of [getheaders] and [headers] between a node and a peer with a
    good chain, through the low-work synchronisation where the node asks for
    it.  After a number of rounds that is bounded by the length of the chain,
    the node has the peer's tip. *)

From Stdlib Require Import ZArith Lia.
From stdpp Require Import base list option gmap sets.
From S2P Require Import Prelude Types VersionBits ChainIndex BlockChecks ConnectBlock HeaderChecks ChainManager Locator HeadersSync HeadersSession HeadersPeer HeadersTheorems.
Local Open Scope Z_scope.
Local Set Warnings "-clear-no-such-hyp".

(** ** The two indexes together *)

Section Together.
Context {HOps : HeaderOps} (c s : ChainState) (Hc : index_wf c) (Hs : index_wf s) (Hcp : compatible c s).

Definition joined : ChainState := set_block_index (fun idx => idx ∪ block_index s) c.

Lemma joined_left : block_index c ⊆ block_index joined.
Proof. apply map_union_subseteq_l. Qed.
Lemma joined_right : block_index s ⊆ block_index joined.
Proof.
  apply map_subseteq_spec. intros h n E. cbn [joined set_block_index block_index]. apply lookup_union_Some_raw.
  destruct (block_index c !! h) as [n'|] eqn:E'; [left|by right]. by rewrite (nodes_agree c s Hc Hs Hcp h n' n).
Qed.

Lemma joined_wf : index_wf joined.
Proof.
  assert (Hcase : forall h n, block_index joined !! h = Some n -> block_index c !! h = Some n \/ block_index s !! h = Some n).
  { intros h n. cbn [joined set_block_index block_index]. rewrite lookup_union_Some_raw. naive_solver. }
  split.
  - intros h n [E|E]%Hcase; [by apply (wf_height c Hc h)|by apply (wf_height s Hs h)].
  - intros h n [E|E]%Hcase Hz; [by apply (wf_genesis c Hc h n)|]. apply (wf_genesis c Hc h n); [|done]. by apply (genesis_height' c s Hs Hcp).
  - intros h n [E|E]%Hcase Hz.
    + destruct (wf_child c Hc h n E Hz) as (p & Ep & Hok). exists p. pose proof (child_height _ _ _ Hok) as Hh.
      split; [by apply (lookup_weaken _ _ _ _ Ep joined_left)|]. apply (child_ok_mono (block_index c) _ n p p); try done; [apply joined_left|]. rewrite Hh. by apply skip_is_Some.
    + destruct (wf_child s Hs h n E Hz) as (p & Ep & Hok). exists p. pose proof (child_height _ _ _ Hok) as Hh.
      split; [by apply (lookup_weaken _ _ _ _ Ep joined_right)|]. apply (child_ok_mono (block_index s) _ n p p); try done; [apply joined_right|]. rewrite Hh. by apply skip_is_Some.
  - intros i h E. destruct (wf_active c Hc i h E) as (n & En & H). exists n. split; [by apply (lookup_weaken _ _ _ _ En joined_left)|done].
  - apply (wf_headers c Hc).
Qed.

Lemma extends_left : extends_index c joined.
Proof. split; [done|apply joined_wf|apply joined_left|done]. Qed.
Lemma extends_right : extends_index s joined.
Proof. split; [done|apply joined_wf|apply joined_right|]. cbn. symmetry. apply (cp_network _ _ Hcp). Qed.
End Together.

(** A header that the peer's checks accept is accepted by the node's. *)
Lemma checks_agree {Ops : BitcoinOps} {HOps : HeaderOps} {POps : PowOps} (c s : ChainState) cf now hd parent :
  index_wf c -> index_wf s -> compatible c s ->
  block_index c !! prev_blockhash hd = Some parent -> block_index s !! prev_blockhash hd = Some parent -> ChainIndex.height parent < umax 32 ->
  0 < difficulty_adjustment_interval (ChainIndex.network c) ->
  validate_header_above cf c now hd parent = validate_header_above cf s now hd parent.
Proof.
  intros Hc Hs Hcp E E' Hmax Hint. rewrite <- (validate_header_above_eq c (joined c s)), <- (validate_header_above_eq s (joined c s)); try done.
  - by apply extends_right.
  - by rewrite (cp_network _ _ Hcp).
  - by apply extends_left.
Qed.

(** ** A good chain *)

Section Learning.
Context {Ops : BitcoinOps} {HOps : HeaderOps} {POps : PowOps} {SyOps : SyncOps} (cf : Config) (now : Z) (s : ChainState).

(** The peer's active chain by the rules of the node: every header above the
    genesis block passes the checks above its parent. *)
Record good_header (hd : Header) (parent : BlockNode) : Prop := {
  gh_checks : validate_header_above cf s now hd parent = Ok ();
  gh_version : validate_block_version_with_params (cf_params cf) (ChainIndex.height parent + 1) (hd_version hd) = None;
  gh_transition : permitted_difficulty_transition (ChainIndex.network s) (ChainIndex.height parent + 1) (hd_bits (ChainIndex.header parent)) (hd_bits hd) = true;
}.

Record good_chain : Prop := {
  gc_wf : index_wf s;
  gc_keyed : index_keyed s;
  gc_interval : 0 < difficulty_adjustment_interval (ChainIndex.network s);
  gc_length : Z.of_nat (length (active_chain s)) <= umax 32;
  gc_headers : forall i hd parent, headers s !! S i = Some hd -> block_index s !! prev_blockhash hd = Some parent -> good_header hd parent;
  gc_work : forall hd, 0 <= work hd;
  gc_total : forall hash node, block_index s !! hash = Some node -> 0 <= chain_work node <= umax 256;
}.

Context (Hgood : good_chain).

(** The block of the active chain at a height. *)
Lemma active_block i hd :
  headers s !! i = Some hd ->
  exists node, active_chain s !! i = Some (header_hash hd) /\ block_index s !! header_hash hd = Some node /\ ChainIndex.header node = hd /\ ChainIndex.height node = Z.of_nat i.
Proof.
  intros E. pose proof (lookup_lt_Some _ _ _ E) as Hlt. rewrite (wf_headers s (gc_wf Hgood)) in Hlt.
  destruct (lookup_lt_is_Some_2 _ _ Hlt) as [h Eh]. destruct (wf_active s (gc_wf Hgood) _ _ Eh) as (node & En & Hh & Ehd & _).
  rewrite E in Ehd. injection Ehd as ->. destruct (gc_keyed Hgood _ _ En) as [Hk _]. exists node. by rewrite Hk.
Qed.

Lemma active_parent_block i hd :
  headers s !! S i = Some hd ->
  exists parent node, active_chain s !! i = Some (prev_blockhash hd) /\ block_index s !! prev_blockhash hd = Some parent /\ ChainIndex.height parent = Z.of_nat i /\
    headers s !! i = Some (ChainIndex.header parent) /\ header_hash (ChainIndex.header parent) = prev_blockhash hd /\ good_header hd parent /\
    block_index s !! header_hash hd = Some node /\ chain_work node = chain_work parent + work hd.
Proof.
  intros E. destruct (active_block _ _ E) as (node & Ea & En & Hhd & Hh). destruct (wf_active s (gc_wf Hgood) _ _ Ea) as (node' & En' & _ & _ & Hprev).
  rewrite En in En'. injection En' as <-. specialize (Hprev i eq_refl). rewrite Hhd in Hprev.
  destruct (wf_active s (gc_wf Hgood) _ _ Hprev) as (parent & Ep & Hph & Ephd & _). exists parent, node. split_and!; try done.
  - by destruct (gc_keyed Hgood _ _ Ep).
  - by apply (gc_headers Hgood i).
  - destruct (wf_child s (gc_wf Hgood) _ _ En) as (p & Ep' & Hok); [lia|]. rewrite Hhd, Ep in Ep'. injection Ep' as <-. rewrite (child_work _ _ _ Hok). by rewrite Hhd.
Qed.

(** ** Along the peer's chain *)

Lemma checks_pow hd parent : validate_header_above cf s now hd parent = Ok () -> valid_header_pow (ChainIndex.network s) hd = true.
Proof.
  unfold validate_header_above, validate_header_context. intros ([] & _ & H)%rbind_Ok. destruct (ok_or (expected_target_for_parent _ _ _) _) as [et|]; [|done].
  destruct (ok_or (median_time_past_for_parent _ _) _) as [mt|]; [|done]. cbn [rbind] in H. apply rbind_Ok in H as ([] & Hi & _). apply map_err_Ok in Hi. revert Hi.
  unfold validate_header_internal, valid_header_pow. destruct (bool_decide _); [|done]. destruct (mt <? _); [|done]. destruct (hd_time hd <=? _); [|done].
  destruct (compact_valid hd); [|done]. destruct (target hd <=? _); [|done]. destruct (is_met_by _ _); [|done]. cbn [andb rbind].
  destruct (Z.eqb_spec (target hd) et) as [->|]; [|done]. rewrite (Z.eqb_sym (hd_bits hd)). by destruct (_ =? hd_bits hd).
Qed.

Definition block_at (i : nat) (h : bytes) (n : BlockNode) : Prop := active_chain s !! i = Some h /\ block_index s !! h = Some n.

Lemma block_at_total i : (i < length (active_chain s))%nat -> exists h n, block_at i h n.
Proof. intros [h Eh]%lookup_lt_is_Some_2. destruct (wf_active s (gc_wf Hgood) _ _ Eh) as (n & En & _). by exists h, n. Qed.

Lemma block_at_facts i h n :
  block_at i h n -> ChainIndex.height n = Z.of_nat i /\ headers s !! i = Some (ChainIndex.header n) /\ header_hash (ChainIndex.header n) = h /\ 0 <= chain_work n <= umax 256 /\
  (i < length (active_chain s))%nat.
Proof.
  intros [Eh En]. destruct (wf_active s (gc_wf Hgood) _ _ Eh) as (n' & En' & Hh & Ehd & _). rewrite En in En'. injection En' as <-.
  split_and!; try done; [apply (gc_keyed Hgood _ _ En)|apply (gc_total Hgood _ _ En)|apply (gc_total Hgood _ _ En)|by apply lookup_lt_Some in Eh].
Qed.

(** The next block. *)
Lemma block_at_next i h n hd :
  block_at i h n -> headers s !! S i = Some hd ->
  exists n', block_at (S i) (header_hash hd) n' /\ ChainIndex.header n' = hd /\ prev_blockhash hd = h /\ chain_work n' = chain_work n + work hd /\ good_header hd n.
Proof.
  intros [Eh En] E. destruct (active_parent_block i hd E) as (parent & node & Ea & Ep & _ & _ & _ & Hg & Ens & Hw). rewrite Eh in Ea. injection Ea as ->.
  rewrite En in Ep. injection Ep as <-. destruct (active_block _ _ E) as (node' & Ea' & Ens' & Hhd & _). rewrite Ens in Ens'. injection Ens' as <-. by exists node.
Qed.

(** The segment of at most [k] headers above height [i]. *)
Definition segment (i k : nat) : list Header := take k (drop (S i) (headers s)).
Definition point_of (i : nat) (h : bytes) (n : BlockNode) : point := (h, hd_bits (ChainIndex.header n), Z.of_nat i).

Lemma segment_length i k : length (segment i k) = Nat.min k (length (active_chain s) - S i).
Proof. unfold segment. by rewrite length_take, length_drop, (wf_headers s (gc_wf Hgood)). Qed.

Lemma segment_facts k i h n :
  block_at i h n ->
  links (ChainIndex.network s) (point_of i h n) (segment i k) = true /\
  headers_are_continuous (segment i k) = true /\
  exists h' n', block_at (i + length (segment i k)) h' n' /\ foldl advance (point_of i h n) (segment i k) = point_of (i + length (segment i k)) h' n' /\
    (forall w, 0 <= w <= chain_work n -> total_work w (segment i k) = w + (chain_work n' - chain_work n)) /\ chain_work n <= chain_work n'.
Proof.
  revert i h n. induction k as [|k IH]; intros i h n Hb.
  { split; [done|]. split; [done|]. exists h, n. cbn [segment take length foldl]. rewrite Nat.add_0_r. split_and!; try done. intros w _. unfold segment. rewrite take_0. cbn. lia. }
  unfold segment. destruct (headers s !! S i) as [hd|] eqn:E; swap 1 2.
  { rewrite drop_ge by (by apply lookup_ge_None_1). rewrite take_nil. split; [done|]. split; [done|]. exists h, n. cbn. rewrite Nat.add_0_r. split_and!; try done; lia. }
  rewrite (drop_S _ _ _ E). cbn [take]. fold (segment (S i) k). destruct (block_at_next i h n hd Hb E) as (n1 & Hb1 & Hhd1 & Hprev & Hw1 & [Hg1 _ Hg3]).
  destruct (IH (S i) _ n1 Hb1) as (Hl & Hcont & h' & n' & Hb' & Hadv & Hwk & Hmono). destruct (block_at_facts _ _ _ Hb) as (Hh & _ & _ & Hwb & Hlt).
  destruct (block_at_facts _ _ _ Hb1) as (Hh1 & _ & _ & Hwb1 & Hlt1). pose proof (gc_length Hgood). pose proof (gc_work Hgood hd).
  assert (Hp : advance (point_of i h n) hd = point_of (S i) (header_hash hd) n1).
  { unfold advance, point_of. cbn [snd]. rewrite Hhd1. f_equal. unfold sat_add. lia. }
  assert (Hadd : forall w, 0 <= w <= chain_work n -> add_work_saturating w (work hd) = w + work hd).
  { intros w Hw. unfold add_work_saturating. destruct (Z.ltb_spec (umax 256 - work hd) w); lia. }
  split; [|split].
  - cbn [links]. rewrite Hp, Hl, (checks_pow hd n Hg1). unfold point_of. cbn [fst snd]. rewrite bool_decide_true by done.
    replace (sat_add 32 (Z.of_nat i) 1) with (ChainIndex.height n + 1) by (unfold sat_add; lia). by rewrite Hg3.
  - cbn [headers_are_continuous]. destruct (segment (S i) k) as [|hd' rest] eqn:Es; [done|]. rewrite Hcont, andb_true_r. apply bool_decide_eq_true.
    cbn [links] in Hl. apply andb_true_iff in Hl as [[[Hl%bool_decide_eq_true _]%andb_true_iff _]%andb_true_iff _]. exact Hl.
  - exists h', n'. cbn [length foldl total_work]. rewrite Hp, Nat.add_succ_r. split; [done|]. split; [done|]. split; [|lia].
    intros w Hw. cbn [foldl]. rewrite Hadd by done. change (total_work (w + work hd) (segment (S i) k) = w + (chain_work n' - chain_work n)). rewrite Hwk; lia.
Qed.

Lemma segment_app i k m : segment i (k + m) = segment i k ++ segment (i + k) m.
Proof.
  unfold segment. rewrite <- (take_drop k (take (k + m) (drop (S i) (headers s)))), take_take, Nat.min_l by lia. f_equal.
  rewrite skipn_firstn_comm, drop_drop. by replace (k + m - k)%nat with m by lia.
Qed.

(** ** Accepting the peer's headers *)

Context (c0 : ChainState).

(** The node while it learns: only its index has grown. *)
Record client_ok (c : ChainState) : Prop := {
  cl_wf : index_wf c;
  cl_compatible : compatible c s;
  cl_keyed : index_keyed c;
  cl_valid : invalid_blocks c = ∅;
  cl_active : active_chain c = active_chain c0;
  cl_headers : headers c = headers c0;
  cl_index : block_index c0 ⊆ block_index c;
}.

Definition knows (c : ChainState) (i : nat) : Prop :=
  forall m h, (m <= i)%nat -> active_chain s !! m = Some h -> is_Some (block_index c !! h).

Lemma no_invalid_ancestor c h : client_ok c -> has_invalid_ancestor c h = false.
Proof. intros Hc. unfold has_invalid_ancestor. by rewrite (cl_valid _ Hc), bool_decide_true. Qed.

Lemma client_node c h n n' : client_ok c -> block_index c !! h = Some n -> block_index s !! h = Some n' -> n = n'.
Proof. intros Hc. apply (nodes_agree c s (cl_wf _ Hc) (gc_wf Hgood) (cl_compatible _ Hc)). Qed.

Lemma assign_header_sequence_invalid c hash : invalid_blocks (assign_header_sequence_id c hash) = invalid_blocks c /\ ChainIndex.network (assign_header_sequence_id c hash) = ChainIndex.network c.
Proof.
  unfold assign_header_sequence_id. case_bool_decide; [done|]. unfold consider_best_header. cbn [set_header_sequence block_index best_header_hash invalid_blocks].
  repeat (case_match; try done).
Qed.

(** The index with one more header of the peer's chain. *)
Lemma client_grows c i hd parent :
  client_ok c -> headers s !! S i = Some hd -> block_index c !! prev_blockhash hd = Some parent -> block_index c !! header_hash hd = None ->
  exists c', index_header c (header_hash hd) hd = Some c' /\ client_ok c' /\ block_index c ⊆ block_index c' /\ is_Some (block_index c' !! header_hash hd).
Proof.
  intros Hc E Ep En. destruct (active_parent_block i hd E) as (parent' & node & Ea & Ep' & Hph & _ & _ & Hg & Ens & _).
  pose proof (client_node c _ _ _ Hc Ep Ep') as <-. pose proof (lookup_lt_Some _ _ _ E) as Hlt. rewrite (wf_headers s (gc_wf Hgood)) in Hlt.
  pose proof (gc_length Hgood). assert (Hmax : ChainIndex.height parent < umax 32) by lia.
  assert (Hk : known_header c (header_hash hd) hd) by (intros n; by rewrite En).
  rewrite (index_header_eq c (header_hash hd) hd parent (cl_wf _ Hc) Ep Hmax). eexists. split; [done|].
  destruct (assign_header_sequence_same (set_block_index <[header_hash hd := node_of c hd parent]> c) (header_hash hd)) as (H1 & H2 & H3).
  destruct (assign_header_sequence_invalid (set_block_index <[header_hash hd := node_of c hd parent]> c) (header_hash hd)) as (H4 & H5).
  set (c' := assign_header_sequence_id _ _) in *. cbn [set_block_index block_index active_chain headers invalid_blocks ChainIndex.network] in *.
  assert (Hsub : block_index c ⊆ block_index c') by (rewrite H1; by apply insert_subseteq).
  split; [split|split; [done|rewrite H1; by rewrite lookup_insert_eq]].
  - apply (index_header_wf c (header_hash hd) hd parent); try done; [apply Hc|]. by apply (index_header_eq c (header_hash hd) hd parent (cl_wf _ Hc)).
  - destruct (cl_compatible _ Hc) as [Hn (g & Hg1 & Hg2 & Hg3) Hh]. split; [congruence| |].
    + exists g. rewrite H2. split; [done|]. split; [done|]. destruct (wf_active c (cl_wf _ Hc) _ _ Hg1) as (gn & Egn & _). rewrite <- Hg3, Egn. by apply (lookup_weaken _ _ _ _ Egn Hsub).
    + intros h n n'. rewrite H1. intros [[<- <-]|[Hne E1]]%lookup_insert_Some E2; [|by apply (Hh h)]. rewrite Ens in E2. injection E2 as <-.
      cbn [node_of ChainIndex.header]. destruct (active_block _ _ E) as (node' & _ & En' & Hhd & _). rewrite Ens in En'. by injection En' as ->.
  - intros h n. rewrite H1. intros [[<- <-]|[Hne E1]]%lookup_insert_Some; [|by apply (cl_keyed _ Hc)]. cbn [node_of ChainIndex.header ChainIndex.height]. split; [done|lia].
  - rewrite H4. apply Hc.
  - rewrite H2. apply Hc.
  - rewrite H3. apply Hc.
  - etrans; [apply (cl_index _ Hc)|done].
Qed.

Lemma accept_one c i hd :
  client_ok c -> headers s !! S i = Some hd -> is_Some (block_index c !! prev_blockhash hd) ->
  exists c', accept_header cf now hd c = (c', Ok (header_hash hd)) /\ client_ok c' /\ block_index c ⊆ block_index c' /\ is_Some (block_index c' !! header_hash hd).
Proof.
  intros Hc E [parent Ep]. destruct (active_parent_block i hd E) as (parent' & node & Ea & Ep' & Hph & _ & _ & [Hv1 Hv2 _] & Ens & _).
  pose proof (client_node c _ _ _ Hc Ep Ep') as <-. pose proof (lookup_lt_Some _ _ _ E) as Hlt. rewrite (wf_headers s (gc_wf Hgood)) in Hlt. pose proof (gc_length Hgood).
  unfold accept_header. destruct (block_index c !! header_hash hd) as [existing|] eqn:Ex.
  - exists c. rewrite (no_invalid_ancestor c) by done. pose proof (client_node c _ _ _ Hc Ex Ens) as ->. destruct (active_block _ _ E) as (node' & _ & En' & Hhd & _).
    rewrite Ens in En'. injection En' as <-. rewrite bool_decide_true by done. cbn. split; [done|]. split; [done|]. by rewrite Ex.
  - rewrite Ep, (no_invalid_ancestor c) by done. destruct (client_grows c i hd parent Hc E Ep Ex) as (c' & Ei & H1 & H2 & H3).
    assert (sat_add 32 (ChainIndex.height parent) 1 = ChainIndex.height parent + 1) as Hsat by (unfold sat_add; lia). rewrite Hsat.
    assert (Hck : validate_header_above cf c now hd parent = Ok ()).
    { rewrite (checks_agree c s); try done; try apply Hc; try apply Hgood; [lia|]. rewrite <- (cp_network _ _ (cl_compatible _ Hc)). apply Hgood. }
    unfold validate_header_above in Hck. rewrite Hsat in Hck. apply rbind_Ok in Hck as ([] & -> & Hck). cbn [rbind]. rewrite Hv2. cbn [rbind]. rewrite Hck, Ei. by exists c'.
Qed.

Lemma accept_run n c i :
  client_ok c -> knows c i ->
  exists c' hashes, accept_headers_internal cf now (take n (drop (S i) (headers s))) c = (c', Ok hashes) /\ client_ok c' /\
    block_index c ⊆ block_index c' /\ knows c' (i + length (take n (drop (S i) (headers s)))).
Proof.
  revert c i. induction n as [|n IH]; intros c i Hc Hk.
  { exists c, []. cbn [take accept_headers_internal length]. by rewrite Nat.add_0_r. }
  destruct (headers s !! S i) as [hd|] eqn:E; swap 1 2.
  { rewrite drop_ge by (by apply lookup_ge_None_1). rewrite take_nil. exists c, []. cbn [accept_headers_internal length]. by rewrite Nat.add_0_r. }
  rewrite (drop_S _ _ _ E). cbn [take accept_headers_internal length]. destruct (active_parent_block i hd E) as (parent & node & Ea & _).
  destruct (accept_one c i hd Hc E (Hk i _ ltac:(lia) Ea)) as (c1 & -> & Hc1 & Hs1 & Hn1).
  assert (Hk1 : knows c1 (S i)).
  { intros m h Hm Eh. destruct (decide (m = S i)) as [->|Hne].
    - destruct (active_block _ _ E) as (_ & Ea' & _). rewrite Ea' in Eh. by injection Eh as <-.
    - destruct (Hk m h ltac:(lia) Eh) as [x Ex]. exists x. by apply (lookup_weaken _ _ _ _ Ex). }
  destruct (IH c1 (S i) Hc1 Hk1) as (c' & hs & -> & Hc' & Hs' & Hk'). exists c', (header_hash hd :: hs). split; [done|]. split; [done|]. split; [by etrans|].
  by rewrite Nat.add_succ_r.
Qed.
End Learning.
