(* ===== verification/HeadersLiveness.v ===== *)
(** * The rounds of header synchronisation

    The states that a node goes through with a peer that has a good chain:
    asking for the next headers, the first pass and the second pass of the
    low-work synchronisation.  Each round comes closer to the peer's tip. *)

From Stdlib Require Import ZArith Lia.
From stdpp Require Import base list option gmap sets.
From S2P Require Import Prelude Types VersionBits ChainIndex BlockChecks ConnectBlock HeaderChecks ChainManager Locator HeadersSync HeadersSession HeadersPeer HeadersTheorems HeadersRounds.
Local Open Scope Z_scope.
Local Set Warnings "-clear-no-such-hyp".

Section Rounds.
Context {Ops : BitcoinOps} {HOps : HeaderOps} {POps : PowOps} {SyOps : SyncOps} (cf : Config) (pc : PeerContext) (cfs : Config) (pcs : PeerContext) (s : ChainState).

(** A question, the answer, and what the node makes of it. *)
Fixpoint rounds (fuel : nat) (c : ChainState) (sync : option LowWorkHeadersSync) (locator : list bytes) : ChainState :=
  match fuel with
  | O => c
  | S fuel =>
      match answer_getheaders cfs pcs s locator all_zeros with
      | None => c
      | Some hds =>
          match receive_headers cf pc hds c sync with
          | (c, sync, GetHeadersFrom locator) => rounds fuel c sync locator
          | (c, _, _) => c
          end
      end
  end.

(** The peer answers, its chain has the work that the node asks for, and it did
    not grow faster than the protocol allows. *)
Record good_peer (c0 : ChainState) : Prop := {
  gp_chain : good_chain cf (pc_now pc) s;
  gp_answers : getheaders_should_suppress_for_low_work (tip_work_of s) (cf_minimum_chain_work cfs) (permissions pcs) = false;
  gp_work : headers_sync_work_threshold cf c0 <= tip_work_of s;
  gp_pace : forall i h n, block_at s i h n ->
    Z.of_nat (length (active_chain s) - S i) <=
    sat_mul 64 (sat_add 64 (sat_sub (pc_now pc) (default (hd_time (ChainIndex.header n)) (HeaderChecks.median_time_past_for_hash s h))) MAX_FUTURE_BLOCK_TIME_SECS) 6 / 632 * 632;
}.

Context (c0 : ChainState) (Hgp : good_peer c0) (Hstart : client_ok s c0 c0).
Let Hgood := gp_chain c0 Hgp.
Let tip_index : nat := (length (active_chain s) - 1)%nat.

Abbreviation client := (client_ok s c0).
Abbreviation seg := (segment s).

(** ** Questions *)

(** The question is answered with the headers above height [i]. *)
Definition asks (locator : list bytes) (i : nat) : Prop := locator <> [] /\ headers_after_locator s locator all_zeros = seg i MAX_HEADERS.

Lemma answered locator i : asks locator i -> answer_getheaders cfs pcs s locator all_zeros = Some (seg i MAX_HEADERS).
Proof.
  intros [Hne E]. unfold answer_getheaders. rewrite (gp_answers _ Hgp). unfold headers_for_getheaders. by rewrite bool_decide_false, E.
Qed.

Lemma asks_from c i h : client c -> active_chain s !! i = Some h -> is_Some (block_index c !! h) -> asks (block_locator_hashes_from c h) i.
Proof.
  intros Hc Ei Hk. split; [|by apply (locator_continues c s (cl_wf _ _ _ Hc) (gc_wf _ _ _ Hgood))].
  destruct Hk as [n En]. unfold block_locator_hashes_from. destruct (locator_from c h) as [l|] eqn:El; [|unfold locator_from in El; by rewrite En in El].
  destruct (locator_spec c (cl_wf _ _ _ Hc) h n l En El) as (hs & Hl & Hh & _). intros ->. by apply Forall2_nil_inv_r in Hl as ->.
Qed.

Lemma dedup_head (x : bytes) acc (l : list bytes) :
  exists rest, foldl (fun locator hash => if bool_decide (hash ∈ locator) then locator else locator ++ [hash]) (x :: acc) l = x :: rest.
Proof. revert acc. induction l as [|y l IH]; intros acc; [by exists acc|]. cbn [foldl]. destruct (bool_decide _); [apply IH|apply (IH (acc ++ [y]))]. Qed.

Lemma asks_next c y i :
  active_chain s !! i = Some (match phase y with Presync => header_hash (last_header y) | Redownload => redownload_last_hash y end) -> asks (next_locator c y) i.
Proof.
  intros Ei. unfold next_locator. destruct (dedup_head (match phase y with Presync => header_hash (last_header y) | Redownload => redownload_last_hash y end) []
    (block_locator_hashes_from c (chain_start_hash y))) as [rest ->]. split; [done|].
  apply (headers_after_fork s (gc_wf _ _ _ Hgood)); [done|]. cbn [fork_height]. by rewrite (active_heights s (gc_wf _ _ _ Hgood) _ _ Ei).
Qed.

(** ** What the node knows *)

Lemma client_threshold c : client c -> headers_sync_work_threshold cf c = headers_sync_work_threshold cf c0.
Proof.
  intros Hc. unfold headers_sync_work_threshold, tip_work_of, tip_height, best_hash. rewrite (cl_active _ _ _ Hc), (cl_headers _ _ _ Hc). do 2 f_equal.
  destruct (cp_genesis _ _ (cl_compatible _ _ _ Hstart)) as (g & Hg & _ & _). destruct (list.last (active_chain c0)) as [h|] eqn:Eh; cbn [from_option id].
  - rewrite last_lookup in Eh. destruct (wf_active c0 (cl_wf _ _ _ Hstart) _ _ Eh) as (n & En & _). by rewrite En, (lookup_weaken _ _ _ _ En (cl_index _ _ _ Hc)).
  - apply last_None in Eh. by rewrite Eh in Hg.
Qed.

Lemma client_network c : client c -> ChainIndex.network c = ChainIndex.network s.
Proof. intros Hc. symmetry. apply (cp_network _ _ (cl_compatible _ _ _ Hc)). Qed.

Lemma known_block c i h n : client c -> knows s c i -> block_at s i h n -> block_index c !! h = Some n.
Proof.
  intros Hc Hk [Eh En]. destruct (Hk i h ltac:(lia) Eh) as [n' En']. rewrite En'. f_equal. by apply (client_node cf (pc_now pc) s Hgood c0 c h).
Qed.

Lemma tip_block : exists n, block_at s tip_index (best_hash s) n /\ tip_work_of s = chain_work n.
Proof.
  pose proof (best_hash_last c0 s (cl_compatible _ _ _ Hstart)) as Eh. destruct (wf_active s (gc_wf _ _ _ Hgood) _ _ Eh) as (n & En & _). exists n. split; [done|].
  unfold tip_work_of. by rewrite En.
Qed.

Lemma learned c : knows s c tip_index -> is_Some (block_index c !! best_hash s).
Proof. intros Hk. destruct tip_block as (n & [Eh _] & _). by apply (Hk tip_index). Qed.

(** The work at a height of the peer's chain. *)
Lemma segment_end i h n k :
  block_at s i h n ->
  exists h' n', block_at s (i + length (seg i k)) h' n' /\ (forall w, 0 <= w <= chain_work n -> total_work w (seg i k) = w + (chain_work n' - chain_work n)) /\
    chain_work n <= chain_work n' /\ foldl advance (point_of i h n) (seg i k) = point_of (i + length (seg i k)) h' n'.
Proof. intros Hb. destruct (segment_facts cf (pc_now pc) s Hgood k i h n Hb) as (_ & _ & h' & n' & H1 & H2 & H3 & H4). by exists h', n'. Qed.

(** A short segment ends at the tip, where the work is enough. *)
Lemma short_segment i h n k :
  block_at s i h n -> (length (seg i k) < k)%nat -> (i + length (seg i k))%nat = tip_index /\ headers_sync_work_threshold cf c0 <= total_work (chain_work n) (seg i k).
Proof.
  intros Hb Hlt. destruct (block_at_facts cf (pc_now pc) s Hgood i h n Hb) as (_ & _ & _ & Hw & Hi).
  assert (Ht : (i + length (seg i k))%nat = tip_index) by (rewrite (segment_length cf (pc_now pc) s Hgood) in *; unfold tip_index; lia).
  split; [done|]. destruct (segment_end i h n k Hb) as (h' & n' & Hb' & Hwk & _). rewrite Hwk by lia. rewrite Ht in Hb'. destruct tip_block as (tn & [Et1 Et2] & Htw).
  destruct Hb' as [E1 E2]. rewrite Et1 in E1. injection E1 as <-. rewrite Et2 in E2. injection E2 as <-. pose proof (gp_work _ Hgp). lia.
Qed.

(** ** One message *)

Lemma links_pow n p hds : links n p hds = true -> existsb (fun hd => negb (valid_header_pow n hd)) hds = false.
Proof.
  revert p. induction hds as [|hd hds IH]; intros p; [done|]. cbn [links existsb]. intros [[_ ->]%andb_true_iff H]%andb_true_iff. by rewrite (IH _ H).
Qed.

Lemma receive_segment c sync i h n :
  client c -> block_at s i h n -> seg i MAX_HEADERS <> [] ->
  let full := (length (seg i MAX_HEADERS) =? MAX_HEADERS)%nat in
  receive_headers cf pc (seg i MAX_HEADERS) c sync =
  match select_headers cf pc c (seg i MAX_HEADERS) full sync with
  | (sync, None) => (c, sync, Quiet)
  | (sync, Some sel) => accept_selected cf pc full sync sel c
  end.
Proof.
  intros Hc Hb Hne full. unfold receive_headers. fold full. destruct (segment_facts cf (pc_now pc) s Hgood MAX_HEADERS i h n Hb) as (Hl & Hcont & _).
  rewrite bool_decide_false, Hcont by done. cbn [negb]. by rewrite (client_network c Hc), (links_pow _ _ _ Hl).
Qed.

Lemma segment_parent c i k hd rest :
  knows s c i -> seg i k = hd :: rest -> is_Some (block_index c !! prev_blockhash hd).
Proof.
  intros Hk E. assert (Ehd : headers s !! S i = Some hd).
  { unfold segment in E. destruct k as [|k]; [done|]. destruct (headers s !! S i) as [hd'|] eqn:E'.
    - rewrite (drop_S _ _ _ E') in E. by injection E as ->.
    - rewrite drop_ge, take_nil in E; [done|]. by apply lookup_ge_None_1. }
  destruct (active_parent_block cf (pc_now pc) s Hgood i hd Ehd) as (parent & node & Ea & _). by apply (Hk i).
Qed.

Lemma accept_known c i k full sync sel :
  client c -> knows s c i -> sl_headers sel = seg i k ->
  exists c', client c' /\ knows s c' (i + length (seg i k)) /\
    accept_selected cf pc full sync sel c =
    let '(c'', reply) := next_question c' full (if sl_finished sel then None else sync) sel in (c'', if sl_finished sel then None else sync, reply).
Proof.
  intros Hc Hk Hsel. destruct (accept_run cf (pc_now pc) s Hgood c0 k c i Hc Hk) as (c' & hashes & E & Hc' & _ & Hk'). exists c'. split; [done|]. split; [done|].
  unfold accept_selected. rewrite Hsel. fold (seg i k) in E. rewrite E. destruct (seg i k) as [|hd rest] eqn:Es; [done|]. cbn [missing_headers_parent].
  rewrite bool_decide_true by by eapply segment_parent. done.
Qed.

(** A selection of all of the next headers is followed by the question for more. *)
Lemma last_segment i k hd : list.last (seg i k) = Some hd -> active_chain s !! (i + length (seg i k))%nat = Some (header_hash hd).
Proof.
  rewrite last_lookup. intros E. destruct (seg i k) as [|hd0 rest] eqn:Es; [done|]. cbn [length pred] in E.
  assert (headers s !! (i + length (hd0 :: rest))%nat = Some hd) as Ehd.
  { rewrite <- Es in E. unfold segment in E. apply lookup_take_Some in E as [E _]. rewrite lookup_drop in E. rewrite <- E. f_equal. cbn [length]. lia. }
  by destruct (active_block cf (pc_now pc) s Hgood _ _ Ehd) as (node & Ea & _).
Qed.

Lemma continue_from c i k h' n' sel :
  client c -> knows s c (i + length (seg i k)) -> block_at s (i + length (seg i k)) h' n' -> sl_headers sel = seg i k -> seg i k <> [] -> sl_locator sel = None ->
  exists locator, next_question c true None sel = (c, GetHeadersFrom locator) /\ asks locator (i + length (seg i k)).
Proof.
  intros Hc Hk Hb Hsel Hne Hloc. unfold next_question. rewrite Hloc, Hsel, bool_decide_true by done. cbn [andb].
  destruct (list.last (seg i k)) as [hd|] eqn:El; [|by apply last_None in El]. eexists. split; [done|]. pose proof (last_segment i k hd El) as Ea.
  apply (asks_from c); [done|done|]. by apply (Hk (i + length (seg i k))%nat).
Qed.

(** ** Without the synchroniser *)

Abbreviation wanted := (headers_sync_work_threshold cf c0).
Abbreviation reached c := (is_Some (block_index c !! best_hash s)).

Lemma segment_nil i h n : block_at s i h n -> seg i MAX_HEADERS = [] -> i = tip_index.
Proof.
  intros Hb E. destruct (block_at_facts cf (pc_now pc) s Hgood i h n Hb) as (_ & _ & _ & _ & Hi). apply (f_equal length) in E.
  rewrite (segment_length cf (pc_now pc) s Hgood), length_nil in E. unfold MAX_HEADERS, tip_index in *. lia.
Qed.

Lemma round_asks fuel c sync locator i :
  asks locator i ->
  rounds (S fuel) c sync locator =
  match receive_headers cf pc (seg i MAX_HEADERS) c sync with
  | (c, sync, GetHeadersFrom locator) => rounds fuel c sync locator
  | (c, _, _) => c
  end.
Proof. intros Ha. cbn [rounds]. by rewrite (answered _ _ Ha). Qed.

Lemma segment_head i h n k hd rest : block_at s i h n -> seg i k = hd :: rest -> prev_blockhash hd = h.
Proof.
  intros Hb Es. destruct (segment_facts cf (pc_now pc) s Hgood k i h n Hb) as (Hl & _). rewrite Es in Hl. cbn [links] in Hl.
  by apply andb_true_iff in Hl as [[[Hl%bool_decide_eq_true _]%andb_true_iff _]%andb_true_iff _].
Qed.

Lemma low_work_spec c i h n :
  client c -> knows s c i -> block_at s i h n -> seg i MAX_HEADERS <> [] ->
  low_work cf pc c (seg i MAX_HEADERS) =
    if (total_work (chain_work n) (seg i MAX_HEADERS) <? wanted) && negb (has_permission (permissions pc) DOWNLOAD) && negb (has_permission (permissions pc) NO_BAN)
    then Some (ChainIndex.header n, chain_work n) else None.
Proof.
  intros Hc Hk Hb Hne. destruct (seg i MAX_HEADERS) as [|hd rest] eqn:Es; [done|]. unfold low_work. cbn [head mbind option_bind].
  rewrite (segment_head i h n MAX_HEADERS hd rest Hb Es), (known_block c i h n Hc Hk Hb). cbn [mbind option_bind]. rewrite (client_threshold c Hc). do 3 f_equal. rewrite <- Es. unfold claimed_work.
  destruct (segment_end i h n MAX_HEADERS Hb) as (h' & n' & Hb' & Hw & Hle & _).
  destruct (block_at_facts cf (pc_now pc) s Hgood i h n Hb) as (_ & _ & _ & Hw1 & _). destruct (block_at_facts cf (pc_now pc) s Hgood _ _ _ Hb') as (_ & _ & _ & Hw2 & _).
  rewrite !Hw by lia. unfold add_work_saturating. destruct (Z.ltb_spec (umax 256 - (0 + (chain_work n' - chain_work n))) (chain_work n)); f_equal; lia.
Qed.

(** The headers are accepted, and the node asks for more or has the tip. *)
Lemma plain_round fuel c i h n locator :
  client c -> knows s c i -> block_at s i h n -> asks locator i -> low_work cf pc c (seg i MAX_HEADERS) = None ->
  reached (rounds (S fuel) c None locator) \/
  exists c' locator' h' n', client c' /\ knows s c' (i + MAX_HEADERS) /\ block_at s (i + MAX_HEADERS) h' n' /\ asks locator' (i + MAX_HEADERS) /\
    total_work (chain_work n) (seg i MAX_HEADERS) = chain_work n' /\ chain_work n <= chain_work n' /\ rounds (S fuel) c None locator = rounds fuel c' None locator'.
Proof.
  intros Hc Hk Hb Ha Hlow. rewrite (round_asks _ _ _ _ i Ha). destruct (decide (seg i MAX_HEADERS = [])) as [E|Hne].
  { left. rewrite E. cbn. apply learned. by rewrite <- (segment_nil i h n Hb E). }
  rewrite (receive_segment c None i h n Hc Hb Hne). unfold select_headers. rewrite Hlow.
  set (sel := {| sl_headers := seg i MAX_HEADERS; sl_locator := None; sl_finished := false |}).
  destruct (accept_known c i MAX_HEADERS (length (seg i MAX_HEADERS) =? MAX_HEADERS)%nat None sel Hc Hk eq_refl) as (c' & Hc' & Hk' & ->).
  destruct (segment_end i h n MAX_HEADERS Hb) as (h' & n' & Hb' & Hw & Hle & _). destruct (block_at_facts cf (pc_now pc) s Hgood i h n Hb) as (_ & _ & _ & Hw1 & _).
  destruct (Nat.eqb_spec (length (seg i MAX_HEADERS)) MAX_HEADERS) as [Efull|Eshort].
  - right. destruct (continue_from c' i MAX_HEADERS h' n' sel Hc' Hk' Hb' eq_refl Hne eq_refl) as (locator' & Eq & Ha'). cbn [sl_finished sel]. rewrite Eq.
    exists c', locator', h', n'. rewrite Efull in *. split_and!; try done. rewrite Hw; lia.
  - left. cbn [sl_finished sel]. unfold next_question. cbn [sl_locator sel andb]. apply learned. pose proof (short_segment i h n MAX_HEADERS Hb) as [Ht _].
    { pose proof (segment_length cf (pc_now pc) s Hgood i MAX_HEADERS). lia. }
    by rewrite Ht in Hk'.
Qed.

Definition privileged : bool := has_permission (permissions pc) DOWNLOAD || has_permission (permissions pc) NO_BAN.

Lemma plain_rounds fuel c i h n locator :
  client c -> knows s c i -> block_at s i h n -> asks locator i -> wanted <= chain_work n \/ privileged = true -> (tip_index - i < fuel * MAX_HEADERS)%nat ->
  reached (rounds fuel c None locator).
Proof.
  revert c i h n locator. induction fuel as [|fuel IH]; intros c i h n locator Hc Hk Hb Ha Hw Hf; [lia|].
  assert (Hlow : low_work cf pc c (seg i MAX_HEADERS) = None).
  { destruct (decide (seg i MAX_HEADERS = [])) as [->|Hne]; [done|]. rewrite (low_work_spec c i h n Hc Hk Hb Hne).
    destruct (segment_end i h n MAX_HEADERS Hb) as (h' & n' & Hb' & Hwk & Hle & _). destruct (block_at_facts cf (pc_now pc) s Hgood i h n Hb) as (_ & _ & _ & Hw1 & _).
    rewrite Hwk by lia. destruct Hw as [Hw|Hp]; [by bfalse (chain_work n + (chain_work n' - chain_work n) <? wanted)|]. unfold privileged in Hp.
    destruct (has_permission _ DOWNLOAD), (has_permission _ NO_BAN); rewrite ?andb_false_r; done. }
  destruct (plain_round fuel c i h n locator Hc Hk Hb Ha Hlow) as [H|(c' & l' & h' & n' & Hc' & Hk' & Hb' & Ha' & Htw & Hle & ->)]; [done|].
  destruct (block_at_facts cf (pc_now pc) s Hgood _ _ _ Hb') as (_ & _ & _ & _ & Hi').
  apply (IH c' (i + MAX_HEADERS)%nat h' n'); try done; [destruct Hw; [left; lia|by right]|]. unfold MAX_HEADERS, tip_index in *. lia.
Qed.

(** ** With the synchroniser *)

(** It started at the block [n] of height [i]. *)
Record sync_start (i : nat) (h : bytes) (n : BlockNode) (y0 : LowWorkHeadersSync) : Prop := {
  ss_block : block_at s i h n;
  ss_fresh : fresh_sync y0;
  ss_network : ls_network y0 = ChainIndex.network s;
  ss_minimum : minimum_work y0 = wanted;
  ss_point : start_point y0 = point_of i h n;
  ss_work : chain_start_work y0 = chain_work n;
  ss_low : chain_work n < wanted;
  ss_pace : forall k, zlen (committed y0 (chain_start_height y0) (seg i k)) <= max_commitments y0;
}.

Section Started.
Context (i : nat) (h : bytes) (n : BlockNode) (y0 : LowWorkHeadersSync) (Hss : sync_start i h n y0).
Let Hb : block_at s i h n := ss_block _ _ _ _ Hss.

Lemma start_work_range : 0 <= chain_work n <= umax 256.
Proof. by destruct (block_at_facts cf (pc_now pc) s Hgood i h n Hb) as (_ & _ & _ & ? & _). Qed.

Lemma segment_links k : links (ls_network y0) (start_point y0) (seg i k) = true.
Proof. rewrite (ss_network _ _ _ _ Hss), (ss_point _ _ _ _ Hss). by destruct (segment_facts cf (pc_now pc) s Hgood k i h n Hb) as (? & _). Qed.

Lemma segment_shown k : shown y0 (seg i k) = true.
Proof. unfold shown. rewrite segment_links. apply Z.leb_le, (ss_pace _ _ _ _ Hss). Qed.

Lemma segment_prefix k m : seg i k `prefix_of` seg i (Nat.max k m).
Proof. replace (Nat.max k m) with (k + (Nat.max k m - k))%nat by lia. rewrite segment_app. by eexists. Qed.

Lemma segment_matches kp k :
  reaches wanted (chain_work n) (seg i kp) = true -> matches y0 (seg i kp) (seg i k) = true.
Proof.
  intros Hre. unfold matches. rewrite segment_links. apply bool_decide_eq_true, committed_prefix.
  rewrite (ss_minimum _ _ _ _ Hss), (ss_work _ _ _ _ Hss). apply (unpaid_shown _ _ _ _ (seg i (Nat.max kp k))); [apply segment_prefix| |done].
  rewrite Nat.max_comm. apply segment_prefix.
Qed.

(** Where a segment ends. *)
Lemma segment_at k :
  length (seg i k) = k ->
  exists h' n', block_at s (i + k) h' n' /\ total_work (chain_work n) (seg i k) = chain_work n' /\ foldl advance (start_point y0) (seg i k) = point_of (i + k) h' n'.
Proof.
  intros Hk. destruct (segment_end i h n k Hb) as (h' & n' & Hb' & Hw & _ & Hadv). rewrite Hk in *. exists h', n'. pose proof start_work_range.
  split; [done|]. rewrite (ss_point _ _ _ _ Hss). split; [rewrite Hw; lia|done].
Qed.

Lemma reaches_total k : reaches wanted (chain_work n) (seg i k) = true <-> wanted <= total_work (chain_work n) (seg i k).
Proof.
  pose proof start_work_range. split.
  - intros [j Hj]%reaches_take. unfold segment in Hj. rewrite take_take in Hj. fold (seg i (Nat.min j k)) in Hj.
    replace k with (Nat.min j k + (k - Nat.min j k))%nat by lia. rewrite segment_app, total_work_app.
    destruct (segment_end i h n (Nat.min j k) Hb) as (h1 & n1 & Hb1 & Hw1 & _). rewrite Hw1 in * by lia.
    destruct (decide (length (seg i (Nat.min j k)) = Nat.min j k)) as [El|El].
    + rewrite El in Hb1. destruct (segment_end _ h1 n1 (k - Nat.min j k) Hb1) as (h2 & n2 & Hb2 & Hw2 & Hle & _).
      replace (chain_work n + (chain_work n1 - chain_work n)) with (chain_work n1) in * by lia.
      destruct (block_at_facts cf (pc_now pc) s Hgood _ _ _ Hb1) as (_ & _ & _ & ? & _). rewrite Hw2; lia.
    + assert (seg (i + Nat.min j k) (k - Nat.min j k) = []) as ->; [|cbn; lia]. apply nil_length_inv.
      rewrite (segment_length cf (pc_now pc) s Hgood) in *. lia.
  - intros Hw. apply total_reaches; [|done]. intros E. rewrite E in Hw. cbn in Hw. pose proof (ss_low _ _ _ _ Hss). lia.
Qed.

(** While the work is not enough there is more. *)
Lemma more_headers k :
  length (seg i k) = k -> total_work (chain_work n) (seg i k) < wanted ->
  seg (i + k) MAX_HEADERS <> [] /\
  ((length (seg (i + k) MAX_HEADERS) =? MAX_HEADERS)%nat = false -> wanted <= total_work (chain_work n) (seg i (k + MAX_HEADERS)) /\ (i + k + length (seg (i + k) MAX_HEADERS))%nat = tip_index) /\
  ((length (seg (i + k) MAX_HEADERS) =? MAX_HEADERS)%nat = true -> length (seg i (k + MAX_HEADERS)) = (k + MAX_HEADERS)%nat).
Proof.
  intros Hk Hw. destruct (segment_at k Hk) as (h' & n' & Hb' & Hw' & _). split; [|split].
  - intros E. pose proof (segment_nil _ _ _ Hb' E) as Ht. rewrite Ht in Hb'. destruct tip_block as (tn & [Et1 Et2] & Htw). destruct Hb' as [E1 E2].
    rewrite Et1 in E1. injection E1 as <-. rewrite Et2 in E2. injection E2 as <-. pose proof (gp_work _ Hgp). lia.
  - intros Es%Nat.eqb_neq. destruct (short_segment _ _ _ MAX_HEADERS Hb') as [Ht Hge]; [pose proof (segment_length cf (pc_now pc) s Hgood (i + k) MAX_HEADERS); lia|].
    split; [|done]. rewrite segment_app, total_work_app, Hw'. done.
  - intros Es%Nat.eqb_eq. rewrite segment_app, length_app. lia.
Qed.

(** The released headers are the next ones. *)
Lemma released_segment out new m : out ++ new = seg i m -> new = seg (i + length out) (m - length out).
Proof.
  intros E. assert (length out <= m)%nat. { apply (f_equal length) in E. rewrite length_app, (segment_length cf (pc_now pc) s Hgood) in E. lia. }
  replace m with (length out + (m - length out))%nat in E by lia. rewrite segment_app in E. apply app_inj_1 in E as [_ ->]; [done|].
  apply (f_equal length) in E. rewrite !length_app in E. rewrite !(segment_length cf (pc_now pc) s Hgood) in *. lia.
Qed.

(** One message of the second pass. *)
Lemma second_pass c y kp k out full :
  phase y = Redownload -> redownload_ok y0 (seg i kp) (seg i k) out y -> reaches wanted (chain_work n) (seg i kp) = true -> seg (i + k) MAX_HEADERS <> [] ->
  let all := reaches wanted (chain_work n) (seg i (k + MAX_HEADERS)) in
  exists y' new, run_sync c (seg (i + k) MAX_HEADERS) full y =
      Some (y', {| sl_headers := new; sl_locator := if negb all && full then Some (next_locator c y') else None; sl_finished := all || negb full |}) /\
    phase y' = Redownload /\ redownload_ok y0 (seg i kp) (seg i (k + MAX_HEADERS)) (out ++ new) y' /\ new = seg (i + length out) (length new).
Proof.
  intros Hph Hok Hre Hne all. pose proof (redownload_message y0 (ss_fresh _ _ _ _ Hss) _ _ _ _ (seg (i + k) MAX_HEADERS) full Hok Hph Hne) as Hm.
  rewrite <- segment_app in Hm. rewrite (segment_matches kp (k + MAX_HEADERS) Hre) in Hm. destruct Hm as (y' & new & Epr & Hph' & Hok').
  rewrite (ss_minimum _ _ _ _ Hss), (ss_work _ _ _ _ Hss) in Epr. fold all in Epr. exists y', new. unfold run_sync. rewrite Epr. split; [done|]. split; [done|]. split; [done|].
  pose proof (ro_buffer _ _ _ _ _ Hok') as HR. rewrite <- app_assoc in HR. pose proof (released_segment out _ _ HR) as Hseg.
  assert (new = take (length new) (new ++ redownload_headers y')) as Hnew by by rewrite take_app_length. rewrite Hnew at 1. rewrite Hseg. unfold segment. rewrite take_take. f_equal.
  apply (f_equal length) in Hseg. rewrite length_app, (segment_length cf (pc_now pc) s Hgood) in Hseg. lia.
Qed.

Lemma second_rounds fuel c y locator kp k out :
  client c -> knows s c (i + length out) -> phase y = Redownload -> redownload_ok y0 (seg i kp) (seg i k) out y -> length (seg i k) = k ->
  reaches wanted (chain_work n) (seg i kp) = true -> reaches wanted (chain_work n) (seg i k) = false -> asks locator (i + k) ->
  (tip_index - (i + k) < fuel * MAX_HEADERS)%nat -> reached (rounds fuel c (Some y) locator).
Proof.
  revert c y locator k out. induction fuel as [|fuel IH]; intros c y locator k out Hc Hk Hph Hok Hlen Hre Hnot Ha Hf; [lia|].
  assert (Hw : total_work (chain_work n) (seg i k) < wanted).
  { destruct (Z.lt_ge_cases (total_work (chain_work n) (seg i k)) wanted) as [|H]; [done|]. apply reaches_total in H. congruence. }
  destruct (more_headers k Hlen Hw) as (Hne & Hshort & Hfull). destruct (segment_at k Hlen) as (h1 & n1 & Hb1 & _ & _).
  rewrite (round_asks _ _ _ _ _ Ha), (receive_segment c (Some y) (i + k) h1 n1 Hc Hb1 Hne). set (full := (length (seg (i + k) MAX_HEADERS) =? MAX_HEADERS)%nat) in *.
  destruct (second_pass c y kp k out full Hph Hok Hre Hne) as (y' & new & Erun & Hph' & Hok' & Hnew). cbn [select_headers]. rewrite Erun. cbn [select_headers].
  set (sel := {| sl_headers := new; sl_locator := _; sl_finished := _ |}) in *.
  destruct (accept_known c (i + length out) (length new) full (Some y') sel Hc Hk Hnew) as (c' & Hc' & Hk' & ->). rewrite <- Hnew in Hk'.
  destruct (reaches wanted (chain_work n) (seg i (k + MAX_HEADERS))) eqn:Eall; cbn [negb andb orb sl_finished sel].
  - assert (HR : out ++ new = seg i (k + MAX_HEADERS)).
    { pose proof (ro_size _ _ _ _ _ Hok') as Hsz. rewrite (ro_all _ _ _ _ _ Hok'), (ss_minimum _ _ _ _ Hss), (ss_work _ _ _ _ Hss), Eall in Hsz.
      pose proof (ro_buffer _ _ _ _ _ Hok') as HR. by rewrite Hsz, app_nil_r in HR. }
    assert (Hout : (length out <= k)%nat). { rewrite <- Hlen, <- (ro_buffer _ _ _ _ _ Hok), length_app. lia. }
    assert (Hl : (length out + length new = k + length (seg (i + k) MAX_HEADERS))%nat).
    { apply (f_equal length) in HR. rewrite segment_app, !length_app in HR. lia. }
    assert (Hnn : new <> []). { intros ->. destruct (seg (i + k) MAX_HEADERS); [done|]. cbn [length] in Hl. lia. }
    destruct full eqn:Efull.
    + destruct (segment_at (k + MAX_HEADERS) (Hfull eq_refl)) as (h' & n' & Hb' & Hw' & _). unfold full in Efull. apply Nat.eqb_eq in Efull.
      assert (Hend : (i + length out + length new)%nat = (i + (k + MAX_HEADERS))%nat) by lia.
      rewrite Hend in Hk'. destruct (continue_from c' (i + length out) (length new) h' n' sel) as (locator' & Eq & Ha'); try done; try (rewrite <- Hnew; rewrite ?Hend; done).
      rewrite Eq. rewrite <- Hnew, Hend in Ha'. destruct (block_at_facts cf (pc_now pc) s Hgood _ _ _ Hb') as (_ & _ & _ & _ & Hi').
      apply (plain_rounds fuel c' (i + (k + MAX_HEADERS)) h' n'); try done; [left; rewrite <- Hw'; by apply reaches_total|unfold MAX_HEADERS, tip_index in *; lia].
    + cbn [next_question sl_locator sel andb]. apply learned. destruct (Hshort eq_refl) as [_ Ht]. rewrite <- Ht. by replace (i + k + _)%nat with (i + length out + length new)%nat by lia.
  - destruct full eqn:Efull; [|destruct (Hshort eq_refl) as [H%reaches_total _]; congruence]. cbn [negb orb next_question sl_locator sel andb].
    destruct (segment_at (k + MAX_HEADERS) (Hfull eq_refl)) as (h' & n' & Hb' & Hw' & Hadv). destruct (block_at_facts cf (pc_now pc) s Hgood _ _ _ Hb') as (_ & _ & _ & _ & Hi').
    apply (IH c' y' _ (k + MAX_HEADERS)%nat (out ++ new)); try done.
    + rewrite length_app. by rewrite Nat.add_assoc.
    + by apply Hfull.
    + apply asks_next. rewrite Hph'. pose proof (ro_point _ _ _ _ _ Hok') as Hpt. rewrite Hadv in Hpt. injection Hpt as -> _ _. apply Hb'.
    + unfold MAX_HEADERS, tip_index in *. lia.
Qed.

(** One message of the first pass. *)
Lemma first_pass c y k full :
  phase y = Presync -> presync_ok y0 (seg i k) y -> seg (i + k) MAX_HEADERS <> [] ->
  let enough := wanted <=? total_work (chain_work n) (seg i (k + MAX_HEADERS)) in
  exists y', run_sync c (seg (i + k) MAX_HEADERS) full y =
      Some (y', {| sl_headers := []; sl_locator := if enough || full then Some (next_locator c y') else None; sl_finished := negb enough && negb full |}) /\
    if enough then phase y' = Redownload /\ redownload_ok y0 (seg i (k + MAX_HEADERS)) [] [] y' else phase y' = Presync /\ presync_ok y0 (seg i (k + MAX_HEADERS)) y'.
Proof.
  intros Hph Hok Hne enough. pose proof (presync_message y0 (ss_fresh _ _ _ _ Hss) _ _ (seg (i + k) MAX_HEADERS) full Hok Hph Hne) as Hm.
  rewrite <- segment_app, segment_shown in Hm. destruct Hm as (y' & Epr & Hm). rewrite (ss_minimum _ _ _ _ Hss), (ss_work _ _ _ _ Hss) in Epr, Hm. fold enough in Hm.
  exists y'. split; [|done]. unfold run_sync. rewrite Epr. unfold presync_result. fold enough. by destruct enough, full.
Qed.

Lemma first_rounds f1 f2 c y locator k :
  client c -> knows s c i -> phase y = Presync -> presync_ok y0 (seg i k) y -> length (seg i k) = k -> total_work (chain_work n) (seg i k) < wanted ->
  asks locator (i + k) -> (tip_index - (i + k) < f1 * MAX_HEADERS)%nat -> (tip_index - i < f2 * MAX_HEADERS)%nat -> reached (rounds (f1 + f2) c (Some y) locator).
Proof.
  revert c y locator k. induction f1 as [|f1 IH]; intros c y locator k Hc Hk Hph Hok Hlen Hw Ha Hf1 Hf2; [lia|]. cbn [Nat.add].
  destruct (more_headers k Hlen Hw) as (Hne & Hshort & Hfull). destruct (segment_at k Hlen) as (h1 & n1 & Hb1 & _ & _).
  rewrite (round_asks _ _ _ _ _ Ha), (receive_segment c (Some y) (i + k) h1 n1 Hc Hb1 Hne). set (full := (length (seg (i + k) MAX_HEADERS) =? MAX_HEADERS)%nat) in *.
  destruct (first_pass c y k full Hph Hok Hne) as (y' & Erun & Hm). cbn [select_headers]. rewrite Erun. cbn [select_headers].
  set (sel := {| sl_headers := []; sl_locator := _; sl_finished := _ |}) in *.
  destruct (accept_known c i 0 full (Some y') sel Hc Hk eq_refl) as (c' & Hc' & Hk' & ->). cbn [segment take length] in Hk'. rewrite Nat.add_0_r in Hk'.
  destruct (Z.leb_spec wanted (total_work (chain_work n) (seg i (k + MAX_HEADERS)))) as [Hen|Hen]; cbn [negb andb orb sl_finished sel] in *; destruct Hm as [Hph' Hok'].
  - cbn [next_question sl_locator sel]. apply (second_rounds (f1 + f2) c' y' _ (k + MAX_HEADERS) 0 []); try done.
    + cbn [length]. by rewrite Nat.add_0_r.
    + by apply reaches_total.
    + apply asks_next. rewrite Hph', Nat.add_0_r. pose proof (ro_point _ _ _ _ _ Hok') as Hpt. cbn [foldl] in Hpt. rewrite (ss_point _ _ _ _ Hss) in Hpt. injection Hpt as -> _ _. apply Hb.
    + lia.
  - destruct full eqn:Efull; [|destruct (Hshort eq_refl) as [H _]; lia]. cbn [negb andb orb next_question sl_locator sel].
    destruct (segment_at (k + MAX_HEADERS) (Hfull eq_refl)) as (h' & n' & Hb' & Hw' & Hadv). destruct (block_at_facts cf (pc_now pc) s Hgood _ _ _ Hb') as (_ & _ & _ & _ & Hi').
    apply (IH c' y' _ (k + MAX_HEADERS)%nat); try done.
    + by apply Hfull.
    + apply asks_next. rewrite Hph'. pose proof (po_point _ _ _ Hok') as Hpt. rewrite Hadv in Hpt. injection Hpt as -> _ _. apply Hb'.
    + unfold MAX_HEADERS, tip_index in *. lia.
Qed.
End Started.

(** ** From the first question *)

Lemma client_median_agrees c h n : client c -> block_index c !! h = Some n -> block_index s !! h = Some n -> HeaderChecks.median_time_past_for_hash c h = HeaderChecks.median_time_past_for_hash s h.
Proof.
  intros Hc E E'. pose proof (extends_left c s (cl_wf _ _ _ Hc) (gc_wf _ _ _ Hgood) (cl_compatible _ _ _ Hc)) as H1.
  pose proof (extends_right c s (cl_wf _ _ _ Hc) (gc_wf _ _ _ Hgood) (cl_compatible _ _ _ Hc)) as H2.
  unfold HeaderChecks.median_time_past_for_hash. by rewrite <- (times_for_hash_ext _ _ H1 _ _ n E), <- (times_for_hash_ext _ _ H2 _ _ n E').
Qed.

Lemma new_sync_start c i h n :
  client c -> knows s c i -> block_at s i h n -> chain_work n < wanted -> sync_start i h n (new_peer_sync cf pc c h (ChainIndex.header n) (chain_work n)).
Proof.
  intros Hc Hk Hb Hlow. pose proof (known_block c i h n Hc Hk Hb) as En. destruct (block_at_facts cf (pc_now pc) s Hgood i h n Hb) as (Hh & Ehd & Hhash & Hw & Hi).
  unfold new_peer_sync. rewrite En, (client_median_agrees c h n Hc En (proj2 Hb)), (client_threshold c Hc), (client_network c Hc). cbn [from_option]. split; try done.
  - by apply new_sync_fresh.
  - unfold start_point, point_of. cbn. by rewrite Hh.
  - intros k. set (y0 := new_sync _ _ _ _ _ _ _ _ _ _). pose proof (gp_pace _ Hgp i h n Hb) as Hp. pose proof (gc_length _ _ _ Hgood).
    change (chain_start_height y0) with (ChainIndex.height n). rewrite Hh. set (m := max_commitments y0). change (Z.of_nat (length (active_chain s) - S i) <= m * 632) in Hp.
    assert (Hz : zlen (seg i k) <= Z.of_nat (length (active_chain s) - S i)) by (unfold zlen; rewrite (segment_length cf (pc_now pc) s Hgood); lia).
    pose proof (zlen_nonneg (seg i k)). replace m with (Z.of_nat (Z.to_nat m)) by lia.
    apply committed_bound; cbn [y0 new_sync sync_params commitment_period commit_offset]; [lia|apply Z.mod_pos_bound; lia|lia|lia].
Qed.

Lemma knows_below c i h n : client c -> block_at s i h n -> block_index c !! h = Some n -> knows s c i.
Proof.
  intros Hc Hb E m h' Hm Eh'. destruct (block_at_facts cf (pc_now pc) s Hgood i h n Hb) as (Hh & _ & _ & _ & Hi). destruct Hb as [Eh En].
  assert (ancestor_hash s h (Z.of_nat m) = Some h') as Ha.
  { rewrite (ancestor_hash_eq s (gc_wf _ _ _ Hgood) h n) by (done || lia). rewrite (active_parent s (gc_wf _ _ _ Hgood) _ m); [done|]. rewrite <- Eh. f_equal. lia. }
  apply (ancestor_agree c s (cl_wf _ _ _ Hc) (gc_wf _ _ _ Hgood) (cl_compatible _ _ _ Hc) h n) in Ha; try done; [|lia].
  destruct (ancestor_total c (cl_wf _ _ _ Hc) h n (Z.of_nat m) E) as (a & an & Ha' & Ean & _); [lia|]. rewrite Ha in Ha'. injection Ha' as <-. by rewrite Ean.
Qed.

(** The message that starts the synchroniser. *)
Lemma start_sync f1 f2 c i h n locator :
  client c -> knows s c i -> block_at s i h n -> asks locator i -> seg i MAX_HEADERS <> [] ->
  low_work cf pc c (seg i MAX_HEADERS) = Some (ChainIndex.header n, chain_work n) -> total_work (chain_work n) (seg i MAX_HEADERS) < wanted ->
  (tip_index - (i + MAX_HEADERS) < f1 * MAX_HEADERS)%nat -> (tip_index - i < f2 * MAX_HEADERS)%nat -> reached (rounds (S (f1 + f2)) c None locator).
Proof.
  intros Hc Hk Hb Ha Hne Hlow Hw Hf1 Hf2. rewrite (round_asks _ _ _ _ _ Ha), (receive_segment c None i h n Hc Hb Hne).
  destruct (segment_end i h n MAX_HEADERS Hb) as (h' & n' & Hb' & Hwk & Hle & _). destruct (block_at_facts cf (pc_now pc) s Hgood i h n Hb) as (_ & _ & _ & Hw1 & _).
  assert (Hss : sync_start i h n (new_peer_sync cf pc c h (ChainIndex.header n) (chain_work n))) by (apply new_sync_start; try done; rewrite Hwk in Hw by lia; lia).
  set (y0 := new_peer_sync _ _ _ _ _ _) in Hss.
  assert (Efull : (length (seg i MAX_HEADERS) =? MAX_HEADERS)%nat = true).
  { apply Nat.eqb_eq. destruct (decide (length (seg i MAX_HEADERS) = MAX_HEADERS)) as [|Hn]; [done|].
    destruct (short_segment i h n MAX_HEADERS Hb) as [_ H]; [pose proof (segment_length cf (pc_now pc) s Hgood i MAX_HEADERS); lia|lia]. }
  rewrite Efull. unfold select_headers. rewrite Hlow. cbn [negb].
  assert (from_option prev_blockhash [] (head (seg i MAX_HEADERS)) = h) as ->.
  { destruct (seg i MAX_HEADERS) as [|hd rest] eqn:Es; [done|]. cbn [head from_option]. by apply (segment_head i h n MAX_HEADERS hd rest). }
  fold y0. pose proof (fresh_session_ok y0 (ss_fresh _ _ _ _ Hss)) as Hok. unfold session_ok in Hok. rewrite (fs_phase _ (ss_fresh _ _ _ _ Hss)) in Hok. destruct Hok as (_ & _ & Hok).
  destruct (first_pass i h n y0 Hss c y0 0 true (fs_phase _ (ss_fresh _ _ _ _ Hss)) Hok) as (y' & Erun & Hm); [by rewrite Nat.add_0_r|].
  rewrite Nat.add_0_r in Erun. rewrite Erun. cbn [Nat.add] in *. rewrite (proj2 (Z.leb_gt _ _)) in * by done. destruct Hm as [Hph' Hok']. cbn [negb andb orb].
  set (sel := {| sl_headers := []; sl_locator := _; sl_finished := _ |}).
  destruct (accept_known c i 0 true (Some y') sel Hc Hk eq_refl) as (c' & Hc' & Hk' & E). cbn [sl_finished sel] in E |- *. rewrite E. cbn [next_question sl_locator sel].
  cbn [segment take length] in Hk'. rewrite Nat.add_0_r in Hk'. apply Nat.eqb_eq in Efull. rewrite Efull in Hb'.
  apply (first_rounds i h n y0 Hss f1 f2 c' y' _ MAX_HEADERS); try done. apply asks_next. rewrite Hph'.
  destruct (segment_at i h n y0 Hss MAX_HEADERS Efull) as (h1 & n1 & Hb1 & _ & Hadv). pose proof (po_point _ _ _ Hok') as Hpt. rewrite Hadv in Hpt. injection Hpt as -> _ _. apply Hb1.
Qed.

Lemma sync_from_start start fuel :
  is_Some (block_index c0 !! start) -> (2 * (length (active_chain s) / MAX_HEADERS) + 3 <= fuel)%nat ->
  reached (rounds fuel c0 None (block_locator_hashes_from c0 start)).
Proof.
  intros [sn Es] Hf. destruct (locator_answered c0 s (cl_wf _ _ _ Hstart) (gc_wf _ _ _ Hgood) (cl_compatible _ _ _ Hstart) start sn Es) as [_ (j & Ej & Hj & Hne & Hnil)].
  fold (seg j MAX_HEADERS) in Ej. rewrite Ej in Hne, Hnil.
  assert (Ha : asks (block_locator_hashes_from c0 start) j).
  { split; [|done]. unfold block_locator_hashes_from. destruct (locator_from c0 start) as [l|] eqn:El; [|unfold locator_from in El; by rewrite Es in El].
    destruct (locator_spec c0 (cl_wf _ _ _ Hstart) start sn l Es El) as (hs & Hl & Hh & _). intros ->. by apply Forall2_nil_inv_r in Hl as ->. }
  pose proof (Nat.div_mod_eq (length (active_chain s)) MAX_HEADERS). pose proof (Nat.mod_upper_bound (length (active_chain s)) MAX_HEADERS ltac:(unfold MAX_HEADERS; lia)).
  set (f2 := S (length (active_chain s) / MAX_HEADERS)). assert (Hf2 : (tip_index - j < f2 * MAX_HEADERS)%nat) by (unfold f2, tip_index; lia).
  assert (Hf1 : (tip_index < (fuel - 1 - f2) * MAX_HEADERS)%nat).
  { apply (Nat.lt_le_trans _ (f2 * MAX_HEADERS)); [unfold f2, tip_index; lia|]. apply Nat.mul_le_mono_r. unfold f2. lia. }
  replace fuel with (S ((fuel - 1 - f2) + f2)) by (unfold f2; lia).
  destruct (decide (seg j MAX_HEADERS = [])) as [E|E]; [rewrite (round_asks _ _ _ _ _ Ha), E; cbn; by apply Hnil|].
  destruct (Hne E) as (e & Ee & [n' En']). destruct (block_at_total cf (pc_now pc) s Hgood j Hj) as (h & n & Hb). assert (h = e) as -> by (destruct Hb as [Hb _]; congruence).
  pose proof (client_node cf (pc_now pc) s Hgood c0 c0 _ _ _ Hstart En' (proj2 Hb)) as ->. pose proof (knows_below c0 j e n Hstart Hb En') as Hk.
  pose proof (low_work_spec c0 j e n Hstart Hk Hb E) as Hlow. destruct (_ && _ && _) eqn:Ecase in Hlow.
  - apply andb_true_iff in Ecase as [[Hlt%Z.ltb_lt _]%andb_true_iff _]. apply (start_sync _ _ c0 j e n); try done; lia.
  - destruct (plain_round (fuel - 1 - f2 + f2) c0 j e n _ Hstart Hk Hb Ha Hlow) as [H1|(c' & l' & h' & m' & Hc' & Hk' & Hb' & Ha' & Htw & Hle & ->)]; [done|].
    apply (plain_rounds _ c' (j + MAX_HEADERS) h' m'); try done; [|lia]. unfold privileged.
    destruct (has_permission _ DOWNLOAD), (has_permission _ NO_BAN); try (by right). left. rewrite !andb_true_r, Htw in Ecase. by apply Z.ltb_ge in Ecase.
Qed.

(** C8: a node learns the headers of a peer with a good chain. From any indexed block it asks, the peer answers, and the
    node's handler decides; when the peer's chain is valid for the node and has the work that the node wants, the node has the
    peer's tip after at most two questions for every 2000 headers and three more, whether the headers were accepted at once or
    went through both passes of the low-work synchronisation. *)
Theorem header_sync_completes start fuel :
  is_Some (block_index c0 !! start) -> (2 * (length (active_chain s) / MAX_HEADERS) + 3 <= fuel)%nat ->
  is_Some (block_index (rounds fuel c0 None (block_locator_hashes_from c0 start)) !! best_hash s).
Proof. apply sync_from_start. Qed.
End Rounds.
