(* ===== verification/HeadersExamples.v ===== *)
(** * Header synchronisation on small chains

    A peer with two blocks above the genesis block and a node that has only the
    genesis block. *)

From Stdlib Require Import ZArith Lia.
From stdpp Require Import base list option gmap sets.
From S2P Require Import Prelude Types VersionBits ChainIndex BlockChecks ConnectBlock HeaderChecks ChainManager ChainExamples Locator HeadersSync HeadersSession HeadersPeer HeadersTheorems HeadersRounds HeadersLiveness.
Local Open Scope Z_scope.

(** Every header has one unit of work. *)
Definition unit_headers : HeaderOps := {|
  work _ := 1; target := @target toy_headers; hash_to_string := @hash_to_string toy_headers; no_pow_retargeting := @no_pow_retargeting toy_headers;
  allow_min_difficulty_blocks _ := true; pow_target_spacing _ := 600; max_attainable_target _ := 1; params_adjustment_interval _ := 4;
  from_next_work_required := @from_next_work_required toy_headers |}.
Definition example_sync : SyncOps := {|
  sha256 b := [from_le b mod 251]; from_compact z := z; max_transition_threshold _ t := 4 * t; min_transition_threshold t := t / 4 |}.

#[local] Existing Instances chain_bitcoin unit_headers chain_pow example_sync.

Definition hd0 : Header := blk_header block0.
Definition hd1 : Header := blk_header block1.
Definition hd2 : Header := blk_header block2.
Definition no_headers : ChainState :=
  {| network := Regtest; block_index := ∅; active_chain := []; headers := []; store := ∅; invalid_blocks := ∅; precious_blocks := ∅;
     block_sequence_ids := ∅; header_sequence_ids := ∅; next_block_sequence_id := 1; next_header_sequence_id := 1; best_header_hash := None |}.
Definition node0 : ChainState := initialize_genesis no_headers (enc_header hd0) hd0.
Definition node1 : ChainState := grown node0 (connect_tip node0 (enc_header hd1) hd1).
Definition node2 : ChainState := grown node1 (connect_tip node1 (enc_header hd2) hd2).

Lemma node0_reachable : reachable node0.
Proof. by apply reach_genesis. Qed.
Lemma node2_reachable : reachable node2.
Proof. do 2 (apply reach_connect; [|by vm_compute]). apply node0_reachable. Qed.

Definition keyed_check (c : ChainState) : bool :=
  forallb (fun '(h, n) => bool_decide (header_hash (ChainIndex.header n) = h) && (0 <=? ChainIndex.height n) && (0 <=? chain_work n) && (chain_work n <=? umax 256))
    (map_to_list (block_index c)).
Lemma keyed_check_spec c : keyed_check c = true -> index_keyed c /\ forall hash node, block_index c !! hash = Some node -> 0 <= chain_work node <= umax 256.
Proof.
  unfold keyed_check. rewrite forallb_forall. intros H. split; intros h n E; apply elem_of_map_to_list, list_elem_of_In, H in E; bool_to_prop; split; try done; lia.
Qed.

Lemma node0_index hash n : block_index node0 !! hash = Some n -> hash = enc_header hd0.
Proof.
  unfold node0, initialize_genesis. destruct (assign_header_sequence_same (set_block_index <[enc_header hd0 := {| header := hd0; height := 0; chain_work := work hd0; skip := None |}]>
    (set_active (fun l => l ++ [enc_header hd0]) (fun l => l ++ [hd0]) no_headers)) (enc_header hd0)) as (E & _). intros H. rewrite E in H. cbn [set_block_index block_index set_active] in H.
  apply lookup_insert_Some in H as [[<- _]|[_ H]]; [done|]. change (block_index no_headers) with (∅ : gmap bytes BlockNode) in H. by rewrite lookup_empty in H.
Qed.

Lemma nodes_compatible : compatible node0 node2.
Proof.
  split; [done| |].
  - exists (enc_header hd0). split; [by vm_compute|]. split; [by vm_compute|]. by vm_compute.
  - intros hash n n' E. pose proof (node0_index hash n E) as ->. revert E. vm_compute. intros [= <-] [= <-]. done.
Qed.

Definition example_peer : PeerContext := {| pc_now := 10; pc_offset := 5; pc_salt := [7]; permissions := 0; pc_inbound := true; pc_manual := false |}.

Definition parent_of (hd : Header) : BlockNode := default {| header := hd; height := 0; chain_work := 0; skip := None |} (block_index node2 !! prev_blockhash hd).
Definition good_check (hd : Header) : bool :=
  is_ok (validate_header_above example_config node2 10 hd (parent_of hd)) &&
  bool_decide (validate_block_version_with_params (cf_params example_config) (ChainIndex.height (parent_of hd) + 1) (hd_version hd) = None).

Lemma good_check_spec hd parent :
  good_check hd = true -> block_index node2 !! prev_blockhash hd = Some parent -> good_header example_config 10 node2 hd parent.
Proof.
  intros [H1 H2]%andb_true_iff Ep. assert (parent_of hd = parent) as E by (unfold parent_of; by rewrite Ep). rewrite E in H1, H2. split.
  - clear H2 Ep E. revert H1. by destruct (validate_header_above _ _ _ _ _) as [[]|].
  - by apply bool_decide_eq_true in H2.
  - reflexivity.
Qed.

Lemma node2_headers : forallb good_check (tail (headers node2)) = true.
Proof. by vm_compute. Qed.

Lemma node2_good : good_chain example_config 10 node2.
Proof.
  pose proof (keyed_check_spec node2 ltac:(by vm_compute)) as [H1 H2]. split.
  - apply reachable_wf, node2_reachable.
  - done.
  - by vm_compute.
  - by vm_compute.
  - intros i hd parent E. apply good_check_spec. pose proof node2_headers as H. rewrite forallb_forall in H. apply H, list_elem_of_In, (list_elem_of_lookup_2 _ i).
    rewrite <- E. by destruct (headers node2).
  - done.
  - done.
Qed.

Lemma node2_peer : good_peer example_config example_peer example_config example_peer node2 node0.
Proof.
  split; [apply node2_good|by vm_compute|by vm_compute|]. intros i h n _. change (length (active_chain node2)) with 3%nat. cbn [pc_now example_peer].
  match goal with |- context [sat_sub 10 ?x] => generalize x end. intros m. unfold sat_mul, sat_add, sat_sub, MAX_FUTURE_BLOCK_TIME_SECS, umax. apply (Z.le_trans _ (43200 / 632 * 632)); [change (43200 / 632 * 632) with 42976; lia|].
  apply Z.mul_le_mono_nonneg_r; [lia|]. apply Z.div_le_mono; lia.
Qed.

Lemma node0_client : client_ok node2 node0 node0.
Proof.
  pose proof (keyed_check_spec node0 ltac:(by vm_compute)) as [H1 _]. split.
  - apply reachable_wf, node0_reachable.
  - apply nodes_compatible.
  - exact H1.
  - unfold node0, initialize_genesis. by rewrite (proj1 (assign_header_sequence_invalid _ _)).
  - reflexivity.
  - reflexivity.
  - reflexivity.
Qed.

Lemma header_sync_completes_witness :
  is_Some (block_index (rounds example_config example_peer example_config example_peer node2 3 node0 None (block_locator_hashes_from node0 (enc_header hd0))) !! best_hash node2).
Proof.
  apply (header_sync_completes example_config example_peer example_config example_peer node2 node0 node2_peer node0_client).
  - apply (bool_decide_unpack _). by vm_compute.
  - change (length (active_chain node2)) with 3%nat. unfold MAX_HEADERS. rewrite Nat.div_small by lia. lia.
Defined.

Lemma getheaders_connects_witness :
  zlen (block_locator_hashes_from node0 (enc_header hd0)) <= WireMessage.MAX_LOCATOR_HASHES /\
  answers node0 node2 (headers_after_locator node2 (block_locator_hashes_from node0 (enc_header hd0)) all_zeros).
Proof.
  apply getheaders_connects; [apply reachable_wf, node0_reachable|apply reachable_wf, node2_reachable|apply nodes_compatible|].
  apply (bool_decide_unpack _). by vm_compute.
Defined.

(** ** A message *)

Abbreviation message := (receive_headers example_config example_peer [hd1; hd2] node0 None).
Abbreviation learned_index := (block_index message.1.1).

Lemma example_run : peer_run example_config [node0] (∅ ∪ (dom learned_index ∖ dom (block_index node0))) message.1.2.
Proof.
  apply (run_message example_config [] ∅ None example_peer [hd1; hd2] node0 message.1.1 message.1.2 message.2); [constructor| |by vm_compute|].
  - apply (proj1 (keyed_check_spec node0 ltac:(by vm_compute))).
  - by destruct message as [[c y] r].
Qed.

Lemma low_work_headers_stay_out_witness :
  exists l hd, earned example_config [node0] l /\ hd ∈ l /\ header_hash hd = enc_header hd2.
Proof.
  apply (proj1 (low_work_headers_stay_out example_config [node0] _ _ example_run) (enc_header hd2)).
  apply elem_of_union_r, elem_of_difference. rewrite !elem_of_dom. split; [apply (bool_decide_unpack _); by vm_compute|]. intros [n E]. pose proof (node0_index _ _ E) as H. by vm_compute in H.
Defined.
