(* ===== verification/UtxoBatch.v ===== *)
(** * Reads and batches of the coin store

    The set that a store stands for is the overlay over what is on disk.
    Every read agrees with it, and a batch turns it into the set that the
    batch of the chain manager's abstract store leaves, with its count, through
    durable states that are each the set of a flush or behind the marker. *)

From Stdlib Require Import ZArith Lia.
From stdpp Require Import base list option gmap sets strings sorting.
From S2P Require Import Prelude Types UtxoCodec ConnectBlock Ledger ChainManager ChainReplay ChainActivate UtxoCache UtxoStore UtxoDisk UtxoFlush.
Local Open Scope Z_scope.
Local Open Scope op_scope.
Local Set Warnings "-clear-no-such-hyp".

Section Batches.
Context {KSO : Keyspace} {KL : KeyspaceLaws} {CV : CurveOps} {CL : CurveLaws} {CO : CoinOrder} {EX : Excused}.

(** ** Reads *)

Section Reads.
Context (s : UtxoStore) (base u : coins) (Hs : store_ok s base u).

Lemma so_coin o e : u !! o = Some e -> coin_ok o e.
Proof.
  rewrite (so_overlay _ _ _ Hs), overlay_lookup. destruct (pending s !! o) as [p|] eqn:Ep; intros He.
  - destruct (so_pending _ _ _ Hs o p Ep) as [Ho Hw]. split; [done|by apply Hw].
  - by apply (hd_coin _ _ _ (im_holds _ _ _ _ (so_image _ _ _ Hs))).
Qed.

Lemma pending_read o p : pending s !! o = Some p -> u !! o = pu_entry p.
Proof. intros E. by rewrite (so_overlay _ _ _ Hs), overlay_lookup, E. Qed.
Lemma cache_read o e : cache_get (read_cache s) o = Some e -> u !! o = Some e.
Proof. apply Hs. Qed.
Lemma complete_read o :
  rc_complete (read_cache s) = true -> pending s !! o = None -> cache_get (read_cache s) o = None -> u !! o = None.
Proof. intros Hc Hp <-. symmetry. by apply (so_complete _ _ _ Hs). Qed.

Lemma coins_get_spec o :
  outpoint_wf o -> pending s !! o = None ->
  match coins_get s (encode_outpoint o) with
  | None => u !! o = None
  | Some b => exists e, decode_coin b = Ok e /\ u !! o = Some e
  end.
Proof.
  intros Ho Hp. rewrite (so_overlay _ _ _ Hs), overlay_lookup, Hp. by apply (holds_get (partitions s)), Ho; apply Hs.
Qed.

Lemma store_contains_spec o : outpoint_wf o -> contains o s = bool_decide (is_Some (u !! o)).
Proof.
  intros Ho. unfold contains. destruct (pending s !! o) as [p|] eqn:Ep; [by rewrite (pending_read o p Ep)|].
  destruct (cache_get (read_cache s) o) as [e|] eqn:Ec; [by rewrite (cache_read o e Ec)|].
  destruct (rc_complete (read_cache s)) eqn:Er; [by rewrite (complete_read o Er Ep Ec)|].
  pose proof (coins_get_spec o Ho Ep) as H. destruct (coins_get _ _); [destruct H as (e & _ & ->)|rewrite H]; done.
Qed.

Lemma load_spec o : outpoint_wf o -> pending s !! o = None -> load s o = Ok (u !! o).
Proof.
  intros Ho Hp. unfold load. pose proof (coins_get_spec o Ho Hp) as H. destruct (coins_get _ _) as [b|]; [|by rewrite H].
  destruct H as (e & -> & ->). done.
Qed.

(** The validation view never gives a wrong answer: it fails where it does not know. *)
Lemma view_entry_spec o : view_entry s o = Ok (u !! o) \/ (view_entry s o = Err MissedPrefetch /\ rc_complete (read_cache s) = false).
Proof.
  unfold view_entry. destruct (pending s !! o) as [p|] eqn:Ep; [left; by rewrite (pending_read o p Ep)|].
  destruct (cache_get (read_cache s) o) as [e|] eqn:Ec; [left; by rewrite (cache_read o e Ec)|].
  destruct (rc_complete (read_cache s)) eqn:Er; [left; by rewrite (complete_read o Er Ep Ec)|by right].
Qed.

Lemma view_contains_entry o : view_contains s o = let? e := view_entry s o in Ok (bool_decide (is_Some e)).
Proof. unfold view_contains, view_entry. destruct (pending s !! o), (cache_get (read_cache s) o), (rc_complete (read_cache s)); done. Qed.

(** ** Bulk reads *)

(** What is known without the disk. *)
Definition resolve (o : OutPoint) : option (option StoredUtxo) :=
  match pending s !! o, cache_get (read_cache s) o with
  | Some p, _ => Some (pu_entry p)
  | None, Some e => Some (Some e)
  | None, None => if rc_complete (read_cache s) then Some None else None
  end.

Lemma resolve_Some o r : resolve o = Some r -> r = u !! o.
Proof.
  unfold resolve. destruct (pending s !! o) as [p|] eqn:Ep; [intros [= <-]; symmetry; by apply pending_read|].
  destruct (cache_get (read_cache s) o) as [e|] eqn:Ec; [intros [= <-]; symmetry; by apply cache_read|].
  destruct (rc_complete (read_cache s)) eqn:Er; [intros [= <-]; symmetry; by apply complete_read|done].
Qed.
Lemma resolve_None o : resolve o = None -> pending s !! o = None.
Proof. unfold resolve. by destruct (pending s !! o). Qed.

Lemma query_spec l X k r :
  query s l X = (k, r) ->
  (forall o, k !! o = if decide (o ∈ l /\ o ∉ X) then resolve o else None) /\ (forall o, o ∈ r <-> o ∈ l /\ o ∉ X /\ resolve o = None).
Proof.
  revert X k r. induction l as [|x l IH]; intros X k r; cbn [query].
  { intros [= <- <-]. split; intros o; [rewrite decide_False; [apply lookup_empty|]|]; set_solver. }
  case_bool_decide as Ex.
  { intros [H1 H2]%IH. split; intros o; [rewrite H1; apply decide_ext|rewrite H2]; set_solver. }
  destruct (query s l ({[x]} ∪ X)) as [k' r'] eqn:E. destruct (IH _ _ _ E) as [H1 H2]. clear IH E. intros Hkr.
  assert (Hq : (k, r) = match resolve x with Some v => (<[x := v]> k', r') | None => (k', x :: r') end).
  { rewrite <- Hkr. unfold resolve. by destruct (pending s !! x), (cache_get (read_cache s) x), (rc_complete (read_cache s)). }
  clear Hkr. split; intros o; destruct (decide (o = x)) as [->|Hne].
  - rewrite decide_True by set_solver. destruct (resolve x) eqn:Ev; injection Hq as -> ->; [apply lookup_insert_eq|]. rewrite H1, decide_False by set_solver. done.
  - transitivity (k' !! o); [destruct (resolve x); injection Hq as -> ->; [by apply lookup_insert_ne|done]|]. rewrite H1. apply decide_ext. set_solver.
  - destruct (resolve x) eqn:Ev; injection Hq as -> ->; [rewrite H2|]; set_solver.
  - transitivity (o ∈ r'); [destruct (resolve x); injection Hq as -> ->; set_solver|]. rewrite H2. set_solver.
Qed.

Lemma load_unresolved_spec l :
  Forall outpoint_wf l -> Forall (fun o => pending s !! o = None) l -> load_unresolved s l = Ok (map (fun o => (o, u !! o)) l).
Proof.
  induction 1 as [|o l Ho Hl IH]; [done|]. intros [Hp Hps]%Forall_cons. cbn [load_unresolved map]. rewrite (load_spec o Ho Hp), (IH Hps). done.
Qed.

Lemma load_queried l r : Forall outpoint_wf l -> (forall o, o ∈ r -> o ∈ l /\ resolve o = None) -> load_unresolved s r = Ok (map (fun o => (o, u !! o)) r).
Proof.
  intros Hl Hr. rewrite Forall_forall in Hl. apply load_unresolved_spec; apply Forall_forall; intros o (Ho & Hn)%Hr; [by apply Hl|by apply resolve_None].
Qed.

Lemma add_loaded r (m : coins) o :
  (forall o, m !! o = None \/ m !! o = u !! o) ->
  foldl (fun m (p : OutPoint * option StoredUtxo) => match p.2 with Some e => <[p.1 := e]> m | None => m end) m (map (fun o => (o, u !! o)) r) !! o =
  if decide (o ∈ r) then u !! o else m !! o.
Proof.
  revert m. induction r as [|x r IH]; intros m Hm; [done|]. cbn [map foldl fst snd].
  assert (Hx : forall o, match u !! x with Some e => <[x := e]> m | None => m end !! o = if decide (o = x) then u !! o else m !! o).
  { intros o'. destruct (decide (o' = x)) as [->|Hne]; destruct (u !! x) eqn:E; [apply lookup_insert_eq| |by apply lookup_insert_ne|done].
    destruct (Hm x) as [->| ->]; congruence. }
  rewrite IH; clear IH.
  - destruct (decide (o ∈ r)); [by rewrite decide_True by (by right)|]. rewrite Hx. destruct (decide (o = x)) as [->|]; [by rewrite decide_True by left|].
    by rewrite decide_False by set_solver.
  - intros o'. rewrite Hx. case_decide; [by right|apply Hm].
Qed.

(** A bulk read is the set, restricted to what is asked for. *)
Lemma execute_spec l : Forall outpoint_wf l -> exists m, execute s l = Ok m /\ forall o, m !! o = if decide (o ∈ l) then u !! o else None.
Proof.
  intros Hl. unfold execute. destruct (query s l ∅) as [k r] eqn:E. destruct (query_spec _ _ _ _ E) as [H1 H2].
  rewrite (load_queried l r Hl) by (intros o (? & _ & ?)%H2; done). eexists. split; [done|]. intros o. rewrite add_loaded.
  - rewrite lookup_omap, H1. destruct (decide (o ∈ l)) as [Hin|Hin].
    + rewrite (decide_True (P := o ∈ l /\ _)) by set_solver. destruct (resolve o) as [v|] eqn:Ev.
      * rewrite decide_False by (rewrite H2; naive_solver). cbn. unfold id. by apply resolve_Some.
      * rewrite decide_True by (rewrite H2; set_solver). done.
    + rewrite decide_False by (rewrite H2; naive_solver). by rewrite decide_False by naive_solver.
  - intros o'. rewrite lookup_omap, H1. destruct (decide _); [|by left]. destruct (resolve o') as [v|] eqn:Ev; [right; cbn; unfold id; by apply resolve_Some|by left].
Qed.

Lemma query_unresolved_elem l o : o ∈ query_unresolved s l <-> o ∈ l /\ resolve o = None.
Proof.
  unfold query_unresolved. rewrite list_elem_of_fmap. setoid_rewrite merge_sort_Permutation. setoid_rewrite list_elem_of_fmap.
  assert (Hf : o ∈ l /\ resolve o = None <-> o ∈ List.filter (fun o => negb (bool_decide (is_Some (pending s !! o)) || bool_decide (is_Some (cache_get (read_cache s) o)) || rc_complete (read_cache s))) l).
  { rewrite (list_elem_of_In (List.filter _ _) o), filter_In, <- list_elem_of_In. apply and_iff_compat_l. unfold resolve.
    destruct (pending s !! o), (cache_get (read_cache s) o), (rc_complete (read_cache s)); done. }
  rewrite Hf. split.
  - intros (y & -> & x & -> & Hx). cbn. by rewrite elem_of_elements, elem_of_list_to_set in Hx.
  - intros H. eexists. split; [|exists o; split; [done|by rewrite elem_of_elements, elem_of_list_to_set]]. done.
Qed.

(** The prefetch has every answer that the view does not have, the misses too. *)
Lemma seed_unresolved_spec l :
  Forall outpoint_wf l ->
  exists m, seed_unresolved_into s l = Ok m /\ forall o, m !! o = if decide (o ∈ l /\ resolve o = None) then Some (u !! o) else None.
Proof.
  intros Hl. unfold seed_unresolved_into. rewrite (load_queried l) by (try done; intros o; apply query_unresolved_elem).
  eexists. split; [done|]. intros o. case_decide as E.
  - rewrite <- query_unresolved_elem in E. apply elem_of_list_to_map_1'; [|apply list_elem_of_fmap; eauto].
    intros y (x & [= -> ->] & _)%list_elem_of_fmap. done.
  - apply not_elem_of_list_to_map_1. rewrite <- list_fmap_compose. rewrite <- query_unresolved_elem in E.
    by rewrite (list_fmap_ext _ id) by done; rewrite list_fmap_id.
Qed.
End Reads.

(** ** The overlay after a batch *)

Definition tombstone : PendingUtxo := {| pu_entry := None; pu_fresh := false |}.
Definition drop_coin (p : gmap OutPoint PendingUtxo) (o : OutPoint) : gmap OutPoint PendingUtxo :=
  match p !! o with Some x => if pu_fresh x then delete o p else <[o := tombstone]> p | None => <[o := tombstone]> p end.
Definition add_coin (fresh : bool) (p : gmap OutPoint PendingUtxo) (a : OutPoint * StoredUtxo) : gmap OutPoint PendingUtxo :=
  <[a.1 := {| pu_entry := Some a.2; pu_fresh := fresh |}]> p.

Lemma set_overlay_twice p b p' b' s : set_overlay p b (set_overlay p' b' s) = set_overlay p b s.
Proof. done. Qed.

Lemma foldl_overlay {A} (f : UtxoStore -> A -> UtxoStore) (g : gmap OutPoint PendingUtxo -> A -> gmap OutPoint PendingUtxo) l s :
  (forall s x, exists b, f s x = set_overlay (g (pending s) x) b s) -> exists b, foldl f s l = set_overlay (foldl g (pending s) l) b s.
Proof.
  intros H. revert s. induction l as [|x l IH]; intros s; [exists (pending_bytes s); by destruct s|].
  cbn [foldl]. destruct (H s x) as [b ->]. destruct (IH (set_overlay (g (pending s) x) b s)) as [b' ->]. exists b'. by rewrite set_overlay_twice.
Qed.

Lemma remove_coins_overlay l s : exists b, foldl (fun s o => remove_coin o s) s l = set_overlay (foldl drop_coin (pending s) l) b s.
Proof.
  apply (foldl_overlay (fun s o => remove_coin o s) drop_coin). intros s' o. unfold remove_coin, drop_coin, set_pending, remove_pending.
  destruct (pending s' !! o) as [x|] eqn:E; [|by eexists]. destruct (pu_fresh x); by eexists.
Qed.
Lemma add_coins_overlay fresh l s :
  exists b, foldl (fun s a => set_pending a.1 (Some a.2) fresh s) s l = set_overlay (foldl (add_coin fresh) (pending s) l) b s.
Proof. apply (foldl_overlay (fun s a => set_pending a.1 (Some a.2) fresh s) (add_coin fresh)). intros s' a. by eexists. Qed.

Lemma drop_coins_lookup l p o :
  NoDup l ->
  foldl drop_coin p l !! o =
  if decide (o ∈ l) then (match p !! o with Some x => if pu_fresh x then None else Some tombstone | None => Some tombstone end) else p !! o.
Proof.
  revert p. induction l as [|y l IH]; intros p Hnd; [done|]. apply NoDup_cons in Hnd as [Hy Hnd]. cbn [foldl]. rewrite (IH _ Hnd). clear IH.
  destruct (decide (o = y)) as [->|Hne].
  - rewrite decide_False, decide_True by (done || left). unfold drop_coin. destruct (p !! y) as [x|]; [|apply lookup_insert_eq].
    destruct (pu_fresh x); [apply lookup_delete_eq|apply lookup_insert_eq].
  - assert (E : drop_coin p y !! o = p !! o).
    { unfold drop_coin. destruct (p !! y) as [x|]; [destruct (pu_fresh x)|]; [by apply lookup_delete_ne|by apply lookup_insert_ne..]. }
    rewrite E. apply decide_ext. set_solver.
Qed.

Lemma add_coins_lookup fresh l p o :
  NoDup l.*1 ->
  foldl (add_coin fresh) p l !! o = match coin_map l !! o with Some e => Some {| pu_entry := Some e; pu_fresh := fresh |} | None => p !! o end.
Proof.
  revert p. induction l as [|[a e] l IH]; intros p Hnd; [done|]. apply NoDup_cons in Hnd as [Ha Hnd]. cbn [foldl]. rewrite (IH _ Hnd). clear IH.
  change (list_to_map ((a, e) :: l)) with (<[a := e]> (coin_map l)). destruct (decide (o = a)) as [->|Hne].
  - rewrite lookup_insert_eq, (not_elem_of_list_to_map_1 l a) by done. apply lookup_insert_eq.
  - rewrite lookup_insert_ne by done. destruct (coin_map l !! o); [done|]. by apply lookup_insert_ne.
Qed.

Lemma drop_coins_size l p : (size (foldl drop_coin p l) <= size p + length l)%nat.
Proof.
  revert p. induction l as [|y l IH]; intros p; cbn [foldl length]; [lia|]. specialize (IH (drop_coin p y)).
  assert (size (drop_coin p y) <= S (size p))%nat; [|lia]. unfold drop_coin.
  destruct (p !! y) as [x|] eqn:E; [destruct (pu_fresh x)|]; rewrite ?map_size_insert, ?map_size_delete, E; unfold id; lia.
Qed.
Lemma overlay_adds_size fresh l p : (size (foldl (add_coin fresh) p l) <= size p + length l)%nat.
Proof.
  revert p. induction l as [|y l IH]; intros p; cbn [foldl length]; [lia|]. specialize (IH (add_coin fresh p y)).
  assert (size (add_coin fresh p y) <= S (size p))%nat; [|lia]. unfold add_coin. rewrite map_size_insert. destruct (p !! y.1); unfold id; lia.
Qed.

Lemma remove_cached_spec l c :
  cache_wf c ->
  let c' := foldl (fun c o => cache_remove o c) c l in
  cache_wf c' /\ rc_complete c' = rc_complete c /\ forall o, cache_get c' o = if decide (o ∈ l) then None else cache_get c o.
Proof.
  revert c. induction l as [|y l IH]; intros c Hc; [done|]. cbn [foldl]. destruct (remove_spec c y Hc) as [H1 H2].
  destruct (IH _ H1) as (H3 & H4 & H5). split; [done|]. split.
  - rewrite H4. unfold cache_remove. by destruct (_ !! y).
  - intros o. rewrite H5, H2. destruct (decide (o ∈ l)); [by rewrite decide_True by (by right)|].
    destruct (decide (o = y)) as [->|]; [by rewrite decide_True by left|by rewrite decide_False by set_solver].
Qed.

(** ** A batch in memory *)

Definition edit (removals : list OutPoint) (additions : list (OutPoint * StoredUtxo)) (next_count : Z) (fresh : bool) (s : UtxoStore) : UtxoStore :=
  let s := foldl (fun s o => remove_coin o s) s removals in
  let s := foldl (fun s a => set_pending a.1 (Some a.2) fresh s) s additions in
  set_count next_count (set_read_cache (fun c => foldl (fun c o => cache_remove o c) c removals) s).

(** What a batch must be: coins that are there go, coins that are new (or
    replace one that goes) come, and coins that are declared fresh are not on
    disk. *)
Record batch_ok (base u : coins) (removals : list OutPoint) (additions : list (OutPoint * StoredUtxo)) (fresh : bool) : Prop := {
  bo_removals : NoDup removals;
  bo_present : forall o, o ∈ removals -> is_Some (u !! o);
  bo_additions : NoDup additions.*1;
  bo_coins : forall a e, (a, e) ∈ additions -> coin_ok a e;
  bo_new : forall a, a ∈ additions.*1 -> u !! a = None \/ a ∈ removals;
  bo_fresh : fresh = true -> forall a, a ∈ additions.*1 -> base !! a = None;
}.

Lemma edit_frame removals additions next_count fresh s :
  exists b, edit removals additions next_count fresh s =
    set_count next_count (set_read_cache (fun c => foldl (fun c o => cache_remove o c) c removals)
      (set_overlay (foldl (add_coin fresh) (foldl drop_coin (pending s) removals) additions) b s)).
Proof.
  unfold edit. destruct (remove_coins_overlay removals s) as [b ->].
  destruct (add_coins_overlay fresh additions (set_overlay (foldl drop_coin (pending s) removals) b s)) as [b' ->]. by exists b'.
Qed.

Lemma edit_spec s base u removals additions fresh :
  let u' := insert_all additions (remove_all removals u) in
  store_ok s base u -> batch_ok base u removals additions fresh -> Z.of_nat (size u') < 2 ^ 62 ->
  Z.of_nat (size (pending s)) + Z.of_nat (length removals) + Z.of_nat (length additions) + 1 <= umax 64 ->
  store_ok (edit removals additions (Z.of_nat (size u')) fresh s) base u'.
Proof.
  intros u' Hs [B1 B2 B3 B4 B5 B6] Hsmall Hroom. destruct (edit_frame removals additions (Z.of_nat (size u')) fresh s) as [b ->].
  set (p' := foldl (add_coin fresh) _ additions).
  assert (Hp' : forall o, p' !! o = match coin_map additions !! o with
    | Some e => Some {| pu_entry := Some e; pu_fresh := fresh |}
    | None => if decide (o ∈ removals) then (match pending s !! o with Some x => if pu_fresh x then None else Some tombstone | None => Some tombstone end)
              else pending s !! o
    end) by (intros o; unfold p'; by rewrite add_coins_lookup, drop_coins_lookup).
  assert (Hu' : forall o, u' !! o = match coin_map additions !! o with Some e => Some e | None => if decide (o ∈ removals) then None else u !! o end)
    by (intros o; by apply batch_lookup).
  assert (Hin : forall o e, coin_map additions !! o = Some e -> (o, e) ∈ additions /\ o ∈ additions.*1).
  { intros o e E%elem_of_list_to_map_2. split; [done|]. by apply (list_elem_of_fmap_2 fst) in E. }
  destruct (remove_cached_spec removals (read_cache s) (sd_wf _ _ (so_cache _ _ _ Hs))) as (C1 & C2 & C3).
  pose proof (so_coin _ _ _ Hs) as Hcoin. destruct Hs as [Hn Him Hov Hp Hr Hfr Hc Hcov Hun Hsm Hg Hca Hco].
  split; cbn [set_count set_read_cache set_overlay partitions disk generation pending entry_count pending_covers_all bulk_ingest_eligible read_cache]; try done.
  - apply map_eq. intros o. rewrite overlay_lookup, Hu', Hp'. destruct (coin_map additions !! o); [done|]. rewrite Hov, overlay_lookup.
    destruct (decide (o ∈ removals)); [|done]. destruct (pending s !! o) as [x|] eqn:Ex; [|done]. destruct (pu_fresh x) eqn:Ef; [|done]. symmetry. by apply (Hfr o x).
  - intros o x. rewrite Hp'. destruct (coin_map additions !! o) as [e|] eqn:Ea.
    + intros [= <-]. destruct (B4 o e) as [Ho Hw]; [by apply Hin|]. split; [done|]. cbn. by intros e' [= <-].
    + destruct (decide (o ∈ removals)) as [Hrm|_]; [|apply Hp]. intros Hx. assert (x = tombstone) as -> by (destruct (pending s !! o) as [y|]; [destruct (pu_fresh y)|]; congruence).
      destruct (B2 o Hrm) as [e He]. split; [|done]. by apply (Hcoin o e).
  - pose proof (overlay_adds_size fresh additions (foldl drop_coin (pending s) removals)). pose proof (drop_coins_size removals (pending s)). unfold p'. lia.
  - intros o x. rewrite Hp'. destruct (coin_map additions !! o) as [e|] eqn:Ea.
    + intros [= <-]. cbn. intros ->. apply B6; [done|]. by eapply Hin.
    + destruct (decide (o ∈ removals)); [|apply Hfr]. destruct (pending s !! o) as [y|]; [destruct (pu_fresh y)|]; congruence || (by intros [= <-]).
  - by destruct Hsm.
  - split; [done|]. intros o e. rewrite C3. case_decide as Er; [done|]. intros He%(sd_sub _ _ Hca). rewrite Hu'.
    destruct (coin_map additions !! o) as [e'|] eqn:Ea; [|by rewrite decide_False]. destruct (B5 o) as [E|E]; [by eapply Hin|congruence|done].
  - rewrite C2. intros Hcomp o. rewrite Hp', C3, Hu'. destruct (coin_map additions !! o); [done|]. destruct (decide (o ∈ removals)); [done|]. by apply Hco.
Qed.

(** ** A batch *)

Lemma flush_unsynced_spec s base u L :
  store_ok s base u -> logged L s base -> generation s + 1 < 2 ^ 64 ->
  exists s', flush_unsynced s = (s', Ok ()) /\ flushed false L u s s'.
Proof.
  intros Hs [L1 L2 L3] Hg. unfold flush_unsynced, bind, modify. set (s1 := set_dirty _ _ _).
  destruct (flush_pending_spec false s1 base u L) as (s' & E & Hf); try done.
  - by destruct Hs; split.
  - split; [|done|done]. eapply (kept_app _ _ s s1 [disk s1] L1); [done|done|]. intros d ->%list_elem_of_singleton. by left.
  - exists s'. split; [done|]. by destruct Hf; split.
Qed.

(** The sets that are written while [u] becomes [u']. *)
Definition grows (u u' : coins) (L L' : gmap Z coins) : Prop :=
  L ⊆ L' /\ forall g v, L' !! g = Some v -> L !! g = Some v \/ v = u \/ v = u'.

Lemma grows_refl u u' L : grows u u' L L.
Proof. split; [done|by left]. Qed.
Lemma grows_insert u u' L L' g v : grows u u' L L' -> v = u \/ v = u' -> L' !! g = None \/ L' !! g = Some v -> grows u u' L (<[g := v]> L').
Proof.
  intros [H1 H2] Hv Hg. split.
  - destruct Hg as [Hg|Hg]; [etransitivity; [exact H1|by apply insert_subseteq]|by rewrite insert_id].
  - intros g' v' [[<- <-]|[_ H]]%lookup_insert_Some; [by right|by apply H2].
Qed.

(** The state between two operations. *)
Record steady (L : gmap Z coins) (s : UtxoStore) (base u : coins) : Prop := {
  sy_ok : store_ok s base u;
  sy_logged : logged L s base;
  sy_limit : Z.of_nat (size (pending s)) <= pending_item_limit s < 2 ^ 62;
}.

Definition durable (s : UtxoStore) (base u : coins) : Prop :=
  base = u /\ pending s = ∅ /\ dk_marker (disk s) = false /\ exact (dk_keyspace (disk s)) /\ exists old, moments s = disk s :: old.

Lemma flush_grows sync s u0 u u1 L L0 s' :
  0 <= pending_item_limit s < 2 ^ 62 -> grows u0 u1 L0 L -> u = u0 \/ u = u1 -> flushed sync L u s s' ->
  steady (<[generation s' := u]> L) s' u u /\ grows u0 u1 L0 (<[generation s' := u]> L).
Proof.
  intros Hi Hgr Hu [H1 H2 H3 H4 H5 H6 _]. split; [split; [done|done|rewrite H4, H6, map_size_empty; lia]|]. by apply grows_insert.
Qed.

(** What an operation does that turns [u] into [u'] and may write twice. *)
Definition step_to (sync : bool) (u u' : coins) (L : gmap Z coins) (s s' : UtxoStore) : Prop :=
  exists L' base', steady L' s' base' u' /\ grows u u' L L' /\ generation s <= generation s' <= generation s + 2 /\
    (sync = true -> durable s' base' u').

Lemma flush_step sync s u0 u1 s0 L L0 s' :
  0 <= pending_item_limit s < 2 ^ 62 -> grows u0 u1 L0 L -> generation s0 <= generation s <= generation s0 + 1 ->
  flushed sync L u1 s s' -> step_to sync u0 u1 L0 s0 s'.
Proof.
  intros Hi Hgr Hg Hf. destruct (flush_grows sync s u0 u1 u1 L L0 s') as [H1 H2]; try done; [by right|].
  eexists _, u1. split; [done|]. split; [done|]. pose proof (fl_generation _ _ _ _ _ Hf). split; [lia|]. intros Hs.
  destruct (fl_synced _ _ _ _ _ Hf Hs) as (? & ? & ?). split_and!; try done. apply Hf.
Qed.

Lemma batch_sizes base u removals additions fresh :
  batch_ok base u removals additions fresh ->
  (length removals <= size u)%nat /\ (length additions <= size (insert_all additions (remove_all removals u)))%nat.
Proof.
  intros [B1 B2 B3 _ _ _]. split; [pose proof (size_remove_all removals u B1 B2); lia|].
  rewrite <- (length_fmap fst), <- (size_list_to_set (C := gset OutPoint) _ B3), <- (size_dom (D := gset OutPoint)). apply subseteq_size.
  intros o Ho%elem_of_list_to_set. apply elem_of_dom. rewrite batch_lookup by done. apply list_elem_of_fmap in Ho as ([o' e] & -> & Hin).
  rewrite (elem_of_list_to_map_1 additions o' e) by done. by eexists.
Qed.

Lemma edit_logged removals additions c fresh s base L : logged L s base -> logged L (edit removals additions c fresh s) base.
Proof. destruct (edit_frame removals additions c fresh s) as [b ->]. intros [L1 L2 L3]. by split. Qed.

(** After the overlay has changed, it is written if it must be. *)
Lemma settle_spec (sync : bool) s2 base u u' L L0 s :
  store_ok s2 base u' -> logged L s2 base -> 0 <= pending_item_limit s2 < 2 ^ 62 -> grows u u' L0 L ->
  generation s <= generation s2 <= generation s + 1 -> generation s + 2 < 2 ^ 64 ->
  exists s', bind (fun s => (s, Ok (over_budget s)))
    (fun over : bool => if sync then flush_pending true else if over then flush_unsynced else ret ()) s2 = (s', Ok ()) /\ step_to sync u u' L0 s s'.
Proof.
  intros Hs Hl Hi Hgr Hg Hmax. unfold bind. destruct sync.
  - destruct (flush_pending_spec true s2 base u' L) as (s' & E & Hf); try done; [lia|]. exists s'. split; [done|]. by apply (flush_step true s2 u u' s L L0 s').
  - destruct (over_budget s2) eqn:Eo.
    + destruct (flush_unsynced_spec s2 base u' L) as (s' & E & Hf); try done; [lia|]. exists s'. split; [done|]. by apply (flush_step false s2 u u' s L L0 s').
    + exists s2. split; [done|]. exists L, base. split; [|split; [done|split; [lia|done]]]. split; [done|done|].
      unfold over_budget in Eo. apply orb_false_iff in Eo as [Eo%Z.leb_gt _]. lia.
Qed.

Lemma commit_edit_spec sync capacity removals additions fresh s base u L u' :
  u' = insert_all additions (remove_all removals u) ->
  steady L s base u -> batch_ok base u removals additions fresh ->
  (fresh = true -> sync = false -> forall a, a ∈ additions.*1 -> u !! a = None) ->
  Z.of_nat (size u') < 2 ^ 62 -> generation s + 2 < 2 ^ 64 ->
  exists s', commit_owned_batch_with_count capacity removals additions (Z.of_nat (size u')) sync fresh s = (s', Ok ()) /\
    step_to sync u u' L s s'.
Proof.
  intros Hu' [Hs Hl Hi] Hb Hfresh Hsmall Hg. unfold commit_owned_batch_with_count. destruct (_ && _) eqn:Ee.
  { apply andb_true_iff in Ee as [->%bool_decide_eq_true ->%bool_decide_eq_true]. cbn in Hu'. subst u'. destruct sync.
    - destruct (flush_pending_spec true s base u L) as (s' & E & Hf); try done; [lia|]. exists s'. split; [done|].
      apply (flush_step true s u u s L L s'); try done; [lia|apply grows_refl|lia].
    - exists s. split; [done|]. exists L, base. split; [done|]. split; [apply grows_refl|]. split; [lia|done]. }
  assert (H1 : exists s1 base1 L1, (if negb sync && near_capacity capacity additions s then flush_unsynced else ret ()) s = (s1, Ok ()) /\
    steady L1 s1 base1 u /\ batch_ok base1 u removals additions fresh /\ grows u u' L L1 /\ generation s <= generation s1 <= generation s + 1).
  { destruct (negb sync && _) eqn:En.
    - apply andb_true_iff in En as [En%negb_true_iff _]. destruct (flush_unsynced_spec s base u L) as (s1 & E & Hf); try done; [lia|].
      destruct (flush_grows false s u u u' L L s1) as [H1 H2]; try done; [lia|apply grows_refl|by left|].
      eexists s1, u, _. split; [done|]. split; [done|]. split; [|split; [done|apply Hf]]. destruct Hb as [B1 B2 B3 B4 B5 B6]. split; try done.
      intros Hf' a Ha. by apply Hfresh.
    - exists s, base, L. split; [done|]. split; [done|]. split; [done|]. split; [apply grows_refl|lia]. }
  destruct H1 as (s1 & base1 & L1 & E1 & [Hs1 Hl1 Hi1] & Hb1 & Hgr & Hg1). unfold bind at 1. rewrite E1. clear E1.
  pose proof (batch_sizes _ _ _ _ _ Hb1) as [Hr Ha]. rewrite <- Hu' in Ha. pose proof (so_small _ _ _ Hs1) as [_ Hus].
  pose proof (edit_spec s1 base1 u removals additions fresh) as He. cbv zeta in He. rewrite <- Hu' in He.
  specialize (He Hs1 Hb1 Hsmall ltac:(unfold umax; lia)). apply edit_logged with (removals := removals) (additions := additions) (c := Z.of_nat (size u')) (fresh := fresh) in Hl1.
  assert (Hed : pending_item_limit (edit removals additions (Z.of_nat (size u')) fresh s1) = pending_item_limit s1 /\
    generation (edit removals additions (Z.of_nat (size u')) fresh s1) = generation s1) by (destruct (edit_frame removals additions (Z.of_nat (size u')) fresh s1) as [b ->]; done).
  destruct Hed as [Hed1 Hed2]. rewrite <- Hed1 in Hi1. rewrite <- Hed2 in Hg1.
  apply (settle_spec sync _ base1 u u' L1 L s He Hl1); try done. lia.
Qed.

(** ** The operations of the abstract store *)

Definition db_of (u : coins) : UtxoDb := {| db_coins := u; db_count := Z.of_nat (size u) |}.

(** What the callers guarantee: distinct coins of the set go, distinct coins
    come that are not in it or go too. *)
Record batch_input (u : coins) (removals : list OutPoint) (additions : list (OutPoint * StoredUtxo)) : Prop := {
  bi_removals : NoDup removals;
  bi_present : forall o, o ∈ removals -> is_Some (u !! o);
  bi_additions : NoDup additions.*1;
  bi_coins : forall a e, (a, e) ∈ additions -> coin_ok a e;
  bi_new : forall a, a ∈ additions.*1 -> u !! a = None \/ a ∈ removals;
}.

Lemma input_batch base u removals additions fresh :
  batch_input u removals additions -> (fresh = true -> forall a, a ∈ additions.*1 -> base !! a = None) -> batch_ok base u removals additions fresh.
Proof. intros [B1 B2 B3 B4 B5] H. by split. Qed.

Lemma apply_batch_spec capacity removals additions sync s base u L :
  let u' := insert_all additions (remove_all removals u) in
  steady L s base u -> batch_input u removals additions -> (sync = false -> forall a, a ∈ additions.*1 -> u !! a = None) ->
  Z.of_nat (size u') < 2 ^ 62 -> generation s + 2 < 2 ^ 64 ->
  apply_batch removals additions (db_of u) = db_of u' /\
  exists s', apply_batch_with_sync capacity removals additions sync s = (s', Ok ()) /\
    step_to (sync && negb (bool_decide (removals = []) && bool_decide (additions = []))) u u' L s s'.
Proof.
  intros u' Hst Hin Hnew Hsmall Hg. pose proof (sy_ok _ _ _ _ Hst) as Hs. pose proof (so_small _ _ _ Hs) as [_ Hus].
  assert (Hdb : apply_batch removals additions (db_of u) = db_of u').
  { pose proof (apply_batch_count removals additions (db_of u) (bi_additions _ _ _ Hin) eq_refl) as Hc. cbn [db_coins db_of apply_batch] in Hc. fold u' in Hc.
    specialize (Hc ltac:(unfold umax; lia)). assert (Hu : db_coins (apply_batch removals additions (db_of u)) = u') by done.
    destruct (apply_batch removals additions (db_of u)). cbn in Hc, Hu. by subst. }
  split; [done|]. unfold apply_batch_with_sync. destruct (_ && bool_decide (additions = [])) eqn:Ee.
  { exists s. split; [done|]. apply andb_true_iff in Ee as [->%bool_decide_eq_true ->%bool_decide_eq_true]. rewrite andb_false_r.
    exists L, base. split; [done|]. split; [apply grows_refl|]. split; [lia|done]. }
  rewrite andb_true_r. set (fresh := bulk_ingest_eligible s && pending_covers_all s). set (count := foldl _ (entry_count s) _).
  assert (Hcount : count = Z.of_nat (size u')).
  { apply (f_equal db_count) in Hdb. cbn [db_count db_of] in Hdb. rewrite <- Hdb. unfold count, apply_batch. cbn [db_count db_of db_coins].
    rewrite (so_count _ _ _ Hs), list_to_set_app_L.
    assert (Hwf : forall o, o ∈ elements (list_to_set removals ∪ list_to_set additions.*1 : gset OutPoint) -> contains o s = bool_decide (is_Some (u !! o))).
    { intros o Ho. apply (store_contains_spec s base u Hs). rewrite elem_of_elements, elem_of_union, !elem_of_list_to_set in Ho. destruct Ho as [Ho|Ho].
      - destruct (bi_present _ _ _ Hin o Ho) as [e He]. by apply (so_coin s base u Hs o e).
      - apply list_elem_of_fmap in Ho as ([o' e] & -> & Ho). by apply (bi_coins _ _ _ Hin) in Ho as [? _]. }
    revert Hwf. generalize (elements (list_to_set removals ∪ list_to_set additions.*1 : gset OutPoint)), (Z.of_nat (size u)). intros l.
    induction l as [|o l IH]; intros n Hwf; [done|]. cbn [foldl]. rewrite IH by (intros; apply Hwf; by right). rewrite (Hwf o) by left.
    f_equal. by rewrite (bool_decide_ext (o ∈ list_to_set additions.*1) (o ∈ additions.*1)) by apply elem_of_list_to_set. }
  rewrite Hcount. apply (commit_edit_spec sync capacity removals additions fresh s base u L u'); try done.
  - apply input_batch; [done|]. intros [_ E]%andb_true_iff a _. by rewrite (so_covers _ _ _ Hs E).
Qed.

Lemma apply_validated_spec capacity removals additions sync s base u L :
  let u' := insert_all additions (remove_all removals u) in
  steady L s base u -> batch_input u removals additions -> (forall a, a ∈ additions.*1 -> u !! a = None /\ pending s !! a = None) ->
  Z.of_nat (size u') < 2 ^ 62 -> generation s + 2 < 2 ^ 64 ->
  apply_validated_batch removals additions (db_of u) = Ok (db_of u') /\
  exists s', apply_validated_batch_with_sync capacity removals additions sync s = (s', Ok ()) /\ step_to sync u u' L s s'.
Proof.
  intros u' Hst Hin Hnew Hsmall Hg. pose proof (sy_ok _ _ _ _ Hst) as Hs. pose proof (so_small _ _ _ Hs) as [_ Hus].
  pose proof (size_remove_all removals u (bi_removals _ _ _ Hin) (bi_present _ _ _ Hin)) as Hr.
  assert (Ha : (size u' = size (remove_all removals u) + length additions)%nat).
  { apply size_insert_all; [apply Hin|]. intros a Ha. rewrite remove_all_lookup. case_decide; [done|]. by apply Hnew. }
  assert (Hn : Z.of_nat (size u) - Z.of_nat (length removals) + Z.of_nat (length additions) = Z.of_nat (size u')) by lia.
  split.
  - unfold apply_validated_batch. cbn [db_count db_coins db_of]. rewrite (proj2 (Z.leb_le _ _)) by lia. cbn [rbind]. unfold checked_add. rewrite Hn.
    rewrite (proj2 (Z.leb_le _ _)) by (unfold umax; lia). done.
  - unfold apply_validated_batch_with_sync, zlen. rewrite (so_count _ _ _ Hs), (proj2 (Z.ltb_ge _ _)) by lia. unfold checked_add. rewrite Hn.
    rewrite (proj2 (Z.leb_le _ _)) by (unfold umax; lia). apply (commit_edit_spec sync capacity removals additions true s base u L u'); try done.
    + apply input_batch; [done|]. intros _ a Ha'. destruct (Hnew a Ha') as [E Ep]. by rewrite (so_overlay _ _ _ Hs), overlay_lookup, Ep in E.
    + intros _ _ a Ha'. by apply Hnew.
Qed.
End Batches.
