(* ===== verification/UtxoScan.v ===== *)
(** * Scans of the coin store

    The merge of the sorted overlay with the sorted partitions visits every
    coin of the set once, in the order of the keys; the copy of all entries is
    the set. *)

From Stdlib Require Import ZArith Lia.
From stdpp Require Import base list option gmap sets strings sorting.
From S2P Require Import Prelude Types UtxoCodec UtxoCache UtxoStore UtxoDisk UtxoFlush UtxoBatch.
Local Open Scope Z_scope.
Local Set Warnings "-clear-no-such-hyp".

#[export] Instance bytes_lt_trans : Transitive bytes_lt.
Proof.
  intros a b c [H1 H2] [H3 H4]. split; [by apply (bytes_leb_trans a b)|]. intros ->. apply H2. by apply bytes_leb_antisym.
Qed.
Lemma bytes_lt_irrefl a : ~ bytes_lt a a.
Proof. by intros [_ H]. Qed.
Lemma bytes_lt_total a b : a <> b -> bytes_leb a b = false -> bytes_lt b a.
Proof. intros Hne Hab. split; [|done]. destruct (bytes_leb_total a b); [congruence|done]. Qed.

Lemma sorted_app (l l' : list bytes) :
  StronglySorted bytes_lt l -> StronglySorted bytes_lt l' -> (forall a b, a ∈ l -> b ∈ l' -> bytes_lt a b) -> StronglySorted bytes_lt (l ++ l').
Proof.
  induction 1 as [|x l Hl IH Hx]; intros Hl' H; [done|]. cbn. constructor.
  - apply IH; [done|]. intros a b Ha Hb. apply H; [by right|done].
  - apply Forall_app. split; [done|]. apply Forall_forall. intros b Hb. apply H; [left|done].
Qed.

Lemma sorted_filter {A} (f : A -> bytes) (g : A -> bool) l :
  StronglySorted bytes_lt (map f l) -> StronglySorted bytes_lt (map f (List.filter g l)).
Proof.
  induction l as [|x l IH]; [done|]. intros [H1 H2]%StronglySorted_inv. cbn [List.filter]. destruct (g x); [|by apply IH]. constructor; [by apply IH|].
  rewrite Forall_forall in *. intros b (y & -> & Hy)%list_elem_of_fmap. apply H2. rewrite list_elem_of_In, filter_In, <- list_elem_of_In in Hy.
  apply list_elem_of_fmap. naive_solver.
Qed.

Lemma elem_of_concat {A} (x : A) ls : x ∈ concat ls <-> exists l, x ∈ l /\ l ∈ ls.
Proof. rewrite list_elem_of_In, in_concat. setoid_rewrite list_elem_of_In. naive_solver. Qed.

Section Scan.
Context {KSO : Keyspace} {KL : KeyspaceLaws} {CV : CurveOps} {CL : CurveLaws} {CO : CoinOrder}.

(** ** One partition *)

Section Merge.
Context (s : UtxoStore).

Abbreviation pending_coin o := (p ← pending s !! o; pu_entry p).
Abbreviation key_of := (fun x : OutPoint * StoredUtxo => encode_outpoint x.1).

(** What the merge of a partition and its part of the overlay is to visit. *)
Definition found (D : list (bytes * bytes)) (P : list OutPoint) (o : OutPoint) (e : StoredUtxo) : Prop :=
  (o ∈ P /\ pending_coin o = Some e) \/ (o ∉ P /\ outpoint_wf o /\ exists v, (encode_outpoint o, v) ∈ D /\ decode_coin v = Ok e).

(** The keys of a partition are those of coins. *)
Definition coin_at (kv : bytes * bytes) : Prop := exists o e, kv.1 = encode_outpoint o /\ outpoint_wf o /\ decode_coin kv.2 = Ok e.

Definition visits (D : list (bytes * bytes)) (P : list OutPoint) (r : list (OutPoint * StoredUtxo)) : Prop :=
  StronglySorted bytes_lt (map key_of r) /\ forall o e, (o, e) ∈ r <-> found D P o e.

Lemma pending_entry_elem o o' e : (o', e) ∈ pending_entry s o <-> o' = o /\ pending_coin o = Some e.
Proof.
  unfold pending_entry. destruct (pending_coin o) as [x|]; [rewrite list_elem_of_singleton; naive_solver|].
  split; [by intros ?%elem_of_nil|naive_solver].
Qed.

(** The smallest key comes first. *)
Lemma visits_app D P l r x :
  StronglySorted bytes_lt (map key_of l) -> (forall o e, (o, e) ∈ l -> encode_outpoint o = x) -> visits D P r ->
  (forall k v, (k, v) ∈ D -> bytes_lt x k) -> (forall o, o ∈ P -> bytes_lt x (encode_outpoint o)) ->
  StronglySorted bytes_lt (map key_of (l ++ r)).
Proof.
  intros Hl Hx [Hr Hf] HD HP. rewrite map_app. apply sorted_app; [done|done|].
  intros a b ([o e] & -> & Ha)%list_elem_of_fmap ([o' e'] & -> & Hb)%list_elem_of_fmap. cbn [fst]. rewrite (Hx o e Ha).
  apply Hf in Hb as [[Hb _]|(_ & _ & v & Hb & _)]; [by apply HP|by eapply HD].
Qed.

Lemma sorted_pending_entry o : StronglySorted bytes_lt (map key_of (pending_entry s o)).
Proof. unfold pending_entry. destruct (pending_coin o); repeat constructor. Qed.

Lemma visits_pending p D P r :
  visits D P r -> outpoint_wf p -> (forall k v, (k, v) ∈ D -> bytes_lt (encode_outpoint p) k) ->
  (forall o, o ∈ P -> bytes_lt (encode_outpoint p) (encode_outpoint o)) -> visits D (p :: P) (pending_entry s p ++ r).
Proof.
  intros Hr Hp HD HP. split.
  - eapply (visits_app D P); [apply sorted_pending_entry| |done|exact HD|exact HP]. by intros o e [-> _]%pending_entry_elem.
  - intros o e. rewrite elem_of_app, pending_entry_elem, (proj2 Hr o e). unfold found. rewrite elem_of_cons.
    assert (p ∉ P) by (intros H; by apply (bytes_lt_irrefl _ (HP p H))).
    assert (forall v, (encode_outpoint p, v) ∉ D) by (intros v H'; by apply (bytes_lt_irrefl _ (HD _ v H'))).
    destruct (decide (o = p)) as [->|]; naive_solver.
Qed.

Lemma visits_shadow p v D P r : visits D (p :: P) r -> outpoint_wf p -> visits ((encode_outpoint p, v) :: D) (p :: P) r.
Proof.
  intros [H1 H2] Hp. split; [done|]. intros o e. rewrite H2. unfold found. setoid_rewrite elem_of_cons.
  split; (intros [H|(Hn & Ho & v' & Hv & He)]; [by left|]; right; split; [done|]; split; [done|]; exists v'); [by split; [right|]|].
  destruct Hv as [[= E _]|Hv]; [|done]. apply encode_outpoint_inj in E; [naive_solver|done..].
Qed.

Lemma visits_disk o1 v e1 D P r :
  visits D P r -> outpoint_wf o1 -> decode_coin v = Ok e1 -> (forall k v, (k, v) ∈ D -> bytes_lt (encode_outpoint o1) k) ->
  (forall o, o ∈ P -> bytes_lt (encode_outpoint o1) (encode_outpoint o)) -> visits ((encode_outpoint o1, v) :: D) P ((o1, e1) :: r).
Proof.
  intros Hr Ho He HD HP. split.
  - eapply (visits_app D P [(o1, e1)]); [repeat constructor| |done|exact HD|exact HP]. by intros o e [= -> ->]%list_elem_of_singleton.
  - intros o e. rewrite elem_of_cons, (proj2 Hr o e). unfold found. setoid_rewrite elem_of_cons.
    assert (Hn : o1 ∉ P) by (intros H; by apply (bytes_lt_irrefl _ (HP o1 H))). split.
    + intros [[= -> ->]|[H|(? & ? & v' & ? & ?)]]; [right; naive_solver|by left|right; naive_solver].
    + intros [H|(? & ? & v' & [[= E ->]|Hv] & ?)]; [right; by left| |right; right; naive_solver]. apply encode_outpoint_inj in E; [|done..].
      left. congruence.
Qed.

Lemma merge_overlay_spec D P :
  Forall coin_at D -> Forall outpoint_wf P -> StronglySorted bytes_lt D.*1 -> StronglySorted bytes_lt (map encode_outpoint P) ->
  exists r, merge_overlay s D P = Ok r /\ visits D P r.
Proof.
  intros HD. revert P. induction HD as [|[key v] D (o1 & e1 & Hk & Ho1 & He1) HD IHD]; intros P HP Hsd Hsp.
  - exists (concat (map (pending_entry s) P)). split; [by destruct P|]. clear Hsd. induction HP as [|p P Hp HP IHP]; [split; [constructor|intros o e; unfold found; set_solver]|].
    apply StronglySorted_inv in Hsp as [Hsp Hlt]. rewrite Forall_forall in Hlt. cbn [map concat]. apply visits_pending; [by apply IHP|done|by intros k v ?%elem_of_nil|].
    intros o Ho. apply Hlt, list_elem_of_fmap. eauto.
  - cbn [fst snd] in Hk, He1. subst key. apply StronglySorted_inv in Hsd as [Hsd Hlt]. rewrite Forall_forall in Hlt.
    assert (HDlt : forall k v, (k, v) ∈ D -> bytes_lt (encode_outpoint o1) k) by (intros k v' Hin; apply Hlt, list_elem_of_fmap; by exists (k, v')).
    induction HP as [|p P Hp HP IHP].
    + destruct (IHD [] (Forall_nil_2 _) Hsd Hsp) as (r & E & Hr). cbn [merge_overlay]. rewrite decode_encode_outpoint by done. cbn [map_err rbind]. rewrite He1.
      cbn [rbind]. rewrite E. eexists. split; [done|]. apply visits_disk; try done. by intros o ?%elem_of_nil.
    + apply StronglySorted_inv in Hsp as Hsp'. destruct Hsp' as [HspP HltP]. rewrite Forall_forall in HltP.
      assert (HPlt : forall o, o ∈ P -> bytes_lt (encode_outpoint p) (encode_outpoint o)) by (intros o Ho; apply HltP, list_elem_of_fmap; eauto).
      cbn [merge_overlay]. case_bool_decide as Ek.
      * destruct (IHD P HP Hsd HspP) as (r & E & Hr). rewrite E. eexists. split; [done|]. rewrite Ek. apply visits_shadow; [|done].
        apply visits_pending; [done|done| |done]. by rewrite <- Ek.
      * destruct (bytes_leb (encode_outpoint o1) (encode_outpoint p)) eqn:El.
        { destruct (IHD (p :: P)) as (r & E & Hr); [by constructor|done|done|]. rewrite decode_encode_outpoint by done. cbn [map_err rbind]. rewrite He1.
          cbn [rbind]. rewrite E. eexists. split; [done|]. apply visits_disk; try done.
          intros o [->|Ho]%elem_of_cons; [done|]. transitivity (encode_outpoint p); [done|by apply HPlt]. }
        destruct (IHP HspP) as (r & E & Hr). unfold merge_overlay in E at 1. fold merge_overlay in E. rewrite E. eexists. split; [done|].
        pose proof (bytes_lt_total _ _ Ek El) as Hlo. apply visits_pending; [done|done| |done].
        intros k v' [[= -> ->]|Hin]%elem_of_cons; [done|]. transitivity (encode_outpoint o1); [done|by eapply HDlt].
Qed.
End Merge.

(** ** The partitions *)

Lemma holds_iter n k u i : holds n (ks_contents k) u -> Forall coin_at (ks_iter k (Coins i)).
Proof.
  intros [H1 H2]. apply Forall_forall. intros [key v] Hin%law_iter. destruct (H2 _ _ _ Hin) as (o & [e He] & [= -> ->]).
  destruct (H1 o e He) as [[Ho _] (b & Hb & Hd)]. unfold slot in Hb. rewrite Hin in Hb. injection Hb as <-. by exists o, e.
Qed.

Lemma holds_iter_elem n k u i o e :
  holds n (ks_contents k) u -> outpoint_wf o ->
  (exists v, (encode_outpoint o, v) ∈ ks_iter k (Coins i) /\ decode_coin v = Ok e) <-> u !! o = Some e /\ partition_index n (encode_outpoint o) = i.
Proof.
  intros [H1 H2] Ho. setoid_rewrite law_iter. split.
  - intros (v & Hv & Hd). destruct (H2 _ _ _ Hv) as (o' & [e' He'] & E). assert (o' = o) as ->.
    { destruct (H1 o' e' He') as [[Ho' _] _]. injection E as _ E. symmetry. by apply encode_outpoint_inj. }
    destruct (H1 o e' He') as [_ (b & Hb & Hd')]. rewrite <- E, Hv in Hb. injection Hb as <-. injection E as ->. split; [congruence|done].
  - intros [He <-]. destruct (H1 o e He) as [_ (b & Hb & Hd)]. by exists b.
Qed.

Lemma first_byte o : outpoint_wf o -> exists b t, encode_outpoint o = b :: t /\ is_byte b.
Proof.
  intros (Hl & Hb & _). unfold encode_outpoint. destruct (txid o) as [|b t]; [done|]. apply Forall_cons in Hb as [Hb _]. by exists b, (t ++ to_le 4 (vout o)).
Qed.

(** The partitions are ranges of keys. *)
Lemma partition_mono n o o' :
  parts_ok n -> outpoint_wf o -> outpoint_wf o' -> (partition_index n (encode_outpoint o) < partition_index n (encode_outpoint o'))%nat ->
  bytes_lt (encode_outpoint o) (encode_outpoint o').
Proof.
  intros Hn Ho Ho'. destruct (first_byte o Ho) as (b & t & -> & Hb), (first_byte o' Ho') as (b' & t' & -> & Hb').
  unfold partition_index. destruct Hn as [->| ->]; cbn [Nat.eqb UTXO_SHARD_COUNT]; [lia|]. unfold is_byte in *.
  change (zat (b :: t) 0) with b. change (zat (b' :: t') 0) with b'. intros H.
  assert (b < b').
  { destruct (Z.lt_ge_cases b b'); [done|]. assert (sat_mul 64 b' (Z.of_nat 8) / 256 <= sat_mul 64 b (Z.of_nat 8) / 256) by (apply Z.div_le_mono; unfold sat_mul; lia).
    unfold UTXO_SHARD_COUNT in *. lia. }
  split; [cbn; rewrite (proj2 (Z.ltb_lt _ _)) by lia; done|]. intros [= E _]. lia.
Qed.

Section Whole.
Context (s : UtxoStore) (base u : coins) (Hs : store_ok s base u).

Lemma partition_pending_elem i o :
  o ∈ partition_pending s i <-> is_Some (pending s !! o) /\ partition_index (partitions s) (encode_outpoint o) = i.
Proof.
  unfold partition_pending. rewrite list_elem_of_In, filter_In, <- list_elem_of_In, bool_decide_eq_true. apply and_iff_compat_r.
  rewrite list_elem_of_fmap. split.
  - intros ([o' p] & -> & H). rewrite ordered_perm, elem_of_map_to_list in H. by eexists.
  - intros [p Hp]. exists (o, p). by rewrite ordered_perm, elem_of_map_to_list.
Qed.

Lemma partition_pending_sorted i : StronglySorted bytes_lt (map encode_outpoint (partition_pending s i)).
Proof.
  unfold partition_pending. apply sorted_filter. pose proof (ordered_sorted s (so_pending _ _ _ Hs)) as H. by rewrite (list_fmap_compose fst encode_outpoint (ordered_pending s)) in H.
Qed.

Lemma partition_found i o e :
  found s (ks_iter (dk_keyspace (disk s)) (Coins i)) (partition_pending s i) o e <->
  u !! o = Some e /\ partition_index (partitions s) (encode_outpoint o) = i.
Proof.
  unfold found. rewrite partition_pending_elem. rewrite (so_overlay _ _ _ Hs), overlay_lookup.
  pose proof (im_holds _ _ _ _ (so_image _ _ _ Hs)) as Hh. destruct (pending s !! o) as [p|] eqn:Ep.
  - assert (Ho : outpoint_wf o) by (by apply (so_pending _ _ _ Hs o p)). cbn. split.
    + intros [H|(Hn & _ & H)]; [naive_solver|]. apply (holds_iter_elem _ _ base i o e Hh Ho) in H as [_ H]. exfalso. apply Hn. eauto.
    + intros [He Hi]. left. eauto.
  - split.
    + intros [[[[? ?] _] _]|(_ & Ho & H)]; [done|]. by apply (holds_iter_elem _ _ base i o e Hh Ho).
    + intros [He Hi]. right. destruct (hd_coin _ _ _ Hh o e He) as [[Ho _] _]. split; [intros [[? ?] _]; done|]. split; [done|].
      by apply (holds_iter_elem _ _ base i o e Hh Ho).
Qed.

Lemma scan_spec l :
  StronglySorted lt l ->
  exists r, scan_partitions s l = Ok r /\ StronglySorted bytes_lt (map (fun x => encode_outpoint x.1) r) /\
    forall o e, (o, e) ∈ r <-> u !! o = Some e /\ partition_index (partitions s) (encode_outpoint o) ∈ l.
Proof.
  induction 1 as [|i l Hl IH Hi]; [exists []; split_and!; [done|constructor|set_solver]|]. destruct IH as (rest & E & Hrs & Hre).
  pose proof (im_holds _ _ _ _ (so_image _ _ _ Hs)) as Hh.
  destruct (merge_overlay_spec s (ks_iter (dk_keyspace (disk s)) (Coins i)) (partition_pending s i)) as (here & Eh & Hhs & Hhe).
  { by eapply holds_iter. }
  { apply Forall_forall. intros o [[p Hp] _]%partition_pending_elem. by apply (so_pending _ _ _ Hs o p). }
  { apply law_iter_sorted. } { apply partition_pending_sorted. }
  cbn [scan_partitions]. rewrite Eh, E. eexists. split; [done|]. split.
  - rewrite map_app. apply sorted_app; [done|done|]. intros a b ([o e] & -> & Ha)%list_elem_of_fmap ([o' e'] & -> & Hb)%list_elem_of_fmap. cbn [fst].
    apply Hhe, partition_found in Ha as [Ha Hai]. apply Hre in Hb as [Hb Hbi].
    apply (partition_mono (partitions s)); [apply Hs|by apply (so_coin s base u Hs o e)|by apply (so_coin s base u Hs o' e')|].
    rewrite Hai. rewrite Forall_forall in Hi. by apply Hi.
  - intros o e. rewrite elem_of_app, Hhe, partition_found, Hre, elem_of_cons. tauto.
Qed.

Lemma seq_sorted a n : StronglySorted lt (seq a n).
Proof. revert a. induction n as [|n IH]; intros a; cbn; constructor; [apply IH|]. apply Forall_forall. intros x Hx%list_elem_of_In%in_seq. lia. Qed.

(** Every coin once, in the order of the keys. *)
Lemma for_each_spec :
  exists r, for_each_entry_sorted s = Ok r /\ StronglySorted bytes_lt (map (fun x => encode_outpoint x.1) r) /\ r ≡ₚ map_to_list u.
Proof.
  destruct (scan_spec (partition_list s) (seq_sorted 0 (partitions s))) as (r & E & Hr & He). exists r. split; [done|]. split; [done|].
  apply NoDup_Permutation.
  - clear E He. induction r as [|x r IH]; constructor; cbn in Hr; apply StronglySorted_inv in Hr as [Hr Hx]; [|by apply IH].
    intros Hin. rewrite Forall_forall in Hx. apply (bytes_lt_irrefl (encode_outpoint x.1)), Hx, list_elem_of_fmap. eauto.
  - apply NoDup_map_to_list.
  - intros [o e]. rewrite He, elem_of_map_to_list. split; [tauto|]. intros Ho. split; [done|]. apply list_elem_of_In, in_seq. split; [lia|].
    apply partition_bound; [apply Hs|]. by apply (so_coin s base u Hs o e).
Qed.

(** ** All entries *)

Lemma decode_entries_spec l :
  Forall coin_at l -> exists r, decode_entries l = Ok r /\
    forall o e, (o, e) ∈ r <-> outpoint_wf o /\ exists v, (encode_outpoint o, v) ∈ l /\ decode_coin v = Ok e.
Proof.
  induction 1 as [|[key v] l (o1 & e1 & Hk & Ho1 & He1) Hl (r & E & IH)]; [exists []; split; [done|set_solver]|]. cbn [fst snd] in *. subst key.
  cbn [decode_entries]. rewrite decode_encode_outpoint by done. cbn [map_err rbind]. rewrite He1. cbn [rbind]. rewrite E. eexists. split; [done|].
  intros o e. rewrite elem_of_cons, IH. setoid_rewrite elem_of_cons. split.
  - intros [[= -> ->]|(Ho & v' & Hv & Hd)]; [split; [done|]; eauto|]. split; [done|]. eauto.
  - intros (Ho & v' & [[= Hk ->]|Hv] & Hd); [left; apply encode_outpoint_inj in Hk; [|done..]; congruence|right; eauto].
Qed.

Lemma disk_entries_spec : exists l, disk_entries s = Ok l /\ forall o e, (o, e) ∈ l <-> base !! o = Some e.
Proof.
  pose proof (im_holds _ _ _ _ (so_image _ _ _ Hs)) as Hh. unfold disk_entries. destruct (decode_entries_spec (concat (map (fun i => ks_iter (dk_keyspace (disk s)) (Coins i)) (partition_list s)))) as (l & E & Hl).
  { apply Forall_concat, Forall_forall. intros x (i & -> & _)%list_elem_of_fmap. by eapply holds_iter. }
  exists l. split; [done|]. intros o e. rewrite Hl. setoid_rewrite elem_of_concat. setoid_rewrite list_elem_of_fmap. split.
  - intros (Ho & v & (x & Hx & i & -> & _) & Hd). by apply (holds_iter_elem _ _ base i o e Hh Ho); eauto.
  - intros He. destruct (hd_coin _ _ _ Hh o e He) as [[Ho _] _]. split; [done|].
    destruct (proj2 (holds_iter_elem _ _ base (partition_index (partitions s) (encode_outpoint o)) o e Hh Ho) (conj He eq_refl)) as (v & Hv & Hd).
    exists v. split; [|done]. eexists. split; [exact Hv|]. eexists. split; [done|]. apply list_elem_of_In, in_seq. split; [lia|]. apply partition_bound; [apply Hs|done].
Qed.

Lemma foldl_insert_set (l : list (OutPoint * StoredUtxo)) (v : coins) :
  (forall o e, (o, e) ∈ l -> v !! o = Some e) -> forall (m : coins), m ⊆ v -> (forall o e, v !! o = Some e -> m !! o = Some e \/ (o, e) ∈ l) ->
  foldl (fun m e => <[e.1 := e.2]> m) m l = v.
Proof.
  induction l as [|[o e] l IH]; intros Hl m Hm Hv; cbn [foldl fst snd].
  - apply map_eq. intros o. apply option_eq. intros e. split; [intros H; by apply (lookup_weaken m v)|]. intros [H|H%elem_of_nil]%Hv; done.
  - apply IH; [intros; apply Hl; by right|apply insert_subseteq_l; [apply Hl; left|done]|]. intros o' e' H. destruct (decide (o' = o)) as [->|Hne].
    + left. rewrite lookup_insert_eq. rewrite (Hl o e) in H by left. done.
    + rewrite lookup_insert_ne by done. destruct (Hv o' e' H) as [|[[= -> ->]|]%elem_of_cons]; [by left|done|by right].
Qed.

Lemma entries_spec : entries s = Ok u.
Proof.
  unfold entries. destruct disk_entries_spec as (l & -> & Hl). cbn [rbind]. f_equal.
  rewrite (foldl_insert_set l base) by (try apply map_empty_subseteq; intros; naive_solver). rewrite (so_overlay _ _ _ Hs).
  apply (set_coins_overlay (coin_iter (pending s))). apply coin_iter_perm.
Qed.
End Whole.
End Scan.
