(* ===== verification/UtxoLife.v ===== *)
(** * The life of a coin store

    Opening, the operations on the cache, the replacement of the whole set,
    and the runs of a store over crashes: every operation on a store that
    stands for a set does to it what the chain manager's abstract store says,
    and whatever a crash leaves is a set of the store's past. *)

From Stdlib Require Import ZArith Lia.
From stdpp Require Import base list option gmap sets strings sorting.
From S2P Require Import Prelude Types UtxoCodec ConnectBlock Ledger ChainManager ChainReplay ChainActivate UtxoCache UtxoStore UtxoDisk UtxoFlush UtxoBatch UtxoScan.
Local Open Scope Z_scope.
Local Open Scope op_scope.
Local Set Warnings "-clear-no-such-hyp".

Section Life.
Context {KSO : Keyspace} {KL : KeyspaceLaws} {CV : CurveOps} {CL : CurveLaws} {CO : CoinOrder}.

(** ** The cache *)

Section Cache.
Context {EX : Excused}.

(** A cache that the store may have. *)
Definition cache_fits (p : gmap OutPoint PendingUtxo) (u : coins) (c : UtxoReadCache) : Prop :=
  sound u c /\ (rc_complete c = true -> forall o, p !! o = None -> cache_get c o = u !! o).

Lemma incomplete_fits p u c : sound u c -> rc_complete c = false -> cache_fits p u c.
Proof. intros H1 H2. split; [done|]. by rewrite H2. Qed.

Lemma steady_cache L s base u f :
  steady L s base u -> cache_fits (pending s) u (f (read_cache s)) -> steady L (set_read_cache f s) base u.
Proof. intros [Hs [L1 L2 L3] Hi] [H1 H2]. destruct Hs. split; [by split|by split|done]. Qed.

Lemma steady_fits L s base u : steady L s base u -> cache_fits (pending s) u (read_cache s).
Proof. intros [Hs _ _]. split; apply Hs. Qed.
Lemma steady_max L s base u : steady L s base u -> Z.of_nat (size u) < umax 64.
Proof. intros [Hs _ _]. apply small_umax, Hs. Qed.

Lemma insert_fits p u o e c :
  Z.of_nat (size u) < umax 64 -> sound u c -> u !! o = Some e -> cache_fits p u (cache_insert o e c).
Proof.
  intros Hu Hc Ho. apply incomplete_fits; [by apply sound_insert|]. apply insert_spec; [apply Hc|by apply (sound_room u)].
Qed.

Lemma trim_fits p u limit c : cache_fits p u c -> cache_fits p u (trim_to limit c).
Proof.
  intros [H1 H2]. split; [by apply sound_trim|]. destruct (trim_to_spec limit c (sd_wf _ _ H1)) as [_ Hs]. intros E o Hp.
  destruct (sh_complete _ _ Hs E) as [E' Hg]. rewrite Hg. by apply H2.
Qed.

Lemma put_get c o e : cache_wf c -> Z.of_nat (resident c) < umax 64 -> rc_bytes (put o e (set_complete false c)) <= rc_limit c -> too_large e c = false ->
  cache_get (cache_insert o e c) o = Some e.
Proof.
  intros Hwf Hr Hb Ht. unfold cache_insert. rewrite Ht. unfold trim, trim_to. cbn [put set_complete rc_limit]. rewrite (proj2 (Z.leb_le _ _)) by done.
  destruct (put_spec (set_complete false c) o e) as [_ Hg]; [by apply set_complete_wf|done|]. by rewrite Hg, decide_True.
Qed.

(** A coin that is read is that of the set; it is missed only if the cache
    overflows when it is read from disk. *)
Lemma get_spec L s base u o :
  steady L s base u -> outpoint_wf o ->
  exists s' r, get o s = (s', Ok r) /\ steady L s' base u /\ generation s' = generation s /\ pending s' = pending s /\ (r = u !! o \/ r = None) /\
    ((forall e, u !! o = Some e -> rc_bytes (put o e (set_complete false (read_cache s))) <= rc_limit (read_cache s)) -> r = u !! o).
Proof.
  intros Hst Ho. pose proof (sy_ok _ _ _ _ Hst) as Hs. unfold get.
  assert (Hsame : forall r, r = u !! o -> exists s' r', (s, Ok r : result StoreError _) = (s', Ok r') /\ steady L s' base u /\ generation s' = generation s /\
    pending s' = pending s /\ (r' = u !! o \/ r' = None) /\ ((forall e, u !! o = Some e -> rc_bytes (put o e (set_complete false (read_cache s))) <= rc_limit (read_cache s)) -> r' = u !! o)).
  { intros r ->. exists s, (u !! o). split_and!; try done. by left. }
  destruct (pending s !! o) as [p|] eqn:Ep; [apply Hsame; symmetry; by apply (pending_read s base u Hs)|].
  destruct (cache_get (read_cache s) o) as [e|] eqn:Ec; [apply Hsame; symmetry; by apply (cache_read s base u Hs)|].
  destruct (rc_complete (read_cache s)) eqn:Er; [apply Hsame; symmetry; by apply (complete_read s base u Hs)|].
  pose proof (coins_get_spec s base u Hs o Ho Ep) as H. destruct (coins_get s (encode_outpoint o)) as [b|]; [|by apply Hsame].
  destruct H as (e & -> & He). destruct (too_large e (read_cache s)) eqn:Et; [by apply Hsame|].
  eexists _, _. split; [done|]. pose proof (steady_max _ _ _ _ Hst) as Hm.
  assert (Hf : cache_fits (pending s) u (cache_insert o e (read_cache s))) by (apply insert_fits; [done|apply Hs|done]).
  split; [by apply steady_cache|]. split; [done|]. split; [done|]. cbn [set_read_cache read_cache]. split.
  - destruct (cache_get (cache_insert o e (read_cache s)) o) eqn:E; [left|by right]. symmetry. by apply Hf.
  - intros Hroom. rewrite He. apply put_get; [apply Hs|apply (sound_room u Hm), Hs|by apply Hroom|done].
Qed.

Lemma seed_spec L s base u entries :
  steady L s base u -> Forall (fun e => u !! e.1 = Some e.2) entries -> steady L (seed_cache entries s) base u.
Proof.
  intros Hst He. apply steady_cache; [done|]. pose proof (steady_fits _ _ _ _ Hst) as Hc. pose proof (steady_max _ _ _ _ Hst) as Hm.
  revert Hc. generalize (read_cache s). induction He as [|[o e] entries Ho He IH]; intros c Hc; [done|]. cbn [foldl]. apply IH.
  destruct (cache_get c (o, e).1); [done|]. apply insert_fits; [done|apply Hc|done].
Qed.

Lemma configure_spec L s base u mib mempool :
  steady L s base u -> steady L (configure_cache_size_mib_with_mempool mib mempool s) base u.
Proof.
  intros Hst. unfold configure_cache_size_mib_with_mempool. set (limit := sat_add _ _ _).
  assert (H : steady L (set_read_cache (configure_limit limit) s) base u).
  { apply steady_cache; [done|]. apply trim_fits. destruct (steady_fits _ _ _ _ Hst) as [[[H1 H2 H3] H4] H5]. split; [by split; [split|]|done]. }
  destruct H as [[] [] H3]. split; [by split|by split|done].
Qed.

Lemma warm_entries_spec target s base u l c :
  store_ok s base u -> Forall (fun kv => exists o e, kv.1 = encode_outpoint o /\ outpoint_wf o /\ decode_coin kv.2 = Ok e /\ base !! o = Some e) l ->
  sound u c -> exists c', warm_entries target s l c = (c', Ok ()) /\ sound u c'.
Proof.
  intros Hs Hl. revert c. induction Hl as [|[key v] l (o & e & Hk & Ho & He & Hb) Hl IH]; intros c Hc; [by exists c|]. cbn [fst snd] in *. subst key.
  cbn [warm_entries]. destruct (_ <=? _); [by exists c|]. rewrite decode_encode_outpoint by done. cbn [map_err].
  destruct (bool_decide (is_Some (pending s !! o))) eqn:Ep; [by apply IH|]. cbn [orb]. destruct (bool_decide (is_Some (cache_get c o))); [by apply IH|]. rewrite He. apply IH.
  apply sound_stationary; [apply small_umax, Hs|done|]. apply bool_decide_eq_false, eq_None_not_Some in Ep. by rewrite (so_overlay _ _ _ Hs), overlay_lookup, Ep.
Qed.

Lemma warm_partial_spec L s base u target :
  steady L s base u -> exists s' r, warm_partial_cache target s = (s', Ok r) /\ steady L s' base u /\ generation s' = generation s /\ pending s' = pending s.
Proof.
  intros Hst. unfold warm_partial_cache. destruct (_ <=? _); [eauto 10|]. pose proof (sy_ok _ _ _ _ Hst) as Hs.
  pose proof (im_holds _ _ _ _ (so_image _ _ _ Hs)) as Hh.
  match goal with |- context [warm_entries ?t s ?l ?c] => destruct (warm_entries_spec t s base u l c Hs) as (c' & -> & Hc') end.
  - apply Forall_concat, Forall_forall. intros x (i & -> & _)%list_elem_of_fmap. apply Forall_forall. intros [key v] Hin%law_iter.
    destruct (hd_only _ _ _ Hh _ _ _ Hin) as (o & [e He] & E). destruct (hd_coin _ _ _ Hh o e He) as [[Ho _] (b & Hb & Hd)].
    rewrite <- E, Hin in Hb. injection Hb as <-. injection E as -> ->. by exists o, e.
  - apply Hs.
  - eexists _, _. split; [done|]. split; [|done]. apply steady_cache; [done|]. apply incomplete_fits; [by apply sound_complete|done].
Qed.

(** At the start there is no overlay. *)
Lemma warm_complete_spec L s base u :
  steady L s base u -> pending s = ∅ ->
  exists s' r, warm_complete_cache_if_fits s = (s', Ok r) /\ steady L s' base u /\ generation s' = generation s /\ pending s' = pending s.
Proof.
  intros Hst Hp. unfold warm_complete_cache_if_fits. destruct (_ <? _); [eauto 10|]. pose proof (sy_ok _ _ _ _ Hst) as Hs.
  assert (Eu : u = base) by (rewrite (so_overlay _ _ _ Hs), Hp; apply overlay_empty). subst u.
  destruct (disk_entries_spec s base base Hs) as (l & -> & Hl). eexists _, _. split; [done|]. split; [|done]. apply steady_cache; [done|].
  rewrite Hp. replace (coin_iter ∅ : list (OutPoint * PendingUtxo)) with ([] : list (OutPoint * PendingUtxo)).
  2: { pose proof (coin_iter_perm (∅ : gmap OutPoint PendingUtxo)) as E. rewrite map_to_list_empty in E. symmetry. by apply Permutation_nil_r. }
  cbn [foldl]. match goal with |- context [trim (foldl ?f ?c l)] => assert (Hc : sound base (trim (foldl f c l))) end.
  { apply sound_trim, sound_foldl; [|apply sound_clear]. intros c [o e] He%Hl Hc. apply sound_stationary; [by apply (steady_max _ _ _ _ Hst)|done|done]. }
  split; [by apply sound_complete|]. cbn [set_complete rc_complete]. rewrite (so_count _ _ _ Hs). intros E%Z.eqb_eq o _. exact (sound_full base _ Hc E o).
Qed.
End Cache.

(** Nothing is excused in a store that has just been opened. *)
Abbreviation opened := (steady (EX := [])).

(** ** Opening *)

Lemma read_u64 k key z : ks_contents k !! (Metadata, key) = Some (to_le 8 z) -> in_u 64 z -> read_u64_metadata k key = Ok (Some z).
Proof. intros E Hz. unfold read_u64_metadata. rewrite law_get, E, zlen_to_le, (from_to_le_small 8 64); done. Qed.

Lemma holds_empty_iter n k i : holds n (ks_contents k) ∅ -> ks_iter k (Coins i) = [].
Proof.
  intros [_ H]. destruct (ks_iter k (Coins i)) as [|[key v] l] eqn:E; [done|]. assert (Hin : (key, v) ∈ ks_iter k (Coins i)) by (rewrite E; left).
  apply law_iter, H in Hin as (o & [e He] & _). by rewrite lookup_empty in He.
Qed.

Definition partitions_of (legacy : bool) : nat := if legacy then 1%nat else UTXO_SHARD_COUNT.
Lemma partitions_ok legacy : parts_ok (partitions_of legacy).
Proof. destruct legacy; [by left|by right]. Qed.

(** A store that is open on the image of a set, with nothing in memory. *)
Lemma fresh_steady k g u legacy eligible s :
  image (partitions_of legacy) k g u -> exact k -> 0 < g < 2 ^ 64 -> Z.of_nat (size u) < 2 ^ 62 ->
  (eligible = true -> forall i, ks_untouched k i) ->
  s = {| disk := {| dk_keyspace := k; dk_marker := false |}; moments := [{| dk_keyspace := k; dk_marker := false |}]; partitions := partitions_of legacy;
         entry_count := Z.of_nat (size u); generation := g;
         read_cache := set_complete (Z.of_nat (size u) =? 0) default_cache; pending := ∅; pending_bytes := 0;
         pending_limit_bytes := UTXO_PENDING_DEFAULT_LIMIT_BYTES; pending_item_limit := UTXO_PENDING_EMERGENCY_ITEMS;
         write_batch_limit_bytes := DISK_INDEX_DEFAULT_WRITE_BUFFER_BYTES; dirty_items_since_sync := 0;
         dirty_item_limit := DISK_INDEX_DIRTY_CHECKPOINT_ITEMS; durability_checkpoint_needed := false;
         pending_covers_all := Z.of_nat (size u) =? 0; bulk_ingest_eligible := eligible |} ->
  opened {[g := u]} s u u.
Proof.
  intros Him Hex Hg Hu Hel ->. split.
  - split; cbn [disk dk_keyspace partitions entry_count generation read_cache pending pending_covers_all bulk_ingest_eligible]; try done.
    + apply partitions_ok.
    + by rewrite overlay_empty.
    + intros E%Z.eqb_eq. apply map_size_empty_inv. lia.
    + intros E i _. by apply Hel.
    + split; [apply set_complete_wf, default_cache_wf|]. intros o e. change (cache_get (set_complete _ default_cache) o) with (cache_get default_cache o). unfold default_cache. by rewrite default_cache_get.
    + cbn [set_complete rc_complete]. intros E%Z.eqb_eq o _. change (cache_get (set_complete _ default_cache) o) with (cache_get default_cache o). unfold default_cache. rewrite default_cache_get.
      assert (u = ∅) as -> by (apply map_size_empty_inv; lia). by rewrite lookup_empty.
  - split; cbn [moments generation partitions].
    + exists [{| dk_keyspace := k; dk_marker := false |}]. split; [done|]. constructor; [|done]. right. cbn. apply (saved_exact _ _ _ g u); [done|done|apply lookup_singleton_eq].
    + apply lookup_singleton_eq.
    + intros g' v [<- <-]%lookup_singleton_Some. lia.
  - cbn. rewrite map_size_empty. by vm_compute.
Qed.

Lemma open_image k g u was_new legacy random :
  image (partitions_of legacy) k g u -> exact k -> 0 < g < 2 ^ 64 -> Z.of_nat (size u) < 2 ^ 62 -> (was_new = true -> forall i, ks_untouched k i) ->
  exists s, open_with_cache {| dk_keyspace := k; dk_marker := false |} was_new legacy random = Ok s /\ opened {[g := u]} s u u /\ generation s = g.
Proof.
  intros Him Hex Hg Hu Hnew. unfold open_with_cache. cbn [dk_marker dk_keyspace]. rewrite (read_u64 _ _ _ (im_count _ _ _ _ Him)) by (unfold in_u; lia).
  cbn [rbind]. change (default 0 (Some (Z.of_nat (size u)))) with (Z.of_nat (size u)). fold (partitions_of legacy). set (empty := forallb _ _).
  assert (He : Z.of_nat (size u) = 0 -> empty = true).
  { intros E. assert (u = ∅) as -> by (apply map_size_empty_inv; lia). apply forallb_forall. intros i _. apply bool_decide_eq_true.
    eapply holds_empty_iter, Him. }
  assert (Hc : negb ((Z.of_nat (size u) =? 0) && negb ((Z.of_nat (size u) =? 0) && empty)) = true).
  { destruct (Z.eqb_spec (Z.of_nat (size u)) 0) as [E|E]; [by rewrite He|done]. }
  rewrite Hc. rewrite (read_u64 _ _ _ (im_generation _ _ _ _ Him)) by (unfold in_u; lia). cbn [rbind].
  rewrite (proj2 (Z.eqb_neq g 0)) by lia. cbn [negb]. eexists. split; [done|]. split; [|done].
  eapply fresh_steady; [exact Him|done|done|done| |reflexivity]. intros [E _]%andb_true_iff. by apply Hnew.
Qed.

(** A new directory, or one with the marker. *)
Lemma open_empty d was_new legacy random :
  dk_marker d = true \/ dk_keyspace d = ks_new -> in_u 64 random ->
  exists s, open_with_cache d was_new legacy random = Ok s /\ opened {[Z.max random 1 := ∅]} s ∅ ∅ /\ generation s = Z.max random 1.
Proof.
  intros Hd Hr. unfold open_with_cache. replace (if dk_marker d then ks_new else dk_keyspace d) with ks_new by (destruct Hd as [->| ->]; [done|by destruct (dk_marker d)]).
  assert (Hn : forall key, read_u64_metadata ks_new key = Ok None) by (intros key; unfold read_u64_metadata; by rewrite law_get, law_new, lookup_empty).
  rewrite !Hn. cbn [rbind]. change (default 0 (None : option Z)) with 0. fold (partitions_of legacy).
  assert (Hh : holds (partitions_of legacy) (ks_contents ks_new) ∅) by (rewrite law_new; apply holds_empty).
  assert (He : forallb (fun i => bool_decide (ks_iter ks_new (Coins i) = [])) (seq 0 (partitions_of legacy)) = true).
  { apply forallb_forall. intros i _. apply bool_decide_eq_true. by eapply holds_empty_iter. }
  rewrite He. cbn [andb negb Z.eqb]. eexists. split; [done|]. split; [|done]. unfold in_u in Hr.
  assert (Hk : ks_contents (first_generation (Z.max random 1) ks_new) = apply_writes (rev (metadata_writes 0 (Z.max random 1))) ∅)
    by (unfold first_generation; by rewrite law_persist, !law_commit, law_new).
  eapply (fresh_steady (first_generation (Z.max random 1) ks_new) (Z.max random 1) ∅ legacy (was_new && true)); [|apply exact_persisted|lia|by vm_compute| |reflexivity].
  - split; rewrite Hk.
    + apply holds_meta; [by repeat constructor|apply holds_empty].
    + cbn. apply lookup_insert_eq.
    + cbn. rewrite lookup_insert_ne by (intros E; by vm_compute in E). apply lookup_insert_eq.
  - intros _ i. apply law_persist_untouched, law_commit_untouched; [|by repeat constructor]. apply law_commit_untouched; [apply law_new_untouched|by repeat constructor].
Qed.

(** ** Emptying the store *)

Lemma delete_keys_lookup i (keys : list (bytes * bytes)) m a :
  apply_writes (map (fun e => (Coins i, e.1, None)) keys) m !! a = if decide (a.1 = Coins i /\ a.2 ∈ keys.*1) then None else m !! a.
Proof.
  revert m. induction keys as [|[key v] keys IH]; intros m; cbn [map apply_writes foldl].
  - rewrite decide_False; [done|]. intros [_ ?%elem_of_nil]. done.
  - change (foldl apply_write ?m ?l) with (apply_writes l m). rewrite IH. unfold apply_write. cbn [fst snd fmap list_fmap]. clear IH. destruct a as [p k]. cbn [fst snd].
    destruct (decide (p = Coins i /\ k ∈ keys.*1)) as [H|H]; [rewrite decide_True by set_solver; done|].
    destruct (decide ((p, k) = (Coins i, key))) as [[= -> ->]|Hne]; [rewrite lookup_delete_eq, decide_True by set_solver; done|].
    rewrite lookup_delete_ne by done. rewrite decide_False; [done|]. intros [-> [->|Hin]%elem_of_cons]; [done|by apply H].
Qed.

Lemma iter_NoDup k p : NoDup (ks_iter k p).
Proof.
  pose proof (law_iter_sorted k p) as H. induction (ks_iter k p) as [|x l IH]; [constructor|]. cbn in H. apply StronglySorted_inv in H as [H Hx]. constructor; [|by apply IH].
  intros Hin. rewrite Forall_forall in Hx. apply (bytes_lt_irrefl x.1), Hx, list_elem_of_fmap. eauto.
Qed.

(** A partition without its keys. *)
Definition cleared (i : nat) (m m' : gmap (Partition * bytes) bytes) : Prop :=
  forall a, m' !! a = if decide (a.1 = Coins i) then None else m !! a.

Lemma clear_partition_spec fuel i s :
  (length (ks_iter (dk_keyspace (disk s)) (Coins i)) < fuel)%nat ->
  exists d ms, clear_partition fuel i s = redisk d ms s /\ cleared i (ks_contents (dk_keyspace (disk s))) (ks_contents (dk_keyspace d)).
Proof.
  revert s. induction fuel as [|fuel IH]; intros s Hf; [lia|]. cbn [clear_partition]. set (l := ks_iter (dk_keyspace (disk s)) (Coins i)) in *.
  destruct (ztake 10000 l) as [|x keys] eqn:Et.
  - exists (disk s), []. rewrite redisk_here. split; [done|]. intros [p key]. cbn [fst]. case_decide as E; [|done]. subst p.
    destruct (ks_contents (dk_keyspace (disk s)) !! (Coins i, key)) as [v|] eqn:Ev; [|done]. apply law_iter in Ev. fold l in Ev.
    unfold ztake in Et. destruct l; [by apply elem_of_nil in Ev|]. exfalso. by destruct (Z.to_nat 10000) eqn:E0.
  - rewrite <- Et. set (s1 := on_keyspace _ s). assert (Hk1 : forall a, ks_contents (dk_keyspace (disk s1)) !! a =
      if decide (a.1 = Coins i /\ a.2 ∈ (ztake 10000 l).*1) then None else ks_contents (dk_keyspace (disk s)) !! a)
      by (intros a; cbn [s1 on_keyspace with_disk disk dk_keyspace]; rewrite law_commit; apply delete_keys_lookup).
    destruct (IH s1) as (d & ms & E & Hc).
    + assert (Hsub : forall y, y ∈ ks_iter (dk_keyspace (disk s1)) (Coins i) -> y ∈ zdrop 10000 l).
      { intros [key v] Hy%law_iter. rewrite Hk1 in Hy. cbn [fst snd] in Hy. case_decide as Ed; [done|]. apply law_iter in Hy. fold l in Hy.
        unfold ztake, zdrop in *. rewrite <- (take_drop (Z.to_nat 10000) l) in Hy. apply elem_of_app in Hy as [Hy|Hy]; [|done].
        destruct Ed. split; [done|]. apply list_elem_of_fmap. by exists (key, v). }
      assert (length (ks_iter (dk_keyspace (disk s1)) (Coins i)) <= length (zdrop 10000 l))%nat.
      { apply NoDup_incl_length; [apply NoDup_ListNoDup, iter_NoDup|]. intros y Hy. apply list_elem_of_In, Hsub. by apply list_elem_of_In. }
      assert (length (zdrop 10000 l) < length l)%nat; [|lia]. unfold zdrop, ztake in *. rewrite length_drop. destruct l; [by rewrite take_nil in Et|]. cbn [length].
      assert (0 < Z.to_nat 10000)%nat by lia. lia.
    + exists d, (ms ++ [disk s1]). rewrite E. split; [change s1 with (redisk (disk s1) [disk s1] s) at 1; by rewrite redisk_redisk|].
      intros a. rewrite Hc, Hk1. case_decide; [done|]. by rewrite decide_False by tauto.
Qed.

Lemma clear_partitions_spec l s :
  exists d ms, foldl (fun s i => clear_partition (clear_fuel i s) i s) s l = redisk d ms s /\
    forall a, ks_contents (dk_keyspace d) !! a = if decide (a.1 ∈ map Coins l) then None else ks_contents (dk_keyspace (disk s)) !! a.
Proof.
  revert s. induction l as [|i l IH]; intros s; cbn [foldl].
  - exists (disk s), []. rewrite redisk_here. split; [done|]. intros a. rewrite decide_False; [done|]. apply not_elem_of_nil.
  - destruct (clear_partition_spec (clear_fuel i s) i s) as (d & ms & -> & Hc); [unfold clear_fuel; lia|].
    destruct (IH (redisk d ms s)) as (d' & ms' & -> & Hd). exists d', (ms' ++ ms). split; [by rewrite redisk_redisk|].
    intros a. rewrite Hd. cbn [redisk disk map]. destruct (decide (a.1 ∈ map Coins l)); [by rewrite decide_True by (by right)|].
    rewrite Hc. destruct (decide (a.1 = Coins i)) as [->|]; [by rewrite decide_True by left|by rewrite decide_False by set_solver].
Qed.

(** What a crash leaves while the store is emptied is excused. *)
Lemma clear_spec {EX : Excused} L s base u :
  steady L s base u -> generation s + 1 < 2 ^ 64 ->
  exists s' old, clear s = (s', Ok ()) /\ steady (EX := old) {[generation s' := ∅]} s' ∅ ∅ /\ generation s' = generation s + 1.
Proof.
  intros [Hs Hl Hi] Hg. unfold clear. set (s1 := set_flags _ false _).
  destruct (clear_partitions_spec (partition_list s1) s1) as (d & ms & -> & Hd). cbn [generation set_flags set_count redisk].
  change (generation s1) with (generation s). unfold checked_add. rewrite (proj2 (Z.leb_le _ _)) by (unfold umax; lia). eexists _, (ms ++ moments s). split; [done|]. split; [|done].
  assert (Hh : holds (partitions s) (ks_contents (dk_keyspace d)) ∅).
  { split; [intros o e He; by rewrite lookup_empty in He|]. intros i key b Hb. rewrite Hd in Hb. case_decide as E; [done|]. exfalso. apply E.
    destruct (hd_only _ _ _ (im_holds _ _ _ _ (so_image _ _ _ Hs)) _ _ _ Hb) as (o & [e He] & [= -> ->]). apply list_elem_of_fmap. eexists. split; [done|].
    apply list_elem_of_In, in_seq. split; [lia|]. apply partition_bound; [apply Hs|]. by apply (hd_coin _ _ _ (im_holds _ _ _ _ (so_image _ _ _ Hs)) o e He). }
  assert (Him : image (partitions s) (ks_commit true (metadata_writes 0 (generation s + 1)) (dk_keyspace d)) (generation s + 1) ∅).
  { eapply image_written; [exact Hh|]. by rewrite law_commit, map_size_empty. }
  destruct Hs as [Hn _ _ _ _ _ _ _ _ _ Hge _ _]. split.
  - split; try done; try (cbn; lia).
    + cbn [set_read_cache read_cache]. apply sound_complete, sound_clear.
    + intros _ o _. change (cache_get (cache_clear (read_cache s)) o = (∅ : coins) !! o). unfold cache_clear. by rewrite default_cache_get, lookup_empty.
  - split; [|apply lookup_singleton_eq|].
    + eexists [_; _]. split; [done|]. rewrite !Forall_cons; split_and!; [right..|done]; (eapply saved_exact; [apply exact_synced|exact Him|apply lookup_singleton_eq]).
    + cbn. intros g v [<- <-]%lookup_singleton_Some. rewrite map_size_empty. lia.
  - cbn. rewrite map_size_empty. lia.
Qed.

(** ** Replacing the set *)

Lemma replace_batches_spec {EX : Excused} capacity fuel entries s base u L :
  steady L s base u -> NoDup entries.*1 -> Forall (fun e => coin_ok e.1 e.2 /\ u !! e.1 = None) entries -> (length entries <= fuel)%nat ->
  Z.of_nat (size u) + Z.of_nat (length entries) < 2 ^ 62 -> generation s + 2 * Z.of_nat (length entries) < 2 ^ 64 ->
  exists s' L' base', replace_batches capacity fuel entries s = (s', Ok ()) /\ steady L' s' base' (insert_all entries u) /\
    generation s <= generation s' <= generation s + 2 * Z.of_nat (length entries).
Proof.
  revert entries s base u L. induction fuel as [|fuel IH]; intros entries s base u L Hst Hnd Hok Hf Hsz Hg.
  { destruct entries; [|cbn in Hf; lia]. exists s, L, base. split; [done|]. split; [done|cbn; lia]. }
  destruct entries as [|e entries]; [exists s, L, base; split; [done|]; split; [done|cbn; lia]|]. cbn [replace_batches]. set (l := e :: entries) in *.
  assert (El : ztake 10000 l ++ zdrop 10000 l = l) by apply take_drop.
  assert (Hlen : (length (ztake 10000 l) + length (zdrop 10000 l) = length l)%nat) by (rewrite <- length_app, El; done).
  assert (Hpos : (0 < length (ztake 10000 l))%nat) by (unfold ztake; rewrite length_take; cbn [l length]; lia).
  rewrite <- El in Hnd, Hok. rewrite fmap_app in Hnd. apply NoDup_app in Hnd as (Hn1 & Hdis & Hn2). apply Forall_app in Hok as [Ho1 Ho2].
  assert (Hnew : forall a, a ∈ (ztake 10000 l).*1 -> u !! a = None).
  { intros a (x & -> & Hx)%list_elem_of_fmap. rewrite Forall_forall in Ho1. by apply Ho1. }
  assert (Hsz' : size (insert_all (ztake 10000 l) u) = (size u + length (ztake 10000 l))%nat) by (by apply size_insert_all).
  destruct (apply_batch_spec (capacity fuel) [] (ztake 10000 l) false s base u L Hst) as [_ (s1 & E1 & L1 & base1 & Hst1 & _ & Hg1 & _)].
  - split; [constructor|by intros o ?%elem_of_nil|done| |intros a Ha; left; by apply Hnew]. intros a x Hx. rewrite Forall_forall in Ho1. by apply (Ho1 (a, x)).
  - intros _. exact Hnew.
  - change (remove_all [] u) with u. lia.
  - cbn [l length] in Hg. lia.
  - unfold bind. rewrite E1. change (remove_all [] u) with u in Hst1.
    destruct (IH (zdrop 10000 l) s1 base1 (insert_all (ztake 10000 l) u) L1) as (s' & L' & base' & E' & Hst' & Hg'); try done; try lia.
    + apply Forall_forall. intros x Hx. rewrite Forall_forall in Ho2. destruct (Ho2 x Hx) as [Hc Hu]. split; [done|].
      rewrite insert_all_union, lookup_union, Hu by done. rewrite (not_elem_of_list_to_map_1 (ztake 10000 l)); [done|]. intros Hin.
      apply (Hdis x.1 Hin). apply list_elem_of_fmap. eauto.
    + exists s', L', base'. split; [done|]. split; [|lia]. unfold insert_all in *. by rewrite <- foldl_app, El in Hst'.
Qed.

Lemma replace_all_spec {EX : Excused} capacity entries s base u L :
  steady L s base u -> NoDup entries.*1 -> Forall (fun e => coin_ok e.1 e.2) entries -> Z.of_nat (length entries) < 2 ^ 62 ->
  generation s + 2 * Z.of_nat (length entries) + 2 < 2 ^ 64 ->
  exists s' old, replace_all capacity entries s = (s', Ok ()) /\ moments s' = disk s' :: old /\
    steady (EX := old) {[generation s' := coin_map entries]} s' (coin_map entries) (coin_map entries) /\ durable s' (coin_map entries) (coin_map entries).
Proof.
  intros Hst Hnd Hok Hsz Hg. unfold replace_all, flush, bind. destruct (clear_spec L s base u Hst ltac:(lia)) as (s1 & old1 & E1 & Hst1 & Hg1). rewrite E1.
  destruct (replace_batches_spec (EX := old1) capacity (length entries) entries s1 ∅ ∅ _ Hst1) as (s2 & L2 & base2 & E2 & Hst2 & Hg2); try done; try lia.
  { eapply Forall_impl; [exact Hok|]. intros x Hx. by rewrite lookup_empty. }
  rewrite E2. rewrite insert_all_union, map_union_empty in Hst2 by done. set (v := coin_map entries) in *. destruct Hst2 as [Hs2 Hl2 Hi2].
  destruct (flush_pending_spec (EX := old1) true s2 base2 v L2 Hs2 Hl2) as (s3 & E3 & [F1 [_ _ F2] F3 F4 F5 F6 F7]); [lia|done|]. destruct (F7 eq_refl) as (D1 & D2 & old & D3).
  exists s3, old. split; [done|]. split; [done|]. split; [|split_and!; eauto]. split; [done| |rewrite F4, map_size_empty; lia].
  split; [|apply lookup_singleton_eq|].
  - exists [disk s3]. split; [done|]. constructor; [|done]. right. eapply saved_exact; [done|apply F1|apply lookup_singleton_eq].
  - intros g x [<- <-]%lookup_singleton_Some. pose proof (so_generation _ _ _ F1). split; [lia|apply F1].
Qed.
End Life.
