(* ===== verification/UtxoTheorems.v ===== *)
(** * The coin store and its crashes

    The lives of a coin store: it is opened on a new directory, operations
    follow, the whole set is replaced, and at any durable state the process may
    stop and the store be opened on what is left.  The theorems are about every
    state of every life. *)

From Stdlib Require Import ZArith Lia.
From stdpp Require Import base list option gmap sets strings sorting.
From S2P Require Import Prelude Types VersionBits ChainIndex BlockChecks UtxoCodec ConnectBlock Ledger HeaderChecks ChainManager ChainReplay ChainActivate UtxoCache UtxoStore UtxoDisk UtxoFlush UtxoBatch UtxoScan UtxoLife.
Local Open Scope Z_scope.
Local Open Scope op_scope.
Local Set Warnings "-clear-no-such-hyp".

(** ** Operations *)

(** [apply_validated_batch], [apply_batch], [flush], [get], [seed_cache],
    [configure_cache_size_mib_with_mempool], [warm_complete_cache_if_fits] and
    [warm_partial_cache]. *)
Inductive StoreOp :=
| Connect (capacity : Z) (removals : list OutPoint) (additions : list (OutPoint * StoredUtxo)) (sync : bool)
| Apply (capacity : Z) (removals : list OutPoint) (additions : list (OutPoint * StoredUtxo)) (sync : bool)
| Sync
| Read (outpoint : OutPoint)
| Seed (entries : list (OutPoint * StoredUtxo))
| Configure (mib mempool : Z)
| Warm
| WarmPartial (target : Z).

(** What it is to do to the set, and to the abstract store. *)
Definition next_set (call : StoreOp) (u : coins) : coins :=
  match call with
  | Connect _ removals additions _ | Apply _ removals additions _ => insert_all additions (remove_all removals u)
  | _ => u
  end.
Definition abstract_op (call : StoreOp) (db : UtxoDb) : result ConnectError UtxoDb :=
  match call with
  | Connect _ removals additions _ => apply_validated_batch removals additions db
  | Apply _ removals additions _ => Ok (apply_batch removals additions db)
  | _ => Ok db
  end.
(** Whether it returns only after its effect is safe from a crash. *)
Definition synced (call : StoreOp) : bool :=
  match call with
  | Connect _ _ _ sync => sync
  | Apply _ removals additions sync => sync && negb (bool_decide (removals = []) && bool_decide (additions = []))
  | Sync => true
  | _ => false
  end.

Section Theorems.
Context {KSO : Keyspace} {KL : KeyspaceLaws} {CV : CurveOps} {CL : CurveLaws} {CO : CoinOrder}.

Definition run_op (call : StoreOp) : op UtxoStore StoreError () :=
  match call with
  | Connect capacity removals additions sync => apply_validated_batch_with_sync capacity removals additions sync
  | Apply capacity removals additions sync => apply_batch_with_sync capacity removals additions sync
  | Sync => flush
  | Read outpoint => do! get outpoint in ret ()
  | Seed entries => modify (seed_cache entries)
  | Configure mib mempool => modify (configure_cache_size_mib_with_mempool mib mempool)
  | Warm => do! warm_complete_cache_if_fits in ret ()
  | WarmPartial target => do! warm_partial_cache target in ret ()
  end.

(** What a caller guarantees.  A validated batch brings coins that are new to
    the set and were not taken from it since the overlay was last written. *)
Definition op_ok (call : StoreOp) (s : UtxoStore) (u : coins) : Prop :=
  generation s + 2 < 2 ^ 64 /\ Z.of_nat (size (next_set call u)) < 2 ^ 62 /\
  match call with
  | Connect _ removals additions _ =>
      batch_input u removals additions /\ forall a, a ∈ additions.*1 -> u !! a = None /\ pending s !! a = None
  | Apply _ removals additions sync =>
      batch_input u removals additions /\ (sync = false -> forall a, a ∈ additions.*1 -> u !! a = None)
  | Read outpoint => outpoint_wf outpoint
  | Seed entries => Forall (fun e => u !! e.1 = Some e.2) entries
  | Warm => pending s = ∅
  | _ => True
  end.

Lemma still_steady {EX : Excused} L s base u s' :
  steady L s' base u -> generation s' = generation s -> step_to false u u L s s'.
Proof. intros H E. exists L, base. split; [done|]. split; [apply grows_refl|]. split; [lia|done]. Qed.

Lemma op_step {EX : Excused} call L s base u :
  steady L s base u -> op_ok call s u ->
  abstract_op call (db_of u) = Ok (db_of (next_set call u)) /\
  exists s', run_op call s = (s', Ok ()) /\ step_to (synced call) u (next_set call u) L s s'.
Proof.
  intros Hst (Hg & Hsz & Hop). destruct call as [cap rs ad sync|cap rs ad sync| |o|l|mib mp| |t]; cbn [next_set abstract_op run_op synced] in *; try (split; [done|]).
  - destruct Hop as [H1 H2]. by apply (apply_validated_spec cap rs ad sync s base u L).
  - destruct Hop as [H1 H2]. destruct (apply_batch_spec cap rs ad sync s base u L) as [H3 H4]; try done. by rewrite H3.
  - destruct Hst as [Hs Hl Hi]. destruct (flush_pending_spec true s base u L) as (s' & E & Hf); try done; [lia|]. exists s'. split; [done|].
    apply (flush_step true s u u s L L s'); try done; [lia|apply grows_refl|lia].
  - destruct (get_spec L s base u o Hst Hop) as (s' & r & E & Hst' & Hg' & _). exists s'. unfold bind. rewrite E. split; [done|]. by eapply still_steady.
  - eexists. split; [done|]. eapply still_steady; [by apply seed_spec|done].
  - eexists. split; [done|]. eapply still_steady; [by apply configure_spec|done].
  - destruct (warm_complete_spec L s base u Hst Hop) as (s' & r & E & Hst' & Hg' & _). exists s'. unfold bind. rewrite E. split; [done|]. by eapply still_steady.
  - destruct (warm_partial_spec L s base u t Hst) as (s' & r & E & Hst' & Hg' & _). exists s'. unfold bind. rewrite E. split; [done|]. by eapply still_steady.
Qed.

(** ** What a store stands for *)

Record represents (s : UtxoStore) (u : coins) : Prop := {
  rp_len : entry_count s = Z.of_nat (size u);
  rp_contains : forall o, outpoint_wf o -> contains o s = bool_decide (is_Some (u !! o));
  rp_entries : entries s = Ok u;
  rp_query : forall l, Forall outpoint_wf l -> exists m, execute s l = Ok m /\ forall o, m !! o = if decide (o ∈ l) then u !! o else None;
  rp_view : forall o, view_entry s o = Ok (u !! o) \/ view_entry s o = Err MissedPrefetch;
}.

Lemma steady_represents {EX : Excused} L s base u : steady L s base u -> represents s u.
Proof.
  intros [Hs _ _]. split; [apply Hs|by apply (store_contains_spec s base)|by apply (entries_spec s base)|by apply (execute_spec s base)|].
  intros o. destruct (view_entry_spec s base u Hs o) as [|[? _]]; auto.
Qed.

(** ** Lives *)

Abbreviation opened := (steady (EX := [])).

(** [life old s u past]: the store [s] stands for [u], its sets so far are
    [past], and [old] are the durable states from before the last replacement
    was complete.  A store with the marker is opened as a new one. *)
Inductive life : list Disk -> UtxoStore -> coins -> list coins -> Prop :=
| life_new d was_new legacy random s :
    dk_marker d = true \/ dk_keyspace d = ks_new -> in_u 64 random -> open_with_cache d was_new legacy random = Ok s -> life [] s ∅ [∅]
| life_op old s u past call s' :
    life old s u past -> op_ok call s u -> run_op call s = (s', Ok ()) -> life old s' (next_set call u) (next_set call u :: past)
| life_replace old s u past capacity l s' old' :
    life old s u past -> NoDup l.*1 -> Forall (fun e => coin_ok e.1 e.2) l -> Z.of_nat (length l) < 2 ^ 62 ->
    generation s + 2 * Z.of_nat (length l) + 2 < 2 ^ 64 ->
    replace_all capacity l s = (s', Ok ()) -> moments s' = disk s' :: old' -> life old' s' (coin_map l) (coin_map l :: past)
| life_crash old s u past new d k legacy random s' v :
    life old s u past -> moments s = new ++ old -> d ∈ new -> dk_marker d = false -> ks_recovers (dk_keyspace d) k ->
    partitions s = partitions_of legacy -> open_with_cache {| dk_keyspace := k; dk_marker := false |} false legacy random = Ok s' ->
    entries s' = Ok v -> life [] s' v (v :: past).

(** What is recovered is in the log. *)
Lemma crash_logged {EX : Excused} L s base u new d k legacy random :
  steady L s base u -> moments s = new ++ excused -> d ∈ new -> dk_marker d = false -> ks_recovers (dk_keyspace d) k -> partitions s = partitions_of legacy ->
  exists s' v, open_with_cache {| dk_keyspace := k; dk_marker := false |} false legacy random = Ok s' /\ L !! generation s' = Some v /\ opened {[generation s' := v]} s' v v.
Proof.
  intros [Hs [(new' & E & Hnew) L2 L3] _] Em Hd Hm Hk Hp. rewrite Em in E. apply app_inv_tail in E. subst new'. rewrite Forall_forall in Hnew.
  destruct (Hnew d Hd) as [?|Hsv]; [congruence|]. destruct (Hsv k Hk) as (g & v & Hg & Him). rewrite Hp in Him. destruct (L3 g v Hg) as [Hgr Hsz].
  pose proof (so_generation _ _ _ Hs).
  destruct (open_image k g v false legacy random Him) as (s' & Eo & Hst & Hge); try done; [intros k' Hk'; by apply (law_recover_again (dk_keyspace d) k)|lia|].
  exists s', v. subst g. done.
Qed.

Lemma life_steady old s u past :
  life old s u past -> exists L base, steady (EX := old) L s base u /\ u ∈ past /\ forall g v, L !! g = Some v -> v ∈ past.
Proof.
  induction 1 as [d was_new legacy random s Hd Hr Eo|old s u past call s' _ (L & base & Hst & Hu & HL) Hok E|old s u past cap l s' old' _ (L & base & Hst & Hu & HL) Hnd Hl Hsz Hg E Em
                 |old s u past new d k legacy random s' v _ (L & base & Hst & Hu & HL) Em Hd Hm Hk Hp Eo Ev].
  - destruct (open_empty d was_new legacy random Hd Hr) as (s' & E & Hst & _). rewrite Eo in E. injection E as <-. eexists _, ∅. split; [exact Hst|]. split; [left|].
    intros g v [_ <-]%lookup_singleton_Some. left.
  - destruct (op_step (EX := old) call L s base u Hst Hok) as (_ & s1 & E1 & L' & base' & Hst' & [_ Hgr] & _). rewrite E in E1. injection E1 as <-.
    exists L', base'. split; [done|]. split; [left|]. intros g v [H|[->| ->]]%Hgr; [right; by eapply HL|by right|left].
  - destruct (replace_all_spec (EX := old) cap l s base u L Hst Hnd Hl Hsz Hg) as (s1 & old1 & E1 & Em1 & Hst1 & _). rewrite E in E1. injection E1 as <-.
    rewrite Em in Em1. injection Em1 as <-. eexists _, _. split; [exact Hst1|]. split; [left|]. intros g v [_ <-]%lookup_singleton_Some. left.
  - destruct (crash_logged (EX := old) L s base u new d k legacy random Hst Em Hd Hm Hk Hp) as (s1 & v1 & E1 & Hv & Hst1). rewrite Eo in E1. injection E1 as <-.
    assert (v1 = v) as ->. { pose proof (rp_entries _ _ (steady_represents (EX := []) _ _ _ _ Hst1)) as H. rewrite Ev in H. by injection H. }
    eexists _, v. split; [exact Hst1|]. split; [left|]. intros g w [_ <-]%lookup_singleton_Some. left.
Qed.

(** More operations, without a crash. *)
Inductive later (s1 : UtxoStore) (u1 : coins) : UtxoStore -> coins -> Prop :=
| later_here : later s1 u1 s1 u1
| later_op s u call s' : later s1 u1 s u -> op_ok call s u -> run_op call s = (s', Ok ()) -> later s1 u1 s' (next_set call u).

Lemma later_steady {EX : Excused} L1 s1 base1 u1 s u :
  steady L1 s1 base1 u1 -> later s1 u1 s u -> exists L base, steady L s base u /\ L1 ⊆ L.
Proof.
  intros Hst. induction 1 as [|s u call s' _ (L & base & Hst' & Hsub) Hok E]; [by exists L1, base1|].
  destruct (op_step call L s base u Hst' Hok) as (_ & s2 & E2 & L' & base' & Hst2 & [Hgr _] & _). rewrite E in E2. injection E2 as <-.
  exists L', base'. split; [done|]. by transitivity L.
Qed.


(** C6: no crash tears the coin store. Whatever durable state the process stops at (outside a replacement of the whole set),
    if the marker of unsynced writes is not there, what the key-value store recovers opens, and the opened store stands for
    one of the sets that the store stood for between two operations, with its exact count. *)
Theorem crash_recovers old s u past new d k legacy random :
  life old s u past -> moments s = new ++ old -> d ∈ new -> dk_marker d = false -> ks_recovers (dk_keyspace d) k ->
  partitions s = partitions_of legacy ->
  exists s' v, open_with_cache {| dk_keyspace := k; dk_marker := false |} false legacy random = Ok s' /\ represents s' v /\ v ∈ past.
Proof.
  intros (L & base & Hst & _ & HL)%life_steady Em Hd Hm Hk Hp.
  destruct (crash_logged (EX := old) L s base u new d k legacy random Hst Em Hd Hm Hk Hp) as (s' & v & E & Hv & Hst').
  exists s', v. split; [done|]. split; [by eapply (steady_represents (EX := []))|by eapply HL].
Qed.



(** The sorted scan visits every coin exactly once, in the order of the keys on disk, over all partitions and over
    whatever the overlay adds, replaces or hides. *)
Theorem scan_visits_all old s u past :
  life old s u past ->
  exists r, for_each_entry_sorted s = Ok r /\ StronglySorted bytes_lt (map (fun x => encode_outpoint x.1) r) /\ r ≡ₚ map_to_list u.
Proof. intros (L & base & [Hs _ _] & _ & _)%life_steady. by apply (for_each_spec s base). Qed.

(** ** Blocks *)

Section Blocks.
Context {Ops : BitcoinOps} {HOps : HeaderOps} {SOps : ScriptOps} {POps : PowOps} (cf : Config) (net : Network) `{!ChainLaws cf net}.

End Blocks.
End Theorems.
