(* ===== verification/UtxoExamples.v ===== *)
(** * A coin store at work

    A key-value store that keeps what a crash may leave, and a store on it: the
    hypotheses of the theorems hold there, and three sequences of calls show
    where the store does not do what it promises. *)

From Stdlib Require Import ZArith Lia.
From stdpp Require Import base list option gmap sets strings sorting.
From S2P Require Import Prelude Types VersionBits ChainIndex BlockChecks UtxoCodec ConnectBlock Ledger HeaderChecks ChainManager ChainReplay ChainActivate ChainTheorems ChainExamples UtxoCache UtxoStore UtxoDisk UtxoFlush UtxoBatch UtxoScan UtxoLife UtxoTheorems.
Local Open Scope Z_scope.
Local Set Warnings "-clear-no-such-hyp".

(** ** A key-value store *)

(** The contents, every state that a crash may leave, and the partitions that
    were written. *)
Record SimpleKs := {
  sk_now : gmap (Partition * bytes) bytes;
  sk_possible : list (gmap (Partition * bytes) bytes);
  sk_touched : gset nat;
}.

Definition sk_le (a b : bytes * bytes) : Prop := bytes_leb a.1 b.1 = true.
#[local] Instance sk_le_dec : RelDecision sk_le.
Proof. intros a b. unfold sk_le. apply _. Defined.
#[local] Instance sk_le_total : Total sk_le.
Proof. intros a b. apply bytes_leb_total. Qed.
#[local] Instance sk_le_trans : Transitive sk_le.
Proof. intros a b c. apply bytes_leb_trans. Qed.

Definition sk_items (k : SimpleKs) (p : Partition) : list (bytes * bytes) :=
  omap (fun x : Partition * bytes * bytes => if bool_decide (x.1.1 = p) then Some (x.1.2, x.2) else None) (map_to_list (sk_now k)).
Definition sk_iter (k : SimpleKs) (p : Partition) : list (bytes * bytes) := merge_sort sk_le (sk_items k p).
Definition sk_written (ws : list Write) : gset nat :=
  list_to_set (omap (fun w : Write => match w.1.1 with Coins i => Some i | Metadata => None end) ws).
Definition sk_commit (sync : bool) (ws : list Write) (k : SimpleKs) : SimpleKs :=
  let now := apply_writes ws (sk_now k) in
  {| sk_now := now; sk_possible := if sync then [now] else now :: sk_possible k; sk_touched := sk_written ws ∪ sk_touched k |}.
Definition sk_ingest (i : nat) (l : list (bytes * bytes)) (k : SimpleKs) : SimpleKs :=
  let now := apply_writes (map (fun e => (Coins i, e.1, Some e.2)) l) (sk_now k) in
  {| sk_now := now; sk_possible := now :: sk_possible k; sk_touched := {[i]} ∪ sk_touched k |}.
Definition sk_persist (k : SimpleKs) : SimpleKs := {| sk_now := sk_now k; sk_possible := [sk_now k]; sk_touched := sk_touched k |}.
Definition sk_recovers (k k' : SimpleKs) : Prop := sk_now k' ∈ sk_possible k /\ sk_possible k' = [sk_now k'].

#[local] Instance simple_ks : Keyspace := {|
  KS := SimpleKs;
  ks_get k p key := sk_now k !! (p, key);
  ks_iter := sk_iter;
  ks_commit := sk_commit;
  ks_ingest := sk_ingest;
  ks_persist := sk_persist;
  ks_new := {| sk_now := ∅; sk_possible := [∅]; sk_touched := ∅ |};
  ks_recovers := sk_recovers;
|}.

Lemma sk_items_elem k p key v : (key, v) ∈ sk_items k p <-> sk_now k !! (p, key) = Some v.
Proof.
  unfold sk_items. rewrite list_elem_of_omap, <- elem_of_map_to_list. split.
  - intros ([[p' key'] v'] & Hin & E). cbn [fst snd] in E. case_bool_decide as Ep; [|done]. injection E as -> ->. by subst p'.
  - intros Hin. exists (p, key, v). split; [done|]. cbn [fst snd]. by rewrite bool_decide_eq_true_2.
Qed.

Lemma sk_items_keys k p : NoDup (sk_items k p).*1.
Proof.
  unfold sk_items. pose proof (NoDup_fst_map_to_list (sk_now k)) as Hnd. induction (map_to_list (sk_now k)) as [|[[p' key] v] l IH]; [constructor|].
  cbn [fmap list_fmap fst] in Hnd. apply NoDup_cons in Hnd as [Hnot Hnd]. cbn [omap list_omap fst snd]. case_bool_decide as E; [|by apply IH].
  cbn. constructor; [|by apply IH]. intros ([key' v'] & E' & Hin)%list_elem_of_fmap. cbn in E'. subst key'. apply Hnot.
  apply list_elem_of_omap in Hin as ([[p2 key2] v2] & Hin & E2). cbn [fst snd] in E2. case_bool_decide; [|done]. injection E2 as -> ->. subst.
  apply list_elem_of_fmap. by exists (p, key, v').
Qed.

Lemma sk_sorted l : StronglySorted sk_le l -> NoDup l.*1 -> StronglySorted bytes_lt l.*1.
Proof.
  induction 1 as [|x l Hl IH Hx]; [constructor|]. cbn. intros [Hnot Hnd]%NoDup_cons. constructor; [by apply IH|]. apply Forall_forall.
  intros key (y & -> & Hy)%list_elem_of_fmap. rewrite Forall_forall in Hx. split; [by apply Hx|]. intros E. apply Hnot. rewrite E. apply list_elem_of_fmap. eauto.
Qed.

#[local] Instance simple_laws : KeyspaceLaws.
Proof.
  refine {| ks_contents := sk_now; ks_untouched k i := i ∉ sk_touched k |}.
  - done.
  - intros k p key v. cbn. unfold sk_iter. rewrite merge_sort_Permutation. apply sk_items_elem.
  - intros k p. cbn. apply sk_sorted; [apply StronglySorted_merge_sort; apply _|]. unfold sk_iter. rewrite merge_sort_Permutation. apply sk_items_keys.
  - done.
  - intros sync ws k i Hi Hws. cbn. apply not_elem_of_union. split; [|done]. unfold sk_written. rewrite elem_of_list_to_set, list_elem_of_omap.
    intros (w & Hw & E). rewrite Forall_forall in Hws. destruct (w.1.1) eqn:Ew; [|done]. injection E as ->. by apply (Hws w Hw).
  - done.
  - intros i j l k Hj Hne. cbn. set_solver.
  - done.
  - done.
  - done.
  - intros i. cbn. set_solver.
  - intros k [H _]. cbn in H. by apply list_elem_of_singleton in H.
  - intros sync ws k k' [H E]. cbn in *. destruct sync; [left; by apply list_elem_of_singleton in H|]. apply elem_of_cons in H as [->|H]; [by left|right; by split].
  - intros k k' [H _]. cbn in H. by apply list_elem_of_singleton in H.
  - intros k k' k'' [_ E] [H _]. cbn in *. rewrite E in H. by apply list_elem_of_singleton in H.
Defined.

#[local] Instance toy_curve : CurveOps := {| from_slice := toy_from_slice; serialize_uncompressed := toy_uncompressed; deserialize_output := toy_deserialize |}.
#[local] Instance toy_laws : CurveLaws.
Proof. split. apply toy_compressed. Qed.
#[local] Instance list_order : CoinOrder.
Proof. by refine {| coin_iter A := map_to_list |}. Defined.

(** What the recovery of a synced state is. *)
Definition settled (k : KS) : KS := {| sk_now := sk_now k; sk_possible := [sk_now k]; sk_touched := sk_touched k |}.

(** ** A store *)

Definition outpoint_of (b : Z) : OutPoint := {| txid := repeat b 32; vout := 0 |}.
Definition entry_of (v h mtp : Z) (coinbase : bool) : StoredUtxo :=
  {| output := {| value := v; script_pubkey := [0x51] |}; height := h; median_time_past := mtp; coinbase := coinbase |}.
Definition coin_of (v h : Z) : StoredUtxo := entry_of v h 1700000000 false.
Abbreviation out_a := (outpoint_of 1).
Abbreviation out_b := (outpoint_of 240).
Abbreviation out_c := (outpoint_of 100).
Abbreviation coin_a := (coin_of 5000 1).
Abbreviation coin_b := (coin_of 7000 1).
Abbreviation coin_c := (coin_of 11000 2).

Lemma coin_ok_of b v h mtp cb :
  0 <= b < 256 -> 0 <= h < 2 ^ 31 -> 0 <= v <= MAX_MONEY -> 0 <= mtp < 2 ^ 32 -> coin_ok (outpoint_of b) (entry_of v h mtp cb).
Proof.
  intros Hb Hh Hv Hm. split.
  - split; [done|]. split; [|unfold in_u; cbn; lia]. cbn [txid outpoint_of]. apply Forall_forall. intros x Hx%list_elem_of_In%repeat_spec. by subst x.
  - unfold utxo_wf. cbn. repeat split; try (unfold in_u; lia); try done. repeat constructor; unfold is_byte; lia.
Qed.

Abbreviation run := (fun call s => (run_op call s).1).

(** Two coins are written, one is spent and a third made. *)
Abbreviation new_disk := ({| dk_keyspace := ks_new; dk_marker := false |} : Disk).
Definition blank : UtxoStore :=
  {| disk := new_disk; moments := []; partitions := 8; entry_count := 0; generation := 0; read_cache := default_cache; pending := ∅; pending_bytes := 0;
     pending_limit_bytes := 0; pending_item_limit := 0; write_batch_limit_bytes := 0; dirty_items_since_sync := 0; dirty_item_limit := 0;
     durability_checkpoint_needed := false; pending_covers_all := false; bulk_ingest_eligible := false |}.
Abbreviation store0 := (res_get (open_with_cache new_disk true false 41) blank).
Definition first_batch : StoreOp := Connect 0 [] [(out_a, coin_a); (out_b, coin_b)] true.
Definition second_batch : StoreOp := Connect 0 [out_a] [(out_c, coin_c)] false.
Abbreviation store1 := (run first_batch store0).
Abbreviation store2 := (run second_batch store1).
Abbreviation set1 := ({[out_a := coin_a; out_b := coin_b]} : coins).
Abbreviation set2 := ({[out_b := coin_b; out_c := coin_c]} : coins).

Lemma ran call s : (run_op call s).2 = Ok () -> run_op call s = (run call s, Ok ()).
Proof. intros E. rewrite <- E. by destruct (run_op call s). Qed.

Ltac coins_ok := apply coin_ok_of; unfold MAX_MONEY; lia.

Lemma connect_ok capacity removals additions sync s u g p :
  generation s = g -> pending s = p -> g + 2 < 2 ^ 64 -> Z.of_nat (size (insert_all additions (remove_all removals u))) < 2 ^ 62 ->
  bool_decide (NoDup removals) = true -> Forall (fun o => bool_decide (is_Some (u !! o)) = true) removals ->
  bool_decide (NoDup additions.*1) = true -> Forall (fun e => coin_ok e.1 e.2) additions ->
  Forall (fun e => u !! e.1 = None /\ p !! e.1 = None) additions -> op_ok (Connect capacity removals additions sync) s u.
Proof.
  intros Hg Hp Hmax Hs Hr Hin Ha Hc Hn. rewrite Forall_forall in Hin. rewrite Forall_forall in Hc. rewrite Forall_forall in Hn. unfold op_ok. rewrite Hg, Hp. split; [done|]. split; [done|].
  assert (Hk : forall a, a ∈ additions.*1 -> u !! a = None /\ p !! a = None) by (intros a (e & -> & He)%list_elem_of_fmap; by apply Hn).
  split; [split|done].
  - by apply bool_decide_eq_true in Hr.
  - intros o Ho. by apply Hin, bool_decide_eq_true in Ho.
  - by apply bool_decide_eq_true in Ha.
  - intros a e He. by apply (Hc (a, e)).
  - intros a Hia. left. by apply Hk.
Qed.

Lemma first_ok : op_ok first_batch store0 ∅.
Proof.
  apply (connect_ok 0 [] [(out_a, coin_a); (out_b, coin_b)] true store0 ∅ 41 ∅); [by vm_compute..| |by vm_compute| |].
  - apply Forall_nil_2.
  - rewrite ?Forall_cons, ?Forall_nil; split_and!; try done; coins_ok.
  - rewrite ?Forall_cons, ?Forall_nil; split_and!; try exact I; by vm_compute.
Qed.

Lemma life0 : life [] store0 ∅ [∅].
Proof. apply (life_new new_disk true false 41); [by right|unfold in_u; lia|]. apply res_ok_get. by vm_compute. Qed.
Lemma set1_eq : next_set first_batch ∅ = set1.
Proof. apply (bool_decide_unpack (_ = set1)). by vm_compute. Qed.
Lemma life1 : life [] store1 set1 [set1; ∅].
Proof. rewrite <- set1_eq. apply (life_op [] store0 ∅ [∅] first_batch); [apply life0|apply first_ok|]. apply ran. by vm_compute. Qed.

Lemma second_ok : op_ok second_batch store1 set1.
Proof.
  apply (connect_ok 0 [out_a] [(out_c, coin_c)] false store1 set1 42 ∅); [by vm_compute..| |by vm_compute| |].
  - rewrite ?Forall_cons, ?Forall_nil; split_and!; try exact I; by vm_compute.
  - rewrite ?Forall_cons, ?Forall_nil; split_and!; try done; coins_ok.
  - rewrite ?Forall_cons, ?Forall_nil; split_and!; try exact I; by vm_compute.
Qed.
Lemma set2_eq : next_set second_batch set1 = set2.
Proof. apply (bool_decide_unpack (_ = set2)). by vm_compute. Qed.
Lemma life2 : life [] store2 set2 [set2; set1; ∅].
Proof. rewrite <- set2_eq. apply (life_op [] store1 set1 [set1; ∅] second_batch); [apply life1|apply second_ok|]. apply ran. by vm_compute. Qed.

Lemma sync_ok s u : generation s + 2 < 2 ^ 64 -> Z.of_nat (size u) < 2 ^ 62 -> op_ok Sync s u.
Proof. by split. Qed.


(** The process stops: the second batch was in memory only. *)
Definition newest (s : UtxoStore) : Disk := default (disk blank) (head (moments s)).
Lemma newest_in s : bool_decide (moments s = []) = false -> newest s ∈ moments s.
Proof. unfold newest. destruct (moments s); [done|left]. Qed.
Lemma settled_recovers k : bool_decide (sk_now k ∈ sk_possible k) = true -> sk_recovers k (settled k).
Proof. intros H%bool_decide_eq_true. by split. Qed.

Abbreviation crashed := (settled (dk_keyspace (newest store2))).
Abbreviation reopened := (res_get (open_with_cache {| dk_keyspace := crashed; dk_marker := false |} false false 7) blank).

Lemma crash_recovers_witness :
  exists s' v, open_with_cache {| dk_keyspace := crashed; dk_marker := false |} false false 7 = Ok s' /\ represents s' v /\ v ∈ [set2; set1; ∅].
Proof.
  apply (crash_recovers [] store2 set2 [set2; set1; ∅] (moments store2) (newest store2) crashed false 7).
  - apply life2.
  - by rewrite app_nil_r.
  - apply newest_in. by vm_compute.
  - by vm_compute.
  - apply settled_recovers. by vm_compute.
  - by vm_compute.
Defined.



Lemma scan_visits_all_witness :
  exists r, for_each_entry_sorted store2 = Ok r /\ StronglySorted bytes_lt (map (fun x => encode_outpoint x.1) r) /\ r ≡ₚ map_to_list set2.
Proof. apply (scan_visits_all [] store2 set2 [set2; set1; ∅]). apply life2. Defined.

(** ** A replacement *)

Abbreviation replaced := ((replace_all (fun _ => 0) [(out_c, coin_c)] store1).1).
Definition torn_state : Disk := default new_disk (moments replaced !! 5%nat).
Abbreviation torn := (res_get (open_with_cache {| dk_keyspace := settled (dk_keyspace torn_state); dk_marker := false |} false false 7) blank).

Lemma nth_in {A} (l : list A) d n : (n <? length l)%nat = true -> default d (l !! n) ∈ l.
Proof. intros H%Nat.ltb_lt. destruct (lookup_lt_is_Some_2 l n H) as [x E]. rewrite E. by apply list_elem_of_lookup_2 in E. Qed.


(** ** A read *)

(** A cache with room for one coin. *)
Abbreviation narrow := (run (Read out_a) (set_read_cache (configure_limit 300) store1)).


(** ** Coins that come back *)

Abbreviation spent_once := (run (Connect 0 [out_a] [] false) store1).
Abbreviation made_again := (run (Connect 0 [] [(out_a, coin_c)] false) spent_once).
Abbreviation spent_twice := (run (Connect 0 [out_a] [] false) made_again).

(** A coin that is made again before its removal is written, and spent again, is back with its old value. The overlay
    entry is declared fresh although the disk has the coin, so the second removal drops the entry and not the coin. *)
Theorem fresh_flag_resurrects :
  contains out_a spent_once = false /\ (run_op (Connect 0 [] [(out_a, coin_c)] false) spent_once).2 = Ok () /\
  (run_op (Connect 0 [out_a] [] false) made_again).2 = Ok () /\ (get out_a spent_twice).2 = Ok (Some coin_a).
Proof. split_and!; by vm_compute. Qed.

(** ** A block *)

(** The identifier of one transaction is as wide as the real ones. *)
Definition wide_txid (t : Transaction) : bytes := if bool_decide (t = mined 1) then repeat 1 32 else 0 :: enc_tx t.
Definition wide_bitcoin : BitcoinOps := {|
  sha256d := @sha256d chain_bitcoin; block_hash := @block_hash chain_bitcoin; signet_genesis_hash := []; compute_txid := wide_txid;
  base_size := @base_size chain_bitcoin; is_coinbase := @is_coinbase chain_bitcoin; is_null := @is_null chain_bitcoin;
  null_outpoint := @null_outpoint chain_bitcoin; is_lock_time_enabled := @is_lock_time_enabled chain_bitcoin;
  is_relative_lock_time := @is_relative_lock_time chain_bitcoin; is_height_locked := @is_height_locked chain_bitcoin;
  count_sigops_legacy := @count_sigops_legacy chain_bitcoin; header_size := @header_size chain_bitcoin; varint_size := @varint_size chain_bitcoin;
  block_weight := @block_weight chain_bitcoin; witness_root := @witness_root chain_bitcoin;
  compute_witness_commitment := @compute_witness_commitment chain_bitcoin; push_int := @push_int chain_bitcoin; push_slice := @push_slice chain_bitcoin;
  instructions := @instructions chain_bitcoin; calculate_root := @calculate_root chain_bitcoin; script_partial := @script_partial chain_bitcoin;
  witness_partial := @witness_partial chain_bitcoin; serialize_transaction := @serialize_transaction chain_bitcoin;
  verify_with_flags := @verify_with_flags chain_bitcoin |}.
#[local] Existing Instances wide_bitcoin toy_headers toy_scripts chain_pow.

Lemma wide_laws : ChainLaws example_config Regtest.
Proof.
  split.
  - apply enc_header_inj.
  - done.
  - intros t t'. unfold compute_txid, wide_bitcoin, wide_txid. do 2 case_bool_decide; [congruence|done|done|]. intros E. apply enc_tx_inputs. exact (f_equal tail E).
  - intros t t' H. exact (f_equal (fun l => match l with [o] => vout o =? 0xffffffff | _ => false end) H).
  - intros script. apply zlen_nonneg.
  - intros hd. unfold header_hash, chain_pow, enc_header. done.
  - by vm_compute.
  - done.
Qed.

Definition wide_block : Block :=
  {| blk_header := {| hd_version := 4; prev_blockhash := block_hash block0; merkle_root := repeat 1 32; hd_time := 2; hd_bits := 1; hd_nonce := 0 |};
     txdata := [mined 1] |}.
Abbreviation wide_chain := (chain (fresh_node example_config Regtest)).
Abbreviation wide_result := (validate_block_transactions wide_chain (cf_params example_config) ∅ wide_block (map compute_txid (txdata wide_block)) 1 ∅ 1 false true).
Definition no_application : BlockApplication :=
  {| spent_outpoints := ∅; created_entries := ∅; same_block_spent := ∅; spent_entries := [];
     metrics := {| prevout_spent_sat := 0; new_outputs_ex_coinbase_sat := 0; coinbase_sat := 0; unspendable_scripts_sat := 0; unspendable_bip30_sat := 0; subsidy_sat := 0 |} |}.
Abbreviation wide_application := (res_get wide_result no_application).

