(* ===== verification/FeeRate.v ===== *)
(** * Fee rates and fee-rate diagrams ([src/mempool.rs])

    Fee-rate comparisons, the merging of transactions into chunks and the
    comparison of two diagrams that decides replacements.  Fees are signed
    128-bit integers and sizes unsigned 64-bit ones, both saturating. *)

From Stdlib Require Import ZArith Lia QArith Lqa Qabs.
From stdpp Require Import base list option sorting.
From S2P Require Import Prelude.
Local Open Scope Z_scope.

Definition chunk : Type := Z * Z.

Definition sat_i128 (z : Z) : Z := Z.max (- 2 ^ 127) (Z.min (2 ^ 127 - 1) z).
Definition fee_add (a b : Z) : Z := sat_i128 (a + b).
Definition fee_sub (a b : Z) : Z := sat_i128 (a - b).
Definition fee_mul (a b : Z) : Z := sat_i128 (a * b).

(** ** Rates *)

Definition fee_rate_meets (fee_sat vsize fee_rate_sat_per_kvb : Z) : bool :=
  fee_rate_sat_per_kvb * vsize <=? fee_mul fee_sat 1000.

Definition fee_rate_from_package (fee_sat vsize : Z) : Z :=
  if (fee_sat <=? 0) || (vsize =? 0) then 0
  else default (umax 64) (try_u 64 ((fee_mul fee_sat 1000 + vsize - 1) `quot` vsize)).

Definition fee_for_rate (fee_rate_sat_per_kvb vsize : Z) : Z := (fee_rate_sat_per_kvb * vsize + 999) `quot` 1000.

Definition compare_fee_rate (left_fee left_size right_fee right_size : Z) : comparison :=
  if (left_size =? 0) || (right_size =? 0) then (left_size ?= right_size)
  else (fee_mul left_fee right_size ?= fee_mul right_fee left_size).

(** ** Chunks *)

(** The loop that merges the last chunk [r] into the one before while that
    one pays less; [rest] are the chunks before it, last first. *)
Fixpoint merge_last (r : chunk) (rest : list chunk) : list chunk :=
  match rest with
  | [] => [r]
  | l :: rest' =>
      match compare_fee_rate l.1 l.2 r.1 r.2 with
      | Lt => merge_last (fee_add l.1 r.1, sat_add 64 l.2 r.2) rest'
      | _ => r :: rest
      end
  end.

Definition append_feerate_chunk (chunks : list chunk) (fee size : Z) : list chunk :=
  if size =? 0 then chunks else rev (merge_last (fee, size) (rev chunks)).

Definition chunk_before (l r : chunk) : Prop :=
  match compare_fee_rate r.1 r.2 l.1 l.2 with
  | Lt => True
  | Eq => r.2 <= l.2
  | Gt => False
  end.
#[export] Instance chunk_before_dec : RelDecision chunk_before.
Proof. intros l r. unfold chunk_before. destruct (compare_fee_rate _ _ _ _); apply _. Defined.

Definition sort_fee_rate_chunks (chunks : list chunk) : list chunk := merge_sort chunk_before chunks.

(** ** Diagrams *)

(** The variables of the loop for one side: the chunks not yet used, the
    accumulated fee and size, and whether the side was better somewhere. *)
Record side := { rest : list chunk; acc_fee : Z; acc_size : Z; better : bool }.

Definition next_fee (s : side) (c : chunk) : Z := fee_add (acc_fee s) c.1.
Definition next_size (s : side) (c : chunk) : Z := sat_add 64 (acc_size s) c.2.

Definition set_better (b : bool) (s : side) : side :=
  {| rest := rest s; acc_fee := acc_fee s; acc_size := acc_size s; better := better s || b |}.

Definition advance (s : side) (c : chunk) (cs : list chunk) : side :=
  {| rest := cs; acc_fee := next_fee s c; acc_size := next_size s c; better := better s |}.

(** The turn of the loop at the next point [c] of side [s], against [o]. *)
Definition diagram_step (s : side) (c : chunk) (cs : list chunk) (o : side) : side * side :=
  let point_fee := next_fee s c in
  let point_size := next_size s c in
  let slope_fee := fee_sub point_fee (acc_fee o) in
  let slope_size := sat_sub point_size (acc_size o) in
  let '(comparison, o') :=
    match rest o with
    | [] => (compare_fee_rate slope_fee slope_size 0 1, o)
    | d :: ds =>
        (compare_fee_rate slope_fee slope_size (fee_sub (next_fee o d) (acc_fee o)) (sat_sub (next_size o d) (acc_size o)),
         if next_size o d =? point_size then advance o d ds else o)
    end in
  (set_better (match comparison with Gt => true | _ => false end) (advance s c cs),
   set_better (match comparison with Lt => true | _ => false end) o').

(** A turn uses up at least one chunk; [None] is a crossing of the diagrams. *)
Fixpoint diagram_loop (fuel : nat) (l r : side) : option (bool * bool) :=
  match fuel with
  | O => Some (better l, better r)
  | S fuel =>
      match rest l, rest r with
      | [], [] => Some (better l, better r)
      | lc :: lcs, [] =>
          let '(l, r) := diagram_step l lc lcs r in
          if better l && better r then None else diagram_loop fuel l r
      | [], rc :: rcs =>
          let '(r, l) := diagram_step r rc rcs l in
          if better l && better r then None else diagram_loop fuel l r
      | lc :: lcs, rc :: rcs =>
          let '(l, r) :=
            if next_size r rc <? next_size l lc
            then let '(r, l) := diagram_step r rc rcs l in (l, r)
            else diagram_step l lc lcs r in
          if better l && better r then None else diagram_loop fuel l r
      end
  end.

Definition compare_fee_rate_diagrams (left right : list chunk) : option comparison :=
  let start d := {| rest := d; acc_fee := 0; acc_size := 0; better := false |} in
  match diagram_loop (length left + length right) (start left) (start right) with
  | None => None
  | Some (bl, br) => Some (if Bool.eqb bl br then Eq else if bl then Gt else Lt)
  end.

(** ** What a diagram is

    The fee that the first [x] units of size pay: linear along each chunk and
    constant after the last. *)

Fixpoint diagram (d : list chunk) (x : Z) : Q :=
  match d with
  | [] => 0
  | (f, s) :: d => if x <? s then inject_Z (f * x) / inject_Z s else inject_Z f + diagram d (x - s)
  end.

Definition bound : Z := 2 ^ 60.

(** Sizes are positive and the totals small enough that nothing saturates. *)
Definition chunks_ok (d : list chunk) : Prop :=
  Forall (fun c => 0 < c.2) d /\ foldr (fun c t => Z.abs c.1 + t) 0 d < bound /\ foldr (fun c t => c.2 + t) 0 d < bound.

Definition fee_of (d : list chunk) : Z := foldr (fun c t => c.1 + t) 0 d.
Definition abs_fee (d : list chunk) : Z := foldr (fun c t => Z.abs c.1 + t) 0 d.
Definition size_of (d : list chunk) : Z := foldr (fun c t => c.2 + t) 0 d.

(** The value along a side whose accumulated point is known. *)
Definition side_value (s : side) (x : Z) : Q := inject_Z (acc_fee s) + diagram (rest s) (x - acc_size s).

(** The room left on a side before anything saturates. *)
Definition side_ok (s : side) : Prop :=
  Forall (fun c => 0 < c.2) (rest s) /\ 0 <= acc_size s /\
  Z.abs (acc_fee s) + abs_fee (rest s) < bound /\ acc_size s + size_of (rest s) < bound.

Lemma sat_i128_id z : Z.abs z < 2 ^ 126 -> sat_i128 z = z.
Proof. unfold sat_i128. lia. Qed.

Lemma abs_fee_nonneg d : 0 <= abs_fee d.
Proof. induction d; simpl; lia. Qed.
Lemma size_of_nonneg d : Forall (fun c => 0 < c.2) d -> 0 <= size_of d.
Proof. induction 1; simpl; lia. Qed.

Lemma advance_ok s c cs : side_ok s -> rest s = c :: cs ->
  next_fee s c = acc_fee s + c.1 /\ next_size s c = acc_size s + c.2 /\ 0 < c.2 /\ side_ok (advance s c cs).
Proof.
  intros (Hpos & Hsz & Hf & Hs) E. unfold side_ok. rewrite E in *. apply Forall_cons in Hpos as [Hc Hpos].
  cbn [abs_fee size_of foldr] in Hf, Hs. fold (abs_fee cs) in Hf. fold (size_of cs) in Hs.
  pose proof (abs_fee_nonneg cs). pose proof (size_of_nonneg cs Hpos).
  assert (next_fee s c = acc_fee s + c.1) as E1 by (apply sat_i128_id; unfold bound in *; lia).
  assert (next_size s c = acc_size s + c.2) as E2 by (unfold next_size, sat_add, umax, bound in *; lia).
  split; [done|]. split; [done|]. split; [done|]. simpl. rewrite E1, E2. split; [done|]. lia.
Qed.

(** ** Values along a diagram *)

Lemma inject_pos z : 0 < z -> (0 < inject_Z z)%Q.
Proof. intros H. change 0%Q with (inject_Z 0). by rewrite <- Zlt_Qlt. Qed.

Lemma diagram_0 d : Forall (fun c => 0 < c.2) d -> (diagram d 0 == 0)%Q.
Proof.
  intros H. destruct H as [|[f s] d Hs Hd]; simpl; [done|]. simpl in Hs. btrue (0 <? s). rewrite Z.mul_0_r.
  unfold Qdiv. apply Qmult_0_l.
Qed.

Lemma diagram_linear f s d x :
  0 <= x <= s -> 0 < s -> Forall (fun c => 0 < c.2) d ->
  (diagram ((f, s) :: d) x == inject_Z f * inject_Z x / inject_Z s)%Q.
Proof.
  intros Hx Hs Hd. pose proof (inject_pos s Hs). simpl. destruct (Z.ltb_spec x s).
  - by rewrite inject_Z_mult.
  - replace x with s by lia. rewrite Z.sub_diag, diagram_0 by done. field. lra.
Qed.

Lemma diagram_beyond f s d x : s <= x -> diagram ((f, s) :: d) x = (inject_Z f + diagram d (x - s))%Q.
Proof. intros H. simpl. by bfalse (x <? s). Qed.

(** ** One comparison *)

Definition compares (c : comparison) (a b : Q) : Prop := CompareSpec (a == b)%Q (a < b)%Q (b < a)%Q c.

Lemma compares_scaled a b k p q s :
  (0 < s)%Q -> (inject_Z p == s * (a - k))%Q -> (inject_Z q == s * (b - k))%Q -> compares (p ?= q) a b.
Proof.
  intros Hs Hp Hq. destruct (Z.compare_spec p q) as [H|H|H]; constructor.
  - rewrite H, Hq in Hp. apply Qmult_inj_l in Hp; lra.
  - rewrite Zlt_Qlt, Hp, Hq in H. apply Qmult_lt_l in H; lra.
  - rewrite Zlt_Qlt, Hp, Hq in H. apply Qmult_lt_l in H; lra.
Qed.

(** The point [ps] of [s] lies after the point of [o] and not after its next. *)
Definition in_step (ps : Z) (o : side) : Prop :=
  acc_size o < ps /\ match rest o with [] => True | d :: _ => ps <= acc_size o + d.2 end.

Lemma step_value o ps : side_ok o -> in_step ps o ->
  (side_value o ps == inject_Z (acc_fee o) +
     match rest o with [] => 0 | d :: _ => inject_Z d.1 * inject_Z (ps - acc_size o) / inject_Z d.2 end)%Q.
Proof.
  intros (Hpos & _) [H1 H2]. unfold side_value. destruct (rest o) as [|[f s] d]; [done|].
  apply Forall_cons in Hpos as [Hs Hpos]. simpl in Hs, H2. rewrite diagram_linear by (done || lia). done.
Qed.

Lemma fee_mul_id a b : Z.abs a < 2 ^ 61 -> Z.abs b < 2 ^ 61 -> fee_mul a b = a * b.
Proof. intros Ha Hb. apply sat_i128_id. rewrite Z.abs_mul. change (2 ^ 126) with (2 ^ 61 * 2 ^ 65). nia. Qed.

Lemma step_compares (o : side) (pf ps : Z) : side_ok o -> in_step ps o -> Z.abs pf < bound -> 0 <= ps < bound ->
  compares
    (match rest o with
     | [] => compare_fee_rate (fee_sub pf (acc_fee o)) (sat_sub ps (acc_size o)) 0 1
     | d :: _ => compare_fee_rate (fee_sub pf (acc_fee o)) (sat_sub ps (acc_size o))
                   (fee_sub (next_fee o d) (acc_fee o)) (sat_sub (next_size o d) (acc_size o))
     end) (inject_Z pf) (side_value o ps).
Proof.
  intros Hok Hin Hpf Hps. pose proof (step_value o ps Hok Hin) as Hv. destruct Hin as [H1 H2].
  pose proof Hok as (Hpos & Hsz & Hf & Hs). pose proof (abs_fee_nonneg (rest o)).
  unfold sat_sub. rewrite (Z.max_r 0 (ps - acc_size o)) by lia.
  assert (E1 : fee_sub pf (acc_fee o) = pf - acc_fee o) by (apply sat_i128_id; unfold bound in *; lia). rewrite E1.
  destruct (rest o) as [|d ds] eqn:Er; unfold compare_fee_rate.
  - bfalse (ps - acc_size o =? 0). cbn [orb Z.eqb]. rewrite !fee_mul_id by (unfold bound in *; lia).
    apply compares_scaled with (inject_Z (acc_fee o)) 1%Q; [lra| |]; rewrite ?Hv, ?Z.mul_1_r, ?Z.mul_0_l.
    + rewrite Qmult_1_l. unfold Zminus, Qminus. by rewrite inject_Z_plus, inject_Z_opp.
    + change (inject_Z 0) with 0%Q. lra.
  - destruct (advance_ok o d ds Hok Er) as (E2 & E3 & Hd & _). rewrite E2, E3.
    unfold fee_sub. replace (acc_fee o + d.1 - acc_fee o) with (d.1) by lia. replace (acc_size o + d.2 - acc_size o) with (d.2) by lia.
    cbn [abs_fee size_of foldr] in Hf, Hs. fold (abs_fee ds) in Hf. fold (size_of ds) in Hs.
    pose proof (abs_fee_nonneg ds). apply Forall_cons in Hpos as [_ Hpos]. pose proof (size_of_nonneg ds Hpos).
    rewrite (sat_i128_id d.1) by (unfold bound in *; lia). rewrite Z.max_r by lia.
    bfalse (ps - acc_size o =? 0). bfalse (d.2 =? 0). cbn [orb]. rewrite !fee_mul_id by (unfold bound in *; lia).
    pose proof (inject_pos _ Hd).
    apply compares_scaled with (inject_Z (acc_fee o)) (inject_Z d.2); [done| |].
    + rewrite inject_Z_mult. unfold Zminus, Qminus. rewrite inject_Z_plus, inject_Z_opp. ring.
    + rewrite Hv, inject_Z_mult. field. lra.
Qed.

(** ** Between two points *)

Definition linear_on (f : Z -> Q) (p q : Z) : Prop :=
  exists k m, forall x, p <= x <= q -> (f x == k + m * inject_Z x)%Q.

Lemma linear_above f g p q x :
  linear_on f p q -> linear_on g p q -> p <= x <= q -> (g x < f x)%Q -> (g p < f p)%Q \/ (g q < f q)%Q.
Proof.
  intros (k & m & Hf) (k' & m' & Hg) Hx H.
  pose proof (Hf x Hx) as Fx. pose proof (Hg x Hx) as Gx.
  pose proof (Hf p ltac:(lia)) as Fp. pose proof (Hg p ltac:(lia)) as Gp.
  pose proof (Hf q ltac:(lia)) as Fq. pose proof (Hg q ltac:(lia)) as Gq.
  assert (H1 : (inject_Z p <= inject_Z x)%Q) by (rewrite <- Zle_Qle; lia).
  assert (H2 : (inject_Z x <= inject_Z q)%Q) by (rewrite <- Zle_Qle; lia).
  destruct (Qlt_le_dec (g p) (f p)) as [|Hp]; [by left|]. right.
  destruct (Qlt_le_dec (m - m') 0) as [Hm|Hm].
  - assert (0 <= (m' - m) * (inject_Z x - inject_Z p))%Q by (apply Qmult_le_0_compat; lra). lra.
  - assert (0 <= (m - m') * (inject_Z q - inject_Z x))%Q by (apply Qmult_le_0_compat; lra). lra.
Qed.

Lemma side_linear s p q :
  side_ok s -> acc_size s <= p -> p <= q -> match rest s with [] => True | d :: _ => q <= acc_size s + d.2 end ->
  linear_on (side_value s) p q.
Proof.
  intros (Hpos & _) H1 Hpq H2. unfold linear_on, side_value. destruct (rest s) as [|[f z] d].
  - exists (inject_Z (acc_fee s)), 0%Q. intros x Hx. simpl. lra.
  - apply Forall_cons in Hpos as [Hz Hpos]. simpl in Hz, H2. pose proof (inject_pos z Hz).
    exists (inject_Z (acc_fee s) - inject_Z f * inject_Z (acc_size s) / inject_Z z)%Q, (inject_Z f / inject_Z z)%Q.
    intros x Hx. rewrite diagram_linear by (done || lia). unfold Zminus. rewrite inject_Z_plus, inject_Z_opp. field. lra.
Qed.

Lemma advance_value s c cs x : side_ok s -> rest s = c :: cs -> acc_size s + c.2 <= x ->
  (side_value (advance s c cs) x == side_value s x)%Q.
Proof.
  intros Hok E Hx. destruct (advance_ok s c cs Hok E) as (E1 & E2 & Hc & _). unfold side_value. simpl. rewrite E1, E2, E.
  destruct c as [f z]. rewrite diagram_beyond by (simpl in *; lia). simpl.
  rewrite inject_Z_plus. replace (x - acc_size s - z) with (x - (acc_size s + z)) by lia. lra.
Qed.

(** ** The loop *)

(** Both sides have been compared up to [p], and their next points come later. *)
Definition next_after (s : side) (p : Z) : Prop :=
  acc_size s <= p /\ match rest s with [] => True | d :: _ => p < acc_size s + d.2 end.

Definition above (f g : Z -> Q) (p : Z) : Prop := exists x, p <= x /\ (g x < f x)%Q.

Record stepped (s o s' o' : side) (ps : Z) : Prop := {
  st_ok : side_ok s' /\ side_ok o';
  st_next : next_after s' ps /\ next_after o' ps;
  st_values : forall x, ps <= x -> (side_value s' x == side_value s x)%Q /\ (side_value o' x == side_value o x)%Q;
  st_better : better s' = true <-> better s = true \/ (side_value o ps < side_value s ps)%Q;
  st_other : better o' = true <-> better o = true \/ (side_value s ps < side_value o ps)%Q;
  st_length : (length (rest s') + length (rest o') < length (rest s) + length (rest o))%nat;
}.

(** The other side, which moves on when its next point has the same size. *)
Definition other_side (o : side) (ps : Z) : side :=
  match rest o with [] => o | d :: ds => if next_size o d =? ps then advance o d ds else o end.

Lemma other_side_spec o ps :
  side_ok o -> in_step ps o ->
  side_ok (other_side o ps) /\ next_after (other_side o ps) ps /\ better (other_side o ps) = better o /\
  (forall x, ps <= x -> (side_value (other_side o ps) x == side_value o x)%Q) /\
  (length (rest (other_side o ps)) <= length (rest o))%nat.
Proof.
  intros Ho [Hin1 Hin2]. unfold other_side, next_after. destruct (rest o) as [|d ds] eqn:Er.
  { rewrite Er. split_and!; (done || lia). }
  destruct (advance_ok o d ds Ho Er) as (F1 & F2 & Hd & Ho1). rewrite F2.
  destruct (Z.eqb_spec (acc_size o + d.2) ps) as [Heq|Hne]; [|rewrite Er; split_and!; (done || lia)].
  split; [done|]. split; [|split; [done|split; [|simpl; lia]]].
  - simpl. rewrite F2. split; [lia|]. destruct ds as [|d' ds]; [done|].
    destruct Ho1 as (Hp & _). apply Forall_cons in Hp as [Hp _]. lia.
  - intros x Hx. apply advance_value; [done|done|lia].
Qed.

Lemma diagram_step_eq s c cs o :
  diagram_step s c cs o =
  let cmp := match rest o with
     | [] => compare_fee_rate (fee_sub (next_fee s c) (acc_fee o)) (sat_sub (next_size s c) (acc_size o)) 0 1
     | d :: _ => compare_fee_rate (fee_sub (next_fee s c) (acc_fee o)) (sat_sub (next_size s c) (acc_size o))
                   (fee_sub (next_fee o d) (acc_fee o)) (sat_sub (next_size o d) (acc_size o))
     end in
  (set_better (match cmp with Gt => true | _ => false end) (advance s c cs),
   set_better (match cmp with Lt => true | _ => false end) (other_side o (next_size s c))).
Proof. unfold diagram_step, other_side. by destruct (rest o). Qed.

Lemma diagram_step_spec s c cs o ps s' o' :
  side_ok s -> side_ok o -> rest s = c :: cs -> ps = acc_size s + c.2 -> in_step ps o ->
  diagram_step s c cs o = (s', o') -> stepped s o s' o' ps.
Proof.
  intros Hs Ho E -> Hin. destruct (advance_ok s c cs Hs E) as (E1 & E2 & Hc & Hs1).
  rewrite diagram_step_eq, E1, E2. cbn zeta.
  assert (Hb : Z.abs (acc_fee s + c.1) < bound /\ 0 <= acc_size s + c.2 < bound).
  { destruct Hs1 as (Hp & H1 & H2 & H3). simpl in Hp, H1, H2, H3. rewrite E1 in H2. rewrite E2 in H1, H3.
    pose proof (abs_fee_nonneg cs). pose proof (size_of_nonneg cs Hp). lia. }
  pose proof (step_compares o (acc_fee s + c.1) (acc_size s + c.2) Ho Hin (proj1 Hb) (proj2 Hb)) as Hcmp.
  assert (Hv : (side_value s (acc_size s + c.2) == inject_Z (acc_fee s + c.1))%Q).
  { rewrite <- (advance_value s c cs) by (done || lia). unfold side_value. simpl. rewrite E1, E2, Z.sub_diag.
    rewrite diagram_0 by apply Hs1. lra. }
  destruct (other_side_spec o (acc_size s + c.2) Ho Hin) as (Ho1 & Hn1 & Hb1 & Hv1 & Hl1).
  intros [= <- <-]. split; simpl.
  - done.
  - split; [|done]. unfold next_after. simpl. rewrite E2. split; [lia|]. destruct cs as [|c' cs]; [done|].
    destruct Hs1 as (Hp & _). apply Forall_cons in Hp as [Hp _]. lia.
  - intros x Hx. split; [by apply (advance_value s c cs)|by apply Hv1].
  - rewrite Hv, orb_true_iff. destruct Hcmp as [H|H|H]; split; intros [?|?]; try tauto; try done; lra.
  - rewrite Hb1, Hv, orb_true_iff. destruct Hcmp as [H|H|H]; split; intros [?|?]; try tauto; try done; lra.
  - rewrite E. simpl. lia.
Qed.

Lemma above_split f g p q : p <= q -> linear_on f p q -> linear_on g p q ->
  above f g p <-> (g p < f p)%Q \/ above f g q.
Proof.
  intros Hpq Hf Hg. split.
  - intros (x & Hx & H). destruct (Z_le_gt_dec x q) as [Hle|Hgt]; [|right; exists x; split; [lia|done]].
    destruct (linear_above f g p q x Hf Hg ltac:(lia) H) as [?|?]; [by left|]. right. exists q. split; [lia|done].
  - intros [H|(x & Hx & H)]; [by exists p|]. exists x. split; [lia|done].
Qed.

Lemma above_ext f g f' g' p :
  (forall x, p <= x -> (f' x == f x)%Q /\ (g' x == g x)%Q) -> above f' g' p <-> above f g p.
Proof.
  intros H. split; intros (x & Hx & Hlt); exists x; (split; [done|]); destruct (H x Hx) as [Hf Hg]; lra.
Qed.

(** What has been or will be seen of [s] paying more than [o]. *)
Definition seen (s o : side) (p : Z) : Prop := better s = true \/ above (side_value s) (side_value o) p.

(** The flags cover what happens at [p]. *)
Definition covered (s o : side) (p : Z) : Prop := (side_value o p < side_value s p)%Q -> better s = true.

Lemma stepped_seen s o s' o' p ps :
  side_ok s -> side_ok o -> next_after s p -> next_after o p -> in_step ps o ->
  match rest s with [] => False | c :: _ => ps = acc_size s + c.2 end ->
  covered s o p -> covered o s p -> stepped s o s' o' ps ->
  (seen s' o' ps <-> seen s o p) /\ (seen o' s' ps <-> seen o s p) /\ covered s' o' ps /\ covered o' s' ps.
Proof.
  intros Hs Ho [Hs1 Hs2] [Ho1 Ho2] [Hi1 Hi2] Hps Hc Hc' [_ _ Hv Hb Hb' _].
  assert (Hp : p <= ps) by (destruct (rest s); [done|]; lia).
  assert (Ls : linear_on (side_value s) p ps) by (apply side_linear; [done|done|done|destruct (rest s); [done|lia]]).
  assert (Lo : linear_on (side_value o) p ps) by (by apply side_linear).
  assert (Hsym : forall x, ps <= x -> (side_value o' x == side_value o x)%Q /\ (side_value s' x == side_value s x)%Q)
    by (intros x Hx; destruct (Hv x Hx); done).
  destruct (Hv ps ltac:(lia)) as [Vs Vo].
  unfold seen, covered in *. rewrite (above_ext _ _ _ _ _ Hv), (above_ext _ _ _ _ _ Hsym).
  rewrite (above_split _ _ p ps Hp Ls Lo), (above_split _ _ p ps Hp Lo Ls), Hb, Hb'.
  assert (Ha : (side_value o ps < side_value s ps)%Q -> above (side_value s) (side_value o) ps) by (exists ps; split; [lia|done]).
  assert (Ha' : (side_value s ps < side_value o ps)%Q -> above (side_value o) (side_value s) ps) by (exists ps; split; [lia|done]).
  split; [tauto|]. split; [tauto|]. split; intros H; right; lra.
Qed.

Definition loop_result (res : option (bool * bool)) (l r : side) (p : Z) : Prop :=
  match res with
  | Some (bl, br) => (bl = true <-> seen l r p) /\ (br = true <-> seen r l p) /\ bl && br = false
  | None => seen l r p /\ seen r l p
  end.

Lemma loop_result_ext res l r p l' r' p' :
  (seen l' r' p' <-> seen l r p) -> (seen r' l' p' <-> seen r l p) -> loop_result res l' r' p' -> loop_result res l r p.
Proof. intros H1 H2. destruct res as [[bl br]|]; simpl; tauto. Qed.

Lemma loop_end l r p :
  rest l = [] -> rest r = [] -> covered l r p -> covered r l p -> better l && better r = false ->
  loop_result (Some (better l, better r)) l r p.
Proof.
  intros El Er Cl Cr Hb. simpl. unfold seen, above, covered, side_value in *. rewrite El, Er in *. simpl in *.
  split_and!; [split; [tauto|]|split; [tauto|]|done]; intros [?|(x & _ & ?)]; try done; auto.
Qed.

(** One turn, from either side. *)
Record turned (s o s' o' : side) (p ps : Z) : Prop := {
  tn_seen : seen s' o' ps <-> seen s o p;
  tn_other : seen o' s' ps <-> seen o s p;
  tn_covered : covered s' o' ps /\ covered o' s' ps;
  tn_ok : side_ok s' /\ side_ok o';
  tn_next : next_after s' ps /\ next_after o' ps;
  tn_length : (length (rest s') + length (rest o') < length (rest s) + length (rest o))%nat;
}.

Lemma diagram_turn s c cs o s' o' p ps :
  side_ok s -> side_ok o -> next_after s p -> next_after o p -> covered s o p -> covered o s p ->
  rest s = c :: cs -> ps = acc_size s + c.2 -> in_step ps o -> diagram_step s c cs o = (s', o') ->
  turned s o s' o' p ps.
Proof.
  intros Hs Ho Ns No Cs Co E Eps Hin Ed.
  pose proof (diagram_step_spec _ _ _ _ _ _ _ Hs Ho E Eps Hin Ed) as Hst.
  destruct (stepped_seen s o s' o' p ps) as (S1 & S2 & C1 & C2); [done..|by rewrite E|done|done|done|].
  by destruct Hst.
Qed.

Lemma turned_left fuel l r l' r' p ps :
  turned l r l' r' p ps ->
  (better l' && better r' = false -> loop_result (diagram_loop fuel l' r') l' r' ps) ->
  loop_result (if better l' && better r' then None else diagram_loop fuel l' r') l r p.
Proof.
  intros [S1 S2 _ _ _ _] IH. apply (loop_result_ext _ l r p l' r' ps); [done|done|].
  destruct (better l' && better r') eqn:Eb; [|by apply IH]. apply andb_true_iff in Eb as []; split; by left.
Qed.

Lemma turned_right fuel l r l' r' p ps :
  turned r l r' l' p ps ->
  (better l' && better r' = false -> loop_result (diagram_loop fuel l' r') l' r' ps) ->
  loop_result (if better l' && better r' then None else diagram_loop fuel l' r') l r p.
Proof.
  intros [S1 S2 _ _ _ _] IH. apply (loop_result_ext _ l r p l' r' ps); [done|done|].
  destruct (better l' && better r') eqn:Eb; [|by apply IH]. apply andb_true_iff in Eb as []; split; by left.
Qed.

Lemma diagram_loop_spec fuel l r p :
  (length (rest l) + length (rest r) <= fuel)%nat -> side_ok l -> side_ok r -> next_after l p -> next_after r p ->
  covered l r p -> covered r l p -> better l && better r = false ->
  loop_result (diagram_loop fuel l r) l r p.
Proof.
  revert l r p. induction fuel as [|fuel IH]; intros l r p Hfuel Hl Hr Nl Nr Cl Cr Hb.
  { apply loop_end; [apply nil_length_inv; lia..|done|done|done]. }
  cbn [diagram_loop].
  assert (Hleft : forall c cs ps l' r', rest l = c :: cs -> ps = acc_size l + c.2 -> in_step ps r ->
    diagram_step l c cs r = (l', r') ->
    loop_result (if better l' && better r' then None else diagram_loop fuel l' r') l r p).
  { intros c cs ps l' r' E Eps Hin Ed. assert (T : turned l r l' r' p ps) by (by apply (diagram_turn l c cs r)).
    apply (turned_left _ _ _ _ _ _ ps T). destruct T as [_ _ [] [] [] ?]. intros ?. apply IH; (done || lia). }
  assert (Hright : forall c cs ps r' l', rest r = c :: cs -> ps = acc_size r + c.2 -> in_step ps l ->
    diagram_step r c cs l = (r', l') ->
    loop_result (if better l' && better r' then None else diagram_loop fuel l' r') l r p).
  { intros c cs ps r' l' E Eps Hin Ed. assert (T : turned r l r' l' p ps) by (by apply (diagram_turn r c cs l)).
    apply (turned_right _ _ _ _ _ _ ps T). destruct T as [_ _ [] [] [] ?]. intros ?. apply IH; (done || lia). }
  destruct Nl as [Nl1 Nl2], Nr as [Nr1 Nr2].
  destruct (rest l) as [|lc lcs] eqn:El, (rest r) as [|rc rcs] eqn:Er; [by apply loop_end|..].
  - destruct (diagram_step r rc rcs l) as [r' l'] eqn:Ed.
    apply (Hright rc rcs (acc_size r + rc.2)); [done|done|split; [lia|by rewrite El]|done].
  - destruct (diagram_step l lc lcs r) as [l' r'] eqn:Ed.
    apply (Hleft lc lcs (acc_size l + lc.2)); [done|done|split; [lia|by rewrite Er]|done].
  - destruct (advance_ok l lc lcs Hl El) as (_ & -> & _), (advance_ok r rc rcs Hr Er) as (_ & -> & _).
    destruct (Z.ltb_spec (acc_size r + rc.2) (acc_size l + lc.2)) as [Hlt|Hge].
    + destruct (diagram_step r rc rcs l) as [r' l'] eqn:Ed.
      apply (Hright rc rcs (acc_size r + rc.2)); [done|done|split; [lia|rewrite El; lia]|done].
    + destruct (diagram_step l lc lcs r) as [l' r'] eqn:Ed.
      apply (Hleft lc lcs (acc_size l + lc.2)); [done|done|split; [lia|rewrite Er; lia]|done].
Qed.

Definition pays_more (left right : list chunk) : Prop := above (diagram left) (diagram right) 0.

(** C35: The comparison of two fee-rate diagrams is the comparison of the fee
    curves they describe.  It answers that the left diagram is better exactly
    when no size pays less under it and some size pays more, that they are
    equal exactly when the curves agree everywhere, and that they cross
    exactly when each pays more at some size; it never stops early. *)
Theorem compare_diagrams_correct (left right : list chunk) (Hl : chunks_ok left) (Hr : chunks_ok right) :
  (compare_fee_rate_diagrams left right = Some Gt <-> pays_more left right /\ ~ pays_more right left) /\
  (compare_fee_rate_diagrams left right = Some Lt <-> pays_more right left /\ ~ pays_more left right) /\
  (compare_fee_rate_diagrams left right = Some Eq <-> ~ pays_more left right /\ ~ pays_more right left) /\
  (compare_fee_rate_diagrams left right = None <-> pays_more left right /\ pays_more right left).
Proof.
  unfold compare_fee_rate_diagrams.
  set (start d := {| rest := d; acc_fee := 0; acc_size := 0; better := false |}).
  assert (Hok : forall d, chunks_ok d -> side_ok (start d) /\ next_after (start d) 0).
  { intros d (Hp & Hf & Hs). split; [by split|]. split; [simpl; lia|]. simpl. destruct d; [done|].
    apply Forall_cons in Hp as [Hp _]. lia. }
  assert (Hval : forall d x, (side_value (start d) x == diagram d x)%Q).
  { intros d x. unfold side_value. simpl. rewrite Z.sub_0_r. change (inject_Z 0) with 0%Q. lra. }
  assert (Hseen : forall d e, seen (start d) (start e) 0 <-> pays_more d e).
  { intros d e. unfold seen, pays_more. rewrite (above_ext (diagram d) (diagram e)) by (intros; split; apply Hval).
    simpl. split; [by intros [?|?]|tauto]. }
  assert (Hcov : forall d e, chunks_ok d -> chunks_ok e -> covered (start d) (start e) 0).
  { intros d e (Hd & _) (He & _). unfold covered. rewrite !Hval, !diagram_0 by done. lra. }
  destruct (Hok left Hl) as [L1 L2], (Hok right Hr) as [R1 R2].
  pose proof (diagram_loop_spec (length left + length right) (start left) (start right) 0 ltac:(simpl; lia) L1 R1 L2 R2
    (Hcov _ _ Hl Hr) (Hcov _ _ Hr Hl) eq_refl) as H.
  destruct (diagram_loop _ _ _) as [[bl br]|]; simpl in H; rewrite !Hseen in H.
  - destruct H as (H1 & H2 & H3). destruct bl, br; try done; simpl; intuition (try done; try congruence).
  - intuition done.
Qed.

(** ** Building chunks *)

Lemma size_of_app a b : size_of (a ++ b) = size_of a + size_of b.
Proof. induction a as [|c a IH]; simpl; [done|]. rewrite IH. lia. Qed.
Lemma fee_of_app a b : fee_of (a ++ b) = fee_of a + fee_of b.
Proof. induction a as [|c a IH]; simpl; [done|]. rewrite IH. lia. Qed.
Lemma abs_fee_app a b : abs_fee (a ++ b) = abs_fee a + abs_fee b.
Proof. induction a as [|c a IH]; simpl; [done|]. rewrite IH. lia. Qed.

Lemma diagram_app a b x :
  Forall (fun c => 0 < c.2) a -> 0 <= x ->
  (diagram (a ++ b) x ==
   if x <? size_of a then diagram a x else inject_Z (fee_of a) + diagram b (x - size_of a))%Q.
Proof.
  intros Ha. revert x. induction Ha as [|[f s] a Hs Ha IH]; intros x Hx.
  { simpl. bfalse (x <? 0). change (inject_Z 0) with 0%Q. rewrite Z.sub_0_r. lra. }
  simpl in Hs. pose proof (size_of_nonneg a Ha). cbn [app diagram size_of fee_of foldr fst snd].
  fold (size_of a) (fee_of a). destruct (Z.ltb_spec x s); [by btrue (x <? s + size_of a)|].
  rewrite IH by lia. destruct (Z.ltb_spec (x - s) (size_of a)).
  - btrue (x <? s + size_of a). reflexivity.
  - bfalse (x <? s + size_of a). rewrite inject_Z_plus. replace (x - s - size_of a) with (x - (s + size_of a)) by lia. lra.
Qed.

(** [b] pays at least as much as [a] for every size. *)
Definition pays_at_least (b a : list chunk) : Prop := forall x, 0 <= x -> (diagram a x <= diagram b x)%Q.

Lemma pays_refl a : pays_at_least a a.
Proof. intros x _. lra. Qed.
Lemma pays_trans a b c : pays_at_least a b -> pays_at_least b c -> pays_at_least a c.
Proof. intros H1 H2 x Hx. specialize (H1 x Hx). specialize (H2 x Hx). lra. Qed.

Lemma pays_app_l p a b : Forall (fun c => 0 < c.2) p -> pays_at_least b a -> pays_at_least (p ++ b) (p ++ a).
Proof.
  intros Hp H x Hx. rewrite !diagram_app by done. destruct (Z.ltb_spec x (size_of p)); [lra|].
  specialize (H (x - size_of p) ltac:(lia)). lra.
Qed.

Lemma pays_app_r a b t :
  Forall (fun c => 0 < c.2) a -> Forall (fun c => 0 < c.2) b -> size_of a = size_of b -> fee_of a = fee_of b ->
  pays_at_least b a -> pays_at_least (b ++ t) (a ++ t).
Proof.
  intros Ha Hb Es Ef H x Hx. rewrite !diagram_app by done. rewrite Es, Ef.
  destruct (Z.ltb_spec x (size_of b)); [by apply H|lra].
Qed.

(** Merging a chunk with a better one after it only gains. *)
Lemma merge_pays lf ls rf rs :
  0 < ls -> 0 < rs -> lf * rs < rf * ls -> pays_at_least [(lf + rf, ls + rs)] [(lf, ls); (rf, rs)].
Proof.
  intros Hl Hr Hlt x Hx. pose proof (inject_pos ls Hl) as Ql. pose proof (inject_pos rs Hr) as Qr.
  rewrite Zlt_Qlt, !inject_Z_mult in Hlt.
  destruct (Z_le_gt_dec x (ls + rs)) as [Hle|Hgt]; swap 1 2.
  { rewrite !diagram_beyond by lia. simpl. rewrite inject_Z_plus. lra. }
  assert (Qx : (0 <= inject_Z x)%Q) by (change 0%Q with (inject_Z 0); rewrite <- Zle_Qle; lia).
  assert (Qs : (inject_Z x <= inject_Z ls + inject_Z rs)%Q) by (rewrite <- inject_Z_plus, <- Zle_Qle; lia).
  pose proof (diagram_linear (lf + rf) (ls + rs) [] x ltac:(lia) ltac:(lia) ltac:(constructor)) as Em.
  rewrite !inject_Z_plus in Em. set (gain := (inject_Z rf * inject_Z ls - inject_Z lf * inject_Z rs)%Q).
  assert (Hgain : (0 <= gain)%Q) by (unfold gain; lra).
  set (dm := diagram [(lf + rf, ls + rs)] x) in *.
  destruct (Z_le_gt_dec x ls) as [Hxl|Hxl].
  - pose proof (diagram_linear lf ls [(rf, rs)] x ltac:(lia) Hl ltac:(repeat constructor; done)) as El.
    assert (E : (dm - diagram [(lf, ls); (rf, rs)] x
                 == inject_Z x * gain / (inject_Z ls * (inject_Z ls + inject_Z rs)))%Q)
      by (rewrite Em, El; unfold gain; field; lra).
    assert (0 <= inject_Z x * gain / (inject_Z ls * (inject_Z ls + inject_Z rs)))%Q; [|lra].
    apply Qle_shift_div_l; [apply Qmult_lt_0_compat; lra|]. rewrite Qmult_0_l. by apply Qmult_le_0_compat.
  - rewrite diagram_beyond by lia.
    pose proof (diagram_linear rf rs [] (x - ls) ltac:(lia) Hr ltac:(constructor)) as Er.
    unfold Zminus in Er. rewrite inject_Z_plus, inject_Z_opp in Er.
    assert (E : (dm - (inject_Z lf + diagram [(rf, rs)] (x + - ls)%Z)
                 == (inject_Z ls + inject_Z rs - inject_Z x) * gain / (inject_Z rs * (inject_Z ls + inject_Z rs)))%Q)
      by (rewrite Em, Er; unfold gain; field; lra).
    assert (0 <= (inject_Z ls + inject_Z rs - inject_Z x) * gain / (inject_Z rs * (inject_Z ls + inject_Z rs)))%Q.
    { apply Qle_shift_div_l; [apply Qmult_lt_0_compat; lra|]. rewrite Qmult_0_l. apply Qmult_le_0_compat; lra. }
    unfold Zminus. lra.
Qed.

(** The chunk before ([l]) does not pay less than the chunk after ([r]). *)
Definition not_better (r l : chunk) : Prop := compare_fee_rate l.1 l.2 r.1 r.2 <> Lt.

Definition total (d : list chunk) : chunk := (fee_of d, size_of d).

Definition positive (d : list chunk) : Prop := Forall (fun c => 0 < c.2) d.

Lemma compare_rate_id lf ls rf rs :
  0 < ls < bound -> 0 < rs < bound -> Z.abs lf < bound -> Z.abs rf < bound ->
  compare_fee_rate lf ls rf rs = (lf * rs ?= rf * ls).
Proof.
  intros Hl Hr Hf Hg. unfold compare_fee_rate. bfalse (ls =? 0). bfalse (rs =? 0). cbn [orb].
  by rewrite !fee_mul_id by (unfold bound in *; lia).
Qed.

(** The loop merges the last chunk with a run [R1] of the chunks before it;
    lists are last first. *)
Lemma merge_last_spec r R :
  positive (r :: R) -> abs_fee (r :: R) < bound -> size_of (r :: R) < bound ->
  exists R1 R2, R = R1 ++ R2 /\ merge_last r R = total (r :: R1) :: R2 /\
    pays_at_least (rev (merge_last r R)) (rev (r :: R)) /\ (Sorted not_better R -> Sorted not_better (merge_last r R)).
Proof.
  revert r. induction R as [|l R IH]; intros [rf rs] Hpos Hf Hs; cbn [merge_last].
  { exists [], []. split; [done|]. split; [by unfold total; simpl; rewrite !Z.add_0_r|]. split; [apply pays_refl|].
    by repeat constructor. }
  destruct l as [lf ls]. cbn [fst snd].
  apply Forall_cons in Hpos as [Hr Hpos]. apply Forall_cons in Hpos as [Hl Hpos]. cbn [fst snd] in Hr, Hl.
  cbn [abs_fee size_of foldr fst snd] in Hf, Hs. fold (abs_fee R) in Hf. fold (size_of R) in Hs.
  pose proof (abs_fee_nonneg R). pose proof (size_of_nonneg R Hpos).
  assert (Ec : compare_fee_rate lf ls rf rs = (lf * rs ?= rf * ls)) by (apply compare_rate_id; lia).
  destruct (Z.compare_spec (lf * rs) (rf * ls)) as [Hc|Hc|Hc]; rewrite Ec.
  2: { assert (E1 : fee_add lf rf = lf + rf) by (apply sat_i128_id; unfold bound in *; lia).
       assert (E2 : sat_add 64 ls rs = ls + rs) by (unfold sat_add, umax, bound in *; lia). rewrite E1, E2.
       destruct (IH (lf + rf, ls + rs)) as (R1 & R2 & -> & Em & Hp & Hsort).
       { constructor; [simpl; lia|done]. } { cbn. fold (abs_fee R). lia. } { cbn. fold (size_of R). lia. }
       exists ((lf, ls) :: R1), R2. split; [done|]. split; [|split].
       - rewrite Em. f_equal. unfold total. simpl. f_equal; lia.
       - eapply pays_trans; [done|]. cbn [rev]. rewrite <- app_assoc. cbn [app].
         apply pays_app_l; [by apply Forall_rev|by apply merge_pays].
       - intros Hsd. apply Hsort. by apply Sorted_inv in Hsd as [? _]. }
  all: exists [], ((lf, ls) :: R); split; [done|]; split; [by unfold total; simpl; rewrite !Z.add_0_r|].
  all: split; [apply pays_refl|]; intros Hsd; constructor; [done|]; constructor; unfold not_better; cbn [fst snd]; by rewrite Ec.
Qed.

(** ** A whole ordering *)

Definition build_chunks (order : list chunk) : list chunk :=
  foldl (fun chunks c => append_feerate_chunk chunks c.1 c.2) [] order.

(** The chunks are the totals of consecutive non-empty groups. *)
Definition groups_of (chunks order : list chunk) (groups : list (list chunk)) : Prop :=
  concat groups = order /\ chunks = map total groups /\ Forall (fun g => g <> []) groups.

Lemma total_positive g : positive g -> g <> [] -> 0 < (total g).2.
Proof. intros H Hne. destruct H as [|c g Hc Hg]; [done|]. pose proof (size_of_nonneg g Hg). simpl. lia. Qed.

Lemma groups_totals chunks order groups :
  groups_of chunks order groups -> positive order ->
  positive chunks /\ size_of chunks = size_of order /\ fee_of chunks = fee_of order /\ abs_fee chunks <= abs_fee order.
Proof.
  intros (<- & -> & Hne). induction Hne as [|g groups Hg Hne IH]; intros Hpos; [by repeat split|]. cbn [concat map] in *.
  apply Forall_app in Hpos as [Hp Hpos]. destruct (IH Hpos) as (H1 & H2 & H3 & H4).
  rewrite size_of_app, fee_of_app, abs_fee_app. split; [constructor; [by apply total_positive|done]|].
  cbn [size_of fee_of abs_fee foldr total fst snd]. fold (size_of (map total groups)) (fee_of (map total groups)) (abs_fee (map total groups)).
  assert (Z.abs (fee_of g) <= abs_fee g) by (clear; induction g; simpl; lia). lia.
Qed.

Lemma fee_of_rev d : fee_of (rev d) = fee_of d.
Proof. induction d as [|c d IH]; simpl; [done|]. rewrite fee_of_app, IH. simpl. lia. Qed.
Lemma size_of_rev d : size_of (rev d) = size_of d.
Proof. induction d as [|c d IH]; simpl; [done|]. rewrite size_of_app, IH. simpl. lia. Qed.
Lemma abs_fee_rev d : abs_fee (rev d) = abs_fee d.
Proof. induction d as [|c d IH]; simpl; [done|]. rewrite abs_fee_app, IH. simpl. lia. Qed.

Lemma total_concat groups : total (concat groups) = total (map total groups).
Proof.
  induction groups as [|g groups IH]; [done|]. unfold total in *. cbn [concat map].
  injection IH as Ef Es. rewrite fee_of_app, size_of_app, Ef, Es. done.
Qed.

(** One more transaction at the end of the order. *)
Lemma append_groups chunks order groups c :
  groups_of chunks order groups -> positive (order ++ [c]) -> abs_fee (order ++ [c]) < bound ->
  size_of (order ++ [c]) < bound -> Sorted not_better (rev chunks) -> pays_at_least chunks order ->
  let chunks' := append_feerate_chunk chunks c.1 c.2 in
  exists groups', groups_of chunks' (order ++ [c]) groups' /\ Sorted not_better (rev chunks') /\
    pays_at_least chunks' (order ++ [c]).
Proof.
  intros Hg Hpos Hf Hs Hsort Hpay. pose proof Hpos as [Hpo Hpc]%Forall_app. apply Forall_cons in Hpc as [Hc _].
  destruct (groups_totals _ _ _ Hg Hpo) as (Hp & Es & Ef & Ha).
  rewrite abs_fee_app in Hf. rewrite size_of_app in Hs. cbn [abs_fee size_of foldr] in Hf, Hs.
  fold (abs_fee order) in Hf. fold (size_of order) in Hs.
  destruct (merge_last_spec c (rev chunks)) as (R1 & R2 & ER & Em & Hmp & Hms).
  { constructor; [done|by apply Forall_rev]. }
  { cbn [abs_fee foldr]. fold (abs_fee (rev chunks)). rewrite abs_fee_rev. lia. }
  { cbn [size_of foldr]. fold (size_of (rev chunks)). rewrite size_of_rev. lia. }
  unfold append_feerate_chunk. bfalse (c.2 =? 0). destruct c as [cf cz]. cbn [fst snd] in *.
  assert (EC : chunks = rev R2 ++ rev R1) by (by rewrite <- rev_app_distr, <- ER, rev_involutive).
  destruct Hg as (<- & Eg & Hne). rewrite EC in Eg. symmetry in Eg. apply map_eq_app in Eg as (G2 & G1 & -> & EG2 & EG1).
  exists (G2 ++ [concat G1 ++ [(cf, cz)]]). split; [split; [|split]|split].
  - rewrite !concat_app. simpl. by rewrite app_nil_r, app_assoc.
  - rewrite Em, map_app, EG2. cbn [rev map]. f_equal. f_equal. unfold total.
    pose proof (total_concat G1) as Et. rewrite EG1 in Et. unfold total in Et. rewrite fee_of_rev, size_of_rev in Et.
    injection Et as E1 E2. rewrite fee_of_app, size_of_app, E1, E2. simpl. f_equal; lia.
  - apply Forall_app in Hne as [Hne2 _]. apply Forall_app. split; [done|]. constructor; [by destruct (concat G1)|done].
  - rewrite rev_involutive. by apply Hms.
  - eapply pays_trans; [exact Hmp|]. cbn [rev]. rewrite rev_involutive.
    apply pays_app_r; [done|done|by rewrite Es|by rewrite Ef|done].
Qed.

(** Chunking an order of transactions gives its best curve: the chunks
    are totals of consecutive runs of the order, none pays less per size than
    the one after it, and for every size the chunks pay at least what the
    order itself pays. *)
Theorem chunks_correct (order : list chunk) (Hok : chunks_ok order) :
  exists groups, groups_of (build_chunks order) order groups /\
    Sorted not_better (rev (build_chunks order)) /\ pays_at_least (build_chunks order) order.
Proof.
  destruct Hok as (Hpos & Hf & Hs). change (abs_fee order < bound) in Hf. change (size_of order < bound) in Hs.
  induction order as [|c order IH] using rev_ind.
  { exists []. split; [by repeat split|]. split; [constructor|apply pays_refl]. }
  pose proof Hpos as [Hpo Hpc]%Forall_app. apply Forall_cons in Hpc as [Hc _].
  pose proof Hf as Hf'. rewrite abs_fee_app in Hf'. pose proof Hs as Hs'. rewrite size_of_app in Hs'.
  cbn [abs_fee size_of foldr] in Hf', Hs'. fold (abs_fee order) in Hf'. fold (size_of order) in Hs'.
  destruct IH as (groups & Hg & Hsort & Hpay); [done|lia|lia|].
  unfold build_chunks. rewrite foldl_app. cbn [foldl]. fold (build_chunks order).
  by apply (append_groups _ _ groups).
Qed.

(** The fee computed for a rate is the least fee that meets it. *)
Lemma fee_for_rate_least fee vsize rate :
  Z.abs fee < 2 ^ 60 -> 0 <= vsize < 2 ^ 60 -> 0 <= rate < 2 ^ 60 ->
  fee_rate_meets fee vsize rate = (fee_for_rate rate vsize <=? fee).
Proof.
  intros Hf Hv Hr. unfold fee_rate_meets, fee_for_rate. rewrite fee_mul_id by lia.
  assert (0 <= rate * vsize) by nia. rewrite Z.quot_div_nonneg by lia. set (p := rate * vsize) in *.
  destruct (Z.leb_spec p (fee * 1000)), (Z.leb_spec ((p + 999) / 1000) fee); dlia.
Qed.

(** ** Examples *)

(** A cheap parent with a child that pays for it, against two plain ones. *)
Definition cpfp_order : list chunk := [(100, 200); (900, 100); (100, 100)].
Definition plain_order : list chunk := [(300, 200); (200, 200)].

Lemma chunks_ok_dec d :
  forallb (fun c => 0 <? c.2) d && (abs_fee d <? bound) && (size_of d <? bound) = true -> chunks_ok d.
Proof.
  intros [[Hp Hf]%andb_true_iff Hs]%andb_true_iff. split; [|split; [by apply Z.ltb_lt|by apply Z.ltb_lt]].
  apply Forall_forall. intros c Hc. rewrite forallb_forall in Hp. apply Z.ltb_lt, Hp. by apply list_elem_of_In.
Qed.

Lemma compare_diagrams_correct_witness :
  pays_more (build_chunks cpfp_order) (build_chunks plain_order) /\
  ~ pays_more (build_chunks plain_order) (build_chunks cpfp_order).
Proof.
  apply (proj1 (compare_diagrams_correct (build_chunks cpfp_order) (build_chunks plain_order)
    (chunks_ok_dec (build_chunks cpfp_order) eq_refl) (chunks_ok_dec (build_chunks plain_order) eq_refl))). vm_compute. reflexivity.
Defined.

Lemma chunks_correct_witness :
  build_chunks cpfp_order = [(1000, 300); (100, 100)] /\
  exists groups, groups_of (build_chunks cpfp_order) cpfp_order groups /\
    Sorted not_better (rev (build_chunks cpfp_order)) /\ pays_at_least (build_chunks cpfp_order) cpfp_order.
Proof. split; [by vm_compute|]. exact (chunks_correct cpfp_order (chunks_ok_dec cpfp_order eq_refl)). Defined.
