(* ===== verification/Mempool.v ===== *)
(** * The mempool's state ([mempool.rs])

    The pool's entries and the indexes kept beside them: spent outpoints,
    children, witness ids, adjusted weights, relay sequences, the Electrum
    script indexes and the byte, virtual-byte and memory totals.  The
    operations that change them are modelled whole, and [check_consistency],
    the debug audit that recomputes every index from the entries, is the
    code's own statement of what they must preserve.

    A [HashMap] is a [gmap] and a [HashSet] a [gset]; the iteration order,
    which the standard library leaves open, is the class [HashOrder]. *)

From Stdlib Require Import ZArith Lia SpecFloat.
From stdpp Require Import base list option gmap sorting.
From S2P Require Import Prelude Types BlockChecks.
Local Open Scope Z_scope.
Local Open Scope sat_scope.

(** ** Interfaces *)

(** What the pool uses of [bitcoin], [sha2] and [hex]. *)
Class MempoolOps := {
  compute_wtxid : Transaction -> bytes;
  (** [transaction.weight().to_wu()] *)
  tx_weight : Transaction -> Z;
  sha256 : bytes -> bytes;
  hex_encode : bytes -> bytes;
}.

(** [size_of] of the types whose allocations are estimated. *)
Inductive sized :=
| SUsize | SI64 | STxid | SOutPoint | STransaction | STxIn | STxOut | SMempoolEntry
| SString | SVecString | SVecStringU64 | SStringU64 | SHashSetTxid.

Class Layout := { size_of : sized -> N }.

(** Iteration over a [HashMap] and a [HashSet]: every element once, in an
    order of the implementation's choice. *)
Class HashOrder := {
  map_iter {A} : gmap bytes A -> list (bytes * A);
  set_iter : gset bytes -> list bytes;
  map_iter_perm {A} (m : gmap bytes A) : map_iter m ≡ₚ map_to_list m;
  set_iter_perm (s : gset bytes) : set_iter s ≡ₚ elements s;
}.

(** ** Sorting ids: [Vec::sort] and [Vec::dedup] of byte strings *)

Definition sort_ids : list bytes -> list bytes := merge_sort bytes_le.
Fixpoint dedup (l : list bytes) : list bytes :=
  match l with
  | x :: l' =>
      match l' with
      | y :: _ => if bool_decide (x = y) then dedup l' else x :: dedup l'
      | [] => [x]
      end
  | [] => []
  end.

(** ** State *)

Record MempoolEntry := {
  transaction : Transaction;
  fee_sat : Z;
  vsize : Z;
  added_at : Z;
  entry_height : Z;
}.

Inductive MempoolChangeKind := Added | Removed (notify_zmq : bool).

Record MempoolChange := {
  change_transaction : Transaction;
  change_sequence : Z;
  change_kind : MempoolChangeKind;
  affected_script_hashes : option (list bytes);
}.

Inductive TrucPolicy := TrucReject | TrucAccept | TrucEnforce.
#[export] Instance TrucPolicy_eq_dec : EqDecision TrucPolicy.
Proof. solve_decision. Defined.

(** The fields of [MempoolPolicy] that the modelled operations read. *)
Record MempoolPolicy := {
  min_relay_fee_sat_per_kvb : Z;
  require_standard : bool;
  truc_policy : TrucPolicy;
  incremental_relay_fee_sat_per_kvb : Z;
  bytes_per_sigop : Z;
  cluster_count_limit : Z;
  cluster_vsize_limit : Z;
}.

(** [MempoolError], the reasons single-transaction admission returns. *)
Inductive MempoolError :=
| ErrCoinbase | ErrAlreadyPresent | ErrSameNonWitnessData (wtxid : bytes) | ErrAlreadyInChain
| ErrConflict (id : bytes) | ErrMissingInput (o : OutPoint) | ErrPrematureCoinbase | ErrDuplicateInput
| ErrNullPrevout | ErrEmptyInputs | ErrEmptyOutputs | ErrOversized | ErrNegativeOutput | ErrOutputTooLarge
| ErrOutputTotalTooLarge | ErrBadOutput | ErrNegativeFee | ErrFeeRate | ErrMinRelayFee
| ErrMinRelayFeeWithContext (fee needed : Z) | ErrScript | ErrNonStandard (reason : bytes) | ErrDust
| ErrFull | ErrClusterLimit | ErrTruc.

(** [Mempool]; the network and the cached [graph_optimal] answer play no part
    in the operations below.  [bytes] and [children] are [total_bytes] and
    [children_index] here. *)
Record Mempool := {
  policy : MempoolPolicy;
  max_bytes : Z;
  electrum_index_enabled : bool;
  memory_usage : Z;
  total_bytes : Z;
  vbytes : Z;
  rolling_min_fee_sat_per_kvb : spec_float;
  rolling_fee_last_updated : Z;
  block_since_last_rolling_fee_bump : bool;
  pool_sequence : Z;
  entries : gmap bytes MempoolEntry;
  adjusted_weights : gmap bytes Z;
  spent : gmap OutPoint bytes;
  children_index : gmap bytes (gset bytes);
  transactions_by_script : gmap bytes (gset bytes);
  scripts_by_transaction : gmap bytes (list bytes);
  input_script_values_by_transaction : gmap bytes (list (bytes * Z));
  wtxids : gmap bytes bytes;
  priorities : gmap bytes Z;
  unbroadcast : gset bytes;
  relay_sequences : gmap bytes Z;
  changes : list MempoolChange;
  graph_optimal_dirty : bool;
}.

(** Field updates. *)
Definition set_max_bytes (x : Z) (m : Mempool) : Mempool :=
  {| policy := policy m; max_bytes := x; electrum_index_enabled := electrum_index_enabled m;
     memory_usage := memory_usage m; total_bytes := total_bytes m; vbytes := vbytes m;
     rolling_min_fee_sat_per_kvb := rolling_min_fee_sat_per_kvb m;
     rolling_fee_last_updated := rolling_fee_last_updated m;
     block_since_last_rolling_fee_bump := block_since_last_rolling_fee_bump m;
     pool_sequence := pool_sequence m; entries := entries m; adjusted_weights := adjusted_weights m;
     spent := spent m; children_index := children_index m;
     transactions_by_script := transactions_by_script m;
     scripts_by_transaction := scripts_by_transaction m;
     input_script_values_by_transaction := input_script_values_by_transaction m; wtxids := wtxids m;
     priorities := priorities m; unbroadcast := unbroadcast m; relay_sequences := relay_sequences m;
     changes := changes m; graph_optimal_dirty := graph_optimal_dirty m |}.
Definition set_rolling_min_fee_sat_per_kvb (x : spec_float) (m : Mempool) : Mempool :=
  {| policy := policy m; max_bytes := max_bytes m; electrum_index_enabled := electrum_index_enabled m;
     memory_usage := memory_usage m; total_bytes := total_bytes m; vbytes := vbytes m;
     rolling_min_fee_sat_per_kvb := x; rolling_fee_last_updated := rolling_fee_last_updated m;
     block_since_last_rolling_fee_bump := block_since_last_rolling_fee_bump m;
     pool_sequence := pool_sequence m; entries := entries m; adjusted_weights := adjusted_weights m;
     spent := spent m; children_index := children_index m;
     transactions_by_script := transactions_by_script m;
     scripts_by_transaction := scripts_by_transaction m;
     input_script_values_by_transaction := input_script_values_by_transaction m; wtxids := wtxids m;
     priorities := priorities m; unbroadcast := unbroadcast m; relay_sequences := relay_sequences m;
     changes := changes m; graph_optimal_dirty := graph_optimal_dirty m |}.
Definition set_rolling_fee_last_updated (x : Z) (m : Mempool) : Mempool :=
  {| policy := policy m; max_bytes := max_bytes m; electrum_index_enabled := electrum_index_enabled m;
     memory_usage := memory_usage m; total_bytes := total_bytes m; vbytes := vbytes m;
     rolling_min_fee_sat_per_kvb := rolling_min_fee_sat_per_kvb m; rolling_fee_last_updated := x;
     block_since_last_rolling_fee_bump := block_since_last_rolling_fee_bump m;
     pool_sequence := pool_sequence m; entries := entries m; adjusted_weights := adjusted_weights m;
     spent := spent m; children_index := children_index m;
     transactions_by_script := transactions_by_script m;
     scripts_by_transaction := scripts_by_transaction m;
     input_script_values_by_transaction := input_script_values_by_transaction m; wtxids := wtxids m;
     priorities := priorities m; unbroadcast := unbroadcast m; relay_sequences := relay_sequences m;
     changes := changes m; graph_optimal_dirty := graph_optimal_dirty m |}.
Definition set_block_since_last_rolling_fee_bump (x : bool) (m : Mempool) : Mempool :=
  {| policy := policy m; max_bytes := max_bytes m; electrum_index_enabled := electrum_index_enabled m;
     memory_usage := memory_usage m; total_bytes := total_bytes m; vbytes := vbytes m;
     rolling_min_fee_sat_per_kvb := rolling_min_fee_sat_per_kvb m;
     rolling_fee_last_updated := rolling_fee_last_updated m; block_since_last_rolling_fee_bump := x;
     pool_sequence := pool_sequence m; entries := entries m; adjusted_weights := adjusted_weights m;
     spent := spent m; children_index := children_index m;
     transactions_by_script := transactions_by_script m;
     scripts_by_transaction := scripts_by_transaction m;
     input_script_values_by_transaction := input_script_values_by_transaction m; wtxids := wtxids m;
     priorities := priorities m; unbroadcast := unbroadcast m; relay_sequences := relay_sequences m;
     changes := changes m; graph_optimal_dirty := graph_optimal_dirty m |}.
Definition set_spent (x : gmap OutPoint bytes) (m : Mempool) : Mempool :=
  {| policy := policy m; max_bytes := max_bytes m; electrum_index_enabled := electrum_index_enabled m;
     memory_usage := memory_usage m; total_bytes := total_bytes m; vbytes := vbytes m;
     rolling_min_fee_sat_per_kvb := rolling_min_fee_sat_per_kvb m;
     rolling_fee_last_updated := rolling_fee_last_updated m;
     block_since_last_rolling_fee_bump := block_since_last_rolling_fee_bump m;
     pool_sequence := pool_sequence m; entries := entries m; adjusted_weights := adjusted_weights m;
     spent := x; children_index := children_index m;
     transactions_by_script := transactions_by_script m;
     scripts_by_transaction := scripts_by_transaction m;
     input_script_values_by_transaction := input_script_values_by_transaction m; wtxids := wtxids m;
     priorities := priorities m; unbroadcast := unbroadcast m; relay_sequences := relay_sequences m;
     changes := changes m; graph_optimal_dirty := graph_optimal_dirty m |}.
Definition set_children_index (x : gmap bytes (gset bytes)) (m : Mempool) : Mempool :=
  {| policy := policy m; max_bytes := max_bytes m; electrum_index_enabled := electrum_index_enabled m;
     memory_usage := memory_usage m; total_bytes := total_bytes m; vbytes := vbytes m;
     rolling_min_fee_sat_per_kvb := rolling_min_fee_sat_per_kvb m;
     rolling_fee_last_updated := rolling_fee_last_updated m;
     block_since_last_rolling_fee_bump := block_since_last_rolling_fee_bump m;
     pool_sequence := pool_sequence m; entries := entries m; adjusted_weights := adjusted_weights m;
     spent := spent m; children_index := x; transactions_by_script := transactions_by_script m;
     scripts_by_transaction := scripts_by_transaction m;
     input_script_values_by_transaction := input_script_values_by_transaction m; wtxids := wtxids m;
     priorities := priorities m; unbroadcast := unbroadcast m; relay_sequences := relay_sequences m;
     changes := changes m; graph_optimal_dirty := graph_optimal_dirty m |}.
Definition set_transactions_by_script (x : gmap bytes (gset bytes)) (m : Mempool) : Mempool :=
  {| policy := policy m; max_bytes := max_bytes m; electrum_index_enabled := electrum_index_enabled m;
     memory_usage := memory_usage m; total_bytes := total_bytes m; vbytes := vbytes m;
     rolling_min_fee_sat_per_kvb := rolling_min_fee_sat_per_kvb m;
     rolling_fee_last_updated := rolling_fee_last_updated m;
     block_since_last_rolling_fee_bump := block_since_last_rolling_fee_bump m;
     pool_sequence := pool_sequence m; entries := entries m; adjusted_weights := adjusted_weights m;
     spent := spent m; children_index := children_index m; transactions_by_script := x;
     scripts_by_transaction := scripts_by_transaction m;
     input_script_values_by_transaction := input_script_values_by_transaction m; wtxids := wtxids m;
     priorities := priorities m; unbroadcast := unbroadcast m; relay_sequences := relay_sequences m;
     changes := changes m; graph_optimal_dirty := graph_optimal_dirty m |}.
Definition set_scripts_by_transaction (x : gmap bytes (list bytes)) (m : Mempool) : Mempool :=
  {| policy := policy m; max_bytes := max_bytes m; electrum_index_enabled := electrum_index_enabled m;
     memory_usage := memory_usage m; total_bytes := total_bytes m; vbytes := vbytes m;
     rolling_min_fee_sat_per_kvb := rolling_min_fee_sat_per_kvb m;
     rolling_fee_last_updated := rolling_fee_last_updated m;
     block_since_last_rolling_fee_bump := block_since_last_rolling_fee_bump m;
     pool_sequence := pool_sequence m; entries := entries m; adjusted_weights := adjusted_weights m;
     spent := spent m; children_index := children_index m;
     transactions_by_script := transactions_by_script m; scripts_by_transaction := x;
     input_script_values_by_transaction := input_script_values_by_transaction m; wtxids := wtxids m;
     priorities := priorities m; unbroadcast := unbroadcast m; relay_sequences := relay_sequences m;
     changes := changes m; graph_optimal_dirty := graph_optimal_dirty m |}.
Definition set_input_script_values_by_transaction (x : gmap bytes (list (bytes * Z))) (m : Mempool) : Mempool :=
  {| policy := policy m; max_bytes := max_bytes m; electrum_index_enabled := electrum_index_enabled m;
     memory_usage := memory_usage m; total_bytes := total_bytes m; vbytes := vbytes m;
     rolling_min_fee_sat_per_kvb := rolling_min_fee_sat_per_kvb m;
     rolling_fee_last_updated := rolling_fee_last_updated m;
     block_since_last_rolling_fee_bump := block_since_last_rolling_fee_bump m;
     pool_sequence := pool_sequence m; entries := entries m; adjusted_weights := adjusted_weights m;
     spent := spent m; children_index := children_index m;
     transactions_by_script := transactions_by_script m;
     scripts_by_transaction := scripts_by_transaction m; input_script_values_by_transaction := x;
     wtxids := wtxids m; priorities := priorities m; unbroadcast := unbroadcast m;
     relay_sequences := relay_sequences m; changes := changes m;
     graph_optimal_dirty := graph_optimal_dirty m |}.
Definition set_priorities (x : gmap bytes Z) (m : Mempool) : Mempool :=
  {| policy := policy m; max_bytes := max_bytes m; electrum_index_enabled := electrum_index_enabled m;
     memory_usage := memory_usage m; total_bytes := total_bytes m; vbytes := vbytes m;
     rolling_min_fee_sat_per_kvb := rolling_min_fee_sat_per_kvb m;
     rolling_fee_last_updated := rolling_fee_last_updated m;
     block_since_last_rolling_fee_bump := block_since_last_rolling_fee_bump m;
     pool_sequence := pool_sequence m; entries := entries m; adjusted_weights := adjusted_weights m;
     spent := spent m; children_index := children_index m;
     transactions_by_script := transactions_by_script m;
     scripts_by_transaction := scripts_by_transaction m;
     input_script_values_by_transaction := input_script_values_by_transaction m; wtxids := wtxids m;
     priorities := x; unbroadcast := unbroadcast m; relay_sequences := relay_sequences m;
     changes := changes m; graph_optimal_dirty := graph_optimal_dirty m |}.
Definition set_unbroadcast (x : gset bytes) (m : Mempool) : Mempool :=
  {| policy := policy m; max_bytes := max_bytes m; electrum_index_enabled := electrum_index_enabled m;
     memory_usage := memory_usage m; total_bytes := total_bytes m; vbytes := vbytes m;
     rolling_min_fee_sat_per_kvb := rolling_min_fee_sat_per_kvb m;
     rolling_fee_last_updated := rolling_fee_last_updated m;
     block_since_last_rolling_fee_bump := block_since_last_rolling_fee_bump m;
     pool_sequence := pool_sequence m; entries := entries m; adjusted_weights := adjusted_weights m;
     spent := spent m; children_index := children_index m;
     transactions_by_script := transactions_by_script m;
     scripts_by_transaction := scripts_by_transaction m;
     input_script_values_by_transaction := input_script_values_by_transaction m; wtxids := wtxids m;
     priorities := priorities m; unbroadcast := x; relay_sequences := relay_sequences m;
     changes := changes m; graph_optimal_dirty := graph_optimal_dirty m |}.
Definition set_graph_optimal_dirty (x : bool) (m : Mempool) : Mempool :=
  {| policy := policy m; max_bytes := max_bytes m; electrum_index_enabled := electrum_index_enabled m;
     memory_usage := memory_usage m; total_bytes := total_bytes m; vbytes := vbytes m;
     rolling_min_fee_sat_per_kvb := rolling_min_fee_sat_per_kvb m;
     rolling_fee_last_updated := rolling_fee_last_updated m;
     block_since_last_rolling_fee_bump := block_since_last_rolling_fee_bump m;
     pool_sequence := pool_sequence m; entries := entries m; adjusted_weights := adjusted_weights m;
     spent := spent m; children_index := children_index m;
     transactions_by_script := transactions_by_script m;
     scripts_by_transaction := scripts_by_transaction m;
     input_script_values_by_transaction := input_script_values_by_transaction m; wtxids := wtxids m;
     priorities := priorities m; unbroadcast := unbroadcast m; relay_sequences := relay_sequences m;
     changes := changes m; graph_optimal_dirty := x |}.

(** ** Memory estimates *)

Section Memory.
Context {L : Layout}.

Definition sz (s : sized) : Z := Z.of_N (size_of s).

(** The vectors measured here come from exact-size copies: their capacity is
    their length. *)
Definition transaction_dynamic_memory_usage (t : Transaction) : Z :=
  let usage := sz STransaction +^ zlen (tx_input t) *^ sz STxIn +^ zlen (tx_output t) *^ sz STxOut in
  let usage :=
    foldl (fun usage i =>
      foldl (fun usage item => usage +^ zlen item)
        (usage +^ zlen (script_sig i) +^ zlen (witness i) *^ (sz SUsize * 3)) (witness i))
      usage (tx_input t) in
  foldl (fun usage o => usage +^ zlen (script_pubkey o)) usage (tx_output t).

Definition mempool_entry_memory_usage (t : Transaction) : Z :=
  let pointer_bytes := sz SUsize in
  let index_node_bytes := sz SUsize * 3 in
  transaction_dynamic_memory_usage t +^ sz SMempoolEntry +^ pointer_bytes *^ 9 +^ index_node_bytes *^ 4
  +^ zlen (tx_input t) *^ (sz SOutPoint +^ sz STxid +^ index_node_bytes *^ 2).

Definition scripthash_index_memory_usage (scripts : list bytes) (input_script_values : list (bytes * Z)) : Z :=
  let index_node_bytes := sz SUsize * 3 in
  let usage :=
    sz STxid +^ sz SVecString +^ index_node_bytes +^ zlen scripts *^ sz SString
    +^ foldr Z.add 0 (map zlen scripts)
    +^ sz STxid +^ sz SVecStringU64 +^ index_node_bytes
    +^ zlen input_script_values *^ sz SStringU64
    +^ foldr Z.add 0 (map (fun p => zlen p.1) input_script_values) in
  foldl (fun usage script =>
    usage +^ sz SString +^ zlen script +^ index_node_bytes +^ sz SHashSetTxid +^ index_node_bytes +^ sz STxid)
    usage scripts.

Definition scripthash_index_memory_usage_for (m : Mempool) (id : bytes) : Z :=
  if electrum_index_enabled m then
    match scripts_by_transaction m !! id with
    | None => 0
    | Some scripts =>
        scripthash_index_memory_usage scripts (default [] (input_script_values_by_transaction m !! id))
    end
  else 0.

Definition dynamic_memory_usage (m : Mempool) : Z :=
  let index_node_bytes := sz SUsize * 3 in
  memory_usage m
  +^ Z.of_nat (size (priorities m)) *^ (sz STxid + sz SI64 + index_node_bytes)
  +^ Z.of_nat (size (unbroadcast m)) *^ (sz STxid + index_node_bytes).
End Memory.

Section Pool.
Context {Ops : BitcoinOps} {POps : MempoolOps} {C : Consensus Transaction} {L : Layout} {HO : HashOrder}.

(** ** The Electrum script indexes *)

Definition electrum_script_hash (script : bytes) : bytes := hex_encode (reverse (sha256 script)).

Definition script_hashes_for_transaction (t : Transaction) (previous_outputs : list TxOut) : list bytes :=
  dedup (sort_ids
    (map (fun o => electrum_script_hash (script_pubkey o)) (tx_output t)
     ++ map (fun o => electrum_script_hash (script_pubkey o)) previous_outputs)).

Definition input_script_values_for_transaction (t : Transaction) (previous_outputs : list TxOut)
  : list (bytes * Z) :=
  map (fun p => (electrum_script_hash (script_pubkey p.2), value p.2)) (zip (tx_input t) previous_outputs).

(** [map.entry(k).or_default().insert(x)] *)
Definition add_to (k x : bytes) (index : gmap bytes (gset bytes)) : gmap bytes (gset bytes) :=
  <[k := {[x]} ∪ default ∅ (index !! k)]> index.

(** Remove [x] from the set at [k], and the set with its last element. *)
Definition remove_from (k x : bytes) (index : gmap bytes (gset bytes)) : gmap bytes (gset bytes) :=
  match index !! k with
  | None => index
  | Some ids =>
      let ids := ids ∖ {[x]} in
      if bool_decide (ids = ∅) then delete k index else <[k := ids]> index
  end.

Definition index_transaction_scripts (id : bytes) (scripts : list bytes) (input_script_values : list (bytes * Z))
  (m : Mempool) : Mempool :=
  if electrum_index_enabled m then
    set_input_script_values_by_transaction
      (<[id := input_script_values]> (input_script_values_by_transaction m))
      (set_scripts_by_transaction (<[id := scripts]> (scripts_by_transaction m))
        (set_transactions_by_script
          (foldl (fun index script => add_to script id index) (transactions_by_script m) scripts) m))
  else m.

Definition remove_transaction_scripts (id : bytes) (m : Mempool) : Mempool :=
  let m := set_input_script_values_by_transaction (delete id (input_script_values_by_transaction m)) m in
  match scripts_by_transaction m !! id with
  | None => m
  | Some scripts =>
      set_transactions_by_script
        (foldl (fun index script => remove_from script id index) (transactions_by_script m) scripts)
        (set_scripts_by_transaction (delete id (scripts_by_transaction m)) m)
  end.

Definition input_value_for_script (m : Mempool) (id script_hash : bytes) : Z :=
  foldr Z.add 0
    (map snd (List.filter (fun p => bool_decide (p.1 = script_hash))
      (default [] (input_script_values_by_transaction m !! id)))).

(** ** Entries *)

Definition contains (m : Mempool) (id : bytes) : bool := bool_decide (is_Some (entries m !! id)).

Definition invalidate_graph_optimality : Mempool -> Mempool := set_graph_optimal_dirty true.

(** [self.fee_delta(txid)] and [self.modified_fee_sat(txid, base)] *)
Definition fee_delta (m : Mempool) (id : bytes) : Z := default 0 (priorities m !! id).
Definition modified_fee_sat (m : Mempool) (id : bytes) (base_fee_sat : Z) : Z := base_fee_sat + fee_delta m id.

Definition adjusted_weight (m : Mempool) (id : bytes) : Z :=
  match adjusted_weights m !! id with
  | Some weight => weight
  | None => match entries m !! id with Some entry => tx_weight (transaction entry) | None => 0 end
  end.

Definition sat_i64 (z : Z) : Z := Z.max (- 2 ^ 63) (Z.min z (2 ^ 63 - 1)).

Definition prioritise (id : bytes) (delta : Z) (m : Mempool) : Mempool :=
  let in_mempool := contains m id in
  let updated := sat_i64 (fee_delta m id + delta) in
  let m := set_priorities (if updated =? 0 then delete id (priorities m) else <[id := updated]> (priorities m)) m in
  if in_mempool && negb (delta =? 0) then invalidate_graph_optimality m else m.

Definition add_unbroadcast (id : bytes) (m : Mempool) : Mempool :=
  if contains m id then set_unbroadcast ({[id]} ∪ unbroadcast m) m else m.
Definition remove_unbroadcast (id : bytes) (m : Mempool) : Mempool :=
  set_unbroadcast (unbroadcast m ∖ {[id]}) m.

Definition set_limit (limit : Z) (m : Mempool) : Mempool := set_max_bytes (Z.max limit 1) m.

Definition input_txids (t : Transaction) : list bytes := map (fun i => txid (previous_output i)) (tx_input t).
Definition input_outpoints (t : Transaction) : list OutPoint := map previous_output (tx_input t).

(** The end of [accept_at_with_sequence], once every check has passed: the
    entry and all its indexes. *)
Definition link_input (id : bytes) (m : Mempool) (i : TxIn) : Mempool :=
  let m := set_spent (<[previous_output i := id]> (spent m)) m in
  if contains m (txid (previous_output i))
  then set_children_index (add_to (txid (previous_output i)) id (children_index m)) m
  else m.

Definition usize_add (a b : Z) : Z := (a + b) mod 2 ^ 64.

Definition insert_entry (t : Transaction) (fee size at_time height weight : Z) (previous_outputs : list TxOut)
  (record_sequence : bool) (m : Mempool) : Mempool :=
  let id := compute_txid t in
  let '(affected_scripts, input_script_values) :=
    if electrum_index_enabled m
    then (script_hashes_for_transaction t previous_outputs, input_script_values_for_transaction t previous_outputs)
    else ([], []) in
  let index_memory_usage :=
    if electrum_index_enabled m then scripthash_index_memory_usage affected_scripts input_script_values else 0 in
  let memory := mempool_entry_memory_usage t +^ index_memory_usage in
  let entry := {| transaction := t; fee_sat := fee; vsize := size; added_at := at_time; entry_height := height |} in
  let change :=
    {| change_transaction := t; change_sequence := pool_sequence m; change_kind := Added;
       affected_script_hashes := Some affected_scripts |} in
  let linked := foldl (link_input id) m (tx_input t) in
  index_transaction_scripts id affected_scripts input_script_values
    {| policy := policy m; max_bytes := max_bytes m; electrum_index_enabled := electrum_index_enabled m;
       memory_usage := memory_usage m +^ memory;
       total_bytes := usize_add (total_bytes m) (zlen (serialize t));
       vbytes := vbytes m +^ size;
       rolling_min_fee_sat_per_kvb := rolling_min_fee_sat_per_kvb m;
       rolling_fee_last_updated := rolling_fee_last_updated m;
       block_since_last_rolling_fee_bump := block_since_last_rolling_fee_bump m;
       pool_sequence := if record_sequence then pool_sequence m +^ 1 else pool_sequence m;
       entries := <[id := entry]> (entries m);
       adjusted_weights := <[id := weight]> (adjusted_weights m);
       spent := spent linked;
       children_index := children_index linked;
       transactions_by_script := transactions_by_script m;
       scripts_by_transaction := scripts_by_transaction m;
       input_script_values_by_transaction := input_script_values_by_transaction m;
       wtxids := <[compute_wtxid t := id]> (wtxids m);
       priorities := priorities m;
       unbroadcast := unbroadcast m;
       relay_sequences := <[id := pool_sequence m]> (relay_sequences m);
       changes := if record_sequence then changes m ++ [change] else changes m;
       graph_optimal_dirty := true |}.

(** ** Removal *)

Definition unlink_input (id : bytes) (m : Mempool) (i : TxIn) : Mempool :=
  set_children_index (remove_from (txid (previous_output i)) id (children_index m))
    (set_spent (delete (previous_output i) (spent m)) m).

Definition remove_with_notification (id : bytes) (notify_zmq : bool) (m : Mempool) : Mempool * option MempoolEntry :=
  let index_memory_usage := scripthash_index_memory_usage_for m id in
  let scripts := scripts_by_transaction m !! id in
  match entries m !! id with
  | None => (m, None)
  | Some entry =>
      let t := transaction entry in
      let m := remove_transaction_scripts id m in
      let unlinked := foldl (unlink_input id) m (tx_input t) in
      let change :=
        {| change_transaction := t; change_sequence := pool_sequence m; change_kind := Removed notify_zmq;
           affected_script_hashes := scripts |} in
      ({| policy := policy m; max_bytes := max_bytes m; electrum_index_enabled := electrum_index_enabled m;
          memory_usage := sat_sub (memory_usage m) (mempool_entry_memory_usage t +^ index_memory_usage);
          total_bytes := sat_sub (total_bytes m) (zlen (serialize t));
          vbytes := sat_sub (vbytes m) (vsize entry);
          rolling_min_fee_sat_per_kvb := rolling_min_fee_sat_per_kvb m;
          rolling_fee_last_updated := rolling_fee_last_updated m;
          block_since_last_rolling_fee_bump := block_since_last_rolling_fee_bump m;
          pool_sequence := pool_sequence m +^ 1;
          entries := delete id (entries m);
          adjusted_weights := delete id (adjusted_weights m);
          spent := spent unlinked;
          children_index := delete id (children_index unlinked);
          transactions_by_script := transactions_by_script m;
          scripts_by_transaction := scripts_by_transaction m;
          input_script_values_by_transaction := input_script_values_by_transaction m;
          wtxids := delete (compute_wtxid t) (wtxids m);
          priorities := priorities m;
          unbroadcast := unbroadcast m ∖ {[id]};
          relay_sequences := delete id (relay_sequences m);
          changes := changes m ++ [change];
          graph_optimal_dirty := true |}, Some entry)
  end.

Definition remove (id : bytes) (m : Mempool) : Mempool := (remove_with_notification id true m).1.

(** The parent-to-child index, recomputed from the entries. *)
Definition rebuild_children_index (m : Mempool) : Mempool :=
  invalidate_graph_optimality
    (set_children_index
      (foldl (fun index p =>
         foldl (fun index i =>
           if contains m (txid (previous_output i)) then add_to (txid (previous_output i)) p.1 index else index)
           index (tx_input (transaction p.2)))
         ∅ (map_iter (entries m))) m).

(** ** The audit *)

Inductive Inconsistency :=
| TxidMismatch (id : bytes) | DuplicateWtxid (wtxid : bytes) | InputClaimedTwice (o : OutPoint)
| SpentIndex | ChildrenIndex | WtxidIndex | ScriptTransactionIndex | ScriptReverseIndex | ScriptForwardIndex
| InputValueIndex | AdjustedWeightIndex | RelaySequenceIndex
| ByteAccounting | VbyteAccounting | MemoryAccounting | UnbroadcastUnknown.

(** What [check_consistency] recomputes in its pass over the entries. *)
Record audit := {
  expected_spent : gmap OutPoint bytes;
  expected_children : gmap bytes (gset bytes);
  expected_wtxids : gmap bytes bytes;
  expected_bytes : Z;
  expected_vbytes : Z;
  expected_memory_usage : Z;
}.

Fixpoint audit_inputs (m : Mempool) (id : bytes) (inputs : list TxIn)
  (claimed : gmap OutPoint bytes) (children : gmap bytes (gset bytes))
  : result Inconsistency (gmap OutPoint bytes * gmap bytes (gset bytes)) :=
  match inputs with
  | [] => Ok (claimed, children)
  | i :: inputs =>
      let o := previous_output i in
      check? negb (bool_decide (is_Some (claimed !! o))) else InputClaimedTwice o in
      audit_inputs m id inputs (<[o := id]> claimed)
        (if contains m (txid o) then add_to (txid o) id children else children)
  end.

Definition audit_entry (m : Mempool) (a : audit) (id : bytes) (entry : MempoolEntry) : result Inconsistency audit :=
  let t := transaction entry in
  check? bool_decide (compute_txid t = id) else TxidMismatch id in
  check? negb (bool_decide (is_Some (expected_wtxids a !! compute_wtxid t))) else DuplicateWtxid (compute_wtxid t) in
  let? ' (claimed, children) := audit_inputs m id (tx_input t) (expected_spent a) (expected_children a) in
  Ok {| expected_spent := claimed; expected_children := children;
        expected_wtxids := <[compute_wtxid t := id]> (expected_wtxids a);
        expected_bytes := expected_bytes a +^ zlen (serialize t);
        expected_vbytes := expected_vbytes a +^ vsize entry;
        expected_memory_usage := expected_memory_usage a +^ mempool_entry_memory_usage t |}.

Fixpoint audit_entries (m : Mempool) (l : list (bytes * MempoolEntry)) (a : audit) : result Inconsistency audit :=
  match l with
  | [] => Ok a
  | (id, entry) :: l => let? a := audit_entry m a id entry in audit_entries m l a
  end.

Definition empty_audit : audit :=
  {| expected_spent := ∅; expected_children := ∅; expected_wtxids := ∅;
     expected_bytes := 0; expected_vbytes := 0; expected_memory_usage := 0 |}.

(** [map.len() == entries.len() && keys all present] *)
Definition same_keys {A} (m : Mempool) (index : gmap bytes A) : bool :=
  bool_decide (size index = size (entries m)) && forallb (fun p => contains m p.1) (map_iter index).

Definition reverse_index_ok (m : Mempool) : bool :=
  forallb (fun p =>
    forallb (fun script =>
      match transactions_by_script m !! script with
      | Some ids => bool_decide (p.1 ∈ ids)
      | None => false
      end) p.2) (map_iter (scripts_by_transaction m)).

Definition forward_index_ok (m : Mempool) : bool :=
  forallb (fun p =>
    negb (bool_decide (p.2 = ∅)) &&
    forallb (fun id =>
      match scripts_by_transaction m !! id with
      | Some scripts => bool_decide (p.1 ∈ scripts)
      | None => false
      end) (set_iter p.2)) (map_iter (transactions_by_script m)).

Definition input_values_ok (m : Mempool) : bool :=
  forallb (fun p =>
    match scripts_by_transaction m !! p.1 with
    | Some scripts => forallb (fun v => bool_decide (v.1 ∈ scripts)) p.2
    | None => false
    end) (map_iter (input_script_values_by_transaction m)).

Definition check_consistency (m : Mempool) : result Inconsistency () :=
  let? a := audit_entries m (map_iter (entries m)) empty_audit in
  check? bool_decide (spent m = expected_spent a) else SpentIndex in
  check? bool_decide (children_index m = expected_children a) else ChildrenIndex in
  check? bool_decide (wtxids m = expected_wtxids a) else WtxidIndex in
  check? negb (electrum_index_enabled m) || same_keys m (scripts_by_transaction m) else ScriptTransactionIndex in
  check? reverse_index_ok m else ScriptReverseIndex in
  check? forward_index_ok m else ScriptForwardIndex in
  check? negb (electrum_index_enabled m) || same_keys m (input_script_values_by_transaction m)
    else InputValueIndex in
  check? input_values_ok m else InputValueIndex in
  let expected_memory_usage :=
    foldl (fun usage p => usage +^ scripthash_index_memory_usage_for m p.1)
      (expected_memory_usage a) (map_iter (entries m)) in
  check? same_keys m (adjusted_weights m) else AdjustedWeightIndex in
  check? same_keys m (relay_sequences m) else RelaySequenceIndex in
  check? total_bytes m =? expected_bytes a else ByteAccounting in
  check? vbytes m =? expected_vbytes a else VbyteAccounting in
  check? memory_usage m =? expected_memory_usage else MemoryAccounting in
  check? forallb (contains m) (set_iter (unbroadcast m)) else UnbroadcastUnknown in
  Ok ().
End Pool.

(** ** Lemmas: set-valued indexes *)

Definition at_key (index : gmap bytes (gset bytes)) (k : bytes) : gset bytes := default ∅ (index !! k).
Definition tight (index : gmap bytes (gset bytes)) : Prop := forall k s, index !! k = Some s -> s <> ∅.

Lemma at_key_nonempty index k x : x ∈ at_key index k -> exists s, index !! k = Some s /\ x ∈ s.
Proof. unfold at_key. destruct (index !! k) as [s|]; simpl; [eauto|]. by intros ?%not_elem_of_empty. Qed.

Lemma at_key_add k x index k' y :
  y ∈ at_key (add_to k x index) k' <-> (k' = k /\ y = x) \/ y ∈ at_key index k'.
Proof.
  unfold at_key, add_to. destruct (decide (k' = k)) as [->|Hne].
  - rewrite lookup_insert_eq. simpl. rewrite elem_of_union, elem_of_singleton. (intuition (subst; eauto; congruence)).
  - rewrite lookup_insert_ne by done. (intuition (subst; eauto; congruence)).
Qed.

Lemma tight_add k x index : tight index -> tight (add_to k x index).
Proof.
  intros Ht k' s. unfold add_to. destruct (decide (k' = k)) as [->|Hne].
  - rewrite lookup_insert_eq. intros [= <-] E. apply (not_elem_of_empty (C:=gset bytes) x). rewrite <- E.
    apply elem_of_union_l. by apply elem_of_singleton.
  - rewrite lookup_insert_ne by done. apply Ht.
Qed.

Lemma at_key_remove k x index k' y :
  y ∈ at_key (remove_from k x index) k' <-> ~ (k' = k /\ y = x) /\ y ∈ at_key index k'.
Proof.
  unfold at_key, remove_from. destruct (index !! k) as [s|] eqn:E.
  2: { split; [|tauto]. intros H. split; [|done]. intros [-> ->]. rewrite E in H. by apply not_elem_of_empty in H. }
  destruct (decide (k' = k)) as [->|Hne].
  - rewrite E. simpl. case_bool_decide as He.
    + rewrite lookup_delete_eq. simpl. split; [by intros ?%not_elem_of_empty|]. intros [Hn Hy].
      assert (y ∈ s ∖ {[x]}) as Hd; [|rewrite He in Hd; done].
      apply elem_of_difference. split; [done|]. rewrite elem_of_singleton. (intuition (subst; eauto; congruence)).
    + rewrite lookup_insert_eq. simpl. rewrite elem_of_difference, elem_of_singleton. (intuition (subst; eauto; congruence)).
  - case_bool_decide; rewrite ?lookup_delete_ne, ?lookup_insert_ne by done; (intuition (subst; eauto; congruence)).
Qed.

Lemma tight_remove k x index : tight index -> tight (remove_from k x index).
Proof.
  intros Ht k' s'. unfold remove_from. destruct (index !! k) as [s|] eqn:E; [|apply Ht].
  case_bool_decide as He.
  - rewrite lookup_delete_Some. intros [_ ?]. by apply (Ht k').
  - rewrite lookup_insert_Some. intros [[_ <-]|[_ ?]]; [done|by apply (Ht k')].
Qed.

Lemma tight_delete k index : tight index -> tight (delete k index).
Proof. intros Ht k' s. rewrite lookup_delete_Some. intros [_ ?]. by apply (Ht k'). Qed.

Lemma tight_empty : tight ∅.
Proof. intros k s. by rewrite lookup_empty. Qed.

Lemma at_key_empty k y : y ∈ at_key ∅ k <-> False.
Proof. unfold at_key. rewrite lookup_empty. simpl. split; [apply not_elem_of_empty|done]. Qed.

Lemma index_ext index1 index2 :
  tight index1 -> tight index2 -> (forall k y, y ∈ at_key index1 k <-> y ∈ at_key index2 k) -> index1 = index2.
Proof.
  intros H1 H2 H. apply map_eq. intros k. unfold at_key in H. specialize (H k).
  destruct (index1 !! k) as [s1|] eqn:E1, (index2 !! k) as [s2|] eqn:E2; simpl in H; [| | |done].
  - f_equal. by apply set_eq.
  - exfalso. apply (H1 _ _ E1). apply set_eq. exact H.
  - exfalso. apply (H2 _ _ E2). apply set_eq. intros y. symmetry. apply H.
Qed.

(** The same over a list of additions or removals. *)
Lemma at_key_adds x ks index k y :
  y ∈ at_key (foldl (fun index k => add_to k x index) index ks) k <-> (k ∈ ks /\ y = x) \/ y ∈ at_key index k.
Proof.
  revert index. induction ks as [|k' ks IH]; intros index; simpl.
  - rewrite elem_of_nil. (intuition (subst; eauto; congruence)).
  - rewrite IH, at_key_add, elem_of_cons. (intuition (subst; eauto; congruence)).
Qed.

Lemma tight_adds x ks index : tight index -> tight (foldl (fun index k => add_to k x index) index ks).
Proof. revert index. induction ks as [|k ks IH]; intros index Ht; simpl; [done|]. by apply IH, tight_add. Qed.

Lemma at_key_removes x ks index k y :
  y ∈ at_key (foldl (fun index k => remove_from k x index) index ks) k <->
  ~ (k ∈ ks /\ y = x) /\ y ∈ at_key index k.
Proof.
  revert index. induction ks as [|k' ks IH]; intros index; simpl.
  - rewrite elem_of_nil. (intuition (subst; eauto; congruence)).
  - rewrite IH, at_key_remove, elem_of_cons. (intuition (subst; eauto; congruence)).
Qed.

Lemma tight_removes x ks index : tight index -> tight (foldl (fun index k => remove_from k x index) index ks).
Proof. revert index. induction ks as [|k ks IH]; intros index Ht; simpl; [done|]. by apply IH, tight_remove. Qed.

(** ** Lemmas: sums over a map *)

Definition msum {A} (f : bytes -> A -> Z) (m : gmap bytes A) : Z :=
  foldr Z.add 0 (map (fun p => f p.1 p.2) (map_to_list m)).

Lemma sum_perm (l1 l2 : list Z) : l1 ≡ₚ l2 -> foldr Z.add 0 l1 = foldr Z.add 0 l2.
Proof. induction 1; simpl; lia. Qed.

Lemma msum_perm {A} (f : bytes -> A -> Z) m l :
  l ≡ₚ map_to_list m -> foldr Z.add 0 (map (fun p => f p.1 p.2) l) = msum f m.
Proof. intros H. apply sum_perm. by rewrite H. Qed.

Lemma msum_insert {A} (f : bytes -> A -> Z) m k x :
  m !! k = None -> msum f (<[k := x]> m) = f k x + msum f m.
Proof.
  intros H. unfold msum. rewrite (sum_perm _ (map (fun p => f p.1 p.2) ((k, x) :: map_to_list m))); [done|].
  by rewrite map_to_list_insert.
Qed.

Lemma msum_delete {A} (f : bytes -> A -> Z) m k x :
  m !! k = Some x -> msum f m = f k x + msum f (delete k m).
Proof.
  intros H. rewrite <- msum_insert by apply lookup_delete_eq. by rewrite insert_delete_id.
Qed.

Lemma msum_ext {A} (f g : bytes -> A -> Z) m :
  (forall k x, m !! k = Some x -> f k x = g k x) -> msum f m = msum g m.
Proof.
  intros H. unfold msum. f_equal. apply map_ext_in. intros [k x] Hin. simpl. apply H.
  by apply elem_of_map_to_list, list_elem_of_In.
Qed.

Lemma total_nonneg (l : list Z) : Forall (Z.le 0) l -> 0 <= foldr Z.add 0 l.
Proof. induction 1; simpl; lia. Qed.

Lemma msum_nonneg {A} (f : bytes -> A -> Z) m :
  (forall k x, m !! k = Some x -> 0 <= f k x) -> 0 <= msum f m.
Proof.
  intros H. apply total_nonneg, Forall_forall. intros z ([k x] & -> & Hin)%list_elem_of_fmap. simpl.
  by apply H, elem_of_map_to_list.
Qed.

(** Saturating addition is exact while the total fits. *)
Lemma sat_sum {A} (f : A -> Z) l a :
  Forall (fun x => 0 <= f x) l -> 0 <= a -> a + foldr Z.add 0 (map f l) <= umax 64 ->
  foldl (fun s x => s +^ f x) a l = a + foldr Z.add 0 (map f l).
Proof.
  intros H. revert a. induction H as [|x l Hx Hl IH]; intros a Ha Hb; simpl in *; [lia|].
  assert (0 <= foldr Z.add 0 (map f l)). { apply total_nonneg, Forall_map. exact Hl. }
  unfold sat_add at 2. rewrite Z.min_l by lia. rewrite IH by lia. lia.
Qed.

(** ** Lemmas: sizes *)

Lemma sat_add_nonneg a b : 0 <= a -> 0 <= b -> 0 <= a +^ b.
Proof. unfold sat_add, umax. lia. Qed.
Lemma sat_mul_nonneg a b : 0 <= a -> 0 <= b -> 0 <= a *^ b.
Proof. unfold sat_mul, umax. nia. Qed.
Lemma sz_nonneg `{Layout} s : 0 <= sz s.
Proof. apply N2Z.is_nonneg. Qed.

Create HintDb sizes.
#[export] Hint Resolve sat_add_nonneg sat_mul_nonneg sz_nonneg zlen_nonneg Z.mul_nonneg_nonneg
  total_nonneg Forall_true : sizes.
#[export] Hint Extern 1 (0 <= Z.of_nat _) => lia : sizes.
#[export] Hint Extern 1 (0 <= Zpos _) => lia : sizes.

Lemma foldl_nonneg {A} (f : Z -> A -> Z) l a :
  (forall a x, 0 <= a -> 0 <= f a x) -> 0 <= a -> 0 <= foldl f a l.
Proof. intros Hf. revert a. induction l; simpl; auto. Qed.

Lemma lengths_nonneg {A B} (f : A -> list B) l : 0 <= foldr Z.add 0 (map (fun x => zlen (f x)) l).
Proof. apply total_nonneg, Forall_map, Forall_true. intros. apply zlen_nonneg. Qed.

Lemma mempool_entry_memory_usage_nonneg `{Layout} t : 0 <= mempool_entry_memory_usage t.
Proof.
  assert (0 <= transaction_dynamic_memory_usage t).
  { unfold transaction_dynamic_memory_usage. repeat (apply foldl_nonneg; intros); auto with sizes. }
  unfold mempool_entry_memory_usage. auto 20 with sizes.
Qed.

Lemma scripthash_index_memory_usage_nonneg `{Layout} scripts values :
  0 <= scripthash_index_memory_usage scripts values.
Proof.
  unfold scripthash_index_memory_usage. pose proof (lengths_nonneg (@fst bytes Z) values).
  pose proof (lengths_nonneg (fun s : bytes => s) scripts).
  apply foldl_nonneg; intros; auto 20 with sizes.
Qed.

Lemma index_usage_for_nonneg `{Layout} m id : 0 <= scripthash_index_memory_usage_for m id.
Proof.
  unfold scripthash_index_memory_usage_for. destruct (electrum_index_enabled m); [|lia].
  destruct (_ !! id); [apply scripthash_index_memory_usage_nonneg|lia].
Qed.
