(* ===== verification/MempoolIndex.v ===== *)
(** * The mempool's indexes

    [consistent] says in one place what every index of the pool must hold.
    The audit [check_consistency] accepts exactly the consistent pools, and
    each operation that changes the pool keeps it consistent. *)

From Stdlib Require Import ZArith Lia.
From stdpp Require Import base list option gmap sorting.
From S2P Require Import Prelude Types BlockChecks Mempool.
Local Open Scope Z_scope.
Local Open Scope sat_scope.
Local Set Warnings "-clear-no-such-hyp".

Section Indexes.
Context {Ops : BitcoinOps} {POps : MempoolOps} {C : Consensus Transaction} {L : Layout} {HO : HashOrder}.

(** ** Specification *)

Definition in_pool (m : Mempool) (id : bytes) : Prop := is_Some (entries m !! id).

Definition spends (m : Mempool) (id : bytes) (o : OutPoint) : Prop :=
  exists e, entries m !! id = Some e /\ o ∈ input_outpoints (transaction e).

(** [c] spends an output of [p], and both are in the pool. *)
Definition child_of (m : Mempool) (p c : bytes) : Prop :=
  in_pool m p /\ exists e, entries m !! c = Some e /\ p ∈ input_txids (transaction e).

Definition indexes_script (m : Mempool) (id script : bytes) : Prop :=
  exists scripts, scripts_by_transaction m !! id = Some scripts /\ script ∈ scripts.

Record scripts_consistent (m : Mempool) : Prop := {
  sc_keys : electrum_index_enabled m = true -> dom (scripts_by_transaction m) = dom (entries m);
  sc_link : forall id script, id ∈ at_key (transactions_by_script m) script <-> indexes_script m id script;
  sc_tight : tight (transactions_by_script m);
  sc_value_keys : electrum_index_enabled m = true -> dom (input_script_values_by_transaction m) = dom (entries m);
  sc_values : forall id values, input_script_values_by_transaction m !! id = Some values ->
    exists scripts, scripts_by_transaction m !! id = Some scripts /\ Forall (fun v => v.1 ∈ scripts) values;
}.

Definition entry_bytes (_ : bytes) (e : MempoolEntry) : Z := zlen (serialize (transaction e)).
Definition entry_vbytes (_ : bytes) (e : MempoolEntry) : Z := vsize e.
Definition entry_memory (m : Mempool) (id : bytes) (e : MempoolEntry) : Z :=
  mempool_entry_memory_usage (transaction e) + scripthash_index_memory_usage_for m id.

(** Every index but the children. *)
Record indexed (m : Mempool) : Prop := {
  c_txid : forall id e, entries m !! id = Some e -> compute_txid (transaction e) = id;
  c_wtxid : forall w id, wtxids m !! w = Some id <->
    exists e, entries m !! id = Some e /\ compute_wtxid (transaction e) = w;
  c_inputs : forall id e, entries m !! id = Some e -> NoDup (input_outpoints (transaction e));
  c_spent : forall o id, spent m !! o = Some id <-> spends m id o;
  c_scripts : scripts_consistent m;
  c_weights : dom (adjusted_weights m) = dom (entries m);
  c_sequences : dom (relay_sequences m) = dom (entries m);
  c_bytes : total_bytes m = msum entry_bytes (entries m);
  c_vbytes : vbytes m = msum entry_vbytes (entries m);
  c_memory : memory_usage m = msum (entry_memory m) (entries m);
  c_unbroadcast : unbroadcast m ⊆ dom (entries m);
}.

Record consistent (m : Mempool) : Prop := {
  c_indexed : indexed m;
  c_children : forall p c, c ∈ at_key (children_index m) p <-> child_of m p c;
  c_children_tight : tight (children_index m);
}.

(** The totals fit in 64 bits. *)
Record fits (m : Mempool) : Prop := {
  f_vsize : forall id e, entries m !! id = Some e -> 0 <= vsize e;
  f_bytes : msum entry_bytes (entries m) <= umax 64;
  f_vbytes : msum entry_vbytes (entries m) <= umax 64;
  f_memory : msum (entry_memory m) (entries m) <= umax 64;
}.

Lemma contains_spec m id : contains m id = true <-> in_pool m id.
Proof. unfold contains. by rewrite bool_decide_eq_true. Qed.

Lemma entry_memory_nonneg m id e : 0 <= entry_memory m id e.
Proof.
  unfold entry_memory. pose proof (mempool_entry_memory_usage_nonneg (transaction e)).
  pose proof (index_usage_for_nonneg m id). lia.
Qed.

(** ** The audit's pass over the entries *)

(** The outpoints the entries of a list spend, and by which. *)
Definition claims (l : list (bytes * MempoolEntry)) : list (OutPoint * bytes) :=
  l ≫= fun p => map (fun o => (o, p.1)) (input_outpoints (transaction p.2)).

Definition pool_wtxids (l : list (bytes * MempoolEntry)) : list bytes :=
  map (fun p => compute_wtxid (transaction p.2)) l.

Lemma elem_of_claims l o id :
  (o, id) ∈ claims l <-> exists e, (id, e) ∈ l /\ o ∈ input_outpoints (transaction e).
Proof.
  unfold claims. rewrite list_elem_of_bind. split.
  - intros ([id' e] & (o' & [= -> ->] & Ho)%list_elem_of_fmap & Hin). eauto.
  - intros (e & Hin & Ho). exists (id, e). split; [|done]. apply list_elem_of_fmap. eauto.
Qed.

(** Adding the children of one entry. *)
Definition add_children (m : Mempool) (id : bytes) (inputs : list TxIn) (index : gmap bytes (gset bytes)) :=
  foldl (fun index i =>
    if contains m (txid (previous_output i)) then add_to (txid (previous_output i)) id index else index)
    index inputs.

Lemma at_key_children m id t index p c :
  c ∈ at_key (add_children m id (tx_input t) index) p <->
  (in_pool m p /\ c = id /\ p ∈ input_txids t) \/ c ∈ at_key index p.
Proof.
  unfold input_txids, add_children. revert index.
  induction (tx_input t) as [|i inputs IH]; intros index; simpl.
  - rewrite elem_of_nil. tauto.
  - rewrite IH, elem_of_cons. destruct (contains m _) eqn:E.
    + apply contains_spec in E. rewrite at_key_add. intuition (subst; eauto).
    + assert (~ in_pool m (txid (previous_output i))) by (rewrite <- contains_spec; congruence).
      intuition (subst; tauto).
Qed.

Lemma tight_children m id inputs index : tight index -> tight (add_children m id inputs index).
Proof.
  unfold add_children. revert index. induction inputs as [|i inputs IH]; intros index Ht; simpl; [done|].
  apply IH. destruct (contains m _); [by apply tight_add|done].
Qed.

Definition disjoint_keys {K V} `{Countable K} (ks : list K) (m : gmap K V) : Prop :=
  forall k, k ∈ ks -> m !! k = None.

Lemma disjoint_keys_cons {K V} `{Countable K} k ks (v : V) (m : gmap K V) :
  k ∉ ks -> (disjoint_keys (k :: ks) m <-> m !! k = None /\ disjoint_keys ks (<[k := v]> m)).
Proof.
  intros Hk. unfold disjoint_keys. setoid_rewrite elem_of_cons. split.
  - intros Hd. split; [by apply Hd; left|]. intros k' Hin. rewrite lookup_insert_ne by (intros <-; done).
    apply Hd. by right.
  - intros [E Hd] k' [->|Hin]; [done|]. specialize (Hd k' Hin). by apply lookup_insert_None in Hd as [].
Qed.

(** The inputs of one entry pass when none is claimed yet. *)
Lemma audit_inputs_Ok m id inputs claimed children r :
  audit_inputs m id inputs claimed children = Ok r <->
  NoDup (map previous_output inputs) /\ disjoint_keys (map previous_output inputs) claimed /\
  r = (foldl (fun s i => <[previous_output i := id]> s) claimed inputs, add_children m id inputs children).
Proof.
  revert claimed children. induction inputs as [|i inputs IH]; intros claimed children; simpl.
  - split; [|intros (_ & _ & ->); done]. intros [= <-]. split; [constructor|]. split; [|done].
    by intros k ?%not_elem_of_nil.
  - rewrite NoDup_cons. case_bool_decide as Hc; simpl.
    + split; [done|]. intros (_ & Hd & _). apply eq_None_not_Some in Hc; [done|].
      apply Hd. apply elem_of_cons. by left.
    + apply eq_None_not_Some in Hc. rewrite IH. unfold add_children. simpl. split.
      * intros (Hnd & Hd & ->). assert (Hin : previous_output i ∉ map previous_output inputs).
        { intros Hin. specialize (Hd _ Hin). by rewrite lookup_insert_eq in Hd. }
        split; [done|]. split; [|done]. by apply (disjoint_keys_cons _ _ id).
      * intros ([Hin Hnd] & Hd & ->). split; [done|]. split; [|done].
        by apply (disjoint_keys_cons _ _ id) in Hd as [_ ?].
Qed.

Lemma lookup_claim id inputs (claimed : gmap OutPoint bytes) o x :
  disjoint_keys (map previous_output inputs) claimed ->
  foldl (fun s i => <[previous_output i := id]> s) claimed inputs !! o = Some x <->
  (o ∈ map previous_output inputs /\ x = id) \/ claimed !! o = Some x.
Proof.
  assert (Hl : forall inputs (claimed : gmap OutPoint bytes),
    foldl (fun s i => <[previous_output i := id]> s) claimed inputs !! o =
    if decide (o ∈ map previous_output inputs) then Some id else claimed !! o).
  { clear. induction inputs as [|i inputs IH]; intros claimed; cbn [foldl map].
    - by rewrite decide_False by apply not_elem_of_nil.
    - rewrite IH. destruct (decide (o ∈ map previous_output inputs)) as [Hin|Hin].
      + rewrite decide_True; [done|]. apply elem_of_cons. by right.
      + destruct (decide (o = previous_output i)) as [->|Hne].
        * rewrite lookup_insert_eq, decide_True; [done|]. apply elem_of_cons. by left.
        * rewrite lookup_insert_ne, decide_False by (rewrite ?elem_of_cons; intuition congruence). done. }
  intros Hd. rewrite Hl. destruct (decide _) as [Hin|Hin].
  - rewrite (Hd o Hin). intuition congruence.
  - tauto.
Qed.

(** What the audit holds after the entries of [l]. *)
Record audited (m : Mempool) (l : list (bytes * MempoolEntry)) (a : audit) : Prop := {
  au_spent : forall o id, expected_spent a !! o = Some id <-> (o, id) ∈ claims l;
  au_wtxids : forall w id, expected_wtxids a !! w = Some id <->
    exists e, (id, e) ∈ l /\ compute_wtxid (transaction e) = w;
  au_children : forall p c, c ∈ at_key (expected_children a) p <->
    in_pool m p /\ exists e, (c, e) ∈ l /\ p ∈ input_txids (transaction e);
  au_tight : tight (expected_children a);
  au_bytes : expected_bytes a = foldl (fun s p => s +^ entry_bytes p.1 p.2) 0 l;
  au_vbytes : expected_vbytes a = foldl (fun s p => s +^ entry_vbytes p.1 p.2) 0 l;
  au_memory : expected_memory_usage a =
    foldl (fun s p => s +^ mempool_entry_memory_usage (transaction p.2)) 0 l;
}.

Record auditable (l : list (bytes * MempoolEntry)) : Prop := {
  ab_txid : Forall (fun p => compute_txid (transaction p.2) = p.1) l;
  ab_claims : NoDup (claims l).*1;
  ab_wtxids : NoDup (pool_wtxids l);
}.

Lemma claims_snoc l id e : claims (l ++ [(id, e)]) = claims l ++ map (., id) (input_outpoints (transaction e)).
Proof. unfold claims. rewrite bind_app. simpl. by rewrite app_nil_r. Qed.

Lemma claims_snoc_keys l id e : (claims (l ++ [(id, e)])).*1 = (claims l).*1 ++ input_outpoints (transaction e).
Proof. rewrite claims_snoc, fmap_app. f_equal.
  induction (input_outpoints (transaction e)) as [|o os IH]; [done|]. cbn. f_equal. exact IH.
Qed.

Lemma elem_of_snoc_pair (l : list (bytes * MempoolEntry)) id e id' e' :
  (id', e') ∈ l ++ [(id, e)] <-> (id', e') ∈ l \/ (id' = id /\ e' = e).
Proof. rewrite elem_of_app, list_elem_of_singleton. intuition congruence. Qed.

Lemma empty_audited m : audited m [] empty_audit.
Proof.
  split; try done; simpl; intros.
  - rewrite lookup_empty. split; [done|]. by intros ?%not_elem_of_nil.
  - rewrite lookup_empty. split; [done|]. by intros (? & ?%not_elem_of_nil & _).
  - rewrite at_key_empty. split; [done|]. by intros (_ & ? & ?%not_elem_of_nil & _).
Qed.

Lemma empty_auditable : auditable [].
Proof. split; constructor. Qed.

(** The entries claimed so far by the keys of the audit. *)
Lemma audited_fresh m l a o : audited m l a -> expected_spent a !! o = None <-> o ∉ (claims l).*1.
Proof.
  intros Ha. rewrite eq_None_not_Some, list_elem_of_fmap. split.
  - intros Hn ([o' id] & -> & Hin). apply Hn. exists id. by apply (au_spent m l a Ha).
  - intros Hn [id Hs]. apply Hn. exists (o, id). split; [done|]. by apply (au_spent m l a Ha).
Qed.

Lemma audited_fresh_wtxid m l a w : audited m l a -> expected_wtxids a !! w = None <-> w ∉ pool_wtxids l.
Proof.
  intros Ha. unfold pool_wtxids. rewrite eq_None_not_Some, list_elem_of_fmap. split.
  - intros Hn ([id e] & -> & Hin). apply Hn. exists id. apply (au_wtxids m l a Ha). eauto.
  - intros Hn [id (e & Hin & <-)%(au_wtxids m l a Ha)]. apply Hn. by exists (id, e).
Qed.

Lemma auditable_snoc m l a id e :
  audited m l a ->
  (auditable (l ++ [(id, e)]) <->
   auditable l /\ compute_txid (transaction e) = id /\
   expected_wtxids a !! compute_wtxid (transaction e) = None /\
   NoDup (input_outpoints (transaction e)) /\ disjoint_keys (input_outpoints (transaction e)) (expected_spent a)).
Proof.
  intros Ha. rewrite (audited_fresh_wtxid m l a _ Ha). split.
  - intros [Ht Hc Hw]. rewrite claims_snoc_keys in Hc. unfold pool_wtxids in Hw. rewrite map_app in Hw.
    apply Forall_app in Ht as [Ht Ht1]. apply Forall_inv in Ht1. apply NoDup_app in Hc as (Hc & Hd & Hn).
    apply NoDup_app in Hw as (Hw & Hd' & _). split_and!; try done.
    + intros Hin. apply (Hd' _ Hin). simpl. by apply list_elem_of_singleton.
    + intros o Ho. apply (audited_fresh m l a o Ha). intros Hin. by apply (Hd o Hin).
  - intros ([Ht Hc Hw] & Hid & Hwn & Hn & Hd). split.
    + apply Forall_app. split; [done|]. by constructor.
    + rewrite claims_snoc_keys. apply NoDup_app. split_and!; try done. intros o Hin Ho.
      by apply (audited_fresh m l a o Ha) in Hin; [|apply Hd].
    + unfold pool_wtxids. rewrite map_app. apply NoDup_app. split_and!; [done| |apply NoDup_singleton].
      intros w Hin ->%list_elem_of_singleton. done.
Qed.

Lemma audit_entry_Ok m l a id e :
  audited m l a -> auditable l ->
  match audit_entry m a id e with
  | Ok a' => audited m (l ++ [(id, e)]) a' /\ auditable (l ++ [(id, e)])
  | Err _ => ~ auditable (l ++ [(id, e)])
  end.
Proof.
  intros Ha Hl. pose proof (auditable_snoc m l a id e Ha) as Hsnoc. unfold audit_entry.
  case_bool_decide as Hid; [|tauto]. case_bool_decide as Hw; simpl.
  { rewrite Hsnoc. destruct Hw as [id' Hw]. intros (_ & _ & E & _). congruence. }
  apply eq_None_not_Some in Hw.
  destruct (audit_inputs _ _ _ _ _) as [r|err] eqn:E; simpl.
  2: { rewrite Hsnoc. intros (_ & _ & _ & Hn & Hd). 
       rewrite (proj2 (audit_inputs_Ok m id (tx_input (transaction e)) (expected_spent a) (expected_children a) _)
         (conj Hn (conj Hd eq_refl))) in E. done. }
  apply audit_inputs_Ok in E as (Hn & Hd & ->). rewrite Hsnoc. split; [|tauto]. clear Hsnoc.
  destruct Ha as [Hs Hws Hc Ht Hb Hv Hm]. split; simpl.
  - intros o id'. rewrite lookup_claim by done. rewrite claims_snoc, elem_of_app, Hs.
    rewrite (list_elem_of_fmap _ (input_outpoints (transaction e))). unfold input_outpoints.
    split; [intros [[Hin ->]|?]|intros [?|(o' & [= -> ->] & ?)]]; eauto.
  - intros w id'. destruct (decide (w = compute_wtxid (transaction e))) as [->|Hne].
    + rewrite lookup_insert_eq. split.
      * intros [= <-]. exists e. rewrite elem_of_snoc_pair. auto.
      * intros (e' & [Hin|[-> _]]%elem_of_snoc_pair & He); [|done].
        assert (expected_wtxids a !! compute_wtxid (transaction e) = Some id') by (apply Hws; eauto). congruence.
    + rewrite lookup_insert_ne, Hws by done. setoid_rewrite elem_of_snoc_pair. split; [naive_solver|].
      intros (e' & [?|[-> ->]] & ?); [eauto|congruence].
  - intros p c. rewrite at_key_children, Hc. setoid_rewrite elem_of_snoc_pair. naive_solver.
  - by apply tight_children.
  - by rewrite foldl_snoc, <- Hb.
  - by rewrite foldl_snoc, <- Hv.
  - by rewrite foldl_snoc, <- Hm.
Qed.

Lemma audit_entries_Ok m l l0 a :
  audited m l0 a -> auditable l0 ->
  match audit_entries m l a with
  | Ok a' => audited m (l0 ++ l) a' /\ auditable (l0 ++ l)
  | Err _ => ~ auditable (l0 ++ l)
  end.
Proof.
  revert l0 a. induction l as [|[id e] l IH]; intros l0 a Ha Hl; simpl; [by rewrite app_nil_r|].
  pose proof (audit_entry_Ok m l0 a id e Ha Hl) as H. destruct (audit_entry _ _ _ _) as [a'|err]; simpl.
  - destruct H as [Ha' Hl']. specialize (IH _ _ Ha' Hl'). by rewrite <- app_assoc in IH.
  - rewrite (cons_middle _ l0 l), app_assoc. intros [Ht Hc Hw]. apply H. split.
    + by apply Forall_app in Ht as [? _].
    + unfold claims in Hc. rewrite bind_app, fmap_app in Hc. by apply NoDup_app in Hc as [? _].
    + unfold pool_wtxids in Hw. rewrite map_app in Hw. by apply NoDup_app in Hw as [? _].
Qed.

(** ** The audit decides consistency *)

Lemma elem_of_map_iter {A} (m : gmap bytes A) k x : (k, x) ∈ map_iter m <-> m !! k = Some x.
Proof. by rewrite map_iter_perm, elem_of_map_to_list. Qed.

Lemma elem_of_set_iter (s : gset bytes) x : x ∈ set_iter s <-> x ∈ s.
Proof. by rewrite set_iter_perm, elem_of_elements. Qed.

Lemma map_iter_NoDup {A} (m : gmap bytes A) : NoDup (map_iter m).*1.
Proof. rewrite map_iter_perm. apply NoDup_fst_map_to_list. Qed.

Lemma forallb_elem {A} (f : A -> bool) l : forallb f l = true <-> forall x, x ∈ l -> f x = true.
Proof. rewrite forallb_forall. by setoid_rewrite list_elem_of_In. Qed.

Lemma forallb_map_iter {A} (f : bytes * A -> bool) (m : gmap bytes A) :
  forallb f (map_iter m) = true <-> forall k x, m !! k = Some x -> f (k, x) = true.
Proof.
  rewrite forallb_elem. split.
  - intros H k x E. by apply H, elem_of_map_iter.
  - intros H [k x] E%elem_of_map_iter. by apply H.
Qed.

Lemma same_keys_spec {A} (m : Mempool) (index : gmap bytes A) :
  same_keys m index = true <-> dom index =@{gset bytes} dom (entries m).
Proof.
  unfold same_keys. rewrite andb_true_iff, bool_decide_eq_true, forallb_map_iter. split.
  - intros [Hs Hk]. apply set_subseteq_size_eq.
    + intros k [x Hx]%elem_of_dom. by apply elem_of_dom, contains_spec, (Hk k x).
    + by rewrite !size_dom, Hs.
  - intros E. split; [by rewrite <- !size_dom, E|]. intros k x Hx. apply contains_spec, elem_of_dom.
    rewrite <- E. by apply elem_of_dom_2 in Hx.
Qed.

Lemma scripts_consistent_check m :
  (negb (electrum_index_enabled m) || same_keys m (scripts_by_transaction m) = true /\
   reverse_index_ok m = true /\ forward_index_ok m = true /\
   negb (electrum_index_enabled m) || same_keys m (input_script_values_by_transaction m) = true /\
   input_values_ok m = true)%bool <-> scripts_consistent m.
Proof.
  rewrite !orb_true_iff, !negb_true_iff, !same_keys_spec.
  unfold reverse_index_ok, forward_index_ok, input_values_ok. rewrite !forallb_map_iter. split.
  - intros (Hk & Hr & Hf & Hvk & Hv). split.
    + intros E. destruct Hk; congruence.
    + intros id script. split.
      * intros (ids & E & Hin)%at_key_nonempty. specialize (Hf _ _ E). simpl in Hf. bool_to_prop.
        rewrite forallb_elem in H0. specialize (H0 id (proj2 (elem_of_set_iter _ _) Hin)).
        destruct (_ !! id) as [scripts|] eqn:Es; [|done]. bool_to_prop. by exists scripts.
      * intros (scripts & E & Hin). specialize (Hr _ _ E). simpl in Hr. rewrite forallb_elem in Hr.
        specialize (Hr script Hin). unfold at_key. destruct (_ !! script); [|done]. by bool_to_prop.
    + intros k s E. specialize (Hf _ _ E). simpl in Hf. by bool_to_prop.
    + intros E. destruct Hvk; congruence.
    + intros id values E. specialize (Hv _ _ E). simpl in Hv. destruct (_ !! id) as [scripts|] eqn:Es; [|done].
      exists scripts. split; [done|]. apply Forall_forall. intros v Hin. rewrite forallb_elem in Hv.
      specialize (Hv v Hin). by bool_to_prop.
  - intros [Hk Hl Ht Hvk Hv]. split_and!.
    + destruct (electrum_index_enabled m); auto.
    + intros id scripts E. apply forallb_elem. intros script Hin.
      destruct (at_key_nonempty (transactions_by_script m) script id) as (ids & -> & Hids); [|by apply bool_decide_eq_true].
      apply Hl. by exists scripts.
    + intros script ids E. simpl. apply andb_true_iff. split; [by apply negb_true_iff, bool_decide_eq_false, (Ht script)|].
      apply forallb_elem. intros id Hid%elem_of_set_iter.
      destruct (proj1 (Hl id script)) as (scripts & -> & Hin); [by unfold at_key; rewrite E|].
      by apply bool_decide_eq_true.
    + destruct (electrum_index_enabled m); auto.
    + intros id values E. simpl. destruct (Hv id values E) as (scripts & -> & HF). apply forallb_elem.
      intros v Hin. apply bool_decide_eq_true. rewrite Forall_forall in HF. by apply HF.
Qed.

(** No outpoint is claimed twice when the entry that claims it is unique. *)
Lemma claims_NoDup l :
  NoDup l.*1 -> (forall id e, (id, e) ∈ l -> NoDup (input_outpoints (transaction e))) ->
  (forall o i j, (o, i) ∈ claims l -> (o, j) ∈ claims l -> i = j) -> NoDup (claims l).*1.
Proof.
  induction l as [|[id e] l IH] using rev_ind; intros Hk Hn Hu; [constructor|].
  rewrite fmap_app in Hk. apply NoDup_app in Hk as (Hk & Hd & _). rewrite claims_snoc_keys. apply NoDup_app.
  split_and!.
  - apply IH; [done| |]; intros; [apply (Hn id0 e0)|apply (Hu o)]; rewrite ?claims_snoc, ?elem_of_app; auto.
  - intros o ([o' j] & -> & Hin)%list_elem_of_fmap Ho. simpl in *.
    assert (j = id) as ->.
    { apply (Hu o'); rewrite claims_snoc, elem_of_app; [by left|]. right. apply list_elem_of_fmap. eauto. }
    apply elem_of_claims in Hin as (e' & Hin & _). apply (Hd id).
    + apply list_elem_of_fmap. by exists (id, e').
    + simpl. by apply list_elem_of_singleton.
  - apply (Hn id). rewrite elem_of_app, list_elem_of_singleton. by right.
Qed.

Lemma pool_wtxids_NoDup l :
  NoDup l.*1 ->
  (forall i j e f, (i, e) ∈ l -> (j, f) ∈ l -> compute_wtxid (transaction e) = compute_wtxid (transaction f) -> i = j) ->
  NoDup (pool_wtxids l).
Proof.
  induction l as [|[id e] l IH]; intros Hk Hu; simpl; [constructor|]. simpl in Hk. apply NoDup_cons in Hk as [Hin Hk].
  apply NoDup_cons. split.
  - intros ([j f] & E & Hj)%list_elem_of_fmap. apply Hin. simpl in *.
    assert (id = j) as ->; [|by apply list_elem_of_fmap; exists (j, f)].
    apply (Hu id j e f); [by left|by right|done].
  - apply IH; [done|]. intros i j e' f' Hi Hj. apply Hu; by right.
Qed.

Lemma indexed_auditable m : indexed m -> auditable (map_iter (entries m)).
Proof.
  intros H. split.
  - apply Forall_forall. intros [id e] E%elem_of_map_iter. by apply (c_txid m H).
  - apply claims_NoDup; [apply map_iter_NoDup| |].
    + intros id e E%elem_of_map_iter. by apply (c_inputs m H id).
    + intros o i j (e & Ei & Ho)%elem_of_claims (f & Ej & Ho')%elem_of_claims.
      apply elem_of_map_iter in Ei, Ej.
      assert (spent m !! o = Some i) by (apply (c_spent m H); by exists e).
      assert (spent m !! o = Some j) by (apply (c_spent m H); by exists f). congruence.
  - apply pool_wtxids_NoDup; [apply map_iter_NoDup|]. intros i j e f Ei Ej E.
    apply elem_of_map_iter in Ei, Ej.
    assert (wtxids m !! compute_wtxid (transaction e) = Some i) by (apply (c_wtxid m H); eauto).
    assert (wtxids m !! compute_wtxid (transaction e) = Some j) by (apply (c_wtxid m H); eauto). congruence.
Qed.

(** The recomputed indexes are the pool's exactly when the pool's are right. *)
Lemma audited_spent m a :
  audited m (map_iter (entries m)) a ->
  (spent m = expected_spent a <-> forall o id, spent m !! o = Some id <-> spends m id o).
Proof.
  intros Ha. assert (Hs : forall o id, expected_spent a !! o = Some id <-> spends m id o).
  { intros o id. rewrite (au_spent _ _ _ Ha), elem_of_claims. by setoid_rewrite elem_of_map_iter. }
  split; [by intros ->|]. intros H. apply map_eq. intros o. apply option_eq. intros id. by rewrite H, Hs.
Qed.

Lemma audited_wtxids m a :
  audited m (map_iter (entries m)) a ->
  (wtxids m = expected_wtxids a <-> forall w id, wtxids m !! w = Some id <->
    exists e, entries m !! id = Some e /\ compute_wtxid (transaction e) = w).
Proof.
  intros Ha. assert (Hs : forall w id, expected_wtxids a !! w = Some id <->
    exists e, entries m !! id = Some e /\ compute_wtxid (transaction e) = w).
  { intros w id. rewrite (au_wtxids _ _ _ Ha). by setoid_rewrite elem_of_map_iter. }
  split; [by intros ->|]. intros H. apply map_eq. intros o. apply option_eq. intros id. by rewrite H, Hs.
Qed.

Lemma audited_children m a :
  audited m (map_iter (entries m)) a ->
  (children_index m = expected_children a <->
   (forall p c, c ∈ at_key (children_index m) p <-> child_of m p c) /\ tight (children_index m)).
Proof.
  intros Ha. assert (Hs : forall p c, c ∈ at_key (expected_children a) p <-> child_of m p c).
  { intros p c. rewrite (au_children _ _ _ Ha). by setoid_rewrite elem_of_map_iter. }
  split.
  - intros ->. split; [exact Hs|apply (au_tight _ _ _ Ha)].
  - intros [H Ht]. apply index_ext; [done|apply (au_tight _ _ _ Ha)|]. intros. by rewrite H, Hs.
Qed.

Lemma sat_msum (f : bytes -> MempoolEntry -> Z) (m : gmap bytes MempoolEntry) a :
  (forall id e, m !! id = Some e -> 0 <= f id e) -> 0 <= a -> a + msum f m <= umax 64 ->
  foldl (fun s p => s +^ f p.1 p.2) a (map_iter m) = a + msum f m.
Proof.
  intros Hf Ha Hb. rewrite <- (msum_perm f m (map_iter m)) in * by apply map_iter_perm.
  apply (sat_sum (fun p => f p.1 p.2)); [|done|done]. apply Forall_forall. intros [id e] E%elem_of_map_iter. by apply Hf.
Qed.

Lemma msum_add {A} (f g : bytes -> A -> Z) m : msum (fun k x => f k x + g k x) m = msum f m + msum g m.
Proof. unfold msum. induction (map_to_list m); simpl; lia. Qed.

Lemma audited_totals m a :
  fits m -> audited m (map_iter (entries m)) a ->
  expected_bytes a = msum entry_bytes (entries m) /\ expected_vbytes a = msum entry_vbytes (entries m) /\
  foldl (fun usage p => usage +^ scripthash_index_memory_usage_for m p.1)
    (expected_memory_usage a) (map_iter (entries m)) = msum (entry_memory m) (entries m).
Proof.
  intros [Hv Hb Hvb Hm] Ha. rewrite (au_bytes _ _ _ Ha), (au_vbytes _ _ _ Ha), (au_memory _ _ _ Ha).
  set (f := fun (_ : bytes) e => mempool_entry_memory_usage (transaction e)).
  set (g := fun id (_ : MempoolEntry) => scripthash_index_memory_usage_for m id).
  assert (Hf : forall id e, entries m !! id = Some e -> 0 <= f id e).
  { intros. apply mempool_entry_memory_usage_nonneg. }
  assert (Hg : forall id e, entries m !! id = Some e -> 0 <= g id e).
  { intros. apply index_usage_for_nonneg. }
  assert (E : msum (entry_memory m) (entries m) = msum f (entries m) + msum g (entries m)) by apply (msum_add f g).
  pose proof (msum_nonneg f _ Hf). pose proof (msum_nonneg g _ Hg). split_and!.
  - rewrite sat_msum; [lia| |lia|lia]. intros. apply zlen_nonneg.
  - rewrite sat_msum; [lia|exact Hv|lia|lia].
  - rewrite (sat_msum f) by (done || lia). rewrite (sat_msum g) by (done || lia). lia.
Qed.

Lemma check_consistency_Ok m : fits m -> check_consistency m = Ok () <-> consistent m.
Proof.
  intros Hfit. pose proof (audit_entries_Ok m (map_iter (entries m)) [] empty_audit
    (empty_audited m) empty_auditable) as H. simpl in H. unfold check_consistency.
  destruct (audit_entries _ _ _) as [a|err]; simpl.
  2: { split; [done|]. intros [Hc%indexed_auditable]. done. }
  destruct H as [Ha Hl]. pose proof (audited_totals m a Hfit Ha) as (Eb & Ev & Em). rewrite Eb, Ev, Em.
  pose proof (audited_spent m a Ha) as Hs. pose proof (audited_wtxids m a Ha) as Hw.
  pose proof (audited_children m a Ha) as Hc. pose proof (scripts_consistent_check m) as Hsc. split.
  - intros H. res_inv. bool_to_prop. destruct Hl as [Ht Hn _].
    apply Hc in Heqb0 as [? ?]. split; [|done|done]. split; try done.
    + intros id e E. rewrite Forall_forall in Ht. by apply (Ht (id, e)), elem_of_map_iter.
    + by apply Hw.
    + intros id e E. apply elem_of_map_iter in E. apply list_elem_of_split in E as (l1 & l2 & E).
      rewrite E, cons_middle, app_assoc in Hn. unfold claims in Hn. rewrite bind_app, fmap_app in Hn.
      apply NoDup_app in Hn as [Hn _]. fold (claims (l1 ++ [(id, e)])) in Hn. rewrite claims_snoc_keys in Hn.
      by apply NoDup_app in Hn as (_ & _ & ?).
    + by apply Hs.
    + apply Hsc. done.
    + by apply same_keys_spec.
    + by apply same_keys_spec.
    + intros id Hid. apply elem_of_dom, contains_spec.
      match goal with H : forallb _ (set_iter _) = true |- _ => rewrite forallb_elem in H; by apply H, elem_of_set_iter end.
  - intros [[H1 H2 H3 H4 H7 H8 H9 H10 H11 H12 H13] H5 H6]. apply Hsc in H7 as (S1 & S2 & S3 & S4 & S5).
    rewrite !bool_decide_eq_true_2 by (apply Hs || apply Hw || apply Hc; auto). rewrite S1, S2, S3, S4, S5.
    rewrite (proj2 (same_keys_spec m (adjusted_weights m)) H8), (proj2 (same_keys_spec m (relay_sequences m)) H9).
    rewrite H10, H11, H12, !Z.eqb_refl. rewrite (proj2 (forallb_elem _ _)); [done|].
    intros id Hid%elem_of_set_iter. by apply contains_spec, elem_of_dom, H13.
Qed.

(** ** Admission keeps the indexes *)

Lemma link_inputs_eq id l m :
  foldl (link_input id) m l =
  set_children_index (add_children m id l (children_index m))
    (set_spent (foldl (fun s i => <[previous_output i := id]> s) (spent m) l) m).
Proof.
  revert m. induction l as [|i l IH]; intros m; simpl; [by destruct m|]. rewrite IH.
  unfold link_input, add_children, contains. simpl. case_bool_decide; by destruct m.
Qed.

(** What admission relies on. *)
Record admissible (m : Mempool) (t : Transaction) : Prop := {
  ad_new : entries m !! compute_txid t = None;
  ad_wtxid : wtxids m !! compute_wtxid t = None;
  ad_inputs : NoDup (input_outpoints t);
  ad_unspent : disjoint_keys (input_outpoints t) (spent m);
  ad_acyclic : compute_txid t ∉ input_txids t;
}.

Lemma elem_of_dedup l x : x ∈ dedup l <-> x ∈ l.
Proof.
  induction l as [|y l IH]; [done|]. destruct l as [|z l]; [done|].
  cbn [dedup]. case_bool_decide as E.
  - rewrite IH. subst. rewrite !elem_of_cons. tauto.
  - rewrite !(elem_of_cons _ x y), IH. done.
Qed.

Lemma input_scripts_indexed t outs :
  Forall (fun v => v.1 ∈ script_hashes_for_transaction t outs) (input_script_values_for_transaction t outs).
Proof.
  apply Forall_forall. intros v ([i o] & -> & Hin)%list_elem_of_fmap. simpl.
  unfold script_hashes_for_transaction. rewrite elem_of_dedup. unfold sort_ids. rewrite merge_sort_Permutation.
  rewrite elem_of_app. right. apply list_elem_of_fmap. exists o. split; [done|]. by apply elem_of_zip_r in Hin.
Qed.

Section Admit.
Context (t : Transaction) (fee size at_time height weight : Z) (outs : list TxOut) (rs : bool) (m : Mempool).
Let id := compute_txid t.
Let e := {| transaction := t; fee_sat := fee; vsize := size; added_at := at_time; entry_height := height |}.
Let m' := insert_entry t fee size at_time height weight outs rs m.
Let scripts := script_hashes_for_transaction t outs.
Let values := input_script_values_for_transaction t outs.

Ltac admit_field :=
  unfold m', insert_entry, index_transaction_scripts; rewrite link_inputs_eq; simpl;
  destruct (electrum_index_enabled m); reflexivity.

Lemma admit_entries : entries m' = <[id := e]> (entries m).
Proof. admit_field. Qed.
Lemma admit_spent : spent m' = foldl (fun s i => <[previous_output i := id]> s) (spent m) (tx_input t).
Proof. admit_field. Qed.
Lemma admit_children : children_index m' = add_children m id (tx_input t) (children_index m).
Proof. admit_field. Qed.
Lemma admit_wtxids : wtxids m' = <[compute_wtxid t := id]> (wtxids m).
Proof. admit_field. Qed.
Lemma admit_weights : adjusted_weights m' = <[id := weight]> (adjusted_weights m).
Proof. admit_field. Qed.
Lemma admit_sequences : relay_sequences m' = <[id := pool_sequence m]> (relay_sequences m).
Proof. admit_field. Qed.
Lemma admit_electrum : electrum_index_enabled m' = electrum_index_enabled m.
Proof. admit_field. Qed.
Lemma admit_unbroadcast : unbroadcast m' = unbroadcast m.
Proof. admit_field. Qed.
Lemma admit_bytes : total_bytes m' = usize_add (total_bytes m) (zlen (serialize t)).
Proof. admit_field. Qed.
Lemma admit_vbytes : vbytes m' = vbytes m +^ size.
Proof. admit_field. Qed.
Lemma admit_by_script : transactions_by_script m' =
  if electrum_index_enabled m
  then foldl (fun index script => add_to script id index) (transactions_by_script m) scripts
  else transactions_by_script m.
Proof. admit_field. Qed.
Lemma admit_scripts : scripts_by_transaction m' =
  if electrum_index_enabled m then <[id := scripts]> (scripts_by_transaction m) else scripts_by_transaction m.
Proof. admit_field. Qed.
Lemma admit_values : input_script_values_by_transaction m' =
  if electrum_index_enabled m then <[id := values]> (input_script_values_by_transaction m)
  else input_script_values_by_transaction m.
Proof. admit_field. Qed.

Lemma admit_index_usage : scripthash_index_memory_usage_for m' id =
  if electrum_index_enabled m then scripthash_index_memory_usage scripts values else 0.
Proof.
  unfold scripthash_index_memory_usage_for. rewrite admit_electrum, admit_scripts, admit_values.
  destruct (electrum_index_enabled m); [|done]. by rewrite !lookup_insert_eq.
Qed.
Lemma admit_index_usage_ne id' : id' <> id ->
  scripthash_index_memory_usage_for m' id' = scripthash_index_memory_usage_for m id'.
Proof.
  intros Hne. unfold scripthash_index_memory_usage_for. rewrite admit_electrum, admit_scripts, admit_values.
  destruct (electrum_index_enabled m); [|done]. by rewrite !lookup_insert_ne.
Qed.
Lemma admit_memory : memory_usage m' =
  memory_usage m +^ (mempool_entry_memory_usage t +^ scripthash_index_memory_usage_for m' id).
Proof.
  rewrite admit_index_usage. unfold scripts, values. admit_field.
Qed.

Lemma admit_scripts_consistent : entries m !! id = None -> scripts_consistent m -> scripts_consistent m'.
Proof.
  intros Hnew [Hk Hl Ht Hvk Hv].
  assert (Hn : electrum_index_enabled m = true -> scripts_by_transaction m !! id = None).
  { intros E. apply not_elem_of_dom. rewrite Hk by done. by apply not_elem_of_dom. }
  split; rewrite ?admit_electrum, ?admit_by_script, ?admit_scripts, ?admit_values, ?admit_entries.
  - intros E. rewrite E, !dom_insert_L, Hk; done.
  - intros id' script. unfold indexes_script. rewrite admit_scripts.
    destruct (electrum_index_enabled m) eqn:E; [|apply Hl]. rewrite at_key_adds, Hl. unfold indexes_script.
    destruct (decide (id' = id)) as [->|Hne].
    + rewrite lookup_insert_eq, (Hn eq_refl). split; [intros [[? _]|(? & [=] & _)]; eauto|].
      intros (ss & [= <-] & ?). by left.
    + rewrite lookup_insert_ne by done. split; [intros [[_ ?]|?]; done|auto].
  - destruct (electrum_index_enabled m); [by apply tight_adds|done].
  - intros E. rewrite E, !dom_insert_L, Hvk; done.
  - intros id' vs. destruct (electrum_index_enabled m); [|apply Hv].
    destruct (decide (id' = id)) as [->|Hne].
    + rewrite !lookup_insert_eq. intros [= <-]. exists scripts. split; [done|]. apply input_scripts_indexed.
    + rewrite !lookup_insert_ne by done. apply Hv.
Qed.

Context (Hm : indexed m) (Had : admissible m t) (Hfit : fits m').

Lemma admit_sum f f' :
  (forall id' e', id' <> id -> f' id' e' = f id' e') -> msum f' (entries m') = f' id e + msum f (entries m).
Proof.
  intros Hf. rewrite admit_entries, msum_insert by apply (ad_new m t Had). f_equal. apply msum_ext.
  intros id' e' E. apply Hf. intros ->. pose proof (ad_new m t Had). unfold id in *. congruence.
Qed.

Lemma admit_totals :
  total_bytes m' = msum entry_bytes (entries m') /\ vbytes m' = msum entry_vbytes (entries m') /\
  memory_usage m' = msum (entry_memory m') (entries m').
Proof.
  destruct Hfit as [Hv Hb Hvb Hme].
  assert (Hold : forall id' e', entries m !! id' = Some e' -> 0 <= vsize e').
  { intros id' e' E. apply (Hv id'). rewrite admit_entries, lookup_insert_ne; [done|].
    intros <-. pose proof (ad_new m t Had). unfold id in *. congruence. }
  rewrite (admit_sum entry_bytes entry_bytes) in * by done. rewrite (admit_sum entry_vbytes entry_vbytes) in * by done.
  rewrite (admit_sum (entry_memory m) (entry_memory m')) in *
    by (intros; unfold entry_memory; by rewrite admit_index_usage_ne).
  rewrite admit_bytes, admit_vbytes, admit_memory, (c_bytes m Hm), (c_vbytes m Hm), (c_memory m Hm).
  assert (0 <= msum entry_bytes (entries m)) by (apply msum_nonneg; intros; apply zlen_nonneg).
  assert (0 <= msum (entry_memory m) (entries m)) by (apply msum_nonneg; intros; apply entry_memory_nonneg).
  pose proof (zlen_nonneg (serialize t)). unfold usize_add, sat_add, umax, entry_bytes, entry_vbytes, entry_memory in *.
  simpl in *. split_and!; [rewrite Z.mod_small; lia|lia|lia].
Qed.

Lemma admit_lookup id' e' :
  entries m' !! id' = Some e' <-> (id' = id /\ e' = e) \/ entries m !! id' = Some e'.
Proof.
  rewrite admit_entries. pose proof (ad_new m t Had) as Hn. fold id in Hn.
  destruct (decide (id' = id)) as [->|Hne].
  - rewrite lookup_insert_eq, Hn. intuition congruence.
  - rewrite lookup_insert_ne by done. intuition congruence.
Qed.

Lemma admit_indexed : indexed m'.
Proof.
  destruct admit_totals as (Eb & Ev & Em). split; try done.
  - intros id' e' [[-> ->]|E]%admit_lookup; [done|]. by apply (c_txid m Hm).
  - intros w id'. setoid_rewrite admit_lookup. rewrite admit_wtxids. pose proof (ad_wtxid m t Had) as Hw.
    destruct (decide (w = compute_wtxid t)) as [->|Hne].
    + rewrite lookup_insert_eq. split; [intros [= <-]; exists e; auto|].
      intros (e' & [[-> ->]|E] & Ew); [done|].
      assert (wtxids m !! compute_wtxid t = Some id') by (apply (c_wtxid m Hm); eauto). congruence.
    + rewrite lookup_insert_ne, (c_wtxid m Hm) by done. split; [intros (e' & ? & ?); eauto|].
      intros (e' & [[-> ->]|E] & Ew); [by subst w|eauto].
  - intros id' e' [[-> ->]|E]%admit_lookup; [apply (ad_inputs m t Had)|by apply (c_inputs m Hm id')].
  - intros o id'. rewrite admit_spent, lookup_claim by apply (ad_unspent m t Had). rewrite (c_spent m Hm).
    unfold spends. setoid_rewrite admit_lookup. split.
    + intros [[Ho ->]|(e' & E & Ho)]; [exists e|exists e']; auto.
    + intros (e' & [[-> ->]|E] & Ho); [by left|]. right. eauto.
  - apply admit_scripts_consistent; [apply (ad_new m t Had)|apply (c_scripts m Hm)].
  - by rewrite admit_weights, admit_entries, !dom_insert_L, (c_weights m Hm).
  - by rewrite admit_sequences, admit_entries, !dom_insert_L, (c_sequences m Hm).
  - rewrite admit_unbroadcast, admit_entries, dom_insert_L. intros x Hx%(c_unbroadcast m Hm). by apply elem_of_union_r.
Qed.

(** The children index follows too, unless the pool already spends the new
    transaction's outputs. *)
Lemma admit_consistent :
  consistent m -> (forall id' e', entries m !! id' = Some e' -> id ∉ input_txids (transaction e')) -> consistent m'.
Proof.
  intros [_ Hc Ht] Hchildless. split; [apply admit_indexed| |rewrite admit_children; by apply tight_children].
  intros p c. rewrite admit_children, at_key_children, Hc. unfold child_of, in_pool. setoid_rewrite admit_lookup.
  split.
  - intros [([ep Ep] & -> & Hp)|([ep Ep] & ec & Ec & Hp)].
    + split; [exists ep; apply admit_lookup; by right|]. exists e. split; [by left|done].
    + split; [exists ep; apply admit_lookup; by right|]. exists ec. split; [by right|done].
  - intros ([ep [[-> ->]|Ep]%admit_lookup] & ec & [[-> ->]|Ec] & Hp).
    + by destruct (ad_acyclic m t Had).
    + by destruct (Hchildless c ec Ec).
    + left. split; [by exists ep|done].
    + right. split; [by exists ep|eauto].
Qed.
End Admit.

(** ** Removal keeps the indexes *)

Lemma unlink_inputs_eq id l m :
  foldl (unlink_input id) m l =
  set_children_index
    (foldl (fun index k => remove_from k id index) (children_index m) (map (fun i => txid (previous_output i)) l))
    (set_spent (foldl (fun s i => delete (previous_output i) s) (spent m) l) m).
Proof. revert m. induction l as [|i l IH]; intros m; simpl; [by destruct m|]. by rewrite IH. Qed.

Lemma lookup_unclaim inputs (claimed : gmap OutPoint bytes) o x :
  foldl (fun s i => delete (previous_output i) s) claimed inputs !! o = Some x <->
  (o ∉ map previous_output inputs) /\ claimed !! o = Some x.
Proof.
  revert claimed. induction inputs as [|i inputs IH]; intros claimed; cbn [foldl map].
  - rewrite elem_of_nil. tauto.
  - rewrite IH, lookup_delete_Some, elem_of_cons. intuition congruence.
Qed.

Lemma at_key_delete k index k' y : y ∈ at_key (delete k index) k' <-> k' <> k /\ y ∈ at_key index k'.
Proof.
  unfold at_key. destruct (decide (k' = k)) as [->|Hne].
  - rewrite lookup_delete_eq. simpl. split; [by intros ?%not_elem_of_empty|tauto].
  - rewrite lookup_delete_ne by done. tauto.
Qed.

Section Remove.
Context (id : bytes) (nz : bool) (m : Mempool) (e : MempoolEntry) (He : entries m !! id = Some e).
Let t := transaction e.
Let m' := (remove_with_notification id nz m).1.

Ltac remove_field :=
  unfold m', remove_with_notification; rewrite He; rewrite unlink_inputs_eq; unfold remove_transaction_scripts;
  simpl; destruct (scripts_by_transaction m !! id) eqn:E; simpl; rewrite ?(delete_id _ _ E); reflexivity.

Lemma remove_entries : entries m' = delete id (entries m).
Proof. remove_field. Qed.
Lemma remove_spent : spent m' = foldl (fun s i => delete (previous_output i) s) (spent m) (tx_input t).
Proof. remove_field. Qed.
Lemma remove_children : children_index m' =
  delete id (foldl (fun index k => remove_from k id index) (children_index m) (input_txids t)).
Proof. remove_field. Qed.
Lemma remove_wtxids : wtxids m' = delete (compute_wtxid t) (wtxids m).
Proof. remove_field. Qed.
Lemma remove_weights : adjusted_weights m' = delete id (adjusted_weights m).
Proof. remove_field. Qed.
Lemma remove_sequences : relay_sequences m' = delete id (relay_sequences m).
Proof. remove_field. Qed.
Lemma remove_electrum : electrum_index_enabled m' = electrum_index_enabled m.
Proof. remove_field. Qed.
Lemma remove_unbroadcast_set : unbroadcast m' = unbroadcast m ∖ {[id]}.
Proof. remove_field. Qed.
Lemma remove_bytes : total_bytes m' = sat_sub (total_bytes m) (zlen (serialize t)).
Proof. remove_field. Qed.
Lemma remove_vbytes : vbytes m' = sat_sub (vbytes m) (vsize e).
Proof. remove_field. Qed.
Lemma remove_memory : memory_usage m' =
  sat_sub (memory_usage m) (mempool_entry_memory_usage t +^ scripthash_index_memory_usage_for m id).
Proof. remove_field. Qed.
Lemma remove_by_script : transactions_by_script m' =
  foldl (fun index script => remove_from script id index) (transactions_by_script m)
    (default [] (scripts_by_transaction m !! id)).
Proof. remove_field. Qed.
Lemma remove_scripts : scripts_by_transaction m' = delete id (scripts_by_transaction m).
Proof. remove_field. Qed.
Lemma remove_values : input_script_values_by_transaction m' = delete id (input_script_values_by_transaction m).
Proof. remove_field. Qed.

Lemma remove_lookup id' e' : entries m' !! id' = Some e' <-> id' <> id /\ entries m !! id' = Some e'.
Proof. rewrite remove_entries, lookup_delete_Some. intuition congruence. Qed.

Lemma remove_index_usage id' : id' <> id ->
  scripthash_index_memory_usage_for m' id' = scripthash_index_memory_usage_for m id'.
Proof.
  intros Hne. unfold scripthash_index_memory_usage_for.
  by rewrite remove_electrum, remove_scripts, remove_values, !lookup_delete_ne.
Qed.

Lemma remove_sum f f' :
  (forall id' e', id' <> id -> f' id' e' = f id' e') -> msum f (entries m) = f id e + msum f' (entries m').
Proof.
  intros Hf. rewrite (msum_delete f _ id e He), remove_entries. f_equal. apply msum_ext.
  intros id' e' [Hne E]%lookup_delete_Some. symmetry. by apply Hf.
Qed.

Lemma remove_entry_memory id' e' : id' <> id -> entry_memory m' id' e' = entry_memory m id' e'.
Proof. intros. unfold entry_memory. by rewrite remove_index_usage. Qed.

Lemma remove_fits : fits m -> fits m'.
Proof.
  intros [Hv Hb Hvb Hm].
  rewrite (remove_sum entry_bytes entry_bytes) in Hb by done.
  rewrite (remove_sum entry_vbytes entry_vbytes) in Hvb by done.
  rewrite (remove_sum (entry_memory m) (entry_memory m')) in Hm by apply remove_entry_memory.
  pose proof (zlen_nonneg (serialize (transaction e))). pose proof (entry_memory_nonneg m id e).
  pose proof (Hv id e He). unfold entry_bytes at 1 in Hb. unfold entry_vbytes at 1 in Hvb.
  split; [|lia|lia|lia]. intros id' e' [_ E]%remove_lookup. by apply (Hv id').
Qed.

Lemma remove_totals : fits m -> indexed m ->
  total_bytes m' = msum entry_bytes (entries m') /\ vbytes m' = msum entry_vbytes (entries m') /\
  memory_usage m' = msum (entry_memory m') (entries m').
Proof.
  intros Hfit Hi. pose proof (remove_fits Hfit) as [Hv' _ _ _]. destruct Hfit as [Hv Hb Hvb Hm].
  rewrite remove_bytes, remove_vbytes, remove_memory, (c_bytes m Hi), (c_vbytes m Hi), (c_memory m Hi).
  rewrite (remove_sum entry_bytes entry_bytes), (remove_sum entry_vbytes entry_vbytes) by done.
  rewrite (remove_sum (entry_memory m) (entry_memory m')) in * by apply remove_entry_memory.
  assert (0 <= msum entry_bytes (entries m')) by (apply msum_nonneg; intros; apply zlen_nonneg).
  assert (0 <= msum (entry_memory m') (entries m')) by (apply msum_nonneg; intros; apply entry_memory_nonneg).
  pose proof (msum_nonneg entry_vbytes (entries m') Hv').
  set (rest := msum (entry_memory m') (entries m')) in *.
  unfold sat_sub, sat_add, entry_bytes, entry_vbytes, entry_memory, t in *. split_and!; lia.
Qed.

Lemma remove_scripts_consistent : scripts_consistent m -> scripts_consistent m'.
Proof.
  intros [Hk Hl Ht Hvk Hv].
  split; rewrite ?remove_electrum, ?remove_by_script, ?remove_scripts, ?remove_values, ?remove_entries.
  - intros E. by rewrite !dom_delete_L, Hk.
  - intros id' script. unfold indexes_script. rewrite remove_scripts, at_key_removes, Hl. unfold indexes_script.
    destruct (decide (id' = id)) as [->|Hne].
    + rewrite lookup_delete_eq. split; [|by intros (? & ? & _)].
      intros (Hn & scripts & E & Hin). rewrite E in Hn. by destruct Hn.
    + rewrite lookup_delete_ne by done. split; [by intros [_ ?]|]. intros ?. split; [by intros [_ ?]|done].
  - by apply tight_removes.
  - intros E. by rewrite !dom_delete_L, Hvk.
  - intros id' vs [Hne E]%lookup_delete_Some. rewrite lookup_delete_ne by done. by apply Hv.
Qed.

Lemma remove_indexed : fits m -> indexed m -> indexed m'.
Proof.
  intros Hfit Hm. destruct (remove_totals Hfit Hm) as (Eb & Ev & Em). split; try done.
  - intros id' e' [_ E]%remove_lookup. by apply (c_txid m Hm).
  - intros w id'. setoid_rewrite remove_lookup. rewrite remove_wtxids, lookup_delete_Some, (c_wtxid m Hm). split.
    + intros (Hne & e' & E & <-). exists e'. split; [split; [|done]|done]. intros ->. unfold t in Hne. congruence.
    + intros (e' & [Hne E] & <-). split; [|eauto]. intros Ew.
      assert (wtxids m !! compute_wtxid (transaction e') = Some id') by (apply (c_wtxid m Hm); eauto).
      assert (wtxids m !! compute_wtxid t = Some id) by (apply (c_wtxid m Hm); eauto). congruence.
  - intros id' e' [_ E]%remove_lookup. by apply (c_inputs m Hm id').
  - intros o id'. rewrite remove_spent, lookup_unclaim, (c_spent m Hm). unfold spends. setoid_rewrite remove_lookup.
    split.
    + intros (Hn & e' & E & Ho). exists e'. split; [split; [|done]|done]. intros ->.
      rewrite He in E. injection E as <-. done.
    + intros (e' & [Hne E] & Ho). split; [|eauto]. intros Ho'.
      assert (spent m !! o = Some id') by (apply (c_spent m Hm); by exists e').
      assert (spent m !! o = Some id) by (apply (c_spent m Hm); by exists e). congruence.
  - apply remove_scripts_consistent, (c_scripts m Hm).
  - by rewrite remove_weights, remove_entries, !dom_delete_L, (c_weights m Hm).
  - by rewrite remove_sequences, remove_entries, !dom_delete_L, (c_sequences m Hm).
  - rewrite remove_unbroadcast_set, remove_entries, dom_delete_L. intros x [Hx Hn]%elem_of_difference.
    apply elem_of_difference. split; [by apply (c_unbroadcast m Hm)|done].
Qed.

Lemma remove_child_of p c : child_of m' p c <-> p <> id /\ c <> id /\ child_of m p c.
Proof.
  unfold child_of, in_pool. split.
  - intros ([ep [Hp Ep]%remove_lookup] & ec & [Hc Ec]%remove_lookup & Hin). eauto 10.
  - intros (Hp & Hc & [ep Ep] & ec & Ec & Hin).
    split; [exists ep|exists ec; split; [|done]]; by apply remove_lookup.
Qed.

Lemma remove_linked :
  (forall p c, c ∈ at_key (children_index m) p <-> child_of m p c) -> tight (children_index m) ->
  (forall p c, c ∈ at_key (children_index m') p <-> child_of m' p c) /\ tight (children_index m').
Proof.
  intros Hc Ht. rewrite remove_children. split; [|by apply tight_delete, tight_removes].
  intros p c. rewrite at_key_delete, at_key_removes, Hc, remove_child_of. split.
  - intros (Hp & Hn & Hch). split; [done|]. split; [|done]. intros ->. destruct Hch as (_ & e' & E & Hin).
    rewrite He in E. injection E as <-. by apply Hn.
  - intros (Hp & Hne & Hch). split; [done|]. split; [by intros [_ ?]|done].
Qed.

Lemma remove_consistent_entry : fits m -> consistent m -> consistent m'.
Proof.
  intros Hfit [Hi Hc Ht]. destruct (remove_linked Hc Ht) as [Hc' Ht']. split; [by apply remove_indexed|done|done].
Qed.
End Remove.

(** Removing an unknown transaction does nothing. *)
Lemma remove_absent id nz m : entries m !! id = None -> (remove_with_notification id nz m).1 = m.
Proof. intros E. unfold remove_with_notification. by rewrite E. Qed.

Lemma remove_consistent id nz m :
  fits m -> consistent m ->
  fits (remove_with_notification id nz m).1 /\ consistent (remove_with_notification id nz m).1.
Proof.
  intros Hf Hc. destruct (entries m !! id) as [e|] eqn:E; [|by rewrite remove_absent].
  split; [by apply (remove_fits id nz m e)|by apply (remove_consistent_entry id nz m e)].
Qed.

Lemma remove_lookup_any id nz m id' e' :
  entries (remove_with_notification id nz m).1 !! id' = Some e' <-> id' <> id /\ entries m !! id' = Some e'.
Proof.
  destruct (entries m !! id) as [e|] eqn:E; [by apply (remove_lookup id nz m e)|].
  rewrite remove_absent by done. intuition congruence.
Qed.

(** ** The rebuilt children index *)

Lemma rebuild_linked m :
  let m' := rebuild_children_index m in
  (forall p c, c ∈ at_key (children_index m') p <-> child_of m' p c) /\ tight (children_index m').
Proof.
  cbn zeta. set (l := map_iter (entries m)).
  assert (H : forall l index, tight index ->
    let index' := foldl (fun index p => add_children m p.1 (tx_input (transaction p.2)) index) index l in
    tight index' /\ forall p c, c ∈ at_key index' p <->
      (in_pool m p /\ exists e, (c, e) ∈ l /\ p ∈ input_txids (transaction e)) \/ c ∈ at_key index p).
  { clear. induction l as [|[id e] l IH]; intros index Ht; simpl.
    - split; [done|]. intros p c. setoid_rewrite elem_of_nil. naive_solver.
    - destruct (IH (add_children m id (tx_input (transaction e)) index)) as [Ht' H']; [by apply tight_children|].
      split; [done|]. intros p c. rewrite H', at_key_children. setoid_rewrite elem_of_cons. naive_solver. }
  destruct (H l ∅ tight_empty) as [Ht Hc]. split; [|exact Ht]. intros p c. etrans; [apply Hc|].
  rewrite at_key_empty. unfold child_of, in_pool, l. setoid_rewrite elem_of_map_iter. tauto.
Qed.

Lemma rebuild_indexed m : indexed m -> indexed (rebuild_children_index m).
Proof. intros [? ? ? ? [] ? ? ? ? ? ?]. by split. Qed.

Lemma rebuild_consistent m : indexed m -> consistent (rebuild_children_index m).
Proof. intros H. destruct (rebuild_linked m). split; [by apply rebuild_indexed|done|done]. Qed.
End Indexes.
