(* ===== verification/MempoolGraph.v ===== *)
(** * The mempool's transaction graph ([mempool.rs])

    Parents, children and the traversals over them: the topological order,
    ancestors, descendants and clusters, recursive removal, what a new block
    removes, expiry, and the eviction that keeps the pool within its limit. *)

From Stdlib Require Import ZArith Lia SpecFloat.
From stdpp Require Import base list option gmap sorting relations.
From S2P Require Import Prelude Types BlockChecks FeeRate Mempool MempoolIndex.
Local Open Scope Z_scope.
Local Open Scope sat_scope.
Local Set Warnings "-clear-no-such-hyp".

(** ** Floating point

    [u64 as f64] rounds to nearest even; [f64::max] prefers a number. *)
Definition f64_of_u64 (z : Z) : spec_float := binary_normalize 53 1024 z 0 false.
Definition f64_max (a b : spec_float) : spec_float :=
  match a, b with
  | S754_nan, _ => b
  | _, S754_nan => a
  | _, _ => if SFltb a b then b else a
  end.

(** The loop shared by [ancestors], [descendants] and [connected_component]:
    pop an element, and push the successors that are neither blocked nor
    found yet.  [pending] has the top of the stack first. *)
Definition mark (blocked : bytes -> bool) (st : list bytes * gset bytes) (x : bytes) : list bytes * gset bytes :=
  if negb (blocked x) && negb (bool_decide (x ∈ st.2)) then (x :: st.1, {[x]} ∪ st.2) else st.

Fixpoint spread (fuel : nat) (next : bytes -> list bytes) (blocked : bytes -> bool)
  (pending : list bytes) (found : gset bytes) : gset bytes :=
  match fuel, pending with
  | S fuel, current :: pending =>
      let st := foldl (mark blocked) (pending, found) (next current) in
      spread fuel next blocked st.1 st.2
  | _, _ => found
  end.

(** The loop of [ancestors_for_transaction] and
    [check_cluster_limits_with_weight]: pop an element, and unless it is
    unknown or was found before, push all its successors. *)
Fixpoint sweep (fuel : nat) (next : bytes -> list bytes) (known : bytes -> bool)
  (pending : list bytes) (found : gset bytes) : gset bytes :=
  match fuel, pending with
  | S fuel, current :: pending =>
      if negb (known current) || bool_decide (current ∈ found) then sweep fuel next known pending found
      else sweep fuel next known (rev (next current) ++ pending) ({[current]} ∪ found)
  | _, _ => found
  end.

Section Graph.
Context {Ops : BitcoinOps} {POps : MempoolOps} {C : Consensus Transaction} {L : Layout} {HO : HashOrder}.

Definition keys (m : Mempool) : list bytes := map fst (map_iter (entries m)).

Definition pool_parents (m : Mempool) (t : Transaction) : list bytes := List.filter (contains m) (input_txids t).

Definition parents (m : Mempool) (id : bytes) : list bytes :=
  match entries m !! id with
  | None => []
  | Some entry => dedup (sort_ids (pool_parents m (transaction entry)))
  end.

Definition children (m : Mempool) (id : bytes) : list bytes :=
  sort_ids
    match children_index m !! id with
    | None => []
    | Some ids => List.filter (contains m) (set_iter ids)
    end.

(** ** The topological order *)

Definition order_before (m : Mempool) (l r : bytes) : Prop :=
  fee_delta m r < fee_delta m l \/ (fee_delta m r = fee_delta m l /\ bytes_le l r).
#[local] Instance order_before_dec (m : Mempool) : RelDecision (order_before m).
Proof. intros l r. unfold order_before. apply _. Defined.

(** The nested function [visit]; the state is [visited], [visiting] and
    [ordered]. *)
Fixpoint visit (fuel : nat) (m : Mempool) (st : gset bytes * gset bytes * list bytes) (id : bytes)
  : gset bytes * gset bytes * list bytes :=
  match fuel with
  | O => st
  | S fuel =>
      let '(visited, visiting, ordered) := st in
      if bool_decide (id ∈ visited) || bool_decide (id ∈ visiting) then st
      else
        let st := (visited, {[id]} ∪ visiting, ordered) in
        let '(visited, visiting, ordered) :=
          match entries m !! id with
          | Some entry => foldl (visit fuel m) st (sort_ids (pool_parents m (transaction entry)))
          | None => st
          end in
        ({[id]} ∪ visited, visiting ∖ {[id]}, ordered ++ [id])
  end.

(** The recursion follows ids that are being visited, so it is at most one
    deeper than the number of entries. *)
Definition order_fuel (m : Mempool) : nat := S (size (entries m)).

Definition transaction_order (m : Mempool) : list bytes :=
  (foldl (visit (order_fuel m) m) (∅, ∅, []) (merge_sort (order_before m) (keys m))).2.

(** ** Ancestors, descendants and clusters *)

(** Every iteration pops one element, and an element is pushed once. *)
Definition spread_fuel (m : Mempool) : nat := S (size (entries m)).

Definition in_order (m : Mempool) (found : gset bytes) : list bytes :=
  List.filter (fun id => bool_decide (id ∈ found)) (transaction_order m).

Definition ancestors (m : Mempool) (id : bytes) : list bytes :=
  if contains m id then
    in_order m (spread (spread_fuel m) (parents m) (fun x => bool_decide (x = id)) [id] ∅)
  else [].

Definition descendants (m : Mempool) (id : bytes) : list bytes :=
  if contains m id then
    in_order m (spread (spread_fuel m) (children m) (fun x => bool_decide (x = id)) [id] ∅)
  else [].

Definition connected_component (m : Mempool) (id : bytes) : gset bytes :=
  if contains m id then
    spread (spread_fuel m) (fun x => parents m x ++ children m x) (fun _ => false) [id] {[id]}
  else ∅.

(** Each known element pushes its successors once. *)
Definition sweep_fuel (m : Mempool) (next : bytes -> list bytes) (pending : list bytes) : nat :=
  length pending + sum_list_with (fun id => length (next id)) (keys m).

Definition ancestors_for_transaction (m : Mempool) (t : Transaction) : gset bytes :=
  let pending := rev (input_txids t) in
  sweep (sweep_fuel m (parents m) pending) (parents m) (contains m) pending ∅.

(** The neighbours pushed by the cluster check: the inputs, with repetition,
    and the children. *)
Definition neighbours (m : Mempool) (id : bytes) : list bytes :=
  match entries m !! id with Some entry => pool_parents m (transaction entry) | None => [] end ++ children m id.

Definition sum_u64 (l : list Z) : Z := foldl (fun a b => a +^ b) 0 l.

Definition check_cluster_limits_with_weight (m : Mempool) (t : Transaction) (transaction_weight : Z)
  : result MempoolError () :=
  let pending := rev (pool_parents m t) in
  let connected := sweep (sweep_fuel m (neighbours m) pending) (neighbours m) (fun _ => true) pending ∅ in
  let connected_weight := sum_u64 (map (adjusted_weight m) (set_iter connected)) +^ transaction_weight in
  let cluster_weight_limit := cluster_vsize_limit (policy m) *^ 4 in
  if (cluster_count_limit (policy m) <? Z.of_nat (size connected) +^ 1) || (cluster_weight_limit <? connected_weight)
  then Err ErrClusterLimit else Ok ().

(** ** Removing with descendants *)

Definition remove_all (m : Mempool) (ids : list bytes) : Mempool := foldl (fun m id => remove id m) m ids.

Definition remove_recursive (id : bytes) (m : Mempool) : Mempool :=
  remove id (remove_all m (reverse (descendants m id))).

Definition remove_confirmed_one (m : Mempool) (t : Transaction) : Mempool :=
  let id := compute_txid t in
  let m := (remove_with_notification id false m).1 in
  set_priorities (delete id (priorities m)) m.

Definition remove_confirmed (block : Block) (now : Z) (m : Mempool) : Mempool :=
  set_block_since_last_rolling_fee_bump true
    (set_rolling_fee_last_updated now (foldl remove_confirmed_one m (txdata block))).

(** The pool transactions whose inputs a block spends, in the order met. *)
Definition note_conflict (m : Mempool) (block_txid : bytes) (st : list bytes * gset bytes) (i : TxIn)
  : list bytes * gset bytes :=
  match spent m !! previous_output i with
  | None => st
  | Some id =>
      if bool_decide (id = block_txid) || bool_decide (id ∈ st.2) then st
      else (st.1 ++ [id], {[id]} ∪ st.2)
  end.

Definition block_conflicts (m : Mempool) (block : Block) : list bytes :=
  (foldl (fun st t => foldl (note_conflict m (compute_txid t)) st (tx_input t)) ([], ∅) (txdata block)).1.

Definition remove_conflicts (block : Block) (m : Mempool) : Mempool :=
  foldl (fun m id => remove_recursive id m) m (block_conflicts m block).

Definition clear_expired (now age : Z) (m : Mempool) : Mempool :=
  let cutoff := sat_sub now age in
  let expired := map fst (List.filter (fun p => added_at p.2 <? cutoff) (map_iter (entries m))) in
  foldl (fun m id => remove_recursive id m) m expired.

(** ** Eviction *)

Record eviction := { ev_package : gset bytes; ev_txid : bytes; ev_vsize : Z; ev_fee : Z }.

Definition package_vsize (m : Mempool) (package : gset bytes) : Z :=
  sum_u64 (map vsize (omap (fun id => entries m !! id) (set_iter package))).

Definition package_fee (m : Mempool) (package : gset bytes) : Z :=
  foldl fee_add 0
    (omap (fun id => entry ← entries m !! id; Some (fee_sat entry + fee_delta m id)) (set_iter package)).

Definition better_eviction (best : option eviction) (ev : eviction) : option eviction :=
  match best with
  | None => Some ev
  | Some b =>
      let left := fee_mul (ev_fee ev) (ev_vsize b) in
      let right := fee_mul (ev_fee b) (ev_vsize ev) in
      if (left <? right) || ((left =? right) && bytes_ltb (ev_txid ev) (ev_txid b)) then Some ev else best
  end.

Definition eviction_candidate (m : Mempool) (protected : gset bytes) (id : bytes) : option eviction :=
  let package : gset bytes := {[id]} ∪ list_to_set (descendants m id) in
  if existsb (fun x => bool_decide (x ∈ protected)) (set_iter package) then None
  else
    let size := package_vsize m package in
    if size =? 0 then None
    else Some {| ev_package := package; ev_txid := id; ev_vsize := size; ev_fee := package_fee m package |}.

Definition lowest_eviction_package (m : Mempool) (protected : gset bytes) : option eviction :=
  foldl (fun best id =>
    match eviction_candidate m protected id with
    | None => best
    | Some ev => better_eviction best ev
    end) None (keys m).

(** One round of [ensure_space]'s loop. *)
Definition evict (m : Mempool) (ev : eviction) : Mempool :=
  let package_fee_rate := fee_rate_from_package (ev_fee ev) (ev_vsize ev) in
  let m := set_rolling_min_fee_sat_per_kvb
    (f64_max (rolling_min_fee_sat_per_kvb m)
      (f64_of_u64 (package_fee_rate +^ incremental_relay_fee_sat_per_kvb (policy m)))) m in
  let m := set_block_since_last_rolling_fee_bump false m in
  remove_all m (set_iter (ev_package ev)).

Fixpoint evict_loop (fuel : nat) (additional_memory : Z) (protected : gset bytes) (m : Mempool)
  : Mempool * result MempoolError () :=
  if max_bytes m <? dynamic_memory_usage m +^ additional_memory then
    match fuel with
    | O => (m, Err ErrFull)
    | S fuel =>
        match lowest_eviction_package m protected with
        | None => (m, Err ErrFull)
        | Some ev => evict_loop fuel additional_memory protected (evict m ev)
        end
    end
  else (m, Ok ()).

(** Every round removes at least one entry. *)
Definition ensure_space (additional_memory : Z) (protected : gset bytes) (m : Mempool) : Mempool * result MempoolError () :=
  if max_bytes m <? additional_memory then (m, Err ErrFull)
  else evict_loop (S (size (entries m))) additional_memory protected m.

Definition enforce_size_limit (m : Mempool) : Mempool := (ensure_space 0 ∅ m).1.
End Graph.

(** ** Lemmas: the two loops find what is reachable *)

Section Traversal.
Context (next : bytes -> list bytes) (U : gset bytes).
Context (Hnext : forall x y, y ∈ next x -> y ∈ U).

Definition goes (x y : bytes) : Prop := y ∈ next x.

Lemma size_mark (found : gset bytes) x :
  x ∈ U -> x ∉ found -> size (U ∖ found) = S (size (U ∖ ({[x]} ∪ found))).
Proof.
  intros HU Hx. assert (U ∖ found = {[x]} ∪ U ∖ ({[x]} ∪ found)) as ->.
  { apply set_eq. intros y. rewrite elem_of_union, !elem_of_difference, elem_of_union, elem_of_singleton.
    destruct (decide (y = x)) as [->|]; tauto. }
  rewrite size_union, size_singleton; [done|]. intros y Hy%elem_of_singleton. subst.
  rewrite elem_of_difference, elem_of_union, elem_of_singleton. tauto.
Qed.

Section Spread.
Context (blocked : bytes -> bool).

Lemma mark_spec l pending found :
  Forall (fun x => x ∈ U) l ->
  let st := foldl (mark blocked) (pending, found) l in
  (length st.1 + size (U ∖ st.2) = length pending + size (U ∖ found))%nat /\
  (forall x, x ∈ st.2 <-> x ∈ found \/ (x ∈ l /\ blocked x = false)) /\
  (forall x, x ∈ st.1 <-> x ∈ pending \/ (x ∈ l /\ blocked x = false /\ x ∉ found)).
Proof.
  revert pending found. induction l as [|y l IH]; intros pending found HF; cbn [foldl].
  { simpl. setoid_rewrite elem_of_nil. split_and!; [done|naive_solver..]. }
  apply Forall_cons in HF as [Hy HF]. remember (mark blocked (pending, found) y) as st0 eqn:E0.
  unfold mark in E0. destruct (blocked y) eqn:Eb; simpl in E0.
  { subst st0. destruct (IH pending found HF) as (H1 & H2 & H3). split; [done|].
    split; intros x; [rewrite H2|rewrite H3]; rewrite elem_of_cons; intuition congruence. }
  case_bool_decide as Hin; simpl in E0; subst st0.
  { destruct (IH pending found HF) as (H1 & H2 & H3). split; [done|].
    split; intros x; [rewrite H2|rewrite H3]; rewrite elem_of_cons; intuition (subst; tauto). }
  destruct (IH (y :: pending) ({[y]} ∪ found) HF) as (H1 & H2 & H3). split_and!.
  - rewrite H1, (size_mark found y Hy Hin). simpl. lia.
  - intros x. rewrite H2, elem_of_union, elem_of_singleton, elem_of_cons. intuition (subst; tauto).
  - intros x. rewrite H3, elem_of_union, elem_of_singleton, !elem_of_cons.
    destruct (decide (x = y)) as [->|]; intuition congruence.
Qed.

(** What the loop has established when it stops: [start] and everything found
    have their successors found too. *)
Lemma spread_spec start fuel pending found :
  (length pending + size (U ∖ found) <= fuel)%nat ->
  (forall x, x ∈ pending -> x = start \/ x ∈ found) ->
  (forall x, x = start \/ x ∈ found -> x ∉ pending -> forall y, y ∈ next x -> blocked y = true \/ y ∈ found) ->
  (forall x, x ∈ found -> x = start \/ (tc goes start x /\ blocked x = false)) ->
  let F := spread fuel next blocked pending found in
  (forall x, x ∈ found -> x ∈ F) /\
  (forall x, x = start \/ x ∈ F -> forall y, y ∈ next x -> blocked y = true \/ y ∈ F) /\
  (forall x, x ∈ F -> x = start \/ (tc goes start x /\ blocked x = false)).
Proof.
  revert pending found. induction fuel as [|fuel IH]; intros [|current pending] found Hfuel Hp Hc Hr;
    cbn [spread length] in *; try lia;
    try (split_and!; [done| |done]; intros x Hx y Hy; by apply (Hc x Hx (not_elem_of_nil x))).
  destruct (mark_spec (next current) pending found) as (H1 & H2 & H3).
  { apply Forall_forall. intros x. apply Hnext. }
  destruct (foldl _ _ _) as [pending' found']. simpl in *.
  assert (Hs : forall x, tc goes start x \/ x = start -> forall y, y ∈ next x -> tc goes start y).
  { intros x [Hx| ->] y Hy; [by eapply tc_r|by apply tc_once]. }
  assert (Hcur : tc goes start current \/ current = start).
  { destruct (Hp current) as [?|Hf]; [by left|by right|]. destruct (Hr _ Hf) as [?|[? _]]; tauto. }
  destruct (IH pending' found') as (G1 & G2 & G3); [lia| | | |].
  - intros x [Hx|(Hx & Hb & _)]%H3; [|right; apply H2; auto].
    destruct (Hp x) as [?|?]; [by right|by left|right; apply H2; by left].
  - intros x Hx Hnp y Hy. rewrite H2. destruct (decide (x = current)) as [->|Hne].
    { destruct (blocked y) eqn:E; auto. }
    destruct (decide (x = start \/ x ∈ found)) as [Hx'|Hx'].
    + destruct (Hc x Hx') with y as [?|?]; auto. rewrite elem_of_cons. intros [?|Hin]; [done|].
      apply Hnp, H3. by left.
    + exfalso. apply Hnp, H3. destruct Hx as [?|[?|[? ?]]%H2]; [tauto..|]. right. tauto.
  - intros x [Hx|[Hx Hb]]%H2; [by apply Hr|]. right. split; [|done]. by apply (Hs current).
  - split_and!; [|done|done]. intros x Hx. apply G1, H2. by left.
Qed.
End Spread.

(** Everything reachable but the start itself. *)
Lemma spread_others start fuel x :
  (S (size U) <= fuel)%nat ->
  x ∈ spread fuel next (fun y => bool_decide (y = start)) [start] ∅ <-> x <> start /\ tc goes start x.
Proof.
  intros Hfuel. destruct (spread_spec (fun y => bool_decide (y = start)) start fuel [start] ∅) as (_ & H2 & H3).
  - simpl. rewrite difference_empty_L. done.
  - intros y ->%list_elem_of_singleton. by left.
  - intros y [->|?%not_elem_of_empty] Hn; [|done]. by rewrite list_elem_of_singleton in Hn.
  - by intros y ?%not_elem_of_empty.
  - split.
    + intros Hx. destruct (H3 x Hx) as [->|[Ht Hb]]; [|by bool_to_prop].
      exfalso. clear - Hx. assert (forall fuel pending found, start ∉ found ->
        start ∉ spread fuel next (fun y => bool_decide (y = start)) pending found) as Hn.
      { clear. induction fuel as [|fuel IH]; intros [|c pending] found Hf; simpl; try done. apply IH.
        revert pending found Hf. induction (next c) as [|y l IHl]; intros pending found Hf; simpl; [done|].
        unfold mark at 2. simpl. case_bool_decide as E; simpl; [by apply IHl|].
        case_bool_decide; simpl; apply IHl; [done|]. rewrite elem_of_union, elem_of_singleton. naive_solver. }
      by apply (Hn fuel [start] ∅ (not_elem_of_empty _)).
    + intros [Hne Ht]. assert (x = start \/ x ∈ spread fuel next (fun y => bool_decide (y = start)) [start] ∅)
        as [?|?]; [|done..].
      clear Hne. revert x Ht. apply tc_ind_r.
      * intros y Hy. destruct (H2 start (or_introl eq_refl) y Hy) as [?|?]; [left; by bool_to_prop|by right].
      * intros y z _ Hyz IH. destruct (H2 y IH z Hyz) as [?|?]; [left; by bool_to_prop|by right].
Qed.

(** The start and everything reachable. *)
Lemma spread_component start fuel x :
  start ∈ U -> (S (size U) <= fuel)%nat ->
  x ∈ spread fuel next (fun _ => false) [start] {[start]} <-> rtc goes start x.
Proof.
  intros HU Hfuel. destruct (spread_spec (fun _ => false) start fuel [start] {[start]}) as (H1 & H2 & H3).
  - simpl. pose proof (size_mark ∅ start HU (not_elem_of_empty _)) as E. rewrite difference_empty_L, union_empty_r_L in E. lia.
  - intros y ->%list_elem_of_singleton. by left.
  - intros y [->|Hy%elem_of_singleton] Hn; rewrite list_elem_of_singleton in Hn; done.
  - intros y ->%elem_of_singleton. by left.
  - split.
    + intros [->|[Ht _]]%H3; [done|]. by apply tc_rtc.
    + revert x. apply rtc_ind_r.
      * apply H1. by apply elem_of_singleton.
      * intros y z _ Hyz IH. by destruct (H2 y (or_intror IH) z Hyz).
Qed.

Section Sweep.
Context (known : bytes -> bool).

Definition work (s : gset bytes) : nat := sum_list_with (fun x => length (next x)) (elements s).

Lemma sum_list_with_perm {A} (f : A -> nat) l1 l2 : l1 ≡ₚ l2 -> sum_list_with f l1 = sum_list_with f l2.
Proof. induction 1; simpl; lia. Qed.

Lemma work_mark (found : gset bytes) x :
  x ∈ U -> x ∉ found -> work (U ∖ found) = (length (next x) + work (U ∖ ({[x]} ∪ found)))%nat.
Proof.
  intros HU Hx. assert (U ∖ found = {[x]} ∪ U ∖ ({[x]} ∪ found)) as ->.
  { apply set_eq. intros y. rewrite elem_of_union, !elem_of_difference, elem_of_union, elem_of_singleton.
    destruct (decide (y = x)) as [->|]; tauto. }
  unfold work. rewrite (sum_list_with_perm _ _ (x :: elements (U ∖ ({[x]} ∪ found)))); [done|].
  apply elements_union_singleton. rewrite elem_of_difference, elem_of_union, elem_of_singleton. tauto.
Qed.

Lemma sweep_spec (R : bytes -> Prop) fuel pending found :
  (forall x y, R x -> known x = true -> y ∈ next x -> R y) ->
  (length pending + work (U ∖ found) <= fuel)%nat ->
  (forall x, x ∈ pending -> R x /\ (known x = true -> x ∈ U)) ->
  (forall x y, x ∈ found -> y ∈ next x -> known y = true -> y ∈ found \/ y ∈ pending) ->
  (forall x, x ∈ found -> R x /\ known x = true) ->
  let F := sweep fuel next known pending found in
  (forall x, x ∈ found \/ (x ∈ pending /\ known x = true) -> x ∈ F) /\
  (forall x y, x ∈ F -> y ∈ next x -> known y = true -> y ∈ F) /\
  (forall x, x ∈ F -> R x /\ known x = true).
Proof.
  intros HR. revert pending found. induction fuel as [|fuel IH]; intros [|current pending] found Hfuel Hp Hc Hr;
    cbn [sweep length] in *; try lia.
  1,2: split_and!; [intros x [?|[?%not_elem_of_nil _]]; done| |done]; intros x y Hx Hy Hk;
    by destruct (Hc x y Hx Hy Hk) as [?|?%not_elem_of_nil].
  destruct (known current) eqn:Ek; simpl.
  2: { destruct (IH pending found) as (H1 & H2 & H3); [lia| | |done|].
       - intros x Hx. apply Hp. by right.
       - intros x y Hx Hy Hk. destruct (Hc x y Hx Hy Hk) as [?|[->|?]%elem_of_cons]; [by left|congruence|by right].
       - split_and!; [|done|done]. intros x [Hx|[[->|Hx]%elem_of_cons Hk]]; [apply H1; by left|congruence|].
         apply H1; by right. }
  case_bool_decide as Hin; simpl.
  { destruct (IH pending found) as (H1 & H2 & H3); [lia| | |done|].
    - intros x Hx. apply Hp. by right.
    - intros x y Hx Hy Hk. destruct (Hc x y Hx Hy Hk) as [?|[->|?]%elem_of_cons]; [by left..|by right].
    - split_and!; [|done|done]. intros x [Hx|[[->|Hx]%elem_of_cons Hk]]; apply H1; auto. }
  destruct (Hp current) as [HRc HUc]; [by left|]. specialize (HUc Ek).
  destruct (IH (rev (next current) ++ pending) ({[current]} ∪ found)) as (H1 & H2 & H3).
  - rewrite length_app, length_rev. rewrite (work_mark found current HUc Hin) in Hfuel. lia.
  - intros x [Hx|Hx]%elem_of_app; [|apply Hp; by right]. apply list_elem_of_In, in_rev, list_elem_of_In in Hx.
    split; [by apply (HR current)|]. intros _. by apply (Hnext current).
  - intros x y [->%elem_of_singleton|Hx]%elem_of_union Hy Hk.
    + right. apply elem_of_app. left. apply list_elem_of_In. apply -> in_rev. by apply list_elem_of_In.
    + destruct (Hc x y Hx Hy Hk) as [?|[->|?]%elem_of_cons].
      * left. by apply elem_of_union_r.
      * left. apply elem_of_union_l. by apply elem_of_singleton.
      * right. apply elem_of_app. by right.
  - intros x [->%elem_of_singleton|Hx]%elem_of_union; [done|by apply Hr].
  - split_and!; [|done|done]. intros x [Hx|[[->|Hx]%elem_of_cons Hk]]; apply H1.
    + left. by apply elem_of_union_r.
    + left. apply elem_of_union_l. by apply elem_of_singleton.
    + right. split; [|done]. apply elem_of_app. by right.
Qed.

(** Everything reachable from the known roots. *)
Lemma sweep_roots roots fuel y :
  (forall x y, y ∈ next x -> known y = true) -> (forall r, r ∈ roots -> known r = true -> r ∈ U) ->
  (length roots + work U <= fuel)%nat ->
  y ∈ sweep fuel next known roots ∅ <-> exists r, r ∈ roots /\ known r = true /\ rtc goes r y.
Proof.
  intros Hk HU Hfuel.
  destruct (sweep_spec (fun x => exists r, r ∈ roots /\ rtc goes r x /\ (known x = true -> known r = true))
    fuel roots ∅) as (H1 & H2 & H3).
  - intros x z (r & Hr & Hx & Hkx) Ex Hz. exists r. split; [done|]. split; [by eapply rtc_r|]. auto.
  - by rewrite difference_empty_L.
  - intros x Hx. split; [|by apply HU]. exists x. split; [done|]. split; [apply rtc_refl|done].
  - by intros x z ?%not_elem_of_empty.
  - by intros x ?%not_elem_of_empty.
  - split.
    + intros ((r & Hr & Hy & Hkr) & Ey)%H3. exists r. auto.
    + intros (r & Hr & Er & Hy). revert y Hy. apply rtc_ind_r.
      * apply H1. by right.
      * intros x z _ Hz IH. apply (H2 x z IH Hz). by apply (Hk x).
Qed.
End Sweep.
End Traversal.

(** ** Specifications *)

Section GraphSpecs.
Context {Ops : BitcoinOps} {POps : MempoolOps} {C : Consensus Transaction} {L : Layout} {HO : HashOrder}.

(** Every transaction comes after the transactions of the list it spends. *)
Definition parents_first (m : Mempool) (l : list bytes) : Prop :=
  forall l1 c l2 p, l = l1 ++ c :: l2 -> child_of m p c -> p ∈ l -> p ∈ l1.

Definition ancestor (m : Mempool) : bytes -> bytes -> Prop := tc (child_of m).

Lemma elem_of_keys m id : id ∈ keys m <-> in_pool m id.
Proof.
  unfold keys, in_pool. rewrite list_elem_of_fmap. split.
  - intros ([id' e] & -> & E%elem_of_map_iter). by exists e.
  - intros [e E]. exists (id, e). split; [done|]. by apply elem_of_map_iter.
Qed.

Lemma keys_NoDup m : NoDup (keys m).
Proof. apply map_iter_NoDup. Qed.

Lemma elem_of_filter_bool {A} (f : A -> bool) (l : list A) x : x ∈ List.filter f l <-> x ∈ l /\ f x = true.
Proof. by rewrite !list_elem_of_In, filter_In. Qed.

Lemma elem_of_sort l x : x ∈ sort_ids l <-> x ∈ l.
Proof. unfold sort_ids. by rewrite merge_sort_Permutation. Qed.

Lemma elem_of_pool_parents m t p : p ∈ pool_parents m t <-> in_pool m p /\ p ∈ input_txids t.
Proof. unfold pool_parents. rewrite elem_of_filter_bool, contains_spec. tauto. Qed.

Lemma elem_of_parents m c p : p ∈ parents m c <-> child_of m p c.
Proof.
  unfold parents, child_of. destruct (entries m !! c) as [e|].
  - rewrite elem_of_dedup, elem_of_sort, elem_of_pool_parents. split.
    + intros [Hp Hin]. eauto.
    + intros (Hp & e' & [= <-] & Hin). done.
  - rewrite elem_of_nil. split; [done|]. by intros (_ & e & [=] & _).
Qed.

Lemma elem_of_children m p c : consistent m -> c ∈ children m p <-> child_of m p c.
Proof.
  intros Hm. unfold children. rewrite elem_of_sort, <- (c_children m Hm). unfold at_key.
  destruct (children_index m !! p) as [s|] eqn:E; simpl.
  - rewrite elem_of_filter_bool, elem_of_set_iter, contains_spec. split; [tauto|]. intros Hc. split; [done|].
    destruct (proj1 (c_children m Hm p c)) as (_ & e & Ee & _); [unfold at_key; by rewrite E|by exists e].
  - rewrite elem_of_nil. split; [done|]. by intros ?%not_elem_of_empty.
Qed.

Lemma child_in_pool m p c : child_of m p c -> in_pool m p /\ in_pool m c.
Proof. intros (Hp & e & E & _). split; [done|by exists e]. Qed.

Lemma size_entries_dom m : size (entries m) = size (dom (entries m) : gset bytes).
Proof. by rewrite size_dom. Qed.

Lemma in_pool_dom m id : in_pool m id <-> id ∈ (dom (entries m) : gset bytes).
Proof. by rewrite elem_of_dom. Qed.

(** ** The topological order *)

Section Order.
Context (m : Mempool) (rank : bytes -> nat) (Hrank : forall p c, child_of m p c -> (rank p < rank c)%nat).

(** The state of the visit is sound, and holds nothing being visited. *)
Record visit_ok (st : gset bytes * gset bytes * list bytes) : Prop := {
  vo_visited : forall x, x ∈ st.1.1 <-> x ∈ st.2;
  vo_pool : forall x, x ∈ st.2 -> in_pool m x;
  vo_NoDup : NoDup st.2;
  vo_order : forall l1 c l2 p, st.2 = l1 ++ c :: l2 -> child_of m p c -> p ∈ l1;
  vo_visiting : st.1.2 ⊆ dom (entries m);
}.

(** [st'] extends [st] by transactions of rank at most [r]. *)
Definition extends (r : nat) (st st' : gset bytes * gset bytes * list bytes) : Prop :=
  st'.1.2 = st.1.2 /\ exists ext, st'.2 = st.2 ++ ext /\ forall x, x ∈ ext -> (rank x <= r)%nat.

Lemma extends_refl r st : extends r st st.
Proof. split; [done|]. exists []. rewrite app_nil_r. split; [done|]. by intros x ?%not_elem_of_nil. Qed.

Lemma extends_trans r st1 st2 st3 : extends r st1 st2 -> extends r st2 st3 -> extends r st1 st3.
Proof.
  intros (E1 & x1 & O1 & R1) (E2 & x2 & O2 & R2). split; [congruence|]. exists (x1 ++ x2).
  rewrite O2, O1, app_assoc. split; [done|]. intros x [?|?]%elem_of_app; auto.
Qed.

Lemma extends_weaken r r' st st' : (r <= r')%nat -> extends r st st' -> extends r' st st'.
Proof. intros Hr (E & x & O & R). split; [done|]. exists x. split; [done|]. intros y Hy. specialize (R y Hy). lia. Qed.

Definition enough (fuel : nat) (visiting : gset bytes) : Prop := (size (dom (entries m) ∖ visiting) < fuel)%nat.

Definition visit_spec (fuel : nat) : Prop := forall id st,
  visit_ok st -> enough fuel st.1.2 -> in_pool m id -> (forall v, v ∈ st.1.2 -> (rank id < rank v)%nat) ->
  visit_ok (visit fuel m st id) /\ extends (rank id) st (visit fuel m st id) /\ id ∈ (visit fuel m st id).2.

Lemma visit_list_spec fuel r l st :
  visit_spec fuel -> visit_ok st -> enough fuel st.1.2 ->
  (forall p, p ∈ l -> in_pool m p /\ (rank p <= r)%nat /\ forall v, v ∈ st.1.2 -> (rank p < rank v)%nat) ->
  let st' := foldl (visit fuel m) st l in
  visit_ok st' /\ extends r st st' /\ forall p, p ∈ l -> p ∈ st'.2.
Proof.
  intros Hv. revert st. induction l as [|p l IH]; intros st Hok Hf Hl; simpl.
  { split_and!; [done|apply extends_refl|]. by intros p ?%not_elem_of_nil. }
  destruct (Hl p) as (Hp & Hr & Hpv); [by left|]. destruct (Hv p st Hok Hf Hp Hpv) as (Hok' & Hext & Hin).
  destruct Hext as [E Hext]. destruct (IH (visit fuel m st p)) as (H1 & H2 & H3); [done|by rewrite E| |].
  { intros q Hq. rewrite E. apply Hl. by right. }
  assert (extends r st (visit fuel m st p)) by (apply (extends_weaken (rank p)); [done|by split]).
  split_and!; [done|by eapply extends_trans|]. intros q [->|Hq]%elem_of_cons; [|by apply H3].
  destruct H2 as (_ & ext & -> & _). apply elem_of_app. by left.
Qed.

(** Appending a transaction whose parents are all there. *)
Lemma visit_ok_snoc visited visiting ordered id :
  visit_ok (visited, {[id]} ∪ visiting, ordered) -> in_pool m id -> id ∉ ordered -> id ∉ visiting ->
  (forall p, child_of m p id -> p ∈ ordered) ->
  visit_ok ({[id]} ∪ visited, ({[id]} ∪ visiting) ∖ {[id]}, ordered ++ [id]).
Proof.
  intros [Hv Hp Hn Ho Hvis] Hid Hin Hnv Hpar. simpl in *. split; simpl.
  - intros x. rewrite elem_of_union, elem_of_singleton, elem_of_app, list_elem_of_singleton, Hv. tauto.
  - intros x [?| ->%list_elem_of_singleton]%elem_of_app; auto.
  - apply NoDup_app. split_and!; [done| |apply NoDup_singleton]. intros x Hx ->%list_elem_of_singleton. done.
  - intros l1 c l2 p E Hc. destruct l2 as [|z l2 _] using rev_ind.
    + apply app_inj_tail in E as [<- ->]. by apply Hpar.
    + rewrite app_comm_cons, app_assoc in E. apply app_inj_tail in E as [E _]. by apply (Ho l1 c l2 p).
  - intros x [Hx _]%elem_of_difference. by apply Hvis.
Qed.

Lemma visit_correct fuel : visit_spec fuel.
Proof.
  induction fuel as [|fuel IH]; intros id [[visited visiting] ordered] Hok Hf Hid Hr; [unfold enough in Hf; lia|].
  cbn [visit]. simpl in Hf, Hr.
  assert (id ∉ visiting) as Hnv. { intros Hin. specialize (Hr id Hin). lia. }
  case_bool_decide as Hvis; simpl.
  { split_and!; [done|apply extends_refl|]. by apply (vo_visited _ Hok). }
  rewrite bool_decide_eq_false_2 by done. destruct Hid as [e He]. rewrite He.
  set (l := sort_ids (pool_parents m (transaction e))).
  assert (Hl : forall p, p ∈ l <-> child_of m p id).
  { intros p. unfold l. rewrite elem_of_sort, elem_of_pool_parents. unfold child_of. split; [intros [? ?]; eauto|].
    intros (? & e' & E & ?). rewrite He in E. by injection E as <-. }
  assert (Hsz : enough fuel ({[id]} ∪ visiting)).
  { unfold enough in *. rewrite (size_mark (dom (entries m)) visiting id) in Hf; [lia| |done]. by apply in_pool_dom; exists e. }
  destruct (visit_list_spec fuel (pred (rank id)) l (visited, {[id]} ∪ visiting, ordered)) as (H1 & H2 & H3).
  - exact IH.
  - destruct Hok as [Hv Hp Hn Ho Hvs]. split; try done. simpl. intros x [->%elem_of_singleton|?]%elem_of_union.
    + apply in_pool_dom. by exists e.
    + by apply Hvs.
  - done.
  - intros p Hp%Hl. pose proof (Hrank p id Hp). split; [by apply child_in_pool in Hp as [? _]|]. split; [lia|].
    simpl. intros v [->%elem_of_singleton|Hv]%elem_of_union; [done|]. specialize (Hr v Hv). lia.
  - destruct (foldl _ _ _) as [[visited' visiting'] ordered'] eqn:Ef. unfold extends in H2. simpl in *.
    destruct H2 as (-> & ext & -> & Hext). assert (Hnin : id ∉ ordered ++ ext).
    { rewrite elem_of_app. intros [?|Hx]; [apply Hvis; by apply (vo_visited _ Hok)|].
      specialize (Hext id Hx). destruct l as [|p l'] eqn:El.
      - simpl in Ef. injection Ef as _ E. symmetry in E. rewrite <- (app_nil_r ordered) in E at 2.
        apply app_inv_head in E. subst ext. by apply not_elem_of_nil in Hx.
      - pose proof (Hrank p id (proj1 (Hl p) (list_elem_of_here p l'))). lia. }
    split_and!.
    + apply visit_ok_snoc; [done|by exists e|done|done|]. intros p Hp. apply H3. by apply Hl.
    + split; simpl.
      * apply set_eq. intros x. rewrite elem_of_difference, elem_of_union, elem_of_singleton.
        destruct (decide (x = id)) as [->|]; tauto.
      * exists (ext ++ [id]). rewrite app_assoc. split; [done|].
        intros x [Hx| ->%list_elem_of_singleton]%elem_of_app; [|done]. specialize (Hext x Hx). lia.
    + apply elem_of_app. right. by apply list_elem_of_singleton.
Qed.

Lemma transaction_order_spec :
  NoDup (transaction_order m) /\ (forall id, id ∈ transaction_order m <-> in_pool m id) /\
  parents_first m (transaction_order m).
Proof.
  unfold transaction_order. set (l := merge_sort (order_before m) (keys m)).
  assert (Hl : forall id, id ∈ l <-> in_pool m id).
  { intros id. unfold l. by rewrite merge_sort_Permutation, elem_of_keys. }
  set (r := foldr Nat.max 0%nat (map rank l)).
  assert (Hmax : forall p, p ∈ l -> (rank p <= r)%nat).
  { unfold r. clear. induction l as [|q l IH]; intros p; [by intros ?%not_elem_of_nil|].
    intros [->|Hp]%elem_of_cons; simpl; [lia|]. specialize (IH p Hp). lia. }
  destruct (visit_list_spec (order_fuel m) r l (∅, ∅, [])) as (H1 & _ & H3).
  - apply visit_correct.
  - split; simpl.
    + intros x. rewrite elem_of_nil. split; [apply not_elem_of_empty|done].
    + by intros x ?%not_elem_of_nil.
    + constructor.
    + intros l1 c l2 p E. by destruct l1.
    + by intros x ?%not_elem_of_empty.
  - unfold enough, order_fuel. simpl. rewrite difference_empty_L, size_entries_dom. lia.
  - intros p Hp. split; [by apply Hl|]. split; [by apply Hmax|]. by intros v ?%not_elem_of_empty.
  - split; [apply (vo_NoDup _ H1)|]. split.
    + intros id. split; [apply (vo_pool _ H1)|]. intros Hid. by apply H3, Hl.
    + intros l1 c l2 p E Hc _. by apply (vo_order _ H1 l1 c l2).
Qed.
End Order.
End GraphSpecs.

(** What the pool relies on of transaction ids: they commit to the inputs, so
    no chain of spends closes a cycle, and to the outputs; and a witness id
    determines the id. *)
Class TxidLaws `{BitcoinOps} `{MempoolOps} := {
  tx_rank : bytes -> nat;
  tx_rank_input t id : id ∈ input_txids t -> (tx_rank id < tx_rank (compute_txid t))%nat;
  txid_outputs t t' : compute_txid t = compute_txid t' -> tx_output t = tx_output t';
  wtxid_txid t t' : compute_wtxid t = compute_wtxid t' -> compute_txid t = compute_txid t';
}.

Lemma tc_flip {A} (R : A -> A -> Prop) x y : tc (fun a b => R b a) x y <-> tc R y x.
Proof.
  assert (H : forall (R : A -> A -> Prop) x y, tc (fun a b => R b a) x y -> tc R y x).
  { clear. intros R x y. induction 1 as [x y Hxy|x y z Hxy _ IH]; [by apply tc_once|by eapply tc_r]. }
  split; [apply H|]. apply (H (fun a b => R b a)).
Qed.

Lemma tc_iff {A} (R S : A -> A -> Prop) x y : (forall a b, R a b <-> S a b) -> tc R x y <-> tc S x y.
Proof.
  intros H. split; induction 1 as [a b Hab|a b c Hab _ IH]; apply H in Hab;
    [by apply tc_once|by apply (tc_l _ a b)|by apply tc_once|by apply (tc_l _ a b)].
Qed.

Lemma rtc_iff {A} (R S : A -> A -> Prop) x y : (forall a b, R a b <-> S a b) -> rtc R x y <-> rtc S x y.
Proof.
  intros H. split; induction 1 as [a|a b c Hab _ IH]; try apply rtc_refl; apply H in Hab; by apply (rtc_l _ a b).
Qed.

Section GraphTheorems.
Context {Ops : BitcoinOps} {POps : MempoolOps} {C : Consensus Transaction} {L : Layout} {HO : HashOrder}.
Context {TL : TxidLaws}.

Lemma child_rank m p c : indexed m -> child_of m p c -> (tx_rank p < tx_rank c)%nat.
Proof. intros Hm (_ & e & E & Hin). rewrite <- (c_txid m Hm c e E). by apply tx_rank_input. Qed.

Lemma ancestor_rank m p c : indexed m -> ancestor m p c -> (tx_rank p < tx_rank c)%nat.
Proof.
  intros Hm. induction 1 as [p c H|p q c H _ IH]; [by apply (child_rank m)|].
  pose proof (child_rank m p q Hm H). lia.
Qed.

Lemma ancestor_in_pool m p c : ancestor m p c -> in_pool m p /\ in_pool m c.
Proof. induction 1 as [p c H|p q c H _ IH]; apply child_in_pool in H; tauto. Qed.

Lemma parents_in_dom m x y : y ∈ parents m x -> y ∈ (dom (entries m) : gset bytes).
Proof. intros H%elem_of_parents. apply in_pool_dom. by apply child_in_pool in H as []. Qed.

Lemma children_in_dom m x y : consistent m -> y ∈ children m x -> y ∈ (dom (entries m) : gset bytes).
Proof. intros Hm H%(elem_of_children m x y Hm). apply in_pool_dom. by apply child_in_pool in H as []. Qed.

Lemma order_spec m : indexed m ->
  NoDup (transaction_order m) /\ (forall id, id ∈ transaction_order m <-> in_pool m id) /\
  parents_first m (transaction_order m).
Proof. intros Hm. apply (transaction_order_spec m tx_rank). intros p c. by apply child_rank. Qed.

Lemma in_order_spec (m : Mempool) (found : gset bytes) : indexed m -> (forall x, x ∈ found -> in_pool m x) ->
  NoDup (in_order m found) /\ (forall id, id ∈ in_order m found <-> id ∈ found) /\
  parents_first m (in_order m found).
Proof.
  intros Hm Hf. destruct (order_spec m Hm) as (Hn & Hin & Hp). unfold in_order.
  assert (Hel : forall id, id ∈ List.filter (fun id => bool_decide (id ∈ found)) (transaction_order m) <-> id ∈ found).
  { intros id. rewrite elem_of_filter_bool, bool_decide_eq_true, Hin. split; [tauto|]. auto. }
  split_and!.
  - apply NoDup_ListNoDup, List.NoDup_filter. by apply NoDup_ListNoDup.
  - exact Hel.
  - intros l1 c l2 p E Hc Hpin. clear Hel. revert Hp Hn E Hpin.
    generalize (transaction_order m). intros l Hp Hn E Hpin.
    assert (Hc' : exists k1 k2, l = k1 ++ c :: k2 /\ l1 = List.filter (fun id => bool_decide (id ∈ found)) k1).
    { clear - E. revert l1 E. induction l as [|x l IH]; intros l1 E; simpl in E; [by destruct l1|].
      destruct (bool_decide (x ∈ found)) eqn:Ex.
      - destruct l1 as [|y l1]; injection E as -> E; [by exists [], l|].
        destruct (IH l1 E) as (k1 & k2 & -> & ->). exists (y :: k1), k2. simpl. by rewrite Ex.
      - destruct (IH l1 E) as (k1 & k2 & -> & ->). exists (x :: k1), k2. simpl. by rewrite Ex. }
    destruct Hc' as (k1 & k2 & -> & ->). apply elem_of_filter_bool in Hpin as [Hpin Hpf].
    apply elem_of_filter_bool. split; [|done]. by apply (Hp k1 c k2 p).
Qed.

Lemma ancestors_spec m id : indexed m ->
  NoDup (ancestors m id) /\ (forall x, x ∈ ancestors m id <-> ancestor m x id) /\ parents_first m (ancestors m id).
Proof.
  intros Hm. unfold ancestors. destruct (contains m id) eqn:Ec.
  2: { split_and!; [constructor| |intros l1 ? ? ? E; by destruct l1]. intros x. rewrite elem_of_nil. split; [done|].
       intros H%ancestor_in_pool. apply proj2, contains_spec in H. congruence. }
  set (F := spread _ _ _ _ _). assert (HF : forall x, x ∈ F <-> ancestor m x id).
  { intros x. unfold F. rewrite (spread_others (parents m) (dom (entries m))).
    - unfold goes. rewrite (tc_iff _ (fun a b => child_of m b a)) by (intros; apply elem_of_parents).
      rewrite tc_flip. split; [tauto|]. intros Ha. split; [|done]. intros ->.
      pose proof (ancestor_rank m _ _ Hm Ha). lia.
    - intros y z. apply parents_in_dom.
    - unfold spread_fuel. by rewrite size_entries_dom. }
  destruct (in_order_spec m F Hm) as (H1 & H2 & H3).
  { intros x Hx%HF. by apply ancestor_in_pool in Hx as []. }
  split_and!; [done| |done]. intros x. by rewrite H2, HF.
Qed.

Lemma descendants_spec m id : consistent m ->
  NoDup (descendants m id) /\ (forall x, x ∈ descendants m id <-> ancestor m id x) /\
  parents_first m (descendants m id).
Proof.
  intros Hm. pose proof (c_indexed m Hm) as Hi. unfold descendants. destruct (contains m id) eqn:Ec.
  2: { split_and!; [constructor| |intros l1 ? ? ? E; by destruct l1]. intros x. rewrite elem_of_nil. split; [done|].
       intros H%ancestor_in_pool. apply proj1, contains_spec in H. congruence. }
  set (F := spread _ _ _ _ _). assert (HF : forall x, x ∈ F <-> ancestor m id x).
  { intros x. unfold F. rewrite (spread_others (children m) (dom (entries m))).
    - unfold goes. rewrite (tc_iff _ (child_of m)) by (intros; by apply elem_of_children).
      split; [tauto|]. intros Ha. split; [|done]. intros ->. pose proof (ancestor_rank m _ _ Hi Ha). lia.
    - intros y z. by apply children_in_dom.
    - unfold spread_fuel. by rewrite size_entries_dom. }
  destruct (in_order_spec m F Hi) as (H1 & H2 & H3).
  { intros x Hx%HF. by apply ancestor_in_pool in Hx as []. }
  split_and!; [done| |done]. intros x. by rewrite H2, HF.
Qed.

(** Transactions joined by a chain of spends in either direction. *)
Definition linked (m : Mempool) (a b : bytes) : Prop := child_of m a b \/ child_of m b a.

Lemma connected_component_spec m id x : consistent m ->
  x ∈ connected_component m id <-> in_pool m id /\ rtc (linked m) id x.
Proof.
  intros Hm. unfold connected_component. destruct (contains m id) eqn:Ec.
  2: { split; [by intros ?%not_elem_of_empty|]. intros [H%contains_spec _]. congruence. }
  apply contains_spec in Ec. rewrite (spread_component _ (dom (entries m))).
  - rewrite (rtc_iff _ (linked m)); [tauto|]. intros a b. unfold goes, linked.
    rewrite elem_of_app, elem_of_parents, elem_of_children by done. tauto.
  - intros y z [Hz|Hz]%elem_of_app; [by apply (parents_in_dom m y)|by apply (children_in_dom m y)].
  - by apply in_pool_dom.
  - unfold spread_fuel. by rewrite size_entries_dom.
Qed.

Lemma sweep_fuel_work m next pending : sweep_fuel m next pending = (length pending + work next (dom (entries m)))%nat.
Proof.
  unfold sweep_fuel, work. f_equal. apply sum_list_with_perm.
  apply NoDup_Permutation; [apply keys_NoDup|apply NoDup_elements|]. intros id.
  by rewrite elem_of_elements, <- in_pool_dom, elem_of_keys.
Qed.

Lemma ancestors_for_transaction_spec m t x : indexed m ->
  x ∈ ancestors_for_transaction m t <->
  exists p, p ∈ input_txids t /\ in_pool m p /\ (x = p \/ ancestor m x p).
Proof.
  intros Hm. unfold ancestors_for_transaction. rewrite (sweep_roots (parents m) (dom (entries m))).
  - setoid_rewrite contains_spec. setoid_rewrite list_elem_of_In. setoid_rewrite <- in_rev.
    setoid_rewrite <- list_elem_of_In. split.
    + intros (p & Hp & Hin & Hr). exists p. split; [done|]. split; [done|]. apply rtc_tc in Hr as [->|Ht]; [by left|].
      right. apply tc_flip. revert Ht. unfold goes. apply tc_iff. intros. split; apply elem_of_parents.
    + intros (p & Hp & Hin & Hr). exists p. split; [done|]. split; [done|]. apply rtc_tc.
      destruct Hr as [->|Ht]; [by left|right]. apply tc_flip in Ht. revert Ht. apply tc_iff.
      intros. split; apply elem_of_parents.
  - intros y z. apply parents_in_dom.
  - intros y z Hz. apply contains_spec, in_pool_dom. by apply (parents_in_dom m y).
  - intros r _ Hr%contains_spec. by apply in_pool_dom.
  - by rewrite sweep_fuel_work.
Qed.

(** The cluster a new transaction would join. *)
Lemma cluster_spec m t x : consistent m ->
  let pending := rev (pool_parents m t) in
  x ∈ sweep (sweep_fuel m (neighbours m) pending) (neighbours m) (fun _ => true) pending ∅ <->
  exists p, p ∈ input_txids t /\ in_pool m p /\ rtc (linked m) p x.
Proof.
  intros Hm. cbn zeta.
  assert (Hn : forall a b, b ∈ neighbours m a <-> linked m a b).
  { intros a b. unfold neighbours, linked. rewrite elem_of_app, elem_of_children by done.
    rewrite <- (elem_of_parents m a b). unfold parents. destruct (entries m !! a); [|rewrite !elem_of_nil; tauto].
    rewrite elem_of_dedup, elem_of_sort. tauto. }
  assert (Hd : forall a b, b ∈ neighbours m a -> b ∈ (dom (entries m) : gset bytes)).
  { intros a b [H|H]%Hn; apply child_in_pool in H; apply in_pool_dom; tauto. }
  rewrite (sweep_roots (neighbours m) (dom (entries m))).
  - setoid_rewrite list_elem_of_In. setoid_rewrite <- in_rev. setoid_rewrite <- list_elem_of_In.
    setoid_rewrite elem_of_pool_parents. unfold goes. split.
    + intros (p & [Hp Hin] & _ & Hr). exists p. split; [done|]. split; [done|]. revert Hr. apply rtc_iff. intros. split; apply Hn.
    + intros (p & Hin & Hp & Hr). exists p. split; [done|]. split; [done|]. revert Hr. apply rtc_iff. intros. split; apply Hn.
  - exact Hd.
  - done.
  - intros r Hr _. apply list_elem_of_In, in_rev, list_elem_of_In, elem_of_pool_parents in Hr as [Hr _].
    by apply in_pool_dom.
  - by rewrite sweep_fuel_work.
Qed.
End GraphTheorems.
