(* ===== verification/MempoolSafety.v ===== *)
(** * What the pool's operations guarantee

    Recursive removal takes out exactly a transaction and its descendants;
    eviction stops within the limit, spares the protected transactions and
    always takes the package that pays least; and the pool stays consistent
    through every sequence of operations. *)

From Stdlib Require Import ZArith Lia SpecFloat.
From stdpp Require Import base list option gmap sorting relations.
From S2P Require Import Prelude Types BlockChecks FeeRate Mempool MempoolIndex MempoolGraph.
Local Open Scope Z_scope.
Local Open Scope sat_scope.
Local Set Warnings "-clear-no-such-hyp".

Section Safety.
Context {Ops : BitcoinOps} {POps : MempoolOps} {C : Consensus Transaction} {L : Layout} {HO : HashOrder}.
Context {TL : TxidLaws}.

Definition pool_ok (m : Mempool) : Prop := fits m /\ consistent m.

(** ** Fields no index depends on *)

Ltac same_indexes :=
  match goal with H : pool_ok _ |- _ => destruct H as [[] [[? ? ? ? [] ? ? ? ? ? ?] ? ?]] end;
  split; [by split|split; [by split|done|done]].

Lemma pool_ok_priorities x m : pool_ok m -> pool_ok (set_priorities x m).
Proof. intros; same_indexes. Qed.
Lemma pool_ok_rolling x m : pool_ok m -> pool_ok (set_rolling_min_fee_sat_per_kvb x m).
Proof. intros; same_indexes. Qed.
Lemma pool_ok_updated x m : pool_ok m -> pool_ok (set_rolling_fee_last_updated x m).
Proof. intros; same_indexes. Qed.
Lemma pool_ok_bump x m : pool_ok m -> pool_ok (set_block_since_last_rolling_fee_bump x m).
Proof. intros; same_indexes. Qed.
Lemma pool_ok_limit x m : pool_ok m -> pool_ok (set_max_bytes x m).
Proof. intros; same_indexes. Qed.
Lemma pool_ok_dirty x m : pool_ok m -> pool_ok (set_graph_optimal_dirty x m).
Proof. intros; same_indexes. Qed.
Lemma pool_ok_unbroadcast s m : s ⊆ dom (entries m) -> pool_ok m -> pool_ok (set_unbroadcast s m).
Proof. intros; same_indexes. Qed.
Hint Resolve pool_ok_priorities pool_ok_rolling pool_ok_updated pool_ok_bump pool_ok_limit pool_ok_dirty : core.

Lemma pool_ok_remove id nz m : pool_ok m -> pool_ok (remove_with_notification id nz m).1.
Proof. intros [Hf Hc]. by destruct (remove_consistent id nz m Hf Hc). Qed.

Lemma prioritise_ok id d m : pool_ok m -> pool_ok (prioritise id d m).
Proof. intros H. unfold prioritise, invalidate_graph_optimality. destruct (_ && _); auto. Qed.

Lemma add_unbroadcast_ok id m : pool_ok m -> pool_ok (add_unbroadcast id m).
Proof.
  intros H. unfold add_unbroadcast. destruct (contains m id) eqn:E; [|done]. apply pool_ok_unbroadcast; [|done].
  intros x [->%elem_of_singleton|Hx]%elem_of_union; [by apply in_pool_dom, contains_spec|].
  destruct H as [_ [Hi _ _]]. by apply (c_unbroadcast m Hi).
Qed.

Lemma remove_unbroadcast_ok id m : pool_ok m -> pool_ok (remove_unbroadcast id m).
Proof.
  intros H. apply pool_ok_unbroadcast; [|done]. intros x [Hx _]%elem_of_difference.
  destruct H as [_ [Hi _ _]]. by apply (c_unbroadcast m Hi).
Qed.

Lemma rebuild_ok m : pool_ok m -> pool_ok (rebuild_children_index m).
Proof. intros [[] [Hi _ _]]. split; [by split|by apply rebuild_consistent]. Qed.

(** ** Removing lists of transactions *)

Lemma remove_all_ok ids m : pool_ok m -> pool_ok (remove_all m ids).
Proof.
  unfold remove_all, remove. revert m. induction ids as [|id ids IH]; intros m H; simpl; [done|].
  by apply IH, pool_ok_remove.
Qed.

Lemma pool_remove_all_lookup ids m x e :
  entries (remove_all m ids) !! x = Some e <-> (x ∉ ids) /\ entries m !! x = Some e.
Proof.
  unfold remove_all, remove. revert m. induction ids as [|id ids IH]; intros m; simpl.
  - rewrite elem_of_nil. tauto.
  - rewrite IH, remove_lookup_any, elem_of_cons. tauto.
Qed.

Lemma remove_recursive_ok id m : pool_ok m -> pool_ok (remove_recursive id m).
Proof. intros H. apply pool_ok_remove, remove_all_ok, H. Qed.

Lemma remove_recursive_lookup id m x e : consistent m ->
  entries (remove_recursive id m) !! x = Some e <-> x <> id /\ ~ ancestor m id x /\ entries m !! x = Some e.
Proof.
  intros Hm. unfold remove_recursive, remove at 1. rewrite remove_lookup_any, pool_remove_all_lookup, elem_of_reverse.
  destruct (descendants_spec m id Hm) as (_ & Hd & _). rewrite Hd. tauto.
Qed.

(** The removed transactions were closed under descendants, so what survives
    keeps its ancestors. *)
Lemma remove_recursive_child id m p c : consistent m ->
  child_of (remove_recursive id m) p c <-> c <> id /\ ~ ancestor m id c /\ p <> id /\ ~ ancestor m id p /\ child_of m p c.
Proof.
  intros Hm. unfold child_of, in_pool, is_Some. setoid_rewrite (remove_recursive_lookup id m); [|done|done].
  split; [intros ((ep & ? & ? & ?) & ec & (? & ? & ?) & ?); eauto 12|].
  intros (? & ? & ? & ? & (ep & ?) & ec & ? & ?). eauto 12.
Qed.

Lemma remove_recursive_ancestor id m p c : consistent m ->
  c <> id -> ~ ancestor m id c -> ancestor (remove_recursive id m) p c <-> ancestor m p c.
Proof.
  intros Hm Hc Hn. split.
  - induction 1 as [p c H|p q c H _ IH].
    + apply tc_once. apply remove_recursive_child in H; tauto.
    + apply (tc_l _ p q); [apply remove_recursive_child in H; tauto|]. by apply IH.
  - intros H. assert (Hs : forall x, ancestor m x c -> x <> id /\ ~ ancestor m id x).
    { intros x Hx. split; [by intros ->|]. intros Ha. apply Hn. by apply (tc_transitive _ x). }
    induction H as [p c H|p q c H Hqc IH].
    + apply tc_once, remove_recursive_child; [done|]. destruct (Hs p); [by apply tc_once|done].
    + destruct (Hs p) as [? ?]; [by apply (tc_l _ p q)|]. destruct (Hs q Hqc).
      apply (tc_l _ p q); [by apply remove_recursive_child|]. by apply IH.
Qed.

Lemma remove_recursives_ok ids m : pool_ok m -> pool_ok (foldl (fun m id => remove_recursive id m) m ids).
Proof. revert m. induction ids as [|id ids IH]; intros m H; simpl; [done|]. by apply IH, remove_recursive_ok. Qed.

Lemma remove_recursives_lookup ids m x e : pool_ok m ->
  entries (foldl (fun m id => remove_recursive id m) m ids) !! x = Some e <->
  entries m !! x = Some e /\ forall id, id ∈ ids -> x <> id /\ ~ ancestor m id x.
Proof.
  revert m. induction ids as [|id ids IH]; intros m Hm; simpl.
  - split; [|tauto]. intros ?. split; [done|]. by intros id ?%not_elem_of_nil.
  - rewrite IH by by apply remove_recursive_ok. destruct Hm as [_ Hm].
    rewrite remove_recursive_lookup by done. setoid_rewrite elem_of_cons. split.
    + intros ((Hne & Hn & E) & H). split; [done|]. intros id' [->|Hin]; [done|]. destruct (H id' Hin) as [? Ha].
      split; [done|]. by rewrite <- (remove_recursive_ancestor id m).
    + intros (E & H). destruct (H id) as [Hne Hn]; [by left|]. split; [done|]. intros id' Hin.
      destruct (H id') as [? Ha]; [by right|]. split; [done|]. by rewrite remove_recursive_ancestor.
Qed.

(** ** Blocks and expiry *)

Lemma remove_confirmed_ok block now m : pool_ok m -> pool_ok (remove_confirmed block now m).
Proof.
  intros H. unfold remove_confirmed. apply pool_ok_bump, pool_ok_updated. revert m H.
  induction (txdata block) as [|t txs IH]; intros m H; simpl; [done|].
  apply IH. unfold remove_confirmed_one. by apply pool_ok_priorities, pool_ok_remove.
Qed.

Lemma remove_confirmed_lookup block now m x e :
  entries (remove_confirmed block now m) !! x = Some e <->
  entries m !! x = Some e /\ (x ∉ map compute_txid (txdata block)).
Proof.
  unfold remove_confirmed. cbn [entries set_block_since_last_rolling_fee_bump set_rolling_fee_last_updated].
  revert m. induction (txdata block) as [|t txs IH]; intros m; simpl.
  - rewrite elem_of_nil. tauto.
  - rewrite IH, elem_of_cons. unfold remove_confirmed_one. cbn [entries set_priorities].
    rewrite remove_lookup_any. tauto.
Qed.

(** The list and the set of the conflicts met so far agree. *)
Definition seen_ok (st : list bytes * gset bytes) : Prop := forall x, x ∈ st.1 <-> x ∈ st.2.

Definition conflicts_by (m : Mempool) (bid : bytes) (i : TxIn) (id : bytes) : Prop :=
  spent m !! previous_output i = Some id /\ id <> bid.

Lemma note_conflict_spec m bid st i : seen_ok st ->
  seen_ok (note_conflict m bid st i) /\
  forall id, id ∈ (note_conflict m bid st i).1 <-> id ∈ st.1 \/ conflicts_by m bid i id.
Proof.
  intros Hst. unfold note_conflict, conflicts_by. destruct (spent m !! previous_output i) as [id'|] eqn:E.
  2: { split; [done|]. intros id. split; [by left|]. by intros [?|[? _]]. }
  case_bool_decide as Eb; [|case_bool_decide as Es]; simpl.
  - split; [done|]. intros id. intuition congruence.
  - split; [done|]. intros id. split; [by left|]. intros [?|[[= ->] _]]; [done|]. by apply Hst.
  - split.
    + intros x. simpl. rewrite elem_of_app, list_elem_of_singleton, elem_of_union, elem_of_singleton, (Hst x). tauto.
    + intros id. rewrite elem_of_app, list_elem_of_singleton. intuition congruence.
Qed.

Lemma note_conflicts_spec m bid inputs st : seen_ok st ->
  let st' := foldl (note_conflict m bid) st inputs in
  seen_ok st' /\ forall id, id ∈ st'.1 <-> id ∈ st.1 \/ exists i, i ∈ inputs /\ conflicts_by m bid i id.
Proof.
  revert st. induction inputs as [|i inputs IH]; intros st Hst; cbn [foldl].
  { split; [done|]. intros id. setoid_rewrite elem_of_nil. split; [by left|]. by intros [?|(? & [] & _)]. }
  destruct (note_conflict_spec m bid st i Hst) as [H1 H2]. destruct (IH _ H1) as [H3 H4]. split; [done|].
  intros id. rewrite H4, H2. setoid_rewrite elem_of_cons. split.
  - intros [[?|?]|(j & ? & ?)]; eauto.
  - intros [?|(j & [->|?] & ?)]; eauto.
Qed.

Lemma elem_of_block_conflicts m block id :
  id ∈ block_conflicts m block <->
  exists t i, t ∈ txdata block /\ i ∈ tx_input t /\ conflicts_by m (compute_txid t) i id.
Proof.
  unfold block_conflicts.
  assert (H : forall txs st, seen_ok st ->
    id ∈ (foldl (fun st t => foldl (note_conflict m (compute_txid t)) st (tx_input t)) st txs).1 <->
    id ∈ st.1 \/ exists t i, t ∈ txs /\ i ∈ tx_input t /\ conflicts_by m (compute_txid t) i id).
  { induction txs as [|t txs IH]; intros st Hst; simpl.
    { setoid_rewrite elem_of_nil. split; [by left|]. by intros [?|(? & ? & [] & _)]. }
    destruct (note_conflicts_spec m (compute_txid t) (tx_input t) st Hst) as [H1 H2]. rewrite IH, H2 by done.
    setoid_rewrite elem_of_cons. split.
    - intros [[?|(i & ? & ?)]|(t' & i & ? & ?)]; eauto 10.
    - intros [?|(t' & i & [->|?] & ? & ?)]; eauto 10. }
  rewrite H; [|intros x; simpl; rewrite elem_of_nil; split; [done|apply not_elem_of_empty]].
  simpl. rewrite elem_of_nil. tauto.
Qed.

(** ** Eviction *)

(** What remains was there before, with all its parents. *)
Definition keeps_parents (m m' : Mempool) : Prop :=
  (forall x e, entries m' !! x = Some e -> entries m !! x = Some e) /\
  (forall p c, in_pool m' c -> child_of m p c -> in_pool m' p).

Lemma keeps_refl m : keeps_parents m m.
Proof. split; [done|]. intros p c _ H. by apply child_in_pool in H as []. Qed.

Lemma keeps_trans m1 m2 m3 : keeps_parents m1 m2 -> keeps_parents m2 m3 -> keeps_parents m1 m3.
Proof.
  intros [H1 P1] [H2 P2]. split; [auto|]. intros p c Hc Hch. apply (P2 p c Hc).
  destruct Hc as [ec Ec]. pose proof (H2 c ec Ec) as Ec2. split; [apply (P1 p c); [by exists ec|done]|].
  destruct Hch as (_ & e & E & Hin). rewrite (H1 c ec Ec2) in E. injection E as ->. eauto.
Qed.

Lemma keeps_same m m' : entries m' = entries m -> keeps_parents m m'.
Proof.
  intros E. split; [intros x e; by rewrite E|]. intros p c _ H. unfold in_pool. rewrite E.
  by apply child_in_pool in H as [].
Qed.

Lemma remove_recursives_keeps ids m :
  pool_ok m -> keeps_parents m (foldl (fun m id => remove_recursive id m) m ids).
Proof.
  intros Hm. pose proof (fun x e => remove_recursives_lookup ids m x e Hm) as Hl.
  split; [intros x e [E _]%Hl; done|]. intros p c [ec (Ec & Hc)%Hl] Hch.
  destruct (child_in_pool m p c Hch) as [[ep Ep] _]. exists ep. apply Hl. split; [done|].
  intros id Hid. destruct (Hc id Hid) as [_ Hna].
  split; [intros <-; apply Hna; by apply tc_once|]. intros Ha. apply Hna. by eapply tc_r.
Qed.

Lemma evict_ok m ev : pool_ok m -> pool_ok (evict m ev).
Proof. intros H. unfold evict. by apply remove_all_ok, pool_ok_bump, pool_ok_rolling. Qed.

Lemma evict_lookup m ev x e :
  entries (evict m ev) !! x = Some e <-> (x ∉ ev_package ev) /\ entries m !! x = Some e.
Proof. unfold evict. by rewrite pool_remove_all_lookup, elem_of_set_iter. Qed.

Lemma eviction_candidate_Some m protected id ev :
  consistent m -> eviction_candidate m protected id = Some ev ->
  ev_txid ev = id /\ (forall x, x ∈ ev_package ev <-> x = id \/ ancestor m id x) /\
  (forall x, x ∈ ev_package ev -> x ∉ protected) /\
  ev_vsize ev = package_vsize m (ev_package ev) /\ ev_vsize ev <> 0 /\ ev_fee ev = package_fee m (ev_package ev).
Proof.
  intros Hm. unfold eviction_candidate. destruct (existsb _ _) eqn:Ex; [done|].
  destruct (Z.eqb_spec (package_vsize m ({[id]} ∪ list_to_set (descendants m id))) 0) as [|Hz]; [done|].
  intros [= <-]. simpl. split_and!; try done.
  - intros x. rewrite elem_of_union, elem_of_singleton, elem_of_list_to_set.
    by rewrite (proj1 (proj2 (descendants_spec m id Hm))).
  - intros x Hx Hp. apply not_true_iff_false in Ex. apply Ex, existsb_exists. exists x.
    split; [|by apply bool_decide_eq_true]. by apply list_elem_of_In, elem_of_set_iter.
Qed.

Lemma evict_keeps m ev protected id :
  consistent m -> eviction_candidate m protected id = Some ev -> keeps_parents m (evict m ev).
Proof.
  intros Hm Hev. destruct (eviction_candidate_Some m protected id ev Hm Hev) as (_ & Hp & _). split.
  - intros x e [_ E]%evict_lookup. done.
  - intros p c [ec [Hc Ec]%evict_lookup] Hch. destruct (child_in_pool m p c Hch) as [[ep Ep] _].
    exists ep. apply evict_lookup. split; [|done]. intros Hin. apply Hc, Hp. right.
    apply Hp in Hin as [->|Ha]; [by apply tc_once|by eapply tc_r].
Qed.

(** The fold over the candidates returns one of them. *)
Lemma lowest_fold m protected ids best ev :
  foldl (fun best id =>
    match eviction_candidate m protected id with
    | None => best
    | Some ev => better_eviction best ev
    end) best ids = Some ev ->
  best = Some ev \/ exists id, id ∈ ids /\ eviction_candidate m protected id = Some ev.
Proof.
  revert best. induction ids as [|id ids IH]; intros best; simpl; [by left|]. intros E.
  destruct (IH _ E) as [Eb|(id' & Hin & Ec)]; [|right; exists id'; split; [by right|done]].
  destruct (eviction_candidate m protected id) as [ev'|] eqn:Ec; [|by left].
  unfold better_eviction in Eb. destruct best as [b|].
  - destruct (_ || _); [|by left]. injection Eb as ->. right. exists id. split; [by left|done].
  - injection Eb as ->. right. exists id. split; [by left|done].
Qed.

Lemma lowest_eviction_candidate m protected ev :
  lowest_eviction_package m protected = Some ev ->
  exists id, in_pool m id /\ eviction_candidate m protected id = Some ev.
Proof.
  intros [E|(id & Hin & Ec)]%lowest_fold; [done|]. exists id. split; [by apply elem_of_keys|done].
Qed.

Lemma lowest_eviction_None m protected :
  lowest_eviction_package m protected = None ->
  forall id, in_pool m id -> eviction_candidate m protected id = None.
Proof.
  unfold lowest_eviction_package. setoid_rewrite <- elem_of_keys. generalize (keys m). intros ids.
  assert (H : forall ids best, foldl (fun best id =>
    match eviction_candidate m protected id with None => best | Some ev => better_eviction best ev end) best ids = None ->
    best = None /\ forall id, id ∈ ids -> eviction_candidate m protected id = None).
  { clear. induction ids as [|id ids IH]; intros best; simpl.
    - intros ->. split; [done|]. by intros id ?%not_elem_of_nil.
    - intros [Eb H]%IH. destruct (eviction_candidate m protected id) as [ev|] eqn:E.
      + unfold better_eviction in Eb. destruct best; [destruct (_ || _)|]; done.
      + split; [done|]. intros id' [->|?]%elem_of_cons; auto. }
  intros [_ Hn]%H. exact Hn.
Qed.

Lemma evict_smaller m protected ev :
  consistent m -> lowest_eviction_package m protected = Some ev ->
  (size (entries (evict m ev)) < size (entries m))%nat.
Proof.
  intros Hm (id & [e He] & Hc)%lowest_eviction_candidate.
  destruct (eviction_candidate_Some m protected id ev Hm Hc) as (_ & Hp & _).
  rewrite !size_entries_dom. apply subset_size. split.
  - intros x [ex [_ Ex]%evict_lookup]%in_pool_dom. apply in_pool_dom. by exists ex.
  - intros Hsub. destruct (proj2 (in_pool_dom (evict m ev) id)) as [e' [Hn _]%evict_lookup].
    + apply Hsub, in_pool_dom. by exists e.
    + apply Hn, Hp. by left.
Qed.

Lemma evict_loop_spec fuel additional protected m :
  pool_ok m -> (size (entries m) < fuel)%nat ->
  let '(m', r) := evict_loop fuel additional protected m in
  pool_ok m' /\ keeps_parents m m' /\ (forall x, x ∈ protected -> entries m' !! x = entries m !! x) /\
  match r with
  | Ok _ => dynamic_memory_usage m' +^ additional <= max_bytes m'
  | Err e => e = ErrFull /\ max_bytes m' < dynamic_memory_usage m' +^ additional /\
      forall id, in_pool m' id -> eviction_candidate m' protected id = None
  end.
Proof.
  revert m. induction fuel as [|fuel IH]; intros m Hm Hf; [lia|]. cbn [evict_loop].
  destruct (Z.ltb_spec (max_bytes m) (dynamic_memory_usage m +^ additional)) as [Hover|Hfine].
  2: { split_and!; [done|apply keeps_refl|done|done]. }
  destruct (lowest_eviction_package m protected) as [ev|] eqn:El.
  2: { split_and!; [done|apply keeps_refl|done|done|done|]. by apply lowest_eviction_None. }
  pose proof (evict_smaller m protected ev (proj2 Hm) El) as Hsz.
  destruct (lowest_eviction_candidate m protected ev El) as (id & Hid & Hc).
  specialize (IH (evict m ev) (evict_ok m ev Hm)). destruct (evict_loop fuel _ _ _) as [m' r].
  destruct IH as (H1 & H2 & H3 & H4); [lia|]. split_and!; [done| | |done].
  - eapply keeps_trans; [|done]. by apply (evict_keeps m ev protected id (proj2 Hm)).
  - intros x Hx. rewrite H3 by done. apply option_eq. intros e. rewrite evict_lookup.
    destruct (eviction_candidate_Some m protected id ev (proj2 Hm) Hc) as (_ & _ & Hp & _).
    split; [tauto|]. intros ?. split; [|done]. intros Hin. by apply (Hp x).
Qed.

(** ** Eviction takes the package that pays least *)

(** The modified fees of the whole pool leave room in 128 bits. *)
Definition fees_fit (m : Mempool) : Prop :=
  msum (fun id e => Z.abs (fee_sat e + fee_delta m id)) (entries m) < 2 ^ 62.

Lemma omap_cons_eq {A B} (g : A -> option B) x l :
  omap g (x :: l) = match g x with Some y => y :: omap g l | None => omap g l end.
Proof. done. Qed.

Lemma omap_sum_le (f : bytes -> MempoolEntry -> Z) (mm : gmap bytes MempoolEntry) ids :
  (forall id e, 0 <= f id e) -> NoDup ids ->
  foldr Z.add 0 (omap (fun id => e ← mm !! id; Some (f id e)) ids) <= msum f mm.
Proof.
  intros Hf Hn. revert mm. induction Hn as [|id ids Hin Hn IH]; intros mm.
  { apply msum_nonneg. auto. }
  rewrite omap_cons_eq. destruct (mm !! id) as [e|] eqn:E; cbn [mbind option_bind foldr]; [|apply IH].
  rewrite (msum_delete f mm id e E). specialize (IH (delete id mm)).
  enough (omap (fun x => e ← delete id mm !! x; Some (f x e)) ids = omap (fun x => e ← mm !! x; Some (f x e)) ids)
    as Eo by (rewrite Eo in IH; lia).
  clear - Hin. induction ids as [|x ids IH]; [done|]. rewrite not_elem_of_cons in Hin. destruct Hin as [Hne Hin].
  rewrite !omap_cons_eq, lookup_delete_ne, IH by done. done.
Qed.

Lemma fee_sum l a : Z.abs a + foldr Z.add 0 (map Z.abs l) < 2 ^ 126 -> foldl fee_add a l = a + foldr Z.add 0 l.
Proof.
  revert a. induction l as [|x l IH]; intros a H; cbn [foldl foldr map] in *; [lia|].
  assert (0 <= foldr Z.add 0 (map Z.abs l)). { apply total_nonneg, Forall_map, Forall_true. intros. lia. }
  unfold fee_add at 2. rewrite sat_i128_id by lia. rewrite IH by lia. lia.
Qed.

Lemma sum_abs l : Z.abs (foldr Z.add 0 l) <= foldr Z.add 0 (map Z.abs l).
Proof. induction l as [|x l IH]; cbn [foldr map]; lia. Qed.

Lemma map_omap_abs {A} (g : A -> option Z) l :
  map Z.abs (omap g l) = omap (fun x => z ← g x; Some (Z.abs z)) l.
Proof.
  induction l as [|x l IH]; [done|]. rewrite !omap_cons_eq. destruct (g x); cbn [mbind option_bind map]; congruence.
Qed.

Lemma package_fee_bound m package : fees_fit m -> Z.abs (package_fee m package) < 2 ^ 62.
Proof.
  intros Hf. unfold package_fee. set (l := omap _ _).
  assert (Hb : foldr Z.add 0 (map Z.abs l) < 2 ^ 62).
  { eapply Z.le_lt_trans; [|exact Hf]. unfold l. rewrite map_omap_abs.
    rewrite <- (omap_sum_le _ (entries m) (set_iter package)); [|intros; lia|rewrite set_iter_perm; apply NoDup_elements].
    apply Z.eq_le_incl. f_equal. clear l. induction (set_iter package) as [|x ids IH]; [done|].
    rewrite !omap_cons_eq, IH. by destruct (entries m !! x). }
  rewrite fee_sum by lia. pose proof (sum_abs l). lia.
Qed.

Lemma sum_u64_bound l : Forall (Z.le 0) l -> 0 <= sum_u64 l < 2 ^ 64.
Proof.
  intros HF. unfold sum_u64.
  assert (H : forall a, 0 <= a < 2 ^ 64 -> 0 <= foldl (fun a b => a +^ b) a l < 2 ^ 64); [|apply H; lia].
  induction HF as [|x l Hx HF IH]; intros a Ha; cbn [foldl]; [done|]. apply IH. unfold sat_add, umax. lia.
Qed.

Lemma package_vsize_bound m package : fits m -> 0 <= package_vsize m package < 2 ^ 64.
Proof.
  intros Hf. apply sum_u64_bound, Forall_map, Forall_forall. intros e (id & _ & E)%list_elem_of_omap.
  by apply (f_vsize m Hf id).
Qed.

(** The first pays no more per byte than the second. *)
Definition cheaper (a b : eviction) : Prop := ev_fee a * ev_vsize b <= ev_fee b * ev_vsize a.

Definition measured (ev : eviction) : Prop := 0 < ev_vsize ev < 2 ^ 64 /\ Z.abs (ev_fee ev) < 2 ^ 62.

Lemma cheaper_trans a b c : measured a -> measured b -> measured c -> cheaper a b -> cheaper b c -> cheaper a c.
Proof.
  unfold measured, cheaper. intros [Ha _] [Hb _] [Hc _] H1 H2.
  apply (Z.mul_le_mono_pos_r _ _ (ev_vsize b)); [lia|].
  apply (Z.mul_le_mono_nonneg_r _ _ (ev_vsize c)) in H1; [|lia].
  apply (Z.mul_le_mono_nonneg_r _ _ (ev_vsize a)) in H2; [|lia]. lia.
Qed.

Lemma fee_mul_measured a b : measured a -> measured b -> fee_mul (ev_fee a) (ev_vsize b) = ev_fee a * ev_vsize b.
Proof. intros [_ Hf] [Hv _]. unfold fee_mul. apply sat_i128_id. rewrite Z.abs_mul, (Z.abs_eq (ev_vsize b)) by lia. nia. Qed.

Lemma better_eviction_cheaper b ev c : measured b -> measured ev -> better_eviction (Some b) ev = Some c ->
  measured c /\ cheaper c b /\ cheaper c ev.
Proof.
  intros Hb He. unfold better_eviction, cheaper. rewrite !fee_mul_measured by done.
  destruct (_ || _) eqn:E; intros [= <-]; (split; [done|]).
  - apply orb_true_iff in E as [E|E]; bool_to_prop; lia.
  - bool_to_prop. lia.
Qed.

Lemma candidate_measured m protected id ev :
  pool_ok m -> fees_fit m -> eviction_candidate m protected id = Some ev -> measured ev.
Proof.
  intros [Hf Hc] Hff E. destruct (eviction_candidate_Some m protected id ev Hc E) as (_ & _ & _ & Ev & Hz & Ef).
  pose proof (package_vsize_bound m (ev_package ev) Hf). pose proof (package_fee_bound m (ev_package ev) Hff).
  unfold measured. rewrite Ef. lia.
Qed.

Lemma lowest_fold_least m protected ids best ev :
  pool_ok m -> fees_fit m -> (forall b, best = Some b -> measured b) ->
  foldl (fun best id =>
    match eviction_candidate m protected id with
    | None => best
    | Some ev => better_eviction best ev
    end) best ids = Some ev ->
  measured ev /\ (forall b, best = Some b -> cheaper ev b) /\
  forall id ev', id ∈ ids -> eviction_candidate m protected id = Some ev' -> cheaper ev ev'.
Proof.
  intros Hm Hff. revert best. induction ids as [|id ids IH]; intros best Hb E; cbn [foldl] in E.
  { subst best. split; [by apply Hb|]. split; [intros b [= <-]; unfold cheaper; lia|].
    by intros id ev' ?%not_elem_of_nil. }
  destruct (eviction_candidate m protected id) as [x|] eqn:Ex.
  2: { destruct (IH best Hb E) as (H1 & H2 & H3). split; [done|]. split; [done|].
       intros id' ev' [->|Hin]%elem_of_cons E'; [congruence|by apply (H3 id')]. }
  pose proof (candidate_measured m protected id x Hm Hff Ex) as Hx.
  destruct (better_eviction best x) as [c|] eqn:Ec.
  2: { unfold better_eviction in Ec. destruct best; [destruct (_ || _)|]; done. }
  assert (Hc : measured c /\ (forall b, best = Some b -> cheaper c b) /\ cheaper c x).
  { destruct best as [b|].
    - destruct (better_eviction_cheaper b x c (Hb b eq_refl) Hx Ec) as (? & ? & ?).
      split; [done|]. split; [by intros b' [= <-]|done].
    - injection Ec as <-. split; [done|]. split; [done|unfold cheaper; lia]. }
  destruct Hc as (Hc & Hcb & Hcx). destruct (IH (Some c)) as (H1 & H2 & H3); [by intros b [= <-]|done|].
  specialize (H2 c eq_refl). split; [done|]. split.
  - intros b Eb. apply (cheaper_trans ev c b); auto.
  - intros id' ev' [->|Hin]%elem_of_cons E'; [|by apply (H3 id')]. rewrite Ex in E'. injection E' as <-.
    by apply (cheaper_trans ev c x).
Qed.
End Safety.
