(* ===== verification/MempoolAccept.v ===== *)
(** * Admission of a transaction to the mempool ([mempool.rs])

    [accept_at_with_sequence] against a serving chain state.  The structural
    checks, the input and output accounting, finality, signature operations,
    the fee floors with the rolling minimum fee, the cluster limit, eviction
    and insertion are modelled.  The standardness, script and package policies
    that only read the pool are the class [PolicyOps]. *)

From Stdlib Require Import ZArith Lia SpecFloat.
From stdpp Require Import base list option strings gmap sorting relations.
From S2P Require Import Prelude Types VersionBits BlockChecks UtxoCodec ConnectBlock.
From S2P Require Import FeeRate Mempool MempoolIndex MempoolGraph MempoolSafety.
Local Open Scope Z_scope.
Local Open Scope sat_scope.
Local Set Warnings "-clear-no-such-hyp".

Definition MAX_STANDARD_TX_WEIGHT : Z := 400000.
Definition MAX_STANDARD_TX_SIGOPS_COST : Z := MAX_BLOCK_SIGOP_COST / 5.
Definition MIN_STANDARD_TX_NONWITNESS_SIZE : Z := 65.
Definition TRUC_VERSION : Z := 3.

(** What admission asks of the chain: the serving UTXO set, the height and
    median time past of its tip, and the deployments in force. *)
Record ChainView := {
  view_utxo : gmap OutPoint StoredUtxo;
  serving_height : Z;
  serving_median_time_past : Z;
  view_params : DeploymentParameters;
  reduced_data_active_for_next_block : option Z;
}.

(** The policies that are not modelled: each returns the error it rejects
    with. *)
Class PolicyOps := {
  (** [validate_reduced_data_output_sizes] and [.._input_sizes] *)
  reduced_data_error : Transaction -> list TxOut -> list Z -> Z -> option MempoolError;
  (** [validate_standard_policy_with_modified_fee_and_policy] *)
  standard_error : MempoolPolicy -> Transaction -> list TxOut -> Z -> Z -> option MempoolError;
  (** data carrier limits, reserved witness versions, uncompressed keys *)
  script_policy_error : MempoolPolicy -> Transaction -> list TxOut -> option MempoolError;
  (** [chain.validate_mempool_transaction_scripts] *)
  mempool_scripts_error : ChainView -> Transaction -> list TxOut -> option MempoolError;
  (** [validate_ephemeral_spends] *)
  ephemeral_error : Mempool -> Transaction -> option MempoolError;
  (** [check_truc_policy_with_replacement] *)
  truc_error : Mempool -> Transaction -> Z -> bool -> option MempoolError;
  (** [2.0_f64.powf(x)] *)
  powf_two : spec_float -> spec_float;
}.

Record AcceptOptions := {
  enforce_fee_rate : bool;
  enforce_mempool_policy : bool;
  enforce_truc_policy : bool;
  check_ephemeral_spends : bool;
  record_sequence : bool;
  allow_truc_descendant_replacement : bool;
  enforce_min_relay : bool;
  force_truc_min_relay : bool;
}.

(** ** The rolling minimum fee *)

Definition f64_div : spec_float -> spec_float -> spec_float := SFdiv 53 1024.

(** [x.round().clamp(0.0, u64::MAX as f64) as u64] *)
Definition f64_round_u64 (x : spec_float) : Z :=
  match x with
  | S754_finite false m e =>
      Z.min (if 0 <=? e then Zpos m * 2 ^ e else (Zpos m + 2 ^ (- e - 1)) / 2 ^ (- e)) (umax 64)
  | S754_infinity false => umax 64
  | _ => 0
  end.

Definition ROLLING_FEE_HALFLIFE_SECS : spec_float := f64_of_u64 43200.

Section Accept.
Context {Ops : BitcoinOps} {SOps : ScriptOps} {POps : MempoolOps} {C : Consensus Transaction}.
Context {L : Layout} {HO : HashOrder} {Pol : PolicyOps}.

Definition decay_rolling_min_fee (now : Z) (m : Mempool) : Mempool :=
  if negb (block_since_last_rolling_fee_bump m) || SFeqb (rolling_min_fee_sat_per_kvb m) (S754_zero false) then m
  else if now <=? rolling_fee_last_updated m +^ 10 then m
  else
    let halflife :=
      if memory_usage m <? max_bytes m / 4 then f64_div ROLLING_FEE_HALFLIFE_SECS (f64_of_u64 4)
      else if memory_usage m <? max_bytes m / 2 then f64_div ROLLING_FEE_HALFLIFE_SECS (f64_of_u64 2)
      else ROLLING_FEE_HALFLIFE_SECS in
    let elapsed := f64_of_u64 (sat_sub now (rolling_fee_last_updated m)) in
    let rolling := f64_div (rolling_min_fee_sat_per_kvb m) (powf_two (f64_div elapsed halflife)) in
    let rolling :=
      if SFltb rolling (f64_div (f64_of_u64 (incremental_relay_fee_sat_per_kvb (policy m))) (f64_of_u64 2))
      then S754_zero false else rolling in
    set_rolling_fee_last_updated now (set_rolling_min_fee_sat_per_kvb rolling m).

Definition mempool_get_min_fee_sat_per_kvb (now : Z) (m : Mempool) : Mempool * Z :=
  let m := decay_rolling_min_fee now m in
  let rolling := f64_round_u64 (rolling_min_fee_sat_per_kvb m) in
  (m, if block_since_last_rolling_fee_bump m && negb (rolling =? 0)
      then Z.max rolling (incremental_relay_fee_sat_per_kvb (policy m)) else rolling).

Definition mempool_min_fee_sat_per_kvb (now : Z) (m : Mempool) : Mempool * Z :=
  let '(m, fee) := mempool_get_min_fee_sat_per_kvb now m in
  (m, Z.max (min_relay_fee_sat_per_kvb (policy m)) fee).

Definition fee_rate_error (now fee size : Z) (m : Mempool) : Mempool * MempoolError :=
  let '(m, rolling_min_fee) := mempool_get_min_fee_sat_per_kvb now m in
  (m, if negb (rolling_min_fee =? 0) && negb (fee_rate_meets fee size rolling_min_fee)
      then ErrFeeRate else ErrMinRelayFee).

(** ** Checks *)

Definition reject (e : option MempoolError) : result MempoolError () :=
  match e with Some e => Err e | None => Ok () end.

Definition duplicate_error (m : Mempool) (t : Transaction) : option MempoolError :=
  existing ← entries m !! compute_txid t;
  let wtxid := compute_wtxid (transaction existing) in
  Some (if bool_decide (wtxid = compute_wtxid t) then ErrAlreadyPresent else ErrSameNonWitnessData wtxid).

Definition already_in_chain (chain : ChainView) (t : Transaction) : bool :=
  existsb (fun index =>
    match try_u 32 (Z.of_nat index) with
    | Some v => bool_decide (is_Some (view_utxo chain !! {| txid := compute_txid t; vout := v |}))
    | None => false
    end) (seq 0 (length (tx_output t))).

Definition accept_prechecks (chain : ChainView) (opts : AcceptOptions) (m : Mempool) (t : Transaction)
  : result MempoolError () :=
  let? _ := reject (duplicate_error m t) in
  check? negb (already_in_chain chain t) else ErrAlreadyInChain in
  check? negb (is_coinbase t) else ErrCoinbase in
  check? negb (existsb (fun i => is_null (previous_output i)) (tx_input t)) else ErrNullPrevout in
  check? negb (bool_decide (tx_input t = [])) else ErrEmptyInputs in
  check? negb (bool_decide (tx_output t = [])) else ErrEmptyOutputs in
  check? base_size t *^ 4 <=? MAX_BLOCK_WEIGHT else ErrOversized in
  check? negb (enforce_mempool_policy opts && require_standard (policy m) && (MAX_STANDARD_TX_WEIGHT <? tx_weight t))
    else ErrNonStandard (str "tx-size") in
  Ok ().

(** The coin an input spends: an output of a pool transaction, or a mature
    coin of the chain. *)
Definition resolve_input (chain : ChainView) (m : Mempool) (o : OutPoint) : result MempoolError StoredUtxo :=
  match entries m !! txid o with
  | Some entry =>
      let? out := ok_or (zget (tx_output (transaction entry)) (vout o)) (ErrMissingInput o) in
      Ok {| output := out; height := sat_add 32 (serving_height chain) 1;
            median_time_past := serving_median_time_past chain; coinbase := false |}
  | None =>
      let? coin := ok_or (view_utxo chain !! o) (ErrMissingInput o) in
      check? negb (coinbase coin && (sat_add 32 (serving_height chain) 1 <? sat_add 32 (height coin) COINBASE_MATURITY))
        else ErrPrematureCoinbase in
      Ok coin
  end.

Fixpoint accept_inputs (chain : ChainView) (m : Mempool) (inputs : list TxIn) (seen : gset OutPoint)
  (input_total : Z) : result MempoolError (list StoredUtxo * Z) :=
  match inputs with
  | [] => Ok ([], input_total)
  | i :: inputs =>
      let o := previous_output i in
      check? negb (bool_decide (o ∈ seen)) else ErrDuplicateInput in
      let? _ := reject (ErrConflict <$> spent m !! o) in
      let? coin := resolve_input chain m o in
      let? input_total := ok_or (checked_add 64 input_total (value (output coin))) ErrBadOutput in
      check? input_total <=? MAX_MONEY else ErrBadOutput in
      let? ' (coins, total) := accept_inputs chain m inputs ({[o]} ∪ seen) input_total in
      Ok (coin :: coins, total)
  end.

Fixpoint accept_outputs (outputs : list TxOut) (output_total : Z) : result MempoolError Z :=
  match outputs with
  | [] => Ok output_total
  | o :: outputs =>
      check? value o <=? 2 ^ 63 - 1 else ErrNegativeOutput in
      check? value o <=? MAX_MONEY else ErrOutputTooLarge in
      let? output_total := ok_or (checked_add 64 output_total (value o)) ErrOutputTotalTooLarge in
      check? output_total <=? MAX_MONEY else ErrOutputTotalTooLarge in
      accept_outputs outputs output_total
  end.

(** What the checks before the fee floors compute. *)
Record Assessment := {
  as_coins : list StoredUtxo;
  as_fee : Z;
  as_weight : Z;
  as_vsize : Z;
  as_modified_fee : Z;
}.
Definition as_outputs (a : Assessment) : list TxOut := map output (as_coins a).

Definition assess (chain : ChainView) (opts : AcceptOptions) (m : Mempool) (t : Transaction)
  : result MempoolError Assessment :=
  let next_height := sat_add 32 (serving_height chain) 1 in
  let? _ := accept_prechecks chain opts m t in
  let? ' (coins, input_total) := accept_inputs chain m (tx_input t) ∅ 0 in
  let outs := map output coins in
  let? _ :=
    match reduced_data_active_for_next_block chain with
    | Some activation => reject (reduced_data_error t outs (map height coins) activation)
    | None => Ok ()
    end in
  let? _ :=
    map_err (fun _ => ErrScript)
      (validate_transaction_finality_with_metadata t next_height (serving_median_time_past chain) true
        (map (fun c => (height c, median_time_past c)) coins)) in
  let? output_total := accept_outputs (tx_output t) 0 in
  check? output_total <=? input_total else ErrNegativeFee in
  let fee := input_total - output_total in
  let sigop_cost := transaction_sigop_cost t outs
    (script_flags_for_block_with_params (view_params chain) next_height None) in
  check? sigop_cost <=? MAX_STANDARD_TX_SIGOPS_COST else ErrNonStandard (str "bad-txns-too-many-sigops") in
  let weight := Z.max (tx_weight t) (sigop_cost *^ bytes_per_sigop (policy m)) in
  let size := (weight +^ 3) / 4 in
  let modified := sat_i64 (Z.min fee (2 ^ 63 - 1) + fee_delta m (compute_txid t)) in
  let? _ := if require_standard (policy m) then reject (standard_error (policy m) t outs fee modified) else Ok () in
  let? _ := reject (script_policy_error (policy m) t outs) in
  check? MIN_STANDARD_TX_NONWITNESS_SIZE <=? base_size t else ErrNonStandard (str "tx-size-small") in
  let? _ := reject (mempool_scripts_error chain t outs) in
  Ok {| as_coins := coins; as_fee := fee; as_weight := weight; as_vsize := size; as_modified_fee := modified |}.

(** The fee floors; the rolling fee decays when it is consulted. *)
Definition check_fee_floors (opts : AcceptOptions) (now : Z) (t : Transaction) (a : Assessment) (m : Mempool)
  : Mempool * result MempoolError () :=
  let enforce := bool_decide (truc_policy (policy m) = TrucEnforce) in
  let exception := (tx_version t =? TRUC_VERSION) && enforce && negb (force_truc_min_relay opts) in
  if enforce_min_relay opts && enforce && negb exception &&
     negb (fee_rate_meets (as_modified_fee a) (as_vsize a) (min_relay_fee_sat_per_kvb (policy m)))
  then (m, Err (ErrMinRelayFeeWithContext (as_modified_fee a)
    (fee_for_rate (min_relay_fee_sat_per_kvb (policy m)) (as_vsize a))))
  else if enforce_fee_rate opts then
    let '(m, floor) := if exception then mempool_get_min_fee_sat_per_kvb now m else mempool_min_fee_sat_per_kvb now m in
    if fee_rate_meets (as_modified_fee a) (as_vsize a) floor then (m, Ok ())
    else let '(m, e) := fee_rate_error now (as_modified_fee a) (as_vsize a) m in (m, Err e)
  else (m, Ok ()).

Definition check_package_policies (opts : AcceptOptions) (m : Mempool) (t : Transaction) (a : Assessment)
  : result MempoolError () :=
  let? _ :=
    if enforce_mempool_policy opts && check_ephemeral_spends opts then reject (ephemeral_error m t) else Ok () in
  if enforce_mempool_policy opts && enforce_truc_policy opts then
    match truc_policy (policy m) with
    | TrucReject => if tx_version t =? TRUC_VERSION then Err (ErrNonStandard (str "version")) else Ok ()
    | TrucEnforce => reject (truc_error m t (as_vsize a) (allow_truc_descendant_replacement opts))
    | TrucAccept => Ok ()
    end
  else Ok ().

(** The memory a new entry takes with its indexes. *)
Definition admission_memory (m : Mempool) (t : Transaction) (outs : list TxOut) : Z :=
  mempool_entry_memory_usage t +^
  (if electrum_index_enabled m
   then scripthash_index_memory_usage (script_hashes_for_transaction t outs) (input_script_values_for_transaction t outs)
   else 0).

Definition make_room (opts : AcceptOptions) (t : Transaction) (a : Assessment) (m : Mempool)
  : Mempool * result MempoolError () :=
  if enforce_mempool_policy opts then
    match check_cluster_limits_with_weight m t (as_weight a) with
    | Err e => (m, Err e)
    | Ok _ => ensure_space (admission_memory m t (as_outputs a)) (ancestors_for_transaction m t) m
    end
  else (m, Ok ()).

Definition accept_at_with_sequence (chain : ChainView) (opts : AcceptOptions) (now at_time : Z) (t : Transaction)
  (m : Mempool) : Mempool * result MempoolError bytes :=
  match assess chain opts m t with
  | Err e => (m, Err e)
  | Ok a =>
      let '(m, floors) := check_fee_floors opts now t a m in
      match floors with
      | Err e => (m, Err e)
      | Ok _ =>
          match check_package_policies opts m t a with
          | Err e => (m, Err e)
          | Ok _ =>
              let '(m, room) := make_room opts t a m in
              match room with
              | Err e => (m, Err e)
              | Ok _ =>
                  (insert_entry t (as_fee a) (as_vsize a) at_time (serving_height chain) (as_weight a) (as_outputs a)
                    (record_sequence opts) m, Ok (compute_txid t))
              end
          end
      end
  end.
End Accept.

(** ** What admission relies on

    Script validation rejects a spend of a provably unspendable output. *)
Class PolicyLaws `{SOps : ScriptOps} {Pol : PolicyOps} := {
  scripts_spendable chain t outs :
    mempool_scripts_error chain t outs = None ->
    Forall (fun o => is_unspendable_script (script_pubkey o) = false) outs;
}.

Section AcceptSafety.
Context {Ops : BitcoinOps} {SOps : ScriptOps} {POps : MempoolOps} {C : Consensus Transaction}.
Context {L : Layout} {HO : HashOrder} {Pol : PolicyOps} {TL : TxidLaws} {PL : PolicyLaws}.

(** The spendable output of a pool transaction at an outpoint. *)
Definition pool_output (m : Mempool) (o : OutPoint) (out : TxOut) : Prop :=
  exists e, entries m !! txid o = Some e /\ zget (tx_output (transaction e)) (vout o) = Some out /\
    is_unspendable_script (script_pubkey out) = false.

(** The pool extends the chain: every input is an output of the pool or an
    unspent coin, and no pool transaction is confirmed. *)
Record follows (u : gmap OutPoint StoredUtxo) (m : Mempool) : Prop := {
  tr_inputs : forall id o, spends m id o -> (exists out, pool_output m o out) \/ is_Some (u !! o);
  tr_unconfirmed : forall id v, in_pool m id -> u !! {| txid := id; vout := v |} = None;
}.

(** A coin's outpoint names an output of the transaction with that id. *)
Definition utxo_outputs (u : gmap OutPoint StoredUtxo) : Prop :=
  forall o t, is_Some (u !! o) -> compute_txid t = txid o -> 0 <= vout o < 2 ^ 32 /\ vout o < zlen (tx_output t).

Lemma already_in_chain_false chain t v :
  utxo_outputs (view_utxo chain) -> already_in_chain chain t = false ->
  view_utxo chain !! {| txid := compute_txid t; vout := v |} = None.
Proof.
  intros Hu Hf. apply eq_None_not_Some. intros Hs. apply not_true_iff_false in Hf. apply Hf.
  destruct (Hu _ t Hs eq_refl) as [Hr Hl]. simpl in *. unfold already_in_chain, zlen in *.
  apply existsb_exists. exists (Z.to_nat v). split; [apply in_seq; lia|]. rewrite Z2Nat.id by lia.
  unfold try_u, umax. btrue ((0 <=? v) && (v <=? 2 ^ 32 - 1)). by apply bool_decide_eq_true.
Qed.

(** ** Inputs *)

Lemma accept_inputs_Ok chain m inputs seen total coins total' :
  accept_inputs chain m inputs seen total = Ok (coins, total') ->
  NoDup (map previous_output inputs) /\ (forall o, o ∈ map previous_output inputs -> o ∉ seen) /\
  disjoint_keys (map previous_output inputs) (spent m) /\
  Forall2 (fun i c => resolve_input chain m (previous_output i) = Ok c) inputs coins /\
  total' = total + foldr Z.add 0 (map (fun c => value (output c)) coins) /\ (total <= MAX_MONEY -> total' <= MAX_MONEY).
Proof.
  revert seen total coins total'. induction inputs as [|i inputs IH]; intros seen total coins total' E; simpl in E.
  - injection E as <- <-. split_and!; [constructor|by intros o ?%not_elem_of_nil|by intros o ?%not_elem_of_nil|
      constructor|simpl; lia|done].
  - res_inv.
    destruct (IH _ _ _ _ H2) as (Hn & Hs & Hd & HF & -> & Hmax). bool_to_prop.
    assert (Hsp : spent m !! previous_output i = None) by (by destruct (spent m !! previous_output i)).
    unfold checked_add in H1. destruct (_ <=? umax 64); [|done]. injection H1 as <-. cbn [map].
    split_and!.
    + apply NoDup_cons. split; [|done]. intros Hin. apply (Hs _ Hin). apply elem_of_union_l. by apply elem_of_singleton.
    + intros o [->|Hin]%elem_of_cons; [done|]. intros Ho. apply (Hs _ Hin). by apply elem_of_union_r.
    + intros o [->|Hin]%elem_of_cons; [done|]. by apply Hd.
    + by constructor.
    + simpl. lia.
    + intros _. apply Hmax. done.
Qed.

Lemma assess_Ok chain opts m t a :
  assess chain opts m t = Ok a ->
  entries m !! compute_txid t = None /\ already_in_chain chain t = false /\
  NoDup (input_outpoints t) /\ disjoint_keys (input_outpoints t) (spent m) /\
  Forall2 (fun i c => resolve_input chain m (previous_output i) = Ok c) (tx_input t) (as_coins a) /\
  Forall (fun o => is_unspendable_script (script_pubkey o) = false) (as_outputs a) /\
  0 <= as_fee a /\ accept_outputs (tx_output t) 0 =
    Ok (foldr Z.add 0 (map value (as_outputs a)) - as_fee a).
Proof.
  intros E. unfold assess in E. res_inv. unfold accept_prechecks in H. res_inv. cbn [as_coins as_fee as_outputs] in *.
  match goal with H : accept_inputs _ _ _ _ _ = _ |- _ => apply accept_inputs_Ok in H as (Hn & _ & Hd & HF & Ht & _) end.
  match goal with H : reject (mempool_scripts_error _ _ _) = _ |- _ =>
    destruct (mempool_scripts_error _ _ _) eqn:Es in H; [done|] end.
  apply scripts_spendable in Es. bool_to_prop. split_and!; try done.
  - match goal with H : reject (duplicate_error _ _) = _ |- _ => unfold duplicate_error in H; by destruct (entries m !! _) end.
  - lia.
  - unfold as_outputs. cbn [as_coins as_fee]. rewrite map_map. subst. cbn [Z.add] in *.
    match goal with H : accept_outputs _ _ = Ok ?x |- _ => rewrite H; f_equal; lia end.
Qed.

(** ** The stages between assessment and insertion *)

Lemma outpoint_txid t o : o ∈ input_outpoints t -> txid o ∈ input_txids t.
Proof. intros (i & -> & Hi)%list_elem_of_fmap. apply list_elem_of_fmap. by exists i. Qed.

Lemma keeps_follows u m m' : keeps_parents m m' -> follows u m -> follows u m'.
Proof.
  intros [Hk Hp] [Hi Hu]. split.
  - intros id o (e & E & Ho). pose proof (Hk id e E) as E0.
    destruct (Hi id o) as [(out & pe & Ep & Hout)|?]; [by exists e| |by right]. left. exists out, pe.
    split; [|done]. destruct (Hp (txid o) id) as [pe' Ep']; [by exists e| |].
    + split; [by exists pe|]. exists e. split; [done|]. by apply outpoint_txid.
    + pose proof (Hk _ _ Ep'). congruence.
  - intros id v [e E]. apply Hu. exists e. by apply Hk.
Qed.

(** Only the rolling fee differs. *)
Definition rolled (m m' : Mempool) : Prop :=
  exists r n, m' = set_rolling_fee_last_updated n (set_rolling_min_fee_sat_per_kvb r m).

Lemma rolled_refl m : rolled m m.
Proof. exists (rolling_min_fee_sat_per_kvb m), (rolling_fee_last_updated m). by destruct m. Qed.
Lemma rolled_trans m1 m2 m3 : rolled m1 m2 -> rolled m2 m3 -> rolled m1 m3.
Proof. intros (r & n & ->) (r' & n' & ->). by exists r', n'. Qed.

Lemma decay_rolled now m : rolled m (decay_rolling_min_fee now m).
Proof.
  unfold decay_rolling_min_fee. destruct (_ || _); [apply rolled_refl|]. destruct (_ <=? _); [apply rolled_refl|].
  by eexists _, _.
Qed.

Lemma check_fee_floors_rolled opts now t a m m' r : check_fee_floors opts now t a m = (m', r) -> rolled m m'.
Proof.
  unfold check_fee_floors, fee_rate_error, mempool_min_fee_sat_per_kvb, mempool_get_min_fee_sat_per_kvb.
  pose proof (decay_rolled now m) as H1. pose proof (decay_rolled now (decay_rolling_min_fee now m)) as H2.
  pose proof (rolled_trans _ _ _ H1 H2) as H3. set (b := _ && _ && _ && negb (fee_rate_meets _ _ _)).
  destruct b; [intros [= <- _]; apply rolled_refl|]. destruct (enforce_fee_rate opts); [|intros [= <- _]; apply rolled_refl].
  destruct (_ && _ && negb _); destruct (fee_rate_meets _ _ _); intros [= <- _]; done.
Qed.

Lemma rolled_ok m m' : rolled m m' -> pool_ok m -> pool_ok m'.
Proof. intros (r & n & ->) H. by apply pool_ok_updated, pool_ok_rolling. Qed.

Lemma ensure_space_spec additional protected m :
  pool_ok m ->
  let '(m', r) := ensure_space additional protected m in
  pool_ok m' /\ keeps_parents m m' /\ (forall x, x ∈ protected -> entries m' !! x = entries m !! x) /\
  match r with
  | Ok _ => dynamic_memory_usage m' +^ additional <= max_bytes m'
  | Err e => e = ErrFull /\
      (max_bytes m < additional /\ m' = m \/
       max_bytes m' < dynamic_memory_usage m' +^ additional /\
       forall id, in_pool m' id -> eviction_candidate m' protected id = None)
  end.
Proof.
  intros Hm. unfold ensure_space. destruct (Z.ltb_spec (max_bytes m) additional) as [Hlt|_].
  { split_and!; [done|apply keeps_refl|done|done|]. by left. }
  pose proof (evict_loop_spec (S (size (entries m))) additional protected m Hm (Nat.lt_succ_diag_r _)) as H.
  destruct (evict_loop _ _ _ _) as [m' r]. destruct H as (H1 & H2 & H3 & H4). split_and!; [done..|].
  destruct r; [done|]. destruct H4 as (-> & ? & ?). split; [done|]. by right.
Qed.

Lemma make_room_spec opts t a m m' r :
  pool_ok m -> make_room opts t a m = (m', r) ->
  pool_ok m' /\ keeps_parents m m' /\
  forall p, p ∈ input_txids t -> in_pool m p -> entries m' !! p = entries m !! p.
Proof.
  intros Hm. unfold make_room. destruct (enforce_mempool_policy opts).
  2: { intros [= <- _]. split_and!; [done|apply keeps_refl|done]. }
  destruct (check_cluster_limits_with_weight _ _ _).
  2: { intros [= <- _]. split_and!; [done|apply keeps_refl|done]. }
  intros E. pose proof (ensure_space_spec (admission_memory m t (as_outputs a)) (ancestors_for_transaction m t) m Hm) as H.
  rewrite E in H. destruct H as (H1 & H2 & H3 & _). split_and!; [done..|]. intros p Hp Hin. apply H3.
  apply ancestors_for_transaction_spec; [apply (c_indexed m (proj2 Hm))|]. exists p. auto.
Qed.

(** ** Admission is sound *)

Lemma spends_keeps m m' id o : keeps_parents m m' -> spends m' id o -> spends m id o.
Proof. intros [Hk _] (e & E & Ho). exists e. split; [by apply Hk|done]. Qed.

Lemma assess_admissible chain opts m t a m1 :
  pool_ok m -> pool_ok m1 -> keeps_parents m m1 -> assess chain opts m t = Ok a -> admissible m1 t.
Proof.
  intros [_ Hm] [_ Hm1] Hk Ha. apply assess_Ok in Ha as (Hnew & _ & Hn & Hd & _).
  assert (Hnew1 : entries m1 !! compute_txid t = None).
  { destruct (entries m1 !! compute_txid t) as [e|] eqn:E; [|done]. apply (proj1 Hk) in E. congruence. }
  split; [done| |done| |].
  - apply eq_None_not_Some. intros [id (e & E & Ew)%(c_wtxid m1 (c_indexed m1 Hm1))].
    apply wtxid_txid in Ew. rewrite (c_txid m1 (c_indexed m1 Hm1) id e E) in Ew. congruence.
  - intros o Ho. apply eq_None_not_Some. intros [id Hs%(c_spent m1 (c_indexed m1 Hm1))].
    apply (spends_keeps m m1) in Hs; [|done]. apply (c_spent m (c_indexed m Hm)) in Hs. rewrite (Hd o Ho) in Hs. done.
  - intros Hin%tx_rank_input. lia.
Qed.

Lemma assess_childless chain opts m t a m1 id e :
  utxo_outputs (view_utxo chain) -> assess chain opts m t = Ok a -> keeps_parents m m1 -> follows (view_utxo chain) m ->
  entries m1 !! id = Some e -> compute_txid t ∉ input_txids (transaction e).
Proof.
  intros Hu Ha [Hk _] [Hi _] E (i & Ei & Hin)%list_elem_of_fmap. apply assess_Ok in Ha as (Hnew & Hac & _).
  destruct (Hi id (previous_output i)) as [(out & pe & Ep & _)|Hs].
  - exists e. split; [by apply Hk|]. apply list_elem_of_fmap. by exists i.
  - rewrite <- Ei in Ep. congruence.
  - pose proof (already_in_chain_false chain t (vout (previous_output i)) Hu Hac) as Hn.
    rewrite Ei in Hn. destruct (previous_output i). simpl in Hn. rewrite Hn in Hs. by destruct Hs.
Qed.

Lemma resolve_input_outputs chain m t coins i o :
  Forall2 (fun i c => resolve_input chain m (previous_output i) = Ok c) (tx_input t) coins ->
  Forall (fun o => is_unspendable_script (script_pubkey o) = false) (map output coins) ->
  i ∈ tx_input t -> o = previous_output i -> (exists out, pool_output m o out) \/ is_Some (view_utxo chain !! o).
Proof.
  intros HF Hsp Hi ->. apply list_elem_of_lookup in Hi as [k Hk].
  destruct (Forall2_lookup_l _ _ _ _ _ HF Hk) as (c & Hc & Hr). unfold resolve_input in Hr.
  destruct (entries m !! txid (previous_output i)) as [pe|] eqn:Ep; res_inv.
  - left. exists x, pe. split; [done|]. split; [done|]. rewrite Forall_forall in Hsp. apply (Hsp x).
    apply list_elem_of_fmap. eexists. split; [|by eapply list_elem_of_lookup_2]. done.
  - right. by eexists.
Qed.

Lemma accept_Ok chain opts now at_time t m m' id :
  pool_ok m -> follows (view_utxo chain) m -> utxo_outputs (view_utxo chain) ->
  accept_at_with_sequence chain opts now at_time t m = (m', Ok id) -> fits m' ->
  exists a m1, assess chain opts m t = Ok a /\ keeps_parents m m1 /\ id = compute_txid t /\
    m' = insert_entry t (as_fee a) (as_vsize a) at_time (serving_height chain) (as_weight a) (as_outputs a) (record_sequence opts) m1 /\
    admissible m1 t /\ pool_ok m' /\ follows (view_utxo chain) m'.
Proof.
  intros Hm Ht Hu. unfold accept_at_with_sequence. destruct (assess chain opts m t) as [a|] eqn:Ha; [|done].
  destruct (check_fee_floors opts now t a m) as [m0 floors] eqn:Ef. destruct floors; [|done].
  destruct (check_package_policies opts m0 t a); [|done]. destruct (make_room opts t a m0) as [m1 room] eqn:Er.
  destruct room; [|done]. intros [= <- <-] Hfit.
  apply check_fee_floors_rolled in Ef. pose proof (rolled_ok m m0 Ef Hm) as Hm0.
  destruct Ef as (r & n & ->). destruct (make_room_spec opts t a _ m1 _ Hm0 Er) as (Hm1 & Hk & Hp).
  assert (Hk' : keeps_parents m m1) by exact Hk. change (forall p, p ∈ input_txids t -> in_pool m p -> entries m1 !! p = entries m !! p) in Hp.
  pose proof (assess_admissible chain opts m t a m1 Hm Hm1 Hk' Ha) as Had.
  assert (Hc : forall i e, entries m1 !! i = Some e -> compute_txid t ∉ input_txids (transaction e)).
  { intros i e E. by apply (assess_childless chain opts m t a m1 i e). }
  exists a, m1. split_and!; try done.
  - split; [done|]. by apply admit_consistent; [apply (c_indexed m1 (proj2 Hm1))|..|apply (proj2 Hm1)|].
  - pose proof (keeps_follows _ _ _ Hk' Ht) as [Hi1 Hu1]. apply assess_Ok in Ha as (Hnew & Hac & _ & _ & HF & Hsp & _).
    split.
    + intros i o (e & E & Ho). apply (admit_lookup t _ _ _ _ _ _ _ m1 Had) in E as [[-> ->]|E].
      * cbn [transaction] in Ho. pose proof (outpoint_txid t o Ho) as Hin.
        apply list_elem_of_fmap in Ho as (inp & -> & Hinp).
        destruct (resolve_input_outputs chain m t _ inp _ HF Hsp Hinp eq_refl) as [(out & pe & Ep & Hout)|?]; [|by right].
        left. exists out, pe. split; [|done]. apply admit_lookup; [done|]. right.
        rewrite Hp; [done|done|by exists pe].
      * destruct (Hi1 i o) as [(out & pe & Ep & Hout)|?]; [by exists e| |by right].
        left. exists out, pe. split; [|done]. apply admit_lookup; [done|]. by right.
    + intros i v [e [[-> _]|E]%(admit_lookup t _ _ _ _ _ _ _ m1 Had)].
      * by apply already_in_chain_false.
      * apply Hu1. by exists e.
Qed.

Lemma accept_Err chain opts now at_time t m m' e :
  pool_ok m -> accept_at_with_sequence chain opts now at_time t m = (m', Err e) -> pool_ok m' /\ keeps_parents m m'.
Proof.
  intros Hm. unfold accept_at_with_sequence. destruct (assess chain opts m t) as [a|].
  2: { intros [= <- _]. split; [done|apply keeps_refl]. }
  destruct (check_fee_floors opts now t a m) as [m0 floors] eqn:Ef. apply check_fee_floors_rolled in Ef.
  pose proof (rolled_ok m m0 Ef Hm) as Hm0. destruct Ef as (r & n & ->).
  assert (Hk0 : keeps_parents m (set_rolling_fee_last_updated n (set_rolling_min_fee_sat_per_kvb r m))) by exact (keeps_refl m).
  destruct floors; [|by intros [= <- _]]. destruct (check_package_policies _ _ t a); [|by intros [= <- _]].
  destruct (make_room opts t a _) as [m1 room] eqn:Er. destruct (make_room_spec opts t a _ m1 _ Hm0 Er) as (Hm1 & Hk & _).
  destruct room; [done|]. by intros [= <- _].
Qed.
End AcceptSafety.
