(* ===== verification/MempoolChain.v ===== *)
(** * The mempool and the chain

    The pool beside the ledger: what a connected block does to it
    ([reconcile_mempool_after_chain_change] in [lib.rs]: [remove_conflicts],
    then [remove_confirmed]), and what a reorganization cleans up
    ([remove_for_reorg]).  The pool keeps extending the unspent coins through
    admissions and blocks, and its indexes stay consistent. *)

From Stdlib Require Import ZArith Lia SpecFloat.
From stdpp Require Import base list option strings gmap sorting relations.
From S2P Require Import Prelude Types VersionBits BlockChecks UtxoCodec ConnectBlock Ledger.
From S2P Require Import FeeRate Mempool MempoolIndex MempoolGraph MempoolSafety MempoolAccept.
Local Open Scope Z_scope.
Local Open Scope sat_scope.
Local Set Warnings "-clear-no-such-hyp".

(** [Mempool::with_max_bytes_and_policy_and_electrum_index] *)
Definition new_pool (p : MempoolPolicy) (limit now : Z) (electrum : bool) : Mempool :=
  {| policy := p; max_bytes := Z.max limit 1; electrum_index_enabled := electrum;
     memory_usage := 0; total_bytes := 0; vbytes := 0;
     rolling_min_fee_sat_per_kvb := S754_zero false; rolling_fee_last_updated := now;
     block_since_last_rolling_fee_bump := false; pool_sequence := 1;
     entries := ∅; adjusted_weights := ∅; spent := ∅; children_index := ∅;
     transactions_by_script := ∅; scripts_by_transaction := ∅; input_script_values_by_transaction := ∅;
     wtxids := ∅; priorities := ∅; unbroadcast := ∅; relay_sequences := ∅; changes := [];
     graph_optimal_dirty := false |}.

Section Reorg.
Context {Ops : BitcoinOps} {SOps : ScriptOps} {POps : MempoolOps} {C : Consensus Transaction}.
Context {L : Layout} {HO : HashOrder}.

(** The pool's part of connecting one block. *)
Definition connect_pool (block : Block) (now : Z) (m : Mempool) : Mempool :=
  remove_confirmed block now (remove_conflicts block m).

(** The coin of an input, or [None] when it is missing or immature. *)
Definition reorg_coin (chain : ChainView) (m : Mempool) (o : OutPoint) : option StoredUtxo :=
  let spend_height := sat_add 32 (serving_height chain) 1 in
  match entries m !! txid o with
  | Some parent =>
      out ← zget (tx_output (transaction parent)) (vout o);
      Some {| output := out; height := spend_height; median_time_past := serving_median_time_past chain;
              coinbase := false |}
  | None =>
      previous ← view_utxo chain !! o;
      if coinbase previous && (spend_height <? sat_add 32 (height previous) COINBASE_MATURITY) then None
      else Some previous
  end.

Definition invalid_after_reorg (chain : ChainView) (m : Mempool) (t : Transaction) : bool :=
  match mapM (reorg_coin chain m) (input_outpoints t) with
  | None => true
  | Some previous_entries =>
      negb (is_ok (validate_transaction_finality_with_metadata t (sat_add 32 (serving_height chain) 1)
        (serving_median_time_past chain) true (map (fun c => (height c, median_time_past c)) previous_entries)))
  end.

Definition remove_for_reorg (chain : ChainView) (m : Mempool) : Mempool :=
  let to_remove :=
    map fst (List.filter (fun p => invalid_after_reorg chain m (transaction p.2)) (map_iter (entries m))) in
  foldl (fun m id => if contains m id then remove_recursive id m else m) m to_remove.
End Reorg.

(** ** The coins a block leaves *)

Section Coins.
Context {Ops : BitcoinOps} {SOps : ScriptOps}.

Lemma coins_intro id outputs index h mtp cb i out :
  outputs !! i = Some out -> is_unspendable_script (script_pubkey out) = false ->
  outpoint_at id (index + i) ∈ (coins id outputs index h mtp cb).*1.
Proof.
  revert index i. induction outputs as [|o outputs IH]; intros index [|i] E Hs; simpl in *; try done.
  - injection E as ->. rewrite Hs, Nat.add_0_r. simpl. by left.
  - replace (index + S i)%nat with (S index + i)%nat by lia. destruct (is_unspendable_script (script_pubkey o)).
    + exact (IH (S index) i E Hs).
    + simpl. right. exact (IH (S index) i E Hs).
Qed.

Lemma add_coins_Some l u o : is_Some (add_coins l u !! o) <-> o ∈ l.*1 \/ is_Some (u !! o).
Proof.
  unfold add_coins. revert u. induction l as [|[o' e] l IH]; intros u; simpl.
  - rewrite elem_of_nil. tauto.
  - rewrite IH, elem_of_cons. destruct (decide (o = o')) as [->|Hne].
    + rewrite lookup_insert_eq. split; [tauto|]. intros _. right. by exists e.
    + rewrite lookup_insert_ne by done. tauto.
Qed.

Lemma ledger_tx_Some h mtp t u es u' o :
  ledger_tx h mtp t u = Some (es, u') ->
  is_Some (u' !! o) <-> o ∈ (tx_coins h mtp false t).*1 \/ (o ∉ tx_inputs t) /\ is_Some (u !! o).
Proof.
  unfold ledger_tx. intros ([es1 u1] & Es & E)%bind_Some. injection E as <- <-.
  rewrite add_coins_Some, (spend_lookup _ _ _ _ o Es). destruct (decide (o ∈ tx_inputs t)); [|tauto].
  split; [|tauto]. intros [?|[? ?]]; [by left|done].
Qed.

(** Coins appear in the block or were there before; what the block does not
    spend stays. *)
Lemma ledger_txs_origin h mtp txs u ess u' o :
  ledger_txs h mtp txs u = Some (ess, u') -> is_Some (u' !! o) ->
  is_Some (u !! o) \/ exists t, t ∈ txs /\ o ∈ (tx_coins h mtp false t).*1.
Proof.
  revert u ess. induction txs as [|t txs IH]; intros u ess E Ho; cbn [ledger_txs] in E.
  { injection E as <- <-. by left. }
  apply bind_Some in E as ([es u1] & E1 & E). apply bind_Some in E as ([ess1 u2] & E2 & E). injection E as <- <-.
  destruct (IH _ _ E2 Ho) as [Hu1|(t' & Ht' & Hc)]; [|right; exists t'; split; [by right|done]].
  apply (ledger_tx_Some _ _ _ _ _ _ o E1) in Hu1 as [Hc|[_ ?]]; [|by left].
  right. exists t. split; [by left|done].
Qed.

Lemma ledger_txs_unspent h mtp txs u ess u' o :
  ledger_txs h mtp txs u = Some (ess, u') -> (forall t, t ∈ txs -> o ∉ tx_inputs t) ->
  is_Some (u !! o) \/ (exists t, t ∈ txs /\ o ∈ (tx_coins h mtp false t).*1) -> is_Some (u' !! o).
Proof.
  revert u ess. induction txs as [|t txs IH]; intros u ess E Hn Ho; cbn [ledger_txs] in E.
  { injection E as <- <-. destruct Ho as [?|(t & ?%not_elem_of_nil & _)]; done. }
  apply bind_Some in E as ([es u1] & E1 & E). apply bind_Some in E as ([ess1 u2] & E2 & E). injection E as <- <-.
  apply (IH _ _ E2); [intros t' Ht'; apply Hn; by right|].
  pose proof (ledger_tx_Some _ _ _ _ _ _ o E1) as Hu1.
  destruct Ho as [?|(t' & [->|Ht']%elem_of_cons & Hc)].
  - left. apply Hu1. right. split; [apply Hn; by left|done].
  - left. apply Hu1. by left.
  - right. eauto.
Qed.

Definition block_created (h mtp : Z) (block : Block) (o : OutPoint) : Prop :=
  exists t cb, t ∈ txdata block /\ o ∈ (tx_coins h mtp cb t).*1.

Definition block_spends (block : Block) (o : OutPoint) : Prop :=
  exists t, t ∈ txdata block /\ o ∈ tx_inputs t.

Lemma coins_keys_flag id outputs index h mtp cb cb' :
  (coins id outputs index h mtp cb).*1 = (coins id outputs index h mtp cb').*1.
Proof.
  revert index. induction outputs as [|o outputs IH]; intros index; simpl; [done|].
  destruct (is_unspendable_script _); simpl; [done|]. by rewrite IH.
Qed.

Lemma ledger_block_origin h mtp block u ess u' o :
  ledger_block h mtp block u = Some (ess, u') -> is_Some (u' !! o) -> is_Some (u !! o) \/ block_created h mtp block o.
Proof.
  unfold ledger_block, block_created. destruct (txdata block) as [|cb txs]; [done|]. intros E Ho.
  destruct (ledger_txs_origin _ _ _ _ _ _ o E Ho) as [[Hc|?]%add_coins_Some|(t & Ht & Hc)].
  - right. exists cb, true. split; [by left|done].
  - by left.
  - right. exists t, false. split; [by right|done].
Qed.

Lemma ledger_block_unspent h mtp block u ess u' o :
  ledger_block h mtp block u = Some (ess, u') -> ~ block_spends block o ->
  is_Some (u !! o) \/ block_created h mtp block o -> is_Some (u' !! o).
Proof.
  unfold ledger_block, block_created, block_spends. destruct (txdata block) as [|cb txs]; [done|]. intros E Hn Ho.
  apply (ledger_txs_unspent _ _ _ _ _ _ o E).
  - intros t Ht Hin. apply Hn. exists t. split; [by right|done].
  - rewrite add_coins_Some. destruct Ho as [?|(t & b & [->|Ht]%elem_of_cons & Hc)]; [by left; right| |].
    + left. left. unfold tx_coins in *. by rewrite (coins_keys_flag _ _ _ _ _ true b).
    + right. exists t. split; [done|]. unfold tx_coins in *. by rewrite (coins_keys_flag _ _ _ _ _ false b).
Qed.
End Coins.

Section Node.
Context {Ops : BitcoinOps} {SOps : ScriptOps} {POps : MempoolOps} {C : Consensus Transaction}.
Context {L : Layout} {HO : HashOrder} {Pol : PolicyOps} {TL : TxidLaws} {PL : PolicyLaws}.

Lemma connect_pool_ok block now m : pool_ok m -> pool_ok (connect_pool block now m).
Proof. intros H. by apply remove_confirmed_ok, remove_recursives_ok. Qed.

Lemma connect_pool_lookup block now m x e : pool_ok m ->
  entries (connect_pool block now m) !! x = Some e <->
  entries m !! x = Some e /\ (forall c, c ∈ block_conflicts m block -> x <> c /\ ~ ancestor m c x) /\
  (x ∉ map compute_txid (txdata block)).
Proof.
  intros Hm. unfold connect_pool. rewrite remove_confirmed_lookup. unfold remove_conflicts.
  rewrite remove_recursives_lookup by done. tauto.
Qed.

(** Nothing left in the pool spends what the block spent. *)
Lemma connect_pool_unspent block now m x o : pool_ok m ->
  spends (connect_pool block now m) x o -> ~ block_spends block o.
Proof.
  intros Hm (e & (E & Hc & Hn)%(connect_pool_lookup block now m x e Hm) & Ho) (t & Ht & (i & -> & Hi)%list_elem_of_fmap).
  assert (Hs : spent m !! previous_output i = Some x) by (apply (c_spent m (c_indexed m (proj2 Hm))); by exists e).
  destruct (decide (x = compute_txid t)) as [->|Hne].
  - apply Hn. apply list_elem_of_fmap. by exists t.
  - destruct (Hc x) as [? _]; [|done]. apply elem_of_block_conflicts. exists t, i. by split_and!.
Qed.

(** A pool transaction the block confirmed leaves its spendable outputs as
    coins. *)
Lemma confirmed_created h mtp block m o out :
  consistent m -> Forall outputs_fit (txdata block) -> pool_output m o out ->
  txid o ∈ map compute_txid (txdata block) -> block_created h mtp block o.
Proof.
  intros Hm Hfit (pe & Ep & Hz & Hs) (t & Et & Ht)%list_elem_of_fmap. exists t, false. split; [done|].
  pose proof (c_txid m (c_indexed m Hm) _ _ Ep) as Epid. rewrite Et in Epid. apply txid_outputs in Epid.
  pose proof (zget_range _ _ _ Hz) as Hr. rewrite Epid in Hz, Hr. rewrite Forall_forall in Hfit. specialize (Hfit t Ht).
  unfold outputs_fit, zlen, zget in *. rewrite (proj2 (Z.ltb_ge _ _)) in Hz by lia.
  pose proof (coins_intro (compute_txid t) (tx_output t) 0 h mtp false _ _ Hz Hs) as Hin.
  assert (outpoint_at (compute_txid t) (0 + Z.to_nat (vout o)) = o) as <-; [|exact Hin].
  unfold outpoint_at. rewrite Nat.add_0_l, Z2Nat.id, Z.mod_small by lia. rewrite <- Et. by destruct o.
Qed.

Lemma connect_pool_follows h mtp block now u ess u' m :
  pool_ok m -> follows u m -> ledger_block h mtp block u = Some (ess, u') -> Forall outputs_fit (txdata block) ->
  follows u' (connect_pool block now m).
Proof.
  intros Hm [Hi Hu] El Hfit. pose proof (fun x e => connect_pool_lookup block now m x e Hm) as Hl. split.
  - intros id o Hsp. pose proof (connect_pool_unspent block now m id o Hm Hsp) as Hns.
    destruct Hsp as (e & E & Ho). apply Hl in E as (E & Hc & Hn).
    destruct (Hi id o) as [(out & Hout)|Hcoin]; [by exists e| |right; apply (ledger_block_unspent _ _ _ _ _ _ o El); auto].
    destruct (decide (txid o ∈ map compute_txid (txdata block))) as [Hconf|Hconf].
    + right. apply (ledger_block_unspent _ _ _ _ _ _ o El); [done|]. right.
      by apply (confirmed_created h mtp block m o out (proj2 Hm)).
    + left. exists out. destruct Hout as (pe & Ep & Hz). exists pe. split; [|done]. apply Hl. split; [done|].
      split; [|done]. intros c Hcc. destruct (Hc c Hcc) as [Hne Hna].
      assert (child_of m (txid o) id) as Hch.
      { split; [by exists pe|]. exists e. split; [done|]. by apply outpoint_txid. }
      split; [intros <-; apply Hna; by apply tc_once|]. intros Ha. apply Hna. by eapply tc_r.
  - intros id v [e (E & _ & Hn)%Hl]. apply eq_None_not_Some. intros Hs.
    destruct (ledger_block_origin _ _ _ _ _ _ _ El Hs) as [Ho|(t & cb & Ht & Hc)].
    + rewrite Hu in Ho; [by destruct Ho|by exists e].
    + apply Hn. apply tx_coins_txid in Hc. simpl in Hc. rewrite Hc. apply list_elem_of_fmap. by exists t.
Qed.

Lemma connect_utxo_outputs h mtp block u ess u' :
  utxo_outputs u -> ledger_block h mtp block u = Some (ess, u') -> Forall outputs_fit (txdata block) -> utxo_outputs u'.
Proof.
  intros Hu El Hfit o t Hs Et. destruct (ledger_block_origin _ _ _ _ _ _ _ El Hs) as [Ho|(t' & cb & Ht & Hc)].
  - by apply Hu.
  - apply list_elem_of_fmap in Hc as ([o' e] & -> & Hc). apply coins_spec in Hc as (i & out & -> & _ & Hi & _).
    simpl in *. apply txid_outputs in Et. rewrite Et. rewrite Forall_forall in Hfit. specialize (Hfit t' Ht).
    unfold outputs_fit, zlen in *. rewrite Z.mod_small by lia. lia.
Qed.

(** ** Reorganizations *)

Lemma remove_recursive_absent id m : entries m !! id = None -> remove_recursive id m = m.
Proof.
  intros E. unfold remove_recursive, descendants, contains. rewrite E.
  rewrite bool_decide_eq_false_2 by (by intros [? ?]). simpl. by apply remove_absent.
Qed.

Lemma reorg_fold ids m :
  foldl (fun m id => if contains m id then remove_recursive id m else m) m ids =
  foldl (fun m id => remove_recursive id m) m ids.
Proof.
  revert m. induction ids as [|id ids IH]; intros m; simpl; [done|]. rewrite IH. f_equal.
  destruct (contains m id) eqn:E; [done|]. symmetry. apply remove_recursive_absent.
  apply eq_None_not_Some. intros H%contains_spec. congruence.
Qed.

Lemma elem_of_reorg_list chain m id :
  id ∈ map fst (List.filter (fun p => invalid_after_reorg chain m (transaction p.2)) (map_iter (entries m))) <->
  exists e, entries m !! id = Some e /\ invalid_after_reorg chain m (transaction e) = true.
Proof.
  rewrite list_elem_of_fmap. setoid_rewrite elem_of_filter_bool. split.
  - intros ([id' e] & -> & E%elem_of_map_iter & Hi). eauto.
  - intros (e & E & Hi). exists (id, e). split; [done|]. split; [by apply elem_of_map_iter|done].
Qed.

Lemma remove_for_reorg_lookup chain m x e : pool_ok m ->
  entries (remove_for_reorg chain m) !! x = Some e <->
  entries m !! x = Some e /\
  forall id f, entries m !! id = Some f -> invalid_after_reorg chain m (transaction f) = true ->
    x <> id /\ ~ ancestor m id x.
Proof.
  intros Hm. unfold remove_for_reorg. rewrite reorg_fold, remove_recursives_lookup by done.
  setoid_rewrite elem_of_reorg_list. split.
  - intros [E H]. split; [done|]. intros id f Ef Hi. apply H. eauto.
  - intros [E H]. split; [done|]. intros id (f & Ef & Hi). by apply (H id f).
Qed.

(** A surviving transaction finds the coins it found before. *)
Lemma reorg_coin_kept chain m m' id o :
  keeps_parents m m' -> spends m' id o -> reorg_coin chain m' o = reorg_coin chain m o.
Proof.
  intros [Hk Hp] (e & E & Ho). unfold reorg_coin. destruct (entries m !! txid o) as [pe|] eqn:Ep.
  - destruct (Hp (txid o) id) as [pe' Ep']; [by exists e| |].
    + split; [by exists pe|]. exists e. split; [by apply Hk|by apply outpoint_txid].
    + pose proof (Hk _ _ Ep') as E2. rewrite Ep in E2. injection E2 as <-. by rewrite Ep'.
  - destruct (entries m' !! txid o) as [pe|] eqn:Ep'; [|done]. apply Hk in Ep'. congruence.
Qed.

Lemma remove_for_reorg_keeps chain m : pool_ok m -> keeps_parents m (remove_for_reorg chain m).
Proof. intros Hm. unfold remove_for_reorg. rewrite reorg_fold. by apply remove_recursives_keeps. Qed.

Lemma mapM_ext {A B} (f g : A -> option B) l : (forall x, x ∈ l -> f x = g x) -> mapM f l = mapM g l.
Proof.
  induction l as [|x l IH]; intros H; simpl; [done|]. rewrite (H x), IH; [done| |by left].
  intros y Hy. apply H. by right.
Qed.

Lemma remove_for_reorg_ok chain m : pool_ok m -> pool_ok (remove_for_reorg chain m).
Proof. intros H. unfold remove_for_reorg. rewrite reorg_fold. by apply remove_recursives_ok. Qed.
End Node.
