(* ===== verification/MempoolMining.v ===== *)
(** * Block template selection ([mempool.rs])

    [mining_order] picks packages, a transaction with its unselected
    ancestors, by fee rate.  A heap holds one candidate per transaction and
    every update pushes a fresh one; a candidate whose metrics are out of date
    is dropped when it is popped. *)

From Stdlib Require Import ZArith Lia.
From stdpp Require Import base list option gmap sorting relations.
From S2P Require Import Prelude Types BlockChecks FeeRate Mempool MempoolIndex MempoolGraph MempoolSafety.
Local Open Scope Z_scope.
Local Open Scope sat_scope.
Local Set Warnings "-clear-no-such-hyp".

Record MiningPackageMetrics := { mp_fee : Z; mp_weight : Z; mp_version : Z }.

Record MiningCandidate := { mc_txid : bytes; mc_fee : Z; mc_weight : Z; mc_version : Z }.

#[export] Instance MiningCandidate_eq_dec : EqDecision MiningCandidate.
Proof. solve_decision. Defined.

(** [Txid::cmp] and [MiningCandidate::cmp] *)
Fixpoint bytes_cmp (a b : bytes) : comparison :=
  match a, b with
  | [], [] => Eq
  | [], _ :: _ => Lt
  | _ :: _, [] => Gt
  | x :: a, y :: b => match x ?= y with Eq => bytes_cmp a b | c => c end
  end.

Definition then_cmp (a b : comparison) : comparison := match a with Eq => b | _ => a end.

Definition candidate_cmp (l r : MiningCandidate) : comparison :=
  then_cmp (fee_mul (mc_fee l) (mc_weight r) ?= fee_mul (mc_fee r) (mc_weight l))
    (then_cmp (bytes_cmp (mc_txid r) (mc_txid l))
      (then_cmp (mc_version l ?= mc_version r)
        (then_cmp (mc_fee l ?= mc_fee r) (mc_weight l ?= mc_weight r)))).

(** [BinaryHeap::pop]: the greatest element, and the others. *)
Fixpoint remove_one (c : MiningCandidate) (l : list MiningCandidate) : list MiningCandidate :=
  match l with
  | [] => []
  | x :: l => if bool_decide (x = c) then l else x :: remove_one c l
  end.

Definition heap_pop (heap : list MiningCandidate) : option (MiningCandidate * list MiningCandidate) :=
  match heap with
  | [] => None
  | c :: l =>
      let best := foldl (fun b x => match candidate_cmp x b with Gt => x | _ => b end) c l in
      Some (best, remove_one best heap)
  end.

Section Mining.
Context {Ops : BitcoinOps} {POps : MempoolOps} {C : Consensus Transaction} {L : Layout} {HO : HashOrder}.

(** ** Packages *)

(** The loop over the parents: it stops at the first failure. *)
Fixpoint collect_parents (collect : bytes -> gset bytes * gset bytes -> bool * (gset bytes * gset bytes))
  (ps : list bytes) (st : gset bytes * gset bytes) : bool * (gset bytes * gset bytes) :=
  match ps with
  | [] => (true, st)
  | p :: ps =>
      let '(ok, st) := collect p st in
      if ok then collect_parents collect ps st else (false, st)
  end.

(** The state is the package and the transactions being visited. *)
Fixpoint collect_mining_package (fuel : nat) (m : Mempool) (selected : gset bytes) (id : bytes)
  (st : gset bytes * gset bytes) : bool * (gset bytes * gset bytes) :=
  match fuel with
  | O => (false, st)
  | S fuel =>
      if bool_decide (id ∈ selected) then (true, st)
      else if bool_decide (id ∈ st.1) then (true, st)
      else if negb (contains m id) || bool_decide (id ∈ st.2) then (false, st)
      else
        let '(ok, (package, visiting)) :=
          collect_parents (collect_mining_package fuel m selected) (parents m id) (st.1, {[id]} ∪ st.2) in
        let visiting := visiting ∖ {[id]} in
        if ok then (true, ({[id]} ∪ package, visiting)) else (false, (package, visiting))
  end.

Fixpoint append_mining_package (fuel : nat) (m : Mempool) (package : gset bytes)
  (st : gset bytes * list bytes) (id : bytes) : gset bytes * list bytes :=
  match fuel with
  | O => st
  | S fuel =>
      if bool_decide (id ∈ st.1) || negb (bool_decide (id ∈ package)) then st
      else
        let '(selected, ordered) := foldl (append_mining_package fuel m package) st (parents m id) in
        if bool_decide (id ∈ selected) then (selected, ordered)
        else ({[id]} ∪ selected, ordered ++ [id])
  end.

(** ** Candidates *)

Definition stale (metrics : gmap bytes MiningPackageMetrics) (selected : gset bytes) (c : MiningCandidate) : bool :=
  bool_decide (mc_txid c ∈ selected) ||
  match metrics !! mc_txid c with
  | None => true
  | Some current =>
      negb ((mp_version current =? mc_version c) && (mp_fee current =? mc_fee c) && (mp_weight current =? mc_weight c))
  end.

(** A candidate that cannot be taken: too heavy, of negative fee, or below the
    block's minimum fee rate. *)
Definition unfit (selected_weight weight_limit min_fee_sat_per_kvb : Z) (enforce_nonnegative_fee : bool)
  (fee weight : Z) : bool :=
  (weight_limit <? selected_weight +^ weight) ||
  (enforce_nonnegative_fee && (fee <? 0)) ||
  (negb (min_fee_sat_per_kvb =? 0) &&
   (fee_mul fee 1000 <? min_fee_sat_per_kvb * ((weight +^ 3) / 4))).

(** The heap shrinks with every candidate popped. *)
Fixpoint next_mining_candidate (fuel : nat) (heap : list MiningCandidate) (metrics : gmap bytes MiningPackageMetrics)
  (selected : gset bytes) (selected_weight weight_limit min_fee : Z) (nonneg : bool)
  : option MiningCandidate * list MiningCandidate :=
  match fuel with
  | O => (None, heap)
  | S fuel =>
      match heap_pop heap with
      | None => (None, [])
      | Some (c, heap) =>
          if stale metrics selected c || unfit selected_weight weight_limit min_fee nonneg (mc_fee c) (mc_weight c)
          then next_mining_candidate fuel heap metrics selected selected_weight weight_limit min_fee nonneg
          else (Some c, heap)
      end
  end.

(** ** The selection *)

Definition package_weight (m : Mempool) (package : gset bytes) : Z :=
  sum_u64 (map (adjusted_weight m) (set_iter package)).

Definition initial_metrics (m : Mempool) (st : gmap bytes MiningPackageMetrics * list MiningCandidate) (id : bytes)
  : gmap bytes MiningPackageMetrics * list MiningCandidate :=
  let '(ok, (package, _)) := collect_mining_package (order_fuel m) m ∅ id (∅, ∅) in
  if ok then
    let weight := package_weight m package in
    let fee := package_fee m package in
    (<[id := {| mp_fee := fee; mp_weight := weight; mp_version := 0 |}]> st.1,
     {| mc_txid := id; mc_fee := fee; mc_weight := weight; mc_version := 0 |} :: st.2)
  else st.

(** The queue of a transaction and its descendants, in the order found. *)
Fixpoint fan_out (fuel : nat) (m : Mempool) (queue : list bytes) (seen : gset bytes) : list bytes :=
  match fuel, queue with
  | S fuel, current :: queue =>
      let '(queue, seen) :=
        foldl (fun st child =>
          if contains m child && negb (bool_decide (child ∈ st.2)) then (st.1 ++ [child], {[child]} ∪ st.2) else st)
          (queue, seen) (set_iter (at_key (children_index m) current)) in
      current :: fan_out fuel m queue seen
  | _, _ => []
  end.

Definition entry_fee (m : Mempool) (id : bytes) : Z :=
  match entries m !! id with Some entry => fee_sat entry + fee_delta m id | None => 0 end.

(** One descendant loses the fee and weight of a selected ancestor. *)
Definition discount (selected : gset bytes) (fee weight : Z)
  (st : gmap bytes MiningPackageMetrics * list MiningCandidate) (id : bytes)
  : gmap bytes MiningPackageMetrics * list MiningCandidate :=
  if bool_decide (id ∈ selected) then st
  else
    match st.1 !! id with
    | None => st
    | Some p =>
        let p := {| mp_fee := fee_sub (mp_fee p) fee; mp_weight := sat_sub (mp_weight p) weight;
                    mp_version := mp_version p +^ 1 |} in
        (<[id := p]> st.1,
         {| mc_txid := id; mc_fee := mp_fee p; mc_weight := mp_weight p; mc_version := mp_version p |} :: st.2)
    end.

Definition settle (m : Mempool) (selected : gset bytes)
  (st : gmap bytes MiningPackageMetrics * list MiningCandidate) (id : bytes)
  : gmap bytes MiningPackageMetrics * list MiningCandidate :=
  foldl (discount selected (entry_fee m id) (adjusted_weight m id)) (delete id st.1, st.2)
    (fan_out (spread_fuel m) m [id] {[id]}).

Record selection := {
  sel_selected : gset bytes;
  sel_ordered : list bytes;
  sel_weight : Z;
  sel_metrics : gmap bytes MiningPackageMetrics;
  sel_heap : list MiningCandidate;
}.

Fixpoint mining_loop (fuel : nat) (m : Mempool) (weight_limit min_fee : Z) (nonneg : bool) (s : selection) : selection :=
  match fuel with
  | O => s
  | S fuel =>
      if (size (sel_selected s) <? size (entries m))%nat then
        match next_mining_candidate (length (sel_heap s)) (sel_heap s) (sel_metrics s) (sel_selected s) (sel_weight s)
          weight_limit min_fee nonneg with
        | (None, heap) =>
            {| sel_selected := sel_selected s; sel_ordered := sel_ordered s; sel_weight := sel_weight s;
               sel_metrics := sel_metrics s; sel_heap := heap |}
        | (Some c, heap) =>
            let id := mc_txid c in
            let '(ok, (package, _)) := collect_mining_package (order_fuel m) m (sel_selected s) id (∅, ∅) in
            if ok then
              let weight := package_weight m package in
              let '(selected, package_order) :=
                append_mining_package (order_fuel m) m package (sel_selected s, []) id in
              let '(metrics, heap) := foldl (settle m selected) (sel_metrics s, heap) (set_iter package) in
              mining_loop fuel m weight_limit min_fee nonneg
                {| sel_selected := selected; sel_ordered := sel_ordered s ++ package_order;
                   sel_weight := sel_weight s +^ weight; sel_metrics := metrics; sel_heap := heap |}
            else
              mining_loop fuel m weight_limit min_fee nonneg
                {| sel_selected := sel_selected s; sel_ordered := sel_ordered s; sel_weight := sel_weight s;
                   sel_metrics := sel_metrics s; sel_heap := heap |}
        end
      else s
  end.

Definition initial_selection (m : Mempool) : selection :=
  let '(metrics, heap) := foldl (initial_metrics m) (∅, []) (keys m) in
  {| sel_selected := ∅; sel_ordered := []; sel_weight := 0; sel_metrics := metrics; sel_heap := heap |}.

(** Every round selects at least one transaction. *)
Definition mining_order_internal_with_min_fee (m : Mempool) (max_weight reserved_weight min_fee : Z) (nonneg : bool)
  : list bytes :=
  sel_ordered
    (mining_loop (S (size (entries m))) m (sat_sub max_weight reserved_weight) min_fee nonneg (initial_selection m)).

Definition mining_order_with_min_fee (m : Mempool) (max_weight reserved_weight min_fee : Z) : list bytes :=
  mining_order_internal_with_min_fee m max_weight reserved_weight min_fee true.

Definition mining_order (m : Mempool) (max_weight reserved_weight : Z) : list bytes :=
  mining_order_internal_with_min_fee m max_weight reserved_weight 0 true.
End Mining.

(** ** Lemmas: sums over sets *)

Definition set_sum (f : bytes -> Z) (X : gset bytes) : Z := foldr Z.add 0 (map f (elements X)).

Lemma set_sum_list (f : bytes -> Z) l : NoDup l -> set_sum f (list_to_set l) = foldr Z.add 0 (map f l).
Proof. intros H. unfold set_sum. apply sum_perm. by rewrite elements_list_to_set. Qed.

Lemma set_sum_union (f : bytes -> Z) (X Y : gset bytes) : X ## Y -> set_sum f (X ∪ Y) = set_sum f X + set_sum f Y.
Proof.
  intros H. unfold set_sum. rewrite (sum_perm _ (map f (elements X ++ elements Y))).
  - rewrite map_app. induction (map f (elements X)) as [|x l IH]; simpl; lia.
  - by rewrite elements_disj_union.
Qed.

Lemma set_sum_empty (f : bytes -> Z) : set_sum f ∅ = 0.
Proof. unfold set_sum. by rewrite elements_empty. Qed.

Lemma set_sum_singleton (f : bytes -> Z) x : set_sum f {[x]} = f x.
Proof. unfold set_sum. rewrite elements_singleton. simpl. lia. Qed.

Lemma set_sum_diff (f : bytes -> Z) (X : gset bytes) x : x ∈ X -> set_sum f (X ∖ {[x]}) = set_sum f X - f x.
Proof.
  intros Hx. assert (E : X = {[x]} ∪ X ∖ {[x]}).
  { apply set_eq. intros y. rewrite elem_of_union, elem_of_difference, elem_of_singleton.
    destruct (decide (y = x)) as [->|]; tauto. }
  rewrite E at 2. rewrite set_sum_union, set_sum_singleton; [lia|].
  intros y ->%elem_of_singleton. rewrite elem_of_difference, elem_of_singleton. tauto.
Qed.

Lemma set_sum_nonneg (f : bytes -> Z) (X : gset bytes) : (forall x, x ∈ X -> 0 <= f x) -> 0 <= set_sum f X.
Proof.
  intros H. apply total_nonneg, Forall_map, Forall_forall. intros x Hx%elem_of_elements. by apply H.
Qed.

Lemma set_sum_mono (f : bytes -> Z) (X Y : gset bytes) : X ⊆ Y -> (forall x, x ∈ Y -> 0 <= f x) -> set_sum f X <= set_sum f Y.
Proof.
  intros Hs Hf. rewrite (union_difference_L X Y Hs), set_sum_union.
  - assert (0 <= set_sum f (Y ∖ X)); [|lia]. apply set_sum_nonneg. intros x [? _]%elem_of_difference. by apply Hf.
  - intros x Hx [_ ?]%elem_of_difference. done.
Qed.

Lemma set_sum_abs (f : bytes -> Z) (X : gset bytes) : Z.abs (set_sum f X) <= set_sum (fun x => Z.abs (f x)) X.
Proof. unfold set_sum. induction (elements X); simpl; lia. Qed.

(** ** Lemmas: the heap *)

Lemma remove_one_perm c l : c ∈ l -> l ≡ₚ c :: remove_one c l.
Proof.
  induction l as [|x l IH]; [by intros ?%not_elem_of_nil|]. simpl. case_bool_decide as E; [by subst|].
  intros [->|H]%elem_of_cons; [done|]. rewrite (IH H) at 1. apply Permutation_swap.
Qed.

Lemma heap_pop_perm heap c heap' : heap_pop heap = Some (c, heap') -> heap ≡ₚ c :: heap'.
Proof.
  unfold heap_pop. destruct heap as [|x l]; [done|]. intros [= <- <-]. apply remove_one_perm.
  set (g := fun b y => match candidate_cmp y b with Gt => y | _ => b end).
  assert (H : forall l b, foldl g b l = b \/ foldl g b l ∈ l).
  { clear. induction l as [|y l IH]; intros b; simpl; [by left|].
    destruct (IH (g b y)) as [E|?]; [|by right; right]. rewrite E. unfold g. destruct (candidate_cmp y b); auto.
    right. by left. }
  destruct (H l x) as [->|?]; [by left|by right].
Qed.

(** A candidate with the weight and fee of a package. *)
Definition measured_candidate (c : MiningCandidate) : Prop := 0 < mc_weight c < 2 ^ 62 /\ Z.abs (mc_fee c) < 2 ^ 62.

Definition rate_le (x y : MiningCandidate) : Prop := mc_fee x * mc_weight y <= mc_fee y * mc_weight x.

Lemma rate_le_trans x y z : 0 < mc_weight y -> 0 < mc_weight x -> 0 < mc_weight z -> rate_le x y -> rate_le y z -> rate_le x z.
Proof.
  unfold rate_le. intros Hy Hx Hz H1 H2. apply (Z.mul_le_mono_pos_r _ _ (mc_weight y)); [done|].
  transitivity (mc_fee y * mc_weight x * mc_weight z); nia.
Qed.

Lemma candidate_cmp_rate x y : measured_candidate x -> measured_candidate y ->
  match candidate_cmp x y with Gt => rate_le y x | _ => rate_le x y end.
Proof.
  intros [] []. unfold candidate_cmp, rate_le, fee_mul. rewrite !sat_i128_id by nia.
  destruct (Z.compare_spec (mc_fee x * mc_weight y) (mc_fee y * mc_weight x)) as [E|E|E]; simpl; [|lia..].
  destruct (then_cmp _ _); lia.
Qed.

Lemma heap_pop_best heap c heap' : Forall measured_candidate heap -> heap_pop heap = Some (c, heap') ->
  forall x, x ∈ heap -> rate_le x c.
Proof.
  unfold heap_pop. destruct heap as [|b l]; [done|]. intros HF [= <- _]. revert b HF.
  induction l as [|y l IH]; intros b HF x Hx; cbn [foldl].
  { apply elem_of_cons in Hx as [->|Hx%elem_of_nil]; [|done]. unfold rate_le. lia. }
  apply Forall_cons in HF as [Hb HF]. apply Forall_cons in HF as [Hy HF].
  pose proof (candidate_cmp_rate y b Hy Hb) as Hc. set (best := match candidate_cmp y b with Gt => y | _ => b end).
  assert (Hbest : measured_candidate best /\ rate_le y best /\ rate_le b best).
  { unfold best. destruct (candidate_cmp y b); split_and!; try done; unfold rate_le; lia. }
  destruct Hbest as (Hm & H1 & H2). assert (HF' : Forall measured_candidate (best :: l)) by (by constructor).
  pose proof (IH best HF' best (list_elem_of_here _ _)) as Hr.
  assert (Hfold : measured_candidate (foldl (fun b x => match candidate_cmp x b with Gt => x | _ => b end) best l)).
  { clear - HF'. revert HF'. generalize best. induction l as [|z l IH]; intros c HF; simpl; [by apply Forall_cons in HF as []|].
    apply IH. apply Forall_cons in HF as [? HF]. apply Forall_cons in HF as [? ?]. constructor; [|done]. by destruct (candidate_cmp z c). }
  destruct Hm as [[] _], Hfold as [[] _], Hb as [[] _], Hy as [[] _].
  apply elem_of_cons in Hx as [->|[->|Hx]%elem_of_cons]; [by apply (rate_le_trans _ best)..|].
  apply IH; [done|by right].
Qed.

Section Candidates.
Context {Ops : BitcoinOps} {POps : MempoolOps} {C : Consensus Transaction} {L : Layout} {HO : HashOrder}.

Lemma next_mining_candidate_spec fuel heap metrics sel w limit minf nn :
  (length heap <= fuel)%nat -> Forall measured_candidate heap ->
  let reject c := stale metrics sel c = true \/ unfit w limit minf nn (mc_fee c) (mc_weight c) = true in
  match next_mining_candidate fuel heap metrics sel w limit minf nn with
  | (Some c, heap') => c ∈ heap /\ ~ reject c /\ (forall x, x ∈ heap' -> x ∈ heap) /\
      (forall x, x ∈ heap -> x ∈ heap' \/ x = c \/ reject x) /\ forall x, x ∈ heap -> reject x \/ rate_le x c
  | (None, heap') => forall x, x ∈ heap -> reject x
  end.
Proof.
  cbn zeta. revert heap. induction fuel as [|fuel IH]; intros heap Hl HF; cbn [next_mining_candidate].
  { destruct heap; [|simpl in Hl; lia]. by intros x ?%not_elem_of_nil. }
  destruct (heap_pop heap) as [[c heap']|] eqn:E.
  2: { destruct heap; [|done]. by intros x ?%not_elem_of_nil. }
  pose proof (heap_pop_best heap c heap' HF E) as Hbest.
  apply heap_pop_perm in E. assert (Hin : forall x, x ∈ heap <-> x = c \/ x ∈ heap').
  { intros x. by rewrite E, elem_of_cons. }
  assert (HF' : Forall measured_candidate heap') by (rewrite E in HF; by apply Forall_cons in HF as []).
  apply Permutation_length in E. simpl in E.
  destruct (stale metrics sel c || unfit w limit minf nn (mc_fee c) (mc_weight c)) eqn:Er.
  - apply orb_true_iff in Er. specialize (IH heap' ltac:(lia) HF').
    destruct (next_mining_candidate fuel heap' _ _ _ _ _ _) as [[c'|] heap'']; simpl in *.
    + destruct IH as (H1 & H2 & H3 & H4 & H5). split_and!; [apply Hin; by right|done|intros x Hx; apply Hin; auto|..];
        (intros x [->|Hx]%Hin; [tauto|]); auto.
    + intros x [->|Hx]%Hin; [tauto|]. by apply IH.
  - apply orb_false_iff in Er as [E1 E2].
    split_and!; [apply Hin; by left|rewrite E1, E2; by intros [?|?]|intros x Hx; apply Hin; auto| |auto].
    intros x [->|Hx]%Hin; auto.
Qed.

Lemma unfit_mono w w' limit minf nn f wt :
  w <= w' -> unfit w limit minf nn f wt = true -> unfit w' limit minf nn f wt = true.
Proof.
  unfold unfit. rewrite !orb_true_iff, !Z.ltb_lt. intros Hw [[H|H]|H]; [|tauto..]. left. left.
  unfold sat_add in *. lia.
Qed.
End Candidates.

(** ** Packages are the unselected ancestors *)

Section Packages.
Context {Ops : BitcoinOps} {POps : MempoolOps} {C : Consensus Transaction} {L : Layout} {HO : HashOrder}.
Context {TL : TxidLaws}.
Context (m : Mempool) (Hm : consistent m).
Let Hi : indexed m := c_indexed m Hm.

(** With a transaction come all the transactions it spends. *)
Definition closed (sel : gset bytes) : Prop := forall p c, child_of m p c -> c ∈ sel -> p ∈ sel.

Lemma closed_ancestor sel p c : closed sel -> ancestor m p c -> c ∈ sel -> p ∈ sel.
Proof. intros Hc. induction 1 as [p c H|p q c H _ IH]; [by apply (Hc p c)|]. intros Hin. by apply (Hc p q), IH. Qed.

Definition unselected (sel : gset bytes) (id : bytes) : gset bytes := ({[id]} ∪ list_to_set (ancestors m id)) ∖ sel.

Lemma elem_of_unselected sel id x : x ∈ unselected sel id <-> (x = id \/ ancestor m x id) /\ (x ∉ sel).
Proof.
  unfold unselected. rewrite elem_of_difference, elem_of_union, elem_of_singleton, elem_of_list_to_set.
  by rewrite (proj1 (proj2 (ancestors_spec m id Hi))).
Qed.

Lemma ancestor_last x c : ancestor m x c -> exists p, child_of m p c /\ (x = p \/ ancestor m x p).
Proof.
  induction 1 as [x c H|x q c H _ IH]; [by exists x; auto|]. destruct IH as (p & Hp & [->|Ha]).
  - exists p. split; [done|]. right. by apply tc_once.
  - exists p. split; [done|]. right. by eapply tc_l.
Qed.

(** A partial package: closed up to what is selected. *)
Definition partial (sel P : gset bytes) : Prop := forall p c, child_of m p c -> c ∈ P -> p ∈ P \/ p ∈ sel.

Lemma partial_ancestor sel P x c : closed sel -> partial sel P -> ancestor m x c -> c ∈ P -> x ∈ P \/ x ∈ sel.
Proof.
  intros Hc Hp. induction 1 as [x c H|x q c H Hqc IH]; [by apply Hp|]. intros Hin.
  destruct (IH Hin) as [Hq|Hq]; [by apply (Hp x q)|right; by apply (Hc x q)].
Qed.

(** What [collect_mining_package] adds for a transaction. *)
Definition collected (sel : gset bytes) (id : bytes) (P P' : gset bytes) : Prop :=
  forall x, x ∈ P' <-> x ∈ P \/ ((x = id \/ ancestor m x id) /\ (x ∉ sel)).

Definition collect_ok (fuel : nat) (sel : gset bytes) : Prop := forall id P V,
  partial sel P -> V ⊆ dom (entries m) -> enough m fuel V -> in_pool m id ->
  (forall v, v ∈ V -> (tx_rank id < tx_rank v)%nat) ->
  exists P', collect_mining_package fuel m sel id (P, V) = (true, (P', V)) /\ collected sel id P P' /\ partial sel P'.

Lemma collect_parents_ok fuel sel ps P V :
  collect_ok fuel sel -> partial sel P -> V ⊆ dom (entries m) -> enough m fuel V ->
  (forall p, p ∈ ps -> in_pool m p /\ forall v, v ∈ V -> (tx_rank p < tx_rank v)%nat) ->
  exists P', collect_parents (collect_mining_package fuel m sel) ps (P, V) = (true, (P', V)) /\ partial sel P' /\
    forall x, x ∈ P' <-> x ∈ P \/ ((exists p, p ∈ ps /\ (x = p \/ ancestor m x p)) /\ (x ∉ sel)).
Proof.
  intros Hc. revert P. induction ps as [|p ps IH]; intros P HP HV Hf Hps; cbn [collect_parents].
  { exists P. split_and!; [done..|]. intros x. setoid_rewrite elem_of_nil. split; [by left|].
    by intros [?|[(? & [] & _) _]]. }
  destruct (Hps p) as [Hp Hr]; [by left|]. destruct (Hc p P V HP HV Hf Hp Hr) as (P1 & -> & H1 & HP1).
  destruct (IH P1 HP1 HV Hf) as (P2 & -> & HP2 & H2); [intros q Hq; apply Hps; by right|].
  exists P2. split_and!; [done..|]. intros x. rewrite H2, (H1 x). setoid_rewrite elem_of_cons. split.
  - intros [[?|[? ?]]|[(q & ? & ?) ?]]; [by left|right|right]; eauto 6.
  - intros [?|[(q & [->|?] & ?) ?]]; [by left; left|left; by right|right; eauto].
Qed.

Lemma collect_correct fuel sel : closed sel -> collect_ok fuel sel.
Proof.
  intros Hcl. induction fuel as [|fuel IH]; intros id P V HP HV Hf Hid Hr; [unfold enough in Hf; lia|].
  cbn [collect_mining_package fst snd]. case_bool_decide as Hs.
  { exists P. split_and!; [done| |done]. intros x. split; [by left|]. intros [?|[[->|Ha] Hn]]; [done..|].
    destruct Hn. by apply (closed_ancestor sel x id). }
  case_bool_decide as HidP.
  { exists P. split_and!; [done| |done]. intros x. split; [by left|]. intros [?|[[->|Ha] Hn]]; [done..|].
    by destruct (partial_ancestor sel P x id Hcl HP Ha HidP). }
  assert (HnV : id ∉ V) by (intros Hin; specialize (Hr id Hin); lia).
  rewrite (proj2 (contains_spec m id) Hid), bool_decide_eq_false_2 by done. simpl.
  destruct (collect_parents_ok fuel sel (parents m id) P ({[id]} ∪ V)) as (P' & -> & HP' & H').
  - exact IH.
  - done.
  - intros x [->%elem_of_singleton|?]%elem_of_union; [by apply in_pool_dom|by apply HV].
  - unfold enough in *. rewrite (size_mark (dom (entries m)) V id) in Hf; [lia|by apply in_pool_dom|done].
  - intros p Hp%elem_of_parents. split; [by apply child_in_pool in Hp as []|].
    pose proof (child_rank m p id Hi Hp). intros v [->%elem_of_singleton|Hv]%elem_of_union; [done|].
    specialize (Hr v Hv). lia.
  - exists ({[id]} ∪ P'). split_and!.
    + do 3 f_equal. apply set_eq. intros x. rewrite elem_of_difference, elem_of_union, elem_of_singleton.
      destruct (decide (x = id)) as [->|]; tauto.
    + intros x. rewrite elem_of_union, elem_of_singleton, H'. setoid_rewrite elem_of_parents. split.
      * intros [->|[?|[(p & Hp & [->|Ha]) Hn]]]; [right; tauto|by left|right|right];
          (split; [right|done]); [by apply tc_once|by eapply tc_r].
      * intros [?|[[->|Ha] Hn]]; [by right; left|by left|]. right. right. split; [|done].
        apply ancestor_last in Ha as (p & ? & ?). eauto.
    + intros p c Hpc [->%elem_of_singleton|Hc]%elem_of_union.
      * destruct (decide (p ∈ sel)); [by right|]. left. apply elem_of_union_r, H'. right. split; [|done].
        exists p. split; [by apply elem_of_parents|by left].
      * destruct (HP' p c Hpc Hc); [left; by apply elem_of_union_r|by right].
Qed.

Lemma collect_package sel id : closed sel -> in_pool m id -> exists V,
  collect_mining_package (order_fuel m) m sel id (∅, ∅) = (true, (unselected sel id, V)).
Proof.
  intros Hcl Hid. destruct (collect_correct (order_fuel m) sel Hcl id ∅ ∅) as (P & E & H & _).
  - by intros p c _ ?%not_elem_of_empty.
  - by intros x ?%not_elem_of_empty.
  - unfold enough, order_fuel. rewrite difference_empty_L, size_entries_dom. lia.
  - done.
  - by intros v ?%not_elem_of_empty.
  - exists ∅. rewrite E. do 3 f_equal. apply set_eq. intros x. rewrite (H x), elem_of_unselected, elem_of_empty. tauto.
Qed.

(** ** A package is appended parents first *)

Section Append.
Context (sel0 P : gset bytes) (HP : partial sel0 P).

Record appended (st : gset bytes * list bytes) : Prop := {
  ap_set : forall x, x ∈ st.1 <-> x ∈ sel0 \/ x ∈ st.2;
  ap_NoDup : NoDup st.2;
  ap_new : forall x, x ∈ st.2 -> x ∈ P /\ (x ∉ sel0);
  ap_order : forall l1 c l2 p, st.2 = l1 ++ c :: l2 -> child_of m p c -> p ∈ sel0 \/ p ∈ l1;
}.

Definition ancestor_count (id : bytes) : nat := length (ancestors m id).

Lemma ancestor_count_lt p c : child_of m p c -> (ancestor_count p < ancestor_count c)%nat.
Proof.
  intros H. destruct (ancestors_spec m p Hi) as (N1 & E1 & _). destruct (ancestors_spec m c Hi) as (N2 & E2 & _).
  unfold ancestor_count. assert (Hs : (length (p :: ancestors m p) <= length (ancestors m c))%nat); [|simpl in Hs; lia].
  apply NoDup_incl_length.
  - apply NoDup_ListNoDup, NoDup_cons. split; [|done]. intros Ha%E1. pose proof (ancestor_rank m p p Hi Ha). lia.
  - intros x Hx. apply list_elem_of_In in Hx. apply list_elem_of_In, E2.
    apply elem_of_cons in Hx as [->|Hx%E1]; [by apply tc_once|by eapply tc_r].
Qed.

Lemma append_spec fuel id st :
  appended st -> (ancestor_count id < fuel)%nat ->
  let st' := append_mining_package fuel m P st id in
  appended st' /\ (forall x, x ∈ st.1 -> x ∈ st'.1) /\ (id ∈ P -> id ∈ st'.1).
Proof.
  revert id st. induction fuel as [|fuel IH]; intros id st Hst Hf; [lia|]. cbn [append_mining_package].
  case_bool_decide as Hs; simpl; [done|]. case_bool_decide as HidP; simpl; [|done].
  assert (Hl : forall ps st, appended st -> (forall p, p ∈ ps -> child_of m p id) ->
    let st' := foldl (append_mining_package fuel m P) st ps in
    appended st' /\ (forall x, x ∈ st.1 -> x ∈ st'.1) /\ forall p, p ∈ ps -> p ∈ P -> p ∈ st'.1).
  { clear st Hst Hs. induction ps as [|p ps IHp]; intros st Hst Hps; simpl.
    { split_and!; [done..|]. by intros p ?%not_elem_of_nil. }
    pose proof (ancestor_count_lt p id (Hps p (list_elem_of_here p ps))) as Hlt.
    destruct (IH p st Hst ltac:(lia)) as (H1 & H2 & H3).
    destruct (IHp _ H1) as (H4 & H5 & H6); [intros q Hq; apply Hps; by right|].
    split_and!; [done|auto|]. intros q [->|Hq]%elem_of_cons HqP; auto. }
  destruct (Hl (parents m id) st Hst) as (H1 & H2 & H3); [intros p; by apply elem_of_parents|].
  destruct (foldl _ _ _) as [sel ordered]. simpl in *. case_bool_decide as Hin; simpl; [done|].
  split_and!; [|intros x Hx; apply elem_of_union_r; by apply H2|intros _; apply elem_of_union_l; by apply elem_of_singleton].
  assert (Hid0 : id ∉ sel0) by (intros ?; apply Hin, (ap_set _ H1); by left).
  destruct H1 as [A1 A2 A3 A4]; simpl in *. split; simpl.
  - intros x. rewrite elem_of_union, elem_of_singleton, A1, elem_of_app, list_elem_of_singleton. tauto.
  - apply NoDup_app. split_and!; [done| |apply NoDup_singleton]. intros x Hx ->%list_elem_of_singleton.
    apply Hin, A1. by right.
  - intros x [?| ->%list_elem_of_singleton]%elem_of_app; auto.
  - intros l1 c l2 p E Hc. destruct l2 as [|z l2 _] using rev_ind.
    + apply app_inj_tail in E as [<- ->]. destruct (HP p c Hc HidP) as [HpP|?]; [|by left].
      apply A1, H3; [by apply elem_of_parents|done].
    + rewrite app_comm_cons, app_assoc in E. apply app_inj_tail in E as [E _]. by apply (A4 l1 c l2 p).
Qed.
End Append.

Lemma unselected_partial sel id : partial sel (unselected sel id).
Proof.
  intros p c Hpc Hc%elem_of_unselected. destruct (decide (p ∈ sel)); [by right|]. left.
  apply elem_of_unselected. split; [|done]. right. destruct Hc as [[->|Ha] _]; [by apply tc_once|by eapply tc_l].
Qed.

Lemma append_package sel id : closed sel -> in_pool m id -> id ∉ sel ->
  let '(sel', order) := append_mining_package (order_fuel m) m (unselected sel id) (sel, []) id in
  sel' = sel ∪ unselected sel id /\ NoDup order /\ (forall x, x ∈ order <-> x ∈ unselected sel id) /\
  forall l1 c l2 p, order = l1 ++ c :: l2 -> child_of m p c -> p ∈ sel \/ p ∈ l1.
Proof.
  intros Hcl Hid Hn. destruct (append_spec sel (unselected sel id) (unselected_partial sel id) (order_fuel m) id (sel, []))
    as (H1 & H2 & H3).
  - split; simpl; [|constructor|by intros x ?%not_elem_of_nil|intros l1 c l2 p E; by destruct l1].
    intros x. rewrite elem_of_nil. tauto.
  - unfold ancestor_count, order_fuel. destruct (ancestors_spec m id Hi) as (Hnd & Ha & _).
    rewrite size_entries_dom, <- (size_list_to_set (C:=gset bytes) _ Hnd). apply Nat.lt_succ_r, subseteq_size.
    intros x Hx%elem_of_list_to_set. apply in_pool_dom. by apply Ha, ancestor_in_pool in Hx as [].
  - destruct (append_mining_package _ _ _ _ _) as [sel' order]. simpl in *. destruct H1 as [A1 A2 A3 A4]; simpl in *.
    assert (Hids : id ∈ sel') by (apply H3, elem_of_unselected; tauto).
    assert (Hc' : forall p c, child_of m p c -> c ∈ sel' -> p ∈ sel').
    { intros p c Hpc [Hs|Ho]%A1; [apply A1; left; by apply (Hcl p c)|].
      apply list_elem_of_split in Ho as (l1 & l2 & E). destruct (A4 l1 c l2 p E Hpc) as [?|Hin]; apply A1; [by left|].
      right. rewrite E. apply elem_of_app. by left. }
    assert (Hall : forall x, x ∈ unselected sel id -> x ∈ order).
    { intros x [[->|Ha] Hx]%elem_of_unselected; [apply A1 in Hids; tauto|].
      assert (x ∈ sel') as [?|?]%A1; [|done..]. clear - Ha Hc' Hids. induction Ha as [x c H|x q c H _ IH]; eauto. }
    split_and!; [|done|intros x; split; [by intros [? _]%A3|apply Hall]|done].
    apply set_eq. intros x. rewrite A1, elem_of_union. split; [|intros [?|?]; auto].
    intros [?|[? _]%A3]; auto.
Qed.

(** ** The descendants a selection updates *)

Lemma fan_step (cs queue : list bytes) (seen : gset bytes) :
  (forall c, c ∈ cs -> in_pool m c) ->
  let st := foldl (fun st child =>
    if contains m child && negb (bool_decide (child ∈ st.2)) then (st.1 ++ [child], {[child]} ∪ st.2) else st)
    (queue, seen) cs in
  exists new, st.1 = queue ++ new /\ NoDup new /\ (forall x, x ∈ new <-> x ∈ cs /\ (x ∉ seen)) /\
    (forall x, x ∈ st.2 <-> x ∈ seen \/ x ∈ new) /\
    (length new + size (dom (entries m) ∖ st.2) = size (dom (entries m) ∖ seen))%nat.
Proof.
  cbn zeta. revert queue seen. induction cs as [|c cs IH]; intros queue seen Hcs; cbn [foldl].
  { exists []. rewrite app_nil_r. setoid_rewrite elem_of_nil. split_and!; [done|constructor|tauto|tauto|done]. }
  assert (Hc : in_pool m c) by (apply Hcs; by left). rewrite (proj2 (contains_spec m c) Hc). cbn [fst snd andb].
  case_bool_decide as Hin; cbn [negb].
  { destruct (IH queue seen) as (new & H1 & H2 & H3 & H4 & H5); [intros x Hx; apply Hcs; by right|].
    exists new. split_and!; try done. intros x. rewrite H3, elem_of_cons. intuition congruence. }
  destruct (IH (queue ++ [c]) ({[c]} ∪ seen)) as (new & H1 & H2 & H3 & H4 & H5); [intros x Hx; apply Hcs; by right|].
  exists (c :: new). split_and!.
  - by rewrite H1, <- app_assoc.
  - apply NoDup_cons. split; [|done]. rewrite H3, elem_of_union, elem_of_singleton. tauto.
  - intros x. rewrite !elem_of_cons, H3, elem_of_union, elem_of_singleton.
    destruct (decide (x = c)) as [->|]; tauto.
  - intros x. rewrite H4, elem_of_union, elem_of_singleton, elem_of_cons. tauto.
  - cbn [length]. rewrite (size_mark (dom (entries m)) seen c); [lia|by apply in_pool_dom|done].
Qed.

Lemma fan_out_spec (fuel : nat) (queue : list bytes) (seen : gset bytes) :
  (length queue + size (dom (entries m) ∖ seen) <= fuel)%nat ->
  NoDup queue -> (forall x, x ∈ queue -> x ∈ seen) ->
  let R := fan_out fuel m queue seen in
  NoDup R /\ (forall x, x ∈ R -> x ∈ queue \/ x ∉ seen) /\ (forall x, x ∈ queue -> x ∈ R) /\
  (forall x y, x ∈ R -> child_of m x y -> y ∈ R \/ y ∈ seen) /\
  (forall x, x ∈ R -> exists q, q ∈ queue /\ rtc (child_of m) q x).
Proof.
  cbn zeta. revert queue seen. induction fuel as [|fuel IH]; intros [|current queue] seen Hf Hn Hs;
    cbn [fan_out length] in *; try lia;
    try (split_and!; [constructor|intros x; rewrite elem_of_nil; tauto|done|intros x y; rewrite elem_of_nil; tauto|
      intros x; rewrite elem_of_nil; tauto]).
  assert (Hch : forall c, c ∈ set_iter (at_key (children_index m) current) <-> child_of m current c).
  { intros c. rewrite elem_of_set_iter. apply (c_children m Hm). }
  destruct (fan_step (set_iter (at_key (children_index m) current)) queue seen) as (new & H1 & H2 & H3 & H4 & H5).
  { intros c Hc%Hch. by apply child_in_pool in Hc as []. }
  destruct (foldl _ _ _) as [queue' seen']. simpl in *. subst queue'. apply NoDup_cons in Hn as [Hcq Hn].
  assert (Hcur : current ∈ seen) by (apply Hs; by left).
  destruct (IH (queue ++ new) seen') as (R1 & R2 & R3 & R4 & R5).
  - rewrite length_app. lia.
  - apply NoDup_app. split_and!; [done| |done]. intros x Hx [_ Hx2]%H3. apply Hx2, Hs. by right.
  - intros x [Hx|Hx]%elem_of_app; apply H4; [left; apply Hs; by right|by right].
  - set (R := fan_out fuel m (queue ++ new) seen') in *. split_and!.
    + apply NoDup_cons. split; [|done]. intros [[?|[_ ?]%H3]%elem_of_app|Hx]%R2; [done..|]. apply Hx, H4. by left.
    + intros x [->|Hx]%elem_of_cons; [left; by left|]. destruct (R2 x Hx) as [[?|[_ ?]%H3]%elem_of_app|Hx2].
      * left. by right.
      * by right.
      * right. intros ?. apply Hx2, H4. by left.
    + intros x [->|Hx]%elem_of_cons; [by left|]. right. apply R3, elem_of_app. by left.
    + intros x y [->|Hx]%elem_of_cons Hxy.
      * destruct (decide (y ∈ seen)); [by right|]. left. right. apply R3, elem_of_app. right. apply H3. by rewrite Hch.
      * destruct (R4 x y Hx Hxy) as [?|[?|Hnew]%H4]; [left; by right|by right|]. left. right.
        apply R3, elem_of_app. by right.
    + intros x [->|Hx]%elem_of_cons; [exists current; split; [by left|apply rtc_refl]|].
      destruct (R5 x Hx) as (q & [Hq|[Hq _]%H3]%elem_of_app & Hr); [exists q; split; [by right|done]|].
      exists current. split; [by left|]. apply Hch in Hq. by eapply rtc_l.
Qed.

Lemma fan_out_descendants id : in_pool m id ->
  let R := fan_out (spread_fuel m) m [id] {[id]} in
  NoDup R /\ forall x, x ∈ R <-> x = id \/ ancestor m id x.
Proof.
  intros Hid. destruct (fan_out_spec (spread_fuel m) [id] {[id]}) as (R1 & R2 & R3 & R4 & R5).
  - unfold spread_fuel. rewrite size_entries_dom. simpl.
    pose proof (subseteq_size (dom (entries m) ∖ {[id]}) (dom (entries m) : gset bytes)).
    assert (dom (entries m) ∖ {[id]} ⊆ (dom (entries m) : gset bytes)) by (intros x [? _]%elem_of_difference; done).
    specialize (H H0). lia.
  - apply NoDup_singleton.
  - intros x ->%list_elem_of_singleton. by apply elem_of_singleton.
  - set (R := fan_out _ _ _ _) in *. assert (HidR : id ∈ R) by (apply R3; by apply list_elem_of_singleton).
    split; [done|]. intros x. split.
    + intros (q & ->%list_elem_of_singleton & [->|Ht]%rtc_tc)%R5; [by left|by right].
    + intros [->|Ha]; [done|]. revert x Ha. apply tc_ind_r.
      * intros y Hy. destruct (R4 id y HidR Hy) as [?| ->%elem_of_singleton]; done.
      * intros y z _ Hyz Hy. destruct (R4 y z Hy Hyz) as [?| ->%elem_of_singleton]; done.
Qed.
End Packages.

(** ** The metrics stay those of the unselected ancestors *)

Section Selection.
Context {Ops : BitcoinOps} {POps : MempoolOps} {C : Consensus Transaction} {L : Layout} {HO : HashOrder}.
Context {TL : TxidLaws}.

(** The weights and modified fees of the whole pool are representable. *)
Record mining_fits (m : Mempool) : Prop := {
  mf_weight : forall id, in_pool m id -> 0 < adjusted_weight m id;
  mf_total : set_sum (adjusted_weight m) (dom (entries m)) < 2 ^ 62;
  mf_fees : fees_fit m;
}.

Context (m : Mempool) (Hm : consistent m) (Hfit : mining_fits m) (limit minf : Z) (nn : bool).
Let Hi : indexed m := c_indexed m Hm.
Abbreviation weight_of := (set_sum (adjusted_weight m)).
Abbreviation fee_of_set := (set_sum (entry_fee m)).

Lemma weight_bound (X : gset bytes) : X ⊆ dom (entries m) -> 0 <= weight_of X < 2 ^ 62.
Proof.
  intros HX. assert (Hw : forall x, x ∈ (dom (entries m) : gset bytes) -> 0 <= adjusted_weight m x).
  { intros x Hx. by apply Z.lt_le_incl, (mf_weight m Hfit), in_pool_dom. }
  split; [apply set_sum_nonneg; auto|]. pose proof (mf_total m Hfit). pose proof (set_sum_mono (adjusted_weight m) X _ HX Hw). lia.
Qed.

Lemma package_weight_exact (X : gset bytes) : X ⊆ dom (entries m) -> package_weight m X = weight_of X.
Proof.
  intros HX. pose proof (weight_bound X HX) as Hb. unfold package_weight, sum_u64.
  assert (E : forall l a, foldl (fun a b => a +^ b) a (map (adjusted_weight m) l) = foldl (fun s x => s +^ adjusted_weight m x) a l).
  { induction l as [|x l IH]; intros a; simpl; auto. }
  assert (Es : foldr Z.add 0 (map (adjusted_weight m) (set_iter X)) = weight_of X).
  { apply sum_perm. by rewrite set_iter_perm. }
  rewrite E, (sat_sum (adjusted_weight m)); [lia| |lia|unfold umax; lia].
  apply Forall_forall. intros x Hx%elem_of_set_iter. by apply Z.lt_le_incl, (mf_weight m Hfit), in_pool_dom, HX.
Qed.

Lemma dom_sum (g : bytes -> Z) f :
  (forall id e, entries m !! id = Some e -> g id = f id e) -> set_sum g (dom (entries m)) = msum f (entries m).
Proof.
  intros H. unfold set_sum, msum.
  rewrite (sum_perm _ (map g (map_to_list (entries m)).*1)).
  - f_equal. rewrite map_map. apply map_ext_in. intros [id e] Hin. simpl. apply H.
    by apply elem_of_map_to_list, list_elem_of_In.
  - apply Permutation_map, NoDup_Permutation; [apply NoDup_elements|apply NoDup_fst_map_to_list|].
    intros id. rewrite elem_of_elements, elem_of_dom. split.
    + intros [e E]. apply list_elem_of_fmap. exists (id, e). split; [done|]. by apply elem_of_map_to_list.
    + intros ([id' e] & -> & E%elem_of_map_to_list)%list_elem_of_fmap. by exists e.
Qed.

Lemma abs_fees (X : gset bytes) : X ⊆ dom (entries m) -> set_sum (fun x => Z.abs (entry_fee m x)) X < 2 ^ 62.
Proof.
  intros HX. eapply Z.le_lt_trans; [|apply (mf_fees m Hfit)].
  rewrite <- (dom_sum (fun x => Z.abs (entry_fee m x))).
  - apply set_sum_mono; [done|]. intros. lia.
  - intros id e E. unfold entry_fee. by rewrite E.
Qed.

Lemma fee_bound (X : gset bytes) : X ⊆ dom (entries m) -> Z.abs (fee_of_set X) < 2 ^ 62.
Proof. intros HX. pose proof (abs_fees X HX). pose proof (set_sum_abs (entry_fee m) X). lia. Qed.

Lemma package_fee_exact (X : gset bytes) : X ⊆ dom (entries m) -> package_fee m X = fee_of_set X.
Proof.
  intros HX. unfold package_fee.
  assert (E : omap (fun id => entry ← entries m !! id; Some (fee_sat entry + fee_delta m id)) (set_iter X) =
    map (entry_fee m) (set_iter X)).
  { assert (Hl : forall x, x ∈ set_iter X -> in_pool m x).
    { intros x Hx%elem_of_set_iter. by apply in_pool_dom, HX. }
    induction (set_iter X) as [|x l IH]; [done|]. rewrite omap_cons_eq. cbn [map].
    destruct (Hl x (list_elem_of_here x l)) as [e Ee]. unfold entry_fee at 1. rewrite Ee. cbn [mbind option_bind].
    f_equal. apply IH. intros y Hy. apply Hl. by right. }
  rewrite E. assert (Es : foldr Z.add 0 (map (entry_fee m) (set_iter X)) = fee_of_set X).
  { apply sum_perm. by rewrite set_iter_perm. }
  rewrite fee_sum; [lia|]. rewrite map_map. pose proof (abs_fees X HX) as Ha. unfold set_sum in Ha.
  rewrite (sum_perm _ (map (fun x => Z.abs (entry_fee m x)) (elements X))); [lia|]. by rewrite set_iter_perm.
Qed.

Lemma unselected_dom sel id : in_pool m id -> unselected m sel id ⊆ dom (entries m).
Proof.
  intros Hid x [[->|Ha] _]%(elem_of_unselected m Hm); [by apply in_pool_dom|].
  apply in_pool_dom. by apply ancestor_in_pool in Ha as [].
Qed.

(** The metrics a transaction should have. *)
Definition metrics_of (sel : gset bytes) (id : bytes) (v : Z) : MiningPackageMetrics :=
  {| mp_fee := fee_of_set (unselected m sel id); mp_weight := weight_of (unselected m sel id); mp_version := v |}.

Definition as_candidate (id : bytes) (p : MiningPackageMetrics) : MiningCandidate :=
  {| mc_txid := id; mc_fee := mp_fee p; mc_weight := mp_weight p; mc_version := mp_version p |}.

Lemma metrics_measured sel id v : in_pool m id -> id ∉ sel -> measured_candidate (as_candidate id (metrics_of sel id v)).
Proof.
  intros Hid Hn. pose proof (unselected_dom sel id Hid) as Hd. split; simpl; [|by apply fee_bound].
  split; [|by apply weight_bound]. assert (Hin : {[id]} ⊆ unselected m sel id).
  { apply singleton_subseteq_l, (elem_of_unselected m Hm). tauto. }
  eapply Z.lt_le_trans; [exact (mf_weight m Hfit id Hid)|]. rewrite <- (set_sum_singleton (adjusted_weight m)).
  apply set_sum_mono; [done|]. intros x Hx. by apply Z.lt_le_incl, (mf_weight m Hfit), in_pool_dom, Hd.
Qed.

(** [live] are the transactions not selected in the end of a round; their
    metrics are relative to what has been settled. *)
Record tracked (live : bytes -> Prop) (sel : gset bytes) (W : Z)
  (st : gmap bytes MiningPackageMetrics * list MiningCandidate) : Prop := {
  tk_metrics : forall id, live id -> exists v, st.1 !! id = Some (metrics_of sel id v);
  tk_heap : forall id p, live id -> st.1 !! id = Some p ->
    as_candidate id p ∈ st.2 \/ unfit W limit minf nn (mp_fee p) (mp_weight p) = true;
  tk_keys : forall id p, st.1 !! id = Some p -> in_pool m id;
  tk_measured : Forall measured_candidate st.2;
}.

Lemma initial_tracked :
  tracked (in_pool m) ∅ 0 (foldl (initial_metrics m) (∅, []) (keys m)).
Proof.
  assert (H : forall l st, (forall id, id ∈ l -> in_pool m id) -> Forall measured_candidate st.2 ->
    let st' := foldl (initial_metrics m) st l in
    (forall id, id ∉ l -> st'.1 !! id = st.1 !! id) /\ (forall c, c ∈ st.2 -> c ∈ st'.2) /\
    (forall id, id ∈ l -> st'.1 !! id = Some (metrics_of ∅ id 0) /\ as_candidate id (metrics_of ∅ id 0) ∈ st'.2) /\
    Forall measured_candidate st'.2).
  { induction l as [|id l IH]; intros st Hl HF; simpl.
    { split_and!; [done|done| |done]. by intros id ?%not_elem_of_nil. }
    assert (Hid : in_pool m id) by (apply Hl; by left).
    assert (Hc0 : closed m ∅) by (by intros p c _ ?%not_elem_of_empty).
    destruct (collect_package m Hm ∅ id Hc0 Hid) as [V EV].
    assert (E1 : initial_metrics m st id =
      (<[id := metrics_of ∅ id 0]> st.1, as_candidate id (metrics_of ∅ id 0) :: st.2)).
    { unfold initial_metrics. rewrite EV. pose proof (unselected_dom ∅ id Hid).
      by rewrite package_weight_exact, package_fee_exact. }
    rewrite E1. destruct (IH (<[id := metrics_of ∅ id 0]> st.1, as_candidate id (metrics_of ∅ id 0) :: st.2))
      as (H1 & H2 & H3 & H4); [intros x Hx; apply Hl; by right|constructor; [by apply metrics_measured|done]|].
    simpl in *. split_and!; [..|done].
    - intros x [Hne Hx]%not_elem_of_cons. by rewrite H1, lookup_insert_ne.
    - intros c Hc. apply H2. by right.
    - intros x [->|Hx]%elem_of_cons; [|by apply H3]. destruct (decide (id ∈ l)) as [Hx|Hx]; [by apply H3|].
      rewrite H1, lookup_insert_eq by done. split; [done|]. apply H2. by left. }
  destruct (H (keys m) (∅, [])) as (H1 & _ & H3 & H4); [intros id; by apply elem_of_keys|constructor|].
  split; [..|done].
  - intros id Hid%elem_of_keys. exists 0. by apply H3.
  - intros id p Hid%elem_of_keys E. destruct (H3 id Hid) as [E2 Hc]. rewrite E in E2. injection E2 as ->. by left.
  - intros id p E. apply elem_of_keys. destruct (decide (id ∈ keys m)) as [|Hn]; [done|].
    rewrite H1 in E by done. simpl in E. by rewrite lookup_empty in E.
Qed.

(** The descendants of one selected transaction, each discounted once. *)
Lemma discounts sel fee weight l st :
  NoDup l ->
  let upd p := {| mp_fee := fee_sub (mp_fee p) fee; mp_weight := sat_sub (mp_weight p) weight; mp_version := mp_version p +^ 1 |} in
  let st' := foldl (discount sel fee weight) st l in
  (forall d, (d ∉ l) \/ d ∈ sel -> st'.1 !! d = st.1 !! d) /\
  (forall d p, d ∈ l -> (d ∉ sel) -> st.1 !! d = Some p -> st'.1 !! d = Some (upd p) /\ as_candidate d (upd p) ∈ st'.2) /\
  (forall c, c ∈ st.2 -> c ∈ st'.2) /\
  (forall c, c ∈ st'.2 -> c ∈ st.2 \/ exists d p, d ∈ l /\ (d ∉ sel) /\ st.1 !! d = Some p /\ c = as_candidate d (upd p)).
Proof.
  cbn zeta. intros Hn. revert st. induction Hn as [|x l Hx Hn IH]; intros st; cbn [foldl].
  { split_and!; [done| |done|by left]. by intros d p ?%not_elem_of_nil. }
  destruct (IH (discount sel fee weight st x)) as (H1 & H2 & H3 & H4). clear IH.
  assert (Hd : (forall d, d <> x \/ d ∈ sel -> (discount sel fee weight st x).1 !! d = st.1 !! d) /\
    (forall c, c ∈ st.2 -> c ∈ (discount sel fee weight st x).2)).
  { unfold discount. case_bool_decide as Hs; [done|]. destruct (st.1 !! x) eqn:E; [|done]. simpl. split.
    - intros d Hd. rewrite lookup_insert_ne; [done|]. intros <-. tauto.
    - intros c Hc. by right. }
  destruct Hd as [D1 D2]. split_and!; [| |auto|].
  - intros d Hd. rewrite elem_of_cons in Hd.
    assert ((d ∉ l) \/ d ∈ sel) by tauto. assert (d <> x \/ d ∈ sel) by tauto. by rewrite H1, D1.
  - intros d p [->|Hin]%elem_of_cons Hs E.
    + assert (Ed : discount sel fee weight st x = (<[x := {| mp_fee := fee_sub (mp_fee p) fee; mp_weight := sat_sub (mp_weight p) weight; mp_version := mp_version p +^ 1 |}]> st.1,
        as_candidate x {| mp_fee := fee_sub (mp_fee p) fee; mp_weight := sat_sub (mp_weight p) weight; mp_version := mp_version p +^ 1 |} :: st.2)).
      { unfold discount. by rewrite bool_decide_eq_false_2, E. }
      rewrite H1 by (by left). rewrite Ed in *. simpl in *. rewrite lookup_insert_eq. split; [done|]. apply H3. by left.
    + apply H2; [done..|]. rewrite D1; [done|]. left. intros ->. done.
  - intros c [Hc|(d & p & Hd & Hs & E & ->)]%H4.
    + unfold discount in Hc. case_bool_decide as Hs; [by left|]. destruct (st.1 !! x) as [p|] eqn:E; [|by left].
      apply elem_of_cons in Hc as [->|Hc]; [|by left]. right. exists x, p. split_and!; [by left|done..].
    + right. exists d, p. split_and!; [by right|done| |done]. rewrite D1 in E; [done|]. left. intros ->. done.
Qed.

Lemma unselected_grow sel s d : unselected m (sel ∪ {[s]}) d = unselected m sel d ∖ {[s]}.
Proof. unfold unselected. by rewrite difference_union_distr_r_L, difference_difference_l_L, <- difference_union_distr_r_L. Qed.

Lemma settle_tracked (live : bytes -> Prop) sel final W st s :
  in_pool m s -> s ∉ sel -> s ∈ final -> sel ⊆ final -> (forall d, live d <-> in_pool m d /\ d ∉ final) ->
  tracked live sel W st -> tracked live (sel ∪ {[s]}) W (settle m final st s).
Proof.
  intros Hs Hsel Hfin Hsub0 Hlive0 [Hmt Hhp Hkeys Hmeas]. unfold settle.
  assert (Hlive : forall d, live d -> in_pool m d /\ d ∉ final) by (intros d; apply Hlive0). destruct (fan_out_descendants m Hm s Hs) as [HN HF].
  destruct (discounts final (entry_fee m s) (adjusted_weight m s) _ (delete s st.1, st.2) HN) as (D1 & D2 & D3 & D4).
  set (F := fan_out _ _ _ _) in *. set (st' := foldl _ _ F) in *. cbn [fst snd] in *.
  assert (Hne : forall d, live d -> d <> s) by (intros d Hd ->; by destruct (Hlive s Hd)).
  assert (Hold : forall d, live d -> exists v, delete s st.1 !! d = Some (metrics_of sel d v) /\ st.1 !! d = Some (metrics_of sel d v)).
  { intros d Hd. destruct (Hmt d Hd) as [v E]. exists v. split; [|done]. rewrite lookup_delete_ne; [done|].
    symmetry. by apply Hne. }
  assert (Hcase : forall d, live d -> ((d ∉ F) /\ unselected m (sel ∪ {[s]}) d = unselected m sel d) \/ (d ∈ F /\ s ∈ unselected m sel d)).
  { intros d Hd. destruct (decide (d ∈ F)) as [Hin|Hin]; [right|left]; (split; [done|]).
    - apply (elem_of_unselected m Hm). split; [|done]. right. apply HF in Hin as [->|?]; [by destruct (Hne s Hd)|done].
    - rewrite unselected_grow. apply set_eq. intros x. rewrite elem_of_difference, elem_of_singleton. split; [tauto|].
      intros Hx. split; [done|]. intros ->. apply (elem_of_unselected m Hm) in Hx as [[->|Ha] _]; [by destruct (Hne d Hd)|].
      apply Hin, HF. by right. }
  assert (Hnew : forall d, live d -> exists v, st'.1 !! d = Some (metrics_of (sel ∪ {[s]}) d v)).
  { intros d Hd. destruct (Hold d Hd) as (v & E & _). destruct (Hcase d Hd) as [[Hin Eu]|[Hin Hu]].
    + exists v. rewrite D1 by (by left). by unfold metrics_of; rewrite Eu.
    + exists (v +^ 1). destruct (Hlive d Hd) as [Hdp Hdf]. destruct (D2 d _ Hin Hdf E) as [-> _].
      f_equal. unfold metrics_of. cbn [mp_fee mp_weight mp_version].
      pose proof (unselected_dom sel d Hdp) as Hsub. pose proof (weight_bound _ Hsub) as Hw.
      assert (Hsub' : unselected m (sel ∪ {[s]}) d ⊆ dom (entries m)) by (by apply unselected_dom).
      pose proof (weight_bound _ Hsub') as Hw'. pose proof (fee_bound _ Hsub') as Hf'.
      rewrite unselected_grow in *. rewrite !set_sum_diff in * by done.
      unfold fee_sub, sat_sub. rewrite sat_i128_id by lia. f_equal. lia. }
  split; [exact Hnew|..].
  - intros d p Hd Ep. destruct (Hold d Hd) as (v & E & E0). destruct (Hcase d Hd) as [[Hin Eu]|[Hin Hu]].
    + rewrite D1 in Ep by (by left). rewrite E in Ep. injection Ep as <-.
      destruct (Hhp d _ Hd E0) as [Hc|?]; [|by right]. left. by apply D3.
    + destruct (Hlive d Hd) as [_ Hdf]. destruct (D2 d _ Hin Hdf E) as [Ed Hc]. rewrite Ed in Ep. injection Ep as <-. by left.
  - intros d p Ep. destruct (decide (d ∈ F)) as [Hin|Hin].
    + apply HF in Hin as [->|Ha]; [done|]. by apply ancestor_in_pool in Ha as [].
    + rewrite D1 in Ep by (by left). apply lookup_delete_Some in Ep as [_ Ep]. by apply Hkeys in Ep.
  - apply Forall_forall. intros c [Hc|(d & p & Hin & Hdf & Ep & ->)]%D4; [by rewrite Forall_forall in Hmeas; apply Hmeas|].
    destruct (D2 d p Hin Hdf Ep) as [E' _]. apply lookup_delete_Some in Ep as [_ Hd%Hkeys].
    destruct (Hnew d) as [v E2]; [by apply Hlive0|]. rewrite E2 in E'. apply Some_inj in E'. rewrite <- E'.
    apply metrics_measured; [done|]. rewrite elem_of_union, elem_of_singleton. intros [?| ->]; auto.
Qed.

Lemma settles_tracked (live : bytes -> Prop) final W l sel st :
  NoDup l -> (forall s, s ∈ l -> in_pool m s /\ (s ∉ sel) /\ s ∈ final) ->
  sel ⊆ final -> (forall d, live d <-> in_pool m d /\ d ∉ final) -> tracked live sel W st ->
  tracked live (sel ∪ list_to_set l) W (foldl (settle m final) st l).
Proof.
  intros Hn. revert sel st. induction Hn as [|s l Hin Hn IH]; intros sel st Hl Hsub Hlive Ht; cbn [foldl list_to_set].
  { by rewrite union_empty_r_L. }
  destruct (Hl s) as (Hs & Hsel & Hfin); [by left|]. rewrite union_assoc_L. apply IH; [| |done|by apply settle_tracked].
  2: { apply union_least; [done|]. by apply singleton_subseteq_l. }
  intros x Hx. destruct (Hl x) as (? & ? & ?); [by right|]. split; [done|]. split; [|done].
  rewrite elem_of_union, elem_of_singleton. intros [?| ->]; done.
Qed.

(** ** The loop *)

(** A package fits what is left of the block and meets its minimum fee rate. *)
Definition package_fits (sel q : gset bytes) : Prop :=
  weight_of sel + weight_of q <= limit /\ (nn = true -> 0 <= fee_of_set q) /\
  (minf <> 0 -> minf * ((weight_of q + 3) / 4) <= 1000 * fee_of_set q).

Definition higher_rate (q p : gset bytes) : Prop := fee_of_set q * weight_of p <= fee_of_set p * weight_of q.

(** The package of the highest rate among those that fit after [sel]. *)
Definition best_package (sel : gset bytes) (l : list bytes) : Prop :=
  exists id, in_pool m id /\ (id ∉ sel) /\ (forall x, x ∈ l <-> x ∈ unselected m sel id) /\
    package_fits sel (unselected m sel id) /\
    forall id', in_pool m id' -> id' ∉ sel -> package_fits sel (unselected m sel id') ->
      higher_rate (unselected m sel id') (unselected m sel id).

Fixpoint greedy (sel : gset bytes) (packages : list (list bytes)) : Prop :=
  match packages with
  | [] => True
  | l :: packages => best_package sel l /\ greedy (sel ∪ list_to_set l) packages
  end.

Lemma greedy_snoc sel ps l :
  greedy sel (ps ++ [l]) <-> greedy sel ps /\ best_package (sel ∪ list_to_set (concat ps)) l.
Proof.
  revert sel. induction ps as [|p ps IH]; intros sel; simpl.
  - rewrite union_empty_r_L. tauto.
  - rewrite IH, list_to_set_app_L, union_assoc_L. tauto.
Qed.

Lemma unfit_spec sel id : in_pool m id -> sel ⊆ dom (entries m) ->
  let q := unselected m sel id in
  unfit (weight_of sel) limit minf nn (fee_of_set q) (weight_of q) = false <-> package_fits sel q.
Proof.
  intros Hid Hsel q. pose proof (unselected_dom sel id Hid) as Hd. fold q in Hd.
  pose proof (weight_bound q Hd). pose proof (fee_bound q Hd). pose proof (weight_bound sel Hsel).
  unfold unfit, package_fits, sat_add, umax, fee_mul. rewrite !Z.min_l, sat_i128_id by lia.
  rewrite !orb_false_iff, !andb_false_iff, !Z.ltb_ge, negb_false_iff, Z.eqb_eq.
  destruct nn; destruct (decide (minf = 0)); intuition (try lia; try discriminate).
Qed.

Record chosen (s : selection) : Prop := {
  ch_closed : closed m (sel_selected s);
  ch_pool : sel_selected s ⊆ dom (entries m);
  ch_set : forall x, x ∈ sel_selected s <-> x ∈ sel_ordered s;
  ch_NoDup : NoDup (sel_ordered s);
  ch_order : forall l1 c l2 p, sel_ordered s = l1 ++ c :: l2 -> child_of m p c -> p ∈ l1;
  ch_weight : sel_weight s = weight_of (sel_selected s);
  ch_limit : sel_weight s <= limit;
  ch_packages : exists packages, sel_ordered s = concat packages /\ greedy ∅ packages;
}.

Definition remaining (s : selection) (id : bytes) : Prop := in_pool m id /\ id ∉ sel_selected s.

Definition up_to_date (s : selection) : Prop :=
  tracked (remaining s) (sel_selected s) (sel_weight s) (sel_metrics s, sel_heap s).

(** Nothing more can be taken. *)
Definition exhausted (s : selection) : Prop := forall id, remaining s id ->
  ~ package_fits (sel_selected s) (unselected m (sel_selected s) id).

Lemma fresh_not_stale s id p :
  remaining s id -> sel_metrics s !! id = Some p -> stale (sel_metrics s) (sel_selected s) (as_candidate id p) = false.
Proof.
  intros [_ Hn] E. unfold stale. simpl. rewrite bool_decide_eq_false_2, E by done. simpl. by rewrite !Z.eqb_refl.
Qed.

Lemma all_rejected_exhausted s :
  up_to_date s -> chosen s ->
  (forall c, c ∈ sel_heap s -> stale (sel_metrics s) (sel_selected s) c = true \/
    unfit (sel_weight s) limit minf nn (mc_fee c) (mc_weight c) = true) -> exhausted s.
Proof.
  intros [Ht Hh _ _] Hch Hall id Hid. destruct (Ht id Hid) as [v E]. simpl in E.
  rewrite <- unfit_spec, <- (ch_weight s Hch), not_false_iff_true; [|apply Hid|apply (ch_pool s Hch)].
  destruct (Hh id _ Hid E) as [Hc|?]; [|done]. destruct (Hall _ Hc) as [Hs|?]; [|done].
  rewrite (fresh_not_stale s id) in Hs; done.
Qed.

(** The state after the package of [id] is taken. *)
Definition take_package (s : selection) (id : bytes) (heap : list MiningCandidate) (order : list bytes) : selection :=
  let package := unselected m (sel_selected s) id in
  let st := foldl (settle m (sel_selected s ∪ package)) (sel_metrics s, heap) (set_iter package) in
  {| sel_selected := sel_selected s ∪ package; sel_ordered := sel_ordered s ++ order;
     sel_weight := sel_weight s +^ package_weight m package; sel_metrics := st.1; sel_heap := st.2 |}.

Section Take.
Context (s : selection) (id : bytes) (order : list bytes) (heap : list MiningCandidate).
Context (Hch : chosen s) (Hid : remaining s id).
Context (HN : NoDup order) (HE : forall x, x ∈ order <-> x ∈ unselected m (sel_selected s) id).
Context (HO' : forall l1 c l2 p, order = l1 ++ c :: l2 -> child_of m p c -> p ∈ sel_selected s \/ p ∈ l1).
Context (Hfits : package_fits (sel_selected s) (unselected m (sel_selected s) id)).
Context (Hbest : forall id', remaining s id' -> package_fits (sel_selected s) (unselected m (sel_selected s) id') ->
  higher_rate (unselected m (sel_selected s) id') (unselected m (sel_selected s) id)).
Let package := unselected m (sel_selected s) id.

Lemma package_disjoint : sel_selected s ## package.
Proof. intros x Hx [_ ?]%(elem_of_unselected m Hm). done. Qed.

Lemma take_weight : sel_weight s +^ package_weight m package = weight_of (sel_selected s ∪ package) /\
  sel_weight s <= sel_weight s +^ package_weight m package <= limit.
Proof.
  pose proof (unselected_dom (sel_selected s) id (proj1 Hid)) as Hd. fold package in Hd.
  pose proof (ch_pool s Hch) as Hp. rewrite package_weight_exact by done.
  pose proof (set_sum_union (adjusted_weight m) _ _ package_disjoint) as E.
  pose proof (weight_bound (sel_selected s ∪ package)) as Hb.
  assert (Hsub : sel_selected s ∪ package ⊆ dom (entries m)) by (by apply union_least). specialize (Hb Hsub).
  pose proof (weight_bound package Hd). pose proof (ch_weight s Hch).
  destruct Hfits as [H1 _]. fold package in H1. unfold sat_add, umax in *. lia.
Qed.

Lemma take_chosen : chosen (take_package s id heap order).
Proof.
  pose proof take_weight as [Hw Hl]. destruct Hch as [C1 C2 C3 C4 C5 C6 C7 (packages & Ep & Hpk)].
  unfold take_package. fold package. split; cbn [sel_selected sel_ordered sel_weight]; try done; try lia.
  - intros p c Hpc [Hc|Hc]%elem_of_union; [apply elem_of_union_l; by apply (C1 p c)|].
    destruct (unselected_partial m Hm (sel_selected s) id p c Hpc Hc); [by apply elem_of_union_r|by apply elem_of_union_l].
  - apply union_least; [done|]. apply unselected_dom, Hid.
  - intros x. by rewrite elem_of_union, elem_of_app, C3, HE.
  - apply NoDup_app. split_and!; [done| |done]. intros x Hx%C3 Ho%HE. by apply (package_disjoint x).
  - intros l1 c l2 p E Hpc. apply app_eq_inv in E as [(k & E1 & E)|(k & E1 & E2)].
    + destruct k as [|y k].
      * rewrite app_nil_r in E1. simpl in E. destruct (HO' [] c l2 p) as [Hp|?%not_elem_of_nil]; [done..| |done].
        rewrite <- E1. by apply C3.
      * injection E as -> ->. by apply (C5 l1 y k p).
    + rewrite E1. destruct (HO' k c l2 p) as [Hp|Hp]; [done..| |].
      * apply elem_of_app. left. by apply C3.
      * apply elem_of_app. by right.
  - exists (packages ++ [order]). rewrite concat_app, Ep. simpl. rewrite app_nil_r. split; [done|].
    apply greedy_snoc. split; [done|]. rewrite union_empty_l_L, <- Ep.
    replace (list_to_set (sel_ordered s)) with (sel_selected s).
    { exists id. split_and!; [apply Hid|apply Hid|done|done|]. intros id' ? ?. by apply Hbest. }
    apply set_eq. intros x. by rewrite elem_of_list_to_set, C3.
Qed.

Lemma take_up_to_date :
  up_to_date s -> (forall c, c ∈ heap -> c ∈ sel_heap s) ->
  (forall c, c ∈ sel_heap s -> c ∈ heap \/ mc_txid c = id \/ stale (sel_metrics s) (sel_selected s) c = true \/
    unfit (sel_weight s) limit minf nn (mc_fee c) (mc_weight c) = true) ->
  up_to_date (take_package s id heap order).
Proof.
  intros [Ht Hh Hk Hmeas] Hsubh Hheap. assert (E : sel_selected s ∪ package = sel_selected s ∪ list_to_set (set_iter package)).
  { f_equal. apply set_eq. intros x. by rewrite elem_of_list_to_set, elem_of_set_iter. }
  assert (T : tracked (remaining (take_package s id heap order)) (sel_selected s ∪ list_to_set (set_iter package))
    (sel_weight s +^ package_weight m package)
    (foldl (settle m (sel_selected s ∪ package)) (sel_metrics s, heap) (set_iter package))).
  2: { rewrite <- E in T. unfold up_to_date, take_package. fold package.
       cbn [sel_selected sel_weight sel_metrics sel_heap]. by rewrite <- surjective_pairing. }
  apply settles_tracked.
  - rewrite set_iter_perm. apply NoDup_elements.
  - intros x Hx%elem_of_set_iter. split; [apply in_pool_dom; by apply (unselected_dom (sel_selected s) id (proj1 Hid))|].
    split; [by apply (elem_of_unselected m Hm) in Hx as [_ ?]|by apply elem_of_union_r].
  - apply union_subseteq_l.
  - intros d. unfold remaining, take_package. by cbn [sel_selected].
  - assert (Hlive : forall d, remaining (take_package s id heap order) d -> remaining s d /\ d <> id).
    { intros d [Hd Hn]. unfold take_package in Hn. cbn [sel_selected] in Hn. rewrite elem_of_union in Hn. split; [split; tauto|].
      intros ->. apply Hn. right. apply (elem_of_unselected m Hm). split; [by left|apply Hid]. }
    split.
    + intros d Hd%Hlive. apply Ht, Hd.
    + intros d p Hd%Hlive Ep. destruct Hd as [Hd Hne]. cbn [fst snd] in *. destruct (Hh d p Hd Ep) as [Hc|Hu].
      * destruct (Hheap _ Hc) as [?|[?|[Hs|Hu]]]; [by left|done| |].
        -- rewrite (fresh_not_stale s d p Hd Ep) in Hs. done.
        -- right. eapply unfit_mono; [|exact Hu]. apply take_weight.
      * right. eapply unfit_mono; [|exact Hu]. apply take_weight.
    + exact Hk.
    + apply Forall_forall. intros c Hc%Hsubh. rewrite Forall_forall in Hmeas. by apply Hmeas.
Qed.
End Take.

(** A candidate that is not stale is the package of its transaction. *)
Lemma fresh_candidate s c :
  up_to_date s -> stale (sel_metrics s) (sel_selected s) c = false ->
  remaining s (mc_txid c) /\ mc_fee c = fee_of_set (unselected m (sel_selected s) (mc_txid c)) /\
  mc_weight c = weight_of (unselected m (sel_selected s) (mc_txid c)).
Proof.
  intros [Ht _ Hk _] Hs. unfold stale in Hs. apply orb_false_iff in Hs as [Hn Hs]. bool_to_prop.
  destruct (sel_metrics s !! mc_txid c) as [p|] eqn:E; [|done]. bool_to_prop.
  assert (Hr : remaining s (mc_txid c)) by (split; [by apply (Hk _ p)|done]). split; [done|].
  destruct (Ht _ Hr) as [v E']. simpl in E'. rewrite E in E'. injection E' as ->. simpl in *. lia.
Qed.

Lemma taken_is_best s c :
  up_to_date s -> chosen s ->
  mc_fee c = fee_of_set (unselected m (sel_selected s) (mc_txid c)) ->
  mc_weight c = weight_of (unselected m (sel_selected s) (mc_txid c)) ->
  (forall x, x ∈ sel_heap s -> (stale (sel_metrics s) (sel_selected s) x = true \/
    unfit (sel_weight s) limit minf nn (mc_fee x) (mc_weight x) = true) \/ rate_le x c) ->
  forall id', remaining s id' -> package_fits (sel_selected s) (unselected m (sel_selected s) id') ->
    higher_rate (unselected m (sel_selected s) id') (unselected m (sel_selected s) (mc_txid c)).
Proof.
  intros [Ht Hh _ _] Hch Ef Ew Hbest id' Hr Hf. destruct (Ht id' Hr) as [v E]. simpl in E.
  apply unfit_spec in Hf; [|apply Hr|apply (ch_pool s Hch)]. rewrite <- (ch_weight s Hch) in Hf.
  assert (Hin : as_candidate id' (metrics_of (sel_selected s) id' v) ∈ sel_heap s).
  { destruct (Hh id' _ Hr E) as [?|Hu]; [done|]. simpl in Hu. congruence. }
  destruct (Hbest _ Hin) as [[Hs|Hu]|Hle]; simpl in *; [|congruence|].
  - by rewrite (fresh_not_stale s id' _ Hr E) in Hs.
  - unfold rate_le in Hle. simpl in Hle. unfold higher_rate. by rewrite <- Ef, <- Ew.
Qed.

Lemma mining_loop_correct fuel s :
  (size (dom (entries m) ∖ sel_selected s) < fuel)%nat -> chosen s -> up_to_date s ->
  chosen (mining_loop fuel m limit minf nn s) /\ exhausted (mining_loop fuel m limit minf nn s).
Proof.
  revert s. induction fuel as [|fuel IH]; intros s Hf Hch Hup; [lia|]. cbn [mining_loop].
  destruct (Nat.ltb_spec (size (sel_selected s)) (size (entries m))) as [Hlt|Hge].
  2: { split; [done|]. intros id [Hid Hn]. exfalso. apply Hn.
       rewrite size_entries_dom in Hge. rewrite (set_subseteq_size_eq _ _ (ch_pool s Hch) Hge). by apply in_pool_dom. }
  pose proof (next_mining_candidate_spec (length (sel_heap s)) (sel_heap s) (sel_metrics s) (sel_selected s) (sel_weight s)
    limit minf nn (Nat.le_refl _) (tk_measured _ _ _ _ Hup)) as Hnext.
  destruct (next_mining_candidate _ _ _ _ _ _ _ _) as [[c|] heap]; cbn zeta in Hnext.
  2: { pose proof (all_rejected_exhausted s Hup Hch Hnext) as He. split; [|exact He].
       destruct Hch; by split. }
  destruct Hnext as (Hc & Hok & Hsubh & Hheap & Hbest).
  destruct (stale (sel_metrics s) (sel_selected s) c) eqn:Es; [tauto|].
  destruct (unfit (sel_weight s) limit minf nn (mc_fee c) (mc_weight c)) eqn:Eu; [tauto|].
  destruct (fresh_candidate s c Hup Es) as ([Hid Hn] & Ef & Ew).
  rewrite Ef, Ew, (ch_weight s Hch), unfit_spec in Eu by (try done; apply (ch_pool s Hch)).
  assert (Hrate := taken_is_best s c Hup Hch Ef Ew Hbest).
  destruct (collect_package m Hm (sel_selected s) (mc_txid c) (ch_closed s Hch) Hid) as [V ->].
  pose proof (append_package m Hm (sel_selected s) (mc_txid c) (ch_closed s Hch) Hid Hn) as Hap.
  destruct (append_mining_package _ _ _ _ _) as [sel' order]. destruct Hap as (-> & HN & HE & HO').
  pose proof (take_chosen s (mc_txid c) order heap Hch (conj Hid Hn) HN HE HO' Eu Hrate) as Hch'.
  assert (Hup' : up_to_date (take_package s (mc_txid c) heap order)).
  { apply take_up_to_date; try done. intros x Hx. destruct (Hheap x Hx) as [?|[->|?]]; tauto. }
  unfold take_package in Hch', Hup'. destruct (foldl _ _ _) as [metrics' heap'] eqn:Efold. apply IH; [|done|done].
  cbn [sel_selected]. eapply Nat.lt_le_trans; [|apply Nat.lt_succ_r, Hf].
  apply subset_size. split.
  - intros x [Hx Hnx]%elem_of_difference. apply elem_of_difference. split; [done|]. intros ?. apply Hnx. by apply elem_of_union_l.
  - intros Hsub. destruct (proj1 (elem_of_difference (dom (entries m)) (sel_selected s ∪ unselected m (sel_selected s) (mc_txid c)) (mc_txid c))) as [_ Hx].
    + apply Hsub, elem_of_difference. split; [by apply in_pool_dom|done].
    + apply Hx, elem_of_union_r, (elem_of_unselected m Hm). tauto.
Qed.

Lemma initial_ok : 0 <= limit -> chosen (initial_selection m) /\ up_to_date (initial_selection m).
Proof.
  intros Hl. unfold initial_selection. pose proof initial_tracked as Ht.
  destruct (foldl (initial_metrics m) (∅, []) (keys m)) as [metrics heap]. split.
  - split; cbn [sel_selected sel_ordered sel_weight]; try done.
    + intros x. rewrite elem_of_nil. split; [apply not_elem_of_empty|done].
    + constructor.
    + intros l1 c l2 p E. by destruct l1.
    + exists []. by split.
  - destruct Ht as [H1 H2 H3 H4]. split; cbn [sel_selected sel_weight sel_metrics sel_heap]; [|intros id p [Hid _]; by apply H2|done|done].
    intros id [Hid _]. by apply H1.
Qed.

Lemma mining_selection_correct : 0 <= limit ->
  let s := mining_loop (S (size (entries m))) m limit minf nn (initial_selection m) in chosen s /\ exhausted s.
Proof.
  intros Hl. destruct (initial_ok Hl) as [Hch Hup]. apply mining_loop_correct; [|done|done].
  unfold initial_selection. destruct (foldl _ _ _). cbn [sel_selected]. rewrite difference_empty_L, size_entries_dom. lia.
Qed.
End Selection.
