(* ===== verification/MempoolTheorems.v ===== *)
(** * Properties of the mempool

    The theorems about the pool as a whole, with a concrete instance of the
    interfaces on which they are evaluated. *)

From Stdlib Require Import ZArith Lia SpecFloat.
From stdpp Require Import base list option strings gmap sorting relations.
From S2P Require Import Prelude Types VersionBits BlockChecks UtxoCodec ConnectBlock Ledger.
From S2P Require Import FeeRate Mempool MempoolIndex MempoolGraph MempoolSafety MempoolAccept MempoolChain MempoolMining.
Local Open Scope Z_scope.
Local Open Scope sat_scope.

Section Theorems.
Context {Ops : BitcoinOps} {SOps : ScriptOps} {POps : MempoolOps} {C : Consensus Transaction}.
Context {L : Layout} {HO : HashOrder} {Pol : PolicyOps} {TL : TxidLaws} {PL : PolicyLaws}.

(** ** The node's steps

    The operations on the pool besides admission and blocks. *)
Inductive pool_op :=
| OpRemoveRecursive (id : bytes)
| OpPrioritise (id : bytes) (delta : Z)
| OpAddUnbroadcast (id : bytes)
| OpRemoveUnbroadcast (id : bytes)
| OpSetLimit (limit : Z)
| OpRebuildChildren
| OpExpire (now age : Z)
| OpEnforceLimit.

Definition run_op (op : pool_op) (m : Mempool) : Mempool :=
  match op with
  | OpRemoveRecursive id => remove_recursive id m
  | OpPrioritise id delta => prioritise id delta m
  | OpAddUnbroadcast id => add_unbroadcast id m
  | OpRemoveUnbroadcast id => remove_unbroadcast id m
  | OpSetLimit limit => set_limit limit m
  | OpRebuildChildren => rebuild_children_index m
  | OpExpire now age => clear_expired now age m
  | OpEnforceLimit => enforce_size_limit m
  end.

(** The UTXO set and the pool, step by step: admissions against the current
    coins, blocks the ledger accepts, and the operations above. *)
Inductive node_step : gmap OutPoint StoredUtxo * Mempool -> gmap OutPoint StoredUtxo * Mempool -> Prop :=
| step_accept u m chain opts now at_time t m' r :
    view_utxo chain = u -> accept_at_with_sequence chain opts now at_time t m = (m', r) -> fits m' ->
    node_step (u, m) (u, m')
| step_block u m h mtp block now ess u' :
    ledger_block h mtp block u = Some (ess, u') -> Forall outputs_fit (txdata block) ->
    node_step (u, m) (u', connect_pool block now m)
| step_op u m op : node_step (u, m) (u, run_op op m).

Definition node_ok (s : gmap OutPoint StoredUtxo * Mempool) : Prop :=
  utxo_outputs s.1 /\ pool_ok s.2 /\ follows s.1 s.2.

Lemma run_op_ok op m : pool_ok m -> pool_ok (run_op op m) /\ keeps_parents m (run_op op m).
Proof.
  intros Hm. destruct op as [id|id d|id|id|n| |now age|]; cbn [run_op].
  - split; [by apply remove_recursive_ok|]. exact (remove_recursives_keeps [id] m Hm).
  - split; [by apply prioritise_ok|]. apply keeps_same. unfold prioritise. by destruct (_ && _).
  - split; [by apply add_unbroadcast_ok|]. apply keeps_same. unfold add_unbroadcast. by destruct (contains m id).
  - split; [by apply remove_unbroadcast_ok|]. by apply keeps_same.
  - split; [by apply pool_ok_limit|]. by apply keeps_same.
  - split; [by apply rebuild_ok|]. by apply keeps_same.
  - split; [by apply remove_recursives_ok|by apply remove_recursives_keeps].
  - unfold enforce_size_limit. pose proof (ensure_space_spec 0 ∅ m Hm) as H.
    destruct (ensure_space 0 ∅ m) as [m' r]. by destruct H as (? & ? & _).
Qed.

Lemma node_step_ok s s' : node_step s s' -> node_ok s -> node_ok s'.
Proof.
  intros [u m chain opts now at_time t m' r <- E Hfit|u m h mtp block now ess u' El Hfit|u m op] (Hu & Hm & Hf);
    simpl in *.
  - split; [done|]. destruct r as [id|e].
    + destruct (accept_Ok chain opts now at_time t m m' id Hm Hf Hu E Hfit) as (? & ? & _ & _ & _ & _ & _ & ? & ?). done.
    + destruct (accept_Err chain opts now at_time t m m' e Hm E). split; [done|]. by apply (keeps_follows _ m).
  - split; [by apply (connect_utxo_outputs h mtp block u ess)|]. split; [by apply connect_pool_ok|].
    by apply (connect_pool_follows h mtp block now u ess u').
  - destruct (run_op_ok op m Hm). split; [done|]. split; [done|]. by apply (keeps_follows _ m).
Qed.

Lemma new_pool_ok p limit now electrum u :
  pool_ok (new_pool p limit now electrum) /\ follows u (new_pool p limit now electrum).
Proof.
  assert (Hn : forall id e, entries (new_pool p limit now electrum) !! id = Some e -> False).
  { intros id e. simpl. by rewrite lookup_empty. }
  split; [split; [split|split; [split|..]]|split]; try done; simpl.
  all: try (unfold msum; rewrite map_to_list_empty; simpl; unfold umax; lia).
  - intros w id. rewrite lookup_empty. split; [done|]. by intros (e & []%Hn & _).
  - intros o id. rewrite lookup_empty. split; [done|]. by intros (e & []%Hn & _).
  - split; simpl; try done. intros id script. rewrite at_key_empty. split; [done|]. intros (s & E & _).
    simpl in E. by rewrite lookup_empty in E.
  - intros p' c. rewrite at_key_empty. split; [done|]. by intros ([e []%Hn] & _).
  - by intros id o (e & []%Hn & _).
  - by intros id v [e []%Hn].
Qed.

Lemma node_steps_ok s s' : rtc node_step s s' -> node_ok s -> node_ok s'.
Proof. induction 1 as [|a b c Hab _ IH]; [done|]. intros Ha. by apply IH, (node_step_ok a b). Qed.

(** C5: whatever the node does, from an empty pool and through any sequence of
    admissions, blocks, removals, expiries, evictions and limit changes, the
    audit of the pool passes; no two pool transactions spend the same outpoint;
    and the pool extends the ledger: every input is an output of the pool or an
    unspent coin, and no pool transaction is confirmed. *)
Theorem mempool_safe p limit now electrum u0 u m :
  utxo_outputs u0 -> rtc node_step (u0, new_pool p limit now electrum) (u, m) ->
  check_consistency m = Ok () /\ follows u m /\
  forall id1 id2 o, spends m id1 o -> spends m id2 o -> id1 = id2.
Proof.
  intros Hu Hs. destruct (new_pool_ok p limit now electrum u0) as [Hm Hf].
  destruct (node_steps_ok _ _ Hs) as (_ & [Hfit Hc] & Hfol); [done|]. simpl in *. split_and!.
  - by apply check_consistency_Ok.
  - done.
  - intros id1 id2 o H1%(c_spent m (c_indexed m Hc)) H2%(c_spent m (c_indexed m Hc)). congruence.
Qed.

(** The debug audit accepts exactly the consistent pools: when the byte,
    virtual-byte and memory totals fit in 64 bits, [check_consistency] returns
    [Ok] if and only if every index (spent outpoints, children, witness ids,
    scripts, weights, sequences, totals, unbroadcast ids) is the one the
    entries determine. *)
Theorem audit_decides_consistency m : fits m -> check_consistency m = Ok () <-> consistent m.
Proof. apply check_consistency_Ok. Qed.

(** [transaction_order] lists every pool transaction exactly once, and
    each after all the pool transactions it spends. *)
Theorem transaction_order_topological m :
  pool_ok m ->
  NoDup (transaction_order m) /\ (forall id, id ∈ transaction_order m <-> in_pool m id) /\
  parents_first m (transaction_order m).
Proof. intros [_ Hm]. apply order_spec, (c_indexed m Hm). Qed.

(** The graph queries are the closures they name: [ancestors] and
    [descendants] are the transitive closure of the spending relation in either
    direction, [connected_component] and the cluster of a new transaction the
    reachable part of the undirected graph. *)
Theorem graph_queries_exact m id t x :
  pool_ok m ->
  (x ∈ ancestors m id <-> ancestor m x id) /\ (x ∈ descendants m id <-> ancestor m id x) /\
  (x ∈ connected_component m id <-> in_pool m id /\ rtc (linked m) id x) /\
  (x ∈ ancestors_for_transaction m t <->
    exists p, p ∈ input_txids t /\ in_pool m p /\ (x = p \/ ancestor m x p)).
Proof.
  intros [_ Hm]. pose proof (c_indexed m Hm) as Hi. split_and!.
  - apply (ancestors_spec m id Hi).
  - apply (descendants_spec m id Hm).
  - by apply connected_component_spec.
  - by apply ancestors_for_transaction_spec.
Qed.


(** The package evicted first is a transaction with all its descendants,
    touches nothing protected, and pays the lowest fee per virtual byte of all
    such packages. *)
Theorem eviction_takes_cheapest m protected ev :
  pool_ok m -> fees_fit m -> lowest_eviction_package m protected = Some ev ->
  (forall x, x ∈ ev_package ev <-> x = ev_txid ev \/ ancestor m (ev_txid ev) x) /\
  (forall x, x ∈ ev_package ev -> x ∉ protected) /\
  forall id ev', in_pool m id -> eviction_candidate m protected id = Some ev' ->
    ev_fee ev * ev_vsize ev' <= ev_fee ev' * ev_vsize ev.
Proof.
  intros Hm Hf E. destruct (lowest_eviction_candidate m protected ev E) as (id & Hid & Hc).
  destruct (eviction_candidate_Some m protected id ev (proj2 Hm) Hc) as (-> & Hp & Hpr & _). split_and!; [done..|].
  intros id' ev' Hid'. apply (lowest_fold_least m protected (keys m) None ev Hm Hf); [done|exact E|].
  by apply elem_of_keys.
Qed.

(** An accepted transaction is recorded with the fee it pays: every input
    was unspent in the pool and resolved to a pool output or a mature coin of
    the chain, the fee is what the inputs hold beyond the outputs, and no
    amount left its range. *)
Theorem accepted_fee_exact chain opts now at_time t m m' id :
  pool_ok m -> follows (view_utxo chain) m -> utxo_outputs (view_utxo chain) ->
  accept_at_with_sequence chain opts now at_time t m = (m', Ok id) -> fits m' ->
  id = compute_txid t /\ NoDup (input_outpoints t) /\
  exists coins e, Forall2 (fun i c => resolve_input chain m (previous_output i) = Ok c) (tx_input t) coins /\
    (forall i, i ∈ tx_input t -> spent m !! previous_output i = None) /\
    entries m' !! id = Some e /\ transaction e = t /\ 0 <= fee_sat e /\
    accept_outputs (tx_output t) 0 = Ok (foldr Z.add 0 (map (fun c => value (output c)) coins) - fee_sat e).
Proof.
  intros Hm Hf Hu E Hfit. destruct (accept_Ok chain opts now at_time t m m' id Hm Hf Hu E Hfit)
    as (a & m1 & Ha & _ & -> & -> & Had & _ & _).
  apply assess_Ok in Ha as (_ & _ & Hn & Hd & HF & _ & Hfee & Hout). split; [done|]. split; [done|].
  exists (as_coins a). eexists. split_and!; [done| |apply admit_lookup; [done|]; by left|done|done|].
  - intros i Hi. apply Hd. apply list_elem_of_fmap. by exists i.
  - unfold as_outputs in Hout. rewrite map_map in Hout. exact Hout.
Qed.

(** C12: connecting a block keeps the pool an extension of the ledger: after
    the conflicts and the confirmed transactions are removed, every input of
    every remaining transaction is an output of the pool or a coin of the new
    UTXO set, no remaining transaction is confirmed, and none spends what the
    block spent. *)
Theorem block_keeps_pool_valid h mtp block now u ess u' m :
  pool_ok m -> follows u m -> ledger_block h mtp block u = Some (ess, u') -> Forall outputs_fit (txdata block) ->
  let m' := connect_pool block now m in
  pool_ok m' /\ follows u' m' /\ forall id o, spends m' id o -> ~ block_spends block o.
Proof.
  intros Hm Hf El Hfit. cbn zeta. split_and!.
  - by apply connect_pool_ok.
  - by apply (connect_pool_follows h mtp block now u ess u').
  - intros id o. by apply connect_pool_unspent.
Qed.

(** The cleanup after a reorganization is exact: every transaction left
    finds all its inputs, mature and final at the new tip; and whatever was
    removed failed that test itself or descends from one that did. *)
Theorem reorg_cleanup_exact chain m :
  pool_ok m ->
  let m' := remove_for_reorg chain m in
  pool_ok m' /\
  (forall id e, entries m' !! id = Some e -> invalid_after_reorg chain m' (transaction e) = false) /\
  (forall id, in_pool m id -> ~ in_pool m' id ->
    exists a f, entries m !! a = Some f /\ invalid_after_reorg chain m (transaction f) = true /\
      (id = a \/ ancestor m a id)).
Proof.
  intros Hm. cbn zeta. pose proof (fun x e => remove_for_reorg_lookup chain m x e Hm) as Hl.
  pose proof (remove_for_reorg_keeps chain m Hm) as Hk. split_and!.
  - by apply remove_for_reorg_ok.
  - intros id e E. assert (invalid_after_reorg chain m (transaction e) = false) as <-.
    { apply not_true_iff_false. intros Hi. apply Hl in E as [E H]. by destruct (H id e E Hi). }
    unfold invalid_after_reorg. rewrite (mapM_ext _ (reorg_coin chain m)); [done|].
    intros o Ho. apply (reorg_coin_kept chain m _ id); [done|]. by exists e.
  - intros id [e E] Hn. pose proof (fun a => proj1 (proj2 (descendants_spec m a (proj2 Hm))) id) as Hd.
    destruct (decide (Exists (fun a => id = a \/ id ∈ descendants m a)
      (map fst (List.filter (fun p => invalid_after_reorg chain m (transaction p.2)) (map_iter (entries m))))))
      as [(a & (f & Ef & Hi)%elem_of_reorg_list & Ha)%Exists_exists|Hno].
    + exists a, f. by rewrite <- Hd.
    + destruct Hn. exists e. apply Hl. split; [done|]. intros a f Ef Hi. rewrite <- Hd.
      assert (~ (id = a \/ id ∈ descendants m a)); [|tauto]. intros Ha. apply Hno, Exists_exists. exists a.
      split; [|done]. apply elem_of_reorg_list. eauto.
Qed.

(** C26: a block template is the greedy choice of packages.  The transactions
    selected are pool transactions, each once and after every pool transaction
    it spends; their weights fit the limit; they are a sequence of packages, a
    transaction with its ancestors not yet selected, each of the highest fee
    rate among the packages that fit and pay the minimum rate at that point;
    and when the selection ends no package that would fit is left. *)
Theorem mining_order_correct m max_weight reserved minf nn :
  pool_ok m -> mining_fits m ->
  let limit := sat_sub max_weight reserved in
  let order := mining_order_internal_with_min_fee m max_weight reserved minf nn in
  NoDup order /\ (forall id, id ∈ order -> in_pool m id) /\
  (forall l1 c l2 p, order = l1 ++ c :: l2 -> child_of m p c -> p ∈ l1) /\
  set_sum (adjusted_weight m) (list_to_set order) <= limit /\
  (exists packages, order = concat packages /\ greedy m limit minf nn ∅ packages) /\
  forall id, in_pool m id -> id ∉ order ->
    ~ package_fits m limit minf nn (list_to_set order) (unselected m (list_to_set order) id).
Proof.
  intros [_ Hm] Hfit limit order. assert (Hl : 0 <= limit) by (unfold limit, sat_sub; lia).
  destruct (mining_selection_correct m Hm Hfit limit minf nn Hl) as [[C1 C2 C3 C4 C5 C6 C7 C8] He].
  unfold exhausted, remaining in He. fold limit in order.
  change (sel_ordered _) with order in C3, C4, C5, C8. set (sel := sel_selected _) in *.
  assert (E : sel = list_to_set order) by (apply set_eq; intros x; by rewrite elem_of_list_to_set, C3).
  rewrite <- E. split_and!; [done| |done|lia|done|].
  - intros id Hid%C3. by apply in_pool_dom, C2.
  - intros id Hid Hn. apply He. split; [done|]. by rewrite C3.
Qed.
End Theorems.

(** ** A pool of two transactions

    Ids that carry the depth of a transaction and its outputs. *)

Definition encode_output (o : TxOut) : bytes := value o :: zlen (script_pubkey o) :: script_pubkey o.
Definition id_depth (id : bytes) : Z := default 0 (list.head id).
Definition pool_txid (t : Transaction) : bytes :=
  (1 + foldr Z.max 0 (map id_depth (input_txids t))) :: concat (map encode_output (tx_output t)).

Definition pool_ops : BitcoinOps := {|
  sha256d := @sha256d toy_ops; block_hash := @block_hash toy_ops; signet_genesis_hash := [];
  compute_txid := pool_txid; base_size := @base_size toy_ops; is_coinbase := @is_coinbase toy_ops;
  is_null := @is_null toy_ops; null_outpoint := @null_outpoint toy_ops;
  is_lock_time_enabled := @is_lock_time_enabled toy_ops; is_relative_lock_time := @is_relative_lock_time toy_ops;
  is_height_locked := @is_height_locked toy_ops; count_sigops_legacy := @count_sigops_legacy toy_ops;
  header_size := @header_size toy_ops; varint_size := @varint_size toy_ops; block_weight := @block_weight toy_ops;
  witness_root := @witness_root toy_ops; compute_witness_commitment := @compute_witness_commitment toy_ops;
  push_int := @push_int toy_ops; push_slice := @push_slice toy_ops; instructions := @instructions toy_ops;
  calculate_root := @calculate_root toy_ops; script_partial := @script_partial toy_ops;
  witness_partial := @witness_partial toy_ops; serialize_transaction := @serialize_transaction toy_ops;
  verify_with_flags := @verify_with_flags toy_ops |}.

Definition pool_mempool_ops : MempoolOps := {|
  compute_wtxid := pool_txid; tx_weight t := 4 * (60 + 9 * zlen (tx_output t));
  sha256 := fun b => b; hex_encode := fun b => b |}.
Definition pool_encoding : Consensus Transaction := {|
  serialize t := repeat 0 (60 + 9 * length (tx_output t)); deserialize _ := Err "none"%string;
  deserialize_partial _ := Err "none"%string |}.
Definition pool_layout : Layout := {| size_of _ := 8%N |}.
Definition pool_order : HashOrder := {|
  map_iter _ m := map_to_list m; set_iter s := elements s;
  map_iter_perm _ _ := Permutation_refl _; set_iter_perm _ := Permutation_refl _ |}.
Definition pool_policies : PolicyOps := {|
  reduced_data_error _ _ _ _ := None; standard_error _ _ _ _ _ := None; script_policy_error _ _ _ := None;
  mempool_scripts_error _ _ outs :=
    if forallb (fun o => negb (@is_unspendable_script toy_scripts (script_pubkey o))) outs then None else Some ErrScript;
  ephemeral_error _ _ := None; truc_error _ _ _ _ := None; powf_two _ := f64_of_u64 2 |}.

Lemma encode_outputs_inj l1 l2 : concat (map encode_output l1) = concat (map encode_output l2) -> l1 = l2.
Proof.
  revert l2. induction l1 as [|[v1 s1] l1 IH]; intros [|[v2 s2] l2] E; simpl in E; try done.
  injection E as -> Hl E. apply app_inj_1 in E as [-> E]; [|exact (Nat2Z.inj _ _ Hl)]. f_equal. by apply IH.
Qed.

Lemma depth_le id l : id ∈ l -> id_depth id <= foldr Z.max 0 (map id_depth l).
Proof. induction l as [|x l IH]; [by intros ?%not_elem_of_nil|]. intros [->|H]%elem_of_cons; simpl; [lia|]. specialize (IH H). lia. Qed.

Lemma pool_rank t id : id ∈ input_txids t -> (Z.to_nat (id_depth id) < Z.to_nat (id_depth (pool_txid t)))%nat.
Proof.
  intros H%depth_le. change (id_depth (pool_txid t)) with (1 + foldr Z.max 0 (map id_depth (input_txids t))).
  assert (0 <= foldr Z.max 0 (map id_depth (input_txids t))); [|lia].
  clear H. induction (map id_depth (input_txids t)); simpl; lia.
Qed.

Definition pool_laws : @TxidLaws pool_ops pool_mempool_ops :=
  @Build_TxidLaws pool_ops pool_mempool_ops (fun id => Z.to_nat (id_depth id)) pool_rank
    (fun t t' (E : pool_txid t = pool_txid t') => encode_outputs_inj _ _ (f_equal tail E)) (fun t t' E => E).

Definition pool_policy_laws : @PolicyLaws toy_scripts pool_policies.
Proof.
  constructor. intros chain t outs. simpl. destruct (forallb _ _) eqn:E; [|done]. intros _.
  apply Forall_forall. intros o Ho. rewrite forallb_forall in E. apply list_elem_of_In in Ho.
  specialize (E o Ho). by apply negb_true_iff in E.
Qed.

#[local] Existing Instances pool_ops toy_scripts pool_mempool_ops pool_encoding pool_layout pool_order
  pool_policies pool_laws pool_policy_laws.

Definition funds : OutPoint := {| txid := [0; 7]; vout := 0 |}.
Definition pool_coins : gmap OutPoint StoredUtxo :=
  {[ funds := {| output := pay 100000 [0x51]; height := 40; median_time_past := 6; coinbase := false |} ]}.
Definition pool_view (u : gmap OutPoint StoredUtxo) : ChainView :=
  {| view_utxo := u; serving_height := 200; serving_median_time_past := 1000; view_params := for_network Testnet;
     reduced_data_active_for_next_block := None |}.
Definition pool_options : AcceptOptions :=
  {| enforce_fee_rate := true; enforce_mempool_policy := true; enforce_truc_policy := true;
     check_ephemeral_spends := true; record_sequence := true; allow_truc_descendant_replacement := false;
     enforce_min_relay := true; force_truc_min_relay := true |}.
Definition pool_policy : MempoolPolicy :=
  {| min_relay_fee_sat_per_kvb := 1000; require_standard := true; truc_policy := TrucEnforce;
     incremental_relay_fee_sat_per_kvb := 1000; bytes_per_sigop := 20; cluster_count_limit := 64;
     cluster_vsize_limit := 101000 |}.

Definition parent_tx : Transaction := spending [funds] [pay 60000 [0x51]; pay 30000 [0x52]].
Definition child_tx : Transaction := spending [{| txid := pool_txid parent_tx; vout := 1 |}] [pay 29000 [0x51]].
Definition pool0 : Mempool := new_pool pool_policy 5000 0 true.
Definition pool1 : Mempool := (accept_at_with_sequence (pool_view pool_coins) pool_options 5 5 parent_tx pool0).1.
Definition pool2 : Mempool := (accept_at_with_sequence (pool_view pool_coins) pool_options 6 6 child_tx pool1).1.

Definition fits_check (m : Mempool) : bool :=
  forallb (fun p => 0 <=? vsize p.2) (map_to_list (entries m)) && (msum entry_bytes (entries m) <=? umax 64) &&
  (msum entry_vbytes (entries m) <=? umax 64) && (msum (entry_memory m) (entries m) <=? umax 64).
Lemma fits_by_check m : fits_check m = true -> fits m.
Proof.
  unfold fits_check. intros H. bool_to_prop. split; [|done..]. intros id e E. rewrite forallb_forall in *.
  apply elem_of_map_to_list, list_elem_of_In in E.
  match goal with H : forall x, _ -> _ |- _ => specialize (H _ E); simpl in H; by bool_to_prop end.
Qed.

Lemma pair_by_snd {A B} (p : A * B) b : p.2 = b -> p = (p.1, b).
Proof. intros <-. apply surjective_pairing. Qed.

Lemma pool1_accepted :
  accept_at_with_sequence (pool_view pool_coins) pool_options 5 5 parent_tx pool0 = (pool1, Ok (pool_txid parent_tx)).
Proof. unfold pool1. apply pair_by_snd. by vm_compute. Qed.
Lemma pool2_accepted :
  accept_at_with_sequence (pool_view pool_coins) pool_options 6 6 child_tx pool1 = (pool2, Ok (pool_txid child_tx)).
Proof. unfold pool2. apply pair_by_snd. by vm_compute. Qed.
Lemma pool1_fits : fits pool1.
Proof. apply fits_by_check. by vm_compute. Qed.
Lemma pool2_fits : fits pool2.
Proof. apply fits_by_check. by vm_compute. Qed.

(** A block that confirms the parent. *)
Definition pool_block : Block :=
  {| blk_header := blk_header toy_block; txdata := [spending [coin_id 0 0xffffffff] [pay 1 [0x51]]; parent_tx] |}.
Definition pool_ledger : list (list StoredUtxo) * gmap OutPoint StoredUtxo :=
  default ([], ∅) (ledger_block 201 1000 pool_block pool_coins).
Definition pool3 : Mempool := connect_pool pool_block 7 pool2.

Lemma pool_ledger_Some : ledger_block 201 1000 pool_block pool_coins = Some (pool_ledger.1, pool_ledger.2).
Proof.
  rewrite <- surjective_pairing. unfold pool_ledger.
  assert (H : match ledger_block 201 1000 pool_block pool_coins with Some _ => true | None => false end = true).
  { vm_compute. exact eq_refl. }
  by destruct (ledger_block 201 1000 pool_block pool_coins).
Qed.
Lemma pool_block_fits : Forall outputs_fit (txdata pool_block).
Proof. repeat constructor; unfold outputs_fit; simpl; lia. Qed.

Lemma pool_coins_outputs : utxo_outputs pool_coins.
Proof.
  intros o t [c Hc] E. unfold pool_coins in Hc. apply lookup_singleton_Some in Hc as [<- _].
  apply (f_equal id_depth) in E. change (id_depth (txid funds)) with 0 in E.
  change (1 + foldr Z.max 0 (map id_depth (input_txids t)) = 0) in E.
  assert (0 <= foldr Z.max 0 (map id_depth (input_txids t))); [|lia].
  clear E. induction (map id_depth (input_txids t)); simpl; lia.
Qed.

Lemma pool_steps2 : rtc node_step (pool_coins, pool0) (pool_coins, pool2).
Proof.
  apply (rtc_l _ _ (pool_coins, pool1)).
  { exact (step_accept _ _ (pool_view pool_coins) _ _ _ _ _ _ eq_refl pool1_accepted pool1_fits). }
  apply rtc_once. exact (step_accept _ _ (pool_view pool_coins) _ _ _ _ _ _ eq_refl pool2_accepted pool2_fits).
Qed.
Lemma pool_steps3 : rtc node_step (pool_coins, pool0) (pool_ledger.2, pool3).
Proof.
  eapply rtc_r; [exact pool_steps2|].
  exact (step_block _ _ 201 1000 pool_block 7 _ _ pool_ledger_Some pool_block_fits).
Qed.

Lemma pool0_node_ok : node_ok (pool_coins, pool0).
Proof.
  split; [exact pool_coins_outputs|]. exact (new_pool_ok pool_policy 5000 0 true pool_coins).
Qed.
Lemma pool1_node_ok : node_ok (pool_coins, pool1).
Proof.
  apply (node_step_ok (pool_coins, pool0)); [|exact pool0_node_ok].
  exact (step_accept _ _ (pool_view pool_coins) _ _ _ _ _ _ eq_refl pool1_accepted pool1_fits).
Qed.
Lemma pool2_node_ok : node_ok (pool_coins, pool2).
Proof. exact (node_steps_ok _ _ pool_steps2 pool0_node_ok). Qed.
Lemma pool2_ok : pool_ok pool2.
Proof. exact (proj1 (proj2 pool2_node_ok)). Qed.

Lemma mempool_safe_witness :
  check_consistency pool3 = Ok () /\ follows pool_ledger.2 pool3 /\
  forall id1 id2 o, spends pool3 id1 o -> spends pool3 id2 o -> id1 = id2.
Proof.
  pose proof (mempool_safe pool_policy 5000 0 true pool_coins pool_ledger.2 pool3 pool_coins_outputs pool_steps3) as H.
  exact H.
Defined.

Lemma audit_decides_consistency_witness : consistent pool2.
Proof. apply (audit_decides_consistency pool2 pool2_fits). vm_compute. exact eq_refl. Defined.

Lemma transaction_order_topological_witness : parents_first pool2 (transaction_order pool2).
Proof. exact (proj2 (proj2 (transaction_order_topological pool2 pool2_ok))). Defined.

Lemma graph_queries_exact_witness : ancestor pool2 (pool_txid parent_tx) (pool_txid child_tx).
Proof.
  apply (proj1 (graph_queries_exact pool2 (pool_txid child_tx) child_tx (pool_txid parent_tx) pool2_ok)).
  apply (bool_decide_unpack _). by vm_compute.
Defined.


Definition cheapest : eviction :=
  default {| ev_package := ∅; ev_txid := []; ev_vsize := 0; ev_fee := 0 |} (lowest_eviction_package pool2 ∅).
Lemma cheapest_found : lowest_eviction_package pool2 ∅ = Some cheapest.
Proof. unfold cheapest. destruct (lowest_eviction_package pool2 ∅) eqn:E; [done|]. by vm_compute in E. Qed.
Lemma pool2_fees_fit : fees_fit pool2.
Proof. unfold fees_fit. vm_compute. exact eq_refl. Qed.
Lemma eviction_takes_cheapest_witness :
  lowest_eviction_package pool2 ∅ = Some cheapest /\
  forall id ev', in_pool pool2 id -> eviction_candidate pool2 ∅ id = Some ev' ->
    ev_fee cheapest * ev_vsize ev' <= ev_fee ev' * ev_vsize cheapest.
Proof.
  pose proof (eviction_takes_cheapest pool2 ∅ cheapest pool2_ok pool2_fees_fit cheapest_found) as H.
  exact (conj cheapest_found (proj2 (proj2 H))).
Defined.

Lemma accepted_fee_exact_witness :
  exists coins e, Forall2 (fun i c => resolve_input (pool_view pool_coins) pool1 (previous_output i) = Ok c)
      (tx_input child_tx) coins /\
    entries pool2 !! pool_txid child_tx = Some e /\
    accept_outputs (tx_output child_tx) 0 = Ok (foldr Z.add 0 (map (fun c => value (output c)) coins) - fee_sat e).
Proof.
  destruct (accepted_fee_exact (pool_view pool_coins) pool_options 6 6 child_tx pool1 pool2 (pool_txid child_tx)
    (proj1 (proj2 pool1_node_ok)) (proj2 (proj2 pool1_node_ok)) pool_coins_outputs pool2_accepted pool2_fits)
    as (_ & _ & coins & e & H1 & _ & H3 & _ & _ & H6).
  exists coins, e. exact (conj H1 (conj H3 H6)).
Defined.

Lemma block_keeps_pool_valid_witness :
  pool_ok pool3 /\ follows pool_ledger.2 pool3 /\ forall id o, spends pool3 id o -> ~ block_spends pool_block o.
Proof.
  pose proof (block_keeps_pool_valid 201 1000 pool_block 7 pool_coins _ pool_ledger.2 pool2 pool2_ok
    (proj2 (proj2 pool2_node_ok)) pool_ledger_Some pool_block_fits) as H.
  exact H.
Defined.

(** A reorganization that loses the parent's input leaves nothing. *)
Lemma reorg_cleanup_exact_witness :
  pool_ok (remove_for_reorg (pool_view ∅) pool2) /\
  forall id, in_pool pool2 id -> ~ in_pool (remove_for_reorg (pool_view ∅) pool2) id ->
    exists a f, entries pool2 !! a = Some f /\ invalid_after_reorg (pool_view ∅) pool2 (transaction f) = true /\
      (id = a \/ ancestor pool2 a id).
Proof.
  pose proof (reorg_cleanup_exact (pool_view ∅) pool2 pool2_ok) as H.
  exact (conj (proj1 H) (proj2 (proj2 H))).
Defined.

Lemma pool2_mining_fits : mining_fits pool2.
Proof.
  split; [|by vm_compute|exact pool2_fees_fit]. intros id Hid%elem_of_keys.
  assert (H : Forall (fun id => 0 < adjusted_weight pool2 id) (keys pool2)).
  { apply (bool_decide_unpack _). by vm_compute. }
  rewrite Forall_forall in H. by apply H.
Qed.
Lemma mining_order_correct_witness :
  mining_order pool2 1000 100 = [pool_txid parent_tx; pool_txid child_tx] /\
  set_sum (adjusted_weight pool2) (list_to_set (mining_order pool2 1000 100)) <= 900.
Proof.
  pose proof (mining_order_correct pool2 1000 100 0 true pool2_ok pool2_mining_fits) as (_ & _ & _ & H & _).
  split; [by vm_compute|exact H].
Defined.
